(* ===== verification/_CoqProject ===== *)
-Q . S2P
Prelude.v
BTree.v
Round.v
Bytes.v
Unicode.v
UnicodeLookup.v
AllocatedRanges.v
Checksum.v
ChecksumList.v
ChecksumPush.v
Journal.v
JournalBlocks.v
JournalRead.v
JournalSession.v
LockKeys.v
LockManager.v
LockQueue.v
LockInv.v
LockSafety.v
LockDemo.v
Extent.v
LsmTypes.v
ObjectRecord.v
Merge.v
MergeProps.v
MergeQuery.v
ObjectKeyOrder.v
UnicodeIter.v
UnicodeNfd.v
UnicodeDemo.v
Segments.v
SegMerge.v
AllocMerge.v
AllocMergeInto.v
ObjMerge.v
ObjMergeProps.v
ObjMergeViews.v
ObjMergeSpec.v
ObjFind.v
SkipList.v
SkipListLevels.v
SkipListIter.v
SkipListCommit.v
SkipListSeek.v
SkipListFrame.v
AllocLayer.v
SkipListInstances.v
LsmTree.v
TreeCache.v
TreeCacheProps.v
ObjTree.v
ObjTreeDemo.v
BloomFilter.v
ChaCha.v
Crypto.v
CryptoProps.v
CryptoDemo.v
Directory.v
DirectoryProps.v
DirectoryScan.v
DirectoryDemo.v
Event.v
PersistentLayer.v
Chunks.v
ChunksProps.v
ChunksSafety.v
PersistentBlocks.v
PersistentRead.v
PersistentSeek.v
PersistentWrite.v
PersistentOpen.v
TreeFlush.v
ObjFlush.v
ObjFlushDemo.v
Strategy.v
StrategyOps.v
BufferAllocator.v
BufferTiling.v
BufferPool.v
BufferRef.v
