(* ===== verification/Prelude.v ===== *)
(** * Verification of the storage engine of fxfs

    fxfs is the file system under [src/userspace/storage/fxfs].  This library
    models its storage engine: the log-structured merge trees in which object
    stores and the allocator keep their records, from the skip list in memory
    to the layer files on the device and the functions that merge them; the
    journal that makes changes durable; the lock manager of transactions; the
    allocation of device space and of transfer buffers; the encryption of data
    and names; the comparison of names without case; and the directories, which
    use most of these.  Paths below are relative to [fxfs/src] unless they say
    otherwise.

    ** How the code is represented

    A Rust function is a Rocq function of the same name, in a module with the
    name of its type, which returns [res A]: a value ([Ok]), an error ([Err]),
    a panic ([Panic]), or [NoFuel] from a loop whose bound was too small.  The
    build modelled has debug assertions and overflow checks, so a failed
    [debug_assert!] and an overflow are panics.  Integers are [Z]; arithmetic
    on [u64] goes through [u64_add] and the like, which panic out of range, and
    what wraps is reduced explicitly.  Bytes are [Z] in [0, 256).  State that
    is changed through [&mut] or behind a mutex is passed along.  Asynchronous
    code runs from one await to the next; where tasks interleave
    ([LockManager], [TreeCache], [Chunks], readers of the skip list) a section
    between two awaits is a step.  Code with pointers ([SkipList], the wakers
    of [LockManager]) is modelled with a heap of addresses, in which following
    a pointer to something freed is a panic.  [BTreeMap] is a [gmap] with
    ordered queries ([BTree]), [Vec] and slices are lists.

    Loops that are not structural have fuel, and the theorems prove that an
    explicit amount is enough: the number of items still to be merged
    ([MergeInvariant]'s size), of nodes of the skip list, of bytes of a file,
    of blocks of the journal.  [NoFuel] never is a result in a theorem that
    says what an operation returns.

    ** Files

    Foundations.
    - [Prelude] (this file): outcomes, machine integers, folds, tactics.
    - [BTree], [Bytes]: ordered maps; little-endian bytes and UTF-8.
    - [Round]: [round.rs], [range.rs].  [Checksum]: [checksum.rs].

    Records.
    - [Extent]: [object_store/extent_record.rs].
    - [ObjectRecord], [ObjectKeyOrder]: [object_store/object_record.rs], and
      that the two orders of its keys fit together.
    - [LsmTypes]: the traits of [lsm_tree/types.rs] as type classes.

    Merging.
    - [Merge]: [lsm_tree/merge.rs], that is [Merger], [MergerIterator] and
      [merge_into].  [MergeProps] shows that it computes an abstract merge of
      streams ([scans]) for every merge function that keeps an invariant;
      [MergeQuery] does so for point queries, which consult only some layers.
    - [Segments], [SegMerge]: layers whose keys are ranges, what
      they show at a position, and how a step of a merge changes that.
    - [AllocMerge], [AllocMergeInto]: [object_store/allocator/merge.rs] and the
      keys and values of [object_store/allocator.rs].  After a merge, or after
      merging one extent into the mutable layer, each byte of the device has
      the state that the newest layer covering it gave.
    - [ObjMerge], [ObjMergeProps], [ObjMergeViews], [ObjMergeSpec],
      [ObjFind]: [object_store/merge.rs].  The merge never
      fails; extents, records, usage of projects and tombstones end up as the
      newest layers say, in order and well-formed.

    Layers and trees.
    - [SkipList], [SkipListLevels], [SkipListIter], [SkipListCommit],
      [SkipListSeek], [SkipListFrame], [AllocLayer], [SkipListInstances]:
      [lsm_tree/skip_list_layer.rs].  The operations on nodes and pointers
      implement those on a sorted list (the class [LayerIteratorMutLaws], which
      [AllocMergeInto] is proved against).
    - [BloomFilter]: [lsm_tree/bloom_filter.rs] with the hasher, the random
      numbers and the bit vector it uses.  It has no false negatives.
    - [PersistentLayer] with [PersistentBlocks], [PersistentRead],
      [PersistentSeek], [PersistentWrite], [PersistentOpen]:
      [lsm_tree/persistent_layer.rs].  A file that was written opens as a layer
      that serves exactly the items written, for every bound.
    - [Event], [Chunks], [ChunksProps], [ChunksSafety]:
      [object_store/caching_object_handle.rs], the cache through which layer
      files are read, with the vendored [event_listener].  However calls
      interleave and are dropped, each gets the bytes of the source, and
      whoever waits for a chunk is woken.
    - [LsmTree]: [lsm_tree.rs], [lsm_tree/cache.rs].  [TreeCache],
      [TreeCacheProps]: [object_store/tree_cache.rs], coherent with the tree
      also when searches and changes overlap.
    - [ObjTree], [ObjTreeDemo]: for keys other than those of extents and of a
      project's usage the tree of an object store refines a map from keys to
      values.
    - [TreeFlush], [ObjFlush], [ObjFlushDemo]: [object_store/tree.rs] and the
      major compaction of [object_store/flush.rs].  After a flush and opening
      the new file the tree is well-formed and has the extents, the usage and
      the other records it had.

    Names and keys.
    - [Unicode], [UnicodeLookup], [UnicodeIter], [UnicodeNfd],
      [UnicodeDemo]: [fxfs/unicode/src].  The generated tables answer as the
      Unicode database; [nfd] yields the canonical order, and [casefold_cmp]
      compares normal forms, the order of the keys of case-insensitive
      directories that [ObjectRecord] has as a parameter.
    - [ChaCha], [Crypto], [CryptoProps], [CryptoDemo]: [fxfs/crypto/src] with
      the vendored ChaCha20.  What was encrypted is decrypted, also from the
      middle, up to the last block of the key stream; object IDs are permuted.

    Directories.
    - [Directory]: [object_store/directory.rs] with the functions of
      [object_store.rs] and [object_store/transaction.rs] that it needs, on the
      records of a tree ([ObjTree] shows that the trees implement them).
    - [DirectoryProps]: a transaction as an update of the records in view;
      adding, renaming and unlinking as updates of a map from names to
      children, in plain and in unlocked encrypted directories.
    - [DirectoryScan]: directories whose children are searched for: without
      their key, and encrypted case-insensitive ones.  [DirectoryDemo]:
      instances.

    Journal.
    - [Journal], [JournalBlocks], [JournalRead], [JournalSession]:
      [object_store/journal/writer.rs], [reader.rs] and what
      [object_store/journal.rs] does with them.  Records that were synced are
      read back, also behind a reset.
    - [ChecksumList], [ChecksumPush]: [object_store/journal/checksum_list.rs].

    Transactions.
    - [LockKeys], [LockManager], [LockQueue], [LockInv], [LockSafety],
      [LockDemo]: the lock manager of [object_store/transaction.rs].  However
      tasks interleave, locks exclude each other, nothing panics and whoever
      waits, waits for a holder.

    Space.
    - [Strategy], [StrategyOps]: [object_store/allocator/strategy.rs] against
      the free space it tracks.
    - [AllocatedRanges]:
      [object_store/data_object_handle/allocated_ranges.rs].
    - [BufferAllocator], [BufferTiling], [BufferPool],
      [BufferRef]: [storage/lib/storage_device/src/buffer_allocator.rs] and
      [buffer.rs].  Buffers never overlap, and buddies are always joined.

    ** Parameters

    Serialization of records, of the header and of the layer info (derived
    code) is a parameter with the law that what was written is read back; so
    are the hash of a key, the floating-point estimates of the bloom filter,
    random heights and nonces, and the contents of devices.  The block cipher
    AES-256 (decryption inverts encryption), base64 (decoding inverts
    encoding), the keys that the key manager has, and what the Unicode
    Character Database says are parameters too.  Where a theorem has such a
    parameter, its witness instantiates it.

    ** Theorems about defects

    Some theorems state what the code does where that is not what it means to:
    [journal_reset_at_checkpoint], [locks_deadlock],
    [best_fit_free_misses_overlap], [buffer_allocate_panics],
    [first_item_fills_block], [open_larger_blocks], [casefold_hash_disagrees],
    [nfd_splits_vowel_signs], the panics in [unicode_lookup_agrees],
    [casefold_rename_buries], [encrypted_unlink_keeps_entry],
    [casefold_hash_not_encrypted], [encrypted_symlink_lost],
    [stream_cipher_wraps].  The main theorems
    have the hypotheses that exclude these cases.

    ** Not modelled

    The rest of the object store (committing transactions, file contents,
    creating objects with their keys, project IDs, extended attributes), the
    file system and fsck compose these parts asynchronously over a device and
    are I/O for the most part.  The atomics of the skip list are
    not: an operation of a layer is one step, so what a reader may see in the
    middle of a commit is outside the model.  Layer files of versions before
    39, derived serialization, inspect data, tracing and log messages are left
    out.  Outside fxfs: the platform component, vfs, the component framework,
    the other file systems, the kernel and the build, none of which the engine
    depends on. *)

From Stdlib Require Export ZArith Lia.
From stdpp Require Export base gmap sets list strings sorting.

Declare Scope fxfs_scope.
Delimit Scope fxfs_scope with fxfs.
#[global] Open Scope Z_scope.
#[global] Open Scope fxfs_scope.

(** ** Errors and outcomes *)

(** [FxfsError] of [fxfs/src/errors.rs]. *)
Inductive FxfsError : Set :=
| AlreadyExists | Inconsistent | Internal | NotDir | NotFile | NotFound
| NotEmpty | ReadOnlyFilesystem | NoSpace | Deleted | InvalidArgs | TooBig
| InvalidVersion | JournalFlushError | NotSupported | AccessDenied
| OutOfRange | AlreadyBound | BadPath | WrongType | IntegrityError
| Unavailable | NoKey.

(** An [anyhow::Error]: either rooted in an [FxfsError] (whatever context was
    attached to it) or an error of another origin ([bail!] with a message, an
    [std::io::Error]). *)
Inductive error : Set :=
| Fxfs (e : FxfsError)
| Other.

(** The outcome of a Rust call: a value, an [Err], or a panic.  The model is of
    the build with debug assertions: an arithmetic overflow, a failing
    [assert!] or [debug_assert!], an [unwrap] of [None] and an index out of
    range are all [Panic].  [NoFuel] is no outcome of the code: it marks a
    modelled loop that was not given enough fuel, and the termination theorems
    rule it out. *)
Inductive res (A : Type) : Type :=
| Ok (a : A)
| Err (e : error)
| Panic
| NoFuel.
Arguments Ok {_} _.
Arguments Err {_} _.
Arguments Panic {_}.
Arguments NoFuel {_}.

#[global] Instance FxfsError_eq_dec : EqDecision FxfsError.
Proof. solve_decision. Defined.
#[global] Instance error_eq_dec : EqDecision error.
Proof. solve_decision. Defined.
#[global] Instance res_eq_dec `{EqDecision A} : EqDecision (res A).
Proof. solve_decision. Defined.

#[global] Instance res_ret : MRet res := @Ok.
#[global] Instance res_bind : MBind res := λ _ _ f r,
  match r with Ok a => f a | Err e => Err e | Panic => Panic | NoFuel => NoFuel end.
#[global] Instance res_fmap : FMap res := λ _ _ f r,
  match r with Ok a => Ok (f a) | Err e => Err e | Panic => Panic | NoFuel => NoFuel end.

(** [assert!] and [debug_assert!]. *)
Definition rassert (b : bool) : res unit := if b then Ok tt else Panic.
(** [ensure!]. *)
Definition rensure (b : bool) (e : error) : res unit := if b then Ok tt else Err e.
(** [Option::unwrap]. *)
Definition unwrap {A} (o : option A) : res A :=
  match o with Some a => Ok a | None => Panic end.

Definition is_ok {A} (r : res A) : bool :=
  match r with Ok _ => true | _ => false end.

(** ** A method that takes [&mut self]

    The state survives an [Err]; after a panic it is whatever the call had
    reached. *)
Definition st (S A : Type) : Type := S → res A * S.

#[global] Instance st_ret {S} : MRet (st S) := λ _ a s, (Ok a, s).
#[global] Instance st_bind {S} : MBind (st S) := λ _ _ f m s,
  match m s with
  | (Ok a, s') => f a s'
  | (Err e, s') => (Err e, s')
  | (Panic, s') => (Panic, s')
  | (NoFuel, s') => (NoFuel, s')
  end.

Definition st_get {S} : st S S := λ s, (Ok s, s).
Definition st_put {S} (s : S) : st S unit := λ _, (Ok tt, s).
Definition st_lift {S A} (r : res A) : st S A := λ s, (r, s).
Definition st_fail {S A} (e : error) : st S A := λ s, (Err e, s).
(** [Result::unwrap] and [Result::expect]. *)
Definition st_expect {S A} (m : st S A) : st S A := λ s,
  match m s with (Err _, s') => (Panic, s') | r => r end.

(** [for x in l { body }]. *)
Fixpoint st_for {S A} (l : list A) (body : A → st S unit) : st S unit :=
  match l with
  | [] => mret tt
  | x :: l => body x ≫= λ _, st_for l body
  end.

(** [for x in l { state = body(state, x)?; }] over a state held in locals. *)
Fixpoint foldm {A S} (body : S → A → res S) (s : S) (l : list A) : res S :=
  match l with
  | [] => Ok s
  | x :: l => s ← body s x; foldm body s l
  end.

(** ** Machine integers

    [u64] and [usize] are 64 bits wide on both targets (arm64 and riscv64). *)
Definition u64_max : Z := 18446744073709551615.
Definition u32_modulus : Z := 4294967296.
Definition is_u64 (x : Z) : Prop := 0 ≤ x ≤ u64_max.

Definition u64_add (a b : Z) : res Z := if a + b <=? u64_max then Ok (a + b) else Panic.
Definition u64_sub (a b : Z) : res Z := if b <=? a then Ok (a - b) else Panic.
Definition u64_mul (a b : Z) : res Z := if a * b <=? u64_max then Ok (a * b) else Panic.
Definition u64_div (a b : Z) : res Z := if b =? 0 then Panic else Ok (a / b).
Definition u64_rem (a b : Z) : res Z := if b =? 0 then Panic else Ok (a `mod` b).
Definition checked_add (a b : Z) : option Z :=
  if a + b <=? u64_max then Some (a + b) else None.
Definition checked_div (a b : Z) : option Z :=
  if b =? 0 then None else Some (a / b).
Definition saturating_add (a b : Z) : Z := Z.min (a + b) u64_max.
Definition u32_wrapping_add (a b : Z) : Z := (a + b) `mod` u32_modulus.

#[global] Arguments u64_add : simpl never.
#[global] Arguments u64_sub : simpl never.
#[global] Arguments u64_mul : simpl never.
#[global] Arguments u64_div : simpl never.
#[global] Arguments u64_rem : simpl never.
#[global] Arguments saturating_add : simpl never.
#[global] Opaque u64_max.

(** ** [std::cmp::Ordering] *)
Definition cmp_then (c d : comparison) : comparison :=
  match c with Eq => d | _ => c end.

(** [std::ops::Bound]. *)
Inductive Bound (K : Type) : Type :=
| Unbounded
| Included (k : K)
| Excluded (k : K).
Arguments Unbounded {_}.
Arguments Included {_} _.
Arguments Excluded {_} _.

(** ** Tactics *)

(** Replaces the boolean comparisons of the goal by case splits. *)
Ltac bsplit :=
  repeat match goal with
  | |- context [Z.leb ?a ?b] => destruct (Z.leb_spec a b)
  | |- context [Z.ltb ?a ?b] => destruct (Z.ltb_spec a b)
  | |- context [Z.eqb ?a ?b] => destruct (Z.eqb_spec a b)
  end.

(** The same for the hypotheses. *)
Ltac bsplit_in H :=
  repeat match type of H with
  | context [Z.leb ?a ?b] => destruct (Z.leb_spec a b)
  | context [Z.ltb ?a ?b] => destruct (Z.ltb_spec a b)
  | context [Z.eqb ?a ?b] => destruct (Z.eqb_spec a b)
  end.

(** Runs the outcome monad without unfolding anything else. *)
Ltac res_simpl := cbn [mbind res_bind mret res_ret rassert rensure unwrap].
Tactic Notation "res_simpl" "in" hyp(H) :=
  cbn [mbind res_bind mret res_ret rassert rensure unwrap] in H.

Create HintDb fxfs.
Create Rewrite HintDb fxfs_arith.

(** ** Laws of the outcome monad *)
Lemma res_bind_ok {A B} (m : res A) (f : A → res B) b :
  m ≫= f = Ok b ↔ ∃ a, m = Ok a ∧ f a = Ok b.
Proof. destruct m; naive_solver. Qed.

Lemma st_bind_run {S A B} (m : st S A) (f : A → st S B) s :
  (m ≫= f) s =
    match m s with
    | (Ok a, s') => f a s'
    | (Err e, s') => (Err e, s')
    | (Panic, s') => (Panic, s')
    | (NoFuel, s') => (NoFuel, s')
    end.
Proof. reflexivity. Qed.

(** Runs the state monad. *)
Ltac st_simpl :=
  repeat (rewrite st_bind_run; cbn [mret st_ret st_get st_put st_lift st_fail unwrap]);
  cbn [mret st_ret st_get st_put st_lift st_fail unwrap].

Lemma st_for_app {S A} (l1 l2 : list A) (body : A → st S unit) s :
  st_for (l1 ++ l2) body s = (st_for l1 body ≫= λ _, st_for l2 body) s.
Proof.
  revert s; induction l1 as [|x l1 IH]; intros s; [reflexivity|].
  simpl. rewrite !st_bind_run.
  destruct (body x s) as [[a|e| |] s']; [|reflexivity..].
  rewrite IH. reflexivity.
Qed.

Lemma foldm_app {A S} (body : S → A → res S) s l1 l2 :
  foldm body s (l1 ++ l2) = (s ← foldm body s l1; foldm body s l2).
Proof.
  revert s. induction l1 as [|x l1 IH]; intros s; [done|]. cbn [app foldm].
  destruct (body s x); res_simpl; [apply IH|done..].
Qed.

(** A loop over the elements of a list that keeps an invariant. *)
Lemma foldm_inv {A S} (body : S → A → res S) (P : list A → S → Prop) l :
  (∀ pre x s, (∃ post, l = pre ++ x :: post) → P pre s → ∃ s', body s x = Ok s' ∧ P (pre ++ [x]) s') →
  ∀ s, P [] s → ∃ s', foldm body s l = Ok s' ∧ P l s'.
Proof.
  intros Hstep.
  assert (∀ pre post s, l = pre ++ post → P pre s → ∃ s', foldm body s post = Ok s' ∧ P l s') as Hgen.
  { intros pre post. revert pre. induction post as [|x post IH]; intros pre s Hl HP.
    - rewrite app_nil_r in Hl. subst. by exists s.
    - destruct (Hstep pre x s) as (s1 & Hb & HP1); [by eexists|done|].
      cbn [foldm]. rewrite Hb. res_simpl. apply (IH (pre ++ [x])); [|done]. by rewrite <- app_assoc. }
  intros s. by apply Hgen.
Qed.

(** ** Arithmetic without overflow *)
Lemma u64_add_ok a b : a + b ≤ u64_max → u64_add a b = Ok (a + b).
Proof. unfold u64_add; bsplit; [done|lia]. Qed.
Lemma u64_sub_ok a b : b ≤ a → u64_sub a b = Ok (a - b).
Proof. unfold u64_sub; bsplit; [done|lia]. Qed.
Lemma u64_mul_ok a b : a * b ≤ u64_max → u64_mul a b = Ok (a * b).
Proof. unfold u64_mul; bsplit; [done|lia]. Qed.
Lemma u64_div_ok a b : b ≠ 0 → u64_div a b = Ok (a / b).
Proof. unfold u64_div; bsplit; [lia|done]. Qed.
Lemma u64_rem_ok a b : b ≠ 0 → u64_rem a b = Ok (a `mod` b).
Proof. unfold u64_rem; bsplit; [lia|done]. Qed.

#[export] Hint Rewrite u64_add_ok u64_sub_ok u64_mul_ok u64_div_ok u64_rem_ok
  using lia : fxfs_arith.

Lemma u64_sub_inv a b c : u64_sub a b = Ok c → b ≤ a ∧ c = a - b.
Proof. unfold u64_sub; bsplit; naive_solver. Qed.
Lemma u64_add_inv a b c : u64_add a b = Ok c → a + b ≤ u64_max ∧ c = a + b.
Proof. unfold u64_add; bsplit; naive_solver. Qed.

Lemma mod_cong a b m k : m ≠ 0 → a = b + k * m → a `mod` m = b `mod` m.
Proof. intros ? ->. by apply Z.mod_add. Qed.

(** ** Filters *)
Lemma filter_all {A} (P : A → Prop) `{∀ x, Decision (P x)} l : Forall P l → filter P l = l.
Proof. induction 1 as [|x l Hx Hl IH]; [done|]. rewrite filter_cons_True by done. by rewrite IH. Qed.
Lemma filter_nothing {A} (P : A → Prop) `{∀ x, Decision (P x)} l : Forall (λ x, ¬ P x) l → filter P l = [].
Proof. induction 1 as [|x l Hx Hl IH]; [done|]. by rewrite filter_cons_False. Qed.
Lemma sorted_filter {A} (R : A → A → Prop) (P : A → Prop) `{∀ x, Decision (P x)} l : StronglySorted R l → StronglySorted R (filter P l).
Proof.
  induction 1 as [|x l Hl IH Hx]; [constructor|]. rewrite filter_cons. case_decide; [|done]. constructor; [done|].
  rewrite Forall_forall in Hx |- *. intros y [_ Hy]%list_elem_of_filter. by apply Hx.
Qed.
Lemma filter_fmap {A B} (f : A → B) (P : B → Prop) `{∀ x, Decision (P x)} (l : list A) : filter P (f <$> l) = f <$> filter (λ x, P (f x)) l.
Proof. induction l as [|x l IH]; [done|]. rewrite fmap_cons, !filter_cons, IH. by case_decide. Qed.
