(* ===== verification/BTree.v ===== *)
(** * [std::collections::BTreeMap] keyed by [u64]

    A [BTreeMap<u64, V>] is a [gmap Z V]; this file gives the ordered queries
    the storage engine makes of it ([range(k..)], [first], [last]) and the
    lemmas that characterise them by lookups.  It also has the binary search
    of a sorted slice. *)

From S2P Require Import Prelude.

Section btree.
Context {V : Type}.
Implicit Types (m : gmap Z V) (k : Z) (v : V).

Definition key_le (x y : Z * V) : Prop := x.1 ≤ y.1.

#[global] Instance key_le_dec x y : Decision (key_le x y).
Proof. unfold key_le; apply _. Defined.

(** The entries in ascending key order: [iter()]. *)
Definition bt_entries m : list (Z * V) := merge_sort key_le (map_to_list m).

(** [range(k..)]. *)
Definition bt_range_from m k : list (Z * V) :=
  filter (λ kv, k ≤ kv.1) (bt_entries m).

(** [range(k..).next()]. *)
Definition bt_first_ge m k : option (Z * V) := head (bt_range_from m k).

(** [iter().next()]. *)
Definition bt_first m : option (Z * V) := head (bt_entries m).

(** [iter().rev().next()]. *)
Definition bt_last m : option (Z * V) := last (bt_entries m).
End btree.

Section btree_lemmas.
Context {V : Type}.
Implicit Types (m : gmap Z V) (k : Z) (v : V).

#[local] Instance key_le_total : Total (key_le (V:=V)).
Proof. intros x y; unfold key_le; lia. Qed.
#[local] Instance key_le_trans : Transitive (key_le (V:=V)).
Proof. intros x y z; unfold key_le; lia. Qed.

Lemma bt_entries_perm m : bt_entries m ≡ₚ map_to_list m.
Proof. apply merge_sort_Permutation. Qed.

Lemma elem_of_bt_entries m k v : (k, v) ∈ bt_entries m ↔ m !! k = Some v.
Proof. by rewrite bt_entries_perm, elem_of_map_to_list. Qed.

Lemma bt_entries_sorted m : StronglySorted key_le (bt_entries m).
Proof. apply (StronglySorted_merge_sort _ _). Qed.

Lemma bt_entries_NoDup_fst m : NoDup (bt_entries m).*1.
Proof. rewrite bt_entries_perm. apply NoDup_fst_map_to_list. Qed.

Lemma bt_range_from_sorted m k : StronglySorted key_le (bt_range_from m k).
Proof.
  unfold bt_range_from. generalize (bt_entries_sorted m).
  induction (bt_entries m) as [|x l IH]; [constructor|]; intros [Hx Hl]%StronglySorted_cons.
  rewrite filter_cons. case_decide; [|auto]. apply StronglySorted_cons; split; [|auto].
  apply Forall_forall. intros y [_ Hy]%list_elem_of_filter.
  rewrite Forall_forall in Hx. auto.
Qed.

Lemma bt_range_from_NoDup_fst m k : NoDup (bt_range_from m k).*1.
Proof.
  eapply sublist_NoDup; [apply (bt_entries_NoDup_fst m)|]. apply fmap_sublist, sublist_filter.
Qed.

Lemma elem_of_bt_range_from m k k' v :
  (k', v) ∈ bt_range_from m k ↔ m !! k' = Some v ∧ k ≤ k'.
Proof.
  unfold bt_range_from. rewrite list_elem_of_filter, elem_of_bt_entries. simpl. tauto.
Qed.

Lemma head_sorted_min (l : list (Z * V)) x :
  StronglySorted key_le l → head l = Some x → ∀ y, y ∈ l → x.1 ≤ y.1.
Proof.
  destruct l as [|z l]; [done|]. intros [Hz _]%StronglySorted_cons [= ->] y.
  rewrite elem_of_cons. intros [->|Hy]; [lia|].
  rewrite Forall_forall in Hz. by apply Hz.
Qed.

(** [range(k..).next()] is the entry with the least key that is at least [k]. *)
Lemma bt_first_ge_Some m k k' v :
  bt_first_ge m k = Some (k', v) →
  m !! k' = Some v ∧ k ≤ k' ∧ ∀ j w, m !! j = Some w → k ≤ j → k' ≤ j.
Proof.
  intros Hh.
  assert (Hin : (k', v) ∈ bt_range_from m k).
  { unfold bt_first_ge in Hh. destruct (bt_range_from m k); [done|].
    injection Hh as ->. by left. }
  apply elem_of_bt_range_from in Hin as [??]. split_and!; [done|done|].
  intros j w Hj Hle.
  apply (head_sorted_min _ (k', v) (bt_range_from_sorted m k) Hh (j, w)).
  by apply elem_of_bt_range_from.
Qed.

Lemma bt_first_ge_None m k :
  bt_first_ge m k = None ↔ ∀ j w, m !! j = Some w → j < k.
Proof.
  unfold bt_first_ge. split.
  - intros Hh j w Hj. destruct (bt_range_from m k) eqn:E; [|done].
    apply Z.lt_nge. intros Hle.
    assert (Hin : (j, w) ∈ bt_range_from m k) by by apply elem_of_bt_range_from.
    rewrite E in Hin. by apply elem_of_nil in Hin.
  - intros Hall. destruct (bt_range_from m k) as [|[j w] l] eqn:E; [done|].
    assert (Hin : (j, w) ∈ bt_range_from m k) by (rewrite E; by left).
    apply elem_of_bt_range_from in Hin as [Hj ?]. specialize (Hall _ _ Hj). lia.
Qed.

Lemma bt_first_ge_unique m k k' v :
  m !! k' = Some v → k ≤ k' → (∀ j w, m !! j = Some w → k ≤ j → k' ≤ j) →
  bt_first_ge m k = Some (k', v).
Proof.
  intros Hk Hle Hmin. destruct (bt_first_ge m k) as [[j w]|] eqn:E.
  - apply bt_first_ge_Some in E as (Hj & ? & Hmin').
    specialize (Hmin _ _ Hj). specialize (Hmin' _ _ Hk).
    assert (j = k') as -> by lia. congruence.
  - rewrite bt_first_ge_None in E. specialize (E _ _ Hk). lia.
Qed.

(** [iter().rev().next()] is the entry with the greatest key. *)
Lemma bt_last_Some m k v :
  bt_last m = Some (k, v) → m !! k = Some v ∧ ∀ j w, m !! j = Some w → j ≤ k.
Proof.
  unfold bt_last. intros Hl. apply last_Some in Hl as [l Hl].
  split.
  - apply elem_of_bt_entries. rewrite Hl. apply elem_of_app. right. by left.
  - intros j w Hj. apply elem_of_bt_entries in Hj.
    pose proof (bt_entries_sorted m) as Hs. rewrite Hl in Hj, Hs.
    apply StronglySorted_app in Hs as (Hs & _ & _).
    apply elem_of_app in Hj as [Hj|Hj].
    + apply (Hs _ (k, v) Hj). by left.
    + apply list_elem_of_singleton in Hj. injection Hj as -> ->. lia.
Qed.

Lemma bt_last_None m : bt_last m = None ↔ m = ∅.
Proof.
  unfold bt_last. split.
  - intros Hl%last_None. apply map_empty. intros k.
    destruct (m !! k) as [v|] eqn:E; [|done].
    apply elem_of_bt_entries in E. rewrite Hl in E. by apply elem_of_nil in E.
  - intros ->. unfold bt_entries. by rewrite map_to_list_empty.
Qed.
End btree_lemmas.

(** ** [BTreeSet<u64>] *)
Section bset.
Implicit Types (s : gset Z) (x : Z).

(** In ascending order: [iter()]. *)
Definition bs_entries s : list Z := merge_sort Z.le (elements s).
(** [first()] and [last()]. *)
Definition bs_first s : option Z := head (bs_entries s).
Definition bs_last s : option Z := last (bs_entries s).

Lemma elem_of_bs_entries s x : x ∈ bs_entries s ↔ x ∈ s.
Proof. unfold bs_entries. by rewrite merge_sort_Permutation, elem_of_elements. Qed.

Lemma bs_entries_sorted s : StronglySorted Z.le (bs_entries s).
Proof. apply (StronglySorted_merge_sort _ _). Qed.

Lemma bs_first_Some s x : bs_first s = Some x → x ∈ s ∧ ∀ y, y ∈ s → x ≤ y.
Proof.
  unfold bs_first. pose proof (bs_entries_sorted s) as Hs.
  setoid_rewrite <- (elem_of_bs_entries s). destruct (bs_entries s) as [|z l]; [done|].
  intros [= ->]. apply StronglySorted_cons in Hs as [Hs _]. rewrite Forall_forall in Hs.
  split; [by left|]. intros y [->|Hy]%elem_of_cons; [lia|auto].
Qed.

Lemma bs_first_None s : bs_first s = None ↔ s = ∅.
Proof.
  unfold bs_first. split.
  - intros Hh. apply set_eq. intros x. rewrite <- elem_of_bs_entries.
    destruct (bs_entries s); [set_solver|done].
  - intros ->. unfold bs_entries. by rewrite elements_empty.
Qed.

Lemma bs_last_Some s x : bs_last s = Some x → x ∈ s ∧ ∀ y, y ∈ s → y ≤ x.
Proof.
  unfold bs_last. pose proof (bs_entries_sorted s) as Hs. setoid_rewrite <- (elem_of_bs_entries s).
  intros [l Hl]%last_Some. rewrite Hl in *. apply StronglySorted_app in Hs as (Hx & _ & _).
  split; [set_solver|]. intros y [Hy| ->%list_elem_of_singleton]%elem_of_app; [|lia].
  apply Hx; set_solver.
Qed.

Lemma bs_last_None s : bs_last s = None ↔ s = ∅.
Proof.
  unfold bs_last. rewrite last_None. split.
  - intros Hh. apply set_eq. intros x. rewrite <- elem_of_bs_entries, Hh. set_solver.
  - intros ->. unfold bs_entries. by rewrite elements_empty.
Qed.
End bset.

(** ** [slice::binary_search] *)

(** [slice::binary_search] of a sorted list: the index of the element, or the
    index at which to insert it. *)
Definition binary_search (l : list Z) (x : Z) : nat + nat :=
  let i := length (filter (λ y, y < x) l) in
  if decide (l !! i = Some x) then inl i else inr i.

Section binary_search.
Implicit Types (l : list Z) (x : Z).

Lemma filter_none l x : Forall (Z.le x) l → filter (λ y, y < x) l = [].
Proof. induction 1 as [|y l Hy _ IH]; [done|]. rewrite filter_cons, decide_False by lia. done. Qed.

Lemma sorted_split_at l x :
  StronglySorted Z.lt l →
  take (length (filter (λ y, y < x) l)) l = filter (λ y, y < x) l ∧
  drop (length (filter (λ y, y < x) l)) l = filter (λ y, ¬ y < x) l.
Proof.
  induction 1 as [|y l Hs [IH1 IH2] Hy]; [done|]. rewrite !filter_cons.
  destruct (decide (y < x)) as [Hlt|Hge].
  - rewrite decide_False by lia. cbn. by rewrite IH1, IH2.
  - rewrite decide_True by done.
    assert (filter (λ y, y < x) l = []) as Hnil.
    { apply filter_none. eapply Forall_impl; [exact Hy|]. cbn. lia. }
    rewrite Hnil in *. split; [done|]. cbn [length drop] in *. by f_equal.
Qed.

Lemma binary_search_found l x i :
  StronglySorted Z.lt l → binary_search l x = inl i →
  x ∈ l ∧ StronglySorted Z.lt (delete i l) ∧ ∀ y, y ∈ delete i l ↔ y ∈ l ∧ y ≠ x.
Proof.
  intros Hs. unfold binary_search. generalize (length (filter (λ y, y < x) l)). intros j.
  case_decide as Hi; [|done]. intros [= <-].
  apply list_elem_of_split_length in Hi as (l1 & l2 & -> & ->). rewrite delete_middle.
  apply StronglySorted_app in Hs as (Hlt & H1 & H2).
  apply StronglySorted_cons in H2 as [Hx H2]. rewrite Forall_forall in Hx. split_and!.
  - set_solver.
  - apply StronglySorted_app. split_and!; [|done..]. intros y z Hy Hz. apply Hlt; [done|by right].
  - intros y. rewrite !elem_of_app, elem_of_cons. split; [|tauto]. intros [Hy|Hy].
    + assert (y < x) by (apply Hlt; [done|by left]). split; [by left|lia].
    + specialize (Hx y Hy). split; [by auto|lia].
Qed.

Lemma binary_search_missing l x i :
  StronglySorted Z.lt l → binary_search l x = inr i →
  (x ∉ l) ∧ StronglySorted Z.lt (take i l ++ x :: drop i l) ∧
  ∀ y, y ∈ take i l ++ x :: drop i l ↔ y ∈ l ∨ y = x.
Proof.
  intros Hs. unfold binary_search. case_decide as Hi; [done|]. intros [= <-].
  destruct (sorted_split_at l x Hs) as [Ht Hd]. set (j := length _) in *.
  assert (x ∉ l) as Hx.
  { intros Hin. assert (x ∈ filter (λ y, ¬ y < x) l) as Hx by (apply list_elem_of_filter; split; [lia|done]).
    rewrite <- Hd in Hx. pose proof Hs as Hs'. rewrite <- (take_drop j l) in Hs'.
    apply StronglySorted_app in Hs' as (_ & _ & Hs').
    destruct (drop j l) as [|y d] eqn:E; [by apply elem_of_nil in Hx|].
    apply elem_of_cons in Hx as [->|Hx].
    - apply Hi. replace j with (j + 0)%nat by lia. rewrite <- lookup_drop, E. done.
    - apply StronglySorted_cons in Hs' as [Hy _]. rewrite Forall_forall in Hy. specialize (Hy x Hx).
      assert (y ∈ filter (λ y, ¬ y < x) l) as Hyf by (rewrite <- Hd; by left).
      apply list_elem_of_filter in Hyf as [? _]. lia. }
  split; [done|]. pose proof Hs as Hs'. rewrite <- (take_drop j l) in Hs'.
  apply StronglySorted_app in Hs' as (Hlt & H1 & H2). split.
  - apply StronglySorted_app. split_and!; [|done|].
    + intros y z Hy [->|Hz]%elem_of_cons; [|by apply Hlt]. rewrite Ht in Hy. by apply list_elem_of_filter in Hy as [? _].
    + apply StronglySorted_cons. split; [|done]. apply Forall_forall. intros y Hy.
      assert (y ≠ x) by (intros ->; apply Hx; rewrite <- (take_drop j l); set_solver).
      rewrite Hd in Hy. apply list_elem_of_filter in Hy as [? _]. lia.
  - intros y. rewrite <- (take_drop j l) at 3. rewrite !elem_of_app, elem_of_cons. tauto.
Qed.

Lemma sorted_partition {A} (f : A → Z) (l : list A) x :
  StronglySorted (λ a b, f a < f b) l →
  ∃ (l1 l2 : list A), l = l1 ++ l2 ∧ Forall (λ a, f a < x) l1 ∧ Forall (λ a, x ≤ f a) l2.
Proof.
  induction 1 as [|a l Hs IH Ha]; [by exists [], []|]. destruct (decide (f a < x)) as [Hlt|Hge].
  - destruct IH as (l1 & l2 & -> & H1 & H2). exists (a :: l1), l2. by split_and!; [|constructor|].
  - exists [], (a :: l). split_and!; [done|constructor|]. constructor; [lia|].
    eapply Forall_impl; [exact Ha|]. cbn. lia.
Qed.

(** [binary_search_by_key]: where the elements with smaller keys end. *)
Lemma binary_search_by {A} (f : A → Z) (l : list A) x :
  StronglySorted (λ a b, f a < f b) l →
  ∃ (l1 l2 : list A), l = l1 ++ l2 ∧ Forall (λ a, f a < x) l1 ∧ Forall (λ a, x ≤ f a) l2 ∧
    binary_search (f <$> l) x =
      if decide (f <$> head l2 = Some x) then inl (length l1) else inr (length l1).
Proof.
  intros Hs. destruct (sorted_partition f l x Hs) as (l1 & l2 & -> & H1 & H2). exists l1, l2.
  split_and!; [done..|]. unfold binary_search.
  assert (filter (λ y, y < x) (f <$> l1 ++ l2) = f <$> l1) as ->.
  { rewrite fmap_app, filter_app, (filter_none (f <$> l2)), app_nil_r by (by apply Forall_fmap).
    clear - H1. induction H1 as [|a l1 Ha _ IH]; [done|]. by rewrite fmap_cons, filter_cons, decide_True, IH. }
  rewrite fmap_app, lookup_app_r by done. rewrite length_fmap, Nat.sub_diag. by destruct l2.
Qed.
End binary_search.
