(* ===== verification/Round.v ===== *)
(** * Rounding and ranges

    [fxfs/src/round.rs] and [fxfs/src/range.rs]: rounding to a block size and
    the half-open byte ranges every other component is built on. *)

From S2P Require Import Prelude.

(** ** [std::ops::Range<u64>] *)
Record range : Set := Rng { start : Z; end_ : Z }.
Notation "a '..<' b" := (Rng a b) (at level 50, no associativity) : fxfs_scope.

#[global] Instance range_eq_dec : EqDecision range.
Proof. solve_decision. Defined.

(** [Range::is_empty]. *)
Definition range_is_empty (r : range) : bool := end_ r <=? start r.

(** ** round.rs *)
Definition round_down (offset block_size : Z) : res Z :=
  m ← u64_rem offset block_size;
  u64_sub offset m.

Definition round_up (offset block_size : Z) : res (option Z) :=
  one ← u64_div block_size block_size;
  b ← u64_sub block_size one;
  match checked_add offset b with
  | None => Ok None
  | Some s => d ← round_down s block_size; Ok (Some d)
  end.

Definition round_div (numerator denominator : Z) : option Z :=
  checked_add numerator (denominator / 2) ≫= λ s, checked_div s denominator.

Definition how_many (value item_size : Z) : res Z :=
  items ← u64_div value item_size;
  remainder ← u64_rem value item_size;
  if negb (remainder =? 0) then u64_add items 1 else Ok items.

(** ** range.rs *)
Module Range.
Definition is_valid (r : range) : bool := start r <=? end_ r.

Definition length (r : range) : res Z :=
rensure (is_valid r) (Fxfs Inconsistent) ≫= λ _, u64_sub (end_ r) (start r).

Definition is_aligned (r : range) (block_size : Z) : res bool :=
a ← u64_rem (start r) block_size;
if a =? 0 then b ← u64_rem (end_ r) block_size; Ok (b =? 0) else Ok false.

Definition split (r : range) (split_point : Z) : res (option range * option range) :=
rassert (negb (range_is_empty r)) ≫= λ _,
if split_point <=? start r then Ok (None, Some r)
else if end_ r <=? split_point then Ok (Some r, None)
else Ok (Some (start r ..< split_point), Some (split_point ..< end_ r)).
End Range.

(** ** Membership *)
Definition in_range (p : Z) (r : range) : Prop := start r ≤ p < end_ r.

#[global] Instance in_range_dec p r : Decision (in_range p r).
Proof. unfold in_range; apply _. Defined.

(** Membership in an optional range: [None] holds nothing. *)
Definition in_orange (p : Z) (r : option range) : Prop :=
  match r with Some r => in_range p r | None => False end.

Lemma range_is_empty_spec r : range_is_empty r = true ↔ ∀ p, ¬ in_range p r.
Proof.
  unfold range_is_empty, in_range. rewrite Z.leb_le. split; [lia|].
  intros H. specialize (H (start r)). lia.
Qed.

(** A byte of one of the ranges. *)
Definition within (l : list range) (p : Z) : Prop := ∃ r, r ∈ l ∧ in_range p r.

Lemma within_nil p : within [] p ↔ False.
Proof. split; [|done]. by intros (r & ?%elem_of_nil & _). Qed.

Lemma within_cons r l p : within (r :: l) p ↔ in_range p r ∨ within l p.
Proof.
  unfold within. split.
  - intros (q & [->|Hq]%elem_of_cons & Hp); [by left|right; by exists q].
  - intros [Hp|(q & Hq & Hp)]; [exists r|exists q]; (split; [|done]); [by left|by right].
Qed.

Lemma within_app l1 l2 p : within (l1 ++ l2) p ↔ within l1 p ∨ within l2 p.
Proof.
  induction l1 as [|r l1 IH]; cbn [app]; [rewrite within_nil; tauto|]. rewrite !within_cons, IH. tauto.
Qed.

(** ** Correctness *)

Lemma round_down_eq x b : 0 ≤ x → 0 < b → round_down x b = Ok (b * (x / b)).
Proof.
  intros ??. unfold round_down. rewrite u64_rem_ok by lia. simpl.
  pose proof (Z.div_mod x b ltac:(lia)). pose proof (Z.mod_pos_bound x b ltac:(lia)).
  pose proof (Z.div_pos x b ltac:(lia) ltac:(lia)).
  rewrite u64_sub_ok by nia. f_equal; lia.
Qed.

Lemma round_up_eq x b : 0 ≤ x → 0 < b → x + (b - 1) ≤ u64_max → round_up x b = Ok (Some (b * ((x + (b - 1)) / b))).
Proof.
  intros ???. unfold round_up. rewrite u64_div_ok by lia. simpl. rewrite Z.div_same, u64_sub_ok by lia. simpl.
  unfold checked_add. bsplit; [|lia]. by rewrite round_down_eq by lia.
Qed.

(** [round_down] returns the greatest multiple of the block size that is at
    most the offset; it panics only for a zero block size. *)
Theorem round_down_spec x b :
  is_u64 x → is_u64 b →
  match round_down x b with
  | Ok d => 0 < b ∧ (b | d) ∧ d ≤ x < d + b
  | Err _ => False
  | Panic => b = 0
  | NoFuel => False
  end.
Proof.
  intros [??] [??]. destruct (decide (b = 0)) as [->|].
  - reflexivity.
  - rewrite round_down_eq by lia.
    pose proof (Z.div_mod x b ltac:(lia)). pose proof (Z.mod_pos_bound x b ltac:(lia)).
    split_and!; [lia|exists (x / b); lia|lia|lia].
Qed.

(** [round_up] returns the least multiple of the block size that is at
    least the offset, and [None] exactly when the addition it starts with would
    leave 64 bits. *)
Theorem round_up_spec x b :
  is_u64 x → is_u64 b →
  match round_up x b with
  | Ok (Some d) => 0 < b ∧ (b | d) ∧ x ≤ d < x + b ∧ d ≤ u64_max
  | Ok None => 0 < b ∧ u64_max < x + (b - 1)
  | Err _ => False
  | Panic => b = 0
  | NoFuel => False
  end.
Proof.
  intros [??] [??]. unfold round_up. destruct (decide (b = 0)) as [->|].
  - reflexivity.
  - rewrite u64_div_ok by lia. simpl. rewrite Z.div_same, u64_sub_ok by lia. simpl.
    unfold checked_add. bsplit; [|lia].
    rewrite round_down_eq by lia. simpl.
    set (s := x + (b - 1)) in *.
    pose proof (Z.div_mod s b ltac:(lia)). pose proof (Z.mod_pos_bound s b ltac:(lia)).
    split_and!; [lia|exists (s / b); lia|lia|lia|lia].
Qed.

(** [how_many] is the ceiling of the quotient: the least number of items
    whose total size reaches the value; it never overflows. *)
Theorem how_many_spec v s :
  is_u64 v → is_u64 s →
  match how_many v s with
  | Ok n => 0 < s ∧ v ≤ n * s < v + s
  | Err _ => False
  | Panic => s = 0
  | NoFuel => False
  end.
Proof.
  intros [??] [??]. unfold how_many. destruct (decide (s = 0)) as [->|].
  - reflexivity.
  - rewrite u64_div_ok, u64_rem_ok by lia. simpl.
    pose proof (Z.div_mod v s ltac:(lia)). pose proof (Z.mod_pos_bound v s ltac:(lia)).
    assert (v / s ≤ v) by (apply Z.div_le_upper_bound; nia).
    bsplit; simpl; [nia|].
    assert (v / s < v).
    { destruct (decide (s = 1)) as [->|]; [rewrite Z.mod_1_r in *; lia|nia]. }
    rewrite u64_add_ok by lia. nia.
Qed.

(** [split] partitions a non-empty range at the split point: a byte is in
    the first half exactly when it is in the range and before the point, in the
    second exactly when it is in the range and at or after it, and a half that
    is returned is never empty. *)
Theorem split_spec r p :
  start r < end_ r →
  ∃ a b, Range.split r p = Ok (a, b)
    ∧ (∀ x, in_orange x a ↔ in_range x r ∧ x < p)
    ∧ (∀ x, in_orange x b ↔ in_range x r ∧ p ≤ x)
    ∧ (∀ h, a = Some h ∨ b = Some h → start h < end_ h).
Proof.
  intros Hne. unfold Range.split, range_is_empty, in_orange, in_range.
  replace (end_ r <=? start r) with false by (symmetry; apply Z.leb_gt; lia). simpl.
  bsplit; do 2 eexists; (split; [reflexivity|]); simpl;
    (split_and!; [intros; lia|intros; lia|intros h [[= <-]|[= <-]]; simpl; lia]).
Qed.

(** ** Instances *)
Lemma round_down_witness : ∃ d, round_down 1000 512 = Ok d ∧ (512 | d) ∧ d ≤ 1000 < d + 512.
Proof.
  pose proof (round_down_spec 1000 512 ltac:(by vm_compute) ltac:(by vm_compute)) as H.
  exists 512. split; [reflexivity|]. exact (proj2 H).
Defined.

Lemma round_up_witness : ∃ d, round_up 1000 512 = Ok (Some d) ∧ (512 | d) ∧ 1000 ≤ d < 1000 + 512.
Proof.
  pose proof (round_up_spec 1000 512 ltac:(by vm_compute) ltac:(by vm_compute)) as H.
  exists 1024. split; [reflexivity|]. exact (conj (proj1 (proj2 H)) (proj1 (proj2 (proj2 H)))).
Defined.

Lemma how_many_witness : how_many 1000 512 = Ok 2 ∧ 1000 ≤ 2 * 512 < 1000 + 512.
Proof.
  pose proof (how_many_spec 1000 512 ltac:(by vm_compute) ltac:(by vm_compute)) as H.
  split; [reflexivity|]. exact (proj2 H).
Defined.

Lemma split_witness :
  Range.split (10 ..< 30) 20 = Ok (Some (10 ..< 20), Some (20 ..< 30)) ∧
  ∃ a b, Range.split (10 ..< 30) 20 = Ok (a, b) ∧ ∀ x, in_orange x a ↔ in_range x (10 ..< 30) ∧ x < 20.
Proof.
  split; [reflexivity|]. destruct (split_spec (10 ..< 30) 20 ltac:(by vm_compute)) as (a & b & H & Ha & _).
  exists a, b. split; [exact H|exact Ha].
Defined.
