(* ===== verification/Bytes.v ===== *)
(** * Little-endian bytes

    A byte slice is a [list Z] of values in [0, 256).  [le_combine] and
    [le_split] are the [byteorder::LittleEndian] reads and writes of the
    engine (and the [zerocopy] reinterpretation on a little-endian target). *)

From S2P Require Import Prelude.

Definition is_u8 (b : Z) : Prop := 0 ≤ b < 256.

#[global] Instance is_u8_dec b : Decision (is_u8 b).
Proof. unfold is_u8; apply _. Defined.

(** The unsigned integer a little-endian byte string denotes. *)
Fixpoint le_combine (bs : list Z) : Z :=
  match bs with
  | [] => 0
  | b :: bs => b + 256 * le_combine bs
  end.

(** The [n] low bytes of [z], least significant first. *)
Fixpoint le_split (n : nat) (z : Z) : list Z :=
  match n with
  | O => []
  | S n => z `mod` 256 :: le_split n (z / 256)
  end.

(** [chunks(n)]: consecutive pieces of [n] bytes, the last one possibly
    shorter.  [fuel] bounds the number of pieces; the length of the slice is
    always enough. *)
Fixpoint chunks_fuel {A} (fuel n : nat) (l : list A) : list (list A) :=
  match fuel, l with
  | _, [] => []
  | O, _ => []
  | S fuel, _ => take n l :: chunks_fuel fuel n (drop n l)
  end.
Definition chunks {A} (n : nat) (l : list A) : list (list A) :=
  chunks_fuel (length l) n l.

(** ** Laws *)

Lemma length_le_split n z : length (le_split n z) = n.
Proof. revert z; induction n as [|n IH]; intros z; simpl; [done|]. by rewrite IH. Qed.

Lemma le_split_u8 n z : Forall is_u8 (le_split n z).
Proof.
  revert z; induction n as [|n IH]; intros z; simpl; constructor; [|done].
  unfold is_u8. apply Z.mod_pos_bound. lia.
Qed.

Lemma le_combine_split n z : le_combine (le_split n z) = z `mod` 256 ^ Z.of_nat n.
Proof.
  revert z; induction n as [|n IH]; intros z; simpl le_split; simpl le_combine.
  - by rewrite Z.mod_1_r.
  - rewrite IH, Nat2Z.inj_succ, Z.pow_succ_r by lia.
    rewrite (Z.rem_mul_r z 256) by lia. lia.
Qed.

Lemma le_combine_split_id n z :
  0 ≤ z < 256 ^ Z.of_nat n → le_combine (le_split n z) = z.
Proof. intros. rewrite le_combine_split. by apply Z.mod_small. Qed.

Lemma le_combine_bound bs :
  Forall is_u8 bs → 0 ≤ le_combine bs < 256 ^ Z.of_nat (length bs).
Proof.
  induction 1 as [|b bs [??] _ IH]; simpl le_combine; [simpl; lia|].
  simpl length. rewrite Nat2Z.inj_succ, Z.pow_succ_r by lia. nia.
Qed.

Lemma le_split_combine bs :
  Forall is_u8 bs → le_split (length bs) (le_combine bs) = bs.
Proof.
  induction 1 as [|b bs [??] _ IH]; simpl; [done|].
  rewrite Z.mul_comm, Z.mod_add, Z.div_add, Z.mod_small, Z.div_small by lia.
  by rewrite Z.add_0_l, IH.
Qed.

Lemma le_combine_inj bs1 bs2 :
  Forall is_u8 bs1 → Forall is_u8 bs2 → length bs1 = length bs2 →
  le_combine bs1 = le_combine bs2 → bs1 = bs2.
Proof.
  intros H1 H2 Hlen Heq.
  rewrite <- (le_split_combine bs1 H1), <- (le_split_combine bs2 H2). congruence.
Qed.

Lemma chunks_fuel_enough {A} (n : nat) f (l : list A) :
  (0 < n)%nat → (length l ≤ f)%nat → chunks_fuel f n l = chunks n l.
Proof.
  intros Hn. unfold chunks.
  assert (∀ g (l : list A), (length l ≤ g)%nat → ∀ h, (length l ≤ h)%nat →
            chunks_fuel g n l = chunks_fuel h n l) as Heq; [|auto].
  clear l f.
  induction g as [|g IH]; intros [|x l] Hg [|h] Hh; try done; simpl in *; try lia.
  f_equal. apply IH; rewrite length_drop; simpl; lia.
Qed.

Lemma chunks_cons {A} (n : nat) (l : list A) :
  (0 < n)%nat → l ≠ [] → chunks n l = take n l :: chunks n (drop n l).
Proof.
  intros Hn Hl. unfold chunks at 1. destruct l as [|x l]; [done|]. simpl length.
  simpl chunks_fuel. f_equal. apply chunks_fuel_enough; [done|].
  rewrite length_drop. simpl. lia.
Qed.

Lemma chunks_app {A} (n : nat) (l1 l2 : list A) :
  (0 < n)%nat → length l1 = n → chunks n (l1 ++ l2) = l1 :: chunks n l2.
Proof.
  intros Hn Hl. rewrite chunks_cons; [|done|destruct l1; simpl in *; [lia|done]].
  by rewrite take_app_length', drop_app_length'.
Qed.

(** ** UTF-8

    What the table of strings in [fxfs/unicode] needs of [str]: the bytes of a
    string ([as_bytes], that is [encode_utf8] of its characters) and the
    characters of bytes that are known to be valid ([chars] of
    [from_utf8_unchecked]).  A character is its code point. *)

Definition is_char (c : Z) : Prop := 0 ≤ c < 0x110000.

Module Utf8.
Definition tail_byte (c shift : Z) : Z := Z.lor (Z.land (Z.shiftr c shift) 0x3f) 0x80.

Definition encode (c : Z) : list Z :=
  if c <? 0x80 then [c]
  else if c <? 0x800 then [Z.lor (Z.land (Z.shiftr c 6) 0x1f) 0xc0; tail_byte c 0]
  else if c <? 0x10000 then [Z.lor (Z.land (Z.shiftr c 12) 0x0f) 0xe0; tail_byte c 6; tail_byte c 0]
  else [Z.lor (Z.land (Z.shiftr c 18) 0x07) 0xf0; tail_byte c 12; tail_byte c 6; tail_byte c 0].

Definition as_bytes (s : list Z) : list Z := concat (encode <$> s).

(** [next_code_point]; there is no result when the bytes end too early. *)
Definition acc (ch byte : Z) : Z := Z.lor (Z.shiftl ch 6) (Z.land byte 0x3f).
Definition next_code_point (bytes : list Z) : option (Z * list Z) :=
  match bytes with
  | [] => None
  | x :: bytes =>
      if x <? 128 then Some (x, bytes)
      else
        match bytes with
        | [] => None
        | y :: bytes =>
            let init := Z.land x 0x1f in
            if x <? 0xe0 then Some (acc init y, bytes)
            else
              match bytes with
              | [] => None
              | z :: bytes =>
                  let y_z := acc (Z.land y 0x3f) z in
                  if x <? 0xf0 then Some (Z.lor (Z.shiftl init 12) y_z, bytes)
                  else
                    match bytes with
                    | [] => None
                    | w :: bytes => Some (Z.lor (Z.shiftl (Z.land init 7) 18) (acc y_z w), bytes)
                    end
              end
        end
  end.

(** [fuel] is at least the number of bytes. *)
Fixpoint chars_loop (fuel : nat) (bytes : list Z) : list Z :=
  match fuel with
  | O => []
  | S fuel =>
      match next_code_point bytes with
      | None => []
      | Some (c, bytes) => c :: chars_loop fuel bytes
      end
  end.
Definition chars (bytes : list Z) : list Z := chars_loop (length bytes) bytes.
End Utf8.

(** *** Round trip *)
Lemma lor_low a b n : 0 ≤ n → 0 ≤ b < 2 ^ n → Z.lor (Z.shiftl a n) b = a * 2 ^ n + b.
Proof.
  intros Hn Hb. pose proof (Z.add_lor_land (Z.shiftl a n) b) as H. assert (Z.land (Z.shiftl a n) b = 0) as H0; [|rewrite Z.shiftl_mul_pow2 in * by done; lia].
  apply Z.bits_inj'. intros i Hi. rewrite Z.land_spec, Z.bits_0. destruct (Z.lt_ge_cases i n); [by rewrite Z.shiftl_spec_low|]. rewrite andb_comm.
  replace (Z.testbit b i) with false; [done|]. symmetry. destruct (decide (b = 0)) as [->|]; [apply Z.bits_0|].
  apply Z.bits_above_log2; [lia|]. apply Z.lt_le_trans with n; [|done]. apply Z.log2_lt_pow2; lia.
Qed.
Lemma land_low c n : 0 ≤ n → Z.land c (Z.ones n) = c `mod` 2 ^ n.
Proof. apply Z.land_ones. Qed.

Lemma tail_byte_eq c k : Utf8.tail_byte c k = 128 + Z.shiftr c k `mod` 64.
Proof.
  unfold Utf8.tail_byte. change 0x3f with (Z.ones 6). rewrite land_low by lia. rewrite Z.lor_comm. change 0x80 with (Z.shiftl 2 6) at 1.
  rewrite lor_low by (try apply Z.mod_pos_bound; lia). change (2 ^ 6) with 64. lia.
Qed.
Lemma acc_tail ch c k : 0 ≤ ch → Utf8.acc ch (Utf8.tail_byte c k) = ch * 64 + Z.shiftr c k `mod` 64.
Proof.
  intros Hch. unfold Utf8.acc. change 0x3f with (Z.ones 6). rewrite land_low by lia. rewrite tail_byte_eq. change (2 ^ 6) with 64. pose proof (Z.mod_pos_bound (Z.shiftr c k) 64 ltac:(lia)).
  replace ((128 + Z.shiftr c k `mod` 64) `mod` 64) with (Z.shiftr c k `mod` 64).
  - rewrite lor_low by (change (2 ^ 6) with 64; lia). done.
  - symmetry. rewrite (mod_cong _ (Z.shiftr c k `mod` 64) 64 2) by lia. apply Z.mod_mod. lia.
Qed.

(** The first byte. *)
Lemma first_byte c k n m : 0 ≤ k → 0 ≤ n → 0 ≤ Z.shiftr c k < 2 ^ n → Z.lor (Z.land (Z.shiftr c k) (Z.ones n)) (Z.shiftl m n) = m * 2 ^ n + Z.shiftr c k.
Proof. intros Hk Hn Hc. rewrite land_low, Z.mod_small by done. rewrite Z.lor_comm, lor_low by done. done. Qed.

Lemma encode_next c rest : is_char c → Utf8.next_code_point (Utf8.encode c ++ rest) = Some (c, rest).
Proof.
  intros Hc. unfold is_char in Hc. unfold Utf8.encode. destruct (Z.ltb_spec c 0x80) as [H1|H1]; [cbn [app Utf8.next_code_point]; destruct (Z.ltb_spec c 128); [done|lia]|].
  assert (∀ k, 0 ≤ k → Z.shiftr c k = c / 2 ^ k) as Hsh by (intros k Hk; by apply Z.shiftr_div_pow2).
  assert (∀ x, Z.land x 0x1f = x `mod` 32) as H1f by (intros x; change 0x1f with (Z.ones 5); by rewrite land_low).
  assert (∀ c k, Z.land (Utf8.tail_byte c k) 0x3f = Z.shiftr c k `mod` 64) as H3f.
  { intros c' k. pose proof (acc_tail 0 c' k ltac:(lia)) as H. unfold Utf8.acc in H. rewrite Z.shiftl_0_l, Z.lor_0_l in H. lia. }
  destruct (Z.ltb_spec c 0x800) as [H2|H2]; [|destruct (Z.ltb_spec c 0x10000) as [H3|H3]].
  - pose proof (Z.div_pos c 64). change 0x1f with (Z.ones 5) at 1. change 0xc0 with (Z.shiftl 6 5). rewrite first_byte by (rewrite ?Hsh by lia; change (2 ^ 6) with 64; change (2 ^ 5) with 32; Z.to_euclidean_division_equations; lia).
    rewrite Hsh by lia. change (2 ^ 6) with 64. change (2 ^ 5) with 32. cbn [app Utf8.next_code_point].
    destruct (Z.ltb_spec (6 * 32 + c / 64) 128); [lia|]. destruct (Z.ltb_spec (6 * 32 + c / 64) 0xe0); [|Z.to_euclidean_division_equations; lia].
    rewrite H1f, acc_tail by (apply Z.mod_pos_bound; lia). rewrite Z.shiftr_0_r. f_equal. f_equal. Z.to_euclidean_division_equations; lia.
  - change 0x0f with (Z.ones 4). change 0xe0 with (Z.shiftl 14 4) at 1. rewrite first_byte by (rewrite ?Hsh by lia; change (2 ^ 12) with 4096; change (2 ^ 4) with 16; Z.to_euclidean_division_equations; lia).
    rewrite Hsh by lia. change (2 ^ 12) with 4096. change (2 ^ 4) with 16. cbn [app Utf8.next_code_point].
    destruct (Z.ltb_spec (14 * 16 + c / 4096) 128); [Z.to_euclidean_division_equations; lia|]. destruct (Z.ltb_spec (14 * 16 + c / 4096) 0xe0); [Z.to_euclidean_division_equations; lia|].
    destruct (Z.ltb_spec (14 * 16 + c / 4096) 0xf0); [|Z.to_euclidean_division_equations; lia].
    rewrite H1f, H3f, acc_tail by (apply Z.mod_pos_bound; lia). rewrite Z.shiftr_0_r, Hsh by lia. change (2 ^ 6) with 64.
    rewrite lor_low by (change (2 ^ 12) with 4096; Z.to_euclidean_division_equations; lia). change (2 ^ 12) with 4096. f_equal. f_equal. Z.to_euclidean_division_equations; lia.
  - change 0x07 with (Z.ones 3). change 0xf0 with (Z.shiftl 30 3) at 1. rewrite first_byte by (rewrite ?Hsh by lia; change (2 ^ 18) with 262144; change (2 ^ 3) with 8; Z.to_euclidean_division_equations; lia).
    rewrite Hsh by lia. change (2 ^ 18) with 262144. change (2 ^ 3) with 8. cbn [app Utf8.next_code_point].
    destruct (Z.ltb_spec (30 * 8 + c / 262144) 128); [Z.to_euclidean_division_equations; lia|]. destruct (Z.ltb_spec (30 * 8 + c / 262144) 0xe0); [Z.to_euclidean_division_equations; lia|].
    destruct (Z.ltb_spec (30 * 8 + c / 262144) 0xf0); [Z.to_euclidean_division_equations; lia|].
    rewrite H1f, H3f. rewrite (acc_tail (Z.shiftr c 12 `mod` 64)) by (apply Z.mod_pos_bound; lia). pose proof (Z.mod_pos_bound (Z.shiftr c 12) 64 ltac:(lia)). pose proof (Z.mod_pos_bound (Z.shiftr c 6) 64 ltac:(lia)). rewrite acc_tail by lia. rewrite Z.shiftr_0_r, !Hsh by lia. change (2 ^ 6) with 64. change (2 ^ 12) with 4096.
    change 7 with (Z.ones 3). rewrite land_low by lia. change (2 ^ 3) with 8.
    rewrite lor_low by (change (2 ^ 18) with 262144; Z.to_euclidean_division_equations; lia). change (2 ^ 18) with 262144. f_equal. f_equal. Z.to_euclidean_division_equations; lia.
Qed.

Lemma encode_length c : (1 ≤ length (Utf8.encode c))%nat.
Proof. unfold Utf8.encode. repeat case_match; cbn; lia. Qed.

(** The characters of the bytes of a string are the string. *)
Lemma utf8_roundtrip s : Forall is_char s → Utf8.chars (Utf8.as_bytes s) = s.
Proof.
  intros Hs. unfold Utf8.chars. assert (∀ fuel, (length (Utf8.as_bytes s) ≤ fuel)%nat → Utf8.chars_loop fuel (Utf8.as_bytes s) = s) as H; [|by apply H].
  induction Hs as [|c s Hc Hs IH]; intros fuel Hf; [by destruct fuel|]. unfold Utf8.as_bytes in *. cbn [fmap list_fmap concat] in *. rewrite length_app in Hf. pose proof (encode_length c).
  destruct fuel as [|fuel]; [lia|]. cbn [Utf8.chars_loop]. rewrite encode_next by done. f_equal. apply IH. lia.
Qed.
