(* ===== verification/Unicode.v ===== *)
(** * Unicode tables

    [fxfs/unicode/src/generator.rs], which packs the properties of characters
    into the tables of [unicode_gen.rs], and [fxfs/unicode/src/lookup.rs],
    which looks characters up in them.  Characters are code points.  What the
    generator reads from the Unicode Character Database is a parameter. *)

From S2P Require Import Prelude BTree Bytes.

(** ** [types.rs] *)
Record CCCEntry : Set := mkCCC {
  low_plane_end_ix : Z;
  range_len : Z;
  ce_ccc : Z;
}.
Record MappingOffset : Set := mkMapping {
  low_plane_ix : Z;
  mo_offset : Z;
}.

(** [CCCEntry::range().contains] *)
Definition range_contains (e : CCCEntry) (lsb : Z) : res bool :=
  start ← u64_sub (low_plane_end_ix e) (range_len e);
  Ok ((start <=? lsb) && (lsb <? low_plane_end_ix e)).

(** ** What is read from the database

    The results of the functions in [ucd_parsers]; of [unicode_data] only the
    canonical decompositions are used. *)
Record UCD : Set := mkUCD {
  derived_combining_class : list (Z * Z * Z);
  character_decomposition : gmap Z (list Z);
  default_ignorable_code_point : list (Z * Z);
  case_folding : gmap Z (list Z);
}.

(** ** The tables *)
Record Tables : Set := mkTables {
  CCC_PLANE_OFFSETS : list Z;
  CCC_PLANE_DATA : list CCCEntry;
  DECOMP_STRINGS : list Z;
  DECOMP_PLANE_OFFSETS : list Z;
  DECOMP_PLANE_DATA : list MappingOffset;
  IGNORABLE_PLANE_OFFSETS : list Z;
  IGNORABLE_PLANE_DATA : list (Z * Z);
  CASEFOLD_STRINGS : list Z;
  CASEFOLD_PLANE_OFFSETS : list Z;
  CASEFOLD_PLANE_DATA : list MappingOffset;
}.

Module Generator.
Section planes.
Context {E : Type}.
(** [planes[plane].push(entry)] *)
Definition push (planes : list (list E)) (pe : Z * E) : res (list (list E)) :=
  p ← unwrap (planes !! Z.to_nat pe.1);
  Ok (<[Z.to_nat pe.1 := p ++ [pe.2]]> planes).
Definition fill (n : nat) (entries : list (Z * E)) : res (list (list E)) := foldm push (replicate n []) entries.

(** The offsets of the planes, and their data in one list. *)
Definition layout (planes : list (list E)) : list Z * list E :=
  foldl (λ '(offsets, data) p, (offsets ++ [Z.of_nat (length (data ++ p))], data ++ p)) ([0], []) planes.
End planes.

Definition plane_of (ch : Z) : Z := Z.shiftr ch 16.
Definition as_u16 (x : Z) : Z := x `mod` 65536.

(** [char::from_u32] *)
Definition from_u32 (c : Z) : option Z :=
  if (0 <=? c) && (c <? 0x110000) && negb ((0xd800 <=? c) && (c <? 0xe000)) then Some c else None.

(** The entries of the combining classes, with their planes. *)
Fixpoint ccc_entries (classes : list (Z * Z * Z)) : res (list (Z * CCCEntry)) :=
  match classes with
  | [] => Ok []
  | (start, end_, ccc) :: classes =>
      _ ← rassert (plane_of start =? plane_of end_);
      if ccc =? 0 then ccc_entries classes
      else
        range_len ← u64_sub end_ start;
        _ ← rassert (range_len <=? 255);
        l ← ccc_entries classes;
        Ok ((plane_of end_, mkCCC (as_u16 end_) range_len ccc) :: l)
  end.

(** The loop that decomposes until nothing is left to decompose. *)
Fixpoint expand (fuel : nat) (data : gmap Z (list Z)) (chars out : list Z) : res (list Z) :=
  match fuel with
  | O => NoFuel
  | S fuel =>
      match chars with
      | [] => Ok out
      | ch :: chars =>
          match data !! ch with
          | Some ((_ :: _) as d) => expand fuel data (d ++ chars) out
          | _ => c ← unwrap (from_u32 ch); expand fuel data chars (out ++ [c])
          end
      end
  end.
Fixpoint expand_all (fuel : nat) (data : gmap Z (list Z)) (entries : list (Z * list Z)) : res (list (Z * list Z)) :=
  match entries with
  | [] => Ok []
  | (ch, d) :: entries =>
      match d with
      | [] => expand_all fuel data entries
      | _ => out ← expand fuel data [ch] []; l ← expand_all fuel data entries; Ok ((ch, out) :: l)
      end
  end.

(** The strings of a mapping back to back, and where each one starts. *)
Definition strings_of (mapping : list (Z * list Z)) : list Z * list (Z * Z) :=
  foldl (λ '(strings, offsets) m, (strings ++ Utf8.as_bytes m.2, offsets ++ [(m.1, Z.of_nat (length strings))])) ([], []) mapping.

Definition mapping_entries (offsets : list (Z * Z)) : list (Z * MappingOffset) :=
  (λ p, (plane_of p.1, mkMapping (as_u16 p.1) (as_u16 p.2))) <$> offsets.

(** The characters that cases are folded to. *)
Fixpoint fold_strings (entries : list (Z * list Z)) : res (list (Z * list Z)) :=
  match entries with
  | [] => Ok []
  | (ch, mapping) :: entries =>
      s ← unwrap (mapM from_u32 mapping);
      l ← fold_strings entries;
      Ok ((ch, s) :: l)
  end.

Definition unicode_gen (fuel : nat) (ucd : UCD) : res Tables :=
  ccc ← ccc_entries (derived_combining_class ucd);
  ccc_planes ← fill 16 ccc;
  let '(ccc_offsets, ccc_data) := layout ccc_planes in
  decompositions ← expand_all fuel (character_decomposition ucd) (bt_entries (character_decomposition ucd));
  let '(decomp_strings, decomp_starts) := strings_of decompositions in
  _ ← rassert (forallb (λ p, p.2 <=? 65535) decomp_starts);
  decomp_planes ← fill 18 (mapping_entries decomp_starts);
  let '(decomp_offsets, decomp_data) := layout decomp_planes in
  ignorable_planes ← fill 18 ((λ p, (plane_of p.2, (as_u16 p.1, as_u16 p.2))) <$> default_ignorable_code_point ucd);
  let '(ignorable_offsets, ignorable_data) := layout ignorable_planes in
  foldings ← fold_strings (bt_entries (case_folding ucd));
  let '(fold_strings, fold_starts) := strings_of foldings in
  fold_planes ← fill 18 (mapping_entries fold_starts);
  let '(fold_offsets, fold_data) := layout fold_planes in
  let len {A} (l : list A) := Z.of_nat (length l) in
  let total_bytes := len ccc_data * 4 + len ccc_offsets * 8 + len decomp_strings + len decomp_data * 4 + len decomp_offsets * 8 +
                     len ignorable_data * 4 + len ignorable_offsets * 8 + len fold_strings + len fold_data * 4 + len fold_offsets * 8 in
  _ ← rassert (total_bytes <? 30000);
  Ok (mkTables ccc_offsets ccc_data decomp_strings decomp_offsets decomp_data ignorable_offsets ignorable_data
        fold_strings fold_offsets fold_data).
End Generator.

(** ** [lookup.rs] *)
Module Lookup.
(** [&l[a..b]] *)
Definition slice {A} (l : list A) (a b : Z) : res (list A) :=
  if (0 <=? a) && (a <=? b) && (b <=? Z.of_nat (length l)) then Ok (take (Z.to_nat (b - a)) (drop (Z.to_nat a) l)) else Panic.

(** The entries of the plane of a character, and where the plane ends. *)
Definition plane {E} (offsets : list Z) (data : list E) (ch : Z) : res (list E * Z) :=
  plane_offset ← unwrap (offsets !! Z.to_nat (Generator.plane_of ch));
  plane_end ← unwrap (offsets !! Z.to_nat (Generator.plane_of ch + 1));
  p ← slice data plane_offset plane_end;
  Ok (p, plane_end).

(** [binary_search_by] on the ends of ranges, [Equal] being taken for [Less],
    with [unwrap_or_else]: the first range that ends above. *)
Definition first_ending_above {E} (end_of : E → Z) (p : list E) (lsb : Z) : nat :=
  length (filter (λ e, end_of e ≤ lsb) p).

Section tables.
Context (T : Tables).

Definition ccc (ch : Z) : res Z :=
  '(p, _) ← plane (CCC_PLANE_OFFSETS T) (CCC_PLANE_DATA T) ch;
  let ch_lsb := Generator.as_u16 ch in
  match p !! first_ending_above low_plane_end_ix p ch_lsb with
  | Some entry => b ← range_contains entry ch_lsb; Ok (if b : bool then ce_ccc entry else 0)
  | None => Ok 0
  end.

Definition string_table_lookup (ch : Z) (plane_offsets : list Z) (plane_data : list MappingOffset) (string_data : list Z)
    : res (option (list Z)) :=
  '(p, plane_end) ← plane plane_offsets plane_data ch;
  match binary_search (low_plane_ix <$> p) (Generator.as_u16 ch) with
  | inl ix =>
      entry ← unwrap (p !! ix);
      end_ ← (if Z.of_nat (length p) =? Z.of_nat ix + 1 then
                if plane_end <? Z.of_nat (length plane_data) then mo_offset <$> unwrap (plane_data !! Z.to_nat plane_end)
                else Ok (Z.of_nat (length string_data))
              else mo_offset <$> unwrap (p !! S ix));
      out ← slice string_data (mo_offset entry) end_;
      Ok (Some out)
  | inr _ => Ok None
  end.

Definition decomposition (ch : Z) : res (option (list Z)) :=
  string_table_lookup ch (DECOMP_PLANE_OFFSETS T) (DECOMP_PLANE_DATA T) (DECOMP_STRINGS T).
Definition casefold (ch : Z) : res (option (list Z)) :=
  string_table_lookup ch (CASEFOLD_PLANE_OFFSETS T) (CASEFOLD_PLANE_DATA T) (CASEFOLD_STRINGS T).

Definition default_ignorable (ch : Z) : res bool :=
  '(p, _) ← plane (IGNORABLE_PLANE_OFFSETS T) (IGNORABLE_PLANE_DATA T) ch;
  let ch_lsb := Generator.as_u16 ch in
  match p !! first_ending_above snd p ch_lsb with
  | Some r => Ok ((r.1 <=? ch_lsb) && (ch_lsb <? r.2))
  | None => Ok false
  end.
End tables.
End Lookup.
