(* ===== verification/UnicodeLookup.v ===== *)
(** * Looking characters up in the generated tables

    What [lookup.rs] finds in tables that [generator.rs] made is what the
    database says of the character, except that combining classes cannot be
    looked up in the last plane. *)

From S2P Require Import Prelude BTree Bytes Unicode.

(** ** Planes *)
Section planes.
Context {E : Type}.
Implicit Types (entries : list (Z * E)) (planes : list (list E)).

Definition in_plane (p : nat) entries : list E := (filter (λ pe, pe.1 = Z.of_nat p) entries).*2.
Definition by_plane (n : nat) entries : list (list E) := (λ p, in_plane p entries) <$> seq 0 n.

Lemma by_plane_lookup n entries p : (p < n)%nat → by_plane n entries !! p = Some (in_plane p entries).
Proof. intros Hp. unfold by_plane. rewrite list_lookup_fmap, lookup_seq_lt by done. done. Qed.

Lemma fill_spec n entries : Forall (λ pe, 0 ≤ pe.1 < Z.of_nat n) entries → Generator.fill n entries = Ok (by_plane n entries).
Proof.
  unfold Generator.fill. induction entries as [|pe entries IH] using rev_ind; intros Hr.
  - cbn [foldm]. f_equal. apply list_eq. intros i. unfold by_plane. rewrite list_lookup_fmap. destruct (decide (i < n)%nat).
    + by rewrite lookup_replicate_2, lookup_seq_lt by done.
    + rewrite !lookup_ge_None_2; [done|rewrite length_seq; lia|rewrite length_replicate; lia].
  - apply Forall_app in Hr as [Hr [Hpe _]%Forall_cons]. rewrite foldm_app, (IH Hr). res_simpl. cbn [foldm]. unfold Generator.push. rewrite by_plane_lookup by lia. res_simpl. f_equal. apply list_eq. intros i.
    destruct (decide (i < n)%nat) as [Hi|Hi].
    + rewrite (by_plane_lookup n (entries ++ [pe]) i Hi). unfold in_plane at 2. rewrite filter_app. destruct (decide (Z.to_nat pe.1 = i)) as [<-|Hne].
      * rewrite list_lookup_insert_eq by (unfold by_plane; rewrite length_fmap, length_seq; lia). rewrite filter_cons_True by (rewrite Z2Nat.id; lia). by rewrite fmap_app.
      * rewrite list_lookup_insert_ne by done. rewrite by_plane_lookup by done. rewrite filter_cons_False by (intros Heq; apply Hne; rewrite Heq; lia). by rewrite fmap_app, app_nil_r.
    + rewrite !lookup_ge_None_2; [done|unfold by_plane; rewrite length_fmap, length_seq; lia|rewrite length_insert; unfold by_plane; rewrite length_fmap, length_seq; lia].
Qed.

(** Only planes that are there can be filled. *)
Lemma fill_range n entries planes : Generator.fill n entries = Ok planes → Forall (λ pe, 0 ≤ pe.1) entries → Forall (λ pe, 0 ≤ pe.1 < Z.of_nat n) entries.
Proof.
  unfold Generator.fill. revert planes. induction entries as [|pe entries IH] using rev_ind; intros planes Hf Hn; [constructor|]. apply Forall_app in Hn as [Hn [Hpe _]%Forall_cons].
  rewrite foldm_app in Hf. destruct (foldm Generator.push (replicate n []) entries) as [planes'| | |] eqn:Ef; res_simpl in Hf; try done. pose proof (IH _ eq_refl Hn) as Hr. apply Forall_app. split; [done|].
  constructor; [|done]. split; [done|]. pose proof (fill_spec n entries Hr) as Ef'. unfold Generator.fill in Ef'. rewrite Ef in Ef'. injection Ef' as ->. cbn [foldm] in Hf. unfold Generator.push in Hf.
  destruct (by_plane n entries !! Z.to_nat pe.1) eqn:El; res_simpl in Hf; [|done]. apply lookup_lt_Some in El. unfold by_plane in El. rewrite length_fmap, length_seq in El. lia.
Qed.

Lemma layout_spec planes : ∃ offsets, Generator.layout planes = (offsets, concat planes) ∧ length offsets = S (length planes) ∧
  ∀ p, (p ≤ length planes)%nat → offsets !! p = Some (Z.of_nat (length (concat (take p planes)))).
Proof.
  unfold Generator.layout. induction planes as [|p planes IH] using rev_ind; [exists [0]; split_and!; [done..|]; intros [|]; [done|cbn; lia]|].
  destruct IH as (offsets & He & Hlen & Ho). rewrite foldl_app, He. cbn [foldl]. eexists. split; [by rewrite concat_app; cbn; rewrite app_nil_r|]. split; [rewrite !length_app, Hlen; cbn; lia|].
  intros i Hi. rewrite length_app in Hi. cbn in Hi. destruct (decide (i ≤ length planes)%nat) as [Hle|Hgt].
  - rewrite lookup_app_l by lia. rewrite take_app_le by lia. by apply Ho.
  - replace i with (length offsets) by lia. rewrite list_lookup_middle by done. rewrite take_ge by (rewrite length_app; cbn; lia). by rewrite concat_app; cbn; rewrite app_nil_r.
Qed.

Lemma concat_take_S planes p x : planes !! p = Some x → concat (take (S p) planes) = concat (take p planes) ++ x.
Proof. intros Hp. rewrite (take_S_r _ _ _ Hp), concat_app. cbn. by rewrite app_nil_r. Qed.

(** The plane of a character: its entries, with those before it and behind it. *)
Lemma plane_spec planes ch x : 0 ≤ ch → planes !! Z.to_nat (Generator.plane_of ch) = Some x →
  let '(offsets, data) := Generator.layout planes in
  let a := concat (take (Z.to_nat (Generator.plane_of ch)) planes) in
  ∃ b, Lookup.plane offsets data ch = Ok (x, Z.of_nat (length (a ++ x))) ∧ data = a ++ x ++ b.
Proof.
  intros Hch Hp. destruct (layout_spec planes) as (offsets & -> & Hlen & Ho). set (p := Z.to_nat (Generator.plane_of ch)) in *. intros a. pose proof (lookup_lt_Some _ _ _ Hp) as Hlt.
  assert (0 ≤ Generator.plane_of ch) as H0 by (unfold Generator.plane_of; by apply Z.shiftr_nonneg).
  assert (concat planes = a ++ x ++ concat (drop (S p) planes)) as Hd.
  { rewrite <- (take_drop (S p) planes) at 1. rewrite concat_app, (concat_take_S _ _ _ Hp). by rewrite <- (assoc_L app). }
  exists (concat (drop (S p) planes)). split; [|done]. unfold Lookup.plane. fold p. rewrite Ho by lia. res_simpl. replace (Z.to_nat (Generator.plane_of ch + 1)) with (S p) by lia. rewrite Ho by lia. res_simpl.
  rewrite (concat_take_S _ _ _ Hp). fold a. unfold Lookup.slice. rewrite Hd, !length_app.
  destruct (Z.leb_spec 0 (Z.of_nat (length a))); [|lia]. destruct (Z.leb_spec (Z.of_nat (length a)) (Z.of_nat (length a + length x))); [|lia].
  destruct (Z.leb_spec (Z.of_nat (length a + length x)) (Z.of_nat (length a + (length x + length (concat (drop (S p) planes)))))); [|lia]. cbn [andb]. res_simpl. f_equal. f_equal.
  rewrite Nat2Z.id, drop_app_length. replace (Z.to_nat _) with (length x) by lia. apply take_app_length.
Qed.

(** Behind the planes there is no offset. *)
Lemma plane_missing planes ch : 0 ≤ ch → Z.to_nat (Generator.plane_of ch) = length planes →
  let '(offsets, data) := Generator.layout planes in Lookup.plane offsets data ch = Panic.
Proof.
  intros Hch Hp. destruct (layout_spec planes) as (offsets & -> & Hlen & Ho). unfold Lookup.plane. rewrite (Ho (Z.to_nat (Generator.plane_of ch))) by (rewrite Hp; lia). res_simpl.
  assert (0 ≤ Generator.plane_of ch) as H0 by (unfold Generator.plane_of; by apply Z.shiftr_nonneg). by rewrite lookup_ge_None_2 by lia.
Qed.

(** Entries in the order of their planes are laid out in their order. *)
Lemma concat_by_plane m entries : StronglySorted (λ a b, a.1 ≤ b.1) entries → Forall (λ pe, 0 ≤ pe.1) entries →
  concat (by_plane m entries) = (filter (λ pe, pe.1 < Z.of_nat m) entries).*2.
Proof.
  intros Hs Hr. induction m as [|m IH].
  - cbn. clear Hs. induction Hr as [|pe entries Hpe Hr IH]; [done|]. cbn beta in Hpe. rewrite filter_cons_False by lia. exact IH.
  - unfold by_plane. rewrite seq_S, fmap_app, concat_app. cbn [fmap list_fmap concat]. rewrite app_nil_r. fold (by_plane m entries). rewrite IH. unfold in_plane. rewrite <- fmap_app. f_equal. cbn [Nat.add].
    clear IH Hr. induction Hs as [|pe entries Hs IH Hb]; [done|]. destruct (decide (pe.1 = Z.of_nat m)) as [Heq|Hne].
    + rewrite (filter_cons_False (λ pe, pe.1 < Z.of_nat m)), (filter_cons_True (λ pe, pe.1 = Z.of_nat m)), (filter_cons_True (λ pe, pe.1 < Z.of_nat (S m))) by lia. rewrite <- IH.
      assert (filter (λ pe, pe.1 < Z.of_nat m) entries = []) as Hnil; [|by rewrite Hnil].
      clear -Hb Heq. induction Hb as [|q entries Hq Hb IH]; [done|]. cbn beta in Hq. rewrite filter_cons_False by lia. exact IH.
    + rewrite (filter_cons_False (λ pe, pe.1 = Z.of_nat m)) by done. rewrite !(filter_cons (λ pe, pe.1 < _)).
      destruct (decide (pe.1 < Z.of_nat m)); [rewrite decide_True by lia; cbn [app]; by rewrite IH|rewrite decide_False by lia; by rewrite IH].
Qed.
Lemma concat_planes n entries : StronglySorted (λ a b, a.1 ≤ b.1) entries → Forall (λ pe, 0 ≤ pe.1 < Z.of_nat n) entries → concat (by_plane n entries) = entries.*2.
Proof.
  intros Hs Hr. rewrite concat_by_plane by first [done|eapply Forall_impl; [exact Hr|]; cbn; lia]. f_equal. apply filter_all. eapply Forall_impl; [exact Hr|]. cbn. lia.
Qed.

(** What is laid out before and behind an entry. *)
Lemma in_plane_split p entries1 e entries2 : in_plane p (entries1 ++ (Z.of_nat p, e) :: entries2) = in_plane p entries1 ++ e :: in_plane p entries2.
Proof. unfold in_plane. rewrite filter_app, filter_cons_True by done. by rewrite fmap_app. Qed.
Lemma before_entry p entries1 e entries2 : let entries := entries1 ++ (Z.of_nat p, e) :: entries2 in
  StronglySorted (λ a b, a.1 ≤ b.1) entries → Forall (λ pe, 0 ≤ pe.1) entries →
  concat (by_plane p entries) ++ in_plane p entries1 = entries1.*2.
Proof.
  intros entries Hs Hn. rewrite concat_by_plane by done. apply StronglySorted_app in Hs as (Hlt & Hs1 & [Hge Hs2]%StronglySorted_cons). apply Forall_app in Hn as [Hn1 _].
  unfold entries. rewrite filter_app, (filter_nothing _ (_ :: entries2)), app_nil_r.
  - transitivity (concat (by_plane (S p) entries1)); [|apply concat_planes; [done|]; apply Forall_forall; intros pe Hpe; rewrite Forall_forall in Hn1; specialize (Hn1 _ Hpe); pose proof (Hlt pe _ Hpe (list_elem_of_here _ _)) as Hle; cbn in Hle; lia].
    unfold by_plane. rewrite seq_S, fmap_app, concat_app. cbn [fmap list_fmap concat Nat.add]. rewrite app_nil_r. f_equal. symmetry. by apply concat_by_plane.
  - constructor; [cbn; lia|]. eapply Forall_impl; [exact Hge|]. cbn. lia.
Qed.
Lemma take_by_plane p n entries : (p ≤ n)%nat → take p (by_plane n entries) = by_plane p entries.
Proof. intros Hp. unfold by_plane. rewrite <- fmap_take. f_equal. rewrite take_seq. f_equal. lia. Qed.
End planes.

(** ** Characters and planes *)
Lemma plane_low ch : ch = Generator.plane_of ch * 65536 + Generator.as_u16 ch.
Proof. unfold Generator.plane_of, Generator.as_u16. rewrite Z.shiftr_div_pow2 by done. change (2 ^ 16) with 65536. pose proof (Z.div_mod ch 65536). lia. Qed.
Lemma as_u16_range ch : 0 ≤ Generator.as_u16 ch < 65536.
Proof. apply Z.mod_pos_bound. lia. Qed.
Lemma plane_mono a b : a ≤ b → Generator.plane_of a ≤ Generator.plane_of b.
Proof. intros H. pose proof (plane_low a). pose proof (plane_low b). pose proof (as_u16_range a). pose proof (as_u16_range b). lia. Qed.
Lemma plane_range ch n : 0 ≤ ch < n * 65536 → 0 ≤ Generator.plane_of ch < n.
Proof. intros H. pose proof (plane_low ch). pose proof (as_u16_range ch). lia. Qed.

(** ** Strings *)
Definition bytes_of (mapping : list (Z * list Z)) : list Z := concat (Utf8.as_bytes <$> mapping.*2).
Fixpoint starts_from (n : Z) (mapping : list (Z * list Z)) : list (Z * Z) :=
  match mapping with
  | [] => []
  | (ch, s) :: mapping => (ch, n) :: starts_from (n + Z.of_nat (length (Utf8.as_bytes s))) mapping
  end.
Abbreviation zlen l := (Z.of_nat (length l)).

Lemma bytes_of_app a b : bytes_of (a ++ b) = bytes_of a ++ bytes_of b.
Proof. unfold bytes_of. by rewrite !fmap_app, concat_app. Qed.
Lemma starts_app n a b : starts_from n (a ++ b) = starts_from n a ++ starts_from (n + zlen (bytes_of a)) b.
Proof.
  revert n. induction a as [|[ch s] a IH]; intros n; [cbn; f_equal; lia|]. cbn [app starts_from]. rewrite IH. do 3 f_equal. unfold bytes_of. cbn [fmap list_fmap concat snd]. rewrite length_app. lia.
Qed.
Lemma starts_keys n mapping : (starts_from n mapping).*1 = mapping.*1.
Proof. revert n. induction mapping as [|[ch s] mapping IH]; intros n; [done|]. cbn. by rewrite IH. Qed.
Lemma strings_of_spec mapping : Generator.strings_of mapping = (bytes_of mapping, starts_from 0 mapping).
Proof.
  unfold Generator.strings_of. induction mapping as [|[ch s] mapping IH] using rev_ind; [done|]. rewrite foldl_app, IH. cbn [foldl fst snd]. rewrite bytes_of_app, starts_app. cbn [starts_from]. do 3 f_equal.
  unfold bytes_of. cbn. by rewrite app_nil_r.
Qed.

Abbreviation ascending := (StronglySorted (λ a b : Z * _, a.1 < b.1)).
Definition characters {A} (mapping : list (Z * A)) : Prop := Forall (λ m, is_char m.1) mapping.

Section strings.
Implicit Types (mapping : list (Z * list Z)).
Definition table_of mapping : list (Z * MappingOffset) := Generator.mapping_entries (starts_from 0 mapping).

Lemma entries_fst (starts : list (Z * Z)) : (Generator.mapping_entries starts).*1 = Generator.plane_of <$> starts.*1.
Proof. unfold Generator.mapping_entries. by rewrite <- !list_fmap_compose. Qed.
Lemma sorted_fst {A B} (R : Z → Z → Prop) (l : list (Z * A)) (l' : list (Z * B)) : l.*1 = l'.*1 → StronglySorted (λ a b, R a.1 b.1) l → StronglySorted (λ a b, R a.1 b.1) l'.
Proof.
  revert l'. induction l as [|a l IH]; intros [|b l'] He Hs; try done; [constructor|]. injection He as Hab He. apply StronglySorted_cons in Hs as [Ha Hs]. apply StronglySorted_cons. split; [|by apply IH].
  rewrite <- Hab. apply (Forall_fmap fst (R a.1)). change (Forall (R a.1) (l'.*1)). rewrite <- (He : l.*1 = l'.*1). by apply Forall_fmap.
Qed.
Lemma table_planes mapping : ascending mapping → characters mapping →
  StronglySorted (λ a b, a.1 ≤ b.1) (table_of mapping) ∧ Forall (λ pe, 0 ≤ pe.1 < 18) (table_of mapping).
Proof.
  intros Hs Hc. split.
  - apply (sorted_fst Z.le ((λ m, (Generator.plane_of m.1, m.2)) <$> mapping)).
    + unfold table_of. rewrite entries_fst, starts_keys. by rewrite <- !list_fmap_compose.
    + clear Hc. induction Hs as [|m mapping Hs IH Hm]; [constructor|]. rewrite fmap_cons. apply StronglySorted_cons. split; [|done]. apply Forall_fmap. eapply Forall_impl; [exact Hm|]. intros m' Hlt. cbn beta in Hlt. cbn. apply plane_mono. lia.
  - apply (Forall_fmap fst (λ x, 0 ≤ x < 18)). unfold table_of. rewrite entries_fst, starts_keys. apply Forall_fmap, Forall_fmap. eapply Forall_impl; [exact Hc|]. intros m Hm. unfold is_char in Hm. apply plane_range. lia.
Qed.
Lemma table_app mapping1 ch s mapping2 : let n := zlen (bytes_of mapping1) in
  table_of (mapping1 ++ (ch, s) :: mapping2) =
  table_of mapping1 ++ (Generator.plane_of ch, mkMapping (Generator.as_u16 ch) (Generator.as_u16 n)) :: Generator.mapping_entries (starts_from (n + zlen (Utf8.as_bytes s)) mapping2).
Proof. intros n. unfold table_of, Generator.mapping_entries. by rewrite starts_app, fmap_app. Qed.

(** A plane's characters by their low halves. *)
Lemma in_plane_low p (starts : list (Z * Z)) e : e ∈ in_plane p (Generator.mapping_entries starts) → ∃ ch, ch ∈ starts.*1 ∧ Generator.plane_of ch = Z.of_nat p ∧ low_plane_ix e = Generator.as_u16 ch.
Proof.
  unfold in_plane, Generator.mapping_entries. intros ([p' e'] & -> & [Hp He]%list_elem_of_filter)%list_elem_of_fmap. apply list_elem_of_fmap in He as ([ch o] & [= -> ->] & Hin). exists ch. split; [|done].
  apply list_elem_of_fmap. by exists (ch, o).
Qed.

Lemma binary_search_at {A} (f : A → Z) l1 e l2 x : Forall (λ a, f a < x) l1 → f e = x → Forall (λ a, x ≤ f a) l2 → binary_search (f <$> l1 ++ e :: l2) x = inl (length l1).
Proof.
  intros H1 He H2. unfold binary_search. assert (filter (λ y, y < x) (f <$> l1 ++ e :: l2) = f <$> l1) as ->.
  - rewrite fmap_app, filter_app, (filter_all _ (f <$> l1)) by (by apply Forall_fmap). rewrite (filter_none (f <$> e :: l2)); [apply app_nil_r|]. apply Forall_fmap. constructor; [cbn; lia|done].
  - rewrite length_fmap, decide_True; [done|]. rewrite list_lookup_fmap, list_lookup_middle by done. cbn. by f_equal.
Qed.
Lemma low_lt p ch e (starts : list (Z * Z)) : Generator.plane_of ch = Z.of_nat p → e ∈ in_plane p (Generator.mapping_entries starts) → Forall (λ c, c < ch) starts.*1 → low_plane_ix e < Generator.as_u16 ch.
Proof. intros Hp (c & Hc & Hcp & ->)%in_plane_low Hlt. rewrite Forall_forall in Hlt. specialize (Hlt c Hc). pose proof (plane_low c). pose proof (plane_low ch). lia. Qed.

(** Where a string ends: where the next one starts. *)
Lemma next_start n mapping d : Generator.mapping_entries (starts_from n mapping) = d → n + zlen (bytes_of mapping) < 65536 → 0 ≤ n →
  match d with [] => n + zlen (bytes_of mapping) | e :: _ => mo_offset e.2 end = n.
Proof.
  intros <- Hn H0. destruct mapping as [|[ch s] mapping]; [cbn; lia|]. cbn. apply Z.mod_small. lia.
Qed.

Lemma string_end (a x1 : list MappingOffset) e x2 b total n : match x2 ++ b with [] => total | e' :: _ => mo_offset e' end = n →
  (if zlen (x1 ++ e :: x2) =? zlen x1 + 1 then
     if zlen (a ++ x1 ++ e :: x2) <? zlen (a ++ (x1 ++ e :: x2) ++ b) then mo_offset <$> unwrap ((a ++ (x1 ++ e :: x2) ++ b) !! Z.to_nat (zlen (a ++ x1 ++ e :: x2)))
     else Ok total
   else mo_offset <$> unwrap ((x1 ++ e :: x2) !! S (length x1))) = Ok n.
Proof.
  intros Hn. rewrite (length_app x1). cbn [length]. destruct x2 as [|e2 x2]; cbn [length app] in *.
  - rewrite (proj2 (Z.eqb_eq _ _)) by lia. rewrite (assoc_L app a (x1 ++ [e]) b), (length_app (a ++ x1 ++ [e])), Nat2Z.id. destruct b as [|e2 b].
    + rewrite (proj2 (Z.ltb_ge _ _)) by (cbn; lia). by f_equal.
    + rewrite (proj2 (Z.ltb_lt _ _)) by (cbn; lia). rewrite list_lookup_middle by done. cbn. by f_equal.
  - rewrite (proj2 (Z.eqb_neq _ _)) by lia. rewrite lookup_app_r by lia. replace (S (length x1) - length x1)%nat with 1%nat by lia. cbn. by f_equal.
Qed.
Lemma slice_middle {A} (l1 l l2 : list A) a b : a = zlen l1 → b = zlen l1 + zlen l → Lookup.slice (l1 ++ l ++ l2) a b = Ok l.
Proof.
  intros -> ->. unfold Lookup.slice. rewrite !length_app. rewrite !(proj2 (Z.leb_le _ _)) by lia. cbn [andb]. f_equal. rewrite Nat2Z.id, drop_app_length.
  replace (Z.to_nat _) with (length l) by lia. apply take_app_length.
Qed.

Lemma string_lookup_found mapping1 ch s mapping2 : let mapping := mapping1 ++ (ch, s) :: mapping2 in
  ascending mapping → characters mapping → zlen (bytes_of mapping) < 65536 →
  let '(offsets, data) := Generator.layout (by_plane 18 (table_of mapping)) in
  Lookup.string_table_lookup ch offsets data (bytes_of mapping) = Ok (Some (Utf8.as_bytes s)).
Proof.
  intros mapping Hs Hc Hlen. destruct (table_planes mapping Hs Hc) as [Hps Hpr]. apply StronglySorted_app in Hs as (Hlt & _ & [Hgt _]%StronglySorted_cons).
  apply Forall_app in Hc as [_ [Hch _]%Forall_cons]. unfold is_char in Hch. cbn [fst] in Hch. set (p := Z.to_nat (Generator.plane_of ch)). pose proof (plane_range ch 17 ltac:(lia)) as Hp.
  assert (Generator.plane_of ch = Z.of_nat p) as Hpp by lia. pose proof (plane_spec (by_plane 18 (table_of mapping)) ch _ ltac:(lia) (by_plane_lookup 18 _ p ltac:(lia))) as Hplane.
  destruct (layout_spec (by_plane 18 (table_of mapping))) as (offsets & He & _). rewrite He in *. destruct Hplane as (b & Hplane & Hd). fold p in Hplane, Hd. rewrite take_by_plane in Hplane, Hd by lia.
  rewrite concat_planes in * by done. unfold Lookup.string_table_lookup. rewrite Hplane. res_simpl. clear He Hplane.
  pose proof (table_app mapping1 ch s mapping2) as Ht. fold mapping in Ht. cbv zeta in Ht. rewrite Hpp in Ht. set (n := zlen (bytes_of mapping1)) in *. set (e := mkMapping _ _) in *. set (table2 := Generator.mapping_entries _) in *.
  assert (zlen (bytes_of mapping) = n + zlen (Utf8.as_bytes s) + zlen (bytes_of mapping2)) as Hlen' by (unfold mapping, n; rewrite bytes_of_app, length_app; unfold bytes_of; cbn [fmap list_fmap concat snd]; rewrite length_app; lia).
  rewrite Ht in Hd, Hps, Hpr |- *. rewrite in_plane_split in *.
  assert (concat (by_plane p (table_of mapping1 ++ (Z.of_nat p, e) :: table2)) ++ in_plane p (table_of mapping1) = (table_of mapping1).*2) as Hbefore by (apply before_entry; [done|]; eapply Forall_impl; [exact Hpr|]; cbn; lia).
  set (a := concat _) in *. set (x1 := in_plane p (table_of mapping1)) in *. set (x2 := in_plane p table2) in *.
  assert (x2 ++ b = table2.*2) as Hafter.
  { rewrite fmap_app, fmap_cons in Hd. cbn [snd] in Hd. rewrite <- Hbefore in Hd. rewrite <- !(assoc_L app) in Hd. apply app_inv_head, app_inv_head in Hd. by injection Hd as <-. }
  assert (match table2.*2 with [] => zlen (bytes_of mapping) | e' :: _ => mo_offset e' end = n + zlen (Utf8.as_bytes s)) as Hend.
  { pose proof (next_start (n + zlen (Utf8.as_bytes s)) mapping2 table2 eq_refl) as Hend. destruct table2; cbn; rewrite <- Hend by lia; lia. }
  rewrite binary_search_at; [|apply Forall_forall; intros e' He'; apply (low_lt p _ _ (starts_from 0 mapping1)); [done..|]|done|].
  - rewrite (list_lookup_middle x1 x2 e (length x1) eq_refl). res_simpl. rewrite Hd. rewrite (string_end _ _ _ _ _ _ (n + zlen (Utf8.as_bytes s))) by (by rewrite Hafter). res_simpl.
    unfold mapping. rewrite bytes_of_app. change (bytes_of ((ch, s) :: mapping2)) with (Utf8.as_bytes s ++ bytes_of mapping2). rewrite slice_middle; [done| |done]. cbn. apply Z.mod_small. lia.
  - rewrite starts_keys. apply Forall_fmap, Forall_forall. intros m Hm. apply (Hlt m (ch, s) Hm). by left.
  - apply Forall_forall. intros e' (c & Hin & Hcp & ->)%in_plane_low. rewrite starts_keys in Hin. apply list_elem_of_fmap in Hin as (m & -> & Hm). rewrite Forall_forall in Hgt. specialize (Hgt m Hm). cbn in Hgt.
    pose proof (plane_low ch). pose proof (plane_low m.1). lia.
Qed.

Lemma string_lookup_missing mapping ch strings : ascending mapping → characters mapping → is_char ch → ch ∉ mapping.*1 →
  let '(offsets, data) := Generator.layout (by_plane 18 (table_of mapping)) in
  Lookup.string_table_lookup ch offsets data strings = Ok None.
Proof.
  intros Hs Hc Hch Hni. unfold is_char in Hch. set (p := Z.to_nat (Generator.plane_of ch)). pose proof (plane_range ch 17 ltac:(lia)) as Hp.
  pose proof (plane_spec (by_plane 18 (table_of mapping)) ch _ ltac:(lia) (by_plane_lookup 18 _ p ltac:(lia))) as Hplane.
  destruct (layout_spec (by_plane 18 (table_of mapping))) as (offsets & He & _). rewrite He in *. destruct Hplane as (b & Hplane & _). unfold Lookup.string_table_lookup. rewrite Hplane. res_simpl.
  unfold binary_search. rewrite decide_False; [done|]. intros Hl. apply list_elem_of_lookup_2, list_elem_of_fmap in Hl as (e & Heq & (c & Hin & Hcp & Hlow)%in_plane_low).
  apply Hni. rewrite starts_keys in Hin. replace ch with c; [done|]. pose proof (plane_low ch). pose proof (plane_low c). lia.
Qed.
End strings.

(** ** Ranges

    Ranges in ascending order, none of them across planes, each with the entry
    that stands for it. *)
Section ranges.
Context {E : Type} (start_of end_of : E → Z).
Implicit Types (rs : list (Z * Z * E)).
Definition encodes (r : Z * Z * E) : Prop :=
  let '(s, t, e) := r in 0 ≤ s < t ∧ t < 0x110000 ∧ Generator.plane_of s = Generator.plane_of t ∧ start_of e = Generator.as_u16 s ∧ end_of e = Generator.as_u16 t.
Definition disjoint_ranges rs : Prop := StronglySorted (λ a b, a.1.2 ≤ b.1.1) rs.
Definition plane_entries rs : list (Z * E) := (λ r, (Generator.plane_of r.1.2, r.2)) <$> rs.
Definition contains ch (r : Z * Z * E) : Prop := r.1.1 ≤ ch < r.1.2.
#[global] Instance contains_dec ch r : Decision (contains ch r).
Proof. unfold contains. apply _. Defined.

Lemma elem_of_in_plane p rs e : e ∈ in_plane p (plane_entries rs) → ∃ s t, (s, t, e) ∈ rs ∧ Generator.plane_of t = Z.of_nat p.
Proof.
  unfold in_plane, plane_entries. intros ([p' e'] & -> & [Hp He]%list_elem_of_filter)%list_elem_of_fmap. apply list_elem_of_fmap in He as ([[s t] e''] & [= -> ->] & Hin). by exists s, t.
Qed.
Lemma first_above (l1 : list E) e l2 lsb : Forall (λ a, end_of a ≤ lsb) l1 → Forall (λ a, lsb < end_of a) (e :: l2) →
  (l1 ++ e :: l2) !! Lookup.first_ending_above end_of (l1 ++ e :: l2) lsb = Some e.
Proof.
  intros H1 H2. unfold Lookup.first_ending_above. rewrite filter_app, (filter_all _ l1), (filter_nothing _ (e :: l2)) by first [done|eapply Forall_impl; [exact H2|]; cbn; lia].
  rewrite app_nil_r. by apply list_lookup_middle.
Qed.

Lemma range_here rs ch p : disjoint_ranges rs → Forall encodes rs → Generator.plane_of ch = Z.of_nat p →
  let x := in_plane p (plane_entries rs) in let low := Generator.as_u16 ch in
  match filter (contains ch) rs with
  | r :: _ => x !! Lookup.first_ending_above end_of x low = Some r.2 ∧ start_of r.2 ≤ low < end_of r.2
  | [] => ∀ e, x !! Lookup.first_ending_above end_of x low = Some e → ¬ start_of e ≤ low < end_of e
  end.
Proof.
  intros Hd He Hp x low. destruct (filter (contains ch) rs) as [|[[s t] e] rest] eqn:Ef.
  - intros e Hl Hin. apply list_elem_of_lookup_2, elem_of_in_plane in Hl as (s & t & Hr & Hpt). rewrite Forall_forall in He. destruct (He _ Hr) as (Hs & Ht & Hst & Hso & Heo).
    assert ((s, t, e) ∈ filter (contains ch) rs) as Hf; [|rewrite Ef in Hf; by apply elem_of_nil in Hf]. apply list_elem_of_filter. split; [|done]. unfold contains. cbn.
    pose proof (plane_low s). pose proof (plane_low t). pose proof (plane_low ch). unfold low in Hin. lia.
  - assert ((s, t, e) ∈ filter (contains ch) rs) as [Hc Hr]%list_elem_of_filter by (rewrite Ef; by left). unfold contains in Hc. cbn in Hc |- *.
    apply list_elem_of_split in Hr as (rs1 & rs2 & ->). apply Forall_app in He as [He1 [(Hs & Ht & Hst & Hso & Heo) He2]%Forall_cons].
    apply StronglySorted_app in Hd as (Hd1 & _ & [Hd2 _]%StronglySorted_cons). cbn in Hd2.
    assert (Generator.plane_of t = Z.of_nat p) as Hpt by (pose proof (plane_mono s ch ltac:(lia)); pose proof (plane_mono ch t ltac:(lia)); lia).
    pose proof (plane_low s). pose proof (plane_low t). pose proof (plane_low ch). fold low in H1. split; [|lia]. unfold x, plane_entries. rewrite fmap_app, fmap_cons. cbn [fst snd]. rewrite Hpt, in_plane_split. fold (plane_entries rs1) (plane_entries rs2).
    apply first_above; [|constructor; [cbn; lia|]]; apply Forall_forall; intros e' (s' & t' & Hin & Hpt')%elem_of_in_plane; pose proof (plane_low t'); pose proof (plane_low s').
    + rewrite Forall_forall in He1. destruct (He1 _ Hin) as (Hs' & Ht' & Hst' & Hso' & Heo'). specialize (Hd1 _ (s, t, e) Hin (list_elem_of_here _ _)). cbn in Hd1. lia.
    + rewrite Forall_forall in He2, Hd2. destruct (He2 _ Hin) as (Hs' & Ht' & Hst' & Hso' & Heo'). specialize (Hd2 _ Hin). cbn in Hd2. lia.
Qed.

Lemma range_plane n rs ch : Forall encodes rs → Forall (λ pe, pe.1 < Z.of_nat n) (plane_entries rs) → 0 ≤ ch < Z.of_nat n * 65536 →
  Generator.fill n (plane_entries rs) = Ok (by_plane n (plane_entries rs)) ∧
  let '(offsets, data) := Generator.layout (by_plane n (plane_entries rs)) in
  ∃ b, Lookup.plane offsets data ch = Ok (in_plane (Z.to_nat (Generator.plane_of ch)) (plane_entries rs), b).
Proof.
  intros He Hn Hch. pose proof (plane_range ch _ Hch) as Hp. split.
  - apply fill_spec. apply Forall_forall. intros pe Hpe. rewrite Forall_forall in Hn. split; [|by apply Hn]. unfold plane_entries in Hpe. apply list_elem_of_fmap in Hpe as ([[s t] e] & -> & Hin). cbn. rewrite Forall_forall in He. destruct (He _ Hin) as (? & ? & _).
    unfold Generator.plane_of. apply Z.shiftr_nonneg. lia.
  - pose proof (plane_spec (by_plane n (plane_entries rs)) ch _ ltac:(lia) (by_plane_lookup n _ (Z.to_nat (Generator.plane_of ch)) ltac:(lia))) as Hplane.
    destruct (Generator.layout _) as [offsets data]. destruct Hplane as (b & Hplane & _). by eexists.
Qed.
End ranges.

(** ** What the database says *)
Inductive decomposes (data : gmap Z (list Z)) : Z → list Z → Prop :=
  | decomposes_leaf ch : data !! ch = None ∨ data !! ch = Some [] → Generator.from_u32 ch = Some ch → decomposes data ch [ch]
  | decomposes_node ch d s : data !! ch = Some d → d ≠ [] → decompose_all data d s → decomposes data ch s
with decompose_all (data : gmap Z (list Z)) : list Z → list Z → Prop :=
  | decompose_nil : decompose_all data [] []
  | decompose_cons ch s l t : decomposes data ch s → decompose_all data l t → decompose_all data (ch :: l) (s ++ t).
Scheme decomposes_mut := Induction for decomposes Sort Prop
  with decompose_all_mut := Induction for decompose_all Sort Prop.

Definition class_of (classes : list (Z * Z * Z)) (ch : Z) : Z :=
  match filter (contains ch) (filter (λ r, r.2 ≠ 0) classes) with r :: _ => r.2 | [] => 0 end.
Definition ignorable (ranges : list (Z * Z)) (ch : Z) : bool := existsb (λ r, (r.1 <=? ch) && (ch <? r.2)) ranges.

(** Ascending ranges of characters, those of ignorable characters each in one plane. *)
Record ucd_ok (ucd : UCD) : Prop := {
  ok_classes : disjoint_ranges (derived_combining_class ucd);
  ok_class : Forall (λ r, 0 ≤ r.1.1 < r.1.2 ∧ r.1.2 < 0x110000) (derived_combining_class ucd);
  ok_decompositions : characters (bt_entries (character_decomposition ucd));
  ok_ignorables : StronglySorted (λ a b, a.2 ≤ b.1) (default_ignorable_code_point ucd);
  ok_ignorable : Forall (λ r, 0 ≤ r.1 < r.2 ∧ r.2 < 0x110000 ∧ Generator.plane_of r.1 = Generator.plane_of r.2) (default_ignorable_code_point ucd);
  ok_foldings : characters (bt_entries (case_folding ucd));
}.

(** *** Decompositions *)
Section decompositions.
Context (data : gmap Z (list Z)).

Lemma decompose_all_app l1 l2 s : decompose_all data (l1 ++ l2) s → ∃ s1 s2, s = s1 ++ s2 ∧ decompose_all data l1 s1 ∧ decompose_all data l2 s2.
Proof.
  revert s. induction l1 as [|ch l1 IH]; intros s Hs; [exists [], s; split_and!; [done|constructor|done]|]. inversion Hs as [|? s1 ? t Hc Ht]; subst. destruct (IH _ Ht) as (s2 & s3 & -> & H2 & H3).
  exists (s1 ++ s2), s3. split_and!; [apply (assoc_L app)|by constructor|done].
Qed.
Lemma from_u32_Some c c' : Generator.from_u32 c = Some c' → c' = c ∧ is_char c.
Proof. unfold Generator.from_u32, is_char. destruct (_ && _) eqn:E; [|done]. intros [= ->]. split; [done|]. lia. Qed.

Lemma expand_sound fuel chars out r : Generator.expand fuel data chars out = Ok r → ∃ s, decompose_all data chars s ∧ r = out ++ s.
Proof.
  revert chars out. induction fuel as [|fuel IH]; [done|]. intros [|ch chars] out H; cbn [Generator.expand] in H; [injection H as <-; exists []; split; [constructor|by rewrite app_nil_r]|].
  destruct (data !! ch) as [[|c d]|] eqn:Ed.
  2:{ apply IH in H as (s & Hs & ->). change (c :: d ++ chars) with ((c :: d) ++ chars) in Hs. apply decompose_all_app in Hs as (s1 & s2 & -> & H1 & H2). exists (s1 ++ s2). split; [|done]. constructor; [|done]. by eapply decomposes_node. }
  all: destruct (Generator.from_u32 ch) as [c|] eqn:Eu; res_simpl in H; [|done]; destruct (from_u32_Some _ _ Eu) as [-> _]; apply IH in H as (s & Hs & ->); exists (ch :: s); rewrite <- (assoc_L app); (split; [|done]);
    apply (decompose_cons _ ch [ch]); [|done]; apply decomposes_leaf; auto.
Qed.

(** A character that has a decomposition is decomposed in a number of steps. *)
Lemma expand_complete chars s : decompose_all data chars s → ∃ n, ∀ fuel rest out, Generator.expand (n + fuel) data (chars ++ rest) out = Generator.expand fuel data rest (out ++ s).
Proof.
  revert chars s. apply (decompose_all_mut data (λ ch s _, ∃ n, ∀ fuel rest out, Generator.expand (n + fuel) data (ch :: rest) out = Generator.expand fuel data rest (out ++ s))
    (λ chars s _, ∃ n, ∀ fuel rest out, Generator.expand (n + fuel) data (chars ++ rest) out = Generator.expand fuel data rest (out ++ s))).
  - intros ch Hd Hu. exists 1%nat. intros fuel rest out. cbn [Nat.add Generator.expand]. destruct Hd as [-> | ->]; by rewrite Hu; res_simpl.
  - intros ch d s Hd Hne _ (n & Hn). exists (S n). intros fuel rest out. cbn [Nat.add Generator.expand]. rewrite Hd. destruct d as [|c d]; [done|]. apply Hn.
  - exists O. intros fuel rest out. by rewrite app_nil_r.
  - intros ch s l t _ (n & Hn) _ (m & Hm). exists (n + m)%nat. intros fuel rest out. rewrite <- Nat.add_assoc. cbn [app]. by rewrite Hn, Hm, (assoc_L app).
Qed.
Lemma expand_terminates ch s : decomposes data ch s → ∃ n, ∀ fuel, (n ≤ fuel)%nat → Generator.expand fuel data [ch] [] = Ok s.
Proof.
  intros Hd. destruct (expand_complete [ch] (s ++ [])) as [n Hn]; [constructor; [done|constructor]|]. exists (S n). intros fuel Hf. replace fuel with (n + S (fuel - S n))%nat by lia.
  change [ch] with ([ch] ++ []). rewrite Hn. cbn. by rewrite app_nil_r.
Qed.
End decompositions.

(** *** Mappings *)
Lemma bt_entries_ascending {V} (m : gmap Z V) : ascending (bt_entries m).
Proof.
  pose proof (bt_entries_sorted m) as Hs. pose proof (bt_entries_NoDup_fst m) as Hn. induction Hs as [|a l Hs IH Ha]; [constructor|]. rewrite fmap_cons in Hn. apply NoDup_cons in Hn as [Hni Hn].
  apply StronglySorted_cons. split; [|by apply IH]. apply Forall_forall. intros b Hb. rewrite Forall_forall in Ha. specialize (Ha b Hb). unfold key_le in Ha.
  assert (a.1 ≠ b.1); [|lia]. intros He. apply Hni. rewrite He. by apply list_elem_of_fmap_2.
Qed.

Lemma sublist_Forall {A} (P : A → Prop) (l l' : list A) : l' `sublist_of` l → Forall P l → Forall P l'.
Proof. induction 1; rewrite ?Forall_cons; naive_solver. Qed.

(** A mapping whose keys are some of those of another one. *)
Lemma sub_keys {A B} (l : list (Z * A)) (l' : list (Z * B)) : l'.*1 `sublist_of` l.*1 → (ascending l → ascending l') ∧ (characters l → characters l').
Proof.
  intros Hsub. assert (∀ P : Z → Prop, Forall (λ m, P m.1) l → Forall (λ m, P m.1) l') as Hall.
  { intros P Hl. apply (Forall_fmap fst P). eapply sublist_Forall; [exact Hsub|]. by apply (Forall_fmap fst P). }
  split; [|apply (Hall is_char)]. intros Hs. assert (StronglySorted Z.lt l.*1) as Hs1 by (by eapply StronglySorted_fmap; [|exact Hs]).
  assert (StronglySorted Z.lt l'.*1) as Hs2.
  { revert Hsub Hs1. generalize (l.*1), (l'.*1). clear. intros k2 k1 Hsub Hs1. induction Hsub as [|x k1 k2 Hsub IH|x k1 k2 Hsub IH]; [constructor| |]; apply StronglySorted_cons in Hs1 as [Hx Hs1]; [|by apply IH]. apply StronglySorted_cons. split; [by eapply sublist_Forall|by apply IH]. }
  clear -Hs2. induction l' as [|a l' IH]; [constructor|]. rewrite fmap_cons in Hs2. apply StronglySorted_cons in Hs2 as [Ha Hs2]. apply StronglySorted_cons. split; [by apply (Forall_fmap fst (Z.lt a.1)) in Ha|by apply IH].
Qed.

Lemma expand_all_spec fuel data entries l : Generator.expand_all fuel data entries = Ok l →
  l.*1 `sublist_of` entries.*1 ∧ (∀ ch s, (ch, s) ∈ l → decomposes data ch s ∧ ∃ d, d ≠ [] ∧ (ch, d) ∈ entries) ∧ ∀ ch d, (ch, d) ∈ entries → d ≠ [] → ch ∈ l.*1.
Proof.
  revert l. induction entries as [|[ch d] entries IH]; intros l H; cbn [Generator.expand_all] in H; [injection H as <-; split_and!; [constructor|set_solver|set_solver]|].
  destruct d as [|c d]; [|destruct (Generator.expand fuel data [ch] []) as [s| | |] eqn:Ex; res_simpl in H; try done; destruct (Generator.expand_all fuel data entries) as [l'| | |]; res_simpl in H; try done; injection H as <-].
  - destruct (IH l H) as (H1 & H2 & H3). split_and!; [by apply sublist_cons| |].
    + intros ch' s' Hin. destruct (H2 _ _ Hin) as (Hd & d & Hne & Hd'). split; [done|]. exists d. split; [done|by right].
    + intros ch' d' [[= -> ->]|Hin]%elem_of_cons Hne; [done|by eapply H3].
  - destruct (IH l' eq_refl) as (H1 & H2 & H3). apply expand_sound in Ex as (s' & Hs & ->). inversion Hs as [|? s1 ? t Hc Ht]; subst. inversion Ht; subst. cbn [app]. rewrite app_nil_r. split_and!; [by apply sublist_skip| |].
    + intros ch' s' [[= -> ->]|Hin]%elem_of_cons; [split; [done|]; exists (c :: d); split; [done|by left]|]. destruct (H2 _ _ Hin) as (Hd & d' & Hne & Hd'). split; [done|]. exists d'. split; [done|by right].
    + intros ch' d' [[= -> ->]|Hin]%elem_of_cons Hne; [by left|]. right. by eapply H3.
Qed.

Lemma fold_strings_spec entries l : Generator.fold_strings entries = Ok l → l = entries ∧ Forall (λ m, Forall is_char m.2) entries.
Proof.
  revert l. induction entries as [|[ch m] entries IH]; intros l H; cbn [Generator.fold_strings] in H; [injection H as <-; by split; [|constructor]|].
  destruct (mapM Generator.from_u32 m) as [s|] eqn:Em; res_simpl in H; [|done]. destruct (Generator.fold_strings entries) as [l'| | |]; res_simpl in H; try done. injection H as <-. destruct (IH l' eq_refl) as [-> Hf].
  assert (s = m ∧ Forall is_char m) as [-> Hm]; [|split; [done|by constructor]]. clear -Em. apply mapM_Some in Em. induction Em as [|c c' m s Hc Hm [-> IH]]; [done|]. destruct (from_u32_Some _ _ Hc) as [-> ?]. split; [done|by constructor].
Qed.

(** *** Classes *)
Definition class_start (e : CCCEntry) : Z := low_plane_end_ix e - range_len e.
Definition class_ranges (classes : list (Z * Z * Z)) : list (Z * Z * CCCEntry) :=
  (λ r, (r.1, mkCCC (Generator.as_u16 r.1.2) (r.1.2 - r.1.1) r.2)) <$> filter (λ r, r.2 ≠ 0) classes.
Lemma ccc_entries_spec classes l : Generator.ccc_entries classes = Ok l → Forall (λ r, 0 ≤ r.1.1 < r.1.2 ∧ r.1.2 < 0x110000) classes →
  l = plane_entries (class_ranges classes) ∧ Forall (encodes class_start low_plane_end_ix) (class_ranges classes).
Proof.
  revert l. induction classes as [|[[s t] c] classes IH]; intros l H Hc; [injection H as <-; by split; [|constructor]|]. apply Forall_cons in Hc as [Hr Hc]. cbn in Hr. cbn [Generator.ccc_entries] in H.
  destruct (Z.eqb_spec (Generator.plane_of s) (Generator.plane_of t)) as [Hp|]; res_simpl in H; [|done]. unfold class_ranges in *. destruct (Z.eqb_spec c 0) as [->|Hne]; [rewrite filter_cons_False by (cbn; lia); by apply IH|].
  rewrite filter_cons_True by done. rewrite u64_sub_ok in H by lia. res_simpl in H. destruct (t - s <=? 255); res_simpl in H; [|done]. destruct (Generator.ccc_entries classes) as [l'| | |]; res_simpl in H; try done. injection H as <-.
  destruct (IH l' eq_refl Hc) as [-> He]. split; [done|]. rewrite fmap_cons. constructor; [|done]. cbn. unfold class_start. cbn. pose proof (plane_low s). pose proof (plane_low t). split_and!; try done; lia.
Qed.

(** ** The generated tables *)
Definition mapping_table (mapping : list (Z * list Z)) (strings offsets : list Z) (data : list MappingOffset) : Prop :=
  strings = bytes_of mapping ∧ zlen strings < 30000 ∧ ∃ planes, Generator.fill 18 (table_of mapping) = Ok planes ∧ Generator.layout planes = (offsets, data).

Lemma unicode_gen_inv fuel ucd T : Generator.unicode_gen fuel ucd = Ok T →
  (∃ ccc planes, Generator.ccc_entries (derived_combining_class ucd) = Ok ccc ∧ Generator.fill 16 ccc = Ok planes ∧ Generator.layout planes = (CCC_PLANE_OFFSETS T, CCC_PLANE_DATA T)) ∧
  (∃ decs, Generator.expand_all fuel (character_decomposition ucd) (bt_entries (character_decomposition ucd)) = Ok decs ∧ mapping_table decs (DECOMP_STRINGS T) (DECOMP_PLANE_OFFSETS T) (DECOMP_PLANE_DATA T)) ∧
  (∃ planes, Generator.fill 18 (plane_entries ((λ r, (r, (Generator.as_u16 r.1, Generator.as_u16 r.2))) <$> default_ignorable_code_point ucd)) = Ok planes ∧ Generator.layout planes = (IGNORABLE_PLANE_OFFSETS T, IGNORABLE_PLANE_DATA T)) ∧
  (∃ folds, Generator.fold_strings (bt_entries (case_folding ucd)) = Ok folds ∧ mapping_table folds (CASEFOLD_STRINGS T) (CASEFOLD_PLANE_OFFSETS T) (CASEFOLD_PLANE_DATA T)).
Proof.
  unfold Generator.unicode_gen. intros H.
  destruct (Generator.ccc_entries _) as [ccc| | |]; res_simpl in H; try done. destruct (Generator.fill 16 ccc) as [cp| | |] eqn:Ecp; res_simpl in H; try done. destruct (Generator.layout cp) as [co cd] eqn:Elc.
  destruct (Generator.expand_all _ _ _) as [decs| | |]; res_simpl in H; try done. rewrite strings_of_spec in H. destruct (forallb _ _); res_simpl in H; [|done].
  fold (table_of decs) in H. destruct (Generator.fill 18 (table_of decs)) as [dp| | |] eqn:Edp; res_simpl in H; try done. destruct (Generator.layout dp) as [do dd] eqn:Eld.
  destruct (Generator.fill 18 _) as [ip| | |] eqn:Eip in H; res_simpl in H; try done. destruct (Generator.layout ip) as [io id] eqn:Eli.
  destruct (Generator.fold_strings _) as [folds| | |]; res_simpl in H; try done. rewrite strings_of_spec in H. fold (table_of folds) in H.
  destruct (Generator.fill 18 (table_of folds)) as [fp| | |] eqn:Efp; res_simpl in H; try done. destruct (Generator.layout fp) as [fo fd] eqn:Elf.
  match type of H with context [rassert ?b] => destruct b eqn:Eb end; res_simpl in H; [|done]. injection H as <-. apply Z.ltb_lt in Eb. cbv zeta beta in Eb. cbn.
  split_and!; [by eexists _, _| | |]; [eexists; split; [done|]; split; [done|]; split; [lia|by eexists]| |eexists; split; [done|]; split; [done|]; split; [lia|by eexists]].
  eexists. split; [|done]. unfold plane_entries. rewrite <- list_fmap_compose. exact Eip.
Qed.

(** A table of strings has the strings of its mapping. *)
Lemma mapping_lookup mapping strings offsets data ch : ascending mapping → characters mapping → is_char ch → mapping_table mapping strings offsets data →
  (∀ s, (ch, s) ∈ mapping → Lookup.string_table_lookup ch offsets data strings = Ok (Some (Utf8.as_bytes s))) ∧
  (ch ∉ mapping.*1 → Lookup.string_table_lookup ch offsets data strings = Ok None).
Proof.
  intros Hs Hc Hch (-> & Hlen & planes & Hf & Hl). destruct (table_planes mapping Hs Hc) as [_ Hr]. rewrite (fill_spec 18 _ Hr) in Hf. injection Hf as <-. split.
  - intros s (l1 & l2 & ->)%list_elem_of_split. pose proof (string_lookup_found l1 ch s l2 Hs Hc ltac:(lia)) as H. by rewrite Hl in H.
  - intros Hni. pose proof (string_lookup_missing mapping ch (bytes_of mapping) Hs Hc Hch Hni) as H. by rewrite Hl in H.
Qed.

(** What the tables say is what the database says; for combining classes, in
    the first sixteen planes. *)
Record tables_agree (ucd : UCD) (T : Tables) : Prop := {
  agree_decomposed ch d : character_decomposition ucd !! ch = Some d → d ≠ [] →
    ∃ s, decomposes (character_decomposition ucd) ch s ∧ Lookup.decomposition T ch = Ok (Some (Utf8.as_bytes s));
  agree_plain ch : is_char ch → character_decomposition ucd !! ch = None ∨ character_decomposition ucd !! ch = Some [] →
    Lookup.decomposition T ch = Ok None;
  agree_casefold ch : is_char ch → Lookup.casefold T ch = Ok (Utf8.as_bytes <$> case_folding ucd !! ch);
  agree_folded ch s : case_folding ucd !! ch = Some s → Forall is_char s;
  agree_ignorable ch : is_char ch → Lookup.default_ignorable T ch = Ok (ignorable (default_ignorable_code_point ucd) ch);
  agree_ccc ch : 0 ≤ ch < 0x100000 → Lookup.ccc T ch = Ok (class_of (derived_combining_class ucd) ch);
}.

Section agree.
Context (fuel : nat) (ucd : UCD) (T : Tables).
Hypothesis (Hok : ucd_ok ucd) (Hgen : Generator.unicode_gen fuel ucd = Ok T).

Lemma gen_decomposition ch d : character_decomposition ucd !! ch = Some d → d ≠ [] →
  ∃ s, decomposes (character_decomposition ucd) ch s ∧ Lookup.decomposition T ch = Ok (Some (Utf8.as_bytes s)).
Proof.
  intros Hd Hne. destruct (unicode_gen_inv _ _ _ Hgen) as (_ & (decs & He & Ht) & _). destruct (expand_all_spec _ _ _ _ He) as (Hsub & Hs & Hall). destruct (sub_keys _ _ Hsub) as [Ha Hc].
  apply elem_of_bt_entries in Hd. pose proof (ok_decompositions _ Hok) as Hk. pose proof (Hall _ _ Hd Hne) as ([ch' s] & -> & Hin)%list_elem_of_fmap. exists s. cbn [fst] in *. split; [by apply Hs|].
  unfold characters in Hk. rewrite Forall_forall in Hk. pose proof (Hk _ Hd) as Hch. exact (proj1 (mapping_lookup _ _ _ _ _ (Ha (bt_entries_ascending _)) (Hc (ok_decompositions _ Hok)) Hch Ht) s Hin).
Qed.
Lemma gen_plain ch : is_char ch → character_decomposition ucd !! ch = None ∨ character_decomposition ucd !! ch = Some [] → Lookup.decomposition T ch = Ok None.
Proof.
  intros Hch Hd. destruct (unicode_gen_inv _ _ _ Hgen) as (_ & (decs & He & Ht) & _). destruct (expand_all_spec _ _ _ _ He) as (Hsub & Hs & Hall). destruct (sub_keys _ _ Hsub) as [Ha Hc].
  apply (proj2 (mapping_lookup _ _ _ _ _ (Ha (bt_entries_ascending _)) (Hc (ok_decompositions _ Hok)) Hch Ht)).
  intros ([ch' s] & -> & Hin)%list_elem_of_fmap. destruct (Hs _ _ Hin) as (_ & d & Hne & Hd'%elem_of_bt_entries). cbn in Hd. rewrite Hd' in Hd. naive_solver.
Qed.
Lemma gen_casefold ch : is_char ch → Lookup.casefold T ch = Ok (Utf8.as_bytes <$> case_folding ucd !! ch).
Proof.
  intros Hch. destruct (unicode_gen_inv _ _ _ Hgen) as (_ & _ & _ & folds & Hf & Ht). apply fold_strings_spec in Hf as [-> _].
  destruct (mapping_lookup _ _ _ _ ch (bt_entries_ascending _) (ok_foldings _ Hok) Hch Ht) as [Hsome Hnone]. unfold Lookup.casefold. destruct (case_folding ucd !! ch) as [s|] eqn:E.
  - by apply Hsome, elem_of_bt_entries.
  - apply Hnone. intros ([ch' s] & -> & Hin%elem_of_bt_entries)%list_elem_of_fmap. cbn in E. congruence.
Qed.
Lemma gen_folded ch s : case_folding ucd !! ch = Some s → Forall is_char s.
Proof.
  intros Hs%elem_of_bt_entries. destruct (unicode_gen_inv _ _ _ Hgen) as (_ & _ & _ & folds & Hf & Ht). apply fold_strings_spec in Hf as [_ Hf]. rewrite Forall_forall in Hf. apply (Hf _ Hs).
Qed.
Lemma gen_ignorable ch : is_char ch → Lookup.default_ignorable T ch = Ok (ignorable (default_ignorable_code_point ucd) ch).
Proof.
  intros Hch. unfold is_char in Hch. destruct (unicode_gen_inv _ _ _ Hgen) as (_ & _ & (planes & Hf & Hl) & _). set (rs := _ <$> default_ignorable_code_point ucd) in *.
  assert (Forall (encodes fst snd) rs) as He.
  { apply Forall_fmap. eapply Forall_impl; [exact (ok_ignorable _ Hok)|]. intros [s t] (? & ? & ?). cbn in *. done. }
  assert (disjoint_ranges rs) as Hd by (eapply StronglySorted_fmap; [|exact (ok_ignorables _ Hok)]; done).
  pose proof (plane_range ch 17 ltac:(lia)) as Hp.
  destruct (range_plane fst snd 18 rs ch He) as [Hf' Hpl]; [|lia|].
  { apply Forall_fmap. eapply Forall_impl; [exact He|]. intros [[s t] e] (? & ? & _). cbn. pose proof (plane_range t 17 ltac:(lia)). lia. }
  rewrite Hf in Hf'. injection Hf' as ->. rewrite Hl in Hpl. destruct Hpl as (b & Hpl). unfold Lookup.default_ignorable. rewrite Hpl. res_simpl.
  pose proof (range_here fst snd rs ch (Z.to_nat (Generator.plane_of ch)) Hd He ltac:(lia)) as Hh. cbv zeta in Hh. destruct (filter (contains ch) rs) as [|r rest] eqn:Ef.
  - assert (ignorable (default_ignorable_code_point ucd) ch = false) as ->.
    { apply not_true_is_false. intros (r & Hr%list_elem_of_In & Hin)%existsb_exists. assert ((r, (Generator.as_u16 r.1, Generator.as_u16 r.2)) ∈ filter (contains ch) rs) as Hx; [|rewrite Ef in Hx; by apply elem_of_nil in Hx].
      apply list_elem_of_filter. split; [unfold contains; cbn; lia|]. apply list_elem_of_fmap. by exists r. }
    destruct (_ !! _) as [e|]; [|done]. specialize (Hh e eq_refl). f_equal. lia.
  - destruct Hh as [-> Hh]. assert (ignorable (default_ignorable_code_point ucd) ch = true) as ->; [|f_equal; lia].
    assert (r ∈ filter (contains ch) rs) as [Hin (r' & -> & Hr)%list_elem_of_fmap]%list_elem_of_filter by (rewrite Ef; by left).
    apply existsb_exists. exists r'. split; [by apply list_elem_of_In|]. unfold contains in Hin. cbn in Hin. lia.
Qed.

(** The planes of the combining classes. *)
Lemma gen_class_planes : let rs := class_ranges (derived_combining_class ucd) in
  Forall (encodes class_start low_plane_end_ix) rs ∧ Forall (λ pe, pe.1 < 16) (plane_entries rs) ∧ Generator.layout (by_plane 16 (plane_entries rs)) = (CCC_PLANE_OFFSETS T, CCC_PLANE_DATA T).
Proof.
  intros rs. destruct (unicode_gen_inv _ _ _ Hgen) as ((ccc & planes & Hc & Hf & Hl) & _). apply ccc_entries_spec in Hc as [-> He]; [|exact (ok_class _ Hok)]. fold rs in Hf, He.
  assert (Forall (λ pe, 0 ≤ pe.1 < Z.of_nat 16) (plane_entries rs)) as Hr.
  { eapply fill_range; [exact Hf|]. apply Forall_fmap. eapply Forall_impl; [exact He|]. intros [[s t] e] (? & ? & _). cbn. unfold Generator.plane_of. apply Z.shiftr_nonneg. lia. }
  rewrite fill_spec in Hf by done. injection Hf as <-. split_and!; [done| |done]. eapply Forall_impl; [exact Hr|]. cbn. lia.
Qed.
Lemma gen_ccc ch : 0 ≤ ch < 0x100000 → Lookup.ccc T ch = Ok (class_of (derived_combining_class ucd) ch).
Proof.
  intros Hch. destruct gen_class_planes as (He & Hr & Hl). set (rs := class_ranges _) in *.
  assert (disjoint_ranges rs) as Hd.
  { eapply StronglySorted_fmap; [|exact (sorted_filter _ _ _ (ok_classes _ Hok))]. done. }
  pose proof (plane_range ch 16 ltac:(lia)) as Hp. destruct (range_plane class_start low_plane_end_ix 16 rs ch He Hr ltac:(lia)) as [_ Hpl]. rewrite Hl in Hpl. destruct Hpl as (b & Hpl). unfold Lookup.ccc. rewrite Hpl. res_simpl.
  pose proof (range_here class_start low_plane_end_ix rs ch (Z.to_nat (Generator.plane_of ch)) Hd He ltac:(lia)) as Hh. cbv zeta in Hh.
  assert (filter (contains ch) rs = (λ r, (r.1, mkCCC (Generator.as_u16 r.1.2) (r.1.2 - r.1.1) r.2)) <$> filter (contains ch) (filter (λ r, r.2 ≠ 0) (derived_combining_class ucd))) as Ef by (unfold rs, class_ranges; rewrite filter_fmap; done).
  rewrite Ef in Hh. unfold class_of. set (x := in_plane _ _) in *.
  assert (∀ e i, x !! i = Some e → range_contains e (Generator.as_u16 ch) = Ok ((class_start e <=? Generator.as_u16 ch) && (Generator.as_u16 ch <? low_plane_end_ix e))) as Hrc.
  { intros e i (s & t & Hin & _)%list_elem_of_lookup_2%elem_of_in_plane. rewrite Forall_forall in He. destruct (He _ Hin) as (_ & _ & _ & Hs & _). pose proof (as_u16_range s). unfold class_start in Hs. unfold range_contains. by rewrite u64_sub_ok by lia. }
  destruct (filter (contains ch) (filter _ (derived_combining_class ucd))) as [|r rest]; cbn [fmap list_fmap] in Hh.
  - destruct (x !! _) as [e|] eqn:Ex; [|done]. specialize (Hh e eq_refl). rewrite (Hrc _ _ Ex). res_simpl. destruct (_ && _) eqn:Eb; [lia|done].
  - destruct Hh as [Ex Hh]. rewrite Ex, (Hrc _ _ Ex). res_simpl. destruct (_ && _) eqn:Eb; [done|lia].
Qed.
Lemma gen_ccc_panics ch : 0x100000 ≤ ch < 0x110000 → Lookup.ccc T ch = Panic.
Proof.
  intros Hch. destruct gen_class_planes as (_ & _ & Hl). pose proof (plane_range (ch - 0x100000) 1 ltac:(lia)). pose proof (plane_low ch). pose proof (as_u16_range ch).
  pose proof (plane_missing (by_plane 16 (plane_entries (class_ranges (derived_combining_class ucd)))) ch ltac:(lia)) as Hm. rewrite Hl in Hm. unfold Lookup.ccc. rewrite Hm; [done|].
  unfold by_plane. rewrite length_fmap, length_seq. lia.
Qed.

Lemma generated_agree : tables_agree ucd T.
Proof. split; [exact gen_decomposition|exact gen_plain|exact gen_casefold|exact gen_folded|exact gen_ignorable|exact gen_ccc]. Qed.
End agree.

(** *** The properties *)

(** C28: What [decomposition], [casefold], [default_ignorable] and [ccc] find in
    the tables that the generator makes of a database is what the database says
    of the character: the full decomposition, the folding, whether it is in a
    range of ignorable characters, and its combining class. Combining classes
    are only found in the first sixteen planes; for a character of the last
    plane the lookup panics. *)
Theorem unicode_lookup_agrees fuel ucd T : ucd_ok ucd → Generator.unicode_gen fuel ucd = Ok T →
  tables_agree ucd T ∧ ∀ ch, 0x100000 ≤ ch < 0x110000 → Lookup.ccc T ch = Panic.
Proof. intros Hok Hgen. split; [by eapply generated_agree|]. intros ch Hch. by eapply gen_ccc_panics. Qed.

Lemma expand_all_fuel data entries : (∀ ch d, (ch, d) ∈ entries → d ≠ [] → ∃ s, decomposes data ch s) →
  ∃ n, ∀ fuel, (n ≤ fuel)%nat → ∃ l, Generator.expand_all fuel data entries = Ok l.
Proof.
  induction entries as [|[ch d] entries IH]; intros Hd; [exists O; intros; by eexists|]. destruct IH as [n Hn]; [intros ch' d' Hin; by apply (Hd ch' d'); right|].
  destruct d as [|c d]; [by exists n|]. destruct (Hd ch (c :: d)) as [s Hs]; [by left|done|]. destruct (expand_terminates _ _ _ Hs) as [m Hm]. exists (n + m)%nat. intros fuel Hf. destruct (Hn fuel ltac:(lia)) as [l Hl].
  exists ((ch, s) :: l). cbn [Generator.expand_all]. rewrite Hm by lia. res_simpl. by rewrite Hl.
Qed.

Lemma ccc_entries_no_fuel classes : Generator.ccc_entries classes ≠ NoFuel.
Proof.
  induction classes as [|[[s t] c] classes IH]; [done|]. cbn [Generator.ccc_entries]. destruct (Generator.plane_of s =? _); res_simpl; [|done]. destruct (c =? 0); [done|]. unfold u64_sub.
  destruct (_ <=? _); res_simpl; [|done]. destruct (_ <=? _); res_simpl; [|done]. destruct (Generator.ccc_entries classes); res_simpl; congruence.
Qed.
Lemma fill_no_fuel {E} n (entries : list (Z * E)) : Generator.fill n entries ≠ NoFuel.
Proof.
  unfold Generator.fill. generalize (replicate n ([] : list E)). induction entries as [|pe entries IH]; intros planes; [done|]. cbn [foldm]. unfold Generator.push at 2. destruct (planes !! Z.to_nat pe.1); res_simpl; [apply IH|done].
Qed.
Lemma fold_strings_no_fuel entries : Generator.fold_strings entries ≠ NoFuel.
Proof. induction entries as [|[ch m] entries IH]; [done|]. cbn [Generator.fold_strings]. destruct (mapM _ m); res_simpl; [|done]. destruct (Generator.fold_strings entries); res_simpl; congruence. Qed.

(** C29: Where decompositions end, the loop that expands them does, whatever
    else the generator makes of the database. *)
Theorem unicode_gen_terminates ucd :
  (∀ ch d, character_decomposition ucd !! ch = Some d → d ≠ [] → ∃ s, decomposes (character_decomposition ucd) ch s) →
  ∃ n, ∀ fuel, (n ≤ fuel)%nat → Generator.unicode_gen fuel ucd ≠ NoFuel.
Proof.
  intros Hd. destruct (expand_all_fuel (character_decomposition ucd) (bt_entries (character_decomposition ucd))) as [n Hn]; [intros ch d Hin%elem_of_bt_entries; by apply Hd|].
  exists n. intros fuel Hf. destruct (Hn fuel Hf) as [l Hl]. unfold Generator.unicode_gen. rewrite Hl. clear.
  destruct (Generator.ccc_entries _) as [ccc| | |] eqn:E1; res_simpl; try done; [|by apply ccc_entries_no_fuel in E1]. destruct (Generator.fill 16 ccc) as [cp| | |] eqn:E2; res_simpl; try done; [|by apply fill_no_fuel in E2].
  destruct (Generator.layout cp), (Generator.strings_of l) as [? starts]. destruct (forallb _ _); res_simpl; [|done]. destruct (Generator.fill 18 (Generator.mapping_entries starts)) as [dp| | |] eqn:E3; res_simpl; try done; [|by apply fill_no_fuel in E3].
  destruct (Generator.layout dp). destruct (Generator.fill 18 (_ <$> default_ignorable_code_point ucd)) as [ip| | |] eqn:E4; res_simpl; try done; [|by apply fill_no_fuel in E4]. destruct (Generator.layout ip).
  destruct (Generator.fold_strings _) as [folds| | |] eqn:E5; res_simpl; try done; [|by apply fold_strings_no_fuel in E5]. destruct (Generator.strings_of folds) as [? starts'].
  destruct (Generator.fill 18 (Generator.mapping_entries starts')) as [fp| | |] eqn:E6; res_simpl; try done; [|by apply fill_no_fuel in E6]. destruct (Generator.layout fp). by destruct (_ <? _).
Qed.
