(* ===== verification/AllocatedRanges.v ===== *)
(** * The allocated ranges of a file

    [fxfs/src/object_store/data_object_handle/allocated_ranges.rs]: the ranges
    of a file that have overwrite extents, kept sorted, merged and apart.  The
    mutex around the vector is not modelled: each operation holds it. *)

From S2P Require Import Prelude BTree Round.

Inductive RangeType : Set :=
| Cow (r : range)
| Overwrite (r : range).

(** [binary_search_by_key(&x, |r| r.end)]. *)
Definition search_end (ranges : list range) (x : Z) : nat + nat := binary_search (end_ <$> ranges) x.

Module RangeOverlapIter.
(** [query_range] and [index]; [ranges] is behind the lock the iterator holds. *)
Record t : Set := mk { query_range : range; index : nat }.

Definition next (ranges : list range) (it : t) : res (option RangeType * t) :=
  let q := query_range it in
  if start q =? end_ q then Ok (None, it)
  else
    cow ← if decide (index it = length ranges) then Ok true
          else r ← unwrap (ranges !! index it); Ok (start q <? start r);
    if (cow : bool) then
      let e := Z.min (end_ q) (default (end_ q) (start <$> ranges !! index it)) in
      Ok (Some (Cow (start q ..< e)), mk (e ..< end_ q) (index it))
    else
      r ← unwrap (ranges !! index it);
      let e := Z.min (end_ q) (end_ r) in
      Ok (Some (Overwrite (start q ..< e)), mk (e ..< end_ q) (S (index it))).

(** What the iterator yields. *)
Fixpoint collect (fuel : nat) (ranges : list range) (it : t) : res (list RangeType) :=
  match fuel with
  | O => NoFuel
  | S fuel =>
      '(x, it) ← next ranges it;
      match x with
      | None => Ok []
      | Some x => l ← collect fuel ranges it; Ok (x :: l)
      end
  end.
End RangeOverlapIter.

Module AllocatedRanges.
Definition overlap (ranges : list range) (query_range : range) : RangeOverlapIter.t :=
  RangeOverlapIter.mk query_range
    (match search_end ranges (start query_range) with inl pos => S pos | inr pos => pos end).

(** The [while] of [apply_range_to]. *)
Fixpoint merge_loop (fuel : nat) (merge_start merge_index : nat) (ranges : list range)
    : res (list range * nat) :=
  match fuel with
  | O => NoFuel
  | S fuel =>
      match ranges !! merge_index with
      | None => Ok (ranges, merge_index)
      | Some i =>
          s ← unwrap (ranges !! merge_start);
          if start i <=? end_ s then
            merge_loop fuel merge_start (S merge_index)
              (<[merge_start := start s ..< Z.max (end_ s) (end_ i)]> ranges)
          else Ok (ranges, merge_index)
      end
  end.

Definition apply_range_to (ranges : list range) (new_range : range) : res (list range) :=
  let merge_start := match search_end ranges (start new_range) with inl pos => pos | inr pos => pos end in
  if decide (merge_start = length ranges) then Ok (ranges ++ [new_range])
  else
    r ← unwrap (ranges !! merge_start);
    let ranges :=
      if start r <=? start new_range
      then <[merge_start := start r ..< Z.max (end_ r) (end_ new_range)]> ranges
      else take merge_start ranges ++ new_range :: drop merge_start ranges in
    '(ranges, merge_index) ← merge_loop (S (length ranges)) merge_start (S merge_start) ranges;
    Ok (take (S merge_start) ranges ++ drop merge_index ranges).

Definition new (ranges_to_apply : list range) : res (list range) :=
  foldm apply_range_to [] ranges_to_apply.

Definition clear (ranges : list range) : list range := [].

Definition truncate (ranges : list range) (cutoff : Z) : res (list range * bool) :=
  match ranges with
  | [] => Ok (ranges, false)
  | _ =>
      let index := match search_end ranges cutoff with inl pos => S pos | inr pos => pos end in
      if decide (index = length ranges) then Ok (ranges, false)
      else
        r ← unwrap (ranges !! index);
        let '(ranges, index) :=
          if start r <? cutoff then (<[index := start r ..< cutoff]> ranges, S index)
          else (ranges, index) in
        Ok (take index ranges, (index =? 0)%nat)
  end.
End AllocatedRanges.

(** ** The invariant: sorted, merged, non-empty *)
Definition ahead (a b : range) : Prop := end_ a < start b.
Definition nonempty (r : range) : Prop := start r < end_ r.
Definition merged (l : list range) : Prop := StronglySorted ahead l ∧ Forall nonempty l.

Section invariant.
Implicit Types (l : list range) (r : range) (x p : Z).

Lemma merged_ends l : merged l → StronglySorted (λ a b, end_ a < end_ b) l.
Proof.
  intros [Hs Hn]. induction Hs as [|a l Hs IH Ha]; constructor; apply Forall_cons in Hn as [_ Hn]; [by auto|].
  rewrite Forall_forall in *. intros b Hb. specialize (Ha b Hb). specialize (Hn b Hb).
  unfold ahead, nonempty in *. lia.
Qed.

Lemma merged_app l1 l2 :
  merged (l1 ++ l2) ↔ merged l1 ∧ merged l2 ∧ ∀ a b, a ∈ l1 → b ∈ l2 → ahead a b.
Proof. unfold merged. rewrite StronglySorted_app, Forall_app. naive_solver. Qed.

Lemma merged_cons r l : merged (r :: l) ↔ nonempty r ∧ merged l ∧ Forall (ahead r) l.
Proof. unfold merged. rewrite StronglySorted_cons, Forall_cons. tauto. Qed.

Lemma merged_singleton r : merged [r] ↔ nonempty r.
Proof. rewrite merged_cons. unfold merged. split; [tauto|]. intros. by repeat constructor. Qed.

(** Where the ranges that end before [x] end. *)
Lemma search_end_spec l x :
  merged l → ∃ l1 l2, l = l1 ++ l2 ∧ Forall (λ r, end_ r < x) l1 ∧ Forall (λ r, x ≤ end_ r) l2 ∧
    search_end l x = if decide (end_ <$> head l2 = Some x) then inl (length l1) else inr (length l1).
Proof. intros Hm. by apply (binary_search_by end_), merged_ends. Qed.

(** The loop swallows the ranges that begin within what has been merged. *)
Lemma merge_loop_ok fuel l1 s mid l2 :
  merged l2 → nonempty s → Forall (λ r, start s ≤ start r) l2 → (length l2 < fuel)%nat →
  ∃ s' l2a l2b, l2 = l2a ++ l2b ∧
    AllocatedRanges.merge_loop fuel (length l1) (S (length l1 + length mid)) (l1 ++ s :: mid ++ l2) =
      Ok (l1 ++ s' :: mid ++ l2, S (length l1 + length mid + length l2a)) ∧
    start s' = start s ∧ end_ s ≤ end_ s' ∧ Forall (ahead s') l2b ∧
    (∀ p, in_range p s' ↔ in_range p s ∨ within l2a p).
Proof.
  intros Hm Hs Hst0. revert s mid Hs Hst0 fuel. induction l2 as [|r l2 IH]; intros s mid Hs Hst0 fuel Hf;
    (destruct fuel as [|fuel]; [cbn in Hf; lia|]); cbn [AllocatedRanges.merge_loop].
  - rewrite lookup_ge_None_2 by (rewrite length_app; cbn; rewrite length_app; cbn; lia).
    exists s, [], []. split_and!; [done| |done|lia|constructor|intros; rewrite within_nil; tauto].
    do 2 f_equal. cbn. lia.
  - apply merged_cons in Hm as (Hr & Hm & Hah).
    assert ((l1 ++ s :: mid ++ r :: l2) !! S (length l1 + length mid) = Some r) as ->.
    { rewrite lookup_app_r by lia. replace (_ - _)%nat with (S (length mid)) by lia.
      change ((mid ++ r :: l2) !! length mid = Some r). by apply list_lookup_middle. }
    apply Forall_cons in Hst0 as [Hsr Hst0].
    rewrite (list_lookup_middle l1 _ s) by done. res_simpl. destruct (Z.leb_spec (start r) (end_ s)).
    + rewrite insert_app_r_alt, Nat.sub_diag by done. cbn [list_insert insert].
      set (s1 := start s ..< Z.max (end_ s) (end_ r)).
      assert (nonempty s1) as Hs1 by (unfold nonempty, s1 in *; cbn; lia).
      destruct (IH Hm s1 (mid ++ [r]) Hs1 Hst0 fuel) as (s' & l2a & l2b & -> & Hrun & Hst & Hen & Hb & Hp);
        [cbn in Hf; lia|].
      rewrite <- app_assoc, length_app in Hrun. cbn [app length] in Hrun.
      replace (length l1 + (length mid + 1))%nat with (S (length l1 + length mid)) in Hrun by lia.
      exists s', (r :: l2a), l2b. split_and!; [done| |done| |done|].
      * rewrite Hrun. do 2 f_equal. cbn. lia.
      * unfold s1 in Hen. cbn in Hen. lia.
      * intros p. rewrite Hp, within_cons. unfold nonempty, in_range, s1 in *. cbn [start end_]. intuition lia.
    + exists s, [], (r :: l2). split_and!; [done| |done|lia| |intros; rewrite within_nil; tauto].
      * do 2 f_equal. cbn. lia.
      * constructor; [done|]. eapply Forall_impl; [exact Hah|]. unfold ahead, nonempty in *. intros. lia.
Qed.

(** The first half of [apply_range_to] leaves [s] where merging starts. *)
Lemma apply_merge l1 s l2 :
  merged l1 → merged l2 → nonempty s → (∀ a, a ∈ l1 → ahead a s) → (∀ a b, a ∈ l1 → b ∈ l2 → ahead a b) →
  Forall (λ r, start s ≤ start r) l2 →
  ∃ l', ('(ranges, merge_index) ←
          AllocatedRanges.merge_loop (S (length (l1 ++ s :: l2))) (length l1) (S (length l1)) (l1 ++ s :: l2);
        Ok (take (S (length l1)) ranges ++ drop merge_index ranges)) = Ok l' ∧
    merged l' ∧ ∀ p, within l' p ↔ within l1 p ∨ in_range p s ∨ within l2 p.
Proof.
  intros H1 H2 Hs H1s H12 Hst.
  destruct (merge_loop_ok (S (length (l1 ++ s :: l2))) l1 s [] l2 H2 Hs Hst)
    as (s' & l2a & l2b & -> & Hrun & Hst' & Hen & Hb & Hp); [rewrite length_app; cbn; lia|].
  cbn [app length] in Hrun. rewrite Nat.add_0_r in Hrun. rewrite Hrun. res_simpl.
  apply merged_app in H2 as (_ & H2b & _). exists (l1 ++ s' :: l2b). split_and!.
  - f_equal. replace (S (length l1)) with (length (l1 ++ [s'])) by (rewrite length_app; cbn; lia).
    replace (l1 ++ s' :: l2a ++ l2b) with ((l1 ++ [s']) ++ l2a ++ l2b) by (by rewrite <- app_assoc).
    rewrite take_app_length. replace (S _) with (length (l1 ++ [s']) + length l2a)%nat by (rewrite length_app; cbn; lia).
    by rewrite <- drop_drop, !drop_app_length, <- app_assoc.
  - apply merged_app. split_and!; [done| |].
    + apply merged_cons. split_and!; [unfold nonempty in *; lia|done|done].
    + intros a b Ha [->|Hb']%elem_of_cons; [specialize (H1s a Ha); unfold ahead in *; lia|].
      apply H12; [done|]. rewrite elem_of_app. by right.
  - intros p. rewrite !within_app, within_cons, Hp. tauto.
Qed.

Lemma apply_range_ok l r :
  merged l → nonempty r →
  ∃ l', AllocatedRanges.apply_range_to l r = Ok l' ∧ merged l' ∧
    ∀ p, within l' p ↔ within l p ∨ in_range p r.
Proof.
  intros Hm Hr. unfold AllocatedRanges.apply_range_to.
  destruct (search_end_spec l (start r) Hm) as (l1 & l2 & -> & H1 & H2 & ->).
  replace (match (if decide _ then inl (length l1) else inr (length l1)) with inl pos => pos | inr pos => pos end)
    with (length l1) by by destruct (decide _).
  apply merged_app in Hm as (Hm1 & Hm2 & H12). rewrite Forall_forall in H1.
  assert (∀ a, a ∈ l1 → ahead a r) as H1r by (intros a Ha; by apply H1).
  destruct l2 as [|b l2].
  - rewrite app_nil_r, decide_True by done. exists (l1 ++ [r]). split_and!; [done| |].
    + apply merged_app. split_and!; [done|by apply merged_singleton|]. intros a c Ha Hc%list_elem_of_singleton. subst c. by apply H1r.
    + intros p. rewrite within_app, within_cons, within_nil. tauto.
  - rewrite decide_False by (rewrite length_app; cbn; lia). rewrite list_lookup_middle by done. res_simpl.
    apply Forall_cons in H2 as [Hb _]. apply merged_cons in Hm2 as (Hbn & Hm2 & Hah).
    destruct (Z.leb_spec (start b) (start r)).
    + rewrite insert_app_r_alt, Nat.sub_diag by done. cbn [list_insert insert].
      destruct (apply_merge l1 (start b ..< Z.max (end_ b) (end_ r)) l2) as (l' & Hrun & Hm' & Hp); try done.
      * unfold nonempty in *. cbn. lia.
      * intros a Ha. apply (H12 a b Ha). by left.
      * intros a c Ha Hc. apply H12; [done|by right].
      * eapply Forall_impl; [exact Hah|]. unfold ahead, nonempty in *. cbn. intros. lia.
      * exists l'. split_and!; [done..|]. intros p. rewrite Hp, within_app, within_cons.
        unfold in_range, nonempty in *. cbn [start end_]. intuition lia.
    + rewrite take_app_length, drop_app_length.
      destruct (apply_merge l1 r (b :: l2)) as (l' & Hrun & Hm' & Hp); try done.
      * by apply merged_cons.
      * constructor; [lia|]. eapply Forall_impl; [exact Hah|]. unfold ahead, nonempty in *. cbn. intros. lia.
      * exists l'. split_and!; [done..|]. intros p. rewrite Hp, within_app. tauto.
Qed.

(** Applying ranges one after the other, as [new] does from the empty list,
    adds exactly their bytes and keeps the list sorted, merged and free of empty
    ranges. *)
Theorem apply_ranges_spec l rs :
  merged l → Forall nonempty rs →
  ∃ l', foldm AllocatedRanges.apply_range_to l rs = Ok l' ∧ merged l' ∧
    ∀ p, within l' p ↔ within l p ∨ within rs p.
Proof.
  intros Hm Hrs. revert l Hm. induction Hrs as [|r rs Hr _ IH]; intros l Hm; cbn [foldm].
  { exists l. split_and!; [done..|]. intros p. rewrite within_nil. tauto. }
  destruct (apply_range_ok l r Hm Hr) as (l1 & -> & Hm1 & Hp1). res_simpl.
  destruct (IH l1 Hm1) as (l' & -> & Hm' & Hp). exists l'. split_and!; [done..|].
  intros p. rewrite Hp, Hp1, within_cons. tauto.
Qed.

(** What a cutoff leaves of the ranges from the first one that reaches it. *)
Lemma within_before l x p : Forall (λ r, end_ r < x) l → within l p → p < x.
Proof. rewrite Forall_forall. intros H (a & Ha & Hp). specialize (H a Ha). unfold in_range in Hp. lia. Qed.

Lemma within_ahead r l p : Forall (ahead r) l → within l p → end_ r < p.
Proof. rewrite Forall_forall. intros H (a & Ha & Hp). specialize (H a Ha). unfold ahead, in_range in *. lia. Qed.

Lemma cut_through l1 r l2 x :
  merged (l1 ++ r :: l2) → Forall (λ r, end_ r < x) l1 → start r < x ≤ end_ r →
  merged (l1 ++ [start r ..< x]) ∧
  ∀ p, within (l1 ++ [start r ..< x]) p ↔ within (l1 ++ r :: l2) p ∧ p < x.
Proof.
  intros (Hm1 & (Hr & Hm2 & Hah)%merged_cons & H12)%merged_app H1 Hx. split.
  - apply merged_app. split_and!; [done|apply merged_singleton; unfold nonempty; cbn; lia|].
    intros a c Ha Hc%list_elem_of_singleton. subst c. apply (H12 a r); [done|by left].
  - intros p. pose proof (within_before _ _ p H1). pose proof (within_ahead _ _ p Hah).
    rewrite !within_app, !within_cons, within_nil. unfold in_range. cbn [start end_]. intuition lia.
Qed.

Lemma cut_before l1 r l2 x p :
  merged (l1 ++ r :: l2) → Forall (λ r, end_ r < x) l1 → x ≤ start r →
  within l1 p ↔ within (l1 ++ r :: l2) p ∧ p < x.
Proof.
  intros (Hm1 & (Hr & Hm2 & Hah)%merged_cons & H12)%merged_app H1 Hx.
  pose proof (within_before _ _ p H1). pose proof (within_ahead _ _ p Hah).
  rewrite within_app, within_cons. unfold in_range, nonempty in *. intuition lia.
Qed.

(** [truncate] keeps exactly the bytes before the cutoff, keeps the list
    merged, and reports whether it dropped the last of the ranges. *)
Theorem truncate_spec l cutoff :
  merged l →
  ∃ l' b, AllocatedRanges.truncate l cutoff = Ok (l', b) ∧ merged l' ∧
    (∀ p, within l' p ↔ within l p ∧ p < cutoff) ∧ (b = true ↔ l ≠ [] ∧ l' = []).
Proof.
  intros Hm. assert (l = [] ∨ l ≠ []) as [->|Hne] by (destruct l; auto).
  { exists [], false. split_and!; [done|done|intros p; rewrite within_nil; tauto|naive_solver]. }
  assert (AllocatedRanges.truncate l cutoff =
    let index := match search_end l cutoff with inl pos => S pos | inr pos => pos end in
    if decide (index = length l) then Ok (l, false)
    else r ← unwrap (l !! index);
      let '(l, index) := if start r <? cutoff then (<[index := start r ..< cutoff]> l, S index) else (l, index) in
      Ok (take index l, (index =? 0)%nat)) as -> by by destruct l.
  destruct (search_end_spec l cutoff Hm) as (l1 & l2 & -> & H1 & H2 & ->). cbn zeta.
  destruct l2 as [|r l2]; cbn [head fmap option_fmap option_map].
  { destruct (decide (None = Some cutoff)) as [[=]|_]. rewrite app_nil_r in *. rewrite decide_True by done. exists l1, false.
    split_and!; [done..| |naive_solver]. intros p. pose proof (within_before _ _ p H1). tauto. }
  apply Forall_cons in H2 as [Hre _].
  assert (∀ y, y = start r ..< cutoff → start r < cutoff → ∃ l' b, Ok (take (S (length l1)) (l1 ++ y :: l2), false) =
      Ok (l', b) ∧ merged l' ∧ (∀ p, within l' p ↔ within (l1 ++ r :: l2) p ∧ p < cutoff) ∧
      (b = true ↔ l1 ++ r :: l2 ≠ [] ∧ l' = [])) as Hcut.
  { intros y -> Hlt. destruct (cut_through l1 r l2 cutoff Hm H1 ltac:(lia)) as [Hm' Hp].
    exists (l1 ++ [start r ..< cutoff]), false. split_and!; [|done|done|split; [done|intros [_ Hnil]; by destruct l1]].
    do 2 f_equal. rewrite cons_middle, app_assoc.
    replace (S (length l1)) with (length (l1 ++ [start r ..< cutoff])) by (rewrite length_app; cbn; lia).
    apply take_app_length. }
  destruct (decide (Some (end_ r) = Some cutoff)) as [[= Heq]|Hneq].
  - pose proof Hm as (_ & (Hr & _ & Hah)%merged_cons & _)%merged_app. unfold nonempty in Hr.
    assert (r = start r ..< cutoff) as Hr' by (rewrite <- Heq; by destruct r).
    destruct l2 as [|b l2].
    + rewrite decide_True by (rewrite length_app; cbn; lia). destruct (Hcut r Hr') as (l' & b' & [= <- <-] & H); [lia|].
      rewrite take_ge in H by (rewrite length_app; cbn; lia). by eexists _, _.
    + rewrite decide_False by (rewrite length_app; cbn; lia).
      assert ((l1 ++ r :: b :: l2) !! S (length l1) = Some b) as ->.
      { rewrite lookup_app_r by lia. by replace (S _ - _)%nat with 1%nat by lia. }
      res_simpl. apply Forall_cons in Hah as [Hrb _]. unfold ahead in Hrb.
      destruct (Z.ltb_spec (start b) cutoff); [lia|]. apply Hcut; [done|lia].
  - rewrite decide_False by (rewrite length_app; cbn; lia). rewrite list_lookup_middle by done. res_simpl.
    assert (cutoff < end_ r) by (destruct (decide (end_ r = cutoff)); [congruence|lia]).
    destruct (Z.ltb_spec (start r) cutoff).
    + rewrite insert_app_r_alt, Nat.sub_diag by done. cbn [list_insert insert]. by apply Hcut.
    + exists l1, (length l1 =? 0)%nat. split_and!; [by rewrite take_app_length|by apply merged_app in Hm as (? & _)| |].
      * intros p. by apply cut_before.
      * rewrite Nat.eqb_eq. split; [intros ?%nil_length_inv; by subst|]. by intros [_ ->].
Qed.

(** ** The overlap iterator *)
Definition seg_range (x : RangeType) : range := match x with Cow r | Overwrite r => r end.
Definition is_overwrite (x : RangeType) : bool := match x with Cow _ => false | Overwrite _ => true end.

(** The segments follow each other from [a] to [b], none of them empty. *)
Fixpoint segments (a b : Z) (xs : list RangeType) : Prop :=
  match xs with
  | [] => a = b
  | x :: xs => start (seg_range x) = a ∧ nonempty (seg_range x) ∧ segments (end_ (seg_range x)) b xs
  end.

(** The number of segments that can still come. *)
Definition turns (q : range) (l2 : list range) : nat :=
  if start q =? end_ q then 0
  else match l2 with
       | [] => 1
       | r :: _ => if start q <? start r then S (2 * length l2) else 2 * length l2
       end.

Definition right_kind l (xs : list RangeType) : Prop :=
  Forall (λ x : RangeType, ∀ p, in_range p (seg_range x) → (is_overwrite x = true ↔ within l p)) xs.

Lemma turns_next q e r l2 :
  e = Z.min (end_ q) (end_ r) → Forall (ahead r) l2 → (turns (e ..< end_ q) l2 < 2 * S (length l2))%nat.
Proof.
  intros -> Hah. unfold turns. cbn [start end_]. destruct (Z.eqb_spec (Z.min (end_ q) (end_ r)) (end_ q)); [lia|].
  destruct l2 as [|b l2]; [cbn; lia|]. destruct (Z.ltb_spec (Z.min (end_ q) (end_ r)) (start b)); cbn; lia.
Qed.

Lemma ahead_reach r l x : Forall (ahead r) l → Forall nonempty l → x ≤ end_ r → Forall (λ b, x < end_ b) l.
Proof.
  rewrite !Forall_forall. intros Ha Hn Hx b Hb. specialize (Ha b Hb). specialize (Hn b Hb).
  unfold ahead, nonempty in *. lia.
Qed.

Lemma overlap_collect fuel l1 l2 q :
  merged (l1 ++ l2) → start q ≤ end_ q → start q = end_ q ∨ Forall (λ r, end_ r ≤ start q) l1 → Forall (λ r, start q < end_ r) l2 →
  (turns q l2 < fuel)%nat →
  ∃ xs, RangeOverlapIter.collect fuel (l1 ++ l2) (RangeOverlapIter.mk q (length l1)) = Ok xs ∧
    segments (start q) (end_ q) xs ∧ right_kind (l1 ++ l2) xs.
Proof.
  revert l1 l2 q. induction fuel as [|fuel IH]; intros l1 l2 q Hm Hq H1 H2 Hf; [lia|].
  cbn [RangeOverlapIter.collect]. unfold RangeOverlapIter.next. cbn [RangeOverlapIter.query_range RangeOverlapIter.index].
  unfold turns in Hf. destruct (Z.eqb_spec (start q) (end_ q)) as [He|Hne].
  { res_simpl. exists []. split_and!; [done|done|constructor]. }
  destruct H1 as [?|H1]; [done|].
  assert (∀ p, start q ≤ p → ¬ within l1 p) as Hno1.
  { intros p Hp (a & Ha & Hin). rewrite Forall_forall in H1. specialize (H1 a Ha). unfold in_range in Hin. lia. }
  destruct l2 as [|r l2].
  - rewrite app_nil_r in *. rewrite decide_True by done. res_simpl. rewrite lookup_ge_None_2 by done. cbn [default fmap option_fmap option_map].
    rewrite Z.min_id. res_simpl. destruct (IH l1 [] (end_ q ..< end_ q)) as (xs & Hrun & Hseg & Hk).
    { by rewrite app_nil_r. } { cbn. lia. } { by left. } { constructor. }
    { unfold turns. cbn [start end_]. rewrite Z.eqb_refl. lia. }
    rewrite app_nil_r in *. rewrite Hrun. res_simpl. exists (Cow (start q ..< end_ q) :: xs). split_and!; [done| |].
    + cbn. split_and!; [done|unfold nonempty; cbn; lia|done].
    + constructor; [|done]. intros p [Hp _]. cbn in Hp. split; [done|]. intros Hw. by apply Hno1 in Hw.
  - rewrite decide_False by (rewrite length_app; cbn; lia). rewrite list_lookup_middle by done. res_simpl.
    pose proof Hm as (_ & (Hr & Hm2 & Hah)%merged_cons & _)%merged_app. unfold nonempty in Hr.
    apply Forall_cons in H2 as [Hqr _].
    destruct (Z.ltb_spec (start q) (start r)) as [Hlt|Hge].
    + cbn [default fmap option_fmap option_map]. unfold id. set (e := Z.min (end_ q) (start r)).
      destruct (IH l1 (r :: l2) (e ..< end_ q)) as (xs & Hrun & Hseg & Hk); [done|cbn; lia|..].
      { right. eapply Forall_impl; [exact H1|]. cbn. lia. }
      { constructor; cbn; [lia|]. apply (ahead_reach r); [done|apply Hm2|lia]. }
      { unfold turns. cbn [start end_]. destruct (Z.eqb_spec e (end_ q)); [lia|].
        destruct (Z.ltb_spec e (start r)); [lia|]. lia. }
      res_simpl. rewrite Hrun. res_simpl. exists (Cow (start q ..< e) :: xs). split_and!; [done| |].
      * cbn. split_and!; [done|unfold nonempty; cbn; lia|done].
      * constructor; [|done]. intros p [Hp Hp']. cbn in Hp, Hp'. split; [done|]. intros Hw. exfalso.
        apply within_app in Hw as [Hw|Hw]; [by apply Hno1 in Hw|]. apply within_cons in Hw as [Hw|Hw].
        -- unfold in_range in Hw. lia.
        -- apply (within_ahead r) in Hw; [lia|done].
    + set (e := Z.min (end_ q) (end_ r)).
      assert (l1 ++ r :: l2 = (l1 ++ [r]) ++ l2) as Hl by (by rewrite <- app_assoc).
      destruct (IH (l1 ++ [r]) l2 (e ..< end_ q)) as (xs & Hrun & Hseg & Hk).
      { by rewrite <- Hl. } { cbn. lia. }
      { cbn. destruct (decide (e = end_ q)); [by left|right]. apply Forall_app.
        split; [eapply Forall_impl; [exact H1|]; cbn; lia|]. constructor; [cbn; lia|constructor]. }
      { apply (ahead_reach r); [done|apply Hm2|cbn; lia]. }
      { pose proof (turns_next q e r l2 eq_refl Hah). cbn [length] in Hf. lia. }
      rewrite length_app in Hrun. cbn [length] in Hrun. rewrite Nat.add_1_r, <- Hl in Hrun. res_simpl. rewrite Hrun. res_simpl.
      exists (Overwrite (start q ..< e) :: xs). rewrite <- Hl in Hk. split_and!; [done| |].
      * cbn. split_and!; [done|unfold nonempty; cbn; lia|done].
      * constructor; [|done]. intros p [Hp Hp']. cbn in Hp, Hp'. split; [|done]. intros _.
        apply within_app. right. apply within_cons. left. unfold in_range. lia.
Qed.

(** The overlap iterator ends; the segments it yields follow each other
    from the start to the end of the query, none of them empty, and a segment is
    [Overwrite] exactly where the file has allocated ranges. *)
Theorem overlap_iter_spec l q fuel :
  merged l → start q ≤ end_ q → (S (2 * length l) < fuel)%nat →
  ∃ xs, RangeOverlapIter.collect fuel l (AllocatedRanges.overlap l q) = Ok xs ∧
    segments (start q) (end_ q) xs ∧ right_kind l xs.
Proof.
  intros Hm Hq Hf. unfold AllocatedRanges.overlap.
  destruct (search_end_spec l (start q) Hm) as (l1 & l2 & -> & H1 & H2 & ->).
  assert (∀ l2, (turns q l2 ≤ S (2 * length l2))%nat) as Ht.
  { intros [|r l]; unfold turns; bsplit; cbn; lia. }
  destruct (decide (end_ <$> head l2 = Some (start q))) as [Hd|Hd].
  - destruct l2 as [|r l2]; [done|]. cbn in Hd. injection Hd as Hd.
    pose proof Hm as (_ & (Hr & Hm2 & Hah)%merged_cons & _)%merged_app.
    assert (l1 ++ r :: l2 = (l1 ++ [r]) ++ l2) as Hl by (by rewrite <- app_assoc). rewrite Hl in *.
    replace (S (length l1)) with (length (l1 ++ [r])) by (rewrite length_app; cbn; lia).
    apply overlap_collect; [done|done|..].
    + right. apply Forall_app. split; [eapply Forall_impl; [exact H1|]; cbn; lia|]. constructor; [lia|constructor].
    + apply (ahead_reach r); [done|apply Hm2|lia].
    + specialize (Ht l2). rewrite length_app in Hf. lia.
  - apply overlap_collect; [done|done|..].
    + right. eapply Forall_impl; [exact H1|]. cbn. lia.
    + destruct l2 as [|r l2]; [constructor|]. pose proof Hm as (_ & (Hr & Hm2 & Hah)%merged_cons & _)%merged_app.
      apply Forall_cons in H2 as [Hre H2]. assert (end_ r ≠ start q) by (intros E; apply Hd; cbn; by rewrite E).
      constructor; [lia|]. apply (ahead_reach r); [done|apply Hm2|lia].
    + specialize (Ht l2). rewrite length_app in Hf. lia.
Qed.
End invariant.

(** ** Instances *)
Lemma apply_ranges_witness :
  AllocatedRanges.new [10 ..< 20; 40 ..< 50; 15 ..< 40] = Ok [10 ..< 50] ∧
  ∃ l', foldm AllocatedRanges.apply_range_to [] [10 ..< 20; 40 ..< 50; 15 ..< 40] = Ok l' ∧ merged l' ∧
    ∀ p, within l' p ↔ within [] p ∨ within [10 ..< 20; 40 ..< 50; 15 ..< 40] p.
Proof.
  split; [vm_compute; reflexivity|].
  apply (apply_ranges_spec [] [10 ..< 20; 40 ..< 50; 15 ..< 40]); repeat constructor.
Defined.

Lemma truncate_witness :
  ∃ l' b, AllocatedRanges.truncate [10 ..< 20; 40 ..< 50] 45 = Ok (l', b) ∧ merged l' ∧
    (∀ p, within l' p ↔ within [10 ..< 20; 40 ..< 50] p ∧ p < 45) ∧
    (b = true ↔ [10 ..< 20; 40 ..< 50] ≠ [] ∧ l' = []).
Proof. apply (truncate_spec [10 ..< 20; 40 ..< 50] 45). repeat constructor. Defined.

Lemma overlap_iter_witness :
  ∃ xs, RangeOverlapIter.collect 6 [10 ..< 20; 40 ..< 50]
      (AllocatedRanges.overlap [10 ..< 20; 40 ..< 50] (15 ..< 60)) = Ok xs ∧
    segments 15 60 xs ∧ right_kind [10 ..< 20; 40 ..< 50] xs.
Proof.
  apply (overlap_iter_spec [10 ..< 20; 40 ..< 50] (15 ..< 60) 6); [repeat constructor|by vm_compute|cbn; lia].
Defined.
