(* ===== verification/Checksum.v ===== *)
(** * Checksums

    [fxfs/src/checksum.rs]: the fletcher64 checksum that protects journal
    blocks and copy-on-write extents, and the packed [Checksums] vector that an
    extent record carries. *)

From S2P Require Import Prelude Bytes.

(** ** fletcher64 *)

(** [LittleEndian::read_u32]: panics on a slice shorter than four bytes. *)
Definition read_u32 (chunk : list Z) : res Z :=
  rassert (4 <=? Z.of_nat (length chunk)) ≫= λ _, Ok (le_combine (take 4 chunk)).

(** The loop of [fletcher64] over [buf.chunks(4)]. *)
Fixpoint fletcher_loop (cs : list (list Z)) (lo hi : Z) : res (Z * Z) :=
  match cs with
  | [] => Ok (lo, hi)
  | chunk :: cs =>
      w ← read_u32 chunk;
      let lo := u32_wrapping_add lo w in
      let hi := u32_wrapping_add hi lo in
      fletcher_loop cs lo hi
  end.

Definition fletcher64 (buf : list Z) (previous : Z) : res Z :=
  rassert (Z.of_nat (length buf) `mod` 4 =? 0) ≫= λ _,
  let lo := previous `mod` u32_modulus in
  let hi := Z.shiftr previous 32 `mod` u32_modulus in
  '(lo, hi) ← fletcher_loop (chunks 4 buf) lo hi;
  Ok (Z.lor (Z.shiftl hi 32) lo).

(** ** Checksums *)

(** [ChecksumsV38]. *)
Record Checksums : Set := mkChecksums { sums : list Z }.

Module Checksums.
Definition fletcher (checksums : list Z) : Checksums :=
  mkChecksums (checksums ≫= le_split 8).

(** [size_of::<Checksum>()] is 8. *)
Definition len (c : Checksums) : Z := Z.of_nat (length (sums c)) / 8.

(** [<[u64]>::ref_from_bytes] succeeds when the length is a multiple of eight
    and the buffer is aligned for [u64]; [aligned] is the latter. *)
Definition maybe_as_ref (aligned : bool) (c : Checksums) : res (list Z) :=
  rensure (aligned && (Z.of_nat (length (sums c)) `mod` 8 =? 0)) (Fxfs Inconsistent) ≫= λ _,
  Ok (le_combine <$> chunks 8 (sums c)).

Definition offset_by (c : Checksums) (amount : Z) : res Checksums :=
  n ← u64_mul amount 8;
  rassert (n <=? Z.of_nat (length (sums c))) ≫= λ _,
  Ok (mkChecksums (drop (Z.to_nat n) (sums c))).

Definition shrunk (c : Checksums) (len : Z) : res Checksums :=
  n ← u64_mul len 8;
  rassert (n <=? Z.of_nat (length (sums c))) ≫= λ _,
  Ok (mkChecksums (take (Z.to_nat n) (sums c))).
End Checksums.

(** Earlier versions and their migration. *)
Inductive ChecksumsV37 : Set :=
| V37None
| V37Fletcher (sums : list Z).

Definition v37_fletcher (checksums : list Z) : ChecksumsV37 :=
  V37Fletcher (checksums ≫= le_split 8).

Definition migrate (c : ChecksumsV37) : option Checksums :=
  match c with
  | V37None => None
  | V37Fletcher sums => Some (mkChecksums sums)
  end.

Inductive ChecksumsV32 : Set :=
| V32None
| V32Fletcher (sums : list Z).

Definition v37_from_v32 (c : ChecksumsV32) : ChecksumsV37 :=
  match c with
  | V32None => V37None
  | V32Fletcher sums => v37_fletcher sums
  end.

#[global] Instance Checksums_eq_dec : EqDecision Checksums.
Proof. solve_decision. Defined.

(** ** Properties of fletcher64 *)

(** The 32-bit words of a buffer. *)
Definition words (buf : list Z) : list Z := le_combine <$> chunks 4 buf.

(** The state of the loop after the given words. *)
Fixpoint fletcher_words (ws : list Z) (lo hi : Z) : Z * Z :=
  match ws with
  | [] => (lo, hi)
  | w :: ws =>
      let lo := u32_wrapping_add lo w in
      fletcher_words ws lo (u32_wrapping_add hi lo)
  end.

Definition pack (lohi : Z * Z) : Z := Z.lor (Z.shiftl lohi.2 32) lohi.1.
Definition unpack (c : Z) : Z * Z := (c `mod` u32_modulus, Z.shiftr c 32 `mod` u32_modulus).

Lemma mult4_ind (P : list Z → Prop) :
  P [] →
  (∀ a b c d l, P l → P (a :: b :: c :: d :: l)) →
  ∀ l, Z.of_nat (length l) `mod` 4 = 0 → P l.
Proof.
  intros H0 H4 l. remember (length l) as n eqn:Hn. revert l Hn.
  induction n as [n IH] using lt_wf_ind; intros l -> Hmod.
  destruct l as [|a [|b [|c [|d l]]]]; try done.
  apply H4. eapply IH; [|done|]; simpl in *; [lia|].
  rewrite <- Hmod. rewrite !Nat2Z.inj_succ.
  replace (Z.succ _) with (Z.of_nat (length l) + 1 * 4) by lia.
  by rewrite Z.mod_add.
Qed.

Lemma fletcher_loop_words buf :
  Z.of_nat (length buf) `mod` 4 = 0 →
  ∀ lo hi, fletcher_loop (chunks 4 buf) lo hi = Ok (fletcher_words (words buf) lo hi).
Proof.
  unfold words. intros Hmod. pattern buf. revert buf Hmod. apply mult4_ind; [done|].
  intros a b c d l IH lo hi.
  change (a :: b :: c :: d :: l) with ([a; b; c; d] ++ l).
  rewrite chunks_app by (done || lia). simpl fletcher_loop. rewrite IH. reflexivity.
Qed.

Lemma fletcher64_eq buf prev :
  Z.of_nat (length buf) `mod` 4 = 0 →
  fletcher64 buf prev = Ok (pack (fletcher_words (words buf) (unpack prev).1 (unpack prev).2)).
Proof.
  intros Hmod. unfold fletcher64. rewrite Hmod. simpl.
  rewrite fletcher_loop_words by done. simpl.
  by destruct (fletcher_words _ _ _).
Qed.

Definition is_u32 (x : Z) : Prop := 0 ≤ x < u32_modulus.

Lemma wrapping_u32 a b : is_u32 (u32_wrapping_add a b).
Proof. apply Z.mod_pos_bound. done. Qed.

Lemma fletcher_words_u32 ws lo hi :
  is_u32 lo → is_u32 hi →
  is_u32 (fletcher_words ws lo hi).1 ∧ is_u32 (fletcher_words ws lo hi).2.
Proof.
  revert lo hi; induction ws as [|w ws IH]; intros lo hi Hlo Hhi; simpl; [done|].
  apply IH; apply wrapping_u32.
Qed.

Lemma pack_eq lo hi : is_u32 lo → is_u32 hi → pack (lo, hi) = hi * u32_modulus + lo.
Proof.
  unfold is_u32, pack. intros Hlo Hhi. simpl.
  change u32_modulus with (2 ^ 32). rewrite <- Z.shiftl_mul_pow2 by lia.
  rewrite <- (Z.add_lor_land (Z.shiftl hi 32) lo).
  replace (Z.land (Z.shiftl hi 32) lo) with 0; [lia|].
  apply Z.bits_inj'. intros n Hn. rewrite Z.bits_0, Z.land_spec.
  destruct (decide (n < 32)) as [?|?].
  - by rewrite Z.shiftl_spec_low by lia.
  - replace lo with (lo `mod` 2 ^ 32) by (apply Z.mod_small; done).
    rewrite Z.mod_pow2_bits_high by lia. by rewrite andb_false_r.
Qed.

Lemma unpack_pack lo hi : is_u32 lo → is_u32 hi → unpack (pack (lo, hi)) = (lo, hi).
Proof.
  intros Hlo Hhi. rewrite pack_eq by done. unfold unpack, is_u32 in *.
  rewrite Z.shiftr_div_pow2 by lia. change (2 ^ 32) with u32_modulus.
  rewrite Z.add_comm, Z.mod_add, Z.div_add, (Z.div_small lo), Z.add_0_l by done.
  by rewrite !Z.mod_small.
Qed.

Lemma unpack_u32 c : is_u32 (unpack c).1 ∧ is_u32 (unpack c).2.
Proof. split; apply Z.mod_pos_bound; done. Qed.

Lemma pack_unpack c : is_u64 c → pack (unpack c) = c.
Proof.
  intros [H0 H1]. destruct (unpack_u32 c) as [Hl Hh].
  rewrite (surjective_pairing (unpack c)), pack_eq by done.
  unfold unpack. simpl. rewrite Z.shiftr_div_pow2 by lia. change (2 ^ 32) with u32_modulus.
  rewrite (Z.mod_small (c / _)).
  - pose proof (Z.div_mod c u32_modulus ltac:(done)). lia.
  - split; [by apply Z.div_pos|]. apply Z.div_lt_upper_bound; [done|].
    unfold u32_modulus. Transparent u64_max. unfold u64_max in H1. lia.
Qed.

Lemma fletcher_words_app ws1 ws2 lo hi :
  fletcher_words (ws1 ++ ws2) lo hi =
    let '(lo', hi') := fletcher_words ws1 lo hi in fletcher_words ws2 lo' hi'.
Proof. revert lo hi; induction ws1; intros lo hi; simpl; [done|]. by rewrite IHws1. Qed.

(** The loop in closed form: [lo] adds the words up, [hi] adds up the
    intermediate values of [lo]. *)
Definition wsum (ws : list Z) : Z := foldr Z.add 0 ws.
Fixpoint wsum2 (ws : list Z) : Z :=
  match ws with
  | [] => 0
  | w :: ws => w * Z.of_nat (length (w :: ws)) + wsum2 ws
  end.

Lemma fletcher_words_closed ws lo hi :
  is_u32 lo → is_u32 hi →
  fletcher_words ws lo hi =
    ((lo + wsum ws) `mod` u32_modulus,
     (hi + Z.of_nat (length ws) * lo + wsum2 ws) `mod` u32_modulus).
Proof.
  revert lo hi; induction ws as [|w ws IH]; intros lo hi Hlo Hhi; simpl fletcher_words.
  - simpl. unfold is_u32 in *. f_equal; rewrite Z.mod_small; lia.
  - rewrite IH by apply wrapping_u32. unfold u32_wrapping_add.
    set (M := u32_modulus). simpl wsum. simpl wsum2. simpl length. f_equal.
    + rewrite Z.add_mod_idemp_l by done. f_equal. unfold wsum. simpl. lia.
    + rewrite Nat2Z.inj_succ.
      assert (∀ a b c n, (((a + (b `mod` M)) `mod` M + n * (b `mod` M)) + c) `mod` M
                 = (a + b + n * b + c) `mod` M) as Hmod.
      { intros a b c n. rewrite (Z.mod_eq (a + _)), (Z.mod_eq b) by done.
        eapply (mod_cong _ _ _ (- (b / M) - (a + (b - M * (b / M))) / M - n * (b / M)));
          [done|lia]. }
      rewrite Hmod. f_equal. lia.
Qed.

Lemma words_app a b :
  Z.of_nat (length a) `mod` 4 = 0 → words (a ++ b) = words a ++ words b.
Proof.
  unfold words. intros Ha. pattern a. revert a Ha. apply mult4_ind; [done|].
  intros w x y z l IH. change ((w :: x :: y :: z :: l) ++ b) with ([w; x; y; z] ++ (l ++ b)).
  change (w :: x :: y :: z :: l) with ([w; x; y; z] ++ l).
  rewrite (chunks_app 4 _ (l ++ b)), (chunks_app 4 _ l) by (done || lia).
  by rewrite !fmap_cons, IH.
Qed.

(** Checksumming a buffer in two pieces, the second seeded with the
    checksum of the first, is checksumming it whole. *)
Theorem fletcher64_app a b prev :
  Z.of_nat (length a) `mod` 4 = 0 → Z.of_nat (length b) `mod` 4 = 0 →
  fletcher64 (a ++ b) prev = (c ← fletcher64 a prev; fletcher64 b c).
Proof.
  intros Ha Hb.
  assert (Hab : Z.of_nat (length (a ++ b)) `mod` 4 = 0).
  { rewrite length_app, Nat2Z.inj_add, Z.add_mod, Ha, Hb by done. done. }
  rewrite !fletcher64_eq by done. simpl. rewrite fletcher64_eq by done.
  rewrite words_app, fletcher_words_app by done.
  destruct (unpack_u32 prev) as [H1 H2].
  destruct (fletcher_words_u32 (words a) _ _ H1 H2) as [H3 H4].
  destruct (fletcher_words (words a) _ _) as [lo hi]. by rewrite unpack_pack.
Qed.

Lemma pack_inj lo1 hi1 lo2 hi2 :
  is_u32 lo1 → is_u32 hi1 → is_u32 lo2 → is_u32 hi2 →
  pack (lo1, hi1) = pack (lo2, hi2) → lo1 = lo2 ∧ hi1 = hi2.
Proof.
  intros ???? Heq. apply (f_equal unpack) in Heq. rewrite !unpack_pack in Heq by done.
  by injection Heq.
Qed.

Lemma mod_sub_0 a b m : m ≠ 0 → a `mod` m = b `mod` m → (m | a - b).
Proof.
  intros Hm Heq. exists (a / m - b / m).
  pose proof (Z.div_mod a m Hm). pose proof (Z.div_mod b m Hm). lia.
Qed.

Lemma u32_divide_0 d : (u32_modulus | d) → - u32_modulus < d < u32_modulus → d = 0.
Proof. unfold u32_modulus. intros [k ->] ?. lia. Qed.

(** A buffer's checksum determines the seed it was computed with: the seed
    is recovered from the checksum and the contents. *)
Theorem fletcher64_seed_inj buf p q c :
  is_u64 p → is_u64 q →
  fletcher64 buf p = Ok c → fletcher64 buf q = Ok c → p = q.
Proof.
  intros Hp Hq H1 H2.
  destruct (decide (Z.of_nat (length buf) `mod` 4 = 0)) as [Hm|Hm]; last first.
  { unfold fletcher64 in H1. apply Z.eqb_neq in Hm. by rewrite Hm in H1. }
  rewrite fletcher64_eq in H1, H2 by done.
  destruct (unpack_u32 p) as [Hp1 Hp2], (unpack_u32 q) as [Hq1 Hq2].
  rewrite fletcher_words_closed in H1, H2 by done.
  rewrite <- (pack_unpack p Hp), <- (pack_unpack q Hq).
  destruct (unpack p) as [lp hp], (unpack q) as [lq hq]; simpl in *.
  rewrite <- H2 in H1. injection H1 as Heq.
  apply pack_inj in Heq as [Hlo Hhi]; try (apply Z.mod_pos_bound; done).
  unfold is_u32 in *.
  apply mod_sub_0 in Hlo; [|done]. apply u32_divide_0 in Hlo; [|lia].
  assert (lp = lq) as -> by lia.
  apply mod_sub_0 in Hhi; [|done]. apply u32_divide_0 in Hhi; [|lia].
  by assert (hp = hq) as -> by lia.
Qed.

Lemma words_single x : length x = 4%nat → words x = [le_combine x].
Proof.
  intros Hx. unfold words. rewrite <- (app_nil_r x) at 1.
  by rewrite chunks_app by (done || lia).
Qed.

Lemma wsum_app a b : wsum (a ++ b) = wsum a + wsum b.
Proof. unfold wsum. induction a as [|w a IH]; simpl; [done|]. rewrite IH. lia. Qed.

(** Damage confined to one aligned 32-bit word always changes the checksum. *)
Theorem fletcher64_detects_word l x y r p :
  Z.of_nat (length l) `mod` 4 = 0 → Z.of_nat (length r) `mod` 4 = 0 →
  length x = 4%nat → length y = 4%nat → Forall is_u8 x → Forall is_u8 y → x ≠ y →
  fletcher64 (l ++ x ++ r) p ≠ fletcher64 (l ++ y ++ r) p.
Proof.
  intros Hl Hr Hx Hy Bx By Hne Heq.
  assert (∀ z, length z = 4%nat → Z.of_nat (length (l ++ z ++ r)) `mod` 4 = 0) as Hm.
  { intros z Hz. rewrite !length_app, Hz, !Nat2Z.inj_add, Z.add_mod, Hl by done.
    change (Z.of_nat 4) with (1 * 4). rewrite (Z.add_comm (1 * 4)), Z.mod_add, Hr by done. done. }
  rewrite !fletcher64_eq in Heq by auto. injection Heq as Heq.
  rewrite !words_app in Heq by (done || (rewrite Hx; done) || (rewrite Hy; done)).
  rewrite (words_single x Hx), (words_single y Hy) in Heq.
  destruct (unpack_u32 p) as [Hp1 Hp2].
  rewrite !fletcher_words_closed in Heq by done.
  apply pack_inj in Heq as [Hlo _]; try (apply Z.mod_pos_bound; done).
  apply mod_sub_0 in Hlo; [|done]. rewrite !wsum_app in Hlo. simpl in Hlo.
  pose proof (le_combine_bound x Bx) as Hbx. pose proof (le_combine_bound y By) as Hby.
  rewrite Hx in Hbx. rewrite Hy in Hby. change (256 ^ Z.of_nat 4) with u32_modulus in *.
  apply u32_divide_0 in Hlo; [|unfold wsum in *; simpl in *; lia].
  apply Hne. apply le_combine_inj; [done..|congruence|].
  unfold wsum in *; simpl in *; lia.
Qed.

(** ** Properties of [Checksums] *)

Lemma length_fletcher_sums cs : length (sums (Checksums.fletcher cs)) = (8 * length cs)%nat.
Proof.
  change (length (cs ≫= le_split 8) = (8 * length cs)%nat).
  induction cs as [|c cs IH]; [done|].
  rewrite bind_cons, length_app, length_le_split, IH. simpl length. lia.
Qed.

Lemma chunks_fletcher cs : chunks 8 (cs ≫= le_split 8) = le_split 8 <$> cs.
Proof.
  induction cs as [|c cs IH]; [done|].
  rewrite bind_cons, chunks_app, IH; [done|lia|apply length_le_split].
Qed.

Lemma fletcher_len cs : Checksums.len (Checksums.fletcher cs) = Z.of_nat (length cs).
Proof.
  unfold Checksums.len. rewrite length_fletcher_sums, Nat2Z.inj_mul, Z.mul_comm.
  by apply Z.div_mul.
Qed.

Lemma drop_fletcher k cs : drop (8 * k) (cs ≫= le_split 8) = drop k cs ≫= le_split 8.
Proof.
  revert cs; induction k as [|k IH]; intros cs; [by rewrite !drop_0|].
  destruct cs as [|c cs]; [by rewrite !drop_nil|]. rewrite bind_cons.
  replace (8 * S k)%nat with (8 + 8 * k)%nat by lia.
  rewrite <- drop_drop, drop_app_length' by (by rewrite length_le_split). apply IH.
Qed.

Lemma take_fletcher k cs : take (8 * k) (cs ≫= le_split 8) = take k cs ≫= le_split 8.
Proof.
  revert cs; induction k as [|k IH]; intros cs; [by rewrite !take_0|].
  destruct cs as [|c cs]; [by rewrite !take_nil|]. rewrite bind_cons.
  replace (8 * S k)%nat with (length (le_split 8 c) + 8 * k)%nat by (rewrite length_le_split; lia).
  rewrite take_app_add, IH. done.
Qed.

(** Packing a vector of checksums and reading it back gives the vector. *)
Theorem checksums_roundtrip cs :
  Forall is_u64 cs → Checksums.maybe_as_ref true (Checksums.fletcher cs) = Ok cs.
Proof.
  intros Hcs. unfold Checksums.maybe_as_ref.
  rewrite length_fletcher_sums, Nat2Z.inj_mul, Z.mul_comm, Z.mod_mul by done.
  change (Ok (le_combine <$> chunks 8 (cs ≫= le_split 8)) = Ok cs).
  rewrite chunks_fletcher. f_equal.
  induction Hcs as [|c cs [??] _ IH]; [done|]. rewrite !fmap_cons. f_equal; [|done].
  apply le_combine_split_id. unfold u64_max in *. change (256 ^ Z.of_nat 8) with (2 ^ 64). lia.
Qed.

Lemma offset_by_fletcher cs k :
  0 ≤ k ≤ Z.of_nat (length cs) → Z.of_nat (length cs) * 8 ≤ u64_max →
  Checksums.offset_by (Checksums.fletcher cs) k =
    Ok (Checksums.fletcher (drop (Z.to_nat k) cs)).
Proof.
  intros Hk Hlen. unfold Checksums.offset_by. rewrite u64_mul_ok by lia. res_simpl.
  rewrite length_fletcher_sums. unfold rassert. bsplit; [|lia]. res_simpl.
  unfold Checksums.fletcher. rewrite <- drop_fletcher. do 3 f_equal. lia.
Qed.

Lemma shrunk_fletcher cs k :
  0 ≤ k ≤ Z.of_nat (length cs) → Z.of_nat (length cs) * 8 ≤ u64_max →
  Checksums.shrunk (Checksums.fletcher cs) k =
    Ok (Checksums.fletcher (take (Z.to_nat k) cs)).
Proof.
  intros Hk Hlen. unfold Checksums.shrunk. rewrite u64_mul_ok by lia. res_simpl.
  rewrite length_fletcher_sums. unfold rassert. bsplit; [|lia]. res_simpl.
  unfold Checksums.fletcher. rewrite <- take_fletcher. do 3 f_equal. lia.
Qed.

(** ** Instances *)
Lemma fletcher64_app_witness :
  fletcher64 ([1; 2; 3; 4] ++ [5; 6; 7; 8]) 9 = (c ← fletcher64 [1; 2; 3; 4] 9; fletcher64 [5; 6; 7; 8] c).
Proof. apply (fletcher64_app [1; 2; 3; 4] [5; 6; 7; 8] 9); reflexivity. Defined.

Lemma fletcher64_seed_inj_witness : ∃ c, fletcher64 [1; 2; 3; 4] 9 = Ok c ∧ ∀ q, is_u64 q → fletcher64 [1; 2; 3; 4] q = Ok c → 9 = q.
Proof.
  eexists. split; [vm_compute; reflexivity|]. intros q Hq Hc.
  apply (fletcher64_seed_inj [1; 2; 3; 4] 9 q _ ltac:(by vm_compute) Hq ltac:(vm_compute; reflexivity) Hc).
Defined.

Lemma fletcher64_detects_word_witness :
  fletcher64 ([1; 2; 3; 4] ++ [0; 0; 0; 0] ++ [5; 6; 7; 8]) 9 ≠
  fletcher64 ([1; 2; 3; 4] ++ [255; 255; 255; 255] ++ [5; 6; 7; 8]) 9.
Proof.
  apply (fletcher64_detects_word [1; 2; 3; 4] [0; 0; 0; 0] [255; 255; 255; 255] [5; 6; 7; 8] 9);
    try reflexivity; try done; repeat constructor; by vm_compute.
Defined.

Lemma checksums_roundtrip_witness :
  Checksums.maybe_as_ref true (Checksums.fletcher [1; u64_max]) = Ok [1; u64_max].
Proof. apply (checksums_roundtrip [1; u64_max]). repeat constructor; by vm_compute. Defined.
