(* ===== verification/ChecksumList.v ===== *)
(** * The checksums to verify when the journal is replayed

    [fxfs/src/object_store/journal/checksum_list.rs]: replay records the
    checksums of the extents that the journal says were written, and then
    finds how far the journal can be replayed given what the device holds. *)

From S2P Require Import Prelude BTree Round Bytes Checksum.

Inductive ChecksumState : Set :=
| Unverified (c : list Z)
| Valid
| Invalid.

#[global] Instance ChecksumState_eq_dec : EqDecision ChecksumState.
Proof. solve_decision. Defined.

(** A checksum and the journal offset at which its range was deallocated. *)
Abbreviation chunk := (ChecksumState * Z)%type.

Record ChecksumEntry : Set := mkEntry {
  start_journal_offset : Z;
  device_range : range;
  checksums : list chunk;
}.

Record ChecksumList : Set := mkList {
  flushed_offset : Z;
  checksum_entries : list ChecksumEntry;
  device_offset_to_checksum_entry : gmap Z nat;
  max_chunk_size : Z;
}.

(** [slice::split_at]. *)
Definition split_at {A} (l : list A) (mid : Z) : res (list A * list A) :=
  _ ← rassert (mid <=? Z.of_nat (length l));
  Ok (take (Z.to_nat mid) l, drop (Z.to_nat mid) l).

(** [slice[a..b].iter_mut()] with [f] applied to each element, together with
    the elements of a second iterator. *)
Fixpoint zip_mut {A B} (f : A → B → res A) (l : list A) (m : list B) : res (list A) :=
  match l, m with
  | x :: l, y :: m => x ← f x y; l ← zip_mut f l m; Ok (x :: l)
  | _, _ => Ok l
  end.
Definition slice_mut {A} (l : list A) (a b : Z) (f : list A → res (list A)) : res (list A) :=
  _ ← rassert ((a <=? b) && (b <=? Z.of_nat (length l)));
  m ← f (take (Z.to_nat (b - a)) (drop (Z.to_nat a) l));
  Ok (take (Z.to_nat a) l ++ m ++ drop (Z.to_nat b) l).

(** [checksum().unwrap().push(new_checksum)]. *)
Definition push_checksum (c : chunk) (new_checksum : Z) : res chunk :=
  match c.1 with
  | Unverified l => Ok (Unverified (l ++ [new_checksum]), c.2)
  | _ => Panic
  end.

Definition unverified (c : Z) : chunk := (Unverified [c], u64_max).

Module ChecksumList.
Definition new (flushed_offset : Z) : ChecksumList := mkList flushed_offset [] ∅ 0.

Definition set_entries (l : list ChecksumEntry) : st ChecksumList unit := λ s,
  (Ok tt, mkList (flushed_offset s) l (device_offset_to_checksum_entry s) (max_chunk_size s)).
Definition set_index (m : gmap Z nat) : st ChecksumList unit := λ s,
  (Ok tt, mkList (flushed_offset s) (checksum_entries s) m (max_chunk_size s)).
Definition set_max_chunk_size (n : Z) : st ChecksumList unit := λ s,
  (Ok tt, mkList (flushed_offset s) (checksum_entries s) (device_offset_to_checksum_entry s) n).

(** Appends an entry that is still to be verified. *)
Definition push_entry (journal_offset : Z) (r : range) (cs : list Z) : st ChecksumList unit :=
  s ← st_get;
  set_entries (checksum_entries s ++ [mkEntry journal_offset r (unverified <$> cs)]).

(** The body of the [while let] of [push] for an entry that the range reaches:
    its checksums are added to and the gap before it becomes an entry.  Yields
    what is left of the range and its checksums, and the index entries of the
    gaps. *)
Definition push_overlap (journal_offset chunk_size : Z) (first_write : bool) (index : nat)
    (entry : ChecksumEntry) (dr : range) (cs : list Z) (gap_entries : list (Z * nat))
    : st ChecksumList (range * list Z * list (Z * nat)) :=
  let er := device_range entry in
  let gap := start dr ..< start er in
  '(gap_checksums, cs) ←
    (if range_is_empty gap then mret ([], cs)
     else n ← st_lift (u64_div (end_ gap - start gap) chunk_size); st_lift (split_at cs n));
  len ← st_lift (u64_sub (end_ er) (start er));
  q ← st_lift (u64_div len (Z.of_nat (length (checksums entry))));
  if q =? chunk_size then
    let overlap := Z.max (start dr) (start er) ..< Z.min (end_ dr) (end_ er) in
    a ← st_lift (u64_sub (start overlap) (start er));
    a ← st_lift (u64_div a chunk_size);
    b ← st_lift (u64_sub (end_ overlap) (start er));
    b ← st_lift (u64_div b chunk_size);
    _ ← st_lift (rassert ((a <=? b) && (b <=? Z.of_nat (length (checksums entry)))));
    '(head, cs) ← st_lift (split_at cs (b - a));
    l ← st_lift (slice_mut (checksums entry) a b (λ m, zip_mut push_checksum m head));
    s ← st_get;
    _ ← set_entries (<[index := mkEntry (start_journal_offset entry) er l]> (checksum_entries s));
    let dr := end_ overlap ..< end_ dr in
    if negb (range_is_empty gap) && first_write then
      _ ← push_entry journal_offset gap gap_checksums;
      mret (dr, cs, gap_entries ++ [(end_ gap, length (checksum_entries s))])
    else mret (dr, cs, gap_entries)
  else st_fail (Fxfs Inconsistent).

(** The [while let] of [push] over the entries that end after the start of the
    range. *)
Fixpoint push_loop (journal_offset chunk_size : Z) (first_write : bool) (r : list (Z * nat))
    (dr : range) (cs : list Z) (gap_entries : list (Z * nat))
    : st ChecksumList (range * list Z * list (Z * nat)) :=
  match r with
  | [] => mret (dr, cs, gap_entries)
  | (_, index) :: r =>
      s ← st_get;
      entry ← st_lift (unwrap (checksum_entries s !! index));
      if end_ dr <=? start (device_range entry) then mret (dr, cs, gap_entries)
      else
        '(dr, cs, gap_entries) ←
          push_overlap journal_offset chunk_size first_write index entry dr cs gap_entries;
        if range_is_empty dr then mret (dr, cs, gap_entries)
        else push_loop journal_offset chunk_size first_write r dr cs gap_entries
  end.

Definition push (journal_offset : Z) (device_range : range) (cs : list Z) (first_write : bool)
    : st ChecksumList unit :=
  s ← st_get;
  if journal_offset <? flushed_offset s then mret tt
  else
    len ← st_lift (if Range.is_valid device_range then Ok (end_ device_range - start device_range) else Panic);
    chunk_size ← st_lift (u64_div len (Z.of_nat (length cs)));
    _ ← (if max_chunk_size s <? chunk_size then set_max_chunk_size chunk_size else mret tt);
    from ← st_lift (u64_add (start device_range) 1);
    '(dr, cs, gap_entries) ←
      push_loop journal_offset chunk_size first_write
        (bt_range_from (device_offset_to_checksum_entry s) from) device_range cs [];
    _ ← set_index (foldl (λ m kv, <[kv.1 := kv.2]> m) (device_offset_to_checksum_entry s) gap_entries);
    if negb (range_is_empty dr) && first_write then
      s ← st_get;
      _ ← set_index (<[end_ dr := length (checksum_entries s)]> (device_offset_to_checksum_entry s));
      push_entry journal_offset dr cs
    else mret tt.

(** [c.1 = journal_offset] for the chunks [a..b]. *)
Definition deallocate (journal_offset a b : Z) (l : list chunk) : res (list chunk) :=
  slice_mut l a b (λ m, Ok ((λ c, (c.1, journal_offset)) <$> m)).

Fixpoint mark_loop (journal_offset : Z) (r : list (Z * nat)) (dr : range) : st ChecksumList unit :=
  match r with
  | [] => mret tt
  | (_, index) :: r =>
      s ← st_get;
      entry ← st_lift (unwrap (checksum_entries s !! index));
      let er := device_range entry in
      if end_ dr <=? start er then mret tt
      else
        len ← st_lift (if Range.is_valid er then Ok (end_ er - start er) else Panic);
        chunk_size ← st_lift (u64_div len (Z.of_nat (length (checksums entry))));
        a ← st_lift (if start dr <? start er then Ok 0 else u64_div (start dr - start er) chunk_size);
        if end_ dr <=? end_ er then
          b ← st_lift (u64_div (end_ dr - start er) chunk_size);
          l ← st_lift (deallocate journal_offset a b (checksums entry));
          set_entries (<[index := mkEntry (start_journal_offset entry) er l]> (checksum_entries s))
        else
          l ← st_lift (deallocate journal_offset a (Z.of_nat (length (checksums entry))) (checksums entry));
          _ ← set_entries (<[index := mkEntry (start_journal_offset entry) er l]> (checksum_entries s));
          mark_loop journal_offset r (end_ er ..< end_ dr)
  end.

Definition mark_deallocated (journal_offset : Z) (device_range : range) : st ChecksumList unit :=
  s ← st_get;
  if journal_offset <? flushed_offset s then mret tt
  else
    from ← st_lift (u64_add (start device_range) 1);
    mark_loop journal_offset (bt_range_from (device_offset_to_checksum_entry s) from) device_range.

Section verify.
(** [Device::read]: the bytes at an offset, or an error. *)
Context (read : Z → Z → res (list Z)).

(** The body of the inner loop of [verify] for a chunk: its new state, and
    whether verification failed. *)
Definition verify_chunk (journal_offset buf_len offset chunk_size : Z) (c : chunk) : res (chunk * bool) :=
  if journal_offset <=? c.2 then
    c ← match c.1 with
        | Unverified l =>
            _ ← rassert (chunk_size <=? buf_len);
            buf ← read offset chunk_size;
            found ← fletcher64 buf 0;
            Ok (if bool_decide (found ∈ l) then Valid else Invalid, c.2)
        | _ => Ok c
        end;
    Ok (c, bool_decide (c.1 = Invalid))
  else Ok (c, false).

(** The inner loop.  The chunks keep what has been found out about them
    whatever the outcome. *)
Fixpoint verify_chunks (journal_offset buf_len offset chunk_size : Z) (l : list chunk)
    : res bool * list chunk :=
  match l with
  | [] => (Ok false, [])
  | c :: l =>
      match verify_chunk journal_offset buf_len offset chunk_size c with
      | Ok (c, true) => (Ok true, c :: l)
      | Ok (c, false) =>
          match u64_add offset chunk_size with
          | Ok offset =>
              let '(r, l) := verify_chunks journal_offset buf_len offset chunk_size l in (r, c :: l)
          | _ => (Panic, c :: l)
          end
      | Err e => (Err e, c :: l)
      | Panic => (Panic, c :: l)
      | NoFuel => (NoFuel, c :: l)
      end
  end.

(** The [for] over the entries: the journal offset to try again with, if
    verification failed. *)
Fixpoint verify_entries (journal_offset buf_len : Z) (l : list ChecksumEntry)
    : res (option Z) * list ChecksumEntry :=
  match l with
  | [] => (Ok None, [])
  | e :: l =>
      if journal_offset <=? start_journal_offset e then (Ok None, e :: l)
      else
        let er := device_range e in
        match (len ← (if Range.is_valid er then Ok (end_ er - start er) else Panic);
               u64_div len (Z.of_nat (length (checksums e)))) with
        | Ok chunk_size =>
            let '(r, cs) := verify_chunks journal_offset buf_len (start er) chunk_size (checksums e) in
            let e := mkEntry (start_journal_offset e) er cs in
            match r with
            | Ok true => (Ok (Some (start_journal_offset e)), e :: l)
            | Ok false => let '(r, l) := verify_entries journal_offset buf_len l in (r, e :: l)
            | Err x => (Err x, e :: l)
            | Panic => (Panic, e :: l)
            | NoFuel => (NoFuel, e :: l)
            end
        | Err x => (Err x, e :: l)
        | Panic => (Panic, e :: l)
        | NoFuel => (NoFuel, e :: l)
        end
  end.

Fixpoint verify_loop (fuel : nat) (journal_offset : Z) : st ChecksumList Z :=
  match fuel with
  | O => st_lift NoFuel
  | S fuel =>
      s ← st_get;
      let '(r, l) := verify_entries journal_offset (max_chunk_size s) (checksum_entries s) in
      _ ← set_entries l;
      r ← st_lift r;
      match r with
      | Some journal_offset => verify_loop fuel journal_offset
      | None => mret journal_offset
      end
  end.

Definition verify (journal_offset : Z) : st ChecksumList Z :=
  s ← st_get; verify_loop (S (length (checksum_entries s))) journal_offset.
End verify.
End ChecksumList.

(** ** How far the journal can be replayed *)
Section verify_props.
Context (read : Z → Z → res (list Z)).
Implicit Types (e : ChecksumEntry) (c : chunk) (jo off n : Z).

(** The checksum of what the device holds. *)
Definition digest off n : res Z := buf ← read off n; fletcher64 buf 0.

(** What the device holds is something that was written there. *)
Definition good off n (x : ChecksumState) : Prop :=
  match x with
  | Unverified l => ∃ d, digest off n = Ok d ∧ d ∈ l
  | Valid => True
  | Invalid => False
  end.

(** The chunks from [off] on that are still in use at [jo] are good. *)
Fixpoint all_good jo off n (l : list chunk) : Prop :=
  match l with
  | [] => True
  | c :: l => (jo ≤ c.2 → good off n c.1) ∧ all_good jo (off + n) n l
  end.

Definition csize e : Z := (end_ (device_range e) - start (device_range e)) / Z.of_nat (length (checksums e)).

(** Replaying up to [jo] relies on good data only. *)
Definition safe (l : list ChecksumEntry) jo : Prop :=
  Forall (λ e, start_journal_offset e < jo →
    all_good jo (start (device_range e)) (csize e) (checksums e)) l.

(** What [verify] finds out does not change what is good. *)
Fixpoint learned off n (l l' : list chunk) : Prop :=
  match l, l' with
  | [], [] => True
  | c :: l, c' :: l' => c'.2 = c.2 ∧ (good off n c'.1 ↔ good off n c.1) ∧ learned (off + n) n l l'
  | _, _ => False
  end.

Definition entry_learned e e' : Prop :=
  start_journal_offset e' = start_journal_offset e ∧ device_range e' = device_range e ∧
  length (checksums e') = length (checksums e) ∧
  learned (start (device_range e)) (csize e) (checksums e) (checksums e').

(** The device can be read and the chunks divide the range evenly. *)
Definition readable buf_len e : Prop :=
  0 ≤ start (device_range e) ∧ 0 ≤ csize e ≤ buf_len ∧ checksums e ≠ [] ∧
  end_ (device_range e) = start (device_range e) + csize e * Z.of_nat (length (checksums e)) ∧
  end_ (device_range e) ≤ u64_max ∧
  ∀ j, 0 ≤ j < Z.of_nat (length (checksums e)) →
    ∃ d, digest (start (device_range e) + j * csize e) (csize e) = Ok d.

Lemma learned_refl off n l : learned off n l l.
Proof. revert off. induction l as [|c l IH]; intros off; cbn; auto. Qed.

Lemma learned_length off n l l' : learned off n l l' → length l' = length l.
Proof. revert off l'. induction l as [|c l IH]; intros off [|c' l']; cbn; try done. intros (_ & _ & H). f_equal. by eapply IH. Qed.

Lemma learned_trans off n l1 l2 l3 : learned off n l1 l2 → learned off n l2 l3 → learned off n l1 l3.
Proof.
  revert off l2 l3. induction l1 as [|c1 l1 IH]; intros off [|c2 l2] [|c3 l3]; cbn; try done.
  intros (H1 & H2 & H3) (H4 & H5 & H6). split_and!; [congruence|by rewrite H5|by eapply IH].
Qed.

Lemma learned_good jo off n l l' : learned off n l l' → all_good jo off n l' ↔ all_good jo off n l.
Proof.
  revert off l'. induction l as [|c l IH]; intros off [|c' l']; cbn; try done.
  intros (-> & Hg & Hl). by rewrite (IH _ _ Hl), Hg.
Qed.

Lemma csize_eq e e' : device_range e' = device_range e → length (checksums e') = length (checksums e) → csize e' = csize e.
Proof. intros Hr Hl. unfold csize. by rewrite Hr, Hl. Qed.

Lemma entry_learned_refl e : entry_learned e e.
Proof. split_and!; try done. apply learned_refl. Qed.

Lemma entry_learned_trans e1 e2 e3 : entry_learned e1 e2 → entry_learned e2 e3 → entry_learned e1 e3.
Proof.
  intros (Hs & Hr & Hl & H) (Hs' & Hr' & Hl' & H'). rewrite (csize_eq e1 e2 Hr Hl), Hr in H'.
  split_and!; [congruence..|]. by eapply learned_trans.
Qed.

Lemma all_good_antimono jo jo' off n l : jo' ≤ jo → all_good jo' off n l → all_good jo off n l.
Proof.
  intros Hle. revert off. induction l as [|c l IH]; intros off; cbn; [done|].
  intros [Hc Hl]. split; [intros; apply Hc; lia|by apply IH].
Qed.

Lemma safe_learned l l' jo : Forall2 entry_learned l l' → safe l' jo ↔ safe l jo.
Proof.
  unfold safe. induction 1 as [|e e' l l' (Hs & Hr & Hl & H) _ IH]; [by rewrite !Forall_nil|].
  rewrite !Forall_cons, IH, Hs, Hr, (csize_eq e e' Hr Hl). by rewrite (learned_good _ _ _ _ _ H).
Qed.

Lemma readable_learned b e e' : entry_learned e e' → readable b e → readable b e'.
Proof.
  intros (_ & Hr & Hl & _) (H0 & Hc & Hne & He & Hu & Hrd). unfold readable.
  rewrite (csize_eq e e' Hr Hl), Hr, Hl. split_and!; try done; try lia.
  intros Hnil. apply Hne. apply nil_length_inv. by rewrite <- Hl, Hnil.
Qed.

(** One chunk. *)
Lemma verify_chunk_ok jo b off n c :
  n ≤ b → (∃ d, digest off n = Ok d) →
  ∃ c' failed, ChecksumList.verify_chunk read jo b off n c = Ok (c', failed) ∧ c'.2 = c.2 ∧
    (good off n c'.1 ↔ good off n c.1) ∧ (failed = false ↔ (jo ≤ c.2 → good off n c.1)).
Proof.
  intros Hn [d Hd]. unfold ChecksumList.verify_chunk. destruct (Z.leb_spec jo c.2) as [Hle|Hgt].
  2: { exists c, false. split_and!; [done..|]. split; [intros; lia|done]. }
  destruct c as [x dep]. cbn [fst snd] in *. destruct x as [l| |]; res_simpl.
  - rewrite (proj2 (Z.leb_le n b)) by done. res_simpl. unfold digest in Hd.
    destruct (read off n) as [buf| | |] eqn:Er; res_simpl in Hd; try done. res_simpl. rewrite Hd. res_simpl.
    assert (good off n (Unverified l) ↔ d ∈ l) as Hg.
    { cbn. unfold digest. rewrite Er. res_simpl. rewrite Hd. naive_solver. }
    eexists _, _. split; [done|]. cbn [fst snd]. rewrite Hg. case_bool_decide; cbn.
    + split_and!; [done|tauto|]. rewrite bool_decide_eq_false. by split.
    + split_and!; [done|tauto|]. rewrite bool_decide_eq_false. split; [done|]. intros Hin. by specialize (Hin Hle).
  - exists (Valid, dep), false. by split_and!.
  - exists (Invalid, dep), true. split_and!; [done..|]. cbn. split; [done|]. intros Hf. by destruct (Hf Hle).
Qed.

Lemma verify_chunks_ok jo b off n l :
  0 ≤ off → 0 ≤ n ≤ b → off + n * Z.of_nat (length l) ≤ u64_max →
  (∀ j, 0 ≤ j < Z.of_nat (length l) → ∃ d, digest (off + j * n) n = Ok d) →
  ∃ failed l', ChecksumList.verify_chunks read jo b off n l = (Ok failed, l') ∧
    learned off n l l' ∧ (failed = false ↔ all_good jo off n l).
Proof.
  revert off. induction l as [|c l IH]; intros off H0 Hn Hu Hrd; cbn [ChecksumList.verify_chunks].
  { by exists false, []. }
  destruct (verify_chunk_ok jo b off n c) as (c' & failed & -> & Hc2 & Hg & Hf); [lia| |].
  { destruct (Hrd 0) as [d Hd]; [cbn; lia|]. rewrite Z.mul_0_l, Z.add_0_r in Hd. by exists d. }
  destruct failed.
  - exists true, (c' :: l). split_and!; [done|cbn; split_and!; [done..|apply learned_refl]|].
    split; [done|]. intros [Hc _]. by apply Hf in Hc.
  - cbn [length] in Hu. rewrite u64_add_ok by nia.
    destruct (IH (off + n)) as (failed & l' & -> & Hl & Hf'); [lia|done|lia| |].
    { intros j Hj. destruct (Hrd (j + 1)) as [d Hd]; [cbn; lia|]. exists d. rewrite <- Hd. f_equal. lia. }
    exists failed, (c' :: l'). cbn [learned all_good]. split_and!; [done..|]. rewrite Hf'.
    split; [intros; split; [by apply Hf|done]|tauto].
Qed.

Lemma verify_entries_ok jo b l :
  StronglySorted (λ e e', start_journal_offset e ≤ start_journal_offset e') l → Forall (readable b) l →
  ∃ r l', ChecksumList.verify_entries read jo b l = (Ok r, l') ∧ Forall2 entry_learned l l' ∧
    match r with
    | None => safe l jo
    | Some j => ∃ e, e ∈ l ∧ start_journal_offset e = j ∧ j < jo ∧
        ¬ all_good jo (start (device_range e)) (csize e) (checksums e)
    end.
Proof.
  intros Hs Hr. induction Hs as [|e l Hs IH He]; cbn [ChecksumList.verify_entries].
  { exists None, []. split_and!; [done|constructor|constructor]. }
  apply Forall_cons in Hr as [Hre Hr]. destruct (Z.leb_spec jo (start_journal_offset e)) as [Hle|Hlt].
  { exists None, (e :: l). split_and!; [done| |].
    - apply Forall2_same_length_lookup_2; [done|]. intros i x y Hx Hy. rewrite Hx in Hy. injection Hy as <-.
      apply entry_learned_refl.
    - constructor; [lia|]. eapply Forall_impl; [exact He|]. cbn. lia. }
  pose proof Hre as (H0 & Hc & Hne & Hend & Hu & Hrd).
  assert (0 < Z.of_nat (length (checksums e))) as Hn by (destruct (checksums e); [done|cbn; lia]).
  unfold Range.is_valid. rewrite (proj2 (Z.leb_le _ _)) by nia. res_simpl. rewrite u64_div_ok by lia.
  fold (csize e).
  destruct (verify_chunks_ok jo b (start (device_range e)) (csize e) (checksums e)) as (failed & cs & -> & Hl & Hf);
    [done|done|lia|done|].
  set (e' := mkEntry _ _ cs). assert (entry_learned e e') as Hel by (split_and!; [done|done|by eapply learned_length|done]).
  destruct failed.
  - exists (Some (start_journal_offset e)), (e' :: l). split_and!; [done| |].
    + constructor; [done|]. apply Forall2_same_length_lookup_2; [done|]. intros i x y Hx Hy. rewrite Hx in Hy.
      injection Hy as <-. apply entry_learned_refl.
    + exists e. split_and!; [by left|done|lia|]. intros Hg. by apply Hf in Hg.
  - destruct (IH Hr) as (r & l' & -> & Hl' & Hres). exists r, (e' :: l'). split_and!; [done|by constructor|].
    destruct r as [j|].
    + destruct Hres as (e1 & ? & ?). exists e1. split; [by right|done].
    + constructor; [intros _; by apply Hf|done].
Qed.

Lemma learned_sorted l l' :
  Forall2 entry_learned l l' →
  StronglySorted (λ e e', start_journal_offset e ≤ start_journal_offset e') l →
  StronglySorted (λ e e', start_journal_offset e ≤ start_journal_offset e') l'.
Proof.
  induction 1 as [|e e' l l' (Hs & _) H IH]; intros Hl; [constructor|].
  apply StronglySorted_cons in Hl as [He Hl]. constructor; [by apply IH|]. rewrite Hs.
  clear - H He. induction H as [|x x' l l' (Hx & _) _ IH]; [constructor|].
  apply Forall_cons in He as [? ?]. constructor; [by rewrite Hx|by apply IH].
Qed.

Lemma readables_learned b l l' : Forall2 entry_learned l l' → Forall (readable b) l → Forall (readable b) l'.
Proof.
  induction 1 as [|e e' l l' He _ IH]; [done|]. rewrite !Forall_cons. intros [? ?].
  split; [by eapply readable_learned|by apply IH].
Qed.

(** The entries that a retry can still fail at. *)
Definition pending l jo : nat := length (filter (λ e, start_journal_offset e < jo) l).

Lemma pending_learned l l' jo : Forall2 entry_learned l l' → pending l' jo = pending l jo.
Proof.
  unfold pending. induction 1 as [|e e' l l' (Hs & _) _ IH]; [done|]. rewrite !filter_cons, Hs.
  destruct (decide _); cbn; by rewrite IH.
Qed.

Lemma pending_lt l e jo :
  e ∈ l → start_journal_offset e < jo → (pending l (start_journal_offset e) < pending l jo)%nat.
Proof.
  intros He Hlt. assert (∀ l, (pending l (start_journal_offset e) ≤ pending l jo)%nat) as Hle.
  { intros m. unfold pending. induction m as [|x m IH]; [done|]. rewrite !filter_cons.
    destruct (decide (start_journal_offset x < start_journal_offset e)), (decide (start_journal_offset x < jo));
      cbn; lia. }
  apply list_elem_of_split in He as (l1 & l2 & ->). specialize (Hle l1) as H1. specialize (Hle l2) as H2.
  unfold pending in *. rewrite !filter_app, !filter_cons, !length_app.
  rewrite decide_False, decide_True by lia. cbn. lia.
Qed.

Lemma verify_loop_ok fuel s jo :
  StronglySorted (λ e e', start_journal_offset e ≤ start_journal_offset e') (checksum_entries s) →
  Forall (readable (max_chunk_size s)) (checksum_entries s) →
  (pending (checksum_entries s) jo < fuel)%nat →
  ∃ j s', ChecksumList.verify_loop read fuel jo s = (Ok j, s') ∧ j ≤ jo ∧ safe (checksum_entries s) j ∧
    ∀ j', j < j' ≤ jo → ¬ safe (checksum_entries s) j'.
Proof.
  revert s jo. induction fuel as [|fuel IH]; intros s jo Hs Hr Hf; [lia|]. cbn [ChecksumList.verify_loop]. st_simpl.
  destruct (verify_entries_ok jo (max_chunk_size s) (checksum_entries s) Hs Hr) as (r & l & -> & Hl & Hres).
  st_simpl. destruct r as [j|].
  2: { exists jo. eexists. split_and!; [done|lia|done|]. intros. lia. }
  destruct Hres as (e & He & <- & Hlt & Hbad). set (s1 := mkList (flushed_offset s) l (device_offset_to_checksum_entry s) (max_chunk_size s)).
  destruct (IH s1 (start_journal_offset e)) as (j & s' & Hrun & Hj & Hsafe & Hmax).
  - by eapply learned_sorted.
  - by eapply readables_learned.
  - cbn [s1 checksum_entries]. rewrite (pending_learned _ _ _ Hl). pose proof (pending_lt _ _ _ He Hlt). lia.
  - cbn [s1 checksum_entries] in Hsafe, Hmax. exists j, s'. split_and!; [done|lia|by apply (safe_learned _ _ _ Hl)|].
    intros j' Hj' Hsf. destruct (decide (j' ≤ start_journal_offset e)).
    + apply (Hmax j'); [lia|]. by apply (safe_learned _ _ _ Hl).
    + unfold safe in Hsf. rewrite Forall_forall in Hsf. apply Hbad.
      eapply (all_good_antimono _ j'); [lia|]. apply Hsf; [done|lia].
Qed.

(** [verify] returns the largest journal offset, up to the one asked for, that
    it is safe to replay to: every chunk that was written before it and is
    still in use there holds one of the values written to it. *)
Lemma verify_spec s jo :
  StronglySorted (λ e e', start_journal_offset e ≤ start_journal_offset e') (checksum_entries s) →
  Forall (readable (max_chunk_size s)) (checksum_entries s) →
  ∃ j s', ChecksumList.verify read jo s = (Ok j, s') ∧ j ≤ jo ∧ safe (checksum_entries s) j ∧
    ∀ j', j < j' ≤ jo → ¬ safe (checksum_entries s) j'.
Proof.
  intros Hs Hr. unfold ChecksumList.verify. st_simpl. apply verify_loop_ok; [done|done|].
  unfold pending. pose proof (length_filter (λ e, start_journal_offset e < jo) (checksum_entries s)). lia.
Qed.
End verify_props.
