(* ===== verification/ChecksumPush.v ===== *)
(** * Recording checksums during replay

    What [push] and [mark_deallocated] of [checksum_list.rs] do to the chunks
    that are tracked, for extents whose chunks have the same size. *)

From S2P Require Import Prelude BTree Round Bytes Checksum ChecksumList.

Section entries.
(** The size of a chunk. *)
Context (c : Z) (Hc : 0 < c).
Implicit Types (l : list ChecksumEntry) (e : ChecksumEntry) (a b k p q jo : Z) (x : chunk).

(** The entry covers the chunks from number [a] on. *)
Definition blocks e a : Prop :=
  device_range e = (a * c) ..< ((a + Z.of_nat (length (checksums e))) * c) ∧
  0 ≤ a ∧ checksums e ≠ [] ∧ (a + Z.of_nat (length (checksums e))) * c ≤ u64_max.

Definition has e k : Prop := ∃ a, blocks e a ∧ a ≤ k < a + Z.of_nat (length (checksums e)).

(** Chunk [k] is tracked, since [jo], with [x]. *)
Definition at_ l k jo x : Prop :=
  ∃ i e a, l !! i = Some e ∧ blocks e a ∧ a ≤ k ∧ checksums e !! Z.to_nat (k - a) = Some x ∧
    start_journal_offset e = jo.
Definition untracked l k : Prop := ∀ jo x, ¬ at_ l k jo x.

Record entries_ok l : Prop := {
  eo_blocks : ∀ i e, l !! i = Some e → ∃ a, blocks e a;
  eo_disjoint : ∀ i j e e' k, l !! i = Some e → l !! j = Some e' → has e k → has e' k → i = j;
  eo_unverified : ∀ i e x, l !! i = Some e → x ∈ checksums e → ∃ L, x.1 = Unverified L;
}.

Lemma blocks_inj e a a' : blocks e a → blocks e a' → a = a'.
Proof. intros (H & _) (H' & _). rewrite H in H'. injection H' as H1 _. nia. Qed.

Lemma blocks_start e a : blocks e a → start (device_range e) = a * c.
Proof. intros (-> & _). done. Qed.
Lemma blocks_end e a : blocks e a → end_ (device_range e) = (a + Z.of_nat (length (checksums e))) * c.
Proof. intros (-> & _). done. Qed.

(** What is tracked of a chunk that an entry has. *)
Lemma at_known l k jo x i e a :
  entries_ok l → l !! i = Some e → blocks e a → a ≤ k < a + Z.of_nat (length (checksums e)) →
  at_ l k jo x ↔ checksums e !! Z.to_nat (k - a) = Some x ∧ start_journal_offset e = jo.
Proof.
  intros Hok Hi Ha Hk. split.
  - intros (i' & e' & a' & Hi' & Ha' & Hk' & Hx & Hjo).
    assert (has e' k) as Hh'.
    { exists a'. split; [done|]. apply lookup_lt_Some in Hx. lia. }
    assert (i' = i) as -> by (eapply (eo_disjoint l Hok); [done|done|done|by exists a]).
    assert (e' = e) as -> by congruence. by assert (a' = a) as -> by (by eapply blocks_inj).
  - intros (Hx & Hjo). exists i, e, a. split_and!; [done..|lia|done|done].
Qed.

Lemma has_at e k a : blocks e a → has e k ↔ a ≤ k < a + Z.of_nat (length (checksums e)).
Proof.
  intros Ha. split; [|by exists a]. intros (a' & Ha' & ?). by assert (a' = a) as -> by (by eapply blocks_inj).
Qed.

Lemma untracked_iff l k : entries_ok l → untracked l k ↔ ∀ i e, l !! i = Some e → ¬ has e k.
Proof.
  intros Hok. split.
  - intros Hu i e Hi Hh. pose proof Hh as (a & Ha & Hk).
    destruct (lookup_lt_is_Some_2 (checksums e) (Z.to_nat (k - a))) as [x Hx]; [lia|].
    apply (Hu (start_journal_offset e) x). by apply (at_known _ _ _ _ _ _ _ Hok Hi Ha Hk).
  - intros Hn jo x (i & e & a & Hi & Ha & Hk & Hx & _). apply (Hn i e Hi). exists a. split; [done|].
    apply lookup_lt_Some in Hx. lia.
Qed.

(** ** Replacing what is tracked by one entry *)
Definition with_checksums e (m : list chunk) : ChecksumEntry :=
  mkEntry (start_journal_offset e) (device_range e) m.

Lemma replace_ok l i e a m' :
  entries_ok l → l !! i = Some e → blocks e a → length m' = length (checksums e) →
  (∀ j y, m' !! j = Some y → ∃ L, y.1 = Unverified L) →
  entries_ok (<[i := with_checksums e m']> l) ∧
  ∀ k jo x, at_ (<[i := with_checksums e m']> l) k jo x ↔
    if bool_decide (a ≤ k < a + Z.of_nat (length (checksums e)))
    then m' !! Z.to_nat (k - a) = Some x ∧ start_journal_offset e = jo else at_ l k jo x.
Proof.
  intros Hok Hi Ha Hlen Hun. set (e' := with_checksums e m').
  assert (∀ a, blocks e' a ↔ blocks e a) as Hb.
  { intros a0. unfold blocks. cbn [e' with_checksums device_range checksums]. rewrite Hlen.
    assert (m' ≠ [] ↔ checksums e ≠ []) as ->; [|done].
    split; intros Hne Hnil; apply Hne; apply nil_length_inv; rewrite Hnil in Hlen; cbn in Hlen; congruence. }
  assert (∀ k, has e' k ↔ has e k) as Hh.
  { intros k. unfold has. setoid_rewrite Hb. cbn [e' with_checksums checksums]. by rewrite Hlen. }
  apply lookup_lt_Some in Hi as Hil.
  assert (∀ j e0, <[i := e']> l !! j = Some e0 → (j = i ∧ e0 = e') ∨ (j ≠ i ∧ l !! j = Some e0)) as Hlk.
  { intros j e0 H. apply list_lookup_insert_Some in H as [(-> & -> & _)|[? ?]]; [by left|by right]. }
  assert (entries_ok (<[i := e']> l)) as Hok'.
  { split.
    - intros j e0 [[_ ->]|[_ Hj]]%Hlk; [exists a; by apply Hb|by eapply (eo_blocks l Hok)].
    - intros j1 j2 e1 e2 k [[-> ->]|[Hn1 H1]]%Hlk [[-> ->]|[Hn2 H2]]%Hlk Hh1 Hh2; rewrite ?Hh in *;
        [done|by eapply (eo_disjoint l Hok)..].
    - intros j e0 x [[_ ->]|[_ Hj]]%Hlk Hx; [|by eapply (eo_unverified l Hok)].
      apply list_elem_of_lookup in Hx as [j' Hj']. by eapply Hun. }
  split; [done|]. intros k jo x. case_bool_decide as Hk.
  - rewrite (at_known _ _ _ _ i e' a Hok'); [done|by apply list_lookup_insert_eq|by apply Hb|].
    cbn [e' with_checksums checksums]. lia.
  - assert (∀ e0, has e0 k → (e0 = e ∨ e0 = e') → False) as Hn.
    { intros e0 H0 [->| ->]; [|apply Hh in H0]; by apply (has_at _ _ _ Ha) in H0. }
    split; intros (j & e0 & a0 & Hj & Ha0 & Hk0 & Hx & Hjo);
      (assert (has e0 k) as Hh0 by (exists a0; split; [done|]; apply lookup_lt_Some in Hx; lia)).
    + apply Hlk in Hj as [[-> ->]|[Hne Hj]]; [by destruct (Hn e'); auto|]. exists j, e0, a0. by split_and!.
    + destruct (decide (j = i)) as [->|Hne]; [destruct (Hn e0 Hh0); left; congruence|].
      exists j, e0, a0. split_and!; [by rewrite list_lookup_insert_ne|done..].
Qed.

(** ** Extending what is tracked *)
Section update.
(** The checksum written for each chunk, the offset of the push, and whether
    it is the first write. *)
Context (f : Z → Z) (jo : Z) (first_write : bool).

(** The chunks [lo..hi] have been pushed. *)
Definition pushed (lo hi : Z) l l' : Prop := ∀ k jo' x,
  at_ l' k jo' x ↔
  if bool_decide (lo ≤ k < hi) then
    (∃ L dep, x = (Unverified (L ++ [f k]), dep) ∧ at_ l k jo' (Unverified L, dep)) ∨
    (first_write = true ∧ untracked l k ∧ jo' = jo ∧ x = unverified (f k))
  else at_ l k jo' x.

Lemma pushed_untracked lo hi l l' k : pushed lo hi l l' → ¬ (lo ≤ k < hi) → untracked l' k ↔ untracked l k.
Proof.
  intros Hp Hk. unfold untracked. split; intros Hu jo' x Hat; apply (Hu jo' x).
  - apply Hp. by rewrite bool_decide_eq_false_2.
  - apply Hp in Hat. by rewrite bool_decide_eq_false_2 in Hat.
Qed.

(** Two pushes of chunks that have none in common. *)
Lemma pushed_compose lo hi lo1 hi1 lo2 hi2 l l1 l2 :
  pushed lo1 hi1 l l1 → pushed lo2 hi2 l1 l2 →
  (∀ k, lo ≤ k < hi ↔ lo1 ≤ k < hi1 ∨ lo2 ≤ k < hi2) → (∀ k, ¬ (lo1 ≤ k < hi1 ∧ lo2 ≤ k < hi2)) →
  pushed lo hi l l2.
Proof.
  intros H1 H2 Hu Hd k jo' x. specialize (Hu k). specialize (Hd k). rewrite (H2 k jo' x).
  destruct (decide (lo2 ≤ k < hi2)) as [Hk2|Hk2].
  - rewrite !bool_decide_eq_true_2 by tauto. rewrite (pushed_untracked _ _ _ _ k H1) by tauto.
    setoid_rewrite (H1 k). rewrite bool_decide_eq_false_2 by tauto. done.
  - rewrite bool_decide_eq_false_2 by done. rewrite (H1 k jo' x).
    destruct (decide (lo1 ≤ k < hi1)).
    + by rewrite !bool_decide_eq_true_2 by tauto.
    + by rewrite !bool_decide_eq_false_2 by tauto.
Qed.

Lemma pushed_nil lo hi l : hi ≤ lo → pushed lo hi l l.
Proof. intros Hle k jo' x. by rewrite bool_decide_eq_false_2 by lia. Qed.

(** Without a first write, chunks that are not tracked stay so. *)
Lemma pushed_skip lo hi l :
  first_write = false → (∀ k, lo ≤ k < hi → untracked l k) → pushed lo hi l l.
Proof.
  intros Hfw Hu k jo' x. case_bool_decide as Hk; [|done]. split; [intros Hat; by destruct (Hu k Hk _ _ Hat)|].
  intros [(L & dep & _ & Hat)|(? & _)]; [by destruct (Hu k Hk _ _ Hat)|congruence].
Qed.

(** A new entry for chunks that were not tracked. *)
Lemma append_ok l lo hi cs :
  entries_ok l → first_write = true → 0 ≤ lo < hi → hi * c ≤ u64_max → Z.of_nat (length cs) = hi - lo →
  (∀ k, lo ≤ k < hi → untracked l k ∧ cs !! Z.to_nat (k - lo) = Some (f k)) →
  let e := mkEntry jo ((lo * c) ..< (hi * c)) (unverified <$> cs) in
  entries_ok (l ++ [e]) ∧ pushed lo hi l (l ++ [e]) ∧ blocks e lo.
Proof.
  intros Hok Hfw Hlo Hhi Hlen Hk e.
  assert (blocks e lo) as He.
  { split_and!; cbn [e device_range checksums]; rewrite ?length_fmap, ?Hlen; [f_equal; lia|lia| |lia].
    destruct cs; [cbn in Hlen; lia|done]. }
  assert (∀ k, has e k ↔ lo ≤ k < hi) as Hh.
  { intros k. rewrite (has_at _ _ _ He). cbn [e checksums]. rewrite length_fmap, Hlen. lia. }
  assert (∀ i e0, (l ++ [e]) !! i = Some e0 → l !! i = Some e0 ∨ i = length l ∧ e0 = e) as Hlk.
  { intros i e0 [Hi|[Hi Hi']]%lookup_app_Some; [by left|right].
    apply list_lookup_singleton_Some in Hi' as [? ->]. split; [lia|done]. }
  assert (∀ k i e0, lo ≤ k < hi → l !! i = Some e0 → ¬ has e0 k) as Hno.
  { intros k i e0 Hkk Hi. apply (untracked_iff l k Hok) with i; [by apply Hk|done]. }
  split_and!; [|intros k jo' x|done].
  - split.
    + intros i e0 [Hi|[_ ->]]%Hlk; [by eapply (eo_blocks l Hok)|by exists lo].
    + intros i j e1 e2 k [H1|[-> ->]]%Hlk [H2|[-> ->]]%Hlk Hh1 Hh2; [by eapply (eo_disjoint l Hok)| | |done];
        exfalso; [apply Hh in Hh2; by apply (Hno k i e1)|apply Hh in Hh1; by apply (Hno k j e2)].
    + intros i e0 x [Hi|[_ ->]]%Hlk Hx; [by eapply (eo_unverified l Hok)|].
      cbn [e checksums] in Hx. apply list_elem_of_fmap in Hx as (y & -> & _). by exists [y].
  - split.
    + intros (i & e0 & a & [Hi|[-> ->]]%Hlk & Ha & Hak & Hx & Hjo).
      * assert (has e0 k) as Hh0 by (exists a; split; [done|]; apply lookup_lt_Some in Hx; lia).
        rewrite bool_decide_eq_false_2 by (intros Hkk; by apply (Hno k i e0)). exists i, e0, a. by split_and!.
      * assert (a = lo) as -> by (by eapply blocks_inj). cbn [e checksums start_journal_offset] in Hx, Hjo.
        apply list_lookup_fmap_Some in Hx as (y & -> & Hy). apply lookup_lt_Some in Hy as Hlt.
        rewrite bool_decide_eq_true_2 by lia. right. destruct (Hk k) as [Hu Hf]; [lia|].
        rewrite Hf in Hy. injection Hy as <-. by split_and!.
    + case_bool_decide as Hkk.
      * intros [(L & dep & _ & Hat)|(_ & Hu & -> & ->)]; [by destruct (Hk k Hkk) as [Hu _]; destruct (Hu _ _ Hat)|].
        exists (length l), e, lo. split_and!; [|done|lia| |done]; [rewrite lookup_app_r, Nat.sub_diag by done; done|].
        cbn [e checksums]. rewrite list_lookup_fmap. by rewrite (proj2 (Hk k Hkk)).
      * intros (i & e0 & a & Hi & H). exists i, e0, a. split; [by apply lookup_app_l_Some|done].
Qed.

(** The checksums of some of an entry's chunks are added to. *)
Lemma extend_ok l i e a lo hi m' :
  entries_ok l → l !! i = Some e → blocks e a → a ≤ lo → lo ≤ hi → hi ≤ a + Z.of_nat (length (checksums e)) →
  length m' = length (checksums e) →
  (∀ j y, checksums e !! j = Some y → ∃ L, y.1 = Unverified L ∧
    m' !! j = Some (if bool_decide (lo ≤ a + Z.of_nat j < hi) then (Unverified (L ++ [f (a + Z.of_nat j)]), y.2) else y)) →
  entries_ok (<[i := with_checksums e m']> l) ∧ pushed lo hi l (<[i := with_checksums e m']> l).
Proof.
  intros Hok Hi Ha Hlo Hlh Hhi Hlen Hm.
  destruct (replace_ok l i e a m' Hok Hi Ha Hlen) as [Hok' Hat'].
  { intros j y Hy. apply lookup_lt_Some in Hy as Hlt. destruct (lookup_lt_is_Some_2 (checksums e) j) as [y0 Hy0]; [lia|].
    destruct (Hm j y0 Hy0) as (L & HL & Hm'). rewrite Hy in Hm'. injection Hm' as ->. case_bool_decide; by eexists. }
  split; [done|]. intros k jo' x. rewrite Hat'. case_bool_decide as Hk.
  - destruct (lookup_lt_is_Some_2 (checksums e) (Z.to_nat (k - a))) as [y Hy]; [lia|].
    destruct (Hm _ y Hy) as (L & HL & Hm'). rewrite Z2Nat.id in Hm' by lia. replace (a + (k - a)) with k in Hm' by lia.
    pose proof (λ x, at_known l k jo' x i e a Hok Hi Ha Hk) as Hat. rewrite Hm'.
    case_bool_decide as Hkk; [|by rewrite Hat, Hy].
    destruct y as [y1 y2]. cbn [fst snd] in *. subst y1. split.
    + intros [[= <-] Hjo]. left. exists L, y2. split; [done|]. apply Hat. by rewrite Hy.
    + intros [(L' & dep & -> & [Hy' Hjo]%Hat)|(_ & Hu & _)]; [rewrite Hy in Hy'; by simplify_eq|].
      destruct (Hu (start_journal_offset e) (Unverified L, y2)).
      by apply (at_known l k _ _ i e a Hok Hi Ha Hk).
  - by rewrite bool_decide_eq_false_2 by lia.
Qed.

(** ** One entry that the range reaches *)
Lemma zip_push m h :
  length h = length m → (∀ j y, m !! j = Some y → ∃ L, y.1 = Unverified L) →
  ∃ m', zip_mut push_checksum m h = Ok m' ∧ length m' = length m ∧
    ∀ j y z, m !! j = Some y → h !! j = Some z → ∃ L, y.1 = Unverified L ∧ m' !! j = Some (Unverified (L ++ [z]), y.2).
Proof.
  revert h. induction m as [|y m IH]; intros [|z h]; cbn [length zip_mut]; try done.
  { intros _ _. by exists []. }
  intros [= Hl] Hu. destruct (Hu 0%nat y eq_refl) as [L HL].
  replace (push_checksum y z) with (Ok (Unverified (L ++ [z]), y.2)) by (unfold push_checksum; by rewrite HL). res_simpl.
  destruct (IH h Hl) as (m' & -> & Hl' & Hm'); [intros j y0 Hy0; by apply (Hu (S j))|]. res_simpl.
  eexists. split; [done|]. split; [cbn; lia|].
  intros [|j] y0 z0 Hy0 Hz0; cbn in *; simplify_eq; [by exists L|by apply Hm'].
Qed.

Lemma slice_push m a b h (g : Z → Z) :
  0 ≤ a ≤ b → b ≤ Z.of_nat (length m) → Z.of_nat (length h) = b - a →
  (∀ j y, m !! j = Some y → ∃ L, y.1 = Unverified L) →
  (∀ j, a ≤ j < b → h !! Z.to_nat (j - a) = Some (g j)) →
  ∃ m', slice_mut m a b (λ m, zip_mut push_checksum m h) = Ok m' ∧ length m' = length m ∧
    ∀ j y, m !! j = Some y → ∃ L, y.1 = Unverified L ∧
      m' !! j = Some (if bool_decide (a ≤ Z.of_nat j < b) then (Unverified (L ++ [g (Z.of_nat j)]), y.2) else y).
Proof.
  intros Hab Hb Hh Hu Hg. unfold slice_mut. rewrite (proj2 (Z.leb_le a b)), (proj2 (Z.leb_le b _)) by lia. cbn [andb].
  res_simpl. set (mid := take (Z.to_nat (b - a)) (drop (Z.to_nat a) m)).
  assert (length mid = Z.to_nat (b - a)) as Hmid by (unfold mid; rewrite length_take, length_drop; lia).
  destruct (zip_push mid h) as (m' & -> & Hl' & Hm').
  { rewrite Hmid. lia. }
  { intros j y Hy. unfold mid in Hy. apply lookup_take_Some in Hy as [Hy _]. rewrite lookup_drop in Hy. by eapply Hu. }
  res_simpl. eexists. split; [done|]. split.
  { rewrite !length_app, length_take, length_drop, Hl', Hmid. lia. }
  intros j y Hy. apply lookup_lt_Some in Hy as Hlt. destruct (Hu j y Hy) as [L HL].
  assert (length (take (Z.to_nat a) m) = Z.to_nat a) as Hta by (rewrite length_take; lia).
  case_bool_decide as Hj.
  - rewrite lookup_app_r by lia. rewrite lookup_app_l by lia. rewrite Hta.
    destruct (Hm' (j - Z.to_nat a)%nat y (g (Z.of_nat j))) as (L' & HL' & Hx).
    + unfold mid. rewrite lookup_take_lt by lia. rewrite lookup_drop. by replace (Z.to_nat a + (j - Z.to_nat a))%nat with j by lia.
    + replace (j - Z.to_nat a)%nat with (Z.to_nat (Z.of_nat j - a)) by lia. apply Hg. lia.
    + by exists L'.
  - exists L. split; [done|]. destruct (decide (Z.of_nat j < a)).
    + rewrite lookup_app_l by lia. by rewrite lookup_take_lt by lia.
    + rewrite lookup_app_r by lia. rewrite lookup_app_r by lia. rewrite lookup_drop, Hta, Hl', Hmid. rewrite <- Hy. f_equal. lia.
Qed.

Definition keeps l l' : Prop := ∀ i e, l !! i = Some e → ∃ e', l' !! i = Some e' ∧
  device_range e' = device_range e ∧ start_journal_offset e' = start_journal_offset e.

(** The entries that have been added, and where the index will point. *)
Definition added l l' (g : list (Z * nat)) : Prop :=
  (length l ≤ length l')%nat ∧
  (∀ d i, (d, i) ∈ g ↔ (length l ≤ i)%nat ∧ ∃ e, l' !! i = Some e ∧ end_ (device_range e) = d) ∧
  (∀ i e, (length l ≤ i)%nat → l' !! i = Some e → start_journal_offset e = jo).

Definition with_entries (s : ChecksumList) l : ChecksumList :=
  mkList (flushed_offset s) l (device_offset_to_checksum_entry s) (max_chunk_size s).

Lemma div_blocks a b : b ≤ a → u64_div (a * c - b * c) c = Ok (a - b).
Proof. intros. rewrite u64_div_ok by lia. replace (a * c - b * c) with ((a - b) * c) by lia. by rewrite Z.div_mul by lia. Qed.

(** The checksums from chunk [p] on. *)
Definition cks p q (cs : list Z) : Prop :=
  Z.of_nat (length cs) = q - p ∧ ∀ k, p ≤ k < q → cs !! Z.to_nat (k - p) = Some (f k).

Lemma cks_split p m q cs :
  cks p q cs → p ≤ m ≤ q → split_at cs (m - p) = Ok (take (Z.to_nat (m - p)) cs, drop (Z.to_nat (m - p)) cs) ∧
    cks p m (take (Z.to_nat (m - p)) cs) ∧ cks m q (drop (Z.to_nat (m - p)) cs).
Proof.
  intros [Hl Hk] Hm. unfold split_at. rewrite (proj2 (Z.leb_le _ _)) by lia. res_simpl. split_and!; [done| |].
  - split; [rewrite length_take; lia|]. intros k Hkm. rewrite lookup_take_lt by lia. apply Hk. lia.
  - split; [rewrite length_drop; lia|]. intros k Hkm. rewrite lookup_drop.
    replace (Z.to_nat (m - p) + Z.to_nat (k - m))%nat with (Z.to_nat (k - p)) by lia. apply Hk. lia.
Qed.

Lemma keeps_refl l : keeps l l.
Proof. intros i e Hi. by exists e. Qed.

Lemma keeps_trans l1 l2 l3 : keeps l1 l2 → keeps l2 l3 → keeps l1 l3.
Proof.
  intros H12 H23 i e Hi. destruct (H12 i e Hi) as (e2 & H2 & Hr2 & Hs2).
  destruct (H23 i e2 H2) as (e3 & H3 & Hr3 & Hs3). exists e3. split_and!; [done|congruence..].
Qed.

Lemma keeps_insert l i e m : l !! i = Some e → keeps l (<[i := with_checksums e m]> l).
Proof.
  intros Hi j e0 Hj. destruct (decide (j = i)) as [->|Hne].
  - assert (e0 = e) as -> by congruence. exists (with_checksums e m). split_and!; [|done..].
    apply list_lookup_insert_eq. by eapply lookup_lt_Some.
  - exists e0. by rewrite list_lookup_insert_ne.
Qed.

Lemma keeps_app l l' : keeps l (l ++ l').
Proof. intros i e Hi. exists e. split_and!; [by apply lookup_app_l_Some|done..]. Qed.

Lemma added_nil l l' : length l' = length l → added l l' [].
Proof.
  intros Hl. split_and!; [lia| |].
  - intros d i. split; [by intros ?%elem_of_nil|]. intros (Hi & e & He & _). apply lookup_lt_Some in He. lia.
  - intros i e Hi He. apply lookup_lt_Some in He. lia.
Qed.

Lemma added_one l l1 e : length l1 = length l → start_journal_offset e = jo →
  added l (l1 ++ [e]) [(end_ (device_range e), length l)].
Proof.
  intros Hl Hjo. assert (∀ i e0, (length l ≤ i)%nat → (l1 ++ [e]) !! i = Some e0 → i = length l ∧ e0 = e) as Hlk.
  { intros i e0 Hi [H|[_ H]]%lookup_app_Some; [apply lookup_lt_Some in H; lia|].
    apply list_lookup_singleton_Some in H as [? ->]. split; [lia|done]. }
  split_and!; [rewrite length_app; cbn; lia| |].
  - intros d i. rewrite list_elem_of_singleton. split.
    + intros [= -> ->]. split; [done|]. exists e. split; [|done]. rewrite lookup_app_r, Hl, Nat.sub_diag by lia. done.
    + intros (Hi & e0 & H0 & <-). by destruct (Hlk i e0 Hi H0) as [-> ->].
  - intros i e0 Hi H0. by destruct (Hlk i e0 Hi H0) as [_ ->].
Qed.

(** The gap before the entry. *)
Lemma gap_ok l l1 p a p1 cs1 :
  let m := Z.max p a in
  entries_ok l1 → pushed m p1 l l1 → m ≤ p1 → 0 ≤ p → p1 * c ≤ u64_max → cks p m cs1 →
  (∀ k, p ≤ k < a → untracked l k) →
  let e := mkEntry jo ((p * c) ..< (a * c)) (unverified <$> cs1) in
  (negb (range_is_empty ((p * c) ..< (a * c))) && first_write = true ∧
     entries_ok (l1 ++ [e]) ∧ pushed p p1 l (l1 ++ [e])) ∨
  (negb (range_is_empty ((p * c) ..< (a * c))) && first_write = false ∧ pushed p p1 l l1).
Proof.
  intros m Hok1 Hp1 Hm Hp0 Hu [Hl Hcs] Hgap e. unfold range_is_empty. cbn [start end_].
  destruct (Z.leb_spec (a * c) (p * c)) as [Hle|Hlt]; cbn [negb andb].
  { right. split; [done|]. assert (a ≤ p) by nia. unfold m in *. by rewrite Z.max_l in * by lia. }
  assert (p < a) by nia. assert (m = a) as Hma by (unfold m; lia). rewrite Hma in *.
  assert (first_write = true ∨ first_write = false) as [Hfw|Hfw] by (destruct first_write; auto).
  - left. split; [done|]. assert (∀ k, p ≤ k < a → untracked l1 k ∧ cs1 !! Z.to_nat (k - p) = Some (f k)) as Hk.
    { intros k Hk. split; [|by apply Hcs]. apply (pushed_untracked _ _ _ _ k Hp1); [lia|by apply Hgap]. }
    assert (a * c ≤ u64_max) by nia.
    destruct (append_ok l1 p a cs1 Hok1) as (Hok2 & Hp2 & _); [done|lia|done|done|done|].
    split; [done|]. eapply (pushed_compose p p1 a p1 p a); [done|done|lia|lia].
  - right. split; [done|]. eapply (pushed_compose p p1 p a a p1); [by apply pushed_skip|done|lia|lia].
Qed.

(** Overlapping an entry that covers the chunks from [a] on. *)
Lemma push_overlap_ok s l i e a p q cs gaps :
  checksum_entries s = l → entries_ok l → l !! i = Some e → blocks e a →
  0 ≤ p < q → q * c ≤ u64_max → cks p q cs → a < q → p < a + Z.of_nat (length (checksums e)) →
  (∀ k, p ≤ k < a → untracked l k) →
  let p1 := Z.min q (a + Z.of_nat (length (checksums e))) in
  ∃ cs' g l', ChecksumList.push_overlap jo c first_write i e ((p * c) ..< (q * c)) cs gaps s =
      (Ok ((p1 * c) ..< (q * c), cs', gaps ++ g), with_entries s l') ∧
    cks p1 q cs' ∧ entries_ok l' ∧ pushed p p1 l l' ∧ keeps l l' ∧ added l l' g ∧
    ∀ d j, (d, j) ∈ g → d = a * c.
Proof.
  intros Hs Hok Hi Ha Hpq Hq Hcs Haq Hpb Hgap p1. pose proof (blocks_start _ _ Ha) as Hst. pose proof (blocks_end _ _ Ha) as Hen.
  pose proof Ha as (_ & Ha0 & Hne & Hu). set (n := Z.of_nat (length (checksums e))) in *.
  assert (0 < n) as Hn by (unfold n; destruct (checksums e); [done|cbn; lia]).
  unfold ChecksumList.push_overlap. rewrite Hst, Hen. cbn [start end_].
  set (m := Z.max p a).
  (* The gap. *)
  assert ((if range_is_empty ((p * c) ..< (a * c)) then mret ([], cs)
     else n ← st_lift (u64_div (a * c - p * c) c); st_lift (split_at cs n)) s =
    (Ok (take (Z.to_nat (m - p)) cs, drop (Z.to_nat (m - p)) cs), s)) as Hgapcs.
  { unfold range_is_empty. cbn [start end_]. destruct (Z.leb_spec (a * c) (p * c)).
    - assert (a ≤ p) by nia. unfold m. by rewrite Z.max_l, Z.sub_diag by lia.
    - assert (p < a) by nia. st_simpl. rewrite div_blocks by lia. unfold m. rewrite Z.max_r by lia.
      unfold st_lift. by rewrite (proj1 (cks_split p a q cs Hcs ltac:(lia))). }
  destruct (cks_split p m q cs Hcs ltac:(lia)) as (_ & Hcs1 & Hcs2).
  rewrite st_bind_run, Hgapcs. set (cs1 := take _ cs) in *. set (cs2 := drop _ cs) in *.
  st_simpl. rewrite u64_sub_ok by nia. st_simpl.
  rewrite u64_div_ok by lia. st_simpl. replace ((a + n) * c - a * c) with (c * n) by lia. rewrite Z.div_mul by lia.
  rewrite Z.eqb_refl. rewrite Z.mul_max_distr_nonneg_r, Z.mul_min_distr_nonneg_r by lia. fold m p1.
  st_simpl. rewrite u64_sub_ok by nia. st_simpl. rewrite div_blocks by lia. st_simpl.
  rewrite u64_sub_ok by nia. st_simpl. rewrite div_blocks by lia. st_simpl.
  fold n. rewrite (proj2 (Z.leb_le (m - a) (p1 - a))), (proj2 (Z.leb_le (p1 - a) n)) by lia. cbn [andb rassert].
  replace (p1 - a - (m - a)) with (p1 - m) by lia.
  destruct (cks_split m p1 q cs2 Hcs2 ltac:(lia)) as (-> & Hcs3 & Hcs4). st_simpl.
  destruct (slice_push (checksums e) (m - a) (p1 - a) (take (Z.to_nat (p1 - m)) cs2) (λ j, f (a + j)))
    as (m' & -> & Hl' & Hm'); [lia|lia|destruct Hcs3; lia| | |].
  { intros j y Hy. eapply (eo_unverified l Hok); [done|]. by eapply list_elem_of_lookup_2. }
  { intros j Hj. replace (j - (m - a)) with (a + j - m) by lia. apply (proj2 Hcs3). lia. }
  destruct (extend_ok l i e a m p1 m' Hok Hi Ha) as [Hok1 Hp1]; [lia|lia|lia|done| |].
  { intros j y Hy. destruct (Hm' j y Hy) as (L & HL & Hx). exists L. split; [done|]. rewrite Hx. f_equal.
    by rewrite (bool_decide_ext (m - a ≤ Z.of_nat j < p1 - a) (m ≤ a + Z.of_nat j < p1)) by lia. }
  st_simpl. rewrite Hs. fold (with_checksums e m'). set (l1 := <[i := with_checksums e m']> l) in *.
  assert (length l1 = length l) as Hl1 by apply length_insert.
  assert (keeps l l1) as Hk1 by by apply keeps_insert.
  exists (drop (Z.to_nat (p1 - m)) cs2). unfold ChecksumList.set_entries. cbn [fst snd].
  destruct (gap_ok l l1 p a p1 cs1) as [(-> & Hok2 & Hp2)|[-> Hp2]]; try done; [lia|lia|nia|..].
  - set (ge := mkEntry jo ((p * c) ..< (a * c)) (unverified <$> cs1)) in *.
    exists [(a * c, length l)], (l1 ++ [ge]). split_and!; [done..| | |].
    + eapply keeps_trans; [done|apply keeps_app].
    + by apply (added_one l l1 ge).
    + by intros d j [= -> _]%list_elem_of_singleton.
  - exists [], l1. rewrite app_nil_r. split_and!; [done..|by apply added_nil|by intros ?? ?%elem_of_nil].
Qed.

Lemma keeps_back l l' i e' :
  keeps l l' → (i < length l)%nat → l' !! i = Some e' →
  ∃ e, l !! i = Some e ∧ device_range e' = device_range e ∧ start_journal_offset e' = start_journal_offset e.
Proof.
  intros Hk Hi He'. destruct (lookup_lt_is_Some_2 l i Hi) as [e He]. exists e.
  destruct (Hk i e He) as (e0 & H0 & ? & ?). by assert (e0 = e') as -> by congruence.
Qed.

Lemma added_trans l l1 l2 g1 g2 : added l l1 g1 → added l1 l2 g2 → keeps l1 l2 → added l l2 (g1 ++ g2).
Proof.
  intros (Hl & Hg & Hj) (Hl' & Hg' & Hj') Hk. split_and!; [lia| |].
  - intros d i. rewrite elem_of_app, Hg, Hg'. split.
    + intros [(Hi & e & He & <-)|(Hi & H)]; [|split; [lia|done]]. split; [done|].
      destruct (Hk i e He) as (e' & ? & Hr & _). exists e'. by rewrite Hr.
    + intros (Hi & e & He & <-). destruct (decide (length l1 ≤ i)%nat) as [|Hlt]; [right; by eauto|left].
      destruct (keeps_back _ _ i e Hk) as (e1 & ? & Hr & _); [lia|done|]. split; [done|]. exists e1. by rewrite Hr.
  - intros i e Hi He. destruct (decide (length l1 ≤ i)%nat); [by eapply Hj'|].
    destruct (keeps_back _ _ i e Hk) as (e1 & He1 & _ & ->); [lia|done|]. by eapply Hj.
Qed.

(** What [push] iterates over: the entries that end after [p], by their end. *)
Record iterates l p (r : list (Z * nat)) : Prop := {
  it_sorted : StronglySorted (λ x y : Z * nat, x.1 < y.1) r;
  it_sound : ∀ d i, (d, i) ∈ r → ∃ e, l !! i = Some e ∧ end_ (device_range e) = d ∧ p * c < d;
  it_complete : ∀ i e, l !! i = Some e → p * c < end_ (device_range e) → (end_ (device_range e), i) ∈ r;
}.

(** Nothing is tracked before the entry that comes next. *)
Lemma iterates_gap l p d i r e a :
  entries_ok l → iterates l p ((d, i) :: r) → l !! i = Some e → blocks e a →
  ∀ k, p ≤ k < a → untracked l k.
Proof.
  intros Hok [Hs Hsd Hcm] Hi Ha k Hk. apply untracked_iff; [done|]. intros j e' Hj Hh.
  destruct (eo_blocks l Hok j e' Hj) as [a' Ha']. apply (has_at _ _ _ Ha') in Hh as Hk'.
  pose proof (blocks_end _ _ Ha') as He'.
  assert ((end_ (device_range e'), j) ∈ (d, i) :: r) as Hin by (apply Hcm; [done|rewrite He'; nia]).
  destruct (Hsd d i) as (e0 & H0 & Hd & _); [by left|]. assert (e0 = e) as -> by congruence.
  rewrite (blocks_end _ _ Ha) in Hd. pose proof Ha as (_ & _ & Hne & _).
  assert (0 < Z.of_nat (length (checksums e))) by (destruct (checksums e); [done|cbn; lia]).
  apply elem_of_cons in Hin as [[= He0 ->]|Hin].
  - assert (e' = e) as -> by congruence. assert (a' = a) as -> by (by eapply blocks_inj). lia.
  - apply StronglySorted_cons in Hs as [Hs _]. rewrite Forall_forall in Hs. specialize (Hs _ Hin). cbn in Hs.
    assert (a + Z.of_nat (length (checksums e)) < a' + Z.of_nat (length (checksums e'))) by nia.
    (* The later entry would hold the last chunk of this one. *)
    assert (i = j) as ->.
    { eapply (eo_disjoint l Hok i j e e' (a + Z.of_nat (length (checksums e)) - 1)); [done|done|..].
      - apply (has_at _ _ _ Ha). lia.
      - apply (has_at _ _ _ Ha'). lia. }
    assert (e' = e) as -> by congruence. assert (a' = a) as -> by (by eapply blocks_inj). lia.
Qed.

Lemma iterates_next l l' p d i r e a :
  iterates l p ((d, i) :: r) → l !! i = Some e → blocks e a → keeps l l' →
  (∀ j e', (length l ≤ j)%nat → l' !! j = Some e' → end_ (device_range e') ≤ a * c) →
  p ≤ a + Z.of_nat (length (checksums e)) →
  iterates l' (a + Z.of_nat (length (checksums e))) r.
Proof.
  intros [Hs Hsd Hcm] Hi Ha Hk Hnew Hp. apply StronglySorted_cons in Hs as [Hd Hs].
  destruct (Hsd d i) as (e0 & H0 & Hd0 & _); [by left|]. assert (e0 = e) as -> by congruence.
  rewrite (blocks_end _ _ Ha) in Hd0. rewrite Forall_forall in Hd. split; [done|..].
  - intros d' i' Hin. destruct (Hsd d' i') as (e' & He' & Hr & _); [by right|].
    destruct (Hk i' e' He') as (e1 & ? & Hr1 & _). exists e1. rewrite Hr1. split_and!; [done..|].
    specialize (Hd _ Hin). cbn in Hd. lia.
  - intros i' e' He' Hlt. destruct (decide (i' < length l)%nat) as [Hlt'|Hge].
    + destruct (keeps_back _ _ i' e' Hk Hlt' He') as (e1 & He1 & Hr & _). rewrite Hr in *.
      assert ((end_ (device_range e1), i') ∈ (d, i) :: r) as [[= Hd1 ->]|?]%elem_of_cons; [apply Hcm; [done|nia]| |done].
      lia.
    + specialize (Hnew i' e' ltac:(lia) He'). nia.
Qed.

Lemma iterates_end l p q r : entries_ok l → iterates l p r →
  match r with [] => True | (d, i) :: _ => ∃ e a, l !! i = Some e ∧ blocks e a ∧ q ≤ a end →
  ∀ k, p ≤ k < q → untracked l k.
Proof.
  intros Hok Hit Hr k Hk. destruct r as [|[d i] r].
  - apply untracked_iff; [done|]. intros j e Hj Hh. destruct (eo_blocks l Hok j e Hj) as [a Ha].
    apply (has_at _ _ _ Ha) in Hh. assert ((end_ (device_range e), j) ∈ []) as H%elem_of_nil; [|done].
    apply (it_complete _ _ _ Hit); [done|]. rewrite (blocks_end _ _ Ha). nia.
  - destruct Hr as (e & a & Hi & Ha & Hq). eapply (iterates_gap l p d i r e a); [done..|lia].
Qed.

Lemma push_loop_ok r : ∀ s l p q cs gaps,
  checksum_entries s = l → entries_ok l → iterates l p r → 0 ≤ p < q → q * c ≤ u64_max → cks p q cs →
  ∃ p' cs' g l', ChecksumList.push_loop jo c first_write r ((p * c) ..< (q * c)) cs gaps s =
      (Ok ((p' * c) ..< (q * c), cs', gaps ++ g), with_entries s l') ∧ p ≤ p' ≤ q ∧
    cks p' q cs' ∧ entries_ok l' ∧ pushed p p' l l' ∧ keeps l l' ∧ added l l' g ∧
    ∀ k, p' ≤ k < q → untracked l' k.
Proof.
  induction r as [|[d i] r IH]; intros s l p q cs gaps Hs Hok Hit Hpq Hq Hcs; cbn [ChecksumList.push_loop].
  { exists p, cs, [], l. rewrite app_nil_r.
    split_and!; [by destruct s; cbn in *; subst|lia|lia|done|done|by apply pushed_nil|apply keeps_refl|by apply added_nil|].
    by apply (iterates_end l p q []). }
  destruct (it_sound _ _ _ Hit d i) as (e & Hi & Hd & Hpd); [by left|].
  destruct (eo_blocks l Hok i e Hi) as [a Ha]. st_simpl. rewrite Hs, Hi. st_simpl.
  rewrite (blocks_end _ _ Ha) in Hd. rewrite (blocks_start _ _ Ha). cbn [start end_].
  pose proof (iterates_gap _ _ _ _ _ _ _ Hok Hit Hi Ha) as Hgap.
  destruct (Z.leb_spec (q * c) (a * c)) as [Hle|Hlt].
  { exists p, cs, [], l. rewrite app_nil_r.
    split_and!; [by destruct s; cbn in *; subst|lia|lia|done|done|by apply pushed_nil|apply keeps_refl|by apply added_nil|].
    intros k Hk. apply Hgap. nia. }
  assert (p < a + Z.of_nat (length (checksums e))) by nia.
  destruct (push_overlap_ok s l i e a p q cs gaps) as (cs1 & g1 & l1 & Hrun & Hcs1 & Hok1 & Hp1 & Hk1 & Ha1 & Hg1);
    try done; [nia|].
  rewrite st_bind_run, Hrun. set (p1 := Z.min q _) in *. st_simpl.
  unfold range_is_empty. cbn [start end_]. destruct (Z.leb_spec (q * c) (p1 * c)) as [Hdone|Hmore].
  - assert (p1 = q) as Heq by nia. exists p1, cs1, g1, l1. split_and!; [done|lia|lia|done..|]. intros. lia.
  - assert (p1 = a + Z.of_nat (length (checksums e))) as Heq by nia.
    destruct (IH (with_entries s l1) l1 p1 q cs1 (gaps ++ g1)) as
      (p' & cs' & g & l' & -> & Hp' & Hcs' & Hok' & Hpu & Hk' & Ha' & Hun); try done; [|nia|].
    { rewrite Heq. eapply iterates_next; [done..| |lia].
      intros j e' Hj He'. destruct Ha1 as (_ & Hin & _). rewrite (Hg1 _ j); [done|]. apply Hin. by eauto. }
    exists p', cs', (g1 ++ g), l'. rewrite app_assoc.
    split_and!; [done|lia|lia|done|done| |by eapply keeps_trans|by eapply added_trans|done].
    eapply (pushed_compose p p' p p1 p1 p'); [done|done|lia|lia].
Qed.
End update.

(** ** The list as a whole *)
Definition ends_at l d (i : nat) : Prop := ∃ e, l !! i = Some e ∧ end_ (device_range e) = d.

(** The entries are found by their end, in the order they were pushed, and the
    buffer of [verify] is large enough for a chunk. *)
Record tracks (s : ChecksumList) : Prop := {
  tr_entries : entries_ok (checksum_entries s);
  tr_index : ∀ d i, device_offset_to_checksum_entry s !! d = Some i ↔ ends_at (checksum_entries s) d i;
  tr_sorted : ∀ i j e e', (i ≤ j)%nat → checksum_entries s !! i = Some e → checksum_entries s !! j = Some e' →
    start_journal_offset e ≤ start_journal_offset e';
  tr_chunk : checksum_entries s ≠ [] → c ≤ max_chunk_size s;
}.

Lemma ends_at_inj l d i j : entries_ok l → ends_at l d i → ends_at l d j → i = j.
Proof.
  intros Hok (e & Hi & Hd) (e' & Hj & Hd').
  destruct (eo_blocks l Hok i e Hi) as [a Ha]. destruct (eo_blocks l Hok j e' Hj) as [a' Ha'].
  rewrite (blocks_end _ _ Ha) in Hd. rewrite (blocks_end _ _ Ha') in Hd'.
  pose proof Ha as (_ & _ & Hne & _). pose proof Ha' as (_ & _ & Hne' & _).
  assert (0 < Z.of_nat (length (checksums e))) by (destruct (checksums e); [done|cbn; lia]).
  assert (0 < Z.of_nat (length (checksums e'))) by (destruct (checksums e'); [done|cbn; lia]).
  assert (a + Z.of_nat (length (checksums e)) = a' + Z.of_nat (length (checksums e'))) by nia.
  eapply (eo_disjoint l Hok i j e e' (a + Z.of_nat (length (checksums e)) - 1)); [done|done|..].
  - apply (has_at _ _ _ Ha). lia.
  - apply (has_at _ _ _ Ha'). lia.
Qed.

Lemma index_extend (P : Z → nat → Prop) (g : list (Z * nat)) : ∀ m : gmap Z nat,
  (∀ d i j, P d i → P d j → i = j) → (∀ d i, m !! d = Some i ∨ (d, i) ∈ g ↔ P d i) →
  ∀ d i, foldl (λ m kv, <[kv.1 := kv.2]> m) m g !! d = Some i ↔ P d i.
Proof.
  induction g as [|[d0 i0] g IH]; intros m Hf HP d i; cbn [foldl].
  { rewrite <- HP. split; [by left|by intros [?|?%elem_of_nil]]. }
  apply IH; [done|]. clear d i. intros d i. cbn [fst snd]. split.
  - intros [[[<- <-]|[_ H]]%lookup_insert_Some|H]; apply HP; [by right; left|by left|by right; right].
  - intros Hp. pose proof Hp as [H|[[= -> ->]|H]%elem_of_cons]%HP; [|left; apply lookup_insert_eq|by right].
    left. destruct (decide (d = d0)) as [->|]; [|by rewrite lookup_insert_ne].
    assert (P d0 i0) as H0 by (apply HP; right; by left). rewrite (Hf _ _ _ Hp H0). apply lookup_insert_eq.
Qed.

Lemma tracks_iterates s p :
  tracks s → iterates (checksum_entries s) p (bt_range_from (device_offset_to_checksum_entry s) (p * c + 1)).
Proof.
  intros [Hok Hix _ _]. set (r := bt_range_from _ _).
  assert (∀ d i, (d, i) ∈ r ↔ ends_at (checksum_entries s) d i ∧ p * c < d) as Hr.
  { intros d i. unfold r. rewrite elem_of_bt_range_from, Hix. split; intros [? ?]; split; (done || lia). }
  split.
  - pose proof (bt_range_from_sorted (device_offset_to_checksum_entry s) (p * c + 1)) as Hs.
    pose proof (bt_range_from_NoDup_fst (device_offset_to_checksum_entry s) (p * c + 1)) as Hn. fold r in Hs, Hn.
    clear Hr. clearbody r. induction Hs as [|x r Hs IH Hx]; [constructor|].
    apply NoDup_cons in Hn as [Hx' Hn]. constructor; [by apply IH|].
    rewrite Forall_forall in Hx |- *. intros y Hy. specialize (Hx y Hy). unfold key_le in Hx.
    assert (x.1 ≠ y.1); [|lia]. intros Heq. apply Hx'. change (x.1 ∈ fst <$> r). rewrite Heq. by apply list_elem_of_fmap_2.
  - intros d i [(e & ? & ?) ?]%Hr. by exists e.
  - intros i e Hi Hp. apply Hr. split; [by exists e|done].
Qed.

(** The list after entries have been extended and added. *)
Lemma list_tracks_added s jo l' g n :
  tracks s → (length l' ≠ length (checksum_entries s) → ∀ e, e ∈ checksum_entries s → start_journal_offset e ≤ jo) →
  (l' ≠ [] → c ≤ n) → entries_ok l' → keeps (checksum_entries s) l' → added jo (checksum_entries s) l' g →
  tracks (mkList (flushed_offset s) l'
    (foldl (λ m kv, <[kv.1 := kv.2]> m) (device_offset_to_checksum_entry s) g) n).
Proof.
  intros [Hok Hix Hsrt Hch] Hjo Hn Hok' Hk (Hl & Hg & Hnew). set (l := checksum_entries s) in *.
  split; cbn [checksum_entries device_offset_to_checksum_entry max_chunk_size]; [done| |..|done].
  - apply index_extend; [intros d i j; by apply ends_at_inj|]. intros d i. rewrite Hix, Hg. split.
    + intros [(e & He & <-)|[_ H]]; [|done]. destruct (Hk i e He) as (e' & ? & Hr & _). exists e'. by rewrite Hr.
    + intros (e & He & Hd). destruct (decide (length l ≤ i)%nat); [right; split; [done|by exists e]|left].
      destruct (keeps_back l l' i e Hk) as (e0 & ? & Hr & _); [lia|done|]. exists e0. by rewrite <- Hr.
  - intros i j e e' Hij Hi Hj. destruct (decide (length l ≤ j)%nat) as [Hlj|Hlj].
    + rewrite (Hnew j e' Hlj Hj). destruct (decide (length l ≤ i)%nat) as [Hli|Hli]; [by rewrite (Hnew i e Hli Hi)|].
      destruct (keeps_back l l' i e Hk) as (e0 & He0 & _ & ->); [lia|done|].
      apply lookup_lt_Some in Hj as Hlt. apply Hjo; [fold l; lia|by eapply list_elem_of_lookup_2].
    + destruct (keeps_back l l' i e Hk) as (e0 & He0 & _ & ->); [lia|done|].
      destruct (keeps_back l l' j e' Hk) as (e1 & He1 & _ & ->); [lia|done|]. by eapply Hsrt.
Qed.


Lemma push_ok (f : Z → Z) s jo p q cs first_write :
  tracks s → (∀ e, e ∈ checksum_entries s → start_journal_offset e ≤ jo) →
  0 ≤ p < q → q * c ≤ u64_max → cks f p q cs →
  ∃ s', ChecksumList.push jo ((p * c) ..< (q * c)) cs first_write s = (Ok tt, s') ∧ tracks s' ∧
    flushed_offset s' = flushed_offset s ∧
    if bool_decide (jo < flushed_offset s) then s' = s
    else pushed f jo first_write p q (checksum_entries s) (checksum_entries s').
Proof.
  intros Htr Hjo Hpq Hq Hcs. pose proof (tr_entries s Htr) as Hok. unfold ChecksumList.push. st_simpl.
  case_bool_decide as Hfl; [by rewrite (proj2 (Z.ltb_lt _ _)) by done; exists s|].
  rewrite (proj2 (Z.ltb_ge _ _)) by lia. st_simpl.
  replace (Range.is_valid _) with true by (symmetry; apply Z.leb_le; cbn; nia). st_simpl. cbn [start end_].
  pose proof Hcs as [Hlen Hk]. rewrite u64_div_ok, Hlen by lia. st_simpl.
  replace (q * c - p * c) with (c * (q - p)) by lia. rewrite Z.div_mul by lia.
  set (s1 := mkList (flushed_offset s) (checksum_entries s) (device_offset_to_checksum_entry s)
    (Z.max (max_chunk_size s) c)).
  replace ((if max_chunk_size s <? c then ChecksumList.set_max_chunk_size c else mret tt) s) with (Ok tt, s1).
  2: { unfold s1. destruct (Z.ltb_spec (max_chunk_size s) c); [by rewrite Z.max_r by lia|].
    rewrite Z.max_l by lia. by destruct s. }
  st_simpl. rewrite u64_add_ok by nia. st_simpl.
  destruct (push_loop_ok f jo first_write (bt_range_from (device_offset_to_checksum_entry s) (p * c + 1)) s1
    (checksum_entries s) p q cs []) as (p' & cs' & g & l' & -> & Hp' & Hcs' & Hok' & Hpu & Hkp & Had & Hun);
    try done; [by apply tracks_iterates|].
  st_simpl. unfold range_is_empty. cbn [start end_]. destruct (Z.leb_spec (q * c) (p' * c)) as [Hle|Hlt]; cbn [negb andb].
  { assert (p' = q) as -> by nia. eexists. split; [done|]. split; [|done]. apply (list_tracks_added s jo l' g); try done; cbn; intros; lia. }
  assert (first_write = true ∨ first_write = false) as [->| ->] by (destruct first_write; auto).
  2: { eexists. split; [done|]. split; [apply (list_tracks_added s jo l' g); try done; cbn; intros; lia|]. split; [done|].
    eapply (pushed_compose f jo false p q p p' p' q); [done| |lia|lia]. by apply pushed_skip. }
  destruct Hcs' as [Hlen' Hk'].
  destruct (append_ok f jo true l' p' q cs' Hok') as (Hok2 & Hp2 & _); [done|nia|done|done|by auto|].
  set (e := mkEntry jo _ _) in *.
  pose proof (list_tracks_added s jo (l' ++ [e]) (g ++ [(q * c, length l')]) (Z.max (max_chunk_size s) c) Htr) as Htr'.
  rewrite foldl_app in Htr'. cbn [foldl fst snd] in Htr'.
  st_simpl. eexists. split; [done|]. split; [apply Htr'|split; [done|]].
  - done.
  - intros. lia.
  - done.
  - eapply keeps_trans; [done|apply keeps_app].
  - eapply added_trans; [done|by apply (added_one jo l' l' e)|apply keeps_app].
  - eapply (pushed_compose f jo true p q p p' p' q); [done|done|lia|lia].
Qed.

(** Pushing the checksums of the chunks [p..q]: a chunk that is tracked
    accepts one more checksum; on a first write the others become tracked from
    this journal offset on; nothing else changes, and the list stays sound.
    Offsets that have been flushed are ignored. *)
Theorem checksum_push (f : Z → Z) s jo p q cs first_write :
  tracks s → (∀ e, e ∈ checksum_entries s → start_journal_offset e ≤ jo) →
  0 ≤ p < q → q * c ≤ u64_max → cks f p q cs →
  ∃ s', ChecksumList.push jo ((p * c) ..< (q * c)) cs first_write s = (Ok tt, s') ∧ tracks s' ∧
    flushed_offset s' = flushed_offset s ∧
    if bool_decide (jo < flushed_offset s) then s' = s
    else pushed f jo first_write p q (checksum_entries s) (checksum_entries s').
Proof. apply push_ok. Qed.

(** ** Deallocation *)
Section mark.
Context (jo : Z).

(** The chunks [lo..hi] are not in use from [jo] on. *)
Definition marked (lo hi : Z) l l' : Prop := ∀ k jo' x,
  at_ l' k jo' x ↔
  if bool_decide (lo ≤ k < hi) then x.2 = jo ∧ ∃ dep, at_ l k jo' (x.1, dep) else at_ l k jo' x.

Lemma marked_compose lo mid hi l l1 l2 :
  marked lo mid l l1 → marked mid hi l1 l2 → lo ≤ mid ≤ hi → marked lo hi l l2.
Proof.
  intros H1 H2 Hm k jo' x. rewrite (H2 k jo' x). destruct (decide (mid ≤ k < hi)) as [Hk2|Hk2].
  - rewrite !bool_decide_eq_true_2 by lia. setoid_rewrite (H1 k). by rewrite bool_decide_eq_false_2 by lia.
  - rewrite (bool_decide_eq_false_2 (mid ≤ k < hi)) by done. rewrite (H1 k jo' x).
    by rewrite (bool_decide_ext (lo ≤ k < hi) (lo ≤ k < mid)) by lia.
Qed.

Lemma marked_skip lo hi l : (∀ k, lo ≤ k < hi → untracked l k) → marked lo hi l l.
Proof.
  intros Hu k jo' x. case_bool_decide as Hk; [|done].
  split; [intros Hat|intros (_ & dep & Hat)]; by destruct (Hu k Hk _ _ Hat).
Qed.

(** Some of an entry's chunks. *)
Lemma deallocate_ok l i e a lo hi :
  entries_ok l → l !! i = Some e → blocks e a → a ≤ lo → lo ≤ hi → hi ≤ a + Z.of_nat (length (checksums e)) →
  ∃ m', ChecksumList.deallocate jo (lo - a) (hi - a) (checksums e) = Ok m' ∧ length m' = length (checksums e) ∧
    entries_ok (<[i := with_checksums e m']> l) ∧ marked lo hi l (<[i := with_checksums e m']> l).
Proof.
  intros Hok Hi Ha Hlo Hlh Hhi. unfold ChecksumList.deallocate, slice_mut.
  rewrite (proj2 (Z.leb_le _ _)), (proj2 (Z.leb_le _ (Z.of_nat _))) by lia. cbn [andb]. res_simpl.
  eexists. split; [done|]. set (m := checksums e) in *. set (m' := _ ++ _ ++ _).
  assert (m' = imap (λ j x, if bool_decide (lo ≤ a + Z.of_nat j < hi) then (x.1, jo) else x) m) as Hm'.
  { apply list_eq. intros j. rewrite list_lookup_imap. unfold m'.
    assert (length (take (Z.to_nat (lo - a)) m) = Z.to_nat (lo - a)) as Hl1 by (rewrite length_take; lia).
    assert (length (take (Z.to_nat (hi - a - (lo - a))) (drop (Z.to_nat (lo - a)) m)) = Z.to_nat (hi - lo)) as Hl2
      by (rewrite length_take, length_drop; lia).
    case_bool_decide as Hj.
    - rewrite lookup_app_r, lookup_app_l by (rewrite ?length_fmap; lia). rewrite list_lookup_fmap, lookup_take_lt, lookup_drop by lia.
      f_equal. f_equal. lia.
    - rewrite option_fmap_id. destruct (decide (a + Z.of_nat j < lo)).
      + rewrite lookup_app_l by lia. by rewrite lookup_take_lt by lia.
      + rewrite lookup_app_r, lookup_app_r by (rewrite ?length_fmap; lia). rewrite lookup_drop, length_fmap. f_equal. lia. }
  assert (length m' = length m) as Hlen by (by rewrite Hm', length_imap). split; [done|].
  destruct (replace_ok l i e a m' Hok Hi Ha Hlen) as [Hok' Hat'].
  { intros j y Hy. rewrite Hm', list_lookup_imap in Hy. apply fmap_Some in Hy as (x & Hx & ->).
    destruct (eo_unverified l Hok i e x Hi) as [L HL]; [by eapply list_elem_of_lookup_2|]. exists L. by case_bool_decide. }
  split; [done|]. intros k jo' x. rewrite Hat'. case_bool_decide as Hk; [|by fold m in Hk; rewrite bool_decide_eq_false_2 by lia].
  pose proof (λ x, at_known l k jo' x i e a Hok Hi Ha Hk) as Hat. fold m in Hat.
  rewrite Hm', list_lookup_imap. destruct (lookup_lt_is_Some_2 m (Z.to_nat (k - a))) as [y Hy]; [fold m in Hk; lia|].
  rewrite Hy. cbn [fmap option_fmap option_map]. rewrite Z2Nat.id by lia.
  replace (a + (k - a)) with k by lia. case_bool_decide as Hkk; [|by rewrite Hat, Hy].
  destruct x as [x1 x2], y as [y1 y2]. cbn [fst snd]. split.
  - intros [[= -> ->] ?]. split; [done|]. exists y2. by apply Hat.
  - intros (-> & dep & [Hy' ->]%Hat). rewrite Hy in Hy'. by injection Hy' as -> ->.
Qed.

Lemma mark_loop_ok r : ∀ s l p q,
  checksum_entries s = l → entries_ok l → iterates l p r → 0 ≤ p ≤ q → q * c ≤ u64_max →
  ∃ l', ChecksumList.mark_loop jo r ((p * c) ..< (q * c)) s = (Ok tt, with_entries s l') ∧
    entries_ok l' ∧ marked p q l l' ∧ keeps l l' ∧ length l' = length l.
Proof.
  induction r as [|[d i] r IH]; intros s l p q Hs Hok Hit Hpq Hq; cbn [ChecksumList.mark_loop].
  { exists l. split_and!; [by destruct s; cbn in *; subst|done| |apply keeps_refl|done].
    by apply marked_skip, (iterates_end l p q []). }
  destruct (it_sound _ _ _ Hit d i) as (e & Hi & Hd & Hpd); [by left|].
  destruct (eo_blocks l Hok i e Hi) as [a Ha]. st_simpl. rewrite Hs, Hi. st_simpl.
  rewrite (blocks_end _ _ Ha) in *. rewrite (blocks_start _ _ Ha). cbn [start end_].
  destruct (Z.leb_spec (q * c) (a * c)) as [Hle|Hlt].
  { exists l. split_and!; [by destruct s; cbn in *; subst|done| |apply keeps_refl|done].
    apply marked_skip, (iterates_end l p q ((d, i) :: r)); [done..|]. exists e, a. split_and!; [done..|nia]. }
  pose proof (iterates_gap _ _ _ _ _ _ _ Hok Hit Hi Ha) as Hgap.
  set (n := Z.of_nat (length (checksums e))) in *. assert (p < a + n) by nia. assert (a < q) by nia.
  assert (0 < n) by (pose proof Ha as (_ & _ & Hne & _); unfold n; destruct (checksums e); [done|cbn; lia]).
  replace (Range.is_valid _) with true by (symmetry; apply Z.leb_le; rewrite (blocks_start _ _ Ha), (blocks_end _ _ Ha); fold n; nia).
  st_simpl. rewrite u64_div_ok by lia. st_simpl. replace ((a + n) * c - a * c) with (c * n) by lia. rewrite Z.div_mul by lia.
  set (m := Z.max p a).
  assert ((if p * c <? a * c then Ok 0 else u64_div (p * c - a * c) c) = Ok (m - a)) as ->.
  { unfold m. destruct (Z.ltb_spec (p * c) (a * c)); [rewrite Z.max_r by nia; f_equal; lia|].
    rewrite Z.max_l by nia. apply div_blocks. nia. }
  st_simpl. assert (marked p m l l) as Hsk by (apply marked_skip; intros k ?; apply Hgap; lia).
  destruct (Z.leb_spec (q * c) ((a + n) * c)) as [Hlast|Hmore].
  - rewrite div_blocks by lia. st_simpl.
    destruct (deallocate_ok l i e a m q) as (m' & -> & Hlen & Hok' & Hm'); [done..|lia|lia|nia|].
    st_simpl. eexists. split; [done|]. split_and!; [done|eapply (marked_compose p m q); [done..|lia]|by apply keeps_insert|apply length_insert].
  - destruct (deallocate_ok l i e a m (a + n)) as (m' & Hrun & Hlen & Hok' & Hm'); [done..|lia|lia|lia|].
    replace (a + n - a) with n in Hrun by lia. rewrite Hrun. st_simpl. fold (with_checksums e m'). set (l1 := <[i := _]> l) in *.
    change (ChecksumList.set_entries l1 s) with (Ok tt, with_entries s l1). cbn [fst snd].
    destruct (IH (with_entries s l1) l1 (a + n) q) as (l' & -> & Hok2 & Hm2 & Hk2 & Hlen2); [done|done| |nia|done|].
    { eapply iterates_next; [done..|by apply keeps_insert| |lia]. intros j e' Hj He'. apply lookup_lt_Some in He'.
      unfold l1 in He'. rewrite length_insert in He'. lia. }
    exists l'. split_and!; [done|done| | |by rewrite Hlen2; apply length_insert].
    + eapply (marked_compose p (a + n) q); [eapply (marked_compose p m (a + n)); [done..|lia]|done|nia].
    + eapply keeps_trans; [by apply keeps_insert|done].
Qed.
End mark.

(** Marking the chunks [p..q] as deallocated: those of them that are
    tracked depend on this journal offset from now on; nothing else changes, and
    the list stays sound. Offsets that have been flushed are ignored. *)
Theorem checksum_mark_deallocated s jo p q :
  tracks s → 0 ≤ p < q → q * c ≤ u64_max →
  ∃ s', ChecksumList.mark_deallocated jo ((p * c) ..< (q * c)) s = (Ok tt, s') ∧ tracks s' ∧
    flushed_offset s' = flushed_offset s ∧
    if bool_decide (jo < flushed_offset s) then s' = s
    else marked jo p q (checksum_entries s) (checksum_entries s').
Proof.
  intros Htr Hpq Hq. unfold ChecksumList.mark_deallocated. st_simpl.
  case_bool_decide as Hfl; [by rewrite (proj2 (Z.ltb_lt _ _)) by done; exists s|].
  rewrite (proj2 (Z.ltb_ge _ _)) by lia. st_simpl. cbn [start]. rewrite u64_add_ok by nia. st_simpl.
  destruct (mark_loop_ok jo (bt_range_from (device_offset_to_checksum_entry s) (p * c + 1)) s (checksum_entries s) p q)
    as (l' & -> & Hok' & Hm & Hk & Hlen); [done|apply Htr|by apply tracks_iterates|lia|done|].
  eexists. split; [done|]. split; [|done]. apply (list_tracks_added s jo l' []); try done.
  - intros Hne. apply (tr_chunk s Htr). intros Hnil. apply Hne, nil_length_inv. by rewrite Hlen, Hnil.
  - by apply added_nil.
Qed.

(** ** Verification *)
Lemma sorted_lookup {A} (R : relation A) (m : list A) :
  (∀ i j (x y : A), (i < j)%nat → m !! i = Some x → m !! j = Some y → R x y) → StronglySorted R m.
Proof.
  induction m as [|x m IH]; intros H; constructor.
  - apply IH. intros i j y z Hij Hy Hz. by apply (H (S i) (S j)); [lia|..].
  - apply Forall_lookup. intros j y Hy. by apply (H 0%nat (S j)); [lia|..].
Qed.

Section verify.
Context (read : Z → Z → res (list Z)).

(** The chunks written before [j] that are still in use there hold something
    that was written to them. *)
Definition chunks_safe l j : Prop := ∀ k jo L dep,
  at_ l k jo (Unverified L, dep) → jo < j → j ≤ dep → ∃ d, digest read (k * c) c = Ok d ∧ d ∈ L.

Lemma all_good_iff j m : ∀ a,
  all_good read j (a * c) c m ↔
  ∀ n x, m !! n = Some x → j ≤ x.2 → good read ((a + Z.of_nat n) * c) c x.1.
Proof.
  induction m as [|x m IH]; intros a; cbn [all_good]; [done|].
  replace (a * c + c) with ((a + 1) * c) by lia. rewrite IH. split.
  - intros [Hx Hm] [|n] y Hy; cbn in Hy.
    + injection Hy as <-. by replace (a + Z.of_nat 0) with a by lia.
    + replace (a + Z.of_nat (S n)) with (a + 1 + Z.of_nat n) by lia. by apply Hm.
  - intros H. split; [specialize (H 0%nat x eq_refl); by replace (a + Z.of_nat 0) with a in H by lia|].
    intros n y Hy. specialize (H (S n) y Hy). by replace (a + Z.of_nat (S n)) with (a + 1 + Z.of_nat n) in H by lia.
Qed.

Lemma blocks_csize e a : blocks e a → csize e = c.
Proof.
  intros (Hr & _ & Hne & _). unfold csize. rewrite Hr. cbn [start end_].
  assert (0 < Z.of_nat (length (checksums e))) by (destruct (checksums e); [done|cbn; lia]).
  replace ((a + Z.of_nat (length (checksums e))) * c - a * c) with (c * Z.of_nat (length (checksums e))) by lia.
  by rewrite Z.div_mul by lia.
Qed.

Lemma safe_iff l j : entries_ok l → safe read l j ↔ chunks_safe l j.
Proof.
  intros Hok. unfold safe. rewrite Forall_lookup. split.
  - intros Hs k jo L dep (i & e & a & Hi & Ha & Hk & Hx & <-) Hlt Hd.
    specialize (Hs i e Hi Hlt). rewrite (blocks_csize _ _ Ha), (blocks_start _ _ Ha), all_good_iff in Hs.
    specialize (Hs _ _ Hx Hd). rewrite Z2Nat.id in Hs by lia. by replace (a + (k - a)) with k in Hs by lia.
  - intros Hs i e Hi Hlt. destruct (eo_blocks l Hok i e Hi) as [a Ha].
    rewrite (blocks_csize _ _ Ha), (blocks_start _ _ Ha), all_good_iff. intros n [x dep] Hx Hd.
    destruct (eo_unverified l Hok i e (x, dep) Hi) as [L HL]; [by eapply list_elem_of_lookup_2|].
    cbn [fst snd] in *. subst x. apply (Hs (a + Z.of_nat n) (start_journal_offset e) L dep); [|done|done].
    exists i, e, a. split_and!; [done..|lia| |done]. by replace (Z.to_nat (a + Z.of_nat n - a)) with n by lia.
Qed.

(** C40: [verify] returns the largest journal offset, up to the one asked for,
    that it is safe to replay to: every chunk that was written before it and is
    still in use there holds one of the values written to it. *)
Theorem checksum_verify s jo :
  tracks s → (∀ k jo' x, at_ (checksum_entries s) k jo' x → ∃ d, digest read (k * c) c = Ok d) →
  ∃ j s', ChecksumList.verify read jo s = (Ok j, s') ∧ j ≤ jo ∧ chunks_safe (checksum_entries s) j ∧
    ∀ j', j < j' ≤ jo → ¬ chunks_safe (checksum_entries s) j'.
Proof.
  intros [Hok _ Hsrt Hch] Hrd. destruct (verify_spec read s jo) as (j & s' & Hrun & Hj & Hsf & Hmax).
  - apply sorted_lookup. intros i i' e e' Hlt. apply Hsrt. lia.
  - apply Forall_lookup. intros i e Hi. destruct (eo_blocks _ Hok i e Hi) as [a Ha].
    pose proof Ha as (_ & Ha0 & Hne & Hu). unfold readable. rewrite (blocks_csize _ _ Ha), (blocks_start _ _ Ha), (blocks_end _ _ Ha).
    assert (c ≤ max_chunk_size s) by (apply Hch; intros Hnil; by rewrite Hnil in Hi).
    split; [nia|]. split; [lia|]. split; [done|]. split; [lia|]. split; [done|]. intros k Hk.
    replace (a * c + k * c) with ((a + k) * c) by lia.
    destruct (lookup_lt_is_Some_2 (checksums e) (Z.to_nat k)) as [x Hx]; [lia|].
    apply (Hrd (a + k) (start_journal_offset e) x). apply (at_known _ _ _ _ i e a Hok Hi Ha); [lia|].
    by replace (a + k - a) with k by lia.
  - exists j, s'. split_and!; [done..|by apply safe_iff|]. intros j' Hj' Hs'. apply (Hmax j' Hj'). by apply safe_iff.
Qed.
End verify.

(** An empty list. *)
Lemma tracks_new n : tracks (ChecksumList.new n).
Proof.
  split; cbn [ChecksumList.new checksum_entries device_offset_to_checksum_entry]; [split; intros *; by rewrite lookup_nil| |intros *; by rewrite lookup_nil|done].
  intros d i. unfold ends_at. split; [by rewrite lookup_empty|]. intros (e & He & _). by rewrite lookup_nil in He.
Qed.
End entries.

(** ** Examples *)
Module Demo.
(** Chunks 1 and 2 of four bytes have been pushed at offset 10. *)
Definition pushed_once : ChecksumList :=
  Eval vm_compute in (ChecksumList.push 10 (4 ..< 12) [0; 8] true (ChecksumList.new 5)).2.

Lemma tracks_pushed_once : tracks 4 pushed_once.
Proof.
  destruct (push_ok 4 ltac:(lia) (λ k, if k =? 1 then 0 else 8) (ChecksumList.new 5) 10 1 3 [0; 8] true)
    as (s' & Hrun & Htr & _); [apply tracks_new|by intros e ?%elem_of_nil|lia|by vm_compute| |].
  - split; [done|]. intros k Hk. assert (k = 1 ∨ k = 2) as [->| ->] by lia; done.
  - vm_compute in Hrun. injection Hrun as <-. exact Htr.
Qed.

Lemma checksum_push_witness :
  ∃ s', ChecksumList.push 20 ((0 * 4) ..< (4 * 4)) [0; 1; 2; 3] true pushed_once = (Ok tt, s') ∧ tracks 4 s' ∧
    flushed_offset s' = 5 ∧ pushed 4 (λ k, k) 20 true 0 4 (checksum_entries pushed_once) (checksum_entries s').
Proof.
  apply (checksum_push 4 ltac:(lia) (λ k, k) pushed_once 20 0 4 [0; 1; 2; 3] true).
  - apply tracks_pushed_once.
  - intros e ->%list_elem_of_singleton. by vm_compute.
  - lia.
  - by vm_compute.
  - split; [done|]. intros k Hk. assert (k = 0 ∨ k = 1 ∨ k = 2 ∨ k = 3) as [->|[->|[->| ->]]] by lia; done.
Defined.

Lemma checksum_mark_witness :
  ∃ s', ChecksumList.mark_deallocated 30 ((0 * 4) ..< (2 * 4)) pushed_once = (Ok tt, s') ∧ tracks 4 s' ∧
    flushed_offset s' = 5 ∧ marked 4 30 0 2 (checksum_entries pushed_once) (checksum_entries s').
Proof.
  apply (checksum_mark_deallocated 4 ltac:(lia) pushed_once 30 0 2); [apply tracks_pushed_once|lia|by vm_compute].
Defined.

(** A device of zeros: chunk 1 is good, chunk 2 is not. *)
Definition zeros (off n : Z) : res (list Z) := Ok (replicate (Z.to_nat n) 0).

Lemma checksum_verify_witness :
  ∃ j s', ChecksumList.verify zeros 40 pushed_once = (Ok j, s') ∧ j ≤ 40 ∧
    chunks_safe 4 zeros (checksum_entries pushed_once) j ∧
    ∀ j', j < j' ≤ 40 → ¬ chunks_safe 4 zeros (checksum_entries pushed_once) j'.
Proof.
  apply (checksum_verify 4 ltac:(lia) zeros pushed_once 40); [apply tracks_pushed_once|].
  intros k jo x _. exists 0. by vm_compute.
Defined.

Lemma verify_demo : (ChecksumList.verify zeros 40 pushed_once).1 = Ok 10.
Proof. by vm_compute. Qed.
End Demo.
