(* ===== verification/Journal.v ===== *)
(** * The journal's blocks

    [JournalWriter] of [journal/writer.rs] and [JournalReader] of
    [journal/reader.rs]: records are written one after the other into blocks
    that end with a checksum, which is seeded with the one of the block before.

    A record type is given by the byte strings it is serialized as and by its
    deserializer; the file that is read is a parameter too. *)

From S2P Require Import Prelude Bytes Checksum.

Definition BLOCK_SIZE : Z := 4096.
Definition RESET_XOR : Z := 18446744073709551615.
(** [size_of::<Checksum>()]. *)
Definition checksum_size : Z := 8.

(** ** Versions and checkpoints *)
Record Version := mkVersion { major : Z; minor : Z }.

#[global] Instance Version_eq_dec : EqDecision Version.
Proof. solve_decision. Defined.

Definition LATEST_VERSION : Version := mkVersion 45 0.

Record JournalCheckpoint := mkCheckpoint { file_offset : Z; checksum : Z; version : Version }.

(** An error of a deserializer: whether it is an [UnexpectedEof] of the reader. *)
Inductive decoded (T : Type) : Type :=
| Decoded (record : T) (consumed : Z)
| DecodeError (unexpected_eof : bool).
Arguments Decoded {_} _ _.
Arguments DecodeError {_} _.

Module Version.
Definition deserialize_from (buf : list Z) : decoded Version :=
  if 4 <=? Z.of_nat (length buf) then
    Decoded (mkVersion (le_combine (take 3 buf)) (le_combine (take 1 (drop 3 buf)))) 4
  else DecodeError true.

(** The pieces that are written. *)
Definition serialize_into (v : Version) : list (list Z) := [le_split 3 (major v); le_split 1 (minor v)].
End Version.

(** ** Slices *)
Definition slice (l : list Z) (a b : Z) : res (list Z) :=
  if (0 <=? a) && (a <=? b) && (b <=? Z.of_nat (length l))
  then Ok (take (Z.to_nat (b - a)) (drop (Z.to_nat a) l)) else Panic.

(** [copy_within(a..b, 0)]. *)
Definition copy_within (l : list Z) (a b : Z) : res (list Z) :=
  s ← slice l a b; Ok (s ++ drop (Z.to_nat (b - a)) l).

(** [resize(n, 0)]. *)
Definition resize (l : list Z) (n : Z) : list Z :=
  take (Z.to_nat n) l ++ replicate (Z.to_nat n - length l) 0.

(** ** Writing *)
Record JournalWriter := mkWriter {
  block_size : Z;
  checkpoint : JournalCheckpoint;
  last_checksum : Z;
  buf : list Z;
}.

Module JournalWriter.
Definition new (block_size last_checksum : Z) : JournalWriter :=
  mkWriter block_size (mkCheckpoint 0 0 LATEST_VERSION) last_checksum [].

Definition set_buf (b : list Z) : st JournalWriter unit := λ w,
  (Ok tt, mkWriter (block_size w) (checkpoint w) (last_checksum w) b).
Definition set_last_checksum (c : Z) : st JournalWriter unit := λ w,
  (Ok tt, mkWriter (block_size w) (checkpoint w) c (buf w)).
Definition set_checkpoint (c : JournalCheckpoint) : st JournalWriter unit := λ w,
  (Ok tt, mkWriter (block_size w) c (last_checksum w) (buf w)).

(** The [while] of [write]: what is left to copy. *)
Fixpoint write_loop (fuel : nat) (rest : list Z) : st JournalWriter unit :=
  match rest with
  | [] => mret tt
  | _ =>
      match fuel with
      | O => st_lift NoFuel
      | S fuel =>
          w ← st_get;
          space ← st_lift (u64_sub (block_size w) checksum_size);
          used ← st_lift (u64_rem (Z.of_nat (length (buf w))) (block_size w));
          space ← st_lift (u64_sub space used);
          let to_copy := Z.min space (Z.of_nat (length rest)) in
          _ ← set_buf (buf w ++ take (Z.to_nat to_copy) rest);
          _ ← (if to_copy =? space then
                 w ← st_get;
                 let e := Z.of_nat (length (buf w)) in
                 s ← st_lift (u64_sub (e + checksum_size) (block_size w));
                 block ← st_lift (slice (buf w) s e);
                 c ← st_lift (fletcher64 block (last_checksum w));
                 _ ← set_last_checksum c;
                 set_buf (buf w ++ le_split 8 c)
               else mret tt);
          write_loop fuel (drop (Z.to_nat to_copy) rest)
      end
  end.

Definition write (b : list Z) : st JournalWriter Z :=
  _ ← write_loop (length b) b; mret (Z.of_nat (length b)).

(** [Write::write_all]: [write] never stops short. *)
Definition write_all (b : list Z) : st JournalWriter unit :=
  match b with [] => mret tt | _ => _ ← write b; mret tt end.

(** [serialize_into] writes the pieces of the record. *)
Definition write_record (pieces : list (list Z)) : st JournalWriter unit :=
  w ← st_get;
  let buf_len := Z.of_nat (length (buf w)) in
  _ ← st_for pieces write_all;
  w ← st_get;
  n ← st_lift (u64_sub (Z.of_nat (length (buf w))) buf_len);
  if n <=? block_size w then mret tt else st_fail Other.

Definition pad_to_block : st JournalWriter unit :=
  w ← st_get;
  align ← st_lift (u64_rem (Z.of_nat (length (buf w))) (block_size w));
  if 0 <? align then
    n ← st_lift (u64_sub (block_size w) checksum_size);
    n ← st_lift (u64_sub n align);
    write_all (replicate (Z.to_nat n) 0)
  else mret tt.

Definition journal_file_checkpoint (w : JournalWriter) : res JournalCheckpoint :=
  o ← u64_add (file_offset (checkpoint w)) (Z.of_nat (length (buf w)));
  Ok (mkCheckpoint o (last_checksum w) (version (checkpoint w))).

Definition flushable_bytes (w : JournalWriter) : res Z :=
  r ← u64_rem (Z.of_nat (length (buf w))) (block_size w);
  u64_sub (Z.of_nat (length (buf w))) r.

(** Fills a buffer of [len] bytes: where it goes in the file, and the bytes. *)
Definition take_flushable (len : Z) : st JournalWriter (Z * list Z) :=
  w ← st_get;
  n ← st_lift (flushable_bytes w);
  _ ← st_lift (rassert (len <=? n));
  r ← st_lift (u64_rem len (block_size w));
  _ ← st_lift (rassert (r =? 0));
  bytes ← st_lift (slice (buf w) 0 len);
  let offset := file_offset (checkpoint w) in
  _ ← set_buf (drop (Z.to_nat len) (buf w));
  o ← st_lift (u64_add offset len);
  _ ← set_checkpoint (mkCheckpoint o (last_checksum w) (version (checkpoint w)));
  mret (offset, bytes).

Definition seek (c : JournalCheckpoint) : st JournalWriter unit :=
  w ← st_get;
  _ ← st_lift (rassert (bool_decide (buf w = [])));
  r ← st_lift (u64_rem (file_offset c) (block_size w));
  _ ← st_lift (rassert (r =? 0));
  _ ← set_checkpoint c;
  set_last_checksum (checksum c).
End JournalWriter.

(** ** Reading *)
Record JournalReader := mkReader {
  rbuf : list Z;
  buf_start : Z;
  buf_end : Z;
  read_offset : Z;
  buf_file_offset : Z;
  checksums : list Z;
  rversion : Version;
  bad_checksum : bool;
  found_reset : bool;
  first_read : bool;
  eof_ok : bool;
}.

Inductive ChecksumResult : Type := CkOk | CkReset | CkBad.

Definition verify_checksum (contents : list Z) (stored_checksum last_read_checksum : Z) (allow_reset : bool)
    : res ChecksumResult :=
  c ← fletcher64 contents last_read_checksum;
  if stored_checksum =? c then Ok CkOk
  else if allow_reset then
    c ← fletcher64 contents (Z.lxor last_read_checksum RESET_XOR);
    Ok (if stored_checksum =? c then CkReset else CkBad)
  else Ok CkBad.

Inductive ReadResult (T : Type) : Type :=
| Reset (v : Version)
| RSome (record : T)
| ChecksumMismatch.
Arguments Reset {_} _.
Arguments RSome {_} _.
Arguments ChecksumMismatch {_}.

Module JournalReader.
Definition new (c : JournalCheckpoint) : JournalReader :=
  mkReader [] 0 0 (file_offset c - file_offset c `mod` BLOCK_SIZE) (file_offset c) [checksum c] (version c)
    false false true false.

Definition journal_file_checkpoint (r : JournalReader) : res JournalCheckpoint :=
  c ← unwrap (checksums r !! 0%nat);
  Ok (mkCheckpoint (buf_file_offset r) c (rversion r)).

Definition last_read_checksum (r : JournalReader) : res Z := unwrap (last (checksums r)).

Definition modify (f : JournalReader → JournalReader) : st JournalReader unit := λ r, (Ok tt, f r).

Definition set_version (v : Version) : st JournalReader unit :=
  modify (λ r, mkReader (rbuf r) (buf_start r) (buf_end r) (read_offset r) (buf_file_offset r) (checksums r) v
    false (found_reset r) (first_read r) (eof_ok r)).

Definition set_eof_ok : st JournalReader unit :=
  modify (λ r, mkReader (rbuf r) (buf_start r) (buf_end r) (read_offset r) (buf_file_offset r) (checksums r)
    (rversion r) (bad_checksum r) (found_reset r) (first_read r) true).

Definition set_buffer (b : list Z) (s e : Z) : st JournalReader unit :=
  modify (λ r, mkReader b s e (read_offset r) (buf_file_offset r) (checksums r) (rversion r) (bad_checksum r)
    (found_reset r) (first_read r) (eof_ok r)).
Definition set_position (o : Z) (cs : list Z) : st JournalReader unit :=
  modify (λ r, mkReader (rbuf r) (buf_start r) (buf_end r) (read_offset r) o cs (rversion r) (bad_checksum r)
    (found_reset r) (first_read r) (eof_ok r)).
Definition set_read (o : Z) (cs : list Z) (first : bool) : st JournalReader unit :=
  modify (λ r, mkReader (rbuf r) (buf_start r) (buf_end r) o (buf_file_offset r) cs (rversion r) (bad_checksum r)
    (found_reset r) first (eof_ok r)).
Definition set_flags (v : Version) (bad reset : bool) : st JournalReader unit :=
  modify (λ r, mkReader (rbuf r) (buf_start r) (buf_end r) (read_offset r) (buf_file_offset r) (checksums r) v bad
    reset (first_read r) (eof_ok r)).

Definition buffer (r : JournalReader) : res (list Z) := slice (rbuf r) (buf_start r) (buf_end r).

Definition consume (amount : Z) : st JournalReader unit :=
  r ← st_get;
  _ ← st_lift (rassert (amount <? BLOCK_SIZE));
  let block_offset_before := buf_file_offset r `mod` BLOCK_SIZE in
  o ← st_lift (u64_add (buf_file_offset r) amount);
  _ ← (if BLOCK_SIZE - checksum_size <=? block_offset_before + amount then
         o ← st_lift (u64_add o checksum_size);
         match checksums r with
         | [] => st_lift Panic
         | _ :: cs => set_position o cs
         end
       else set_position o (checksums r));
  set_buffer (rbuf r) (buf_start r + amount) (buf_end r).

Definition skip_to_end_of_block : st JournalReader unit :=
  r ← st_get;
  let block_offset := buf_file_offset r `mod` BLOCK_SIZE in
  if 0 <? block_offset then
    n ← st_lift (u64_sub (BLOCK_SIZE - block_offset) checksum_size);
    consume n
  else mret tt.

Section read.
(** [ReadObjectHandle::read]: the bytes of the file at an offset, as many as
    there are and fit. *)
Context (read : Z → Z → res (list Z)).

(** The body of the [while] of [fill_buf]: whether to go on. *)
Definition fill_step : st JournalReader bool :=
  r ← st_get;
  _ ← set_buffer (resize (rbuf r) (buf_end r + BLOCK_SIZE)) (buf_start r) (buf_end r);
  last_read_checksum ← st_lift (last_read_checksum r);
  _ ← st_lift (rassert (read_offset r `mod` BLOCK_SIZE =? 0));
  block ← st_lift (read (read_offset r) BLOCK_SIZE);
  if negb (Z.of_nat (length block) =? BLOCK_SIZE) then
    if eof_ok r then mret false else st_fail Other
  else
    let b := take (Z.to_nat (buf_end r)) (resize (rbuf r) (buf_end r + BLOCK_SIZE)) ++ block in
    _ ← set_buffer b (buf_start r) (buf_end r);
    let contents := take (Z.to_nat (BLOCK_SIZE - checksum_size)) block in
    let stored_checksum := le_combine (drop (Z.to_nat (BLOCK_SIZE - checksum_size)) block) in
    result ← st_lift (verify_checksum contents stored_checksum last_read_checksum (negb (first_read r)));
    match result with
    | CkReset =>
        _ ← set_flags (rversion r) (bad_checksum r) true;
        o ← st_lift (u64_add (read_offset r) BLOCK_SIZE);
        _ ← set_read o (alter (λ c, Z.lxor c RESET_XOR) (pred (length (checksums r))) (checksums r) ++ [stored_checksum])
              (first_read r);
        mret false
    | CkBad => _ ← set_flags (rversion r) true (found_reset r); mret false
    | CkOk =>
        let e := Z.of_nat (length b) - checksum_size in
        _ ← (if read_offset r <? buf_file_offset r then
               _ ← st_lift (rassert (buf_start r =? 0));
               set_buffer b (buf_file_offset r - read_offset r) e
             else set_buffer b (buf_start r) e);
        o ← st_lift (u64_add (read_offset r) BLOCK_SIZE);
        _ ← set_read o (checksums r ++ [stored_checksum]) false;
        mret true
    end.

Fixpoint fill_loop (fuel : nat) : st JournalReader unit :=
  match fuel with
  | O => st_lift NoFuel
  | S fuel =>
      r ← st_get;
      n ← st_lift (u64_sub (buf_end r) (buf_start r));
      if n <? BLOCK_SIZE - checksum_size then
        more ← fill_step;
        if (more : bool) then fill_loop fuel else mret tt
      else mret tt
  end.

(** Two blocks are enough to fill the buffer, and the loop ends after them. *)
Definition fill_buf : st JournalReader unit :=
  r ← st_get;
  if found_reset r || bad_checksum r then mret tt
  else
    n ← st_lift (u64_sub (buf_end r) (buf_start r));
    if BLOCK_SIZE - checksum_size <=? n then mret tt
    else
      b ← st_lift (copy_within (rbuf r) (buf_start r) (buf_end r));
      _ ← set_buffer b 0 n;
      fill_loop 3.

Section record.
(** The type of records, and [deserialize_from_version]. *)
Context {T : Type} (deserialize_from_version : list Z → Version → decoded T).

Definition deserialize : st JournalReader (ReadResult T) :=
  _ ← fill_buf;
  r ← st_get;
  b ← st_lift (buffer r);
  match deserialize_from_version b (rversion r) with
  | Decoded record consumed => _ ← consume consumed; mret (RSome record)
  | DecodeError eof =>
      if found_reset r then
        _ ← set_flags (rversion r) (bad_checksum r) false;
        n ← st_lift (u64_sub (buf_end r) (buf_start r));
        _ ← consume n;
        r ← st_get;
        e ← st_lift (u64_sub (Z.of_nat (length (rbuf r))) checksum_size);
        _ ← set_buffer (rbuf r) (buf_end r) e;
        r ← st_get;
        b ← st_lift (buffer r);
        match Version.deserialize_from b with
        | Decoded v to_consume =>
            _ ← set_flags v (bad_checksum r) (found_reset r);
            _ ← consume to_consume;
            mret (Reset v)
        | DecodeError _ => st_fail Other
        end
      else if eof && bad_checksum r then mret ChecksumMismatch
      else st_fail Other
  end.
End record.
End read.
End JournalReader.
