(* ===== verification/JournalBlocks.v ===== *)
(** * What the journal writer writes

    The blocks that a stream of bytes is cut into, and that [JournalWriter]
    produces them however the stream is handed to it. *)

From S2P Require Import Prelude Bytes Checksum Journal.

#[global] Opaque BLOCK_SIZE.

(** The bytes of a block before its checksum. *)
Definition payload : nat := Z.to_nat (BLOCK_SIZE - checksum_size).

Lemma block_size_facts : BLOCK_SIZE = Z.of_nat payload + 8 ∧ (0 < payload)%nat ∧
  Z.of_nat payload `mod` 4 = 0 ∧ BLOCK_SIZE ≤ u64_max.
Proof.
  assert (BLOCK_SIZE = 4096) as Hb by (by vm_compute). unfold payload. rewrite Hb. change (4096 - checksum_size) with 4088.
  rewrite Z2Nat.id by lia. split_and!; [done|lia|done|by vm_compute].
Qed.
#[global] Opaque payload.

Lemma block_size_eq : (payload = 4088)%nat.
Proof. destruct block_size_facts as (Hbs & _). assert (BLOCK_SIZE = 4096) by by vm_compute. lia. Qed.

Lemma block_nat : Z.to_nat BLOCK_SIZE = (payload + 8)%nat.
Proof. destruct block_size_facts as [-> _]. lia. Qed.
Lemma payload_nat : Z.to_nat (BLOCK_SIZE - checksum_size) = payload.
Proof. destruct block_size_facts as [-> _]. unfold checksum_size. lia. Qed.

(** ** Blocks *)
Definition full (b : list Z) : Prop := length b = payload.
Definition digest (b : list Z) (seed : Z) : Z := match fletcher64 b seed with Ok c => c | _ => 0 end.

(** The checksum after the given blocks. *)
Definition chain (seed : Z) (bl : list (list Z)) : Z := foldl (λ c b, digest b c) seed bl.

Fixpoint encode (seed : Z) (bl : list (list Z)) : list Z :=
  match bl with
  | [] => []
  | b :: bl => b ++ le_split 8 (digest b seed) ++ encode (digest b seed) bl
  end.

Lemma digest_ok b seed : full b → fletcher64 b seed = Ok (digest b seed) ∧ 0 ≤ digest b seed < 256 ^ 8.
Proof.
  intros Hb. unfold digest. rewrite fletcher64_eq by (rewrite Hb; apply block_size_facts). split; [done|].
  destruct (unpack_u32 seed) as [H1 H2].
  destruct (fletcher_words_u32 (words b) (unpack seed).1 (unpack seed).2 H1 H2) as [H3 H4].
  rewrite (surjective_pairing (fletcher_words _ _ _)), pack_eq by done. unfold is_u32, u32_modulus in *. lia.
Qed.

Lemma encode_app seed bl1 bl2 : encode seed (bl1 ++ bl2) = encode seed bl1 ++ encode (chain seed bl1) bl2.
Proof. revert seed. induction bl1 as [|b bl1 IH]; intros seed; cbn; [done|]. by rewrite IH, <- !app_assoc. Qed.

Lemma length_encode seed bl : Forall full bl → length (encode seed bl) = (length bl * (payload + 8))%nat.
Proof.
  intros Hf. revert seed. induction Hf as [|b bl Hb _ IH]; intros seed; cbn [encode length]; [done|].
  rewrite !length_app, length_le_split, IH. unfold full in Hb. lia.
Qed.

Lemma chain_app seed bl1 bl2 : chain seed (bl1 ++ bl2) = chain (chain seed bl1) bl2.
Proof. apply foldl_app. Qed.

(** ** The writer *)
Ltac jw_simpl :=
  repeat (rewrite st_bind_run; cbn [mret st_ret st_get st_put st_lift st_fail unwrap JournalWriter.set_buf
    JournalWriter.set_last_checksum JournalWriter.set_checkpoint buf block_size last_checksum checkpoint]);
  cbn [mret st_ret st_get st_put st_lift st_fail unwrap JournalWriter.set_buf
    JournalWriter.set_last_checksum JournalWriter.set_checkpoint buf block_size last_checksum checkpoint].

(** The writer has written the blocks [bl] and the bytes [part] of the next. *)
Record writes (w : JournalWriter) (seed : Z) (bl : list (list Z)) (part : list Z) : Prop := {
  wr_size : block_size w = BLOCK_SIZE;
  wr_full : Forall full bl;
  wr_part : (length part < payload)%nat;
  wr_buf : buf w = encode seed bl ++ part;
  wr_checksum : last_checksum w = chain seed bl;
}.

Lemma writes_length w seed bl part : writes w seed bl part →
  Z.of_nat (length (buf w)) = Z.of_nat (length bl) * BLOCK_SIZE + Z.of_nat (length part) ∧
  Z.of_nat (length (buf w)) `mod` BLOCK_SIZE = Z.of_nat (length part).
Proof.
  intros [_ Hf Hp Hb _]. destruct block_size_facts as (Hbs & Hpos & _ & _).
  assert (Z.of_nat (length (buf w)) = Z.of_nat (length bl) * BLOCK_SIZE + Z.of_nat (length part)) as Hl.
  { rewrite Hb, length_app, length_encode by done. rewrite Hbs. lia. }
  split; [done|]. rewrite Hl, Z.add_comm, Z.mod_add by lia. apply Z.mod_small. lia.
Qed.

(** Extends the stream by [d], keeping to what is not its buffer. *)
Definition extends (w w' : JournalWriter) (seed : Z) (bl : list (list Z)) (part d : list Z) : Prop :=
  ∃ bl' part', writes w' seed (bl ++ bl') part' ∧ part ++ d = concat bl' ++ part' ∧ checkpoint w' = checkpoint w.

Lemma slice_ok l a n : (a + n ≤ length l)%nat →
  slice l (Z.of_nat a) (Z.of_nat (a + n)) = Ok (take n (drop a l)).
Proof.
  intros Hl. unfold slice. rewrite !(proj2 (Z.leb_le _ _)) by lia. cbn [andb]. f_equal.
  rewrite Nat2Z.id. f_equal. lia.
Qed.

Lemma slice_within (l : list Z) (s e : nat) : (s ≤ e ≤ length l)%nat →
  slice l (Z.of_nat s) (Z.of_nat e) = Ok (take (e - s) (drop s l)).
Proof. intros Hse. replace e with (s + (e - s))%nat at 1 by lia. apply slice_ok. lia. Qed.

Lemma write_loop_ok fuel : ∀ w seed bl part d, writes w seed bl part → (length d ≤ fuel)%nat →
  ∃ w', JournalWriter.write_loop fuel d w = (Ok tt, w') ∧ extends w w' seed bl part d.
Proof.
  destruct block_size_facts as (Hbs & Hpos & _ & Hmax).
  induction fuel as [|fuel IH]; intros w seed bl part d Hw Hd; destruct d as [|x d]; cbn [JournalWriter.write_loop];
    try (cbn in Hd; lia); try (exists w; split; [done|]; exists [], part; rewrite !app_nil_r; by split_and!).
  set (d0 := x :: d) in *. destruct (writes_length _ _ _ _ Hw) as [Hlen Hmod]. pose proof Hw as [Hsz Hf Hp Hb Hc].
  jw_simpl. rewrite Hsz. rewrite u64_sub_ok by (unfold checksum_size; lia). jw_simpl.
  rewrite u64_rem_ok by lia. jw_simpl. rewrite Hmod. rewrite u64_sub_ok by (unfold checksum_size; lia). jw_simpl.
  set (space := BLOCK_SIZE - checksum_size - Z.of_nat (length part)).
  assert (space = Z.of_nat (payload - length part)) as Hspace by (unfold space, checksum_size; lia).
  destruct (decide (Z.of_nat (length d0) < space)) as [Hfit|Hfill].
  - rewrite Z.min_r by lia. rewrite (proj2 (Z.eqb_neq _ _)) by lia. rewrite Nat2Z.id. jw_simpl.
    rewrite (firstn_all d0), (skipn_all d0). destruct fuel; (eexists; split; [done|]; exists [], (part ++ d0); rewrite app_nil_r;
      (split_and!; [split; cbn; [done|done|rewrite length_app; lia|by rewrite Hb, <- app_assoc|done]|done|done])).
  - rewrite Z.min_l by lia. rewrite Z.eqb_refl. set (m := (payload - length part)%nat) in *.
    replace (Z.to_nat space) with m by lia. jw_simpl.
    set (blk := part ++ take m d0).
    assert (full blk) as Hblk by (unfold full, blk; rewrite length_app, length_take; lia).
    assert (buf w ++ take m d0 = encode seed bl ++ blk) as -> by (by rewrite Hb, <- app_assoc).
    rewrite ?Hsz, length_app, (length_encode _ _ Hf), Hblk.
    rewrite u64_sub_ok by (unfold checksum_size; lia). jw_simpl.
    replace (Z.of_nat (length bl * (payload + 8) + payload) + checksum_size - BLOCK_SIZE)
      with (Z.of_nat (length (encode seed bl))) by (rewrite (length_encode _ _ Hf); unfold checksum_size; lia).
    rewrite <- (length_encode seed _ Hf). rewrite slice_ok by (rewrite length_app, Hblk; lia). jw_simpl.
    rewrite drop_app_length, take_ge by (rewrite Hblk; lia). rewrite Hc.
    destruct (digest_ok blk (chain seed bl) Hblk) as [-> _]. jw_simpl.
    edestruct (IH (mkWriter BLOCK_SIZE (checkpoint w) (digest blk (chain seed bl))
      ((encode seed bl ++ blk) ++ le_split 8 (digest blk (chain seed bl)))) seed (bl ++ [blk]) [] (drop m d0))
      as (w' & Hrun & bl' & part' & Hw' & Hst & Hcp).
    + split; cbn; [done|apply Forall_app; by split; [|constructor]|lia| |by rewrite chain_app].
      rewrite encode_app. cbn. by rewrite !app_nil_r, <- !app_assoc.
    + rewrite length_drop. cbn in Hd |- *. lia.
    + exists w'. split; [exact Hrun|]. exists (blk :: bl'), part'.
      split_and!; [by rewrite <- app_assoc in Hw'| |done]. cbn. rewrite <- app_assoc. cbn in Hst. rewrite <- Hst.
      unfold blk. by rewrite <- app_assoc, take_drop.
Qed.

Lemma extends_refl w seed bl part : writes w seed bl part → extends w w seed bl part [].
Proof. intros Hw. exists [], part. rewrite !app_nil_r. by split_and!. Qed.

Lemma concat_full bl : Forall full bl → length (concat bl) = (length bl * payload)%nat.
Proof. induction 1 as [|b bl Hb _ IH]; cbn; [done|]. rewrite length_app, IH. unfold full in Hb. lia. Qed.

Lemma write_all_ok w seed bl part d : writes w seed bl part →
  ∃ w', JournalWriter.write_all d w = (Ok tt, w') ∧ extends w w' seed bl part d.
Proof.
  intros Hw. destruct d as [|x d]; [exists w; split; [done|]; by apply extends_refl|].
  destruct (write_loop_ok (length (x :: d)) w seed bl part (x :: d) Hw (le_n _)) as (w' & Hrun & Hex).
  exists w'. split; [|done]. unfold JournalWriter.write_all, JournalWriter.write. jw_simpl. by rewrite Hrun.
Qed.

Lemma extends_trans w1 w2 w3 seed bl part bl' part' d d' :
  writes w2 seed (bl ++ bl') part' → part ++ d = concat bl' ++ part' → checkpoint w2 = checkpoint w1 →
  extends w2 w3 seed (bl ++ bl') part' d' → extends w1 w3 seed bl part (d ++ d').
Proof.
  intros Hw Hst Hcp (bl2 & part2 & Hw2 & Hst2 & Hcp2). exists (bl' ++ bl2), part2.
  split_and!; [by rewrite app_assoc| |congruence]. rewrite app_assoc, Hst, <- app_assoc, Hst2. by rewrite concat_app, <- app_assoc.
Qed.

Lemma write_pieces_ok ps : ∀ w seed bl part, writes w seed bl part →
  ∃ w', st_for ps JournalWriter.write_all w = (Ok tt, w') ∧ extends w w' seed bl part (concat ps).
Proof.
  induction ps as [|d ps IH]; intros w seed bl part Hw; cbn [st_for concat].
  { exists w. split; [done|]. by apply extends_refl. }
  destruct (write_all_ok w seed bl part d Hw) as (w1 & Hrun1 & bl1 & part1 & Hw1 & Hst1 & Hcp1).
  destruct (IH w1 seed (bl ++ bl1) part1 Hw1) as (w2 & Hrun2 & Hex2).
  exists w2. split; [by rewrite st_bind_run, Hrun1|]. by eapply extends_trans.
Qed.

(** A record is accepted exactly if it fits into the payload of a block. *)
Lemma write_record_ok w seed bl part ps : writes w seed bl part →
  ∃ w', JournalWriter.write_record ps w =
      (if decide (length (concat ps) ≤ payload)%nat then Ok tt else Err Other, w') ∧
    extends w w' seed bl part (concat ps).
Proof.
  intros Hw. destruct block_size_facts as (Hbs & Hpos & _ & _).
  destruct (write_pieces_ok ps w seed bl part Hw) as (w' & Hrun & bl' & part' & Hw' & Hst & Hcp).
  exists w'. split; [|by exists bl', part']. unfold JournalWriter.write_record. jw_simpl. rewrite Hrun. jw_simpl.
  destruct (writes_length _ _ _ _ Hw) as [Hl _]. destruct (writes_length _ _ _ _ Hw') as [Hl' _].
  rewrite length_app in Hl'. assert (length (part ++ concat ps) = length (concat bl' ++ part')) as Hlen by by rewrite Hst.
  pose proof (wr_part _ _ _ _ Hw) as Hp. pose proof (wr_part _ _ _ _ Hw') as Hp'.
  pose proof (wr_full _ _ _ _ Hw') as [_ Hf']%Forall_app. rewrite !length_app, (concat_full _ Hf') in Hlen.
  rewrite u64_sub_ok by lia. jw_simpl. rewrite (wr_size _ _ _ _ Hw').
  assert (Z.of_nat (length (buf w')) - Z.of_nat (length (buf w)) =
    Z.of_nat (length (concat ps)) + 8 * Z.of_nat (length bl')) as -> by (rewrite Hl, Hl', Hbs; lia).
  case_decide as Hd.
  - assert (length bl' ≤ 1)%nat by nia. rewrite (proj2 (Z.leb_le _ _)) by lia. done.
  - assert (1 ≤ length bl')%nat by (destruct bl'; cbn in *; lia). rewrite (proj2 (Z.leb_gt _ _)) by lia. done.
Qed.

(** Padding completes the block. *)
Lemma pad_to_block_ok w seed bl part : writes w seed bl part →
  ∃ w', JournalWriter.pad_to_block w = (Ok tt, w') ∧ checkpoint w' = checkpoint w ∧
    writes w' seed (bl ++ if decide (part = []) then [] else [part ++ replicate (payload - length part) 0]) [].
Proof.
  intros Hw. destruct block_size_facts as (Hbs & Hpos & _ & _). destruct (writes_length _ _ _ _ Hw) as [_ Hmod].
  pose proof (wr_part _ _ _ _ Hw) as Hp. unfold JournalWriter.pad_to_block. jw_simpl. rewrite (wr_size _ _ _ _ Hw).
  rewrite u64_rem_ok by lia. jw_simpl. rewrite Hmod. destruct (decide (part = [])) as [->|Hne].
  { exists w. split_and!; [done..|by rewrite app_nil_r]. }
  assert (0 < length part)%nat by (destruct part; [done|cbn; lia]). rewrite (proj2 (Z.ltb_lt _ _)) by lia.
  rewrite u64_sub_ok by (unfold checksum_size; lia). jw_simpl. rewrite u64_sub_ok by (unfold checksum_size; lia). jw_simpl.
  replace (Z.to_nat (BLOCK_SIZE - checksum_size - Z.of_nat (length part))) with (payload - length part)%nat
    by (unfold checksum_size; lia).
  destruct (write_all_ok w seed bl part (replicate (payload - length part) 0) Hw) as (w' & Hrun & bl' & part' & Hw' & Hst & Hcp).
  exists w'. split_and!; [done..|]. set (blk := part ++ replicate _ 0) in *.
  assert (length blk = payload) as Hblk by (unfold blk; rewrite length_app, length_replicate; lia).
  pose proof (wr_full _ _ _ _ Hw') as [_ Hf']%Forall_app. pose proof (wr_part _ _ _ _ Hw') as Hp'.
  assert (length blk = length (concat bl' ++ part')) as Hlen by by rewrite Hst. rewrite length_app, (concat_full _ Hf'), Hblk in Hlen.
  destruct bl' as [|b [|b' bl']]; cbn [length] in Hlen; [lia| |nia].
  assert (part' = []) as -> by (apply nil_length_inv; lia). cbn in Hst. rewrite !app_nil_r in Hst. by rewrite Hst.
Qed.

Lemma checkpoint_ok w seed bl part o : writes w seed bl part → file_offset (checkpoint w) = o →
  o + Z.of_nat (length (buf w)) ≤ u64_max →
  JournalWriter.journal_file_checkpoint w =
    Ok (mkCheckpoint (o + Z.of_nat (length bl) * BLOCK_SIZE + Z.of_nat (length part)) (chain seed bl) (version (checkpoint w))).
Proof.
  intros Hw <- Hu. unfold JournalWriter.journal_file_checkpoint. rewrite u64_add_ok by lia. res_simpl.
  destruct (writes_length _ _ _ _ Hw) as [Hl _]. rewrite (wr_checksum _ _ _ _ Hw). by rewrite Hl, Z.add_assoc.
Qed.

(** Everything is flushed. *)
Lemma take_flushable_ok w seed bl : writes w seed bl [] →
  file_offset (checkpoint w) + Z.of_nat (length (buf w)) ≤ u64_max →
  ∃ n w', JournalWriter.flushable_bytes w = Ok n ∧
    JournalWriter.take_flushable n w = (Ok (file_offset (checkpoint w), encode seed bl), w') ∧ writes w' (chain seed bl) [] [] ∧
    checkpoint w' = mkCheckpoint (file_offset (checkpoint w) + Z.of_nat (length bl) * BLOCK_SIZE) (chain seed bl) (version (checkpoint w)).
Proof.
  intros Hw Hu. destruct block_size_facts as (Hbs & Hpos & _ & _). destruct (writes_length _ _ _ _ Hw) as [Hl Hmod].
  exists (Z.of_nat (length (buf w))).
  assert (JournalWriter.flushable_bytes w = Ok (Z.of_nat (length (buf w)))) as Hfl.
  { unfold JournalWriter.flushable_bytes. rewrite (wr_size _ _ _ _ Hw). rewrite u64_rem_ok by lia. res_simpl.
    rewrite Hmod. cbn. rewrite u64_sub_ok by lia. f_equal. lia. }
  unfold JournalWriter.take_flushable. jw_simpl. rewrite Hfl. jw_simpl. rewrite Z.leb_refl. cbn [rassert].
  rewrite (wr_size _ _ _ _ Hw). rewrite u64_rem_ok by lia. jw_simpl. rewrite Hmod. cbn [length Z.of_nat Z.eqb rassert].
  pose proof (slice_ok (buf w) 0 (length (buf w)) (le_n _)) as Hs. change (Z.of_nat 0) with 0 in Hs. cbn [Nat.add] in Hs. rewrite Hs. jw_simpl.
  rewrite u64_add_ok by lia. jw_simpl. rewrite drop_0, firstn_all, Nat2Z.id, drop_all. eexists. split_and!; [done| | |].
  - replace (encode seed bl) with (buf w); [done|]. by rewrite (wr_buf _ _ _ _ Hw), app_nil_r.
  - destruct Hw. split; cbn; [done|constructor|lia|done|done].
  - rewrite Hl, (wr_checksum _ _ _ _ Hw). cbn. f_equal. lia.
Qed.
