(* ===== verification/JournalRead.v ===== *)
(** * What the journal reader reads

    A reader that starts at a checkpoint within blocks that have been written
    gives the bytes behind that checkpoint, block after block, up to the first
    block whose checksum does not match. *)

From S2P Require Import Prelude Bytes Checksum Journal JournalBlocks.

Ltac jr_simpl :=
  repeat (rewrite st_bind_run; cbn [mret st_ret st_get st_put st_lift st_fail unwrap JournalReader.modify
    JournalReader.set_buffer JournalReader.set_position JournalReader.set_read JournalReader.set_flags rbuf buf_start
    buf_end read_offset buf_file_offset checksums rversion bad_checksum found_reset first_read eof_ok]);
  cbn [mret st_ret st_get st_put st_lift st_fail unwrap JournalReader.modify
    JournalReader.set_buffer JournalReader.set_position JournalReader.set_read JournalReader.set_flags rbuf buf_start
    buf_end read_offset buf_file_offset checksums rversion bad_checksum found_reset first_read eof_ok].

Lemma resize_take (l : list Z) (e m : nat) : (e ≤ length l)%nat → (e ≤ m)%nat → take e (resize l (Z.of_nat m)) = take e l.
Proof.
  intros He Hm. unfold resize. rewrite Nat2Z.id, take_app_le by (rewrite length_take; lia). by rewrite take_take, Nat.min_l.
Qed.

Lemma alter_last (f : Z → Z) (l : list Z) (c : Z) : alter f (pred (length (l ++ [c]))) (l ++ [c]) = l ++ [f c].
Proof. rewrite length_app, Nat.add_1_r. cbn [pred]. induction l as [|x l IH]; cbn; [done|]. by f_equal. Qed.

Section reader.
(** The file: what comes before, the blocks, and what follows. *)
Context (read : Z → Z → res (list Z)) (pre tail : list Z) (seed : Z) (bl : list (list Z)) (j0 : nat).
Context (Hfull : Forall full bl) (Hpre : length pre = (j0 * (payload + 8))%nat).
Context (Hread : ∀ off n, 0 ≤ off → read off n = Ok (take (Z.to_nat n) (drop (Z.to_nat off) (pre ++ encode seed bl ++ tail)))).
Context (Hbound : Z.of_nat (j0 + length bl + 2) * BLOCK_SIZE ≤ u64_max).

(** The checksum before block [i]. *)
Definition ck (i : nat) : Z := chain seed (take i bl).

(** What follows is not a block that continues these, but it may be one that
    starts over. *)
Context (reset : bool) (Htail : (payload + 8 ≤ length tail)%nat).
Definition stored : Z := le_combine (take 8 (drop payload tail)).
Context (Hbad : ∀ allow, verify_checksum (take payload tail) stored (ck (length bl)) allow =
  Ok (if allow && reset then CkReset else CkBad)).

Lemma payload_pos : (0 < payload)%nat.
Proof. apply block_size_facts. Qed.

Lemma read_block n b : bl !! n = Some b →
  read (Z.of_nat (j0 + n) * BLOCK_SIZE) BLOCK_SIZE = Ok (b ++ le_split 8 (ck (S n))) ∧
  ck (S n) = digest b (ck n) ∧ full b.
Proof.
  intros Hn. destruct block_size_facts as (Hbs & _). assert (full b) as Hb by by eapply Forall_lookup_1.
  assert (ck (S n) = digest b (ck n)) as Hck.
  { unfold ck. by rewrite (take_S_r _ _ _ Hn), chain_app. }
  split; [|done]. rewrite Hread by (rewrite Hbs; lia).
  replace (Z.to_nat (Z.of_nat (j0 + n) * BLOCK_SIZE)) with (length (pre ++ encode seed (take n bl))).
  2: { rewrite length_app, length_encode, Hpre, length_take_le; [rewrite Hbs; lia|apply lookup_lt_Some in Hn; lia|by apply Forall_take]. }
  rewrite <- (take_drop_middle bl n b Hn) at 2. rewrite encode_app. cbn [encode]. fold (ck n).
  rewrite <- app_assoc, app_assoc. rewrite drop_app_length. rewrite <- !app_assoc. f_equal.
  rewrite block_nat, Hck. rewrite app_assoc. rewrite take_app_length'; [done|]. rewrite length_app, length_le_split. unfold full in Hb. lia.
Qed.

Lemma read_tail : read (Z.of_nat (j0 + length bl) * BLOCK_SIZE) BLOCK_SIZE = Ok (take (payload + 8) tail).
Proof.
  destruct block_size_facts as (Hbs & _). rewrite Hread by (rewrite Hbs; lia).
  replace (Z.to_nat (Z.of_nat (j0 + length bl) * BLOCK_SIZE)) with (length (pre ++ encode seed bl)).
  2: { rewrite length_app, length_encode, Hpre by done. rewrite Hbs. lia. }
  by rewrite app_assoc, drop_app_length, block_nat.
Qed.

(** The reader is at byte [p] of the stream and has read [n] blocks. *)
Record reads (r : JournalReader) (p n : nat) : Prop := {
  rd_read : read_offset r = Z.of_nat (j0 + n + if found_reset r then 1 else 0) * BLOCK_SIZE;
  rd_pos : buf_file_offset r = Z.of_nat (j0 + p / payload) * BLOCK_SIZE + Z.of_nat (p mod payload);
  rd_checksums : checksums r = (ck <$> seq (p / payload) (n - p / payload)) ++
    (if found_reset r then [Z.lxor (ck n) RESET_XOR; stored] else [ck n]);
  rd_reset : found_reset r = true → reset = true ∧ n = length bl ∧ bad_checksum r = false ∧ first_read r = false ∧
    drop (Z.to_nat (buf_end r)) (rbuf r) = take (payload + 8) tail;
  rd_bad : bad_checksum r = true → n = length bl ∧ (reset = false ∨ first_read r = true);
  rd_le : (p / payload ≤ n ≤ length bl)%nat;
  rd_buf : if first_read r then n = (p / payload)%nat ∧ buf_start r = 0 ∧ buf_end r = 0
    else (p ≤ n * payload)%nat ∧ ∃ s e : nat, buf_start r = Z.of_nat s ∧ buf_end r = Z.of_nat e ∧
      (s ≤ e ≤ length (rbuf r))%nat ∧ take (e - s) (drop s (rbuf r)) = drop p (concat (take n bl));
}.

(** It has not come to what follows. *)
Definition going (r : JournalReader) : Prop := bad_checksum r = false ∧ found_reset r = false.

Lemma last_checksum_ok r p n : reads r p n → found_reset r = false → JournalReader.last_read_checksum r = Ok (ck n).
Proof.
  intros Hr Hf. pose proof (rd_checksums _ _ _ Hr) as Hc. rewrite Hf in Hc.
  unfold JournalReader.last_read_checksum. by rewrite Hc, last_snoc.
Qed.

Lemma length_concat_take n : (n ≤ length bl)%nat → length (concat (take n bl)) = (n * payload)%nat.
Proof. intros Hn. rewrite concat_full by by apply Forall_take. by rewrite length_take_le. Qed.

Lemma verify_ok b n : full b → ck (S n) = digest b (ck n) →
  verify_checksum b (ck (S n)) (ck n) false = Ok CkOk ∧ verify_checksum b (ck (S n)) (ck n) true = Ok CkOk ∧
  le_combine (le_split 8 (ck (S n))) = ck (S n).
Proof.
  intros Hb Hck. destruct (digest_ok b (ck n) Hb) as [Hd Hr]. unfold verify_checksum. rewrite Hd, <- Hck. res_simpl. rewrite Z.eqb_refl.
  split_and!; [done..|]. apply le_combine_split_id. by rewrite Hck.
Qed.

Lemma position_le r p n : reads r p n → first_read r = false → found_reset r = false → buf_file_offset r ≤ read_offset r.
Proof.
  intros [Hr Hp _ _ _ Hle Hb] Hf Hfr. rewrite Hfr, Nat.add_0_r in Hr. rewrite Hf in Hb. destruct Hb as [Hpn _]. rewrite Hr, Hp.
  destruct block_size_facts as (Hbs & Hpos & _). pose proof (Nat.div_mod_eq p payload) as Hdm.
  pose proof (Nat.mod_upper_bound p payload ltac:(lia)) as Hm.
  destruct (decide (p / payload = n)%nat) as [Heq|Hne].
  - assert (p mod payload = 0)%nat as -> by nia. rewrite Heq. lia.
  - assert (Z.of_nat (j0 + p / payload) + 1 ≤ Z.of_nat (j0 + n)) by lia. nia.
Qed.

(** The next block is appended to what is buffered. *)
Lemma append_block (rb blk : list Z) (s e n p : nat) b :
  bl !! n = Some b → (p ≤ n * payload)%nat → (s ≤ e ≤ length rb)%nat →
  take (e - s) (drop s rb) = drop p (concat (take n bl)) → blk = b ++ le_split 8 (ck (S n)) → full b →
  let rb' := take e rb ++ blk in
  length rb' = (e + payload + 8)%nat ∧
  take (e + payload - s) (drop s rb') = drop p (concat (take (S n) bl)).
Proof.
  intros Hn Hp Hse Hsl -> Hb rb'. apply lookup_lt_Some in Hn as Hlt. unfold full in Hb. split.
  - unfold rb'. rewrite !length_app, length_le_split, Hb, length_take. lia.
  - rewrite (take_S_r _ _ _ Hn), concat_app. cbn. rewrite app_nil_r.
    rewrite drop_app_le by (rewrite length_concat_take; lia). rewrite <- Hsl. unfold rb'.
    rewrite drop_app_le by (rewrite length_take; lia). rewrite app_assoc.
    assert (drop s (take e rb) = take (e - s) (drop s rb)) as -> by apply skipn_firstn_comm.
    rewrite take_app_le by (rewrite length_app, length_take, length_drop; lia).
    apply take_ge. rewrite length_app, length_take, length_drop. lia.
Qed.

Lemma fill_step_ok r p n : reads r p n → going r → (n < length bl)%nat →
  ∃ r', JournalReader.fill_step read r = (Ok true, r') ∧ reads r' p (S n) ∧ going r' ∧ first_read r' = false ∧ rversion r' = rversion r.
Proof.
  intros Hr [Hnb Hnr] Hn. destruct block_size_facts as (Hbs & Hpos & _ & _).
  destruct (lookup_lt_is_Some_2 bl n Hn) as [b Hbn]. destruct (read_block n b Hbn) as (Hrd & Hck & Hb).
  destruct (verify_ok b n Hb Hck) as (Hv1 & Hv2 & Hle). pose proof Hr as [Hro Hpo Hcs Hrs _ Hle' Hbuf]. rewrite Hnr in Hro, Hcs. rewrite Nat.add_0_r in Hro.
  unfold JournalReader.fill_step. jr_simpl. rewrite (last_checksum_ok _ _ _ Hr Hnr). jr_simpl. rewrite Hro.
  rewrite Z_mod_mult. cbn [Z.eqb rassert]. rewrite Hrd. jr_simpl.
  assert (length (b ++ le_split 8 (ck (S n))) = (payload + 8)%nat) as Hlb by (rewrite length_app, length_le_split; unfold full in Hb; lia).
  rewrite Hlb. rewrite (proj2 (Z.eqb_eq _ _)) by lia. cbn [negb]. jr_simpl. rewrite payload_nat.
  rewrite take_app_length', drop_app_length' by done. rewrite Hle.
  assert (verify_checksum b (ck (S n)) (ck n) (negb (first_read r)) = Ok CkOk) as -> by by destruct (first_read r).
  jr_simpl. rewrite Hpo. pose proof (Nat.div_mod_eq p payload) as Hdm. pose proof (Nat.mod_upper_bound p payload ltac:(lia)) as Hm.
  assert (checksums r ++ [ck (S n)] = (ck <$> seq (p / payload) (S n - p / payload)) ++ [ck (S n)]) as Hcs'.
  { rewrite Hcs. replace (S n - p / payload)%nat with (S (n - p / payload)) by lia. rewrite seq_S, fmap_app. cbn.
    repeat f_equal. lia. }
  assert (Z.of_nat (j0 + n) * BLOCK_SIZE + BLOCK_SIZE = Z.of_nat (j0 + S n + 0) * BLOCK_SIZE) as Hro' by lia. rewrite Hnr, Hnb.
  destruct (first_read r) eqn:Ef.
  - destruct Hbuf as (Hni & Hs0 & He0). subst n. rewrite Hs0, He0. cbn [Z.to_nat]. rewrite take_0. cbn [app]. rewrite Hlb.
    set (e := Z.of_nat (payload + 8) - checksum_size). assert (e = Z.of_nat payload) as He by (unfold e, checksum_size; lia).
    assert (∀ s : nat, s = (p mod payload)%nat → reads
      (mkReader (b ++ le_split 8 (ck (S (p / payload)))) (Z.of_nat s) e (Z.of_nat (j0 + p / payload) * BLOCK_SIZE + BLOCK_SIZE)
        (Z.of_nat (j0 + p / payload) * BLOCK_SIZE + Z.of_nat (p mod payload))
        (checksums r ++ [ck (S (p / payload))]) (rversion r) false false false (eof_ok r)) p (S (p / payload))) as Hgo.
    { intros s ->. split; cbn [read_offset buf_file_offset checksums found_reset bad_checksum first_read buf_start buf_end rbuf]; try done; [lia|].
      split; [lia|]. exists (p mod payload)%nat, payload. rewrite Hlb. split_and!; [done|done|lia|lia|].
      rewrite (take_S_r _ _ _ Hbn), concat_app. cbn. rewrite app_nil_r.
      rewrite (drop_app_ge (concat (take (p / payload) bl))) by (rewrite length_concat_take; lia). rewrite length_concat_take by lia.
      replace (p - p / payload * payload)%nat with (p mod payload)%nat by lia.
      rewrite drop_app_le by (unfold full in Hb; lia). rewrite take_app_le by (rewrite length_drop; unfold full in Hb; lia).
      apply take_ge. rewrite length_drop. unfold full in Hb. lia. }
    destruct (Z.ltb_spec (Z.of_nat (j0 + p / payload) * BLOCK_SIZE)
      (Z.of_nat (j0 + p / payload) * BLOCK_SIZE + Z.of_nat (p mod payload))) as [Hlt|Hge].
    + cbn [Z.eqb rassert]. jr_simpl. rewrite u64_add_ok by nia. jr_simpl. eexists. split; [done|]. split; [|split; [split; done|done]].
      replace (Z.of_nat (j0 + p / payload) * BLOCK_SIZE + Z.of_nat (p mod payload) - Z.of_nat (j0 + p / payload) * BLOCK_SIZE)
        with (Z.of_nat (p mod payload)) by lia. by apply Hgo.
    + jr_simpl. rewrite u64_add_ok by nia. jr_simpl. eexists. split; [done|]. split; [|split; [split; done|done]].
      change 0 with (Z.of_nat 0). apply Hgo. lia.
  - destruct Hbuf as (Hpn & s & e & Hs & He & Hse & Hsl). rewrite Hs, He.
    pose proof (position_le r p n Hr Ef Hnr) as Hple. rewrite Hro, Hpo in Hple. rewrite (proj2 (Z.ltb_ge _ _)) by lia.
    rewrite Nat2Z.id. replace (Z.of_nat e + BLOCK_SIZE) with (Z.of_nat (e + payload + 8)) by lia. rewrite resize_take by lia.
    destruct (append_block (rbuf r) _ s e n p b Hbn Hpn Hse Hsl eq_refl Hb) as [Hl' Hsl'].
    jr_simpl. rewrite u64_add_ok by nia. jr_simpl. eexists. split; [done|]. split; [|split; [split; done|done]].
    split; cbn [read_offset buf_file_offset checksums found_reset bad_checksum first_read buf_start buf_end rbuf]; try done; [lia|].
    split; [lia|]. exists s, (e + payload)%nat. rewrite Hl'. split_and!; [done|unfold checksum_size; lia|lia|lia|done].
Qed.

(** The block behind the last one is not taken. *)
Definition stopped (r : JournalReader) : Prop := found_reset r = true ∨ bad_checksum r = true.

Lemma fill_step_tail r p : reads r p (length bl) → going r →
  ∃ r', JournalReader.fill_step read r = (Ok false, r') ∧ reads r' p (length bl) ∧ stopped r' ∧
    first_read r' = first_read r ∧ rversion r' = rversion r.
Proof.
  intros Hr [Hnb Hnr]. destruct block_size_facts as (Hbs & Hpos & _ & _). pose proof Hr as [Hro Hpo Hcs Hrs _ Hle' Hbuf].
  rewrite Hnr in Hro, Hcs. rewrite Nat.add_0_r in Hro.
  unfold JournalReader.fill_step. jr_simpl. rewrite (last_checksum_ok _ _ _ Hr Hnr). jr_simpl. rewrite Hro.
  rewrite Z_mod_mult. cbn [Z.eqb rassert]. rewrite read_tail. jr_simpl.
  assert (length (take (payload + 8) tail) = (payload + 8)%nat) as Hlb by (rewrite length_take; lia).
  rewrite Hlb. rewrite (proj2 (Z.eqb_eq _ _)) by lia. cbn [negb]. jr_simpl. rewrite payload_nat.
  rewrite take_take, Nat.min_l by lia.
  assert (drop payload (take (payload + 8) tail) = take 8 (drop payload tail)) as ->
    by (rewrite skipn_firstn_comm; f_equal; lia).
  fold stored. rewrite Hbad. jr_simpl.
  set (rb := take (Z.to_nat (buf_end r)) (resize (rbuf r) (buf_end r + BLOCK_SIZE)) ++ take (payload + 8) tail).
  assert (first_read r = false → ∃ s e : nat, buf_start r = Z.of_nat s ∧ buf_end r = Z.of_nat e ∧ (p ≤ length bl * payload)%nat ∧
    (s ≤ e ≤ length rb)%nat ∧ take (e - s) (drop s rb) = drop p (concat (take (length bl) bl)) ∧ drop e rb = take (payload + 8) tail) as Hb.
  { intros Ef. rewrite Ef in Hbuf. destruct Hbuf as (Hpn & s & e & Hs & He & Hse & Hsl). exists s, e. unfold rb. clear rb.
    rewrite He, Nat2Z.id. replace (Z.of_nat e + BLOCK_SIZE) with (Z.of_nat (e + payload + 8)) by lia. rewrite resize_take by lia.
    split_and!; [done|done|done|lia|rewrite length_app, length_take; lia| |rewrite drop_app_length'; [done|rewrite length_take; lia]]. rewrite <- Hsl.
    rewrite drop_app_le by (rewrite length_take; lia). rewrite take_app_le by (rewrite length_drop, length_take; lia).
    rewrite skipn_firstn_comm, take_take. f_equal. lia. }
  clearbody rb. destruct (first_read r) eqn:Ef; [|destruct (Hb eq_refl) as (s & e & Hs & He & Hpn & Hse & Hsl & Hd); destruct reset eqn:Ers];
    cbn [negb andb]; jr_simpl.
  - eexists. split; [done|]. split; [|split; [by right|done]]. split; cbn; rewrite ?Hnr, ?Ef; try done; [by rewrite Nat.add_0_r|auto].
  - rewrite u64_add_ok by nia. jr_simpl. eexists. split; [done|]. split; [|split; [by left|done]]. rewrite Hcs, alter_last.
    split; cbn [read_offset buf_file_offset checksums found_reset bad_checksum first_read buf_start buf_end rbuf]; try done;
      [lia|by rewrite <- app_assoc|by rewrite He, Nat2Z.id|congruence|]. split; [done|]. by exists s, e.
  - eexists. split; [done|]. split; [|split; [by right|done]].
    split; cbn [read_offset buf_file_offset checksums found_reset bad_checksum first_read buf_start buf_end rbuf]; rewrite ?Hnr; try done;
      [by rewrite Nat.add_0_r|auto|]. split; [done|]. by exists s, e.
Qed.

(** There is a block's worth of data, or all there is. *)
Definition filled (r : JournalReader) (p n : nat) : Prop :=
  reads r p n ∧ (((p + payload ≤ n * payload)%nat ∧ first_read r = false) ∨ (n = length bl ∧ stopped r)).

Lemma fill_loop_ok fuel : ∀ r p n, reads r p n → going r → (p / payload + 2 - n < fuel)%nat →
  ∃ r' n', JournalReader.fill_loop read fuel r = (Ok tt, r') ∧ filled r' p n' ∧ rversion r' = rversion r ∧
    (first_read r = false → first_read r' = false).
Proof.
  destruct block_size_facts as (Hbs & Hpos & _ & _).
  induction fuel as [|fuel IH]; intros r p n Hr Hnb Hf; [lia|]. cbn [JournalReader.fill_loop]. jr_simpl.
  pose proof (Nat.div_mod_eq p payload) as Hdm. pose proof (Nat.mod_upper_bound p payload ltac:(lia)) as Hm.
  pose proof (rd_le _ _ _ Hr) as Hle.
  assert (∃ v, u64_sub (buf_end r) (buf_start r) = Ok v ∧
    (if v <? BLOCK_SIZE - checksum_size then (n < p / payload + 2)%nat else (p + payload ≤ n * payload)%nat ∧ first_read r = false)) as (v & Hv & Hcase).
  { pose proof (rd_buf _ _ _ Hr) as Hb. destruct (first_read r).
    - destruct Hb as (Hn & -> & ->). exists 0. split; [done|]. rewrite (proj2 (Z.ltb_lt _ _)) by (unfold checksum_size; lia). lia.
    - destruct Hb as (Hpn & s & e & -> & -> & Hse & Hsl). exists (Z.of_nat (e - s)). split; [rewrite u64_sub_ok by lia; f_equal; lia|].
      assert (e - s = n * payload - p)%nat as Hlen.
      { transitivity (length (take (e - s) (drop s (rbuf r)))); [rewrite length_take, length_drop; lia|].
        rewrite Hsl, length_drop, length_concat_take; lia. }
      destruct (Z.ltb_spec (Z.of_nat (e - s)) (BLOCK_SIZE - checksum_size)); unfold checksum_size in *; [nia|split; [nia|done]]. }
  rewrite Hv. jr_simpl. destruct (v <? _).
  - rewrite st_bind_run. destruct (decide (n = length bl)) as [->|Hne].
    + destruct (fill_step_tail r p Hr Hnb) as (r' & -> & Hr' & Hst & Hfs & Hvs). exists r', (length bl). split_and!; [done| |done|congruence]. split; [done|by right].
    + destruct (fill_step_ok r p n Hr Hnb) as (r1 & -> & Hr1 & Hb1 & Hf1 & Hv1); [lia|].
      destruct (IH r1 p (S n) Hr1 Hb1) as (r' & n' & Hrun & Hfl & Hvs & Hfs); [lia|]. exists r', n'. split_and!; [done..|congruence|auto].
  - exists r, n. split_and!; [done| |done|done]. split; [done|by left].
Qed.

Lemma fill_buf_ok r p n : reads r p n →
  ∃ r' n', JournalReader.fill_buf read r = (Ok tt, r') ∧ filled r' p n' ∧ rversion r' = rversion r ∧
    (first_read r = false → first_read r' = false).
Proof.
  intros Hr. destruct block_size_facts as (Hbs & Hpos & _ & _). unfold JournalReader.fill_buf. jr_simpl.
  destruct (found_reset r || bad_checksum r) eqn:Hst.
  { exists r, n. split_and!; [done| |done|done]. split; [done|right]. apply orb_true_iff in Hst. split; [|done].
    destruct Hst as [H|H]; [apply (rd_reset _ _ _ Hr H)|apply (rd_bad _ _ _ Hr H)]. }
  apply orb_false_iff in Hst as [Hnr Hnb].
  pose proof (rd_le _ _ _ Hr) as Hle. pose proof (rd_buf _ _ _ Hr) as Hb. destruct (first_read r) eqn:Ef.
  - destruct Hb as (Hn & Hs & He). rewrite Hs, He, u64_sub_ok by lia. jr_simpl.
    rewrite (proj2 (Z.leb_gt _ _)) by (unfold checksum_size; lia). unfold copy_within.
    change (slice (rbuf r) 0 0) with (slice (rbuf r) (Z.of_nat 0) (Z.of_nat 0)). rewrite slice_within by lia.
    res_simpl. jr_simpl. rewrite drop_0. cbn [app].
    match goal with |- context [JournalReader.fill_loop read 3 ?r0] =>
      destruct (fill_loop_ok 3 r0 p n) as (r' & n' & Hrun & Hfl & Hvs & Hfs); [| | |exists r', n'; split_and!; [done..|by rewrite ?Ef in *]] end.
    + destruct Hr. split; cbn; try done; rewrite ?Hnr; [done|by rewrite Ef].
    + by split.
    + lia.
  - destruct Hb as (Hpn & s & e & Hs & He & Hse & Hsl). rewrite Hs, He, u64_sub_ok by lia. jr_simpl.
    assert (e - s = n * payload - p)%nat as Hlen.
    { transitivity (length (take (e - s) (drop s (rbuf r)))); [rewrite length_take, length_drop; lia|].
      rewrite Hsl, length_drop, length_concat_take; lia. }
    destruct (Z.leb_spec (BLOCK_SIZE - checksum_size) (Z.of_nat e - Z.of_nat s)) as [Hge|Hlt].
    { exists r, n. split_and!; [done| |done|done]. split; [done|left; split; [unfold checksum_size in Hge; lia|done]]. }
    unfold copy_within. rewrite slice_within by lia. res_simpl. jr_simpl.
    match goal with |- context [JournalReader.fill_loop read 3 ?r0] =>
      destruct (fill_loop_ok 3 r0 p n) as (r' & n' & Hrun & Hfl & Hvs & Hfs); [| | |exists r', n'; split_and!; [done..|by rewrite ?Ef in *]] end.
    + destruct Hr. split; cbn; try done; rewrite ?Hnr; [done|]. rewrite Ef. split; [done|]. exists 0%nat, (e - s)%nat.
      split_and!; [done|lia|lia|rewrite length_app, length_take, length_drop; lia|].
      rewrite drop_0, Nat.sub_0_r. rewrite take_app_length' by (rewrite length_take, length_drop; lia). done.
    + by split.
    + lia.
Qed.

(** ** Deserializing *)
Lemma buffer_ok r p n : reads r p n → JournalReader.buffer r = Ok (drop p (concat (take n bl))).
Proof.
  intros Hr. pose proof (rd_buf _ _ _ Hr) as Hb. pose proof (rd_le _ _ _ Hr) as Hle. pose proof payload_pos as Hpos.
  unfold JournalReader.buffer. destruct (first_read r).
  - destruct Hb as (Hn & -> & ->). change (slice (rbuf r) 0 0) with (slice (rbuf r) (Z.of_nat 0) (Z.of_nat 0)).
    rewrite slice_within by lia. cbn [Nat.sub]. rewrite take_0, drop_ge; [done|]. rewrite length_concat_take by lia.
    pose proof (Nat.div_mod_eq p payload). nia.
  - destruct Hb as (Hpn & s & e & -> & -> & Hse & <-). by rewrite slice_within.
Qed.

Lemma consume_ok r p n a : reads r p n → first_read r = false → (p + a ≤ n * payload)%nat → (a ≤ payload)%nat →
  ∃ r', JournalReader.consume (Z.of_nat a) r = (Ok tt, r') ∧ reads r' (p + a) n ∧ first_read r' = false ∧
    rversion r' = rversion r.
Proof.
  intros Hr Ef Hpa Ha. destruct block_size_facts as (Hbs & Hpos & _ & _). pose proof Hr as [Hro Hpo Hcs Hrs Hbd Hle Hbuf].
  rewrite Ef in Hbuf. destruct Hbuf as (Hpn & s & e & Hs & He & Hse & Hsl).
  pose proof (Nat.div_mod_eq p payload) as Hdm. pose proof (Nat.mod_upper_bound p payload ltac:(lia)) as Hm.
  set (i := (p / payload)%nat) in *. set (o := (p mod payload)%nat) in *.
  assert ((j0 + i) + 2 ≤ j0 + length bl + 2)%nat as Hji by lia.
  assert (Z.of_nat (j0 + i + 2) * BLOCK_SIZE ≤ u64_max) as Hu by nia.
  assert (length (take (e - s) (drop s (rbuf r))) = e - s)%nat as Hl1 by (rewrite length_take, length_drop; lia).
  assert (e - s = n * payload - p)%nat as Hlen by (rewrite <- Hl1, Hsl, length_drop, length_concat_take; lia).
  assert (∃ s' e' : nat, buf_start r + Z.of_nat a = Z.of_nat s' ∧ buf_end r = Z.of_nat e' ∧ (s' ≤ e' ≤ length (rbuf r))%nat ∧
    take (e' - s') (drop s' (rbuf r)) = drop (p + a) (concat (take n bl))) as Hbuf'.
  { exists (s + a)%nat, e. split_and!; [lia|done|lia|lia|]. rewrite <- !drop_drop, <- Hsl, skipn_firstn_comm.
    f_equal. lia. }
  unfold JournalReader.consume. jr_simpl. rewrite (proj2 (Z.ltb_lt _ _)) by lia. cbn [rassert]. rewrite Hpo.
  rewrite Z.add_comm, Z.mod_add, (Z.mod_small (Z.of_nat o)) by lia. rewrite u64_add_ok by lia. jr_simpl.
  destruct (Z.leb_spec (BLOCK_SIZE - checksum_size) (Z.of_nat o + Z.of_nat a)) as [Hcross|Hin]; unfold checksum_size in *.
  - assert ((p + a) / payload = S i ∧ (p + a) mod payload = o + a - payload)%nat as [Hdiv Hmod].
    { assert (p + a = payload * S i + (o + a - payload))%nat as Heq by lia.
      split; symmetry; [eapply Nat.div_unique|eapply Nat.mod_unique]; try exact Heq; lia. }
    assert (S i ≤ n)%nat as Hin by nia.
    jr_simpl. rewrite u64_add_ok by lia. jr_simpl. rewrite Hcs. replace (n - i)%nat with (S (n - S i)) by lia.
    cbn [seq fmap list_fmap app]. jr_simpl. eexists. split; [done|]. split; [|done].
    split; cbn [read_offset buf_file_offset checksums found_reset bad_checksum first_read buf_start buf_end rbuf];
      [exact Hro|rewrite Hdiv, Hmod; lia|by rewrite Hdiv|exact Hrs|exact Hbd|rewrite Hdiv; lia|rewrite Ef; by split].
  - assert ((p + a) / payload = i ∧ (p + a) mod payload = o + a)%nat as [Hdiv Hmod].
    { assert (p + a = payload * i + (o + a))%nat as Heq by lia.
      split; symmetry; [eapply Nat.div_unique|eapply Nat.mod_unique]; try exact Heq; lia. }
    jr_simpl. eexists. split; [done|]. split; [|done].
    split; cbn [read_offset buf_file_offset checksums found_reset bad_checksum first_read buf_start buf_end rbuf];
      [exact Hro|rewrite Hdiv, Hmod; lia|by rewrite Hdiv|exact Hrs|exact Hbd|rewrite Hdiv; lia|rewrite Ef; by split].
Qed.

(** What is in the buffer of what comes next. *)
Lemma filled_prefix r p n x rest : filled r p n → drop p (concat bl) = x ++ rest → (length x ≤ payload)%nat →
  ∃ rest', drop p (concat (take n bl)) = x ++ rest' ∧ (x ≠ [] → first_read r = false) ∧ (p + length x ≤ n * payload ∨ x = [])%nat.
Proof.
  intros [Hr Hf] Hx Hlx. pose proof (rd_le _ _ _ Hr) as Hle.
  assert (length (x ++ rest) = length bl * payload - p)%nat as Hlen by (rewrite <- Hx, length_drop, concat_full by done; lia).
  rewrite length_app in Hlen.
  assert (x = [] ∨ (p + length x ≤ n * payload)%nat) as Hcase.
  { destruct x; [by left|right]. destruct Hf as [[Hf _]|[-> _]]; cbn in *; lia. }
  assert (concat bl = concat (take n bl) ++ concat (drop n bl)) as Hsplit by by rewrite <- concat_app, take_drop.
  assert (∃ rest', drop p (concat (take n bl)) = x ++ rest') as [rest' Hr'].
  { destruct Hcase as [->|Hc]; [by eexists|]. rewrite Hsplit, drop_app_le in Hx by (rewrite length_concat_take; lia).
    exists (drop (length x) (drop p (concat (take n bl)))). rewrite <- (take_drop (length x) (drop p (concat (take n bl)))) at 1. f_equal.
    assert (take (length x) (drop p (concat (take n bl)) ++ concat (drop n bl)) = take (length x) (x ++ rest)) as Ht by by rewrite Hx.
    rewrite take_app_length in Ht. rewrite take_app_le in Ht by (rewrite length_drop, length_concat_take; lia). done. }
  exists rest'. split_and!; [done| |tauto]. intros Hne. destruct Hf as [[_ Hf]|[Hn _]]; [done|].
  pose proof (rd_buf _ _ _ Hr) as Hb. destruct (first_read r); [|done]. destruct Hb as (Hnp & _). destruct Hcase as [?|Hc]; [done|].
  destruct x as [|y x]; [done|]. cbn in Hc. pose proof (Nat.div_mod_eq p payload). pose proof payload_pos. pose proof (Nat.mod_upper_bound p payload). nia.
Qed.

Lemma skip_ok r p n : reads r p n → first_read r = false →
  ∃ r', JournalReader.skip_to_end_of_block r = (Ok tt, r') ∧ first_read r' = false ∧ rversion r' = rversion r ∧
    reads r' (if decide (p mod payload = 0) then p else S (p / payload) * payload)%nat n.
Proof.
  intros Hr Ef. destruct block_size_facts as (Hbs & Hpos & _ & _). pose proof (rd_buf _ _ _ Hr) as Hb. rewrite Ef in Hb.
  destruct Hb as [Hpn _]. pose proof (Nat.div_mod_eq p payload) as Hdm. pose proof (Nat.mod_upper_bound p payload ltac:(lia)) as Hm.
  unfold JournalReader.skip_to_end_of_block. jr_simpl. rewrite (rd_pos _ _ _ Hr).
  rewrite Z.add_comm, Z.mod_add, (Z.mod_small (Z.of_nat (p mod payload))) by lia.
  destruct (decide _) as [->|Hne]; [by exists r|]. rewrite (proj2 (Z.ltb_lt _ _)) by lia.
  rewrite u64_sub_ok by (unfold checksum_size; lia). jr_simpl.
  replace (BLOCK_SIZE - Z.of_nat (p mod payload) - checksum_size) with (Z.of_nat (payload - p mod payload)) by (unfold checksum_size; lia).
  assert (p / payload < n)%nat as Hin by (destruct (Nat.lt_ge_cases (p / payload) n) as [|Hge]; [done|nia]).
  assert (p + (payload - p mod payload) = S (p / payload) * payload)%nat as Heq by nia.
  destruct (consume_ok r p n (payload - p mod payload) Hr Ef) as (r' & Hrun & Hr' & Hf' & Hv'); [nia|lia|].
  exists r'. rewrite <- Heq. by split_and!.
Qed.

(** What the reader reports as its position. *)
Lemma reader_checkpoint_ok r p n : reads r p n → found_reset r = false →
  JournalReader.journal_file_checkpoint r =
    Ok (mkCheckpoint (Z.of_nat (j0 + p / payload) * BLOCK_SIZE + Z.of_nat (p mod payload)) (ck (p / payload)) (rversion r)).
Proof.
  intros Hr Hf. unfold JournalReader.journal_file_checkpoint. pose proof (rd_checksums _ _ _ Hr) as Hc. rewrite Hf in Hc.
  pose proof (rd_le _ _ _ Hr) as Hle. rewrite Hc, (rd_pos _ _ _ Hr). destruct (n - p / payload)%nat as [|d] eqn:Ed; cbn.
  - by replace n with (p / payload)%nat by lia.
  - done.
Qed.

Section decode.
Context {T : Type} (decode : list Z → Version → decoded T).

Lemma deserialize_ok r p n x rest rec : reads r p n → drop p (concat bl) = x ++ rest → x ≠ [] → (length x ≤ payload)%nat →
  (∀ rest', decode (x ++ rest') (rversion r) = Decoded rec (Z.of_nat (length x))) →
  ∃ r' n', JournalReader.deserialize read decode r = (Ok (RSome rec), r') ∧ reads r' (p + length x) n' ∧ first_read r' = false ∧
    rversion r' = rversion r.
Proof.
  intros Hr Hx Hne Hlx Hdec. unfold JournalReader.deserialize. rewrite st_bind_run.
  destruct (fill_buf_ok r p n Hr) as (r1 & n1 & -> & Hfl & Hv1 & _). jr_simpl.
  destruct (filled_prefix r1 p n1 x rest Hfl Hx Hlx) as (rest' & Hb & Hf1 & Hle). destruct Hfl as [Hr1 _].
  rewrite (buffer_ok _ _ _ Hr1), Hb. jr_simpl. rewrite Hv1, Hdec. rewrite st_bind_run.
  destruct (consume_ok r1 p n1 (length x) Hr1 (Hf1 Hne)) as (r' & -> & Hr' & Hf' & Hv'); [tauto|done|].
  exists r', n1. split_and!; [done..|congruence].
Qed.

(** At the end the reader stops. *)
Lemma end_fill r n : reads r (length bl * payload) n →
  ∃ r', JournalReader.fill_buf read r = (Ok tt, r') ∧ reads r' (length bl * payload) (length bl) ∧ stopped r' ∧
    (first_read r = false → first_read r' = false) ∧ rversion r' = rversion r ∧ JournalReader.buffer r' = Ok [].
Proof.
  intros Hr. destruct (fill_buf_ok r _ n Hr) as (r1 & n1 & Hrun & [Hr1 Hst] & Hv1 & Hf1). pose proof payload_pos as Hpos.
  pose proof (rd_le _ _ _ Hr1) as Hle. rewrite Nat.div_mul in Hle by lia. assert (n1 = length bl) as -> by lia.
  exists r1. rewrite (buffer_ok _ _ _ Hr1), drop_ge by (rewrite length_concat_take; lia).
  split_and!; [done|done| |done|done|done]. destruct Hst as [[? _]|[_ ?]]; [lia|done].
Qed.

Lemma mismatch_ok r n : reads r (length bl * payload) n → reset = false →
  decode [] (rversion r) = DecodeError true →
  ∃ r', JournalReader.deserialize read decode r = (Ok ChecksumMismatch, r') ∧
    JournalReader.journal_file_checkpoint r' =
      Ok (mkCheckpoint (Z.of_nat (j0 + length bl) * BLOCK_SIZE) (chain seed bl) (rversion r)).
Proof.
  intros Hr Hrs Hd. destruct (end_fill r n Hr) as (r1 & Hfill & Hr1 & Hst & _ & Hv1 & Hb1). pose proof payload_pos as Hpos.
  assert (found_reset r1 = false) as Hnr.
  { destruct (found_reset r1) eqn:E; [|done]. destruct (rd_reset _ _ _ Hr1 E) as [H _]. congruence. }
  assert (bad_checksum r1 = true) as Hbd by (destruct Hst; congruence).
  exists r1. split.
  - unfold JournalReader.deserialize. rewrite st_bind_run, Hfill. jr_simpl. rewrite Hb1. jr_simpl. by rewrite Hv1, Hd, Hnr, Hbd.
  - rewrite (reader_checkpoint_ok _ _ _ Hr1 Hnr), Nat.div_mul, Nat.Div0.mod_mul, Z.add_0_r, Hv1 by lia. unfold ck. by rewrite take_ge.
Qed.

(** The reader when it has started over, before it consumes the version. *)
Record restarts (r : JournalReader) (v : Version) : Prop := {
  rt_read : read_offset r = Z.of_nat (j0 + length bl + 1) * BLOCK_SIZE;
  rt_pos : buf_file_offset r = Z.of_nat (j0 + length bl) * BLOCK_SIZE;
  rt_checksums : checksums r = [Z.lxor (chain seed bl) RESET_XOR; stored];
  rt_flags : found_reset r = false ∧ bad_checksum r = false ∧ first_read r = false;
  rt_version : rversion r = v;
  rt_buf : ∃ s e : nat, buf_start r = Z.of_nat s ∧ buf_end r = Z.of_nat e ∧ (s ≤ e ≤ length (rbuf r))%nat ∧
    take (e - s) (drop s (rbuf r)) = take payload tail;
}.

Lemma reset_ok r n v : reads r (length bl * payload) n → first_read r = false → reset = true →
  decode [] (rversion r) = DecodeError true → Version.deserialize_from (take payload tail) = Decoded v 4 →
  ∃ r', restarts r' v ∧
    JournalReader.deserialize read decode r = (_ ← JournalReader.consume 4; mret (Reset v)) r'.
Proof.
  intros Hr Ef Hrs Hd Hdv. destruct (end_fill r n Hr) as (r1 & Hfill & Hr1 & Hst & Hf1 & Hv1 & Hb1). specialize (Hf1 Ef).
  destruct block_size_facts as (Hbs & Hpos & _ & _).
  assert (found_reset r1 = true) as Hnr.
  { destruct Hst as [|Hbd]; [done|]. destruct (rd_bad _ _ _ Hr1 Hbd) as [_ [?|?]]; congruence. }
  destruct (rd_reset _ _ _ Hr1 Hnr) as (_ & _ & Hbd & _ & Hdr). pose proof (rd_pos _ _ _ Hr1) as Hpo. pose proof (rd_buf _ _ _ Hr1) as Hb.
  pose proof (rd_checksums _ _ _ Hr1) as Hcs. pose proof (rd_read _ _ _ Hr1) as Hro.
  rewrite Hf1 in Hb. rewrite Hnr in Hcs, Hro. rewrite Nat.div_mul, Nat.sub_diag in Hcs by lia. cbn in Hcs. unfold ck in Hcs. rewrite take_ge in Hcs by lia.
  rewrite Nat.div_mul, Nat.Div0.mod_mul, Z.add_0_r in Hpo by lia.
  destruct Hb as (_ & s & e & Hs & He & Hse & Hsl). rewrite He, Nat2Z.id in Hdr.
  assert (length (rbuf r1) = e + payload + 8)%nat as Hlen.
  { rewrite <- (take_drop e (rbuf r1)), Hdr, length_app, !length_take. lia. }
  assert (s = e) as ->.
  { apply (f_equal length) in Hsl. rewrite length_take, !length_drop, length_concat_take in Hsl by lia. lia. }
  assert (take payload (drop e (rbuf r1)) = take payload tail) as Htk by (rewrite Hdr, take_take, Nat.min_l; [done|lia]).
  unfold JournalReader.deserialize. rewrite st_bind_run, Hfill. jr_simpl. rewrite Hb1. jr_simpl. rewrite Hv1, Hd, Hnr. jr_simpl.
  rewrite Hs, He, u64_sub_ok by lia. jr_simpl. unfold JournalReader.consume at 1. jr_simpl. rewrite Hpo, Z.sub_diag, Z_mod_mult.
  assert ((0 <? BLOCK_SIZE) = true ∧ (BLOCK_SIZE - checksum_size <=? 0 + 0) = false) as [-> ->] by (split; [lia|unfold checksum_size; lia]).
  cbn [rassert]. rewrite u64_add_ok by nia. jr_simpl. rewrite Hlen, u64_sub_ok by (unfold checksum_size; lia). jr_simpl.
  replace (Z.of_nat (e + payload + 8) - checksum_size) with (Z.of_nat (e + payload)) by (unfold checksum_size; lia).
  unfold JournalReader.buffer. jr_simpl. rewrite slice_ok by lia. rewrite Htk. jr_simpl. rewrite Hdv. rewrite st_bind_run. jr_simpl.
  eexists. split; [|done]. split; cbn; rewrite ?Hnr; try done; [lia|].
  exists e, (e + payload)%nat. split_and!; [done|done|lia|lia|]. by replace (e + payload - e)%nat with payload by lia.
Qed.
End decode.

End reader.

(** ** Resets *)
Definition version_bytes : list Z := [45; 0; 0; 0].

Lemma u64_range x : is_u64 x ↔ 0 ≤ x < 2 ^ 64.
Proof. unfold is_u64. assert (u64_max = 18446744073709551615) as -> by by vm_compute. change (2 ^ 64) with 18446744073709551616. lia. Qed.

Lemma reset_xor c : is_u64 c → is_u64 (Z.lxor c RESET_XOR) ∧ Z.lxor c RESET_XOR ≠ c.
Proof.
  rewrite !u64_range. intros [Hc1 Hc2]. split.
  - assert (0 ≤ Z.lxor c RESET_XOR) as Hn by (apply Z.lxor_nonneg; split; intros; [done|lia]). split; [done|].
    destruct (decide (Z.lxor c RESET_XOR = 0)) as [->|Hne]; [done|]. apply Z.log2_lt_pow2; [lia|].
    pose proof (Z.log2_lxor c RESET_XOR Hc1 ltac:(done)) as Hl. change (Z.log2 RESET_XOR) with 63 in Hl.
    destruct (decide (c = 0)) as [->|Hc]; [cbn in Hl; lia|]. apply Z.log2_lt_pow2 in Hc2; lia.
  - intros He. apply (f_equal (Z.lxor c)) in He. rewrite <- Z.lxor_assoc, Z.lxor_nilpotent, Z.lxor_0_l in He. done.
Qed.

Lemma chain_u64 seed bl : is_u64 seed → Forall full bl → is_u64 (chain seed bl).
Proof.
  intros Hs Hf. revert seed Hs. induction Hf as [|b bl Hb _ IH]; intros seed Hs; cbn; [done|]. apply IH.
  destruct (digest_ok b seed Hb) as [_ Hd]. by apply u64_range.
Qed.

(** The first block behind a reset is recognised as such. *)
Lemma reset_block b c rest : full b → is_u64 c → let c' := Z.lxor c RESET_XOR in
  let tail := b ++ le_split 8 (digest b c') ++ rest in
  take payload tail = b ∧ stored tail = digest b c' ∧
  ∀ allow, verify_checksum b (digest b c') c allow = Ok (if allow && true then CkReset else CkBad).
Proof.
  intros Hb Hc c' tail. destruct (digest_ok b c Hb) as [Hd _], (digest_ok b c' Hb) as [Hd' Hr'].
  split_and!.
  - unfold tail. by rewrite take_app_length' by done.
  - unfold stored, tail. rewrite drop_app_length' by done. rewrite take_app_length' by (by rewrite length_le_split).
    by apply le_combine_split_id.
  - intros allow. unfold verify_checksum. rewrite Hd. res_simpl. fold c'. rewrite Hd'. destruct (Z.eqb_spec (digest b c') (digest b c)) as [He|_].
    + exfalso. rewrite He in Hd'. destruct (reset_xor c Hc) as [Hx Hne]. apply Hne. by apply (fletcher64_seed_inj b _ _ (digest b c)).
    + rewrite andb_true_r. destruct allow; [|done]. res_simpl. by rewrite Z.eqb_refl.
Qed.

(** Behind the reset the reader is at the start of the new blocks. *)
Lemma restarts_reads r v tail seed bl j0 b bl2 tail2 : restarts tail seed bl j0 r v → full b →
  tail = encode (Z.lxor (chain seed bl) RESET_XOR) (b :: bl2) ++ tail2 →
  reads tail2 (Z.lxor (chain seed bl) RESET_XOR) (b :: bl2) (j0 + length bl) false r 0 1.
Proof.
  intros [Hro Hpo Hcs (Hfr & Hbd & Hf) _ (s & e & Hs & He & Hse & Hsl)] Hb Ht. destruct block_size_facts as (_ & Hpos & _ & _).
  set (seed' := Z.lxor (chain seed bl) RESET_XOR) in *. destruct (digest_ok b seed' Hb) as [_ Hr].
  cbn [encode] in Ht. rewrite <- !app_assoc in Ht.
  assert (take payload tail = b) as Htk by (rewrite Ht; by apply take_app_length').
  assert (stored tail = digest b seed') as Hst.
  { unfold stored. rewrite Ht, drop_app_length' by done. rewrite take_app_length' by (by rewrite length_le_split). by apply le_combine_split_id. }
  split; rewrite ?Hfr, ?Hbd, ?Hf, ?Nat.Div0.div_0_l, ?Nat.Div0.mod_0_l; try done.
  - rewrite Hro. f_equal. lia.
  - rewrite Hpo. rewrite Nat.add_0_r. lia.
  - rewrite Hcs, Hst. done.
  - cbn [length]. lia.
  - split; [lia|]. exists s, e. split_and!; [done|done|lia|lia|]. rewrite Hsl, Htk. cbn. by rewrite app_nil_r.
Qed.

Lemma version_block b bl rest : full b → concat (b :: bl) = version_bytes ++ rest →
  Version.deserialize_from b = Decoded LATEST_VERSION 4.
Proof.
  intros Hb Hcat. pose proof block_size_eq as Hp. unfold full in Hb. unfold Version.deserialize_from.
  rewrite (proj2 (Z.leb_le _ _)) by lia. do 4 (destruct b as [|? b]; [cbn in Hb; lia|]). cbn in Hcat. by simplify_eq.
Qed.
