(* ===== verification/JournalSession.v ===== *)
(** * Sessions of the journal

    What [journal.rs] does with the writer and the reader: records are written
    and the block is padded behind an [EndBlock] record when the journal is
    synced ([Journal::pad_to_block]); a replay reads records until the checksums
    no longer match ([Journal::read_transactions]), and writing goes on behind
    them with a checksum that marks a reset ([Journal::replay] and
    [Journal::pre_commit]). *)

From S2P Require Import Prelude Bytes Checksum Journal JournalBlocks JournalRead.

Section journal.
(** The type of records, how they are written and how they are read. *)
Context {T : Type} `{!EqDecision T} (pieces : T → list (list Z)) (decode : list Z → Version → decoded T) (EndBlock : T).

(** [Journal::pad_to_block]. *)
Definition pad_to_block : st JournalWriter JournalCheckpoint :=
  w ← st_get;
  c ← st_lift (JournalWriter.journal_file_checkpoint w);
  if negb (file_offset c `mod` BLOCK_SIZE =? 0) then
    _ ← st_for (pieces EndBlock) JournalWriter.write_all;
    _ ← JournalWriter.pad_to_block;
    mret c
  else mret c.

(** [Journal::flush] of what [flush_task] finds to be flushed: where the bytes
    go, and the bytes. *)
Definition flush : st JournalWriter (Z * list Z) :=
  w ← st_get;
  n ← st_lift (JournalWriter.flushable_bytes w);
  JournalWriter.take_flushable n.

(** What is done with the writer between two flushes. *)
Inductive action : Type := Put (x : T) | Sync.

Definition perform (a : action) : st JournalWriter unit :=
  match a with
  | Put x => JournalWriter.write_record (pieces x)
  | Sync => _ ← pad_to_block; mret tt
  end.

(** The loop of [Journal::read_transactions]: the records and the resets it
    comes across. *)
Fixpoint read_records (read : Z → Z → res (list Z)) (fuel : nat) : st JournalReader (list (T + Version)) :=
  match fuel with
  | O => st_lift NoFuel
  | S fuel =>
      result ← JournalReader.deserialize read decode;
      match result with
      | Reset v => l ← read_records read fuel; mret (inr v :: l)
      | RSome record =>
          if decide (record = EndBlock) then
            _ ← JournalReader.skip_to_end_of_block; read_records read fuel
          else l ← read_records read fuel; mret (inl record :: l)
      | ChecksumMismatch => mret []
      end
  end.

(** Where [Journal::replay] makes the writer go on, and what [pre_commit] writes
    first after that. *)
Definition restart (c : JournalCheckpoint) : st JournalWriter unit :=
  _ ← JournalWriter.seek (mkCheckpoint (file_offset c) (Z.lxor (checksum c) RESET_XOR) LATEST_VERSION);
  st_for (Version.serialize_into LATEST_VERSION) JournalWriter.write_all.

(** The actions [acts1], then [acts2], all of it synced and flushed: the
    checkpoint between the two, what was flushed, and the checkpoint behind it. *)
Definition session (acts1 acts2 : list action) : st JournalWriter (JournalCheckpoint * (Z * list Z) * JournalCheckpoint) :=
  _ ← st_for acts1 perform;
  w ← st_get;
  c ← st_lift (JournalWriter.journal_file_checkpoint w);
  _ ← st_for acts2 perform;
  _ ← pad_to_block;
  out ← flush;
  w ← st_get;
  c' ← st_lift (JournalWriter.journal_file_checkpoint w);
  mret (c, out, c').

(** ** What is written *)
Definition bytes (x : T) : list Z := concat (pieces x).
Definition padding (p : nat) : nat := if decide (p mod payload = 0)%nat then 0 else payload - p mod payload.

(** The bytes of the stream from position [p] on. *)
Fixpoint laid (p : nat) (acts : list action) : list Z :=
  match acts with
  | [] => []
  | Put x :: acts => bytes x ++ laid (p + length (bytes x)) acts
  | Sync :: acts =>
      if decide (p mod payload = 0)%nat then laid p acts
      else let q := (p + length (bytes EndBlock))%nat in
        bytes EndBlock ++ replicate (padding q) 0 ++ laid (q + padding q) acts
  end.

Definition records (acts : list action) : list T := omap (λ a, match a with Put x => Some x | Sync => None end) acts.

Lemma records_sync acts : records (acts ++ [Sync]) = records acts.
Proof. unfold records. rewrite omap_app. cbn. by rewrite app_nil_r. Qed.

Definition fits (a : action) : Prop :=
  match a with Put x => (length (bytes x) ≤ payload)%nat ∧ x ≠ EndBlock | Sync => True end.

Context (Hend : (length (bytes EndBlock) ≤ payload)%nat).

Lemma extends_mod w w' seed bl part d p : writes w seed bl part → (p mod payload)%nat = length part →
  extends w w' seed bl part d →
  ∃ bl' part', writes w' seed (bl ++ bl') part' ∧ part ++ d = concat bl' ++ part' ∧ checkpoint w' = checkpoint w ∧
    ((p + length d) mod payload)%nat = length part' ∧ (length bl' * payload ≤ length part + length d)%nat.
Proof.
  intros Hw Hp (bl' & part' & Hw' & Hst & Hcp). exists bl', part'. pose proof (wr_part _ _ _ _ Hw') as Hp'.
  pose proof (wr_full _ _ _ _ Hw') as [_ Hf']%Forall_app. destruct block_size_facts as (_ & Hpos & _ & _).
  assert (length part + length d = length bl' * payload + length part')%nat as Hlen.
  { rewrite <- (concat_full _ Hf'), <- !length_app. by rewrite Hst. }
  split_and!; [done..| |lia]. symmetry. apply (Nat.mod_unique _ _ (p / payload + length bl')%nat); [done|].
  pose proof (Nat.div_mod_eq p payload) as Hdm. rewrite Hp in Hdm. nia.
Qed.

Lemma sync_ok w seed bl part o p : writes w seed bl part → (p mod payload)%nat = length part →
  file_offset (checkpoint w) = Z.of_nat o * BLOCK_SIZE → Z.of_nat (o + length bl + 1) * BLOCK_SIZE ≤ u64_max →
  ∃ c w', pad_to_block w = (Ok c, w') ∧ extends w w' seed bl part (laid p [Sync]).
Proof.
  intros Hw Hp Ho Hu. destruct block_size_facts as (Hbs & Hpos & _ & _). pose proof (wr_part _ _ _ _ Hw) as Hlp.
  destruct (writes_length _ _ _ _ Hw) as [Hl _]. unfold pad_to_block. jw_simpl.
  rewrite (checkpoint_ok w seed bl part _ Hw Ho) by (rewrite Hl; lia). jw_simpl. cbn [file_offset].
  replace (Z.of_nat o * BLOCK_SIZE + Z.of_nat (length bl) * BLOCK_SIZE + Z.of_nat (length part))
    with (Z.of_nat (length part) + Z.of_nat (o + length bl) * BLOCK_SIZE) by lia.
  rewrite Z.mod_add, Z.mod_small by lia. cbn [laid]. rewrite Hp, !app_nil_r.
  destruct (decide (length part = 0)%nat) as [Hz|Hnz].
  { rewrite (proj2 (Z.eqb_eq _ _)) by lia. eexists _, w. split; [done|]. by apply extends_refl. }
  rewrite (proj2 (Z.eqb_neq _ _)) by lia. cbn [negb]. rewrite st_bind_run.
  destruct (write_pieces_ok (pieces EndBlock) w seed bl part Hw) as (w1 & -> & Hex1).
  destruct (extends_mod _ _ _ _ _ _ p Hw Hp Hex1) as (bl1 & part1 & Hw1 & Hst1 & Hcp1 & Hp1 & _). jw_simpl.
  destruct (pad_to_block_ok w1 seed _ part1 Hw1) as (w2 & -> & Hcp2 & Hw2). jw_simpl.
  eexists _, w2. split; [done|]. eapply extends_trans; [done..|].
  eexists _, []. split_and!; [done| |done]. unfold padding, bytes. rewrite Hp1.
  destruct (decide (part1 = [])) as [->|Hne]; [done|]. rewrite decide_False by (by destruct part1). cbn. by rewrite !app_nil_r.
Qed.

Lemma action_ok a w seed bl part o p : writes w seed bl part → (p mod payload)%nat = length part → fits a →
  file_offset (checkpoint w) = Z.of_nat o * BLOCK_SIZE → Z.of_nat (o + length bl + 1) * BLOCK_SIZE ≤ u64_max →
  ∃ w', perform a w = (Ok tt, w') ∧ extends w w' seed bl part (laid p [a]).
Proof.
  intros Hw Hp Hf Ho Hu. destruct a as [x|]; cbn [perform].
  - destruct (write_record_ok w seed bl part (pieces x) Hw) as (w' & Hrun & Hex). destruct Hf as [Hf _].
    rewrite decide_True in Hrun by done. exists w'. split; [done|]. cbn [laid]. by rewrite app_nil_r.
  - destruct (sync_ok w seed bl part o p Hw Hp Ho Hu) as (c & w' & Hrun & Hex). exists w'. split; [|done].
    by rewrite st_bind_run, Hrun.
Qed.

Lemma laid_app p acts1 acts2 : laid p (acts1 ++ acts2) = laid p acts1 ++ laid (p + length (laid p acts1)) acts2.
Proof.
  revert p. induction acts1 as [|[x|] acts1 IH]; intros p; cbn [app laid length]; [by rewrite Nat.add_0_r| |].
  - rewrite IH, length_app, Nat.add_assoc. by rewrite <- app_assoc.
  - destruct (decide _); [apply IH|]. rewrite IH, !length_app, length_replicate, <- !app_assoc. do 3 f_equal. f_equal. lia.
Qed.

Lemma laid_length p a : fits a → (length (laid p [a]) < 2 * payload)%nat.
Proof.
  destruct block_size_facts as (_ & Hpos & _ & _). destruct a as [x|]; cbn [fits laid].
  - rewrite app_nil_r. lia.
  - intros _. destruct (decide _); [cbn; lia|]. rewrite !length_app, length_replicate. cbn [length]. unfold padding.
    destruct (decide _) as [|Hne]; [lia|]. lia.
Qed.

Lemma run_ok acts : ∀ w seed bl part o p, writes w seed bl part → (p mod payload)%nat = length part → Forall fits acts →
  file_offset (checkpoint w) = Z.of_nat o * BLOCK_SIZE → Z.of_nat (o + length bl + 2 * length acts + 1) * BLOCK_SIZE ≤ u64_max →
  ∃ w' bl' part', st_for acts perform w = (Ok tt, w') ∧ writes w' seed (bl ++ bl') part' ∧
    part ++ laid p acts = concat bl' ++ part' ∧ checkpoint w' = checkpoint w ∧
    ((p + length (laid p acts)) mod payload)%nat = length part' ∧ (length bl' ≤ 2 * length acts)%nat.
Proof.
  destruct block_size_facts as (Hbs & Hpos & _ & _).
  induction acts as [|a acts IH]; intros w seed bl part o p Hw Hp Hf Ho Hu; cbn [st_for].
  { exists w, [], part. cbn. rewrite !app_nil_r, Nat.add_0_r. by split_and!. }
  apply Forall_cons in Hf as [Ha Hf]. cbn [length] in Hu.
  destruct (action_ok a w seed bl part o p Hw Hp Ha Ho) as (w1 & Hrun1 & Hex1); [nia|].
  destruct (extends_mod _ _ _ _ _ _ p Hw Hp Hex1) as (bl1 & part1 & Hw1 & Hst1 & Hcp1 & Hp1 & Hl1).
  pose proof (laid_length p a Ha) as Hla. pose proof (wr_part _ _ _ _ Hw) as Hlp. assert (length bl1 ≤ 2)%nat as Hb1 by nia.
  destruct (IH w1 seed (bl ++ bl1) part1 o (p + length (laid p [a]))%nat Hw1 Hp1 Hf) as (w2 & bl2 & part2 & Hrun2 & Hw2 & Hst2 & Hcp2 & Hp2 & Hl2);
    [congruence|rewrite length_app; nia|].
  exists w2, (bl1 ++ bl2), part2. change (a :: acts) with ([a] ++ acts). rewrite laid_app. split_and!.
  - by rewrite st_bind_run, Hrun1.
  - by rewrite app_assoc.
  - rewrite app_assoc, Hst1, <- app_assoc, Hst2, concat_app. by rewrite <- app_assoc.
  - congruence.
  - by rewrite length_app, Nat.add_assoc.
  - rewrite !length_app. cbn [length]. lia.
Qed.

(** All of it is blocks after a sync. *)
Lemma laid_sync p : ((p + length (laid p [Sync])) mod payload = 0)%nat.
Proof.
  destruct block_size_facts as (_ & Hpos & _ & _). cbn [laid]. destruct (decide _) as [Hz|_]; [by rewrite Nat.add_0_r|].
  set (q := (p + length (bytes EndBlock))%nat). rewrite !length_app, length_replicate. cbn [length].
  replace (p + (length (bytes EndBlock) + (padding q + 0)))%nat with (q + padding q)%nat by (unfold q; lia).
  unfold padding. destruct (decide _) as [Hz|Hne]; [by rewrite Nat.add_0_r|]. pose proof (Nat.div_mod_eq q payload) as Hdm.
  pose proof (Nat.mod_upper_bound q payload ltac:(lia)) as Hm.
  replace (q + (payload - q mod payload))%nat with (S (q / payload) * payload)%nat by nia. apply Nat.Div0.mod_mul.
Qed.

Lemma flush_ok w seed bl o : writes w seed bl [] → file_offset (checkpoint w) = Z.of_nat o * BLOCK_SIZE →
  Z.of_nat (o + length bl) * BLOCK_SIZE ≤ u64_max →
  ∃ w', flush w = (Ok (Z.of_nat o * BLOCK_SIZE, encode seed bl), w') ∧
    JournalWriter.journal_file_checkpoint w' =
      Ok (mkCheckpoint (Z.of_nat (o + length bl) * BLOCK_SIZE) (chain seed bl) (version (checkpoint w))).
Proof.
  intros Hw Ho Hu. destruct (writes_length _ _ _ _ Hw) as [Hl _]. cbn in Hl.
  destruct (take_flushable_ok w seed bl Hw) as (n & w' & Hn & Hrun & Hw' & Hcp); [rewrite Ho, Hl; lia|].
  destruct (writes_length _ _ _ _ Hw') as [Hl' _]. cbn in Hl'.
  exists w'. split.
  - unfold flush. jw_simpl. rewrite Hn. jw_simpl. by rewrite Hrun, Ho.
  - rewrite (checkpoint_ok w' (chain seed bl) [] [] _ Hw' eq_refl); rewrite Hcp; cbn; [|rewrite Hl', Ho; lia].
    do 2 f_equal. rewrite Ho. lia.
Qed.

(** The blocks behind what is in the buffer are those of the stream. *)
Lemma session_ok acts1 acts2 w seed part o : writes w seed [] part → Forall fits (acts1 ++ acts2) →
  file_offset (checkpoint w) = Z.of_nat o * BLOCK_SIZE →
  Z.of_nat (o + 2 * length (acts1 ++ acts2) + 4) * BLOCK_SIZE ≤ u64_max →
  let p := (length part + length (laid (length part) acts1))%nat in
  ∃ bl w', Forall full bl ∧ concat bl = part ++ laid (length part) (acts1 ++ acts2 ++ [Sync]) ∧
    (length bl ≤ 2 * length (acts1 ++ acts2) + 2)%nat ∧
    session acts1 acts2 w = (Ok (
      mkCheckpoint (Z.of_nat (o + p / payload) * BLOCK_SIZE + Z.of_nat (p mod payload)) (chain seed (take (p / payload) bl)) (version (checkpoint w)),
      (Z.of_nat o * BLOCK_SIZE, encode seed bl),
      mkCheckpoint (Z.of_nat (o + length bl) * BLOCK_SIZE) (chain seed bl) (version (checkpoint w))), w').
Proof.
  intros Hw [Hf1 Hf2]%Forall_app Ho Hu p. rewrite length_app in Hu |- *. destruct block_size_facts as (Hbs & Hpos & _ & _).
  pose proof (wr_part _ _ _ _ Hw) as Hlp.
  destruct (run_ok acts1 w seed [] part o (length part) Hw) as (w1 & bl1 & part1 & Hrun1 & Hw1 & Hst1 & Hcp1 & Hp1 & Hl1);
    [by rewrite Nat.mod_small|done|done|cbn; nia|]. cbn [app] in Hw1. fold p in Hp1.
  pose proof (wr_part _ _ _ _ Hw1) as Hlp1. pose proof (wr_full _ _ _ _ Hw1) as Hfl1.
  assert (p / payload = length bl1)%nat as Hdiv.
  { symmetry. apply (Nat.div_unique _ _ _ (length part1)); [done|]. unfold p.
    apply (f_equal length) in Hst1. rewrite !length_app, (concat_full _ Hfl1) in Hst1. lia. }
  destruct (run_ok acts2 w1 seed bl1 part1 o p Hw1 Hp1) as (w2 & bl2 & part2 & Hrun2 & Hw2 & Hst2 & Hcp2 & Hp2 & Hl2);
    [done|congruence|nia|].
  destruct (sync_ok w2 seed (bl1 ++ bl2) part2 o _ Hw2 Hp2) as (c & w3 & Hrun3 & Hex3); [congruence|rewrite length_app; nia|].
  destruct (extends_mod _ _ _ _ _ _ _ Hw2 Hp2 Hex3) as (bl3 & part3 & Hw3 & Hst3 & Hcp3 & Hp3 & Hl3).
  rewrite laid_sync in Hp3. symmetry in Hp3. apply nil_length_inv in Hp3. subst part3. rewrite app_nil_r in Hst3.
  pose proof (laid_length (p + length (laid p acts2)) Sync I) as Hls. pose proof (wr_part _ _ _ _ Hw2) as Hlp2.
  assert (length bl3 ≤ 2)%nat as Hb3 by nia. set (bl := (bl1 ++ bl2) ++ bl3) in *.
  assert (length bl ≤ 2 * (length acts1 + length acts2) + 2)%nat as Hbl by (unfold bl; rewrite !length_app; lia).
  destruct (flush_ok w3 seed bl o Hw3) as (w4 & Hrun4 & Hcp4); [congruence|nia|].
  exists bl, w4. split_and!; [apply Hw3| |done|].
  - unfold bl. rewrite !concat_app, <- Hst3, (app_assoc _ part2), <- (app_assoc (concat bl1)), <- Hst2, (app_assoc (concat bl1)), <- Hst1.
    by rewrite !laid_app, <- !app_assoc.
  - unfold session. rewrite st_bind_run, Hrun1. jw_simpl. destruct (writes_length _ _ _ _ Hw1) as [Hlen1 _].
    rewrite (checkpoint_ok w1 seed bl1 part1 (Z.of_nat o * BLOCK_SIZE) Hw1) by (try congruence; rewrite Hlen1; nia). jw_simpl.
    rewrite Hrun2. jw_simpl. rewrite Hrun3. jw_simpl. rewrite Hrun4. jw_simpl. rewrite Hcp4. jw_simpl.
    assert (take (length bl1) bl = bl1) as Htk by (unfold bl; by rewrite <- app_assoc, take_app_length).
    rewrite Hdiv, Hp1, Hcp3, Hcp2, Hcp1, Htk.
    by replace (Z.of_nat o * BLOCK_SIZE + Z.of_nat (length bl1) * BLOCK_SIZE) with (Z.of_nat (o + length bl1) * BLOCK_SIZE) by lia.
Qed.

(** ** What is read *)
Context (Hcodec : ∀ x rest, decode (bytes x ++ rest) LATEST_VERSION = Decoded x (Z.of_nat (length (bytes x)))).
Context (Heof : decode [] LATEST_VERSION = DecodeError true).

Lemma bytes_ne x : bytes x ≠ [].
Proof. intros Hx. pose proof (Hcodec x []) as Hc. rewrite Hx in Hc. cbn in Hc. congruence. Qed.

Lemma bytes_pos x : (0 < length (bytes x))%nat.
Proof. pose proof (bytes_ne x). destruct (bytes x); [done|cbn; lia]. Qed.

Lemma skip_target q : (if decide (q mod payload = 0) then q else S (q / payload) * payload)%nat = (q + padding q)%nat.
Proof.
  destruct block_size_facts as (_ & Hpos & _ & _). unfold padding. destruct (decide _) as [|Hne]; [lia|].
  pose proof (Nat.div_mod_eq q payload) as Hdm. pose proof (Nat.mod_upper_bound q payload ltac:(lia)) as Hm. nia.
Qed.

Section replay.
Context (read : Z → Z → res (list Z)) (pre tail : list Z) (seed : Z) (bl : list (list Z)) (j0 : nat) (reset : bool).
Context (Hfull : Forall full bl) (Hpre : length pre = (j0 * (payload + 8))%nat).
Context (Hread : ∀ off n, 0 ≤ off → read off n = Ok (take (Z.to_nat n) (drop (Z.to_nat off) (pre ++ encode seed bl ++ tail)))).
Context (Hbound : Z.of_nat (j0 + length bl + 2) * BLOCK_SIZE ≤ u64_max) (Htail : (payload + 8 ≤ length tail)%nat).
Context (Hbad : ∀ allow, verify_checksum (take payload tail) (stored tail) (ck seed bl (length bl)) allow =
  Ok (if allow && reset then CkReset else CkBad)).
#[local] Abbreviation at_stream := (reads tail seed bl j0 reset).

(** What happens at the end of the blocks. *)
Definition ends (m : nat) (l : list (T + Version)) (Q : JournalReader → Prop) : Prop :=
  ∀ r n fuel, at_stream r (length bl * payload) n → (first_read r = false ∨ reset = false) → rversion r = LATEST_VERSION →
    (m < fuel)%nat → ∃ r', read_records read fuel r = (Ok l, r') ∧ Q r'.

Lemma read_one x r p n rest : at_stream r p n → rversion r = LATEST_VERSION → drop p (concat bl) = bytes x ++ rest →
  (length (bytes x) ≤ payload)%nat →
  ∃ r' n', JournalReader.deserialize read decode r = (Ok (RSome x), r') ∧ at_stream r' (p + length (bytes x)) n' ∧
    first_read r' = false ∧ rversion r' = LATEST_VERSION ∧ drop (p + length (bytes x)) (concat bl) = rest.
Proof.
  intros Hr Hv Hd Hl.
  destruct (deserialize_ok read pre tail seed bl j0 Hfull Hpre Hread Hbound reset Htail Hbad decode r p n (bytes x) rest x Hr Hd)
    as (r' & n' & Hrun & Hr' & Hf' & Hv'); [apply bytes_ne|done|by rewrite Hv|].
  exists r', n'. split_and!; [done..|congruence|]. by rewrite <- drop_drop, Hd, drop_app_length.
Qed.

Lemma read_acts_ok m l Q : ends m l Q → ∀ acts r p n fuel, at_stream r p n → rversion r = LATEST_VERSION →
  (p ≤ length bl * payload)%nat → drop p (concat bl) = laid p acts → Forall fits acts →
  (first_read r = false ∨ reset = false ∨ laid p acts ≠ []) → (m + length acts < fuel)%nat →
  ∃ r', read_records read fuel r = (Ok ((inl <$> records acts) ++ l), r') ∧ Q r'.
Proof.
  intros Hends. induction acts as [|[x|] acts IH]; intros r p n fuel Hr Hv Hp Hd Hf Hne Hfuel.
  - assert (p = length bl * payload)%nat as ->.
    { apply (f_equal length) in Hd. rewrite length_drop, concat_full in Hd by done. cbn in Hd. lia. }
    cbn in *. apply (Hends r n fuel Hr); [|done|lia]. cbn in Hne. tauto.
  - apply Forall_cons in Hf as [[Hlx Hx] Hf]. cbn [laid length] in *. destruct fuel as [|fuel]; [lia|].
    destruct (read_one x r p n _ Hr Hv Hd Hlx) as (r1 & n1 & Hrun1 & Hr1 & Hf1 & Hv1 & Hd1).
    assert (p + length (bytes x) ≤ length bl * payload)%nat as Hp1.
    { apply (f_equal length) in Hd. rewrite length_drop, concat_full, length_app in Hd by done.
      pose proof (bytes_pos x). lia. }
    destruct (IH r1 _ n1 fuel Hr1 Hv1 Hp1 Hd1 Hf) as (r' & Hrun' & HQ); [by left|lia|].
    exists r'. split; [|done]. cbn [read_records]. rewrite st_bind_run, Hrun1. cbn. rewrite decide_False by done.
    rewrite st_bind_run, Hrun'. done.
  - apply Forall_cons in Hf as [_ Hf]. cbn [laid length] in *. destruct (decide (p mod payload = 0)%nat) as [Hz|Hnz].
    { apply (IH r p n fuel); try done. lia. }
    destruct fuel as [|fuel]; [lia|]. set (q := (p + length (bytes EndBlock))%nat) in *.
    destruct (read_one EndBlock r p n _ Hr Hv Hd Hend) as (r1 & n1 & Hrun1 & Hr1 & Hf1 & Hv1 & Hd1). fold q in Hr1, Hd1.
    destruct (skip_ok pre tail seed bl j0 Hfull Hpre Hbound reset Htail r1 q n1 Hr1 Hf1) as (r2 & Hrun2 & Hf2 & Hv2 & Hr2).
    rewrite skip_target in Hr2.
    assert (q + padding q ≤ length bl * payload)%nat as Hp2.
    { apply (f_equal length) in Hd. rewrite length_drop, concat_full, !length_app, length_replicate in Hd by done.
      pose proof (bytes_pos EndBlock). unfold q in *. lia. }
    destruct (IH r2 _ n1 fuel Hr2 ltac:(congruence) Hp2) as (r' & Hrun' & HQ); [|done|by left|lia|].
    { by rewrite <- drop_drop, Hd1, drop_app_length' by (by rewrite length_replicate). }
    exists r'. split; [|done]. cbn [read_records]. rewrite st_bind_run, Hrun1. cbn. rewrite decide_True by done.
    by rewrite st_bind_run, Hrun2.
Qed.

Lemma new_reads p c : (p / payload ≤ length bl)%nat →
  c = mkCheckpoint (Z.of_nat (j0 + p / payload) * BLOCK_SIZE + Z.of_nat (p mod payload)) (ck seed bl (p / payload)) (version c) →
  at_stream (JournalReader.new c) p (p / payload).
Proof.
  intros Hp Hc. destruct block_size_facts as (Hbs & Hpos & _ & _). pose proof (Nat.mod_upper_bound p payload ltac:(lia)) as Hm.
  unfold JournalReader.new. rewrite Hc. split; cbn [read_offset buf_file_offset checksums found_reset bad_checksum first_read
    buf_start buf_end rbuf file_offset checksum]; try done.
  - rewrite (Z.add_comm (Z.of_nat (j0 + p / payload) * BLOCK_SIZE)), Z.mod_add, Z.mod_small by lia. lia.
  - by rewrite Nat.sub_diag.
Qed.

Lemma ends_mismatch : reset = false →
  ends 0 [] (λ r', JournalReader.journal_file_checkpoint r' =
    Ok (mkCheckpoint (Z.of_nat (j0 + length bl) * BLOCK_SIZE) (chain seed bl) LATEST_VERSION)).
Proof.
  intros Hrs r n fuel Hr _ Hv Hfuel. destruct fuel as [|fuel]; [lia|].
  destruct (mismatch_ok read pre tail seed bl j0 Hfull Hpre Hread Hbound reset Htail Hbad decode r n Hr Hrs) as (r' & Hrun & Hc);
    [by rewrite Hv|]. exists r'. rewrite Hv in Hc. split; [|done]. cbn [read_records]. by rewrite st_bind_run, Hrun.
Qed.
End replay.

(** ** The round trip *)

(** A file that holds the given bytes. *)
Definition read_file (f : list Z) (off n : Z) : res (list Z) := Ok (take (Z.to_nat n) (drop (Z.to_nat off) f)).

(** What follows is neither the block behind [c] nor one behind a reset. *)
Definition unrelated (tail : list Z) (c : JournalCheckpoint) : Prop :=
  (payload + 8 ≤ length tail)%nat ∧ ∀ allow, verify_checksum (take payload tail) (stored tail) (checksum c) allow = Ok CkBad.

(** A writer that has nothing left to flush, at block [o] of the file. *)
Definition fresh (w : JournalWriter) (o : nat) : Prop :=
  block_size w = BLOCK_SIZE ∧ buf w = [] ∧ file_offset (checkpoint w) = Z.of_nat o * BLOCK_SIZE ∧
  version (checkpoint w) = LATEST_VERSION.

Lemma fresh_writes w o : fresh w o → writes w (last_checksum w) [] [].
Proof. intros (Hs & Hb & _). destruct block_size_facts as (_ & Hpos & _). split; [done|constructor|done|by rewrite Hb|done]. Qed.

(** C7: Everything that was written behind a checkpoint is read back from there,
    in order, and the reader ends where the writer goes on: whatever else was
    written before, and however the records lie in the blocks. *)
Theorem journal_round_trip acts1 acts2 w o : fresh w o → Forall fits (acts1 ++ acts2) →
  Z.of_nat (o + 2 * length (acts1 ++ acts2) + 4) * BLOCK_SIZE ≤ u64_max →
  ∃ c c' flushed w', session acts1 acts2 w = (Ok (c, (Z.of_nat o * BLOCK_SIZE, flushed), c'), w') ∧
    ∀ pre tail fuel, Z.of_nat (length pre) = Z.of_nat o * BLOCK_SIZE → unrelated tail c' → (S (length acts2) < fuel)%nat →
      ∃ r, read_records (read_file (pre ++ flushed ++ tail)) fuel (JournalReader.new c) = (Ok (inl <$> records acts2), r) ∧
        JournalReader.journal_file_checkpoint r = Ok c'.
Proof.
  intros Hw Hf Hu. pose proof (fresh_writes _ _ Hw) as Hwr. destruct Hw as (_ & _ & Ho & Hv). destruct block_size_facts as (Hbs & Hpos & _ & _).
  destruct (session_ok acts1 acts2 w (last_checksum w) [] o Hwr Hf Ho Hu) as (bl & w' & Hfull & Hcat & Hlb & Hrun).
  cbn [length app Nat.add] in *. set (p := length (laid 0 acts1)) in *. rewrite Hv in Hrun.
  assert (p ≤ length bl * payload)%nat as Hp by (rewrite <- concat_full, Hcat, laid_app, length_app by done; lia).
  assert (p / payload ≤ length bl)%nat as Hpd by (apply Nat.Div0.div_le_upper_bound; lia).
  eexists _, _, _, w'. split; [exact Hrun|]. intros pre tail fuel Hpre [Htail Hbad] Hfuel.
  assert (length pre = o * (payload + 8))%nat as Hpre' by nia.
  set (read := read_file (pre ++ encode (last_checksum w) bl ++ tail)).
  assert (∀ off n, 0 ≤ off → read off n = Ok (take (Z.to_nat n) (drop (Z.to_nat off) (pre ++ encode (last_checksum w) bl ++ tail)))) as Hread
    by done.
  assert (Z.of_nat (o + length bl + 2) * BLOCK_SIZE ≤ u64_max) as Hbound by nia.
  assert (∀ allow, verify_checksum (take payload tail) (stored tail) (ck (last_checksum w) bl (length bl)) allow =
    Ok (if allow && false then CkReset else CkBad)) as Hbad'.
  { intros allow. rewrite andb_false_r. unfold ck. rewrite firstn_all. apply Hbad. }
  pose proof (ends_mismatch read pre tail (last_checksum w) bl o false Hfull Hpre' Hread Hbound Htail Hbad' eq_refl) as He.
  apply Forall_app in Hf as [_ Hf2].
  destruct (read_acts_ok read pre tail (last_checksum w) bl o false Hfull Hpre' Hread Hbound Htail Hbad' 0 [] _ He (acts2 ++ [Sync])
    (JournalReader.new (mkCheckpoint (Z.of_nat (o + p / payload) * BLOCK_SIZE + Z.of_nat (p mod payload))
      (ck (last_checksum w) bl (p / payload)) LATEST_VERSION)) p (p / payload) fuel) as (r & Hrun' & Hc).
  - by apply (new_reads pre).
  - done.
  - done.
  - rewrite Hcat, laid_app. by apply drop_app_length.
  - apply Forall_app. split; [done|]. by constructor.
  - by right; left.
  - rewrite length_app. cbn. lia.
  - exists r. split; [|done]. rewrite app_nil_r, records_sync in Hrun'. exact Hrun'.
Qed.

(** ** Resets *)
Lemma restart_ok w c o : block_size w = BLOCK_SIZE → buf w = [] → file_offset c = Z.of_nat o * BLOCK_SIZE →
  ∃ w', restart c w = (Ok tt, w') ∧ writes w' (Z.lxor (checksum c) RESET_XOR) [] version_bytes ∧
    file_offset (checkpoint w') = Z.of_nat o * BLOCK_SIZE ∧ version (checkpoint w') = LATEST_VERSION.
Proof.
  intros Hs Hb Ho. destruct block_size_facts as (Hbs & Hpos & _ & _). pose proof block_size_eq as Hp.
  unfold restart, JournalWriter.seek. jw_simpl. rewrite bool_decide_true by done. cbn [rassert file_offset]. rewrite Hs, Ho.
  rewrite u64_rem_ok by lia. jw_simpl. rewrite Z_mod_mult. cbn [Z.eqb rassert]. jw_simpl. cbn [checksum].
  match goal with |- context [st_for _ _ ?w0] => destruct (write_pieces_ok (Version.serialize_into LATEST_VERSION) w0
    (Z.lxor (checksum c) RESET_XOR) [] []) as (w' & Hrun & bl' & part' & Hw' & Hst & Hcp) end.
  { split; cbn; [done|constructor|lia|done|done]. }
  change (concat (Version.serialize_into LATEST_VERSION)) with version_bytes in Hst.
  pose proof (wr_full _ _ _ _ Hw') as Hf. cbn [app] in Hf, Hst, Hw'. assert (bl' = []) as ->.
  { apply (f_equal length) in Hst. rewrite length_app, concat_full in Hst by done. cbn [length version_bytes] in Hst.
    destruct bl'; [done|cbn in Hst; lia]. }
  cbn [concat app] in Hst. subst part'. exists w'. rewrite Hcp. by split_and!.
Qed.

Lemma laid_records p acts : records acts ≠ [] → laid p (acts ++ [Sync]) ≠ [].
Proof.
  revert p. induction acts as [|[x|] acts IH]; intros p Hne; cbn [app laid]; [done| |].
  - pose proof (bytes_ne x). by destruct (bytes x).
  - destruct (decide _); [by apply IH|]. pose proof (bytes_ne EndBlock). by destruct (bytes EndBlock).
Qed.

(** Where the blocks end, the reader goes on with those behind the reset. *)
Lemma ends_reset read pre seed bl j0 bl2 tail2 acts : Forall full bl → Forall full bl2 → is_u64 seed →
  length pre = (j0 * (payload + 8))%nat →
  let seed2 := Z.lxor (chain seed bl) RESET_XOR in let tail := encode seed2 bl2 ++ tail2 in
  (∀ off n, 0 ≤ off → read off n = Ok (take (Z.to_nat n) (drop (Z.to_nat off) (pre ++ encode seed bl ++ tail)))) →
  Z.of_nat (j0 + length bl + length bl2 + 2) * BLOCK_SIZE ≤ u64_max → (payload + 8 ≤ length tail2)%nat →
  (∀ allow, verify_checksum (take payload tail2) (stored tail2) (chain seed2 bl2) allow = Ok CkBad) →
  concat bl2 = version_bytes ++ laid 4 acts → Forall fits acts →
  (payload + 8 ≤ length tail)%nat ∧
  (∀ allow, verify_checksum (take payload tail) (stored tail) (ck seed bl (length bl)) allow = Ok (if allow && true then CkReset else CkBad)) ∧
  ends read tail seed bl j0 true (S (length acts)) (inr LATEST_VERSION :: (inl <$> records acts))
    (λ r', JournalReader.journal_file_checkpoint r' =
      Ok (mkCheckpoint (Z.of_nat (j0 + length bl + length bl2) * BLOCK_SIZE) (chain seed2 bl2) LATEST_VERSION)).
Proof.
  intros Hfull Hfull2 Hseed Hpre seed2 tail Hread Hu Htail2 Hbad2 Hcat Hf. destruct block_size_facts as (Hbs & Hpos & _ & _).
  pose proof block_size_eq as Hpay. destruct bl2 as [|b bl2]; [done|]. pose proof (Forall_cons_1 _ _ _ Hfull2) as [Hb _].
  destruct (reset_block b (chain seed bl) (encode (digest b seed2) bl2 ++ tail2) Hb (chain_u64 _ _ Hseed Hfull)) as (Htk & Hst & Hver).
  fold seed2 in Htk, Hst, Hver.
  assert (tail = b ++ le_split 8 (digest b seed2) ++ encode (digest b seed2) bl2 ++ tail2) as Ht
    by (unfold tail; cbn [encode]; by rewrite <- !app_assoc). rewrite <- Ht in Htk, Hst.
  assert (payload + 8 ≤ length tail)%nat as Htail.
  { rewrite Ht, !length_app, length_le_split. unfold full in Hb. lia. }
  assert (∀ allow, verify_checksum (take payload tail) (stored tail) (ck seed bl (length bl)) allow =
    Ok (if allow && true then CkReset else CkBad)) as Hbad by (intros allow; unfold ck; rewrite Htk, Hst, firstn_all; apply Hver).
  split_and!; [done..|]. intros r n fuel Hr Hfr Hv Hfuel. destruct fuel as [|fuel]; [lia|].
  assert (Version.deserialize_from (take payload tail) = Decoded LATEST_VERSION 4) as Hvd.
  { rewrite Htk. by apply (version_block b bl2 (laid 4 acts)). }
  destruct (reset_ok read pre tail seed bl j0 Hfull Hpre Hread ltac:(nia) true Htail Hbad decode r n LATEST_VERSION Hr)
    as (r1 & Hr1 & Hrun1); [by destruct Hfr|done|by rewrite Hv|done|].
  pose proof (restarts_reads r1 _ tail seed bl j0 b bl2 tail2 Hr1 Hb eq_refl) as Hr1'. fold seed2 in Hr1'.
  set (pre2 := pre ++ encode seed bl).
  assert (length pre2 = (j0 + length bl) * (payload + 8))%nat as Hpre2 by (unfold pre2; rewrite length_app, length_encode, Hpre by done; lia).
  assert (∀ off n, 0 ≤ off → read off n = Ok (take (Z.to_nat n) (drop (Z.to_nat off) (pre2 ++ encode seed2 (b :: bl2) ++ tail2)))) as Hread2
    by (intros off n' Hoff; unfold pre2; rewrite <- app_assoc; by apply Hread).
  assert (∀ allow, verify_checksum (take payload tail2) (stored tail2) (ck seed2 (b :: bl2) (length (b :: bl2))) allow =
    Ok (if allow && false then CkReset else CkBad)) as Hbad2'
    by (intros allow; unfold ck; rewrite firstn_all, andb_false_r; apply Hbad2).
  destruct (consume_ok pre2 tail2 seed2 (b :: bl2) (j0 + length bl) Hfull2 Hpre2 Hu false Htail2 r1 0 1 4 Hr1')
    as (r2 & Hrun2 & Hr2 & Hf2 & Hv2); [apply Hr1|lia|lia|].
  pose proof (ends_mismatch read pre2 tail2 seed2 (b :: bl2) (j0 + length bl) false Hfull2 Hpre2 Hread2 Hu Htail2 Hbad2' eq_refl) as He.
  destruct (read_acts_ok read pre2 tail2 seed2 (b :: bl2) (j0 + length bl) false Hfull2 Hpre2 Hread2 Hu Htail2 Hbad2' 0 [] _ He acts r2 4 1 fuel)
    as (r' & Hrun' & Hc); [done|rewrite Hv2; apply Hr1|cbn [length]; lia|by rewrite Hcat|done|by left|lia|].
  exists r'. split; [|done]. cbn [read_records]. rewrite app_nil_r in Hrun'. rewrite st_bind_run, Hrun1, st_bind_run. change 4 with (Z.of_nat 4). rewrite Hrun2.
  cbn. by rewrite st_bind_run, Hrun'.
Qed.


(** A reader does not accept a reset in the first block it reads. *)
Lemma first_block_bad read c block : read (file_offset c) BLOCK_SIZE = Ok block → file_offset c `mod` BLOCK_SIZE = 0 →
  length block = (payload + 8)%nat → version c = LATEST_VERSION →
  verify_checksum (take payload block) (le_combine (drop payload block)) (checksum c) false = Ok CkBad →
  ∃ r, JournalReader.deserialize read decode (JournalReader.new c) = (Ok ChecksumMismatch, r).
Proof.
  intros Hread Hm Hlen Hv Hver. destruct block_size_facts as (Hbs & Hpos & _ & _).
  unfold JournalReader.deserialize. rewrite st_bind_run. unfold JournalReader.fill_buf, JournalReader.new. jr_simpl.
  cbn [orb]. rewrite u64_sub_ok by lia. jr_simpl. rewrite (proj2 (Z.leb_gt _ _)) by (unfold checksum_size; lia).
  change (copy_within [] 0 0) with (Ok (@nil Z)). jr_simpl. cbn [JournalReader.fill_loop]. jr_simpl. rewrite u64_sub_ok by lia. jr_simpl.
  rewrite (proj2 (Z.ltb_lt _ _)) by (unfold checksum_size; lia). rewrite st_bind_run. unfold JournalReader.fill_step. jr_simpl.
  rewrite Hm, Z.sub_0_r. cbn [JournalReader.last_read_checksum last checksums unwrap]. jr_simpl. rewrite ?Hm, ?Z.sub_0_r. cbn [Z.eqb rassert]. rewrite ?Hm. cbn [Z.eqb rassert]. rewrite Hread. jr_simpl.
  rewrite (proj2 (Z.eqb_eq _ _)) by lia. cbn [negb]. jr_simpl. rewrite payload_nat, Hver. jr_simpl. cbn [Z.to_nat take app].
  unfold JournalReader.buffer. cbn [rbuf buf_start buf_end].
  assert (∀ l, slice l 0 0 = Ok []) as -> by (intros l; apply (slice_within l 0 0); lia).
  jr_simpl. rewrite Hv, Heof. by eexists.
Qed.

(** C30: A reset is only accepted behind a block that has been read: when the
    writer goes on right at a checkpoint, nothing of what it writes is read from
    there. *)
Theorem journal_reset_at_checkpoint acts w w0 o : fresh w o → is_u64 (last_checksum w) → block_size w0 = BLOCK_SIZE → buf w0 = [] →
  Forall fits acts → Z.of_nat (o + 2 * length acts + 4) * BLOCK_SIZE ≤ u64_max →
  ∃ c c2 c3 flushed w2, JournalWriter.journal_file_checkpoint w = Ok c ∧
    (_ ← restart c; session [] acts) w0 = (Ok (c2, (file_offset c, flushed), c3), w2) ∧
    ∀ pre tail fuel, Z.of_nat (length pre) = Z.of_nat o * BLOCK_SIZE → (0 < fuel)%nat →
      ∃ r, read_records (read_file (pre ++ flushed ++ tail)) fuel (JournalReader.new c) = (Ok [], r).
Proof.
  intros Hw Hck Hs0 Hb0 Hf Hu. pose proof (fresh_writes _ _ Hw) as Hwr. destruct Hw as (_ & Hb & Ho & Hv).
  destruct block_size_facts as (Hbs & Hpos & _ & _). set (seed := last_checksum w) in *.
  set (c := mkCheckpoint (Z.of_nat o * BLOCK_SIZE) seed LATEST_VERSION).
  destruct (restart_ok w0 c o Hs0 Hb0 eq_refl) as (w0' & Hrun0 & Hwr0 & Ho0 & Hv0). cbn [checksum c] in Hwr0.
  destruct (session_ok [] acts w0' _ version_bytes o Hwr0 Hf Ho0) as (bl & w2 & Hfull & Hcat & _ & Hrun); [cbn; nia|].
  exists c. eexists _, _, _, w2. split_and!.
  - rewrite (checkpoint_ok w seed [] [] _ Hwr Ho) by (rewrite Hb; cbn; nia). cbn. rewrite Hv. by rewrite !Z.add_0_r.
  - rewrite st_bind_run, Hrun0. exact Hrun.
  - intros pre tail fuel Hpre Hfuel. destruct fuel as [|fuel]; [lia|]. destruct bl as [|b bl]; [done|].
    pose proof (Forall_cons_1 _ _ _ Hfull) as [Hfb _]. assert (length pre = o * (payload + 8))%nat as Hpre' by nia.
    set (block := b ++ le_split 8 (digest b (Z.lxor seed RESET_XOR))).
    assert (length block = payload + 8)%nat as Hlb by (unfold block; rewrite length_app, length_le_split; unfold full in Hfb; lia).
    destruct (reset_block b seed [] Hfb Hck) as (_ & _ & Hver). destruct (digest_ok b (Z.lxor seed RESET_XOR) Hfb) as [_ Hr].
    cbn [encode]. rewrite (app_assoc b), <- (app_assoc (b ++ _)). fold block.
    edestruct (first_block_bad (read_file (pre ++ block ++ encode (digest b (Z.lxor seed RESET_XOR)) bl ++ tail)) c block) as [r Hrun'].
    + unfold read_file, c. cbn [file_offset]. rewrite block_nat. f_equal. rewrite drop_app_length' by lia. by apply take_app_length'.
    + cbn [file_offset c]. by rewrite Z_mod_mult.
    + done.
    + done.
    + unfold block. rewrite take_app_length', drop_app_length' by done. rewrite le_combine_split_id by done. apply (Hver false).
    + exists r. cbn [read_records]. by rewrite st_bind_run, Hrun'.
Qed.
End journal.

(** ** Instances of the journal's theorems

    Records of one and two bytes, written and read at the size of the
    journal's blocks. *)

Module Demo.
(** [None] ends a block. *)
Definition pieces (x : option Z) : list (list Z) :=
  match x with None => [[0]] | Some z => [[1]; [z]] end.

Definition decode (l : list Z) (_ : Version) : decoded (option Z) :=
  match l with
  | 0 :: _ => Decoded None 1
  | 1 :: z :: _ => Decoded (Some z) 2
  | _ => DecodeError true
  end.

Lemma codec x rest : decode (bytes pieces x ++ rest) LATEST_VERSION = Decoded x (Z.of_nat (length (bytes pieces x))).
Proof. by destruct x. Qed.

Lemma end_fits : (length (bytes pieces None) ≤ payload)%nat.
Proof. rewrite block_size_eq. cbn. lia. Qed.

Definition writer : JournalWriter := JournalWriter.new BLOCK_SIZE 0.
Definition zeros : list Z := replicate 4096 0.

Lemma writer_fresh : fresh writer 0.
Proof. by split_and!. Qed.

Lemma acts_fit acts : Forall (λ a, match a with Put x => x ≠ None | Sync => True end) acts → Forall (fits pieces None) acts.
Proof.
  intros Ha. eapply Forall_impl; [exact Ha|]. intros [[z|]|]; cbn [fits]; [|done|done]. intros Hz. split; [|done]. rewrite block_size_eq. cbn. lia.
Qed.

Definition end_point (p : res (JournalCheckpoint * (Z * list Z) * JournalCheckpoint) * JournalWriter) : option JournalCheckpoint :=
  match p with (Ok (_, _, c), _) => Some c | _ => None end.
Definition end_checksum (p : res (JournalCheckpoint * (Z * list Z) * JournalCheckpoint) * JournalWriter) : Z :=
  match p with (Ok (_, _, c), _) => checksum c | _ => 0 end.

Lemma zeros_unrelated c k : checksum c = k →
  verify_checksum (replicate 4088 0) 0 k true = Ok CkBad → verify_checksum (replicate 4088 0) 0 k false = Ok CkBad → unrelated zeros c.
Proof.
  intros <- Ht Hf. unfold unrelated, zeros. rewrite block_size_eq. split; [rewrite length_replicate; lia|].
  assert (stored (replicate 4096 0) = 0) as -> by by vm_compute. rewrite take_replicate.
  change (4088 `min` 4096)%nat with 4088%nat. intros [|]; done.
Qed.

(** The checksums at the end of the sessions below. *)
Definition end1 : Z := Eval vm_compute in
  end_checksum (session pieces None [Put (Some 7)] [Put (Some 8); Sync; Put (Some 9)] writer).
Definition end2 : Z := Eval vm_compute in end_checksum (session pieces None [Sync] [Put (Some 8)] writer).
Definition remounted (c : JournalCheckpoint) : st JournalWriter (JournalCheckpoint * (Z * list Z) * JournalCheckpoint) :=
  _ ← restart c; session pieces None [] [Put (Some 9)].
Definition end3 : Z := Eval vm_compute in end_checksum (remounted (mkCheckpoint 4096 end2 LATEST_VERSION) writer).
End Demo.

Lemma journal_round_trip_witness :
  let acts1 := [Put (Some 7)] in let acts2 := [Put (Some 8); Sync; Put (Some 9)] in
  ∃ c c' flushed w' r, session Demo.pieces None acts1 acts2 Demo.writer = (Ok (c, (0, flushed), c'), w') ∧
    read_records Demo.decode None (read_file (flushed ++ Demo.zeros)) 10 (JournalReader.new c) = (Ok [inl (Some 8); inl (Some 9)], r) ∧
    JournalReader.journal_file_checkpoint r = Ok c'.
Proof.
  intros acts1 acts2.
  destruct (journal_round_trip Demo.pieces Demo.decode None Demo.end_fits Demo.codec eq_refl acts1 acts2 Demo.writer 0 Demo.writer_fresh)
    as (c & c' & flushed & w' & Hrun & Hread); [apply Demo.acts_fit; by repeat constructor|by vm_compute|].
  assert (Demo.end_checksum (session Demo.pieces None acts1 acts2 Demo.writer) = Demo.end1) as Hc by (vm_compute; reflexivity).
  rewrite Hrun in Hc.
  assert (unrelated Demo.zeros c') as Hun by (apply (Demo.zeros_unrelated c' Demo.end1 Hc); vm_compute; reflexivity).
  destruct (Hread [] Demo.zeros 10%nat eq_refl Hun ltac:(cbn; lia)) as (r & Hr & Hcp).
  exists c, c', flushed, w', r. by split_and!.
Defined.


Lemma journal_reset_at_checkpoint_witness :
  ∃ c c2 c3 flushed w2 r, JournalWriter.journal_file_checkpoint Demo.writer = Ok c ∧
    (_ ← restart c; session Demo.pieces None [] [Put (Some 9)]) Demo.writer = (Ok (c2, (file_offset c, flushed), c3), w2) ∧
    read_records Demo.decode None (read_file (flushed ++ Demo.zeros)) 10 (JournalReader.new c) = (Ok [], r).
Proof.
  destruct (journal_reset_at_checkpoint Demo.pieces Demo.decode None Demo.end_fits eq_refl [Put (Some 9)] Demo.writer Demo.writer 0
    Demo.writer_fresh ltac:(by vm_compute) eq_refl eq_refl) as (c & c2 & c3 & flushed & w2 & Hc & Hrun & Hread);
    [apply Demo.acts_fit; by repeat constructor|by vm_compute|].
  destruct (Hread [] Demo.zeros 10%nat eq_refl ltac:(lia)) as (r & Hr). exists c, c2, c3, flushed, w2, r. by split_and!.
Defined.
