(* ===== verification/LockKeys.v ===== *)
(** * Lock keys

    [LockKey] and [LockKeys] of [fxfs/src/object_store/transaction.rs]: what is
    locked, the order in which it is, and the container of keys that keeps a
    single one inline. *)

From S2P Require Import Prelude.

(** ** Keys *)
Inductive LockKey : Type :=
| Filesystem
| Flush (object_id : Z)
| ObjectAttribute (store_object_id object_id attribute_id : Z)
| Object_ (store_object_id object_id : Z)
| ProjectId (store_object_id project_id : Z)
| Truncate (store_object_id object_id : Z).

#[global] Instance LockKey_eq_dec : EqDecision LockKey.
Proof. solve_decision. Defined.

Module LockKey.
Definition object_attribute (store_object_id object_id attribute_id : Z) : LockKey :=
  ObjectAttribute store_object_id object_id attribute_id.
Definition object (store_object_id object_id : Z) : LockKey := Object_ store_object_id object_id.
Definition flush (object_id : Z) : LockKey := Flush object_id.
Definition truncate (store_object_id object_id : Z) : LockKey := Truncate store_object_id object_id.

(** The variant and its fields in the order they are declared, which is what
    the derived [Ord] compares. *)
Definition fields (k : LockKey) : list Z :=
  match k with
  | Filesystem => [0]
  | Flush o => [1; o]
  | ObjectAttribute s o a => [2; s; o; a]
  | Object_ s o => [3; s; o]
  | ProjectId s p => [4; s; p]
  | Truncate s o => [5; s; o]
  end.

Fixpoint lex (a b : list Z) : comparison :=
  match a, b with
  | [], [] => Eq
  | [], _ => Lt
  | _, [] => Gt
  | x :: a, y :: b => cmp_then (x ?= y) (lex a b)
  end.

Definition cmp (a b : LockKey) : comparison := lex (fields a) (fields b).

Lemma fields_inj a b : fields a = fields b → a = b.
Proof. destruct a, b; cbn; intros [=]; by subst. Qed.

Lemma lex_eq a b : lex a b = Eq ↔ a = b.
Proof.
  revert b. induction a as [|x a IH]; intros [|y b]; cbn; try done.
  unfold cmp_then. destruct (Z.compare_spec x y) as [->|?|?]; [|split; [done|intros [=]; lia]..].
  rewrite IH. naive_solver.
Qed.

Lemma lex_antisym a b : lex b a = CompOpp (lex a b).
Proof.
  revert b. induction a as [|x a IH]; intros [|y b]; cbn; try done.
  unfold cmp_then. rewrite (Z.compare_antisym x y). destruct (x ?= y); cbn; [apply IH|done..].
Qed.

Lemma lex_trans a b c : lex a b ≠ Gt → lex b c ≠ Gt → lex a c ≠ Gt.
Proof.
  revert b c. induction a as [|x a IH]; intros [|y b] [|z c]; cbn; try done.
  unfold cmp_then. destruct (Z.compare_spec x y), (Z.compare_spec y z), (Z.compare_spec x z);
    subst; try done; try lia. apply IH.
Qed.

Definition le (a b : LockKey) : Prop := cmp a b ≠ Gt.
Definition lt (a b : LockKey) : Prop := cmp a b = Lt.

#[global] Instance le_dec a b : Decision (le a b).
Proof. unfold le. apply _. Defined.
#[global] Instance le_trans : Transitive le.
Proof. intros a b c. apply lex_trans. Qed.
#[global] Instance le_total : Total le.
Proof. intros a b. unfold le, cmp. rewrite (lex_antisym (fields a)). destruct (lex _ _); cbn; auto. Qed.
#[global] Instance le_antisym : AntiSymm (=) le.
Proof.
  intros a b. unfold le, cmp. rewrite (lex_antisym (fields a)). intros H1 H2.
  apply fields_inj, lex_eq. by destruct (lex _ _).
Qed.

Lemma lt_iff a b : lt a b ↔ le a b ∧ a ≠ b.
Proof.
  unfold lt, le, cmp. split.
  - intros H. rewrite H. split; [done|]. intros ->. pose proof (proj2 (lex_eq (fields b) _) eq_refl). congruence.
  - intros [H Hne]. destruct (lex _ _) eqn:E; [|done..]. by apply lex_eq, fields_inj in E.
Qed.
End LockKey.

(** For maps keyed by lock keys. *)
Definition LockKey_decode (l : list Z) : option LockKey :=
  match l with
  | [0] => Some Filesystem
  | [1; o] => Some (Flush o)
  | [2; s; o; a] => Some (ObjectAttribute s o a)
  | [3; s; o] => Some (Object_ s o)
  | [4; s; p] => Some (ProjectId s p)
  | [5; s; o] => Some (Truncate s o)
  | _ => None
  end.
#[global] Instance LockKey_countable : Countable LockKey.
Proof. refine (inj_countable LockKey.fields LockKey_decode _). by intros []. Defined.

(** ** Containers of keys *)
Inductive LockKeys : Type :=
| NoKeys
| Inline (key : LockKey)
| Vec (keys : list LockKey).

(** What an iterator has left. *)
Inductive LockKeysIter : Type :=
| IterNone
| IterInline (key : LockKey)
| IterVec (keys : list LockKey).

Module LockKeysIter.
Definition next (it : LockKeysIter) : option LockKey * LockKeysIter :=
  match it with
  | IterNone => (None, IterNone)
  | IterInline k => (Some k, IterNone)
  | IterVec [] => (None, IterVec [])
  | IterVec (k :: l) => (Some k, IterVec l)
  end.

(** What a [for] loop over the iterator goes through. *)
Definition items (it : LockKeysIter) : list LockKey :=
  match it with IterNone => [] | IterInline k => [k] | IterVec l => l end.

Lemma next_items it : let '(k, it') := next it in items it = match k with None => [] | Some k => k :: items it' end.
Proof. by destruct it as [| |[|]]. Qed.
End LockKeysIter.

Module LockKeys.
Definition with_capacity (capacity : Z) : LockKeys := if 1 <? capacity then Vec [] else NoKeys.

Definition push (ks : LockKeys) (key : LockKey) : LockKeys :=
  match ks with
  | NoKeys => Inline key
  | Inline k => Vec [k; key]
  | Vec l => Vec (l ++ [key])
  end.

Definition truncate (ks : LockKeys) (len : Z) : LockKeys :=
  match ks with
  | NoKeys => NoKeys
  | Inline k => if len =? 0 then NoKeys else Inline k
  | Vec l => Vec (take (Z.to_nat len) l)
  end.

Definition len (ks : LockKeys) : Z :=
  match ks with NoKeys => 0 | Inline _ => 1 | Vec l => Z.of_nat (length l) end.

Definition contains (ks : LockKeys) (key : LockKey) : bool :=
  match ks with
  | NoKeys => false
  | Inline k => bool_decide (k = key)
  | Vec l => bool_decide (key ∈ l)
  end.

Definition sort_unstable (ks : LockKeys) : LockKeys :=
  match ks with Vec l => Vec (merge_sort LockKey.le l) | _ => ks end.

(** [Vec::dedup]: of the keys that are equal and next to one another, the first. *)
Fixpoint dedup_vec (l : list LockKey) : list LockKey :=
  match l with
  | [] => []
  | k :: l => k :: match dedup_vec l with
                   | k' :: l' => if decide (k = k') then l' else k' :: l'
                   | [] => []
                   end
  end.

Definition dedup (ks : LockKeys) : LockKeys :=
  match ks with Vec l => Vec (dedup_vec l) | _ => ks end.

Definition iter (ks : LockKeys) : LockKeysIter :=
  match ks with NoKeys => IterNone | Inline k => IterInline k | Vec l => IterVec l end.

(** [for key in keys.iter()]. *)
Definition keys (ks : LockKeys) : list LockKey := LockKeysIter.items (iter ks).

(** The macro [lock_keys!]. *)
Definition lock_keys (l : list LockKey) : LockKeys :=
  match l with [] => NoKeys | [k] => Inline k | l => Vec l end.

Lemma keys_with_capacity n : keys (with_capacity n) = [].
Proof. unfold with_capacity. by destruct (1 <? n). Qed.

Lemma keys_push ks k : keys (push ks k) = keys ks ++ [k].
Proof. by destruct ks. Qed.

Lemma len_keys ks : len ks = Z.of_nat (length (keys ks)).
Proof. by destruct ks. Qed.

Lemma contains_spec ks k : contains ks k = true ↔ k ∈ keys ks.
Proof.
  destruct ks as [|k0|l]; cbn.
  - by rewrite elem_of_nil.
  - rewrite bool_decide_eq_true, list_elem_of_singleton. naive_solver.
  - by rewrite bool_decide_eq_true.
Qed.

(** Dropping adjacent duplicates of a sorted list leaves each key once. *)
Lemma dedup_vec_sorted l : StronglySorted LockKey.le l → StronglySorted LockKey.lt (dedup_vec l) ∧ ∀ k, k ∈ dedup_vec l ↔ k ∈ l.
Proof.
  induction 1 as [|k l Hs [IHs IHe] Hk]; cbn; [by repeat constructor|].
  rewrite Forall_forall in Hk. setoid_rewrite <- IHe in Hk.
  destruct (dedup_vec l) as [|k' l'] eqn:E.
  - split; [repeat constructor|]. intros k0. rewrite !elem_of_cons, <- IHe. done.
  - apply StronglySorted_cons in IHs as [Hk' Hs']. rewrite Forall_forall in Hk'. case_decide as Hkk.
    + subst k'. split; [by constructor; [|apply Forall_forall]|]. intros k0. rewrite (elem_of_cons l), <- IHe. set_solver.
    + split; [|intros k0; rewrite !(elem_of_cons _ k0), <- IHe; set_solver].
      constructor; [by constructor; [|apply Forall_forall]|]. apply Forall_forall. intros k0 Hk0.
      assert (LockKey.lt k k') as Hlt by (apply LockKey.lt_iff; split; [apply Hk; by left|done]).
      apply elem_of_cons in Hk0 as [->|Hk0]; [done|]. specialize (Hk' _ Hk0).
      apply LockKey.lt_iff in Hk' as [Hle Hne]. apply LockKey.lt_iff. split; [by trans k'; [apply LockKey.lt_iff in Hlt as []|]|].
      intros ->. apply LockKey.lt_iff in Hlt as [Hle' Hne']. apply Hne'. by apply (anti_symm LockKey.le).
Qed.

Lemma sorted_NoDup l : StronglySorted LockKey.lt l → NoDup l.
Proof.
  induction 1 as [|k l _ IH Hk]; constructor; [|done]. rewrite Forall_forall in Hk. intros Hin%Hk.
  by apply LockKey.lt_iff in Hin as [_ ?].
Qed.

(** What [lock] goes through: the keys asked for, each once, in order. *)
Lemma keys_prepared ks :
  StronglySorted LockKey.lt (keys (dedup (sort_unstable ks))) ∧
  ∀ k, k ∈ keys (dedup (sort_unstable ks)) ↔ k ∈ keys ks.
Proof.
  destruct ks as [|k0|l]; cbn; [split; [repeat constructor|done]..|].
  destruct (dedup_vec_sorted (merge_sort LockKey.le l)) as [Hs He]; [apply (StronglySorted_merge_sort _ _)|].
  split; [done|]. intros k. rewrite He. by rewrite merge_sort_Permutation.
Qed.
End LockKeys.
