(* ===== verification/LockManager.v ===== *)
(** * The lock manager

    [LockManager] of [fxfs/src/object_store/transaction.rs]: read locks, write
    locks and transaction locks, which can be upgraded, with a doubly-linked
    list of wakers per key.

    The wakers are pinned in the futures that wait: they live in a memory, by
    address, and following a pointer to one that is gone is a panic here.  A
    section of code that holds the mutex [LockManager::locks] is one step. *)

From S2P Require Import Prelude LockKeys.

Inductive LockState : Type := ReadLock | Locked | WriteLock.

#[global] Instance LockState_eq_dec : EqDecision LockState.
Proof. solve_decision. Defined.

(** The address of a waker, and the task that a [std::task::Waker] wakes. *)
Notation addr := positive (only parsing).
Notation task := positive (only parsing).

Inductive WakerState : Type :=
| Pending
| Registered (waker : task)
| Woken.

#[global] Instance WakerState_eq_dec : EqDecision WakerState.
Proof. solve_decision. Defined.

Definition is_woken (w : WakerState) : bool := match w with Woken => true | _ => false end.

Record LockWaker := mkWaker {
  next : option addr;
  prev : option addr;
  key : LockKey;
  waker : WakerState;
  target_state : LockState;
  is_upgrade : bool;
}.

Definition set_next (w : LockWaker) (p : option addr) : LockWaker :=
  mkWaker p (prev w) (key w) (waker w) (target_state w) (is_upgrade w).
Definition set_prev (w : LockWaker) (p : option addr) : LockWaker :=
  mkWaker (next w) p (key w) (waker w) (target_state w) (is_upgrade w).
Definition set_waker (w : LockWaker) (s : WakerState) : LockWaker :=
  mkWaker (next w) (prev w) (key w) s (target_state w) (is_upgrade w).

Record LockEntry := mkEntry {
  read_count : Z;
  state : LockState;
  head : option addr;
  tail : option addr;
}.

(** The wakers, where the next one will be, and the tasks that have been woken. *)
Record Memory := mkMemory {
  wakers : gmap addr LockWaker;
  fresh_addr : addr;
  woken : list task;
}.

Record Locks := mkLocks {
  keys : gmap LockKey LockEntry;
  memory : Memory;
}.

(** ** One entry and its wakers *)
Module LockEntry.
Notation em := (st (LockEntry * Memory)).

Definition self : em LockEntry := λ s, (Ok s.1, s).
Definition set_head (p : option addr) : em unit := λ '(e, m),
  (Ok tt, (mkEntry (read_count e) (state e) p (tail e), m)).
Definition set_tail (p : option addr) : em unit := λ '(e, m),
  (Ok tt, (mkEntry (read_count e) (state e) (head e) p, m)).
Definition set_state (x : LockState) : em unit := λ '(e, m),
  (Ok tt, (mkEntry (read_count e) x (head e) (tail e), m)).
Definition set_read_count (n : Z) : em unit := λ '(e, m),
  (Ok tt, (mkEntry n (state e) (head e) (tail e), m)).

(** [*p], and writing to a field of it. *)
Definition deref (p : option addr) : em LockWaker := λ '(e, m),
  match p ≫= (wakers m !!.) with Some w => (Ok w, (e, m)) | None => (Panic, (e, m)) end.
Definition update (p : option addr) (f : LockWaker → LockWaker) : em unit := λ '(e, m),
  match p with
  | Some a =>
      match wakers m !! a with
      | Some w => (Ok tt, (e, mkMemory (<[a := f w]> (wakers m)) (fresh_addr m) (woken m)))
      | None => (Panic, (e, m))
      end
  | None => (Panic, (e, m))
  end.

(** [Waker::wake]. *)
Definition wake_task (t : task) : em unit := λ '(e, m),
  (Ok tt, (e, mkMemory (wakers m) (fresh_addr m) (woken m ++ [t]))).

Definition is_null (p : option addr) : bool := match p with None => true | Some _ => false end.

Definition is_allowed (target : LockState) (is_head : bool) : em bool :=
  e ← self;
  match state e with
  | ReadLock =>
      mret (((read_count e =? 0) || bool_decide (target = Locked) || bool_decide (target = ReadLock)) && is_head)
  | Locked =>
      if bool_decide (target = ReadLock) then
        if is_head then mret true else w ← deref (head e); mret (negb (is_upgrade w))
      else mret false
  | WriteLock => mret false
  end.

Definition pop_and_wake : em unit :=
  e ← self;
  let this := head e in
  w ← deref this;
  _ ← set_head (next w);
  _ ← (if is_null (next w) then set_tail None else update (next w) (λ h, set_prev h None));
  _ ← (if bool_decide (target_state w = ReadLock)
       then n ← st_lift (u64_add (read_count e) 1); set_read_count n
       else set_state (target_state w));
  w ← deref this;
  _ ← update this (λ w, set_waker w Woken);
  match waker w with
  | Registered t => wake_task t
  | _ => mret tt
  end.

(** The [while] of [wake]. *)
Fixpoint wake_readers (fuel : nat) : em unit :=
  match fuel with
  | O => st_lift NoFuel
  | S fuel =>
      e ← self;
      if is_null (head e) then mret tt
      else
        w ← deref (head e);
        if bool_decide (target_state w = ReadLock)
        then _ ← pop_and_wake; wake_readers fuel
        else mret tt
  end.

(** No list is longer than there are wakers. *)
Definition fuel : em nat := λ s, (Ok (S (size (wakers s.2))), s).

Definition wake : em unit :=
  e ← self;
  if is_null (head e) || bool_decide (state e = WriteLock) then mret tt
  else
    w ← deref (head e);
    proceed ← (if is_upgrade w then mret (negb (0 <? read_count e)) else is_allowed (target_state w) true);
    if negb proceed then mret tt
    else
      _ ← pop_and_wake;
      if bool_decide (target_state w = WriteLock) then mret tt
      else n ← fuel; wake_readers n.

Definition can_remove (e : LockEntry) : bool :=
  bool_decide (state e = ReadLock) && (read_count e =? 0).

Definition remove_waker (a : addr) : em unit :=
  w ← deref (Some a);
  let is_first := is_null (prev w) in
  _ ← (if is_first then set_head (next w) else update (prev w) (λ p, set_next p (next w)));
  w ← deref (Some a);
  _ ← (if is_null (next w) then set_tail (prev w) else update (next w) (λ n, set_prev n (prev w)));
  if is_first then wake else mret tt.

Definition downgrade_lock : em unit :=
  e ← self;
  _ ← set_state Locked;
  _ ← st_lift (rassert (bool_decide (state e = WriteLock)));
  wake.

(** A new waker behind the others. *)
Definition push_tail (k : LockKey) (target : LockState) : em addr := λ '(e, m),
  let a := fresh_addr m in
  let m := mkMemory (<[a := mkWaker None (tail e) k Pending target false]> (wakers m)) (Pos.succ a) (woken m) in
  ((_ ← (if is_null (tail e) then set_head (Some a) else update (tail e) (λ t, set_next t (Some a)));
    _ ← set_tail (Some a); mret a) : em addr) (e, m).

(** A new waker for an upgrade, before the others. *)
Definition push_head (k : LockKey) : em addr := λ '(e, m),
  let a := fresh_addr m in
  let m := mkMemory (<[a := mkWaker (head e) None k Pending WriteLock true]> (wakers m)) (Pos.succ a) (woken m) in
  ((_ ← (if is_null (head e) then set_tail (Some a) else update (head e) (λ h, set_prev h (Some a)));
    _ ← set_head (Some a); mret a) : em addr) (e, m).
End LockEntry.

(** ** All the locks *)
Module Locks.
(** [keys.get_mut(key).unwrap()] and what is done with it. *)
Definition with_entry {A} (k : LockKey) (f : st (LockEntry * Memory) A) : st Locks A := λ l,
  match keys l !! k with
  | Some e => let '(r, (e, m)) := f (e, memory l) in (r, mkLocks (<[k := e]> (keys l)) m)
  | None => (Panic, l)
  end.

Definition remove_entry (k : LockKey) : st Locks unit := λ l,
  (Ok tt, mkLocks (delete k (keys l)) (memory l)).

(** The entry after one of its holders is gone, and whether to [wake]. *)
Definition release (s : LockState) : st (LockEntry * Memory) bool :=
  match s with
  | ReadLock =>
      e ← LockEntry.self;
      n ← st_lift (u64_sub (read_count e) 1);
      _ ← LockEntry.set_read_count n;
      mret (n =? 0)
  | Locked | WriteLock => _ ← LockEntry.set_state ReadLock; mret true
  end.

Definition drop_lock (k : LockKey) (s : LockState) : st Locks unit :=
  l ← st_get;
  match keys l !! k with
  | Some _ =>
      wake ← with_entry k (release s);
      if (wake : bool) then
        e ← with_entry k (_ ← LockEntry.wake; LockEntry.self);
        if LockEntry.can_remove e then remove_entry k else mret tt
      else mret tt
  | None => st_lift Panic
  end.

Definition drop_read_locks (lock_keys : LockKeys) : st Locks unit :=
  st_for (LockKeys.keys lock_keys) (λ k, drop_lock k ReadLock).

Definition drop_write_locks (lock_keys : LockKeys) : st Locks unit :=
  st_for (LockKeys.keys lock_keys) (λ k, drop_lock k WriteLock).

Definition downgrade_locks (lock_keys : LockKeys) : st Locks unit :=
  st_for (LockKeys.keys lock_keys) (λ k, with_entry k LockEntry.downgrade_lock).
End Locks.

(** ** Waiting *)
Module LockWaker.
Definition get (a : addr) : st Locks LockWaker := λ l,
  (match wakers (memory l) !! a with Some w => Ok w | None => Panic end, l).

Definition set_memory (m : gmap addr LockWaker) : st Locks unit := λ l,
  (Ok tt, mkLocks (keys l) (mkMemory m (fresh_addr (memory l)) (woken (memory l)))).

(** The closure that [wait] polls: whether the lock has been granted. *)
Definition poll (a : addr) (cx : task) : st Locks bool :=
  w ← get a;
  if is_woken (waker w) then mret true
  else
    l ← st_get;
    _ ← set_memory (<[a := set_waker w (Registered cx)]> (wakers (memory l)));
    mret false.

(** [waker_guard]: the future of [wait] is dropped. *)
Definition cancel (a : addr) : st Locks unit :=
  w ← get a;
  if is_woken (waker w) then
    if is_upgrade w then Locks.with_entry (key w) LockEntry.downgrade_lock
    else Locks.drop_lock (key w) (target_state w)
  else Locks.with_entry (key w) (LockEntry.remove_waker a).

(** [lock_waker] goes out of scope. *)
Definition free (a : addr) : st Locks unit :=
  l ← st_get; set_memory (delete a (wakers (memory l))).
End LockWaker.

(** ** The manager *)

(** A call of [lock] that is under way: the keys that are left, and the waker
    of the first of them if it has to wait. *)
Record LockFuture := mkLock {
  lf_target : LockState;
  lf_todo : list LockKey;
  lf_guard : LockKeys;
  lf_waker : option addr;
}.

(** A call of [commit_prepare_keys] that is under way: the keys it has upgraded
    and those that are left. *)
Record CommitFuture := mkCommit {
  cf_done : list LockKey;
  cf_todo : list LockKey;
  cf_waker : option addr;
}.

Module LockManager.
Definition new : Locks := mkLocks ∅ (mkMemory ∅ 1%positive []).

Definition lock (lock_keys : LockKeys) (target : LockState) : LockFuture :=
  mkLock target (LockKeys.keys (LockKeys.dedup (LockKeys.sort_unstable lock_keys)))
    (LockKeys.with_capacity (LockKeys.len lock_keys)) None.

Definition txn_lock (lock_keys : LockKeys) : LockFuture := lock lock_keys Locked.
Definition read_lock (lock_keys : LockKeys) : LockFuture := lock lock_keys ReadLock.
Definition write_lock (lock_keys : LockKeys) : LockFuture := lock lock_keys WriteLock.

(** The section of [lock] that holds the mutex: the waker to wait on, unless
    the lock is granted at once. *)
Definition try_lock (k : LockKey) (target : LockState) : st Locks (option addr) :=
  l ← st_get;
  match keys l !! k with
  | None => λ l,
      (Ok None, mkLocks (<[k := mkEntry (if bool_decide (target = ReadLock) then 1 else 0) target None None]> (keys l))
                  (memory l))
  | Some _ =>
      Locks.with_entry k
        (e ← LockEntry.self;
         allowed ← LockEntry.is_allowed target (LockEntry.is_null (head e));
         if (allowed : bool) then
           _ ← (if bool_decide (target = ReadLock)
                then n ← st_lift (u64_add (read_count e) 1); LockEntry.set_read_count n
                else LockEntry.set_state target);
           mret None
         else
           a ← LockEntry.push_tail k target; mret (Some a))
  end.

(** From one section that holds the mutex to the next. *)
Definition lock_step (cx : task) (f : LockFuture) : st Locks LockFuture :=
  match lf_todo f with
  | [] => mret f
  | k :: todo =>
      match lf_waker f with
      | Some a =>
          ready ← LockWaker.poll a cx;
          if (ready : bool) then
            _ ← LockWaker.free a;
            mret (mkLock (lf_target f) todo (LockKeys.push (lf_guard f) k) None)
          else mret f
      | None =>
          w ← try_lock k (lf_target f);
          match w with
          | None => mret (mkLock (lf_target f) todo (LockKeys.push (lf_guard f) k) None)
          | Some a => mret (mkLock (lf_target f) (lf_todo f) (lf_guard f) (Some a))
          end
      end
  end.

(** The future is dropped; its guard, which is dropped next, is what is left. *)
Definition lock_cancel (f : LockFuture) : st Locks LockKeys :=
  _ ← match lf_waker f with
      | Some a => _ ← LockWaker.cancel a; LockWaker.free a
      | None => mret tt
      end;
  mret (lf_guard f).

Definition commit_prepare_keys (lock_keys : LockKeys) : CommitFuture :=
  mkCommit [] (LockKeys.keys lock_keys) None.

(** The section of [commit_prepare_keys] that holds the mutex. *)
Definition try_upgrade (k : LockKey) : st Locks (option addr) :=
  Locks.with_entry k
    (e ← LockEntry.self;
     _ ← st_lift (rassert (bool_decide (state e = Locked)));
     if read_count e =? 0 then _ ← LockEntry.set_state WriteLock; mret None
     else a ← LockEntry.push_head k; mret (Some a)).

Definition commit_step (cx : task) (f : CommitFuture) : st Locks CommitFuture :=
  match cf_todo f with
  | [] => mret f
  | k :: todo =>
      match cf_waker f with
      | Some a =>
          ready ← LockWaker.poll a cx;
          if (ready : bool) then
            _ ← LockWaker.free a;
            mret (mkCommit (cf_done f ++ [k]) todo None)
          else mret f
      | None =>
          w ← try_upgrade k;
          match w with
          | None => mret (mkCommit (cf_done f ++ [k]) todo None)
          | Some a => mret (mkCommit (cf_done f) (cf_todo f) (Some a))
          end
      end
  end.

Definition commit_cancel (f : CommitFuture) : st Locks unit :=
  match cf_waker f with
  | Some a => _ ← LockWaker.cancel a; LockWaker.free a
  | None => mret tt
  end.

Definition drop_transaction (txn_locks : LockKeys) : st Locks unit := Locks.drop_write_locks txn_locks.

Definition downgrade_locks (lock_keys : LockKeys) : st Locks unit := Locks.downgrade_locks lock_keys.
End LockManager.

Module ReadGuard.
Definition drop (lock_keys : LockKeys) : st Locks unit := Locks.drop_read_locks lock_keys.
End ReadGuard.

Module WriteGuard.
Definition drop (lock_keys : LockKeys) : st Locks unit := Locks.drop_write_locks lock_keys.
End WriteGuard.

(** The guard that [lock] returned is dropped. *)
Definition drop_guard (target : LockState) (lock_keys : LockKeys) : st Locks unit :=
  match target with
  | ReadLock => ReadGuard.drop lock_keys
  | Locked | WriteLock => WriteGuard.drop lock_keys
  end.
