(* ===== verification/LockQueue.v ===== *)
(** * The waker list of a key

    Who holds a key and who waits for it, and what the operations on an entry
    of the lock manager do to that: the list of wakers is kept linked, whoever
    is granted the lock is compatible with those that hold it, and nothing
    waits for a lock that nobody holds. *)

From S2P Require Import Prelude LockKeys LockManager.

Notation tid := positive (only parsing).

(** What a task holds, and the waker it waits on. *)
Notation view := (gmap LockKey LockState * option addr)%type.

Implicit Types (W : gmap addr LockWaker) (V : gmap tid view) (k : LockKey) (e : LockEntry) (g : gmap tid LockState).

(** ** Who holds a key *)

(** A task whose waker has been woken holds the lock before it runs. *)
Definition eff W (v : view) k : option LockState :=
  match v.2 ≫= (W !!.) with
  | Some w => if decide (key w = k ∧ waker w = Woken) then Some (target_state w) else v.1 !! k
  | None => v.1 !! k
  end.

Definition grants W V k : gmap tid LockState := omap (λ v, eff W v k) V.

Lemma lookup_grants W V k t : grants W V k !! t = V !! t ≫= λ v, eff W v k.
Proof. apply lookup_omap. Qed.

Definition readers g : nat := size (filter (λ x, x.2 = ReadLock) g).

(** The holders of a key agree with what its entry says. *)
Record shape g (n : Z) (s : LockState) : Prop := {
  sh_readers : n = Z.of_nat (readers g);
  sh_state : match s with
    | ReadLock => ∀ t m, g !! t = Some m → m = ReadLock
    | Locked => ∃ t, g !! t = Some Locked ∧ ∀ t' m, g !! t' = Some m → t' ≠ t → m = ReadLock
    | WriteLock => ∃ t, g = {[t := WriteLock]}
    end;
}.

Lemma readers_insert_read g t : g !! t = None → readers (<[t := ReadLock]> g) = S (readers g).
Proof.
  intros Hg. unfold readers. rewrite map_filter_insert_True by done. apply map_size_insert_None.
  apply map_lookup_filter_None. by left.
Qed.

Lemma readers_insert_other g t m : (g !! t = None ∨ ∃ m', g !! t = Some m' ∧ m' ≠ ReadLock) → m ≠ ReadLock →
  readers (<[t := m]> g) = readers g.
Proof.
  intros Hg Hm. unfold readers. rewrite map_filter_insert_False by done. rewrite map_filter_delete, delete_id; [done|].
  apply map_lookup_filter_None. destruct Hg as [?|(m' & Hm' & Hne)]; [by left|right]. intros m0 H0. cbn. congruence.
Qed.

Lemma readers_delete g t m : g !! t = Some m → Z.of_nat (readers (delete t g)) = Z.of_nat (readers g) - (if decide (m = ReadLock) then 1 else 0).
Proof.
  intros Hg. unfold readers. rewrite map_filter_delete. case_decide as Hm.
  - subst m. assert (filter (λ x, x.2 = ReadLock) g !! t = Some ReadLock) as Ht by by apply map_lookup_filter_Some.
    rewrite (map_size_delete_Some _ _ (mk_is_Some _ _ Ht)).
    assert (size (filter (λ x, x.2 = ReadLock) g) ≠ 0%nat); [|lia].
    intros H0%map_size_empty_inv. rewrite H0 in Ht. by rewrite lookup_empty in Ht.
  - rewrite delete_id; [lia|]. apply map_lookup_filter_None. right. intros m0 H0. cbn. congruence.
Qed.

Lemma readers_0 g : readers g = 0%nat → ∀ t, g !! t ≠ Some ReadLock.
Proof.
  intros H0%map_size_empty_inv t Ht. assert (filter (λ x, x.2 = ReadLock) g !! t = Some ReadLock) as Hf
    by by apply map_lookup_filter_Some. rewrite H0 in Hf. by rewrite lookup_empty in Hf.
Qed.

Lemma shape_write_readers g n : shape g n WriteLock → n = 0.
Proof.
  intros [-> [t ->]]. unfold readers. by rewrite map_filter_singleton_False.
Qed.

Lemma shape_idle g n : shape g n ReadLock → n = 0 ↔ g = ∅.
Proof.
  intros [-> Hr]. split; [|by intros ->].
  intros H0. apply map_empty. intros t. destruct (g !! t) as [m|] eqn:E; [|done].
  rewrite (Hr _ _ E) in E. by destruct (readers_0 g ltac:(lia) t).
Qed.

Lemma shape_held g n s : shape g n s → s ≠ ReadLock ∨ n ≠ 0 → g ≠ ∅.
Proof.
  intros Hs Hh ->. pose proof Hs as [Hn Hst]. destruct s.
  - apply (shape_idle ∅ n) in Hs as [_ Hs]. specialize (Hs eq_refl). tauto.
  - destruct Hst as (t & Ht & _). by rewrite lookup_empty in Ht.
  - destruct Hst as [t Ht]. assert ((∅ : gmap tid LockState) !! t = Some WriteLock) as H by (rewrite Ht; apply lookup_singleton_eq). by rewrite lookup_empty in H.
Qed.

(** Whether one more task may hold the key in state [m]. *)
Definition compatible (n : Z) (s m : LockState) : Prop :=
  match m with
  | ReadLock => s ≠ WriteLock
  | Locked => s = ReadLock
  | WriteLock => s = ReadLock ∧ n = 0
  end.

Lemma shape_grant g n s t m : shape g n s → g !! t = None → compatible n s m →
  shape (<[t := m]> g) (if decide (m = ReadLock) then n + 1 else n) (if decide (m = ReadLock) then s else m).
Proof.
  intros Hsh Hg Hc. pose proof Hsh as [Hn Hs]. destruct m; cbn in Hc.
  - rewrite !decide_True by done. split; [rewrite readers_insert_read by done; lia|]. destruct s; [..|done].
    + intros t' m [[<- <-]|[_ ?]]%lookup_insert_Some; [done|by eapply Hs].
    + destruct Hs as (t0 & Ht0 & Hs). exists t0. split; [by rewrite lookup_insert_ne by congruence|].
      intros t' m [[<- <-]|[_ ?]]%lookup_insert_Some Hne; [done|by eapply Hs].
  - subst s. rewrite !decide_False by done. split; [by rewrite readers_insert_other by (auto || done)|].
    exists t. split; [apply lookup_insert_eq|]. intros t' m [[<- <-]|[_ ?]]%lookup_insert_Some Hne; [done|by eapply Hs].
  - destruct Hc as [-> ->]. rewrite !decide_False by done. apply (shape_idle g 0) in Hsh as [Hsh _].
    rewrite (Hsh eq_refl). rewrite insert_empty. split; [unfold readers; by rewrite map_filter_singleton_False|by exists t].
Qed.

Lemma shape_upgrade g n s t : shape g n s → g !! t = Some Locked → n = 0 →
  s = Locked ∧ shape (<[t := WriteLock]> g) n WriteLock.
Proof.
  intros [Hn Hs] Ht ->. destruct s; [by specialize (Hs _ _ Ht)| |].
  - destruct Hs as (t0 & Ht0 & Hs). split; [done|].
    assert (t0 = t) as -> by (destruct (decide (t0 = t)) as [|Hne]; [done|]; by specialize (Hs t Locked Ht ltac:(congruence))).
    split; [rewrite readers_insert_other by (eauto || done); lia|]. exists t. apply map_eq. intros t'.
    destruct (decide (t' = t)) as [->|Hne]; [by rewrite lookup_insert_eq, lookup_singleton_eq|].
    rewrite lookup_insert_ne, lookup_singleton_ne by done. destruct (g !! t') as [m|] eqn:E; [|done].
    rewrite (Hs _ _ E Hne) in E. by destruct (readers_0 g ltac:(lia) t').
  - destruct Hs as [t0 ->]. apply lookup_singleton_Some in Ht as [_ [=]].
Qed.

Lemma shape_downgrade g n s t : shape g n s → g !! t = Some WriteLock →
  s = WriteLock ∧ shape (<[t := Locked]> g) n Locked.
Proof.
  intros [Hn Hs] Ht. destruct s; [by specialize (Hs _ _ Ht)| |].
  - destruct Hs as (t0 & Ht0 & Hs). destruct (decide (t = t0)) as [->|Hne]; [congruence|by specialize (Hs _ _ Ht Hne)].
  - destruct Hs as [t0 ->]. apply lookup_singleton_Some in Ht as [-> _]. split; [done|].
    rewrite insert_singleton_eq. split; [rewrite Hn; unfold readers; by rewrite !map_filter_singleton_False|].
    exists t. split; [by rewrite lookup_singleton_eq|]. by intros t' m [-> _]%lookup_singleton_Some.
Qed.

Lemma shape_drop g n s t m : shape g n s → g !! t = Some m →
  shape (delete t g) (if decide (m = ReadLock) then n - 1 else n) (if decide (m = ReadLock) then s else ReadLock) ∧
  (m = ReadLock → 1 ≤ n) ∧ (m ≠ ReadLock → s = m).
Proof.
  intros [Hn Hs] Ht. pose proof (readers_delete g t m Ht) as Hd.
  assert (m ≠ ReadLock → s = m ∧ ∀ t' m', g !! t' = Some m' → t' ≠ t → m' = ReadLock) as Hm.
  { intros Hm. destruct s; [by specialize (Hs _ _ Ht)|..].
    - destruct Hs as (t0 & Ht0 & Hs). destruct (decide (t = t0)) as [->|Hne]; [split; [congruence|done]|].
      by specialize (Hs _ _ Ht Hne).
    - destruct Hs as [t0 ->]. apply lookup_singleton_Some in Ht as [-> <-]. split; [done|].
      by intros t' m' [-> _]%lookup_singleton_Some. }
  split_and!.
  - split; [case_decide; lia|]. case_decide as Hr.
    + subst m. destruct s.
      * intros t' m [_ H]%lookup_delete_Some. by eapply Hs.
      * destruct Hs as (t0 & Ht0 & Hs). exists t0. split.
        -- rewrite lookup_delete_ne; [done|]. intros ->. congruence.
        -- intros t' m [_ H]%lookup_delete_Some. by eapply Hs.
      * destruct Hs as [t0 ->]. by apply lookup_singleton_Some in Ht as [_ [=]].
    + intros t' m' [Hne H]%lookup_delete_Some. by eapply (proj2 (Hm Hr)).
  - intros ->. rewrite decide_True in Hd by done. lia.
  - intros Hr. by apply Hm.
Qed.

(** ** Who waits for a key *)
Definition waiting W V k (a : addr) : Prop :=
  ∃ t v w, V !! t = Some v ∧ v.2 = Some a ∧ W !! a = Some w ∧ key w = k ∧ waker w ≠ Woken.

(** The list of wakers. *)
Record linked W e (q : list addr) : Prop := {
  ln_head : head e = q !! 0%nat;
  ln_tail : tail e = last q;
  ln_node : ∀ i a, q !! i = Some a → ∃ w, W !! a = Some w ∧ next w = q !! S i ∧
    prev w = match i with O => None | S j => q !! j end;
  ln_nodup : NoDup q;
}.

(** The wakers that tasks wait on. *)
Record mem_ok W V : Prop := {
  mo_live : ∀ t v a, V !! t = Some v → v.2 = Some a → ∃ w, W !! a = Some w ∧
    if is_upgrade w then v.1 !! key w = Some Locked ∧ target_state w = WriteLock else v.1 !! key w = None;
  mo_inj : ∀ t t' v v' a, V !! t = Some v → V !! t' = Some v' → v.2 = Some a → v'.2 = Some a → t = t';
}.

Record entry_ok k V e W (q : list addr) : Prop := {
  eo_shape : shape (grants W V k) (read_count e) (state e);
  eo_linked : linked W e q;
  eo_waiting : ∀ a, a ∈ q ↔ waiting W V k a;
}.

(** What an operation on the entry of [k] may do to a waker: those of other
    keys stay, and whoever is woken has been told. *)
Record changed k (log : list task) (w w' : LockWaker) : Prop := {
  ch_key : key w' = key w;
  ch_target : target_state w' = target_state w;
  ch_upgrade : is_upgrade w' = is_upgrade w;
  ch_other : key w ≠ k → w' = w;
  ch_waker : waker w' = waker w ∨ (waker w' = Woken ∧ ∀ cx, waker w = Registered cx → cx ∈ log);
}.

Record kept k (M M' : Memory) : Prop := {
  kp_fresh : fresh_addr M' = fresh_addr M;
  kp_woken : woken M ⊆ woken M';
  kp_wakers : ∀ a, option_Forall2 (changed k (woken M')) (wakers M !! a) (wakers M' !! a);
}.

Lemma option_Forall2_l {A B} (R : A → B → Prop) x my : option_Forall2 R (Some x) my → ∃ y, my = Some y ∧ R x y.
Proof. inversion 1; eauto. Qed.
Lemma option_Forall2_r {A B} (R : A → B → Prop) mx y : option_Forall2 R mx (Some y) → ∃ x, mx = Some x ∧ R x y.
Proof. inversion 1; eauto. Qed.

Lemma changed_refl k log w : changed k log w w.
Proof. split; auto. Qed.

Lemma kept_refl k M : kept k M M.
Proof. split; [done|done|]. intros a. destruct (wakers M !! a); constructor. apply changed_refl. Qed.

Lemma kept_trans k M1 M2 M3 : kept k M1 M2 → kept k M2 M3 → kept k M1 M3.
Proof.
  intros [Hf Hw H] [Hf' Hw' H']. split; [congruence|set_solver|]. intros a. specialize (H a). specialize (H' a).
  destruct H as [w1 w2 [K1 T1 U1 O1 X1]|]; inversion H' as [? w3 [K2 T2 U2 O2 X2]|]; subst; constructor.
  split; [congruence..| |].
  - intros Hne. rewrite O2 by congruence. by apply O1.
  - destruct X2 as [->|[Hwk X2]]; [destruct X1 as [?|[? X1]]; [by left|right; set_solver]|].
    right. split; [done|]. intros cx Hcx. destruct X1 as [Hx|[_ X1]]; [apply X2; congruence|apply Hw', X1, Hcx].
Qed.

Lemma kept_lookup k M M' a w : kept k M M' → wakers M !! a = Some w → ∃ w', wakers M' !! a = Some w' ∧ changed k (woken M') w w'.
Proof. intros [_ _ H] Ha. specialize (H a). rewrite Ha in H. inversion H; subst. eauto. Qed.

Lemma kept_lookup_inv k M M' a w' : kept k M M' → wakers M' !! a = Some w' → ∃ w, wakers M !! a = Some w ∧ changed k (woken M') w w'.
Proof. intros [_ _ H] Ha. specialize (H a). rewrite Ha in H. inversion H; subst. eauto. Qed.

Lemma kept_mem_ok k M M' V : kept k M M' → mem_ok (wakers M) V → mem_ok (wakers M') V.
Proof.
  intros Hk [Hl Hi]. split; [|done]. intros t v a Hv Ha. destruct (Hl t v a Hv Ha) as (w & Hw & Hu).
  destruct (kept_lookup _ _ _ _ _ Hk Hw) as (w' & Hw' & [Hk' Ht' Hu' _ _]).
  exists w'. by rewrite Hk', Ht', Hu'.
Qed.

(** ** What tasks hold, as wakers change *)
Lemma eff_none W v k : v.2 = None → eff W v k = v.1 !! k.
Proof. intros Hv. unfold eff. by rewrite Hv. Qed.

Lemma eff_some W v k a w : v.2 = Some a → W !! a = Some w →
  eff W v k = if decide (key w = k ∧ waker w = Woken) then Some (target_state w) else v.1 !! k.
Proof. intros Hv Hw. unfold eff. rewrite Hv. cbn. by rewrite Hw. Qed.

Definition same_grant (w w' : LockWaker) : Prop :=
  key w' = key w ∧ target_state w' = target_state w ∧ (waker w' = Woken ↔ waker w = Woken).

Lemma eff_ext W W' v k :
  (∀ a, v.2 = Some a → option_Forall2 (λ w w', same_grant w w' ∨ (key w ≠ k ∧ key w' ≠ k)) (W !! a) (W' !! a)) →
  eff W' v k = eff W v k.
Proof.
  intros H. unfold eff. destruct (v.2) as [a|]; cbn; [|done]. specialize (H a eq_refl).
  destruct H as [w w' [(Hk & Ht & Hw)|[Hk Hk']]|]; [|rewrite !decide_False by tauto; done|done].
  rewrite Hk, Ht. destruct (decide (key w = k ∧ waker w = Woken)) as [[? ?]|Hn].
  - by rewrite decide_True by tauto.
  - by rewrite decide_False by tauto.
Qed.

Lemma grants_ext W W' V k :
  (∀ t v a, V !! t = Some v → v.2 = Some a →
    option_Forall2 (λ w w', same_grant w w' ∨ (key w ≠ k ∧ key w' ≠ k)) (W !! a) (W' !! a)) →
  grants W' V k = grants W V k.
Proof.
  intros H. apply map_eq. intros t. rewrite !lookup_grants. destruct (V !! t) as [v|] eqn:E; cbn; [|done].
  apply eff_ext. eauto.
Qed.

(** One task's view changes. *)
Lemma grants_insert W V k t v : grants W (<[t := v]> V) k = partial_alter (λ _, eff W v k) t (grants W V k).
Proof.
  apply map_eq. intros t'. rewrite lookup_grants. destruct (decide (t' = t)) as [->|Hne].
  - by rewrite lookup_insert_eq, lookup_partial_alter_eq.
  - by rewrite lookup_insert_ne, lookup_partial_alter_ne, lookup_grants by done.
Qed.

Lemma grants_same W V k t v v' : V !! t = Some v → eff W v' k = eff W v k → grants W (<[t := v']> V) k = grants W V k.
Proof.
  intros Ht He. rewrite grants_insert. apply map_eq. intros t'. destruct (decide (t' = t)) as [->|Hne].
  - by rewrite lookup_partial_alter_eq, lookup_grants, Ht, He.
  - by rewrite lookup_partial_alter_ne.
Qed.

Lemma grants_grant W V k t v m : eff W v k = Some m → grants W (<[t := v]> V) k = <[t := m]> (grants W V k).
Proof. intros He. by rewrite grants_insert, He. Qed.

Lemma grants_release W V k t v : eff W v k = None → grants W (<[t := v]> V) k = delete t (grants W V k).
Proof. intros He. by rewrite grants_insert, He. Qed.

(** A waker is woken. *)
Lemma grants_woken W W' V k t v a w w' :
  mem_ok W V → V !! t = Some v → v.2 = Some a → W' !! a = Some w' → key w' = k → waker w' = Woken →
  target_state w' = w → (∀ b, b ≠ a → option_Forall2 same_grant (W !! b) (W' !! b)) →
  grants W' V k = <[t := w]> (grants W V k).
Proof.
  intros Hm Ht Ha Hw' Hk Hwk <- Hs. apply map_eq. intros t'. destruct (decide (t' = t)) as [->|Hne].
  - rewrite lookup_insert_eq, lookup_grants, Ht. cbn. rewrite (eff_some _ _ _ _ _ Ha Hw'). by rewrite decide_True.
  - rewrite lookup_insert_ne, !lookup_grants by done. destruct (V !! t') as [v'|] eqn:E; cbn; [|done].
    apply eff_ext. intros b Hb. assert (b ≠ a) as Hba by (intros ->; by destruct Hne; eapply (mo_inj _ _ Hm)).
    specialize (Hs b Hba). destruct Hs; constructor; auto.
Qed.

Lemma kept_grants k M M' V k' : kept k M M' → k' ≠ k → grants (wakers M') V k' = grants (wakers M) V k'.
Proof.
  intros Hk Hne. apply grants_ext. intros t v a _ _. destruct (kp_wakers _ _ _ Hk a) as [w w' [K T U O X]|]; constructor.
  destruct (decide (key w = k)); [right; by split; congruence|left]. rewrite O by done. done.
Qed.

Lemma kept_entry k M M' V k' e q : kept k M M' → k' ≠ k →
  entry_ok k' V e (wakers M) q → entry_ok k' V e (wakers M') q.
Proof.
  intros Hk Hne [Hs [Hh Ht Hn Hd] Hw].
  assert (∀ a w, wakers M !! a = Some w → key w = k' → wakers M' !! a = Some w) as Hsame.
  { intros a w Ha Hkw. destruct (kept_lookup _ _ _ _ _ Hk Ha) as (w' & Ha' & Hc). rewrite Ha'. f_equal.
    apply (ch_other _ _ _ _ Hc). congruence. }
  split; [by rewrite (kept_grants _ _ _ _ _ Hk Hne)|split; [done..| |done]|].
  - intros i a Hi. destruct (Hn i a Hi) as (w & Ha & Hnx). exists w. split; [|done]. apply Hsame; [done|].
    assert (a ∈ q) as (t & v & w0 & _ & _ & Hw0 & Hk0 & _)%Hw by by eapply list_elem_of_lookup_2. congruence.
  - intros a. rewrite Hw. unfold waiting. split; intros (t & v & w & Hv & Ha & Hwa & Hkw & Hp).
    + exists t, v, w. split_and!; try done. by apply Hsame.
    + destruct (kept_lookup_inv _ _ _ _ _ Hk Hwa) as (w0 & Ha0 & Hc). pose proof (ch_key _ _ _ _ Hc).
      assert (w = w0) as -> by (apply (ch_other _ _ _ _ Hc); congruence). exists t, v, w0. by split_and!.
Qed.

(** ** Granting the lock to the first in the list *)
Definition unlink_head (q : list addr) W : gmap addr LockWaker :=
  match q with [] => W | b :: _ => alter (λ h, set_prev h None) b W end.
Definition told (w : LockWaker) : list task := match waker w with Registered t => [t] | _ => [] end.

Lemma unlink_head_lookup q W a : (∀ b, q !! 0%nat = Some b → b ≠ a) → unlink_head q W !! a = W !! a.
Proof. destruct q as [|b q]; cbn; [done|]. intros H. apply lookup_alter_ne. by apply H. Qed.

(** Runs the operations on an entry. *)
Ltac em_simpl :=
  repeat (rewrite st_bind_run;
    cbn [mret st_ret st_get st_put st_lift st_fail unwrap LockEntry.self LockEntry.set_head LockEntry.set_tail
         LockEntry.set_state LockEntry.set_read_count LockEntry.is_null LockEntry.wake_task LockEntry.fuel
         fst snd read_count state head tail wakers fresh_addr woken andb orb negb]);
  cbn [mret st_ret st_get st_put st_lift st_fail unwrap LockEntry.self LockEntry.set_head LockEntry.set_tail
       LockEntry.set_state LockEntry.set_read_count LockEntry.is_null LockEntry.wake_task LockEntry.fuel
       fst snd read_count state head tail wakers fresh_addr woken andb orb negb].

Lemma deref_run a w e M : wakers M !! a = Some w → LockEntry.deref (Some a) (e, M) = (Ok w, (e, M)).
Proof. intros Ha. unfold LockEntry.deref. cbn [mbind option_bind]. by rewrite Ha. Qed.

Lemma update_run a f w e M : wakers M !! a = Some w →
  LockEntry.update (Some a) f (e, M) = (Ok tt, (e, mkMemory (<[a := f w]> (wakers M)) (fresh_addr M) (woken M))).
Proof. intros Ha. unfold LockEntry.update. by rewrite Ha. Qed.

(** What [pop_and_wake] does once the list is updated. *)
Lemma alter_insert (f : LockWaker → LockWaker) W b w : W !! b = Some w → alter f b W = <[b := f w]> W.
Proof.
  intros Hb. apply map_eq. intros c. destruct (decide (c = b)) as [->|].
  - by rewrite lookup_alter_eq, lookup_insert_eq, Hb.
  - by rewrite lookup_alter_ne, lookup_insert_ne.
Qed.

Lemma pop_run M e a q w :
  linked (wakers M) e (a :: q) → wakers M !! a = Some w → (target_state w = ReadLock → read_count e + 1 ≤ u64_max) →
  LockEntry.pop_and_wake (e, M) = (Ok tt,
    (mkEntry (if decide (target_state w = ReadLock) then read_count e + 1 else read_count e)
       (if decide (target_state w = ReadLock) then state e else target_state w) (q !! 0%nat) (last q),
     mkMemory (<[a := set_waker w Woken]> (unlink_head q (wakers M))) (fresh_addr M) (woken M ++ told w))).
Proof.
  intros [Hh Ht Hn Hd] Ha Hr. destruct e as [n s h tl]. cbn in Hh, Ht, Hr. subst h tl.
  destruct (Hn 0%nat a eq_refl) as (w0 & Hw0 & Hnx & _). assert (w0 = w) as -> by congruence.
  change ((a :: q) !! 1%nat) with (q !! 0%nat) in Hnx.
  unfold LockEntry.pop_and_wake. em_simpl. rewrite (deref_run a w) by done. em_simpl. rewrite Hnx.
  apply NoDup_cons in Hd as [Hna Hd].
  assert ((if LockEntry.is_null (q !! 0%nat) then LockEntry.set_tail None
    else LockEntry.update (q !! 0%nat) (λ h, set_prev h None)) (mkEntry n s (q !! 0%nat) (last (a :: q)), M) =
    (Ok tt, (mkEntry n s (q !! 0%nat) (last q), mkMemory (unlink_head q (wakers M)) (fresh_addr M) (woken M)))) as ->.
  { destruct q as [|b q]; [by destruct M|]. destruct (Hn 1%nat b eq_refl) as (wb & Hwb & _ & _).
    cbn [lookup list_lookup LockEntry.is_null unlink_head]. rewrite (update_run b _ wb) by done. by rewrite (alter_insert _ _ _ wb). }
  em_simpl. set (W1 := unlink_head q (wakers M)).
  assert (W1 !! a = Some w) as Ha1.
  { unfold W1. rewrite unlink_head_lookup; [done|]. intros b Hb ->. apply Hna. by eapply list_elem_of_lookup_2. }
  assert (∀ X Y, (if bool_decide (target_state w = ReadLock)
       then m ← st_lift (u64_add n 1); LockEntry.set_read_count m else LockEntry.set_state (target_state w))
      (mkEntry n s X Y, mkMemory W1 (fresh_addr M) (woken M)) =
    (Ok tt, (mkEntry (if decide (target_state w = ReadLock) then n + 1 else n)
       (if decide (target_state w = ReadLock) then s else target_state w) X Y, mkMemory W1 (fresh_addr M) (woken M)))) as Hst.
  { intros X Y. destruct (decide (target_state w = ReadLock)) as [E|E].
    - rewrite bool_decide_eq_true_2 by done. em_simpl. by rewrite u64_add_ok by auto.
    - by rewrite bool_decide_eq_false_2 by done. }
  rewrite Hst. em_simpl. rewrite (deref_run a w) by done. em_simpl. rewrite (update_run a _ w) by done. em_simpl.
  unfold told. destruct (waker w); cbn; by rewrite ?app_nil_r.
Qed.

(** The list without its first waker. *)
Lemma linked_tail W e a q w n s :
  linked W e (a :: q) → linked (<[a := w]> (unlink_head q W)) (mkEntry n s (q !! 0%nat) (last q)) q.
Proof.
  intros [_ _ Hn [Hna Hd]%NoDup_cons]. split; [done..| |done]. intros i b Hb.
  assert (b ≠ a) as Hba by (intros ->; apply Hna; by eapply list_elem_of_lookup_2).
  rewrite lookup_insert_ne by done. destruct (Hn (S i) b Hb) as (wb & Hwb & Hnx & Hpv). cbn in Hnx.
  destruct i as [|i].
  - exists (set_prev wb None). destruct q as [|c q]; [done|]. cbn in Hb. injection Hb as <-. cbn.
    by rewrite lookup_alter_eq, Hwb.
  - exists wb. split_and!; [|done|done]. rewrite unlink_head_lookup; [done|]. intros c Hc ->.
    by pose proof (NoDup_lookup _ _ _ _ Hd Hb Hc).
Qed.

(** Changing a field of a waker, if there is one. *)
Definition alter_opt (f : LockWaker → LockWaker) (p : option addr) W : gmap addr LockWaker :=
  match p with Some b => alter f b W | None => W end.

Lemma alter_opt_lookup f p W a : alter_opt f p W !! a = (if decide (p = Some a) then f <$> W !! a else W !! a).
Proof.
  destruct p as [b|]; cbn; [|done]. destruct (decide (b = a)) as [->|Hne].
  - by rewrite lookup_alter_eq, decide_True.
  - rewrite lookup_alter_ne, decide_False by congruence. done.
Qed.

Lemma last_lookup_length {A} (l : list A) i x : NoDup l → l !! i = Some x → last l = Some x ↔ S i = length l.
Proof.
  intros Hd Hi. apply lookup_lt_Some in Hi as Hlt. rewrite last_lookup. split; [|intros <-; done].
  intros Hl. pose proof (NoDup_lookup _ _ _ _ Hd Hi Hl). lia.
Qed.

Lemma linked_remove W e q1 a q2 n s :
  linked W e (q1 ++ a :: q2) →
  linked (alter_opt (λ x, set_prev x (last q1)) (q2 !! 0%nat) (alter_opt (λ x, set_next x (q2 !! 0%nat)) (last q1) W))
    (mkEntry n s (if decide (q1 = []) then q2 !! 0%nat else head e)
       (if decide (q2 = []) then last q1 else tail e)) (q1 ++ q2).
Proof.
  intros [Hh Ht Hn Hd]. assert (NoDup (q1 ++ q2)) as Hd'.
  { eapply sublist_NoDup; [exact Hd|]. by apply sublist_app, sublist_cons. }
  pose proof Hd' as (Hd1 & Hdj & Hd2)%NoDup_app. split; cbn [head tail]; [| | |done].
  - destruct q1; [done|]. by rewrite Hh.
  - destruct q2 as [|b q2]; [by rewrite app_nil_r|]. rewrite decide_False by done. rewrite Ht, !last_app. cbn. by destruct (last q2).
  - intros i b Hb. rewrite !alter_opt_lookup. destruct (decide (i < length q1)%nat) as [Hi|Hi].
    + rewrite lookup_app_l in Hb by done. destruct (Hn i b) as (w & Hw & Hnx & Hpv); [by rewrite lookup_app_l|].
      assert (q2 !! 0%nat ≠ Some b) as Hq2.
      { intros H0. eapply Hdj; by eapply list_elem_of_lookup_2. }
      rewrite (decide_False (P := q2 !! 0%nat = Some b)) by done. rewrite Hw.
      assert (prev w = match i with O => None | S j => (q1 ++ q2) !! j end) as Hpv'.
      { destruct i; [done|]. by rewrite lookup_app_l in Hpv |- * by lia. }
      destruct (decide (last q1 = Some b)) as [Hl|Hl]; eexists; (split; [done|]); (split; [|done]).
      * apply (last_lookup_length q1 i b Hd1 Hb) in Hl. cbn. rewrite lookup_app_r by lia. f_equal. lia.
      * rewrite (last_lookup_length q1 i b Hd1 Hb) in Hl. rewrite Hnx, !lookup_app_l by lia. done.
    + rewrite lookup_app_r in Hb by lia. destruct (Hn (S i) b) as (w & Hw & Hnx & Hpv).
      { rewrite lookup_app_r by lia. replace (S i - length q1)%nat with (S (i - length q1)) by lia. done. }
      assert (last q1 ≠ Some b) as Hl.
      { intros H0. rewrite last_lookup in H0. eapply Hdj; by eapply list_elem_of_lookup_2. }
      rewrite (decide_False (P := last q1 = Some b)) by done. rewrite Hw.
      assert (next w = (q1 ++ q2) !! S i) as Hnx'.
      { rewrite Hnx, !lookup_app_r by lia. by replace (S (S i) - length q1)%nat with (S (S i - length q1)) by lia. }
      destruct (decide (q2 !! 0%nat = Some b)) as [H0|H0]; eexists; (split; [done|]); (split; [done|]).
      * pose proof (NoDup_lookup _ _ _ _ Hd2 Hb H0). cbn. destruct i as [|i]; [by destruct q1; [|cbn in Hi; lia]|].
        rewrite last_lookup, lookup_app_l by lia. f_equal. lia.
      * assert (i ≠ length q1) by (intros ->; rewrite Nat.sub_diag in Hb; done). destruct i as [|i]; [lia|].
        rewrite Hpv. rewrite !lookup_app_r by lia. by replace (S i - length q1)%nat with (S (i - length q1)) by lia.
Qed.

Lemma linked_fresh_notin W e q a : linked W e q → W !! a = None → a ∉ q.
Proof.
  intros Hl Ha [i Hi]%list_elem_of_lookup. destruct (ln_node _ _ _ Hl i a Hi) as (w & Hw & _). congruence.
Qed.

Lemma linked_snoc W e q a k target n s :
  linked W e q → W !! a = None →
  linked (alter_opt (λ x, set_next x (Some a)) (last q) (<[a := mkWaker None (last q) k Pending target false]> W))
    (mkEntry n s (if decide (q = []) then Some a else head e) (Some a)) (q ++ [a]).
Proof.
  intros Hl Ha. pose proof (linked_fresh_notin _ _ _ _ Hl Ha) as Hna. destruct Hl as [Hh Ht Hn Hd].
  split; cbn [head tail].
  - destruct q; [done|]. by rewrite Hh.
  - by rewrite last_snoc.
  - intros i b Hb. rewrite alter_opt_lookup. destruct (decide (i < length q)%nat) as [Hi|Hi].
    + rewrite lookup_app_l in Hb by done. destruct (Hn i b Hb) as (w & Hw & Hnx & Hpv).
      assert (b ≠ a) as Hba by congruence. rewrite lookup_insert_ne, Hw by done.
      assert (prev w = match i with O => None | S j => (q ++ [a]) !! j end) as Hpv'.
      { destruct i; [done|]. by rewrite lookup_app_l by lia. }
      destruct (decide (last q = Some b)) as [Hl|Hl]; eexists; (split; [done|]); (split; [|done]).
      * apply (last_lookup_length q i b Hd Hb) in Hl. cbn. rewrite lookup_app_r by lia. by rewrite Hl, Nat.sub_diag.
      * rewrite (last_lookup_length q i b Hd Hb) in Hl. apply lookup_lt_Some in Hb. rewrite Hnx, lookup_app_l by lia. done.
    + rewrite lookup_app_r in Hb by lia. apply list_lookup_singleton_Some in Hb as [Hi0 ->].
      assert (i = length q) as -> by lia. rewrite decide_False, lookup_insert_eq.
      2: { intros H0. rewrite last_lookup in H0. apply Hna. by eapply list_elem_of_lookup_2. }
      eexists. split; [done|]. cbn. split; [rewrite lookup_app_r by lia; by replace (S (length q) - length q)%nat with 1%nat by lia|].
      rewrite last_lookup. destruct (length q) as [|j] eqn:El; [by rewrite (nil_length_inv _ El)|].
      cbn [pred]. by rewrite lookup_app_l by lia.
  - apply NoDup_app. split_and!; [done|set_solver|apply NoDup_singleton].
Qed.

Lemma linked_cons W e q a k n s :
  linked W e q → W !! a = None →
  linked (alter_opt (λ x, set_prev x (Some a)) (q !! 0%nat) (<[a := mkWaker (q !! 0%nat) None k Pending WriteLock true]> W))
    (mkEntry n s (Some a) (if decide (q = []) then Some a else tail e)) (a :: q).
Proof.
  intros Hl Ha. pose proof (linked_fresh_notin _ _ _ _ Hl Ha) as Hna. destruct Hl as [Hh Ht Hn Hd].
  split; cbn [head tail].
  - done.
  - destruct q as [|c q]; [done|]. rewrite decide_False by done. by rewrite Ht.
  - intros [|i] b Hb; rewrite alter_opt_lookup; cbn in Hb.
    + injection Hb as <-. rewrite decide_False, lookup_insert_eq by (intros H0; apply Hna; by eapply list_elem_of_lookup_2).
      by eexists.
    + destruct (Hn i b Hb) as (w & Hw & Hnx & Hpv). assert (b ≠ a) as Hba by congruence. rewrite lookup_insert_ne, Hw by done.
      destruct (decide (q !! 0%nat = Some b)) as [H0|H0]; eexists; (split; [done|]); (split; [done|]).
      * by pose proof (NoDup_lookup _ _ _ _ Hd Hb H0) as ->.
      * destruct i; [done|]. by rewrite Hpv.
  - by apply NoDup_cons.
Qed.

(** The waker [a] is woken and only links change otherwise. *)
Lemma pop_same q W a w b : b ≠ a →
  option_Forall2 (λ x y, same_grant x y ∧ waker y = waker x ∧ is_upgrade y = is_upgrade x ∧ (b ∈ q ∨ y = x))
    (W !! b) (<[a := set_waker w Woken]> (unlink_head q W) !! b).
Proof.
  intros Hb. rewrite lookup_insert_ne by done. destruct q as [|c q]; cbn.
  - destruct (W !! b); constructor. by split_and!; auto.
  - destruct (decide (b = c)) as [->|].
    + rewrite lookup_alter_eq. destruct (W !! c); constructor. split_and!; try done. left. by left.
    + rewrite lookup_alter_ne by done. destruct (W !! b); constructor. by split_and!; auto.
Qed.

Section entry.
Context (k : LockKey) (V : gmap tid view) (Hsize : Z.of_nat (size V) ≤ u64_max).

Lemma readers_bound W t : grants W V k !! t = None → is_Some (V !! t) → Z.of_nat (readers (grants W V k)) + 1 ≤ u64_max.
Proof.
  intros Ht HV. set (g := grants W V k) in *.
  assert (dom (<[t := ReadLock]> (filter (λ x, x.2 = ReadLock) g)) ⊆ dom V) as Hdom.
  { intros t'. rewrite !elem_of_dom. intros [m Hm]. apply lookup_insert_Some in Hm as [[<- _]|[_ Hm]]; [done|].
    apply map_lookup_filter_Some in Hm as [Hm _]. unfold g in Hm. rewrite lookup_grants in Hm.
    apply bind_Some in Hm as (v & Hv & _). by exists v. }
  apply subseteq_size in Hdom. rewrite !size_dom in Hdom. rewrite map_size_insert_None in Hdom; [unfold readers; lia|].
  apply map_lookup_filter_None. by left.
Qed.

(** What the owner of a waker in the list holds. *)
Lemma waiting_grant W a w t v :
  V !! t = Some v → v.2 = Some a → W !! a = Some w → key w = k → waker w ≠ Woken → mem_ok W V →
  grants W V k !! t = (if is_upgrade w then Some Locked else None) ∧ (is_upgrade w = true → target_state w = WriteLock).
Proof.
  intros Hv Ha Hw Hk Hwk Hm. destruct (mo_live _ _ Hm t v a Hv Ha) as (w0 & Hw0 & Hu). assert (w0 = w) as -> by congruence.
  rewrite lookup_grants, Hv. cbn. rewrite (eff_some _ _ _ _ _ Ha Hw), decide_False by tauto. subst k.
  destruct (is_upgrade w); [by destruct Hu|done].
Qed.

Lemma pop_ok e M a q w :
  mem_ok (wakers M) V → entry_ok k V e (wakers M) (a :: q) → wakers M !! a = Some w →
  (if is_upgrade w then read_count e = 0 else compatible (read_count e) (state e) (target_state w)) →
  ∃ e' M', LockEntry.pop_and_wake (e, M) = (Ok tt, (e', M')) ∧ entry_ok k V e' (wakers M') q ∧ kept k M M' ∧
    state e' = (if decide (target_state w = ReadLock) then state e else target_state w) ∧
    grants (wakers M') V k ≠ ∅.
Proof.
  intros Hm [Hs Hl Hq] Ha Hc. destruct (proj1 (Hq a)) as (t & v & w0 & Hv & Hva & Hw0 & Hkw & Hwk); [by left|].
  assert (w0 = w) as -> by congruence.
  destruct (waiting_grant _ a w t v Hv Hva Ha Hkw Hwk Hm) as [Hg Hup].
  assert (target_state w = ReadLock → grants (wakers M) V k !! t = None) as Hrd.
  { intros Hr. rewrite Hg. destruct (is_upgrade w); [|done]. specialize (Hup eq_refl). congruence. }
  rewrite (pop_run M e a q w Hl Ha).
  2: { intros Hr. rewrite (sh_readers _ _ _ Hs). eapply readers_bound; [by apply Hrd|by rewrite Hv]. }
  eexists _, _. split; [done|]. cbn [wakers state]. set (W' := <[a := _]> _).
  assert (grants W' V k = <[t := target_state w]> (grants (wakers M) V k)) as Hg'.
  { apply (grants_woken (wakers M) W' V k t v a (target_state w) (set_waker w Woken)); try done.
    - apply lookup_insert_eq.
    - intros b Hb. pose proof (pop_same q (wakers M) a w b Hb) as HF. fold W' in HF.
      destruct HF as [x y [? _]|]; by constructor. }
  split; [|split; [|split; [done|rewrite Hg'; apply insert_non_empty]]].
  - split; [|by eapply linked_tail|].
    + rewrite Hg'. cbn [read_count state]. destruct (is_upgrade w).
      * specialize (Hup eq_refl). rewrite Hup in *. rewrite !decide_False by done.
        by apply (shape_upgrade _ _ _ _ Hs Hg).
      * by apply shape_grant.
    + intros b. pose proof (ln_nodup _ _ _ Hl) as Hnd. apply NoDup_cons in Hnd as [Hna Hnd].
      assert (b ∈ q ↔ b ≠ a ∧ waiting (wakers M) V k b) as ->.
      { rewrite <- Hq, elem_of_cons. split; [intros Hb; split; [by intros ->|by right]|by intros [? [?|?]]]. }
      unfold waiting. split.
      * intros (Hne & t' & v' & wb & Hv' & Hb' & Hwb & Hkb & Hpb). pose proof (pop_same q (wakers M) a w b Hne) as HF. rewrite Hwb in HF.
        apply option_Forall2_l in HF as (wb' & Hb0 & (? & ? & ?) & Hwk' & _). exists t', v', wb'. split_and!; try done; [congruence|by rewrite Hwk'].
      * intros (t' & v' & wb & Hv' & Hb' & Hwb & Hkb & Hpb).
        assert (b ≠ a) as Hne by (intros ->; unfold W' in Hwb; rewrite lookup_insert_eq in Hwb; injection Hwb as <-; by apply Hpb).
        split; [done|]. pose proof (pop_same q (wakers M) a w b Hne) as HF. fold W' in HF. rewrite Hwb in HF.
        apply option_Forall2_r in HF as (wb' & Hb0 & (? & ? & ?) & Hwk' & _). exists t', v', wb'. split_and!; try done; congruence.
  - split; cbn; [done|set_solver|]. intros b. destruct (decide (b = a)) as [->|Hne].
    + unfold W'. rewrite Ha, lookup_insert_eq. constructor. split; cbn; try done.
      right. split; [done|]. intros cx Hcx. unfold told. rewrite Hcx. set_solver.
    + pose proof (pop_same q (wakers M) a w b Hne) as HF. fold W' in HF.
      destruct (decide (b ∈ q)) as [Hbq|Hbq].
      * destruct (proj1 (Hq b)) as (_ & _ & wb & _ & _ & Hwb & Hkb & _); [by right|]. rewrite Hwb in HF |- *.
        apply option_Forall2_l in HF as (wb' & -> & (Hk' & Ht' & _) & Hwk' & Hu' & _). constructor. split; try done. by left.
      * destruct HF as [x y [_ [_ [_ [?| ->]]]]|]; [done|constructor; apply changed_refl|constructor].
Qed.

(** An operation on the entry leaves it sound and keeps to its wakers; a lock
    that is held stays held, and a lock that nobody holds has nobody waiting. *)
Definition entry_runs {A} (m : st (LockEntry * Memory) A) (r : A) e M : Prop :=
  ∃ e' M' q', m (e, M) = (Ok r, (e', M')) ∧ entry_ok k V e' (wakers M') q' ∧ kept k M M' ∧
    (grants (wakers M) V k ≠ ∅ → grants (wakers M') V k ≠ ∅) ∧ (grants (wakers M') V k = ∅ → q' = []).

Lemma wake_readers_ok q : ∀ fuel e M,
  mem_ok (wakers M) V → entry_ok k V e (wakers M) q → state e ≠ WriteLock → (length q < fuel)%nat →
  grants (wakers M) V k ≠ ∅ → entry_runs (LockEntry.wake_readers fuel) tt e M.
Proof.
  induction q as [|a q IH]; intros [|fuel] e M Hm He Hs Hf Hg; cbn in Hf; try lia; unfold entry_runs; cbn [LockEntry.wake_readers].
  { exists e, M, []. em_simpl. rewrite (ln_head _ _ _ (eo_linked _ _ _ _ _ He)). split_and!; try done. apply kept_refl. }
  em_simpl. rewrite (ln_head _ _ _ (eo_linked _ _ _ _ _ He)). cbn [lookup list_lookup LockEntry.is_null].
  destruct (ln_node _ _ _ (eo_linked _ _ _ _ _ He) 0%nat a eq_refl) as (w & Hw & _).
  em_simpl. rewrite (deref_run a w) by done. destruct (bool_decide_reflect (target_state w = ReadLock)) as [Hr|Hr].
  2: { exists e, M, (a :: q). split_and!; try done. apply kept_refl. }
  destruct (pop_ok e M a q w) as (e1 & M1 & Hrun & He1 & Hk1 & Hs1 & Hg1); try done.
  { destruct (proj1 (eo_waiting _ _ _ _ _ He a)) as (t & v & w0 & Hv & Hva & Hw0 & Hkw & Hwk); [by left|].
    destruct (waiting_grant (wakers M) a w t v) as [_ Hup]; try done; [congruence..|].
    destruct (is_upgrade w); [specialize (Hup eq_refl); congruence|]. by rewrite Hr. }
  em_simpl. rewrite Hrun. rewrite decide_True in Hs1 by done.
  destruct (IH fuel e1 M1) as (e2 & M2 & q2 & Hrun2 & He2 & Hk2 & Hg2 & Hq2); try done; [by eapply kept_mem_ok|congruence|lia|].
  exists e2, M2, q2. split_and!; try done; [by eapply kept_trans|by intros; apply Hg2].
Qed.

Lemma queue_length e M q : entry_ok k V e (wakers M) q → (length q ≤ size (wakers M))%nat.
Proof.
  intros [_ [_ _ Hn Hd] _]. rewrite <- size_dom. rewrite <- (size_list_to_set (C := gset addr) q) by done.
  apply subseteq_size. intros a Ha. apply elem_of_list_to_set in Ha. apply list_elem_of_lookup in Ha as [i Hi].
  destruct (Hn i a Hi) as (w & Hw & _). apply elem_of_dom. by exists w.
Qed.

(** Whether the first in the list may proceed. *)
Lemma is_allowed_head e M target : ∃ b, LockEntry.is_allowed target true (e, M) = (Ok b, (e, M)) ∧
  (b = true ↔ compatible (read_count e) (state e) target).
Proof.
  unfold LockEntry.is_allowed. em_simpl. destruct (state e) eqn:Es; em_simpl.
  - eexists. split; [done|]. rewrite andb_true_r, !orb_true_iff, Z.eqb_eq, !bool_decide_eq_true.
    destruct target; cbn; naive_solver.
  - destruct target; cbn; eexists; (split; [done|]); naive_solver.
  - eexists. split; [done|]. destruct target; cbn; naive_solver.
Qed.

Lemma wake_ok e M q :
  mem_ok (wakers M) V → entry_ok k V e (wakers M) q → entry_runs LockEntry.wake tt e M.
Proof.
  intros Hm He. pose proof (eo_shape _ _ _ _ _ He) as Hs. unfold entry_runs, LockEntry.wake. em_simpl.
  rewrite (ln_head _ _ _ (eo_linked _ _ _ _ _ He)). destruct q as [|a q].
  { exists e, M, []. split_and!; try done. apply kept_refl. }
  cbn [lookup list_lookup LockEntry.is_null orb]. destruct (bool_decide_reflect (state e = WriteLock)) as [Hwr|Hwr].
  { exists e, M, (a :: q). split_and!; try done; [apply kept_refl|]. intros Hg. by destruct (shape_held _ _ _ Hs); [left; rewrite Hwr|]. }
  destruct (ln_node _ _ _ (eo_linked _ _ _ _ _ He) 0%nat a eq_refl) as (w & Hw & _).
  destruct (proj1 (eo_waiting _ _ _ _ _ He a)) as (t & v & w0 & Hv & Hva & Hw0 & Hkw & Hwk); [by left|].
  assert (w0 = w) as -> by congruence.
  destruct (waiting_grant (wakers M) a w t v) as [Hgt Hup]; try done.
  em_simpl. rewrite (deref_run a w) by done.
  assert (∃ b, (if is_upgrade w then mret (negb (0 <? read_count e)) else LockEntry.is_allowed (target_state w) true) (e, M) =
    (Ok b, (e, M)) ∧
    (if b then if is_upgrade w then read_count e = 0 else compatible (read_count e) (state e) (target_state w)
     else grants (wakers M) V k ≠ ∅)) as (b & Hrun & Hb).
  { destruct (is_upgrade w).
    - eexists. split; [done|]. pose proof (sh_readers _ _ _ Hs). destruct (Z.ltb_spec 0 (read_count e)); cbn; [|lia].
      intros Hg. by rewrite Hg, lookup_empty in Hgt.
    - destruct (is_allowed_head e M (target_state w)) as (b & Hrun & Hb). exists b. split; [done|].
      destruct b; [by apply Hb|]. eapply shape_held; [done|]. destruct (state e) eqn:Es; [right|by left|by left].
      intros H0. assert (false = true); [|done]. apply Hb. rewrite H0. by destruct (target_state w). }
  em_simpl. rewrite Hrun. destruct b; cbn [negb].
  2: { exists e, M, (a :: q). split_and!; try done; apply kept_refl. }
  destruct (pop_ok e M a q w) as (e1 & M1 & Hpop & He1 & Hk1 & Hs1 & Hg1); try done.
  em_simpl. rewrite Hpop. destruct (bool_decide_reflect (target_state w = WriteLock)) as [Ht|Ht].
  { exists e1, M1, q. by split_and!. }
  em_simpl. pose proof (queue_length _ _ _ He1) as Hlen.
  destruct (wake_readers_ok q (S (size (wakers M1))) e1 M1) as (e2 & M2 & q2 & Hrun2 & He2 & Hk2 & Hg2 & Hq2); try done.
  - by eapply kept_mem_ok.
  - rewrite Hs1. by case_decide.
  - lia.
  - exists e2, M2, q2. split_and!; try done; [by eapply kept_trans|by intros; apply Hg2].
Qed.

(** ** Taking a waker out of the list *)

(** Only links of wakers in the list change. *)
Definition relinked (q : list addr) W W' : Prop := ∀ b,
  option_Forall2 (λ x y, key y = key x ∧ target_state y = target_state x ∧ waker y = waker x ∧
    is_upgrade y = is_upgrade x ∧ (b ∈ q ∨ y = x)) (W !! b) (W' !! b).

Lemma relinked_refl q W : relinked q W W.
Proof. intros b. destruct (W !! b); constructor. by split_and!; auto. Qed.

Lemma relinked_next q p x W W' : relinked q W W' → (∀ b, p = Some b → b ∈ q) →
  relinked q W (alter_opt (λ w, set_next w x) p W').
Proof.
  intros H Hp b. specialize (H b). rewrite alter_opt_lookup. case_decide as E; [|done].
  destruct H as [w w' (? & ? & ? & ? & _)|]; constructor. split_and!; try done. left. by apply Hp.
Qed.

Lemma relinked_prev q p x W W' : relinked q W W' → (∀ b, p = Some b → b ∈ q) →
  relinked q W (alter_opt (λ w, set_prev w x) p W').
Proof.
  intros H Hp b. specialize (H b). rewrite alter_opt_lookup. case_decide as E; [|done].
  destruct H as [w w' (? & ? & ? & ? & _)|]; constructor. split_and!; try done. left. by apply Hp.
Qed.

Lemma relinked_waiting q W W' k' b : relinked q W W' → waiting W' V k' b ↔ waiting W V k' b.
Proof.
  intros H. unfold waiting. split; intros (t & v & w & Hv & Hb & Hw & Hk & Hp); specialize (H b); rewrite Hw in H.
  - apply option_Forall2_r in H as (x & Hx & Hkx & _ & Hwx & _). exists t, v, x. split_and!; try done; congruence.
  - apply option_Forall2_l in H as (x & Hx & Hkx & _ & Hwx & _). exists t, v, x. split_and!; try done; congruence.
Qed.

Lemma relinked_grants q W W' k' : relinked q W W' → grants W' V k' = grants W V k'.
Proof.
  intros H. apply grants_ext. intros t v b _ _. destruct (H b) as [x y (Hk & Ht & Hw & _)|]; constructor. left.
  split_and!; [done..|by rewrite Hw].
Qed.

Lemma relinked_kept M q W' : (∀ b, b ∈ q → waiting (wakers M) V k b) → relinked q (wakers M) W' →
  kept k M (mkMemory W' (fresh_addr M) (woken M)).
Proof.
  intros Hq H. split; [done|done|]. cbn [wakers woken]. intros b. pose proof (H b) as Hb.
  destruct (decide (b ∈ q)) as [Hin|Hin].
  - destruct (Hq b Hin) as (t & v & w & _ & _ & Hw & Hk & _). rewrite Hw in Hb |- *.
    apply option_Forall2_l in Hb as (y & -> & ? & ? & ? & ? & _). constructor. split; try done. by left.
  - destruct Hb as [x y (_ & _ & _ & _ & [?| ->])|]; [done|constructor; apply changed_refl|constructor].
Qed.

Lemma update_opt p f e M : p ≠ None → (∀ b, p = Some b → is_Some (wakers M !! b)) →
  LockEntry.update p f (e, M) = (Ok tt, (e, mkMemory (alter_opt f p (wakers M)) (fresh_addr M) (woken M))).
Proof.
  intros Hp Hl. destruct p as [b|]; [|done]. destruct (Hl b eq_refl) as [w Hw].
  rewrite (update_run b f w) by done. cbn [alter_opt]. by rewrite (alter_insert _ _ _ w).
Qed.

Lemma is_null_last (q : list addr) : LockEntry.is_null (last q) = bool_decide (q = []).
Proof. destruct q as [|c q _] using rev_ind; [done|]. rewrite last_snoc. symmetry. apply bool_decide_eq_false. by destruct q. Qed.

Lemma is_null_first (q : list addr) : LockEntry.is_null (q !! 0%nat) = bool_decide (q = []).
Proof. by destruct q. Qed.

Lemma remove_run e M q1 a q2 w :
  wakers M !! a = Some w → prev w = last q1 → next w = q2 !! 0%nat → last q1 ≠ Some a →
  (∀ b, last q1 = Some b ∨ q2 !! 0%nat = Some b → is_Some (wakers M !! b)) →
  LockEntry.remove_waker a (e, M) = (if decide (q1 = []) then LockEntry.wake else mret tt)
    (mkEntry (read_count e) (state e) (if decide (q1 = []) then q2 !! 0%nat else head e)
       (if decide (q2 = []) then last q1 else tail e),
     mkMemory (alter_opt (λ x, set_prev x (last q1)) (q2 !! 0%nat)
       (alter_opt (λ x, set_next x (q2 !! 0%nat)) (last q1) (wakers M))) (fresh_addr M) (woken M)).
Proof.
  intros Ha Hpv Hnx Hla Hlive. unfold LockEntry.remove_waker. em_simpl. rewrite (deref_run a w) by done. em_simpl.
  rewrite Hpv, Hnx, is_null_last.
  set (W1 := alter_opt (λ x, set_next x (q2 !! 0%nat)) (last q1) (wakers M)).
  assert ((if bool_decide (q1 = []) then LockEntry.set_head (q2 !! 0%nat)
     else LockEntry.update (last q1) (λ p, set_next p (q2 !! 0%nat))) (e, M) =
    (Ok tt, (mkEntry (read_count e) (state e) (if decide (q1 = []) then q2 !! 0%nat else head e) (tail e),
      mkMemory W1 (fresh_addr M) (woken M)))) as ->.
  { destruct (decide (q1 = [])) as [->|Hne]; [by destruct M|]. rewrite bool_decide_eq_false_2 by done.
    rewrite update_opt; [by destruct e|by rewrite last_None|auto]. }
  em_simpl. assert (W1 !! a = Some w) as Ha1 by by unfold W1; rewrite alter_opt_lookup, decide_False.
  rewrite (deref_run a w) by done. em_simpl. rewrite Hpv, Hnx, is_null_first.
  destruct (decide (q2 = [])) as [->|Hne]; cbn [bool_decide].
  - rewrite bool_decide_eq_true_2 by done. em_simpl. by destruct (decide (q1 = [])); rewrite ?bool_decide_eq_true_2, ?bool_decide_eq_false_2 by done.
  - rewrite bool_decide_eq_false_2 by done. rewrite update_opt; cbn [wakers fresh_addr woken].
    + by destruct (decide (q1 = [])); rewrite ?bool_decide_eq_true_2, ?bool_decide_eq_false_2 by done.
    + by destruct q2.
    + intros b Hb. unfold W1. rewrite alter_opt_lookup. destruct (Hlive b (or_intror Hb)) as [x ->]. by case_decide; eexists.
Qed.

Lemma remove_waker_ok e M q1 a q2 :
  mem_ok (wakers M) V → shape (grants (wakers M) V k) (read_count e) (state e) →
  linked (wakers M) e (q1 ++ a :: q2) → (∀ b, b ∈ q1 ++ q2 ↔ waiting (wakers M) V k b) →
  grants (wakers M) V k ≠ ∅ → entry_runs (LockEntry.remove_waker a) tt e M.
Proof.
  intros Hm Hs Hl Hq Hg. pose proof (linked_remove _ _ _ _ _ (read_count e) (state e) Hl) as Hl'.
  set (W1 := alter_opt (λ x, set_next x (q2 !! 0%nat)) (last q1) (wakers M)) in *. set (W2 := alter_opt _ _ W1) in Hl'.
  assert (∀ b, last q1 = Some b → b ∈ q1 ++ q2) as Hp1
    by (intros b Hb; rewrite last_lookup in Hb; apply elem_of_app; left; by eapply list_elem_of_lookup_2).
  assert (∀ b, q2 !! 0%nat = Some b → b ∈ q1 ++ q2) as Hp2
    by (intros b Hb; apply elem_of_app; right; by eapply list_elem_of_lookup_2).
  assert (relinked (q1 ++ q2) (wakers M) W2) as Hr by (apply relinked_prev, Hp2; apply relinked_next, Hp1; apply relinked_refl).
  assert (kept k M (mkMemory W2 (fresh_addr M) (woken M))) as Hk
    by (eapply relinked_kept; [|done]; intros b ?; by apply Hq).
  assert (∀ b, b ∈ q1 ++ q2 → ∃ x, wakers M !! b = Some x) as Hlive.
  { intros b Hb. apply Hq in Hb as (t & v & w & _ & _ & Hw & _). by exists w. }
  destruct (ln_node _ _ _ Hl (length q1) a) as (w & Hw & Hnx & Hpv); [by rewrite lookup_app_r, Nat.sub_diag by lia|].
  rewrite lookup_app_r in Hnx by lia. replace (S (length q1) - length q1)%nat with 1%nat in Hnx by lia.
  change ((a :: q2) !! 1%nat) with (q2 !! 0%nat) in Hnx.
  assert (prev w = last q1) as Hpv'.
  { rewrite Hpv, last_lookup. destruct (length q1) as [|j] eqn:El; [by rewrite (nil_length_inv _ El)|].
    cbn [pred]. by rewrite lookup_app_l by lia. }
  set (e2 := mkEntry _ _ _ _) in Hl'. set (M2 := mkMemory W2 (fresh_addr M) (woken M)) in *.
  assert (LockEntry.remove_waker a (e, M) = (if decide (q1 = []) then LockEntry.wake else mret tt) (e2, M2)) as Hrun.
  { rewrite (remove_run e M q1 a q2 w); [done|done|done|done| |].
    - rewrite last_lookup. intros Hla. pose proof (ln_nodup _ _ _ Hl) as (_ & Hdj & _)%NoDup_app.
      eapply (Hdj a); [by eapply list_elem_of_lookup_2|by left].
    - intros b [Hb|Hb]; apply Hlive; auto. }
  assert (entry_ok k V e2 W2 (q1 ++ q2)) as He2.
  { split; [by rewrite (relinked_grants _ _ _ _ Hr)|done|]. intros b. rewrite Hq. by rewrite (relinked_waiting _ _ _ _ _ Hr). }
  assert (grants W2 V k ≠ ∅) as Hg2 by by rewrite (relinked_grants _ _ _ _ Hr).
  unfold entry_runs. rewrite Hrun. case_decide.
  - destruct (wake_ok e2 M2 (q1 ++ q2)) as (e3 & M3 & q3 & -> & He3 & Hk3 & Hg3 & Hq3); [by eapply kept_mem_ok|done|].
    exists e3, M3, q3. split_and!; try done; [by eapply kept_trans|by intros; apply Hg3].
  - exists e2, M2, (q1 ++ q2). by split_and!.
Qed.

Lemma downgrade_lock_ok e M q :
  mem_ok (wakers M) V → state e = WriteLock →
  entry_ok k V (mkEntry (read_count e) Locked (head e) (tail e)) (wakers M) q →
  entry_runs LockEntry.downgrade_lock tt e M.
Proof.
  intros Hm Hs He. unfold entry_runs, LockEntry.downgrade_lock. em_simpl. rewrite Hs. cbn [rassert].
  rewrite bool_decide_eq_true_2 by done. cbn [rassert]. by apply (wake_ok _ M q).
Qed.
End entry.
