(* ===== verification/LockInv.v ===== *)
(** * The invariant of the lock manager

    For every key, the entry agrees with the tasks that hold it and with those
    that wait for it; there is an entry exactly when somebody holds the key.
    Every section that holds the mutex preserves this, without a panic. *)

From S2P Require Import Prelude LockKeys LockManager LockQueue.

Implicit Types (W : gmap addr LockWaker) (V : gmap tid view) (k : LockKey) (e : LockEntry) (L : Locks) (v : view).

Notation mem L := (wakers (memory L)).

Definition key_inv L V k : Prop :=
  match keys L !! k with
  | Some e => ∃ q, entry_ok k V e (mem L) q ∧ grants (mem L) V k ≠ ∅
  | None => grants (mem L) V k = ∅ ∧ ∀ a, ¬ waiting (mem L) V k a
  end.

(** For all keys but [k]. *)
Record inv_but k L V : Prop := {
  ib_mem : mem_ok (mem L) V;
  ib_fresh : ∀ a w, mem L !! a = Some w → (a < fresh_addr (memory L))%positive;
  ib_size : Z.of_nat (size V) ≤ u64_max;
  ib_keys : ∀ k', k' ≠ k → key_inv L V k';
}.

Definition inv L V : Prop := ∀ k, inv_but k L V ∧ key_inv L V k.

Lemma inv_intro k L V : inv_but k L V → key_inv L V k → inv L V.
Proof.
  intros [Hm Hf Hs Hk] Hkk k'. assert (∀ k', key_inv L V k') as H by (intros k0; destruct (decide (k0 = k)) as [->|]; auto).
  split; [split; auto|auto].
Qed.

(** ** Changing one task's view *)
Lemma mem_ok_update W V t v v' :
  mem_ok W V → V !! t = Some v →
  (v'.2 = None ∨ (v'.2 = v.2 ∧ ∀ a w, v.2 = Some a → W !! a = Some w → v'.1 !! key w = v.1 !! key w)) →
  mem_ok W (<[t := v']> V).
Proof.
  intros [Hl Hi] Ht Hv.
  assert (∀ t' v0 a, <[t := v']> V !! t' = Some v0 → v0.2 = Some a → ∃ v1, V !! t' = Some v1 ∧ v1.2 = Some a ∧
    ∀ w, W !! a = Some w → v0.1 !! key w = v1.1 !! key w) as Hold.
  { intros t' v0 a [[<- <-]|[_ H]]%lookup_insert_Some Ha; [|by exists v0].
    destruct Hv as [Hv|[Hv Hk]]; [congruence|]. exists v. split_and!; [done|congruence|]. intros w. apply Hk. congruence. }
  split.
  - intros t' v0 a H0 Ha. destruct (Hold _ _ _ H0 Ha) as (v1 & H1 & Ha1 & Hk). destruct (Hl _ _ _ H1 Ha1) as (w & Hw & Hu).
    exists w. by rewrite (Hk w Hw).
  - intros t1 t2 v1 v2 a H1 H2 Ha1 Ha2. destruct (Hold _ _ _ H1 Ha1) as (? & ? & ? & _).
    destruct (Hold _ _ _ H2 Ha2) as (? & ? & ? & _). by eapply Hi.
Qed.

Lemma waiting_same W V t v v' k b : V !! t = Some v → v'.2 = v.2 → waiting W (<[t := v']> V) k b ↔ waiting W V k b.
Proof.
  intros Ht Hv. unfold waiting. split; intros (t' & v0 & w & H0 & Hb & Hw & Hk & Hp).
  - apply lookup_insert_Some in H0 as [[<- <-]|[Hne H0]]; [exists t, v, w|exists t', v0, w]; split_and!; try done; congruence.
  - destruct (decide (t' = t)) as [->|Hne].
    + exists t, v', w. rewrite lookup_insert_eq. split_and!; try done. congruence.
    + exists t', v0, w. rewrite lookup_insert_ne by done. by split_and!.
Qed.

Lemma waiting_none W V t v v' a k b : mem_ok W V → V !! t = Some v → v.2 = Some a → v'.2 = None →
  waiting W (<[t := v']> V) k b ↔ waiting W V k b ∧ b ≠ a.
Proof.
  intros Hm Ht Ha Hv. unfold waiting. split.
  - intros (t' & v0 & w & [[<- <-]|[Hne H0]]%lookup_insert_Some & Hb & Hw); [congruence|].
    split; [by exists t', v0, w|]. intros ->. apply Hne. by eapply (mo_inj _ _ Hm).
  - intros [(t' & v0 & w & H0 & Hb & Hw) Hne]. exists t', v0, w. rewrite lookup_insert_ne; [done|]. intros ->. congruence.
Qed.

(** The other keys do not notice. *)
Definition others k W V V' : Prop := ∀ k', k' ≠ k →
  grants W V' k' = grants W V k' ∧ ∀ a, waiting W V' k' a ↔ waiting W V k' a.

Lemma inv_but_views k L V V' :
  inv_but k L V → mem_ok (mem L) V' → Z.of_nat (size V') ≤ u64_max → others k (mem L) V V' → inv_but k L V'.
Proof.
  intros [Hm Hf Hs Hk] Hm' Hs' Ho. split; [done..|]. intros k' Hne. specialize (Hk k' Hne). destruct (Ho k' Hne) as [Hg Hw].
  unfold key_inv in *. destruct (keys L !! k') as [e|].
  - destruct Hk as (q & [Hsh Hl Hq] & Hne'). exists q. rewrite Hg. split; [|done]. split; [by rewrite Hg|done|].
    intros a. by rewrite Hw.
  - rewrite Hg. split; [apply Hk|]. intros a. rewrite Hw. apply Hk.
Qed.

(** ** Changing the entry of a key *)
Lemma kept_waiting k M M' V k' a : kept k M M' → k' ≠ k → waiting (wakers M') V k' a → waiting (wakers M) V k' a.
Proof.
  intros Hk Hne (t & v & w & Hv & Ha & Hw & Hkw & Hp). destruct (kept_lookup_inv _ _ _ _ _ Hk Hw) as (w0 & H0 & Hc).
  pose proof (ch_key _ _ _ _ Hc). assert (w = w0) as -> by (apply (ch_other _ _ _ _ Hc); congruence).
  exists t, v, w0. by split_and!.
Qed.

Lemma inv_but_kept k L V K' M' :
  inv_but k L V → kept k (memory L) M' → (∀ k', k' ≠ k → K' !! k' = keys L !! k') → inv_but k (mkLocks K' M') V.
Proof.
  intros [Hm Hf Hs Hk] Hkp HK. split; cbn [memory].
  - by eapply kept_mem_ok.
  - intros a w Ha. rewrite (kp_fresh _ _ _ Hkp). destruct (kept_lookup_inv _ _ _ _ _ Hkp Ha) as (w0 & H0 & _). by eapply Hf.
  - done.
  - intros k' Hne. specialize (Hk k' Hne). unfold key_inv in *. cbn [keys memory]. rewrite (HK k' Hne).
    rewrite (kept_grants _ _ _ _ _ Hkp Hne). destruct (keys L !! k') as [e|].
    + destruct Hk as (q & He & Hg). exists q. split; [|done]. by eapply kept_entry.
    + destruct Hk as [Hg Hw]. split; [done|]. intros a Ha. apply (Hw a). by eapply kept_waiting.
Qed.

(** An operation on the entry of a key that stays held. *)
Lemma entry_step {A} k L V (m : st (LockEntry * Memory) A) r e :
  inv_but k L V → keys L !! k = Some e → entry_runs k V m r e (memory L) → grants (mem L) V k ≠ ∅ →
  ∃ L', Locks.with_entry k m L = (Ok r, L') ∧ inv L' V ∧ kept k (memory L) (memory L').
Proof.
  intros Hi He (e' & M' & q' & Hrun & He' & Hk & Hg & _) Hne. unfold Locks.with_entry. rewrite He, Hrun.
  eexists. split; [done|]. split; [|done]. apply (inv_intro k).
  - eapply inv_but_kept; [done..|]. intros k' ?. by rewrite lookup_insert_ne.
  - unfold key_inv. cbn. rewrite lookup_insert_eq. exists q'. split; [done|by apply Hg].
Qed.

(** ** Dropping a lock *)
Lemma drop_lock_ok k s L V t e q m g :
  inv_but k L V → keys L !! k = Some e → shape g (read_count e) (state e) → g !! t = Some m →
  grants (mem L) V k = delete t g → linked (mem L) e q → (∀ a, a ∈ q ↔ waiting (mem L) V k a) →
  (s = ReadLock ↔ m = ReadLock) →
  ∃ L', Locks.drop_lock k s L = (Ok tt, L') ∧ inv L' V ∧ kept k (memory L) (memory L').
Proof.
  intros Hi He Hs Ht Hg Hl Hq Hsm. destruct (shape_drop _ _ _ _ _ Hs Ht) as (Hs' & Hn & Hst).
  set (n' := if decide (m = ReadLock) then read_count e - 1 else read_count e) in Hs'.
  set (s' := if decide (m = ReadLock) then state e else ReadLock) in Hs'.
  set (e1 := mkEntry n' s' (head e) (tail e)). set (wake := if decide (m = ReadLock) then n' =? 0 else true).
  set (L1 := mkLocks (<[k := e1]> (keys L)) (memory L)).
  assert (entry_ok k V e1 (mem L) q) as He1 by (split; [by rewrite Hg|by destruct Hl; split|done]).
  assert (inv_but k L1 V) as Hi1 by (eapply inv_but_kept; [done|apply kept_refl|intros; by rewrite lookup_insert_ne]).
  unfold Locks.drop_lock. st_simpl. rewrite He.
  assert (Locks.with_entry k (Locks.release s) L = (Ok wake, L1)) as Hrel.
  { unfold Locks.with_entry, Locks.release. rewrite He. unfold L1, e1, wake, n', s'. destruct s.
    - rewrite !(decide_True (P := m = ReadLock)) by tauto. em_simpl. rewrite u64_sub_ok by tauto. done.
    - by rewrite !(decide_False (P := m = ReadLock)) by (intros E; by apply Hsm in E).
    - by rewrite !(decide_False (P := m = ReadLock)) by (intros E; by apply Hsm in E). }
  rewrite st_bind_run, Hrel. destruct wake eqn:Ew.
  - destruct (wake_ok k V (ib_size _ _ _ Hi) e1 (memory L) q) as (e2 & M2 & q2 & Hrun & He2 & Hk2 & _ & Hq2);
      [apply Hi|done|].
    st_simpl. unfold Locks.with_entry at 1. cbn [L1 keys memory]. rewrite lookup_insert_eq. em_simpl. rewrite Hrun.
    cbn [LockEntry.self fst]. rewrite insert_insert_eq. set (L2 := mkLocks (<[k := e2]> (keys L)) M2).
    destruct (LockEntry.can_remove e2) eqn:Er.
    + apply andb_true_iff in Er as [Er%bool_decide_eq_true Hr%Z.eqb_eq].
      pose proof (eo_shape _ _ _ _ _ He2) as Hs2. rewrite Er in Hs2. apply (shape_idle _ _ Hs2) in Hr as Hg2.
      eexists. split; [done|]. cbn [L2 keys memory]. split; [|done]. apply (inv_intro k).
      * eapply inv_but_kept; [exact Hi|done|]. intros k' ?. by rewrite lookup_delete_ne, lookup_insert_ne.
      * unfold key_inv. cbn [keys memory]. rewrite lookup_delete_eq. split; [done|]. intros a Ha%(eo_waiting _ _ _ _ _ He2).
        rewrite (Hq2 Hg2) in Ha. by apply elem_of_nil in Ha.
    + exists L2. split; [done|]. split; [|done]. apply (inv_intro k).
      * eapply inv_but_kept; [exact Hi|done|]. intros k' ?. by rewrite lookup_insert_ne.
      * unfold key_inv. cbn [L2 keys memory]. rewrite lookup_insert_eq. exists q2. split; [done|].
        apply (shape_held _ _ _ (eo_shape _ _ _ _ _ He2)). apply andb_false_iff in Er as [Er|Er]; [left|right].
        -- by apply bool_decide_eq_false in Er.
        -- by apply Z.eqb_neq in Er.
  - exists L1. split; [done|]. split; [|apply kept_refl]. apply (inv_intro k); [done|]. unfold key_inv. cbn [L1 keys memory].
    rewrite lookup_insert_eq. exists q. split; [done|]. apply (shape_held _ _ _ (eo_shape _ _ _ _ _ He1)). right. cbn.
    unfold wake in Ew. case_decide; [by apply Z.eqb_neq in Ew|done].
Qed.

(** ** What one task may do *)

(** What identifies a waker. *)
Definition desc (w : LockWaker) : LockKey * LockState * bool := (key w, target_state w, is_upgrade w).

(** Wakers stay what they are, and whoever is woken has been told. *)
Record evolves (M M' : Memory) : Prop := {
  ev_woken : woken M ⊆ woken M';
  ev_wakers : ∀ a w, wakers M !! a = Some w → ∃ w', wakers M' !! a = Some w' ∧ desc w' = desc w ∧
    (waker w' = waker w ∨ (waker w' = Woken ∧ ∀ cx, waker w = Registered cx → cx ∈ woken M'));
}.

Lemma kept_evolves k M M' : kept k M M' → evolves M M'.
Proof.
  intros Hk. split; [apply Hk|]. intros a w Ha. destruct (kept_lookup _ _ _ _ _ Hk Ha) as (w' & Ha' & [H1 H2 H3 _ H4]).
  exists w'. split_and!; [done|by unfold desc; rewrite H1, H2, H3|done].
Qed.

Lemma evolves_refl M : evolves M M.
Proof. split; [done|]. intros a w Ha. exists w. by split_and!; auto. Qed.

Lemma evolves_trans M1 M2 M3 : evolves M1 M2 → evolves M2 M3 → evolves M1 M3.
Proof.
  intros [Hw H] [Hw' H']. split; [set_solver|]. intros a w Ha. destruct (H a w Ha) as (w2 & H2 & Hd2 & Hx2).
  destruct (H' a w2 H2) as (w3 & H3 & Hd3 & Hx3). exists w3. split_and!; [done|congruence|].
  destruct Hx3 as [->|[Hwk Hx3]]; [destruct Hx2 as [?|[? Hx2]]; [by left|right; set_solver]|].
  right. split; [done|]. intros cx Hcx. destruct Hx2 as [E|[_ Hx2]]; [apply Hx3; congruence|apply Hw', Hx2, Hcx].
Qed.

(** ** Changing the memory only *)
Definition owned V (a : addr) : Prop := ∃ t v, V !! t = Some v ∧ v.2 = Some a.

Lemma owned_live W V a : mem_ok W V → owned V a → ∃ w, W !! a = Some w.
Proof. intros Hm (t & v & Hv & Ha). destruct (mo_live _ _ Hm t v a Hv Ha) as (w & Hw & _). by exists w. Qed.

Record same_waker (x y : LockWaker) : Prop := {
  sw_desc : desc y = desc x;
  sw_next : next y = next x;
  sw_prev : prev y = prev x;
  sw_woken : waker y = Woken ↔ waker x = Woken;
}.

Lemma same_waker_refl x : same_waker x x.
Proof. by split. Qed.

Lemma inv_memory L V M' :
  inv L V → (∀ b, owned V b → option_Forall2 same_waker (mem L !! b) (wakers M' !! b)) →
  (∀ b y, wakers M' !! b = Some y → (b < fresh_addr M')%positive) →
  inv (mkLocks (keys L) M') V.
Proof.
  intros Hi Hs Hf.
  assert (∀ k, grants (wakers M') V k = grants (mem L) V k) as Hg.
  { intros k. apply grants_ext. intros t v b Hv Hb. destruct (Hs b) as [x y [Hd _ _ Hw]|]; [by exists t, v|constructor|constructor].
    left. unfold desc in Hd. by injection Hd. }
  assert (∀ k b, waiting (wakers M') V k b ↔ waiting (mem L) V k b) as Hwt.
  { intros k b. unfold waiting. split; intros (t & v & w & Hv & Hb & Hw & Hk & Hp);
      (assert (owned V b) as Ho by by exists t, v); specialize (Hs b Ho); rewrite Hw in Hs.
    - apply option_Forall2_r in Hs as (x & Hx & [Hd _ _ Hwk]). injection Hd as ???. exists t, v, x. split_and!; try done; [congruence|tauto].
    - apply option_Forall2_l in Hs as (x & Hx & [Hd _ _ Hwk]). injection Hd as ???. exists t, v, x. split_and!; try done; [congruence|tauto]. }
  assert (mem_ok (wakers M') V) as Hm'.
  { destruct (Hi Filesystem) as [[[Hl Hj] _ _ _] _]. split; [|done]. intros t v b Hv Hb. destruct (Hl t v b Hv Hb) as (w & Hw & Hu).
    specialize (Hs b ltac:(by exists t, v)). rewrite Hw in Hs. apply option_Forall2_l in Hs as (y & Hy & [Hd _ _ _]).
    injection Hd as Hk Ht Hup. exists y. by rewrite Hk, Ht, Hup. }
  assert (∀ k, key_inv (mkLocks (keys L) M') V k) as Hall.
  { intros k. destruct (Hi k) as [_ Hk]. unfold key_inv in *. cbn [keys memory]. rewrite Hg. destruct (keys L !! k) as [e|].
    2: { split; [apply Hk|]. intros b. rewrite Hwt. apply Hk. }
    destruct Hk as (q & [Hsh [Hh Ht Hn Hd] Hq] & Hne). exists q. split; [|done].
    split; [by rewrite Hg|split; [done..| |done]|intros b; by rewrite Hwt].
    intros i b Hb. destruct (Hn i b Hb) as (w & Hw & Hnx & Hpv).
    apply list_elem_of_lookup_2, Hq in Hb as (t & v & _ & Hv & Hb & _).
    specialize (Hs b ltac:(by exists t, v)). rewrite Hw in Hs. apply option_Forall2_l in Hs as (y & Hy & [_ Hnx' Hpv' _]).
    exists y. split_and!; [done|congruence|congruence]. }
  intros k. destruct (Hi k) as [[_ _ Hsz _] _]. by split; [split|].
Qed.

Section task.
Context (t : tid).

Lemma size_update V v v' : V !! t = Some v → size (<[t := v']> V) = size V.
Proof. intros Ht. by rewrite map_size_insert_Some. Qed.

(** What an entry says once the task's view has changed. *)
Lemma held_entry k L V m : inv L V → grants (mem L) V k !! t = Some m →
  ∃ e q, keys L !! k = Some e ∧ entry_ok k V e (mem L) q.
Proof.
  intros Hi Hg. destruct (Hi k) as [_ Hk]. unfold key_inv in Hk. destruct (keys L !! k) as [e|].
  - destruct Hk as (q & He & _). by exists e, q.
  - destruct Hk as [Hk _]. by rewrite Hk, lookup_empty in Hg.
Qed.

Lemma waiting_entry k L V a : inv L V → waiting (mem L) V k a →
  ∃ e q, keys L !! k = Some e ∧ entry_ok k V e (mem L) q ∧ grants (mem L) V k ≠ ∅.
Proof.
  intros Hi Hw. destruct (Hi k) as [_ Hk]. unfold key_inv in Hk. destruct (keys L !! k) as [e|].
  - destruct Hk as (q & He & Hg). by exists e, q.
  - by destruct (proj2 Hk a).
Qed.

(** It drops a lock. *)
Lemma release_ok k s L V v m :
  inv L V → V !! t = Some v → v.1 !! k = Some m → (∀ a w, v.2 = Some a → mem L !! a = Some w → key w ≠ k) →
  (s = ReadLock ↔ m = ReadLock) →
  ∃ L', Locks.drop_lock k s L = (Ok tt, L') ∧ inv L' (<[t := (delete k v.1, v.2)]> V) ∧ evolves (memory L) (memory L').
Proof.
  intros Hi Ht Hm Hnk Hs. set (v' := (delete k v.1, v.2)). destruct (Hi k) as [Hb _].
  assert (∀ k', eff (mem L) v' k' = if decide (k' = k) then None else eff (mem L) v k') as Heff.
  { intros k'. unfold eff. cbn [v' fst snd]. destruct (v.2) as [a|] eqn:Ea; cbn.
    - destruct (mem L !! a) as [w|] eqn:Ew; cbn.
      + specialize (Hnk a w eq_refl Ew). destruct (decide (k' = k)) as [->|Hne].
        * by rewrite decide_False, lookup_delete_eq by tauto.
        * by rewrite lookup_delete_ne.
      + case_decide; [subst; apply lookup_delete_eq|by rewrite lookup_delete_ne].
    - case_decide; [subst; apply lookup_delete_eq|by rewrite lookup_delete_ne]. }
  assert (eff (mem L) v k = Some m) as Hek.
  { unfold eff. destruct (v.2) as [a|] eqn:Ea; cbn; [|done]. destruct (mem L !! a) as [w|] eqn:Ew; [|done].
    rewrite decide_False; [done|]. specialize (Hnk a w eq_refl Ew). tauto. }
  assert (grants (mem L) V k !! t = Some m) as Hgt by by rewrite lookup_grants, Ht.
  destruct (held_entry k L V m Hi Hgt) as (e & q & He & [Hsh Hl Hq]).
  destruct (drop_lock_ok k s L (<[t := v']> V) t e q m (grants (mem L) V k)) as (L' & Hrun & Hi' & Hk); try done.
  - eapply inv_but_views; [done| |by rewrite (size_update _ _ _ Ht); apply Hb|].
    + eapply mem_ok_update; [apply Hb|done|]. right. split; [done|]. intros a w Ha Hw. cbn. rewrite lookup_delete_ne; [done|].
      intros Heq. by eapply Hnk.
    + intros k' Hne. split; [|intros a; by apply (waiting_same _ _ _ v)]. eapply grants_same; [done|]. by rewrite Heff, decide_False.
  - apply grants_release. by rewrite Heff, decide_True.
  - intros a. rewrite Hq. symmetry. by apply (waiting_same _ _ _ v).
  - exists L'. split_and!; [done..|by eapply kept_evolves].
Qed.

(** It stops waiting. *)
Lemma cancel_ok L V v a :
  inv L V → V !! t = Some v → v.2 = Some a →
  ∃ L', LockWaker.cancel a L = (Ok tt, L') ∧ inv L' (<[t := (v.1, None)]> V) ∧ evolves (memory L) (memory L').
Proof.
  intros Hi Ht Ha. destruct (Hi Filesystem) as [[Hm _ _ _] _]. destruct (mo_live _ _ Hm t v a Ht Ha) as (w & Hw & Hu).
  set (k := key w). set (v' := (v.1, None) : view). destruct (Hi k) as [Hb Hki].
  assert (inv_but k L (<[t := v']> V)) as Hb'.
  { eapply inv_but_views; [done|eapply mem_ok_update; [done|done|by left]|by rewrite (size_update _ _ _ Ht); apply Hb|].
    intros k' Hne. split.
    - eapply grants_same; [done|]. rewrite (eff_none _ v') by done. rewrite (eff_some _ v k' a w) by done.
      rewrite decide_False by (unfold k in Hne; intros [? _]; congruence). done.
    - intros b. rewrite (waiting_none _ _ _ v v' a) by done. split; [tauto|]. intros Hwb. split; [done|]. intros ->.
      destruct Hwb as (? & ? & w0 & _ & _ & Hw0 & Hk0 & _). unfold k in Hne. congruence. }
  assert (eff (mem L) v' k = if is_upgrade w then Some Locked else None) as Hev'.
  { rewrite eff_none by done. cbn. unfold k. destruct (is_upgrade w); [by destruct Hu|done]. }
  unfold LockWaker.cancel. rewrite st_bind_run. unfold LockWaker.get. rewrite Hw. fold k.
  assert (∀ b, waiting (mem L) (<[t := v']> V) k b ↔ waiting (mem L) V k b ∧ b ≠ a) as Hwt
    by (intros b; by apply (waiting_none _ _ _ v v' a)).
  destruct (decide (waker w = Woken)) as [Hwk|Hwk].
  - rewrite Hwk. cbn [is_woken].
    assert (eff (mem L) v k = Some (target_state w)) as Hev by (by rewrite (eff_some _ v k a w), decide_True).
    assert (grants (mem L) V k !! t = Some (target_state w)) as Hgt by by rewrite lookup_grants, Ht.
    destruct (held_entry k L V _ Hi Hgt) as (e & q & He & [Hsh Hl Hq]).
    assert (∀ b, b ∈ q ↔ waiting (mem L) (<[t := v']> V) k b) as Hq'.
    { intros b. rewrite Hq, Hwt. split; [|tauto]. intros Hwb. split; [done|]. intros ->.
      destruct Hwb as (? & ? & w0 & _ & _ & Hw0 & _ & Hp0). congruence. }
    destruct (is_upgrade w) eqn:Eu.
    + destruct Hu as [Hlk Htg]. rewrite Htg in *.
      destruct (shape_downgrade _ _ _ _ Hsh Hgt) as [Hst Hsh'].
      assert (grants (mem L) (<[t := v']> V) k = <[t := Locked]> (grants (mem L) V k)) as Hg' by by apply grants_grant.
      destruct (entry_step k L (<[t := v']> V) LockEntry.downgrade_lock tt e) as (L' & Hrun & Hi' & Hk); [done|done| | |].
      * eapply downgrade_lock_ok; [apply Hb'|apply Hb'|done|]. split; [by rewrite Hg'|by destruct Hl; split|done].
      * rewrite Hg'. apply insert_non_empty.
      * exists L'. split_and!; [done..|by eapply kept_evolves].
    + destruct (drop_lock_ok k (target_state w) L (<[t := v']> V) t e q (target_state w) (grants (mem L) V k))
        as (L' & Hrun & Hi' & Hk); try done; [by apply grants_release|].
      exists L'. split_and!; [done..|by eapply kept_evolves].
  - replace (is_woken (waker w)) with false by by destruct (waker w).
    assert (waiting (mem L) V k a) as Hwa by (by exists t, v, w).
    destruct (waiting_entry k L V a Hi Hwa) as (e & q & He & [Hsh Hl Hq] & Hg).
    assert (grants (mem L) (<[t := v']> V) k = grants (mem L) V k) as Hg'.
    { eapply grants_same; [done|]. rewrite (eff_none _ v') by done. rewrite (eff_some _ v k a w), decide_False by tauto. done. }
    apply Hq in Hwa as Hain. apply list_elem_of_split in Hain as (q1 & q2 & ->).
    destruct (entry_step k L (<[t := v']> V) (LockEntry.remove_waker a) tt e) as (L' & Hrun & Hi' & Hk); [done|done| | |].
    + eapply remove_waker_ok; [apply Hb'|apply Hb'|by rewrite Hg'|done| |by rewrite Hg'].
      intros b. rewrite Hwt, <- Hq. pose proof (ln_nodup _ _ _ Hl) as (Hd1 & Hdj & [Hn2 Hd2]%NoDup_cons)%NoDup_app.
      rewrite !elem_of_app, elem_of_cons. split.
      * intros [Hb1|Hb2]; (split; [tauto|]); intros ->; [eapply Hdj; [done|by left]|done].
      * tauto.
    + by rewrite Hg'.
    + exists L'. split_and!; [done..|by eapply kept_evolves].
Qed.

(** The waker it waited on goes out of scope. *)
Lemma free_ok_ L V a : inv L V → ¬ owned V a →
  ∃ L', LockWaker.free a L = (Ok tt, L') ∧ inv L' V ∧ keys L' = keys L ∧
    woken (memory L') = woken (memory L) ∧ ∀ b, b ≠ a → mem L' !! b = mem L !! b.
Proof.
  intros Hi Ho. unfold LockWaker.free. st_simpl. eexists. split; [done|]. cbn [keys memory woken wakers]. split_and!; [|done..|].
  - apply inv_memory; [done|..]; cbn [wakers fresh_addr].
    + intros b Hb. rewrite lookup_delete_ne by (intros ->; done). destruct (mem L !! b); constructor. apply same_waker_refl.
    + intros b y [_ Hy]%lookup_delete_Some. destruct (Hi Filesystem) as [[_ Hf _ _] _]. by eapply Hf.
  - intros b Hb. by rewrite lookup_delete_ne.
Qed.

(** It is polled. *)
Lemma poll_ok_ L V v a w cx : inv L V → V !! t = Some v → v.2 = Some a → mem L !! a = Some w →
  if decide (waker w = Woken) then LockWaker.poll a cx L = (Ok true, L)
  else ∃ L', LockWaker.poll a cx L = (Ok false, L') ∧ inv L' V ∧ keys L' = keys L ∧
    woken (memory L') = woken (memory L) ∧ mem L' = <[a := set_waker w (Registered cx)]> (mem L).
Proof.
  intros Hi Ht Ha Hw. unfold LockWaker.poll. rewrite st_bind_run. unfold LockWaker.get. rewrite Hw.
  case_decide as Hwk; [by rewrite Hwk|]. replace (is_woken (waker w)) with false by by destruct (waker w).
  st_simpl. eexists. split; [done|]. cbn [keys memory woken wakers]. split_and!; [|done..].
  apply inv_memory; [done|..]; cbn [wakers fresh_addr].
  - intros b Hb. destruct (decide (b = a)) as [->|Hne].
    + rewrite lookup_insert_eq, Hw. constructor. by split.
    + rewrite lookup_insert_ne by done. destruct (mem L !! b); constructor. apply same_waker_refl.
  - destruct (Hi Filesystem) as [[_ Hf _ _] _]. intros b y [[<- _]|[_ Hy]]%lookup_insert_Some; by eapply Hf.
Qed.

(** It finds that it has been granted the lock. *)
Lemma finish_ok L V v a w : inv L V → V !! t = Some v → v.2 = Some a → mem L !! a = Some w → waker w = Woken →
  let v' := (<[key w := target_state w]> v.1, None) in inv L (<[t := v']> V) ∧ ¬ owned (<[t := v']> V) a.
Proof.
  intros Hi Ht Ha Hw Hwk v'. split.
  - intros k. destruct (Hi k) as [Hb Hk].
    assert (∀ k', eff (mem L) v' k' = eff (mem L) v k') as Heff.
    { intros k'. rewrite (eff_none _ v') by done. rewrite (eff_some _ v k' a w) by done. cbn.
      destruct (decide (key w = k' ∧ _)) as [[<- _]|Hn]; [apply lookup_insert_eq|]. rewrite lookup_insert_ne; [done|tauto]. }
    assert (∀ k', grants (mem L) (<[t := v']> V) k' = grants (mem L) V k') as Hg by (intros; by eapply grants_same).
    assert (∀ k' b, waiting (mem L) (<[t := v']> V) k' b ↔ waiting (mem L) V k' b) as Hwt.
    { intros k' b. rewrite (waiting_none _ _ _ v v' a); [|apply Hb|done..]. split; [tauto|]. intros Hwb. split; [done|]. intros ->.
      destruct Hwb as (? & ? & w0 & _ & _ & Hw0 & _ & Hp). congruence. }
    split.
    + eapply inv_but_views; [done|eapply mem_ok_update; [apply Hb|done|by left]|by rewrite (size_update _ _ _ Ht); apply Hb|].
      by intros k' _.
    + unfold key_inv in *. rewrite Hg. destruct (keys L !! k) as [e|].
      * destruct Hk as (q & [Hsh Hl Hq] & Hne). exists q. split; [|done]. split; [by rewrite Hg|done|]. intros b. by rewrite Hwt.
      * split; [apply Hk|]. intros b. rewrite Hwt. apply Hk.
  - destruct (Hi Filesystem) as [[Hm _ _ _] _].
    intros (t' & v0 & [[<- <-]|[Hne H0]]%lookup_insert_Some & Hb); [done|]. apply Hne. by eapply (mo_inj _ _ Hm).
Qed.

(** It acquires a lock, or changes one it holds. *)
Lemma inv_but_acquire k L V v m : inv_but k L V → V !! t = Some v → v.2 = None →
  let v' := (<[k := m]> v.1, None) in
  inv_but k L (<[t := v']> V) ∧ grants (mem L) (<[t := v']> V) k = <[t := m]> (grants (mem L) V k) ∧
  ∀ b, waiting (mem L) (<[t := v']> V) k b ↔ waiting (mem L) V k b.
Proof.
  intros Hb Ht Hv v'. split_and!.
  - eapply inv_but_views; [done|eapply mem_ok_update; [apply Hb|done|by left]|by rewrite (size_update _ _ _ Ht); apply Hb|].
    intros k' Hne. split; [|intros b; by apply (waiting_same _ _ _ v)]. eapply grants_same; [done|].
    rewrite !eff_none by done. cbn. by rewrite lookup_insert_ne.
  - apply grants_grant. rewrite eff_none by done. apply lookup_insert_eq.
  - intros b. by apply (waiting_same _ _ _ v).
Qed.

(** The entry of a key when the task gains it. *)
Lemma acquire_ok k L V v m K' M' e' q :
  inv_but k L V → V !! t = Some v → v.2 = None → memory L = M' →
  K' !! k = Some e' → (∀ k', k' ≠ k → K' !! k' = keys L !! k') →
  shape (<[t := m]> (grants (mem L) V k)) (read_count e') (state e') → linked (mem L) e' q →
  (∀ b, b ∈ q ↔ waiting (mem L) V k b) →
  inv (mkLocks K' M') (<[t := (<[k := m]> v.1, None)]> V).
Proof.
  intros Hb Ht Hv <- HK HK' Hsh Hl Hq. destruct (inv_but_acquire k L V v m Hb Ht Hv) as (Hb' & Hg & Hw).
  apply (inv_intro k).
  - eapply inv_but_kept; [done|apply kept_refl|done].
  - unfold key_inv. cbn [keys memory]. rewrite HK. exists q. rewrite Hg. split; [|apply insert_non_empty].
    split; [by rewrite Hg|done|]. intros b. by rewrite Hw.
Qed.

(** It starts to wait on a new waker. *)
Lemma wait_ok k L V v e q W' e' q' x :
  let a := fresh_addr (memory L) in
  inv L V → V !! t = Some v → v.2 = None → keys L !! k = Some e → entry_ok k V e (mem L) q →
  key x = k → waker x = Pending →
  (if is_upgrade x then v.1 !! k = Some Locked ∧ target_state x = WriteLock else v.1 !! k = None) →
  relinked (a :: q) (<[a := x]> (mem L)) W' → read_count e' = read_count e → state e' = state e →
  linked W' e' q' → (∀ b, b ∈ q' ↔ b = a ∨ b ∈ q) →
  let L' := mkLocks (<[k := e']> (keys L)) (mkMemory W' (Pos.succ a) (woken (memory L))) in
  inv L' (<[t := (v.1, Some a)]> V) ∧ evolves (memory L) (memory L') ∧ ∃ w, mem L' !! a = Some w ∧ desc w = desc x.
Proof.
  intros a Hi Ht Hv He He0 Hdk Hp Hu Hr Hn Hs Hl Hq' L'. destruct (Hi k) as [[Hm Hf Hsz _] _].
  assert (mem L !! a = None) as Ha by (destruct (mem L !! a) as [y|] eqn:E; [specialize (Hf a y E); unfold a in Hf; lia|done]).
  assert (¬ owned V a) as Hno by (intros Ho; destruct (owned_live _ _ _ Hm Ho) as [y Hy]; congruence).
  set (M0 := mkMemory (<[a := x]> (mem L)) (Pos.succ a) (woken (memory L))). set (L0 := mkLocks (keys L) M0).
  assert (inv L0 V) as Hi0.
  { apply inv_memory; [done|..]; cbn [M0 wakers fresh_addr].
    - intros b Hb. rewrite lookup_insert_ne by (intros ->; done). destruct (mem L !! b); constructor. apply same_waker_refl.
    - intros b y [[<- _]|[_ Hy]]%lookup_insert_Some; [lia|]. specialize (Hf b y Hy). lia. }
  set (v' := (v.1, Some a) : view). set (V' := <[t := v']> V).
  assert (mem L0 !! a = Some x) as Hx by apply lookup_insert_eq. destruct (Hi0 k) as [Hb0 _].
  assert (mem_ok (mem L0) V') as Hm'.
  { destruct Hb0 as [[Hlv Hij] _ _ _]. split.
    - intros t' v0 b [[<- <-]|[_ H0]]%lookup_insert_Some Hb; [|by eapply Hlv]. injection Hb as <-. exists x. split; [done|].
      by rewrite Hdk.
    - intros t1 t2 v1 v2 b [[<- <-]|[Hn1 H1]]%lookup_insert_Some [[<- <-]|[Hn2 H2]]%lookup_insert_Some Hb1 Hb2; [done| | |by eapply Hij].
      + injection Hb1 as <-. destruct Hno. by exists t2, v2.
      + injection Hb2 as <-. destruct Hno. by exists t1, v1. }
  assert (∀ k', grants (mem L0) V' k' = grants (mem L0) V k') as Hg.
  { intros k'. eapply grants_same; [done|]. rewrite (eff_some _ v' k' a x), decide_False by (done || (intros [_ ?]; congruence)).
    by rewrite eff_none. }
  assert (∀ k' b, waiting (mem L0) V' k' b ↔ waiting (mem L0) V k' b ∨ (b = a ∧ k' = k)) as Hw.
  { intros k' b. unfold waiting. split.
    - intros (t' & v0 & w & [[<- <-]|[_ H0]]%lookup_insert_Some & Hb & Hwb & Hkb & Hpb); [|left; by exists t', v0, w].
      injection Hb as <-. right. split; [done|]. congruence.
    - intros [(t' & v0 & w & H0 & Hb & Hwb)|[-> ->]].
      + exists t', v0, w. unfold V'. rewrite lookup_insert_ne by (intros ->; congruence). done.
      + exists t, v', x. unfold V'. rewrite lookup_insert_eq. split_and!; try done. by rewrite Hp. }
  assert (inv_but k L0 V') as Hb'.
  { eapply inv_but_views; [done|done|unfold V'; by rewrite (size_update _ _ _ Ht)|]. intros k' Hne. split; [done|]. intros b. rewrite Hw. tauto. }
  destruct (Hi0 k) as [_ Hk0]. unfold key_inv in Hk0. cbn [L0 keys] in Hk0. rewrite He in Hk0. destruct Hk0 as (q0 & He0' & Hg0).
  assert (∀ b, b ∈ q ↔ waiting (mem L0) V k b) as Hq.
  { intros b. rewrite (eo_waiting _ _ _ _ _ He0). unfold waiting. split; intros (t' & v0 & w & H0 & Hb & Hwb & Hrest); exists t', v0, w;
      (split; [done|]); (split; [done|]); (split; [|done]); cbn [L0 M0 memory wakers] in *;
      (assert (b ≠ a) by (intros ->; apply Hno; by exists t', v0)); by rewrite ?lookup_insert_ne in * by done. }
  assert (kept k M0 (mkMemory W' (Pos.succ a) (woken (memory L)))) as Hkp.
  { apply (relinked_kept k V' M0 (a :: q) W'); [|done]. intros b. change (wakers M0) with (mem L0). rewrite elem_of_cons, Hw, Hq. tauto. }
  split_and!.
  - apply (inv_intro k).
    + eapply (inv_but_kept k L0); [done|done|]. intros k' ?. cbn. by rewrite lookup_insert_ne.
    + unfold key_inv. cbn [L' keys memory wakers]. rewrite lookup_insert_eq. exists q'.
      rewrite (relinked_grants V' (a :: q) _ W' k Hr). change (<[a := x]> (mem L)) with (mem L0). rewrite Hg. split; [|done].
      split; [rewrite (relinked_grants V' (a :: q) _ W' k Hr), Hn, Hs; change (<[a := x]> (mem L)) with (mem L0); rewrite Hg| |].
      * assert (grants (mem L0) V k = grants (mem L) V k) as ->; [|apply He0].
        apply grants_ext. intros t' v0 b H0 Hb. cbn. rewrite lookup_insert_ne by (intros ->; apply Hno; by exists t', v0).
        destruct (mem L !! b); constructor. by left.
      * done.
      * intros b. rewrite Hq', (relinked_waiting V' (a :: q) _ W' k b Hr). change (<[a := x]> (mem L)) with (mem L0). rewrite Hw, Hq. tauto.
  - eapply evolves_trans; [|by eapply kept_evolves]. split; [done|]. intros b w Hb. exists w. cbn.
    rewrite lookup_insert_ne by congruence. by split_and!; auto.
  - pose proof (Hr a) as Hra. rewrite lookup_insert_eq in Hra. apply option_Forall2_l in Hra as (w & Hw' & H1 & H2 & _ & H3 & _).
    exists w. split; [done|]. unfold desc. by rewrite H1, H2, H3.
Qed.

(** ** The sections of [lock] and [commit_prepare_keys] *)

(** The task has the lock, or waits for it. *)
Definition gets k (m : LockState) (up : bool) (r : option addr) L' V v : Prop :=
  match r with
  | None => inv L' (<[t := (<[k := m]> v.1, None)]> V)
  | Some a => inv L' (<[t := (v.1, Some a)]> V) ∧ ∃ w, mem L' !! a = Some w ∧ desc w = (k, m, up)
  end.

Lemma is_null_head e W q : linked W e q → LockEntry.is_null (head e) = bool_decide (q = []).
Proof. intros Hl. rewrite (ln_head _ _ _ Hl). apply is_null_first. Qed.

Lemma push_tail_run e M q k m :
  linked (wakers M) e q → wakers M !! fresh_addr M = None →
  let a := fresh_addr M in
  LockEntry.push_tail k m (e, M) = (Ok a,
    (mkEntry (read_count e) (state e) (if decide (q = []) then Some a else head e) (Some a),
     mkMemory (alter_opt (λ x, set_next x (Some a)) (last q) (<[a := mkWaker None (last q) k Pending m false]> (wakers M)))
       (Pos.succ a) (woken M))).
Proof.
  intros Hl Ha a. unfold LockEntry.push_tail. rewrite (ln_tail _ _ _ Hl), is_null_last. fold a.
  destruct (decide (q = [])) as [->|Hne].
  - rewrite bool_decide_eq_true_2 by done. by em_simpl.
  - rewrite bool_decide_eq_false_2 by done. rewrite st_bind_run, update_opt; [by em_simpl|by rewrite last_None|].
    intros b Hb. cbn [wakers]. rewrite last_lookup in Hb. destruct (ln_node _ _ _ Hl _ b Hb) as (w & Hw & _).
    rewrite lookup_insert_ne by (unfold a; congruence). by exists w.
Qed.

Lemma push_head_run e M q k :
  linked (wakers M) e q → wakers M !! fresh_addr M = None →
  let a := fresh_addr M in
  LockEntry.push_head k (e, M) = (Ok a,
    (mkEntry (read_count e) (state e) (Some a) (if decide (q = []) then Some a else tail e),
     mkMemory (alter_opt (λ x, set_prev x (Some a)) (q !! 0%nat) (<[a := mkWaker (q !! 0%nat) None k Pending WriteLock true]> (wakers M)))
       (Pos.succ a) (woken M))).
Proof.
  intros Hl Ha a. unfold LockEntry.push_head. rewrite (ln_head _ _ _ Hl), is_null_first. fold a.
  destruct (decide (q = [])) as [->|Hne].
  - rewrite bool_decide_eq_true_2 by done. by em_simpl.
  - rewrite bool_decide_eq_false_2 by done. rewrite st_bind_run, update_opt; [by em_simpl|by destruct q|].
    intros b Hb. cbn [wakers]. destruct (ln_node _ _ _ Hl _ b Hb) as (w & Hw & _).
    rewrite lookup_insert_ne by (unfold a; congruence). by exists w.
Qed.

(** What [is_allowed] answers a newcomer. *)
Lemma is_allowed_new k e M V q m : entry_ok k V e (wakers M) q → ∃ b,
  LockEntry.is_allowed m (LockEntry.is_null (head e)) (e, M) = (Ok b, (e, M)) ∧
  (b = true → compatible (read_count e) (state e) m).
Proof.
  intros [_ Hl _]. rewrite (is_null_head _ _ _ Hl). unfold LockEntry.is_allowed. em_simpl.
  destruct (state e) eqn:Es; em_simpl.
  - eexists. split; [done|]. rewrite andb_true_iff, !orb_true_iff, Z.eqb_eq, !bool_decide_eq_true.
    destruct m; cbn; naive_solver.
  - destruct (bool_decide_reflect (m = ReadLock)) as [->|]; [|by exists false]. destruct q as [|a q]; [by exists true|].
    rewrite bool_decide_eq_false_2 by done. rewrite st_bind_run, (ln_head _ _ _ Hl). cbn [lookup list_lookup].
    destruct (ln_node _ _ _ Hl 0%nat a eq_refl) as (w & Hw & _). rewrite (deref_run a w) by done. by eexists.
  - by exists false.
Qed.

Lemma fresh_none k L V : inv_but k L V → mem L !! fresh_addr (memory L) = None.
Proof.
  intros [_ Hf _ _]. destruct (mem L !! _) as [y|] eqn:E; [|done]. specialize (Hf _ _ E). lia.
Qed.

Lemma try_lock_ok k m L V v : inv L V → V !! t = Some v → v.2 = None → v.1 !! k = None →
  ∃ r L', LockManager.try_lock k m L = (Ok r, L') ∧ gets k m false r L' V v ∧ evolves (memory L) (memory L').
Proof.
  intros Hi Ht Hv Hk. destruct (Hi k) as [Hb Hki]. unfold LockManager.try_lock. st_simpl. unfold key_inv in Hki.
  assert (grants (mem L) V k !! t = None) as Hgt by (rewrite lookup_grants, Ht; cbn; by rewrite eff_none).
  destruct (keys L !! k) as [e|] eqn:He.
  2: { destruct Hki as [Hg Hw]. eexists None, _. split; [done|]. split; [|apply evolves_refl]. cbn [gets].
    eapply (acquire_ok k L V v m _ _ _ []); [done..|apply lookup_insert_eq|intros; by rewrite lookup_insert_ne| | |].
    - rewrite Hg. cbn [read_count state].
      pose proof (shape_grant ∅ 0 ReadLock t m) as Hsh. destruct m; cbn in Hsh; apply Hsh; try done.
      all: by split; [|intros ? ? H0; rewrite lookup_empty in H0].
    - split; [done..|by intros i a Hia|constructor].
    - intros b. rewrite elem_of_nil. split; [done|]. apply Hw. }
  destruct Hki as (q & He0 & Hne). pose proof He0 as [Hsh Hl Hq]. unfold Locks.with_entry. rewrite He. em_simpl.
  destruct (is_allowed_new k e (memory L) V q m He0) as (b & -> & Hb'). destruct b.
  - assert ((if bool_decide (m = ReadLock) then n ← st_lift (u64_add (read_count e) 1); LockEntry.set_read_count n
        else LockEntry.set_state m) (e, memory L) =
      (Ok tt, (mkEntry (if decide (m = ReadLock) then read_count e + 1 else read_count e)
         (if decide (m = ReadLock) then state e else m) (head e) (tail e), memory L))) as Hrun.
    { destruct (decide (m = ReadLock)) as [->|Hm]; [|by rewrite bool_decide_eq_false_2]. rewrite bool_decide_eq_true_2 by done.
      em_simpl. rewrite u64_add_ok; [done|]. rewrite (sh_readers _ _ _ Hsh).
      eapply readers_bound; [apply Hb|done|by rewrite Ht]. }
    em_simpl. rewrite Hrun. eexists None, _. split; [done|]. split; [|apply evolves_refl]. cbn [gets].
    eapply (acquire_ok k L V v m _ _ _ q); [done..|apply lookup_insert_eq|intros; by rewrite lookup_insert_ne| | |done].
    + cbn [read_count state]. apply shape_grant; auto.
    + by destruct Hl; split.
  - em_simpl. rewrite (push_tail_run e (memory L) q k m Hl) by by eapply fresh_none. eexists (Some _), _. split; [done|].
    set (a := fresh_addr (memory L)). set (x := mkWaker None (last q) k Pending m false).
    destruct (wait_ok k L V v e q (alter_opt (λ y, set_next y (Some a)) (last q) (<[a := x]> (mem L)))
      (mkEntry (read_count e) (state e) (if decide (q = []) then Some a else head e) (Some a)) (q ++ [a]) x)
      as (Hi' & Hev & Hw); try done.
    + apply relinked_next; [apply relinked_refl|]. intros b Hlb. rewrite last_lookup in Hlb. right. by eapply list_elem_of_lookup_2.
    + apply linked_snoc; [done|]. by eapply fresh_none.
    + intros b. rewrite elem_of_app, list_elem_of_singleton. tauto.
Qed.

Lemma try_upgrade_ok k L V v : inv L V → V !! t = Some v → v.2 = None → v.1 !! k = Some Locked →
  ∃ r L', LockManager.try_upgrade k L = (Ok r, L') ∧ gets k WriteLock true r L' V v ∧ evolves (memory L) (memory L').
Proof.
  intros Hi Ht Hv Hk. destruct (Hi k) as [Hb _].
  assert (grants (mem L) V k !! t = Some Locked) as Hgt by (rewrite lookup_grants, Ht; cbn; by rewrite eff_none).
  destruct (held_entry k L V Locked Hi Hgt) as (e & q & He & He0). pose proof He0 as [Hsh Hl Hq].
  assert (state e = Locked) as Hst.
  { destruct (shape_drop _ _ _ _ _ Hsh Hgt) as (_ & _ & H). by apply H. }
  unfold LockManager.try_upgrade, Locks.with_entry. rewrite He. em_simpl. rewrite Hst, bool_decide_eq_true_2 by done. cbn [rassert].
  destruct (Z.eqb_spec (read_count e) 0) as [Hn|Hn]; em_simpl.
  - eexists None, _. split; [done|]. split; [|apply evolves_refl]. cbn [gets].
    eapply (acquire_ok k L V v WriteLock _ _ _ q); [done..|apply lookup_insert_eq|intros; by rewrite lookup_insert_ne| | |done].
    + cbn [read_count state]. by apply (shape_upgrade _ _ _ _ Hsh Hgt).
    + by destruct Hl; split.
  - rewrite (push_head_run e (memory L) q k Hl) by by eapply fresh_none. eexists (Some _), _. split; [done|].
    set (a := fresh_addr (memory L)). set (x := mkWaker (q !! 0%nat) None k Pending WriteLock true).
    destruct (wait_ok k L V v e q (alter_opt (λ y, set_prev y (Some a)) (q !! 0%nat) (<[a := x]> (mem L)))
      (mkEntry (read_count e) (state e) (Some a) (if decide (q = []) then Some a else tail e)) (a :: q) x)
      as (Hi' & Hev & Hw); try done.
    + apply relinked_prev; [apply relinked_refl|]. intros b Hlb. right. by eapply list_elem_of_lookup_2.
    + apply linked_cons; [done|]. by eapply fresh_none.
    + intros b. by rewrite elem_of_cons.
Qed.

Lemma downgrade_ok k L V v : inv L V → V !! t = Some v → v.2 = None → v.1 !! k = Some WriteLock →
  ∃ L', Locks.with_entry k LockEntry.downgrade_lock L = (Ok tt, L') ∧
    inv L' (<[t := (<[k := Locked]> v.1, None)]> V) ∧ evolves (memory L) (memory L').
Proof.
  intros Hi Ht Hv Hk. destruct (Hi k) as [Hb _].
  assert (grants (mem L) V k !! t = Some WriteLock) as Hgt by (rewrite lookup_grants, Ht; cbn; by rewrite eff_none).
  destruct (held_entry k L V WriteLock Hi Hgt) as (e & q & He & [Hsh Hl Hq]).
  destruct (inv_but_acquire k L V v Locked Hb Ht Hv) as (Hb' & Hg & Hw).
  destruct (shape_downgrade _ _ _ _ Hsh Hgt) as [Hst Hsh'].
  destruct (entry_step k L (<[t := (<[k := Locked]> v.1, None)]> V) LockEntry.downgrade_lock tt e) as (L' & Hrun & Hi' & Hkp); [done|done| | |].
  - eapply downgrade_lock_ok; [apply Hb'|apply Hb'|done|]. split; [by rewrite Hg|by destruct Hl; split|]. intros b. by rewrite Hw.
  - rewrite Hg. apply insert_non_empty.
  - exists L'. split_and!; [done..|by eapply kept_evolves].
Qed.
End task.
