(* ===== verification/LockSafety.v ===== *)
(** * Tasks that use the lock manager

    Any number of tasks call [read_lock], [write_lock] and [txn_lock], commit
    and downgrade transactions, drop their guards, and drop the futures they
    are waiting on, interleaved in any way between the sections that hold the
    mutex. *)

From S2P Require Import Prelude LockKeys LockManager LockQueue LockInv.

(** What a task is doing: waiting for locks, holding a guard or the locks of a
    transaction, committing it, having dropped the future of the commit, or
    having upgraded all its locks. *)
Inductive client : Type :=
| Locking (f : LockFuture)
| Guard (target : LockState) (lock_keys : LockKeys)
| Committing (txn_locks : LockKeys) (f : CommitFuture)
| Aborted (txn_locks : LockKeys) (f : CommitFuture)
| Committed (txn_locks : LockKeys).

Record sys := mkSys { locks : Locks; clients : gmap tid client }.

Inductive action : Type :=
| Start (t : tid) (lock_keys : LockKeys) (target : LockState)
| Poll (t : tid) (cx : task)
| Cancel (t : tid)
| Commit (t : tid)
| Downgrade (t : tid)
| Drop (t : tid).

(** Runs an operation for a task and gives what becomes of it. *)
Definition on (t : tid) (m : st Locks (option client)) (s : sys) : res unit * sys :=
  match m (locks s) with
  | (Ok c, l) => (Ok tt, mkSys l (partial_alter (λ _, c) t (clients s)))
  | (Err e, l) => (Err e, mkSys l (clients s))
  | (Panic, l) => (Panic, mkSys l (clients s))
  | (NoFuel, l) => (NoFuel, mkSys l (clients s))
  end.

(** One section that holds the mutex; [None] if the action is not open to the
    task. *)
Definition perform (a : action) (s : sys) : option (res unit * sys) :=
  match a with
  | Start t ks m =>
      if decide (clients s !! t = None ∧ Z.of_nat (size (clients s)) < u64_max)
      then Some (on t (mret (Some (Locking (LockManager.lock ks m)))) s) else None
  | Poll t cx =>
      match clients s !! t with
      | Some (Locking f) => Some (on t
          (f ← LockManager.lock_step cx f;
           mret (Some (match lf_todo f with [] => Guard (lf_target f) (lf_guard f) | _ => Locking f end))) s)
      | Some (Committing ks f) => Some (on t
          (f ← LockManager.commit_step cx f;
           mret (Some (match cf_todo f with [] => Committed ks | _ => Committing ks f end))) s)
      | _ => None
      end
  | Cancel t =>
      match clients s !! t with
      | Some (Locking f) => Some (on t (ks ← LockManager.lock_cancel f; mret (Some (Guard (lf_target f) ks))) s)
      | Some (Committing ks f) => Some (on t (_ ← LockManager.commit_cancel f; mret (Some (Aborted ks f))) s)
      | _ => None
      end
  | Commit t =>
      match clients s !! t with
      | Some (Guard Locked ks) => Some (on t (mret (Some (Committing ks (LockManager.commit_prepare_keys ks)))) s)
      | _ => None
      end
  | Downgrade t =>
      match clients s !! t with
      | Some (Committed ks) => Some (on t (_ ← LockManager.downgrade_locks ks; mret (Some (Guard Locked ks))) s)
      | _ => None
      end
  | Drop t =>
      match clients s !! t with
      | Some (Guard m ks) => Some (on t (_ ← drop_guard m ks; mret None) s)
      | Some (Committed ks) | Some (Aborted ks _) => Some (on t (_ ← LockManager.drop_transaction ks; mret None) s)
      | _ => None
      end
  end.

Definition init : sys := mkSys LockManager.new ∅.

Definition step (s s' : sys) : Prop := ∃ a, perform a s = Some (Ok tt, s').

(** ** What a task holds and waits for *)
Definition keyset (m : LockState) (l : list LockKey) : gmap LockKey LockState :=
  gset_to_gmap m (list_to_set l).

Definition view_of (c : client) : view :=
  match c with
  | Locking f => (keyset (lf_target f) (LockKeys.keys (lf_guard f)), lf_waker f)
  | Guard m ks => (keyset m (LockKeys.keys ks), None)
  | Committing _ f => (keyset WriteLock (cf_done f) ∪ keyset Locked (cf_todo f), cf_waker f)
  | Aborted _ f => (keyset WriteLock (cf_done f) ∪ keyset Locked (cf_todo f), None)
  | Committed ks => (keyset WriteLock (LockKeys.keys ks), None)
  end.

(** The waker a task waits on, and what it is for. *)
Definition waits_on (c : client) : option (addr * (LockKey * LockState * bool)) :=
  match c with
  | Locking (mkLock m (k :: _) _ (Some a)) => Some (a, (k, m, false))
  | Committing _ (mkCommit _ (k :: _) (Some a)) => Some (a, (k, WriteLock, true))
  | _ => None
  end.

Definition client_wf (c : client) : Prop :=
  match c with
  | Locking f => NoDup (LockKeys.keys (lf_guard f) ++ lf_todo f) ∧ (lf_todo f = [] → lf_waker f = None)
  | Guard _ ks | Committed ks => NoDup (LockKeys.keys ks)
  | Committing ks f => LockKeys.keys ks = cf_done f ++ cf_todo f ∧ NoDup (cf_done f ++ cf_todo f) ∧
      (cf_todo f = [] → cf_waker f = None)
  | Aborted ks f => LockKeys.keys ks = cf_done f ++ cf_todo f ∧ NoDup (cf_done f ++ cf_todo f)
  end.

Definition described (L : Locks) (c : client) : Prop :=
  ∀ a d, waits_on c = Some (a, d) → ∃ w, mem L !! a = Some w ∧ desc w = d.

Record sys_inv (s : sys) : Prop := {
  si_inv : inv (locks s) (view_of <$> clients s);
  si_clients : ∀ t c, clients s !! t = Some c → client_wf c ∧ described (locks s) c;
}.

Lemma lookup_keyset m l k : keyset m l !! k = if decide (k ∈ l) then Some m else None.
Proof.
  apply option_eq. intros m'. unfold keyset. rewrite lookup_gset_to_gmap_Some, elem_of_list_to_set. case_decide; naive_solver.
Qed.

(** ** Tasks come and go *)
Implicit Types (V : gmap tid view) (L : Locks) (v : view).

Lemma inv_views L V V' :
  inv L V → mem_ok (mem L) V' → Z.of_nat (size V') ≤ u64_max →
  (∀ k, grants (mem L) V' k = grants (mem L) V k) → (∀ k a, waiting (mem L) V' k a ↔ waiting (mem L) V k a) → inv L V'.
Proof.
  intros Hi Hm Hs Hg Hw k. destruct (Hi k) as [Hb Hk]. split; [by eapply inv_but_views; [..|intros k' _; split]|].
  unfold key_inv in *. rewrite Hg. destruct (keys L !! k) as [e|].
  - destruct Hk as (q & [Hsh Hl Hq] & Hne). exists q. split; [|done]. split; [by rewrite Hg|done|]. intros b. by rewrite Hw.
  - split; [apply Hk|]. intros b. rewrite Hw. apply Hk.
Qed.

Lemma inv_enter L V t : inv L V → V !! t = None → Z.of_nat (size V) < u64_max → inv L (<[t := (∅, None)]> V).
Proof.
  intros Hi Ht Hs. destruct (Hi Filesystem) as [[[Hl Hj] _ _ _] _].
  assert (∀ t' v a, <[t := (∅, None)]> V !! t' = Some v → v.2 = Some a → V !! t' = Some v) as Hold.
  { by intros t' v a [[<- <-]|[_ H]]%lookup_insert_Some Ha. }
  apply (inv_views L V); [done| |by rewrite map_size_insert_None by done; lia| |].
  - split; [intros t' v a Hv Ha; by eapply Hl; [eapply Hold|]|].
    intros t1 t2 v1 v2 a H1 H2 Ha1 Ha2. by eapply Hj; [eapply Hold..| |].
  - intros k. rewrite grants_release by by rewrite eff_none. apply delete_id. by rewrite lookup_grants, Ht.
  - intros k a. unfold waiting. split; intros (t' & v & w & Hv & Ha & Hrest).
    + exists t', v, w. split; [by eapply Hold|done].
    + exists t', v, w. split; [|done]. rewrite lookup_insert_ne; [done|]. intros ->. congruence.
Qed.

Lemma inv_leave L V t : inv L V → V !! t = Some (∅, None) → inv L (delete t V).
Proof.
  intros Hi Ht. destruct (Hi Filesystem) as [[[Hl Hj] _ Hs _] _].
  apply (inv_views L V); [done| | | |].
  - split; [intros t' v a [_ Hv]%lookup_delete_Some Ha; by eapply Hl|].
    intros t1 t2 v1 v2 a [_ H1]%lookup_delete_Some [_ H2]%lookup_delete_Some. by eapply Hj.
  - rewrite map_size_delete, Ht. lia.
  - intros k. apply map_eq. intros t'. rewrite !lookup_grants. destruct (decide (t' = t)) as [->|Hne].
    + by rewrite lookup_delete_eq, Ht.
    + by rewrite lookup_delete_ne.
  - intros k a. unfold waiting. split; intros (t' & v & w & Hv & Ha & Hrest); exists t', v, w; (split; [|done]).
    + by apply lookup_delete_Some in Hv as [_ ?].
    + rewrite lookup_delete_ne; [done|]. intros ->. rewrite Ht in Hv. by injection Hv as <-.
Qed.

(** ** Loops over keys *)
Lemma drop_keys_ok t s l : ∀ L V v,
  inv L V → V !! t = Some v → v.2 = None → NoDup l →
  (∀ k, k ∈ l → ∃ m, v.1 !! k = Some m ∧ (s = ReadLock ↔ m = ReadLock)) →
  ∃ L' g, st_for l (λ k, Locks.drop_lock k s) L = (Ok tt, L') ∧ inv L' (<[t := (g, None)]> V) ∧
    evolves (memory L) (memory L') ∧ ∀ k, g !! k = if decide (k ∈ l) then None else v.1 !! k.
Proof.
  induction l as [|k l IH]; intros L V v Hi Ht Hv Hd Hk; cbn [st_for].
  { exists L, v.1. split_and!; [done| |apply evolves_refl|done]. rewrite insert_id; [done|]. rewrite Ht. destruct v; cbn in *; by subst. }
  apply NoDup_cons in Hd as [Hkl Hd]. destruct (Hk k) as (m & Hm & Hs); [by left|].
  destruct (release_ok t k s L V v m) as (L1 & Hrun & Hi1 & Hev1); try done; [intros a w Ha; congruence|].
  rewrite st_bind_run, Hrun. rewrite Hv in Hi1.
  destruct (IH L1 (<[t := (delete k v.1, None)]> V) (delete k v.1, None)) as (L2 & g & Hrun2 & Hi2 & Hev2 & Hg);
    [done|apply lookup_insert_eq|done|done| |].
  { intros k' Hk'. cbn. rewrite lookup_delete_ne by (intros ->; done). apply Hk. by right. }
  exists L2, g. rewrite insert_insert_eq in Hi2. split_and!; [done|done|by eapply evolves_trans|]. intros k'. rewrite Hg. cbn.
  destruct (decide (k' ∈ l)), (decide (k' ∈ k :: l)) as [Hin|Hin]; try done.
  - by destruct Hin; right.
  - apply elem_of_cons in Hin as [->|?]; [apply lookup_delete_eq|done].
  - rewrite lookup_delete_ne; [done|]. intros ->. destruct Hin. by left.
Qed.

Lemma downgrade_keys_ok t l : ∀ L V v,
  inv L V → V !! t = Some v → v.2 = None → NoDup l → (∀ k, k ∈ l → v.1 !! k = Some WriteLock) →
  ∃ L' g, st_for l (λ k, Locks.with_entry k LockEntry.downgrade_lock) L = (Ok tt, L') ∧
    inv L' (<[t := (g, None)]> V) ∧ evolves (memory L) (memory L') ∧
    ∀ k, g !! k = if decide (k ∈ l) then Some Locked else v.1 !! k.
Proof.
  induction l as [|k l IH]; intros L V v Hi Ht Hv Hd Hk; cbn [st_for].
  { exists L, v.1. split_and!; [done| |apply evolves_refl|done]. rewrite insert_id; [done|]. rewrite Ht. destruct v; cbn in *; by subst. }
  apply NoDup_cons in Hd as [Hkl Hd].
  destruct (downgrade_ok t k L V v) as (L1 & Hrun & Hi1 & Hev1); try done; [apply Hk; by left|].
  rewrite st_bind_run, Hrun.
  destruct (IH L1 (<[t := (<[k := Locked]> v.1, None)]> V) (<[k := Locked]> v.1, None)) as (L2 & g & Hrun2 & Hi2 & Hev2 & Hg);
    [done|apply lookup_insert_eq|done|done| |].
  { intros k' Hk'. cbn. rewrite lookup_insert_ne by (intros ->; done). apply Hk. by right. }
  exists L2, g. rewrite insert_insert_eq in Hi2. split_and!; [done|done|by eapply evolves_trans|]. intros k'. rewrite Hg. cbn.
  destruct (decide (k' ∈ l)), (decide (k' ∈ k :: l)) as [Hin|Hin]; try done.
  - by destruct Hin; right.
  - apply elem_of_cons in Hin as [->|?]; [apply lookup_insert_eq|done].
  - rewrite lookup_insert_ne; [done|]. intros ->. destruct Hin. by left.
Qed.

(** ** One step of a task *)

(** What happens to the wakers of the others: they stay what they are, and
    whoever is woken has been told. *)
Record passes (X : option addr) (M M' : Memory) : Prop := {
  ps_woken : woken M ⊆ woken M';
  ps_wakers : ∀ a w, X ≠ Some a → wakers M !! a = Some w → ∃ w', wakers M' !! a = Some w' ∧ desc w' = desc w ∧
    (waker w' = waker w ∨ (waker w' = Woken ∧ ∀ cx, waker w = Registered cx → cx ∈ woken M'));
}.

Lemma evolves_passes X M M' : evolves M M' → passes X M M'.
Proof. intros [Hw H]. split; [done|]. intros a w _ Ha. by apply H. Qed.

Lemma passes_same a M M' : woken M' = woken M → (∀ b, b ≠ a → wakers M' !! b = wakers M !! b) → passes (Some a) M M'.
Proof.
  intros Hw H. split; [by rewrite Hw|]. intros b w Hb Hbw. exists w. rewrite H by congruence. by split_and!; auto.
Qed.

Lemma evolves_passes_trans X M1 M2 M3 : evolves M1 M2 → passes X M2 M3 → passes X M1 M3.
Proof.
  intros [Hw H] [Hw' H']. split; [set_solver|]. intros a w HX Ha. destruct (H a w Ha) as (w2 & H2 & Hd2 & Hx2).
  destruct (H' a w2 HX H2) as (w3 & H3 & Hd3 & Hx3). exists w3. split_and!; [done|congruence|].
  destruct Hx3 as [->|[Hwk Hx3]]; [destruct Hx2 as [?|[? Hx2]]; [by left|right; set_solver]|].
  right. split; [done|]. intros cx Hcx. destruct Hx2 as [E|[_ Hx2]]; [apply Hx3; congruence|apply Hw', Hx2, Hcx].
Qed.

Lemma keyset_push m ks k : keyset m (LockKeys.keys (LockKeys.push ks k)) = <[k := m]> (keyset m (LockKeys.keys ks)).
Proof.
  apply map_eq. intros k'. rewrite LockKeys.keys_push, lookup_keyset. destruct (decide (k' = k)) as [->|Hne].
  - rewrite lookup_insert_eq, decide_True; [done|]. apply elem_of_app. right. by left.
  - rewrite lookup_insert_ne, lookup_keyset by done.
    destruct (decide (k' ∈ LockKeys.keys ks)) as [Hin|Hin].
    + rewrite decide_True; [done|]. apply elem_of_app. by left.
    + rewrite decide_False; [done|]. rewrite elem_of_app, list_elem_of_singleton. tauto.
Qed.

Definition commit_held (done todo : list LockKey) : gmap LockKey LockState := keyset WriteLock done ∪ keyset Locked todo.

Lemma lookup_commit_held done todo k : commit_held done todo !! k =
  if decide (k ∈ done) then Some WriteLock else if decide (k ∈ todo) then Some Locked else None.
Proof.
  unfold commit_held. rewrite lookup_union, !lookup_keyset. by destruct (decide (k ∈ done)), (decide (k ∈ todo)).
Qed.

Lemma commit_held_next done k todo : k ∉ todo →
  commit_held (done ++ [k]) todo = <[k := WriteLock]> (commit_held done (k :: todo)).
Proof.
  intros Hk. apply map_eq. intros k'. rewrite lookup_commit_held. destruct (decide (k' = k)) as [->|Hne].
  - rewrite lookup_insert_eq, decide_True; [done|]. apply elem_of_app. right. by left.
  - rewrite lookup_insert_ne, lookup_commit_held by done.
    rewrite (decide_ext (k' ∈ done ++ [k]) (k' ∈ done)), (decide_ext (k' ∈ k :: todo) (k' ∈ todo)); [done|..].
    + rewrite elem_of_cons. tauto.
    + rewrite elem_of_app, list_elem_of_singleton. tauto.
Qed.

(** The waker is polled, and if it has been woken the wait is over. *)
Lemma wait_step t cx L V v a w : inv L V → V !! t = Some v → v.2 = Some a → mem L !! a = Some w →
  (waker w = Woken ∧ ∃ L', LockWaker.poll a cx L = (Ok true, L) ∧ LockWaker.free a L = (Ok tt, L') ∧
     inv L' (<[t := (<[key w := target_state w]> v.1, None)]> V) ∧ passes (Some a) (memory L) (memory L')) ∨
  (waker w ≠ Woken ∧ ∃ L', LockWaker.poll a cx L = (Ok false, L') ∧ inv L' V ∧ passes (Some a) (memory L) (memory L') ∧
     ∃ w', mem L' !! a = Some w' ∧ desc w' = desc w).
Proof.
  intros Hi Ht Ha Hw. pose proof (poll_ok_ t L V v a w cx Hi Ht Ha Hw) as Hp. case_decide as Hwk; [left|right]; (split; [done|]).
  - destruct (finish_ok t L V v a w Hi Ht Ha Hw Hwk) as [Hi1 Ho].
    destruct (free_ok_ L _ a Hi1 Ho) as (L' & Hf & Hi' & _ & Hwo & Hm). exists L'. split_and!; [done..|by apply passes_same].
  - destruct Hp as (L' & Hp & Hi' & _ & Hwo & Hm). exists L'. split_and!; [done..| |].
    + apply passes_same; [done|]. intros b Hb. by rewrite Hm, lookup_insert_ne.
    + exists (set_waker w (Registered cx)). rewrite Hm, lookup_insert_eq. done.
Qed.

Lemma described_lock L m todo g : described L (Locking (mkLock m todo g None)).
Proof. by destruct todo. Qed.
Lemma described_commit L ks don todo : described L (Committing ks (mkCommit don todo None)).
Proof. by destruct todo. Qed.

Lemma lock_step_ok t cx f L V :
  inv L V → V !! t = Some (view_of (Locking f)) → client_wf (Locking f) → described L (Locking f) →
  ∃ f' L', LockManager.lock_step cx f L = (Ok f', L') ∧ inv L' (<[t := view_of (Locking f')]> V) ∧
    client_wf (Locking f') ∧ described L' (Locking f') ∧ passes (lf_waker f) (memory L) (memory L').
Proof.
  destruct f as [m todo guard wk]. intros Hi Ht [Hd Hwk] Hds. cbn [view_of lf_target lf_guard lf_waker lf_todo] in *.
  unfold LockManager.lock_step. cbn [lf_todo lf_waker lf_target lf_guard].
  destruct todo as [|k todo].
  { exists (mkLock m [] guard wk), L. cbn. rewrite insert_id by done. split_and!; try done. apply evolves_passes, evolves_refl. }
  pose proof Hd as (Hd1 & Hdj & [Hk Hd2]%NoDup_cons)%NoDup_app.
  assert (NoDup (LockKeys.keys (LockKeys.push guard k) ++ todo)) as Hd'.
  { by rewrite LockKeys.keys_push, <- app_assoc. }
  destruct wk as [a|].
  - destruct (Hds a (k, m, false) eq_refl) as (w & Hw & Hdw). injection Hdw as Hkw Htw Hup.
    destruct (wait_step t cx L V _ a w Hi Ht eq_refl Hw) as [(_ & L' & Hp & Hf & Hi' & Hps)|(_ & L' & Hp & Hi' & Hps & w' & Hw' & Hdw')];
      st_simpl; rewrite Hp.
    + st_simpl. rewrite Hf. eexists _, L'. split; [done|]. cbn [view_of lf_target lf_guard lf_waker].
      rewrite Hkw, Htw in Hi'. rewrite keyset_push. split_and!; try done. apply described_lock.
    + eexists _, L'. split; [done|]. cbn [view_of lf_target lf_guard lf_waker]. rewrite insert_id by done. split_and!; try done.
      intros b d [= <- <-]. exists w'. split; [done|]. rewrite Hdw'. unfold desc. by rewrite Hkw, Htw, Hup.
  - destruct (try_lock_ok t k m L V _ Hi Ht eq_refl) as (r & L' & Hrun & Hgets & Hev).
    { cbn. rewrite lookup_keyset, decide_False; [done|]. intros Hin. eapply Hdj; [done|by left]. }
    st_simpl. rewrite Hrun. destruct r as [a|]; eexists _, L'; (split; [done|]); cbn [view_of lf_target lf_guard lf_waker gets] in *.
    + destruct Hgets as (Hi' & w & Hw & Hdw). split_and!; try done; [|by apply evolves_passes]. intros b d [= <- <-]. by exists w.
    + rewrite keyset_push. split_and!; try done; [apply described_lock|by apply evolves_passes].
Qed.

Lemma commit_step_ok t cx ks f L V :
  inv L V → V !! t = Some (view_of (Committing ks f)) → client_wf (Committing ks f) → described L (Committing ks f) →
  ∃ f' L', LockManager.commit_step cx f L = (Ok f', L') ∧ inv L' (<[t := view_of (Committing ks f')]> V) ∧
    client_wf (Committing ks f') ∧ described L' (Committing ks f') ∧ passes (cf_waker f) (memory L) (memory L').
Proof.
  destruct f as [don todo wk]. intros Hi Ht (Hks & Hd & Hwk) Hds. cbn [view_of cf_done cf_todo cf_waker] in Ht, Hks, Hd, Hwk.
  unfold LockManager.commit_step. cbn [cf_todo cf_waker cf_done]. destruct todo as [|k todo].
  { exists (mkCommit don [] wk), L. cbn [view_of cf_done cf_todo cf_waker]. rewrite insert_id by done.
    split_and!; try done. apply evolves_passes, evolves_refl. }
  pose proof Hd as (Hd1 & Hdj & [Hk Hd2]%NoDup_cons)%NoDup_app. fold (commit_held don (k :: todo)) in Ht.
  assert (client_wf (Committing ks (mkCommit (don ++ [k]) todo None))) as Hwf by (cbn; by rewrite <- app_assoc).
  assert (view_of (Committing ks (mkCommit (don ++ [k]) todo None)) = (<[k := WriteLock]> (commit_held don (k :: todo)), None)) as Hview
    by (cbn; by rewrite <- commit_held_next).
  destruct wk as [a|].
  - destruct (Hds a (k, WriteLock, true) eq_refl) as (w & Hw & Hdw). injection Hdw as Hkw Htw Hup.
    destruct (wait_step t cx L V _ a w Hi Ht eq_refl Hw) as [(_ & L' & Hp & Hf & Hi' & Hps)|(_ & L' & Hp & Hi' & Hps & w' & Hw' & Hdw')];
      st_simpl; rewrite Hp.
    + st_simpl. rewrite Hf. exists (mkCommit (don ++ [k]) todo None), L'. split; [done|].
    rewrite Hview. rewrite Hkw, Htw in Hi'.
      split_and!; try done. apply described_commit.
    + eexists _, L'. split; [done|]. cbn [view_of cf_done cf_todo cf_waker]. fold (commit_held don (k :: todo)).
      rewrite insert_id by done. split_and!; try done.
      intros b d [= <- <-]. exists w'. split; [done|]. rewrite Hdw'. unfold desc. by rewrite Hkw, Htw, Hup.
  - destruct (try_upgrade_ok t k L V _ Hi Ht eq_refl) as (r & L' & Hrun & Hgets & Hev).
    { cbn. rewrite lookup_commit_held, decide_False, decide_True; [done|by left|]. intros Hin. eapply Hdj; [done|by left]. }
    st_simpl. rewrite Hrun. destruct r as [a|]; cbn [gets] in Hgets.
    + exists (mkCommit don (k :: todo) (Some a)), L'. split; [done|]. destruct Hgets as (Hi' & w & Hw & Hdw). split_and!; try done; [|by apply evolves_passes]. intros b d [= <- <-]. by exists w.
    + exists (mkCommit (don ++ [k]) todo None), L'. split; [done|]. rewrite Hview. split_and!; try done; [apply described_commit|by apply evolves_passes].
Qed.

(** The future a task waits on is dropped. *)
Lemma cancel_step t L V v : inv L V → V !! t = Some v →
  ∃ L', match v.2 with Some a => _ ← LockWaker.cancel a; LockWaker.free a | None => mret tt end L = (Ok tt, L') ∧
    inv L' (<[t := (v.1, None)]> V) ∧ passes v.2 (memory L) (memory L').
Proof.
  intros Hi Ht. destruct (v.2) as [a|] eqn:Ha.
  - destruct (cancel_ok t L V v a Hi Ht Ha) as (L1 & Hc & Hi1 & Hev1). rewrite st_bind_run, Hc.
    destruct (free_ok_ L1 (<[t := (v.1, None)]> V) a Hi1) as (L' & Hf & Hi' & _ & Hwo & Hm).
    { destruct (Hi Filesystem) as [[Hm _ _ _] _].
      intros (t' & v0 & [[<- <-]|[Hne H0]]%lookup_insert_Some & Hb); [done|]. apply Hne. by eapply (mo_inj _ _ Hm). }
    exists L'. split_and!; [done..|]. eapply evolves_passes_trans; [done|]. by apply passes_same.
  - exists L. split_and!; [done| |apply evolves_passes, evolves_refl]. rewrite insert_id; [done|]. rewrite Ht. destruct v; cbn in *; by subst.
Qed.

(** All the locks of a task are dropped. *)
Lemma drop_step t s ks L V v : inv L V → V !! t = Some v → v.2 = None → NoDup (LockKeys.keys ks) →
  (∀ k, k ∈ LockKeys.keys ks ↔ is_Some (v.1 !! k)) → (∀ k m, v.1 !! k = Some m → (s = ReadLock ↔ m = ReadLock)) →
  ∃ L', drop_guard s ks L = (Ok tt, L') ∧ inv L' (delete t V) ∧ evolves (memory L) (memory L').
Proof.
  intros Hi Ht Hv Hd Hk Hs.
  assert (drop_guard s ks L = st_for (LockKeys.keys ks) (λ k, Locks.drop_lock k (if decide (s = ReadLock) then ReadLock else WriteLock)) L) as ->
    by by destruct s.
  destruct (drop_keys_ok t (if decide (s = ReadLock) then ReadLock else WriteLock) (LockKeys.keys ks) L V v) as (L' & g & Hrun & Hi' & Hev & Hg); try done.
  { intros k [m Hm]%Hk. exists m. split; [done|]. rewrite <- (Hs k m Hm). by case_decide. }
  exists L'. split_and!; [done| |done]. assert (g = ∅) as ->.
  { apply map_empty. intros k. rewrite Hg. destruct (decide (k ∈ LockKeys.keys ks)) as [Hin|Hin]; [done|]. destruct (v.1 !! k) eqn:E; [|done].
    destruct Hin. apply Hk. by rewrite E. }
  rewrite <- (delete_insert_eq V t (∅, None)). apply inv_leave; [done|]. apply lookup_insert_eq.
Qed.

(** ** The invariant *)

(** The task's new state is sound, and the others did not notice. *)
Definition advances (t : tid) (m : st Locks (option client)) (s : sys) : Prop :=
  ∃ c' L', m (locks s) = (Ok c', L') ∧
    inv L' (partial_alter (λ _, view_of <$> c') t (view_of <$> clients s)) ∧
    (∀ c, c' = Some c → client_wf c ∧ described L' c) ∧
    passes (clients s !! t ≫= λ c, (view_of c).2) (memory (locks s)) (memory L').

Lemma waits_on_view c a d : waits_on c = Some (a, d) → (view_of c).2 = Some a.
Proof. destruct c as [[? [|] ? []]| |? [? [|] []]| |]; cbn; congruence. Qed.

Lemma on_ok t m s : sys_inv s → advances t m s → ∃ s', on t m s = (Ok tt, s') ∧ sys_inv s' ∧
  passes (clients s !! t ≫= λ c, (view_of c).2) (memory (locks s)) (memory (locks s')) ∧
  ∀ t', t' ≠ t → clients s' !! t' = clients s !! t'.
Proof.
  intros [Hi Hc] (c' & L' & Hrun & Hi' & Hc' & Hp). unfold on. rewrite Hrun. eexists. split; [done|].
  split_and!; cbn [locks clients]; [|done|intros; by apply lookup_partial_alter_ne]. split; cbn [locks clients].
  - destruct c' as [c'|]; cbn in Hi' |- *.
    + change (partial_alter (λ _, Some c') t (clients s)) with (<[t := c']> (clients s)). by rewrite fmap_insert.
    + change (partial_alter (λ _, None) t (clients s)) with (delete t (clients s)). by rewrite fmap_delete.
  - intros t' c Ht'. destruct (decide (t' = t)) as [->|Hne].
    + rewrite lookup_partial_alter_eq in Ht'. by apply Hc'.
    + rewrite lookup_partial_alter_ne in Ht' by done. destruct (Hc t' c Ht') as [Hwf Hds]. split; [done|].
      intros a d Had. destruct (Hds a d Had) as (w & Hw & Hdw).
      destruct (ps_wakers _ _ _ Hp a w) as (w' & Hw' & Hdw' & _); [|done|exists w'; by rewrite Hdw'].
      intros Hx. apply bind_Some in Hx as (c0 & H0 & Ha0). apply Hne.
      destruct (Hi Filesystem) as [[Hm _ _ _] _]. apply (mo_inj _ _ Hm t' t (view_of c) (view_of c0) a);
        [by rewrite lookup_fmap, Ht'|by rewrite lookup_fmap, H0|by eapply waits_on_view|done].
Qed.

Definition actor (a : action) : tid :=
  match a with Start t _ _ | Poll t _ | Cancel t | Commit t | Downgrade t | Drop t => t end.

Lemma lookup_view s t c : clients s !! t = Some c → (view_of <$> clients s) !! t = Some (view_of c).
Proof. intros Ht. by rewrite lookup_fmap, Ht. Qed.

(** A task changes what it is doing, and nothing else happens. *)
Lemma advances_pure t c' s : sys_inv s → (∃ c, clients s !! t = Some c ∧ view_of c' = view_of c) →
  client_wf c' → waits_on c' = None → advances t (mret (Some c')) s.
Proof.
  intros [Hi _] (c & Ht & Hv) Hwf Hw. exists (Some c'), (locks s). split_and!; [done|..].
  - cbn. change (partial_alter _ _ _) with (<[t := view_of c']> (view_of <$> clients s)).
    rewrite Hv, insert_id; [done|]. by apply lookup_view.
  - intros c0 [= <-]. split; [done|]. intros a d. congruence.
  - apply evolves_passes, evolves_refl.
Qed.

Lemma commit_held_nil todo : commit_held [] todo = keyset Locked todo.
Proof. apply map_eq. intros k. by rewrite lookup_commit_held, lookup_keyset. Qed.

Lemma commit_held_all don : commit_held don [] = keyset WriteLock don.
Proof. apply map_eq. intros k. by rewrite lookup_commit_held, lookup_keyset. Qed.

Lemma advances_lock t cx f s : sys_inv s → clients s !! t = Some (Locking f) →
  advances t (f ← LockManager.lock_step cx f;
    mret (Some (match lf_todo f with [] => Guard (lf_target f) (lf_guard f) | _ => Locking f end))) s.
Proof.
  intros [Hi Hc] Ht. destruct (Hc t _ Ht) as [Hwf Hds].
  destruct (lock_step_ok t cx f (locks s) _ Hi (lookup_view s t _ Ht) Hwf Hds) as (f' & L' & Hrun & Hi' & Hwf' & Hds' & Hp).
  eexists _, L'. split; [by rewrite st_bind_run, Hrun|]. rewrite Ht. split_and!; [|intros c [= <-]|done].
  - destruct f' as [m [|k todo] g wk]; cbn in *; [|done]. destruct Hwf' as [_ Hnone]. by rewrite (Hnone eq_refl) in Hi'.
  - destruct f' as [m [|k todo] g wk]; cbn in *; [|done]. rewrite app_nil_r in Hwf'. by destruct Hwf'.
Qed.

Lemma advances_commit t cx ks f s : sys_inv s → clients s !! t = Some (Committing ks f) →
  advances t (f ← LockManager.commit_step cx f;
    mret (Some (match cf_todo f with [] => Committed ks | _ => Committing ks f end))) s.
Proof.
  intros [Hi Hc] Ht. destruct (Hc t _ Ht) as [Hwf Hds].
  destruct (commit_step_ok t cx ks f (locks s) _ Hi (lookup_view s t _ Ht) Hwf Hds) as (f' & L' & Hrun & Hi' & Hwf' & Hds' & Hp).
  eexists _, L'. split; [by rewrite st_bind_run, Hrun|]. rewrite Ht.
  destruct f' as [don [|k todo] wk]; (split_and!; [|intros c [= <-]|done]); try done.
  - destruct Hwf' as (Hks & _ & Hnone). cbn in Hks, Hnone, Hi' |- *. rewrite app_nil_r in Hks.
    rewrite (Hnone eq_refl) in Hi'. fold (commit_held don []) in Hi'. by rewrite commit_held_all, <- Hks in Hi'.
  - destruct Hwf' as (Hks & Hd & _). cbn in Hks, Hd. rewrite app_nil_r in Hks, Hd. split; [by cbn; rewrite Hks|done].
Qed.

Lemma advances_drop t m ks s c : sys_inv s → clients s !! t = Some c → (view_of c).2 = None → NoDup (LockKeys.keys ks) →
  (∀ k, k ∈ LockKeys.keys ks ↔ is_Some ((view_of c).1 !! k)) →
  (∀ k m', (view_of c).1 !! k = Some m' → (m = ReadLock ↔ m' = ReadLock)) →
  advances t (_ ← drop_guard m ks; mret None) s.
Proof.
  intros [Hi _] Ht Hv Hd Hk Hm.
  destruct (drop_step t m ks (locks s) _ (view_of c) Hi) as (L' & Hrun & Hi' & Hev); try done; [by apply lookup_view|].
  exists None, L'. split; [by rewrite st_bind_run, Hrun|]. split_and!; [done..|by apply evolves_passes].
Qed.

Lemma keyset_keys m l k : k ∈ l ↔ is_Some (keyset m l !! k).
Proof. rewrite lookup_keyset. case_decide; split; (done || by intros []). Qed.

Lemma keyset_state m l k m' : keyset m l !! k = Some m' → m' = m.
Proof. rewrite lookup_keyset. case_decide; congruence. Qed.

Lemma commit_held_keys don todo k : k ∈ don ++ todo ↔ is_Some (commit_held don todo !! k).
Proof.
  rewrite elem_of_app, lookup_commit_held. destruct (decide (k ∈ don)); [split; [done|by left]|].
  destruct (decide (k ∈ todo)); [split; [done|by right]|]. split; [tauto|by intros []].
Qed.

Lemma commit_held_state don todo k m : commit_held don todo !! k = Some m → m ≠ ReadLock.
Proof. rewrite lookup_commit_held. repeat case_decide; congruence. Qed.

Lemma advances_start t ks m s : sys_inv s → clients s !! t = None → Z.of_nat (size (clients s)) < u64_max →
  advances t (mret (Some (Locking (LockManager.lock ks m)))) s.
Proof.
  intros [Hi _] Hnone Hsz. eexists _, (locks s). split; [done|].
  cbn [fmap option_fmap option_map view_of LockManager.lock lf_target lf_guard lf_waker].
  rewrite LockKeys.keys_with_capacity. change (partial_alter _ _ _) with (<[t := (keyset m [], None)]> (view_of <$> clients s)).
  split_and!; [|intros c [= <-]|apply evolves_passes, evolves_refl].
  - apply inv_enter; [done|by rewrite lookup_fmap, Hnone|by rewrite map_size_fmap].
  - destruct (LockKeys.keys_prepared ks) as [Hsrt _]. split; [|by apply described_lock]. split; [|done]. cbn.
    rewrite LockKeys.keys_with_capacity. by apply LockKeys.sorted_NoDup.
Qed.

Lemma advances_cancel_lock t f s : sys_inv s → clients s !! t = Some (Locking f) →
  advances t (ks ← LockManager.lock_cancel f; mret (Some (Guard (lf_target f) ks))) s.
Proof.
  intros [Hi Hc] Ht. destruct (Hc t _ Ht) as [[Hd _] _].
  destruct (cancel_step t (locks s) _ _ Hi (lookup_view s t _ Ht)) as (L' & Hrun & Hi' & Hps). cbn in Hrun.
  exists (Some (Guard (lf_target f) (lf_guard f))), L'. unfold LockManager.lock_cancel. rewrite !st_bind_run, Hrun, Ht.
  split_and!; [done..|intros c [= <-]|done]. split; [|done]. by apply NoDup_app in Hd as [? _].
Qed.

Lemma advances_cancel_commit t ks f s : sys_inv s → clients s !! t = Some (Committing ks f) →
  advances t (_ ← LockManager.commit_cancel f; mret (Some (Aborted ks f))) s.
Proof.
  intros [Hi Hc] Ht. destruct (Hc t _ Ht) as [(Hks & Hd & _) _].
  destruct (cancel_step t (locks s) _ _ Hi (lookup_view s t _ Ht)) as (L' & Hrun & Hi' & Hps). cbn in Hrun.
  exists (Some (Aborted ks f)), L'. unfold LockManager.commit_cancel. rewrite !st_bind_run, Hrun, Ht.
  split_and!; [done..|intros c [= <-]|done]. by split.
Qed.

Lemma advances_downgrade t ks s : sys_inv s → clients s !! t = Some (Committed ks) →
  advances t (_ ← LockManager.downgrade_locks ks; mret (Some (Guard Locked ks))) s.
Proof.
  intros [Hi Hc] Ht. destruct (Hc t _ Ht) as [Hwf _].
  destruct (downgrade_keys_ok t (LockKeys.keys ks) (locks s) _ _ Hi (lookup_view s t _ Ht)) as (L' & g & Hrun & Hi' & Hev & Hg);
    [done|done|intros k Hk; cbn; by rewrite lookup_keyset, decide_True|].
  exists (Some (Guard Locked ks)), L'. unfold LockManager.downgrade_locks, Locks.downgrade_locks. rewrite st_bind_run, Hrun.
  split_and!; [done| |intros c [= <-]; by split|by apply evolves_passes].
  assert (g = keyset Locked (LockKeys.keys ks)) as ->; [|done].
  apply map_eq. intros k. rewrite Hg. cbn. rewrite !lookup_keyset. by case_decide.
Qed.

(** Whatever a task does, it does without a panic, and the locks stay sound. *)
Lemma perform_ok a s r s' : sys_inv s → perform a s = Some (r, s') →
  r = Ok tt ∧ sys_inv s' ∧
  passes (clients s !! actor a ≫= λ c, (view_of c).2) (memory (locks s)) (memory (locks s')) ∧
  ∀ t, t ≠ actor a → clients s' !! t = clients s !! t.
Proof.
  intros Hs Hp.
  assert (∀ t m, advances t m s → Some (on t m s) = Some (r, s') → actor a = t →
    r = Ok tt ∧ sys_inv s' ∧ passes (clients s !! actor a ≫= λ c, (view_of c).2) (memory (locks s)) (memory (locks s')) ∧
    ∀ t, t ≠ actor a → clients s' !! t = clients s !! t) as Hon.
  { intros t m Had [= Hrun] ->. destruct (on_ok t m s Hs Had) as (s1 & H1 & ?). rewrite H1 in Hrun. by injection Hrun as <- <-. }
  pose proof (si_clients s Hs) as Hc. destruct a as [t ks m|t cx|t|t|t|t]; cbn [perform] in Hp.
  - case_decide as Hd; [|done]. eapply Hon; [|done|done]. destruct Hd. by apply advances_start.
  - destruct (clients s !! t) as [[f| |ks f| |]|] eqn:Ht; try done; (eapply Hon; [|done|done]);
      [by apply advances_lock|by apply advances_commit].
  - destruct (clients s !! t) as [[f| |ks f| |]|] eqn:Ht; try done; (eapply Hon; [|done|done]);
      [by apply advances_cancel_lock|by apply advances_cancel_commit].
  - destruct (clients s !! t) as [[|m ks| | |]|] eqn:Ht; try done. destruct m; try done. eapply Hon; [|done|done].
    destruct (Hc t _ Ht) as [Hwf _]. apply advances_pure; [done| | |].
    + exists (Guard Locked ks). split; [done|]. cbn. fold (commit_held [] (LockKeys.keys ks)). by rewrite commit_held_nil.
    + by split_and!.
    + cbn. by destruct (LockKeys.keys ks).
  - destruct (clients s !! t) as [[| | | |ks]|] eqn:Ht; try done. eapply Hon; [|done|done]. by apply advances_downgrade.
  - destruct (clients s !! t) as [[|m ks| |ks f|ks]|] eqn:Ht; try done; (eapply Hon; [|done|done]); destruct (Hc t _ Ht) as [Hwf _];
      change LockManager.drop_transaction with (drop_guard WriteLock).
    + eapply advances_drop; [done|done|done|done|intros k; apply keyset_keys|]. intros k m' Hk%keyset_state. by subst.
    + destruct Hwf as [Hks Hd]. eapply advances_drop; [done|done|done|by rewrite Hks|intros k; rewrite Hks; apply commit_held_keys|].
      intros k m' Hk%commit_held_state. by split.
    + eapply advances_drop; [done|done|done|done|intros k; apply keyset_keys|]. intros k m' Hk%keyset_state. by subst.
Qed.

Lemma sys_inv_init : sys_inv init.
Proof.
  split; [|intros t c; cbn; by rewrite lookup_empty]. cbn. rewrite fmap_empty. intros k.
  assert (key_inv LockManager.new ∅ k) as Hk.
  { unfold key_inv. cbn. rewrite lookup_empty. split; [by apply omap_empty|]. intros a (t & v & w & Hv & _). by rewrite lookup_empty in Hv. }
  split; [split|done]; cbn.
  - split; intros *; by rewrite lookup_empty.
  - intros *. by rewrite lookup_empty.
  - by rewrite map_size_empty; vm_compute.
  - intros k' _. unfold key_inv. cbn. rewrite lookup_empty. split; [by apply omap_empty|].
    intros a (t & v & w & Hv & _). by rewrite lookup_empty in Hv.
Qed.

Lemma sys_inv_reachable s : rtc step init s → sys_inv s.
Proof.
  intros Hr. pose proof sys_inv_init as H0. induction Hr as [|s0 s1 s2 [a Ha] _ IH]; [done|]. apply IH. by eapply perform_ok.
Qed.

(** ** What the lock manager promises *)

(** A task holds a key, also if it has been granted it and has yet to run. *)
Definition holds (s : sys) (t : tid) (k : LockKey) : option LockState :=
  grants (mem (locks s)) (view_of <$> clients s) k !! t.

Lemma held_key s t k m : sys_inv s → holds s t k = Some m → ∃ e, keys (locks s) !! k = Some e ∧
  shape (grants (mem (locks s)) (view_of <$> clients s) k) (read_count e) (state e).
Proof.
  intros [Hi _] Hm. destruct (held_entry t k (locks s) _ m Hi Hm) as (e & q & He & [Hsh _ _]). by exists e.
Qed.

(** C15: Two tasks that hold a key at the same time are both readers, or one of
    them is a reader and the other has a transaction lock that is not
    committing: write locks exclude everybody, transaction locks exclude one
    another. *)
Theorem locks_exclude s t1 t2 k m1 m2 :
  rtc step init s → t1 ≠ t2 → holds s t1 k = Some m1 → holds s t2 k = Some m2 →
  (m1 = ReadLock ∧ m2 ≠ WriteLock) ∨ (m2 = ReadLock ∧ m1 ≠ WriteLock).
Proof.
  intros Hr Hne H1 H2. destruct (held_key s t1 k m1 (sys_inv_reachable s Hr) H1) as (e & _ & _ & Hs).
  unfold holds in *. destruct (state e).
  - rewrite (Hs _ _ H1), (Hs _ _ H2). by left.
  - destruct Hs as (t & Ht & Hs). destruct (decide (t1 = t)) as [->|Hn1].
    + right. split; [by eapply Hs|]. congruence.
    + left. split; [by eapply Hs|]. destruct (decide (t2 = t)) as [->|Hn2]; [congruence|]. by rewrite (Hs _ _ H2 Hn2).
  - destruct Hs as [t Hs]. rewrite Hs in H1, H2. apply lookup_singleton_Some in H1 as [-> _], H2 as [-> _]. done.
Qed.

(** C16: Whatever the interleaving, and whichever futures are dropped on the
    way, every section that holds the mutex completes: no [unwrap], assertion or
    subtraction fails, and no waker is reached that is gone. *)
Theorem locks_never_panic s a r s' : rtc step init s → perform a s = Some (r, s') → r = Ok tt.
Proof. intros Hr Hp. by eapply perform_ok; [apply sys_inv_reachable|]. Qed.

(** A task that has not been granted the lock it waits for waits for a lock
    that is held; once nobody holds a key there is no entry for it. *)
Theorem locks_wait_for_holders s k : rtc step init s →
  (∀ t c a m up w, clients s !! t = Some c → waits_on c = Some (a, (k, m, up)) →
    mem (locks s) !! a = Some w → waker w ≠ Woken → ∃ t' m', holds s t' k = Some m') ∧
  (keys (locks s) !! k = None ↔ ∀ t, holds s t k = None).
Proof.
  intros Hr. pose proof (sys_inv_reachable s Hr) as [Hi Hc]. split.
  - intros t c a m up w Ht Hw Ha Hwk. destruct (Hc t c Ht) as [_ Hds]. destruct (Hds _ _ Hw) as (w0 & Hw0 & Hd).
    assert (w0 = w) as -> by congruence. injection Hd as Hk _ _.
    assert (waiting (mem (locks s)) (view_of <$> clients s) k a) as Hwait.
    { exists t, (view_of c), w. split_and!; [by apply lookup_view|by eapply waits_on_view|done..]. }
    destruct (waiting_entry k (locks s) _ a Hi Hwait) as (_ & _ & _ & _ & Hne).
    apply map_choose in Hne as (t' & m' & Hm). by exists t', m'.
  - destruct (Hi k) as [_ Hk]. unfold key_inv, holds in *. destruct (keys (locks s) !! k) as [e|].
    + destruct Hk as (_ & _ & Hne). split; [done|]. intros Hall. destruct Hne. by apply map_empty.
    + destruct Hk as [-> _]. split; [|done]. intros _ t. apply lookup_empty.
Qed.

(** C17: No wake-up is lost: when a task's lock is granted by another task's
    action, the waker it last polled with has been woken. *)
Theorem locks_wake s a s' t c ad d w w' cx :
  rtc step init s → perform a s = Some (Ok tt, s') → actor a ≠ t → clients s !! t = Some c →
  waits_on c = Some (ad, d) → mem (locks s) !! ad = Some w → waker w = Registered cx →
  mem (locks s') !! ad = Some w' → waker w' = Woken → cx ∈ woken (memory (locks s')).
Proof.
  intros Hr Hp Hne Ht Hd Hw Hreg Hw' Hwk. pose proof (sys_inv_reachable s Hr) as Hs.
  destruct (perform_ok a s _ _ Hs Hp) as (_ & _ & [_ Hps] & _).
  destruct (Hps ad w) as (w0 & Hw0 & _ & [Hsame|[_ Htold]]); [|done|congruence|by apply Htold].
  intros Hx. apply bind_Some in Hx as (c0 & H0 & Ha0). destruct Hs as [Hi _]. destruct (Hi Filesystem) as [[Hm _ _ _] _].
  apply Hne. apply (mo_inj _ _ Hm _ _ (view_of c0) (view_of c) ad); [by apply lookup_view..|done|by eapply waits_on_view].
Qed.
