(* ===== verification/LockDemo.v ===== *)
(** * Four tasks and two keys

    The theorems about the lock manager on concrete histories, and a history
    that ends with three tasks waiting for one another. *)

From S2P Require Import Prelude LockKeys LockManager LockQueue LockInv LockSafety.

(** ** Histories *)
Fixpoint run (l : list action) (s : sys) : option sys :=
  match l with
  | [] => Some s
  | a :: l => match perform a s with Some (Ok _, s) => run l s | _ => None end
  end.

Lemma run_reachable l s s' : run l s = Some s' → rtc step s s'.
Proof.
  revert s. induction l as [|a l IH]; intros s; cbn [run].
  - intros [= ->]. apply rtc_refl.
  - intros H. destruct (perform a s) as [[[[]| | |] s1]|] eqn:E; try done. eapply rtc_l; [by exists a|by apply IH].
Qed.

(** ** Tasks that wait for one another *)

(** Every task waits on a waker that has not been woken. *)
Definition stuck (s : sys) : Prop := ∀ t c, clients s !! t = Some c →
  ∃ a d w, waits_on c = Some (a, d) ∧ mem (locks s) !! a = Some w ∧ waker w ≠ Woken.

Definition polled (s s' : sys) : Prop := ∃ t cx, perform (Poll t cx) s = Some (Ok tt, s').

Lemma poll_waiting L a w cx : mem L !! a = Some w → waker w ≠ Woken → ∃ L',
  LockWaker.poll a cx L = (Ok false, L') ∧ mem L' = <[a := set_waker w (Registered cx)]> (mem L).
Proof.
  intros Ha Hw. unfold LockWaker.poll. rewrite st_bind_run. unfold LockWaker.get. rewrite Ha.
  replace (is_woken (waker w)) with false by by destruct (waker w). st_simpl. by eexists.
Qed.

Lemma stuck_on t m s c a w cx : stuck s → clients s !! t = Some c → mem (locks s) !! a = Some w →
  (∀ L', mem L' = <[a := set_waker w (Registered cx)]> (mem (locks s)) →
    LockWaker.poll a cx (locks s) = (Ok false, L') → m (locks s) = (Ok (Some c), L')) →
  waker w ≠ Woken → ∃ s', on t m s = (Ok tt, s') ∧ stuck s' ∧ clients s' = clients s.
Proof.
  intros Hs Ht Ha Hm Hw. destruct (poll_waiting (locks s) a w cx Ha Hw) as (L' & Hp & HL').
  unfold on. rewrite (Hm L' HL' Hp). eexists. split; [done|].
  assert (partial_alter (λ _, Some c) t (clients s) = clients s) as Hc.
  { change (<[t := c]> (clients s) = clients s). by apply insert_id. }
  rewrite Hc. split; [|done]. intros t' c' Ht'. destruct (Hs t' c' Ht') as (b & d & x & Hb & Hx & Hxw). cbn [locks].
  rewrite HL'. destruct (decide (b = a)) as [->|Hne].
  - exists a, d, (set_waker w (Registered cx)). by rewrite lookup_insert_eq.
  - exists b, d, x. by rewrite lookup_insert_ne.
Qed.

Lemma stuck_polled s s' : stuck s → polled s s' → stuck s' ∧ clients s' = clients s.
Proof.
  intros Hs (t & cx & Hp). cbn [perform] in Hp. destruct (clients s !! t) as [c|] eqn:Ht; [|done].
  destruct (Hs t c Ht) as (a & d & w & Hwo & Ha & Hw).
  destruct c as [[m [|k todo] g wk]| |ks [don [|k todo] wk]| |]; cbn in Hwo; try done; destruct wk as [a'|]; try done;
    injection Hwo as -> <-;
    match type of Hp with Some (on _ ?m _) = _ =>
      destruct (stuck_on t m s _ a w cx Hs Ht Ha) as (s1 & Hon & Hres); [|done|rewrite Hon in Hp; by injection Hp as <-]
    end;
    intros L' _ Hpoll; unfold LockManager.lock_step, LockManager.commit_step; cbn [lf_todo lf_waker cf_todo cf_waker];
    st_simpl; by rewrite Hpoll.
Qed.

Lemma stuck_forever s s' : stuck s → rtc polled s s' → clients s' = clients s.
Proof.
  intros Hs Hr. induction Hr as [|s0 s1 s2 H01 _ IH]; [done|]. destruct (stuck_polled s0 s1 Hs H01) as [Hs1 Hc].
  by rewrite IH.
Qed.

Module Demo.
Definition A : LockKey := LockKey.object 1 1.
Definition B : LockKey := LockKey.object 1 2.

(** Task 1 has a write lock on [B]; task 2 has a transaction lock on [A] and
    waits for [B]; task 3 waits for a write lock on [B]; task 4 has a read lock
    on [A] and waits for [B]. *)
Definition history : list action :=
  [Start 1 (Inline B) WriteLock; Poll 1 11;
   Start 2 (Vec [B; A]) Locked; Poll 2 12; Poll 2 12; Poll 2 12;
   Start 3 (Inline B) WriteLock; Poll 3 13; Poll 3 13;
   Start 4 (Vec [A; B]) ReadLock; Poll 4 14; Poll 4 14; Poll 4 14].
(** Task 1 drops its guard; task 2 is granted [B] and commits. *)
Definition commit : list action := [Drop 1; Poll 2 12; Commit 2; Poll 2 12; Poll 2 12].

Definition waiting_for_b : sys := Eval vm_compute in default init (run history init).
Definition granted : sys := Eval vm_compute in default init (run [Drop 1%positive] waiting_for_b).
Definition deadlocked : sys := Eval vm_compute in default init (run (history ++ commit) init).

Lemma waiting_for_b_reachable : rtc step init waiting_for_b.
Proof. apply (run_reachable history). by vm_compute. Qed.

Lemma deadlocked_reachable : rtc step init deadlocked.
Proof. apply (run_reachable (history ++ commit)). by vm_compute. Qed.

(** C18: Tasks that ask for the same keys in the same order can wait for one
    another for ever: a reader that queued behind a writer is not let in when
    the lock is granted to a transaction, although new readers would be, and the
    transaction cannot commit while that reader holds another of its keys. *)
Theorem locks_deadlock :
  rtc step init deadlocked ∧
  dom (clients deadlocked) = ({[2; 3; 4]}%positive : gset tid) ∧
  (holds deadlocked 2 B = Some Locked ∧ holds deadlocked 4 A = Some ReadLock) ∧
  ∀ s', rtc polled deadlocked s' → clients s' = clients deadlocked.
Proof.
  split; [apply deadlocked_reachable|]. split; [by vm_compute|]. split; [by vm_compute|].
  intros s'. apply stuck_forever. intros t c Ht.
  assert (t ∈ ({[2; 3; 4]}%positive : gset tid)) as Hin.
  { replace ({[2; 3; 4]}%positive : gset tid) with (dom (clients deadlocked)) by by vm_compute. apply elem_of_dom. by exists c. }
  assert (t = 2%positive ∨ t = 3%positive ∨ t = 4%positive) as [->|[->| ->]] by set_solver;
    vm_compute in Ht; injection Ht as <-; eexists _, _, _; (split; [by vm_compute|]); (split; [by vm_compute|]); by vm_compute.
Qed.

(** ** Witnesses *)
Lemma locks_exclude_witness :
  holds deadlocked 2 A = Some Locked ∧ holds deadlocked 4 A = Some ReadLock ∧
  ((Locked = ReadLock ∧ ReadLock ≠ WriteLock) ∨ (ReadLock = ReadLock ∧ Locked ≠ WriteLock)).
Proof.
  split; [by vm_compute|]. split; [by vm_compute|].
  apply (locks_exclude deadlocked 2 4 A); [apply deadlocked_reachable|done|by vm_compute..].
Defined.

Lemma locks_never_panic_witness : ∃ r s', perform (Cancel 4) deadlocked = Some (r, s') ∧ r = Ok tt.
Proof.
  destruct (perform (Cancel 4) deadlocked) as [[r s']|] eqn:E; [|vm_compute in E; done].
  exists r, s'. split; [done|]. apply (locks_never_panic deadlocked (Cancel 4) r s'); [apply deadlocked_reachable|exact E].
Defined.

Lemma locks_wait_for_holders_witness :
  (∃ t' m', holds deadlocked t' B = Some m') ∧ (keys (locks deadlocked) !! B = None ↔ ∀ t, holds deadlocked t B = None).
Proof.
  split; [|apply (locks_wait_for_holders deadlocked B), deadlocked_reachable].
  eapply (proj1 (locks_wait_for_holders deadlocked B deadlocked_reachable) 3%positive); by vm_compute.
Defined.

Lemma locks_wake_witness : 12%positive ∈ woken (memory (locks granted)).
Proof.
  eapply (locks_wake waiting_for_b (Drop 1) granted 2); [apply waiting_for_b_reachable|by vm_compute|done|by vm_compute..].
Defined.
End Demo.
