(* ===== verification/Extent.v ===== *)
(** * Extent records

    [fxfs/src/object_store/extent_record.rs]: the key and the value of an
    extent, their orders, and the two operations ([offset_by], [shrunk]) that
    cut an extent in two. *)

From S2P Require Import Prelude Bytes Round Checksum.

(** ** Keys *)

(** [ExtentKeyV32]. *)
Record ExtentKey : Set := mkExtentKey { ek_range : range }.

#[global] Instance ExtentKey_eq_dec : EqDecision ExtentKey.
Proof. solve_decision. Defined.

Definition EXTENT_HASH_BUCKET_SIZE : Z := 1 * 1024 * 1024.

(** [ExtentKeyPartitionIterator] holds the range still to be partitioned. *)
Module ExtentKeyPartitionIterator.
Definition next (r : range) : option range * range :=
  if end_ r <=? start r then (None, r)
  else
    let s := start r in
    let r' := saturating_add s EXTENT_HASH_BUCKET_SIZE ..< end_ r in
    let e := Z.min (start r') (end_ r') in
    (Some (s ..< e), r').

(** Collecting the iterator; [None] when [fuel] calls were not enough. *)
Fixpoint collect (fuel : nat) (r : range) : option (list range) :=
  match fuel with
  | O => None
  | S fuel =>
      match next r with
      | (None, _) => Some []
      | (Some p, r') => cons p <$> collect fuel r'
      end
  end.
End ExtentKeyPartitionIterator.

Module ExtentKey.
Definition new (r : range) : ExtentKey := mkExtentKey r.

Definition overlap (self other : ExtentKey) : option range :=
  if (end_ (ek_range self) <=? start (ek_range other))
     || (end_ (ek_range other) <=? start (ek_range self)) then None
  else Some (Z.max (start (ek_range self)) (start (ek_range other))
             ..< Z.min (end_ (ek_range self)) (end_ (ek_range other))).

Definition search_key_from_offset (offset : Z) : res ExtentKey :=
  e ← u64_add offset 1; Ok (mkExtentKey (0 ..< e)).

Definition search_key (self : ExtentKey) : res ExtentKey :=
  rassert (negb (start (ek_range self) =? end_ (ek_range self))) ≫= λ _,
  search_key_from_offset (start (ek_range self)).

Definition key_for_merge_into (self : ExtentKey) : ExtentKey :=
  mkExtentKey (0 ..< start (ek_range self)).

Definition fuzzy_hash_partition (self : ExtentKey) : res range :=
  s ← round_down (start (ek_range self)) EXTENT_HASH_BUCKET_SIZE;
  e ← round_up (end_ (ek_range self)) EXTENT_HASH_BUCKET_SIZE;
  Ok (s ..< default u64_max e).

Definition cmp_upper_bound (self other : ExtentKey) : comparison :=
  end_ (ek_range self) ?= end_ (ek_range other).

Definition cmp_lower_bound (self other : ExtentKey) : comparison :=
  start (ek_range self) ?= start (ek_range other).

Definition cmp (self other : ExtentKey) : comparison :=
  cmp_then (start (ek_range self) ?= start (ek_range other))
           (end_ (ek_range self) ?= end_ (ek_range other)).
End ExtentKey.

(** ** Values *)

(** [ExtentModeV38]; a [BitVec] is a list of bits. *)
Inductive ExtentMode : Set :=
| Raw
| Cow (checksums : Checksums)
| OverwritePartial (bitmap : list bool)
| Overwrite.

(** [ExtentValueV38]; [ENone] and [ESome] are its [None] and [Some]. *)
Inductive ExtentValue : Set :=
| ENone
| ESome (device_offset : Z) (mode : ExtentMode) (key_id : Z).

#[global] Instance ExtentMode_eq_dec : EqDecision ExtentMode.
Proof. solve_decision. Defined.
#[global] Instance ExtentValue_eq_dec : EqDecision ExtentValue.
Proof. solve_decision. Defined.

(** [BitVec::split_off] and [BitVec::truncate] of the [bit-vec] crate. *)
Definition bitvec_split_off (b : list bool) (at_ : Z) : res (list bool) :=
  rassert (at_ <=? Z.of_nat (length b)) ≫= λ _, Ok (drop (Z.to_nat at_) b).
Definition bitvec_truncate (b : list bool) (len : Z) : list bool := take (Z.to_nat len) b.

Module ExtentValue.
Definition new (device_offset : Z) (mode : ExtentMode) (key_id : Z) : ExtentValue :=
  ESome device_offset mode key_id.

Definition new_raw (device_offset key_id : Z) : ExtentValue :=
  new device_offset Raw key_id.

Definition with_checksum (device_offset : Z) (checksums : Checksums) (key_id : Z)
    : ExtentValue :=
  new device_offset (Cow checksums) key_id.

Definition blank_overwrite_extent (device_offset num_blocks key_id : Z) : ExtentValue :=
  new device_offset (OverwritePartial (replicate (Z.to_nat num_blocks) false)) key_id.

Definition initialized_overwrite_extent (device_offset key_id : Z) : ExtentValue :=
  new device_offset Overwrite key_id.

Definition deleted_extent : ExtentValue := ENone.

Definition is_deleted (self : ExtentValue) : bool :=
  match self with ENone => true | _ => false end.

Definition offset_mode (mode : ExtentMode) (amount extent_len : Z) : res ExtentMode :=
  match mode with
  | Raw => Ok Raw
  | Cow checksums =>
      if 0 <? Checksums.len checksums then
        per ← u64_div extent_len (Checksums.len checksums);
        index ← u64_div amount per;
        c ← Checksums.offset_by checksums index;
        Ok (Cow c)
      else Ok (Cow (Checksums.fletcher []))
  | Overwrite => Ok Overwrite
  | OverwritePartial bitmap =>
      rassert (0 <? Z.of_nat (length bitmap)) ≫= λ _,
      per ← u64_div extent_len (Z.of_nat (length bitmap));
      index ← u64_div amount per;
      b ← bitvec_split_off bitmap index;
      Ok (OverwritePartial b)
  end.

Definition offset_by (self : ExtentValue) (amount extent_len : Z) : res ExtentValue :=
  match self with
  | ENone => Ok deleted_extent
  | ESome device_offset mode key_id =>
      mode ← offset_mode mode amount extent_len;
      d ← u64_add device_offset amount;
      Ok (ESome d mode key_id)
  end.

Definition shrunk_mode (mode : ExtentMode) (original_len new_len : Z) : res ExtentMode :=
  match mode with
  | Raw => Ok Raw
  | Cow checksums =>
      if 0 <? Checksums.len checksums then
        per ← u64_div original_len (Checksums.len checksums);
        len ← u64_div new_len per;
        c ← Checksums.shrunk checksums len;
        Ok (Cow c)
      else Ok (Cow (Checksums.fletcher []))
  | Overwrite => Ok Overwrite
  | OverwritePartial bitmap =>
      rassert (0 <? Z.of_nat (length bitmap)) ≫= λ _,
      per ← u64_div original_len (Z.of_nat (length bitmap));
      len ← u64_div new_len per;
      Ok (OverwritePartial (bitvec_truncate bitmap len))
  end.

Definition shrunk (self : ExtentValue) (original_len new_len : Z) : res ExtentValue :=
  match self with
  | ENone => Ok deleted_extent
  | ESome device_offset mode key_id =>
      mode ← shrunk_mode mode original_len new_len;
      Ok (ESome device_offset mode key_id)
  end.
End ExtentValue.

(** ** Earlier versions *)
Inductive ExtentValueV37 : Set :=
| EV37None
| EV37Some (device_offset : Z) (checksums : ChecksumsV37) (key_id : Z).

Inductive ExtentValueV32 : Set :=
| EV32None
| EV32Some (device_offset : Z) (checksums : ChecksumsV32) (key_id : Z).

Definition extent_value_v38_from_v37 (value : ExtentValueV37) : ExtentValue :=
  match value with
  | EV37None => ENone
  | EV37Some device_offset checksums key_id =>
      let mode := match migrate checksums with
                  | None => Raw
                  | Some checksums => Cow checksums
                  end in
      ESome device_offset mode key_id
  end.

(** ** What an extent says about each of its bytes

    An extent of [len] bytes is read at an offset: the device byte it lies at,
    the key that decrypts it, and what its mode records of the block the byte
    is in. *)
Inductive block_info : Set :=
| BRaw
| BNoChecksum                      (* copy-on-write, no checksums recorded *)
| BChecksum (c : list Z)           (* the eight bytes of the block's checksum *)
| BWritten (written : bool)
| BOverwrite.

(** The piece of a table of [n] entries, spread evenly over [len] bytes, that
    covers offset [o]. *)
Definition block_index (len n o : Z) : Z := o / (len / n).

Definition mode_at (mode : ExtentMode) (len o : Z) : block_info :=
  match mode with
  | Raw => BRaw
  | Cow c =>
      let n := Checksums.len c in
      if 0 <? n then
        BChecksum (take 8 (drop (Z.to_nat (block_index len n o * 8)) (sums c)))
      else BNoChecksum
  | OverwritePartial b =>
      BWritten (default false (b !! Z.to_nat (block_index len (Z.of_nat (length b)) o)))
  | Overwrite => BOverwrite
  end.

Definition extent_at (v : ExtentValue) (len o : Z) : option (Z * Z * block_info) :=
  match v with
  | ENone => None
  | ESome d mode key => Some (d + o, key, mode_at mode len o)
  end.

(** A table of [n] entries fits an extent of [len] bytes whose cuts fall on
    multiples of [bs]. *)
Definition mode_wf (bs : Z) (mode : ExtentMode) (len : Z) : Prop :=
  match mode with
  | Raw | Overwrite => True
  | Cow c =>
      (8 | Z.of_nat (length (sums c))) ∧ Z.of_nat (length (sums c)) ≤ u64_max ∧
      (Checksums.len c = 0 ∨ len = Checksums.len c * bs)
  | OverwritePartial b => len = Z.of_nat (length b) * bs ∧ b ≠ []
  end.

Definition value_wf (bs : Z) (v : ExtentValue) (len : Z) : Prop :=
  match v with
  | ENone => True
  | ESome d mode _ => 0 ≤ d ∧ d + len ≤ u64_max ∧ mode_wf bs mode len
  end.

(** ** Keys: properties *)

(** [overlap] is the intersection of the two ranges, and [None] exactly
    when they have no byte in common. *)
Theorem overlap_spec a b :
  start (ek_range a) < end_ (ek_range a) → start (ek_range b) < end_ (ek_range b) →
  ∀ p, in_orange p (ExtentKey.overlap a b) ↔ in_range p (ek_range a) ∧ in_range p (ek_range b).
Proof.
  intros Ha Hb p. unfold ExtentKey.overlap, in_orange, in_range.
  bsplit; simpl; lia.
Qed.

(** The search key for an offset finds the first extent that reaches past it:
    an extent compares at or above the search key exactly when it ends after
    the offset. *)
Lemma search_key_from_offset_spec offset k e :
  ExtentKey.search_key_from_offset offset = Ok k →
  ExtentKey.cmp_upper_bound e k ≠ Lt ↔ offset < end_ (ek_range e).
Proof.
  unfold ExtentKey.search_key_from_offset, ExtentKey.cmp_upper_bound. intros Hk.
  apply res_bind_ok in Hk as (x & Hx & [= <-]). apply u64_add_inv in Hx as [? ->]. simpl.
  rewrite Z.compare_lt_iff. lia.
Qed.

(** *** Partitions *)

Lemma bucket_pos : 0 < EXTENT_HASH_BUCKET_SIZE.
Proof. done. Qed.

(** The bucket a byte lies in; the last one stops at [u64::MAX]. *)
Definition bucket (i : Z) : range :=
  i * EXTENT_HASH_BUCKET_SIZE ..< Z.min ((i + 1) * EXTENT_HASH_BUCKET_SIZE) u64_max.

Lemma collect_buckets n i :
  0 ≤ i →
  (Z.of_nat n = 0 ∨ (i + Z.of_nat n - 1) * EXTENT_HASH_BUCKET_SIZE < u64_max) →
  ∀ fuel, (n < fuel)%nat →
  ExtentKeyPartitionIterator.collect fuel
    (Z.min (i * EXTENT_HASH_BUCKET_SIZE) u64_max
       ..< Z.min ((i + Z.of_nat n) * EXTENT_HASH_BUCKET_SIZE) u64_max)
  = Some (bucket <$> seqZ i (Z.of_nat n)).
Proof.
  pose proof bucket_pos as HB. set (B := EXTENT_HASH_BUCKET_SIZE) in *.
  revert i; induction n as [|n IH]; intros i Hi Hlast fuel Hfuel; (destruct fuel as [|fuel]; [lia|]).
  - simpl. unfold ExtentKeyPartitionIterator.next. simpl.
    rewrite Z.add_0_r, Z.leb_refl. done.
  - assert (Hin : (i + Z.of_nat n) * B < u64_max) by lia.
    assert (i * B ≤ (i + Z.of_nat n) * B) by nia.
    rewrite seqZ_cons by lia. rewrite fmap_cons.
    cbn [ExtentKeyPartitionIterator.collect]. unfold ExtentKeyPartitionIterator.next. cbn [start end_].
    replace (Z.min (i * B) u64_max) with (i * B) by lia.
    assert (i * B < Z.min ((i + Z.of_nat (S n)) * B) u64_max) by nia.
    bsplit; [lia|]. unfold saturating_add. fold B.
    replace (i * B + B) with ((i + 1) * B) by lia.
    replace (Z.min (Z.min ((i + 1) * B) u64_max) (Z.min ((i + Z.of_nat (S n)) * B) u64_max))
      with (Z.min ((i + 1) * B) u64_max) by nia.
    replace (i + Z.of_nat (S n)) with ((i + 1) + Z.of_nat n) by lia.
    rewrite IH by lia. simpl. unfold bucket. fold B.
    replace (Z.pred (Z.of_nat (S n))) with (Z.of_nat n) by lia.
    replace (Z.succ i) with (i + 1) by lia. done.
Qed.

(** The partitions of a key: the buckets its bytes fall in. *)
Definition partition_count (k : ExtentKey) : Z :=
  (end_ (ek_range k) - 1) / EXTENT_HASH_BUCKET_SIZE
  - start (ek_range k) / EXTENT_HASH_BUCKET_SIZE + 1.

Definition key_valid (k : ExtentKey) : Prop :=
  0 ≤ start (ek_range k) < end_ (ek_range k) ∧ end_ (ek_range k) ≤ u64_max.

Lemma partition_count_pos k : key_valid k → 0 < partition_count k.
Proof.
  intros [[??] ?]. unfold partition_count. pose proof bucket_pos.
  pose proof (Z.div_le_mono (start (ek_range k)) (end_ (ek_range k) - 1)
                EXTENT_HASH_BUCKET_SIZE ltac:(lia) ltac:(lia)). lia.
Qed.

Lemma fuzzy_hash_partition_eq k :
  key_valid k →
  ExtentKey.fuzzy_hash_partition k =
    Ok (start (ek_range k) / EXTENT_HASH_BUCKET_SIZE * EXTENT_HASH_BUCKET_SIZE
        ..< Z.min (((end_ (ek_range k) - 1) / EXTENT_HASH_BUCKET_SIZE + 1)
                    * EXTENT_HASH_BUCKET_SIZE) u64_max).
Proof.
  intros [[Hs Hse] He]. unfold ExtentKey.fuzzy_hash_partition.
  destruct (ek_range k) as [s e]; cbn [start end_] in *.
  rewrite round_down_eq by (done || lia). res_simpl.
  pose proof (round_up_spec e EXTENT_HASH_BUCKET_SIZE ltac:(split; lia)
                ltac:(split; [done|by apply Z.leb_le])) as Hup.
  set (B := EXTENT_HASH_BUCKET_SIZE) in *.
  assert (0 < B) as HB by done.
  pose proof (Z.div_mod (e - 1) B ltac:(lia)). pose proof (Z.mod_pos_bound (e - 1) B HB).
  destruct (round_up e B) as [[d|]| | |]; [| |done|lia|done].
  - destruct Hup as (_ & [q ->] & ? & ?). res_simpl. unfold id; cbn [default].
    rewrite (Z.mul_comm (s / B)). do 2 f_equal.
    assert (q = (e - 1) / B + 1) as -> by nia. lia.
  - destruct Hup as (_ & Hov). res_simpl. unfold id; cbn [default].
    rewrite (Z.mul_comm (s / B)). do 2 f_equal.
    assert (u64_max + 1 = 17592186044416 * B) by done.
    assert (17592186044416 - 1 ≤ (e - 1) / B) by (apply Z.div_le_lower_bound; lia).
    nia.
Qed.

(** [fuzzy_hash_partition] of a non-empty key yields, in order and without
    repetition, the buckets that hold its bytes, and the iterator ends. *)
Theorem fuzzy_hash_partition_spec k :
  key_valid k →
  ∃ r, ExtentKey.fuzzy_hash_partition k = Ok r ∧
    ∀ fuel, (Z.to_nat (partition_count k) < fuel)%nat →
      ExtentKeyPartitionIterator.collect fuel r =
        Some (bucket <$> seqZ (start (ek_range k) / EXTENT_HASH_BUCKET_SIZE) (partition_count k)).
Proof.
  intros Hk. rewrite fuzzy_hash_partition_eq by done. eexists; split; [reflexivity|].
  intros fuel Hfuel. pose proof (partition_count_pos k Hk) as Hpos.
  destruct Hk as [[Hs Hse] He]. destruct (ek_range k) as [s e] eqn:Hr; cbn [start end_] in *.
  set (B := EXTENT_HASH_BUCKET_SIZE) in *. assert (0 < B) as HB by done.
  assert (0 ≤ s / B) by (apply Z.div_pos; lia).
  pose proof (Z.mul_div_le s B HB). pose proof (Z.mul_div_le (e - 1) B HB).
  assert (partition_count k = (e - 1) / B - s / B + 1) as Hn
    by (unfold partition_count; by rewrite Hr).
  pose proof (collect_buckets (Z.to_nat (partition_count k)) (s / B) ltac:(lia)) as Hc.
  rewrite Z2Nat.id in Hc by lia. fold B in Hc.
  specialize (Hc ltac:(right; rewrite Hn; nia) fuel Hfuel).
  rewrite <- Hc. f_equal. rewrite Hn. f_equal; [lia|]. f_equal. lia.
Qed.

(** Keys that overlap have a partition in common, so an existence filter
    that records every partition of every key never hides an overlapping record. *)
Theorem overlapping_keys_share_partition a b p :
  key_valid a → key_valid b → in_range p (ek_range a) → in_range p (ek_range b) →
  ∃ ra rb la lb fuel,
    ExtentKey.fuzzy_hash_partition a = Ok ra ∧ ExtentKey.fuzzy_hash_partition b = Ok rb ∧
    ExtentKeyPartitionIterator.collect fuel ra = Some la ∧
    ExtentKeyPartitionIterator.collect fuel rb = Some lb ∧
    bucket (p / EXTENT_HASH_BUCKET_SIZE) ∈ la ∧ bucket (p / EXTENT_HASH_BUCKET_SIZE) ∈ lb ∧
    in_range p (bucket (p / EXTENT_HASH_BUCKET_SIZE)).
Proof.
  intros Ha Hb [Hpa1 Hpa2] [Hpb1 Hpb2].
  destruct (fuzzy_hash_partition_spec a Ha) as (ra & Hra & Hca).
  destruct (fuzzy_hash_partition_spec b Hb) as (rb & Hrb & Hcb).
  exists ra, rb. do 2 eexists.
  exists (S (Z.to_nat (partition_count a) + Z.to_nat (partition_count b))).
  split_and!; [done|done|apply Hca; lia|apply Hcb; lia|..].
  1,2: apply list_elem_of_fmap; eexists; split; [reflexivity|];
    apply elem_of_seqZ; unfold partition_count;
    (split; [apply Z.div_le_mono; [done|lia]|]);
    match goal with |- _ < _ / _ + (?e / _ - _ / _ + 1) =>
      pose proof (Z.div_le_mono p e EXTENT_HASH_BUCKET_SIZE ltac:(done) ltac:(lia)) end; lia.
  unfold in_range, bucket. cbn [start end_]. destruct Ha as [??].
  pose proof (Z.div_mod p EXTENT_HASH_BUCKET_SIZE ltac:(done)).
  pose proof (Z.mod_pos_bound p EXTENT_HASH_BUCKET_SIZE ltac:(done)).
  split; [lia|]. apply Z.min_glb_lt; lia.
Qed.

(** ** Values: cutting an extent in two *)

Lemma table_per n bs : 0 < n → n * bs / n = bs.
Proof. intros. rewrite Z.mul_comm. apply Z.div_mul. lia. Qed.

Lemma block_index_mul n bs o : 0 < n → block_index (n * bs) n o = o / bs.
Proof. intros. unfold block_index. by rewrite table_per. Qed.

Lemma checksums_len_mul c :
  (8 | Z.of_nat (length (sums c))) → Z.of_nat (length (sums c)) = Checksums.len c * 8.
Proof. intros [q Hq]. unfold Checksums.len. rewrite Hq, Z.div_mul; lia. Qed.

Lemma mode_at_cow c bs o :
  0 < Checksums.len c →
  mode_at (Cow c) (Checksums.len c * bs) o =
    BChecksum (take 8 (drop (Z.to_nat (o / bs * 8)) (sums c))).
Proof.
  intros Hn. cbn [mode_at]. rewrite block_index_mul by done. bsplit; [done|lia].
Qed.

Section cut.
Context (bs : Z) (Hbs : 0 < bs).

Lemma offset_by_cow c len amount k :
  mode_wf bs (Cow c) len → 0 < Checksums.len c → amount = k * bs → 0 ≤ amount < len →
  ∃ c', Checksums.offset_by c k = Ok c' ∧ len = Checksums.len c * bs ∧
    Checksums.len c' = Checksums.len c - k ∧ mode_wf bs (Cow c') (len - amount) ∧
    sums c' = drop (Z.to_nat (k * 8)) (sums c).
Proof.
  intros (H8 & Hmax & [?|Hlen]) Hn Ham Hr; [lia|].
  pose proof (checksums_len_mul c H8) as HL.
  assert (0 ≤ k < Checksums.len c) by nia.
  unfold Checksums.offset_by. rewrite u64_mul_ok by lia. res_simpl.
  unfold rassert. bsplit; [|lia]. res_simpl. eexists; split; [reflexivity|].
  assert (Checksums.len (mkChecksums (drop (Z.to_nat (k * 8)) (sums c))) = Checksums.len c - k)
    as Hlen'.
  { unfold Checksums.len at 1. cbn [sums]. rewrite length_drop.
    replace (Z.of_nat _) with ((Checksums.len c - k) * 8) by lia. apply Z.div_mul. lia. }
  split_and!; [done|done| |done].
  cbn [mode_wf]. rewrite Hlen'. cbn [sums]. rewrite length_drop. split_and!; [|lia|right; nia].
  exists (Checksums.len c - k). lia.
Qed.

Lemma shrunk_cow c len newl k :
  mode_wf bs (Cow c) len → 0 < Checksums.len c → newl = k * bs → 0 < newl ≤ len →
  ∃ c', Checksums.shrunk c k = Ok c' ∧ len = Checksums.len c * bs ∧
    Checksums.len c' = k ∧ mode_wf bs (Cow c') newl ∧
    sums c' = take (Z.to_nat (k * 8)) (sums c).
Proof.
  intros (H8 & Hmax & [?|Hlen]) Hn Ham Hr; [lia|].
  pose proof (checksums_len_mul c H8) as HL.
  assert (0 < k ≤ Checksums.len c) by nia.
  unfold Checksums.shrunk. rewrite u64_mul_ok by lia. res_simpl.
  unfold rassert. bsplit; [|lia]. res_simpl. eexists; split; [reflexivity|].
  assert (Checksums.len (mkChecksums (take (Z.to_nat (k * 8)) (sums c))) = k) as Hlen'.
  { unfold Checksums.len at 1. cbn [sums]. rewrite length_take.
    replace (Z.of_nat _) with (k * 8) by lia. apply Z.div_mul. lia. }
  split_and!; [done|done| |done].
  cbn [mode_wf]. rewrite Hlen'. cbn [sums]. rewrite length_take. split_and!; [|lia|right; nia].
  exists k. lia.
Qed.

Lemma empty_cow_wf len :
  mode_wf bs (Cow (Checksums.fletcher [])) len.
Proof. cbn. split_and!; [exists 0; lia|done|by left]. Qed.

Lemma mode_at_no_checksums c len o : Checksums.len c ≤ 0 → mode_at (Cow c) len o = BNoChecksum.
Proof. intros. cbn [mode_at]. bsplit; [lia|done]. Qed.

Lemma offset_mode_spec mode len amount :
  mode_wf bs mode len → (bs | amount) → 0 ≤ amount < len →
  ∃ m', ExtentValue.offset_mode mode amount len = Ok m' ∧ mode_wf bs m' (len - amount) ∧
    ∀ o, 0 ≤ o < len - amount → mode_at m' (len - amount) o = mode_at mode len (amount + o).
Proof.
  intros Hm [k Hk] Hr. destruct mode as [|c|b|]; [by exists Raw| | |by exists Overwrite];
    cbn [ExtentValue.offset_mode].
  - destruct (Z.ltb_spec 0 (Checksums.len c)) as [Hn|Hn].
    + destruct (offset_by_cow c len amount k Hm Hn Hk Hr)
        as (c' & Hc' & Hlen & Hl' & Hwf' & Hs').
      rewrite u64_div_ok by lia. res_simpl. rewrite Hlen, table_per by done.
      rewrite u64_div_ok by lia. res_simpl. rewrite Hk, Z.div_mul by lia.
      rewrite Hc'. res_simpl. eexists; split; [reflexivity|].
      rewrite <- Hk, <- Hlen. split; [done|]. intros o Ho.
      assert (len - amount = Checksums.len c' * bs) as -> by nia.
      rewrite mode_at_cow by nia. rewrite Hlen, mode_at_cow by done.
      rewrite Hs', drop_drop. do 3 f_equal.
      rewrite Hk, (Z.add_comm (k * bs)), Z.div_add by lia.
      pose proof (Z.div_pos o bs ltac:(lia) ltac:(lia)). nia.
    + eexists; split; [reflexivity|]. split; [apply empty_cow_wf|].
      intros. rewrite !mode_at_no_checksums; done.
  - destruct Hm as [Hlen Hb].
    assert (0 < Z.of_nat (length b)) as Hn by (destruct b; simpl in *; [done|lia]).
    unfold rassert. bsplit; [|lia]. res_simpl.
    rewrite u64_div_ok by lia. res_simpl. rewrite Hlen, table_per by done.
    rewrite u64_div_ok by lia. res_simpl. rewrite Hk, Z.div_mul by lia.
    assert (0 ≤ k < Z.of_nat (length b)) by nia.
    unfold bitvec_split_off, rassert. bsplit; [|lia]. res_simpl.
    eexists; split; [reflexivity|].
    assert (Z.of_nat (length (drop (Z.to_nat k) b)) = Z.of_nat (length b) - k) as Hl'
      by (rewrite length_drop; lia).
    split.
    + split; [rewrite Hl'; lia|]. intros Hnil. rewrite Hnil in Hl'. simpl in Hl'. lia.
    + intros o Ho. cbn [mode_at]. rewrite Hl'.
      replace (Z.of_nat (length b) * bs - k * bs) with ((Z.of_nat (length b) - k) * bs) by lia.
      rewrite !block_index_mul by lia. rewrite lookup_drop. do 3 f_equal.
      rewrite (Z.add_comm (k * bs)), Z.div_add by lia.
      pose proof (Z.div_pos o bs ltac:(lia) ltac:(lia)). lia.
Qed.

Lemma shrunk_mode_spec mode len newl :
  mode_wf bs mode len → (bs | newl) → 0 < newl ≤ len →
  ∃ m', ExtentValue.shrunk_mode mode len newl = Ok m' ∧ mode_wf bs m' newl ∧
    ∀ o, 0 ≤ o < newl → mode_at m' newl o = mode_at mode len o.
Proof.
  intros Hm [k Hk] Hr. destruct mode as [|c|b|]; [by exists Raw| | |by exists Overwrite];
    cbn [ExtentValue.shrunk_mode].
  - destruct (Z.ltb_spec 0 (Checksums.len c)) as [Hn|Hn].
    + destruct (shrunk_cow c len newl k Hm Hn Hk Hr)
        as (c' & Hc' & Hlen & Hl' & Hwf' & Hs').
      rewrite u64_div_ok by lia. res_simpl. rewrite Hlen, table_per by done.
      rewrite u64_div_ok by lia. res_simpl. rewrite Hk, Z.div_mul by lia.
      rewrite Hc'. res_simpl. eexists; split; [reflexivity|].
      rewrite <- Hk. split; [done|]. intros o Ho.
      assert (newl = Checksums.len c' * bs) as -> by nia.
      rewrite mode_at_cow by nia. rewrite mode_at_cow by done.
      rewrite Hs'. f_equal.
      assert (0 ≤ o / bs < k).
      { split; [apply Z.div_pos; lia|]. apply Z.div_lt_upper_bound; nia. }
      rewrite !take_drop_commute, take_take. do 2 f_equal. lia.
    + eexists; split; [reflexivity|]. split; [apply empty_cow_wf|].
      intros. rewrite !mode_at_no_checksums; done.
  - destruct Hm as [Hlen Hb].
    assert (0 < Z.of_nat (length b)) as Hn by (destruct b; simpl in *; [done|lia]).
    unfold rassert. bsplit; [|lia]. res_simpl.
    rewrite u64_div_ok by lia. res_simpl. rewrite Hlen, table_per by done.
    rewrite u64_div_ok by lia. res_simpl. rewrite Hk, Z.div_mul by lia.
    assert (0 < k ≤ Z.of_nat (length b)) by nia.
    eexists; split; [reflexivity|]. unfold bitvec_truncate.
    assert (Z.of_nat (length (take (Z.to_nat k) b)) = k) as Hl' by (rewrite length_take; lia).
    split.
    + split; [by rewrite Hl'|]. intros Hnil. rewrite Hnil in Hl'. simpl in Hl'. lia.
    + intros o Ho. cbn [mode_at]. rewrite Hl'. rewrite !block_index_mul by lia.
      assert (0 ≤ o / bs < k).
      { split; [apply Z.div_pos; lia|]. apply Z.div_lt_upper_bound; nia. }
      rewrite lookup_take_lt by lia. done.
Qed.

(** [offset_by] returns the extent that begins [amount] bytes into the
    given one: it is well formed for the remaining length and agrees with the
    original on every remaining byte. *)
Theorem offset_by_spec v len amount :
  value_wf bs v len → (bs | amount) → 0 ≤ amount < len →
  ∃ v', ExtentValue.offset_by v amount len = Ok v' ∧ value_wf bs v' (len - amount) ∧
    ∀ o, 0 ≤ o < len - amount → extent_at v' (len - amount) o = extent_at v len (amount + o).
Proof.
  intros Hwf Hk Hr. destruct v as [|d mode key]; [by exists ENone|].
  destruct Hwf as (Hd & Hdl & Hm). cbn [ExtentValue.offset_by].
  destruct (offset_mode_spec mode len amount Hm Hk Hr) as (m' & -> & Hm' & Hat).
  res_simpl. rewrite u64_add_ok by lia. res_simpl.
  eexists; split; [reflexivity|]. split.
  - cbn [value_wf]. split_and!; [lia|lia|done].
  - intros o Ho. cbn [extent_at]. rewrite Hat by done. do 3 f_equal. lia.
Qed.

(** [shrunk] returns the extent cut to its first [new_len] bytes: it is
    well formed for that length and agrees with the original on each of them. *)
Theorem shrunk_spec v len newl :
  value_wf bs v len → (bs | newl) → 0 < newl ≤ len →
  ∃ v', ExtentValue.shrunk v len newl = Ok v' ∧ value_wf bs v' newl ∧
    ∀ o, 0 ≤ o < newl → extent_at v' newl o = extent_at v len o.
Proof.
  intros Hwf Hk Hr. destruct v as [|d mode key]; [by exists ENone|].
  destruct Hwf as (Hd & Hdl & Hm). cbn [ExtentValue.shrunk].
  destruct (shrunk_mode_spec mode len newl Hm Hk Hr) as (m' & -> & Hm' & Hat).
  res_simpl. eexists; split; [reflexivity|]. split.
  - cbn [value_wf]. split_and!; [lia|lia|done].
  - intros o Ho. cbn [extent_at]. by rewrite Hat.
Qed.
End cut.

(** ** Instances *)
Lemma overlap_witness :
  ExtentKey.overlap (ExtentKey.new (0 ..< 100)) (ExtentKey.new (50 ..< 150)) = Some (50 ..< 100) ∧
  ∀ p, in_orange p (ExtentKey.overlap (ExtentKey.new (0 ..< 100)) (ExtentKey.new (50 ..< 150))) ↔
    in_range p (0 ..< 100) ∧ in_range p (50 ..< 150).
Proof.
  split; [reflexivity|].
  apply (overlap_spec (ExtentKey.new (0 ..< 100)) (ExtentKey.new (50 ..< 150))); by vm_compute.
Defined.

Lemma fuzzy_hash_partition_witness :
  ∃ r, ExtentKey.fuzzy_hash_partition (ExtentKey.new ((2 ^ 20 - 1) ..< (2 ^ 20 + 1))) = Ok r ∧
    ExtentKeyPartitionIterator.collect 3 r = Some (bucket <$> seqZ 0 2).
Proof.
  destruct (fuzzy_hash_partition_spec (ExtentKey.new ((2 ^ 20 - 1) ..< (2 ^ 20 + 1))))
    as (r & Hr & Hc); [by vm_compute|].
  exists r. split; [exact Hr|]. rewrite Hc by (vm_compute; lia). reflexivity.
Defined.

Lemma overlapping_keys_share_partition_witness :
  ∃ ra rb la lb fuel,
    ExtentKey.fuzzy_hash_partition (ExtentKey.new (0 ..< 2 ^ 21)) = Ok ra ∧
    ExtentKey.fuzzy_hash_partition (ExtentKey.new ((2 ^ 20) ..< (2 ^ 20 + 10))) = Ok rb ∧
    ExtentKeyPartitionIterator.collect fuel ra = Some la ∧
    ExtentKeyPartitionIterator.collect fuel rb = Some lb ∧
    bucket 1 ∈ la ∧ bucket 1 ∈ lb ∧ in_range (2 ^ 20 + 5) (bucket 1).
Proof.
  apply (overlapping_keys_share_partition (ExtentKey.new (0 ..< 2 ^ 21))
    (ExtentKey.new ((2 ^ 20) ..< (2 ^ 20 + 10))) (2 ^ 20 + 5)); by vm_compute.
Defined.

Lemma offset_by_witness :
  ∃ v', ExtentValue.offset_by (ESome 8192 (OverwritePartial [true; false; true]) 7) 512 1536 = Ok v' ∧
    extent_at v' 1024 600 = Some (8192 + 1112, 7, BWritten true).
Proof.
  destruct (offset_by_spec 512 ltac:(by vm_compute) (ESome 8192 (OverwritePartial [true; false; true]) 7)
    1536 512) as (v' & Hv & _ & Hat); [by vm_compute|by exists 1|by vm_compute|].
  exists v'. split; [exact Hv|]. change 1024 with (1536 - 512). rewrite Hat by lia. reflexivity.
Defined.

Lemma shrunk_witness :
  ∃ v', ExtentValue.shrunk (ESome 8192 (OverwritePartial [true; false; true]) 7) 1536 1024 = Ok v' ∧
    extent_at v' 1024 600 = Some (8192 + 600, 7, BWritten false).
Proof.
  destruct (shrunk_spec 512 ltac:(by vm_compute) (ESome 8192 (OverwritePartial [true; false; true]) 7)
    1536 1024) as (v' & Hv & _ & Hat); [by vm_compute|by exists 2|by vm_compute|].
  exists v'. split; [exact Hv|]. rewrite Hat by lia. reflexivity.
Defined.
