(* ===== verification/LsmTypes.v ===== *)
(** * The types of the LSM tree

    [fxfs/src/lsm_tree/types.rs]: items, the orders a key supports, layers and
    their iterators.  The traits are type classes; the contract each promises
    its clients is stated here as laws and discharged by the instances. *)

From S2P Require Import Prelude.

(** ** Items *)
Record Item (K V : Type) : Type := mkItem { key : K; value : V; sequence : Z }.
Arguments mkItem {K V} _ _ _.
Arguments key {K V} _.
Arguments value {K V} _.
Arguments sequence {K V} _.

#[global] Instance Item_eq_dec `{EqDecision K, EqDecision V} : EqDecision (Item K V).
Proof. solve_decision. Defined.

Module Item.
Definition new {K V} (k : K) (v : V) : Item K V := mkItem k v 0.
Definition new_with_sequence {K V} (k : K) (v : V) (s : Z) : Item K V := mkItem k v s.
End Item.

(** ** Key traits *)
Class OrdUpperBound (K : Type) := cmp_upper_bound : K → K → comparison.
Class OrdLowerBound (K : Type) := cmp_lower_bound : K → K → comparison.

(** [==] of two keys, which may be coarser than equality. *)
Class KeyEq (K : Type) := key_eqb : K → K → bool.

Inductive MergeType : Set := FullMerge | OptimizedMerge.

(** [next_key] and [search_key] may overflow for keys that are ranges. *)
Class LayerKey (K : Type) := {
  merge_type : K → MergeType;
  next_key : K → res (option K);
  search_key : K → res K;
}.

Class RangeKey (K : Type) := overlaps : K → K → bool.

Class FuzzyHash (K : Type) := fuzzy_hash : K → res (list Z).

(** [FuzzyHash::is_range_key]: no key type overrides the default. *)
Definition is_range_key {K : Type} (k : K) : bool := false.

Inductive ItemCount : Set :=
| Precise (n : Z)
| Estimate (n : Z).
Definition item_count (c : ItemCount) : Z :=
  match c with Precise size => size | Estimate size => size end.

(** ** Iterators

    A [dyn LayerIterator] is what it has left to yield, and the error that
    [advance] returns past the last item it can read, if any. *)
Record LayerIterator (K V : Type) : Type := mkIter {
  remaining : list (Item K V);
  fails : option error;
}.
Arguments mkIter {K V} _ _.
Arguments remaining {K V} _.
Arguments fails {K V} _.

Module LayerIterator.
Section ops.
Context {K V : Type}.
Implicit Types it : LayerIterator K V.

Definition get it : option (Item K V) := head (remaining it).

Definition advance it : res (LayerIterator K V) :=
  match remaining it with
  | [] => Ok it
  | [_] => match fails it with
           | None => Ok (mkIter [] None)
           | Some e => Err e
           end
  | _ :: l => Ok (mkIter l (fails it))
  end.
End ops.
End LayerIterator.

(** [FilterLayerIterator]: [skip_filtered] advances to the next item that
    satisfies the predicate. *)
Module FilterLayerIterator.
Section filter.
Context {K V : Type} (predicate : Item K V → bool).

Fixpoint skip_filtered_loop (fuel : nat) (it : LayerIterator K V)
    : res (LayerIterator K V) :=
  match fuel with
  | O => NoFuel
  | S fuel =>
      match LayerIterator.get it with
      | Some item =>
          if predicate item then Ok it
          else it' ← LayerIterator.advance it; skip_filtered_loop fuel it'
      | None => Ok it
      end
  end.
Definition skip_filtered (it : LayerIterator K V) : res (LayerIterator K V) :=
  skip_filtered_loop (S (length (remaining it))) it.

Definition new (it : LayerIterator K V) : res (LayerIterator K V) := skip_filtered it.

Definition advance (it : LayerIterator K V) : res (LayerIterator K V) :=
  it' ← LayerIterator.advance it; skip_filtered it'.

Definition get (it : LayerIterator K V) : option (Item K V) := LayerIterator.get it.

(** Every item the filtered iterator yields. *)
Fixpoint collect (fuel : nat) (it : LayerIterator K V) : res (list (Item K V)) :=
  match fuel with
  | O => NoFuel
  | S fuel =>
      match get it with
      | None => Ok []
      | Some item => it' ← advance it; rest ← collect fuel it'; Ok (item :: rest)
      end
  end.
End filter.
End FilterLayerIterator.

(** ** Layers *)
Record Layer (K V : Type) : Type := mkLayer {
  seek : Bound K → res (LayerIterator K V);
  maybe_contains_key : K → res bool;
  estimated_len : ItemCount;
}.
Arguments mkLayer {K V} _ _ _.
Arguments seek {K V} _ _.
Arguments maybe_contains_key {K V} _ _.
Arguments estimated_len {K V} _.

(** [LayerIteratorMut].  The operations dereference the layer's nodes, so an
    implementation may panic. *)
Class LayerIteratorMut (I K V : Type) := {
  lim_get : I → res (option (Item K V));
  lim_advance : I → res I;
  lim_insert : I → Item K V → res I;
  lim_erase : I → res I;
  lim_commit : I → res I;
}.

(** What a mutable iterator promises [merge_into]: it stands between the items
    before it and the items after it; [insert] places an item just before the
    current one, [erase] drops the current one, and once committed the layer
    holds the former followed by the latter. *)
Class LayerIteratorMutLaws (I K V : Type) `{LayerIteratorMut I K V} := {
  lim_rep : I → list (Item K V) → list (Item K V) → Prop;
  lim_contents : I → list (Item K V) → Prop;
  lim_get_rep : ∀ i b a, lim_rep i b a → lim_get i = Ok (head a);
  lim_advance_rep : ∀ i b x a, lim_rep i b (x :: a) →
    ∃ i', lim_advance i = Ok i' ∧ lim_rep i' (b ++ [x]) a;
  lim_insert_rep : ∀ i b a x, lim_rep i b a →
    ∃ i', lim_insert i x = Ok i' ∧ lim_rep i' (b ++ [x]) a;
  lim_erase_rep : ∀ i b x a, lim_rep i b (x :: a) →
    ∃ i', lim_erase i = Ok i' ∧ lim_rep i' b a;
  lim_commit_rep : ∀ i b a, lim_rep i b a →
    ∃ i', lim_commit i = Ok i' ∧ lim_contents i' (b ++ a);
}.

(** ** Properties *)

(** [seek] finds the first item at or above the bound in upper-bound order;
    [items] are the items of the layer. *)
Definition at_or_above `{OrdUpperBound K} {V} (b : Bound K) (i : Item K V) : bool :=
  match b with
  | Unbounded => true
  | Included k => match cmp_upper_bound (key i) k with Lt => false | _ => true end
  | Excluded k => match cmp_upper_bound (key i) k with Gt => true | _ => false end
  end.

Fixpoint drop_until {A} (f : A → bool) (l : list A) : list A :=
  match l with
  | [] => []
  | x :: l' => if f x then l else drop_until f l'
  end.

(** The layer that holds the given items. *)
Definition layer_of_items `{OrdUpperBound K} {V} (items : list (Item K V)) : Layer K V :=
  mkLayer (λ b, Ok (mkIter (drop_until (at_or_above b) items) None))
          (λ _, Ok true) (Precise (Z.of_nat (length items))).

Section filter_props.
Context {K V : Type} (P : Item K V → bool).

Lemma skip_filtered_loop_spec l fuel :
  (length l < fuel)%nat →
  FilterLayerIterator.skip_filtered_loop P fuel (mkIter l None) =
    Ok (mkIter (drop_until P l) None).
Proof.
  revert fuel; induction l as [|x l IH]; intros fuel Hf; (destruct fuel as [|fuel]; [simpl in Hf; lia|]).
  - done.
  - cbn. destruct (P x); [done|].
    rewrite <- (IH fuel) by (simpl in *; lia). by destruct l.
Qed.

Lemma skip_filtered_spec l :
  FilterLayerIterator.skip_filtered P (mkIter l None) = Ok (mkIter (drop_until P l) None).
Proof. apply skip_filtered_loop_spec. simpl. lia. Qed.

Lemma filter_drop_until l :
  filter (λ x, P x = true) l =
    match drop_until P l with [] => [] | x :: l' => x :: filter (λ x, P x = true) l' end.
Proof.
  induction l as [|x l IH]; [done|]. rewrite filter_cons. simpl.
  destruct (P x); [done|]. rewrite IH. done.
Qed.

Lemma drop_until_length l : (length (drop_until P l) ≤ length l)%nat.
Proof. induction l as [|x l IH]; simpl; [lia|]. destruct (P x); simpl; lia. Qed.

Lemma filter_collect_spec l fuel :
  (length l < fuel)%nat →
  FilterLayerIterator.collect P fuel (mkIter (drop_until P l) None) =
    Ok (filter (λ x, P x = true) l).
Proof.
  revert l; induction fuel as [|fuel IH]; intros l Hf; [lia|].
  rewrite filter_drop_until. pose proof (drop_until_length l).
  destruct (drop_until P l) as [|x l'] eqn:E; [done|].
  cbn [FilterLayerIterator.collect]. cbn -[FilterLayerIterator.advance].
  assert (FilterLayerIterator.advance P (mkIter (x :: l') None) =
            Ok (mkIter (drop_until P l') None)) as ->.
  { unfold FilterLayerIterator.advance.
    replace (LayerIterator.advance (mkIter (x :: l') None)) with (Ok (mkIter l' None))
      by by destruct l'.
    apply skip_filtered_spec. }
  res_simpl. rewrite IH by (simpl in *; lia). done.
Qed.
End filter_props.

(** A filtered iterator yields exactly the items of the underlying iterator
    that satisfy the predicate, in order, and then ends. *)
Theorem filter_layer_iterator_spec {K V} (P : Item K V → bool) (l : list (Item K V)) :
  ∃ it fuel, FilterLayerIterator.new P (mkIter l None) = Ok it ∧
    FilterLayerIterator.collect P fuel it = Ok (filter (λ x, P x = true) l).
Proof.
  exists (mkIter (drop_until P l) None), (S (length l)). split.
  - apply skip_filtered_spec.
  - apply filter_collect_spec. lia.
Qed.
