(* ===== verification/ObjectRecord.v ===== *)
(** * Records of an object store

    [fxfs/src/object_store/object_record.rs]: the keys and values of the LSM
    tree of an object store, the orders of the keys, and the conversions from
    older versions.  Strings are sequences of characters; a name in a directory
    that ignores case is compared by its normal form, which comes from
    generated tables and is a parameter here: [UnicodeNfd] shows that
    [casefold_cmp] compares such forms. *)

From S2P Require Import Prelude Round Checksum Extent LsmTypes.

(** ** Keys *)

(** [ObjectDescriptorV32]. *)
Inductive ObjectDescriptor : Set := DFile | DDirectory | DVolume | DSymlink.

(** [ProjectPropertyV32]. *)
Inductive ProjectProperty : Set := Limit | Usage.

(** [AttributeKeyV32]. *)
Inductive AttributeKey : Set :=
| AKAttribute
| AKExtent (key : ExtentKey).

(** [ObjectKeyDataV43]; a [CasefoldString] is its characters. *)
Inductive ObjectKeyData : Set :=
| KObject
| KKeys
| KAttribute (attribute_id : Z) (key : AttributeKey)
| KChild (name : list Z)
| KGraveyardEntry (object_id : Z)
| KProject (project_id : Z) (property : ProjectProperty)
| KExtendedAttribute (name : list Z)
| KGraveyardAttributeEntry (object_id attribute_id : Z)
| KEncryptedChild (casefold_hash : Z) (name : list Z)
| KCasefoldChild (name : list Z).

(** [ObjectKeyDataV40]. *)
Inductive ObjectKeyDataV40 : Set :=
| KObjectV40
| KKeysV40
| KAttributeV40 (attribute_id : Z) (key : AttributeKey)
| KChildV40 (name : list Z)
| KGraveyardEntryV40 (object_id : Z)
| KProjectV40 (project_id : Z) (property : ProjectProperty)
| KExtendedAttributeV40 (name : list Z)
| KGraveyardAttributeEntryV40 (object_id attribute_id : Z)
| KEncryptedChildV40 (name : list Z)
| KCasefoldChildV40 (name : list Z).

Definition object_key_data_v43_from_v40 (item : ObjectKeyDataV40) : ObjectKeyData :=
  match item with
  | KObjectV40 => KObject
  | KKeysV40 => KKeys
  | KAttributeV40 a b => KAttribute a b
  | KChildV40 name => KChild name
  | KGraveyardEntryV40 object_id => KGraveyardEntry object_id
  | KProjectV40 project_id property => KProject project_id property
  | KExtendedAttributeV40 name => KExtendedAttribute name
  | KGraveyardAttributeEntryV40 object_id attribute_id => KGraveyardAttributeEntry object_id attribute_id
  | KEncryptedChildV40 name => KEncryptedChild 0 name
  | KCasefoldChildV40 name => KCasefoldChild name
  end.

(** [ObjectKeyV43]. *)
Record ObjectKey : Set := mkObjectKey { object_id : Z; data : ObjectKeyData }.

#[global] Instance ProjectProperty_eq_dec : EqDecision ProjectProperty.
Proof. solve_decision. Defined.
#[global] Instance AttributeKey_eq_dec : EqDecision AttributeKey.
Proof. solve_decision. Defined.
#[global] Instance ObjectKeyData_eq_dec : EqDecision ObjectKeyData.
Proof. solve_decision. Defined.
#[global] Instance ObjectKey_eq_dec : EqDecision ObjectKey.
Proof. solve_decision. Defined.

Module ObjectKey.
Definition object (object_id : Z) : ObjectKey := mkObjectKey object_id KObject.
Definition keys (object_id : Z) : ObjectKey := mkObjectKey object_id KKeys.
Definition attribute (object_id attribute_id : Z) (key : AttributeKey) : ObjectKey :=
  mkObjectKey object_id (KAttribute attribute_id key).
Definition extent (object_id attribute_id : Z) (r : range) : ObjectKey :=
  mkObjectKey object_id (KAttribute attribute_id (AKExtent (ExtentKey.new r))).
Definition from_extent (object_id attribute_id : Z) (extent : ExtentKey) : ObjectKey :=
  mkObjectKey object_id (KAttribute attribute_id (AKExtent extent)).
Definition child (object_id : Z) (name : list Z) (casefold : bool) : ObjectKey :=
  if casefold then mkObjectKey object_id (KCasefoldChild name) else mkObjectKey object_id (KChild name).
Definition encrypted_child (object_id : Z) (name : list Z) (casefold_hash : Z) : ObjectKey :=
  mkObjectKey object_id (KEncryptedChild casefold_hash name).
Definition graveyard_entry (graveyard_object_id object_id : Z) : ObjectKey :=
  mkObjectKey graveyard_object_id (KGraveyardEntry object_id).
Definition graveyard_attribute_entry (graveyard_object_id object_id attribute_id : Z) : ObjectKey :=
  mkObjectKey graveyard_object_id (KGraveyardAttributeEntry object_id attribute_id).
Definition project_limit (object_id project_id : Z) : ObjectKey := mkObjectKey object_id (KProject project_id Limit).
Definition project_usage (object_id project_id : Z) : ObjectKey := mkObjectKey object_id (KProject project_id Usage).
Definition extended_attribute (object_id : Z) (name : list Z) : ObjectKey :=
  mkObjectKey object_id (KExtendedAttribute name).

Definition get_leading_u64 (k : ObjectKey) : Z := object_id k.

Definition key_for_merge_into (k : ObjectKey) : ObjectKey :=
  match k with
  | mkObjectKey oid (KAttribute attribute_id (AKExtent e)) =>
      attribute oid attribute_id (AKExtent (ExtentKey.key_for_merge_into e))
  | _ => k
  end.

Definition merge_type (k : ObjectKey) : MergeType :=
  match data k with
  | KProject _ Usage => FullMerge
  | _ => OptimizedMerge
  end.

Definition next_key (k : ObjectKey) : res (option ObjectKey) :=
  match data k with
  | KAttribute attribute_id (AKExtent e) =>
      end' ← u64_add (end_ (ek_range e)) 1;
      Ok (Some (mkObjectKey (object_id k) (KAttribute attribute_id (AKExtent (mkExtentKey (end_ (ek_range e) ..< end'))))))
  | _ => Ok None
  end.

Definition search_key (k : ObjectKey) : res ObjectKey :=
  match k with
  | mkObjectKey oid (KAttribute attribute_id (AKExtent e)) =>
      e' ← ExtentKey.search_key e; Ok (attribute oid attribute_id (AKExtent e'))
  | _ => Ok k
  end.
End ObjectKey.

(** ** Orders *)

(** The derived orders: of sequences, and of the variants by their position. *)
Fixpoint seq_cmp (a b : list Z) : comparison :=
  match a, b with
  | [], [] => Eq
  | [], _ :: _ => Lt
  | _ :: _, [] => Gt
  | x :: a, y :: b => cmp_then (x ?= y) (seq_cmp a b)
  end.

Definition property_cmp (a b : ProjectProperty) : comparison :=
  match a, b with Limit, Usage => Lt | Usage, Limit => Gt | _, _ => Eq end.

Definition attribute_key_cmp (a b : AttributeKey) : comparison :=
  match a, b with
  | AKAttribute, AKAttribute => Eq
  | AKAttribute, AKExtent _ => Lt
  | AKExtent _, AKAttribute => Gt
  | AKExtent a, AKExtent b => ExtentKey.cmp a b
  end.

Definition variant (d : ObjectKeyData) : Z :=
  match d with
  | KObject => 0 | KKeys => 1 | KAttribute _ _ => 2 | KChild _ => 3 | KGraveyardEntry _ => 4 | KProject _ _ => 5
  | KExtendedAttribute _ => 6 | KGraveyardAttributeEntry _ _ => 7 | KEncryptedChild _ _ => 8 | KCasefoldChild _ => 9
  end.

Section keys.
(** The normal form that [casefold_cmp] compares. *)
Context (normal_form : list Z → list Z).

Definition data_cmp (a b : ObjectKeyData) : comparison :=
  match a, b with
  | KAttribute i k, KAttribute i' k' => cmp_then (i ?= i') (attribute_key_cmp k k')
  | KChild n, KChild n' => seq_cmp n n'
  | KGraveyardEntry i, KGraveyardEntry i' => i ?= i'
  | KProject i p, KProject i' p' => cmp_then (i ?= i') (property_cmp p p')
  | KExtendedAttribute n, KExtendedAttribute n' => seq_cmp n n'
  | KGraveyardAttributeEntry i j, KGraveyardAttributeEntry i' j' => cmp_then (i ?= i') (j ?= j')
  | KEncryptedChild h n, KEncryptedChild h' n' => cmp_then (h ?= h') (seq_cmp n n')
  | KCasefoldChild n, KCasefoldChild n' => seq_cmp (normal_form n) (normal_form n')
  | _, _ => variant a ?= variant b
  end.

(** [ObjectKeyData::eq]: as the order, names without regard to case. *)
Definition data_eq (a b : ObjectKeyData) : bool := match data_cmp a b with Eq => true | _ => false end.

Definition object_cmp_upper_bound (a b : ObjectKey) : comparison :=
  cmp_then (object_id a ?= object_id b)
    match data a, data b with
    | KAttribute i (AKExtent e), KAttribute i' (AKExtent e') => cmp_then (i ?= i') (ExtentKey.cmp_upper_bound e e')
    | _, _ => data_cmp (data a) (data b)
    end.

Definition object_cmp_lower_bound (a b : ObjectKey) : comparison :=
  cmp_then (object_id a ?= object_id b)
    match data a, data b with
    | KAttribute i (AKExtent e), KAttribute i' (AKExtent e') => cmp_then (i ?= i') (ExtentKey.cmp_lower_bound e e')
    | _, _ => data_cmp (data a) (data b)
    end.

Definition object_overlaps (a b : ObjectKey) : bool :=
  if negb (object_id a =? object_id b) then false
  else
    match data a, data b with
    | KAttribute i (AKExtent l), KAttribute i' (AKExtent r) =>
        if i =? i' then
          (start (ek_range r) <? end_ (ek_range l)) && (start (ek_range l) <? end_ (ek_range r))
        else data_eq (data a) (data b)
    | a, b => data_eq a b
    end.

(** [fuzzy_hash], collected; [hash] is what [FxHasher] makes of a key. *)
Definition object_fuzzy_hash (hash : ObjectKey → Z) (fuel : nat) (k : ObjectKey) : res (list Z) :=
  match data k with
  | KAttribute attr_id (AKExtent e) =>
      r ← ExtentKey.fuzzy_hash_partition e;
      match ExtentKeyPartitionIterator.collect fuel r with
      | None => NoFuel
      | Some l => Ok (map (λ r, hash (ObjectKey.extent (object_id k) attr_id r)) l)
      end
  | _ => Ok [hash k]
  end.
End keys.

(** ** Values *)

(** [TimestampV32]. *)
Record Timestamp : Set := mkTimestamp { secs : Z; nanos : Z }.

Module Timestamp.
Definition NSEC_PER_SEC : Z := 1000000000.
Definition zero : Timestamp := mkTimestamp 0 0.
Definition from_nanos (nanos : Z) : Timestamp := mkTimestamp (nanos / NSEC_PER_SEC) (nanos `mod` NSEC_PER_SEC).
(** [checked_mul] and [checked_add]. *)
Definition as_nanos (t : Timestamp) : Z :=
  if NSEC_PER_SEC * secs t <=? u64_max then
    if NSEC_PER_SEC * secs t + nanos t <=? u64_max then NSEC_PER_SEC * secs t + nanos t else 0
  else 0.
End Timestamp.

(** [ObjectKindV41]; the wrapping key id is a [u128]. *)
Inductive ObjectKind : Set :=
| KindFile (refs : Z)
| KindDirectory (sub_dirs : Z) (wrapping_key_id : option Z) (casefold : bool)
| KindGraveyard
| KindSymlink (refs : Z) (link : list Z).

Inductive ObjectKindV40 : Set :=
| KindFileV40 (refs : Z) (has_overwrite_extents : bool)
| KindDirectoryV40 (sub_dirs : Z) (wrapping_key_id : option Z) (casefold : bool)
| KindGraveyardV40
| KindSymlinkV40 (refs : Z) (link : list Z).

Inductive ObjectKindV38 : Set :=
| KindFileV38 (refs : Z) (has_overwrite_extents : bool)
| KindDirectoryV38 (sub_dirs : Z)
| KindGraveyardV38
| KindSymlinkV38 (refs : Z) (link : list Z).

Inductive ObjectKindV32 : Set :=
| KindFileV32 (refs : Z)
| KindDirectoryV32 (sub_dirs : Z)
| KindGraveyardV32
| KindSymlinkV32 (refs : Z) (link : list Z).

Definition object_kind_v41_from_v40 (value : ObjectKindV40) : ObjectKind :=
  match value with
  | KindFileV40 refs _ => KindFile refs
  | KindDirectoryV40 sub_dirs wrapping_key_id casefold => KindDirectory sub_dirs wrapping_key_id casefold
  | KindGraveyardV40 => KindGraveyard
  | KindSymlinkV40 refs link => KindSymlink refs link
  end.

Definition object_kind_v40_from_v38 (value : ObjectKindV38) : ObjectKindV40 :=
  match value with
  | KindFileV38 refs has_overwrite_extents => KindFileV40 refs has_overwrite_extents
  | KindDirectoryV38 sub_dirs => KindDirectoryV40 sub_dirs None false
  | KindGraveyardV38 => KindGraveyardV40
  | KindSymlinkV38 refs link => KindSymlinkV40 refs link
  end.

Definition object_kind_v38_from_v32 (value : ObjectKindV32) : ObjectKindV38 :=
  match value with
  | KindFileV32 refs => KindFileV38 refs false
  | KindDirectoryV32 sub_dirs => KindDirectoryV38 sub_dirs
  | KindGraveyardV32 => KindGraveyardV38
  | KindSymlinkV32 refs link => KindSymlinkV38 refs link
  end.

(** [WrappedKeyV40] of [fxfs/crypto/src/lib.rs], and a file's keys by their id. *)
Record WrappedKey : Set := mkWrappedKey { wrapping_key_id : Z; wrapped_key : list Z }.

(** [EncryptionKeysV40]. *)
Inductive EncryptionKeys : Set := AES256XTS (keys : list (Z * WrappedKey)).

(** [PosixAttributesV32]. *)
Record PosixAttributes : Set := mkPosix { mode : Z; uid : Z; gid : Z; rdev : Z }.

(** [ObjectAttributesV32]. *)
Record ObjectAttributes : Set := mkAttributes {
  creation_time : Timestamp;
  modification_time : Timestamp;
  project_id : Z;
  posix_attributes : option PosixAttributes;
  allocated_size : Z;
  access_time : Timestamp;
  change_time : Timestamp;
}.

(** [ExtendedAttributeValueV32]. *)
Inductive ExtendedAttributeValue : Set :=
| Inline (value : list Z)
| AttributeId (id : Z).

(** [ChildValueV32]. *)
Record ChildValue : Set := mkChild { child_object_id : Z; object_descriptor : ObjectDescriptor }.

(** [RootDigestV33] and [FsverityMetadataV33]. *)
Inductive RootDigest : Set :=
| Sha256 (digest : list Z)
| Sha512 (digest : list Z).
Record FsverityMetadata : Set := mkFsverity { root_digest : RootDigest; salt : list Z }.

(** [ObjectValueV41]. *)
Inductive ObjectValue : Set :=
| VNone
| VSome
| VObject (kind : ObjectKind) (attributes : ObjectAttributes)
| VKeys (keys : EncryptionKeys)
| VAttribute (size : Z) (has_overwrite_extents : bool)
| VExtent (value : ExtentValue)
| VChild (value : ChildValue)
| VTrim
| VBytesAndNodes (bytes nodes : Z)
| VExtendedAttribute (value : ExtendedAttributeValue)
| VVerifiedAttribute (size : Z) (fsverity_metadata : FsverityMetadata).

#[global] Instance ObjectDescriptor_eq_dec : EqDecision ObjectDescriptor.
Proof. solve_decision. Defined.
#[global] Instance Timestamp_eq_dec : EqDecision Timestamp.
Proof. solve_decision. Defined.
#[global] Instance ObjectKind_eq_dec : EqDecision ObjectKind.
Proof. solve_decision. Defined.
#[global] Instance WrappedKey_eq_dec : EqDecision WrappedKey.
Proof. solve_decision. Defined.
#[global] Instance EncryptionKeys_eq_dec : EqDecision EncryptionKeys.
Proof. solve_decision. Defined.
#[global] Instance PosixAttributes_eq_dec : EqDecision PosixAttributes.
Proof. solve_decision. Defined.
#[global] Instance ObjectAttributes_eq_dec : EqDecision ObjectAttributes.
Proof. solve_decision. Defined.
#[global] Instance ExtendedAttributeValue_eq_dec : EqDecision ExtendedAttributeValue.
Proof. solve_decision. Defined.
#[global] Instance ChildValue_eq_dec : EqDecision ChildValue.
Proof. solve_decision. Defined.
#[global] Instance RootDigest_eq_dec : EqDecision RootDigest.
Proof. solve_decision. Defined.
#[global] Instance FsverityMetadata_eq_dec : EqDecision FsverityMetadata.
Proof. solve_decision. Defined.
#[global] Instance ObjectValue_eq_dec : EqDecision ObjectValue.
Proof. solve_decision. Defined.

(** [ObjectValueV40]. *)
Inductive ObjectValueV40 : Set :=
| VNoneV40
| VSomeV40
| VObjectV40 (kind : ObjectKindV40) (attributes : ObjectAttributes)
| VKeysV40 (keys : EncryptionKeys)
| VAttributeV40 (size : Z)
| VExtentV40 (value : ExtentValue)
| VChildV40 (value : ChildValue)
| VTrimV40
| VBytesAndNodesV40 (bytes nodes : Z)
| VExtendedAttributeV40 (value : ExtendedAttributeValue)
| VVerifiedAttributeV40 (size : Z) (fsverity_metadata : FsverityMetadata).

Definition object_value_v41_from_v40 (value : ObjectValueV40) : ObjectValue :=
  match value with
  | VNoneV40 => VNone
  | VSomeV40 => VSome
  | VObjectV40 kind attributes => VObject (object_kind_v41_from_v40 kind) attributes
  | VKeysV40 keys => VKeys keys
  | VAttributeV40 size => VAttribute size false
  | VExtentV40 extent_value => VExtent extent_value
  | VChildV40 child => VChild child
  | VTrimV40 => VTrim
  | VBytesAndNodesV40 bytes nodes => VBytesAndNodes bytes nodes
  | VExtendedAttributeV40 xattr => VExtendedAttribute xattr
  | VVerifiedAttributeV40 size fsverity_metadata => VVerifiedAttribute size fsverity_metadata
  end.

Module ObjectValue.
Definition DELETED_MARKER : ObjectValue := VNone.

Definition file (refs allocated_size : Z) (creation_time modification_time access_time change_time : Timestamp)
    (project_id : Z) (posix_attributes : option PosixAttributes) : ObjectValue :=
  VObject (KindFile refs)
    (mkAttributes creation_time modification_time project_id posix_attributes allocated_size access_time change_time).
Definition keys (keys : EncryptionKeys) : ObjectValue := VKeys keys.
Definition attribute (size : Z) (has_overwrite_extents : bool) : ObjectValue := VAttribute size has_overwrite_extents.
Definition verified_attribute (size : Z) (fsverity_metadata : FsverityMetadata) : ObjectValue :=
  VVerifiedAttribute size fsverity_metadata.
Definition extent (device_offset key_id : Z) : ObjectValue := VExtent (ExtentValue.new_raw device_offset key_id).
Definition extent_with_checksum (device_offset : Z) (checksum : Checksums) (key_id : Z) : ObjectValue :=
  VExtent (ExtentValue.with_checksum device_offset checksum key_id).
Definition deleted_extent : ObjectValue := VExtent ExtentValue.deleted_extent.
Definition child (object_id : Z) (object_descriptor : ObjectDescriptor) : ObjectValue :=
  VChild (mkChild object_id object_descriptor).
Definition symlink (link : list Z) (creation_time modification_time : Timestamp) (project_id : Z) : ObjectValue :=
  VObject (KindSymlink 1 link)
    (mkAttributes creation_time modification_time project_id None 0 Timestamp.zero Timestamp.zero).
Definition inline_extended_attribute (value : list Z) : ObjectValue := VExtendedAttribute (Inline value).
Definition extended_attribute (attribute_id : Z) : ObjectValue := VExtendedAttribute (AttributeId attribute_id).
End ObjectValue.

Abbreviation ObjectItem := (Item ObjectKey ObjectValue).

(** [ObjectKeyV40], and the items of older versions. *)
Record ObjectKeyV40 : Set := mkObjectKeyV40 { object_id_v40 : Z; data_v40 : ObjectKeyDataV40 }.

Definition object_item_v43_from_v41 (item : Item ObjectKeyV40 ObjectValue) : ObjectItem :=
  mkItem (mkObjectKey (object_id_v40 (key item)) (object_key_data_v43_from_v40 (data_v40 (key item)))) (value item)
    (sequence item).
Definition object_item_v41_from_v40 (item : Item ObjectKeyV40 ObjectValueV40) : Item ObjectKeyV40 ObjectValue :=
  mkItem (key item) (object_value_v41_from_v40 (value item)) (sequence item).

Module ObjectItem.
Definition is_tombstone (i : ObjectItem) : bool :=
  match i with mkItem (mkObjectKey _ KObject) VNone _ => true | _ => false end.

(** The extent that an item describes. *)
Definition extent (i : ObjectItem) : option (Z * Z * ExtentKey * ExtentValue) :=
  match i with
  | mkItem (mkObjectKey oid (KAttribute attribute_id (AKExtent extent_key))) (VExtent extent_value) _ =>
      Some (oid, attribute_id, extent_key, extent_value)
  | _ => None
  end.
End ObjectItem.
