(* ===== verification/Merge.v ===== *)
(** * The merger

    [fxfs/src/lsm_tree/merge.rs]: the iterator that merges the layers of an LSM
    tree ([Merger], [MergerIterator]) and [merge_into], which merges one item
    into the mutable layer.  Both are driven by a merge function that looks at
    two items and says what to emit and what becomes of each.

    Logging and tracing are left out.  The iterators the code passes around by
    [&mut] are owned by exactly one of the pending list, the heap and the
    current item at any time, so they are values here. *)

From S2P Require Import Prelude LsmTypes.

Inductive ItemOp (K V : Type) : Type :=
| Keep
| Discard
| Replace (item : Item K V).
Arguments Keep {K V}.
Arguments Discard {K V}.
Arguments Replace {K V} _.

Inductive MergeResult (K V : Type) : Type :=
| EmitLeft
| MergeOther (emit : option (Item K V)) (left right : ItemOp K V).
Arguments EmitLeft {K V}.
Arguments MergeOther {K V} _ _ _.

(** What a merge function sees of a [MergeLayerIterator]: its current item and
    the index of its layer. *)
Record MergeView (K V : Type) : Type := mkView {
  mv_item : Item K V;
  mv_layer_index : Z;
}.
Arguments mkView {K V} _ _.
Arguments mv_item {K V} _.
Arguments mv_layer_index {K V} _.

Definition MergeFn (K V : Type) : Type := MergeView K V → MergeView K V → res (MergeResult K V).

Inductive MergeItem (K V : Type) : Type :=
| MINone
| MIItem (item : Item K V)
| MIIter.
Arguments MINone {K V}.
Arguments MIItem {K V} _.
Arguments MIIter {K V}.

(** [RawIterator], without the [Mut] variant that only [merge_into] builds. *)
Inductive RawIterator (K V : Type) : Type :=
| RINone
| RIConst (iter : LayerIterator K V).
Arguments RINone {K V}.
Arguments RIConst {K V} _.

Record MergeLayerIterator (K V : Type) : Type := mkMLI {
  mli_layer : option (Layer K V);
  mli_iter : RawIterator K V;
  layer_index : Z;
  mli_item : MergeItem K V;
}.
Arguments mkMLI {K V} _ _ _ _.
Arguments mli_layer {K V} _.
Arguments mli_iter {K V} _.
Arguments layer_index {K V} _.
Arguments mli_item {K V} _.

Module MergeLayerIterator.
Section ops.
Context {K V : Type} `{OrdLowerBound K}.
Implicit Types m : MergeLayerIterator K V.

Definition new (layer_index : Z) (layer : Layer K V) : MergeLayerIterator K V :=
  mkMLI (Some layer) RINone layer_index MINone.

Definition get m : res (option (Item K V)) :=
  match mli_iter m with
  | RINone => Panic
  | RIConst iter => Ok (LayerIterator.get iter)
  end.

Definition item m : res (Item K V) :=
  match mli_item m with
  | MINone => Panic
  | MIItem item => Ok item
  | MIIter => o ← get m; unwrap o
  end.

Definition view m : res (MergeView K V) := i ← item m; Ok (mkView i (layer_index m)).

Definition set_item m (i : MergeItem K V) : MergeLayerIterator K V :=
  mkMLI (mli_layer m) (mli_iter m) (layer_index m) i.
Definition set_iter m (r : RawIterator K V) : MergeLayerIterator K V :=
  mkMLI (mli_layer m) r (layer_index m) (mli_item m).

Definition set_item_from_iter m : res (MergeLayerIterator K V) :=
  o ← get m;
  Ok (set_item m (match o with Some _ => MIIter | None => MINone end)).

Definition take_item m : option (Item K V) * MergeLayerIterator K V :=
  match mli_item m with
  | MIItem item => (Some item, set_item m MINone)
  | _ => (None, m)
  end.

Definition advance m : res (MergeLayerIterator K V) :=
  m ←
    match mli_item m with
    | MIIter =>
        match mli_iter m with
        | RIConst iter => iter' ← LayerIterator.advance iter; Ok (set_iter m (RIConst iter'))
        | RINone => Panic
        end
    | _ => Ok m
    end;
  set_item_from_iter m.

Definition replace m (i : Item K V) : MergeLayerIterator K V := set_item m (MIItem i).

Definition is_some m : bool :=
  match mli_item m with MINone => false | _ => true end.

Definition maybe_advance m (op : ItemOp K V) : res (MergeLayerIterator K V) :=
  match op with
  | Keep => Ok m
  | _ => advance m
  end.

(** [Ord::cmp], reversed so that the heap yields the least key first. *)
Definition cmp (self other : MergeLayerIterator K V) : res comparison :=
  o ← item other; s ← item self;
  Ok (cmp_then (cmp_lower_bound (key o) (key s)) (layer_index other ?= layer_index self)).
End ops.
End MergeLayerIterator.

(** ** [std::collections::BinaryHeap]

    A list; [pop] takes the greatest element. *)
Section heap.
Context {K V : Type} `{OrdLowerBound K}.

Fixpoint heap_pop (h : list (MergeLayerIterator K V))
    : res (option (MergeLayerIterator K V * list (MergeLayerIterator K V))) :=
  match h with
  | [] => Ok None
  | x :: h =>
      r ← heap_pop h;
      match r with
      | None => Ok (Some (x, []))
      | Some (y, rest) =>
          c ← MergeLayerIterator.cmp x y;
          Ok (match c with Lt => Some (y, x :: rest) | _ => Some (x, y :: rest) end)
      end
  end.

Definition heap_peek (h : list (MergeLayerIterator K V))
    : res (option (MergeLayerIterator K V)) :=
  r ← heap_pop h; Ok (match r with Some (x, _) => Some x | None => None end).
End heap.

Inductive CurrentItem (K V : Type) : Type :=
| CINone
| CIItem (item : Item K V)
| CIIterator (m : MergeLayerIterator K V).
Arguments CINone {K V}.
Arguments CIItem {K V} _.
Arguments CIIterator {K V} _.

Inductive Query (K : Type) : Type :=
| Point (k : K)
| LimitedRange (k : K)
| FullRange (k : K)
| FullScan.
Arguments Point {K} _.
Arguments LimitedRange {K} _.
Arguments FullRange {K} _.
Arguments FullScan {K}.

Definition needs_layer {K V} (q : Query K) (l : Layer K V) : res bool :=
  match q with
  | Point k => maybe_contains_key l k
  | LimitedRange k => maybe_contains_key l k
  | FullRange _ => Ok true
  | FullScan => Ok true
  end.

(** [lsm_tree::Counters]. *)
Record Counters : Set := mkCounters {
  num_seeks : Z;
  layer_files_total : Z;
  layer_files_skipped : Z;
}.

(** [MergerIterator].  [pending_iterators] is a [Vec] built in reverse and
    popped from its end: the list is in the order they are popped. *)
Record MergerIterator (K V : Type) : Type := mkMI {
  merge_fn : MergeFn K V;
  pending_iterators : list (MergeLayerIterator K V);
  heap : list (MergeLayerIterator K V);
  mi_item : CurrentItem K V;
}.
Arguments mkMI {K V} _ _ _ _.
Arguments merge_fn {K V} _.
Arguments pending_iterators {K V} _.
Arguments heap {K V} _.
Arguments mi_item {K V} _.

Module MergerIterator.
Section ops.
Context {K V : Type} `{OrdLowerBound K, OrdUpperBound K, LayerKey K}.
Implicit Types it : MergerIterator K V.

Definition set_heap it h : MergerIterator K V :=
  mkMI (merge_fn it) (pending_iterators it) h (mi_item it).
Definition set_item it i : MergerIterator K V :=
  mkMI (merge_fn it) (pending_iterators it) (heap it) i.
Definition set_pending it p : MergerIterator K V :=
  mkMI (merge_fn it) p (heap it) (mi_item it).

(** [LayerIterator::get]. *)
Definition get it : res (option (Item K V)) :=
  match mi_item it with
  | CINone => Ok None
  | CIItem item => Ok (Some item)
  | CIIterator m => i ← MergeLayerIterator.item m; Ok (Some i)
  end.

Definition update_item (h : list (MergeLayerIterator K V)) (m : MergeLayerIterator K V)
    (op : ItemOp K V) : list (MergeLayerIterator K V) :=
  match op with
  | Keep => m :: h
  | Discard => if MergeLayerIterator.is_some m then m :: h else h
  | Replace r => MergeLayerIterator.replace m r :: h
  end.

(** One turn of the inner loop of [advance_impl]. *)
Inductive flow : Set := Return | Break | Continue.

Definition merge_step it : res (MergerIterator K V * flow) :=
  r ← heap_pop (heap it);
  match r with
  | None => Ok (set_item it CINone, Return)
  | Some (lowest, h) =>
      r ← heap_pop h;
      match r with
      | None => Ok (set_item (set_heap it h) (CIIterator lowest), Break)
      | Some (second_lowest, h) =>
          l ← MergeLayerIterator.view lowest;
          s ← MergeLayerIterator.view second_lowest;
          result ← merge_fn it l s;
          match result with
          | EmitLeft =>
              Ok (set_item (set_heap it (second_lowest :: h)) (CIIterator lowest), Break)
          | MergeOther emit lop rop =>
              lowest ← MergeLayerIterator.maybe_advance lowest lop;
              second_lowest ← MergeLayerIterator.maybe_advance second_lowest rop;
              let h := update_item (update_item h lowest lop) second_lowest rop in
              match emit with
              | Some e => Ok (set_item (set_heap it h) (CIItem e), Break)
              | None => Ok (set_heap it h, Continue)
              end
          end
      end
  end.

(** Whether the current item is to be skipped over. *)
Definition before_bound it (next_key_bound : Bound K) : res bool :=
  match next_key_bound with
  | Unbounded => Ok false
  | Included k =>
      o ← get it; i ← unwrap o;
      Ok (match cmp_upper_bound (key i) k with Lt => true | _ => false end)
  | Excluded k =>
      o ← get it; i ← unwrap o;
      Ok (match cmp_upper_bound (key i) k with Gt => false | _ => true end)
  end.

(** The end of the outer loop: drop the current item and go on. *)
Definition skip_current it : res (MergerIterator K V) :=
  match mi_item it with
  | CIIterator m =>
      let it := set_item it CINone in
      m ← MergeLayerIterator.advance m;
      Ok (if MergeLayerIterator.is_some m then set_heap it (m :: heap it) else it)
  | _ => Ok it
  end.

Fixpoint advance_impl (fuel : nat) (next_key_bound : Bound K) it
    : res (MergerIterator K V) :=
  match fuel with
  | O => NoFuel
  | S fuel =>
      '(it, f) ← merge_step it;
      match f with
      | Return => Ok it
      | Continue => advance_impl fuel next_key_bound it
      | Break =>
          skip ← before_bound it next_key_bound;
          if (skip : bool) then it ← skip_current it; advance_impl fuel next_key_bound it
          else Ok it
      end
  end.

Definition needs_more_iterators it (next_key : option K) (next_key_bound : Bound K)
    : res bool :=
  match pending_iterators it with
  | [] => Ok false
  | _ =>
      match heap it with
      | [] => Ok true
      | _ =>
          match next_key_bound with
          | Excluded _ | Unbounded => Ok true
          | Included target =>
              match merge_type target with
              | FullMerge => Ok true
              | OptimizedMerge =>
                  o ← heap_peek (heap it); top ← unwrap o;
                  i ← MergeLayerIterator.item top;
                  match next_key with
                  | Some k =>
                      Ok (match cmp_lower_bound (key i) k with Gt => true | _ => false end)
                  | None =>
                      Ok (match cmp_lower_bound (key i) target with Eq => false | _ => true end)
                  end
              end
          end
      end
  end.

(** One turn per pending iterator at most. *)
Fixpoint push_iterators_loop (fuel : nat) it (next_key : option K) (next_key_bound : Bound K)
    : res (MergerIterator K V) :=
  more ← needs_more_iterators it next_key next_key_bound;
  if (more : bool) then
    match fuel, pending_iterators it with
    | S fuel, iter :: pending =>
        layer ← unwrap (mli_layer iter);
        sub_iter ← seek layer next_key_bound;
        iter ← MergeLayerIterator.set_item_from_iter
                 (MergeLayerIterator.set_iter iter (RIConst sub_iter));
        let it := set_pending it pending in
        let it := if MergeLayerIterator.is_some iter then set_heap it (iter :: heap it) else it in
        push_iterators_loop fuel it next_key next_key_bound
    | _, [] => Panic
    | O, _ => NoFuel
    end
  else Ok it.
Definition push_iterators it next_key next_key_bound : res (MergerIterator K V) :=
  push_iterators_loop (length (pending_iterators it)) it next_key next_key_bound.

Definition seek_ (fuel : nat) it (bound : Bound K) : res (MergerIterator K V) :=
  next_key ← match bound with
             | Unbounded => Ok None
             | Included k => Ok (Some k)
             | Excluded _ => Panic
             end;
  it ← push_iterators it next_key bound;
  advance_impl fuel bound it.

(** [LayerIterator::advance]. *)
Definition advance (fuel : nat) it : res (MergerIterator K V) :=
  '(next_key, next_key_bound) ←
    match pending_iterators it with
    | [] => Ok (None, Unbounded)
    | _ =>
        o ← get it;
        match o with
        | None => Ok (None, Unbounded)
        | Some i =>
            nk ← next_key (key i);
            Ok (nk, match nk with None => Excluded (key i) | Some k => Included k end)
        end
    end;
  it ←
    match mi_item it with
    | CIIterator iterator =>
        let it := set_item it CINone in
        more ← needs_more_iterators it next_key next_key_bound;
        '(iterator, it) ←
          (if (more : bool) then
             existing_item ← MergeLayerIterator.item iterator;
             iterator ← MergeLayerIterator.advance iterator;
             stay ←
               match next_key with
               | Some nk =>
                   if MergeLayerIterator.is_some iterator then
                     i ← MergeLayerIterator.item iterator;
                     Ok (match cmp_lower_bound (key i) nk with Gt => false | _ => true end)
                   else Ok false
               | None => Ok false
               end;
             if (stay : bool) then Ok (iterator, it)
             else
               let iterator := MergeLayerIterator.replace iterator existing_item in
               it ← push_iterators it next_key next_key_bound;
               Ok (iterator, it)
           else
             iterator ← MergeLayerIterator.advance iterator;
             Ok (iterator, it));
        Ok (if MergeLayerIterator.is_some iterator
            then set_heap it (iterator :: heap it) else it)
    | _ => push_iterators it next_key next_key_bound
    end;
  advance_impl fuel next_key_bound it.
End ops.
End MergerIterator.

(** [Merger]. *)
Record Merger (K V : Type) : Type := mkMerger {
  iterators : list (MergeLayerIterator K V);
  mg_merge_fn : MergeFn K V;
  counters : Counters;
}.
Arguments mkMerger {K V} _ _ _.
Arguments iterators {K V} _.
Arguments mg_merge_fn {K V} _.
Arguments counters {K V} _.

Module Merger.
Section ops.
Context {K V : Type} `{OrdLowerBound K, OrdUpperBound K, LayerKey K}.

(** [index as u16]. *)
Definition new (layers : list (Layer K V)) (merge_fn : MergeFn K V) (c : Counters)
    : Merger K V :=
  mkMerger (imap (λ index layer, MergeLayerIterator.new (Z.of_nat index `mod` 65536) layer)
                 layers) merge_fn c.

(** [is_range_key] of the key of a point query is the debug assertion. *)
Definition query (is_range_key : K → bool) (fuel : nat) (self : Merger K V) (q : Query K)
    : res (MergerIterator K V * Counters) :=
  match q with Point k => rassert (negb (is_range_key k)) | _ => Ok tt end ≫= λ _,
  let len := Z.of_nat (length (iterators self)) in
  pending ← foldr (λ m acc,
              rest ← acc;
              layer ← unwrap (mli_layer m);
              needed ← needs_layer q layer;
              Ok (if needed : bool then m :: rest else rest))
            (Ok []) (iterators self);
  let layer_count := Z.of_nat (length pending) in
  let c := mkCounters (num_seeks (counters self) + 1)
             (layer_files_total (counters self) + len)
             (layer_files_skipped (counters self) + (len - layer_count)) in
  let it := mkMI (mg_merge_fn self) pending [] CINone in
  bound ← match q with
          | Point k => Ok (Included k)
          | LimitedRange k => s ← search_key k; Ok (Included s)
          | FullRange start => Ok (Included start)
          | FullScan => Ok Unbounded
          end;
  it ← MergerIterator.seek_ fuel it bound;
  Ok (it, c).
End ops.
End Merger.

(** Reading an iterator to its end: the [while let Some(item) = iter.get()]
    loop of the compactions and scans. *)
Fixpoint collect {K V} `{OrdLowerBound K, OrdUpperBound K, LayerKey K} (fuel : nat)
    (it : MergerIterator K V) : res (list (Item K V)) :=
  match fuel with
  | O => NoFuel
  | S fuel' =>
      o ← MergerIterator.get it;
      match o with
      | None => Ok []
      | Some i =>
          it ← MergerIterator.advance fuel it;
          rest ← collect fuel' it;
          Ok (i :: rest)
      end
  end.

(** A merge of whole layers, newest first. *)
Definition merge_layers {K V} `{OrdLowerBound K, OrdUpperBound K, LayerKey K} (fuel : nat)
    (layers : list (Layer K V)) (mf : MergeFn K V) : res (list (Item K V)) :=
  '(it, _) ← Merger.query (λ _, false) fuel (Merger.new layers mf (mkCounters 0 0 0)) FullScan;
  collect fuel it.

(** ** [merge_into] *)
Section merge_into.
Context {I K V : Type} `{OrdLowerBound K} `{LayerIteratorMut I K V}.

(** The two merge iterators of the loop: the mutable layer's (its underlying
    iterator and its item) and the item being merged in. *)
Record MergeInto : Type := mkMergeInto {
  mut_iter : I;
  mut_item : MergeItem K V;
  new_item : MergeItem K V;
}.

Definition from_iter (i : I) : res (MergeItem K V) :=
  o ← lim_get i; Ok (match o with Some _ => MIIter | None => MINone end).

(** [MergeLayerIterator::item] of either. *)
Definition mut_current (s : MergeInto) : res (Item K V) :=
  match mut_item s with
  | MINone => Panic
  | MIItem i => Ok i
  | MIIter => o ← lim_get (mut_iter s); unwrap o
  end.
Definition new_current (s : MergeInto) : res (Item K V) :=
  match new_item s with
  | MINone => Panic
  | MIItem i => Ok i
  | MIIter => Panic
  end.

Definition mi_is_some (i : MergeItem K V) : bool :=
  match i with MINone => false | _ => true end.

(** [set_item_from_iter] once the iterator is [iter]. *)
Definition set_item_from_iter (iter : I) (s : MergeInto) : res MergeInto :=
  m ← from_iter iter; Ok (mkMergeInto iter m (new_item s)).

(** The current item of the underlying iterator, if that is where the item
    is, is erased. *)
Definition erase_current (s : MergeInto) : res I :=
  match mut_item s with MIIter => lim_erase (mut_iter s) | _ => Ok (mut_iter s) end.

(** What an [ItemOp] does to the mutable layer's side. *)
Definition apply_mut (op : ItemOp K V) (s : MergeInto) : res MergeInto :=
  match op with
  | Keep => Ok s
  | Discard => iter ← erase_current s; set_item_from_iter iter s
  | Replace item => iter ← erase_current s; Ok (mkMergeInto iter (MIItem item) (new_item s))
  end.

(** What an [ItemOp] does to the item being merged in. *)
Definition apply_new (op : ItemOp K V) (s : MergeInto) : MergeInto :=
  match op with
  | Keep => s
  | Discard => mkMergeInto (mut_iter s) (mut_item s) MINone
  | Replace item => mkMergeInto (mut_iter s) (mut_item s) (MIItem item)
  end.

Definition apply_emit (emit : option (Item K V)) (s : MergeInto) : res MergeInto :=
  match emit with
  | None => Ok s
  | Some e => iter ← lim_insert (mut_iter s) e; Ok (mkMergeInto iter (mut_item s) (new_item s))
  end.

(** [MergeResult::EmitLeft] when the mutable layer's item is left. *)
Definition emit_mut (s : MergeInto) : res MergeInto :=
  match mut_item s with
  | MIItem item => iter ← lim_insert (mut_iter s) item; set_item_from_iter iter s
  | MIIter => iter ← lim_advance (mut_iter s); set_item_from_iter iter s
  | MINone => set_item_from_iter (mut_iter s) s
  end.

(** One turn of the loop; [false] is the [break]. *)
Definition merge_into_step (merge_fn : MergeFn K V) (s : MergeInto) : res (MergeInto * bool) :=
  m ← mut_current s; n ← new_current s;
  match cmp_then (cmp_lower_bound (key n) (key m)) Lt with
  | Gt =>
      r ← merge_fn (mkView m 1) (mkView n 0);
      match r with
      | EmitLeft => s ← emit_mut s; Ok (s, true)
      | MergeOther emit lop rop =>
          s ← apply_emit emit s; s ← apply_mut lop s; Ok (apply_new rop s, true)
      end
  | _ =>
      r ← merge_fn (mkView n 0) (mkView m 1);
      match r with
      | EmitLeft => Ok (s, false)
      | MergeOther emit lop rop =>
          s ← apply_emit emit s; s ← apply_mut rop (apply_new lop s); Ok (s, true)
      end
  end.

Fixpoint merge_into_loop (fuel : nat) (merge_fn : MergeFn K V) (s : MergeInto)
    : res MergeInto :=
  match fuel with
  | O => NoFuel
  | S fuel =>
      if mi_is_some (mut_item s) && mi_is_some (new_item s) then
        '(s, go) ← merge_into_step merge_fn s;
        if (go : bool) then merge_into_loop fuel merge_fn s else Ok s
      else Ok s
  end.

Definition insert_item (item : MergeItem K V) (iter : I) : res I :=
  match item with MIItem item => lim_insert iter item | _ => Ok iter end.

Definition merge_into (fuel : nat) (iter : I) (item : Item K V) (merge_fn : MergeFn K V)
    : res I :=
  m ← from_iter iter;
  s ← merge_into_loop fuel merge_fn (mkMergeInto iter m (MIItem item));
  iter ← insert_item (new_item s) (mut_iter s);
  iter ← insert_item (mut_item s) iter;
  lim_commit iter.
End merge_into.
Arguments MergeInto : clear implicits.
