(* ===== verification/MergeProps.v ===== *)
(** * The merger refines an abstract merge

    The heap of [MergeLayerIterator]s is seen as a list of streams, one per
    layer: the items the layer has still to contribute.  [scans] is the merge
    of such a list as a rule system that knows nothing of iterators, heaps or
    current items; the code of [Merge.v] is shown to compute it. *)

From S2P Require Import Prelude LsmTypes Merge.

(** A three-way comparison that is a total preorder. *)
Class TotalCmp {A} (cmp : A → A → comparison) := {
  cmp_opp : ∀ a b, cmp a b = CompOpp (cmp b a);
  cmp_le_trans : ∀ a b c, cmp a b ≠ Gt → cmp b c ≠ Gt → cmp a c ≠ Gt;
}.
Lemma cmp_refl {A} (cmp : A → A → comparison) `{!TotalCmp cmp} a : cmp a a = Eq.
Proof. pose proof (cmp_opp a a) as H. by destruct (cmp a a). Qed.

(** An entry of the abstract heap: a layer index and a stream. *)
Abbreviation entry K V := (Z * list (Item K V))%type.

Section abstract.
Context {K V : Type} `{OrdLowerBound K} (mf : MergeFn K V).
Implicit Types (A : list (entry K V)) (s : list (Item K V)).

(** An entry comes before another when its first item does, the layer index
    breaking ties. *)
Definition entry_le (e1 e2 : entry K V) : Prop :=
  match e1.2, e2.2 with
  | x :: _, y :: _ => cmp_then (cmp_lower_bound (key x) (key y)) (e1.1 ?= e2.1) ≠ Gt
  | _, _ => True
  end.

Definition push (i : Z) s A : list (entry K V) :=
  match s with [] => A | _ => (i, s) :: A end.

(** What becomes of the entry [(i, x :: s)]. *)
Definition apply_op (op : ItemOp K V) (i : Z) (x : Item K V) s A : list (entry K V) :=
  match op with
  | Keep => (i, x :: s) :: A
  | Discard => push i s A
  | Replace r => (i, r :: s) :: A
  end.

(** [scans A out]: merging [A] yields [out]. *)
Inductive scans : list (entry K V) → list (Item K V) → Prop :=
| scans_nil : scans [] []
| scans_last A i x s out :
    A ≡ₚ [(i, x :: s)] →
    scans (push i s []) out →
    scans A (x :: out)
| scans_emit_left A i1 x1 s1 i2 x2 s2 A2 out :
    A ≡ₚ (i1, x1 :: s1) :: (i2, x2 :: s2) :: A2 →
    Forall (entry_le (i1, x1 :: s1)) ((i2, x2 :: s2) :: A2) →
    Forall (entry_le (i2, x2 :: s2)) A2 →
    mf (mkView x1 i1) (mkView x2 i2) = Ok EmitLeft →
    scans (push i1 s1 ((i2, x2 :: s2) :: A2)) out →
    scans A (x1 :: out)
| scans_other A i1 x1 s1 i2 x2 s2 A2 emit l r out :
    A ≡ₚ (i1, x1 :: s1) :: (i2, x2 :: s2) :: A2 →
    Forall (entry_le (i1, x1 :: s1)) ((i2, x2 :: s2) :: A2) →
    Forall (entry_le (i2, x2 :: s2)) A2 →
    mf (mkView x1 i1) (mkView x2 i2) = Ok (MergeOther emit l r) →
    scans (apply_op r i2 x2 s2 (apply_op l i1 x1 s1 A2)) out →
    scans A (option_list emit ++ out).

Lemma scans_perm A A' out : A ≡ₚ A' → scans A out → scans A' out.
Proof.
  intros Hp Hs. destruct Hs.
  - apply Permutation_nil in Hp as ->. constructor.
  - eapply scans_last; [by rewrite <- Hp|done].
  - eapply scans_emit_left; [by rewrite <- Hp|done..].
  - eapply scans_other; [by rewrite <- Hp|done..].
Qed.

(** What a turn of the merge may yield next. *)
Inductive yields A : Item K V → Prop :=
| yields_head i x s : (i, x :: s) ∈ A → yields A x
| yields_emitted i1 x1 s1 i2 x2 s2 A2 e l r :
    A ≡ₚ (i1, x1 :: s1) :: (i2, x2 :: s2) :: A2 →
    Forall (entry_le (i1, x1 :: s1)) ((i2, x2 :: s2) :: A2) →
    Forall (entry_le (i2, x2 :: s2)) A2 →
    mf (mkView x1 i1) (mkView x2 i2) = Ok (MergeOther (Some e) l r) → yields A e.

(** What a merge function promises the merger: on the states it is meant for
    ([mi_inv]) it never fails, the state it leads to is again one of those,
    and the work left ([mi_size]) decreases. *)
Class MergeInvariant (mi_inv : list (entry K V) → Prop) (mi_size : list (entry K V) → nat) := {
  mi_inv_perm : ∀ A A', A ≡ₚ A' → mi_inv A → mi_inv A';
  mi_size_perm : ∀ A A', A ≡ₚ A' → mi_size A = mi_size A';
  mi_last : ∀ i x s, mi_inv [(i, x :: s)] →
    mi_inv (push i s []) ∧ (mi_size (push i s []) < mi_size [(i, x :: s)])%nat;
  mi_step : ∀ i1 x1 s1 i2 x2 s2 A,
    mi_inv ((i1, x1 :: s1) :: (i2, x2 :: s2) :: A) →
    Forall (entry_le (i1, x1 :: s1)) ((i2, x2 :: s2) :: A) →
    Forall (entry_le (i2, x2 :: s2)) A →
    match mf (mkView x1 i1) (mkView x2 i2) with
    | Ok EmitLeft =>
        let A' := push i1 s1 ((i2, x2 :: s2) :: A) in
        mi_inv A' ∧ (mi_size A' < mi_size ((i1, x1 :: s1) :: (i2, x2 :: s2) :: A))%nat
    | Ok (MergeOther emit l r) =>
        let A' := apply_op r i2 x2 s2 (apply_op l i1 x1 s1 A) in
        mi_inv A' ∧ (mi_size A' < mi_size ((i1, x1 :: s1) :: (i2, x2 :: s2) :: A))%nat
    | _ => False
    end;
}.
End abstract.

Arguments mi_inv_perm {K V _} mf {mi_inv mi_size _} _ _ _ _.
Arguments mi_size_perm {K V _} mf {mi_inv mi_size _} _ _ _.
Arguments mi_last {K V _} mf {mi_inv mi_size _} _ _ _ _.
Arguments mi_step {K V _} mf {mi_inv mi_size _} _ _ _ _ _ _ _ _ _ _.

(** ** Streams *)
Section streams.
Context {K V : Type} `{OrdLowerBound K}.
Implicit Types m : MergeLayerIterator K V.

Definition stream m : list (Item K V) :=
  match mli_iter m, mli_item m with
  | RIConst it, MIIter => remaining it
  | RIConst it, MIItem i => i :: remaining it
  | RINone, MIItem i => [i]
  | _, _ => []
  end.

(** An iterator over a layer that can be read to its end. *)
Definition mli_ok m : Prop :=
  ∃ xs, mli_iter m = RIConst (mkIter xs None) ∧
    match mli_item m with
    | MIIter => xs ≠ []
    | MINone => xs = []
    | MIItem _ => True
    end.

Lemma item_stream m i s : mli_ok m → stream m = i :: s → MergeLayerIterator.item m = Ok i.
Proof.
  intros (xs & Hi & Hx). unfold stream, MergeLayerIterator.item, MergeLayerIterator.get.
  rewrite Hi. destruct (mli_item m); cbn; [done|by intros [= -> _]|].
  by intros ->.
Qed.

Lemma is_some_stream m : mli_ok m → MergeLayerIterator.is_some m = bool_decide (stream m ≠ []).
Proof.
  intros (xs & Hi & Hx). unfold stream, MergeLayerIterator.is_some. rewrite Hi.
  destruct (mli_item m); cbn; [done..|by destruct xs].
Qed.

(** [advance] drops the first item of the stream, and leaves the iterator
    ready for [replace]. *)
Lemma advance_stream m i s :
  mli_ok m → stream m = i :: s →
  ∃ m', MergeLayerIterator.advance m = Ok m' ∧ mli_ok m' ∧ stream m' = s ∧
    layer_index m' = layer_index m ∧
    ∀ r, mli_ok (MergeLayerIterator.replace m' r) ∧
         stream (MergeLayerIterator.replace m' r) = r :: s ∧
         layer_index (MergeLayerIterator.replace m' r) = layer_index m.
Proof.
  intros (xs & Hi & Hx) Hs. unfold stream in Hs. rewrite Hi in Hs.
  unfold MergeLayerIterator.advance.
  assert (∃ m1, match mli_item m with
      | MIIter =>
          match mli_iter m with
          | RINone => Panic
          | RIConst iter => iter' ← LayerIterator.advance iter;
                            Ok (MergeLayerIterator.set_iter m (RIConst iter'))
          end
      | _ => Ok m
      end = Ok m1 ∧ mli_iter m1 = RIConst (mkIter s None) ∧ layer_index m1 = layer_index m)
    as (m1 & -> & Hi1 & Hl1).
  { rewrite Hi. destruct (mli_item m) as [|j|]; cbn in Hs; [done| |].
    - injection Hs as -> ->. by exists m.
    - subst xs. exists (MergeLayerIterator.set_iter m (RIConst (mkIter s None))).
      by destruct s. }
  res_simpl. unfold MergeLayerIterator.set_item_from_iter, MergeLayerIterator.get.
  rewrite Hi1. res_simpl. eexists; split; [reflexivity|].
  split_and!.
  - exists s. cbn. split; [done|]. by destruct s.
  - unfold stream. cbn. rewrite Hi1. by destruct s.
  - done.
  - intros r. split_and!; [|unfold stream; cbn; by rewrite Hi1|done].
    exists s. by cbn.
Qed.

Definition abs_mli m : entry K V := (layer_index m, stream m).
Definition abs_heap (h : list (MergeLayerIterator K V)) : list (entry K V) := abs_mli <$> h.
Definition heap_ok (h : list (MergeLayerIterator K V)) : Prop :=
  Forall (λ m, mli_ok m ∧ stream m ≠ []) h.

Lemma heap_ok_perm h h' : h ≡ₚ h' → heap_ok h → heap_ok h'.
Proof. intros Hp. unfold heap_ok. by rewrite Hp. Qed.

Lemma abs_heap_perm h h' : h ≡ₚ h' → abs_heap h ≡ₚ abs_heap h'.
Proof. intros Hp. unfold abs_heap. by rewrite Hp. Qed.

(** Pushing an iterator when it has something left. *)
Lemma push_if_some h m :
  heap_ok h → mli_ok m →
  let h' := if MergeLayerIterator.is_some m then m :: h else h in
  heap_ok h' ∧ abs_heap h' = push (layer_index m) (stream m) (abs_heap h).
Proof.
  intros Hh Hm. rewrite is_some_stream by done.
  destruct (stream m) as [|x s] eqn:E; case_bool_decide; try done.
  split; [constructor; [by rewrite E|done]|].
  unfold abs_heap. rewrite fmap_cons. unfold abs_mli at 1. by rewrite E.
Qed.
End streams.

Section refinement.
Context {K V : Type} `{OrdLowerBound K} `{!TotalCmp (cmp_lower_bound (K:=K))}.
Context `{OrdUpperBound K, LayerKey K}.
Implicit Types m : MergeLayerIterator K V.

Lemma entry_le_trans e1 (e2 e3 : entry K V) :
  e2.2 ≠ [] → entry_le e1 e2 → entry_le e2 e3 → entry_le e1 e3.
Proof.
  unfold entry_le. destruct e1 as [i1 [|x1 s1]], e2 as [i2 [|x2 s2]], e3 as [i3 [|x3 s3]];
    try done. cbn. intros _ H12 H23.
  pose proof (cmp_le_trans (key x1) (key x2) (key x3)) as Ht.
  pose proof (cmp_opp (key x1) (key x2)) as O12.
  pose proof (cmp_opp (key x2) (key x3)) as O23.
  pose proof (cmp_opp (key x1) (key x3)) as O13.
  pose proof (cmp_le_trans (key x2) (key x3) (key x1)) as Ht2.
  pose proof (cmp_le_trans (key x3) (key x1) (key x2)) as Ht3.
  destruct (cmp_lower_bound (key x1) (key x2)) eqn:C12,
    (cmp_lower_bound (key x2) (key x3)) eqn:C23,
    (cmp_lower_bound (key x1) (key x3)) eqn:C13; cbn in *; try done;
    destruct (cmp_lower_bound (key x2) (key x1)), (cmp_lower_bound (key x3) (key x2)),
      (cmp_lower_bound (key x3) (key x1)); cbn in *; try done;
    try (exfalso; by apply Ht); try (exfalso; by apply Ht2); try (exfalso; by apply Ht3).
  rewrite Z.compare_gt_iff in *. lia.
Qed.

Lemma entry_le_total (e1 e2 : entry K V) : entry_le e1 e2 ∨ entry_le e2 e1.
Proof.
  unfold entry_le. destruct e1 as [i [|x s]], e2 as [j [|y t]]; cbn; try (by left). rewrite (cmp_opp (key y) (key x)).
  destruct (cmp_lower_bound (key x) (key y)); cbn; [|by left|by right]. rewrite !Z.compare_le_iff. lia.
Qed.

Lemma least_entry (A : list (entry K V)) : A ≠ [] → Forall (λ e, e.2 ≠ []) A →
  ∃ e rest, A ≡ₚ e :: rest ∧ Forall (entry_le e) rest.
Proof.
  induction A as [|a A IH]; [done|]. intros _ [Ha HA]%Forall_cons. destruct (decide (A = [])) as [->|Hne]; [by exists a, []|].
  destruct (IH Hne HA) as (e & rest & Hp & Hle). assert (e.2 ≠ []) as He by (rewrite Hp in HA; by apply Forall_cons in HA as [? _]).
  destruct (entry_le_total a e) as [Hae|Hea].
  - exists a, A. split; [done|]. rewrite Hp. constructor; [done|]. eapply Forall_impl; [exact Hle|]. intros e'. by apply entry_le_trans.
  - exists e, (a :: rest). split; [by rewrite Hp, Permutation_swap|]. by constructor.
Qed.

(** Every pile that the merge function is meant for can be merged. *)
Lemma scans_total (mf : MergeFn K V) inv size `{!MergeInvariant mf inv size} A :
  (∀ A, inv A → Forall (λ e, e.2 ≠ []) A) → inv A → ∃ out, scans mf A out.
Proof.
  intros Hne. remember (size A) as n eqn:Hn. revert A Hn. induction (lt_wf n) as [n _ IH]. intros A -> Hinv.
  destruct (decide (A = [])) as [->|HA]; [exists []; constructor|].
  destruct (least_entry A HA (Hne _ Hinv)) as ([i1 l1] & A1 & Hp & Hle). apply (mi_inv_perm mf _ _ Hp) in Hinv. rewrite (mi_size_perm mf _ _ Hp) in IH.
  pose proof (Hne _ Hinv) as [Hx1 Hx1']%Forall_cons. cbn in Hx1. destruct l1 as [|x1 s1]; [done|]. destruct (decide (A1 = [])) as [->|HA1].
  { destruct (mi_last mf _ _ _ Hinv) as [Hi Hs]. destruct (IH _ Hs _ eq_refl Hi) as [out Hout]. exists (x1 :: out). by eapply scans_last. }
  destruct (least_entry A1 HA1 Hx1') as ([i2 l2] & A2 & Hp2 & Hle2). rewrite Hp2 in Hp, Hle. rewrite Hp2 in Hx1'. apply Forall_cons in Hx1' as [Hx2 _]. cbn in Hx2.
  destruct l2 as [|x2 s2]; [done|]. assert ((i1, x1 :: s1) :: A1 ≡ₚ (i1, x1 :: s1) :: (i2, x2 :: s2) :: A2) as Hp3 by by rewrite Hp2.
  apply (mi_inv_perm mf _ _ Hp3) in Hinv. rewrite (mi_size_perm mf _ _ Hp3) in IH.
  pose proof (mi_step mf _ _ _ _ _ _ _ Hinv Hle Hle2) as Hstep. destruct (mf _ _) as [[|emit l r]| | |] eqn:Em; try done; destruct Hstep as [Hi Hs].
  - destruct (IH _ Hs _ eq_refl Hi) as [out Hout]. exists (x1 :: out). by eapply scans_emit_left.
  - destruct (IH _ Hs _ eq_refl Hi) as [out Hout]. exists (option_list emit ++ out). by eapply scans_other.
Qed.

(** [pop] yields an iterator that comes before all the others. *)
Lemma heap_pop_spec (h : list (MergeLayerIterator K V)) :
  heap_ok h → h ≠ [] →
  ∃ m rest, heap_pop h = Ok (Some (m, rest)) ∧ h ≡ₚ m :: rest ∧
    Forall (entry_le (abs_mli m)) (abs_heap rest).
Proof.
  induction h as [|x h IH]; [done|]. intros [[Hx Hxs] Hh]%Forall_cons _.
  cbn [heap_pop]. destruct (decide (h = [])) as [->|Hne].
  { exists x, []. split_and!; [done|done|constructor]. }
  destruct (IH Hh Hne) as (y & rest & -> & Hp & Hle). res_simpl.
  assert (mli_ok y ∧ stream y ≠ []) as [Hy Hys].
  { eapply (heap_ok_perm _ _ Hp) in Hh. by apply Forall_cons in Hh as [? _]. }
  unfold MergeLayerIterator.cmp.
  destruct (stream x) as [|ix sx] eqn:Ex; [done|].
  destruct (stream y) as [|iy sy] eqn:Ey; [done|].
  rewrite (item_stream y iy sy), (item_stream x ix sx) by done. res_simpl.
  pose proof (cmp_opp (key ix) (key iy)) as Hopp.
  pose proof (Z.compare_antisym (layer_index y) (layer_index x)) as Hanti.
  destruct (cmp_then (cmp_lower_bound (key iy) (key ix)) (layer_index y ?= layer_index x)) eqn:C;
    eexists _, _; (split; [reflexivity|]).
  1,3: split; [by rewrite Hp|];
    assert (entry_le (abs_mli x) (abs_mli y)) as Hxy by
      (unfold entry_le, abs_mli; rewrite Ex, Ey; cbn; rewrite Hopp;
       destruct (cmp_lower_bound (key iy) (key ix)); cbn in *; try done;
       rewrite Hanti, C; done);
    unfold abs_heap; rewrite fmap_cons; constructor; [done|];
    eapply Forall_impl; [exact Hle|]; intros e; apply entry_le_trans; [|done];
    unfold abs_mli; by rewrite Ey.
  split; [by rewrite Hp, Permutation_swap|].
  unfold abs_heap. rewrite fmap_cons. constructor; [|done].
  unfold entry_le, abs_mli; rewrite Ex, Ey; cbn.
  destruct (cmp_lower_bound (key iy) (key ix)); cbn in *; try done.
  by rewrite C.
Qed.

Lemma maybe_advance_update (h : list (MergeLayerIterator K V)) m x s op :
  heap_ok h → mli_ok m → stream m = x :: s →
  ∃ m', MergeLayerIterator.maybe_advance m op = Ok m' ∧
    heap_ok (MergerIterator.update_item h m' op) ∧
    abs_heap (MergerIterator.update_item h m' op) =
      apply_op op (layer_index m) x s (abs_heap h).
Proof.
  intros Hh Hm Hs. destruct op as [| |r]; cbn [MergeLayerIterator.maybe_advance].
  - exists m. split; [done|]. cbn [MergerIterator.update_item apply_op].
    split; [constructor; [by rewrite Hs|done]|]. unfold abs_heap. rewrite fmap_cons. unfold abs_mli at 1. by rewrite Hs.
  - destruct (advance_stream m x s Hm Hs) as (m' & -> & Hm' & Hs' & Hl' & _).
    exists m'. split; [done|]. cbn [MergerIterator.update_item apply_op].
    rewrite <- Hs', <- Hl'. by apply push_if_some.
  - destruct (advance_stream m x s Hm Hs) as (m' & -> & _ & _ & _ & Hr).
    destruct (Hr r) as (Hok & Hst & Hidx).
    exists m'. split; [done|]. cbn [MergerIterator.update_item apply_op].
    split; [constructor; [by rewrite Hst|done]|].
    unfold abs_heap. rewrite fmap_cons. unfold abs_mli at 1. by rewrite Hst, Hidx.
Qed.

(** The state of a full scan: all layers are on the heap. *)
Definition scan_ok (it : MergerIterator K V) : Prop :=
  pending_iterators it = [] ∧ heap_ok (heap it).

(** What is left to merge once the current item has been yielded. *)
Definition rest_of (it : MergerIterator K V) : list (entry K V) :=
  match mi_item it with
  | CIIterator m => push (layer_index m) (tail (stream m)) (abs_heap (heap it))
  | _ => abs_heap (heap it)
  end.

Definition item_ok (it : MergerIterator K V) : Prop :=
  match mi_item it with CIIterator m => mli_ok m ∧ stream m ≠ [] | _ => True end.

Definition no_iterator (it : MergerIterator K V) : Prop :=
  match mi_item it with CIIterator _ => False | _ => True end.

(** The outcome of one turn of the merge loop, for a merge function that keeps
    its promise. *)
Lemma merge_step_spec mf inv size `{!MergeInvariant mf inv size} it :
  merge_fn it = mf → heap_ok (heap it) → no_iterator it → inv (abs_heap (heap it)) →
  ∃ it' f, MergerIterator.merge_step it = Ok (it', f) ∧
    merge_fn it' = mf ∧ pending_iterators it' = pending_iterators it ∧ heap_ok (heap it') ∧
    match f with
    | MergerIterator.Return => heap it = [] ∧ mi_item it' = CINone ∧ heap it' = []
    | MergerIterator.Continue =>
        no_iterator it' ∧ inv (abs_heap (heap it')) ∧
        (size (abs_heap (heap it')) < size (abs_heap (heap it)))%nat ∧
        ∀ out, scans mf (abs_heap (heap it')) out → scans mf (abs_heap (heap it)) out
    | MergerIterator.Break =>
        item_ok it' ∧ inv (rest_of it') ∧
        (size (rest_of it') < size (abs_heap (heap it)))%nat ∧
        ∃ x, MergerIterator.get it' = Ok (Some x) ∧ yields mf (abs_heap (heap it)) x ∧
          ∀ out, scans mf (rest_of it') out → scans mf (abs_heap (heap it)) (x :: out)
    end.
Proof.
  intros Hmf Hheap Hno Hinv. unfold MergerIterator.merge_step.
  destruct (decide (heap it = [])) as [Hnil|Hne].
  { rewrite Hnil. cbn. do 2 eexists; split; [reflexivity|]. cbn.
    by split_and!. }
  destruct (heap_pop_spec (heap it) Hheap Hne) as (m1 & h1 & -> & Hp1 & Hle1). res_simpl.
  pose proof (heap_ok_perm _ _ Hp1 Hheap) as Hheap1.
  pose proof (abs_heap_perm _ _ Hp1) as Habs1.
  apply Forall_cons in Hheap1 as [[Hm1 Hs1] Hh1].
  destruct (stream m1) as [|x1 s1] eqn:E1; [done|]. clear Hs1.
  assert (abs_mli m1 = (layer_index m1, x1 :: s1)) as Hm1abs by (unfold abs_mli; by rewrite E1).
  rewrite Hm1abs in Hle1.
  change (abs_heap (m1 :: h1)) with (abs_mli m1 :: abs_heap h1) in Habs1. rewrite Hm1abs in Habs1.
  assert (MergeLayerIterator.item m1 = Ok x1) as Hi1 by by eapply item_stream.
  destruct (decide (h1 = [])) as [->|Hne1].
  { cbn. do 2 eexists; split; [reflexivity|].
    split; [done|]. split; [done|]. split; [exact Hh1|].
    unfold item_ok, rest_of. cbn. rewrite E1. cbn [tail].
    apply (mi_inv_perm mf _ _ Habs1) in Hinv. rewrite (mi_size_perm mf _ _ Habs1).
    destruct (mi_last mf _ _ _ Hinv) as [Hi Hs]. split_and!; [done|done|done|done|].
    exists x1. unfold MergerIterator.get. cbn. rewrite Hi1. split; [done|]. split.
    { apply (yields_head _ _ (layer_index m1) _ s1). rewrite Habs1. by left. }
    intros out Hout. by eapply scans_last. }
  destruct (heap_pop_spec h1 Hh1 Hne1) as (m2 & h2 & -> & Hp2 & Hle2). res_simpl.
  pose proof (heap_ok_perm _ _ Hp2 Hh1) as Hheap2.
  pose proof (abs_heap_perm _ _ Hp2) as Habs2.
  apply Forall_cons in Hheap2 as [[Hm2 Hs2] Hh2].
  destruct (stream m2) as [|x2 s2] eqn:E2; [done|]. clear Hs2.
  assert (abs_mli m2 = (layer_index m2, x2 :: s2)) as Hm2abs by (unfold abs_mli; by rewrite E2).
  rewrite Hm2abs in Hle2.
  change (abs_heap (m2 :: h2)) with (abs_mli m2 :: abs_heap h2) in Habs2. rewrite Hm2abs in Habs2.
  rewrite Habs2 in Hle1, Habs1.
  assert (MergeLayerIterator.item m2 = Ok x2) as Hi2 by by eapply item_stream.
  unfold MergeLayerIterator.view. rewrite Hi1, Hi2. res_simpl. rewrite Hmf.
  pose proof (mi_inv_perm mf _ _ Habs1 Hinv) as Hinv'.
  pose proof (mi_step mf _ _ _ _ _ _ _ Hinv' Hle1 Hle2) as Hstep.
  rewrite (mi_size_perm mf _ _ Habs1).
  destruct (mf (mkView x1 (layer_index m1)) (mkView x2 (layer_index m2)))
    as [[|emit l r]| | |] eqn:Emf; [| |done..]; res_simpl.
  - do 2 eexists; split; [reflexivity|]. destruct Hstep as [Hi Hs].
    unfold item_ok, rest_of. cbn. rewrite E1. cbn [tail].
    rewrite Hm2abs.
    split; [done|]. split; [done|]. split; [constructor; [by rewrite E2|done]|]. split_and!; [done..|].
    exists x1. rewrite Hi1. split; [done|]. split.
    { apply (yields_head _ _ (layer_index m1) _ s1). rewrite Habs1. by left. }
    intros out Hout. by eapply scans_emit_left.
  - destruct (maybe_advance_update h2 m1 x1 s1 l Hh2 Hm1 E1) as (m1' & -> & Hok1 & Hab1).
    res_simpl.
    destruct (maybe_advance_update _ m2 x2 s2 r Hok1 Hm2 E2) as (m2' & -> & Hok2 & Hab2).
    res_simpl. rewrite Hab1 in Hab2. destruct Hstep as [Hi Hs].
    destruct emit as [e|]; (do 2 eexists; split; [reflexivity|]).
    + unfold item_ok, rest_of, MergerIterator.get.
      cbn [mi_item MergerIterator.set_item MergerIterator.set_heap heap merge_fn]. rewrite Hab2.
      split; [done|]. split; [done|]. split; [done|]. split_and!; [done..|].
      exists e. split; [done|]. split; [by eapply yields_emitted|]. intros out Hout.
      change (e :: out) with (option_list (Some e) ++ out). by eapply scans_other.
    + unfold no_iterator. cbn [mi_item MergerIterator.set_item MergerIterator.set_heap heap merge_fn]. rewrite Hab2.
      split; [done|]. split; [done|]. split; [done|]. split_and!; [done..|].
      intros out Hout. change out with (option_list None ++ out). by eapply scans_other.
Qed.

Lemma before_bound_above (it : MergerIterator K V) b x :
  MergerIterator.get it = Ok (Some x) → MergerIterator.before_bound it b = Ok (negb (at_or_above b x)).
Proof.
  intros Hg. destruct b; unfold MergerIterator.before_bound, at_or_above; rewrite ?Hg; res_simpl; try done; by destruct (cmp_upper_bound _ _).
Qed.

(** The loop of [advance_impl] yields the next item of the merge, or ends it,
    when no item comes before the bound. *)
Lemma advance_impl_spec mf inv size `{!MergeInvariant mf inv size} bound fuel it :
  (∀ A x, inv A → yields mf A x → at_or_above bound x = true) →
  merge_fn it = mf → heap_ok (heap it) → no_iterator it → inv (abs_heap (heap it)) →
  (size (abs_heap (heap it)) < fuel)%nat →
  ∃ it', MergerIterator.advance_impl fuel bound it = Ok it' ∧
    merge_fn it' = mf ∧ pending_iterators it' = pending_iterators it ∧ heap_ok (heap it') ∧ item_ok it' ∧
    ((MergerIterator.get it' = Ok None ∧ scans mf (abs_heap (heap it)) []) ∨
     (∃ x, MergerIterator.get it' = Ok (Some x) ∧ inv (rest_of it') ∧
        (size (rest_of it') < size (abs_heap (heap it)))%nat ∧
        ∀ out, scans mf (rest_of it') out → scans mf (abs_heap (heap it)) (x :: out))).
Proof.
  intros Hb. revert it; induction fuel as [|fuel IH]; intros it Hmf Hok Hno Hinv Hf; [lia|].
  cbn [MergerIterator.advance_impl].
  destruct (merge_step_spec mf inv size it Hmf Hok Hno Hinv)
    as (it' & f & -> & Hmf' & Hpend' & Hok' & Hf'). res_simpl. destruct f.
  - destruct Hf' as (Hnil & Hnone & Hnil'). exists it'. split_and!; [done..| |].
    + unfold item_ok. by rewrite Hnone.
    + left. unfold MergerIterator.get. rewrite Hnone, Hnil. split; [done|constructor].
  - destruct Hf' as (Hitem & Hinv' & Hsize & x & Hget & Hy & Hsc).
    rewrite (before_bound_above it' bound x Hget), (Hb _ x Hinv Hy). res_simpl. exists it'.
    split_and!; [done..|]. right. by exists x.
  - destruct Hf' as (Hno' & Hinv' & Hsize & Hsc).
    destruct (IH it' Hmf' Hok' Hno' Hinv' ltac:(lia))
      as (it2 & -> & Hmf2 & Hpend2 & Hok2 & Hitem2 & Hor).
    exists it2. split_and!; [done|done|congruence|done|done|].
    destruct Hor as [[Hg Hs]|(x & Hg & Hi & Hz & Hs)]; [left; auto|right].
    exists x. split_and!; [done|done|lia|auto].
Qed.

(** [advance] drops the current item and yields the next. *)
Lemma advance_spec mf inv size `{!MergeInvariant mf inv size} fuel it :
  merge_fn it = mf → scan_ok it → item_ok it → inv (rest_of it) →
  (size (rest_of it) < fuel)%nat →
  ∃ it', MergerIterator.advance fuel it = Ok it' ∧
    merge_fn it' = mf ∧ scan_ok it' ∧ item_ok it' ∧
    ((MergerIterator.get it' = Ok None ∧ scans mf (rest_of it) []) ∨
     (∃ x, MergerIterator.get it' = Ok (Some x) ∧ inv (rest_of it') ∧
        (size (rest_of it') < size (rest_of it))%nat ∧
        ∀ out, scans mf (rest_of it') out → scans mf (rest_of it) (x :: out))).
Proof.
  intros Hmf [Hpend Hheap] Hitem Hinv Hf.
  assert (∃ it1, MergerIterator.advance fuel it = MergerIterator.advance_impl fuel Unbounded it1 ∧
    merge_fn it1 = mf ∧ pending_iterators it1 = [] ∧ heap_ok (heap it1) ∧ no_iterator it1 ∧ abs_heap (heap it1) = rest_of it)
    as (it1 & -> & Hmf1 & Hpend1 & Hok1 & Hno1 & Hrest).
  { unfold MergerIterator.advance. rewrite Hpend. res_simpl. unfold rest_of, item_ok in *.
    destruct (mi_item it) as [|i|m] eqn:Ei.
    1,2: exists it; unfold MergerIterator.push_iterators; rewrite Hpend; cbn [length MergerIterator.push_iterators_loop];
      unfold MergerIterator.needs_more_iterators; rewrite Hpend; res_simpl; unfold no_iterator; rewrite Ei; by split_and!.
    unfold MergerIterator.needs_more_iterators at 1. cbn [pending_iterators MergerIterator.set_item].
    rewrite Hpend. res_simpl. destruct Hitem as [Hm Hs].
    destruct (stream m) as [|x s] eqn:E; [done|]. cbn [tail] in *.
    destruct (advance_stream m x s Hm E) as (m' & -> & Hm' & Hs' & Hl' & _). res_simpl.
    destruct (push_if_some (heap it) m' Hheap Hm') as [Hpok Hpabs]. rewrite Hs', Hl' in Hpabs.
    eexists; split; [reflexivity|]. by destruct (MergeLayerIterator.is_some m'). }
  rewrite <- Hrest in Hinv, Hf |- *.
  destruct (advance_impl_spec mf inv size Unbounded fuel it1) as (it' & -> & Hmf' & Hpend' & Hok' & Hitem' & Hor); [done..|].
  exists it'. split_and!; [done|done|split; [congruence|done]|done|done].
Qed.

Lemma collect_spec mf inv size `{!MergeInvariant mf inv size} n fuel it x :
  merge_fn it = mf → scan_ok it → item_ok it → inv (rest_of it) →
  MergerIterator.get it = Ok (Some x) →
  (size (rest_of it) < n)%nat → (n < fuel)%nat →
  ∃ out, collect fuel it = Ok (x :: out) ∧ scans mf (rest_of it) out.
Proof.
  revert fuel it x; induction n as [|n IH]; intros fuel it x Hmf Hok Hitem Hinv Hget Hn Hf; [lia|].
  destruct fuel as [|fuel]; [lia|]. cbn [collect]. rewrite Hget. res_simpl.
  destruct (advance_spec mf inv size (S fuel) it Hmf Hok Hitem Hinv ltac:(lia))
    as (it' & -> & Hmf' & Hok' & Hitem' & Hor). res_simpl.
  destruct Hor as [[Hg Hs]|(y & Hg & Hi & Hz & Hs)].
  - exists []. split; [|done]. destruct fuel as [|fuel]; [lia|]. cbn [collect]. by rewrite Hg.
  - destruct (IH fuel it' y Hmf' Hok' Hitem' Hi Hg ltac:(lia) ltac:(lia)) as (out & -> & Hsc).
    exists (y :: out). split; [done|auto].
Qed.

(** The streams a full scan starts with. *)
Fixpoint layer_entries (i : Z) (ls : list (list (Item K V))) : list (entry K V) :=
  match ls with
  | [] => []
  | l :: ls => push i l (layer_entries (i + 1) ls)
  end.

(** A layer that holds [l] and whose [seek] succeeds. *)
Definition holds (layer : Layer K V) (l : list (Item K V)) : Prop :=
  seek layer Unbounded = Ok (mkIter l None).

Lemma push_iterators_all mf fuel layers ls (n : nat) h :
  Forall2 holds layers ls → (length layers ≤ fuel)%nat → heap_ok h →
  (Z.of_nat n + Z.of_nat (length layers) ≤ 65536) →
  ∃ h', MergerIterator.push_iterators_loop fuel
      (mkMI mf (imap (λ i layer, MergeLayerIterator.new (Z.of_nat (n + i) `mod` 65536) layer) layers)
         h CINone) None Unbounded = Ok (mkMI mf [] h' CINone) ∧
    heap_ok h' ∧ abs_heap h' ≡ₚ abs_heap h ++ layer_entries (Z.of_nat n) ls.
Proof.
  intros HF. revert fuel n h.
  induction HF as [|layer l layers ls Hl HF IH]; intros fuel n h Hfuel Hh Hn.
  { exists h. destruct fuel; cbn; (split_and!; [done|done|by rewrite app_nil_r]). }
  destruct fuel as [|fuel]; [cbn in Hfuel; lia|].
  cbn [imap MergerIterator.push_iterators_loop].
  unfold MergerIterator.needs_more_iterators. cbn [pending_iterators heap].
  replace (match h with [] => Ok true | _ :: _ => Ok true end) with (Ok true) by by destruct h.
  res_simpl. unfold holds in Hl. cbn [mli_layer MergeLayerIterator.new]. res_simpl. rewrite Hl.
  res_simpl. unfold MergeLayerIterator.set_item_from_iter, MergeLayerIterator.get.
  cbn [mli_iter MergeLayerIterator.set_iter]. res_simpl.
  set (m := MergeLayerIterator.set_item _ _).
  assert (mli_ok m) as Hm by (exists l; unfold m; cbn; by destruct l).
  assert (stream m = l) as Hst by (unfold stream, m; cbn; by destruct l).
  assert (layer_index m = Z.of_nat n) as Hidx.
  { unfold m; cbn. rewrite Nat.add_0_r. apply Z.mod_small. cbn in Hn. lia. }
  destruct (push_if_some h m Hh Hm) as [Hpok Hpabs]. rewrite Hst, Hidx in Hpabs.
  set (h1 := if MergeLayerIterator.is_some m then m :: h else h) in *.
  match goal with |- context [MergerIterator.push_iterators_loop fuel ?I _ _] =>
    assert (I = mkMI mf (imap (λ i layer,
      MergeLayerIterator.new (Z.of_nat (S n + i) `mod` 65536) layer) layers) h1 CINone) as -> end.
  { unfold h1, MergerIterator.set_pending, MergerIterator.set_heap.
    cbn [merge_fn heap mi_item pending_iterators].
    assert (imap ((λ (i : nat) layer0,
         MergeLayerIterator.new (Z.of_nat (n + i) `mod` 65536) layer0) ∘ S) layers =
      imap (λ i layer, MergeLayerIterator.new (Z.of_nat (S n + i) `mod` 65536) layer) layers)
      as ->.
    { apply imap_ext. intros i x _. unfold compose. do 3 f_equal. lia. }
    by destruct (MergeLayerIterator.is_some m). }
  destruct (IH fuel (S n) h1) as (h' & Heq & Hok' & Habs'); [cbn in *; lia|done|cbn in *; lia|].
  exists h'. split_and!; [done|done|]. rewrite Habs', Hpabs. cbn [layer_entries].
  replace (Z.of_nat (S n)) with (Z.of_nat n + 1) by lia.
  destruct l; cbn; [done|]. by rewrite Permutation_middle.
Qed.

(** A full scan of layers computes their abstract merge: whenever the merge
    function keeps its promise on the layers, reading the merger to its end
    succeeds, and what it yields is a merge of the layers. *)
Lemma merge_layers_refines mf inv size `{!MergeInvariant mf inv size} layers ls fuel :
  Forall2 holds layers ls → Z.of_nat (length layers) ≤ 65536 →
  inv (layer_entries 0 ls) → (size (layer_entries 0 ls) + 1 < fuel)%nat →
  ∃ out, merge_layers fuel layers mf = Ok out ∧ scans mf (layer_entries 0 ls) out.
Proof.
  intros HF Hlen Hinv Hfuel. unfold merge_layers, Merger.query. cbn [iterators Merger.new].
  assert (∀ n, foldr (λ m acc, rest ← acc; layer ← unwrap (mli_layer m);
             needed ← needs_layer FullScan layer; Ok (if needed : bool then m :: rest else rest)) (Ok [])
           (imap (λ i layer, MergeLayerIterator.new (Z.of_nat (n + i) `mod` 65536) layer) layers)
         = Ok (imap (λ i layer, MergeLayerIterator.new (Z.of_nat (n + i) `mod` 65536) layer) layers))
    as Hfold.
  { clear. induction layers as [|l layers IH]; intros n; [done|]. cbn [imap foldr].
    specialize (IH (S n)).
    replace (imap ((λ i layer, MergeLayerIterator.new (Z.of_nat (n + i) `mod` 65536) layer) ∘ S) layers)
      with (imap (λ i layer, MergeLayerIterator.new (Z.of_nat (S n + i) `mod` 65536) layer) layers)
      by (apply imap_ext; intros; unfold compose; do 3 f_equal; lia).
    rewrite IH. done. }
  specialize (Hfold 0%nat). cbn [Nat.add] in Hfold. rewrite Hfold. res_simpl.
  unfold MergerIterator.seek_. res_simpl. unfold MergerIterator.push_iterators.
  cbn [pending_iterators mg_merge_fn Merger.new].
  destruct (push_iterators_all mf
      (length (imap (λ i layer, MergeLayerIterator.new (Z.of_nat i `mod` 65536) layer) layers))
      layers ls 0 []) as (h' & Heq & Hok & Habs);
    [done|rewrite length_imap; lia|constructor|lia|].
  cbn [Nat.add] in Heq. rewrite Heq. res_simpl. cbn in Habs.
  assert (Hinv' : inv (abs_heap h')) by (eapply (mi_inv_perm mf); [symmetry|]; done).
  assert (Hsize : size (abs_heap h') = size (layer_entries 0 ls)) by by apply (mi_size_perm mf).
  destruct (advance_impl_spec mf inv size Unbounded fuel (mkMI mf [] h' CINone)) as (it & -> & Hmf & Hpend & Hok0 & Hitem & Hor);
    [done|done|done|done|done|cbn [heap]; lia|].
  assert (scan_ok it) as Hok1 by by split.
  res_simpl. cbn [heap] in Hor. destruct Hor as [[Hg Hs]|(x & Hg & Hi & Hz & Hs)].
  - exists []. destruct fuel; [lia|]. cbn [collect]. rewrite Hg. split; [done|].
    by eapply scans_perm.
  - destruct (collect_spec mf inv size (fuel - 1) fuel it x Hmf Hok1 Hitem Hi Hg) as (out & -> & Ho);
      [lia|lia|].
    exists (x :: out). split; [done|]. eapply scans_perm; [done|]. auto.
Qed.
End refinement.
