(* ===== verification/MergeQuery.v ===== *)
(** * Point queries

    [Merger::query] with [Query::Point]: which layers are consulted, and that
    what it yields first is what a merge of those layers does. *)

From S2P Require Import Prelude LsmTypes Merge MergeProps.

(** The keys that are looked up one at a time. *)
Class PointKey (K : Type) := point_key : K → Prop.

Section query.
Context {K V : Type} `{OrdLowerBound K, OrdUpperBound K, LayerKey K, PointKey K, !TotalCmp (cmp_lower_bound (K := K))}.
Implicit Types (layer : Layer K V) (l : list (Item K V)) (x : Item K V).

(** A layer that serves queries on the items [l]: [seek] goes to the first
    item at or above the bound, the filter never denies a key that is there
    and it answers for every key that is looked up. *)
Record serves layer l : Prop := {
  sv_seek : ∀ b, seek layer b = Ok (mkIter (drop_until (at_or_above b) l) None);
  sv_filter : ∀ x k, x ∈ l → cmp_lower_bound (key x) k = Eq → cmp_upper_bound (key x) k = Eq → maybe_contains_key layer k = Ok true;
  sv_answers : ∀ k, point_key k → ∃ b, maybe_contains_key layer k = Ok b;
}.

Lemma serves_holds layer l : serves layer l → holds layer l.
Proof. intros [Hs _ _]. unfold holds. rewrite Hs. by destruct l. Qed.

Context (k : K).

(** What a layer contributes to a query for [k]. *)
Definition from_key l : list (Item K V) := drop_until (at_or_above (Included k)) l.

Definition starts_at l : bool :=
  match from_key l with
  | [] => false
  | x :: _ => match cmp_lower_bound (key x) k with Gt => false | _ => true end
  end.

Definition let_through layer : bool := match maybe_contains_key layer k with Ok b => b | _ => false end.

(** The layers that are consulted: those that the filter lets through, up to
    the first one with an item that is not above [k] unless all have to be
    merged. *)
Fixpoint consulted (i : Z) (layers : list (Layer K V)) (ls : list (list (Item K V))) : list (entry K V) :=
  match layers, ls with
  | layer :: layers, l :: ls =>
      if let_through layer then
        push i (from_key l)
          (match merge_type k with
           | OptimizedMerge => if starts_at l then [] else consulted (i + 1) layers ls
           | FullMerge => consulted (i + 1) layers ls
           end)
      else consulted (i + 1) layers ls
  | _, _ => []
  end.

(** Nothing on the heap reaches [k]. *)
Definition all_above (h : list (MergeLayerIterator K V)) : Prop :=
  Forall (λ e, match e.2 with [] => True | x :: _ => cmp_lower_bound (key x) k = Gt end) (abs_heap h).

Definition pending_of (n : nat) (layers : list (Layer K V)) : list (MergeLayerIterator K V) :=
  omap (λ p, if let_through p.2 then Some (MergeLayerIterator.new (Z.of_nat p.1 `mod` 65536) p.2) else None)
    (imap (λ i layer, ((n + i)%nat, layer)) layers).

Lemma pending_of_cons n layer layers :
  pending_of n (layer :: layers) =
    (if let_through layer then [MergeLayerIterator.new (Z.of_nat n `mod` 65536) layer] else []) ++ pending_of (S n) layers.
Proof.
  unfold pending_of. cbn [imap omap list_omap]. cbn [snd fst]. rewrite Nat.add_0_r.
  assert (imap ((λ (i : nat) layer0, ((n + i)%nat, layer0)) ∘ S) layers = imap (λ i layer0, ((S n + i)%nat, layer0)) layers) as ->.
  { apply imap_ext. intros i x _. unfold compose. f_equal. lia. }
  by destruct (let_through layer).
Qed.

Lemma query_pending layers n : Forall (λ layer, ∃ b, maybe_contains_key layer k = Ok b) layers →
  foldr (λ m acc, rest ← acc; layer ← unwrap (mli_layer m); needed ← needs_layer (Point k) layer; Ok (if needed : bool then m :: rest else rest)) (Ok [])
    (imap (λ i layer, MergeLayerIterator.new (Z.of_nat (n + i) `mod` 65536) layer) layers) = Ok (pending_of n layers).
Proof.
  intros Ha. revert n. induction Ha as [|layer layers [b Hb] _ IH]; intros n; [done|]. rewrite pending_of_cons. cbn [imap foldr].
  assert (imap ((λ i layer0, MergeLayerIterator.new (Z.of_nat (n + i) `mod` 65536) layer0) ∘ S) layers =
    imap (λ i layer0, MergeLayerIterator.new (Z.of_nat (S n + i) `mod` 65536) layer0) layers) as ->.
  { apply imap_ext. intros i x _. unfold compose. do 3 f_equal. lia. }
  rewrite IH. res_simpl. cbn [needs_layer mli_layer MergeLayerIterator.new]. res_simpl. unfold let_through. rewrite Nat.add_0_r, Hb. by destruct b.
Qed.

(** Whether more iterators are needed depends on the least key of the heap. *)
Lemma needs_more_above mf pend h : pend ≠ [] → heap_ok h → (merge_type k = OptimizedMerge → all_above h) →
  MergerIterator.needs_more_iterators (mkMI mf pend h CINone) (Some k) (Included k) = Ok true.
Proof.
  intros Hp Hh Ha. unfold MergerIterator.needs_more_iterators. cbn [pending_iterators heap]. destruct pend as [|m pend]; [done|].
  destruct (decide (h = [])) as [->|Hne]; [done|]. assert (∀ (R : res bool), match h with [] => Ok true | _ => R end = R) as -> by by destruct h.
  destruct (merge_type k); [done|]. unfold heap_peek. destruct (heap_pop_spec h Hh Hne) as (t & rest & -> & Hperm & _). res_simpl.
  pose proof (heap_ok_perm _ _ Hperm Hh) as Hh'. apply Forall_cons in Hh' as [[Ht Hs] _]. specialize (Ha eq_refl). unfold all_above in Ha.
  rewrite (abs_heap_perm _ _ Hperm) in Ha. apply Forall_cons in Ha as [Ha _]. unfold abs_mli in Ha. cbn in Ha.
  destruct (stream t) as [|x s] eqn:E; [done|]. rewrite (item_stream t x s Ht E). res_simpl. by rewrite Ha.
Qed.

Lemma needs_more_reached mf pend h i x s : heap_ok h → merge_type k = OptimizedMerge →
  (i, x :: s) ∈ abs_heap h → cmp_lower_bound (key x) k ≠ Gt →
  MergerIterator.needs_more_iterators (mkMI mf pend h CINone) (Some k) (Included k) = Ok false.
Proof.
  intros Hh Hm Hin Hx. unfold MergerIterator.needs_more_iterators. cbn [pending_iterators heap]. destruct pend as [|m pend]; [done|].
  assert (h ≠ []) as Hne by (intros ->; by apply elem_of_nil in Hin). assert (∀ (R : res bool), match h with [] => Ok true | _ => R end = R) as -> by by destruct h.
  rewrite Hm. unfold heap_peek. destruct (heap_pop_spec h Hh Hne) as (t & rest & -> & Hperm & Hle). res_simpl.
  pose proof (heap_ok_perm _ _ Hperm Hh) as Hh'. apply Forall_cons in Hh' as [[Ht Hs] _].
  destruct (stream t) as [|y u] eqn:E; [done|]. rewrite (item_stream t y u Ht E). res_simpl.
  assert (cmp_lower_bound (key y) k ≠ Gt) as Hy; [|by destruct (cmp_lower_bound (key y) k)].
  rewrite (abs_heap_perm _ _ Hperm) in Hin. apply elem_of_cons in Hin as [Hin|Hin].
  - unfold abs_mli in Hin. rewrite E in Hin. by injection Hin as _ -> _.
  - rewrite Forall_forall in Hle. specialize (Hle _ Hin). unfold entry_le, abs_mli in Hle. rewrite E in Hle. cbn in Hle.
    eapply (cmp_le_trans _ (key x)); [|done]. by destruct (cmp_lower_bound (key y) (key x)).
Qed.

(** One turn of [push_iterators]. *)
Lemma push_turn mf fuel layer l i pend h : serves layer l → heap_ok h → (merge_type k = OptimizedMerge → all_above h) →
  ∃ h', MergerIterator.push_iterators_loop (S fuel) (mkMI mf (MergeLayerIterator.new i layer :: pend) h CINone) (Some k) (Included k) =
      MergerIterator.push_iterators_loop fuel (mkMI mf pend h' CINone) (Some k) (Included k) ∧
    heap_ok h' ∧ abs_heap h' = push i (from_key l) (abs_heap h).
Proof.
  intros [Hs _ _] Hh Ha. cbn [MergerIterator.push_iterators_loop]. rewrite needs_more_above by done. res_simpl.
  cbn [pending_iterators mli_layer MergeLayerIterator.new]. res_simpl. rewrite Hs. res_simpl.
  unfold MergeLayerIterator.set_item_from_iter, MergeLayerIterator.get. cbn [mli_iter MergeLayerIterator.set_iter]. res_simpl.
  set (m := MergeLayerIterator.set_item _ _). change (drop_until (at_or_above (Included k)) l) with (from_key l) in *.
  assert (mli_ok m) as Hm by (exists (from_key l); unfold m; cbn; by destruct (from_key l)).
  assert (stream m = from_key l) as Hst by (unfold stream, m; cbn; by destruct (from_key l)).
  destruct (push_if_some h m Hh Hm) as [Hok Habs]. rewrite Hst in Habs. change (layer_index m) with i in Habs.
  exists (if MergeLayerIterator.is_some m then m :: h else h). split; [|done]. by destruct (MergeLayerIterator.is_some m).
Qed.

Lemma all_above_push h h' i l : abs_heap h' = push i (from_key l) (abs_heap h) → starts_at l = false → all_above h → all_above h'.
Proof.
  intros Hh' Hl Ha. unfold all_above, starts_at in *. rewrite Hh'. destruct (from_key l) as [|x s]; cbn [push]; [done|].
  constructor; [|done]. cbn. by destruct (cmp_lower_bound (key x) k).
Qed.

Lemma push_point mf layers ls : Forall2 serves layers ls → ∀ n h, heap_ok h → (merge_type k = OptimizedMerge → all_above h) →
  (Z.of_nat n + Z.of_nat (length layers) ≤ 65536) →
  ∃ pend h', MergerIterator.push_iterators_loop (length (pending_of n layers)) (mkMI mf (pending_of n layers) h CINone) (Some k) (Included k) =
      Ok (mkMI mf pend h' CINone) ∧ heap_ok h' ∧ abs_heap h' ≡ₚ abs_heap h ++ consulted (Z.of_nat n) layers ls.
Proof.
  induction 1 as [|layer l layers ls Hl HF IH]; intros n h Hh Ha Hn.
  { exists [], h. cbn. split_and!; [done|done|by rewrite app_nil_r]. }
  rewrite pending_of_cons. cbn [consulted length] in *. replace (Z.of_nat n + 1) with (Z.of_nat (S n)) by lia.
  destruct (let_through layer) eqn:Ek; cbn [app]; [|apply IH; [done|done|lia]].
  rewrite Z.mod_small by lia. cbn [length].
  destruct (push_turn mf (length (pending_of (S n) layers)) layer l (Z.of_nat n) (pending_of (S n) layers) h Hl Hh Ha) as (h1 & -> & Hh1 & Habs).
  assert (∀ B, abs_heap h1 ++ B ≡ₚ abs_heap h ++ push (Z.of_nat n) (from_key l) B) as Hperm.
  { intros B. rewrite Habs. destruct (from_key l); cbn [push app]; [done|]. by rewrite Permutation_middle. }
  destruct (merge_type k) eqn:Em.
  - destruct (IH (S n) h1 Hh1 ltac:(done) ltac:(lia)) as (pend & h' & -> & Hh' & Hab). exists pend, h'. split_and!; [done..|]. by rewrite Hab, Hperm.
  - destruct (starts_at l) eqn:Es.
    + unfold starts_at in Es. destruct (from_key l) as [|x s] eqn:Ef; [done|]. exists (pending_of (S n) layers), h1.
      assert (MergerIterator.needs_more_iterators (mkMI mf (pending_of (S n) layers) h1 CINone) (Some k) (Included k) = Ok false) as Hno.
      { apply (needs_more_reached mf _ h1 (Z.of_nat n) x s); [done|done| |by destruct (cmp_lower_bound (key x) k)]. rewrite Habs. by left. }
      split_and!; [|done|rewrite <- Hperm; by rewrite app_nil_r].
      destruct (length (pending_of (S n) layers)); cbn [MergerIterator.push_iterators_loop]; by rewrite Hno.
    + destruct (IH (S n) h1 Hh1 ltac:(intros _; eapply all_above_push; [done|done|by apply Ha]) ltac:(lia)) as (pend & h' & -> & Hh' & Hab). exists pend, h'. split_and!; [done..|]. by rewrite Hab, Hperm.
Qed.

(** A point query yields the first item of the merge of what is consulted. *)
Lemma query_point mf inv size `{!MergeInvariant mf inv size} (is_range_key : K → bool) layers ls c fuel :
  is_range_key k = false → Forall2 serves layers ls → Forall (λ layer, ∃ b, maybe_contains_key layer k = Ok b) layers → Z.of_nat (length layers) ≤ 65536 →
  (∀ A x, inv A → yields mf A x → at_or_above (Included k) x = true) →
  (∀ A, inv A → Forall (λ e, e.2 ≠ []) A) →
  inv (consulted 0 layers ls) → (size (consulted 0 layers ls) < fuel)%nat →
  ∃ it c' out, Merger.query is_range_key fuel (Merger.new layers mf c) (Point k) = Ok (it, c') ∧
    MergerIterator.get it = Ok (head out) ∧ scans mf (consulted 0 layers ls) out.
Proof.
  intros Hk HF Hans Hlen Hb Hne Hinv Hfuel. unfold Merger.query. rewrite Hk. cbn [negb rassert]. res_simpl. cbn [iterators Merger.new].
  pose proof (query_pending layers 0 Hans) as Hq. cbn [Nat.add] in Hq. rewrite Hq. res_simpl. unfold MergerIterator.seek_. res_simpl.
  unfold MergerIterator.push_iterators. cbn [pending_iterators mg_merge_fn Merger.new].
  destruct (push_point mf layers ls HF 0 []) as (pend & h & -> & Hh & Habs); [constructor|intros _; constructor|lia|]. res_simpl.
  cbn [app abs_heap fmap list_fmap] in Habs. change (Z.of_nat 0) with 0 in Habs.
  destruct (advance_impl_spec mf inv size (Included k) fuel (mkMI mf pend h CINone)) as (it & -> & _ & _ & _ & _ & Hor); [done|done|done|done|..].
  - cbn [heap]. eapply (mi_inv_perm mf); [symmetry|]; done.
  - cbn [heap]. by rewrite (mi_size_perm mf _ _ Habs).
  - res_simpl. cbn [heap] in Hor. destruct Hor as [[Hg Hs]|(x & Hg & Hi & _ & Hs)].
    + eexists _, _, []. split_and!; [reflexivity|done|]. by eapply scans_perm.
    + destruct (scans_total mf inv size (rest_of it) Hne Hi) as [out Hout]. eexists _, _, (x :: out). split_and!; [reflexivity|done|].
      eapply scans_perm; [done|]. by apply Hs.
Qed.
End query.
