(* ===== verification/ObjectKeyOrder.v ===== *)
(** * The orders of object keys

    The bounds by which layers of an object store are searched are total
    orders, agree on keys that do not overlap, and have the keys that a search
    moves on to where the tree expects them. *)

From S2P Require Import Prelude Round Checksum Extent LsmTypes ObjectRecord Merge MergeProps.

(** ** Sequences *)
#[global] Instance seq_cmp_total : TotalCmp seq_cmp.
Proof.
  split.
  - induction a as [|x a IH]; intros [|y b]; cbn; [done..|]. rewrite (Z.compare_antisym x y).
    destruct (x ?= y); cbn; [apply IH|done|done].
  - induction a as [|x a IH]; intros [|y b] [|z c]; cbn; try done.
    destruct (Z.compare_spec x y), (Z.compare_spec y z), (Z.compare_spec x z); cbn; try done; try lia. apply IH.
Qed.

Lemma seq_cmp_refl l : seq_cmp l l = Eq.
Proof. induction l as [|x l IH]; cbn; [done|]. by rewrite Z.compare_refl. Qed.

Lemma seq_cmp_Eq a b : seq_cmp a b = Eq → a = b.
Proof.
  revert b. induction a as [|x a IH]; intros [|y b]; cbn; try done. destruct (Z.compare_spec x y); cbn; [|done|done].
  intros Hc. subst. f_equal. by apply IH.
Qed.

Section keys.
Context (normal_form : list Z → list Z).
#[local] Abbreviation cmp_lower := (object_cmp_lower_bound normal_form).
#[local] Abbreviation cmp_upper := (object_cmp_upper_bound normal_form).
#[local] Abbreviation overlapping := (object_overlaps normal_form).

(** A key as the sequence that it is compared by; [pos] is the position of an
    extent. *)
Definition code (pos : ExtentKey → Z) (k : ObjectKey) : list Z :=
  object_id k :: variant (data k) ::
  match data k with
  | KObject | KKeys => []
  | KAttribute i AKAttribute => [i; 0]
  | KAttribute i (AKExtent e) => [i; 1; pos e]
  | KChild n | KExtendedAttribute n => n
  | KGraveyardEntry i => [i]
  | KProject i p => [i; match p with Limit => 0 | Usage => 1 end]
  | KGraveyardAttributeEntry i j => [i; j]
  | KEncryptedChild h n => h :: n
  | KCasefoldChild n => normal_form n
  end.

Lemma then_eq c : cmp_then c Eq = c.
Proof. by destruct c. Qed.

Ltac code_cases :=
  intros [o d] [o' d']; unfold code, object_cmp_lower_bound, object_cmp_upper_bound; cbn [object_id data seq_cmp]; f_equal;
  destruct d as [| |i [|e]| | |i p| | | |], d' as [| |i' [|e']| | |i' p'| | | |];
  cbn [variant seq_cmp data_cmp attribute_key_cmp]; rewrite ?Z.compare_refl; cbn [cmp_then];
  try (destruct p, p'); cbn; rewrite ?then_eq; try done.

Lemma cmp_lower_code a b : cmp_lower a b = seq_cmp (code (λ e, start (ek_range e)) a) (code (λ e, start (ek_range e)) b).
Proof. revert a b. code_cases. Qed.
Lemma cmp_upper_code a b : cmp_upper a b = seq_cmp (code (λ e, end_ (ek_range e)) a) (code (λ e, end_ (ek_range e)) b).
Proof. revert a b. code_cases. Qed.

#[global] Instance object_lower_total : TotalCmp cmp_lower.
Proof.
  split; intros *; rewrite !cmp_lower_code; [apply cmp_opp|apply cmp_le_trans].
Qed.
#[global] Instance object_upper_total : TotalCmp cmp_upper.
Proof.
  split; intros *; rewrite !cmp_upper_code; [apply cmp_opp|apply cmp_le_trans].
Qed.

Definition key_ok (k : ObjectKey) : Prop :=
  match data k with KAttribute _ (AKExtent e) => start (ek_range e) < end_ (ek_range e) | _ => True end.

Definition is_extent (d : ObjectKeyData) : bool := match d with KAttribute _ (AKExtent _) => true | _ => false end.

Lemma not_extents a b : is_extent (data a) && is_extent (data b) = false →
  cmp_lower a b = cmp_then (object_id a ?= object_id b) (data_cmp normal_form (data a) (data b)) ∧
  cmp_upper a b = cmp_then (object_id a ?= object_id b) (data_cmp normal_form (data a) (data b)) ∧
  overlapping a b = (object_id a =? object_id b) && data_eq normal_form (data a) (data b).
Proof.
  unfold object_cmp_lower_bound, object_cmp_upper_bound, object_overlaps. destruct a as [o d], b as [o' d']; cbn [data object_id].
  destruct d as [| |i [|e]| | | | | | |], d' as [| |i' [|e']| | | | | | |]; cbn [is_extent andb]; intros; try done;
    (split_and!; [done..|destruct (Z.eqb_spec o o'); done]).
Qed.

Lemma extents o i e o' i' e' : let a := ObjectKey.from_extent o i e in let b := ObjectKey.from_extent o' i' e' in
  cmp_lower a b = cmp_then (o ?= o') (cmp_then (i ?= i') (start (ek_range e) ?= start (ek_range e'))) ∧
  cmp_upper a b = cmp_then (o ?= o') (cmp_then (i ?= i') (end_ (ek_range e) ?= end_ (ek_range e'))) ∧
  overlapping a b = (o =? o') && (i =? i') && (start (ek_range e') <? end_ (ek_range e)) && (start (ek_range e) <? end_ (ek_range e')).
Proof.
  split_and!; [done..|]. unfold object_overlaps. cbn. destruct (Z.eqb_spec o o') as [->|]; [|done]. cbn.
  destruct (Z.eqb_spec i i') as [->|Hi]; [done|]. unfold data_eq. cbn. by destruct (Z.compare_spec i i').
Qed.

Lemma extent_data k : is_extent (data k) = true → ∃ o i e, k = ObjectKey.from_extent o i e.
Proof. destruct k as [o [| |i [|e]| | | | | | |]]; cbn; try done. intros _. by exists o, i, e. Qed.

(** The order of a key that is no extent does not depend on the extent's range. *)
Lemma data_cmp_extent d i e e' : is_extent d = false →
  data_cmp normal_form d (KAttribute i (AKExtent e)) = data_cmp normal_form d (KAttribute i (AKExtent e')).
Proof. by destruct d as [| |j [|]| | | | | | |]. Qed.

Lemma bounds_agree a b : key_ok a → key_ok b → overlapping a b = false → cmp_lower a b = cmp_upper a b ∧ cmp_lower a b ≠ Eq.
Proof.
  intros Ha Hb Hov. destruct (is_extent (data a) && is_extent (data b)) eqn:E.
  - apply andb_true_iff in E as [(o & i & e & ->)%extent_data (o' & i' & e' & ->)%extent_data].
    destruct (extents o i e o' i' e') as (-> & -> & Ho). rewrite Ho in Hov. unfold key_ok in Ha, Hb. cbn in Ha, Hb. clear Ho.
    destruct (Z.compare_spec o o') as [->| |]; cbn; [|done..]. destruct (Z.compare_spec i i') as [->| |]; cbn; [|done..].
    rewrite !Z.eqb_refl in Hov. cbn in Hov.
    destruct (Z.compare_spec (start (ek_range e)) (start (ek_range e'))), (Z.compare_spec (end_ (ek_range e)) (end_ (ek_range e'))); try done; lia.
  - destruct (not_extents a b E) as (Hl & Hu & Ho). rewrite Ho in Hov. split; [congruence|].
    rewrite Hl. unfold data_eq in Hov. destruct (Z.compare_spec (object_id a) (object_id b)) as [He| |]; cbn; [|done|done].
    rewrite (proj2 (Z.eqb_eq _ _) He) in Hov. cbn in Hov. by destruct (data_cmp _ _ _).
Qed.

(** The key that [next_key] gives is at the end of an extent. *)
Lemma next_key_inv a n : ObjectKey.next_key a = Ok (Some n) →
  ∃ o i e, a = ObjectKey.from_extent o i e ∧ n = ObjectKey.extent o i (end_ (ek_range e) ..< (end_ (ek_range e) + 1)).
Proof.
  intros Hn. destruct a as [o [| |i [|e]| | | | | | |]]; cbn in Hn; try done.
  destruct (u64_add (end_ (ek_range e)) 1) as [v| | |] eqn:Ev; cbn in Hn; try done.
  apply u64_add_inv in Ev as [_ ->]. injection Hn as <-. by exists o, i, e.
Qed.

Lemma next_key_place a b n : key_ok a → key_ok b → overlapping a b = false → ObjectKey.next_key a = Ok (Some n) →
  (cmp_lower b n ≠ Lt ↔ cmp_lower a b = Lt) ∧ (cmp_upper b n ≠ Lt ↔ cmp_lower a b = Lt).
Proof.
  intros Ha Hb Hov (o & i & e & -> & ->)%next_key_inv. unfold ObjectKey.extent. destruct (is_extent (data b)) eqn:E.
  - apply extent_data in E as (o' & i' & e' & ->). unfold key_ok in Ha, Hb. cbn in Ha, Hb.
    destruct (extents o i e o' i' e') as (-> & _ & Ho). rewrite Ho in Hov. clear Ho.
    destruct (extents o' i' e' o i (mkExtentKey (end_ (ek_range e) ..< (end_ (ek_range e) + 1)))) as (Hl & Hu & _).
    unfold ObjectKey.from_extent in Hl, Hu |- *. unfold ExtentKey.new. rewrite Hl, Hu, (Z.compare_antisym o o'), (Z.compare_antisym i i'). cbn [ek_range start end_].
    destruct (Z.compare_spec o o') as [->| |]; cbn; [|done..]. destruct (Z.compare_spec i i') as [->| |]; cbn; [|done..].
    rewrite !Z.eqb_refl in Hov. cbn in Hov. rewrite !Z.compare_lt_iff. lia.
  - assert (∀ e', cmp_lower b (ObjectKey.from_extent o i e') = cmp_lower b (ObjectKey.from_extent o i e) ∧
      cmp_upper b (ObjectKey.from_extent o i e') = cmp_lower b (ObjectKey.from_extent o i e)) as Hsame.
    { intros e'. destruct (not_extents b (ObjectKey.from_extent o i e')) as (-> & -> & _); [by rewrite E|].
      destruct (not_extents b (ObjectKey.from_extent o i e)) as (-> & _ & _); [by rewrite E|]. cbn [ObjectKey.from_extent data object_id].
      rewrite (data_cmp_extent (data b) i e' e) by done. done. }
    pose proof (bounds_agree _ _ Ha Hb Hov) as [_ Hne].
    destruct (Hsame (ExtentKey.new (end_ (ek_range e) ..< (end_ (ek_range e) + 1)))) as [H1 H2]. unfold ObjectKey.from_extent in H1, H2, Hne |- *. rewrite H1, H2.
    rewrite (cmp_opp (TotalCmp := object_lower_total) b). destruct (cmp_lower _ b); cbn; split; done.
Qed.

(** Keys that do not overlap are ordered, and in the same way by both
    bounds; the key that follows an extent comes after it and before every key
    that the extent comes before. *)
Theorem object_key_order a b : key_ok a → key_ok b → overlapping a b = false →
  cmp_lower a b = cmp_upper a b ∧ cmp_lower a b ≠ Eq ∧
  ∀ n, ObjectKey.next_key a = Ok (Some n) →
    (cmp_lower b n ≠ Lt ↔ cmp_lower a b = Lt) ∧ (cmp_upper b n ≠ Lt ↔ cmp_lower a b = Lt).
Proof.
  intros Ha Hb Hov. destruct (bounds_agree a b Ha Hb Hov) as [H1 H2]. split_and!; [done..|]. intros n. by apply next_key_place.
Qed.
End keys.

Lemma object_key_order_witness : let a := ObjectKey.extent 5 0 (512 ..< 1024) in let b := ObjectKey.extent 5 0 (1024 ..< 4096) in
  object_cmp_lower_bound id a b = Lt ∧ object_cmp_upper_bound id a b = Lt ∧
  object_cmp_lower_bound id b (ObjectKey.extent 5 0 (1024 ..< 1025)) ≠ Lt.
Proof.
  destruct (object_key_order id (ObjectKey.extent 5 0 (512 ..< 1024)) (ObjectKey.extent 5 0 (1024 ..< 4096))) as (H1 & _ & H2);
    [by vm_compute..|]. cbn zeta. rewrite <- H1. split; [done|]. split; [done|]. apply (H2 (ObjectKey.extent 5 0 (1024 ..< 1025))); by vm_compute.
Defined.
