(* ===== verification/UnicodeIter.v ===== *)
(** * Comparing names without regard to case

    [fxfs/unicode/src/lib.rs] and [nfd.rs]: iterators that fold the case of
    characters, filter them, and decompose and reorder them, with the
    comparison and the hash of [CasefoldString].  An iterator is a state and a
    [next] function; [next] has [fuel] for its loops. *)

From S2P Require Import Prelude Bytes Unicode.

(** [Iterator<Item = char>::next] *)
Abbreviation iterator I := (nat → I → res (option Z * I)).

(** ** Adapters of the standard library *)

(** [str::chars]; a string is the list of its characters. *)
Definition chars_next : iterator (list Z) := λ _ s, Ok (head s, tail s).

(** [Filter] *)
Fixpoint filter_next {I} (next : iterator I) (pred : Z → res bool) (fuel : nat) (it : I) : res (option Z * I) :=
  match fuel with
  | O => NoFuel
  | S fuel =>
      '(o, it) ← next fuel it;
      match o with
      | None => Ok (None, it)
      | Some ch => b ← pred ch; if b : bool then Ok (Some ch, it) else filter_next next pred fuel it
      end
  end.

(** [Peekable] *)
Module Peekable.
Section peekable.
Context {I : Type} (inner : iterator I).
Record t : Type := mk { iter : I; peeked : option (option Z) }.
Definition next (fuel : nat) (p : t) : res (option Z * t) :=
  match peeked p with
  | Some v => Ok (v, mk (iter p) None)
  | None => '(o, i) ← inner fuel (iter p); Ok (o, mk i None)
  end.
Definition next_if (func : Z → res bool) (fuel : nat) (p : t) : res (option Z * t) :=
  '(o, p) ← next fuel p;
  b ← match o with Some matched => func matched | None => Ok false end;
  if b : bool then Ok (o, p) else Ok (None, mk (iter p) (Some o)).
End peekable.
Arguments mk {I} _ _.
Arguments iter {I} _.
Arguments peeked {I} _.
Arguments t : clear implicits.
End Peekable.

(** [Iterator::cmp] *)
Fixpoint iter_cmp {I} (next : iterator I) (fuel : nat) (a b : I) : res comparison :=
  match fuel with
  | O => NoFuel
  | S fuel =>
      '(x, a) ← next fuel a;
      '(y, b) ← next fuel b;
      match x, y with
      | None, None => Ok Eq
      | None, Some _ => Ok Lt
      | Some _, None => Ok Gt
      | Some x, Some y => match x ?= y with Eq => iter_cmp next fuel a b | c => Ok c end
      end
  end.

(** [sort_by], which is stable: an element goes in front of those that are not
    less.  Nothing is compared when there are fewer than two elements. *)
Fixpoint insert_by (kx : Z * Z) (l : list (Z * Z)) : list (Z * Z) :=
  match l with
  | [] => [kx]
  | ky :: l' => if ky.1 <? kx.1 then ky :: insert_by kx l' else kx :: l
  end.
Fixpoint keys_of (key : Z → res Z) (l : list Z) : res (list (Z * Z)) :=
  match l with
  | [] => Ok []
  | x :: l => k ← key x; kl ← keys_of key l; Ok ((k, x) :: kl)
  end.
Definition sort_by_key (key : Z → res Z) (l : list Z) : res (list Z) :=
  match l with
  | [] | [_] => Ok l
  | _ => kl ← keys_of key l; Ok (foldr insert_by [] kl).*2
  end.

Section unicode.
Context (T : Tables).

(** ** [nfd.rs] *)
Definition hangul_decomposition (s : Z) (out : list Z) : list Z :=
  let s_index := s - 0xac00 in
  out ++ [0x1100 + s_index / 588] ++ [0x1161 + (s_index `mod` 588) / 28] ++
    (if negb (s_index `mod` 28 =? 0) then [0x11a7 + s_index `mod` 28] else []).

Definition decompose (ch : Z) (out : list Z) : res (list Z) :=
  if (0xac00 <=? ch) && (ch <? 0xd7a4) then Ok (hangul_decomposition ch out)
  else
    m ← Lookup.decomposition T ch;
    Ok match m with
       | Some mapping => out ++ Utf8.chars mapping
       | None => out ++ [ch]
       end.

Record NfdIterator (I : Type) : Type := mkNfd { nfd_input : Peekable.t I; nfd_buf : list Z; nfd_pos : nat }.
#[global] Arguments mkNfd {I} _ _ _.
#[global] Arguments nfd_input {I} _.
#[global] Arguments nfd_buf {I} _.
#[global] Arguments nfd_pos {I} _.

(** The loop that fills the buffer with modifiers. *)
Fixpoint modifiers {I} (inner : iterator I) (fuel : nat) (input : Peekable.t I) (buf : list Z) : res (Peekable.t I * list Z) :=
  match fuel with
  | O => NoFuel
  | S fuel =>
      '(o, input) ← Peekable.next_if inner (λ x, c ← Lookup.ccc T x; Ok (negb (c =? 0))) fuel input;
      match o with
      | Some ch => buf ← decompose ch buf; modifiers inner fuel input buf
      | None => Ok (input, buf)
      end
  end.

Definition nfd_next {I} (inner : iterator I) : iterator (NfdIterator I) := λ fuel it,
  match nfd_buf it !! nfd_pos it with
  | Some ch => Ok (Some ch, mkNfd (nfd_input it) (nfd_buf it) (S (nfd_pos it)))
  | None =>
      '(o, input) ← Peekable.next_if inner (λ x, c ← Lookup.ccc T x; Ok (c =? 0)) fuel (nfd_input it);
      buf ← match o with Some ch => decompose ch [] | None => Ok [] end;
      '(input, buf) ← modifiers inner fuel input buf;
      buf ← sort_by_key (Lookup.ccc T) buf;
      match buf with
      | ch :: _ => Ok (Some ch, mkNfd input buf 1)
      | [] => Ok (None, mkNfd input buf 0)
      end
  end.

Definition nfd {I} (input : I) : NfdIterator I := mkNfd (Peekable.mk input None) [] 0.

(** ** [lib.rs] *)
Record CaseFoldIterator (I : Type) : Type := mkCaseFold { cf_input : I; cf_buf : list Z }.
#[global] Arguments mkCaseFold {I} _ _.
#[global] Arguments cf_input {I} _.
#[global] Arguments cf_buf {I} _.

Definition casefold_next {I} (inner : iterator I) : iterator (CaseFoldIterator I) := λ fuel it,
  match cf_buf it with
  | ch :: buf => Ok (Some ch, mkCaseFold (cf_input it) buf)
  | [] =>
      '(o, input) ← inner fuel (cf_input it);
      match o with
      | None => Ok (None, mkCaseFold input [])
      | Some ch =>
          m ← Lookup.casefold T ch;
          match m with
          | Some mapping =>
              match Utf8.chars mapping with
              | first :: chars => Ok (Some first, mkCaseFold input chars)
              | [] => Panic
              end
          | None => Ok (Some ch, mkCaseFold input [])
          end
      end
  end.
Definition casefold {I} (input : I) : CaseFoldIterator I := mkCaseFold input [].

(** The characters that [casefold_cmp] compares. *)
Definition name_next : iterator (NfdIterator (CaseFoldIterator (list Z))) :=
  nfd_next (filter_next (casefold_next chars_next) (λ x, b ← Lookup.default_ignorable T x; Ok (negb b))).

Definition casefold_cmp (fuel : nat) (a b : list Z) : res comparison :=
  iter_cmp name_next fuel (nfd (casefold a)) (nfd (casefold b)).

(** [CasefoldString::eq] *)
Definition casefold_eq (fuel : nat) (a b : list Z) : res bool :=
  c ← casefold_cmp fuel a b; Ok match c with Eq => true | _ => false end.

(** [CasefoldString::hash]: each folded character is written to the hasher. *)
Section hash.
Context {H : Type} (write : H → Z → H).
Fixpoint hash_loop (fuel : nat) (it : CaseFoldIterator (list Z)) (state : H) : res H :=
  match fuel with
  | O => NoFuel
  | S fuel =>
      '(o, it) ← casefold_next chars_next fuel it;
      match o with
      | Some ch => hash_loop fuel it (write state ch)
      | None => Ok state
      end
  end.
Definition casefold_hash (fuel : nat) (s : list Z) (state : H) : res H := hash_loop fuel (casefold s) state.
End hash.
End unicode.
