(* ===== verification/UnicodeNfd.v ===== *)
(** * The normal form of names

    What the iterators of [UnicodeIter] yield: [nfd] puts the decomposition of
    its input in canonical order, and [casefold_cmp] compares the normal forms
    of its arguments. *)

From S2P Require Import Prelude BTree Bytes Unicode UnicodeLookup LsmTypes ObjectRecord ObjectKeyOrder UnicodeIter.

(** ** Iterators

    With enough fuel, a computation has a result; an iterator yields a list. *)
Definition returns {A} (m : nat → res A) (a : A) : Prop := ∃ n, ∀ fuel, (n ≤ fuel)%nat → m fuel = Ok a.

Lemma returns_bind {A B} (m : nat → res A) (f : nat → A → res B) a b :
  returns m a → returns (λ fuel, f fuel a) b → returns (λ fuel, m fuel ≫= f fuel) b.
Proof. intros [n Hn] [k Hk]. exists (n + k)%nat. intros fuel Hf. rewrite Hn by lia. res_simpl. apply Hk. lia. Qed.
Lemma returns_ok {A} (a : A) : returns (λ _, Ok a) a.
Proof. by exists O. Qed.
Lemma returns_S {A} (m m' : nat → res A) a : (∀ fuel, m (S fuel) = m' fuel) → returns m' a → returns m a.
Proof. intros He [n Hn]. exists (S n). intros [|fuel] Hf; [lia|]. rewrite He. apply Hn. lia. Qed.

Section iterators.
Context {I : Type}.
Implicit Types (next : iterator I) (it : I) (l : list Z).

Inductive yields next : I → list Z → Prop :=
  | yields_nil it it' : returns (λ fuel, next fuel it) (None, it') → yields next it []
  | yields_cons it ch it' l : returns (λ fuel, next fuel it) (Some ch, it') → yields next it' l → yields next it (ch :: l).

Lemma filter_yields next pred (p : Z → bool) it l : yields next it l → Forall (λ ch, pred ch = Ok (p ch)) l →
  yields (filter_next next pred) it (filter p l).
Proof.
  induction 1 as [it it' Hr|it ch it' l Hr Hy IH]; intros Hp.
  - apply (yields_nil _ _ it'). eapply returns_S; [reflexivity|]. eapply returns_bind; [exact Hr|]. apply returns_ok.
  - apply Forall_cons in Hp as [Hc Hp]. specialize (IH Hp). rewrite filter_cons. destruct (decide (p ch)) as [Ht|Hf].
    + apply (yields_cons _ _ _ it'); [|done]. eapply returns_S; [reflexivity|]. eapply returns_bind; [exact Hr|]. cbn beta iota. rewrite Hc. res_simpl. destruct (p ch); [apply returns_ok|done].
    + assert (∀ o it2, returns (λ fuel, filter_next next pred fuel it') (o, it2) → returns (λ fuel, filter_next next pred fuel it) (o, it2)) as Hskip.
      { intros o it2 H2. eapply returns_S; [reflexivity|]. eapply returns_bind; [exact Hr|]. cbn beta iota. rewrite Hc. res_simpl. destruct (p ch); [done|]. exact H2. }
      inversion IH as [? ? H1|? c ? l' H1 H2]; subst; [eapply yields_nil; by apply Hskip|]. eapply yields_cons; [by apply Hskip|done].
Qed.

(** *** What a peekable iterator has before it *)
Definition ahead next (p : Peekable.t I) l : Prop :=
  match Peekable.peeked p with
  | None => yields next (Peekable.iter p) l
  | Some None => l = []
  | Some (Some ch) => ∃ l', l = ch :: l' ∧ yields next (Peekable.iter p) l'
  end.

Lemma peek_next next p l : ahead next p l → ∃ p', returns (λ fuel, Peekable.next next fuel p) (head l, p') ∧
  Peekable.peeked p' = None ∧ (l ≠ [] → yields next (Peekable.iter p') (tail l)).
Proof.
  destruct p as [it [[ch|]|]]; unfold ahead, Peekable.next; cbn.
  - intros (l' & -> & Hy). eexists. split; [apply returns_ok|]. done.
  - intros ->. eexists. split; [apply returns_ok|]. done.
  - intros Hy. inversion Hy as [? it' Hr|? ch it' l' Hr Hy']; subst; eexists; (split; [eapply returns_bind; [exact Hr|]; apply returns_ok|]); done.
Qed.
Lemma next_if_yes next func p ch l : ahead next p (ch :: l) → func ch = Ok true → ∃ p', returns (λ fuel, Peekable.next_if next func fuel p) (Some ch, p') ∧ ahead next p' l.
Proof.
  intros Ha Hf. destruct (peek_next _ _ _ Ha) as (p' & Hr & Hp & Hy). exists p'. split.
  - unfold Peekable.next_if. eapply returns_bind; [exact Hr|]. cbn. rewrite Hf. res_simpl. apply returns_ok.
  - unfold ahead. rewrite Hp. by apply Hy.
Qed.
Lemma next_if_no next func p l : ahead next p l → match l with ch :: _ => func ch = Ok false | [] => True end →
  ∃ p', returns (λ fuel, Peekable.next_if next func fuel p) (None, p') ∧ ahead next p' l.
Proof.
  intros Ha Hf. destruct (peek_next _ _ _ Ha) as (p' & Hr & Hp & Hy). exists (Peekable.mk (Peekable.iter p') (Some (head l))). split.
  - unfold Peekable.next_if. eapply returns_bind; [exact Hr|]. destruct l as [|ch l]; cbn; [|rewrite Hf]; res_simpl; apply returns_ok.
  - unfold ahead. cbn. destruct l as [|ch l]; [done|]. exists l. split; [done|]. by apply Hy.
Qed.

Lemma cmp_yields next a b la lb : yields next a la → yields next b lb → returns (λ fuel, iter_cmp next fuel a b) (seq_cmp la lb).
Proof.
  intros Ha. revert b lb. induction Ha as [a a' Hra|a ch a' la Hra Hya IH]; intros b lb Hb; inversion Hb as [? b' Hrb|? ch' b' lb' Hrb Hyb]; subst;
    (eapply returns_S; [reflexivity|]; eapply returns_bind; [exact Hra|]; eapply returns_bind; [exact Hrb|]); cbn beta iota; try apply returns_ok.
  cbn [seq_cmp]. destruct (ch ?= ch'); [apply IH; done|apply returns_ok..].
Qed.
End iterators.

Lemma chars_yields s : yields chars_next s s.
Proof. induction s as [|ch s IH]; [by eapply yields_nil, returns_ok|]. by eapply yields_cons; [apply returns_ok|]. Qed.

(** ** Canonical order

    The Unicode standard's algorithm: adjacent characters are exchanged as
    long as the class of the first is greater than that of the second, which
    is not 0. *)
Section canonical.
Context (class : Z → Z).

Definition reorderable (a b : Z) : Prop := 0 < class b < class a.
#[global] Instance reorderable_dec a b : Decision (reorderable a b).
Proof. unfold reorderable. apply _. Defined.
Inductive exchange : list Z → list Z → Prop :=
  | exchange_at l1 a b l2 : reorderable a b → exchange (l1 ++ a :: b :: l2) (l1 ++ b :: a :: l2).
Definition canonical (l : list Z) : Prop := ∀ l1 a b l2, l = l1 ++ a :: b :: l2 → ¬ reorderable a b.
Definition canonical_order (l out : list Z) : Prop := rtc exchange l out ∧ canonical out.

(** The result, by insertion. *)
Fixpoint ins (a : Z) (l : list Z) : list Z :=
  match l with
  | [] => [a]
  | b :: l' => if decide (reorderable a b) then b :: ins a l' else a :: l
  end.
Definition canon (l : list Z) : list Z := foldr ins [] l.

Lemma ins_comm a b l : reorderable a b → ins a (ins b l) = ins b (ins a l).
Proof.
  unfold reorderable. intros Hab. induction l as [|c l IH]; cbn; unfold reorderable in *; [rewrite decide_True, decide_False by lia; done|].
  destruct (decide (0 < class c < class b)) as [Hcb|Hcb].
  - rewrite decide_True by lia. cbn. rewrite !decide_True by (unfold reorderable; lia). by rewrite IH.
  - cbn. rewrite (decide_True (P := reorderable a b)) by done. destruct (decide (0 < class c < class a)) as [Hca|Hca]; cbn; unfold reorderable in *; [rewrite decide_True, decide_False by lia; done|rewrite !decide_False by lia; done].
Qed.
Lemma canon_exchange l l' : exchange l l' → canon l = canon l'.
Proof. destruct 1 as [l1 a b l2 Hab]. unfold canon. rewrite !foldr_app. f_equal. cbn. by apply ins_comm. Qed.
Lemma canon_canonical l : canonical l → canon l = l.
Proof.
  induction l as [|a l IH]; intros Hc; [done|]. cbn. fold (canon l). rewrite IH.
  - destruct l as [|b l]; [done|]. cbn. rewrite decide_False; [done|]. by apply (Hc [] a b l).
  - intros l1 c d l2 ->. by apply (Hc (a :: l1) c d l2).
Qed.

(** There is one canonical order of a list. *)
Lemma canonical_order_unique l out : canonical_order l out → out = canon l.
Proof. intros [Hr Hc]. rewrite <- (canon_canonical out Hc). symmetry. induction Hr as [l|l1 l2 l3 He Hr IH]; [done|]. rewrite (canon_exchange _ _ He). auto. Qed.

Lemma exchange_cons a l l' : exchange l l' → exchange (a :: l) (a :: l').
Proof. destruct 1 as [l1 c d l2 H]. by apply (exchange_at (a :: l1)). Qed.
Lemma ins_exchanges a l : rtc exchange (a :: l) (ins a l).
Proof.
  induction l as [|b l IH]; [done|]. cbn. destruct (decide (reorderable a b)) as [H|H]; [|done].
  eapply rtc_l; [by apply (exchange_at [] a b l)|]. eapply (rtc_congruence (λ l, b :: l)); [|exact IH]. intros. by apply exchange_cons.
Qed.
Lemma canonical_cons a l : canonical (a :: l) ↔ canonical l ∧ match l with b :: _ => ¬ reorderable a b | [] => True end.
Proof.
  split.
  - intros Hc. split; [intros l1 c d l2 ->; by apply (Hc (a :: l1) c d l2)|]. destruct l as [|b l]; [done|]. by apply (Hc [] a b l).
  - intros [Hc Ha] [|x l1] c d l2 [= -> ->]; [done|]. by apply (Hc l1 c d l2).
Qed.
Lemma ins_canonical a l : canonical l → canonical (ins a l).
Proof.
  induction l as [|b l IH]; intros Hc; [intros [|? [|? ?]] ? ? ?; done|]. cbn. destruct (decide (reorderable a b)) as [H|H]; [|by apply canonical_cons].
  apply canonical_cons in Hc as [Hc Hb]. apply canonical_cons. split; [by apply IH|]. destruct l as [|c l]; cbn; [unfold reorderable in *; lia|].
  destruct (decide (reorderable a c)); [done|]. unfold reorderable in *. lia.
Qed.
Lemma canon_order l : canonical_order l (canon l).
Proof.
  induction l as [|a l [IH1 IH2]]; [split; [done|]; by intros [|? [|? ?]] ? ? ?|]. split; [|by apply ins_canonical]. cbn. fold (canon l).
  etrans; [|apply ins_exchanges]. eapply (rtc_congruence (λ l, a :: l)); [|exact IH1]. intros. by apply exchange_cons.
Qed.

(** A character of class 0 separates what is before it from what is behind. *)
Definition starts_plain (l : list Z) : Prop := match l with c :: _ => class c = 0 | [] => True end.
Lemma ins_app a l c l2 : class c = 0 → ins a (l ++ c :: l2) = ins a l ++ c :: l2.
Proof. intros Hc. induction l as [|b l IH]; cbn; [rewrite decide_False by (unfold reorderable; lia); done|]. destruct (decide (reorderable a b)); [by rewrite IH|done]. Qed.
Lemma canon_app l1 l2 : starts_plain l2 → canon (l1 ++ l2) = canon l1 ++ canon l2.
Proof.
  destruct l2 as [|c l2]; intros Hc; [by rewrite !app_nil_r|]. cbn in Hc. assert (ins c (canon l2) = c :: canon l2) as Hi by (destruct (canon l2); [done|]; cbn; rewrite decide_False by (unfold reorderable; lia); done).
  induction l1 as [|a l1 IH]; [done|]. cbn [app canon foldr]. fold (canon (l1 ++ c :: l2)) (canon l1) (canon l2). rewrite IH. cbn [canon foldr]. fold (canon l2). rewrite Hi. by apply ins_app.
Qed.

(** *** Sorting *)
Lemma ins_forall (P : Z → Prop) a l : P a → Forall P l → Forall P (ins a l).
Proof. intros Ha. induction 1 as [|b l Hb Hl IH]; cbn; [by constructor|]. by destruct (decide (reorderable a b)); repeat constructor. Qed.
Lemma canon_forall (P : Z → Prop) l : Forall P l → Forall P (canon l).
Proof. induction 1 as [|a l Ha Hl IH]; [constructor|]. by apply ins_forall. Qed.

Abbreviation keyed := (fmap (λ c, (class c, c))).
Lemma insert_ins a l : 0 ≤ class a → Forall (λ c, 0 ≤ class c ∧ (class a = 0 ∨ 0 < class c)) l → insert_by (class a, a) (keyed l) = keyed (ins a l).
Proof.
  intros Ha. induction 1 as [|b l [Hb0 Hb] Hl IH]; [done|]. cbn. unfold reorderable.
  destruct (Z.ltb_spec (class b) (class a)); [rewrite decide_True by lia|rewrite decide_False by lia; done]. rewrite fmap_cons. f_equal. exact IH.
Qed.
Lemma sort_marks ms : Forall (λ c, 0 < class c) ms → foldr insert_by [] (keyed ms) = keyed (canon ms).
Proof.
  induction 1 as [|a l Ha Hl IH]; [done|]. cbn [fmap list_fmap foldr canon] in *. rewrite IH. fold (canon l). apply insert_ins; [lia|]. apply canon_forall. eapply Forall_impl; [exact Hl|]. cbn. lia.
Qed.
Lemma sort_block s ms : Forall (λ c, class c = 0) s → Forall (λ c, 0 < class c) ms → foldr insert_by [] (keyed (s ++ ms)) = keyed (canon (s ++ ms)).
Proof.
  intros Hs Hm. induction Hs as [|a l Ha Hl IH]; [by apply sort_marks|]. cbn in IH |- *. rewrite IH. fold (canon (l ++ ms)). apply insert_ins; [lia|]. apply canon_forall, Forall_app. split; (eapply Forall_impl; [eassumption|]); cbn; lia.
Qed.
Lemma sort_canon (key : Z → res Z) s ms : Forall (λ c, class c = 0) s → Forall (λ c, 0 < class c) ms → Forall (λ c, key c = Ok (class c)) (s ++ ms) →
  sort_by_key key (s ++ ms) = Ok (canon (s ++ ms)).
Proof.
  intros Hs Hm Hk. assert (∀ l, Forall (λ c, key c = Ok (class c)) l → keys_of key l = Ok (keyed l)) as Hkeys.
  { induction 1 as [|c l Hc Hl IH]; [done|]. cbn [keys_of]. rewrite Hc. res_simpl. by rewrite IH. }
  pose proof (sort_block s ms Hs Hm) as Hb. revert Hb Hk. generalize (s ++ ms). intros l Hb Hk. destruct l as [|a [|b l]]; [done..|]. unfold sort_by_key. rewrite Hkeys by done. res_simpl. rewrite Hb.
  f_equal. rewrite <- list_fmap_compose. apply list_fmap_id.
Qed.
End canonical.

(** ** [nfd] *)
Section nfd.
Context (T : Tables) (class : Z → Z) (dec : Z → list Z).

(** A character of class 0 decomposes into some of class 0 and modifiers; a
    modifier into modifiers. *)
Record regular (ch : Z) : Prop := {
  regular_class : 0 ≤ class ch;
  regular_plain : class ch = 0 → ∃ s ms, dec ch = s ++ ms ∧ s ≠ [] ∧ Forall (λ c, class c = 0) s ∧ Forall (λ c, 0 < class c) ms;
  regular_modifier : 0 < class ch → dec ch ≠ [] ∧ Forall (λ c, 0 < class c) (dec ch);
}.
(** The tables say so. *)
Record looked_up (ch : Z) : Prop := {
  lookup_class : Lookup.ccc T ch = Ok (class ch);
  lookup_classes : Forall (λ c, Lookup.ccc T c = Ok (class c)) (dec ch);
  lookup_dec out : decompose T ch out = Ok (out ++ dec ch);
}.

Section input.
Context {I : Type} (inner : iterator I).
Abbreviation text := (Forall (λ ch, regular ch ∧ looked_up ch)).
Abbreviation decs l := (concat (dec <$> l)).

Lemma modifiers_returns ms rest p buf : text (ms ++ rest) → Forall (λ ch, 0 < class ch) ms → starts_plain class rest → ahead inner p (ms ++ rest) →
  ∃ p', returns (λ fuel, modifiers T inner fuel p buf) (p', buf ++ decs ms) ∧ ahead inner p' rest.
Proof.
  intros Ht Hm Hr. revert p buf. induction Hm as [|ch ms Hch Hm IH]; intros p buf Ha; cbn [app] in *.
  - destruct (next_if_no inner (λ x, c ← Lookup.ccc T x; Ok (negb (c =? 0))) p rest Ha) as (p' & Hp & Ha').
    { destruct rest as [|c rest]; [done|]. apply Forall_cons in Ht as [[_ Hc] _]. rewrite (lookup_class _ Hc). res_simpl. cbn in Hr. by rewrite Hr. }
    exists p'. split; [|done]. eapply returns_S; [reflexivity|]. eapply returns_bind; [exact Hp|]. cbn. rewrite app_nil_r. apply returns_ok.
  - apply Forall_cons in Ht as [[_ Hc] Ht]. destruct (next_if_yes inner (λ x, c ← Lookup.ccc T x; Ok (negb (c =? 0))) p ch _ Ha) as (p' & Hp & Ha').
    { rewrite (lookup_class _ Hc). res_simpl. destruct (Z.eqb_spec (class ch) 0); [lia|done]. }
    destruct (IH Ht p' (buf ++ dec ch) Ha') as (p2 & Hp2 & Ha2). exists p2. split; [|done]. eapply returns_S; [reflexivity|]. eapply returns_bind; [exact Hp|]. cbn beta iota.
    rewrite (lookup_dec _ Hc). res_simpl. rewrite fmap_cons. cbn [concat]. rewrite (assoc_L app). exact Hp2.
Qed.

(** What one refill of the buffer takes: at most one character of class 0, and
    modifiers. *)
Lemma block_split l : text l → l ≠ [] → ∃ st ms rest, l = st ++ ms ++ rest ∧ st ++ ms ≠ [] ∧ (st = [] ∨ ∃ c, st = [c] ∧ class c = 0) ∧ Forall (λ ch, 0 < class ch) ms ∧ starts_plain class rest.
Proof.
  assert (∀ l, text l → ∃ ms rest, l = ms ++ rest ∧ Forall (λ ch, 0 < class ch) ms ∧ starts_plain class rest) as Hspan.
  { induction 1 as [|ch l0 [Hr _] Hl (ms & rest & -> & Hm & Hp)]; [by exists [], []|]. pose proof (regular_class _ Hr). destruct (decide (class ch = 0)) as [H0|H0]; [by exists [], (ch :: ms ++ rest)|].
    exists (ch :: ms), rest. split_and!; [done| |done]. constructor; [lia|done]. }
  intros Ht Hne. destruct l as [|ch l]; [done|]. destruct (decide (class ch = 0)) as [H0|H0].
  - apply Forall_cons in Ht as [_ Ht]. destruct (Hspan _ Ht) as (ms & rest & -> & Hm & Hp). exists [ch], ms, rest. split_and!; [done|done|right; by exists ch|done|done].
  - destruct (Hspan _ Ht) as (ms & rest & He & Hm & Hp). exists [], ms, rest. split_and!; [done| |by left|done|done]. intros Hms. cbn in Hms. subst ms. cbn in He. subst rest. done.
Qed.

(** The decomposition of a block is sorted into canonical order. *)
Lemma block_shape st ms : Forall (λ ch, regular ch ∧ looked_up ch) (st ++ ms) → (st = [] ∨ ∃ c, st = [c] ∧ class c = 0) → Forall (λ ch, 0 < class ch) ms →
  ∃ s ds, decs (st ++ ms) = s ++ ds ∧ Forall (λ c, class c = 0) s ∧ Forall (λ c, 0 < class c) ds ∧ (st ++ ms ≠ [] → decs (st ++ ms) ≠ []).
Proof.
  intros Ht Hst Hm. assert (Forall (λ c, 0 < class c) (decs ms) ∧ (ms ≠ [] → decs ms ≠ [])) as [Hds Hne].
  { apply Forall_app in Ht as [_ Ht]. clear Hst. induction Hm as [|ch ms Hch Hm IH]; [by split|]. apply Forall_cons in Ht as [[Hr _] Ht]. destruct (regular_modifier _ Hr Hch) as [Hn Hd]. destruct (IH Ht) as [IH1 _].
    rewrite fmap_cons. cbn [concat]. split; [by apply Forall_app|]. intros _ [? _]%app_nil. done. }
  destruct Hst as [->|(c & -> & Hc)]; cbn [app] in *; [by exists [], (decs ms)|]. apply Forall_cons in Ht as [[Hr _] _]. destruct (regular_plain _ Hr Hc) as (s & ds & Hd & Hs & Hs0 & Hd0).
  exists s, (ds ++ decs ms). rewrite fmap_cons. cbn [concat]. rewrite Hd, (assoc_L app). split_and!; [done|done|by apply Forall_app|]. intros _ H. apply app_nil in H as [[? _]%app_nil _]. done.
Qed.
Lemma sort_decs st ms : Forall (λ ch, regular ch ∧ looked_up ch) (st ++ ms) → (st = [] ∨ ∃ c, st = [c] ∧ class c = 0) → Forall (λ ch, 0 < class ch) ms →
  sort_by_key (Lookup.ccc T) (decs (st ++ ms)) = Ok (canon class (decs (st ++ ms))).
Proof.
  intros Ht Hst Hm. destruct (block_shape st ms Ht Hst Hm) as (s & ds & He & Hs & Hd & _). assert (Forall (λ c, Lookup.ccc T c = Ok (class c)) (decs (st ++ ms))) as Hk; [|rewrite He in *; by apply sort_canon].
  apply Forall_concat, Forall_fmap. eapply Forall_impl; [exact Ht|]. intros ch [_ Hl]. exact (lookup_classes _ Hl).
Qed.

(** The first character, if it is of class 0. *)
Lemma starter_returns st l p : text (st ++ l) → (st = [] ∨ ∃ c, st = [c] ∧ class c = 0) → (st = [] → match l with c :: _ => 0 < class c | [] => True end) → ahead inner p (st ++ l) →
  ∃ p', returns (λ fuel, '(o, input) ← Peekable.next_if inner (λ x, c ← Lookup.ccc T x; Ok (c =? 0)) fuel p; buf ← match o with Some ch => decompose T ch [] | None => Ok [] end; Ok (input, buf)) (p', decs st) ∧ ahead inner p' l.
Proof.
  intros Ht [->|(c & -> & Hc)] Hl Ha; cbn [app] in *.
  - destruct (next_if_no inner (λ x, c ← Lookup.ccc T x; Ok (c =? 0)) p l Ha) as (p' & Hp & Ha').
    { specialize (Hl eq_refl). destruct l as [|c l]; [done|]. apply Forall_cons in Ht as [[_ H] _]. rewrite (lookup_class _ H). res_simpl. f_equal. lia. }
    exists p'. split; [|done]. eapply returns_bind; [exact Hp|]. apply returns_ok.
  - apply Forall_cons in Ht as [[_ H] _]. destruct (next_if_yes inner (λ x, c ← Lookup.ccc T x; Ok (c =? 0)) p c l Ha) as (p' & Hp & Ha').
    { rewrite (lookup_class _ H). res_simpl. f_equal. lia. }
    exists p'. split; [|done]. eapply returns_bind; [exact Hp|]. cbn beta iota. rewrite (lookup_dec _ H). res_simpl. cbn. rewrite app_nil_r. apply returns_ok.
Qed.

(** A refill. *)
Lemma refill_returns st ms rest it : text (st ++ ms ++ rest) → st ++ ms ≠ [] → (st = [] ∨ ∃ c, st = [c] ∧ class c = 0) → Forall (λ ch, 0 < class ch) ms → starts_plain class rest →
  nfd_buf it !! nfd_pos it = None → ahead inner (nfd_input it) (st ++ ms ++ rest) →
  ∃ c out p', canon class (decs (st ++ ms)) = c :: out ∧ returns (λ fuel, nfd_next T inner fuel it) (Some c, mkNfd p' (c :: out) 1) ∧ ahead inner p' rest.
Proof.
  intros Ht Hne Hst Hm Hr Hb Ha. destruct (starter_returns st (ms ++ rest) (nfd_input it) Ht Hst) as (p1 & Hp1 & Ha1); [|done|].
  { intros ->. destruct Hm; [done|]. done. }
  assert (text (ms ++ rest)) as Ht2 by (by apply Forall_app in Ht as [_ ?]). destruct (modifiers_returns ms rest p1 (decs st) Ht2 Hm Hr Ha1) as (p2 & Hp2 & Ha2).
  assert (text (st ++ ms)) as Ht3 by (rewrite (assoc_L app) in Ht; by apply Forall_app in Ht as [? _]). pose proof (sort_decs st ms Ht3 Hst Hm) as Hs.
  rewrite <- concat_app, <- fmap_app in Hp2. destruct (canon class (decs (st ++ ms))) as [|c out] eqn:Ec.
  { exfalso. destruct (block_shape st ms Ht3 Hst Hm) as (s & ds & _ & _ & _ & Hnn). apply (Hnn Hne). destruct (decs (st ++ ms)) as [|a l]; [done|]. cbn in Ec. destruct (foldr _ _ _); cbn in Ec; [done|]. by destruct (decide _). }
  exists c, out, p2. split_and!; [done| |done]. unfold nfd_next. rewrite Hb.
  destruct Hp1 as [n1 Hp1], Hp2 as [n2 Hp2]. exists (n1 + n2)%nat. intros fuel Hf. specialize (Hp1 fuel ltac:(lia)). specialize (Hp2 fuel ltac:(lia)).
  destruct (Peekable.next_if _ _ _ _) as [[o input]| | |]; res_simpl in Hp1; try done. res_simpl. destruct (match o with Some _ => _ | None => _ end) as [buf| | |]; res_simpl in Hp1; try done. injection Hp1 as -> ->. res_simpl.
  rewrite Hp2. res_simpl. rewrite Hs. by res_simpl.
Qed.

(** At the end. *)
Lemma finish_returns it : nfd_buf it !! nfd_pos it = None → ahead inner (nfd_input it) [] → ∃ p', returns (λ fuel, nfd_next T inner fuel it) (None, mkNfd p' [] 0).
Proof.
  intros Hb Ha. destruct (next_if_no inner (λ x, c ← Lookup.ccc T x; Ok (c =? 0)) (nfd_input it) [] Ha) as (p1 & Hp1 & Ha1); [done|].
  destruct (modifiers_returns [] [] p1 [] ltac:(constructor) ltac:(constructor)) as (p2 & Hp2 & _); [done|done|]. exists p2. unfold nfd_next. rewrite Hb. eapply returns_bind; [exact Hp1|]. cbn beta iota. res_simpl.
  eapply returns_bind; [exact Hp2|]. cbn. apply returns_ok.
Qed.

Lemma decs_plain l : text l → starts_plain class l → starts_plain class (decs l).
Proof.
  destruct l as [|c l]; [done|]. intros [[Hr _] _]%Forall_cons Hc. destruct (regular_plain _ Hr Hc) as (s & ms & He & Hne & Hs & _). rewrite fmap_cons. cbn [concat]. rewrite He.
  destruct Hs as [|x s Hx Hs]; [done|]. exact Hx.
Qed.

(** [nfd] yields the decomposition in canonical order. *)
Lemma nfd_rest l it : text l → ahead inner (nfd_input it) l → yields (nfd_next T inner) it (drop (nfd_pos it) (nfd_buf it) ++ canon class (decs l)).
Proof.
  revert it. remember (length l) as n eqn:Hn. revert l Hn. induction (lt_wf n) as [n _ IH]. intros l -> it Ht Ha.
  remember (drop (nfd_pos it) (nfd_buf it)) as b eqn:Hb. revert it Ha Hb. induction b as [|c b IHb]; intros it Ha Hb.
  - assert (nfd_buf it !! nfd_pos it = None) as Hnone by (apply lookup_ge_None_2; apply (f_equal length) in Hb; rewrite length_drop in Hb; cbn in Hb; lia).
    destruct l as [|ch l]; [destruct (finish_returns it Hnone Ha) as [p' Hp]; by eapply yields_nil|].
    destruct (block_split (ch :: l) Ht) as (st & ms & rest & He & Hne & Hst & Hm & Hr); [done|]. rewrite He in *. clear He. destruct (refill_returns st ms rest it Ht Hne Hst Hm Hr Hnone Ha) as (c & out & p' & Hc & Hp & Ha').
    rewrite (assoc_L app) in Ht |- *. apply Forall_app in Ht as [_ Ht].
    assert (decs ((st ++ ms) ++ rest) = decs (st ++ ms) ++ decs rest) as -> by (by rewrite (fmap_app _ (st ++ ms)), concat_app).
    rewrite canon_app, Hc; [|by apply decs_plain]. eapply yields_cons; [exact Hp|]. apply (IH (length rest)) with (it := mkNfd p' (c :: out) 1); [|done..].
    rewrite (assoc_L app), length_app. destruct (st ++ ms); [done|]. cbn. lia.
  - eapply yields_cons; [|apply (IHb (mkNfd (nfd_input it) (nfd_buf it) (S (nfd_pos it)))); [done|]].
    + assert (nfd_buf it !! nfd_pos it = Some c) as Hl by (rewrite <- (Nat.add_0_r (nfd_pos it)), <- lookup_drop, <- Hb; done). unfold nfd_next. rewrite Hl. apply returns_ok.
    + cbn. replace (S (nfd_pos it)) with (nfd_pos it + 1)%nat by lia. by rewrite <- drop_drop, <- Hb.
Qed.
End input.
End nfd.

(** ** [casefold] *)
Lemma casefold_yields T {I} (inner : iterator I) (fold : Z → option (list Z)) it l : yields inner it l →
  Forall (λ ch, Lookup.casefold T ch = Ok (Utf8.as_bytes <$> fold ch) ∧ match fold ch with Some s => s ≠ [] ∧ Forall is_char s | None => True end) l →
  ∀ buf, yields (casefold_next T inner) (mkCaseFold it buf) (buf ++ concat ((λ ch, default [ch] (fold ch)) <$> l)).
Proof.
  induction 1 as [it it' Hr|it ch it' l Hr Hy IH]; intros Hl buf; (induction buf as [|c buf IHb]; [|eapply yields_cons; [apply returns_ok|exact IHb]]).
  - eapply (yields_nil _ _ (mkCaseFold it' [])). unfold casefold_next. cbn [cf_buf cf_input]. eapply returns_bind; [exact Hr|]. apply returns_ok.
  - apply Forall_cons in Hl as [[Hc Hf] Hl]. rewrite fmap_cons. cbn [concat app]. destruct (fold ch) as [s|] eqn:Ef.
    + destruct Hf as [Hne Hs]. destruct s as [|first rest]; [done|]. cbn [default app]. eapply yields_cons; [|apply (IH Hl rest)]. unfold casefold_next. cbn [cf_buf cf_input]. eapply returns_bind; [exact Hr|]. cbn beta iota.
      rewrite Hc. cbn [fmap option_fmap option_map]. res_simpl. rewrite utf8_roundtrip by done. apply returns_ok.
    + cbn [default app]. eapply yields_cons; [|apply (IH Hl [])]. unfold casefold_next. cbn [cf_buf cf_input]. eapply returns_bind; [exact Hr|]. cbn beta iota. rewrite Hc. res_simpl. apply returns_ok.
Qed.

(** ** The normal form of a name, by the database *)
Section database.
Context (ucd : UCD).

Inductive canonical_decomposition : Z → list Z → Prop :=
  | hangul_syllable l v t : 0 ≤ l < 19 → 0 ≤ v < 21 → 0 ≤ t < 28 →
      canonical_decomposition (0xac00 + (l * 21 + v) * 28 + t) ([0x1100 + l; 0x1161 + v] ++ if decide (t = 0) then [] else [0x11a7 + t])
  | other_character ch s : ¬ (0xac00 ≤ ch < 0xd7a4) → decomposes (character_decomposition ucd) ch s → canonical_decomposition ch s.

Definition class : Z → Z := class_of (derived_combining_class ucd).
Definition folded (s : list Z) : list Z := concat ((λ ch, default [ch] (case_folding ucd !! ch)) <$> s).
Definition visible (s : list Z) : list Z := filter (λ ch, negb (ignorable (default_ignorable_code_point ucd) ch)) (folded s).
(** [dec] gives the canonical decompositions. *)
Definition normal (dec : Z → list Z) (s : list Z) : list Z := canon class (concat (dec <$> visible s)).

(** Text that [nfd] can order: characters of the first sixteen planes. *)
Definition orderable (dec : Z → list Z) (ch : Z) : Prop :=
  canonical_decomposition ch (dec ch) ∧ regular class dec ch ∧ Forall (λ c, 0 ≤ c < 0x100000) (ch :: dec ch).
Definition name (dec : Z → list Z) (s : list Z) : Prop :=
  Forall (λ ch, is_char ch ∧ case_folding ucd !! ch ≠ Some []) s ∧ Forall (orderable dec) (visible s).

Lemma decomposes_unique data ch s : decomposes data ch s → ∀ s', decomposes data ch s' → s' = s.
Proof.
  revert ch s. apply (decomposes_mut data (λ ch s _, ∀ s', decomposes data ch s' → s' = s) (λ l s _, ∀ s', decompose_all data l s' → s' = s)).
  - intros ch Hd Hu s' Hs. inversion Hs as [|? d ? Hd' Hne]; subst; [done|]. rewrite Hd' in Hd. naive_solver.
  - intros ch d s Hd Hne Ha IH s' Hs. inversion Hs as [? Hd' ?|? d' ? Hd' _ Ha']; subst; [rewrite Hd in Hd'; naive_solver|]. rewrite Hd in Hd'. injection Hd' as <-. by apply IH.
  - intros s' Hs. by inversion Hs.
  - intros ch s l t _ IH1 _ IH2 s' Hs. inversion Hs as [|? s1 ? t1 H1 H2]; subst. by rewrite (IH1 _ H1), (IH2 _ H2).
Qed.
Lemma decomposes_chars data ch s : decomposes data ch s → Forall is_char s.
Proof.
  revert ch s. apply (decomposes_mut data (λ ch s _, Forall is_char s) (λ l s _, Forall is_char s)); [|done|constructor|intros; by apply Forall_app].
  intros ch _ [_ Hc]%from_u32_Some. by constructor.
Qed.

Lemma decompose_spec T ch s out : tables_agree ucd T → is_char ch → canonical_decomposition ch s → decompose T ch out = Ok (out ++ s).
Proof.
  intros HT Hch Hd. unfold decompose. destruct Hd as [l v t Hl Hv Ht|ch s Hnh Hd].
  - rewrite (proj2 (Z.leb_le _ _)), (proj2 (Z.ltb_lt _ _)) by lia. cbn [andb]. f_equal. unfold hangul_decomposition. f_equal. set (i := _ - _). assert (i = (l * 21 + v) * 28 + t) as -> by lia. cbn [app].
    assert (((l * 21 + v) * 28 + t) / 588 = l) as -> by (Z.to_euclidean_division_equations; lia). assert (((l * 21 + v) * 28 + t) `mod` 588 / 28 = v) as -> by (Z.to_euclidean_division_equations; lia).
    assert (((l * 21 + v) * 28 + t) `mod` 28 = t) as -> by (Z.to_euclidean_division_equations; lia). destruct (decide (t = 0)) as [->|Hn]; [done|]. destruct (Z.eqb_spec t 0); [lia|done].
  - replace ((0xac00 <=? ch) && (ch <? 0xd7a4)) with false by lia. pose proof (decomposes_unique _ _ _ Hd) as Hu. inversion Hd as [? Hn Hf|? d ? Hn Hne Ha]; subst.
    + rewrite (agree_plain _ _ HT) by done. by res_simpl.
    + destruct (agree_decomposed _ _ HT _ _ Hn Hne) as (s' & Hs & Hl). rewrite (Hu _ Hs) in Hl. rewrite Hl. res_simpl. rewrite utf8_roundtrip; [done|]. by eapply decomposes_chars.
Qed.

Lemma orderable_lookup T dec ch : tables_agree ucd T → orderable dec ch → regular class dec ch ∧ looked_up T class dec ch.
Proof.
  intros HT (Hd & Hr & [Hch Hc]%Forall_cons). split; [done|]. split; [by apply (agree_ccc _ _ HT)| |intros out; apply decompose_spec; [done|unfold is_char; lia|done]].
  eapply Forall_impl; [exact Hc|]. intros c. apply (agree_ccc _ _ HT).
Qed.
End database.

(** ** The properties *)
Section names.
Context (fuel : nat) (ucd : UCD) (T : Tables) (dec : Z → list Z).
Hypothesis (Hok : ucd_ok ucd) (Hgen : Generator.unicode_gen fuel ucd = Ok T).

Lemma name_folded s : Forall (λ ch, is_char ch ∧ case_folding ucd !! ch ≠ Some []) s → yields (casefold_next T chars_next) (casefold s) (folded ucd s) ∧ Forall is_char (folded ucd s).
Proof.
  pose proof (generated_agree _ _ _ Hok Hgen) as HT. intros Hs. split.
  - apply (casefold_yields T chars_next (λ ch, case_folding ucd !! ch) s s (chars_yields s)) with (buf := []). eapply Forall_impl; [exact Hs|]. intros ch [Hch Hne]. split; [by apply (agree_casefold _ _ HT)|].
    destruct (case_folding ucd !! ch) as [f|] eqn:Ef; [|done]. split; [congruence|by apply (agree_folded _ _ HT ch)].
  - apply Forall_concat, Forall_fmap. eapply Forall_impl; [exact Hs|]. intros ch [Hch _]. cbn. destruct (case_folding ucd !! ch) as [f|] eqn:Ef; [by apply (agree_folded _ _ HT ch)|]. by constructor.
Qed.
Lemma name_yields s : name ucd dec s → yields (name_next T) (nfd (casefold s)) (normal ucd dec s).
Proof.
  pose proof (generated_agree _ _ _ Hok Hgen) as HT. intros [Hs Hv]. destruct (name_folded s Hs) as [Hy Hc]. unfold name_next, normal.
  apply (nfd_rest T (class ucd) dec _ (visible ucd s) (nfd (casefold s))).
  - eapply Forall_impl; [exact Hv|]. intros ch. by apply orderable_lookup.
  - unfold ahead. cbn. apply (filter_yields _ _ (λ ch, negb (ignorable (default_ignorable_code_point ucd) ch)) _ _ Hy). eapply Forall_impl; [exact Hc|]. intros ch Hch. cbn. by rewrite (agree_ignorable _ _ HT ch Hch).
Qed.
End names.

(** C27: With tables generated from a database whose ranges ascend ([ucd_ok]),
    [nfd] yields the canonical decomposition of a text in canonical order: it is
    reached by exchanging reorderable pairs, has none left, and is the only such
    list. The characters of the text have to be [orderable]: they and their
    decompositions are in the first sixteen planes, and the decomposition is
    [regular], one of a character of class 0 starts with characters of class 0
    that only modifiers follow, and one of a modifier has only modifiers. This
    leaves out U+0F73, U+0F75 and U+0F81, which are of class 0 and decompose
    into modifiers. *)
Theorem nfd_canonical_order fuel ucd T dec l : ucd_ok ucd → Generator.unicode_gen fuel ucd = Ok T → Forall (orderable ucd dec) l →
  ∃ out, yields (nfd_next T chars_next) (nfd l) out ∧ canonical_order (class ucd) (concat (dec <$> l)) out ∧
    ∀ out', canonical_order (class ucd) (concat (dec <$> l)) out' → out' = out.
Proof.
  intros Hok Hgen Hl. pose proof (generated_agree _ _ _ Hok Hgen) as HT. exists (canon (class ucd) (concat (dec <$> l))). split_and!; [|apply canon_order|apply canonical_order_unique].
  apply (nfd_rest T (class ucd) dec _ l (nfd l)); [|apply chars_yields]. eapply Forall_impl; [exact Hl|]. intros ch. by apply orderable_lookup.
Qed.

(** C26: With tables generated from a database whose ranges ascend ([ucd_ok]),
    [casefold_cmp] ends, and compares the normal forms of the two names: the
    canonical order of the decomposition of what folding leaves that is not
    ignorable. Names are equal to it just when they have one normal form. A
    [name] is text in which no character folds to nothing, and in which the
    characters that are left after folding and are not ignorable are in the
    first sixteen planes, with their decompositions, and decompose regularly: a
    character of class 0 into some of class 0 and then modifiers, a modifier
    into modifiers (U+0F73, U+0F75 and U+0F81 do not). *)
Theorem casefold_cmp_normal fuel ucd T dec a b : ucd_ok ucd → Generator.unicode_gen fuel ucd = Ok T → name ucd dec a → name ucd dec b →
  ∃ n, ∀ fuel', (n ≤ fuel')%nat →
    casefold_cmp T fuel' a b = Ok (seq_cmp (normal ucd dec a) (normal ucd dec b)) ∧
    (casefold_eq T fuel' a b = Ok true ↔ normal ucd dec a = normal ucd dec b).
Proof.
  intros Hok Hgen Ha Hb. destruct (cmp_yields (name_next T) _ _ _ _ (name_yields _ _ _ _ Hok Hgen a Ha) (name_yields _ _ _ _ Hok Hgen b Hb)) as [n Hn].
  exists n. intros fuel' Hf. unfold casefold_eq, casefold_cmp. rewrite Hn by done. split; [done|]. res_simpl. split.
  - intros He. apply seq_cmp_Eq. by destruct (seq_cmp _ _).
  - intros ->. by rewrite seq_cmp_refl.
Qed.

(** [CasefoldString::hash] writes the folded name, neither filtered nor
    decomposed. *)
Lemma hash_folded fuel ucd T {H} (write : H → Z → H) state s : ucd_ok ucd → Generator.unicode_gen fuel ucd = Ok T → Forall (λ ch, is_char ch ∧ case_folding ucd !! ch ≠ Some []) s →
  returns (λ fuel, casefold_hash T write fuel s state) (foldl write state (folded ucd s)).
Proof.
  intros Hok Hgen Hs. destruct (name_folded _ _ _ Hok Hgen s Hs) as [Hy _]. unfold casefold_hash. revert state. induction Hy as [it it' Hr|it ch it' l Hr Hy IH]; intros state; (eapply returns_S; [reflexivity|]); (eapply returns_bind; [exact Hr|]).
  - apply returns_ok.
  - apply IH.
Qed.

Lemma folded_app ucd a b : folded ucd (a ++ b) = folded ucd a ++ folded ucd b.
Proof. unfold folded. by rewrite fmap_app, concat_app. Qed.
Lemma ignored_name ucd dec a c b : name ucd dec (a ++ b) → is_char c → case_folding ucd !! c = None → ignorable (default_ignorable_code_point ucd) c = true →
  folded ucd (a ++ c :: b) = folded ucd a ++ c :: folded ucd b ∧ visible ucd (a ++ c :: b) = visible ucd (a ++ b) ∧ name ucd dec (a ++ c :: b).
Proof.
  intros [[Ha Hb]%Forall_app Hv] Hc Hf Hi. assert (folded ucd (c :: b) = c :: folded ucd b) as He by (unfold folded; cbn; by rewrite Hf).
  assert (visible ucd (a ++ c :: b) = visible ucd (a ++ b)) as Hvis by (unfold visible; rewrite !folded_app, He, !filter_app; f_equal; rewrite filter_cons, Hi; done).
  split_and!; [by rewrite folded_app, He|done|]. split; [|by rewrite Hvis]. rewrite Forall_app, Forall_cons, Hf. split_and!; done.
Qed.

(** C35: Two strings that [CasefoldString] takes for equal are hashed
    differently: with an ignorable character put anywhere into a name (one that
    folding leaves as it is) the name is equal to what it was, but any hasher is
    given the character as well. The names are as in the comparison by normal
    forms: without characters that fold to nothing, with [orderable] characters
    otherwise. *)
Theorem casefold_hash_disagrees fuel ucd T dec a c b {H} (write : H → Z → H) state : ucd_ok ucd → Generator.unicode_gen fuel ucd = Ok T → name ucd dec (a ++ b) →
  is_char c → case_folding ucd !! c = None → ignorable (default_ignorable_code_point ucd) c = true →
  ∃ n, ∀ fuel', (n ≤ fuel')%nat → casefold_eq T fuel' (a ++ c :: b) (a ++ b) = Ok true ∧
    casefold_hash T write fuel' (a ++ c :: b) state = Ok (foldl write state (folded ucd a ++ c :: folded ucd b)) ∧
    casefold_hash T write fuel' (a ++ b) state = Ok (foldl write state (folded ucd a ++ folded ucd b)).
Proof.
  intros Hok Hgen Hn Hc Hf Hi. destruct (ignored_name ucd dec a c b Hn Hc Hf Hi) as (He & Hv & Hn').
  destruct (cmp_yields (name_next T) _ _ _ _ (name_yields _ _ _ _ Hok Hgen _ Hn') (name_yields _ _ _ _ Hok Hgen _ Hn)) as [n1 Hn1].
  destruct (hash_folded fuel ucd T write state _ Hok Hgen (proj1 Hn')) as [n2 Hn2]. destruct (hash_folded fuel ucd T write state _ Hok Hgen (proj1 Hn)) as [n3 Hn3].
  exists (n1 `max` (n2 `max` n3))%nat. intros fuel' Hm. rewrite Hn2, Hn3 by lia. rewrite He, folded_app. split_and!; [|done|done].
  unfold casefold_eq, casefold_cmp. rewrite Hn1 by lia. unfold normal. rewrite Hv, seq_cmp_refl. done.
Qed.
