(* ===== verification/UnicodeDemo.v ===== *)
(** * Names in a fragment of the Unicode database

    Instances of the properties of [UnicodeLookup] and [UnicodeNfd] for tables
    generated from some entries of the database, and the names for which the
    code does not do what it means to. *)

From S2P Require Import Prelude BTree Bytes Unicode UnicodeLookup LsmTypes ObjectRecord ObjectKeyOrder UnicodeIter UnicodeNfd.

Module NameDemo.
Definition ucd : UCD := mkUCD
  [(0, 0x20, 0); (0x300, 0x315, 230); (0x315, 0x316, 232); (0x316, 0x31a, 220); (0x323, 0x327, 220); (0x59a, 0x59b, 222);
   (0xf71, 0xf72, 129); (0xf72, 0xf73, 130)]
  (list_to_map [(0xe9, [0x65; 0x301]); (0xf73, [0xf71; 0xf72]); (0x1e63, [0x73; 0x323]); (0x1e69, [0x1e63; 0x307]); (0x2fa1d, [0x2a600])])
  [(0xad, 0xae); (0x115f, 0x1161)]
  (list_to_map [(0x41, [0x61]); (0x53, [0x73]); (0xdf, [0x73; 0x73]); (0x10400, [0x10428])]).
Definition fuel : nat := 10.
Definition tables : Tables := Eval vm_compute in
  match Generator.unicode_gen fuel ucd with Ok T => T | _ => mkTables [] [] [] [] [] [] [] [] [] [] end.

Lemma generated : Generator.unicode_gen fuel ucd = Ok tables.
Proof. vm_compute. reflexivity. Qed.
Lemma ucd_is_ok : ucd_ok ucd.
Proof. split; unfold disjoint_ranges, characters, is_char; (refine (bool_decide_unpack _ _); vm_compute; exact I). Qed.

(** Decompositions *)
Definition dec (ch : Z) : list Z :=
  if bool_decide (0xac00 ≤ ch < 0xd7a4) then hangul_decomposition ch []
  else match Generator.expand fuel (character_decomposition ucd) [ch] [] with Ok s => s | _ => [ch] end.

Definition regularb (class : Z → Z) (d : list Z) (ch : Z) : bool :=
  let s := filter (λ c, class c = 0) d in let ms := filter (λ c, 0 < class c) d in
  (0 <=? class ch) && if class ch =? 0 then bool_decide (d = s ++ ms) && bool_decide (s ≠ []) else bool_decide (d = ms) && bool_decide (d ≠ []).
Lemma regular_check class dec ch : regularb class (dec ch) ch = true → regular class dec ch.
Proof.
  unfold regularb. intros [H0 H]%andb_prop. apply Z.leb_le in H0. assert (∀ (P : Z → Prop) `{∀ c, Decision (P c)} (l : list Z), Forall P (filter P l)) as Hf by (intros P ? l; apply Forall_forall; by intros c [Hc _]%list_elem_of_filter).
  destruct (Z.eqb_spec (class ch) 0) as [Hc|Hc]; apply andb_prop in H as [H1%bool_decide_eq_true H2%bool_decide_eq_true]; (split; [done|intros Hc'|intros Hc']; try lia).
  - eexists _, _. split_and!; [exact H1|done|apply (Hf (λ c, class c = 0))|apply (Hf (λ c, 0 < class c))].
  - split; [done|]. rewrite H1. apply (Hf (λ c, 0 < class c)).
Qed.
Lemma expand_decomposes n data ch s : Generator.expand n data [ch] [] = Ok s → decomposes data ch s.
Proof. intros (s' & Hs & ->)%expand_sound. inversion Hs as [|? s1 ? t Hc Ht]; subst. inversion Ht; subst. cbn. by rewrite app_nil_r. Qed.

Definition orderableb (ch : Z) : bool :=
  negb (bool_decide (0xac00 ≤ ch < 0xd7a4)) && bool_decide (Generator.expand fuel (character_decomposition ucd) [ch] [] = Ok (dec ch)) &&
  regularb (class ucd) (dec ch) ch && forallb (λ c, bool_decide (0 ≤ c < 0x100000)) (ch :: dec ch).
Lemma orderable_check ch : orderableb ch = true → orderable ucd dec ch.
Proof.
  unfold orderableb. intros [[[H1 H2%bool_decide_eq_true]%andb_prop H3]%andb_prop H4]%andb_prop. split_and!.
  - apply other_character; [by apply negb_true_iff, bool_decide_eq_false in H1|by eapply expand_decomposes].
  - by apply regular_check.
  - apply Forall_forall. intros c Hc%list_elem_of_In. rewrite forallb_forall in H4. by apply (H4 c), bool_decide_eq_true in Hc.
Qed.
Definition nameb (s : list Z) : bool :=
  forallb (λ ch, bool_decide (0 ≤ ch < 0x110000) && bool_decide (case_folding ucd !! ch ≠ Some [])) s && forallb orderableb (visible ucd s).
Lemma name_check s : nameb s = true → name ucd dec s.
Proof.
  unfold nameb. rewrite andb_true_iff, !forallb_forall. intros [H1 H2]. split; apply Forall_forall; intros ch Hch%list_elem_of_In; [|by apply orderable_check, H2].
  apply H1, andb_prop in Hch as [?%bool_decide_eq_true ?%bool_decide_eq_true]. done.
Qed.

(** Witnesses *)
Lemma unicode_lookup_agrees_witness : ucd_ok ucd ∧ Generator.unicode_gen fuel ucd = Ok tables ∧ tables_agree ucd tables ∧
  Lookup.decomposition tables 0x1e69 = Ok (Some (Utf8.as_bytes [0x73; 0x323; 0x307])) ∧ Lookup.ccc tables 0x100000 = Panic.
Proof.
  destruct (unicode_lookup_agrees fuel ucd tables ucd_is_ok generated) as [Hagree Hpanic].
  split; [exact ucd_is_ok|]. split; [exact generated|]. split; [exact Hagree|]. split; [reflexivity|]. apply Hpanic. lia.
Defined.

Definition s_dot_dot : list Z := [0x53; 0x307; 0x323; 0xad].
Lemma nfd_canonical_order_witness : ∃ out, yields (nfd_next tables chars_next) (nfd [0x73; 0x307; 0x323; 0x1e69]) out ∧
  canonical_order (class ucd) (concat (dec <$> [0x73; 0x307; 0x323; 0x1e69])) out.
Proof.
  destruct (nfd_canonical_order fuel ucd tables dec [0x73; 0x307; 0x323; 0x1e69] ucd_is_ok generated) as (out & Hy & Hc & _).
  - repeat (apply Forall_cons; split; [apply orderable_check; vm_compute; reflexivity|]). apply Forall_nil. exact I.
  - exists out. exact (conj Hy Hc).
Defined.
Lemma casefold_cmp_normal_witness : nameb s_dot_dot = true ∧ nameb [0x1e69] = true ∧
  normal ucd dec s_dot_dot = [0x73; 0x323; 0x307] ∧ ∃ n, ∀ fuel', (n ≤ fuel')%nat → casefold_eq tables fuel' s_dot_dot [0x1e69] = Ok true.
Proof.
  split; [vm_compute; reflexivity|]. split; [vm_compute; reflexivity|]. split; [vm_compute; reflexivity|].
  destruct (casefold_cmp_normal fuel ucd tables dec s_dot_dot [0x1e69] ucd_is_ok generated) as [n Hn]; [apply name_check; vm_compute; reflexivity..|].
  exists n. intros fuel' Hf. apply (Hn fuel' Hf). vm_compute. reflexivity.
Defined.

Lemma decompositions_check n (data : gmap Z (list Z)) ch d : forallb (λ e, match Generator.expand n data [e.1] [] with Ok _ => true | _ => false end) (bt_entries data) = true →
  data !! ch = Some d → ∃ s, decomposes data ch s.
Proof.
  rewrite forallb_forall. intros Hall Hd%elem_of_bt_entries%list_elem_of_In. specialize (Hall _ Hd). cbn [fst] in Hall.
  destruct (Generator.expand n data [ch] []) as [s| | |] eqn:E; [|done..]. exists s. by eapply expand_decomposes.
Qed.
Lemma decompositions_end ch d : character_decomposition ucd !! ch = Some d → d ≠ [] → ∃ s, decomposes (character_decomposition ucd) ch s.
Proof. intros Hd _. revert Hd. apply (decompositions_check fuel). vm_compute. reflexivity. Qed.
Lemma unicode_gen_terminates_witness : ∃ n, ∀ fuel', (n ≤ fuel')%nat → Generator.unicode_gen fuel' ucd ≠ NoFuel.
Proof. exact (unicode_gen_terminates ucd decompositions_end). Defined.

(** ** What does not hold *)

Lemma casefold_hash_disagrees_witness : ∃ n, ∀ fuel', (n ≤ fuel')%nat → casefold_eq tables fuel' [0x61; 0xad] [0x61] = Ok true ∧
  casefold_hash tables (λ s ch, s ++ [ch]) fuel' [0x61; 0xad] [] = Ok [0x61; 0xad] ∧ casefold_hash tables (λ s ch, s ++ [ch]) fuel' [0x61] [] = Ok [0x61].
Proof.
  apply (casefold_hash_disagrees fuel ucd tables dec [0x61] 0xad [] (λ s ch, s ++ [ch]) [] ucd_is_ok generated).
  - apply name_check. vm_compute. reflexivity.
  - refine (bool_decide_unpack _ _). vm_compute. exact I.
  - vm_compute. reflexivity.
  - vm_compute. reflexivity.
Defined.

(** Nor is a decomposition hashed as the character it is of. *)
Example decomposition_hashed : casefold_eq tables 20 [0xe9] [0x65; 0x301] = Ok true ∧
  casefold_hash tables (λ s ch, s ++ [ch]) 20 [0xe9] [] = Ok [0xe9] ∧ casefold_hash tables (λ s ch, s ++ [ch]) 20 [0x65; 0x301] [] = Ok [0x65; 0x301].
Proof. vm_compute. repeat split. Qed.

(** The sequence U+0F72 U+0F73 is not put in canonical order: U+0F73 is of
    class 0 but decomposes into modifiers, which are only sorted among
    themselves. The string is therefore not equal to its own decomposition. *)
Theorem nfd_splits_vowel_signs :
  casefold_eq tables 20 [0xf40; 0xf72; 0xf73] [0xf40; 0xf72; 0xf71; 0xf72] = Ok false ∧
  canonical_decomposition ucd 0xf73 [0xf71; 0xf72] ∧ reorderable (class ucd) 0xf72 0xf71.
Proof.
  split; [vm_compute; reflexivity|]. split; [|vm_compute; split; reflexivity]. apply other_character; [lia|]. apply (expand_decomposes 10). vm_compute. reflexivity.
Qed.
End NameDemo.
