(* ===== verification/Segments.v ===== *)
(** * Layers of segments

    Items whose key is a range of positions, each with a value at every one of
    them ([at_pos]): what a stream of items says of a position, what a pile of layers shows at it (the value of the newest layer
    that covers it), and how that view changes when one stream is edited.
    Shared by the allocator's tree and the object store's extents. *)

From S2P Require Import Prelude Round LsmTypes Merge MergeProps.

Lemma push_perm {K V} i s (A A' : list (entry K V)) : A ≡ₚ A' → push i s A ≡ₚ push i s A'.
Proof. intros Hp. destruct s; cbn [push]; [done|]. by rewrite Hp. Qed.

Lemma push_swap {K V} i s j t (A : list (entry K V)) : push i s (push j t A) ≡ₚ push j t (push i s A).
Proof. destruct s, t; cbn [push]; try done. constructor. Qed.

Section ranges.
Context {K V : Type} (rng : Item K V → range).
Implicit Types (s : list (Item K V)) (A : list (entry K V)).

(** Ascending, pairwise disjoint, non-empty. *)
Definition before (x y : Item K V) : Prop := end_ (rng x) ≤ start (rng y).
Definition seg s : Prop :=
  StronglySorted before s ∧ Forall (λ x, start (rng x) < end_ (rng x)) s.

(** A pile the merger can start from. *)
Definition pile A : Prop :=
  NoDup A.*1 ∧ Forall (λ e, e.2 ≠ [] ∧ seg e.2) A.

(** Nothing of the pile lies before [f]. *)
Definition above (f : Z) A : Prop := ∀ i s x, (i, s) ∈ A → x ∈ s → f ≤ start (rng x).

(** Total length plus number of segments: the work left to a merge. *)
Definition seg_size s : nat :=
  sum_list_with (λ x, S (Z.to_nat (end_ (rng x) - start (rng x)))) s.
Definition pile_size A : nat := sum_list_with (λ e, seg_size e.2) A.

(** ** Streams *)
Lemma seg_nil : seg [].
Proof. split; constructor. Qed.

Lemma seg_cons x s :
  seg (x :: s) ↔ start (rng x) < end_ (rng x) ∧ (∀ y, y ∈ s → end_ (rng x) ≤ start (rng y)) ∧ seg s.
Proof.
  unfold seg. rewrite StronglySorted_cons, Forall_cons, Forall_forall. unfold before. naive_solver.
Qed.

Lemma seg_app s1 s2 :
  seg (s1 ++ s2) ↔
    seg s1 ∧ seg s2 ∧ ∀ x y, x ∈ s1 → y ∈ s2 → end_ (rng x) ≤ start (rng y).
Proof. unfold seg. rewrite StronglySorted_app, Forall_app. unfold before. naive_solver. Qed.

Lemma seg_singleton x : seg [x] ↔ start (rng x) < end_ (rng x).
Proof. rewrite seg_cons. pose proof seg_nil. setoid_rewrite elem_of_nil. tauto. Qed.

Lemma seg_ne s x : seg s → x ∈ s → start (rng x) < end_ (rng x).
Proof. intros [_ Hf] Hx. rewrite Forall_forall in Hf. auto. Qed.

Lemma above_perm f A A' : A ≡ₚ A' → above f A → above f A'.
Proof. intros Hp. unfold above. by setoid_rewrite Hp. Qed.

Lemma pile_perm A A' : A ≡ₚ A' → pile A → pile A'.
Proof. intros Hp. unfold pile. by rewrite Hp. Qed.

Lemma pile_size_perm A A' : A ≡ₚ A' → pile_size A = pile_size A'.
Proof. unfold pile_size. induction 1; cbn; lia. Qed.

(** ** Pushing *)
Lemma above_cons f i s A : above f ((i, s) :: A) ↔ (∀ x, x ∈ s → f ≤ start (rng x)) ∧ above f A.
Proof. unfold above. setoid_rewrite elem_of_cons. naive_solver. Qed.

Lemma above_push f i s A : above f (push i s A) ↔ (∀ x, x ∈ s → f ≤ start (rng x)) ∧ above f A.
Proof.
  destruct s as [|x s]; cbn [push]; [|apply above_cons].
  setoid_rewrite elem_of_nil. naive_solver.
Qed.

Lemma pile_cons i s A :
  pile ((i, s) :: A) ↔ (i ∉ A.*1) ∧ s ≠ [] ∧ seg s ∧ pile A.
Proof. unfold pile. rewrite fmap_cons, NoDup_cons, Forall_cons. cbn. naive_solver. Qed.

Lemma pile_push i s A : i ∉ A.*1 → seg s → pile A → pile (push i s A).
Proof. intros. destruct s; cbn [push]; [done|]. by rewrite pile_cons. Qed.

Lemma elem_of_push_fst i s A j : j ∈ (push i s A).*1 → j = i ∨ j ∈ A.*1.
Proof. destruct s; cbn [push]; [by right|]. rewrite fmap_cons, elem_of_cons. tauto. Qed.

Lemma pile_size_push i s A : pile_size (push i s A) = (seg_size s + pile_size A)%nat.
Proof. by destruct s. Qed.

Lemma pile_size_cons i s A : pile_size ((i, s) :: A) = (seg_size s + pile_size A)%nat.
Proof. done. Qed.

Lemma seg_size_cons x s :
  seg_size (x :: s) = (S (Z.to_nat (end_ (rng x) - start (rng x))) + seg_size s)%nat.
Proof. done. Qed.

Lemma layer_entries_ge ls i j s : (j, s) ∈ layer_entries i ls → i ≤ j.
Proof.
  revert i. induction ls as [|l ls IH]; intros i; cbn [layer_entries]; [by intros ?%elem_of_nil|].
  destruct l as [|x l]; cbn [push]; [intros Hin%IH; lia|].
  intros [[= -> ->]|Hin%IH]%elem_of_cons; lia.
Qed.

Lemma pile_layer_entries ls i : Forall seg ls → pile (layer_entries i ls).
Proof.
  intros Hs. revert i. induction Hs as [|l ls Hl _ IH]; intros i; cbn [layer_entries].
  { split; constructor. }
  apply pile_push; [|done|apply IH].
  intros ([j s] & -> & Hin)%list_elem_of_fmap. apply layer_entries_ge in Hin. cbn in Hin. lia.
Qed.
End ranges.

Section segments.
Context {K V U : Type} (rng : Item K V → range) (at_pos : Item K V → Z → U).
Implicit Types (s : list (Item K V)) (A : list (entry K V)) (p : Z) (v : U).
#[local] Abbreviation seg := (seg rng).
#[local] Abbreviation pile := (pile rng).
#[local] Abbreviation above := (above rng).

Definition covers s p v : Prop := ∃ x, x ∈ s ∧ in_range p (rng x) ∧ at_pos x p = v.

(** Layer [i] of the pile has [v] at [p]. *)
Definition hit A p (i : Z) v : Prop := ∃ s, (i, s) ∈ A ∧ covers s p v.

(** The newest layer (the one with the lowest index) that covers [p] has [v]. *)
Definition visible A p v : Prop :=
  ∃ i, hit A p i v ∧ ∀ j w, hit A p j w → i ≤ j.

Lemma covers_nil p v : covers [] p v ↔ False.
Proof. unfold covers. setoid_rewrite elem_of_nil. naive_solver. Qed.

Lemma covers_cons x s p v :
  covers (x :: s) p v ↔ (in_range p (rng x) ∧ v = at_pos x p) ∨ covers s p v.
Proof. unfold covers. setoid_rewrite elem_of_cons. naive_solver. Qed.

Lemma covers_app s1 s2 p v : covers (s1 ++ s2) p v ↔ covers s1 p v ∨ covers s2 p v.
Proof. unfold covers. setoid_rewrite elem_of_app. naive_solver. Qed.

Lemma covers_ge f s p v : (∀ x, x ∈ s → f ≤ start (rng x)) → covers s p v → f ≤ p.
Proof. intros Hf (x & Hx & [??] & _). specialize (Hf x Hx). lia. Qed.

Lemma covers_functional s p v w : seg s → covers s p v → covers s p w → v = w.
Proof.
  induction s as [|x s IH]; intros Hs; [by rewrite covers_nil|].
  apply seg_cons in Hs as (Hne & Hb & Hs). rewrite !covers_cons.
  intros [[[? ?] ->]|H1] [[[? ?] ->]|H2]; [done| | |auto].
  - apply (covers_ge _ _ _ _ Hb) in H2. unfold in_range in *. lia.
  - apply (covers_ge _ _ _ _ Hb) in H1. unfold in_range in *. lia.
Qed.

(** ** Piles *)
Lemma hit_nil p i v : hit [] p i v ↔ False.
Proof. unfold hit. setoid_rewrite elem_of_nil. naive_solver. Qed.

Lemma hit_cons i s A p j v :
  hit ((i, s) :: A) p j v ↔ (j = i ∧ covers s p v) ∨ hit A p j v.
Proof. unfold hit. setoid_rewrite elem_of_cons. naive_solver. Qed.

Lemma hit_push i s A p j v :
  hit (push i s A) p j v ↔ (j = i ∧ covers s p v) ∨ hit A p j v.
Proof.
  destruct s as [|x s]; cbn [push]; [|apply hit_cons].
  rewrite covers_nil. naive_solver.
Qed.

Lemma hit_apply_op op i x s A p j v :
  hit (apply_op op i x s A) p j v ↔
    (j = i ∧ covers (match op with Keep => x :: s | Discard => s | Replace r => r :: s end) p v)
    ∨ hit A p j v.
Proof. destruct op; cbn [apply_op]; [apply hit_cons|apply hit_push|apply hit_cons]. Qed.

Lemma hit_perm A A' p j v : A ≡ₚ A' → hit A p j v ↔ hit A' p j v.
Proof. intros Hp. unfold hit. by setoid_rewrite Hp. Qed.

Lemma hit_above f A p j v : above f A → hit A p j v → f ≤ p.
Proof. intros Ha (s & Hs & Hc). eapply covers_ge; [|done]. intros x Hx. by eapply Ha. Qed.

Lemma visible_perm A A' p v : A ≡ₚ A' → visible A p v ↔ visible A' p v.
Proof. intros Hp. unfold visible. by setoid_rewrite (hit_perm A A' p _ _ Hp). Qed.

(** The view at a position depends on the hits there only. *)
Lemma visible_same A A' p v :
  (∀ j w, hit A p j w ↔ hit A' p j w) → visible A p v ↔ visible A' p v.
Proof. intros Heq. unfold visible. by setoid_rewrite Heq. Qed.

(** A position only one layer covers. *)
Lemma visible_one A p i w v :
  (∀ j u, hit A p j u ↔ j = i ∧ u = w) → visible A p v ↔ v = w.
Proof.
  intros Heq. unfold visible. setoid_rewrite Heq. split; [naive_solver|].
  intros ->. exists i. split; [done|]. intros j u [-> _]. lia.
Qed.

Lemma visible_push_nil i s p v : visible (push i s []) p v ↔ covers s p v.
Proof.
  unfold visible. setoid_rewrite hit_push. setoid_rewrite hit_nil. split; [naive_solver|].
  intros Hc. exists i. split; [by auto|]. intros j w [[-> _]|[]]. lia.
Qed.

Lemma visible_none A p v : (∀ j w, ¬ hit A p j w) → visible A p v ↔ False.
Proof. intros Hn. unfold visible. naive_solver. Qed.

(** Removing what an older layer has under a newer one changes nothing. *)
Lemma visible_hidden A A' p v i k w :
  (∀ j u, j ≠ k → hit A p j u ↔ hit A' p j u) → (∀ u, ¬ hit A' p k u) →
  i < k → hit A p i w → visible A p v ↔ visible A' p v.
Proof.
  intros Heq Hk Hik Hi. unfold visible. split.
  - intros (j & Hj & Hmin). exists j. specialize (Hmin _ _ Hi) as Hji.
    split; [apply Heq; [lia|done]|]. intros j' u Hj'.
    destruct (decide (j' = k)) as [->|]; [by apply Hk in Hj'|]. eapply Hmin, Heq; done.
  - intros (j & Hj & Hmin).
    assert (Hi' : hit A' p i w) by (apply Heq; [lia|done]).
    specialize (Hmin _ _ Hi') as Hji. exists j. split; [apply Heq; [lia|done]|].
    intros j' u Hj'. destruct (decide (j' = k)) as [->|]; [lia|]. eapply Hmin, Heq; done.
Qed.

(** Nor does it matter which of two layers next to each other has a value. *)
Lemma visible_adjacent_1 A A' p v i k w (b1 b2 c1 c2 : bool) :
  i = k + 1 ∨ k = i + 1 →
  (∀ j u, j ≠ i → j ≠ k → hit A p j u ↔ hit A' p j u) →
  (∀ u, hit A p i u ↔ u = w ∧ b1 = true) → (∀ u, hit A p k u ↔ u = w ∧ b2 = true) →
  (∀ u, hit A' p i u ↔ u = w ∧ c1 = true) → (∀ u, hit A' p k u ↔ u = w ∧ c2 = true) →
  b1 || b2 = true → c1 || c2 = true → visible A p v → visible A' p v.
Proof.
  intros Hik Heq Hb1 Hb2 Hc1 Hc2 Hb Hc (j & Hj & Hmin).
  assert (∃ j0, (j0 = i ∨ j0 = k) ∧ hit A p j0 w) as (j0 & Hj0 & Hh0).
  { destruct b1; [exists i; split; [by left|by apply Hb1]|exists k; split; [by right|by apply Hb2]]. }
  assert (∃ j1, (j1 = i ∨ j1 = k) ∧ hit A' p j1 w ∧ ∀ j', j' = i ∨ j' = k → ∀ u, hit A' p j' u → j1 ≤ j') as (j1 & Hj1 & Hh1 & Hmin1).
  { destruct c1, c2; try done.
    - exists (Z.min i k). split; [lia|]. split; [|intros; lia].
      destruct Hik; [rewrite Z.min_r by lia; by apply Hc2|rewrite Z.min_l by lia; by apply Hc1].
    - exists i. split; [by left|]. split; [by apply Hc1|]. intros j' [->| ->] u Hu; [lia|]. by apply Hc2 in Hu as [_ ?].
    - exists k. split; [by right|]. split; [by apply Hc2|]. intros j' [->| ->] u Hu; [|lia]. by apply Hc1 in Hu as [_ ?]. }
  specialize (Hmin _ _ Hh0) as Hjj.
  destruct (decide (j = i ∨ j = k)) as [Hin|Hout].
  - assert (v = w) as -> by (destruct Hin as [->| ->]; [by apply Hb1 in Hj as [? _]|by apply Hb2 in Hj as [? _]]).
    exists j1. split; [done|]. intros j' u Hj'. destruct (decide (j' = i ∨ j' = k)); [by eapply Hmin1|].
    specialize (Hmin j' u). rewrite Heq in Hmin by tauto. specialize (Hmin Hj'). lia.
  - exists j. split; [apply Heq; tauto|]. intros j' u Hj'.
    destruct (decide (j' = i ∨ j' = k)); [lia|]. eapply Hmin, Heq; [tauto..|done].
Qed.

Lemma visible_adjacent A A' p v i k w (b1 b2 c1 c2 : bool) :
  i = k + 1 ∨ k = i + 1 →
  (∀ j u, j ≠ i → j ≠ k → hit A p j u ↔ hit A' p j u) →
  (∀ u, hit A p i u ↔ u = w ∧ b1 = true) → (∀ u, hit A p k u ↔ u = w ∧ b2 = true) →
  (∀ u, hit A' p i u ↔ u = w ∧ c1 = true) → (∀ u, hit A' p k u ↔ u = w ∧ c2 = true) →
  b1 || b2 = true → c1 || c2 = true → visible A p v ↔ visible A' p v.
Proof.
  intros. split; [by eapply (visible_adjacent_1 A A' p v i k w b1 b2 c1 c2)|].
  eapply (visible_adjacent_1 A' A p v i k w c1 c2 b1 b2); try done. intros j u Hi Hk. symmetry. auto.
Qed.

(** ** Layers, the newest first *)
Fixpoint newest (ls : list (list (Item K V))) p v : Prop :=
  match ls with
  | [] => False
  | s :: ls => covers s p v ∨ (∀ w, ¬ covers s p w) ∧ newest ls p v
  end.

Lemma covers_dec s p : (∃ v, covers s p v) ∨ (∀ v, ¬ covers s p v).
Proof.
  induction s as [|x s IH]; [right; intros v; rewrite covers_nil; tauto|].
  setoid_rewrite covers_cons. destruct IH as [[v Hv]|Hn]; [by eauto|].
  destruct (decide (start (rng x) ≤ p < end_ (rng x))); [left; exists (at_pos x p); by left|].
  right. intros v [[Hin _]|Hc]; [done|]. by apply (Hn v).
Qed.

Lemma hit_layer_entries_ge ls i p j v : hit (layer_entries i ls) p j v → i ≤ j.
Proof. intros (s & Hs & _). by eapply layer_entries_ge. Qed.

Lemma visible_layer_entries ls i p v : visible (layer_entries i ls) p v ↔ newest ls p v.
Proof.
  revert i. induction ls as [|l ls IH]; intros i; cbn [layer_entries newest].
  { apply visible_none. intros j w. rewrite hit_nil. tauto. }
  rewrite <- (IH (i + 1)). unfold visible. setoid_rewrite hit_push.
  pose proof (λ j w, hit_layer_entries_ge ls (i + 1) p j w) as Hge. split.
  - intros (j & [[-> Hc]|Hj] & Hmin); [by left|right]. specialize (Hge _ _ Hj). split.
    + intros w Hw. specialize (Hmin i w). lia || (specialize (Hmin ltac:(by left)); lia).
    + exists j. split; [done|]. intros k w Hk. eapply Hmin. by right.
  - intros [Hc|[Hn (j & Hj & Hmin)]].
    + exists i. split; [by left; auto|]. intros k w [[-> _]|Hk]; [lia|]. apply Hge in Hk. lia.
    + exists j. split; [by right|]. intros k w [[-> Hw]|Hk]; [by apply Hn in Hw|by eapply Hmin].
Qed.
End segments.
