(* ===== verification/SegMerge.v ===== *)
(** * Merging layers of segments

    What a step of a merge does to a pile of layers whose items are segments,
    one lemma for each way to deal with the two smallest of them, and what a
    merge that only takes such steps yields: every position gets the value that
    the newest layer that covers it has there. *)

From S2P Require Import Prelude Round LsmTypes Merge MergeProps Segments.

Section heads.
Context {K V : Type} (rng : Item K V → range).
Context (i1 i2 : Z) (x1 x2 : Item K V) (s1 s2 : list (Item K V)) (A : list (entry K V)).
#[local] Abbreviation pile := (pile rng).
#[local] Abbreviation above := (above rng).
#[local] Abbreviation seg := (seg rng).
#[local] Abbreviation A0 := ((i1, x1 :: s1) :: (i2, x2 :: s2) :: A).

(** The two smallest entries of a pile, and the rest of it. *)
Record heads : Prop := {
  hd_idx : i1 ≠ i2;
  hd_fresh1 : i1 ∉ A.*1;
  hd_fresh2 : i2 ∉ A.*1;
  hd_ne1 : start (rng x1) < end_ (rng x1);
  hd_ne2 : start (rng x2) < end_ (rng x2);
  hd_seg1 : seg s1;
  hd_seg2 : seg s2;
  hd_b1 : ∀ y, y ∈ s1 → end_ (rng x1) ≤ start (rng y);
  hd_b2 : ∀ y, y ∈ s2 → end_ (rng x2) ≤ start (rng y);
  hd_pile : pile A;
  hd_above : above (start (rng x2)) A;
  hd_le : start (rng x1) ≤ start (rng x2);
}.

Lemma pile_heads : pile A0 → start (rng x1) ≤ start (rng x2) →
  (∀ i x s, (i, x :: s) ∈ A → start (rng x2) ≤ start (rng x)) → heads.
Proof.
  intros HA Hle1 Hle2. rewrite pile_cons in HA. destruct HA as (Hf1 & _ & Hs1 & HA). rewrite pile_cons in HA.
  destruct HA as (Hf2 & _ & Hs2 & HA). rewrite fmap_cons, not_elem_of_cons in Hf1.
  apply seg_cons in Hs1 as (?&?&?). apply seg_cons in Hs2 as (?&?&?). split; try done; try tauto.
  intros j t y Ht Hy. destruct HA as [_ Hp]. rewrite Forall_forall in Hp. destruct (Hp _ Ht) as [Hne Hs]. cbn in Hne, Hs.
  destruct t as [|z t]; [done|]. specialize (Hle2 _ _ _ Ht). apply seg_cons in Hs as (Hz & Hb & _).
  apply elem_of_cons in Hy as [->|Hy]; [done|]. specialize (Hb _ Hy). lia.
Qed.
End heads.

Section step.
Context {K V U : Type} (rng : Item K V → range) (at_pos : Item K V → Z → U).
#[local] Abbreviation pile := (pile rng).
#[local] Abbreviation above := (above rng).
#[local] Abbreviation seg := (seg rng).
#[local] Abbreviation covers := (covers rng at_pos).
#[local] Abbreviation hit := (hit rng at_pos).
#[local] Abbreviation visible := (visible rng at_pos).
#[local] Abbreviation pile_size := (pile_size rng).

(** A step from [A] to [A'] that emits [E] is sound when [A'] is a smaller
    pile that lies after [E], and [E] and [A'] show together what [A] did. *)
Record sound_step (A : list (entry K V)) (E : list (Item K V)) (A' : list (entry K V)) : Prop := {
  ss_pile : pile A';
  ss_size : (pile_size A' < pile_size A)%nat;
  ss_seg : seg E;
  ss_after : ∀ x, x ∈ E → above (end_ (rng x)) A';
  ss_above : ∀ f, above f A → above f A' ∧ ∀ x, x ∈ E → f ≤ start (rng x);
  ss_visible : ∀ p v, visible A p v ↔ covers E p v ∨ visible A' p v;
}.

(** The two smallest entries of a pile. *)
Context (i1 i2 : Z) (x1 x2 : Item K V) (s1 s2 : list (Item K V)) (A : list (entry K V)).
#[local] Abbreviation heads := (heads rng i1 i2 x1 x2 s1 s2 A).

(** What covers a position [p] of the pile, and what does not. *)
Record found (p : Z) : Prop := {
  fd_s1 : ∀ v, covers s1 p v → end_ (rng x1) ≤ p;
  fd_s2 : ∀ v, covers s2 p v → end_ (rng x2) ≤ p;
  fd_A : ∀ j v, hit A p j v → start (rng x2) ≤ p;
  fd_f1 : ∀ v, ¬ hit A p i1 v;
  fd_f2 : ∀ v, ¬ hit A p i2 v;
}.

Lemma heads_at p : heads → found p.
Proof.
  intros H. split.
  - intros v. apply covers_ge, (hd_b1 _ _ _ _ _ _ _ _ H).
  - intros v. apply covers_ge, (hd_b2 _ _ _ _ _ _ _ _ H).
  - intros j v. apply hit_above, (hd_above _ _ _ _ _ _ _ _ H).
  - intros v (s & Hs & _). apply (hd_fresh1 _ _ _ _ _ _ _ _ H), list_elem_of_fmap. by exists (i1, s).
  - intros v (s & Hs & _). apply (hd_fresh2 _ _ _ _ _ _ _ _ H), list_elem_of_fmap. by exists (i2, s).
Qed.
End step.

(** Rewrites the hits of a pile built with [push] and [apply_op]. *)
Ltac hits :=
  repeat first [rewrite hit_apply_op | rewrite hit_push | rewrite hit_cons | rewrite covers_cons
               | rewrite covers_nil];
  unfold in_range in *; cbn [start end_] in *.

(** Proves a disjunction of conjunctions by finding the disjunct that holds. *)
Ltac pick := first [done | lia | congruence | split; pick | left; pick | right; pick].

(** Settles what is hit at a position whose place among the segments is known. *)
Ltac settle :=
  hits; unfold not; try split; intros; repeat match goal with Q : _ ∨ _ |- _ => destruct Q | Q : _ ∧ _ |- _ => destruct Q end; subst;
  repeat match goal with
  | P : ∀ v, covers _ _ ?s ?p v → _, Q : covers _ _ ?s ?p _ |- _ => pose proof (P _ Q); clear P
  | P : ∀ j v, hit _ _ ?A ?p j v → _, Q : hit _ _ ?A ?p _ _ |- _ => pose proof (P _ _ Q); clear P
  end;
  first
    [ exfalso; lia
    | match goal with F : ∀ v, ¬ hit _ _ ?A ?p ?i v, Q : hit _ _ ?A ?p ?i _ |- _ => by destruct (F _ Q) end
    | pick ].

Section cases.
Context {K V U : Type} (rng : Item K V → range) (at_pos : Item K V → Z → U).
Context (i1 i2 : Z) (x1 x2 : Item K V) (s1 s2 : list (Item K V)) (A : list (entry K V)).
Context (H : heads rng i1 i2 x1 x2 s1 s2 A).
#[local] Abbreviation A0 := ((i1, x1 :: s1) :: (i2, x2 :: s2) :: A).
#[local] Abbreviation sound := (sound_step rng at_pos).

(** An item has the value of another at the positions of [r]. *)
Definition agree (r : range) (m x : Item K V) : Prop := ∀ p, in_range p r → at_pos m p = at_pos x p.

Ltac silent :=
  match goal with
  | |- seg _ [] => apply seg_nil
  | |- ∀ x, x ∈ [] → _ => by intros ? ?%elem_of_nil
  end.
Ltac start_step := destruct H as [Hi Hf1 Hf2 Hn1 Hn2 Hs1 Hs2 Hb1 Hb2 HA Hab Ho].
Ltac at_position p := destruct (heads_at rng at_pos _ _ _ _ _ _ _ p H).

(** The first item ends where the second starts, or before. *)
Lemma step_emit_left : end_ (rng x1) ≤ start (rng x2) → sound A0 [x1] (push i1 s1 ((i2, x2 :: s2) :: A)).
Proof.
  intros Hle. start_step. split.
  - apply pile_push; [rewrite fmap_cons; set_solver|done|]. rewrite pile_cons, seg_cons. done.
  - rewrite pile_size_push, !pile_size_cons, (seg_size_cons _ x1). lia.
  - rewrite seg_cons. split_and!; [done|set_solver|apply seg_nil].
  - intros x ->%list_elem_of_singleton. rewrite above_push, above_cons.
    split_and!; [done| |].
    + intros y [->|Hy]%elem_of_cons; [done|]. specialize (Hb2 y Hy). lia.
    + intros j t y Ht Hy. specialize (Hab j t y Ht Hy). lia.
  - intros f. rewrite above_push, !above_cons. set_solver.
  - intros p v. at_position p. rewrite covers_cons, covers_nil.
    destruct (decide (in_range p (rng x1))) as [Hin|Hout].
    + rewrite (visible_one _ _ _ p i1 (at_pos x1 p)), (visible_none _ _ _ p); [tauto| |];
        intros j w; settle.
    + rewrite (visible_same _ _ A0 (push i1 s1 ((i2, x2 :: s2) :: A))); [tauto|].
      intros j w; settle.
Qed.

(** They touch: the two become one that has the values of both. *)
Lemma step_touch m : end_ (rng x1) = start (rng x2) → rng m = (start (rng x1) ..< end_ (rng x2)) →
  agree (rng x1) m x1 → agree (rng x2) m x2 →
  sound A0 [] ((i2, m :: s2) :: push i1 s1 A).
Proof.
  intros Ht Hm Hm1 Hm2. start_step. split; try silent.
  - rewrite pile_cons, seg_cons, Hm. cbn. split_and!; try done; [|lia|by apply pile_push].
    intros [->|?]%elem_of_push_fst; done.
  - rewrite !pile_size_cons, pile_size_push, !seg_size_cons, Hm. cbn. lia.
  - intros f. rewrite !above_cons, above_push. split; [|silent].
    destruct H0 as (Ha1 & Ha2 & Ha3). split_and!; [|set_solver..].
    intros y [->|Hy]%elem_of_cons; [rewrite Hm; cbn; set_solver|set_solver].
  - intros p v. at_position p. rewrite covers_nil. specialize (Hm1 p). specialize (Hm2 p).
    destruct (decide (in_range p (rng x1))) as [Hin|Hout].
    + specialize (Hm1 Hin). rewrite (visible_one _ _ _ p i1 (at_pos x1 p)), (visible_one _ _ _ p i2 (at_pos m p));
        [rewrite Hm1; naive_solver| |]; intros j w; hits; rewrite ?Hm; settle.
    + rewrite (visible_same _ _ A0 ((i2, m :: s2) :: push i1 s1 A)); [tauto|].
      destruct (decide (in_range p (rng x2))) as [Hin2|Hout2]; 
        [specialize (Hm2 Hin2); intros j w; hits; rewrite ?Hm, ?Hm2; settle|clear Hm2; intros j w; hits; rewrite ?Hm; settle].
Qed.

(** The first is newer and ends inside the second: it hides the beginning of
    the second. *)
Lemma step_hide_right r : start (rng x2) < end_ (rng x1) → end_ (rng x1) < end_ (rng x2) → i1 < i2 →
  rng r = (end_ (rng x1) ..< end_ (rng x2)) → agree (rng r) r x2 →
  sound A0 [] ((i2, r :: s2) :: (i1, x1 :: s1) :: A).
Proof.
  intros Hst He Hlt Hr Hrv. start_step. split; try silent.
  - rewrite !pile_cons, !seg_cons, Hr. cbn. split_and!; try done. set_solver.
  - rewrite !pile_size_cons, !seg_size_cons, Hr. cbn. lia.
  - intros f. rewrite !above_cons. split; [|silent].
    destruct H0 as (Ha1 & Ha2 & Ha3). split_and!; [|set_solver..].
    intros y [->|Hy]%elem_of_cons; [rewrite Hr; cbn|set_solver].
    specialize (Ha1 x1 ltac:(set_solver)). lia.
  - intros p v. at_position p. rewrite covers_nil. specialize (Hrv p). rewrite Hr in Hrv.
    destruct (decide (start (rng x2) ≤ p < end_ (rng x1))) as [Hin|Hout].
    + rewrite (visible_hidden _ _ A0 ((i2, r :: s2) :: (i1, x1 :: s1) :: A) p v i1 i2 (at_pos x1 p));
        [tauto| | |done|]; [intros j w Hj|intros w|]; hits; rewrite ?Hr; settle.
    + rewrite (visible_same _ _ A0 ((i2, r :: s2) :: (i1, x1 :: s1) :: A)); [tauto|].
      destruct (decide (end_ (rng x1) ≤ p < end_ (rng x2))) as [Hin2|Hout2]; 
        [specialize (Hrv Hin2); intros j w; hits; rewrite ?Hr, ?Hrv; settle|clear Hrv; intros j w; hits; rewrite ?Hr; settle].
Qed.

(** Same start, the second is newer and at least as long: it hides the
    first. *)
Lemma step_drop_left : start (rng x1) = start (rng x2) → end_ (rng x1) ≤ end_ (rng x2) → i2 < i1 →
  sound A0 [] ((i2, x2 :: s2) :: push i1 s1 A).
Proof.
  intros Hst He Hlt. start_step. split; try silent.
  - rewrite !pile_cons, !seg_cons. split_and!; try done; [|by apply pile_push].
    intros [->|?]%elem_of_push_fst; done.
  - rewrite !pile_size_cons, pile_size_push, (seg_size_cons _ x1). lia.
  - intros f. rewrite !above_cons, above_push. split; [set_solver|silent].
  - intros p v. at_position p. rewrite covers_nil.
    destruct (decide (in_range p (rng x1))) as [Hin|Hout].
    + rewrite (visible_hidden _ _ A0 ((i2, x2 :: s2) :: push i1 s1 A) p v i2 i1 (at_pos x2 p));
        [tauto| | |done|]; [intros j w Hj|intros w|]; settle.
    + rewrite (visible_same _ _ A0 ((i2, x2 :: s2) :: push i1 s1 A)); [tauto|].
      intros j w; settle.
Qed.

(** The first is newer and covers the second: it hides it. *)
Lemma step_drop_right : end_ (rng x2) ≤ end_ (rng x1) → i1 < i2 →
  sound A0 [] (push i2 s2 ((i1, x1 :: s1) :: A)).
Proof.
  intros He Hlt. start_step. split; try silent.
  - apply pile_push; [set_solver|done|]. rewrite pile_cons, seg_cons. done.
  - rewrite pile_size_push, !pile_size_cons, (seg_size_cons _ x2). lia.
  - intros f. rewrite above_push, !above_cons. split; [set_solver|silent].
  - intros p v. at_position p. rewrite covers_nil.
    destruct (decide (in_range p (rng x2))) as [Hin|Hout].
    + rewrite (visible_hidden _ _ A0 (push i2 s2 ((i1, x1 :: s1) :: A)) p v i1 i2 (at_pos x1 p));
        [tauto| | |done|]; [intros j w Hj|intros w|]; settle.
    + rewrite (visible_same _ _ A0 (push i2 s2 ((i1, x1 :: s1) :: A))); [tauto|].
      intros j w; settle.
Qed.

(** The second starts inside the first: the first is split there. *)
Lemma step_split e l : start (rng x1) < start (rng x2) → start (rng x2) < end_ (rng x1) →
  rng e = (start (rng x1) ..< start (rng x2)) → agree (rng e) e x1 →
  rng l = (start (rng x2) ..< end_ (rng x1)) → agree (rng l) l x1 →
  sound A0 [e] ((i2, x2 :: s2) :: (i1, l :: s1) :: A).
Proof.
  intros Hst Hlt He Hev Hl Hlv. start_step. split.
  - rewrite !pile_cons, !seg_cons, Hl. cbn. split_and!; try done. set_solver.
  - rewrite !pile_size_cons, !seg_size_cons, Hl. cbn. lia.
  - rewrite seg_cons, He. cbn. split_and!; [lia|set_solver|apply seg_nil].
  - intros x ->%list_elem_of_singleton. rewrite He. rewrite !above_cons. cbn.
    split_and!; [..|done].
    + intros y [->|Hy]%elem_of_cons; [lia|]. specialize (Hb2 y Hy). lia.
    + intros y [->|Hy]%elem_of_cons; [rewrite Hl; cbn; lia|]. specialize (Hb1 y Hy). lia.
  - intros f. rewrite !above_cons. intros (Ha1 & Ha2 & Ha3).
    specialize (Ha1 x1 ltac:(set_solver)) as Hx1. split_and!; [done| |done|].
    + intros y [->|Hy]%elem_of_cons; [rewrite Hl; cbn; lia|set_solver].
    + intros y ->%list_elem_of_singleton. rewrite He. done.
  - intros p v. at_position p. rewrite covers_cons, covers_nil. specialize (Hev p). specialize (Hlv p). rewrite He in *. rewrite Hl in Hlv.
    destruct (decide (in_range p (start (rng x1) ..< start (rng x2)))) as [Hin|Hout].
    + specialize (Hev Hin). rewrite (visible_one _ _ _ p i1 (at_pos x1 p)), (visible_none _ _ _ p); [rewrite Hev; tauto| |];
        intros j w; hits; rewrite ?Hl; settle.
    + rewrite (visible_same _ _ A0 ((i2, x2 :: s2) :: (i1, l :: s1) :: A)); [tauto|].
      destruct (decide (in_range p (start (rng x2) ..< end_ (rng x1)))) as [Hin2|Hout2]; 
        [specialize (Hlv Hin2); intros j w; hits; rewrite ?Hl, ?Hlv; settle|clear Hlv; intros j w; hits; rewrite ?Hl; settle].
Qed.

(** Two layers next to each other have the same value all over their items:
    the second is dropped if the first covers it. *)
Lemma step_absorb w : i1 = i2 + 1 ∨ i2 = i1 + 1 → end_ (rng x2) ≤ end_ (rng x1) →
  (∀ p, in_range p (rng x1) → at_pos x1 p = w) → (∀ p, in_range p (rng x2) → at_pos x2 p = w) →
  sound A0 [] (push i2 s2 ((i1, x1 :: s1) :: A)).
Proof.
  intros Hadj He Hw1 Hw2. start_step. split; try silent.
  - apply pile_push; [set_solver|done|]. rewrite pile_cons, seg_cons. done.
  - rewrite pile_size_push, !pile_size_cons, (seg_size_cons _ x2). lia.
  - intros f. rewrite above_push, !above_cons. split; [set_solver|silent].
  - intros p v. at_position p. rewrite covers_nil.
    destruct (decide (in_range p (rng x2))) as [Hin|Hout].
    + specialize (Hw1 p ltac:(unfold in_range in *; lia)). specialize (Hw2 p Hin).
      rewrite (visible_adjacent _ _ A0 (push i2 s2 ((i1, x1 :: s1) :: A)) p v i1 i2 w true true true false); [tauto|done|..|done|done];
        [intros j u Hj1 Hj2|intros u..]; hits; rewrite ?Hw2, ?Hw1; settle.
    + rewrite (visible_same _ _ A0 (push i2 s2 ((i1, x1 :: s1) :: A))); [tauto|].
      intros j w'; settle.
Qed.

(** Otherwise, if they touch or overlap, the two become one. *)
Lemma step_coalesce m w : i1 = i2 + 1 ∨ i2 = i1 + 1 → start (rng x2) ≤ end_ (rng x1) → end_ (rng x1) < end_ (rng x2) →
  rng m = (start (rng x1) ..< end_ (rng x2)) →
  (∀ p, in_range p (rng x1) → at_pos x1 p = w) → (∀ p, in_range p (rng x2) → at_pos x2 p = w) →
  (∀ p, in_range p (rng m) → at_pos m p = w) →
  sound A0 [] ((i2, m :: s2) :: push i1 s1 A).
Proof.
  intros Hadj Hst He Hm Hw1 Hw2 Hwm. start_step. split; try silent.
  - rewrite pile_cons, seg_cons, Hm. cbn. split_and!; try done; [|lia|by apply pile_push].
    intros [->|?]%elem_of_push_fst; done.
  - rewrite !pile_size_cons, pile_size_push, !seg_size_cons, Hm. cbn. lia.
  - intros f. rewrite !above_cons, above_push. split; [|silent].
    destruct H0 as (Ha1 & Ha2 & Ha3). split_and!; [|set_solver..].
    intros y [->|Hy]%elem_of_cons; [rewrite Hm; cbn; set_solver|set_solver].
  - intros p v. at_position p. rewrite covers_nil. specialize (Hw1 p). specialize (Hw2 p). specialize (Hwm p). rewrite Hm in Hwm.
    destruct (decide (in_range p (rng x1))) as [Hin|Hout].
    + specialize (Hw1 Hin). specialize (Hwm ltac:(unfold in_range in *; cbn; lia)).
      rewrite (visible_adjacent _ _ A0 ((i2, m :: s2) :: push i1 s1 A) p v i1 i2 w true (bool_decide (start (rng x2) ≤ p)) false true);
        [tauto|done|..|done|done]; [intros j u Hj1 Hj2|intros u..]; hits; rewrite ?Hm, ?Hw1, ?Hwm, ?bool_decide_eq_true; cbn [start end_].
      * settle.
      * settle.
      * destruct (decide (start (rng x2) ≤ p)) as [Hs|Hs]; [rewrite Hw2 by (unfold in_range in *; lia)|]; settle.
      * settle.
      * settle.
    + rewrite (visible_same _ _ A0 ((i2, m :: s2) :: push i1 s1 A)); [tauto|].
      destruct (decide (in_range p (rng x2))) as [Hin2|Hout2].
      * specialize (Hw2 Hin2). specialize (Hwm ltac:(unfold in_range in *; cbn; lia)).
        intros j w'; hits; rewrite ?Hm, ?Hw2, ?Hwm; settle.
      * intros j w'; hits; rewrite ?Hm; settle.
Qed.
End cases.

(** ** What a run shows *)
Section shows.
Context {K V U : Type} (rng : Item K V → range) (at_pos : Item K V → Z → U).
Implicit Types (A : list (entry K V)).

(** A run shows what the pile shows. *)
Definition shows (A : list (entry K V)) (out : list (Item K V)) : Prop :=
  seg rng out ∧ (∀ f x, above rng f A → x ∈ out → f ≤ start (rng x)) ∧
  ∀ p v, covers rng at_pos out p v ↔ visible rng at_pos A p v.

(** One sound step in front of a run. *)
Lemma shows_step A A0 E A' out : A ≡ₚ A0 → sound_step rng at_pos A0 E A' → shows A' out → shows A (E ++ out).
Proof.
  intros Hperm Hs (Hseg & Hab & Hvis). split_and!.
  - apply seg_app. split_and!; [apply (ss_seg _ _ _ _ _ Hs)|done|].
    intros x y Hx Hy. eapply Hab; [by apply (ss_after _ _ _ _ _ Hs)|done].
  - intros f x Hf Hx. apply (above_perm _ _ _ _ Hperm) in Hf.
    apply (ss_above _ _ _ _ _ Hs) in Hf as [Hf HE].
    apply elem_of_app in Hx as [Hx|Hx]; [by apply HE|by eapply Hab].
  - intros p v. rewrite covers_app, Hvis, (visible_perm _ _ _ _ _ _ Hperm).
    by rewrite (ss_visible _ _ _ _ _ Hs).
Qed.

(** The last stream of a pile is yielded as it is. *)
Lemma shows_last i x s out : pile rng [(i, x :: s)] → shows (push i s []) out → shows [(i, x :: s)] (x :: out).
Proof.
  intros Hpl (Hseg & Hab & Hvis). rewrite pile_cons, seg_cons in Hpl.
  destruct Hpl as (Hf & _ & (Hn & Hb & Hs) & Hnil). split_and!.
  - apply seg_cons. split_and!; [done| |done]. intros y Hy. eapply Hab; [|done].
    apply above_push. split; [done|]. by intros ? ? ? ?%elem_of_nil.
  - intros f y Hf' Hy. rewrite above_cons in Hf'.
    destruct Hf' as [Hf' Hn']. apply elem_of_cons in Hy as [->|Hy]; [set_solver|].
    eapply Hab; [|done]. apply above_push. set_solver.
  - intros p v. rewrite covers_cons, Hvis, visible_push_nil.
    by rewrite (visible_push_nil _ _ i (x :: s)), covers_cons.
Qed.

Lemma shows_nil : shows [] [].
Proof.
  split_and!; [apply seg_nil|set_solver|]. intros p v. rewrite covers_nil, visible_none; [done|].
  intros j w. rewrite hit_nil. tauto.
Qed.

Lemma shows_perm A A' out : A ≡ₚ A' → shows A' out → shows A out.
Proof.
  intros Hp (Hseg & Hab & Hvis). split_and!; [done| |].
  - intros f x Hf. eapply Hab. by eapply above_perm.
  - intros p v. by rewrite Hvis, (visible_perm _ _ _ _ _ _ Hp).
Qed.
End shows.

(** ** Merge functions that take sound steps *)
Section merge.
Context {K V U : Type} `{!LayerKey K, !OrdUpperBound K, !OrdLowerBound K, !TotalCmp (cmp_lower_bound (K := K))}.
Context (rng : Item K V → range) (at_pos : Item K V → Z → U).
Implicit Types (A : list (entry K V)).

(** What a merge function has to do on the piles it is meant for ([good]). *)
Class SegmentMerge (mf : MergeView K V → MergeView K V → res (MergeResult K V)) (good : list (entry K V) → Prop) := {
  sm_pile : ∀ A, good A → pile rng A;
  sm_perm : ∀ A A', A ≡ₚ A' → good A → good A';
  sm_push : ∀ i x s, good [(i, x :: s)] → good (push i s []);
  sm_step : ∀ i1 x1 s1 i2 x2 s2 A,
    let A0 := (i1, x1 :: s1) :: (i2, x2 :: s2) :: A in
    good A0 → Forall (entry_le (i1, x1 :: s1)) ((i2, x2 :: s2) :: A) → Forall (entry_le (i2, x2 :: s2)) A →
    match mf (mkView x1 i1) (mkView x2 i2) with
    | Ok EmitLeft =>
        let A' := push i1 s1 ((i2, x2 :: s2) :: A) in sound_step rng at_pos A0 [x1] A' ∧ good A'
    | Ok (MergeOther emit l r) =>
        let A' := apply_op r i2 x2 s2 (apply_op l i1 x1 s1 A) in sound_step rng at_pos A0 (option_list emit) A' ∧ good A'
    | _ => False
    end;
}.

Context mf good `{!SegmentMerge mf good}.

Lemma segment_merge_invariant : MergeInvariant mf good (pile_size rng).
Proof.
  split.
  - apply sm_perm.
  - apply pile_size_perm.
  - intros i x s Hg. split; [by eapply sm_push|]. rewrite pile_size_push, pile_size_cons, seg_size_cons. lia.
  - intros i1 x1 s1 i2 x2 s2 A Hp H1 H2. pose proof (sm_step _ _ _ _ _ _ _ Hp H1 H2) as Hs. cbn zeta in Hs.
    destruct (mf _ _) as [[|emit l r]| | |]; try done; destruct Hs as [Hs Hg]; (split; [done|apply (ss_size _ _ _ _ _ Hs)]).
Qed.

Lemma scans_shows A out : scans mf A out → good A → shows rng at_pos A out.
Proof.
  intros Hsc. induction Hsc as [|A i x s out Hp Hsc IH
      |A i1 x1 s1 i2 x2 s2 A2 out Hp H1 H2 Hm Hsc IH
      |A i1 x1 s1 i2 x2 s2 A2 emit l r out Hp H1 H2 Hm Hsc IH]; intros HA.
  - apply shows_nil.
  - apply (sm_perm _ _ Hp) in HA as HA'. apply (shows_perm _ _ _ _ _ Hp), shows_last; [by apply sm_pile|].
    apply IH. by eapply sm_push.
  - apply (sm_perm _ _ Hp) in HA as HA'.
    pose proof (sm_step _ _ _ _ _ _ _ HA' H1 H2) as Hs. cbn zeta in Hs. rewrite Hm in Hs. destruct Hs as [Hs Hg].
    apply (shows_step _ _ _ _ [x1] _ out Hp Hs). by apply IH.
  - apply (sm_perm _ _ Hp) in HA as HA'.
    pose proof (sm_step _ _ _ _ _ _ _ HA' H1 H2) as Hs. cbn zeta in Hs. rewrite Hm in Hs. destruct Hs as [Hs Hg].
    apply (shows_step _ _ _ _ _ _ out Hp Hs). by apply IH.
Qed.

(** A full scan of layers shows at each position what the newest layer has. *)
Lemma merge_layers_newest layers ls fuel :
  Forall2 holds layers ls → Z.of_nat (length layers) ≤ 65536 → good (layer_entries 0 ls) →
  (pile_size rng (layer_entries 0 ls) + 1 < fuel)%nat →
  ∃ out, merge_layers fuel layers mf = Ok out ∧ seg rng out ∧
    ∀ p v, covers rng at_pos out p v ↔ newest rng at_pos ls p v.
Proof.
  intros HF Hlen Hg Hfuel.
  destruct (merge_layers_refines mf good (pile_size rng) (MergeInvariant0 := segment_merge_invariant) layers ls fuel)
    as (out & Hout & Hsc); [done..|].
  apply scans_shows in Hsc as (Hs & _ & Hv); [|done].
  exists out. split_and!; [done..|]. intros p v. by rewrite Hv, visible_layer_entries.
Qed.
End merge.

(** ** Part of a merge

    A tree holds items of several kinds, and what a merge does to those of one
    kind can be told without the others: each step of the merge is a step on
    the items chosen, or leaves them alone. *)

Section project.
Context {K V : Type} (P : Item K V → bool).
Implicit Types (A : list (entry K V)) (s : list (Item K V)).

(** The items chosen, of a stream and of a pile. *)
Definition sel s : list (Item K V) := filter (λ x, P x) s.
Fixpoint proj A : list (entry K V) :=
  match A with
  | [] => []
  | (i, s) :: A => push i (sel s) (proj A)
  end.

Lemma elem_of_sel x s : x ∈ sel s ↔ P x ∧ x ∈ s.
Proof. unfold sel. by rewrite list_elem_of_filter. Qed.

Lemma sel_cons_in x s : P x = true → sel (x :: s) = x :: sel s.
Proof. intros Hx. unfold sel. apply filter_cons_True. by rewrite Hx. Qed.
Lemma sel_cons_out x s : P x = false → sel (x :: s) = sel s.
Proof. intros Hx. unfold sel. apply filter_cons_False. rewrite Hx. by intros []. Qed.
Lemma sel_nil_iff s : sel s = [] ↔ ∀ x, x ∈ s → P x = false.
Proof.
  induction s as [|x s IH]; [set_solver|]. destruct (P x) eqn:E.
  - rewrite sel_cons_in by done. split; [done|]. intros H. specialize (H x ltac:(set_solver)). congruence.
  - rewrite sel_cons_out, IH by done. split; [|set_solver]. intros H y [->|Hy]%elem_of_cons; auto.
Qed.

Lemma proj_perm A A' : A ≡ₚ A' → proj A ≡ₚ proj A'.
Proof.
  induction 1 as [|[i s] A A' _ IH|[i s] [j t] A|]; cbn [proj]; [done|by apply push_perm|apply push_swap|by etrans].
Qed.

Lemma proj_push i s A : proj (push i s A) = push i (sel s) (proj A).
Proof. by destruct s. Qed.

Lemma proj_layer_entries i ls : proj (layer_entries i ls) = layer_entries i (sel <$> ls).
Proof. revert i. induction ls as [|l ls IH]; intros i; cbn [layer_entries fmap list_fmap]; [done|]. by rewrite proj_push, IH. Qed.

Lemma elem_of_proj j t A : (j, t) ∈ proj A → t ≠ [] ∧ ∃ s, (j, s) ∈ A ∧ t = sel s.
Proof.
  induction A as [|[i s] A IH]; cbn [proj]; [by intros ?%elem_of_nil|]. destruct (sel s) as [|x l] eqn:E; cbn [push].
  - intros Ht. destruct (IH Ht) as (? & s' & ? & ->). split; [done|]. exists s'. set_solver.
  - intros [[= -> ->]|Ht]%elem_of_cons; [split; [done|]; exists s; set_solver|].
    destruct (IH Ht) as (? & s' & ? & ->). split; [done|]. exists s'. set_solver.
Qed.

Lemma proj_fst j A : j ∈ (proj A).*1 → j ∈ A.*1.
Proof.
  intros ([j' t] & -> & Ht)%list_elem_of_fmap. apply elem_of_proj in Ht as (_ & s & Hs & _).
  apply list_elem_of_fmap. by exists (j', s).
Qed.

Lemma proj_NoDup A : NoDup A.*1 → NoDup (proj A).*1.
Proof.
  induction A as [|[i s] A IH]; cbn [proj]; [done|]. rewrite fmap_cons, NoDup_cons. cbn. intros [Hi Hn].
  destruct (sel s); cbn [push]; [by apply IH|]. rewrite fmap_cons, NoDup_cons. cbn. split; [|by apply IH].
  by intros ?%proj_fst.
Qed.

Lemma proj_nil A : (∀ i s x, (i, s) ∈ A → x ∈ s → P x = false) → proj A = [].
Proof.
  induction A as [|[i s] A IH]; cbn [proj]; [done|]. intros H. rewrite IH by set_solver.
  rewrite (proj2 (sel_nil_iff s)); [done|]. intros x Hx. apply (H i s); [set_solver|done].
Qed.

(** What is put in the place of an item is chosen if the item is. *)
Definition op_like (b : bool) (op : ItemOp K V) : Prop := match op with Replace r => P r = b | _ => True end.

Lemma proj_op_in op i x s A : P x = true → op_like true op → proj (apply_op op i x s A) = apply_op op i x (sel s) (proj A).
Proof.
  intros Hx Ho. destruct op as [| |r]; cbn [apply_op proj op_like] in *; [by rewrite sel_cons_in|by rewrite proj_push|by rewrite sel_cons_in].
Qed.

Lemma proj_op_out op i x s A : P x = false → op_like false op → proj (apply_op op i x s A) = push i (sel s) (proj A).
Proof.
  intros Hx Ho. destruct op as [| |r]; cbn [apply_op proj op_like] in *; [by rewrite sel_cons_out|by rewrite proj_push|by rewrite sel_cons_out].
Qed.

Lemma proj_out i x s A : P x = false → proj ((i, x :: s) :: A) = push i (sel s) (proj A).
Proof. intros Hx. cbn [proj]. by rewrite sel_cons_out. Qed.

Lemma proj_in i x s A : P x = true → proj ((i, x :: s) :: A) = (i, x :: sel s) :: proj A.
Proof. intros Hx. cbn [proj]. by rewrite sel_cons_in. Qed.

(** A step on two items that are not chosen. *)
Lemma proj_ops_out l r i1 x1 s1 i2 x2 s2 A : P x1 = false → P x2 = false → op_like false l → op_like false r →
  proj ((i1, x1 :: s1) :: (i2, x2 :: s2) :: A) ≡ₚ proj (apply_op r i2 x2 s2 (apply_op l i1 x1 s1 A)).
Proof. intros. rewrite !proj_out, !proj_op_out by done. apply push_swap. Qed.

Lemma proj_emit_out i1 x1 s1 e A : P x1 = false → proj ((i1, x1 :: s1) :: e :: A) = proj (push i1 s1 (e :: A)).
Proof. intros. by rewrite proj_out, proj_push. Qed.

Section steps.
Context (rng : Item K V → range) {U : Type} (at_pos : Item K V → Z → U).
#[local] Abbreviation shows := (shows rng at_pos).

(** What a step that emits [E] has to do to the part chosen. *)
Definition view_step A (E : list (Item K V)) A' : Prop :=
  ∀ out, shows (proj A') out → shows (proj A) (sel E ++ out).

(** *** Steps *)

(** Both items are chosen. *)
Lemma view_both A E A' : sound_step rng at_pos (proj A) (sel E) (proj A') → view_step A E A'.
Proof. intros Hs out. by eapply shows_step. Qed.

(** Nothing chosen is touched. *)
Lemma view_neither A E A' : sel E = [] → proj A ≡ₚ proj A' → view_step A E A'.
Proof. intros HE Hp out. rewrite HE. by apply shows_perm. Qed.

(** The first is the last one chosen that the pile has, but for those of its
    own layer. *)
Lemma view_first i1 x1 s1 i2 x2 s2 A : let A0 := (i1, x1 :: s1) :: (i2, x2 :: s2) :: A in
  P x1 = true → sel (x2 :: s2) = [] → proj A = [] → pile rng (proj A0) →
  view_step A0 [x1] (push i1 s1 ((i2, x2 :: s2) :: A)).
Proof.
  intros A0 H1 H2 HA Hp out. unfold A0 in *. rewrite proj_push. cbn [proj] in *. rewrite H2, HA, !sel_cons_in in * by done. cbn [push] in *.
  by apply shows_last.
Qed.
End steps.
End project.
