(* ===== verification/AllocMerge.v ===== *)
(** * The allocator's tree

    The keys and values of the LSM tree in which the allocator keeps the
    extents that are in use ([AllocatorKey], [AllocatorValue] in
    [fxfs/src/object_store/allocator.rs]) and its merge function
    ([fxfs/src/object_store/allocator/merge.rs]).  The merge of any pile of
    layers is shown to be what the newest layer says of each byte of the
    device. *)

From S2P Require Import Prelude Round LsmTypes Merge MergeProps Segments SegMerge.

(** ** Keys and values *)
Record AllocatorKey : Set := mkAK { device_range : range }.

#[global] Instance AllocatorKey_eq_dec : EqDecision AllocatorKey.
Proof. solve_decision. Defined.

(** [AllocatorValueV32]: a tombstone, or the reference count and the owner. *)
Inductive AllocatorValue : Set :=
| AVNone
| AVAbs (count owner_object_id : Z).

#[global] Instance AllocatorValue_eq_dec : EqDecision AllocatorValue.
Proof. solve_decision. Defined.

Abbreviation AllocatorItem := (Item AllocatorKey AllocatorValue).

Module AllocatorKey.
Definition EXTENT_HASH_BUCKET_SIZE : Z := 1 * 1024 * 1024.

(** [AllocatorKeyPartitionIterator::next], which hashes the key of each
    bucket ([hash] is the crate's [FxHasher] over the derived [Hash]). *)
Definition partition_next (hash : AllocatorKey → Z) (r : range) : option (Z * range) :=
  if end_ r <=? start r then None
  else
    let s := start r in
    let s' := saturating_add s EXTENT_HASH_BUCKET_SIZE in
    Some (hash (mkAK (s ..< Z.min s' (end_ r))), s' ..< end_ r).

Fixpoint partitions (hash : AllocatorKey → Z) (fuel : nat) (r : range) : res (list Z) :=
  match fuel with
  | O => NoFuel
  | S fuel =>
      match partition_next hash r with
      | None => Ok []
      | Some (h, r') => l ← partitions hash fuel r'; Ok (h :: l)
      end
  end.

Definition fuzzy_hash (hash : AllocatorKey → Z) (k : AllocatorKey) : res (list Z) :=
  s ← round_down (start (device_range k)) EXTENT_HASH_BUCKET_SIZE;
  e ← round_up (end_ (device_range k)) EXTENT_HASH_BUCKET_SIZE;
  let e := default u64_max e in
  partitions hash (Z.to_nat (e `div` EXTENT_HASH_BUCKET_SIZE + 3)) (s ..< e).

Definition lower_bound_for_merge_into (k : AllocatorKey) : AllocatorKey :=
  mkAK (0 ..< start (device_range k)).

Definition cmp (a b : AllocatorKey) : comparison :=
  cmp_then (start (device_range a) ?= start (device_range b))
    (end_ (device_range a) ?= end_ (device_range b)).

Definition overlaps (a b : AllocatorKey) : bool :=
  (start (device_range a) <? end_ (device_range b))
  && (start (device_range b) <? end_ (device_range a)).
End AllocatorKey.

(** [next_key] is the trait's default, [search_key] is never called for keys
    of this merge type. *)
#[global] Instance AllocatorKey_LayerKey : LayerKey AllocatorKey := {|
  merge_type := λ _, OptimizedMerge;
  next_key := λ _, Ok None;
  search_key := λ _, Panic;
|}.

#[global] Instance AllocatorKey_OrdUpperBound : OrdUpperBound AllocatorKey :=
  λ a b, end_ (device_range a) ?= end_ (device_range b).

#[global] Instance AllocatorKey_OrdLowerBound : OrdLowerBound AllocatorKey :=
  λ a b, cmp_then (start (device_range a) ?= start (device_range b))
           (end_ (device_range a) ?= end_ (device_range b)).

#[global] Instance AllocatorKey_KeyEq : KeyEq AllocatorKey := λ a b, bool_decide (a = b).

#[global] Instance AllocatorKey_RangeKey : RangeKey AllocatorKey := AllocatorKey.overlaps.

(** [max_extent_size_for_block_size]. *)
Definition DEFAULT_MAX_SERIALIZED_RECORD_SIZE : Z := 4096.
Definition max_extent_size_for_block_size (block_size : Z) : res Z :=
  p ← u64_mul block_size (DEFAULT_MAX_SERIALIZED_RECORD_SIZE - 64);
  u64_div p 9.

(** ** The merge function *)
Definition alloc_merge (lv rv : MergeView AllocatorKey AllocatorValue)
    : res (MergeResult AllocatorKey AllocatorValue) :=
  let l := mv_item lv in
  let r := mv_item rv in
  let lr := device_range (key l) in
  let rr := device_range (key r) in
  if end_ lr <? start rr then Ok EmitLeft
  else if end_ lr =? start rr then
    if decide (value l = value r) then
      Ok (MergeOther None Discard
            (Replace (mkItem (mkAK (start lr ..< end_ rr)) (value l) (Z.min (sequence l) (sequence r)))))
    else Ok EmitLeft
  else if start lr =? start rr then
    if end_ lr <? end_ rr then
      if mv_layer_index lv <? mv_layer_index rv then
        Ok (MergeOther None Keep
              (if end_ lr =? end_ rr then Discard
               else Replace (mkItem (mkAK (end_ lr ..< end_ rr)) (value r) (sequence r))))
      else Ok (MergeOther None Discard Keep)
    else
      if mv_layer_index rv <? mv_layer_index lv then
        Ok (MergeOther None
              (if end_ rr =? end_ lr then Discard
               else Replace (mkItem (mkAK (end_ rr ..< end_ lr)) (value l) (sequence l)))
              Keep)
      else Ok (MergeOther None Keep Discard)
  else
    _ ← rassert (start rr <=? end_ lr);
    Ok (MergeOther
          (Some (mkItem (mkAK (start lr ..< start rr)) (value l) (sequence l)))
          (Replace (mkItem (mkAK (start rr ..< end_ lr)) (value l) (sequence l)))
          Keep).

(** The predicates of the two filters. *)
Definition not_tombstone (i : AllocatorItem) : bool := bool_decide (value i ≠ AVNone).
Definition not_marked_for_deletion (marked_for_deletion : gset Z) (i : AllocatorItem) : bool :=
  match value i with
  | AVAbs _ owner_object_id => bool_decide (owner_object_id ∉ marked_for_deletion)
  | AVNone => true
  end.

Definition filter_tombstones (iter : LayerIterator AllocatorKey AllocatorValue) :=
  FilterLayerIterator.new not_tombstone iter.
Definition filter_marked_for_deletion (iter : LayerIterator AllocatorKey AllocatorValue)
    (marked_for_deletion : gset Z) :=
  FilterLayerIterator.new (not_marked_for_deletion marked_for_deletion) iter.

(** ** What the merge function does to a pile *)
Definition arng (i : AllocatorItem) : range := device_range (key i).
Definition aval (i : AllocatorItem) (p : Z) : AllocatorValue := value i.

#[global] Instance AllocatorKey_TotalCmp : TotalCmp (cmp_lower_bound (K := AllocatorKey)).
Proof.
  split; unfold cmp_lower_bound, AllocatorKey_OrdLowerBound, cmp_then.
  - intros [[a b]] [[c d]]. cbn. rewrite (Z.compare_antisym c a), (Z.compare_antisym d b).
    by destruct (c ?= a).
  - intros [[a b]] [[c d]] [[e f]]. cbn.
    destruct (Z.compare_spec a c), (Z.compare_spec c e), (Z.compare_spec a e); try done; try lia;
      rewrite !Z.compare_le_iff || idtac; try done; intros; lia.
Qed.

Lemma cmp_lower_bound_ne_Gt a b :
  cmp_lower_bound (K := AllocatorKey) a b ≠ Gt →
  start (device_range a) < start (device_range b) ∨
  start (device_range a) = start (device_range b) ∧ end_ (device_range a) ≤ end_ (device_range b).
Proof.
  unfold cmp_lower_bound, AllocatorKey_OrdLowerBound, cmp_then.
  destruct (Z.compare_spec (start (device_range a)) (start (device_range b))); [|by left|done].
  rewrite Z.compare_le_iff. by right.
Qed.

Lemma entry_le_inv i1 x1 s1 i2 x2 s2 :
  entry_le (i1, x1 :: s1) (i2, x2 :: s2) →
  start (arng x1) < start (arng x2) ∨
  start (arng x1) = start (arng x2) ∧ end_ (arng x1) < end_ (arng x2) ∨
  start (arng x1) = start (arng x2) ∧ end_ (arng x1) = end_ (arng x2) ∧ i1 ≤ i2.
Proof.
  unfold entry_le, cmp_lower_bound, AllocatorKey_OrdLowerBound, cmp_then, arng. cbn.
  destruct (Z.compare_spec (start (device_range (key x1))) (start (device_range (key x2))));
    [|by left|done].
  destruct (Z.compare_spec (end_ (device_range (key x1))) (end_ (device_range (key x2))));
    [|by auto|done].
  rewrite Z.compare_le_iff. auto.
Qed.

(** ** The merge function keeps its promise *)
Lemma alloc_heads i1 x1 s1 i2 x2 s2 A :
  pile arng ((i1, x1 :: s1) :: (i2, x2 :: s2) :: A) →
  Forall (entry_le (i1, x1 :: s1)) ((i2, x2 :: s2) :: A) → Forall (entry_le (i2, x2 :: s2)) A →
  heads arng i1 i2 x1 x2 s1 s2 A.
Proof.
  intros Hp [Hle1 _]%Forall_cons Hle2. apply entry_le_inv in Hle1. apply pile_heads; [done|lia|].
  intros i x s Hin. rewrite Forall_forall in Hle2. specialize (Hle2 _ Hin). apply entry_le_inv in Hle2. lia.
Qed.

#[local] Abbreviation asound := (sound_step arng aval).

Lemma alloc_merge_sound i1 x1 s1 i2 x2 s2 A :
  pile arng ((i1, x1 :: s1) :: (i2, x2 :: s2) :: A) →
  Forall (entry_le (i1, x1 :: s1)) ((i2, x2 :: s2) :: A) →
  Forall (entry_le (i2, x2 :: s2)) A →
  let A0 := (i1, x1 :: s1) :: (i2, x2 :: s2) :: A in
  match alloc_merge (mkView x1 i1) (mkView x2 i2) with
  | Ok EmitLeft => asound A0 [x1] (push i1 s1 ((i2, x2 :: s2) :: A))
  | Ok (MergeOther emit l r) => asound A0 (option_list emit) (apply_op r i2 x2 s2 (apply_op l i1 x1 s1 A))
  | _ => False
  end.
Proof.
  intros Hp Hle1 Hle2. pose proof (alloc_heads _ _ _ _ _ _ _ Hp Hle1 Hle2) as H. cbn zeta.
  pose proof (hd_ne1 _ _ _ _ _ _ _ _ H) as Hn1. apply Forall_cons in Hle1 as [Ho%entry_le_inv _].
  pose proof (hd_idx _ _ _ _ _ _ _ _ H) as Hi. pose proof (hd_ne2 _ _ _ _ _ _ _ _ H) as Hn2.
  unfold alloc_merge. cbn [mv_item mv_layer_index].
  change (device_range (key x1)) with (arng x1). change (device_range (key x2)) with (arng x2).
  destruct (Z.ltb_spec (end_ (arng x1)) (start (arng x2))); [apply step_emit_left; [done|lia]|].
  destruct (Z.eqb_spec (end_ (arng x1)) (start (arng x2))).
  { case_decide as Hv; [|apply step_emit_left; [done|lia]].
    apply step_touch; try done; intros p _; unfold aval; cbn [value]; congruence. }
  destruct (Z.eqb_spec (start (arng x1)) (start (arng x2))).
  - destruct (Z.ltb_spec (end_ (arng x1)) (end_ (arng x2))).
    + destruct (Z.ltb_spec i1 i2); [|apply step_drop_left; [done..|lia|lia]].
      destruct (Z.eqb_spec (end_ (arng x1)) (end_ (arng x2))); [lia|]. apply step_hide_right; try done; lia.
    + destruct (Z.ltb_spec i2 i1); [lia|]. apply step_drop_right; [done|lia|lia].
  - unfold rassert. destruct (Z.leb_spec (start (arng x2)) (end_ (arng x1))); [|lia]. res_simpl.
    apply step_split; try done; lia.
Qed.

#[global] Instance alloc_segment_merge : SegmentMerge arng aval alloc_merge (pile arng).
Proof.
  split; [done|apply pile_perm| |].
  - intros i x s. rewrite pile_cons, seg_cons. intros (Hf & _ & (_ & _ & Hs) & Hp). by apply pile_push.
  - intros i1 x1 s1 i2 x2 s2 A A0 Hp H1 H2. pose proof (alloc_merge_sound _ _ _ _ _ _ _ Hp H1 H2) as Hs. cbn zeta in Hs.
    destruct (alloc_merge _ _) as [[|emit l r]| | |]; try done; (split; [done|apply (ss_pile _ _ _ _ _ Hs)]).
Qed.

(** C1: a full scan of any pile of well-formed layers of the allocator's tree
    terminates without error or panic, yields ascending, disjoint, non-empty
    extents, and assigns to each byte of the device exactly the value that the
    newest layer that mentions it does. *)
Theorem alloc_merge_newest_wins (layers : list (Layer AllocatorKey AllocatorValue)) ls fuel :
  Forall2 holds layers ls → Z.of_nat (length layers) ≤ 65536 → Forall (seg arng) ls →
  (pile_size arng (layer_entries 0 ls) + 1 < fuel)%nat →
  ∃ out, merge_layers fuel layers alloc_merge = Ok out ∧ seg arng out ∧
    ∀ p v, covers arng aval out p v ↔ newest arng aval ls p v.
Proof.
  intros HF Hlen Hseg Hfuel. eapply merge_layers_newest; [apply _|done|done|by apply pile_layer_entries|done].
Qed.
