(* ===== verification/AllocMergeInto.v ===== *)
(** * Merging one extent into the mutable layer

    [merge_into] of [fxfs/src/lsm_tree/merge.rs] with the allocator's merge
    function, over any mutable iterator that keeps the contract of
    [LayerIteratorMutLaws]: the layer afterwards is the layer before with the
    bytes of the new extent overwritten. *)

From S2P Require Import Prelude Round LsmTypes Merge MergeProps Segments SegMerge AllocMerge.

Section merge_into.
Context {I : Type} `{Laws : LayerIteratorMutLaws I AllocatorKey AllocatorValue}.
Abbreviation MI := (MergeInto I AllocatorKey AllocatorValue).
Implicit Types (s : MI) (a b : list AllocatorItem).

(** What each side of the loop still has to contribute. *)
Definition mut_stream s a : list AllocatorItem :=
  match mut_item s with MIItem i => i :: a | _ => a end.
Definition new_stream s : list AllocatorItem :=
  match new_item s with MIItem i => [i] | _ => [] end.
Definition into_pile s a : list (entry AllocatorKey AllocatorValue) :=
  push 0 (new_stream s) (push 1 (mut_stream s a) []).

Definition into_ok s b a : Prop :=
  lim_rep (mut_iter s) b a ∧ new_item s ≠ MIIter ∧
  match mut_item s with MINone => a = [] | MIIter => a ≠ [] | MIItem _ => True end.

Lemma set_item_from_iter_ok i s b a :
  lim_rep i b a → new_item s ≠ MIIter →
  ∃ s', set_item_from_iter i s = Ok s' ∧ into_ok s' b a ∧ mut_stream s' a = a ∧
    new_item s' = new_item s.
Proof.
  intros Hr Hn. unfold set_item_from_iter, from_iter. rewrite (lim_get_rep _ _ _ Hr). res_simpl.
  eexists. split; [done|]. unfold into_ok, mut_stream. by destruct a.
Qed.

Lemma mut_current_ok s b a m a' :
  into_ok s b a → mut_stream s a = m :: a' → mut_current s = Ok m.
Proof.
  intros (Hr & _ & Hm) Hs. unfold mut_current, mut_stream in *.
  destruct (mut_item s); [by subst|by simplify_eq|].
  by rewrite (lim_get_rep _ _ _ Hr), Hs.
Qed.

Lemma apply_emit_ok e s b a :
  into_ok s b a →
  ∃ s', apply_emit e s = Ok s' ∧ into_ok s' (b ++ option_list e) a ∧
    mut_stream s' a = mut_stream s a ∧ new_item s' = new_item s.
Proof.
  intros (Hr & Hn & Hm). destruct e as [x|]; cbn [apply_emit option_list].
  - destruct (lim_insert_rep _ _ _ x Hr) as (i' & -> & Hr'). res_simpl. eexists. by split_and!.
  - exists s. by rewrite app_nil_r.
Qed.

Lemma apply_new_ok op s b a n :
  into_ok s b a → new_stream s = [n] →
  into_ok (apply_new op s) b a ∧ mut_stream (apply_new op s) a = mut_stream s a ∧
  new_stream (apply_new op s) = match op with Keep => [n] | Discard => [] | Replace r => [r] end.
Proof. intros (Hr & Hn & Hm) Hs. destruct op; cbn; done. Qed.

Lemma apply_mut_ok op s b a m a' :
  into_ok s b a → mut_stream s a = m :: a' →
  ∃ s' a2, apply_mut op s = Ok s' ∧ into_ok s' b a2 ∧ new_item s' = new_item s ∧
    mut_stream s' a2 = match op with Keep => m :: a' | Discard => a' | Replace r => r :: a' end.
Proof.
  intros Hok Hs. destruct (Hok) as (Hr & Hn & Hm). unfold mut_stream in Hs.
  assert (∃ i, erase_current s = Ok i ∧ lim_rep i b a') as (i & Hi & Hr').
  { unfold erase_current. destruct (mut_item s); simplify_eq; [by eexists|by apply lim_erase_rep in Hr]. }
  destruct op; cbn [apply_mut]; [|rewrite Hi; res_simpl..].
  - exists s, a. by split_and!.
  - destruct (set_item_from_iter_ok i s _ _ Hr' Hn) as (s' & ? & ? & ? & ?). exists s', a'. by split_and!.
  - eexists _, a'. by split_and!.
Qed.

Lemma apply_op_push op i (x : AllocatorItem) t (A : list (entry AllocatorKey AllocatorValue)) :
  apply_op op i x t A =
    push i (match op with Keep => x :: t | Discard => t | Replace r => r :: t end) A.
Proof. by destruct op. Qed.

Lemma sound_step_perm A1 A2 E A1' A2' :
  A1 ≡ₚ A2 → A1' ≡ₚ A2' → sound_step arng aval A1 E A1' → sound_step arng aval A2 E A2'.
Proof.
  intros Hp Hp' [? ? ? ? Hf Hv]. split.
  - by eapply pile_perm.
  - by rewrite <- (pile_size_perm _ _ _ Hp), <- (pile_size_perm _ _ _ Hp').
  - done.
  - intros x Hx. eapply above_perm; eauto.
  - intros f Ha. destruct (Hf f) as [? ?]; [by eapply above_perm; [symmetry|]|].
    split; [by eapply above_perm|done].
  - intros p v. by rewrite <- (visible_perm _ _ _ _ _ _ Hp), <- (visible_perm _ _ _ _ _ _ Hp').
Qed.

Section turn.
Context s b a n m a' (Hok : into_ok s b a) (Hns : new_stream s = [n])
  (Hms : mut_stream s a = m :: a').

Lemma new_item_is : new_item s = MIItem n.
Proof. unfold new_stream in Hns. by destruct (new_item s); simplify_eq. Qed.

Lemma new_left_ok e l r :
  ∃ s1 s2 a2, apply_emit e s = Ok s1 ∧ apply_mut r (apply_new l s1) = Ok s2 ∧
    into_ok s2 (b ++ option_list e) a2 ∧
    into_pile s2 a2 ≡ₚ apply_op r 1 m a' (apply_op l 0 n [] []).
Proof.
  destruct (apply_emit_ok e _ _ _ Hok) as (s1 & He & Hok1 & Hms1 & Hn1).
  assert (new_stream s1 = [n]) as Hns1 by (unfold new_stream; by rewrite Hn1, new_item_is).
  destruct (apply_new_ok l _ _ _ _ Hok1 Hns1) as (Hok2 & Hms2 & Hns2).
  rewrite Hms1, Hms in Hms2.
  destruct (apply_mut_ok r _ _ _ _ _ Hok2 Hms2) as (s2 & a2 & Hm & Hok3 & Hn3 & Hms3).
  exists s1, s2, a2. split_and!; [done..|]. unfold into_pile.
  rewrite Hms3, !apply_op_push, push_swap. unfold new_stream in *. rewrite Hn3, Hns2. by destruct l.
Qed.

Lemma mut_left_ok e l r :
  ∃ s1 s2 a2, apply_emit e s = Ok s1 ∧ apply_mut l s1 = Ok s2 ∧
    into_ok (apply_new r s2) (b ++ option_list e) a2 ∧
    into_pile (apply_new r s2) a2 ≡ₚ apply_op r 0 n [] (apply_op l 1 m a' []).
Proof.
  destruct (apply_emit_ok e _ _ _ Hok) as (s1 & He & Hok1 & Hms1 & Hn1). rewrite Hms in Hms1.
  destruct (apply_mut_ok l _ _ _ _ _ Hok1 Hms1) as (s2 & a2 & Hm & Hok2 & Hn2 & Hms2).
  assert (new_stream s2 = [n]) as Hns2 by (unfold new_stream; by rewrite Hn2, Hn1, new_item_is).
  destruct (apply_new_ok r _ _ _ _ Hok2 Hns2) as (Hok3 & Hms3 & Hns3).
  exists s1, s2, a2. split_and!; [done..|]. unfold into_pile.
  rewrite Hms3, Hms2, Hns3, !apply_op_push. by destruct r.
Qed.

(** The mutable layer's item is emitted: the iterator moves past it. *)
Lemma emit_mut_ok :
  ∃ s' a2, emit_mut s = Ok s' ∧ into_ok s' (b ++ [m]) a2 ∧
    into_pile s' a2 ≡ₚ push 1 a' [(0, [n])].
Proof.
  destruct Hok as (Hr & Hn & Hm). unfold mut_stream in Hms.
  assert (∃ i, emit_mut s = set_item_from_iter i s ∧ lim_rep i (b ++ [m]) a') as (i & -> & Hr').
  { unfold emit_mut. destruct (mut_item s); simplify_eq.
    - destruct (lim_insert_rep _ _ _ m Hr) as (i' & -> & ?). by exists i'.
    - destruct (lim_advance_rep _ _ _ _ Hr) as (i' & -> & ?). by exists i'. }
  destruct (set_item_from_iter_ok i s _ _ Hr' Hn) as (s' & ? & ? & Hms' & Hn').
  exists s', a'. split_and!; [done..|]. unfold into_pile. rewrite Hms', push_swap.
  unfold new_stream. by rewrite Hn', new_item_is.
Qed.

(** One turn of the loop is a sound step of the pile of the two streams, or
    finds that the new item belongs right before the current one. *)
Lemma merge_into_step_ok :
  pile arng (into_pile s a) →
  ∃ s' go, merge_into_step alloc_merge s = Ok (s', go) ∧
    if (go : bool) then
      ∃ E a2, into_ok s' (b ++ E) a2 ∧ sound_step arng aval (into_pile s a) E (into_pile s' a2)
    else s' = s ∧ sound_step arng aval (into_pile s a) [n] [(1, m :: a')].
Proof.
  unfold into_pile at 1. rewrite Hns, Hms. cbn [push]. intros Hp.
  assert (into_pile s a = [(0, [n]); (1, m :: a')]) as -> by (unfold into_pile; by rewrite Hns, Hms).
  unfold merge_into_step. rewrite (mut_current_ok _ _ _ _ _ Hok Hms).
  unfold new_current. rewrite new_item_is. res_simpl.
  destruct (cmp_then (cmp_lower_bound (key n) (key m)) Lt) eqn:Ecmp; try (
    pose proof (alloc_merge_sound 0 n [] 1 m a' [] Hp
      ltac:(repeat constructor; unfold entry_le; cbn -[cmp_lower_bound];
            change (0 ?= 1) with Lt; by rewrite Ecmp) ltac:(constructor)) as Hs;
    cbn zeta in Hs;
    destruct (alloc_merge (mkView n 0) (mkView m 1)) as [[|e l r]| | |]; try done; res_simpl;
    [by exists s, false|];
    destruct (new_left_ok e l r) as (s1 & s2 & a2 & -> & Hm & Hok' & Hperm); res_simpl;
    rewrite Hm; res_simpl; exists s2, true; (split; [done|]);
    exists (option_list e), a2; (split; [done|]); by eapply sound_step_perm; [| |exact Hs]).
  pose proof (Permutation_swap (0, [n]) (1, m :: a') []) as Hsw.
  pose proof (alloc_merge_sound 1 m a' 0 n [] [] (pile_perm _ _ _ (symmetry Hsw) Hp)) as Hs.
  ospecialize (Hs _ _); [|constructor|].
  { repeat constructor. unfold entry_le. cbn -[cmp_lower_bound].
    rewrite (cmp_opp (cmp := cmp_lower_bound)). by destruct (cmp_lower_bound (key n) (key m)). }
  cbn zeta in Hs.
  destruct (alloc_merge (mkView m 1) (mkView n 0)) as [[|e l r]| | |]; try done; res_simpl.
  - destruct emit_mut_ok as (s' & a2 & -> & Hok' & Hperm). res_simpl. exists s', true. split; [done|].
    exists [m], a2. split; [done|]. by eapply sound_step_perm; [| |exact Hs].
  - destruct (mut_left_ok e l r) as (s1 & s2 & a2 & -> & Hm & Hok' & Hperm). res_simpl.
    rewrite Hm. res_simpl. eexists _, true. split; [done|].
    exists (option_list e), a2. split; [done|]. by eapply sound_step_perm; [| |exact Hs].
Qed.
End turn.

(** What the loop leaves to be inserted, after what it has placed already. *)
Definition final s b a : list AllocatorItem := b ++ new_stream s ++ mut_stream s a.

Lemma final_ok s b a :
  into_ok s b a →
  ∃ it', (iter ← insert_item (new_item s) (mut_iter s);
          iter ← insert_item (mut_item s) iter; lim_commit iter) = Ok it' ∧
    lim_contents it' (final s b a).
Proof.
  intros (Hr & Hn & Hm). unfold final, new_stream, mut_stream.
  assert (∃ i, insert_item (new_item s) (mut_iter s) = Ok i ∧
    lim_rep i (b ++ match new_item s with MIItem i => [i] | _ => [] end) a) as (i & -> & Hr').
  { destruct (new_item s); cbn [insert_item]; rewrite ?app_nil_r; [by eexists| |done].
    by apply lim_insert_rep. }
  res_simpl. rewrite app_assoc.
  destruct (mut_item s) as [|x|]; cbn [insert_item]; res_simpl; [by apply lim_commit_rep| |by apply lim_commit_rep].
  destruct (lim_insert_rep _ _ _ x Hr') as (i' & -> & Hr''). res_simpl.
  destruct (lim_commit_rep _ _ _ Hr'') as (it' & ? & Hc). exists it'. by rewrite <- app_assoc in Hc.
Qed.

Lemma merge_into_loop_ok fuel s b a :
  into_ok s b a → pile arng (into_pile s a) → seg arng b →
  (∀ x, x ∈ b → above arng (end_ (arng x)) (into_pile s a)) →
  (pile_size arng (into_pile s a) < fuel)%nat →
  ∃ s' b' a', merge_into_loop fuel alloc_merge s = Ok s' ∧ into_ok s' b' a' ∧
    seg arng (final s' b' a') ∧
    ∀ p v, covers arng aval (final s' b' a') p v ↔ covers arng aval b p v ∨ visible arng aval (into_pile s a) p v.
Proof.
  revert s b a. induction fuel as [|fuel IH]; intros s b a Hok Hp Hb Hab Hf; [lia|].
  (* The streams of a pile whose two sides may be appended. *)
  assert (∀ l, final s b a = b ++ l → seg arng l → (∀ x y, x ∈ b → y ∈ l → end_ (arng x) ≤ start (arng y)) →
    (∀ p v, covers arng aval l p v ↔ visible arng aval (into_pile s a) p v) →
    ∃ s' b' a', Ok s = Ok s' ∧ into_ok s' b' a' ∧ seg arng (final s' b' a') ∧
      ∀ p v, covers arng aval (final s' b' a') p v ↔ covers arng aval b p v ∨ visible arng aval (into_pile s a) p v)
    as Hdone.
  { intros l Hl Hs Hbl Hv. exists s, b, a. split_and!; [done..| |].
    - rewrite Hl. by apply seg_app.
    - intros p v. by rewrite Hl, covers_app, Hv. }
  cbn [merge_into_loop].
  destruct (new_stream s) as [|n ns'] eqn:Hns; [|destruct (mut_stream s a) as [|m a'] eqn:Hms].
  - replace (mi_is_some (mut_item s) && mi_is_some (new_item s)) with false.
    2:{ unfold new_stream in Hns. destruct Hok as (_ & Hn & _).
        destruct (new_item s); [by rewrite andb_false_r|done|done]. }
    apply (Hdone (mut_stream s a)); unfold final, into_pile in *; rewrite Hns in *; cbn [push app] in *; [done|..].
    + destruct (mut_stream s a); [apply seg_nil|]. cbn [push] in Hp. rewrite pile_cons in Hp. tauto.
    + intros x y Hx Hy. specialize (Hab x Hx). rewrite above_push in Hab. by apply Hab.
    + intros p v. by rewrite visible_push_nil.
  - replace (mi_is_some (mut_item s) && mi_is_some (new_item s)) with false.
    2:{ unfold mut_stream in Hms. destruct Hok as (_ & _ & Hm). by destruct (mut_item s). }
    apply (Hdone (new_stream s)); unfold final, into_pile in *; rewrite Hns, Hms in *; cbn [push app] in *.
    + by rewrite app_nil_r.
    + rewrite pile_cons in Hp. tauto.
    + intros x y Hx Hy. specialize (Hab x Hx). rewrite above_cons in Hab. by apply Hab.
    + intros p v. by rewrite (visible_push_nil _ _ 0 (n :: ns')).
  - assert (ns' = []) as -> by (unfold new_stream in Hns; by destruct (new_item s); simplify_eq).
    replace (mi_is_some (mut_item s) && mi_is_some (new_item s)) with true.
    2:{ unfold mut_stream, new_stream in *. destruct Hok as (_ & _ & Hm).
        destruct (mut_item s), (new_item s); by simplify_eq. }
    destruct (merge_into_step_ok s b a n m a' Hok Hns Hms Hp) as (s1 & go & -> & Hgo). res_simpl.
    destruct go; [destruct Hgo as (E & a2 & Hok' & Hs)|destruct Hgo as [-> Hs]].
    + destruct (IH s1 (b ++ E) a2 Hok') as (s' & b' & a'' & Hl & Hok'' & Hseg & Hv).
      * apply (ss_pile _ _ _ _ _ Hs).
      * apply seg_app. split_and!; [done|apply (ss_seg _ _ _ _ _ Hs)|].
        intros x y Hx Hy. by eapply (ss_above _ _ _ _ _ Hs); [apply Hab|].
      * intros x [Hx|Hx]%elem_of_app; [by apply (ss_above _ _ _ _ _ Hs), Hab|by apply (ss_after _ _ _ _ _ Hs)].
      * pose proof (ss_size _ _ _ _ _ Hs). lia.
      * exists s', b', a''. split_and!; [done..|]. intros p v.
        rewrite Hv, covers_app, (ss_visible _ _ _ _ _ Hs). tauto.
    + pose proof (ss_pile _ _ _ _ _ Hs) as Hp2. rewrite pile_cons in Hp2.
      apply (Hdone (n :: m :: a')); [unfold final; by rewrite Hns, Hms|..].
      * pose proof (ss_after _ _ _ _ _ Hs n ltac:(set_solver)) as Ha.
        pose proof (ss_seg _ _ _ _ _ Hs) as Hn. rewrite above_cons in Ha. rewrite seg_cons in Hn |- *.
        tauto.
      * intros x y Hx Hy. specialize (Hab x Hx). unfold into_pile in Hab. rewrite Hns, Hms in Hab.
        cbn [push] in Hab. rewrite !above_cons in Hab. set_solver.
      * intros p v. rewrite (ss_visible _ _ _ _ _ Hs), !(visible_push_nil _ _ 1 (m :: a')).
        rewrite (covers_cons _ _ n). rewrite (covers_cons _ _ n), covers_nil. tauto.
Qed.

Lemma visible_over n a p v :
  visible arng aval (push 0 [n] (push 1 a [])) p v ↔
    (in_range p (arng n) ∧ v = value n) ∨ (¬ in_range p (arng n) ∧ covers arng aval a p v).
Proof.
  change (push 0 [n] (push 1 a [])) with (layer_entries 0 [[n]; a]).
  rewrite visible_layer_entries. cbn [newest]. setoid_rewrite covers_cons.
  setoid_rewrite covers_nil. naive_solver.
Qed.

(** Merging an extent into a well-formed layer, from an iterator that stands
    at or before the first extent it can touch. *)
Lemma alloc_merge_into_overwrites (it : I) b a n fuel :
  lim_rep it b a → seg arng (b ++ a) → (∀ x, x ∈ b → end_ (arng x) ≤ start (arng n)) →
  start (arng n) < end_ (arng n) → (seg_size arng (n :: a) < fuel)%nat →
  ∃ it' c, merge_into fuel it n alloc_merge = Ok it' ∧ lim_contents it' c ∧ seg arng c ∧
    ∀ p v, covers arng aval c p v ↔
      (in_range p (arng n) ∧ v = value n) ∨ (¬ in_range p (arng n) ∧ covers arng aval (b ++ a) p v).
Proof.
  intros Hr Hseg Hb Hn Hf. rewrite seg_app in Hseg. destruct Hseg as (Hsb & Hsa & Hba).
  destruct (set_item_from_iter_ok it (mkMergeInto it MINone (MIItem n)) b a Hr ltac:(done))
    as (s0 & Hs0 & Hok & Hms & Hni). cbn [new_item] in Hni.
  assert (into_pile s0 a = push 0 [n] (push 1 a [])) as Hpile by (unfold into_pile, new_stream; by rewrite Hms, Hni).
  destruct (merge_into_loop_ok fuel s0 b a Hok) as (s' & b' & a' & Hl & Hok' & Hs' & Hv).
  - rewrite Hpile. change (push 0 [n] (push 1 a [])) with (layer_entries 0 [[n]; a]).
    apply pile_layer_entries. rewrite !Forall_cons, seg_singleton. by auto.
  - done.
  - intros x Hx. rewrite Hpile, !above_push. split_and!; [|by intros y; apply Hba|].
    + by intros y ->%list_elem_of_singleton; apply Hb.
    + by intros ? ? ? ?%elem_of_nil.
  - rewrite Hpile, !pile_size_push, seg_size_cons in *. cbn. cbn in Hf. lia.
  - destruct (final_ok _ _ _ Hok') as (it' & Hit & Hc). exists it', (final s' b' a').
    split_and!; [|done..|].
    { unfold merge_into. unfold set_item_from_iter in Hs0. destruct (from_iter it); try done.
      cbn in Hs0. simplify_eq. res_simpl. rewrite Hl. exact Hit. }
    intros p v. rewrite Hv, Hpile, visible_over, covers_app.
    split; [|tauto]. intros [Hc'|[?|[? ?]]]; [|by auto|by auto].
    right. split; [|by auto]. intros [? ?]. destruct Hc' as (x & Hx & [? ?] & _).
    specialize (Hb x Hx). lia.
Qed.
End merge_into.
