(* ===== verification/ObjMerge.v ===== *)
(** * Merging the layers of an object store

    [fxfs/src/object_store/merge.rs]: the merge function of the LSM tree in
    which an object store keeps its records. *)

From S2P Require Import Prelude Round Checksum Extent LsmTypes ObjectRecord Merge.

Abbreviation ObjectMergeResult := (MergeResult ObjectKey ObjectValue).

(** Addition of [i64]s, which panics on overflow. *)
Definition i64_max : Z := 2 ^ 63 - 1.
Definition i64_add (a b : Z) : res Z :=
  if (- i64_max - 1 <=? a + b) && (a + b <=? i64_max) then Ok (a + b) else Panic.

Definition merge_deleted_extents (object_id attribute_id : Z) (left_key right_key : ExtentKey) (sequence : Z)
    : res ObjectMergeResult :=
  let l := ek_range left_key in
  let r := ek_range right_key in
  if end_ l <? start r then Ok EmitLeft
  else if end_ r <=? end_ l then Ok (MergeOther None Keep Discard)
  else
    Ok (MergeOther None Discard
          (Replace (mkItem (ObjectKey.extent object_id attribute_id (start l ..< end_ r)) ObjectValue.deleted_extent sequence))).

Definition merge_extents (object_id attribute_id : Z) (left right : MergeView ObjectKey ObjectValue)
    (left_key right_key : ExtentKey) (left_value right_value : ExtentValue) : res ObjectMergeResult :=
  let l := ek_range left_key in
  let r := ek_range right_key in
  let sequence := Z.min (sequence (mv_item left)) (sequence (mv_item right)) in
  rassert (negb (mv_layer_index right =? mv_layer_index left)) ≫= λ _,
  if bool_decide (left_value = ENone) && bool_decide (right_value = ENone)
     && (Z.abs (mv_layer_index left - mv_layer_index right) =? 1) then
    merge_deleted_extents object_id attribute_id left_key right_key sequence
  else if end_ l <=? start r then Ok EmitLeft
  else if mv_layer_index right <? mv_layer_index left then
    rassert (start l <? start r) ≫= λ _,
    left_len ← u64_sub (end_ l) (start l);
    before ← u64_sub (start r) (start l);
    emitted ← ExtentValue.shrunk left_value left_len before;
    rest ← ExtentValue.offset_by left_value before left_len;
    Ok (MergeOther
          (Some (mkItem (ObjectKey.extent object_id attribute_id (start l ..< start r)) (VExtent emitted) sequence))
          (Replace (mkItem (ObjectKey.extent object_id attribute_id (start r ..< end_ l)) (VExtent rest) sequence))
          Keep)
  else if end_ r <=? end_ l then Ok (MergeOther None Keep Discard)
  else
    hidden ← u64_sub (end_ l) (start r);
    right_len ← u64_sub (end_ r) (start r);
    rest ← ExtentValue.offset_by right_value hidden right_len;
    Ok (MergeOther None Keep
          (Replace (mkItem (ObjectKey.extent object_id attribute_id (end_ l ..< end_ r)) (VExtent rest) sequence))).

Section merge.
(** The normal form by which names are compared without regard to case. *)
Context (normal_form : list Z → list Z).

(** [==] of two keys. *)
Definition key_eq (a b : ObjectKey) : bool := (object_id a =? object_id b) && data_eq normal_form (data a) (data b).

(** The arms for tombstones, for equal keys, and for the rest. *)
Definition merge_others (left right : MergeView ObjectKey ObjectValue) : res ObjectMergeResult :=
  let l := mv_item left in
  let r := mv_item right in
  match data (key l), value l with
  | KObject, VNone =>
      if mv_layer_index right <? mv_layer_index left then Ok EmitLeft else Ok (MergeOther None Keep Discard)
  | _, _ =>
      if key_eq (key l) (key r) then
        rassert (mv_layer_index left <? mv_layer_index right) ≫= λ _, Ok (MergeOther None Keep Discard)
      else Ok EmitLeft
  end.

Definition merge (left right : MergeView ObjectKey ObjectValue) : res ObjectMergeResult :=
  let l := mv_item left in
  let r := mv_item right in
  if negb (object_id (key l) =? object_id (key r)) then Ok EmitLeft
  else
    match data (key l), data (key r), value l, value r with
    | KAttribute left_attr_id (AKExtent left_extent_key), KAttribute right_attr_id (AKExtent right_extent_key),
      VExtent left_extent, VExtent right_extent =>
        if left_attr_id =? right_attr_id then
          merge_extents (object_id (key l)) left_attr_id left right left_extent_key right_extent_key left_extent right_extent
        else merge_others left right
    | KProject left_project_id Usage, KProject right_project_id Usage,
      VBytesAndNodes left_bytes left_nodes, VBytesAndNodes right_bytes right_nodes =>
        if left_project_id =? right_project_id then
          bytes ← i64_add left_bytes right_bytes;
          nodes ← i64_add left_nodes right_nodes;
          if (bytes =? 0) && (nodes =? 0) then Ok (MergeOther None Discard Discard)
          else Ok (MergeOther None Discard (Replace (mkItem (key r) (VBytesAndNodes bytes nodes) (sequence r))))
        else merge_others left right
    | _, _, _, _ => merge_others left right
    end.
End merge.
