(* ===== verification/ObjMergeProps.v ===== *)
(** * What the merge of an object store's layers shows

    The merge function of [ObjMerge.v] on well-formed layers of records of any
    kind: it never fails, and what each kind of record becomes (extents,
    records with a key of their own, usage of projects, tombstones). *)

From S2P Require Import Prelude Round Checksum Extent LsmTypes ObjectRecord Merge MergeProps ObjectKeyOrder.
From S2P Require Import Segments SegMerge ObjMerge.

#[global] Instance ObjectKey_LayerKey : LayerKey ObjectKey := {|
  merge_type := ObjectKey.merge_type;
  next_key := ObjectKey.next_key;
  search_key := ObjectKey.search_key;
|}.

(** ** Keys that are next to each other in the order *)
Lemma seq_between p u y w :
  seq_cmp (p ++ u) y ≠ Gt → seq_cmp y (p ++ w) ≠ Gt → ∃ v, y = p ++ v.
Proof.
  revert y. induction p as [|a p IH]; intros y; [by exists y|]. destruct y as [|b y]; cbn; [done|].
  rewrite (Z.compare_antisym a b). destruct (Z.compare_spec a b) as [->| |]; cbn; [|done..].
  intros H1 H2. destruct (IH y H1 H2) as [v ->]. by exists v.
Qed.

(** The extents of one attribute, the records with the same key (as far as the
    order tells), and those of one object. *)
Definition is_ext (o a : Z) (x : ObjectItem) : bool :=
  match key x with
  | mkObjectKey o' (KAttribute a' (AKExtent _)) => (o' =? o) && (a' =? a)
  | _ => false
  end.
Definition in_object (o : Z) (x : ObjectItem) : bool := object_id (key x) =? o.

Lemma is_ext_inv o a x : is_ext o a x = true ↔ ∃ e, key x = ObjectKey.from_extent o a e.
Proof.
  unfold is_ext, ObjectKey.from_extent. split.
  - destruct (key x) as [o' [| |a' [|e]| | | | | | |]]; try done. intros [->%Z.eqb_eq ->%Z.eqb_eq]%andb_true_iff. by exists e.
  - intros [e ->]. by rewrite !Z.eqb_refl.
Qed.

Section order.
Context (normal_form : list Z → list Z).
#[local] Abbreviation cmp_lower := (object_cmp_lower_bound normal_form).
#[local] Abbreviation pos := (λ e : ExtentKey, start (ek_range e)).

Definition is_key (k : ObjectKey) (x : ObjectItem) : bool :=
  match cmp_lower k (key x) with Eq => true | _ => false end.

(** The items of a kind have no others between them. *)
Definition convex (P : ObjectItem → bool) : Prop :=
  ∀ x y z, P x = true → P z = true → cmp_lower (key x) (key y) ≠ Gt → cmp_lower (key y) (key z) ≠ Gt → P y = true.

Lemma code_extent o a e : code normal_form pos (ObjectKey.from_extent o a e) = [o; 2; a; 1] ++ [start (ek_range e)].
Proof. done. Qed.

Lemma is_ext_convex o a : convex (is_ext o a).
Proof.
  intros x y z (e & Hx)%is_ext_inv (e' & Hz)%is_ext_inv. rewrite Hx, Hz, !cmp_lower_code, !code_extent. intros H1 H2.
  destruct (seq_between _ _ _ _ H1 H2) as [v Hv]. apply is_ext_inv.
  destruct (key y) as [o' [| |a' [|e0]| | | | | | |]]; cbn in Hv; try discriminate Hv. injection Hv as -> -> _. by exists e0.
Qed.

Lemma in_object_convex o : convex (in_object o).
Proof.
  intros x y z Hx%Z.eqb_eq Hz%Z.eqb_eq. rewrite !cmp_lower_code. intros H1 H2. apply Z.eqb_eq.
  destruct (seq_between [o] (drop 1 (code normal_form pos (key x))) (code normal_form pos (key y)) (drop 1 (code normal_form pos (key z)))) as [v Hv].
  - unfold code in *. cbn [app drop]. by rewrite <- Hx.
  - unfold code in *. cbn [app drop]. by rewrite <- Hz.
  - unfold code in Hv. by injection Hv.
Qed.

Lemma is_key_inv k x : is_key k x = true ↔ cmp_lower k (key x) = Eq.
Proof. unfold is_key. by destruct (cmp_lower _ _). Qed.

Lemma cmp_lower_Eq a b : cmp_lower a b = Eq → code normal_form pos a = code normal_form pos b.
Proof. rewrite cmp_lower_code. apply seq_cmp_Eq. Qed.

Lemma is_key_convex k : convex (is_key k).
Proof.
  intros x y z Hx%is_key_inv%cmp_lower_Eq Hz%is_key_inv%cmp_lower_Eq. rewrite is_key_inv, !cmp_lower_code, <- Hx, <- Hz.
  rewrite (cmp_opp (cmp := seq_cmp) (code _ _ (key y))). by destruct (seq_cmp _ _).
Qed.
End order.

(** ** Extents *)

(** The range of an extent, and what it says of each byte. *)
Definition orng (x : ObjectItem) : range :=
  match data (key x) with KAttribute _ (AKExtent e) => ek_range e | _ => 0 ..< 0 end.
Definition oval (x : ObjectItem) (p : Z) : option (Z * Z * block_info) :=
  match data (key x), value x with
  | KAttribute _ (AKExtent e), VExtent v =>
      extent_at v (end_ (ek_range e) - start (ek_range e)) (p - start (ek_range e))
  | _, _ => None
  end.

Section extents.
(** Extents begin and end at multiples of the block size. *)
Context (bs : Z) (Hbs : 0 < bs).

Definition extent_ok (r : range) (v : ExtentValue) : Prop :=
  0 ≤ start r < end_ r ∧ end_ r ≤ u64_max ∧ (bs | start r) ∧ (bs | end_ r) ∧ value_wf bs v (end_ r - start r).

(** Extents and usage of projects have a value of that kind. *)
Definition item_ok (x : ObjectItem) : Prop :=
  match data (key x), value x with
  | KAttribute _ (AKExtent e), VExtent v => extent_ok (ek_range e) v
  | KAttribute _ (AKExtent e), _ => False
  | KProject _ Usage, VBytesAndNodes _ _ => True
  | KProject _ Usage, _ => False
  | _, _ => True
  end.

Context (o a : Z).
#[local] Abbreviation ext r v q := (mkItem (ObjectKey.extent o a r) (VExtent v) q).

(** A part of an extent, with what the extent says of it. *)
Record piece (m : ObjectItem) (r : range) (x : ObjectItem) : Prop := {
  pc_ext : is_ext o a m = true;
  pc_ok : item_ok m;
  pc_rng : orng m = r;
  pc_agree : agree oval r m x;
}.

Definition deleted (x : ObjectItem) : Prop := ∀ p, oval x p = None.

(** What may become of two extents that follow each other in the order. *)
Inductive ext_step (i1 : Z) (x1 : ObjectItem) (i2 : Z) (x2 : ObjectItem) : ObjectMergeResult → Prop :=
| es_apart : end_ (orng x1) ≤ start (orng x2) → ext_step i1 x1 i2 x2 EmitLeft
| es_covered :
    end_ (orng x2) ≤ end_ (orng x1) → i1 < i2 → ext_step i1 x1 i2 x2 (MergeOther None Keep Discard)
| es_absorbed :
    end_ (orng x2) ≤ end_ (orng x1) → i1 = i2 + 1 ∨ i2 = i1 + 1 → deleted x1 → deleted x2 →
    ext_step i1 x1 i2 x2 (MergeOther None Keep Discard)
| es_split e l :
    start (orng x1) < start (orng x2) → start (orng x2) < end_ (orng x1) →
    piece e (start (orng x1) ..< start (orng x2)) x1 → piece l (start (orng x2) ..< end_ (orng x1)) x1 →
    ext_step i1 x1 i2 x2 (MergeOther (Some e) (Replace l) Keep)
| es_trim r :
    start (orng x2) < end_ (orng x1) → end_ (orng x1) < end_ (orng x2) → i1 < i2 →
    piece r (end_ (orng x1) ..< end_ (orng x2)) x2 → ext_step i1 x1 i2 x2 (MergeOther None Keep (Replace r))
| es_join m :
    start (orng x2) ≤ end_ (orng x1) → end_ (orng x1) < end_ (orng x2) → i1 = i2 + 1 ∨ i2 = i1 + 1 →
    deleted x1 → deleted x2 → deleted m →
    is_ext o a m = true → item_ok m → orng m = (start (orng x1) ..< end_ (orng x2)) →
    ext_step i1 x1 i2 x2 (MergeOther None Discard (Replace m)).

Lemma is_ext_ext r v q : is_ext o a (ext r v q) = true.
Proof. unfold is_ext. cbn. by rewrite !Z.eqb_refl. Qed.

Lemma piece_offset r v q s' q' : extent_ok r v → (bs | s') → start r ≤ s' < end_ r →
  ∃ v', ExtentValue.offset_by v (s' - start r) (end_ r - start r) = Ok v' ∧ piece (ext (s' ..< end_ r) v' q') (s' ..< end_ r) (ext r v q).
Proof.
  intros (Hr & Hm & Hd1 & Hd2 & Hwf) Hs Hin. cbn.
  destruct (offset_by_spec bs Hbs v (end_ r - start r) (s' - start r)) as (v' & Hv & Hwf' & Hat); [done|by apply Z.divide_sub_r|lia|].
  exists v'. split; [done|]. replace (end_ r - start r - (s' - start r)) with (end_ r - s') in * by lia. split.
  - apply is_ext_ext.
  - unfold item_ok, extent_ok. cbn. split_and!; try done; lia.
  - done.
  - intros p [Hp1 Hp2]. cbn in *. rewrite Hat by lia. f_equal. lia.
Qed.

Lemma piece_shrunk r v q e' q' : extent_ok r v → (bs | e') → start r < e' ≤ end_ r →
  ∃ v', ExtentValue.shrunk v (end_ r - start r) (e' - start r) = Ok v' ∧ piece (ext (start r ..< e') v' q') (start r ..< e') (ext r v q).
Proof.
  intros (Hr & Hm & Hd1 & Hd2 & Hwf) Hs Hin. cbn.
  destruct (shrunk_spec bs Hbs v (end_ r - start r) (e' - start r)) as (v' & Hv & Hwf' & Hat); [done|by apply Z.divide_sub_r|lia|].
  exists v'. split; [done|]. split.
  - apply is_ext_ext.
  - unfold item_ok, extent_ok. cbn. split_and!; try done; lia.
  - done.
  - intros p [Hp1 Hp2]. cbn in *. rewrite Hat by lia. done.
Qed.

Lemma merge_extents_step i1 r1 v1 q1 i2 r2 v2 q2 : let x1 := ext r1 v1 q1 in let x2 := ext r2 v2 q2 in
  extent_ok r1 v1 → extent_ok r2 v2 → i1 ≠ i2 → start r1 < start r2 ∨ start r1 = start r2 ∧ i1 < i2 →
  ∃ R, merge_extents o a (mkView x1 i1) (mkView x2 i2) (mkExtentKey r1) (mkExtentKey r2) v1 v2 = Ok R ∧ ext_step i1 x1 i2 x2 R.
Proof.
  intros x1 x2 H1 H2 Hi Ho. unfold merge_extents. cbn [mv_item mv_layer_index sequence x1 x2 ek_range].
  destruct (Z.eqb_spec i2 i1); [lia|]. cbn [negb rassert]. res_simpl.
  pose proof H1 as (Hr1 & Hm1 & Hs1 & He1 & _). pose proof H2 as (Hr2 & Hm2 & Hs2 & He2 & _).
  destruct (_ && _) eqn:Ed.
  { apply andb_true_iff in Ed as [[->%bool_decide_eq_true ->%bool_decide_eq_true]%andb_true_iff Hadj%Z.eqb_eq].
    unfold merge_deleted_extents. cbn [ek_range].
    destruct (Z.ltb_spec (end_ r1) (start r2)); [eexists; split; [done|]; apply es_apart; cbn; lia|].
    destruct (Z.leb_spec (end_ r2) (end_ r1)); [eexists; split; [done|]; apply es_absorbed; cbn; [lia|lia|done|done]|].
    eexists; split; [done|]. apply es_join; try done; [lia| |]; [apply is_ext_ext|].
    unfold item_ok, extent_ok. cbn. split_and!; try done; lia. }
  clear Ed. destruct (Z.leb_spec (end_ r1) (start r2)); [eexists; split; [done|]; apply es_apart; cbn; lia|].
  destruct (Z.ltb_spec i2 i1).
  - unfold rassert. destruct (Z.ltb_spec (start r1) (start r2)); [|lia]. res_simpl. rewrite !u64_sub_ok by lia. res_simpl.
    destruct (piece_shrunk r1 v1 q1 (start r2) (Z.min q1 q2)) as (v & -> & Hv); [done|done|lia|]. res_simpl.
    destruct (piece_offset r1 v1 q1 (start r2) (Z.min q1 q2)) as (w & -> & Hw); [done|done|lia|]. res_simpl.
    eexists; split; [done|]. by apply es_split.
  - destruct (Z.leb_spec (end_ r2) (end_ r1)); [eexists; split; [done|]; apply es_covered; cbn; lia|].
    rewrite !u64_sub_ok by lia. res_simpl.
    destruct (piece_offset r2 v2 q2 (end_ r1) (Z.min q1 q2)) as (w & -> & Hw); [done|done|lia|]. res_simpl.
    eexists; split; [done|]. apply es_trim; [done|done|lia|done].
Qed.
End extents.

(** ** One step of the merge *)

(** The bytes and nodes that a record of a project's usage counts. *)
Definition usage (x : ObjectItem) : option (Z * Z) :=
  match data (key x), value x with
  | KProject _ Usage, VBytesAndNodes bytes nodes => Some (bytes, nodes)
  | _, _ => None
  end.

Section step.
Context (normal_form : list Z → list Z) (bs : Z) (Hbs : 0 < bs).
#[local] Abbreviation cmp_lower := (object_cmp_lower_bound normal_form).
#[local] Abbreviation item_ok := (item_ok bs).

Inductive mstep (i1 : Z) (x1 : ObjectItem) (i2 : Z) (x2 : ObjectItem) : ObjectMergeResult → Prop :=
| ms_ext o a R : is_ext o a x1 = true → is_ext o a x2 = true → ext_step bs o a i1 x1 i2 x2 R → mstep i1 x1 i2 x2 R
| ms_usage_none b1 n1 b2 n2 :
    usage x1 = Some (b1, n1) → usage x2 = Some (b2, n2) → cmp_lower (key x1) (key x2) = Eq →
    b1 + b2 = 0 → n1 + n2 = 0 → mstep i1 x1 i2 x2 (MergeOther None Discard Discard)
| ms_usage b1 n1 b2 n2 :
    usage x1 = Some (b1, n1) → usage x2 = Some (b2, n2) → cmp_lower (key x1) (key x2) = Eq →
    mstep i1 x1 i2 x2 (MergeOther None Discard (Replace (mkItem (key x2) (VBytesAndNodes (b1 + b2) (n1 + n2)) (sequence x2))))
| ms_tombstone :
    ObjectItem.is_tombstone x1 = true → object_id (key x1) = object_id (key x2) → i1 < i2 →
    mstep i1 x1 i2 x2 (MergeOther None Keep Discard)
| ms_same :
    cmp_lower (key x1) (key x2) = Eq → (∀ o a, is_ext o a x1 = false) → usage x1 = None → i1 < i2 →
    mstep i1 x1 i2 x2 (MergeOther None Keep Discard)
| ms_emit :
    cmp_lower (key x1) (key x2) = Lt → (∀ o a, is_ext o a x1 = true → is_ext o a x2 = false) →
    (ObjectItem.is_tombstone x1 = true → object_id (key x1) = object_id (key x2) → i2 < i1) →
    mstep i1 x1 i2 x2 EmitLeft.

Lemma cmp_lower_id a b : cmp_lower a b = Eq → object_id a = object_id b.
Proof. intros Hc%cmp_lower_Eq. unfold code in Hc. congruence. Qed.

Lemma cmp_lower_ext x y o a : cmp_lower (key x) (key y) = Eq → is_ext o a x = true → is_ext o a y = true.
Proof.
  intros Hc Hx. apply (is_ext_convex normal_form o a x y x); [done|done|congruence|].
  rewrite (cmp_opp (TotalCmp := object_lower_total normal_form)), Hc. done.
Qed.

Lemma key_eq_lower a b : is_extent (data a) = false → key_eq normal_form a b = true ↔ cmp_lower a b = Eq.
Proof.
  intros Ha. destruct (not_extents normal_form a b) as (-> & _ & _); [by rewrite Ha|].
  unfold key_eq, data_eq. destruct (Z.compare_spec (object_id a) (object_id b)) as [He| |]; cbn.
  - rewrite (proj2 (Z.eqb_eq _ _) He). cbn. by destruct (data_cmp _ _ _).
  - destruct (Z.eqb_spec (object_id a) (object_id b)); [lia|done].
  - destruct (Z.eqb_spec (object_id a) (object_id b)); [lia|done].
Qed.

Lemma not_is_extent x : is_extent (data (key x)) = false ↔ ∀ o a, is_ext o a x = false.
Proof.
  unfold is_ext. destruct (key x) as [o' [| |a' [|e]| | | | | | |]]; cbn; try done. split; [done|].
  intros H. specialize (H o' a'). by rewrite !Z.eqb_refl in H.
Qed.

Lemma key_eq_extents x1 x2 : is_extent (data (key x1)) = true → key_eq normal_form (key x1) (key x2) = true →
  ∃ o a, is_ext o a x1 = true ∧ is_ext o a x2 = true.
Proof.
  unfold key_eq, data_eq. intros (o & a & e & He)%extent_data [Ho%Z.eqb_eq Hd]%andb_true_iff. exists o, a. rewrite !is_ext_inv.
  rewrite He in *. split; [by exists e|]. destruct (key x2) as [o' [| |a' [|e']| | | | | | |]]; cbn in Ho, Hd; try done; subst.
  - by destruct (a ?= a').
  - destruct (Z.compare_spec a a') as [->| |]; cbn in Hd; try done. by exists e'.
Qed.

Lemma merge_others_step i1 x1 i2 x2 :
  cmp_lower (key x1) (key x2) = Lt ∨ cmp_lower (key x1) (key x2) = Eq ∧ i1 < i2 → i1 ≠ i2 →
  object_id (key x1) = object_id (key x2) → (∀ o a, is_ext o a x1 = true → is_ext o a x2 = false) →
  (usage x1 = None ∨ cmp_lower (key x1) (key x2) ≠ Eq) →
  ∃ R, merge_others normal_form (mkView x1 i1) (mkView x2 i2) = Ok R ∧ mstep i1 x1 i2 x2 R.
Proof.
  intros Hc Hi Ho He Hu. unfold merge_others. cbn [mv_item mv_layer_index].
  destruct (ObjectItem.is_tombstone x1) eqn:Et.
  { destruct x1 as [[o [| | | | | | | | |]] [| | | | | | | | | |] q]; try done. cbn [data key value].
    destruct (Z.ltb_spec i2 i1); (eexists; split; [done|]); [|apply ms_tombstone; [done..|lia]].
    destruct Hc as [Hc|[Hc ?]]; [|lia]. apply ms_emit; [exact Hc|exact He|done]. }
  assert (∀ R, (match data (key x1), value x1 with KObject, VNone => R | _, _ =>
      if key_eq normal_form (key x1) (key x2) then rassert (i1 <? i2) ≫= λ _, Ok (MergeOther None Keep Discard)
      else Ok EmitLeft end) = if key_eq normal_form (key x1) (key x2) then rassert (i1 <? i2) ≫= λ _, Ok (MergeOther None Keep Discard)
      else Ok (EmitLeft : ObjectMergeResult)) as ->.
  { intros R. by destruct x1 as [[o [| | | | | | | | |]] [| | | | | | | | | |] q]. }
  destruct (is_extent (data (key x1))) eqn:Ex.
  - destruct (key_eq _ _ _) eqn:Ek.
    { destruct (key_eq_extents _ _ Ex Ek) as (o & a & H1 & H2). rewrite He in H2; done. }
    eexists; split; [done|]. destruct Hc as [Hc|[Hc _]]; [apply ms_emit; [done|done|congruence]|].
    apply extent_data in Ex as (o & a & e & Hk). assert (is_ext o a x1 = true) as H1 by (apply is_ext_inv; by exists e).
    pose proof (cmp_lower_ext _ _ _ _ Hc H1) as H2. rewrite He in H2; done.
  - pose proof (key_eq_lower (key x1) (key x2) Ex) as Hke. destruct (key_eq _ _ _).
    + destruct Hc as [Hc|[Hc Hlt]]; [destruct Hke as [Hke _]; rewrite Hc in Hke; by specialize (Hke eq_refl)|].
      unfold rassert. destruct (Z.ltb_spec i1 i2); [|lia]. res_simpl. eexists; split; [done|].
      apply ms_same; [done|by apply not_is_extent|tauto|done].
    + destruct Hc as [Hc|[Hc Hlt]]; [|by apply Hke in Hc]. eexists; split; [done|]. apply ms_emit; [done|done|congruence].
Qed.

(** The record that an item stands for does not overflow with another. *)
Definition usage_fits (x1 x2 : ObjectItem) : Prop :=
  match usage x1, usage x2 with
  | Some (b1, n1), Some (b2, n2) => Z.abs b1 + Z.abs b2 ≤ i64_max ∧ Z.abs n1 + Z.abs n2 ≤ i64_max
  | _, _ => True
  end.

Lemma i64_add_ok x y : Z.abs x + Z.abs y ≤ i64_max → i64_add x y = Ok (x + y).
Proof.
  intros H. unfold i64_add. destruct (Z.leb_spec (- i64_max - 1) (x + y)); [|lia]. by destruct (Z.leb_spec (x + y) i64_max); [|lia].
Qed.

Lemma merge_step i1 x1 i2 x2 :
  item_ok x1 → item_ok x2 → usage_fits x1 x2 → i1 ≠ i2 →
  cmp_lower (key x1) (key x2) = Lt ∨ cmp_lower (key x1) (key x2) = Eq ∧ i1 < i2 →
  ∃ R, merge normal_form (mkView x1 i1) (mkView x2 i2) = Ok R ∧ mstep i1 x1 i2 x2 R.
Proof.
  intros H1 H2 Hf Hi Hc. unfold merge. cbn [mv_item mv_layer_index].
  destruct (Z.eqb_spec (object_id (key x1)) (object_id (key x2))) as [Ho|Ho]; cbn [negb].
  2: { eexists; split; [done|]. destruct Hc as [Hc|[Hc%cmp_lower_id _]]; [|done]. apply ms_emit; [done| |done].
       intros o a (e & He)%is_ext_inv. apply not_true_iff_false. intros (e' & He')%is_ext_inv. rewrite He, He' in Ho. done. }
  pose proof (merge_others_step i1 x1 i2 x2 Hc Hi Ho) as Hoth.
  destruct x1 as [[o d1] v1 q1], x2 as [[o' d2] v2 q2]. cbn [key value sequence data object_id] in *. subst o'.
  destruct d1 as [| |a1 [|[r1]]| | |p1 [|]| | | |]; try (apply Hoth; [by intros|by left]).
  - destruct d2 as [| |a2 [|[r2]]| | | | | | |]; try (apply Hoth; [by intros|by left]).
    destruct v1 as [| | | | |v1| | | | |]; try done. destruct v2 as [| | | | |v2| | | | |]; try done.
    destruct (Z.eqb_spec a1 a2) as [->|Ha].
    + destruct (merge_extents_step bs Hbs o a2 i1 r1 v1 q1 i2 r2 v2 q2) as (R & HR & Hs); [done|done|done| |].
      { destruct (extents normal_form o a2 (mkExtentKey r1) o a2 (mkExtentKey r2)) as (He & _). unfold ObjectKey.from_extent in He.
        rewrite He, !Z.compare_refl in Hc. cbn in Hc. rewrite Z.compare_lt_iff, Z.compare_eq_iff in Hc. done. }
      exists R. split; [done|]. apply (ms_ext _ _ _ _ o a2); [apply is_ext_ext..|done].
    + apply Hoth; [|by left]. unfold is_ext. cbn. intros o' a [? ->%Z.eqb_eq]%andb_true_iff.
      apply andb_false_iff. right. by apply Z.eqb_neq.
  - destruct d2 as [| | | | |p2 [|]| | | |];
      try (apply Hoth; [by intros|right; intros ?%cmp_lower_Eq; done]).
    destruct v1 as [| | | | | | | |b1 n1| |]; try done. destruct v2 as [| | | | | | | |b2 n2| |]; try done.
    destruct (Z.eqb_spec p1 p2) as [->|Hp].
    + destruct Hf as [Hb Hn]. rewrite !i64_add_ok by done. res_simpl.
      assert (cmp_lower (mkObjectKey o (KProject p2 Usage)) (mkObjectKey o (KProject p2 Usage)) = Eq) as HE
        by (rewrite cmp_lower_code; apply seq_cmp_refl).
      destruct (Z.eqb_spec (b1 + b2) 0), (Z.eqb_spec (n1 + n2) 0); cbn [andb]; (eexists; split; [done|]);
        [by eapply ms_usage_none|by eapply (ms_usage _ (mkItem _ _ _) _ (mkItem _ _ _))..].
    + apply Hoth; [by intros|]. right. intros Hk%cmp_lower_Eq. unfold code in Hk. cbn in Hk. congruence.
Qed.
End step.

(** ** Layers of records *)

(** Sums over the items of a pile. *)
Definition zsum {A} (f : A → Z) (l : list A) : Z := foldr (λ x acc, f x + acc) 0 l.
Definition pile_sum {K V} (f : Item K V → Z) (A : list (entry K V)) : Z := zsum (λ e, zsum f e.2) A.

Section sums.
Context {K V : Type} (f : Item K V → Z).
Implicit Types (A : list (entry K V)).

Lemma zsum_cons x (l : list (Item K V)) : zsum f (x :: l) = f x + zsum f l.
Proof. done. Qed.
Lemma zsum_app (l k : list (Item K V)) : zsum f (l ++ k) = zsum f l + zsum f k.
Proof. induction l as [|x l IH]; cbn [app]; [done|]. rewrite !zsum_cons. lia. Qed.
Lemma pile_sum_cons i s A : pile_sum f ((i, s) :: A) = zsum f s + pile_sum f A.
Proof. done. Qed.
Lemma pile_sum_push i s A : pile_sum f (push i s A) = zsum f s + pile_sum f A.
Proof. by destruct s. Qed.
Lemma pile_sum_perm A A' : A ≡ₚ A' → pile_sum f A = pile_sum f A'.
Proof. unfold pile_sum, zsum. induction 1; cbn in *; lia. Qed.
Lemma pile_sum_layers i ls : pile_sum f (layer_entries i ls) = zsum f (concat ls).
Proof. revert i. induction ls as [|l ls IH]; intros i; cbn [layer_entries concat]; [done|]. by rewrite pile_sum_push, IH, zsum_app. Qed.
Lemma zsum_nonneg (l : list (Item K V)) : (∀ x, 0 ≤ f x) → 0 ≤ zsum f l.
Proof. intros H. induction l as [|x l IH]; [done|]. rewrite zsum_cons. specialize (H x). lia. Qed.
Lemma pile_sum_nonneg A : (∀ x, 0 ≤ f x) → 0 ≤ pile_sum f A.
Proof. intros H. induction A as [|[i s] A IH]; [done|]. rewrite pile_sum_cons. pose proof (zsum_nonneg s H). lia. Qed.

(** What an operation makes of the sum. *)
Definition op_val (op : ItemOp K V) (x : Item K V) : Z :=
  match op with Keep => f x | Discard => 0 | Replace r => f r end.
Lemma pile_sum_op op i x s A : pile_sum f (apply_op op i x s A) = op_val op x + zsum f s + pile_sum f A.
Proof. destruct op; cbn [apply_op op_val]; rewrite ?pile_sum_push, ?pile_sum_cons, ?zsum_cons; lia. Qed.
End sums.

Section layers.
Context (normal_form : list Z → list Z) (bs : Z).
#[local] Abbreviation cmp_lower := (object_cmp_lower_bound normal_form).
#[local] Abbreviation item_ok := (item_ok bs).
#[local] Abbreviation pos := (λ e : ExtentKey, start (ek_range e)).

(** Keys ascend and do not overlap. *)
Definition obefore (x y : ObjectItem) : Prop :=
  cmp_lower (key x) (key y) = Lt ∧ object_overlaps normal_form (key x) (key y) = false.

Definition layer_ok (s : list ObjectItem) : Prop := StronglySorted obefore s ∧ Forall item_ok s.

Definition abs_bytes (x : ObjectItem) : Z := match usage x with Some (b, _) => Z.abs b | None => 0 end.
Definition abs_nodes (x : ObjectItem) : Z := match usage x with Some (_, n) => Z.abs n | None => 0 end.

(** Piles of layers in which no count of usage can overflow. *)
Definition streams (A : list (entry ObjectKey ObjectValue)) : Prop :=
  NoDup A.*1 ∧ Forall (λ e, e.2 ≠ [] ∧ layer_ok e.2) A.
Record opile (A : list (entry ObjectKey ObjectValue)) : Prop := {
  op_streams : streams A;
  op_bytes : pile_sum abs_bytes A ≤ i64_max;
  op_nodes : pile_sum abs_nodes A ≤ i64_max;
}.

Lemma layer_ok_cons x s : layer_ok (x :: s) ↔ item_ok x ∧ (∀ y, y ∈ s → obefore x y) ∧ layer_ok s.
Proof. unfold layer_ok. rewrite StronglySorted_cons, !Forall_cons, Forall_forall. naive_solver. Qed.

Lemma ext_ne o a x : is_ext o a x = true → item_ok x → start (orng x) < end_ (orng x).
Proof.
  intros (e & He)%is_ext_inv. unfold item_ok, orng. rewrite He. cbn. destruct (value x); try done. unfold extent_ok. lia.
Qed.

Lemma ext_before o a x y : is_ext o a x = true → is_ext o a y = true → item_ok x → item_ok y →
  obefore x y ↔ end_ (orng x) ≤ start (orng y).
Proof.
  intros Hx Hy Hx' Hy'. pose proof (ext_ne _ _ _ Hx Hx') as Hn1. pose proof (ext_ne _ _ _ Hy Hy') as Hn2.
  apply is_ext_inv in Hx as (e & He). apply is_ext_inv in Hy as (e' & He'). unfold obefore, orng in *. rewrite He, He' in *. cbn [ObjectKey.from_extent data] in *.
  destruct (extents normal_form o a e o a e') as (Hl & _ & Ho). unfold ObjectKey.from_extent in *. rewrite Hl, Ho, !Z.compare_refl, !Z.eqb_refl. cbn [cmp_then andb].
  rewrite Z.compare_lt_iff. lia.
Qed.

Lemma seq_cmp_prefix p u w y : (∀ v, y ≠ p ++ v) → seq_cmp (p ++ u) y = seq_cmp (p ++ w) y.
Proof.
  revert y. induction p as [|b p IH]; intros y Hy; [by destruct (Hy y)|]. destruct y as [|c y]; [done|]. cbn.
  destruct (Z.compare_spec b c) as [->| |]; cbn; [|done..]. apply IH. intros v ->. by destruct (Hy v).
Qed.

Lemma overlaps_Lt x y : cmp_lower (key x) (key y) = Lt → (∀ o a, is_ext o a x = true → is_ext o a y = false) →
  object_overlaps normal_form (key x) (key y) = false.
Proof.
  intros Hc Hn. destruct (is_extent (data (key x)) && is_extent (data (key y))) eqn:E.
  - apply andb_true_iff in E as [(o & a & e & He)%extent_data (o' & a' & e' & He')%extent_data]. rewrite He, He'.
    destruct (extents normal_form o a e o' a' e') as (_ & _ & ->).
    destruct (Z.eqb_spec o o') as [->|]; [|done]. destruct (Z.eqb_spec a a') as [->|]; [|done].
    specialize (Hn o' a'). rewrite !(proj2 (is_ext_inv _ _ _)) in Hn by eauto. by specialize (Hn eq_refl).
  - destruct (not_extents normal_form (key x) (key y) E) as (Hl & _ & ->). rewrite Hl in Hc. unfold data_eq.
    destruct (Z.compare_spec (object_id (key x)) (object_id (key y))); cbn in Hc;
      [by rewrite Hc, andb_false_r|destruct (Z.eqb_spec (object_id (key x)) (object_id (key y))); [lia|done]|done].
Qed.

(** An extent that ends no later is followed by the same items. *)
Lemma ext_shorter o a x m y : is_ext o a x = true → is_ext o a m = true → item_ok x → item_ok m → item_ok y →
  end_ (orng m) ≤ end_ (orng x) → obefore x y → obefore m y.
Proof.
  intros Hx Hm Hx' Hm' Hy' Hend. destruct (is_ext o a y) eqn:Hy.
  { rewrite !(ext_before o a) by done. lia. }
  intros [Hc _]. assert (∀ o' a', is_ext o' a' m = true → is_ext o' a' y = false) as Hno.
  { intros o' a'. unfold is_ext in *. destruct (key m) as [mo [| |ma [|me]| | | | | | |]]; try done. 
    apply andb_true_iff in Hm as [->%Z.eqb_eq ->%Z.eqb_eq]. by intros [->%Z.eqb_eq ->%Z.eqb_eq]%andb_true_iff. }
  assert (cmp_lower (key m) (key y) = Lt) as Hc'; [|split; [done|by apply overlaps_Lt]].
  apply is_ext_inv in Hx as (e & He), Hm as (e' & He'). rewrite He, cmp_lower_code, code_extent in Hc. rewrite He', cmp_lower_code, code_extent.
  rewrite <- Hc. apply seq_cmp_prefix. intros v Hv. apply not_true_iff_false in Hy. apply Hy, is_ext_inv.
  destruct (key y) as [o' [| |a' [|e0]| | | | | | |]]; cbn in Hv; try discriminate Hv. injection Hv as -> -> _. by exists e0.
Qed.
End layers.

(** ** The merge keeps piles well formed *)
Section piles.
Context (normal_form : list Z → list Z) (bs : Z) (Hbs : 0 < bs).
#[local] Abbreviation cmp_lower := (object_cmp_lower_bound normal_form).
#[local] Abbreviation item_ok := (item_ok bs).
#[local] Abbreviation layer_ok := (layer_ok normal_form bs).
#[local] Abbreviation streams := (streams normal_form bs).
#[local] Abbreviation opile := (opile normal_form bs).
#[local] Abbreviation obefore := (obefore normal_form).
#[local] Abbreviation mstep := (mstep normal_form bs).
Implicit Types (A : list (entry ObjectKey ObjectValue)) (x : ObjectItem) (s : list ObjectItem).

Lemma streams_cons i s A : streams ((i, s) :: A) ↔ (i ∉ A.*1) ∧ s ≠ [] ∧ layer_ok s ∧ streams A.
Proof. unfold ObjMergeProps.streams. rewrite fmap_cons, NoDup_cons, Forall_cons. cbn. naive_solver. Qed.

Lemma streams_push i s A : i ∉ A.*1 → layer_ok s → streams A → streams (push i s A).
Proof. intros. destruct s; cbn [push]; [done|]. by rewrite streams_cons. Qed.

Lemma streams_perm A A' : A ≡ₚ A' → streams A → streams A'.
Proof. intros Hp. unfold ObjMergeProps.streams. by rewrite Hp. Qed.

Lemma opile_perm A A' : A ≡ₚ A' → opile A → opile A'.
Proof.
  intros Hp [Hs Hb Hn]. split; [by eapply streams_perm| |]; by rewrite <- (pile_sum_perm _ _ _ Hp).
Qed.

(** What an operation may put in the place of an item. *)
Definition op_ok (op : ItemOp ObjectKey ObjectValue) (x : ObjectItem) : Prop :=
  match op with
  | Replace r => item_ok r ∧ ∀ y, item_ok y → obefore x y → obefore r y
  | _ => True
  end.

Lemma elem_of_apply_op_fst op i (x : ObjectItem) s A j : j ∈ (apply_op op i x s A).*1 → j = i ∨ j ∈ A.*1.
Proof. destruct op; cbn [apply_op]; [|intros Hj; by apply elem_of_push_fst in Hj|]; rewrite fmap_cons, elem_of_cons; tauto. Qed.

Lemma streams_op op i x s A : op_ok op x → i ∉ A.*1 → layer_ok (x :: s) → streams A → streams (apply_op op i x s A).
Proof.
  intros Ho Hi Hx HA. destruct op as [| |r]; cbn [apply_op].
  - by rewrite streams_cons.
  - apply layer_ok_cons in Hx as (_ & _ & Hs). by apply streams_push.
  - rewrite streams_cons. split_and!; [done..| |done]. apply layer_ok_cons in Hx as (Hx & Hb & Hs). destruct Ho as [Hr Hrb].
    apply layer_ok_cons. split_and!; [done| |done]. intros y Hy. apply Hrb; [|by apply Hb].
    destruct Hs as [_ Hs]. rewrite Forall_forall in Hs. by apply Hs.
Qed.

(** The size of an item in [pile_size]. *)
Definition isize (x : ObjectItem) : nat := S (Z.to_nat (end_ (orng x) - start (orng x))).
Definition op_size (op : ItemOp ObjectKey ObjectValue) (x : ObjectItem) : nat :=
  match op with Keep => isize x | Discard => 0 | Replace r => isize r end.

Lemma pile_size_op op i x s A :
  pile_size orng (apply_op op i x s A) = (op_size op x + seg_size orng s + pile_size orng A)%nat.
Proof. destruct op; cbn [apply_op op_size]; rewrite ?pile_size_push, ?pile_size_cons, ?seg_size_cons; unfold isize; lia. Qed.

(** What the operations of a step do to the two items. *)
Record ops_ok (x1 x2 : ObjectItem) (l r : ItemOp ObjectKey ObjectValue) : Prop := {
  oo_left : op_ok l x1;
  oo_right : op_ok r x2;
  oo_bytes : op_val abs_bytes l x1 + op_val abs_bytes r x2 ≤ abs_bytes x1 + abs_bytes x2;
  oo_nodes : op_val abs_nodes l x1 + op_val abs_nodes r x2 ≤ abs_nodes x1 + abs_nodes x2;
  oo_size : (op_size l x1 + op_size r x2 < isize x1 + isize x2)%nat;
}.

Lemma ext_usage o a x : is_ext o a x = true → usage x = None.
Proof. intros (e & He)%is_ext_inv. unfold usage. by rewrite He. Qed.

Lemma ext_abs o a x : is_ext o a x = true → abs_bytes x = 0 ∧ abs_nodes x = 0.
Proof. intros Hu%ext_usage. unfold abs_bytes, abs_nodes. by rewrite Hu. Qed.

Lemma abs_nonneg x : 0 ≤ abs_bytes x ∧ 0 ≤ abs_nodes x.
Proof. unfold abs_bytes, abs_nodes. destruct (usage x) as [[??]|]; lia. Qed.

Lemma ext_replace o a x m : is_ext o a x = true → is_ext o a m = true → item_ok x → item_ok m →
  end_ (orng m) = end_ (orng x) → op_ok (Replace m) x.
Proof. intros. split; [done|]. intros y Hy. apply (ext_shorter normal_form bs o a x m y); [done..|lia]. Qed.

Lemma ext_step_ops o a i1 x1 i2 x2 emit l r :
  is_ext o a x1 = true → is_ext o a x2 = true → item_ok x1 → item_ok x2 → start (orng x1) ≤ start (orng x2) →
  ext_step bs o a i1 x1 i2 x2 (MergeOther emit l r) → ops_ok x1 x2 l r.
Proof.
  intros He1 He2 H1 H2 Hle Hs. pose proof (ext_abs _ _ _ He1) as [Hb1 Hn1]. pose proof (ext_abs _ _ _ He2) as [Hb2 Hn2].
  pose proof (ext_ne _ _ _ _ He1 H1). pose proof (ext_ne _ _ _ _ He2 H2).
  inversion Hs as [| | |e m Ha Hb Hp Hq|m Ha Hb Hc Hp|m Ha Hb Hc Hd1 Hd2 Hdm Hem Hm Hr]; subst; split; cbn [op_ok op_val op_size]; unfold isize;
    try (rewrite Hb1, Hb2 || rewrite Hn1, Hn2; try lia); try done; try lia.
  all: try (destruct Hq as [Hqe Hqk Hqr _]); try (destruct Hp as [Hpe Hpk Hpr _]).
  all: try (eapply (ext_replace o a); [done..|]; by rewrite ?Hqr, ?Hpr, ?Hr).
  all: try (rewrite ?Hqr, ?Hpr, ?Hr; cbn [start end_]; lia).
  all: try (pose proof (ext_abs _ _ _ Hqe); lia); try (pose proof (ext_abs _ _ _ Hpe); lia); pose proof (ext_abs _ _ _ Hem); lia.
Qed.

Lemma usage_inv x b n : usage x = Some (b, n) → (∃ p, data (key x) = KProject p Usage) ∧ value x = VBytesAndNodes b n.
Proof.
  unfold usage. destruct (data (key x)) as [| | | | |p [|]| | | |]; try done. destruct (value x); try done.
  intros [= -> ->]. eauto.
Qed.

Lemma mstep_ops i1 x1 i2 x2 emit l r :
  item_ok x1 → item_ok x2 → cmp_lower (key x1) (key x2) ≠ Gt →
  mstep i1 x1 i2 x2 (MergeOther emit l r) → ops_ok x1 x2 l r.
Proof.
  intros H1 H2 Hc Hs. pose proof (abs_nonneg x1). pose proof (abs_nonneg x2).
  inversion Hs as [o a R He1 He2 HR|b1 n1 b2 n2 Hu1 Hu2 Hk Hb Hn|b1 n1 b2 n2 Hu1 Hu2 Hk| | |]; subst;
    [|split; cbn [op_ok op_val op_size]; try done; unfold isize; lia| |split; cbn [op_ok op_val op_size]; try done; unfold isize; lia..].
  - eapply ext_step_ops; try done. apply is_ext_inv in He1 as (e1 & He1), He2 as (e2 & He2). rewrite He1, He2 in Hc.
    unfold orng. rewrite He1, He2. cbn. destruct (extents normal_form o a e1 o a e2) as (Hl & _). rewrite Hl, !Z.compare_refl in Hc. by apply Z.compare_le_iff.
  - destruct (usage_inv _ _ _ Hu2) as [[p Hd] Hv]. split; cbn [op_ok op_val op_size]; [done| | | |].
    + split; [|done]. unfold ObjMergeProps.item_ok. cbn. by rewrite Hd.
    + unfold abs_bytes at 1. unfold usage at 1. cbn [key value]. rewrite Hd. unfold abs_bytes. rewrite Hu1, Hu2. lia.
    + unfold abs_nodes at 1. unfold usage at 1. cbn [key value]. rewrite Hd. unfold abs_nodes. rewrite Hu1, Hu2. lia.
    + unfold isize, orng. cbn [key]. lia.
Qed.

#[local] Instance object_lower : OrdLowerBound ObjectKey := object_cmp_lower_bound normal_form.

Lemma entry_order i1 x1 s1 i2 x2 s2 : i1 ≠ i2 → entry_le (i1, x1 :: s1) (i2, x2 :: s2) →
  cmp_lower (key x1) (key x2) = Lt ∨ cmp_lower (key x1) (key x2) = Eq ∧ i1 < i2.
Proof.
  unfold entry_le, cmp_lower_bound, object_lower. cbn [fst snd]. destruct (cmp_lower _ _); cbn; [|by left|done].
  rewrite Z.compare_le_iff. right. split; [done|lia].
Qed.

(** The two smallest entries of a pile. *)
Lemma opile_two i1 x1 s1 i2 x2 s2 A : opile ((i1, x1 :: s1) :: (i2, x2 :: s2) :: A) →
  i1 ≠ i2 ∧ (i1 ∉ A.*1) ∧ (i2 ∉ A.*1) ∧ layer_ok (x1 :: s1) ∧ layer_ok (x2 :: s2) ∧ streams A ∧ item_ok x1 ∧ item_ok x2 ∧ usage_fits x1 x2.
Proof.
  intros [Hst Hb Hn]. rewrite !streams_cons in Hst. destruct Hst as (Hi1 & _ & Hl1 & Hi2 & _ & Hl2 & HA).
  rewrite fmap_cons, not_elem_of_cons in Hi1. destruct Hi1 as [Hi Hi1]. cbn in Hi.
  pose proof (proj1 (proj1 (layer_ok_cons _ _ _ _) Hl1)). pose proof (proj1 (proj1 (layer_ok_cons _ _ _ _) Hl2)).
  split_and!; try done. rewrite !pile_sum_cons, !zsum_cons in Hb, Hn. unfold usage_fits.
  pose proof (zsum_nonneg abs_bytes s1 (λ x, proj1 (abs_nonneg x))). pose proof (zsum_nonneg abs_bytes s2 (λ x, proj1 (abs_nonneg x))).
  pose proof (zsum_nonneg abs_nodes s1 (λ x, proj2 (abs_nonneg x))). pose proof (zsum_nonneg abs_nodes s2 (λ x, proj2 (abs_nonneg x))).
  pose proof (pile_sum_nonneg abs_bytes A (λ x, proj1 (abs_nonneg x))). pose proof (pile_sum_nonneg abs_nodes A (λ x, proj2 (abs_nonneg x))).
  unfold abs_bytes at 1 3 in Hb. unfold abs_nodes at 1 3 in Hn. destruct (usage x1) as [[??]|], (usage x2) as [[??]|]; try done. lia.
Qed.

Lemma opile_merge i1 x1 s1 i2 x2 s2 A : opile ((i1, x1 :: s1) :: (i2, x2 :: s2) :: A) → entry_le (i1, x1 :: s1) (i2, x2 :: s2) →
  ∃ R, merge normal_form (mkView x1 i1) (mkView x2 i2) = Ok R ∧ mstep i1 x1 i2 x2 R.
Proof.
  intros Hp Hle. destruct (opile_two _ _ _ _ _ _ _ Hp) as (Hi & _ & _ & _ & _ & _ & H1 & H2 & Hu).
  apply merge_step; try done. by eapply entry_order.
Qed.

Lemma opile_emit i1 x1 s1 i2 x2 s2 A : opile ((i1, x1 :: s1) :: (i2, x2 :: s2) :: A) →
  opile (push i1 s1 ((i2, x2 :: s2) :: A)).
Proof.
  intros Hp. destruct (opile_two _ _ _ _ _ _ _ Hp) as (Hi & Hi1 & Hi2 & Hl1 & Hl2 & HA & H1 & H2 & Hu). destruct Hp as [_ Hb Hn].
  apply layer_ok_cons in Hl1 as (_ & _ & Hl1). pose proof (abs_nonneg x1). split.
  - apply streams_push; [rewrite fmap_cons; set_solver|done|]. by rewrite streams_cons.
  - rewrite pile_sum_push, !pile_sum_cons, !zsum_cons in *. lia.
  - rewrite pile_sum_push, !pile_sum_cons, !zsum_cons in *. lia.
Qed.

Lemma opile_ops i1 x1 s1 i2 x2 s2 A l r : opile ((i1, x1 :: s1) :: (i2, x2 :: s2) :: A) → ops_ok x1 x2 l r →
  opile (apply_op r i2 x2 s2 (apply_op l i1 x1 s1 A)).
Proof.
  intros Hp [Hl Hr Hob Hon _]. destruct (opile_two _ _ _ _ _ _ _ Hp) as (Hi & Hi1 & Hi2 & Hl1 & Hl2 & HA & H1 & H2 & Hu).
  destruct Hp as [_ Hb Hn]. split.
  - apply streams_op; [done| |done|by apply streams_op]. by intros [->|?]%elem_of_apply_op_fst.
  - rewrite !pile_sum_op. rewrite !pile_sum_cons, !zsum_cons in Hb. lia.
  - rewrite !pile_sum_op. rewrite !pile_sum_cons, !zsum_cons in Hn. lia.
Qed.

Lemma opile_last i x s : opile [(i, x :: s)] → opile (push i s []).
Proof.
  intros [Hs Hb Hn]. pose proof (abs_nonneg x). split.
  - rewrite streams_cons in Hs. destruct Hs as (Hi & _ & Hl & HA). apply layer_ok_cons in Hl as (_ & _ & Hl). by apply streams_push.
  - rewrite pile_sum_push. rewrite pile_sum_cons, zsum_cons in Hb. lia.
  - rewrite pile_sum_push. rewrite pile_sum_cons, zsum_cons in Hn. lia.
Qed.

Lemma object_merge_invariant : MergeInvariant (merge normal_form) opile (pile_size orng).
Proof.
  split.
  - apply opile_perm.
  - apply pile_size_perm.
  - intros i x s Hp. split; [by eapply opile_last|]. rewrite pile_size_push, pile_size_cons, seg_size_cons. lia.
  - intros i1 x1 s1 i2 x2 s2 A Hp Hle1 Hle2. apply Forall_cons in Hle1 as [Hle1 _].
    destruct (opile_merge _ _ _ _ _ _ _ Hp Hle1) as (R & -> & Hs). destruct R as [|emit l r]; cbn zeta.
    + split; [by eapply opile_emit|]. rewrite pile_size_push, !pile_size_cons, (seg_size_cons _ x1). lia.
    + destruct (opile_two _ _ _ _ _ _ _ Hp) as (Hi & _ & _ & _ & _ & _ & H1 & H2 & Hu).
      assert (ops_ok x1 x2 l r) as Ho.
      { eapply mstep_ops; try done. apply entry_order in Hle1; [|done]. destruct Hle1 as [->|[-> _]]; done. }
      split; [by eapply opile_ops|]. destruct Ho as [_ _ _ _ Hsz].
      rewrite !pile_size_op, !pile_size_cons, !seg_size_cons. unfold isize in Hsz. lia.
Qed.
End piles.
