(* ===== verification/ObjMergeViews.v ===== *)
(** * What each kind of record becomes in a merge

    For a pile of well-formed layers of an object store: the bytes of an
    attribute are described by the extents of the newest layer that has them,
    a record with a key of its own is the newest one, usage of a project adds
    up, and a tombstone leaves nothing of its object. *)

From S2P Require Import Prelude Round Checksum Extent LsmTypes ObjectRecord Merge MergeProps ObjectKeyOrder.
From S2P Require Import Segments SegMerge ObjMerge ObjMergeProps.

Section views.
Context (normal_form : list Z → list Z) (bs : Z) (Hbs : 0 < bs).
#[local] Abbreviation cmp_lower := (object_cmp_lower_bound normal_form).
#[local] Abbreviation item_ok := (item_ok bs).
#[local] Abbreviation layer_ok := (layer_ok normal_form bs).
#[local] Abbreviation streams := (streams normal_form bs).
#[local] Abbreviation opile := (opile normal_form bs).
#[local] Abbreviation obefore := (obefore normal_form).
#[local] Abbreviation mstep := (mstep normal_form bs).
#[local] Abbreviation merge := (merge normal_form).
#[local] Instance object_order : OrdLowerBound ObjectKey := object_lower normal_form.
Implicit Types (A : list (entry ObjectKey ObjectValue)) (x : ObjectItem) (s : list ObjectItem).

(** ** The order of a pile *)
Definition in_pile x A : Prop := ∃ i s, (i, s) ∈ A ∧ x ∈ s.

Lemma in_pile_cons x i s A : in_pile x ((i, s) :: A) ↔ x ∈ s ∨ in_pile x A.
Proof.
  unfold in_pile. setoid_rewrite elem_of_cons. split.
  - intros (j & t & [[= -> ->]|Ht] & Hx); eauto.
  - intros [Hx|(j & t & Ht & Hx)]; eauto 6.
Qed.

Lemma in_pile_push x i s A : in_pile x (push i s A) ↔ x ∈ s ∨ in_pile x A.
Proof. destruct s; cbn [push]; [|apply in_pile_cons]. split; [by right|by intros [?%elem_of_nil|?]]. Qed.

(** The items that an operation may leave in the place of another. *)
Definition op_new (op : ItemOp ObjectKey ObjectValue) x y : Prop :=
  match op with Keep => y = x | Discard => False | Replace r => y = r end.

Lemma in_pile_op y op i x s A : in_pile y (apply_op op i x s A) ↔ op_new op x y ∨ y ∈ s ∨ in_pile y A.
Proof.
  destruct op; cbn [apply_op op_new]; rewrite ?in_pile_push, ?in_pile_cons, ?elem_of_cons; tauto.
Qed.

Lemma streams_item A x : streams A → in_pile x A → item_ok x.
Proof.
  intros [_ Hf] (i & s & Hs & Hx). rewrite Forall_forall in Hf. destruct (Hf _ Hs) as [_ [_ Hi]]. rewrite Forall_forall in Hi. by apply Hi.
Qed.

Lemma cmp_lower_refl k : cmp_lower k k = Eq.
Proof. rewrite cmp_lower_code. apply seq_cmp_refl. Qed.

Lemma layer_le x s y : layer_ok (x :: s) → y ∈ x :: s → cmp_lower (key x) (key y) ≠ Gt.
Proof.
  intros (_ & Hb & _)%layer_ok_cons [->|Hy]%elem_of_cons; [by rewrite cmp_lower_refl|]. by rewrite (proj1 (Hb _ Hy)).
Qed.

(** Nothing of the pile comes before its second smallest item. *)
Lemma second_le i2 x2 s2 A y : streams ((i2, x2 :: s2) :: A) → Forall (entry_le (i2, x2 :: s2)) A →
  in_pile y ((i2, x2 :: s2) :: A) → cmp_lower (key x2) (key y) ≠ Gt.
Proof.
  intros Hs Hle. rewrite streams_cons in Hs. destruct Hs as (Hi & _ & Hl & HA). rewrite in_pile_cons.
  intros [Hy|(j & t & Ht & Hy)]; [by eapply layer_le|].
  destruct HA as [_ HA]. rewrite Forall_forall in HA. destruct (HA _ Ht) as [Hne Hlt]. cbn in Hne, Hlt. destruct t as [|z t]; [done|].
  rewrite Forall_forall in Hle. assert (i2 ≠ j) as Hij by (intros ->; apply Hi, list_elem_of_fmap; by exists (j, z :: t)).
  apply (cmp_le_trans (TotalCmp := object_lower_total normal_form) _ (key z)); [|by eapply layer_le].
  destruct (entry_order normal_form _ _ _ _ _ _ Hij (Hle _ Ht)) as [->|[-> _]]; done.
Qed.

(** Items of a kind of which only the first entry is. *)
Lemma only_first P i1 x1 s1 i2 x2 s2 A : convex normal_form P →
  streams ((i1, x1 :: s1) :: (i2, x2 :: s2) :: A) → Forall (entry_le (i2, x2 :: s2)) A →
  cmp_lower (key x1) (key x2) ≠ Gt → P x1 = true → P x2 = false →
  sel P (x2 :: s2) = [] ∧ proj P A = [].
Proof.
  intros HP Hs Hle H12 H1 H2. rewrite streams_cons in Hs. destruct Hs as (_ & _ & _ & Hs).
  assert (∀ y, in_pile y ((i2, x2 :: s2) :: A) → P y = false) as Hno.
  { intros y Hy. apply not_true_iff_false. intros Hy'. apply not_true_iff_false in H2. apply H2.
    apply (HP x1 x2 y); [done..|]. by eapply second_le. }
  split.
  - apply sel_nil_iff. intros y Hy. apply Hno. rewrite in_pile_cons. by left.
  - apply proj_nil. intros i s y Hs' Hy. apply Hno. rewrite in_pile_cons. right. by exists i, s.
Qed.

(** No tombstone of the object. *)
Definition untombed (o : Z) A : Prop := ∀ x, in_pile x A → in_object o x = true → ObjectItem.is_tombstone x = false.

Lemma untombed_perm o A A' : A ≡ₚ A' → untombed o A → untombed o A'.
Proof. intros Hp. unfold untombed, in_pile. by setoid_rewrite Hp. Qed.

Lemma ext_not_tombstone o a x : is_ext o a x = true → ObjectItem.is_tombstone x = false.
Proof. intros (e & He)%is_ext_inv. destruct x as [k v q]. cbn in He. by subst. Qed.

(** What a step puts in the place of an item: an extent of the same attribute,
    or usage of the same project. *)
Lemma mstep_new i1 x1 i2 x2 emit l r y :
  mstep i1 x1 i2 x2 (MergeOther emit l r) → emit = Some y ∨ l = Replace y ∨ r = Replace y →
  (∃ o a, is_ext o a x1 = true ∧ is_ext o a x2 = true ∧ is_ext o a y = true) ∨
  key y = key x2 ∧ cmp_lower (key x1) (key x2) = Eq ∧ is_Some (usage x1) ∧ is_Some (usage x2) ∧ is_Some (usage y).
Proof.
  intros Hs Hy. inversion Hs as [o a R He1 He2 HR|b1 n1 b2 n2 Hu1 Hu2 Hk Hb Hn|b1 n1 b2 n2 Hu1 Hu2 Hk| | |]; subst;
    [|by destruct Hy as [?|[?|?]]| |by destruct Hy as [?|[?|?]]..].
  - left. exists o, a. split_and!; [done..|].
    inversion HR as [| | |e m Ha Hb Hp Hq|m Ha Hb Hc Hp|m]; subst; destruct Hy as [Hy|[Hy|Hy]]; try discriminate Hy; injection Hy as <-;
      [apply Hp|apply Hq|apply Hp|done].
  - right. destruct Hy as [Hy|[Hy|Hy]]; try discriminate Hy. injection Hy as <-.
    rewrite Hu1, Hu2. split_and!; try done. destruct (usage_inv _ _ _ Hu2) as [[p Hd] _]. unfold usage. cbn. by rewrite Hd.
Qed.

(** Steps leave the piles without tombstones of an object. *)
Lemma untombed_emit o i1 x1 s1 e A : untombed o ((i1, x1 :: s1) :: e :: A) → untombed o (push i1 s1 (e :: A)).
Proof.
  intros H y Hy. apply H. destruct e as [i2 s2]. rewrite in_pile_push, in_pile_cons in Hy. rewrite !in_pile_cons, elem_of_cons. tauto.
Qed.

Lemma usage_not_tombstone x : is_Some (usage x) → ObjectItem.is_tombstone x = false.
Proof. intros [[b n] [[p Hp] _]%usage_inv]. destruct x as [[o d] v q]. cbn in Hp. by subst. Qed.

Lemma untombed_ops o i1 x1 s1 i2 x2 s2 A emit l r : untombed o ((i1, x1 :: s1) :: (i2, x2 :: s2) :: A) →
  mstep i1 x1 i2 x2 (MergeOther emit l r) → untombed o (apply_op r i2 x2 s2 (apply_op l i1 x1 s1 A)).
Proof.
  intros H Hs y Hy Ho. rewrite !in_pile_op in Hy.
  assert (∀ z, emit = Some z ∨ l = Replace z ∨ r = Replace z → ObjectItem.is_tombstone z = false) as Hnew.
  { intros z Hz. destruct (mstep_new _ _ _ _ _ _ _ _ Hs Hz) as [(o' & a & _ & _ & Hz')|(_ & _ & _ & _ & Hz')];
      [by eapply ext_not_tombstone|by apply usage_not_tombstone]. }
  destruct Hy as [Hy|[Hy|[Hy|[Hy|Hy]]]].
  - destruct r; cbn in Hy; try done; subst; [|by apply Hnew; auto]. apply H; [|done]. rewrite !in_pile_cons, !elem_of_cons. tauto.
  - apply H; [|done]. rewrite !in_pile_cons, !elem_of_cons. tauto.
  - destruct l; cbn in Hy; try done; subst; [|by apply Hnew; auto]. apply H; [|done]. rewrite !in_pile_cons, !elem_of_cons. tauto.
  - apply H; [|done]. rewrite !in_pile_cons, !elem_of_cons. tauto.
  - apply H; [|done]. rewrite !in_pile_cons, !elem_of_cons. tauto.
Qed.

(** Piles without tombstones of some objects. *)
Definition quiet (O : Z → Prop) A : Prop := opile A ∧ ∀ o, O o → untombed o A.

Lemma quiet_perm O A A' : A ≡ₚ A' → quiet O A → quiet O A'.
Proof. intros Hp [H1 H2]. split; [by eapply opile_perm|]. intros o Ho. eapply untombed_perm; [done|auto]. Qed.

Lemma quiet_last O i x s : quiet O [(i, x :: s)] → quiet O (push i s []).
Proof.
  intros [H1 H2]. split; [by eapply opile_last|]. intros o Ho y Hy. apply (H2 o Ho). rewrite in_pile_push in Hy. rewrite in_pile_cons, elem_of_cons. tauto.
Qed.

(** Induction on a merge of such piles: each step is one of [mstep]. *)
Lemma scans_quiet O (Q : list (entry ObjectKey ObjectValue) → list ObjectItem → Prop) :
  Q [] [] → (∀ A A' out, A ≡ₚ A' → Q A' out → Q A out) →
  (∀ i x s out, quiet O [(i, x :: s)] → Q (push i s []) out → Q [(i, x :: s)] (x :: out)) →
  (∀ i1 x1 s1 i2 x2 s2 A out R, let A0 := (i1, x1 :: s1) :: (i2, x2 :: s2) :: A in
    quiet O A0 → entry_le (i1, x1 :: s1) (i2, x2 :: s2) → Forall (entry_le (i1, x1 :: s1)) A → Forall (entry_le (i2, x2 :: s2)) A →
    mstep i1 x1 i2 x2 R →
    match R with
    | EmitLeft => Q (push i1 s1 ((i2, x2 :: s2) :: A)) out → Q A0 (x1 :: out)
    | MergeOther emit l r => Q (apply_op r i2 x2 s2 (apply_op l i1 x1 s1 A)) out → Q A0 (option_list emit ++ out)
    end) →
  ∀ A out, scans merge A out → quiet O A → Q A out.
Proof.
  intros Hnil Hperm Hlast Hstep A out Hsc. induction Hsc as [|A i x s out Hp Hsc IH
      |A i1 x1 s1 i2 x2 s2 A2 out Hp H1 H2 Hm Hsc IH
      |A i1 x1 s1 i2 x2 s2 A2 emit l r out Hp H1 H2 Hm Hsc IH]; intros HA; [done|..]; apply (quiet_perm _ _ _ Hp) in HA; apply (Hperm _ _ _ Hp).
  - apply Hlast; [done|]. by eapply IH, quiet_last.
  - apply Forall_cons in H1 as [H1 H1']. destruct HA as [HA Ht]. destruct (opile_merge _ _ Hbs _ _ _ _ _ _ _ HA H1) as (R & HR & Hs). rewrite Hm in HR. injection HR as <-.
    eapply (Hstep _ _ _ _ _ _ _ _ _ (conj HA Ht) H1 H1' H2 Hs), IH. split; [by eapply opile_emit|]. intros o Ho. by eapply untombed_emit, Ht.
  - apply Forall_cons in H1 as [H1 H1']. destruct HA as [HA Ht]. destruct (opile_merge _ _ Hbs _ _ _ _ _ _ _ HA H1) as (R & HR & Hs). rewrite Hm in HR. injection HR as <-.
    eapply (Hstep _ _ _ _ _ _ _ _ _ (conj HA Ht) H1 H1' H2 Hs), IH. split; [|intros o Ho; eapply untombed_ops; [by apply Ht|done]].
    destruct (opile_two _ _ _ _ _ _ _ _ _ HA) as (Hi & _ & _ & _ & _ & _ & Hk1 & Hk2 & Hu). eapply opile_ops; [done|]. eapply mstep_ops; try done.
    destruct (entry_order _ _ _ _ _ _ _ Hi H1) as [->|[-> _]]; done.
Qed.

Lemma quiet_cmp O i1 x1 s1 i2 x2 s2 A : quiet O ((i1, x1 :: s1) :: (i2, x2 :: s2) :: A) → entry_le (i1, x1 :: s1) (i2, x2 :: s2) →
  cmp_lower (key x1) (key x2) ≠ Gt.
Proof.
  intros [Hp _] Hle. destruct (opile_two _ _ _ _ _ _ _ _ _ Hp) as (Hi & _). destruct (entry_order _ _ _ _ _ _ _ Hi Hle) as [->|[-> _]]; done.
Qed.

(** What has to be shown of a step for a view of the items chosen by [P]. *)
Lemma quiet_step P (rng : ObjectItem → range) {U : Type} (at_pos : ObjectItem → Z → U) o :
  (∀ i1 x1 s1 i2 x2 s2 A, let A0 := (i1, x1 :: s1) :: (i2, x2 :: s2) :: A in
    opile A0 → untombed o A0 → Forall (entry_le (i2, x2 :: s2)) A → cmp_lower (key x1) (key x2) ≠ Gt → ∀ R, mstep i1 x1 i2 x2 R →
    match R with
    | EmitLeft => view_step P rng at_pos A0 [x1] (push i1 s1 ((i2, x2 :: s2) :: A))
    | MergeOther emit l r => view_step P rng at_pos A0 (option_list emit) (apply_op r i2 x2 s2 (apply_op l i1 x1 s1 A))
    end) →
  (∀ A, streams A → pile rng (proj P A)) →
  ∀ A out, scans merge A out → opile A → untombed o A → shows rng at_pos (proj P A) (sel P out).
Proof.
  intros Hstep Hpile A out Hsc Hp Hu. apply (scans_quiet (eq o) (λ A out, shows rng at_pos (proj P A) (sel P out)) (shows_nil rng at_pos)); [..|done|by split; [|intros ? <-]].
  - intros A1 A2 out' Hperm. apply shows_perm. by apply proj_perm.
  - intros i x s out' Hq IH. destruct Hq as [[Hst _ _] _]. pose proof (Hpile _ Hst) as Hpl. rewrite proj_push in IH. cbn [proj] in *.
    destruct (P x) eqn:E; [|by rewrite !sel_cons_out by done]. rewrite !sel_cons_in in * by done. cbn [push] in *. by apply shows_last.
  - intros i1 x1 s1 i2 x2 s2 A1 out' R A0 Hq Hle _ Hle2 Hs. pose proof (quiet_cmp _ _ _ _ _ _ _ _ Hq Hle) as Hc. destruct Hq as [Hp' Hu'].
    specialize (Hstep _ _ _ _ _ _ _ Hp' (Hu' o eq_refl) Hle2 Hc R Hs). unfold sel. destruct R; intros Hsh;
      [change (x1 :: out') with ([x1] ++ out')|]; rewrite filter_app; by apply Hstep.
Qed.

(** A step on items that are not chosen. *)
Lemma view_others P (rng : ObjectItem → range) {U : Type} (at_pos : ObjectItem → Z → U) i1 x1 s1 i2 x2 s2 A emit l r :
  P x1 = false → P x2 = false → (∀ y, emit = Some y ∨ l = Replace y ∨ r = Replace y → P y = false) →
  view_step P rng at_pos ((i1, x1 :: s1) :: (i2, x2 :: s2) :: A) (option_list emit) (apply_op r i2 x2 s2 (apply_op l i1 x1 s1 A)).
Proof.
  intros H1 H2 Hnew. apply view_neither.
  - apply sel_nil_iff. intros y Hy. apply Hnew. destruct emit as [e|]; cbn in Hy; [|by apply elem_of_nil in Hy].
    apply list_elem_of_singleton in Hy as ->. by left.
  - apply proj_ops_out; [done..| |]; [destruct l|destruct r]; try done; apply Hnew; auto.
Qed.

(** The first item is emitted. *)
Lemma view_emit P (rng : ObjectItem → range) {U : Type} (at_pos : ObjectItem → Z → U) i1 x1 s1 i2 x2 s2 A :
  let A0 := (i1, x1 :: s1) :: (i2, x2 :: s2) :: A in
  convex normal_form P → streams A0 → Forall (entry_le (i2, x2 :: s2)) A → cmp_lower (key x1) (key x2) ≠ Gt →
  (P x1 = true → P x2 = false) → pile rng (proj P A0) →
  view_step P rng at_pos A0 [x1] (push i1 s1 ((i2, x2 :: s2) :: A)).
Proof.
  intros A0 HP Hs Hle Hc H12 Hp. destruct (P x1) eqn:E.
  - destruct (only_first P _ _ _ _ _ _ _ HP Hs Hle Hc E (H12 eq_refl)) as [Hx HA]. by apply view_first.
  - apply view_neither; [by rewrite sel_cons_out|]. unfold A0. by rewrite proj_emit_out.
Qed.

(** ** Extents *)
Lemma seg_ext o a s : layer_ok s → seg orng (sel (is_ext o a) s).
Proof.
  induction s as [|x s IH]; [intros _; apply seg_nil|]. intros (Hx & Hb & Hs)%layer_ok_cons. destruct (is_ext o a x) eqn:E.
  - rewrite sel_cons_in by done. apply seg_cons. split_and!; [by eapply ext_ne| |by apply IH].
    intros y [Hy%Is_true_true Hin]%elem_of_sel. apply (ext_before normal_form bs o a); [done..| |by apply Hb].
    destruct Hs as [_ Hs]. rewrite Forall_forall in Hs. by apply Hs.
  - rewrite sel_cons_out by done. by apply IH.
Qed.

Lemma pile_ext o a A : streams A → pile orng (proj (is_ext o a) A).
Proof.
  intros [Hn Hf]. split; [by apply proj_NoDup|]. apply Forall_forall. intros [j t] Ht.
  destruct (elem_of_proj _ _ _ _ Ht) as (Hne & s & Hs & ->). split; [done|]. apply seg_ext. rewrite Forall_forall in Hf. by apply (Hf (j, s)).
Qed.

Lemma cmp_lower_start o a x y : is_ext o a x = true → is_ext o a y = true →
  cmp_lower (key x) (key y) ≠ Gt → start (orng x) ≤ start (orng y).
Proof.
  intros (e & He)%is_ext_inv (e' & He')%is_ext_inv. unfold orng. rewrite He, He'.
  destruct (extents normal_form o a e o a e') as (-> & _). rewrite !Z.compare_refl. cbn. by rewrite Z.compare_le_iff.
Qed.

Lemma heads_ext o a i1 x1 s1 i2 x2 s2 A : let A0 := (i1, x1 :: s1) :: (i2, x2 :: s2) :: A in
  streams A0 → Forall (entry_le (i2, x2 :: s2)) A → cmp_lower (key x1) (key x2) ≠ Gt →
  is_ext o a x1 = true → is_ext o a x2 = true →
  heads orng i1 i2 x1 x2 (sel (is_ext o a) s1) (sel (is_ext o a) s2) (proj (is_ext o a) A).
Proof.
  intros A0 Hs Hle Hc H1 H2. apply pile_heads.
  - pose proof (pile_ext o a _ Hs) as Hp. unfold A0 in Hp. by rewrite !proj_in in Hp by done.
  - by apply (cmp_lower_start o a).
  - intros i x s Hin. destruct (elem_of_proj _ _ _ _ Hin) as (_ & s' & Hs' & Heq). assert (x ∈ sel (is_ext o a) s') as Hx by (rewrite <- Heq; set_solver).
    apply elem_of_sel in Hx as [Hx%Is_true_true Hx']. apply (cmp_lower_start o a); [done..|].
    unfold A0 in Hs. rewrite streams_cons in Hs. destruct Hs as (_ & _ & _ & Hs). eapply second_le; [done..|].
    rewrite in_pile_cons. right. by exists i, s'.
Qed.

(** The step on two extents of the attribute. *)
Lemma ext_step_view o a i1 x1 s1 i2 x2 s2 A R : let P := is_ext o a in let A0 := (i1, x1 :: s1) :: (i2, x2 :: s2) :: A in
  heads orng i1 i2 x1 x2 (sel P s1) (sel P s2) (proj P A) → P x1 = true → P x2 = true → ext_step bs o a i1 x1 i2 x2 R →
  match R with
  | EmitLeft => view_step P orng oval A0 [x1] (push i1 s1 ((i2, x2 :: s2) :: A))
  | MergeOther emit l r => view_step P orng oval A0 (option_list emit) (apply_op r i2 x2 s2 (apply_op l i1 x1 s1 A))
  end.
Proof.
  intros P A0 Hh H1 H2 Hs.
  destruct Hs as [Hle|He Hi|He Hi Hd1 Hd2|e m Ha Hb Hp Hq|m Ha Hb Hc Hp|m Ha Hb Hc Hd1 Hd2 Hdm Hem Hm Hr]; apply view_both; unfold A0.
  - rewrite proj_push, !proj_in, sel_cons_in by done. by apply step_emit_left.
  - rewrite !proj_op_in, !proj_in by done. by apply step_drop_right.
  - rewrite !proj_op_in, !proj_in by done. by apply (step_absorb _ _ _ _ _ _ _ _ _ Hh None).
  - destruct Hp as [Hpe _ Hpr Hpa], Hq as [Hqe _ Hqr Hqa]. rewrite !proj_op_in, !proj_in by done. change (option_list (Some e)) with [e]. rewrite sel_cons_in by done.
    apply step_split; [done..|by rewrite Hpr|done|by rewrite Hqr].
  - destruct Hp as [Hpe _ Hpr Hpa]. rewrite !proj_op_in, !proj_in by done. apply step_hide_right; [done..|by rewrite Hpr].
  - rewrite !proj_op_in, !proj_in by done. by apply (step_coalesce _ _ _ _ _ _ _ _ _ Hh m None).
Qed.

Lemma is_ext_other o a o' a' x y : is_ext o' a' x = true → is_ext o' a' y = true → is_ext o a x = is_ext o a y.
Proof. intros (e & He)%is_ext_inv (e' & He')%is_ext_inv. unfold is_ext. by rewrite He, He'. Qed.

Lemma usage_not_ext o a x : is_Some (usage x) → is_ext o a x = false.
Proof. intros [u Hu]. apply not_true_iff_false. intros He%ext_usage. congruence. Qed.

Lemma in_object_ext o a x : is_ext o a x = true → object_id (key x) = o.
Proof. intros (e & He)%is_ext_inv. by rewrite He. Qed.

Lemma untombed_first o i1 x1 s1 A x2 : untombed o ((i1, x1 :: s1) :: A) → ObjectItem.is_tombstone x1 = true →
  object_id (key x1) = object_id (key x2) → object_id (key x1) ≠ o ∧ object_id (key x2) ≠ o.
Proof.
  intros Hu Ht Ho. rewrite <- Ho. enough (object_id (key x1) ≠ o) by done. intros He.
  rewrite Hu in Ht; [done| |by apply Z.eqb_eq]. rewrite in_pile_cons, elem_of_cons. auto.
Qed.

Lemma ext_view o a A out : scans merge A out → opile A → untombed o A → shows orng oval (proj (is_ext o a) A) (sel (is_ext o a) out).
Proof.
  apply quiet_step; [|apply pile_ext]. clear A out.
  intros i1 x1 s1 i2 x2 s2 A A0 Hp Hu Hle Hc R Hs. pose proof (op_streams _ _ _ Hp) as Hst.
  assert (∀ emit l r, R = MergeOther emit l r → is_ext o a x1 = false → is_ext o a x2 = false →
    view_step (is_ext o a) orng oval A0 (option_list emit) (apply_op r i2 x2 s2 (apply_op l i1 x1 s1 A))) as Hout.
  { intros emit l r -> H1 H2. apply view_others; [done..|]. intros y Hy.
    destruct (mstep_new _ _ _ _ _ _ _ _ Hs Hy) as [(o' & a' & He1 & _ & Hey)|(_ & _ & _ & _ & Hy')]; [|by apply usage_not_ext].
    by rewrite <- (is_ext_other _ _ _ _ _ _ He1 Hey). }
  destruct Hs as [o' a' R He1 He2 HR|b1 n1 b2 n2 Hu1 Hu2 Hk Hb Hn|b1 n1 b2 n2 Hu1 Hu2 Hk|Ht Ho Hi|Hk Hne Hnu Hi|Hlt Hne Ht].
  - destruct (is_ext o a x1) eqn:E1.
    + pose proof (is_ext_other o a _ _ _ _ He1 He2) as E2. rewrite E1 in E2. symmetry in E2.
      assert (o' = o ∧ a' = a) as [-> ->].
      { apply is_ext_inv in E1 as (e & E1), He1 as (e' & He1). rewrite E1 in He1. by injection He1 as -> ->. }
      eapply ext_step_view; [by eapply heads_ext|done..].
    + pose proof (is_ext_other o a _ _ _ _ He1 He2) as E2. rewrite E1 in E2. symmetry in E2.
      destruct R; [|by apply Hout]. apply view_emit; [apply is_ext_convex|done..|by rewrite E1|by apply pile_ext].
  - apply Hout; [done|by apply usage_not_ext; eexists..].
  - apply Hout; [done|by apply usage_not_ext; eexists..].
  - destruct (untombed_first _ _ _ _ _ _ Hu Ht Ho) as [N1 N2]. apply Hout; [done| |]; apply not_true_iff_false; by intros ?%in_object_ext.
  - apply Hout; [done..|]. apply not_true_iff_false. intros E. assert (is_ext o a x1 = true) as E1; [|by rewrite Hne in E1].
    eapply (cmp_lower_ext normal_form); [|exact E]. by rewrite (cmp_opp (TotalCmp := object_lower_total normal_form)), Hk.
  - apply view_emit; [apply is_ext_convex|done..|apply Hne|by apply pile_ext].
Qed.

(** ** Records with a key of their own *)

(** Keys whose records are neither cut nor added up. *)
Definition plain (k : ObjectKey) : Prop := is_extent (data k) = false ∧ ∀ p, data k ≠ KProject p Usage.

(** Every record with the key is at one position, with its value there. *)
Definition krng (x : ObjectItem) : range := 0 ..< 1.
Definition kval (x : ObjectItem) (p : Z) : ObjectValue := value x.

Lemma is_key_trans k x y : is_key normal_form k x = true → is_key normal_form k y = true → cmp_lower (key x) (key y) = Eq.
Proof.
  intros Hx%is_key_inv%cmp_lower_Eq Hy%is_key_inv%cmp_lower_Eq. rewrite cmp_lower_code, <- Hx, <- Hy. apply seq_cmp_refl.
Qed.

Lemma is_key_Eq k x y : cmp_lower (key x) (key y) = Eq → is_key normal_form k x = is_key normal_form k y.
Proof. intros Hc%cmp_lower_Eq. unfold is_key. by rewrite !cmp_lower_code, Hc. Qed.

Lemma plain_not_ext k x o a : plain k → is_ext o a x = true → is_key normal_form k x = false.
Proof.
  intros [Hk _] (e & He)%is_ext_inv. apply not_true_iff_false. rewrite is_key_inv, He. intros Hc%cmp_lower_Eq.
  destruct k as [ko [| |ka [|ke]| | | | | | |]]; cbn in Hk; try discriminate Hk; cbn in Hc; discriminate Hc.
Qed.

Lemma plain_not_usage k x : plain k → is_Some (usage x) → is_key normal_form k x = false.
Proof.
  intros [_ Hk] [[b n] [[p Hp] _]%usage_inv]. apply not_true_iff_false. rewrite is_key_inv. intros Hc%cmp_lower_Eq. unfold code in Hc. rewrite Hp in Hc.
  injection Hc as _ Hv Hc. destruct (data k) as [| | | | |p' [|]| | | |]; cbn in Hv; try discriminate Hv; [discriminate Hc|by destruct (Hk p')].
Qed.

Lemma is_key_id k x : is_key normal_form k x = true → object_id (key x) = object_id k.
Proof. intros Hc%is_key_inv%cmp_lower_id. done. Qed.

Lemma seg_key k s : layer_ok s → seg krng (sel (is_key normal_form k) s).
Proof.
  induction s as [|x s IH]; [intros _; apply seg_nil|]. intros (Hx & Hb & Hs)%layer_ok_cons. destruct (is_key normal_form k x) eqn:E.
  - rewrite sel_cons_in by done. apply seg_cons. split_and!; [done| |by apply IH].
    intros y [Hy%Is_true_true Hin]%elem_of_sel. destruct (Hb _ Hin) as [Hlt _]. by rewrite (is_key_trans k x y) in Hlt.
  - rewrite sel_cons_out by done. by apply IH.
Qed.

Lemma pile_key k A : streams A → pile krng (proj (is_key normal_form k) A).
Proof.
  intros [Hn Hf]. split; [by apply proj_NoDup|]. apply Forall_forall. intros [j t] Ht.
  destruct (elem_of_proj _ _ _ _ Ht) as (Hne & s & Hs & ->). split; [done|]. apply seg_key. rewrite Forall_forall in Hf. by apply (Hf (j, s)).
Qed.

Lemma key_view k A out : plain k → scans merge A out → opile A → untombed (object_id k) A →
  shows krng kval (proj (is_key normal_form k) A) (sel (is_key normal_form k) out).
Proof.
  intros Hk. apply quiet_step; [|apply pile_key]. clear A out.
  intros i1 x1 s1 i2 x2 s2 A A0 Hp Hu Hle Hc R Hs. pose proof (op_streams _ _ _ Hp) as Hst. set (P := is_key normal_form k).
  assert (∀ emit l r, R = MergeOther emit l r → P x1 = false → P x2 = false →
    view_step P krng kval A0 (option_list emit) (apply_op r i2 x2 s2 (apply_op l i1 x1 s1 A))) as Hout.
  { intros emit l r -> H1 H2. apply view_others; [done..|]. intros y Hy.
    destruct (mstep_new _ _ _ _ _ _ _ _ Hs Hy) as [(o' & a' & He1 & _ & Hey)|(_ & _ & _ & _ & Hy')];
      [by eapply plain_not_ext|by apply plain_not_usage]. }
  destruct Hs as [o' a' R He1 He2 HR|b1 n1 b2 n2 Hu1 Hu2 Hk' Hb Hn|b1 n1 b2 n2 Hu1 Hu2 Hk'|Ht Ho Hi|Hk' Hne Hnu Hi|Hlt Hne Ht].
  - pose proof (plain_not_ext _ _ _ _ Hk He1) as E1. pose proof (plain_not_ext _ _ _ _ Hk He2).
    destruct R; [|by apply Hout]. apply view_emit; [apply is_key_convex|done..|unfold P; congruence|by apply pile_key].
  - apply Hout; [done|by apply plain_not_usage; [|eexists]..].
  - apply Hout; [done|by apply plain_not_usage; [|eexists]..].
  - destruct (untombed_first _ _ _ _ _ _ Hu Ht Ho) as [N1 N2]. apply Hout; [done| |]; apply not_true_iff_false; by intros ?%is_key_id.
  - pose proof (is_key_Eq k _ _ Hk') as E12. destruct (P x1) eqn:E1; [|apply Hout; [done..|unfold P in *; congruence]].
    assert (P x2 = true) as E2 by (unfold P in *; congruence).
    apply view_both. unfold A0. rewrite !proj_op_in, !proj_in by done. apply step_drop_right; [|done|done].
    apply pile_heads; [|done..]. pose proof (pile_key k _ Hst) as Hpl. unfold A0 in Hpl. by rewrite !proj_in in Hpl by done.
  - apply view_emit; [apply is_key_convex|done..| |by apply pile_key]. intros H1. apply not_true_iff_false. intros H2.
    by rewrite (is_key_trans k x1 x2) in Hlt.
Qed.
End views.
