(* ===== verification/ObjMergeSpec.v ===== *)
(** * The merge of an object store's layers: usage, tombstones, order

    The rest of the views of [ObjMergeViews.v], and what a full scan of an
    object store's layers yields. *)

From S2P Require Import Prelude Round Checksum Extent LsmTypes ObjectRecord Merge MergeProps ObjectKeyOrder.
From S2P Require Import Segments SegMerge ObjMerge ObjMergeProps ObjMergeViews.

Section spec.
Context (normal_form : list Z → list Z) (bs : Z) (Hbs : 0 < bs).
#[local] Abbreviation cmp_lower := (object_cmp_lower_bound normal_form).
#[local] Abbreviation item_ok := (item_ok bs).
#[local] Abbreviation layer_ok := (layer_ok normal_form bs).
#[local] Abbreviation streams := (streams normal_form bs).
#[local] Abbreviation opile := (opile normal_form bs).
#[local] Abbreviation obefore := (obefore normal_form).
#[local] Abbreviation mstep := (mstep normal_form bs).
#[local] Abbreviation merge := (merge normal_form).
#[local] Abbreviation quiet := (quiet normal_form bs).
#[local] Instance object_order : OrdLowerBound ObjectKey := object_lower normal_form.
Implicit Types (A : list (entry ObjectKey ObjectValue)) (x : ObjectItem) (s : list ObjectItem).

(** ** Usage *)

(** What the records with the key count. *)
Definition bytes_of (k : ObjectKey) (x : ObjectItem) : Z :=
  if is_key normal_form k x then match usage x with Some (b, _) => b | None => 0 end else 0.
Definition nodes_of (k : ObjectKey) (x : ObjectItem) : Z :=
  if is_key normal_form k x then match usage x with Some (_, n) => n | None => 0 end else 0.

(** A step adds up. *)
Definition adds_up (f : ObjectItem → Z) x1 x2 emit l r : Prop :=
  zsum f (option_list emit) + op_val f l x1 + op_val f r x2 = f x1 + f x2.

Lemma scans_sum f o : (∀ i1 x1 i2 x2 emit l r,
    item_ok x1 → item_ok x2 → (ObjectItem.is_tombstone x1 = true → object_id (key x1) ≠ o) →
    mstep i1 x1 i2 x2 (MergeOther emit l r) → adds_up f x1 x2 emit l r) →
  ∀ A out, scans merge A out → opile A → untombed o A → zsum f out = pile_sum f A.
Proof.
  intros Hf A out Hsc Hp Hu. apply (scans_quiet normal_form bs Hbs (eq o) (λ A out, zsum f out = pile_sum f A)); [done|..|done|by split; [|intros ? <-]].
  - intros A1 A2 out' Hperm. by rewrite (pile_sum_perm _ _ _ Hperm).
  - intros i x s out' _. rewrite pile_sum_push, pile_sum_cons, !zsum_cons. lia.
  - intros i1 x1 s1 i2 x2 s2 A1 out' R A0 [Hq Hu'] _ _ _ Hs. unfold A0 in *. rewrite !pile_sum_cons, !zsum_cons.
    destruct (opile_two _ _ _ _ _ _ _ _ _ Hq) as (_ & _ & _ & _ & _ & _ & H1 & H2 & _). destruct R as [|emit l r].
    + rewrite pile_sum_push, pile_sum_cons, !zsum_cons. lia.
    + rewrite zsum_app, !pile_sum_op. unfold adds_up in Hf. rewrite <- (Z.add_assoc (f x1)).
      assert (zsum f (option_list emit) + op_val f l x1 + op_val f r x2 = f x1 + f x2); [|lia]. eapply Hf; [done..| |done].
      intros Ht Ho. specialize (Hu' o eq_refl x1). rewrite Hu' in Ht; [done|rewrite in_pile_cons, elem_of_cons; auto|by apply Z.eqb_eq].
Qed.

Lemma usage_Eq x1 x2 : item_ok x1 → cmp_lower (key x1) (key x2) = Eq → usage x1 = None → usage x2 = None.
Proof.
  intros H1 Hc%cmp_lower_Eq Hu. destruct (usage x2) as [[b n]|] eqn:Hu2; [|done]. apply usage_inv in Hu2 as [[p Hp] _].
  unfold code in Hc. rewrite Hp in Hc. injection Hc as _ Hv Hc. unfold usage, ObjMergeProps.item_ok in *.
  destruct (data (key x1)) as [| |? [|]| | |p' [|]| | | |]; cbn in Hv; try discriminate Hv; [discriminate Hc|]. by destruct (value x1).
Qed.

(** A count of what records of usage have is kept by each step. *)
Lemma usage_adds_up (f : ObjectItem → Z) (c : Z * Z → Z) k :
  (∀ x, f x = if is_key normal_form k x then match usage x with Some u => c u | None => 0 end else 0) →
  (∀ b1 n1 b2 n2, c (b1 + b2, n1 + n2) = c (b1, n1) + c (b2, n2)) → (∀ b n, b = 0 → n = 0 → c (b, n) = 0) →
  ∀ i1 x1 i2 x2 emit l r, item_ok x1 → item_ok x2 → (ObjectItem.is_tombstone x1 = true → object_id (key x1) ≠ object_id k) →
  mstep i1 x1 i2 x2 (MergeOther emit l r) → adds_up f x1 x2 emit l r.
Proof.
  intros Hf Hadd Hz i1 x1 i2 x2 emit l r H1 H2 Ht Hs.
  assert (∀ o a x, is_ext o a x = true → f x = 0) as Hext.
  { intros o a x He. rewrite Hf, (ext_usage _ _ _ He). by destruct (is_key _ _ _). }
  unfold adds_up. inversion Hs as [o a R He1 He2 HR|b1 n1 b2 n2 Hu1 Hu2 Hk Hb Hn|b1 n1 b2 n2 Hu1 Hu2 Hk|Ht' Ho Hi|Hk Hne Hnu Hi|]; subst.
  - rewrite (Hext _ _ _ He1), (Hext _ _ _ He2). inversion HR as [| | |e m Ha Hb Hp Hq|m Ha Hb Hc Hp|m Ha Hb Hc Hd1 Hd2 Hdm Hem Hm Hr]; subst; cbn.
    + by rewrite (Hext _ _ _ He1).
    + by rewrite (Hext _ _ _ He1).
    + by rewrite (Hext _ _ _ (pc_ext _ _ _ _ _ _ Hp)), (Hext _ _ _ (pc_ext _ _ _ _ _ _ Hq)), (Hext _ _ _ He2).
    + by rewrite (Hext _ _ _ (pc_ext _ _ _ _ _ _ Hp)), (Hext _ _ _ He1).
    + by rewrite (Hext _ _ _ Hem).
  - cbn. rewrite !Hf, Hu1, Hu2, (is_key_Eq _ _ _ _ Hk). destruct (is_key _ _ _); [|done]. rewrite <- Hadd. by rewrite Hz.
  - cbn. rewrite !Hf. unfold usage at 1. cbn [key value]. destruct (usage_inv _ _ _ Hu2) as [[p Hd] _]. rewrite Hd.
    rewrite Hu1, Hu2, (is_key_Eq _ _ _ _ Hk). assert (is_key normal_form k (mkItem (key x2) (VBytesAndNodes (b1 + b2) (n1 + n2)) (sequence x2)) = is_key normal_form k x2) as -> by done.
    destruct (is_key _ _ _); [|done]. rewrite Hadd. lia.
  - cbn. enough (f x2 = 0) by lia. rewrite Hf. destruct (is_key _ _ _) eqn:E; [|done]. apply is_key_id in E. specialize (Ht Ht'). congruence.
  - cbn. enough (f x2 = 0) by lia. rewrite Hf, (usage_Eq x1 x2) by done. by destruct (is_key _ _ _).
Qed.

(** ** Order *)
Lemma cmp_lower_Lt_le a b c : cmp_lower a b = Lt → cmp_lower b c ≠ Gt → cmp_lower a c = Lt.
Proof.
  intros H1 H2. pose proof (object_lower_total normal_form) as HT. pose proof (cmp_le_trans b c a H2) as Ht.
  rewrite (cmp_opp c a), (cmp_opp (cmp := cmp_lower) b a), H1 in Ht. destruct (cmp_lower a c); [|done|]; exfalso; by apply Ht.
Qed.

Lemma obefore_trans x y z : item_ok x → item_ok y → item_ok z → obefore x y → cmp_lower (key y) (key z) ≠ Gt → obefore x z.
Proof.
  intros Hx Hy Hz Hb Hc. pose proof (cmp_lower_Lt_le _ _ _ (proj1 Hb) Hc) as Hlt.
  destruct (is_extent (data (key x))) eqn:E.
  - apply extent_data in E as (o & a & e & He). assert (is_ext o a x = true) as Ex by (apply is_ext_inv; by exists e).
    destruct (is_ext o a z) eqn:Ez.
    + assert (is_ext o a y = true) as Ey.
      { apply (is_ext_convex normal_form o a x y z); [done..| |done]. by rewrite (proj1 Hb). }
      apply (ext_before normal_form bs o a) in Hb; [|done..]. apply (ext_before normal_form bs o a); [done..|].
      pose proof (cmp_lower_start normal_form o a y z Ey Ez Hc). lia.
    + split; [done|]. apply overlaps_Lt; [done|]. intros o' a' (e' & He')%is_ext_inv. rewrite He in He'. by injection He' as -> ->.
  - split; [done|]. apply overlaps_Lt; [done|]. intros o' a' Hx'. by rewrite (proj1 (not_is_extent x) E) in Hx'.
Qed.

(** An extent that starts no earlier follows the same items. *)
Lemma ext_later o a x m y : is_ext o a x = true → is_ext o a m = true → item_ok x → item_ok m → item_ok y →
  start (orng x) ≤ start (orng m) → obefore y x → obefore y m.
Proof.
  intros Hx Hm Hx' Hm' Hy' Hst. destruct (is_ext o a y) eqn:Hy.
  { rewrite !(ext_before normal_form bs o a) by done. lia. }
  intros [Hc _]. assert (∀ o' a', is_ext o' a' y = true → is_ext o' a' m = false) as Hno.
  { intros o' a' Hy1. apply not_true_iff_false. intros Hm1. apply is_ext_inv in Hm as (e & He), Hm1 as (e' & He').
    rewrite He in He'. injection He' as -> -> _. congruence. }
  assert (cmp_lower (key y) (key m) = Lt) as Hc'; [|split; [done|by apply overlaps_Lt]].
  pose proof (object_lower_total normal_form) as HT. rewrite (cmp_opp (cmp := cmp_lower)) in Hc |- *.
  assert (cmp_lower (key m) (key y) = cmp_lower (key x) (key y)) as ->; [|done].
  apply is_ext_inv in Hx as (e & He), Hm as (e' & He'). rewrite He, He', !cmp_lower_code, !code_extent.
  apply seq_cmp_prefix. intros v Hv. apply not_true_iff_false in Hy. apply Hy, is_ext_inv.
  destruct (key y) as [o' [| |a' [|e0]| | | | | | |]]; cbn in Hv; try discriminate Hv. injection Hv as -> -> _. by exists e0.
Qed.

Lemma obefore_key y x x' : key x = key x' → obefore y x → obefore y x'.
Proof. unfold ObjMergeProps.obefore. by intros ->. Qed.

(** What comes before both items comes before what they become. *)
Lemma mstep_after i1 x1 i2 x2 emit l r y z : item_ok x1 → item_ok x2 → item_ok y → cmp_lower (key x1) (key x2) ≠ Gt →
  mstep i1 x1 i2 x2 (MergeOther emit l r) → emit = Some z ∨ l = Replace z ∨ r = Replace z →
  obefore y x1 → obefore y x2 → obefore y z.
Proof.
  intros H1 H2 Hy Hc Hs Hz Hb1 Hb2.
  inversion Hs as [o a R He1 He2 HR|b1 n1 b2 n2 Hu1 Hu2 Hk Hb Hn|b1 n1 b2 n2 Hu1 Hu2 Hk| | |]; subst;
    [|by destruct Hz as [?|[?|?]]| |by destruct Hz as [?|[?|?]]..].
  - pose proof (cmp_lower_start normal_form _ _ _ _ He1 He2 Hc). pose proof (ext_ne _ _ _ _ He1 H1).
    assert (∀ m, is_ext o a m = true → item_ok m → start (orng x1) ≤ start (orng m) → obefore y m) as Hm by (intros; by eapply (ext_later o a x1)).
    inversion HR as [| | |e m Ha Hb Hp Hq|m Ha Hb Hx Hp|m Ha Hb Hx Hd1 Hd2 Hdm Hem Hm' Hr]; subst; destruct Hz as [Hz|[Hz|Hz]]; try discriminate Hz; injection Hz as <-;
      apply Hm; try (apply Hp || apply Hq || done); [rewrite (pc_rng _ _ _ _ _ _ Hp)|rewrite (pc_rng _ _ _ _ _ _ Hq)|rewrite (pc_rng _ _ _ _ _ _ Hp)|rewrite Hr]; cbn; lia.
  - destruct Hz as [Hz|[Hz|Hz]]; try discriminate Hz. injection Hz as <-. by apply (obefore_key _ x2).
Qed.

Lemma mstep_emit_before i1 x1 i2 x2 : item_ok x1 → item_ok x2 → mstep i1 x1 i2 x2 EmitLeft → obefore x1 x2.
Proof.
  intros H1 H2 Hs. inversion Hs as [o a R He1 He2 HR| | | | |Hlt Hne Ht]; subst.
  - inversion HR; subst. by apply (ext_before normal_form bs o a).
  - split; [done|]. by apply overlaps_Lt.
Qed.

(** What is emitted with other operations comes before all that is left. *)
Lemma mstep_emitted i1 x1 s1 i2 x2 s2 A e l r y : let A0 := (i1, x1 :: s1) :: (i2, x2 :: s2) :: A in
  streams A0 → Forall (entry_le (i2, x2 :: s2)) A → mstep i1 x1 i2 x2 (MergeOther (Some e) l r) →
  in_pile y (apply_op r i2 x2 s2 (apply_op l i1 x1 s1 A)) → item_ok e ∧ obefore e y.
Proof.
  intros A0 Hst Hle Hs. inversion Hs as [o a R He1 He2 HR| | | | |]; subst. inversion HR as [| | |e' m Ha Hb Hp Hq| |]; subst.
  unfold A0 in Hst. rewrite streams_cons in Hst. destruct Hst as (_ & _ & Hl1 & Hst). pose proof Hl1 as (H1 & Hb1 & Hs1)%layer_ok_cons.
  pose proof (streams_item _ _ _ x2 Hst ltac:(rewrite in_pile_cons; set_solver)) as H2.
  destruct Hp as [Hpe Hpk Hpr _], Hq as [Hqe Hqk Hqr _]. intros Hy. split; [done|].
  assert (obefore e x2) as Hex by (apply (ext_before normal_form bs o a); [done..|rewrite Hpr; cbn; lia]).
  rewrite !in_pile_op in Hy. cbn [op_new] in Hy. destruct Hy as [->|[Hy|[->|[Hy|Hy]]]].
  - done.
  - pose proof (second_le _ _ _ _ _ _ y Hst Hle) as Hc. rewrite in_pile_cons, elem_of_cons in Hc.
    eapply obefore_trans; [done|exact H2| |done|apply Hc; auto]. eapply streams_item; [done|]. rewrite in_pile_cons. set_solver.
  - apply (ext_before normal_form bs o a); [done..|]. rewrite Hpr, Hqr. cbn. lia.
  - destruct Hs1 as [_ Hs1]. rewrite Forall_forall in Hs1. apply (ext_shorter normal_form bs o a x1 e y); [done..|by apply Hs1| |by apply Hb1].
    rewrite Hpr. cbn. pose proof (ext_ne _ _ _ _ Hqe Hqk) as Hq. rewrite Hqr in Hq. cbn in Hq. lia.
  - pose proof (second_le _ _ _ _ _ _ y Hst Hle) as Hc. rewrite in_pile_cons, elem_of_cons in Hc.
    eapply obefore_trans; [done|exact H2| |done|apply Hc; auto]. eapply streams_item; [done|]. rewrite in_pile_cons. auto.
Qed.

(** What is emitted alone comes before all that is left. *)
Lemma mstep_emit_all i1 x1 s1 i2 x2 s2 A y : let A0 := (i1, x1 :: s1) :: (i2, x2 :: s2) :: A in
  streams A0 → item_ok x1 → item_ok x2 → Forall (entry_le (i2, x2 :: s2)) A → mstep i1 x1 i2 x2 EmitLeft →
  in_pile y (push i1 s1 ((i2, x2 :: s2) :: A)) → obefore x1 y.
Proof.
  intros A0 Hst H1 H2 Hle Hs. unfold A0 in Hst. rewrite streams_cons in Hst. destruct Hst as (_ & _ & (_ & Hb1 & _)%layer_ok_cons & Hst).
  rewrite in_pile_push. intros [Hy|Hy]; [by apply Hb1|]. eapply obefore_trans; [exact H1|exact H2| | |].
  - by eapply streams_item.
  - by eapply mstep_emit_before.
  - by eapply second_le.
Qed.

(** A run is well formed, and comes after what the pile comes after. *)
Definition ordered A (out : list ObjectItem) : Prop :=
  layer_ok out ∧ ∀ y, item_ok y → (∀ x, in_pile x A → obefore y x) → ∀ x, x ∈ out → obefore y x.

Lemma ordered_ops i1 x1 s1 i2 x2 s2 A emit l r out : let A0 := (i1, x1 :: s1) :: (i2, x2 :: s2) :: A in
  streams A0 → item_ok x1 → item_ok x2 → cmp_lower (key x1) (key x2) ≠ Gt → Forall (entry_le (i2, x2 :: s2)) A →
  mstep i1 x1 i2 x2 (MergeOther emit l r) → ordered (apply_op r i2 x2 s2 (apply_op l i1 x1 s1 A)) out →
  ordered A0 (option_list emit ++ out).
Proof.
  intros A0 Hst H1 H2 Hc Hle Hs [Ho Hb]. split.
  - destruct emit as [e|]; [|done]. change (option_list (Some e) ++ out) with (e :: out).
    assert (item_ok e) as He by (inversion Hs as [? ? ? ? ? HR| | | | |]; subst; inversion HR as [| | |? ? ? ? Hpc| |]; subst; apply Hpc).
    apply layer_ok_cons. split_and!; [done| |done]. apply Hb; [done|]. intros y Hy. by eapply mstep_emitted.
  - intros y Hy Hall. assert (obefore y x1) as Hy1 by (apply Hall; unfold A0; rewrite !in_pile_cons; set_solver).
    assert (obefore y x2) as Hy2 by (apply Hall; unfold A0; rewrite !in_pile_cons; set_solver).
    pose proof (λ z Hz, mstep_after _ _ _ _ _ _ _ y z H1 H2 Hy Hc Hs Hz Hy1 Hy2) as Hnew. intros z [Hz|Hz]%elem_of_app.
    + apply Hnew. left. destruct emit; cbn in Hz; set_solver.
    + apply Hb; [done| |done]. intros w. rewrite !in_pile_op. intros [Hw|[Hw|[Hw|[Hw|Hw]]]].
      * destruct r; cbn in Hw; [by subst|done|subst; apply Hnew; auto].
      * apply Hall. unfold A0. rewrite !in_pile_cons. set_solver.
      * destruct l; cbn in Hw; [by subst|done|subst; apply Hnew; auto].
      * apply Hall. unfold A0. rewrite !in_pile_cons. set_solver.
      * apply Hall. unfold A0. rewrite !in_pile_cons. auto.
Qed.

(** An item that comes before all that is left. *)
Lemma ordered_cons x A0 A out : item_ok x → in_pile x A0 → (∀ y, in_pile y A → in_pile y A0 ∧ obefore x y) →
  ordered A out → ordered A0 (x :: out).
Proof.
  intros Hx Hin Hsub [H1 H2]. split.
  - apply layer_ok_cons. split_and!; [done| |done]. apply H2; [done|]. intros z Hz. by apply Hsub.
  - intros y Hy Hall z [->|Hz]%elem_of_cons; [by apply Hall|]. apply H2; [done| |done]. intros w Hw. by apply Hall, Hsub.
Qed.

Lemma scans_ordered A out : scans merge A out → opile A → layer_ok out.
Proof.
  intros Hsc Hp. apply (scans_quiet normal_form bs Hbs (λ _, False) ordered) with A; [..|done|by split].
  - split; [split; constructor|]. by intros y _ _ x ?%elem_of_nil.
  - intros A1 A2 out' Hperm [H1 H2]. split; [done|]. intros y Hy Hb. apply H2; [done|]. intros x Hx. apply Hb. unfold in_pile in *. by setoid_rewrite Hperm.
  - intros i x s out' [[Hst _ _] _]. rewrite streams_cons in Hst. destruct Hst as (_ & _ & Hl & _). apply layer_ok_cons in Hl as (Hx & Hb & _).
    apply ordered_cons; [done|rewrite in_pile_cons; set_solver|]. intros y. rewrite in_pile_push, in_pile_cons, elem_of_cons.
    intros [Hy|(? & ? & []%elem_of_nil & _)]. split; [auto|by apply Hb].
  - intros i1 x1 s1 i2 x2 s2 A1 out' R A0 Hq Hle _ Hle2 Hs. pose proof (quiet_cmp _ _ _ _ _ _ _ _ _ _ Hq Hle) as Hc. destruct Hq as [Hq _].
    destruct (opile_two _ _ _ _ _ _ _ _ _ Hq) as (_ & _ & _ & _ & _ & _ & H1 & H2 & _). pose proof (op_streams _ _ _ Hq) as Hst.
    destruct R as [|emit l r]; [|by apply ordered_ops]. apply ordered_cons; [done|unfold A0; rewrite in_pile_cons; set_solver|].
    intros y Hy. split; [|by eapply mstep_emit_all]. rewrite in_pile_push in Hy. unfold A0. rewrite in_pile_cons, elem_of_cons. tauto.
Qed.

(** What is merged counts no more than what it is merged of. *)
Lemma emit_abs i1 x1 i2 x2 emit l r : mstep i1 x1 i2 x2 (MergeOther emit l r) → zsum abs_bytes (option_list emit) = 0 ∧ zsum abs_nodes (option_list emit) = 0.
Proof.
  intros Hs. destruct emit as [y|]; [|done]. change (option_list (Some y)) with [y]. rewrite !zsum_cons.
  destruct (mstep_new _ _ _ _ _ _ _ _ _ _ Hs (or_introl eq_refl)) as [(o & a & _ & _ & Hy)|(_ & _ & Hu & _)]; [destruct (ext_abs _ _ _ Hy) as [-> ->]; done|].
  inversion Hs as [o a R He1 He2 HR| | | | |]; subst. rewrite (ext_usage _ _ _ He1) in Hu. by destruct Hu.
Qed.

Lemma scans_abs A out : scans merge A out → opile A → zsum abs_bytes out ≤ pile_sum abs_bytes A ∧ zsum abs_nodes out ≤ pile_sum abs_nodes A.
Proof.
  intros Hsc Hp. apply (scans_quiet normal_form bs Hbs (λ _, False) (λ A out, zsum abs_bytes out ≤ pile_sum abs_bytes A ∧ zsum abs_nodes out ≤ pile_sum abs_nodes A)); [done|..|done|by split].
  - intros A1 A2 out' Hperm. by rewrite !(pile_sum_perm _ _ _ Hperm).
  - intros i x s out' _. rewrite !pile_sum_push, !pile_sum_cons, !zsum_cons. lia.
  - intros i1 x1 s1 i2 x2 s2 A1 out' R A0 [Hq _] Hle _ _ Hs. unfold A0 in *. rewrite !pile_sum_cons, !zsum_cons.
    destruct (opile_two _ _ _ _ _ _ _ _ _ Hq) as (Hi & _ & _ & _ & _ & _ & H1 & H2 & _). destruct R as [|emit l r].
    + rewrite !pile_sum_push, !pile_sum_cons, !zsum_cons. lia.
    + rewrite !zsum_app, !pile_sum_op. destruct (emit_abs _ _ _ _ _ _ _ Hs) as [-> ->].
      destruct (mstep_ops normal_form bs i1 x1 i2 x2 emit l r H1 H2) as [_ _ Hb Hn _]; [|done|lia]. by destruct (entry_order _ _ _ _ _ _ _ Hi Hle) as [->|[-> _]].
Qed.

(** ** Tombstones *)
Lemma mstep_object i1 x1 i2 x2 emit l r : mstep i1 x1 i2 x2 (MergeOther emit l r) → object_id (key x1) = object_id (key x2).
Proof.
  inversion 1 as [o a R He1 He2 HR|b1 n1 b2 n2 Hu1 Hu2 Hk Hb Hn|b1 n1 b2 n2 Hu1 Hu2 Hk|Ht' Ho Hi|Hk Hne Hnu Hi|]; subst;
    [|by eapply cmp_lower_id..|done|by eapply cmp_lower_id].
  by rewrite (in_object_ext _ _ _ He1), (in_object_ext _ _ _ He2).
Qed.

Lemma mstep_new_object o i1 x1 i2 x2 emit l r y : mstep i1 x1 i2 x2 (MergeOther emit l r) →
  emit = Some y ∨ l = Replace y ∨ r = Replace y → in_object o y = in_object o x2.
Proof.
  intros Hs Hy. unfold in_object. destruct (mstep_new _ _ _ _ _ _ _ _ _ _ Hs Hy) as [(o' & a & _ & H2 & H3)|(-> & _)]; [|done].
  by rewrite (in_object_ext _ _ _ H2), (in_object_ext _ _ _ H3).
Qed.

Lemma object_min o x t : ObjectItem.is_tombstone t = true → in_object o t = true → in_object o x = true → cmp_lower (key t) (key x) ≠ Gt.
Proof.
  intros Ht Ho%Z.eqb_eq Hx%Z.eqb_eq. destruct t as [[? [| | | | | | | | |]] [| | | | | | | | | |] q]; try done. cbn in Ho. subst.
  rewrite cmp_lower_code. destruct (key x) as [? [| |? [|]| | | | | | |]]; cbn; by rewrite Z.compare_refl.
Qed.

Section tombstone.
Context (o : Z) (t : ObjectItem) (Ht : ObjectItem.is_tombstone t = true) (Hto : in_object o t = true).
#[local] Abbreviation P := (in_object o).

(** The newest layer with a record of the object has the tombstone only. *)
Definition tombed A : Prop := ∃ n B, proj P A ≡ₚ (n, [t]) :: B ∧ ∀ e, e ∈ B → n < e.1.

Lemma tombed_first i1 x1 s1 i2 x2 s2 A n B : let A0 := (i1, x1 :: s1) :: (i2, x2 :: s2) :: A in
  streams A0 → Forall (entry_le (i1, x1 :: s1)) ((i2, x2 :: s2) :: A) → P x1 = true →
  proj P A0 ≡ₚ (n, [t]) :: B → (∀ e, e ∈ B → n < e.1) → i1 = n ∧ x1 = t ∧ sel P s1 = [].
Proof.
  intros A0 Hst Hle H1 Hp HB. unfold A0 in *. assert ((i1, x1 :: sel P s1) ∈ (n, [t]) :: B) as Hin
    by (rewrite <- Hp, proj_in by done; set_solver).
  apply elem_of_cons in Hin as [[= -> -> ->]|Hin]; [done|]. exfalso. pose proof (HB _ Hin) as Hlt. cbn in Hlt.
  assert ((n, [t]) ∈ proj P ((i2, x2 :: s2) :: A)) as Hn.
  { assert ((n, [t]) ∈ proj P ((i1, x1 :: s1) :: (i2, x2 :: s2) :: A)) as Hn by (rewrite Hp; set_solver).
    rewrite proj_in in Hn by done. apply elem_of_cons in Hn as [[= -> _ _]|Hn]; [lia|done]. }
  apply elem_of_proj in Hn as (_ & s & Hs & Hsel). rewrite Forall_forall in Hle. specialize (Hle _ Hs).
  rewrite streams_cons in Hst. destruct Hst as (_ & _ & _ & [_ Hf]). rewrite Forall_forall in Hf. destruct (Hf _ Hs) as [Hne Hl]. cbn in Hne, Hl.
  destruct s as [|y s]; [done|]. assert (t ∈ y :: s) as Hts by (apply (elem_of_sel P); rewrite <- Hsel; set_solver).
  assert (i1 ≠ n) as Hin1 by lia. pose proof (entry_order normal_form _ _ _ _ _ _ Hin1 Hle) as Hxy.
  pose proof (layer_le _ _ _ _ _ Hl Hts) as Hyt.
  assert (P y = true) as Hy. { apply (in_object_convex normal_form o x1 y t); [done..| |done]. destruct Hxy as [->|[-> _]]; done. }
  rewrite sel_cons_in in Hsel by done. injection Hsel as <- _. destruct Hxy as [Hxy|[_ ?]]; [|lia].
  pose proof (object_min o x1 t Ht Hto H1) as Hmin. rewrite (cmp_opp (TotalCmp := object_lower_total normal_form)), Hxy in Hmin. done.
Qed.

(** What is left of the object in a run. *)
Definition leaves A (out : list ObjectItem) : Prop := (proj P A = [] → sel P out = []) ∧ (tombed A → sel P out = [t]).

Lemma leaves_same A A' E out : proj P A ≡ₚ proj P A' → sel P E = [] → leaves A' out → leaves A (E ++ out).
Proof.
  intros Hpp HE [H1 H2]. unfold leaves, sel in *. rewrite filter_app, HE. split.
  - intros Hnil. apply H1. rewrite Hnil in Hpp. by apply Permutation_nil in Hpp.
  - intros (n & B & Hp' & HB). apply H2. exists n, B. split; [by rewrite <- Hpp|done].
Qed.

Lemma leaves_emit i1 x1 s1 i2 x2 s2 A out : let A0 := (i1, x1 :: s1) :: (i2, x2 :: s2) :: A in
  streams A0 → Forall (entry_le (i1, x1 :: s1)) ((i2, x2 :: s2) :: A) → Forall (entry_le (i2, x2 :: s2)) A →
  cmp_lower (key x1) (key x2) ≠ Gt → mstep i1 x1 i2 x2 EmitLeft →
  leaves (push i1 s1 ((i2, x2 :: s2) :: A)) out → leaves A0 (x1 :: out).
Proof.
  intros A0 Hst Hle1 Hle2 Hc Hs Hl. destruct (P x1) eqn:E1.
  2: { change (x1 :: out) with ([x1] ++ out). eapply leaves_same; [|by rewrite sel_cons_out|done]. unfold A0. by rewrite proj_emit_out. }
  destruct Hl as [Hl _]. rewrite proj_push in Hl. split; unfold A0; [by rewrite proj_in|]. intros (n & B & Hp & HB).
  destruct (tombed_first _ _ _ _ _ _ _ _ _ Hst Hle1 E1 Hp HB) as (<- & -> & Hs1). rewrite sel_cons_in by done. f_equal. apply Hl. rewrite Hs1. cbn [push].
  destruct (P x2) eqn:E2.
  - exfalso. rewrite !proj_in, Hs1 in Hp by done. apply Permutation_cons_inv in Hp.
    assert (i1 < i2) as Hlt by (apply (HB (i2, x2 :: sel P s2)); rewrite <- Hp; set_solver).
    inversion Hs as [? ? ? He1| | | | |_ _ Hem]; [by rewrite (ext_not_tombstone _ _ _ He1) in Ht|].
    apply Z.eqb_eq in Hto, E2. assert (i2 < i1) by (apply Hem; congruence). lia.
  - destruct (only_first normal_form bs P _ _ _ _ _ _ _ (in_object_convex normal_form o) Hst Hle2 Hc E1 E2) as [Hx HA]. cbn [proj]. by rewrite Hx, HA.
Qed.

Lemma leaves_ops i1 x1 s1 i2 x2 s2 A emit l r out : let A0 := (i1, x1 :: s1) :: (i2, x2 :: s2) :: A in
  streams A0 → Forall (entry_le (i1, x1 :: s1)) ((i2, x2 :: s2) :: A) → mstep i1 x1 i2 x2 (MergeOther emit l r) →
  leaves (apply_op r i2 x2 s2 (apply_op l i1 x1 s1 A)) out → leaves A0 (option_list emit ++ out).
Proof.
  intros A0 Hst Hle1 Hs Hl. pose proof (mstep_object _ _ _ _ _ _ _ Hs) as Ho.
  assert (P x1 = P x2) as E12 by (unfold in_object; by rewrite Ho). pose proof (λ y, mstep_new_object o _ _ _ _ _ _ _ y Hs) as Hnew.
  destruct (P x2) eqn:E2.
  - split; unfold A0; [by rewrite proj_in|]. intros (n & B & Hp & HB).
    destruct (tombed_first _ _ _ _ _ _ _ _ _ Hst Hle1 E12 Hp HB) as (<- & -> & Hs1). rewrite !proj_in, Hs1 in Hp by done. apply Permutation_cons_inv in Hp.
    assert (emit = None ∧ l = Keep ∧ r = Discard) as (-> & -> & ->).
    { inversion Hs as [? ? ? He1|? ? ? ? Hu|? ? ? ? Hu| | |]; [by rewrite (ext_not_tombstone _ _ _ He1) in Ht|by rewrite usage_not_tombstone in Ht by by eexists..|done|done]. }
    destruct Hl as [_ Hl]. apply Hl. exists i1, (push i2 (sel P s2) (proj P A)). cbn [apply_op]. rewrite proj_push, proj_in, Hs1 by done. split.
    + destruct (sel P s2); [done|]. constructor.
    + intros e He. destruct (sel P s2) as [|z l'] eqn:Es; cbn [push] in He.
      * apply HB. rewrite <- Hp. set_solver.
      * apply elem_of_cons in He as [->|He]; [|apply HB; rewrite <- Hp; set_solver]. cbn.
        apply (HB (i2, x2 :: z :: l')). rewrite <- Hp. set_solver.
  - eapply leaves_same; [|apply sel_nil_iff; intros y Hy; rewrite Hnew; [done|]|done].
    + apply proj_ops_out; [done..| |]; [destruct l|destruct r]; try done; cbn; rewrite Hnew by auto; done.
    + left. destruct emit; cbn in Hy; set_solver.
Qed.

Lemma scans_tombed A out : scans merge A out → opile A → leaves A out.
Proof.
  intros Hsc Hp. apply (scans_quiet normal_form bs Hbs (λ _, False) leaves); [..|done|by split].
  - split; [done|]. intros (n & B & Hp' & _). cbn in Hp'. by apply Permutation_nil_cons in Hp'.
  - intros A1 A2 out' Hperm. apply (leaves_same _ _ []); [by apply proj_perm|done].
  - intros i x s out' _ Hl. destruct (P x) eqn:E.
    + destruct Hl as [H1 _]. rewrite proj_push in H1. split; [by rewrite proj_in|]. intros (n & B & Hp' & HB). rewrite proj_in in Hp' by done. cbn [proj] in *.
      apply Permutation_singleton_l in Hp'. injection Hp' as <- -> Hs <-. rewrite sel_cons_in by done. rewrite H1; [done|]. by rewrite Hs.
    + change (x :: out') with ([x] ++ out'). eapply leaves_same; [|by rewrite sel_cons_out|done]. by rewrite proj_push, proj_out.
  - intros i1 x1 s1 i2 x2 s2 A1 out' R A0 Hq Hle Hle1 Hle2 Hs. pose proof (quiet_cmp _ _ _ _ _ _ _ _ _ _ Hq Hle) as Hc. destruct Hq as [[Hst _ _] _].
    destruct R; [apply leaves_emit|apply leaves_ops]; try done; by constructor.
Qed.
End tombstone.

(** ** A full scan *)
#[local] Instance object_upper : OrdUpperBound ObjectKey := object_cmp_upper_bound normal_form.

(** Layers whose counts of usage do not overflow. *)
Definition layers_ok (ls : list (list ObjectItem)) : Prop :=
  Forall layer_ok ls ∧ zsum abs_bytes (concat ls) ≤ i64_max ∧ zsum abs_nodes (concat ls) ≤ i64_max.

(** No layer has a tombstone of the object. *)
Definition no_tombstone (o : Z) (ls : list (list ObjectItem)) : Prop :=
  ∀ s x, s ∈ ls → x ∈ s → in_object o x = true → ObjectItem.is_tombstone x = false.

Lemma in_pile_layers x i ls : in_pile x (layer_entries i ls) → ∃ s, s ∈ ls ∧ x ∈ s.
Proof.
  revert i. induction ls as [|l ls IH]; intros i; cbn [layer_entries]; [by intros (? & ? & ?%elem_of_nil & _)|].
  rewrite in_pile_push. intros [Hx|Hx]; [exists l; set_solver|]. destruct (IH _ Hx) as (s & ? & ?). exists s. set_solver.
Qed.

Lemma untombed_layers o ls : no_tombstone o ls → untombed o (layer_entries 0 ls).
Proof. intros Hn x (s & Hs & Hx)%in_pile_layers. by eapply Hn. Qed.

Lemma streams_layers i ls : Forall layer_ok ls → streams (layer_entries i ls).
Proof.
  intros Hl. revert i. induction Hl as [|l ls Hl _ IH]; intros i; cbn [layer_entries]; [split; constructor|].
  apply streams_push; [|done|apply IH]. intros ([j s] & -> & Hin)%list_elem_of_fmap. apply layer_entries_ge in Hin. cbn in Hin. lia.
Qed.

Lemma opile_layers ls : layers_ok ls → opile (layer_entries 0 ls).
Proof. intros (Hl & Hb & Hn). split; [by apply streams_layers|by rewrite pile_sum_layers..]. Qed.

Context (layers : list (Layer ObjectKey ObjectValue)) (ls : list (list ObjectItem)) (fuel : nat).
Context (Hholds : Forall2 holds layers ls) (Hlen : Z.of_nat (length layers) ≤ 65536) (Hok : layers_ok ls).
Context (Hfuel : (pile_size orng (layer_entries 0 ls) + 1 < fuel)%nat).

Lemma object_scan : ∃ out, merge_layers fuel layers merge = Ok out ∧ scans merge (layer_entries 0 ls) out.
Proof.
  pose proof (object_lower_total normal_form) as HT.
  apply (merge_layers_refines merge opile (pile_size orng) (MergeInvariant0 := object_merge_invariant normal_form bs Hbs)); [done..|by apply opile_layers|done].
Qed.

(** C14: Layers of an object store are well-formed when their keys ascend and do
    not overlap, extents are aligned ranges with values that fit them, and the
    records of a project's usage are counts; other records are free. A full scan
    of at most 65536 such layers, whose counts of usage add up to no more than
    [i64] holds, ends without error or panic, and what it yields is well-formed
    in the same sense. *)
Theorem object_merge_wf : ∃ out, merge_layers fuel layers merge = Ok out ∧ layer_ok out.
Proof. destruct object_scan as (out & Hout & Hsc). exists out. split; [done|]. eapply scans_ordered; [done|by apply opile_layers]. Qed.

Lemma scan_extents out o a : scans merge (layer_entries 0 ls) out → no_tombstone o ls →
  seg orng (sel (is_ext o a) out) ∧ ∀ p v, covers orng oval (sel (is_ext o a) out) p v ↔ newest orng oval (sel (is_ext o a) <$> ls) p v.
Proof.
  intros Hsc Hn. destruct (ext_view _ _ Hbs o a _ _ Hsc) as (Hseg & _ & Hv); [by apply opile_layers|by apply untombed_layers|]. split; [done|].
  intros p v. by rewrite Hv, proj_layer_entries, visible_layer_entries.
Qed.

(** C3: For an object of which no layer has a tombstone, the extents that a full
    scan yields for an attribute are disjoint and describe each of its bytes
    (where it is on the device, under which key, and the state or the checksum
    of its block) as the extent of the newest layer that covers it does. There
    are at most 65536 layers, the keys of each ascend and do not overlap,
    extents are aligned ranges with values that fit them, and the counts in the
    records of projects' usage add up to no more than an [i64] holds. *)
Theorem object_merge_extents o a : no_tombstone o ls →
  ∃ out, merge_layers fuel layers merge = Ok out ∧ seg orng (sel (is_ext o a) out) ∧
    ∀ p v, covers orng oval (sel (is_ext o a) out) p v ↔ newest orng oval (sel (is_ext o a) <$> ls) p v.
Proof. intros Hn. destruct object_scan as (out & Hout & Hsc). exists out. split; [done|]. by apply scan_extents. Qed.

(** A record with the key has the value. *)
Definition finds (s : list ObjectItem) (k : ObjectKey) (v : ObjectValue) : Prop :=
  ∃ x, x ∈ s ∧ cmp_lower k (key x) = Eq ∧ value x = v.
Fixpoint newest_record (ls : list (list ObjectItem)) (k : ObjectKey) (v : ObjectValue) : Prop :=
  match ls with
  | [] => False
  | s :: ls => finds s k v ∨ (∀ w, ¬ finds s k w) ∧ newest_record ls k v
  end.

Lemma covers_finds s k v : covers krng kval (sel (is_key normal_form k) s) 0 v ↔ finds s k v.
Proof.
  unfold covers, finds, krng, in_range, kval. setoid_rewrite elem_of_sel. setoid_rewrite Is_true_true. setoid_rewrite is_key_inv. cbn.
  split; [intros (x & [? ?] & _ & ?); eauto|]. intros (x & ? & ? & ?). exists x. auto with lia.
Qed.

Lemma newest_finds l k v : newest krng kval (sel (is_key normal_form k) <$> l) 0 v ↔ newest_record l k v.
Proof. induction l as [|s l IH]; cbn [newest newest_record fmap list_fmap]; [done|]. setoid_rewrite covers_finds. by rewrite IH. Qed.

Lemma scan_records out k : scans merge (layer_entries 0 ls) out → plain k → no_tombstone (object_id k) ls → ∀ v, finds out k v ↔ newest_record ls k v.
Proof.
  intros Hsc Hk Hn. destruct (key_view _ _ Hbs k _ _ Hk Hsc) as (_ & _ & Hv); [by apply opile_layers|by apply untombed_layers|].
  intros v. by rewrite <- covers_finds, Hv, proj_layer_entries, visible_layer_entries, newest_finds.
Qed.

(** For a key that is neither an extent nor a project's usage, a full scan
    yields the record of the newest layer that has one, and no other. *)
Theorem object_merge_records k : plain k → no_tombstone (object_id k) ls →
  ∃ out, merge_layers fuel layers merge = Ok out ∧ ∀ v, finds out k v ↔ newest_record ls k v.
Proof.
  intros Hk Hn. destruct object_scan as (out & Hout & Hsc). exists out. split; [done|]. by apply scan_records.
Qed.

Lemma scan_usage out k : scans merge (layer_entries 0 ls) out → no_tombstone (object_id k) ls →
  zsum (bytes_of k) out = zsum (bytes_of k) (concat ls) ∧ zsum (nodes_of k) out = zsum (nodes_of k) (concat ls).
Proof.
  intros Hsc Hn. pose proof (opile_layers _ Hok) as Hp. pose proof (untombed_layers _ _ Hn) as Hu.
  rewrite <- (pile_sum_layers (bytes_of k) 0), <- (pile_sum_layers (nodes_of k) 0).
  split; (eapply (scans_sum _ (object_id k)); [|done..]); intros i1 x1 i2 x2 emit l r H1 H2 Ht Hs.
  - apply (usage_adds_up (bytes_of k) fst k) with i1 i2; done.
  - apply (usage_adds_up (nodes_of k) snd k) with i1 i2; done.
Qed.
(** The records that a full scan yields for the usage of a project count
    the bytes and the nodes that those of all layers do. *)
Theorem object_merge_usage k : no_tombstone (object_id k) ls →
  ∃ out, merge_layers fuel layers merge = Ok out ∧
    zsum (bytes_of k) out = zsum (bytes_of k) (concat ls) ∧ zsum (nodes_of k) out = zsum (nodes_of k) (concat ls).
Proof. intros Hn. destruct object_scan as (out & Hout & Hsc). exists out. split; [done|]. by apply scan_usage. Qed.

Lemma tombed_layers o t newer l older i : Forall (λ s, sel (in_object o) s = []) newer → sel (in_object o) l = [t] →
  tombed o t (layer_entries i (newer ++ l :: older)).
Proof.
  intros Hn Hl. revert i. induction Hn as [|s newer Hs _ IH]; intros i; cbn [app layer_entries]; unfold tombed in *.
  - rewrite proj_push, Hl. cbn [push]. eexists _, _. split; [done|]. intros [j u] (_ & u' & Hu' & _)%elem_of_proj.
    apply layer_entries_ge in Hu'. cbn. lia.
  - rewrite proj_push, Hs. apply IH.
Qed.

(** A tombstone hides all of its object that older layers have: when the
    newest layer with records of the object has its tombstone only, that is all
    that a full scan yields of the object. *)
Theorem object_merge_tombstone o t newer l older :
  ls = newer ++ l :: older → Forall (λ s, sel (in_object o) s = []) newer → sel (in_object o) l = [t] → ObjectItem.is_tombstone t = true →
  ∃ out, merge_layers fuel layers merge = Ok out ∧ sel (in_object o) out = [t].
Proof.
  intros Hls Hn Hl Ht. destruct object_scan as (out & Hout & Hsc). exists out. split; [done|].
  assert (in_object o t = true) as Ho.
  { assert (t ∈ sel (in_object o) l) as Hin by (rewrite Hl; set_solver). by apply elem_of_sel in Hin as [Hin%Is_true_true _]. }
  apply (scans_tombed o t Ht Ho _ _ Hsc); [by apply opile_layers|]. rewrite Hls. by apply tombed_layers.
Qed.
End spec.

(** ** Layers of an object store: an example

    Three layers with extents that overlap, a directory entry that was changed,
    usage of a project in two layers and an object that was deleted. *)

Definition names_as_they_are (n : list Z) : list Z := n.
#[local] Instance demo_upper : OrdUpperBound ObjectKey := object_upper names_as_they_are.
#[local] Instance demo_lower : OrdLowerBound ObjectKey := object_order names_as_they_are.

Definition demo_layers : list (list ObjectItem) :=
  [ [ mkItem (ObjectKey.object 3) VNone 9;
      mkItem (ObjectKey.extent 5 0 (1024 ..< 2048)) (ObjectValue.extent 8192 0) 8;
      mkItem (ObjectKey.child 6 [97] false) (ObjectValue.child 5 DFile) 7;
      mkItem (ObjectKey.project_usage 9 7) (VBytesAndNodes 10 1) 6 ];
    [ mkItem (ObjectKey.extent 3 0 (0 ..< 512)) (ObjectValue.extent 512 0) 5;
      mkItem (ObjectKey.extent 5 0 (0 ..< 1536)) ObjectValue.deleted_extent 4 ];
    [ mkItem (ObjectKey.object 3) (ObjectValue.file 1 512 Timestamp.zero Timestamp.zero Timestamp.zero Timestamp.zero 0 None) 3;
      mkItem (ObjectKey.extent 5 0 (512 ..< 4096)) (ObjectValue.extent 65536 0) 2;
      mkItem (ObjectKey.child 6 [97] false) (ObjectValue.child 4 DFile) 1;
      mkItem (ObjectKey.project_usage 9 7) (VBytesAndNodes (-4) 2) 0 ] ].

#[local] Abbreviation demo_merge := (merge names_as_they_are).
#[local] Abbreviation demo_fuel := (2 + pile_size orng (layer_entries 0 demo_layers))%nat.
#[local] Abbreviation demo_scan := (merge_layers demo_fuel (layer_of_items <$> demo_layers) demo_merge).

Lemma demo_holds : Forall2 holds (layer_of_items <$> demo_layers) demo_layers.
Proof. repeat constructor. Qed.

(** Decides what a record has to be. *)
Ltac decide_item :=
  cbn; first [exact I | unfold extent_ok; cbn; split_and!; first [apply Z.mod_divide; by vm_compute | by vm_compute]].

Lemma demo_ok : layers_ok names_as_they_are 512 demo_layers.
Proof.
  split; [|by vm_compute]. unfold demo_layers.
  repeat (apply Forall_cons; split); [..|apply Forall_nil; exact I];
    (split; [repeat first [apply SSorted_cons | apply SSorted_nil | apply Forall_cons; split | apply Forall_nil; exact I]; by vm_compute|
             repeat (apply Forall_cons; split); [..|apply Forall_nil; exact I]; decide_item]).
Qed.

Lemma object_merge_wf_witness : ∃ out, demo_scan = Ok out ∧ layer_ok names_as_they_are 512 out.
Proof.
  apply (object_merge_wf names_as_they_are 512 ltac:(lia) _ demo_layers); [exact demo_holds|by vm_compute|exact demo_ok|lia].
Defined.

Lemma demo_no_tombstone o : o ≠ 3 → no_tombstone o demo_layers.
Proof.
  intros Ho s x Hs Hx. assert (Forall (Forall (λ x, implb (ObjectItem.is_tombstone x) (in_object 3 x) = true)) demo_layers) as HF
    by (repeat constructor).
  rewrite Forall_forall in HF. specialize (HF s Hs). rewrite Forall_forall in HF. specialize (HF x Hx). unfold in_object in *.
  destruct (ObjectItem.is_tombstone x); [|done]. cbn in HF. apply Z.eqb_eq in HF. lia.
Qed.

(** Byte 1600 of the file is where the newest layer says, byte 3000 where the
    oldest does. *)
Lemma object_merge_extents_witness :
  ∃ out, demo_scan = Ok out ∧ covers orng oval (sel (is_ext 5 0) out) 1600 (Some (8768, 0, BRaw)) ∧
    covers orng oval (sel (is_ext 5 0) out) 3000 (Some (68024, 0, BRaw)).
Proof.
  destruct (object_merge_extents names_as_they_are 512 ltac:(lia) (layer_of_items <$> demo_layers) demo_layers demo_fuel
    demo_holds ltac:(by vm_compute) demo_ok ltac:(lia) 5 0) as (out & Hout & _ & Hv); [by apply demo_no_tombstone|].
  exists out. split; [exact Hout|]. rewrite !Hv.
  assert (sel (is_ext 5 0) <$> demo_layers =
    [ [mkItem (ObjectKey.extent 5 0 (1024 ..< 2048)) (ObjectValue.extent 8192 0) 8];
      [mkItem (ObjectKey.extent 5 0 (0 ..< 1536)) ObjectValue.deleted_extent 4];
      [mkItem (ObjectKey.extent 5 0 (512 ..< 4096)) (ObjectValue.extent 65536 0) 2] ]) as -> by reflexivity.
  cbn [newest]. setoid_rewrite covers_cons. setoid_rewrite covers_nil. unfold in_range. cbn [orng ObjectKey.extent data key ek_range ExtentKey.new start end_]. split.
  - left. left. split; [lia|reflexivity].
  - right. split; [intros w [[? _]|[]]; lia|]. right. split; [intros w [[? _]|[]]; lia|]. left. left. split; [lia|reflexivity].
Defined.

Lemma object_merge_records_witness :
  ∃ out, demo_scan = Ok out ∧ finds names_as_they_are out (ObjectKey.child 6 [97] false) (ObjectValue.child 5 DFile).
Proof.
  destruct (object_merge_records names_as_they_are 512 ltac:(lia) (layer_of_items <$> demo_layers) demo_layers demo_fuel
    demo_holds ltac:(by vm_compute) demo_ok ltac:(lia) (ObjectKey.child 6 [97] false)) as (out & Hout & Hv); [done|by apply demo_no_tombstone|].
  exists out. split; [exact Hout|]. apply Hv. left. eexists. split; [do 2 right; left|split; reflexivity].
Defined.

Lemma object_merge_usage_witness :
  ∃ out, demo_scan = Ok out ∧ zsum (bytes_of names_as_they_are (ObjectKey.project_usage 9 7)) out = 6 ∧
    zsum (nodes_of names_as_they_are (ObjectKey.project_usage 9 7)) out = 3.
Proof.
  apply (object_merge_usage names_as_they_are 512 ltac:(lia) (layer_of_items <$> demo_layers) demo_layers demo_fuel
    demo_holds ltac:(by vm_compute) demo_ok ltac:(lia) (ObjectKey.project_usage 9 7)). by apply demo_no_tombstone.
Defined.

Lemma object_merge_tombstone_witness :
  ∃ out, demo_scan = Ok out ∧ sel (in_object 3) out = [mkItem (ObjectKey.object 3) VNone 9].
Proof.
  apply (object_merge_tombstone names_as_they_are 512 ltac:(lia) (layer_of_items <$> demo_layers) demo_layers demo_fuel
    demo_holds ltac:(by vm_compute) demo_ok ltac:(lia) 3 _ [] (default [] (head demo_layers)) (tail demo_layers)); [done|constructor|done|done].
Defined.
