(* ===== verification/ObjFind.v ===== *)
(** * Looking up a record in an object store's layers

    A point query for a key that is neither an extent nor usage of a project:
    the layers that are skipped by their filter, or because a newer one has
    the key, do not matter. *)

From S2P Require Import Prelude Round Checksum Extent LsmTypes ObjectRecord Merge MergeProps MergeQuery ObjectKeyOrder.
From S2P Require Import Segments SegMerge ObjMerge ObjMergeProps ObjMergeViews ObjMergeSpec.

#[global] Instance object_point : PointKey ObjectKey := plain.

Section find.
Context (normal_form : list Z → list Z) (bs : Z) (Hbs : 0 < bs).
#[local] Abbreviation cmp_lower := (object_cmp_lower_bound normal_form).
#[local] Abbreviation cmp_upper := (object_cmp_upper_bound normal_form).
#[local] Abbreviation item_ok := (item_ok bs).
#[local] Abbreviation layer_ok := (layer_ok normal_form bs).
#[local] Abbreviation streams := (streams normal_form bs).
#[local] Abbreviation opile := (opile normal_form bs).
#[local] Abbreviation obefore := (obefore normal_form).
#[local] Abbreviation mstep := (mstep normal_form bs).
#[local] Abbreviation merge := (merge normal_form).
#[local] Abbreviation finds := (finds normal_form).
#[local] Abbreviation newest_record := (newest_record normal_form).
#[local] Hint Extern 0 (OrdLowerBound ObjectKey) => exact (object_lower normal_form) : typeclass_instances.
#[local] Hint Extern 0 (OrdUpperBound ObjectKey) => exact (object_upper normal_form) : typeclass_instances.
#[local] Hint Extern 0 (TotalCmp (cmp_lower_bound (K := ObjectKey))) => exact (object_lower_total normal_form) : typeclass_instances.
Implicit Types (A : list (entry ObjectKey ObjectValue)) (x : ObjectItem) (s : list ObjectItem).

Context (k : ObjectKey) (Hk : plain k).

(** Both bounds compare with such a key in the same way. *)
Lemma plain_upper x : cmp_upper (key x) k = cmp_lower (key x) k.
Proof. destruct Hk as [Hk' _]. destruct (not_extents normal_form (key x) k) as (-> & -> & _); [by rewrite Hk', andb_false_r|done]. Qed.

(** Whether an item comes before the key. *)
Definition above_key x : Prop := cmp_lower (key x) k ≠ Lt.

Lemma at_or_above_key x : at_or_above (Included k) x = true ↔ above_key x.
Proof.
  unfold at_or_above, above_key, cmp_upper_bound, object_upper. rewrite plain_upper. by destruct (cmp_lower (key x) k).
Qed.

(** ** The part of a layer from the key on *)
Lemma layer_suffix b (l : list ObjectItem) : layer_ok (b ++ l) → layer_ok l.
Proof. induction b as [|x b IH]; [done|]. intros (_ & _ & H)%layer_ok_cons. by apply IH. Qed.

Lemma from_key_split (l : list ObjectItem) : layer_ok l →
  ∃ b, l = b ++ from_key k l ∧ Forall (λ x, cmp_lower (key x) k = Lt) b ∧ Forall above_key (from_key k l).
Proof.
  unfold from_key. induction l as [|x l IH]; [by exists []|]. intros Hl. pose proof Hl as (Hx & Hb & Hs)%layer_ok_cons. cbn [drop_until].
  destruct (at_or_above (Included k) x) eqn:E.
  - exists []. split_and!; [done|constructor|]. apply at_or_above_key in E. constructor; [done|].
    apply Forall_forall. intros y Hy. destruct (Hb y Hy) as [Hlt _]. intros Hy'. apply E.
    apply (cmp_lower_Lt_le normal_form _ _ _ Hlt). by rewrite Hy'.
  - destruct (IH Hs) as (b & Heq & Hlt & Hab). exists (x :: b). split_and!; [by rewrite <- app_comm_cons, <- Heq| |done]. constructor; [|done].
    destruct (cmp_lower (key x) k) eqn:Ec; [|done|]; exfalso; apply not_true_iff_false in E; apply E, at_or_above_key; unfold above_key; by rewrite Ec.
Qed.

Lemma from_key_ok (l : list ObjectItem) : layer_ok l → layer_ok (from_key k l).
Proof. intros Hl. destruct (from_key_split l Hl) as (b & Heq & _). rewrite Heq in Hl. by eapply layer_suffix. Qed.

Lemma is_key_cmp x : is_key normal_form k x = true ↔ cmp_lower (key x) k = Eq.
Proof.
  rewrite is_key_inv, (cmp_opp (TotalCmp := object_lower_total normal_form)). by destruct (cmp_lower (key x) k).
Qed.

Lemma sel_from_key (l : list ObjectItem) : layer_ok l → sel (is_key normal_form k) (from_key k l) = sel (is_key normal_form k) l.
Proof.
  intros Hl. destruct (from_key_split l Hl) as (b & Heq & Hlt & _). rewrite Heq at 2. unfold sel. rewrite filter_app.
  assert (filter (λ x, is_key normal_form k x) b = []) as ->; [|done]. apply sel_nil_iff. intros x Hx. apply not_true_iff_false. rewrite is_key_cmp.
  rewrite Forall_forall in Hlt. by rewrite Hlt.
Qed.

Lemma starts_at_sel (l : list ObjectItem) : layer_ok l → starts_at k l = false → sel (is_key normal_form k) l = [].
Proof.
  intros Hl Hs. rewrite <- (sel_from_key l Hl). pose proof (from_key_ok l Hl) as Hf. unfold starts_at in Hs. destruct (from_key k l) as [|x s]; [done|].
  apply sel_nil_iff. intros y Hy. apply not_true_iff_false. rewrite is_key_cmp. intros Hyk.
  assert (cmp_lower (key x) k ≠ Gt) as Hx.
  { apply (cmp_le_trans (TotalCmp := object_lower_total normal_form) _ (key y)); [by eapply layer_le|by rewrite Hyk]. }
  unfold cmp_lower_bound, object_lower in Hs. by destruct (cmp_lower (key x) k).
Qed.

Lemma starts_at_key (l : list ObjectItem) : layer_ok l → starts_at k l = true → ∃ x s, from_key k l = x :: s ∧ cmp_lower (key x) k = Eq.
Proof.
  intros Hl Hs. destruct (from_key_split l Hl) as (b & _ & _ & Hab). unfold starts_at in Hs. destruct (from_key k l) as [|x s]; [done|].
  exists x, s. split; [done|]. apply Forall_cons in Hab as [Hx _]. unfold above_key in Hx.
  unfold cmp_lower_bound, object_lower in Hs. by destruct (cmp_lower (key x) k).
Qed.

(** ** Piles at or above the key *)
Definition key_pile A : Prop := opile A ∧ ∀ x, in_pile x A → above_key x.

Lemma ext_side o a x y : is_ext o a x = true → is_ext o a y = true → cmp_lower (key x) k = cmp_lower (key y) k.
Proof.
  intros (e & ->)%is_ext_inv (e' & ->)%is_ext_inv. rewrite !cmp_lower_code, !code_extent. apply seq_cmp_prefix. intros v Hv.
  destruct Hk as [Hk' _]. destruct k as [o' [| |a' [|e0]| | | | | | |]]; cbn in Hv; try discriminate Hv. done.
Qed.

(** What a step makes is on the same side of the key. *)
Lemma mstep_above i1 x1 i2 x2 emit l r y : mstep i1 x1 i2 x2 (MergeOther emit l r) →
  emit = Some y ∨ l = Replace y ∨ r = Replace y → above_key x2 → above_key y.
Proof.
  intros Hs Hy H2. unfold above_key. destruct (mstep_new _ _ _ _ _ _ _ _ _ _ Hs Hy) as [(o & a & _ & He2 & Hey)|(-> & _)]; [|done].
  by rewrite (ext_side o a y x2).
Qed.

Lemma key_pile_invariant : MergeInvariant merge key_pile (pile_size orng).
Proof.
  pose proof (object_merge_invariant normal_form bs Hbs) as HI. split.
  - intros A A' Hp [H1 H2]. split; [by apply (mi_inv_perm merge _ _ Hp)|]. intros x (i & s & Hin & Hx). apply H2. exists i, s. by rewrite Hp.
  - apply (mi_size_perm merge).
  - intros i x s [H1 H2]. destruct (mi_last merge i x s H1) as [H3 H4]. split; [|done]. split; [done|].
    intros y. rewrite in_pile_push. intros Hy. apply H2. rewrite in_pile_cons, elem_of_cons. tauto.
  - intros i1 x1 s1 i2 x2 s2 A [H1 H2] Hle1 Hle2. pose proof (mi_step merge _ _ _ _ _ _ _ H1 Hle1 Hle2) as Hst.
    pose proof Hle1 as [Hle _]%Forall_cons. destruct (opile_merge _ _ Hbs _ _ _ _ _ _ _ H1 Hle) as (R & HR & Hs). rewrite HR in *.
    assert (above_key x1 ∧ above_key x2) as [Hx1 Hx2] by (split; apply H2; rewrite !in_pile_cons; set_solver).
    destruct R as [|emit l r]; destruct Hst as [H3 H4]; (split; [|done]); (split; [done|]); intros y.
    + rewrite in_pile_push. intros Hy. apply H2. rewrite in_pile_cons, elem_of_cons. tauto.
    + pose proof (λ z Hz, mstep_above _ _ _ _ _ _ _ z Hs Hz Hx2) as Hnew. rewrite !in_pile_op. intros [Hy|[Hy|[Hy|[Hy|Hy]]]].
      * destruct r; cbn in Hy; [by subst|done|subst; apply Hnew; auto].
      * apply H2. rewrite !in_pile_cons. set_solver.
      * destruct l; cbn in Hy; [by subst|done|subst; apply Hnew; auto].
      * apply H2. rewrite !in_pile_cons. set_solver.
      * apply H2. rewrite !in_pile_cons. auto.
Qed.

Lemma key_pile_yields A x : key_pile A → yields merge A x → at_or_above (Included k) x = true.
Proof.
  intros [H1 H2] Hy. apply at_or_above_key. destruct Hy as [i x s Hin|i1 x1 s1 i2 x2 s2 A2 e l r Hp Hle1 Hle2 Hm].
  - apply H2. exists i, (x :: s). set_solver.
  - apply (opile_perm _ _ _ _ Hp) in H1. apply Forall_cons in Hle1 as [Hle _]. destruct (opile_merge _ _ Hbs _ _ _ _ _ _ _ H1 Hle) as (R & HR & Hs).
    rewrite Hm in HR. injection HR as <-. eapply mstep_above; [done|auto|]. apply H2. exists i2, (x2 :: s2). rewrite Hp. set_solver.
Qed.

(** ** The layers that are consulted *)
#[local] Abbreviation holding := (is_key normal_form k).
#[local] Abbreviation consulted := (consulted k).

(** The record of the newest layer with the key. *)
Fixpoint record_of (ls : list (list ObjectItem)) : option ObjectValue :=
  match ls with
  | [] => None
  | s :: ls => match sel holding s with x :: _ => Some (value x) | [] => record_of ls end
  end.

Lemma zsum_suffix (f : ObjectItem → Z) s : layer_ok s → (∀ x, 0 ≤ f x) → zsum f (from_key k s) ≤ zsum f s.
Proof.
  intros Hs Hf. destruct (from_key_split s Hs) as (b & Heq & _). rewrite Heq at 2. rewrite zsum_app. pose proof (zsum_nonneg f b Hf). lia.
Qed.

Lemma size_suffix s : layer_ok s → (seg_size orng (from_key k s) ≤ seg_size orng s)%nat.
Proof.
  intros Hs. destruct (from_key_split s Hs) as (b & Heq & _). rewrite Heq at 2. clear. induction b as [|x b IH]; [done|]. cbn [app]. rewrite seg_size_cons. lia.
Qed.

(** They are at or above the key, and no more than what the layers hold. *)
Record part_of (i : Z) (ls : list (list ObjectItem)) A : Prop := {
  pa_streams : streams A;
  pa_above : ∀ x, in_pile x A → above_key x;
  pa_index : ∀ e, e ∈ A → i ≤ e.1;
  pa_sum : ∀ f : ObjectItem → Z, (∀ x, 0 ≤ f x) → pile_sum f A ≤ zsum f (concat ls);
  pa_size : (pile_size orng A ≤ pile_size orng (layer_entries i ls))%nat;
}.

Lemma part_of_nil i ls : part_of i ls [].
Proof.
  split; [split; constructor|by intros x (? & ? & ?%elem_of_nil & _)|by intros e ?%elem_of_nil| |cbn; lia].
  intros f Hf. cbn. by apply zsum_nonneg.
Qed.

Lemma part_of_skip i s ls A : part_of (i + 1) ls A → part_of i (s :: ls) A.
Proof.
  intros [H1 H2 H3 H4 H5]. split; [done|done| | |].
  - intros e He. specialize (H3 e He). lia.
  - intros f Hf. cbn [concat]. rewrite zsum_app. pose proof (zsum_nonneg f s Hf). specialize (H4 f Hf). lia.
  - cbn [layer_entries]. rewrite pile_size_push. lia.
Qed.

Lemma part_of_push i s ls A : layer_ok s → part_of (i + 1) ls A → part_of i (s :: ls) (push i (from_key k s) A).
Proof.
  intros Hs [H1 H2 H3 H4 H5]. split.
  - apply streams_push; [|by apply from_key_ok|done]. intros (e & -> & He)%list_elem_of_fmap. specialize (H3 e He). lia.
  - intros x. rewrite in_pile_push. intros [Hx|Hx]; [|by apply H2]. destruct (from_key_split s Hs) as (_ & _ & _ & Hf). rewrite Forall_forall in Hf. by apply Hf.
  - intros e. destruct (from_key k s); cbn [push]; [intros He; specialize (H3 e He); lia|]. intros [->|He]%elem_of_cons; [cbn; lia|]. specialize (H3 e He). lia.
  - intros f Hf. rewrite pile_sum_push. cbn [concat]. rewrite zsum_app. pose proof (zsum_suffix f s Hs Hf). specialize (H4 f Hf). lia.
  - cbn [layer_entries]. rewrite !pile_size_push. pose proof (size_suffix s Hs). lia.
Qed.

Lemma consulted_part layers ls : Forall2 serves layers ls → Forall layer_ok ls → ∀ i, part_of i ls (consulted i layers ls).
Proof.
  induction 1 as [|layer s layers ls Hl HF IH]; intros Hok i; [apply part_of_nil|]. apply Forall_cons in Hok as [Hs Hok]. cbn [MergeQuery.consulted].
  destruct (let_through k layer); [|by apply part_of_skip, IH]. apply part_of_push; [done|].
  destruct (merge_type k); [by apply IH|]. destruct (starts_at k s); [apply part_of_nil|by apply IH].
Qed.

Lemma consulted_pile layers ls : Forall2 serves layers ls → layers_ok normal_form bs ls → key_pile (consulted 0 layers ls).
Proof.
  intros HF (Hl & Hb & Hn). destruct (consulted_part layers ls HF Hl 0) as [H1 H2 _ H4 _]. split; [|done].
  split; [done|etransitivity; [apply H4|done]; apply abs_nonneg..].
Qed.

(** Nothing on the pile has the key, or the oldest layer consulted starts with
    it. *)
Definition absent A : Prop := ∀ x, in_pile x A → holding x = false.
Definition present A x : Prop :=
  ∃ j s B, A ≡ₚ (j, x :: s) :: B ∧ holding x = true ∧ absent B ∧ ∀ e, e ∈ B → e.1 < j.

Lemma starts_at_first s : layer_ok s → starts_at k s = true → ∃ x u, from_key k s = x :: u ∧ holding x = true ∧ ∃ v, sel holding s = x :: v.
Proof.
  intros Hs Hst. destruct (starts_at_key s Hs Hst) as (x & u & Heq & Hx). exists x, u. assert (holding x = true) as Hh by by apply is_key_cmp.
  split_and!; [done..|]. exists (sel holding u). rewrite <- (sel_from_key s Hs), Heq. by rewrite sel_cons_in.
Qed.

Lemma absent_push i s A : layer_ok s → sel holding s = [] → absent A → absent (push i (from_key k s) A).
Proof.
  intros Hs Hn HA x. rewrite in_pile_push. intros [Hx|Hx]; [|by apply HA]. rewrite <- (sel_from_key s Hs) in Hn. by apply (sel_nil_iff holding (from_key k s)).
Qed.

Lemma filter_absent layer s : serves layer s → let_through k layer = false → sel holding s = [].
Proof.
  intros [_ Hf _] Hm. apply sel_nil_iff. intros x Hx. apply not_true_iff_false. intros Hh%is_key_cmp. unfold let_through in Hm. rewrite (Hf x k) in Hm; [done|done|done|].
  unfold cmp_upper_bound, object_upper. by rewrite plain_upper.
Qed.

Lemma consulted_record layers ls : merge_type k = OptimizedMerge → Forall2 serves layers ls → Forall layer_ok ls → ∀ i,
  match record_of ls with
  | Some v => ∃ x, present (consulted i layers ls) x ∧ value x = v
  | None => absent (consulted i layers ls)
  end.
Proof.
  intros Hm. induction 1 as [|layer s layers ls Hl HF IH]; intros Hok i; [by intros x (? & ? & ?%elem_of_nil & _)|].
  pose proof (consulted_part _ _ HF (proj2 (proj1 (Forall_cons _ _ _) Hok)) (i + 1)) as Hpart.
  apply Forall_cons in Hok as [Hs Hok]. specialize (IH Hok (i + 1)). cbn [MergeQuery.consulted record_of]. rewrite Hm.
  destruct (let_through k layer) eqn:Ek; [|by rewrite (filter_absent _ _ Hl Ek)].
  destruct (starts_at k s) eqn:Es.
  - destruct (starts_at_first s Hs Es) as (x & u & Heq & Hh & v & ->). exists x. split; [|done]. rewrite Heq. exists i, u, []. split_and!; [done|done|..].
    + by intros y (? & ? & ?%elem_of_nil & _).
    + by intros e ?%elem_of_nil.
  - pose proof (starts_at_sel s Hs Es) as Hn. rewrite Hn. destruct (record_of ls) as [v|]; [|by apply absent_push].
    destruct IH as (x & (j & u & B & Hp & Hh & Ha & Hlt) & Hv). exists x. split; [|done]. exists j, u, (push i (from_key k s) B). split_and!; [|done|by apply absent_push|].
    + destruct (from_key k s); cbn [push]; [done|]. rewrite Hp. constructor.
    + assert (i < j) as Hij. { pose proof (pa_index _ _ _ Hpart (j, x :: u)) as Hj. rewrite Hp in Hj. cbn in Hj. specialize (Hj ltac:(set_solver)). lia. }
      intros e. destruct (from_key k s); cbn [push]; [apply Hlt|]. intros [->|He]%elem_of_cons; [done|by apply Hlt].
Qed.

(** ** What the merge yields first *)
Lemma holding_min x y : holding x = true → above_key y → holding y = false → cmp_lower (key x) (key y) = Lt.
Proof.
  intros Hx%is_key_inv Ha Hy. assert (cmp_lower k (key y) = Lt) as Hlt.
  { assert (cmp_lower k (key y) ≠ Eq) as Hne by (intros H; apply is_key_inv in H; congruence). unfold above_key in Ha.
    rewrite (cmp_opp (TotalCmp := object_lower_total normal_form)) in Ha. by destruct (cmp_lower k (key y)). }
  apply cmp_lower_Eq in Hx. rewrite cmp_lower_code in *. by rewrite <- Hx.
Qed.

(** The item with the key is the least, and no other merges with it. *)
Lemma present_first A x i1 x1 s1 i2 x2 s2 A2 : key_pile A → present A x → A ≡ₚ (i1, x1 :: s1) :: (i2, x2 :: s2) :: A2 →
  Forall (entry_le (i1, x1 :: s1)) ((i2, x2 :: s2) :: A2) → x1 = x ∧ i2 < i1 ∧ cmp_lower (key x1) (key x2) = Lt.
Proof.
  intros [Hop Hab] (j & s & B & Hp & Hx & HB & Hlt) Hp' Hle. apply (opile_perm _ _ _ _ Hp') in Hop.
  assert (∀ y, in_pile y B → cmp_lower (key x) (key y) = Lt) as Hmin.
  { intros y Hy. apply holding_min; [done| |by apply HB]. apply Hab. destruct Hy as (i & u & Hin & Hy). exists i, u. rewrite Hp. set_solver. }
  assert ((i1, x1 :: s1) ∈ (j, x :: s) :: B) as Hin by (rewrite <- Hp, Hp'; set_solver). apply elem_of_cons in Hin as [[= -> -> ->]|Hin].
  - split; [done|]. rewrite Hp' in Hp. apply Permutation_cons_inv in Hp. assert ((i2, x2 :: s2) ∈ B) as H2 by (rewrite <- Hp; set_solver).
    split; [apply (Hlt _ H2)|]. apply Hmin. exists i2, (x2 :: s2). set_solver.
  - exfalso. assert (cmp_lower (key x) (key x1) = Lt) as Hc by (apply Hmin; exists i1, (x1 :: s1); set_solver).
    assert ((j, x :: s) ∈ (i1, x1 :: s1) :: (i2, x2 :: s2) :: A2) as Hj by (rewrite <- Hp', Hp; set_solver).
    apply elem_of_cons in Hj as [[= -> -> ->]|Hj]; [by rewrite cmp_lower_refl in Hc|].
    rewrite Forall_forall in Hle. specialize (Hle _ Hj). unfold entry_le in Hle. cbn in Hle. unfold cmp_lower_bound, object_lower in Hle.
    rewrite (cmp_opp (TotalCmp := object_lower_total normal_form)), Hc in Hle. done.
Qed.

Lemma scans_present A out x : key_pile A → present A x → scans merge A out → head out = Some x.
Proof.
  intros Hk' Hx Hsc. destruct Hsc as [|A i y s out Hp Hsc|A i1 x1 s1 i2 x2 s2 A2 out Hp H1 H2 Hm Hsc|A i1 x1 s1 i2 x2 s2 A2 emit l r out Hp H1 H2 Hm Hsc].
  - destruct Hx as (j & s & B & Hp & _). by apply Permutation_nil_cons in Hp.
  - destruct Hx as (j & u & B & Hp' & _). rewrite Hp in Hp'. apply Permutation_singleton_l in Hp'. by injection Hp' as -> -> _ _.
  - by destruct (present_first _ _ _ _ _ _ _ _ _ Hk' Hx Hp H1) as (-> & _).
  - exfalso. destruct (present_first _ _ _ _ _ _ _ _ _ Hk' Hx Hp H1) as (-> & Hi & Hc). destruct Hk' as [Hop _], Hx as (_ & _ & _ & _ & Hx & _).
    apply (opile_perm _ _ _ _ Hp) in Hop. apply Forall_cons in H1 as [Hle _]. destruct (opile_merge _ _ Hbs _ _ _ _ _ _ _ Hop Hle) as (R & HR & Hs).
    rewrite Hm in HR. injection HR as <-. inversion Hs as [o a R He1 He2 HR|b1 n1 b2 n2 Hu1|b1 n1 b2 n2 Hu1|Ht Ho Hlt|Hk' Hne Hnu Hlt|]; subst; try lia.
    + by rewrite (plain_not_ext normal_form k x o a) in Hx.
    + by rewrite (plain_not_usage normal_form k x) in Hx.
    + by rewrite (plain_not_usage normal_form k x) in Hx.
Qed.

Lemma scans_absent A out x : key_pile A → absent A → scans merge A out → head out = Some x → holding x = false.
Proof.
  intros [Hop Hab] Ha Hsc Hx. assert (untombed (object_id k) A) as Hu.
  { intros y Hy Ho. apply not_true_iff_false. intros Ht. assert (holding y = true) as Hh; [|by rewrite Ha in Hh].
    apply is_key_cmp. pose proof (Hab y Hy) as Hy'. unfold above_key in Hy'.
    pose proof (object_min normal_form (object_id k) (mkItem k VNone 0) y Ht Ho ltac:(unfold in_object; cbn; lia)) as Hmin. cbn in Hmin. by destruct (cmp_lower (key y) k). }
  destruct (key_view _ _ Hbs k _ _ Hk Hsc Hop Hu) as (_ & _ & Hv). apply not_true_iff_false. intros Hh.
  assert (covers krng kval (sel holding out) 0 (value x)) as Hc%Hv.
  { exists x. split_and!; [|unfold krng, in_range; cbn; lia|done]. apply elem_of_sel. split; [by apply Is_true_true|]. destruct out as [|y out]; [done|]. injection Hx as ->. set_solver. }
  destruct Hc as (i & (s & Hs & y & Hy & _) & _). apply elem_of_proj in Hs as (_ & u & Hu' & ->). apply elem_of_sel in Hy as [Hy%Is_true_true Hin].
  rewrite Ha in Hy; [done|]. by exists i, u.
Qed.

(** ** The search *)
Lemma object_query_point layers ls fuel c : merge_type k = OptimizedMerge → Forall2 serves layers ls → Z.of_nat (length layers) ≤ 65536 →
  layers_ok normal_form bs ls → (pile_size orng (layer_entries 0 ls) < fuel)%nat →
  ∃ it c' o, Merger.query is_range_key fuel (Merger.new layers merge c) (Point k) = Ok (it, c') ∧ MergerIterator.get it = Ok o ∧
    match record_of ls with
    | Some v => ∃ x, o = Some x ∧ holding x = true ∧ value x = v
    | None => ∀ x, o = Some x → holding x = false
    end.
Proof.
  intros Hm HF Hlen Hok Hfuel. pose proof (consulted_pile _ _ HF Hok) as Hkp. pose proof (proj1 Hok) as Hl.
  pose proof (pa_size _ _ _ (consulted_part _ _ HF Hl 0)) as Hsz.
  destruct (query_point k merge key_pile (pile_size orng) (MergeInvariant0 := key_pile_invariant) is_range_key layers ls c fuel)
    as (it & c' & out & Hq & Hg & Hsc); [done|done| |done|apply key_pile_yields| |done|lia|].
  { eapply Forall2_Forall_l; [exact HF|]. apply Forall_true. intros layer s [_ _ Ha]. by apply Ha. }
  { intros A [[[_ Hne] _ _] _]. eapply Forall_impl; [exact Hne|]. by intros e [? _]. }
  exists it, c', (head out). split_and!; [done..|]. pose proof (consulted_record layers ls Hm HF Hl 0) as Hr. destruct (record_of ls) as [v|].
  - destruct Hr as (x & Hx & Hv). exists x. split_and!; [by eapply scans_present| |done]. by destruct Hx as (_ & _ & _ & _ & ? & _).
  - intros x. by eapply scans_absent.
Qed.
End find.
