(* ===== verification/SkipList.v ===== *)
(** * The mutable layer: a skip list

    [fxfs/src/lsm_tree/skip_list_layer.rs], at the level of its pointers.  A
    node is a box with an item and one [next] pointer per level; the heap of
    boxes is a finite map from addresses, an address that has been freed is
    absent from it, and following such an address is a panic here where the
    code would have undefined behaviour.  Addresses are not reused.

    The writer prepares a chain of new nodes beside the list and splices it in
    with [commit]; erased nodes stay allocated until the readers that may
    still stand on them are gone, which the epochs keep track of. *)

From S2P Require Import Prelude BTree LsmTypes Merge.

(** [*mut SkipListNode], null being [None]. *)
Abbreviation ptr := (option Z).

Record SkipListNode (K V : Type) : Type := mkNode {
  node_item : Item K V;
  node_pointers : list ptr;
}.
Arguments mkNode {K V} _ _.
Arguments node_item {K V} _.
Arguments node_pointers {K V} _.

Record EpochEraseList : Set := mkEraseList {
  el_count : Z;
  el_start : Z;
  el_end : ptr;
}.

(** [SkipListLayer] with its [Inner]; [nodes] is the heap its boxes live in and
    [fresh] the next address the allocator hands out.  The write lock is held
    for as long as a mutable iterator lives. *)
Record SkipListLayer (K V : Type) : Type := mkSL {
  sl_pointers : list ptr;
  nodes : gmap Z (SkipListNode K V);
  fresh : Z;
  allocated : Z;
  epoch : Z;
  current_count : Z;
  erase_lists : gmap Z EpochEraseList;
  sl_item_count : Z;
}.
Arguments mkSL {K V} _ _ _ _ _ _ _ _.
Arguments sl_pointers {K V} _.
Arguments nodes {K V} _.
Arguments fresh {K V} _.
Arguments allocated {K V} _.
Arguments epoch {K V} _.
Arguments current_count {K V} _.
Arguments erase_lists {K V} _.
Arguments sl_item_count {K V} _.

(** A [&PointerList]: the head's or a node's. *)
Inductive plref : Set :=
| PHead
| PNode (l : Z).

#[global] Instance plref_eq_dec : EqDecision plref.
Proof. solve_decision. Defined.

(** ** [PointerList] *)
Module PointerList.
Definition new (count : nat) : list ptr := replicate count None.

Section ops.
Context {K V : Type}.
Implicit Types sl : SkipListLayer K V.

(** Dereferences a [&PointerList]. *)
Definition deref sl (p : plref) : res (list ptr) :=
  match p with
  | PHead => Ok (sl_pointers sl)
  | PNode l => n ← unwrap (nodes sl !! l); Ok (node_pointers n)
  end.

Definition get sl (p : plref) (index : nat) : res ptr :=
  ps ← deref sl p; unwrap (ps !! index).

Definition set sl (p : plref) (index : nat) (node : ptr) : res (SkipListLayer K V) :=
  ps ← deref sl p;
  _ ← unwrap (ps !! index);
  let ps' := <[index := node]> ps in
  match p with
  | PHead =>
      Ok (mkSL ps' (nodes sl) (fresh sl) (allocated sl) (epoch sl) (current_count sl)
            (erase_lists sl) (sl_item_count sl))
  | PNode l =>
      Ok (mkSL (sl_pointers sl) (alter (λ n, mkNode (node_item n) ps') l (nodes sl)) (fresh sl)
            (allocated sl) (epoch sl) (current_count sl) (erase_lists sl) (sl_item_count sl))
  end.
End ops.
End PointerList.

(** ** Memory *)
Module SkipListLayer.
Section ops.
Context {K V : Type}.
Implicit Types sl : SkipListLayer K V.

(** [levels] is [(max_item_count as f32).log2() as usize + 1]. *)
Definition new (levels : nat) : SkipListLayer K V :=
  mkSL (PointerList.new levels) ∅ 0 0 0 0 ∅ 0.

Definition len sl : Z := sl_item_count sl.

Definition alloc_node sl (item : Item K V) (pointer_count : nat) : Z * SkipListLayer K V :=
  (fresh sl,
   mkSL (sl_pointers sl) (<[fresh sl := mkNode item (PointerList.new pointer_count)]> (nodes sl))
     (fresh sl + 1) (u32_wrapping_add (allocated sl) 1) (epoch sl) (current_count sl)
     (erase_lists sl) (sl_item_count sl)).

(** Returns the next node of the chain. *)
Definition free_node sl (l : Z) : res (ptr * SkipListLayer K V) :=
  n ← unwrap (nodes sl !! l);
  next ← unwrap (node_pointers n !! 0%nat);
  Ok (next,
      mkSL (sl_pointers sl) (delete l (nodes sl)) (fresh sl)
        ((allocated sl - 1) `mod` u32_modulus) (epoch sl) (current_count sl)
        (erase_lists sl) (sl_item_count sl)).

Definition node sl (l : Z) : res (SkipListNode K V) := unwrap (nodes sl !! l).
End ops.
End SkipListLayer.

Module Inner.
Section ops.
Context {K V : Type}.
Implicit Types sl : SkipListLayer K V.

Fixpoint free_erase_list_loop (fuel : nat) sl (maybe_node list_end : ptr)
    : res (SkipListLayer K V) :=
  match fuel with
  | O => NoFuel
  | S fuel =>
      match maybe_node with
      | Some n =>
          if decide (Some n ≠ list_end) then
            '(next, sl) ← SkipListLayer.free_node sl n;
            free_erase_list_loop fuel sl next list_end
          else Ok sl
      | None => Ok sl
      end
  end.

Definition free_erase_list sl (list_start list_end : ptr) : res (SkipListLayer K V) :=
  free_erase_list_loop (S (size (nodes sl))) sl list_start list_end.
End ops.
End Inner.

(** [Drop for SkipListLayer]. *)
Fixpoint drop_loop {K V} (fuel : nat) (sl : SkipListLayer K V) (next : ptr)
    : res (SkipListLayer K V) :=
  match fuel with
  | O => NoFuel
  | S fuel =>
      match next with
      | Some n => '(next, sl) ← SkipListLayer.free_node sl n; drop_loop fuel sl next
      | None => Ok sl
      end
  end.
Definition drop_layer {K V} (sl : SkipListLayer K V) : res (SkipListLayer K V) :=
  next ← PointerList.get sl PHead 0;
  sl ← drop_loop (S (size (nodes sl))) sl next;
  _ ← rassert (allocated sl =? 0);
  Ok sl.

Definition with_inner {K V} (sl : SkipListLayer K V) (epoch current_count : Z)
    (erase_lists : gmap Z EpochEraseList) (item_count : Z) : SkipListLayer K V :=
  mkSL (sl_pointers sl) (nodes sl) (fresh sl) (allocated sl) epoch current_count erase_lists item_count.

(** ** Readers *)
Record SkipListLayerIter : Set := mkReader {
  reader_epoch : Z;
  reader_node : ptr;
}.

Definition u16_max : Z := 65535.

Module SkipListLayerIter.
Section ops.
Context {K V : Type} `{OrdUpperBound K}.
Implicit Types sl : SkipListLayer K V.

(** The inner loop of [new]: along one level until a key that is not below
    the search key. *)
Fixpoint seek_level (fuel : nat) sl (included : bool) (key : K) (index : nat)
    (last_pointers : plref) : res (plref * ptr) :=
  match fuel with
  | O => NoFuel
  | S fuel =>
      next ← PointerList.get sl last_pointers index;
      match next with
      | Some l =>
          n ← SkipListLayer.node sl l;
          match cmp_upper_bound (LsmTypes.key (node_item n)) key with
          | Eq =>
              if included then Ok (last_pointers, Some l)
              else seek_level fuel sl included key index (PNode l)
          | Gt => Ok (last_pointers, Some l)
          | Lt => seek_level fuel sl included key index (PNode l)
          end
      | None => Ok (last_pointers, None)
      end
  end.

Definition seek_levels sl (included : bool) (key : K) : res (plref * ptr) :=
  foldm (λ s index, seek_level (S (size (nodes sl))) sl included key index s.1)
    (PHead, None) (reverse (seq 0 (length (sl_pointers sl)))).

Definition new sl (bound : Bound K) : res (SkipListLayerIter * SkipListLayer K V) :=
  _ ← rassert (current_count sl + 1 <=? u16_max);
  let sl := with_inner sl (epoch sl) (current_count sl + 1) (erase_lists sl) (sl_item_count sl) in
  match bound with
  | Unbounded => node ← PointerList.get sl PHead 0; Ok (mkReader (epoch sl) node, sl)
  | Included key => '(_, node) ← seek_levels sl true key; Ok (mkReader (epoch sl) node, sl)
  | Excluded key => '(_, node) ← seek_levels sl false key; Ok (mkReader (epoch sl) node, sl)
  end.

(** The [while let] of [drop]: frees the lists that no reader holds back. *)
Fixpoint free_lists (fuel : nat) sl : res (SkipListLayer K V) :=
  match fuel with
  | O => NoFuel
  | S fuel =>
      match bt_first (erase_lists sl) with
      | Some (e, el) =>
          if el_count el =? 0 then
            let sl := with_inner sl (epoch sl) (current_count sl) (delete e (erase_lists sl))
                        (sl_item_count sl) in
            sl ← Inner.free_erase_list sl (Some (el_start el)) (el_end el);
            free_lists fuel sl
          else Ok sl
      | None => Ok sl
      end
  end.

Definition drop sl (it : SkipListLayerIter) : res (SkipListLayer K V) :=
  if reader_epoch it =? epoch sl then
    _ ← rassert (1 <=? current_count sl);
    Ok (with_inner sl (epoch sl) (current_count sl - 1) (erase_lists sl) (sl_item_count sl))
  else
    match erase_lists sl !! reader_epoch it with
    | Some el =>
        _ ← rassert (1 <=? el_count el);
        let el := mkEraseList (el_count el - 1) (el_start el) (el_end el) in
        let sl := with_inner sl (epoch sl) (current_count sl)
                    (<[reader_epoch it := el]> (erase_lists sl)) (sl_item_count sl) in
        if el_count el =? 0 then free_lists (S (size (erase_lists sl))) sl else Ok sl
    | None => Ok sl
    end.

Definition advance sl (it : SkipListLayerIter) : res SkipListLayerIter :=
  match reader_node it with
  | None => Ok it
  | Some l => next ← PointerList.get sl (PNode l) 0; Ok (mkReader (reader_epoch it) next)
  end.

Definition get sl (it : SkipListLayerIter) : res (option (Item K V)) :=
  match reader_node it with
  | None => Ok None
  | Some l => n ← SkipListLayer.node sl l; Ok (Some (node_item n))
  end.
End ops.
End SkipListLayerIter.

(** ** The writer *)
Record SkipListLayerIterMut (K V : Type) : Type := mkIterMut {
  im_list : SkipListLayer K V;
  prev_pointers : list plref;
  insertion_point : option (list plref);
  insertion_nodes : list ptr;
  item_delta : Z;
}.
Arguments mkIterMut {K V} _ _ _ _ _.
Arguments im_list {K V} _.
Arguments prev_pointers {K V} _.
Arguments insertion_point {K V} _.
Arguments insertion_nodes {K V} _.
Arguments item_delta {K V} _.

Module SkipListLayerIterMut.
Section ops.
Context {K V : Type} `{OrdUpperBound K}.
(** [(rng.gen_range(0..2u32.pow(max_pointers) - 1) as f32).log2() as usize]
    for the node that is allocated at an address. *)
Context (gen_log2 : Z → nat).
Implicit Types (sl : SkipListLayer K V) (it : SkipListLayerIterMut K V).

(** The [while let] of [new]. *)
Fixpoint new_level (fuel : nat) sl (key : K) (index : nat) (pointers : list plref)
    : res (list plref) :=
  match fuel with
  | O => NoFuel
  | S fuel =>
      p ← unwrap (pointers !! index);
      next ← PointerList.get sl p index;
      match next with
      | Some l =>
          n ← SkipListLayer.node sl l;
          match cmp_upper_bound (LsmTypes.key (node_item n)) key with
          | Lt => new_level fuel sl key index (<[index := PNode l]> pointers)
          | _ => Ok pointers
          end
      | None => Ok pointers
      end
  end.

Definition new sl (bound : Bound K) : res (SkipListLayerIterMut K V) :=
  let len := length (sl_pointers sl) in
  prev ←
    match bound with
    | Unbounded => Ok (replicate len PHead)
    | Included key =>
        foldm (λ pointers index,
          pointers ← new_level (S (size (nodes sl))) sl key index pointers;
          if (0 <? Z.of_nat index) then
            p ← unwrap (pointers !! index); Ok (<[(index - 1)%nat := p]> pointers)
          else Ok pointers) (replicate len PHead) (reverse (seq 0 len))
    | Excluded _ => Panic
    end;
  Ok (mkIterMut sl prev None (PointerList.new len) 0).

Definition get it : res (option (Item K V)) :=
  p ← unwrap (prev_pointers it !! 0%nat);
  next ← PointerList.get (im_list it) p 0;
  match next with
  | Some l => n ← SkipListLayer.node (im_list it) l; Ok (Some (node_item n))
  | None => Ok None
  end.

Definition take_insertion_point it : option (list plref) :=
  match insertion_point it with
  | None => Some (prev_pointers it)
  | Some ip => Some ip
  end.

(** The body of the loop of [insert] at level [i]. *)
Definition insert_level (node : Z) it (i : nat) : res (SkipListLayerIterMut K V) :=
  pointers ← unwrap (prev_pointers it !! i);
  next ← PointerList.get (im_list it) pointers i;
  sl ← PointerList.set (im_list it) (PNode node) i next;
  inode ← unwrap (insertion_nodes it !! i);
  '(sl, inodes) ←
    match inode with
    | None => Ok (sl, <[i := Some node]> (insertion_nodes it))
    | Some _ => sl ← PointerList.set sl pointers i (Some node); Ok (sl, insertion_nodes it)
    end;
  Ok (mkIterMut sl (<[i := PNode node]> (prev_pointers it)) (insertion_point it) inodes
        (item_delta it)).

Definition insert it (item : Item K V) : res (SkipListLayerIterMut K V) :=
  let max_pointers := length (sl_pointers (im_list it)) in
  let pointer_count :=
    (max_pointers - Nat.min (gen_log2 (fresh (im_list it))) (max_pointers - 1))%nat in
  let '(node, sl) := SkipListLayer.alloc_node (im_list it) item pointer_count in
  let it := mkIterMut sl (prev_pointers it) (take_insertion_point it) (insertion_nodes it)
              (item_delta it) in
  it ← foldm (insert_level node) it (seq 0 pointer_count);
  Ok (mkIterMut (im_list it) (prev_pointers it) (insertion_point it) (insertion_nodes it)
        (item_delta it + 1)).

(** The bottom level in [erase]: the iterator moves on, or, within the
    insertion chain, the node is unlinked. *)
Definition erase_bottom it (p0 : plref) (next : Z) (inode : ptr)
    : res (list plref * SkipListLayer K V) :=
  match inode with
  | None => Ok (<[0%nat := PNode next]> (prev_pointers it), im_list it)
  | Some _ =>
      q ← PointerList.get (im_list it) (PNode next) 0;
      sl ← PointerList.set (im_list it) p0 0 q;
      Ok (prev_pointers it, sl)
  end.

(** The loop of [erase] over the levels above the bottom one. *)
Definition unlink_level (next : Z) (pointers : list plref) sl (i : nat)
    : res (SkipListLayer K V) :=
  p ← unwrap (pointers !! i);
  q ← PointerList.get sl (PNode next) i;
  PointerList.set sl p i q.

Definition erase it : res (SkipListLayerIterMut K V) :=
  p0 ← unwrap (prev_pointers it !! 0%nat);
  cur ← PointerList.get (im_list it) p0 0;
  it ← match cur with
       | Some next =>
           let ip := take_insertion_point it in
           inode ← unwrap (insertion_nodes it !! 0%nat);
           '(prev, sl) ← erase_bottom it p0 next inode;
           n ← SkipListLayer.node sl next;
           sl ← foldm (unlink_level next prev) sl
                  (seq 1 (length (node_pointers n) - 1));
           Ok (mkIterMut sl prev ip (insertion_nodes it) (item_delta it))
       | None => Ok it
       end;
  Ok (mkIterMut (im_list it) (prev_pointers it) (insertion_point it) (insertion_nodes it)
        (item_delta it - 1)).

Definition advance it : res (SkipListLayerIterMut K V) :=
  match insertion_point it with
  | Some _ =>
      cur ← get it;
      match cur with
      | Some item => it ← insert it item; erase it
      | None => Ok it
      end
  | None =>
      p0 ← unwrap (prev_pointers it !! 0%nat);
      cur ← PointerList.get (im_list it) p0 0;
      match cur with
      | Some next =>
          n ← SkipListLayer.node (im_list it) next;
          prev ← foldm (λ prev i, _ ← unwrap (prev !! i); Ok (<[i := PNode next]> prev))
                   (prev_pointers it) (seq 0 (length (node_pointers n)));
          Ok (mkIterMut (im_list it) prev None (insertion_nodes it) (item_delta it))
      | None => Ok it
      end
  end.

(** The loop of [commit] that splices the insertion chain in. *)
Definition splice_level (ip : list plref) (inodes : list ptr) sl (i : nat)
    : res (SkipListLayer K V) :=
  inode ← unwrap (inodes !! i);
  match inode with
  | Some node => p ← unwrap (ip !! i); PointerList.set sl p i (Some node)
  | None => Ok sl
  end.

(** The first half of [commit]: without insertion nodes the erased elements
    are skipped, otherwise the chain is spliced in. *)
Definition switch it (ip : list plref) (ip0 p0 : plref) (inode : ptr) : res (SkipListLayer K V) :=
  match inode with
  | None =>
      cur ← PointerList.get (im_list it) p0 0;
      PointerList.set (im_list it) ip0 0 cur
  | Some _ =>
      foldm (splice_level ip (insertion_nodes it)) (im_list it)
        (seq 0 (length (insertion_nodes it)))
  end.

(** The second half of [commit]: the new item count, and what becomes of
    the nodes between [maybe_erase] and [end_].  The count is of boxes that
    are allocated at the same time, so it does not exceed [usize::MAX]. *)
Definition retire sl (item_delta : Z) (maybe_erase end_ : ptr) : res (SkipListLayer K V) :=
  let item_count := sl_item_count sl + item_delta in
  _ ← rassert (0 <=? item_count);
  let sl := with_inner sl (epoch sl) (current_count sl) (erase_lists sl) item_count in
  match maybe_erase with
  | Some start =>
      if decide (Some start ≠ end_) then
        if (0 <? current_count sl) || negb (bool_decide (erase_lists sl = ∅)) then
          Ok (with_inner sl ((epoch sl + 1) `mod` (u64_max + 1)) 0
                (<[epoch sl := mkEraseList (current_count sl) start end_]> (erase_lists sl))
                item_count)
        else Inner.free_erase_list sl (Some start) end_
      else Ok sl
  | None => Ok sl
  end.

Definition commit it : res (SkipListLayerIterMut K V) :=
  match insertion_point it with
  | None => Ok it
  | Some ip =>
      ip0 ← unwrap (ip !! 0%nat);
      p0 ← unwrap (prev_pointers it !! 0%nat);
      maybe_erase ← PointerList.get (im_list it) ip0 0;
      inode ← unwrap (insertion_nodes it !! 0%nat);
      sl ← switch it ip ip0 p0 inode;
      end_ ← PointerList.get sl p0 0;
      sl ← retire sl (item_delta it) maybe_erase end_;
      Ok (mkIterMut sl (prev_pointers it) None (insertion_nodes it) (item_delta it))
  end.
End ops.
End SkipListLayerIterMut.

#[global] Instance SkipListLayerIterMut_LayerIteratorMut `{OrdUpperBound K} {V} (gen_log2 : Z → nat) :
    LayerIteratorMut (SkipListLayerIterMut K V) K V := {|
  lim_get := SkipListLayerIterMut.get;
  lim_advance := SkipListLayerIterMut.advance gen_log2;
  lim_insert := SkipListLayerIterMut.insert gen_log2;
  lim_erase := SkipListLayerIterMut.erase;
  lim_commit := SkipListLayerIterMut.commit;
|}.

(** ** The operations of the layer.  Each holds the write lock from the
    creation of its iterator to the commit that dropping it performs. *)
Module SkipListOps.
Section ops.
Context {K V : Type} `{KeyEq K, OrdUpperBound K, OrdLowerBound K} (gen_log2 : Z → nat).
Implicit Types sl : SkipListLayer K V.

Definition drop_iter (it : SkipListLayerIterMut K V) : res (SkipListLayer K V) :=
  it ← SkipListLayerIterMut.commit it; Ok (im_list it).

Definition erase sl (key : K) : res (SkipListLayer K V) :=
  it ← SkipListLayerIterMut.new sl (Included key);
  cur ← SkipListLayerIterMut.get it;
  it ← match cur with
       | Some i => if key_eqb (LsmTypes.key i) key then SkipListLayerIterMut.erase it else Ok it
       | None => Ok it
       end;
  it ← SkipListLayerIterMut.commit it;
  drop_iter it.

(** The [bail!] still drops the iterator, which has nothing to commit. *)
Definition insert sl (item : Item K V) : res (SkipListLayer K V) :=
  it ← SkipListLayerIterMut.new sl (Included (LsmTypes.key item));
  cur ← SkipListLayerIterMut.get it;
  match cur with
  | Some i =>
      if key_eqb (LsmTypes.key i) (LsmTypes.key item) then Err Other
      else it ← SkipListLayerIterMut.insert gen_log2 it item; drop_iter it
  | None => it ← SkipListLayerIterMut.insert gen_log2 it item; drop_iter it
  end.

Definition replace_or_insert sl (item : Item K V) : res (SkipListLayer K V) :=
  it ← SkipListLayerIterMut.new sl (Included (LsmTypes.key item));
  cur ← SkipListLayerIterMut.get it;
  it ← match cur with
       | Some i =>
           if key_eqb (LsmTypes.key i) (LsmTypes.key item) then SkipListLayerIterMut.erase it
           else Ok it
       | None => Ok it
       end;
  it ← SkipListLayerIterMut.insert gen_log2 it item;
  drop_iter it.

Definition merge_into (fuel : nat) sl (item : Item K V) (lower_bound : K) (merge_fn : MergeFn K V)
    : res (SkipListLayer K V) :=
  it ← SkipListLayerIterMut.new sl (Included lower_bound);
  it ← Merge.merge_into (H0 := SkipListLayerIterMut_LayerIteratorMut gen_log2)
         fuel it item merge_fn;
  drop_iter it.
End ops.
End SkipListOps.
