(* ===== verification/SkipListLevels.v ===== *)
(** * One level of the skip list

    The pointers of one level are a function from nodes to next nodes.  A list
    is held by a level when following the pointers from the head visits it.
    During a transaction a level holds the committed nodes before the
    insertion point, then nodes that are being erased, then the nodes after
    the iterator; beside it a chain of new nodes waits to be spliced in.
    [level] states this, and the lemmas say how the pointer updates of
    [insert], [erase] and [commit] move from one such state to the next. *)

From S2P Require Import Prelude SkipList.

Definition links : Type := plref → res ptr.

Definition upd (g : links) (p : plref) (v : ptr) : links :=
  λ q, if decide (q = p) then Ok v else g q.

(** Following [g] from [p] visits [xs] and ends. *)
Fixpoint path (g : links) (p : plref) (xs : list Z) : Prop :=
  match xs with
  | [] => g p = Ok None
  | x :: xs => g p = Ok (Some x) ∧ path g (PNode x) xs
  end.

(** Following [g] from [p] visits [xs], and then goes on. *)
Fixpoint lpath (g : links) (p : plref) (xs : list Z) : Prop :=
  match xs with
  | [] => True
  | x :: xs => g p = Ok (Some x) ∧ lpath g (PNode x) xs
  end.

Definition endp (p : plref) (xs : list Z) : plref :=
  match last xs with Some x => PNode x | None => p end.

Section paths.
Implicit Types (g : links) (p q : plref) (xs ys : list Z) (x y : Z).

Lemma upd_eq g p v : upd g p v p = Ok v.
Proof. unfold upd. by rewrite decide_True. Qed.

Lemma upd_ne g p v q : q ≠ p → upd g p v q = g q.
Proof. intros. unfold upd. by rewrite decide_False. Qed.

Lemma upd_ext g g' p v q : (∀ q, g' q = g q) → upd g' p v q = upd g p v q.
Proof. intros Hg. unfold upd. by case_decide. Qed.

Lemma endp_nil p : endp p [] = p.
Proof. done. Qed.

Lemma endp_snoc p xs x : endp p (xs ++ [x]) = PNode x.
Proof. unfold endp. by rewrite last_snoc. Qed.

Lemma endp_cons p x xs : endp p (x :: xs) = endp (PNode x) xs.
Proof. unfold endp. destruct xs; [done|]. by rewrite last_cons_cons; destruct (last _) eqn:E; [|by apply last_None in E]. Qed.

Lemma endp_app p xs ys : endp p (xs ++ ys) = endp (endp p xs) ys.
Proof.
  revert p. induction xs as [|x xs IH]; intros p; [done|].
  cbn [app]. by rewrite !endp_cons, IH.
Qed.

Lemma endp_ne p xs : xs ≠ [] → ∃ x, x ∈ xs ∧ endp p xs = PNode x.
Proof.
  destruct xs as [|x xs _] using rev_ind; [done|]. intros _. exists x.
  rewrite endp_snoc. set_solver.
Qed.

(** Where the last pointer of a list is kept. *)
Lemma endp_cases p xs : endp p xs = p ∨ ∃ x, x ∈ xs ∧ endp p xs = PNode x.
Proof. destruct xs; [by left|right]. by apply endp_ne. Qed.

Lemma path_app g p xs ys : path g p (xs ++ ys) ↔ lpath g p xs ∧ path g (endp p xs) ys.
Proof.
  revert p. induction xs as [|x xs IH]; intros p; cbn [app path lpath]; [by rewrite endp_nil; tauto|].
  rewrite IH, endp_cons. tauto.
Qed.

Lemma lpath_app g p xs ys : lpath g p (xs ++ ys) ↔ lpath g p xs ∧ lpath g (endp p xs) ys.
Proof.
  revert p. induction xs as [|x xs IH]; intros p; cbn [app lpath]; [by rewrite endp_nil; tauto|].
  rewrite IH, endp_cons. tauto.
Qed.

Lemma path_head g p xs : path g p xs → g p = Ok (head xs).
Proof. destruct xs; cbn; tauto. Qed.

Lemma path_ext g g' p xs :
  g' p = g p → (∀ x, x ∈ xs → g' (PNode x) = g (PNode x)) → path g p xs → path g' p xs.
Proof.
  revert p. induction xs as [|x xs IH]; intros p Hp Hx; cbn [path]; [by rewrite Hp|].
  rewrite Hp. intros [? ?]. split; [done|]. apply IH; [|intros; apply Hx|done]; set_solver.
Qed.

Lemma lpath_ext g g' p xs z :
  g' p = g p → (∀ x, x ∈ xs → g' (PNode x) = g (PNode x)) →
  lpath g p (xs ++ [z]) → lpath g' p (xs ++ [z]).
Proof.
  revert p. induction xs as [|x xs IH]; intros p Hp Hx; cbn [lpath app]; rewrite Hp; [done|].
  intros [? ?]. split; [done|]. apply IH; [|intros; apply Hx|done]; set_solver.
Qed.

(** [lpath] does not look at the last node. *)
Lemma lpath_upd g p xs v :
  NoDup xs → (∀ x, x ∈ xs → p ≠ PNode x) → lpath g p xs → lpath (upd g (endp p xs) v) p xs.
Proof.
  destruct xs as [|z xs _] using rev_ind; [done|].
  intros Hnd Hp. rewrite endp_snoc. apply NoDup_app in Hnd as (_ & Hz & _). apply lpath_ext.
  - apply upd_ne, Hp. set_solver.
  - intros x Hx. apply upd_ne. intros [= ->]. eapply Hz; set_solver.
Qed.

Lemma path_upd_out g p q xs v :
  q ≠ p → (∀ x, x ∈ xs → q ≠ PNode x) → path g p xs → path (upd g q v) p xs.
Proof.
  intros Hqp Hq. apply path_ext; [by apply upd_ne|]. intros x Hx. apply upd_ne.
  intros He. by eapply Hq.
Qed.

(** Redirecting the last pointer of a prefix to another list. *)
Lemma path_splice g p xs ys :
  NoDup xs → (∀ x, x ∈ xs → p ≠ PNode x) → lpath g p xs →
  (∀ y ys', ys = y :: ys' → path g (PNode y) ys' ∧ endp p xs ≠ PNode y ∧
     ∀ x, x ∈ ys' → endp p xs ≠ PNode x) →
  path (upd g (endp p xs) (head ys)) p (xs ++ ys).
Proof.
  intros Hnd Hp Hl Hy. apply path_app. split; [by apply lpath_upd|].
  destruct ys as [|y ys]; cbn [path head]; rewrite upd_eq; [done|].
  destruct (Hy y ys eq_refl) as (? & ? & ?). split; [done|]. by apply path_upd_out.
Qed.
End paths.

(** ** A level during a transaction

    [bottom] says whether it is the bottom level.  [b], [a] and [n] are the
    nodes of this level before the insertion point, from the iterator on, and
    of the insertion chain; [d] are the nodes erased so far, of any level.
    [prev] and [ins] are the iterator's pointers for this level. *)
Record level (bottom : bool) (g : links) (b d a n : list Z) (prev : plref) (ins : ptr) : Prop := {
  lv_main : ∃ d', path g PHead (b ++ d' ++ a) ∧ d' `sublist_of` d ∧
    if bottom then d' = d else n = [] → d' = [];
  lv_chain : match n with
             | [] => ins = None
             | n0 :: n' => ins = Some n0 ∧ path g (PNode n0) (n' ++ a)
             end;
  lv_prev : prev = endp PHead (b ++ (if bottom then d else []) ++ n);
}.

Section levels.
Implicit Types (g : links) (b d a n : list Z) (prev : plref) (ins : ptr).

Lemma NoDup_apart (b d a n : list Z) x :
  NoDup (b ++ d ++ a ++ n) → x ∈ b ++ d ++ a → x ∈ n → False.
Proof. rewrite !app_assoc. intros (_ & Hdis & _)%NoDup_app ??. by eapply Hdis. Qed.

(** The iterator's pointer leads to the nodes after it. *)
Lemma level_at z g b d a n prev ins : level z g b d a n prev ins → path g prev a.
Proof.
  intros [(d' & Hp & _ & Hd) Hc ->]. destruct n as [|n0 n].
  - rewrite app_nil_r. destruct z; [subst d'|rewrite (Hd eq_refl) in Hp].
    + rewrite app_assoc, path_app in Hp. tauto.
    + rewrite app_nil_r. cbn [app] in Hp. rewrite path_app in Hp. tauto.
  - destruct Hc as [_ Hc]. rewrite path_app in Hc. rewrite !endp_app, endp_cons. tauto.
Qed.

(** Where the iterator's pointer is kept. *)
Lemma level_prev_cases z g b d a n prev ins :
  level z g b d a n prev ins → prev = PHead ∨ ∃ x, x ∈ b ++ (if z then d else []) ++ n ∧ prev = PNode x.
Proof. intros [_ _ ->]. apply endp_cases. Qed.

Lemma level_prev_chain z g b d a n prev ins :
  level z g b d a n prev ins → n ≠ [] → ∃ x, x ∈ n ∧ prev = PNode x.
Proof. intros [_ _ ->] Hn. rewrite !endp_app. by apply endp_ne. Qed.

(** Opening an iterator between two parts of a level. *)
Lemma level_open z g b a : path g PHead (b ++ a) → level z g b [] a [] (endp PHead b) None.
Proof.
  intros Hp. split; [|done|].
  - exists []. split_and!; [done..|]. by destruct z.
  - by destruct z; rewrite !app_nil_r.
Qed.

(** Moving over a node that the transaction has not touched. *)
Lemma level_advance z g b x a prev ins :
  level z g b [] (x :: a) [] prev ins → level z g (b ++ [x]) [] a [] (PNode x) ins.
Proof.
  intros [(d' & Hp & Hd & _) Hc _]. apply sublist_nil_r in Hd as ->. split; [|done|].
  - exists []. cbn [app] in *. rewrite <- app_assoc. by destruct z.
  - destruct z; rewrite !app_nil_r; by rewrite endp_snoc.
Qed.

(** [insert] at a level that has no new node yet: the node is recorded. *)
Lemma level_insert_first z g b d a prev ins x :
  level z g b d a [] prev ins → x ∉ b ++ d ++ a →
  level z (upd g (PNode x) (head a)) b d a [x] (PNode x) (Some x).
Proof.
  intros Hl Hx. pose proof (level_at _ _ _ _ _ _ _ _ Hl) as Ha.
  destruct Hl as [(d' & Hp & Hd & Hz) Hc Hprev].
  assert (∀ y, y ∈ d' → y ∈ d) as Hsub by (intros; by eapply elem_of_sublist).
  split.
  - exists d'. split_and!; [|done|by destruct z].
    apply path_upd_out; [done| |done]. intros y Hy [= ->]. set_solver.
  - split; [done|]. destruct a as [|y a]; cbn [app path head]; rewrite upd_eq; [done|].
    split; [done|]. apply path_upd_out; [| |by destruct Ha].
    + intros [= ->]. set_solver.
    + intros w Hw [= ->]. set_solver.
  - by rewrite app_assoc, endp_snoc.
Qed.

(** [insert] at a level that has new nodes: the chain grows. *)
Lemma level_insert_next z g b d a n prev ins x :
  level z g b d a n prev ins → n ≠ [] → NoDup (b ++ d ++ a ++ n) → x ∉ b ++ d ++ a ++ n →
  level z (upd (upd g (PNode x) (head a)) prev (Some x)) b d a (n ++ [x]) (PNode x) ins.
Proof.
  intros Hl Hn Hnd Hx. pose proof (level_at _ _ _ _ _ _ _ _ Hl) as Ha.
  destruct (level_prev_chain _ _ _ _ _ _ _ _ Hl Hn) as (w & Hw & Hpw).
  destruct Hl as [(d' & Hp & Hd & Hz) Hc Hprev]. destruct n as [|n0 n]; [done|].
  assert (∀ y, y ∈ d' → y ∈ d) as Hsub by (intros; by eapply elem_of_sublist).
  destruct Hc as [Hins Hc]. rewrite !endp_app, endp_cons in Hprev.
  assert (∀ y, y ∈ b ++ d ++ a → prev ≠ PNode y) as Hout.
  { intros y Hy ->. injection Hpw as ->. by eapply NoDup_apart. }
  split.
  - exists d'. split_and!; [|done|destruct z; [done|by destruct n]].
    apply path_upd_out; [by rewrite Hpw| |].
    { intros y Hy. apply Hout. set_solver. }
    apply path_upd_out; [done| |done]. intros y Hy [= ->]. set_solver.
  - cbn [app]. split; [done|]. apply NoDup_app in Hnd as (_ & _ & Hnd).
    apply NoDup_app in Hnd as (_ & _ & Hnd). apply NoDup_app in Hnd as (_ & _ & Hnd).
    apply NoDup_cons in Hnd as [Hn0 Hnd]. rewrite Hprev, <- app_assoc. cbn [app].
    apply (path_splice (upd g (PNode x) (head a)) (PNode n0) n (x :: a)).
    + done.
    + intros y Hy [= ->]. done.
    + rewrite path_app in Hc. destruct Hc as [Hc _]. destruct n as [|m n _] using rev_ind; [done|].
      eapply lpath_ext; [|intros y Hy|exact Hc]; apply upd_ne; set_solver.
    + intros ? ? [= <- <-]. rewrite <- Hprev. split_and!.
      * destruct a as [|y a]; cbn [path head]; rewrite upd_eq; [done|].
        split; [done|]. destruct Ha as [_ Ha].
        apply path_upd_out; [set_solver|set_solver|done].
      * intros [= ->]. set_solver.
      * intros y Hy. apply Hout. set_solver.
  - by rewrite app_assoc, app_assoc, endp_snoc.
Qed.

(** [erase] at the bottom, nothing inserted: only the iterator moves. *)
Lemma level_erase_bottom g b d y a prev ins :
  level true g b d (y :: a) [] prev ins → level true g b (d ++ [y]) a [] (PNode y) ins.
Proof.
  intros [(d' & Hp & Hd & ->) Hc _]. split; [|done|].
  - exists (d ++ [y]). by rewrite <- app_assoc.
  - rewrite app_nil_r, app_assoc, endp_snoc. done.
Qed.

(** [erase] with new nodes at this level: the chain skips the node. *)
Lemma level_erase_chain z g b d y a n prev ins :
  level z g b d (y :: a) n prev ins → n ≠ [] → NoDup (b ++ d ++ (y :: a) ++ n) →
  level z (upd g prev (head a)) b (d ++ [y]) a n prev ins.
Proof.
  intros Hl Hn Hnd. pose proof (level_at _ _ _ _ _ _ _ _ Hl) as Ha.
  destruct (level_prev_chain _ _ _ _ _ _ _ _ Hl Hn) as (w & Hw & Hpw).
  destruct Hl as [(d' & Hp & Hd & Hz) Hc Hprev]. destruct n as [|n0 n]; [done|].
  assert (∀ w, w ∈ d' → w ∈ d) as Hsub by (intros; by eapply elem_of_sublist).
  destruct Hc as [Hins Hc].
  assert (prev = endp (PNode n0) n) as Hpe by (by rewrite Hprev, !endp_app, endp_cons).
  assert (∀ u, u ∈ b ++ d ++ y :: a → prev ≠ PNode u) as Hout.
  { intros u Hu ->. injection Hpw as ->. by eapply NoDup_apart. }
  split.
  - exists (d' ++ [y]). split_and!.
    + rewrite <- app_assoc. cbn [app]. apply path_upd_out; [by rewrite Hpw| |done].
      intros u Hu. apply Hout. set_solver.
    + by apply sublist_app.
    + destruct z; [by subst|done].
  - split; [done|]. apply NoDup_app in Hnd as (_ & _ & Hnd).
    apply NoDup_app in Hnd as (_ & _ & Hnd). apply NoDup_app in Hnd as (_ & _ & Hnd).
    apply NoDup_cons in Hnd as [Hn0 Hnd]. rewrite Hpe. apply path_splice; [done| | |].
    + intros u Hu [= ->]. done.
    + rewrite path_app in Hc. tauto.
    + intros u a' ->. destruct Ha as [_ [_ Ha]]. rewrite <- Hpe. split_and!; [done| |].
      * apply Hout. set_solver.
      * intros v Hv. apply Hout. set_solver.
  - rewrite Hpe, !endp_app, endp_cons. done.
Qed.

(** [erase] above the bottom with nothing inserted there: unlinked at once. *)
Lemma level_erase_upper g b d y a prev ins :
  level false g b d (y :: a) [] prev ins → NoDup (b ++ d ++ y :: a) →
  level false (upd g prev (head a)) b (d ++ [y]) a [] prev ins.
Proof.
  intros [(d' & Hp & Hd & Hz) Hc Hprev] Hnd. rewrite (Hz eq_refl) in *. cbn [app] in *.
  rewrite app_nil_r in Hprev. apply NoDup_app in Hnd as (Hndb & Hdis & Hnd).
  apply NoDup_app in Hnd as (_ & _ & Hnd).
  split; [|done|by rewrite app_nil_r].
  exists []. split_and!; [|apply sublist_nil_l|done]. cbn [app].
  rewrite path_app in Hp. destruct Hp as [Hb [_ Ha]]. rewrite Hprev.
  assert (∀ u, u ∈ a → endp PHead b ≠ PNode u) as Hout.
  { intros u Hu. destruct (endp_cases PHead b) as [->|(w & Hw & ->)]; [done|].
    intros [= ->]. eapply Hdis; [done|]. set_solver. }
  apply path_splice; [done|done|done|].
  intros u a' ->. destruct Ha as [_ Ha]. split_and!; [done|apply Hout; set_solver|].
  intros v Hv. apply Hout. set_solver.
Qed.

(** [erase] of a node that does not reach this level. *)
Lemma level_erase_below g b d y a n prev ins :
  level false g b d a n prev ins → level false g b (d ++ [y]) a n prev ins.
Proof.
  intros [(d' & Hp & Hd & Hz) Hc Hprev]. split; [|done|done].
  exists d'. split_and!; [done| |done]. by apply sublist_inserts_r.
Qed.

(** [commit] of a level with new nodes. *)
Lemma level_commit z g b d a n prev ins :
  level z g b d a n prev ins → NoDup (b ++ d ++ a ++ n) → n ≠ [] →
  path (upd g (endp PHead b) ins) PHead (b ++ n ++ a).
Proof.
  intros [(d' & Hp & Hd & Hz) Hc Hprev] Hnd Hn. destruct n as [|n0 n]; [done|].
  destruct Hc as [-> Hc]. apply NoDup_app in Hnd as (Hndb & Hdis & _).
  rewrite path_app in Hp. destruct Hp as [Hb _].
  assert (∀ u, u ∈ a ++ n0 :: n → endp PHead b ≠ PNode u) as Hout.
  { intros u Hu. destruct (endp_cases PHead b) as [->|(w & Hw & ->)]; [done|].
    intros [= ->]. eapply Hdis; [done|]. set_solver. }
  apply (path_splice g PHead b ((n0 :: n) ++ a)); [done..|].
  cbn [app]. intros ? ? [= <- <-]. split_and!; [done|apply Hout; set_solver|].
  intros v Hv. apply Hout. set_solver.
Qed.

(** [commit] of the bottom level of a transaction that only erased. *)
Lemma level_commit_erase g b d a prev ins :
  level true g b d a [] prev ins → NoDup (b ++ d ++ a) →
  path (upd g (endp PHead b) (head a)) PHead (b ++ a).
Proof.
  intros [(d' & Hp & Hd & ->) Hc Hprev] Hnd. apply NoDup_app in Hnd as (Hndb & Hdis & _).
  rewrite path_app, path_app in Hp. destruct Hp as (Hb & _ & Ha).
  assert (∀ u, u ∈ a → endp PHead b ≠ PNode u) as Hout.
  { intros u Hu. destruct (endp_cases PHead b) as [->|(w & Hw & ->)]; [done|].
    intros [= ->]. eapply Hdis; [done|]. set_solver. }
  apply path_splice; [done..|]. intros u a' ->. destruct Ha as [_ Ha].
  split_and!; [done|apply Hout; set_solver|]. intros v Hv. apply Hout. set_solver.
Qed.

(** A level that no transaction has left anything on is as it was. *)
Lemma level_commit_none g b d a prev ins :
  level false g b d a [] prev ins → path g PHead (b ++ a).
Proof. intros [(d' & Hp & _ & Hz) _ _]. by rewrite (Hz eq_refl) in Hp. Qed.
End levels.
