(* ===== verification/SkipListIter.v ===== *)
(** * The writer's iterator implements its contract

    [SkipListLayerIterMut] keeps the promise of [LayerIteratorMutLaws]: on the
    heap of nodes, whatever the random heights, [insert], [erase], [advance]
    and [commit] act as they do on a list with a cursor. *)

From S2P Require Import Prelude LsmTypes Merge SkipList SkipListLevels.

Section heap.
Context {K V : Type}.
Implicit Types (sl : SkipListLayer K V) (p q : plref) (l : Z) (xs : list Z).

(** The pointers of level [i]. *)
Definition lk sl (i : nat) : links := λ q, PointerList.get sl q i.

Definition shape (n : SkipListNode K V) : Item K V * nat := (node_item n, length (node_pointers n)).

(** Two states that differ in pointers only. *)
Record same sl sl' : Prop := {
  same_levels : length (sl_pointers sl') = length (sl_pointers sl);
  same_nodes : ∀ l, shape <$> nodes sl' !! l = shape <$> nodes sl !! l;
  same_fresh : fresh sl' = fresh sl;
  same_allocated : allocated sl' = allocated sl;
  same_epoch : epoch sl' = epoch sl;
  same_count : current_count sl' = current_count sl;
  same_lists : erase_lists sl' = erase_lists sl;
  same_items : sl_item_count sl' = sl_item_count sl;
}.

#[global] Instance same_preorder : PreOrder same.
Proof.
  split.
  - by intros sl; split.
  - intros s1 s2 s3 [] []. split; intros; congruence.
Qed.

(** Nodes outside [xs] are untouched. *)
Definition frame (xs : list Z) sl sl' : Prop := ∀ l, l ∉ xs → nodes sl' !! l = nodes sl !! l.

#[global] Instance frame_preorder xs : PreOrder (frame xs).
Proof. split; [by intros sl l|]. intros s1 s2 s3 H1 H2 l Hl. by rewrite H2, H1. Qed.

Lemma frame_mono xs ys sl sl' : (∀ l, l ∈ xs → l ∈ ys) → frame xs sl sl' → frame ys sl sl'.
Proof. intros Hxy Hf l Hl. apply Hf. auto. Qed.

Lemma set_spec sl p i v w :
  lk sl i p = Ok v →
  ∃ sl', PointerList.set sl p i w = Ok sl' ∧ same sl sl' ∧
    (∀ q, lk sl' i q = upd (lk sl i) p w q) ∧
    (∀ j q, j ≠ i → lk sl' j q = lk sl j q) ∧
    (∀ l, PNode l ≠ p → nodes sl' !! l = nodes sl !! l).
Proof.
  unfold lk, PointerList.get, PointerList.set, PointerList.deref, upd, PointerList.get.
  destruct p as [|l].
  - res_simpl. destruct (sl_pointers sl !! i) eqn:Hi; [|done]. intros _. res_simpl.
    eexists. split; [done|]. split_and!.
    + split; cbn [sl_pointers]; [by rewrite length_insert|done..].
    + intros q. case_decide; subst; res_simpl.
      * cbn [sl_pointers]. rewrite list_lookup_insert_eq; [done|]. by eapply lookup_lt_Some.
      * destruct q; [done|]. done.
    + intros j [|q] Hj; res_simpl; cbn [sl_pointers nodes]; [|done].
      by rewrite list_lookup_insert_ne.
    + done.
  - destruct (nodes sl !! l) as [n|] eqn:Hl; [|done]. res_simpl.
    destruct (node_pointers n !! i) eqn:Hi; [|done]. intros _. res_simpl.
    eexists. split; [done|]. split_and!.
    + split; cbn; try done. intros l'. destruct (decide (l' = l)) as [->|].
      * rewrite lookup_alter_eq, Hl. cbn. unfold shape. cbn. by rewrite length_insert.
      * by rewrite lookup_alter_ne.
    + intros q. case_decide as Hq; subst; cbn [sl_pointers nodes].
      * rewrite lookup_alter_eq, Hl. cbn. rewrite list_lookup_insert_eq; [done|]. by eapply lookup_lt_Some.
      * destruct q as [|l']; [done|]. rewrite lookup_alter_ne by congruence. done.
    + intros j [|l'] Hj; cbn [sl_pointers nodes]; [done|].
      destruct (decide (l' = l)) as [->|]; [|by rewrite lookup_alter_ne].
      rewrite lookup_alter_eq, Hl. cbn. by rewrite list_lookup_insert_ne.
    + intros l' Hl'. cbn [nodes]. rewrite lookup_alter_ne; congruence.
Qed.

(** ** Heights *)
Definition height sl l : nat := from_option (λ n, length (node_pointers n)) 0%nat (nodes sl !! l).
(** The nodes that reach level [i]. *)
Definition lv sl (i : nat) xs : list Z := filter (λ l, (i < height sl l)%nat) xs.
Definition items sl xs : list (Item K V) := omap (λ l, node_item <$> nodes sl !! l) xs.

Lemma same_height sl sl' l : same sl sl' → height sl' l = height sl l.
Proof.
  intros Hs. pose proof (same_nodes _ _ Hs l) as Hn. unfold height, shape in *.
  destruct (nodes sl' !! l), (nodes sl !! l); simplify_eq/=; congruence.
Qed.

Lemma lv_ext sl sl' i xs : (∀ l, l ∈ xs → height sl' l = height sl l) → lv sl' i xs = lv sl i xs.
Proof.
  intros Hh. unfold lv. induction xs as [|x xs IH]; [done|].
  rewrite !filter_cons, Hh by set_solver. rewrite IH by (intros; apply Hh; set_solver). done.
Qed.

Lemma same_lv sl sl' i xs : same sl sl' → lv sl' i xs = lv sl i xs.
Proof. intros Hs. apply lv_ext. intros. by apply same_height. Qed.

Lemma items_ext sl sl' xs :
  (∀ l, l ∈ xs → node_item <$> nodes sl' !! l = node_item <$> nodes sl !! l) →
  items sl' xs = items sl xs.
Proof.
  unfold items. induction xs as [|x xs IH]; [done|]. intros Hx. cbn [omap list_omap].
  rewrite IH by (intros; apply Hx; set_solver). by rewrite (Hx x) by set_solver.
Qed.

Lemma same_item sl sl' l :
  same sl sl' → node_item <$> nodes sl' !! l = node_item <$> nodes sl !! l.
Proof.
  intros Hs. pose proof (same_nodes _ _ Hs l) as Hn. unfold shape in *.
  destruct (nodes sl' !! l), (nodes sl !! l); simplify_eq/=; congruence.
Qed.

Lemma items_app sl xs ys : items sl (xs ++ ys) = items sl xs ++ items sl ys.
Proof. apply omap_app. Qed.

Lemma lv_app sl i xs ys : lv sl i (xs ++ ys) = lv sl i xs ++ lv sl i ys.
Proof. apply filter_app. Qed.

Lemma lv_cons sl i x xs :
  lv sl i (x :: xs) = if decide (i < height sl x)%nat then x :: lv sl i xs else lv sl i xs.
Proof. unfold lv. rewrite filter_cons. done. Qed.

Lemma lv_sublist sl i xs : lv sl i xs `sublist_of` xs.
Proof. apply sublist_filter. Qed.

Lemma elem_of_lv sl i xs l : l ∈ lv sl i xs ↔ l ∈ xs ∧ (i < height sl l)%nat.
Proof. unfold lv. rewrite list_elem_of_filter. tauto. Qed.

Lemma lv_0 sl xs : (∀ l, l ∈ xs → (0 < height sl l)%nat) → lv sl 0 xs = xs.
Proof.
  unfold lv. intros Hh. induction xs as [|x xs IH]; [done|].
  rewrite filter_cons_True by (apply Hh; set_solver). rewrite IH; [done|]. set_solver.
Qed.

Lemma lv_NoDup sl i b d a n :
  NoDup (b ++ d ++ a ++ n) → NoDup (lv sl i b ++ d ++ lv sl i a ++ lv sl i n).
Proof.
  intros Hnd. eapply sublist_NoDup; [done|].
  repeat apply sublist_app; try apply lv_sublist. done.
Qed.
End heap.

(** ** All levels at once *)
Section levels.
Context {K V : Type}.
Implicit Types (sl : SkipListLayer K V) (l : Z).

(** [F i] are the four lists of level [i]. *)
Definition levels sl (prev : list plref) (ins : list ptr)
    (F : nat → list Z * list Z * list Z * list Z) : Prop :=
  length prev = length (sl_pointers sl) ∧ length ins = length (sl_pointers sl) ∧
  ∀ i, (i < length (sl_pointers sl))%nat →
    ∃ p o, prev !! i = Some p ∧ ins !! i = Some o ∧
      match F i with (b, d, a, n) => level (bool_decide (i = 0%nat)) (lk sl i) b d a n p o end.

Lemma level_frame z g g' b d a n p o :
  g' PHead = g PHead → (∀ l, l ∈ b ++ d ++ a ++ n → g' (PNode l) = g (PNode l)) →
  level z g b d a n p o → level z g' b d a n p o.
Proof.
  intros H0 Hg [(d' & Hp & Hd & Hz) Hc Hprev].
  assert (∀ y, y ∈ d' → y ∈ d) as Hsub by (intros; by eapply elem_of_sublist).
  split; [|destruct n as [|n0 n]; [done|]|done].
  - exists d'. split_and!; [|done..]. eapply path_ext; [done| |exact Hp]. intros; apply Hg; set_solver.
  - destruct Hc as [? Hc]. split; [done|].
    eapply path_ext; [apply Hg; set_solver| |exact Hc]. intros; apply Hg; set_solver.
Qed.

Lemma level_ext z g g' b d a n p o : (∀ q, g' q = g q) → level z g b d a n p o → level z g' b d a n p o.
Proof. intros Hg. by apply level_frame. Qed.

(** A change confined to level [i]. *)
Lemma levels_update sl sl' prev prev' ins ins' F F' i :
  levels sl prev ins F → (i < length (sl_pointers sl))%nat → same sl sl' →
  (∀ j q, j ≠ i → lk sl' j q = lk sl j q) →
  length prev' = length prev → (∀ j, j ≠ i → prev' !! j = prev !! j) →
  length ins' = length ins → (∀ j, j ≠ i → ins' !! j = ins !! j) →
  (∀ j, j ≠ i → F' j = F j) →
  (∃ p o, prev' !! i = Some p ∧ ins' !! i = Some o ∧
     match F' i with (b, d, a, n) => level (bool_decide (i = 0%nat)) (lk sl' i) b d a n p o end) →
  levels sl' prev' ins' F'.
Proof.
  intros (Hlp & Hli & Hl) Hi Hs Hj Hlp' Hp' Hli' Hi' HF Hlev. unfold levels.
  rewrite (same_levels _ _ Hs). split_and!; [congruence..|]. intros j Hlt.
  destruct (decide (j = i)) as [->|Hne]; [done|].
  destruct (Hl j Hlt) as (p & o & ? & ? & Hlv). exists p, o.
  rewrite Hp', Hi', HF by done. split_and!; [done..|].
  destruct (F j) as [[[b d] a] n]. eapply level_ext; [|done]. intros q. by apply Hj.
Qed.

Lemma levels_mono sl sl' prev ins F F' :
  levels sl prev ins F → length (sl_pointers sl') = length (sl_pointers sl) →
  (∀ i p o, (i < length (sl_pointers sl))%nat →
     match F i with (b, d, a, n) => level (bool_decide (i = 0%nat)) (lk sl i) b d a n p o end →
     match F' i with (b, d, a, n) => level (bool_decide (i = 0%nat)) (lk sl' i) b d a n p o end) →
  levels sl' prev ins F'.
Proof.
  intros (Hlp & Hli & Hl) Hlen HF. unfold levels. rewrite Hlen. split_and!; [done..|].
  intros i Hi. destruct (Hl i Hi) as (p & o & ? & ? & Hlv). exists p, o. split_and!; [done..|].
  by apply HF.
Qed.
End levels.

(** ** Memory *)
Section mem.
Context {K V : Type}.
Implicit Types (sl : SkipListLayer K V) (l : Z).

(** Following [g] from node [s] visits [ds] and then reaches [e]. *)
Definition chain (g : links) (s : Z) (ds : list Z) (e : ptr) : Prop :=
  ∃ ds', ds = s :: ds' ∧ lpath g (PNode s) ds' ∧ g (endp (PNode s) ds') = Ok e ∧
    ∀ l, e = Some l → l ∉ ds.

Definition retired (R : gmap Z (list Z)) : list Z := concat (map_to_list R).*2.

(** The boxes that exist are the [live] ones and those of the erase lists
    [R], each of which is the chain its entry in the layer delimits. *)
Record mem_at sl (live : list Z) (R : gmap Z (list Z)) : Prop := {
  mem_dom : ∀ e, is_Some (R !! e) ↔ is_Some (erase_lists sl !! e);
  mem_chain : ∀ e el ds, erase_lists sl !! e = Some el → R !! e = Some ds →
    chain (lk sl 0) (el_start el) ds (el_end el);
  mem_NoDup : NoDup (live ++ retired R);
  mem_nodes : ∀ l, is_Some (nodes sl !! l) ↔ l ∈ live ++ retired R;
  mem_height : ∀ l, is_Some (nodes sl !! l) → (1 ≤ height sl l)%nat;
  mem_allocated : allocated sl = Z.of_nat (length (live ++ retired R)) `mod` u32_modulus;
  mem_epoch : ∀ e, is_Some (erase_lists sl !! e) → 0 ≤ e < epoch sl;
  mem_epoch_max : 0 ≤ epoch sl ≤ u64_max;
}.
Definition mem sl (live : list Z) : Prop := ∃ R, mem_at sl live R.

Lemma elem_of_retired R e ds l : R !! e = Some ds → l ∈ ds → l ∈ retired R.
Proof.
  intros HR Hl. unfold retired. apply list_elem_of_In, in_concat. exists ds.
  rewrite <- !list_elem_of_In. split; [|done]. apply list_elem_of_fmap. exists (e, ds).
  by rewrite elem_of_map_to_list.
Qed.

Lemma retired_insert R e ds : R !! e = None → retired (<[e := ds]> R) ≡ₚ ds ++ retired R.
Proof. intros He. unfold retired. by rewrite map_to_list_insert. Qed.

Lemma retired_delete R e ds : R !! e = Some ds → ds ++ retired (delete e R) ≡ₚ retired R.
Proof.
  intros He. rewrite <- retired_insert by apply lookup_delete_eq.
  by rewrite insert_delete_id.
Qed.

Lemma chain_frame xs sl sl' s ds e :
  frame xs sl sl' → (∀ l, l ∈ ds → l ∉ xs) → chain (lk sl 0) s ds e → chain (lk sl' 0) s ds e.
Proof.
  intros Hf Hxs (ds' & -> & Hp & He & Hne).
  assert (∀ l, l ∈ s :: ds' → lk sl' 0 (PNode l) = lk sl 0 (PNode l)) as Hlk.
  { intros l Hl. unfold lk, PointerList.get, PointerList.deref. by rewrite Hf by auto. }
  exists ds'. split_and!; [done| | |done].
  - destruct ds' as [|z ds' _] using rev_ind; [done|].
    eapply lpath_ext; [apply Hlk; set_solver| |exact Hp]. intros; apply Hlk. set_solver.
  - rewrite <- He. destruct (endp_cases (PNode s) ds') as [->|(x & Hx & ->)]; apply Hlk; set_solver.
Qed.

(** Pointer updates in live nodes leave the memory invariant alone. *)
Lemma mem_frame sl sl' live : same sl sl' → frame live sl sl' → mem sl live → mem sl' live.
Proof.
  intros Hs Hf [R [Hd Hc Hnd Hn Hh Ha He Hm]]. exists R.
  assert (∀ l, is_Some (nodes sl' !! l) ↔ is_Some (nodes sl !! l)) as Hsome.
  { intros l. pose proof (same_nodes _ _ Hs l) as Hl.
    destruct (nodes sl' !! l), (nodes sl !! l); try done; by rewrite !is_Some_alt. }
  split.
  - by rewrite (same_lists _ _ Hs).
  - rewrite (same_lists _ _ Hs). intros e el ds Hel HR. eapply chain_frame; [done| |eauto].
    intros l Hl Hl'. apply NoDup_app in Hnd as (_ & Hdis & _).
    eapply Hdis; [done|]. by eapply elem_of_retired.
  - done.
  - intros l. by rewrite Hsome.
  - intros l. rewrite Hsome. rewrite (same_height _ _ _ Hs). auto.
  - by rewrite (same_allocated _ _ Hs).
  - rewrite (same_lists _ _ Hs), (same_epoch _ _ Hs). done.
  - by rewrite (same_epoch _ _ Hs).
Qed.

Lemma mem_perm sl live live' : live ≡ₚ live' → mem sl live → mem sl live'.
Proof.
  intros Hp [R [Hd Hc Hnd Hn Hh Ha He Hm]]. exists R. split; try done.
  - by rewrite <- Hp.
  - intros l. by rewrite <- Hp.
  - by rewrite <- Hp.
Qed.
End mem.

(** ** The invariant of a transaction *)
Section inv.
Context {K V : Type}.
Implicit Types (sl : SkipListLayer K V) (it : SkipListLayerIterMut K V) (l : Z) (B D A N : list Z).

(** [B]: nodes before the insertion point.  [D]: nodes erased.  [A]: nodes
    from the iterator on.  [N]: the insertion chain. *)
Definition parts sl B D A N (i : nat) : list Z * list Z * list Z * list Z :=
  (lv sl i B, D, lv sl i A, lv sl i N).

Definition nodes_ok sl (xs : list Z) : Prop :=
  NoDup xs ∧ ∀ l, l ∈ xs → ∃ n, nodes sl !! l = Some n ∧
    (1 ≤ length (node_pointers n) ≤ length (sl_pointers sl))%nat.

Record iter_inv it B D A N : Prop := {
  ii_levels : (0 < length (sl_pointers (im_list it)))%nat;
  ii_nodes : nodes_ok (im_list it) (B ++ D ++ A ++ N);
  ii_fresh : ∀ l, fresh (im_list it) ≤ l → nodes (im_list it) !! l = None;
  ii_level : levels (im_list it) (prev_pointers it) (insertion_nodes it) (parts (im_list it) B D A N);
  ii_point : match insertion_point it with
             | None => D = [] ∧ N = []
             | Some ip => length ip = length (sl_pointers (im_list it)) ∧
                 ∀ i, (i < length (sl_pointers (im_list it)))%nat →
                   ip !! i = Some (endp PHead (lv (im_list it) i B))
             end;
  ii_mem : mem (im_list it) (B ++ D ++ A ++ N);
  ii_count : sl_item_count (im_list it) = Z.of_nat (length (B ++ D ++ A));
  ii_epoch : epoch (im_list it) < u64_max;
  ii_delta : item_delta it = Z.of_nat (length N) - Z.of_nat (length D);
}.

Lemma nodes_ok_height sl xs l : nodes_ok sl xs → l ∈ xs → (1 ≤ height sl l ≤ length (sl_pointers sl))%nat.
Proof. intros [_ Hn] Hl. destruct (Hn l Hl) as (n & Hn' & ?). unfold height. by rewrite Hn'. Qed.

Lemma nodes_ok_same sl sl' xs : same sl sl' → nodes_ok sl xs → nodes_ok sl' xs.
Proof.
  intros Hs [Hnd Hn]. split; [done|]. intros l Hl. destruct (Hn l Hl) as (n & Hn' & Hlen).
  pose proof (same_nodes _ _ Hs l) as Hsh. rewrite Hn' in Hsh.
  destruct (nodes sl' !! l) as [n'|]; [|done]. exists n'. split; [done|].
  rewrite (same_levels _ _ Hs). unfold shape in Hsh. cbn in Hsh. injection Hsh as _ ->. done.
Qed.

Lemma same_parts sl sl' B D A N i : same sl sl' → parts sl' B D A N i = parts sl B D A N i.
Proof. intros Hs. unfold parts. by rewrite !(same_lv sl sl'). Qed.

(** The insertion point, taken now if it was not yet. *)
Lemma iter_point it B D A N :
  iter_inv it B D A N →
  ∃ ip, SkipListLayerIterMut.take_insertion_point it = Some ip ∧
    length ip = length (sl_pointers (im_list it)) ∧
    ∀ i, (i < length (sl_pointers (im_list it)))%nat →
      ip !! i = Some (endp PHead (lv (im_list it) i B)).
Proof.
  intros [_ _ _ Hls Hpt _ _ _ _]. unfold SkipListLayerIterMut.take_insertion_point.
  destruct (insertion_point it) as [ip|]; [by exists ip|]. destruct Hpt as [-> ->].
  destruct Hls as (Hlp & _ & Hls). exists (prev_pointers it). split_and!; [done..|].
  intros i Hi. destruct (Hls i Hi) as (p & o & Hp & _ & Hlev). rewrite Hp.
  rewrite (lv_prev _ _ _ _ _ _ _ _ Hlev). cbn [lv filter].
  destruct (bool_decide _); by rewrite !app_nil_r.
Qed.

(** The current node. *)
Lemma iter_cur it B D A N :
  iter_inv it B D A N →
  ∃ p0, prev_pointers it !! 0%nat = Some p0 ∧ PointerList.get (im_list it) p0 0 = Ok (head A).
Proof.
  intros Hinv. destruct (ii_level _ _ _ _ _ Hinv) as (_ & _ & Hl).
  destruct (Hl 0%nat (ii_levels _ _ _ _ _ Hinv)) as (p & o & Hp & _ & Hlev).
  exists p. split; [done|]. apply level_at, path_head in Hlev.
  unfold lk in Hlev. rewrite Hlev. f_equal. f_equal. apply lv_0. intros l Hl'.
  eapply nodes_ok_height; [apply (ii_nodes _ _ _ _ _ Hinv)|]. set_solver.
Qed.

Lemma items_cons sl l xs n : nodes sl !! l = Some n → items sl (l :: xs) = node_item n :: items sl xs.
Proof. intros Hn. unfold items. cbn. by rewrite Hn. Qed.

Lemma iter_node it B D x A N :
  iter_inv it B D (x :: A) N → ∃ n, nodes (im_list it) !! x = Some n.
Proof.
  intros Hinv. destruct (ii_nodes _ _ _ _ _ Hinv) as [_ Hn].
  destruct (Hn x) as (n & ? & _); [set_solver|]. by exists n.
Qed.

Lemma iter_get it B D A N :
  iter_inv it B D A N → SkipListLayerIterMut.get it = Ok (head (items (im_list it) A)).
Proof.
  intros Hinv. unfold SkipListLayerIterMut.get. destruct (iter_cur _ _ _ _ _ Hinv) as (p0 & -> & Hg).
  res_simpl. rewrite Hg. res_simpl. destruct A as [|x A]; [done|]. cbn [head].
  destruct (iter_node _ _ _ _ _ _ Hinv) as [n Hn]. unfold SkipListLayer.node. rewrite Hn.
  by rewrite (items_cons _ _ _ _ Hn).
Qed.
End inv.

(** ** [insert] *)
Section insert.
Context {K V : Type} (gen_log2 : Z → nat).
Implicit Types (sl : SkipListLayer K V) (it : SkipListLayerIterMut K V) (l : Z) (B D A N : list Z).

Lemma mem_alloc sl live item h :
  (∀ l, fresh sl ≤ l → nodes sl !! l = None) → (1 ≤ h)%nat → mem sl live →
  mem (SkipListLayer.alloc_node sl item h).2 (live ++ [fresh sl]).
Proof.
  intros Hfr Hh [R [Hd Hc Hnd Hn Hh' Ha He Hm]]. exists R.
  assert (fresh sl ∉ live ++ retired R) as Hx.
  { rewrite <- Hn. rewrite Hfr by lia. by intros [? ?]. }
  assert (live ++ [fresh sl] ++ retired R ≡ₚ fresh sl :: live ++ retired R) as Hperm
    by (cbn; by rewrite Permutation_middle).
  split; cbn [SkipListLayer.alloc_node snd erase_lists epoch allocated]; try done.
  - intros e el ds Hel HR. eapply (chain_frame [fresh sl]); [..|by eauto].
    + intros l Hl. cbn [nodes]. rewrite lookup_insert_ne; [done|]. set_solver.
    + intros l Hl ->%list_elem_of_singleton. apply Hx, elem_of_app. right. by eapply elem_of_retired.
  - rewrite <- app_assoc, Hperm. by constructor.
  - intros l. rewrite <- app_assoc, Hperm, elem_of_cons, <- Hn. cbn [nodes].
    destruct (decide (l = fresh sl)) as [->|]; [rewrite lookup_insert_eq; naive_solver|].
    rewrite lookup_insert_ne by done. naive_solver.
  - intros l. unfold height. cbn [nodes]. destruct (decide (l = fresh sl)) as [->|].
    + rewrite lookup_insert_eq. cbn [from_option node_pointers]. unfold PointerList.new.
      by rewrite length_replicate.
    + rewrite lookup_insert_ne by done. apply Hh'.
  - rewrite <- app_assoc, Hperm. cbn [length]. unfold u32_wrapping_add. rewrite Ha.
    rewrite Nat2Z.inj_succ, Zplus_mod_idemp_l. done.
Qed.

Lemma insert_level_ok x it i F b d a n v :
  let sl := im_list it in
  levels sl (prev_pointers it) (insertion_nodes it) F → (i < length (sl_pointers sl))%nat →
  F i = (b, d, a, n) → NoDup (b ++ d ++ a ++ n) → x ∉ b ++ d ++ a ++ n → lk sl i (PNode x) = Ok v →
  ∃ it', SkipListLayerIterMut.insert_level x it i = Ok it' ∧ same sl (im_list it') ∧
    levels (im_list it') (prev_pointers it') (insertion_nodes it')
      (λ j, if decide (j = i) then (b, d, a, n ++ [x]) else F j) ∧
    insertion_point it' = insertion_point it ∧ item_delta it' = item_delta it ∧
    (∀ j q, j ≠ i → lk (im_list it') j q = lk sl j q) ∧ frame (n ++ [x]) sl (im_list it').
Proof.
  intros sl Hls Hi HF Hnd Hx Hv. destruct (Hls) as (Hlp & Hli & Hl).
  destruct (Hl i Hi) as (p & o & Hp & Ho & Hlev). rewrite HF in Hlev.
  unfold SkipListLayerIterMut.insert_level. rewrite Hp. res_simpl.
  pose proof (level_at _ _ _ _ _ _ _ _ Hlev) as Hat. apply path_head in Hat as Hg.
  unfold lk in Hg. fold sl. rewrite Hg. res_simpl.
  destruct (set_spec sl (PNode x) i v (head a) Hv) as (sl1 & -> & Hs1 & Hi1 & Hj1 & Hf1). res_simpl.
  rewrite Ho. res_simpl. pose proof (lv_chain _ _ _ _ _ _ _ _ Hlev) as Hc.
  assert ((i < length (prev_pointers it))%nat) by congruence.
  assert ((i < length (insertion_nodes it))%nat) by congruence.
  destruct n as [|n0 n].
  - rewrite Hc. res_simpl. eexists. split; [done|]. cbn [im_list prev_pointers insertion_nodes].
    split_and!; try done.
    + eapply levels_update; [exact Hls|exact Hi|done|done|by rewrite length_insert
        |intros; by rewrite list_lookup_insert_ne|by rewrite length_insert
        |intros; by rewrite list_lookup_insert_ne|intros j Hj; by rewrite decide_False|].
      exists (PNode x), (Some x). rewrite !list_lookup_insert_eq, decide_True by done.
      split_and!; [done..|]. eapply level_ext; [apply Hi1|].
      eapply level_insert_first; [done|]. by rewrite !app_nil_r in Hx.
    + intros l Hl'. apply Hf1. set_solver.
  - destruct Hc as [Hc _]. rewrite Hc. res_simpl.
    destruct (level_prev_chain _ _ _ _ _ _ _ _ Hlev ltac:(done)) as (w & Hw & Hpw).
    assert (p ≠ PNode x) as Hpx by (intros ->; set_solver).
    destruct (set_spec sl1 p i (head a) (Some x)) as (sl2 & -> & Hs2 & Hi2 & Hj2 & Hf2).
    { rewrite Hi1, upd_ne by done. exact Hg. }
    res_simpl. eexists. split; [done|]. cbn [im_list prev_pointers insertion_nodes].
    assert (same sl sl2) as Hs by (by transitivity sl1). split_and!; try done.
    + eapply levels_update; [exact Hls|exact Hi|done
        |intros j q Hj; by rewrite Hj2, Hj1|by rewrite length_insert
        |intros; by rewrite list_lookup_insert_ne|done|done|intros j Hj; by rewrite decide_False|].
      exists (PNode x), o. rewrite list_lookup_insert_eq, decide_True by done.
      split_and!; [done..|]. apply (level_ext _ (upd (upd (lk sl i) (PNode x) (head a)) p (Some x)));
        [|by eapply level_insert_next].
      intros q. rewrite Hi2. by apply upd_ext.
    + intros j q Hj. by rewrite Hj2, Hj1.
    + intros l Hl'. rewrite Hf2, Hf1; [done|set_solver|]. intros <-. set_solver.
Qed.

(** The new node at the levels it reaches. *)
Lemma insert_levels_ok x it B D A N h :
  let sl := im_list it in
  levels sl (prev_pointers it) (insertion_nodes it) (parts sl B D A N) →
  NoDup (B ++ D ++ A ++ N) → x ∉ B ++ D ++ A ++ N →
  height sl x = h → (h ≤ length (sl_pointers sl))%nat →
  (∀ i, (i < h)%nat → lk sl i (PNode x) = Ok None) →
  ∃ it', foldm (SkipListLayerIterMut.insert_level x) it (seq 0 h) = Ok it' ∧
    same sl (im_list it') ∧
    levels (im_list it') (prev_pointers it') (insertion_nodes it') (parts (im_list it') B D A (N ++ [x])) ∧
    insertion_point it' = insertion_point it ∧ item_delta it' = item_delta it ∧
    frame (N ++ [x]) sl (im_list it').
Proof.
  intros sl Hls Hnd Hx Hh Hle Hnull.
  set (F := λ (k j : nat), (lv sl j B, D, lv sl j A,
                            lv sl j N ++ if decide (j < k)%nat then [x] else [])).
  destruct (foldm_inv (SkipListLayerIterMut.insert_level x) (λ pre it1,
    same sl (im_list it1) ∧
    levels (im_list it1) (prev_pointers it1) (insertion_nodes it1) (F (length pre)) ∧
    insertion_point it1 = insertion_point it ∧ item_delta it1 = item_delta it ∧
    frame (N ++ [x]) sl (im_list it1) ∧
    ∀ j, (length pre ≤ j < h)%nat → lk (im_list it1) j (PNode x) = Ok None) (seq 0 h)) with (s := it)
    as (it' & Hf & Hs & Hlv & Hip & Hd & Hfr & _).
  - intros pre i it1 [post Hsplit] (Hs & Hlv & Hip & Hd & Hfr & Hn).
    assert (i = length pre ∧ (i < h)%nat) as [-> Hi].
    { assert (seq 0 h !! length pre = Some i) as Hi by by rewrite Hsplit, list_lookup_middle.
      apply lookup_seq in Hi. lia. }
    pose proof (same_levels _ _ Hs) as Hlen.
    destruct (insert_level_ok x it1 (length pre) _ (lv sl (length pre) B) D (lv sl (length pre) A)
      (lv sl (length pre) N) None Hlv) as (it2 & Hins & Hs2 & Hlv2 & Hip2 & Hd2 & Hj2 & Hfr2).
    + lia.
    + unfold F. rewrite decide_False by lia. by rewrite app_nil_r.
    + by apply lv_NoDup.
    + rewrite !elem_of_app, !elem_of_lv. set_solver.
    + apply Hn. lia.
    + exists it2. split; [done|]. rewrite length_app. cbn [length].
      split_and!; [by etransitivity| |congruence|congruence| |].
      * eapply levels_mono; [exact Hlv2|done|]. intros i p o Hi'.
        unfold F. destruct (decide (i = length pre)) as [->|].
        { rewrite decide_True by lia. done. }
        destruct (decide (i < length pre)%nat), (decide (i < length pre + 1)%nat); try done; lia.
      * transitivity (im_list it1); [done|]. eapply frame_mono; [|exact Hfr2].
        intros l. rewrite !elem_of_app, elem_of_lv. tauto.
      * intros j Hj. rewrite Hj2 by lia. apply Hn. lia.
  - split_and!; [done| |done|done|done|].
    + eapply levels_mono; [exact Hls|done|]. intros i p o Hi. unfold F. cbn [length].
      rewrite decide_False by lia. by rewrite app_nil_r.
    + intros j Hj. apply Hnull. lia.
  - exists it'. split_and!; [done..| |done|done|done]. rewrite length_seq in Hlv.
    eapply levels_mono; [exact Hlv|done|]. intros i p o Hi. unfold F, parts.
    rewrite !(same_lv sl (im_list it')) by done. rewrite lv_app, lv_cons, Hh.
    by destruct (decide (i < h)%nat).
Qed.

Lemma iter_insert it B D A N item :
  iter_inv it B D A N →
  ∃ it' x n, SkipListLayerIterMut.insert gen_log2 it item = Ok it' ∧ x = fresh (im_list it) ∧
    iter_inv it' B D A (N ++ [x]) ∧ nodes (im_list it') !! x = Some n ∧ node_item n = item ∧
    (∀ l, l ≠ x → node_item <$> nodes (im_list it') !! l = node_item <$> nodes (im_list it) !! l).
Proof.
  intros Hinv. pose proof Hinv as [Hpos [Hnd Hok] Hfr Hls Hpt Hmem Hcnt Hep Hdl].
  unfold SkipListLayerIterMut.insert, SkipListLayer.alloc_node.
  set (sl := im_list it) in *. set (x := fresh sl) in *.
  set (h := (length (sl_pointers sl) - _)%nat).
  assert (1 ≤ h ≤ length (sl_pointers sl))%nat as Hh by (unfold h; lia).
  set (sl0 := mkSL _ _ _ _ _ _ _ _).
  assert (x ∉ B ++ D ++ A ++ N) as Hx.
  { intros Hin. destruct (Hok x Hin) as (n & Hn & _). rewrite Hfr in Hn; [done|]. unfold x. lia. }
  assert (∀ l, l ≠ x → nodes sl0 !! l = nodes sl !! l) as Hsl0
    by (intros; cbn [nodes sl0]; by rewrite lookup_insert_ne).
  assert (∀ l, l ∈ B ++ D ++ A ++ N → height sl0 l = height sl l) as Hht
    by (intros l Hl; unfold height; rewrite Hsl0; [done|congruence]).
  assert (∀ i xs, (∀ l, l ∈ xs → l ∈ B ++ D ++ A ++ N) → lv sl0 i xs = lv sl i xs) as Hlv0
    by (intros i xs Hxs; apply lv_ext; auto).
  assert (nodes sl0 !! x = Some (mkNode item (replicate h None))) as Hx0
    by (cbn [nodes sl0]; by rewrite lookup_insert_eq).
  set (it0 := mkIterMut sl0 _ _ _ _).
  destruct (insert_levels_ok x it0 B D A N h) as (it' & Hf & Hs & Hlv & Hip & Hd & Hframe).
  - eapply levels_mono; [exact Hls|done|]. intros i p o Hi. unfold parts.
    cbn [im_list it0]. rewrite !Hlv0 by set_solver. apply level_frame; [done|].
    intros l Hl. unfold lk, PointerList.get, PointerList.deref. rewrite Hsl0; [done|].
    intros ->. rewrite !elem_of_app, !elem_of_lv in Hl. set_solver.
  - done.
  - done.
  - unfold height. cbn [im_list it0]. rewrite Hx0. cbn. by rewrite length_replicate.
  - cbn. lia.
  - intros i Hi. unfold lk, PointerList.get, PointerList.deref. cbn [im_list it0]. rewrite Hx0.
    res_simpl. cbn [node_pointers]. by rewrite lookup_replicate_2.
  - rewrite Hf. res_simpl. cbn [im_list it0] in Hs. pose proof (same_nodes _ _ Hs) as Hsn.
    assert (∃ n, nodes (im_list it') !! x = Some n ∧ node_item n = item) as (n & Hn & Hni).
    { specialize (Hsn x). rewrite Hx0 in Hsn. unfold shape in Hsn.
      destruct (nodes (im_list it') !! x) as [n|]; [|done]. exists n. by simplify_eq/=. }
    eexists _, x, n. split_and!; [done..| |done|done|].
    + split; cbn [im_list prev_pointers insertion_nodes insertion_point item_delta].
      * rewrite (same_levels _ _ Hs). done.
      * eapply nodes_ok_same; [done|]. split.
        -- rewrite !app_assoc, <- Permutation_cons_append, <- !app_assoc. by constructor.
        -- intros l Hl. destruct (decide (l = x)) as [->|Hlx].
           { eexists. split; [done|]. cbn [node_pointers]. rewrite length_replicate. done. }
           rewrite Hsl0 by done. apply Hok. set_solver.
      * intros l. rewrite (same_fresh _ _ Hs). cbn [fresh sl0]. intros Hl.
        specialize (Hsn l). rewrite Hsl0, Hfr in Hsn by (unfold x in *; lia).
        by destruct (nodes (im_list it') !! l).
      * done.
      * rewrite Hip. cbn [insertion_point it0]. rewrite (same_levels _ _ Hs). cbn [sl_pointers sl0].
        destruct (iter_point _ _ _ _ _ Hinv) as (ip & -> & Hl1 & Hl2). split; [done|]. intros i Hi.
        rewrite (same_lv sl0 (im_list it')), Hlv0 by (done || set_solver). by apply Hl2.
      * eapply mem_frame; [exact Hs|eapply frame_mono; [|exact Hframe]; set_solver|].
        replace (B ++ D ++ A ++ N ++ [x]) with ((B ++ D ++ A ++ N) ++ [x]) by by rewrite <- !app_assoc.
        apply (mem_alloc sl _ item h); [done|lia|done].
      * rewrite (same_items _ _ Hs). done.
      * rewrite (same_epoch _ _ Hs). done.
      * rewrite Hd. cbn [item_delta it0]. rewrite Hdl, length_app. cbn. lia.
    + intros l Hl. cbn [im_list]. rewrite (same_item sl0 (im_list it')) by done. by rewrite Hsl0.
Qed.
End insert.

(** ** [erase] *)
Section erase.
Context {K V : Type}.
Implicit Types (sl : SkipListLayer K V) (it : SkipListLayerIterMut K V) (l : Z) (B D A N : list Z).

Lemma unlink_level_ok y sl prev ins i F b d a n :
  levels sl prev ins F → (0 < i < length (sl_pointers sl))%nat →
  F i = (b, d, y :: a, n) → NoDup (b ++ d ++ (y :: a) ++ n) →
  ∃ sl', SkipListLayerIterMut.unlink_level y prev sl i = Ok sl' ∧ same sl sl' ∧
    levels sl' prev ins (λ j, if decide (j = i) then (b, d ++ [y], a, n) else F j) ∧
    frame (b ++ n) sl sl'.
Proof.
  intros Hls Hi HF Hnd. destruct (Hls) as (Hlp & Hli & Hl).
  destruct (Hl i) as (p & o & Hp & Ho & Hlev); [lia|]. rewrite HF in Hlev.
  rewrite bool_decide_eq_false_2 in Hlev by lia.
  pose proof (level_at _ _ _ _ _ _ _ _ Hlev) as [Hcur Hrest]. apply path_head in Hrest.
  unfold SkipListLayerIterMut.unlink_level. rewrite Hp. res_simpl.
  unfold lk in Hrest. rewrite Hrest. res_simpl.
  destruct (set_spec sl p i (Some y) (head a) Hcur) as (sl' & -> & Hs & Hi' & Hj & Hfr).
  exists sl'. split_and!; [done..| |].
  2:{ intros l Hl'. apply Hfr. intros <-.
      destruct (level_prev_cases _ _ _ _ _ _ _ _ Hlev) as [?|(x & Hx & [= ->])]; set_solver. }
  eapply (levels_update _ _ _ _ _ _ _ _ i); [exact Hls|lia|done|done|done|done|done|done|intros; by rewrite decide_False|].
  exists p, o. split_and!; [done..|]. rewrite decide_True, bool_decide_eq_false_2 by lia.
  eapply level_ext; [apply Hi'|]. destruct n as [|n0 n].
  - apply level_erase_upper; [done|]. by rewrite app_nil_r in Hnd.
  - by apply level_erase_chain.
Qed.

Lemma unlink_levels_ok y sl prev ins B D A N F :
  levels sl prev ins F → nodes_ok sl (B ++ D ++ (y :: A) ++ N) →
  F 0%nat = parts sl B (D ++ [y]) A N 0 →
  (∀ i, i ≠ 0%nat → F i = parts sl B D (y :: A) N i) →
  ∃ sl', foldm (SkipListLayerIterMut.unlink_level y prev) sl (seq 1 (height sl y - 1)) = Ok sl' ∧
    same sl sl' ∧ levels sl' prev ins (parts sl' B (D ++ [y]) A N) ∧ frame (B ++ N) sl sl'.
Proof.
  intros Hls Hok HF0 HF. pose proof Hok as [Hnd _].
  destruct (nodes_ok_height _ _ y Hok) as [Hh1 Hh2]; [set_solver|].
  set (G := λ (k j : nat), if decide (j ≤ k)%nat then parts sl B (D ++ [y]) A N j
                           else parts sl B D (y :: A) N j).
  destruct (foldm_inv (SkipListLayerIterMut.unlink_level y prev) (λ pre sl1,
    same sl sl1 ∧ levels sl1 prev ins (G (length pre)) ∧ frame (B ++ N) sl sl1)
    (seq 1 (height sl y - 1))) with (s := sl) as (sl' & Hf & Hs & Hlv & Hfr).
  - intros pre i sl1 [post Hsplit] (Hs & Hlv & Hfr).
    assert (i = S (length pre) ∧ (i < height sl y)%nat) as [-> Hi].
    { assert (seq 1 (height sl y - 1) !! length pre = Some i) as Hi by by rewrite Hsplit, list_lookup_middle.
      apply lookup_seq in Hi. lia. }
    destruct (unlink_level_ok y sl1 prev ins (S (length pre)) _ (lv sl (S (length pre)) B) D
      (lv sl (S (length pre)) A) (lv sl (S (length pre)) N) Hlv) as (sl2 & Hu & Hs2 & Hlv2 & Hfr2).
    + rewrite (same_levels _ _ Hs). lia.
    + unfold G, parts. rewrite decide_False by lia. rewrite lv_cons, decide_True by lia. done.
    + pose proof (lv_NoDup sl (S (length pre)) B D (y :: A) N Hnd) as Hnd'.
      by rewrite lv_cons, decide_True in Hnd' by lia.
    + exists sl2. split; [done|]. rewrite length_app. cbn [length]. split_and!; [by etransitivity| |].
      2:{ transitivity sl1; [done|]. eapply frame_mono; [|exact Hfr2].
          intros l. rewrite !elem_of_app, !elem_of_lv. tauto. }
      eapply levels_mono; [exact Hlv2|done|]. intros i p o Hi'. unfold G.
      destruct (decide (i = S (length pre))) as [->|]; [by rewrite decide_True by lia|].
      destruct (decide (i ≤ length pre)%nat), (decide (i ≤ length pre + 1)%nat); try done; lia.
  - split_and!; [done| |done]. eapply levels_mono; [exact Hls|done|].
    intros [|i] p o Hi; unfold G; cbn [length].
    + by rewrite HF0.
    + rewrite HF by done. by rewrite decide_False by lia.
  - exists sl'. split_and!; [done..| |done]. rewrite length_seq in Hlv.
    eapply levels_mono; [exact Hlv|done|]. intros i p o Hi. unfold G, parts.
    rewrite !(same_lv sl sl') by done. case_decide; [done|].
    rewrite lv_cons, decide_False, bool_decide_eq_false_2 by lia. apply level_erase_below.
Qed.

Lemma erase_bottom_ok it B D y A N p0 o :
  let sl := im_list it in
  iter_inv it B D (y :: A) N →
  prev_pointers it !! 0%nat = Some p0 → insertion_nodes it !! 0%nat = Some o →
  ∃ prev sl1, SkipListLayerIterMut.erase_bottom it p0 y o = Ok (prev, sl1) ∧ same sl sl1 ∧
    levels sl1 prev (insertion_nodes it) (λ i, if decide (i = 0%nat)
      then parts sl B (D ++ [y]) A N 0 else parts sl B D (y :: A) N i) ∧
    frame (B ++ D ++ N) sl sl1.
Proof.
  intros sl Hinv Hp0 Ho. pose proof Hinv as [Hpos Hok _ Hls _ _ _ _ _]. fold sl in Hpos, Hok, Hls.
  destruct (Hls) as (Hlp & Hli & Hl). destruct (Hl 0%nat Hpos) as (p & o' & Hp & Ho' & Hlev).
  assert (p = p0) as -> by congruence. assert (o' = o) as -> by congruence.
  unfold parts in Hlev. change (bool_decide (0%nat = 0%nat)) with true in Hlev.
  destruct (nodes_ok_height _ _ y Hok) as [Hh1 Hh2]; [set_solver|].
  rewrite lv_cons, decide_True in Hlev by lia.
  pose proof (lv_NoDup sl 0 B D (y :: A) N (proj1 Hok)) as Hnd0.
  rewrite lv_cons, decide_True in Hnd0 by lia.
  unfold SkipListLayerIterMut.erase_bottom. fold sl.
  pose proof (lv_chain _ _ _ _ _ _ _ _ Hlev) as Hc. destruct (lv sl 0 N) as [|n0 n] eqn:HN.
  - subst o. eexists _, sl. split_and!; [done..| |done].
    eapply levels_update; [exact Hls|exact Hpos|done|done|by rewrite length_insert
      |intros; by rewrite list_lookup_insert_ne|done|done|intros; by rewrite decide_False|].
    exists (PNode y), None. rewrite list_lookup_insert_eq by lia. split_and!; [done..|].
    rewrite decide_True by done. unfold parts. rewrite HN. by eapply level_erase_bottom.
  - destruct Hc as [-> _]. pose proof (level_at _ _ _ _ _ _ _ _ Hlev) as [Hcur Hrest].
    apply path_head in Hrest. unfold lk in Hrest. rewrite Hrest. res_simpl.
    destruct (set_spec sl p0 0 (Some y) (head (lv sl 0 A)) Hcur) as (sl1 & -> & Hs & Hi' & Hj & Hfr).
    eexists _, sl1. split_and!; [done..| |].
    + eapply levels_update; [exact Hls|exact Hpos|done|done|done|done|done|done
        |intros; by rewrite decide_False|].
      exists p0, (Some n0). split_and!; [done..|]. rewrite decide_True by done.
      unfold parts. rewrite HN. eapply level_ext; [apply Hi'|]. by apply level_erase_chain.
    + intros l Hl'. apply Hfr. intros <-.
      destruct (level_prev_cases _ _ _ _ _ _ _ _ Hlev) as [?|(x & Hx & [= ->])]; [done|].
      rewrite <- HN, !elem_of_app, !elem_of_lv in Hx. set_solver.
Qed.

Lemma iter_erase it B D y A N :
  iter_inv it B D (y :: A) N →
  ∃ it', SkipListLayerIterMut.erase it = Ok it' ∧ iter_inv it' B (D ++ [y]) A N ∧
    insertion_point it' ≠ None ∧
    ∀ l, node_item <$> nodes (im_list it') !! l = node_item <$> nodes (im_list it) !! l.
Proof.
  intros Hinv. pose proof Hinv as [Hpos Hok Hfr Hls _ Hmem Hcnt Hep Hdl].
  set (sl := im_list it) in *.
  destruct (iter_cur _ _ _ _ _ Hinv) as (p0 & Hp0 & Hg0). cbn [head] in Hg0.
  destruct (iter_point _ _ _ _ _ Hinv) as (ip & Hip & Hipl & Hipe).
  unfold SkipListLayerIterMut.erase. rewrite Hp0. res_simpl. rewrite Hg0. res_simpl. rewrite Hip.
  destruct (proj2 (proj2 Hls) 0%nat Hpos) as (_ & o & _ & Ho & _). rewrite Ho. res_simpl.
  destruct (erase_bottom_ok _ _ _ _ _ _ _ _ Hinv Hp0 Ho) as (prev & sl1 & -> & Hs1 & Hlv1 & Hfr1).
  fold sl in Hs1, Hlv1, Hfr1. res_simpl.
  destruct (unlink_levels_ok y sl1 prev (insertion_nodes it) B D A N _ Hlv1)
    as (sl2 & Hf & Hs2 & Hlv2 & Hfr2).
  { by eapply nodes_ok_same. }
  { cbn [decide]. by rewrite (same_parts sl sl1). }
  { intros i Hi. rewrite decide_False by done. by rewrite (same_parts sl sl1). }
  assert (∃ n, nodes sl1 !! y = Some n ∧ length (node_pointers n) = height sl1 y) as (n & Hn & Hlen).
  { unfold height. destruct (proj2 (nodes_ok_same _ _ _ Hs1 Hok) y) as (n & -> & _); [set_solver|]. by exists n. }
  unfold SkipListLayer.node. rewrite Hn. res_simpl. rewrite Hlen, Hf. res_simpl.
  assert (same sl sl2) as Hs by by etransitivity.
  eexists. split; [done|]. split_and!; [|done|].
  - split; cbn [im_list prev_pointers insertion_nodes insertion_point item_delta].
    + by rewrite (same_levels _ _ Hs).
    + eapply nodes_ok_same; [exact Hs|]. by rewrite <- app_assoc.
    + intros l. rewrite (same_fresh _ _ Hs). intros Hl'. pose proof (same_nodes _ _ Hs l) as Hsn.
      rewrite Hfr in Hsn by done. by destruct (nodes sl2 !! l).
    + done.
    + rewrite (same_levels _ _ Hs). split; [done|]. intros i Hi.
      rewrite (same_lv sl sl2) by done. by apply Hipe.
    + rewrite <- app_assoc. eapply mem_frame; [exact Hs| |done].
      transitivity sl1; (eapply frame_mono; [|done]); set_solver.
    + rewrite (same_items _ _ Hs), Hcnt. by rewrite <- app_assoc.
    + by rewrite (same_epoch _ _ Hs).
    + rewrite Hdl, length_app. cbn. lia.
  - intros l. by apply same_item.
Qed.
End erase.
