(* ===== verification/SkipListCommit.v ===== *)
(** * Advancing and committing the writer's iterator

    The rest of the contract: [advance], [commit] with the retirement of the
    erased nodes, and the instance of [LayerIteratorMutLaws]. *)

From S2P Require Import Prelude LsmTypes Merge SkipList SkipListLevels SkipListIter.

(** A layer no transaction is open on: every level holds the nodes that reach
    it, in order. *)
Record layer_inv {K V} (sl : SkipListLayer K V) (xs : list Z) : Prop := {
  li_levels : (0 < length (sl_pointers sl))%nat;
  li_nodes : nodes_ok sl xs;
  li_fresh : ∀ l, fresh sl ≤ l → nodes sl !! l = None;
  li_path : ∀ i, (i < length (sl_pointers sl))%nat → path (lk sl i) PHead (lv sl i xs);
  li_mem : mem sl xs;
  li_count : sl_item_count sl = Z.of_nat (length xs);
}.

(** ** [advance] *)
Section advance.
Context {K V : Type} (gen_log2 : Z → nat).
Implicit Types (sl : SkipListLayer K V) (it : SkipListLayerIterMut K V) (l : Z) (B D A N : list Z).

Lemma prev_advance x (prev : list plref) h :
  (h ≤ length prev)%nat →
  ∃ prev', foldm (λ prev i, _ ← unwrap (prev !! i); Ok (<[i := PNode x]> prev)) prev (seq 0 h) = Ok prev' ∧
    length prev' = length prev ∧
    ∀ i, prev' !! i = if decide (i < h)%nat then Some (PNode x) else prev !! i.
Proof.
  intros Hle.
  destruct (foldm_inv (λ prev i, _ ← unwrap (prev !! i); Ok (<[i := PNode x]> prev))
    (λ pre prev', length prev' = length prev ∧
      ∀ i, prev' !! i = if decide (i < length pre)%nat then Some (PNode x) else prev !! i) (seq 0 h))
    with (s := prev) as (prev' & Hf & Hlen & Hp).
  - intros pre i p [post Hsplit] (Hlen & Hp).
    assert (i = length pre ∧ (i < h)%nat) as [-> Hi].
    { assert (seq 0 h !! length pre = Some i) as Hi by by rewrite Hsplit, list_lookup_middle.
      apply lookup_seq in Hi. lia. }
    destruct (lookup_lt_is_Some_2 p (length pre)) as [q Hq]; [lia|]. rewrite Hq. res_simpl.
    eexists. split; [done|]. rewrite length_insert, length_app. cbn [length]. split; [done|].
    intros i. destruct (decide (i = length pre)) as [->|].
    + rewrite list_lookup_insert_eq by lia. by rewrite decide_True by lia.
    + rewrite list_lookup_insert_ne by done. rewrite Hp.
      destruct (decide (i < length pre)%nat), (decide (i < length pre + 1)%nat); try done; lia.
  - done.
  - exists prev'. rewrite length_seq in Hp. done.
Qed.

(** Outside a transaction the iterator steps over the node. *)
Lemma iter_step it B x A :
  iter_inv it B [] (x :: A) [] → insertion_point it = None →
  ∃ it', SkipListLayerIterMut.advance gen_log2 it = Ok it' ∧ iter_inv it' (B ++ [x]) [] A [] ∧
    im_list it' = im_list it.
Proof.
  intros Hinv Hip. pose proof Hinv as [Hpos Hok Hfr Hls _ Hmem Hcnt Hep Hdl].
  set (sl := im_list it) in *.
  destruct (iter_cur _ _ _ _ _ Hinv) as (p0 & Hp0 & Hg0). cbn [head] in Hg0.
  destruct (nodes_ok_height _ _ x Hok) as [Hh1 Hh2]; [set_solver|].
  destruct (iter_node _ _ _ _ _ _ Hinv) as [n Hn]. fold sl in Hn.
  assert (length (node_pointers n) = height sl x) as Hlen by (unfold height; by rewrite Hn).
  unfold SkipListLayerIterMut.advance. rewrite Hip, Hp0. res_simpl. fold sl. fold sl in Hg0. rewrite Hg0.
  res_simpl. unfold SkipListLayer.node. rewrite Hn. res_simpl. rewrite Hlen.
  destruct Hls as (Hlp & Hli & Hl).
  destruct (prev_advance x (prev_pointers it) (height sl x)) as (prev & -> & Hpl & Hpp); [lia|]. res_simpl.
  eexists. split; [done|]. split; [|done].
  split; cbn [im_list prev_pointers insertion_nodes insertion_point item_delta]; try done.
  - cbn [app] in *. by rewrite <- app_assoc.
  - split_and!; [congruence|done|]. intros i Hi. destruct (Hl i Hi) as (p & o & Hp & Ho & Hlev).
    unfold parts in *. rewrite Hpp, lv_app, lv_cons. rewrite lv_cons in Hlev.
    change (lv sl i []) with (@nil Z) in *. destruct (decide (i < height sl x)%nat).
    + exists (PNode x), o. split_and!; [done..|]. by eapply level_advance.
    + exists p, o. rewrite app_nil_r. done.
  - eapply mem_perm; [|done]. by rewrite <- app_assoc.
  - rewrite Hcnt, !length_app. cbn. lia.
Qed.

(** What the iterator shows of the layer. *)
Definition rep it (b a : list (Item K V)) : Prop :=
  ∃ B D A N, iter_inv it B D A N ∧ b = items (im_list it) (B ++ N) ∧ a = items (im_list it) A.

Lemma rep_get it b a : rep it b a → SkipListLayerIterMut.get it = Ok (head a).
Proof. intros (B & D & A & N & Hinv & -> & ->). by eapply iter_get. Qed.

Lemma rep_insert it b a x :
  rep it b a → ∃ it', SkipListLayerIterMut.insert gen_log2 it x = Ok it' ∧ rep it' (b ++ [x]) a.
Proof.
  intros (B & D & A & N & Hinv & -> & ->).
  destruct (iter_insert gen_log2 it B D A N x Hinv) as (it' & l & n & Hins & Hl & Hinv' & Hn & Hni & Hit).
  exists it'. split; [done|]. exists B, D, A, (N ++ [l]). split; [done|].
  destruct (ii_nodes _ _ _ _ _ Hinv') as [Hnd _].
  assert (l ∉ B ++ D ++ A ++ N) as Hln.
  { rewrite !app_assoc, <- Permutation_cons_append, <- !app_assoc in Hnd. by apply NoDup_cons in Hnd as [? _]. }
  rewrite !(items_app (im_list it')), (items_cons _ _ [] _ Hn), Hni, !app_assoc.
  rewrite !(items_ext (im_list it) (im_list it')) by (intros; apply Hit; set_solver).
  by rewrite (items_app (im_list it)).
Qed.

Lemma rep_erase it b x a :
  rep it b (x :: a) → ∃ it', SkipListLayerIterMut.erase it = Ok it' ∧ rep it' b a.
Proof.
  intros (B & D & [|l A] & N & Hinv & -> & Ha); [done|].
  destruct (iter_node _ _ _ _ _ _ Hinv) as [n Hn]. rewrite (items_cons _ _ _ _ Hn) in Ha.
  injection Ha as -> ->.
  destruct (iter_erase it B D l A N Hinv) as (it' & He & Hinv' & _ & Hit). exists it'. split; [done|].
  exists B, (D ++ [l]), A, N. split; [done|].
  by rewrite !(items_ext (im_list it) (im_list it')) by (intros; apply Hit).
Qed.

Lemma rep_advance it b x a :
  rep it b (x :: a) → ∃ it', SkipListLayerIterMut.advance gen_log2 it = Ok it' ∧ rep it' (b ++ [x]) a.
Proof.
  intros Hrep. destruct (insertion_point it) as [ip|] eqn:Hip.
  - unfold SkipListLayerIterMut.advance. rewrite Hip, (rep_get _ _ _ Hrep). res_simpl. cbn [head].
    destruct (rep_insert _ _ _ x Hrep) as (it1 & -> & Hrep1). res_simpl. by eapply rep_erase.
  - destruct Hrep as (B & D & [|l A] & N & Hinv & -> & Ha); [done|].
    destruct (iter_node _ _ _ _ _ _ Hinv) as [n Hn]. rewrite (items_cons _ _ _ _ Hn) in Ha.
    injection Ha as -> ->. pose proof (ii_point _ _ _ _ _ Hinv) as Hpt. rewrite Hip in Hpt.
    destruct Hpt as [-> ->]. destruct (iter_step it B l A Hinv Hip) as (it' & Hadv & Hinv' & Hsl).
    exists it'. split; [done|]. exists (B ++ [l]), [], A, []. split; [done|]. rewrite Hsl, !app_nil_r.
    by rewrite items_app, (items_cons _ _ _ _ Hn).
Qed.
End advance.

(** ** Freeing a chain *)
Section free.
Context {K V : Type}.
Implicit Types (sl : SkipListLayer K V) (l : Z) (ds : list Z) (e : ptr).

(** The layer without the boxes [ds]. *)
Definition freed sl (ds : list Z) (nodes' : gmap Z (SkipListNode K V)) : SkipListLayer K V :=
  mkSL (sl_pointers sl) nodes' (fresh sl) ((allocated sl - Z.of_nat (length ds)) `mod` u32_modulus)
    (epoch sl) (current_count sl) (erase_lists sl) (sl_item_count sl).

Lemma free_loop_ok ds fuel sl s e :
  (length ds < fuel)%nat → NoDup ds → chain (lk sl 0) s ds e →
  ∃ nodes', Inner.free_erase_list_loop fuel sl (Some s) e = Ok (freed sl ds nodes') ∧
    ∀ l, nodes' !! l = if decide (l ∈ ds) then None else nodes sl !! l.
Proof.
  revert fuel sl s. induction ds as [|d ds IH]; intros fuel sl s Hf Hnd (ds' & Hds & Hp & He & Hne); [done|].
  injection Hds as -> <-. destruct fuel as [|fuel]; [cbn in Hf; lia|].
  apply NoDup_cons in Hnd as [Hs Hnd].
  cbn [Inner.free_erase_list_loop]. rewrite decide_True by (intros <-; by eapply Hne; [|left]).
  assert (∃ nx, lk sl 0 (PNode s) = Ok nx ∧
    match ds with [] => nx = e | d :: ds' => nx = Some d ∧ chain (lk sl 0) d ds e end) as (nx & Hnx & Hch).
  { destruct ds as [|d ds]; [by exists e|]. exists (Some d). destruct Hp as [? Hp]. split_and!; [done..|].
    exists ds. rewrite endp_cons in He. split_and!; [done..|]. intros l ->. specialize (Hne l eq_refl). set_solver. }
  unfold lk, PointerList.get, PointerList.deref in Hnx. unfold SkipListLayer.free_node.
  destruct (nodes sl !! s) as [n|] eqn:Hn; [|done]. res_simpl. res_simpl in Hnx.
  destruct (node_pointers n !! 0%nat) as [q|]; [|done]. injection Hnx as ->. res_simpl.
  set (sl1 := mkSL _ (delete s (nodes sl)) _ _ _ _ _ _).
  destruct ds as [|d ds].
  - exists (delete s (nodes sl)). split; [|].
    + destruct fuel as [|fuel]; [cbn in Hf; lia|]. cbn [Inner.free_erase_list_loop]. subst nx.
      destruct e as [w|]; [rewrite decide_False by auto|]; done.
    + intros l. destruct (decide (l ∈ [s])) as [->%list_elem_of_singleton|Hl]; [apply lookup_delete_eq|].
      apply lookup_delete_ne. set_solver.
  - destruct Hch as [-> Hch]. destruct (IH fuel sl1 d) as (nodes' & Hloop & Hl); [cbn in *; lia|done| |].
    { eapply (chain_frame [s]); [| |exact Hch].
      - intros l Hl. cbn [nodes sl1]. apply lookup_delete_ne. set_solver.
      - intros l Hl ->%list_elem_of_singleton. done. }
    exists nodes'. split.
    + rewrite Hloop. unfold freed. cbn [sl1 sl_pointers fresh allocated epoch current_count erase_lists sl_item_count].
      do 2 f_equal. rewrite Zminus_mod_idemp_l. f_equal. cbn [length]. lia.
    + intros l. rewrite Hl. cbn [nodes sl1]. destruct (decide (l ∈ d :: ds)).
      * rewrite decide_True; [done|]. by right.
      * destruct (decide (l = s)) as [->|]; [rewrite decide_True by (by left); apply lookup_delete_eq|].
        rewrite decide_False by set_solver. by apply lookup_delete_ne.
Qed.

Lemma mem_size sl live : mem sl live → (length live ≤ size (nodes sl))%nat.
Proof.
  intros [R [_ _ Hnd Hn _ _ _ _]]. apply NoDup_app in Hnd as (Hnd & _ & _).
  rewrite <- size_dom, <- (size_list_to_set (C := gset Z) live) by done.
  apply subseteq_size. intros l Hl. apply elem_of_list_to_set in Hl. apply elem_of_dom, Hn. set_solver.
Qed.

(** Freeing a chain of live boxes that are no longer in the list. *)
Lemma free_erase_list_ok sl live ds s e :
  mem sl (live ++ ds) → chain (lk sl 0) s ds e →
  ∃ nodes', Inner.free_erase_list sl (Some s) e = Ok (freed sl ds nodes') ∧
    frame ds sl (freed sl ds nodes') ∧ mem (freed sl ds nodes') live ∧
    ∀ l, l ∈ ds → nodes' !! l = None.
Proof.
  intros Hmem Hch. pose proof (mem_size _ _ Hmem) as Hsize. rewrite length_app in Hsize.
  destruct Hmem as [R [Hd Hc Hnd Hn Hh Ha He Hm]].
  assert (NoDup ds) as Hnds by (rewrite <- app_assoc in Hnd; apply NoDup_app in Hnd as (_ & _ & [? _]%NoDup_app); done).
  destruct (free_loop_ok ds (S (size (nodes sl))) sl s e) as (nodes' & Hloop & Hl); [lia|done..|].
  exists nodes'. assert (frame ds sl (freed sl ds nodes')) as Hfr.
  { intros l Hl'. cbn [nodes freed]. by rewrite Hl, decide_False. }
  assert ((live ++ ds) ++ retired R ≡ₚ ds ++ live ++ retired R) as Hperm by solve_Permutation.
  assert (∀ l, l ∈ ds → l ∉ live ++ retired R) as Hout.
  { intros l Hl1 Hl2. rewrite Hperm in Hnd. apply NoDup_app in Hnd as (_ & Hdis & _). by eapply Hdis. }
  split_and!; [done..| |by intros l Hl'; rewrite Hl, decide_True].
  exists R. split; cbn [freed erase_lists nodes allocated epoch]; try done.
  - intros ep el ds' Hel HR. eapply chain_frame; [exact Hfr| |by eauto].
    intros l Hl1 Hl2. eapply Hout; [done|]. apply elem_of_app. right. by eapply elem_of_retired.
  - rewrite Hperm in Hnd. by apply NoDup_app in Hnd as (_ & _ & ?).
  - intros l. rewrite Hl. case_decide as Hin.
    + split; [by intros [? ?]|]. intros Hl'. by destruct (Hout l Hin).
    + rewrite Hn, Hperm, elem_of_app. tauto.
  - intros l. unfold height. cbn [freed nodes]. rewrite Hl. case_decide; [by intros [? ?]|]. apply Hh.
  - rewrite Ha, Hperm, !length_app, Zminus_mod_idemp_l. f_equal. lia.
Qed.
End free.

(** ** [commit] *)
Section commit.
Context {K V : Type}.
Implicit Types (sl : SkipListLayer K V) (it : SkipListLayerIterMut K V) (l : Z) (B D A N : list Z).

(** The pointer that leads out of the nodes before the insertion point. *)
Lemma level_point z g b d a n p o : level z g b d a n p o → ∃ v, g (endp PHead b) = Ok v.
Proof.
  intros [(d' & Hp & _ & _) _ _]. rewrite path_app in Hp. destruct Hp as [_ Hp].
  apply path_head in Hp. eauto.
Qed.

Lemma endp_frame sl sl' B :
  (∀ l, PNode l ≠ endp PHead B → nodes sl' !! l = nodes sl !! l) → frame B sl sl'.
Proof.
  intros Hf l Hl. apply Hf. intros He. destruct (endp_cases PHead B) as [H|(x & Hx & H)]; congruence.
Qed.

(** The insertion chain is spliced in, level by level. *)
Lemma splice_ok it B D A N ip :
  iter_inv it B D A N → insertion_point it = Some ip → N ≠ [] →
  let sl := im_list it in
  ∃ sl', foldm (SkipListLayerIterMut.splice_level ip (insertion_nodes it)) sl
      (seq 0 (length (insertion_nodes it))) = Ok sl' ∧
    same sl sl' ∧ frame B sl sl' ∧
    ∀ i, (i < length (sl_pointers sl))%nat → path (lk sl' i) PHead (lv sl' i (B ++ N ++ A)).
Proof.
  intros Hinv Hip HN sl. pose proof Hinv as [Hpos Hok _ (Hlp & Hli & Hl) Hpt _ _ _ _].
  fold sl in Hpos, Hok, Hlp, Hli, Hl, Hpt. rewrite Hip in Hpt. destruct Hpt as [_ Hpt]. rewrite Hli.
  destruct (foldm_inv (SkipListLayerIterMut.splice_level ip (insertion_nodes it)) (λ pre sl1,
    same sl sl1 ∧ frame B sl sl1 ∧
    (∀ j, (j < length pre)%nat → path (lk sl1 j) PHead (lv sl j (B ++ N ++ A))) ∧
    (∀ j q, (length pre ≤ j)%nat → lk sl1 j q = lk sl j q)) (seq 0 (length (sl_pointers sl))))
    with (s := sl) as (sl' & Hf & Hs & Hfr & Hp & _).
  - intros pre i sl1 [post Hsplit] (Hs & Hfr & Hpre & Hpost).
    assert (i = length pre ∧ (i < length (sl_pointers sl))%nat) as [-> Hi].
    { assert (seq 0 (length (sl_pointers sl)) !! length pre = Some i) as Hi
        by by rewrite Hsplit, list_lookup_middle.
      apply lookup_seq in Hi. lia. }
    destruct (Hl _ Hi) as (p & o & Hpp & Ho & Hlev). unfold parts in Hlev.
    unfold SkipListLayerIterMut.splice_level. rewrite Ho. res_simpl. rewrite length_app. cbn [length].
    pose proof (lv_chain _ _ _ _ _ _ _ _ Hlev) as Hc.
    assert (∀ j sl2, (∀ j q, j ≠ length pre → lk sl2 j q = lk sl1 j q) → (j < length pre)%nat →
      path (lk sl2 j) PHead (lv sl j (B ++ N ++ A))) as Hkeep.
    { intros j sl2 Hj Hlt. eapply path_ext; [| |by apply Hpre]; intros; apply Hj; lia. }
    destruct (lv sl (length pre) N) as [|n0 n] eqn:HlN.
    + subst o. exists sl1. split_and!; [done..| |].
      * intros j Hj. destruct (decide (j = length pre)) as [->|]; [|apply Hpre; lia].
        rewrite !lv_app, HlN. destruct (decide (length pre = 0%nat)) as [H0|H0].
        { rewrite H0, lv_0 in HlN; [done|]. intros l Hl'.
          eapply nodes_ok_height; [exact Hok|]. set_solver. }
        rewrite bool_decide_eq_false_2 in Hlev by done. eapply level_commit_none.
        eapply level_ext; [|exact Hlev]. intros q. by apply Hpost.
      * intros j q Hj. apply Hpost. lia.
    + destruct Hc as [-> _]. rewrite Hpt by done. res_simpl.
      destruct (level_point _ _ _ _ _ _ _ _ Hlev) as [v Hv].
      destruct (set_spec sl1 (endp PHead (lv sl (length pre) B)) (length pre) v (Some n0))
        as (sl2 & -> & Hs2 & Hi2 & Hj2 & Hf2); [by rewrite Hpost|].
      exists sl2. split_and!; [done|by etransitivity| | |].
      * transitivity sl1; [done|]. eapply frame_mono; [|by apply endp_frame].
        intros l. rewrite elem_of_lv. tauto.
      * intros j Hj. destruct (decide (j = length pre)) as [->|]; [|apply Hkeep; [done|lia]].
        rewrite !lv_app, HlN.
        eapply (path_ext (upd (lk sl (length pre)) (endp PHead (lv sl (length pre) B)) (Some n0))).
        -- rewrite Hi2. apply upd_ext. intros. by apply Hpost.
        -- intros w _. rewrite Hi2. apply upd_ext. intros. by apply Hpost.
        -- eapply level_commit; [exact Hlev| |done]. rewrite <- HlN. apply lv_NoDup, Hok.
      * intros j q Hj. rewrite Hj2 by lia. apply Hpost. lia.
  - split_and!; [done..| |done]. intros j Hj. cbn in Hj. lia.
  - exists sl'. split_and!; [done..|]. intros i Hi. rewrite (same_lv sl sl') by done.
    apply Hp. by rewrite length_seq.
Qed.

(** A transaction that only erased: the bottom level skips what it erased. *)
Lemma unsplice_ok it B D A ip :
  iter_inv it B D A [] → insertion_point it = Some ip →
  let sl := im_list it in
  ∃ sl', PointerList.set sl (endp PHead (lv sl 0 B)) 0 (head A) = Ok sl' ∧ same sl sl' ∧ frame B sl sl' ∧
    ∀ i, (i < length (sl_pointers sl))%nat → path (lk sl' i) PHead (lv sl' i (B ++ A)).
Proof.
  intros Hinv Hip sl. pose proof Hinv as [Hpos Hok _ (Hlp & Hli & Hl) _ _ _ _ _].
  fold sl in Hpos, Hok, Hl. destruct (Hl _ Hpos) as (p & o & _ & _ & Hlev).
  unfold parts in Hlev. destruct (level_point _ _ _ _ _ _ _ _ Hlev) as [v Hv].
  destruct (set_spec sl _ 0 v (head A) Hv) as (sl' & Hset & Hs & Hi & Hj & Hf).
  exists sl'. split_and!; [done..| |].
  - eapply frame_mono; [|by apply endp_frame]. intros l. rewrite elem_of_lv. tauto.
  - intros i Hlt. rewrite (same_lv sl sl'), lv_app by done. destruct (Hl i Hlt) as (p' & o' & _ & _ & Hlev').
    unfold parts in Hlev'. destruct i as [|i].
    + pose proof (lv_NoDup sl 0 B D A [] (proj1 Hok)) as Hnd. rewrite app_nil_r in Hnd.
      eapply path_ext; [apply Hi|intros; apply Hi|].
      replace (head A) with (head (lv sl 0 A)).
      * by eapply level_commit_erase.
      * f_equal. apply lv_0. intros l Hl'. eapply nodes_ok_height; [exact Hok|]. set_solver.
    + eapply path_ext; [by apply Hj|by intros; apply Hj|]. by eapply level_commit_none.
Qed.

Lemma layer_inv_frame sl sl' ds xs :
  frame ds sl sl' → sl_pointers sl' = sl_pointers sl → fresh sl' = fresh sl →
  (∀ l, l ∈ ds → nodes sl' !! l = None) → (∀ l, l ∈ xs → l ∉ ds) →
  (0 < length (sl_pointers sl))%nat → nodes_ok sl xs → (∀ l, fresh sl ≤ l → nodes sl !! l = None) →
  (∀ i, (i < length (sl_pointers sl))%nat → path (lk sl i) PHead (lv sl i xs)) →
  mem sl' xs → sl_item_count sl' = Z.of_nat (length xs) → layer_inv sl' xs ∧ items sl' xs = items sl xs.
Proof.
  intros Hf Hsp Hfr Hds Hxs Hpos [Hnd Hok] Hfresh Hp Hmem Hcnt.
  assert (∀ l, l ∈ xs → nodes sl' !! l = nodes sl !! l) as Hn by (intros; by apply Hf, Hxs).
  split; [split; try done|].
  - by rewrite Hsp.
  - split; [done|]. intros l Hl. rewrite Hn, Hsp by done. by apply Hok.
  - intros l. rewrite Hfr. intros Hl. destruct (decide (l ∈ ds)); [by apply Hds|]. rewrite Hf by done. auto.
  - intros i. rewrite Hsp. intros Hi.
    rewrite (lv_ext sl sl') by (intros; unfold height; by rewrite Hn).
    eapply path_ext; [| |by apply Hp]; unfold lk, PointerList.get, PointerList.deref.
    + by rewrite Hsp.
    + intros l [Hl _]%elem_of_lv. by rewrite Hn.
  - apply items_ext. intros l Hl. by rewrite Hn.
Qed.

(** The counts are not part of the memory. *)
Lemma mem_counts sl live c n :
  mem sl live → mem (with_inner sl (epoch sl) c (erase_lists sl) n) live.
Proof. intros [R []]. exists R. by split. Qed.

(** The new count, and the erased nodes are freed or handed to the readers. *)
Lemma retire_ok sl B D A N :
  let xs := B ++ N ++ A in
  mem sl (B ++ D ++ A ++ N) → nodes_ok sl (B ++ D ++ A ++ N) → epoch sl < u64_max →
  (0 < length (sl_pointers sl))%nat → (∀ l, fresh sl ≤ l → nodes sl !! l = None) →
  (∀ i, (i < length (sl_pointers sl))%nat → path (lk sl i) PHead (lv sl i xs)) →
  sl_item_count sl = Z.of_nat (length (B ++ D ++ A)) →
  (∀ s D', D = s :: D' → chain (lk sl 0) s D (head A)) →
  ∃ sl', SkipListLayerIterMut.retire sl (Z.of_nat (length N) - Z.of_nat (length D)) (head (D ++ A)) (head A)
      = Ok sl' ∧ layer_inv sl' xs ∧ items sl' xs = items sl xs.
Proof.
  intros xs Hmem Hok Hep Hpos Hfr Hp Hcnt Hch.
  assert (xs ++ D ≡ₚ B ++ D ++ A ++ N) as Hperm by (unfold xs; solve_Permutation).
  apply (mem_perm _ _ _ (symmetry Hperm)) in Hmem.
  assert (nodes_ok sl xs ∧ ∀ l, l ∈ xs → l ∉ D) as [Hokx HxD].
  { destruct Hok as [Hnd Hok]. rewrite <- Hperm in Hnd. apply NoDup_app in Hnd as (Hndx & Hdis & _).
    split; [split; [done|]|done]. intros l Hl. apply Hok. rewrite <- Hperm. set_solver. }
  assert (sl_item_count sl + (Z.of_nat (length N) - Z.of_nat (length D)) = Z.of_nat (length xs)) as Hcnt'
    by (rewrite Hcnt; unfold xs; rewrite !length_app; lia).
  unfold SkipListLayerIterMut.retire. rewrite Hcnt'.
  destruct (Z.leb_spec 0 (Z.of_nat (length xs))); [|lia]. res_simpl.
  set (sl1 := with_inner sl _ _ _ _).
  destruct D as [|s D].
  { rewrite app_nil_r in Hmem. cbn [app]. exists sl1. split.
    - destruct (head A); [by rewrite decide_False by auto|done].
    - eapply (layer_inv_frame sl sl1 []); try done; [by intros l ?%elem_of_nil|by apply mem_counts]. }
  specialize (Hch s D eq_refl). set (D' := s :: D) in *. cbn [app head D'].
  rewrite decide_True.
  2:{ intros He. destruct Hch as (? & _ & _ & _ & Hne). apply (Hne s (symmetry He)). by left. }
  case_match eqn:Hrd.
  - destruct Hmem as [R [Hd Hc Hnd Hn Hh Ha He Hm]].
    assert (R !! epoch sl = None) as HR.
    { apply eq_None_not_Some. intros Hs. apply Hd, He in Hs. lia. }
    assert (retired (<[epoch sl := D']> R) ≡ₚ D' ++ retired R) as Hret by by apply retired_insert.
    assert (xs ++ retired (<[epoch sl := D']> R) ≡ₚ (xs ++ D') ++ retired R) as Hret2
      by by rewrite Hret, app_assoc.
    eexists. split; [done|]. eapply (layer_inv_frame sl _ []); try done; [by intros l ?%elem_of_nil|by intros l _ ?%elem_of_nil|].
    exists (<[epoch sl := D']> R).
    split; cbn [with_inner sl1 erase_lists nodes allocated epoch].
    + intros e. rewrite !lookup_insert_is_Some. by rewrite Hd.
    + intros e el ds. destruct (decide (e = epoch sl)) as [->|].
      * rewrite !lookup_insert_eq. by intros [= <-] [= <-].
      * rewrite !lookup_insert_ne by done. apply Hc.
    + by rewrite Hret2.
    + intros l. by rewrite Hret2.
    + done.
    + by rewrite Hret2.
    + intros e. rewrite Z.mod_small by lia. rewrite lookup_insert_is_Some'.
      intros [<-|Hs]; [lia|]. apply He in Hs. lia.
    + rewrite Z.mod_small by lia. lia.
  - destruct (free_erase_list_ok sl1 xs D' s (head A)) as (nodes' & -> & Hf & Hmem' & Hnone); [by apply mem_counts|done|].
    eexists. split; [done|]. by eapply (layer_inv_frame sl _ D').
Qed.

Lemma switch_ok it B D A N ip p0 o :
  iter_inv it B D A N → insertion_point it = Some ip →
  let sl := im_list it in
  level true (lk sl 0) B D A N p0 o →
  ∃ sl1, SkipListLayerIterMut.switch it ip (endp PHead B) p0 o = Ok sl1 ∧ same sl sl1 ∧ frame B sl sl1 ∧
    (∀ i, (i < length (sl_pointers sl))%nat → path (lk sl1 i) PHead (lv sl1 i (B ++ N ++ A))) ∧
    lk sl1 0 p0 = Ok (head A).
Proof.
  intros Hinv Hip sl Hlev. pose proof (level_at _ _ _ _ _ _ _ _ Hlev) as Hat. apply path_head in Hat.
  pose proof Hinv as [Hpos Hok _ _ _ _ _ _ _]. fold sl in Hpos, Hok.
  assert (∀ xs, (∀ l, l ∈ xs → l ∈ B ++ D ++ A ++ N) → lv sl 0 xs = xs) as Hlv0.
  { intros xs Hxs. apply lv_0. intros l Hl'. by eapply nodes_ok_height; [exact Hok|auto]. }
  (* A pointer kept outside [B] still leads to [A]. *)
  assert (∀ sl1 w, frame B sl sl1 → p0 = PNode w → w ∈ D ++ N → lk sl1 0 p0 = Ok (head A)) as Hkeep.
  { intros sl1 w Hfr -> Hw. rewrite <- Hat. unfold lk, PointerList.get, PointerList.deref.
    rewrite Hfr; [done|]. destruct Hok as [(_ & Hdis & _)%NoDup_app _]. intros Hb.
    apply (Hdis w Hb). set_solver. }
  unfold SkipListLayerIterMut.switch. fold sl. destruct N as [|n0 N].
  - rewrite (lv_chain _ _ _ _ _ _ _ _ Hlev). unfold lk in Hat. rewrite Hat. res_simpl.
    destruct (unsplice_ok it B D A ip Hinv Hip) as (sl1 & Hset & Hs & Hfr & Hp). fold sl in Hset, Hs, Hfr, Hp.
    rewrite Hlv0 in Hset by set_solver. exists sl1. split_and!; [done..|].
    pose proof (lv_prev _ _ _ _ _ _ _ _ Hlev) as Hp0. rewrite app_nil_r, endp_app in Hp0.
    destruct D as [|d D].
    + specialize (Hp 0%nat Hpos). rewrite (same_lv sl sl1), Hlv0, path_app in Hp by (done || set_solver).
      destruct Hp as [_ Hp]. apply path_head in Hp. by rewrite Hp0.
    + destruct (endp_ne (endp PHead B) (d :: D)) as (w & Hw & He); [done|].
      eapply (Hkeep sl1 w); [done|by rewrite Hp0|set_solver].
  - destruct (lv_chain _ _ _ _ _ _ _ _ Hlev) as [-> _].
    destruct (splice_ok it B D A (n0 :: N) ip Hinv Hip) as (sl1 & Hf & Hs & Hfr & Hp); [done|].
    exists sl1. split_and!; [done..|].
    destruct (level_prev_chain _ _ _ _ _ _ _ _ Hlev) as (w & Hw & He); [done|].
    eapply (Hkeep sl1 w); [done|done|set_solver].
Qed.

Lemma iter_commit it B D A N :
  iter_inv it B D A N →
  ∃ it', SkipListLayerIterMut.commit it = Ok it' ∧ insertion_point it' = None ∧
    layer_inv (im_list it') (B ++ N ++ A) ∧
    items (im_list it') (B ++ N ++ A) = items (im_list it) (B ++ N ++ A).
Proof.
  intros Hinv. pose proof Hinv as [Hpos Hok Hfr (Hlp & Hli & Hl) Hpt Hmem Hcnt Hep Hdl].
  unfold SkipListLayerIterMut.commit. destruct (insertion_point it) as [ip|] eqn:Hip.
  2:{ destruct Hpt as [-> ->]. exists it. split_and!; [done..| |done]. cbn [app] in *.
      rewrite app_nil_r in *. split; try done. intros i Hi.
      destruct (Hl i Hi) as (p & o & _ & _ & [(d' & Hp & Hd & _) _ _]).
      apply sublist_nil_r in Hd as ->. by rewrite lv_app. }
  destruct Hpt as [Hipl Hpt]. set (sl := im_list it) in *.
  rewrite Hpt by done. res_simpl. destruct (Hl 0%nat Hpos) as (p0 & o & Hp0 & Ho & Hlev).
  rewrite Hp0. res_simpl. unfold parts in Hlev. change (bool_decide (0%nat = 0%nat)) with true in Hlev.
  assert (∀ xs, (∀ l, l ∈ xs → l ∈ B ++ D ++ A ++ N) → lv sl 0 xs = xs) as Hlv0.
  { intros xs Hxs. apply lv_0. intros l Hl'. by eapply nodes_ok_height; [exact Hok|auto]. }
  rewrite !Hlv0 in Hlev by set_solver. rewrite (Hlv0 B) by set_solver.
  destruct (lv_main _ _ _ _ _ _ _ _ Hlev) as (d' & Hmain & _ & Hd'). subst d'.
  rewrite path_app in Hmain. destruct Hmain as [Hb Hmain]. apply path_head in Hmain as Hst.
  unfold lk in Hst. rewrite Hst. res_simpl. rewrite Ho. res_simpl.
  destruct (switch_ok it B D A N ip p0 o Hinv Hip Hlev) as (sl1 & -> & Hs & Hfr1 & Hp1 & Hend).
  fold sl in Hs, Hfr1, Hp1. res_simpl. unfold lk in Hend. rewrite Hend. res_simpl. rewrite Hdl.
  destruct (retire_ok sl1 B D A N) as (sl2 & -> & Hinv2 & Hit2).
  - eapply mem_frame; [done|eapply frame_mono; [|done]; set_solver|done].
  - by eapply nodes_ok_same.
  - by rewrite (same_epoch _ _ Hs).
  - by rewrite (same_levels _ _ Hs).
  - intros l. rewrite (same_fresh _ _ Hs). intros Hl'. pose proof (same_nodes _ _ Hs l) as Hsn.
    rewrite Hfr in Hsn by done. by destruct (nodes sl1 !! l).
  - intros i. rewrite (same_levels _ _ Hs). apply Hp1.
  - by rewrite (same_items _ _ Hs).
  - intros s D' HD. eapply (chain_frame B sl); [done| |].
    + intros l Hl'. destruct Hok as [(_ & Hdis & _)%NoDup_app _]. intros Hb'. apply (Hdis l Hb'). set_solver.
    + rewrite path_app, HD in Hmain. destruct Hmain as [[_ HD'] HA]. apply path_head in HA.
      rewrite endp_cons in HA. exists D'. split_and!; [done..|]. intros l Hl' Hin.
      destruct Hok as [(_ & _ & (_ & Hdis & _)%NoDup_app)%NoDup_app _]. apply (Hdis l Hin).
      destruct A; [done|]. cbn in Hl'. set_solver.
  - res_simpl. eexists. split; [done|]. cbn [im_list insertion_point]. split_and!; [done..|].
    rewrite Hit2. apply items_ext. intros. by apply same_item.
Qed.
End commit.

(** ** The contract *)
#[global] Program Instance SkipListLayerIterMut_Laws {K V} `{OrdUpperBound K} (gen_log2 : Z → nat) :
    @LayerIteratorMutLaws (SkipListLayerIterMut K V) K V (SkipListLayerIterMut_LayerIteratorMut gen_log2) := {|
  lim_rep := rep;
  lim_contents := λ it c, insertion_point it = None ∧
    ∃ xs, layer_inv (im_list it) xs ∧ c = items (im_list it) xs;
|}.
Next Obligation. intros. by eapply rep_get. Qed.
Next Obligation. intros. by eapply rep_advance. Qed.
Next Obligation. intros. by eapply rep_insert. Qed.
Next Obligation. intros. by eapply rep_erase. Qed.
Next Obligation.
  intros K V ? ? it b a (B & D & A & N & Hinv & -> & ->).
  destruct (iter_commit it B D A N Hinv) as (it' & Hc & Hip & Hli & Hit).
  exists it'. split_and!; [done..|]. exists (B ++ N ++ A). split; [done|].
  by rewrite Hit, <- items_app, <- app_assoc.
Qed.
