(* ===== verification/SkipListSeek.v ===== *)
(** * Finding a key, and the operations of the layer

    The descent through the levels, of a reader and of a writer, ends at the
    first item that is not below the bound.  With the iterator's contract this
    gives the behaviour of the layer's operations on its contents, down to the
    heap of nodes. *)

From S2P Require Import Prelude LsmTypes Merge MergeProps SkipList SkipListLevels SkipListIter.
From S2P Require Import SkipListCommit.

Section seek.
Context {K V : Type} `{OrdUpperBound K}.
Implicit Types (sl : SkipListLayer K V) (l : Z) (A B xs : list Z) (included : bool) (k : K).

(** The search goes past an item. *)
Definition passes included k (x : Item K V) : bool :=
  match cmp_upper_bound (key x) k with
  | Lt => true
  | Eq => negb included
  | Gt => false
  end.

Definition node_passes sl included k (b : bool) l : Prop :=
  ∃ n, nodes sl !! l = Some n ∧ passes included k (node_item n) = b.

(** Where a level takes over from the one above it. *)
Lemma lv_resume sl i B :
  ∃ pre rest, lv sl i B = pre ++ rest ∧ endp PHead (lv sl (S i) B) = endp PHead pre.
Proof.
  destruct (decide (lv sl (S i) B = [])) as [->|Hne]; [by exists [], (lv sl i B)|].
  destruct (endp_ne PHead _ Hne) as (x & Hx & ->).
  assert (x ∈ lv sl i B) as Hin by (rewrite elem_of_lv in *; intuition lia).
  apply list_elem_of_split in Hin as (l1 & l2 & ->). exists (l1 ++ [x]), l2.
  by rewrite <- app_assoc, endp_snoc.
Qed.

Lemma seek_level_ok sl included k i rest A' fuel p :
  path (lk sl i) p (rest ++ A') → Forall (node_passes sl included k true) rest →
  Forall (node_passes sl included k false) A' → (length rest < fuel)%nat →
  SkipListLayerIter.seek_level fuel sl included k i p = Ok (endp p rest, head A').
Proof.
  intros Hp Hr HA. revert p fuel Hp. induction Hr as [|x rest (n & Hn & Hx) _ IH]; intros p fuel Hp Hf;
    (destruct fuel as [|fuel]; [cbn in Hf; lia|]); cbn [SkipListLayerIter.seek_level].
  - apply path_head in Hp as Hg. unfold lk in Hg. cbn [app] in Hg. rewrite Hg. res_simpl.
    destruct A' as [|y A']; [done|]. cbn [head].
    apply Forall_cons in HA as [(n & Hn & Hy) _]. unfold SkipListLayer.node. rewrite Hn. res_simpl.
    unfold passes in Hy. destruct (cmp_upper_bound _ _); [by destruct included|done|done].
  - destruct Hp as [Hg Hp]. unfold lk in Hg. rewrite Hg. res_simpl.
    unfold SkipListLayer.node. rewrite Hn. res_simpl. rewrite endp_cons.
    unfold passes in Hx. destruct (cmp_upper_bound _ _); [destruct included; [done|]|..|done];
      apply IH; cbn in *; (done || lia).
Qed.

Lemma new_level_ok sl k i rest A' fuel prev p :
  prev !! i = Some p →
  path (lk sl i) p (rest ++ A') → Forall (node_passes sl true k true) rest →
  Forall (node_passes sl true k false) A' → (length rest < fuel)%nat →
  SkipListLayerIterMut.new_level fuel sl k i prev = Ok (<[i := endp p rest]> prev).
Proof.
  intros Hprev Hp Hr HA. revert prev p fuel Hprev Hp.
  induction Hr as [|x rest (n & Hn & Hx) _ IH]; intros prev p fuel Hprev Hp Hf;
    (destruct fuel as [|fuel]; [cbn in Hf; lia|]); cbn [SkipListLayerIterMut.new_level];
    rewrite Hprev; res_simpl.
  - apply path_head in Hp as Hg. unfold lk in Hg. cbn [app] in Hg. rewrite Hg. res_simpl.
    rewrite endp_nil, list_insert_id by done.
    destruct A' as [|y A']; [done|]. cbn [head].
    apply Forall_cons in HA as [(n & Hn & Hy) _]. unfold SkipListLayer.node. rewrite Hn. res_simpl.
    unfold passes in Hy. by destruct (cmp_upper_bound _ _).
  - destruct Hp as [Hg Hp]. unfold lk in Hg. rewrite Hg. res_simpl.
    unfold SkipListLayer.node. rewrite Hn. res_simpl. rewrite endp_cons.
    unfold passes in Hx. destruct (cmp_upper_bound _ _); [done| |done].
    erewrite IH; [by rewrite list_insert_insert_eq| |done|cbn in *; lia].
    apply list_lookup_insert_eq. by eapply lookup_lt_Some.
Qed.

Context sl xs (Hinv : layer_inv sl xs).
Context (A B : list Z) (Hxs : xs = B ++ A).
Let len := length (sl_pointers sl).

Lemma lv_top : lv sl len B = [].
Proof.
  apply elem_of_nil_inv. intros l [Hl Hh]%elem_of_lv.
  pose proof (nodes_ok_height _ _ l (li_nodes _ _ Hinv)) as Hle.
  rewrite Hxs in Hle. specialize (Hle ltac:(set_solver)). unfold len in Hh. lia.
Qed.

(** The part of level [i] that the search walks, from where the level above
    left off. *)
Lemma level_walk included k i :
  (i < len)%nat → Forall (node_passes sl included k true) B → Forall (node_passes sl included k false) A →
  ∃ rest, path (lk sl i) (endp PHead (lv sl (S i) B)) (rest ++ lv sl i A) ∧
    endp (endp PHead (lv sl (S i) B)) rest = endp PHead (lv sl i B) ∧
    Forall (node_passes sl included k true) rest ∧
    Forall (node_passes sl included k false) (lv sl i A) ∧ (length rest < S (size (nodes sl)))%nat.
Proof.
  intros Hi HB HA. destruct (lv_resume sl i B) as (pre & rest & HlB & He). exists rest. rewrite He.
  pose proof (li_path _ _ Hinv i Hi) as Hp. rewrite Hxs, lv_app, HlB, <- app_assoc, path_app in Hp.
  destruct Hp as [_ Hp]. split_and!.
  - done.
  - by rewrite <- endp_app, <- HlB.
  - rewrite Forall_forall in *. intros l Hl. apply HB.
    assert (l ∈ lv sl i B) as [? _]%elem_of_lv; [rewrite HlB; set_solver|done].
  - rewrite Forall_forall in *. intros l [Hl _]%elem_of_lv. auto.
  - pose proof (mem_size _ _ (li_mem _ _ Hinv)) as Hsz. rewrite Hxs, length_app in Hsz.
    pose proof (sublist_length _ _ (lv_sublist sl i B)) as Hsl. rewrite HlB, length_app in Hsl. lia.
Qed.

Lemma reverse_seq_step n pre i post :
  reverse (seq 0 n) = pre ++ i :: post → (i + S (length pre) = n)%nat.
Proof.
  intros Hs. assert (reverse (seq 0 n) !! length pre = Some i) as Hi by by rewrite Hs, list_lookup_middle.
  apply lookup_lt_Some in Hi as Hlt. rewrite length_reverse, length_seq in Hlt.
  rewrite reverse_lookup in Hi by (by rewrite length_seq). rewrite length_seq in Hi.
  apply lookup_seq in Hi. lia.
Qed.

Lemma seek_levels_ok included k :
  Forall (node_passes sl included k true) B → Forall (node_passes sl included k false) A →
  SkipListLayerIter.seek_levels sl included k = Ok (endp PHead B, head A).
Proof.
  intros HB HA. unfold SkipListLayerIter.seek_levels. fold len.
  destruct (foldm_inv (λ s index, SkipListLayerIter.seek_level (S (size (nodes sl))) sl included k index s.1)
    (λ pre s, s.1 = endp PHead (lv sl (len - length pre) B) ∧
      (pre ≠ [] → s.2 = head (lv sl (len - length pre) A))) (reverse (seq 0 len))) with (s := (PHead, None : ptr))
    as ([lp nd] & -> & Hlp & Hnd).
  - intros pre i [lp nd] [post Hsplit] [Hlp _]. apply reverse_seq_step in Hsplit. cbn [fst snd] in *.
    replace (len - length pre)%nat with (S i) in Hlp by lia.
    destruct (level_walk included k i) as (rest & Hp & He & Hr & HA' & Hsz); [lia|done..|].
    rewrite <- Hlp in Hp, He. rewrite (seek_level_ok _ _ _ _ rest (lv sl i A)) by done.
    eexists. split; [done|]. rewrite length_app. cbn [fst snd length].
    replace (len - (length pre + 1))%nat with i by lia. by rewrite He.
  - cbn [fst snd length]. rewrite Nat.sub_0_r, lv_top. done.
  - cbn [fst snd] in *. rewrite length_reverse, length_seq, Nat.sub_diag in *.
    assert (∀ l, l ∈ xs → (0 < height sl l)%nat) as Hh.
    { intros l Hl. by eapply nodes_ok_height; [apply (li_nodes _ _ Hinv)|]. }
    rewrite Hxs in Hh. rewrite Hlp, Hnd, !lv_0; [done|set_solver..|].
    pose proof (li_levels _ _ Hinv) as Hpos. fold len in Hpos. intros Hnil.
    apply (f_equal length) in Hnil. rewrite length_reverse, length_seq in Hnil. cbn in Hnil. lia.
Qed.

(** The writer's iterator stands between [B] and [A]. *)
Lemma new_ok k :
  epoch sl < u64_max →
  Forall (node_passes sl true k true) B → Forall (node_passes sl true k false) A →
  ∃ it, SkipListLayerIterMut.new sl (Included k) = Ok it ∧ iter_inv it B [] A [] ∧ im_list it = sl.
Proof.
  intros Hep HB HA. unfold SkipListLayerIterMut.new. fold len.
  set (body := λ (pointers : list plref) (index : nat), _).
  destruct (foldm_inv body (λ pre prev, length prev = len ∧
    (∀ j, (len - length pre ≤ j < len)%nat → prev !! j = Some (endp PHead (lv sl j B))) ∧
    ∀ i, (i + S (length pre) = len)%nat → prev !! i = Some (endp PHead (lv sl (S i) B)))
    (reverse (seq 0 len))) with (s := replicate len PHead) as (prev & Hf & Hlen & Hprev & _).
  - intros pre i prev [post Hsplit] (Hlen & Hdone & Hcur). apply reverse_seq_step in Hsplit.
    specialize (Hcur i Hsplit).
    destruct (level_walk true k i) as (rest & Hp & He & Hr & HA' & Hsz); [lia|done..|].
    unfold body. rewrite (new_level_ok _ _ _ rest (lv sl i A) _ _ (endp PHead (lv sl (S i) B))) by done.
    res_simpl. rewrite He, list_lookup_insert_eq by lia. res_simpl. rewrite length_app. cbn [length].
    assert (∀ j, (len - (length pre + 1) ≤ j < len)%nat →
      <[i := endp PHead (lv sl i B)]> prev !! j = Some (endp PHead (lv sl j B))) as Hnew.
    { intros j Hj. destruct (decide (j = i)) as [->|]; [by rewrite list_lookup_insert_eq by lia|].
      rewrite list_lookup_insert_ne by done. apply Hdone. lia. }
    destruct (Z.ltb_spec 0 (Z.of_nat i)).
    + eexists. split; [done|]. rewrite !length_insert. split_and!; [done| |].
      * intros j Hj. rewrite list_lookup_insert_ne by lia. by apply Hnew.
      * intros j Hj. replace j with (i - 1)%nat by lia. replace (S (i - 1)) with i by lia.
        by rewrite list_lookup_insert_eq by (rewrite length_insert; lia).
    + eexists. split; [done|]. rewrite length_insert. split_and!; [done|done|]. intros j Hj. lia.
  - rewrite length_replicate. split_and!; [done| |].
    + intros j Hj. cbn in Hj. lia.
    + intros i Hi. cbn in Hi. replace (S i) with len by lia. rewrite lv_top.
      by rewrite lookup_replicate_2 by lia.
  - rewrite Hf. res_simpl. eexists. split; [done|]. split; [|done].
    rewrite length_reverse, length_seq, Nat.sub_diag in Hprev.
    destruct Hinv as [Hpos Hok Hfr Hpath Hmem Hcnt]. rewrite Hxs in *.
    split; cbn [im_list prev_pointers insertion_nodes insertion_point item_delta app]; try done.
    + by rewrite app_nil_r.
    + split_and!; [done|unfold PointerList.new; by rewrite length_replicate|]. intros i Hi.
      exists (endp PHead (lv sl i B)), None. split_and!; [apply Hprev; fold len in Hi; lia| |].
      * unfold PointerList.new. by apply lookup_replicate_2.
      * unfold parts. change (lv sl i []) with (@nil Z). apply level_open. rewrite <- lv_app. by apply Hpath.
    + by rewrite app_nil_r.
Qed.
End seek.

(** ** The contents of a layer *)
Section contents.
Context {K V : Type} `{OrdUpperBound K} `{!TotalCmp (cmp_upper_bound (K := K))}.
Implicit Types (sl : SkipListLayer K V) (c b a : list (Item K V)).

Definition represents sl c : Prop := ∃ xs, layer_inv sl xs ∧ items sl xs = c.

Definition upper_le (x y : Item K V) : Prop := cmp_upper_bound (key x) (key y) ≠ Gt.

Lemma at_or_above_mono bound x y :
  upper_le x y → at_or_above bound x = true → at_or_above bound y = true.
Proof.
  unfold upper_le, at_or_above. destruct bound as [|k|k]; [done|..]; intros Hxy Hx.
  - destruct (cmp_upper_bound (key y) k) eqn:Hy; try done.
    pose proof (cmp_le_trans (key x) (key y) k Hxy) as Ht. rewrite Hy in Ht.
    pose proof (cmp_le_trans k (key x) (key y)) as Ht2.
    rewrite (cmp_opp k (key x)), (cmp_opp k (key y)), Hy in Ht2.
    destruct (cmp_upper_bound (key x) k) eqn:Hxk; try done; cbn in *; exfalso; naive_solver.
  - destruct (cmp_upper_bound (key x) k) eqn:Hxk; try done.
    destruct (cmp_upper_bound (key y) k) eqn:Hy; try done; exfalso;
      (apply (cmp_le_trans (key x) (key y) k); [done|by rewrite Hy|done]).
Qed.

Lemma sorted_split bound c :
  StronglySorted upper_le c →
  ∃ b, c = b ++ drop_until (at_or_above bound) c ∧
    Forall (λ x, at_or_above bound x = false) b ∧
    Forall (λ x, at_or_above bound x = true) (drop_until (at_or_above bound) c).
Proof.
  induction 1 as [|x c Hs IH Hx]; [by exists []|]. cbn [drop_until].
  destruct (at_or_above bound x) eqn:Hb.
  - exists []. split_and!; [done..|]. constructor; [done|].
    eapply Forall_impl; [exact Hx|]. intros y Hy. by eapply at_or_above_mono.
  - destruct IH as (b & Hc & Hb' & Ha). exists (x :: b). split_and!; [|by constructor|done].
    cbn [app]. by rewrite <- Hc.
Qed.

Lemma items_split sl xs b a :
  nodes_ok sl xs → items sl xs = b ++ a →
  ∃ B A, xs = B ++ A ∧ items sl B = b ∧ items sl A = a.
Proof.
  intros [_ Hok]. revert xs Hok. induction b as [|x b IH]; intros xs Hok Hc.
  - by exists [], xs.
  - destruct xs as [|l xs]; [done|].
    destruct (Hok l) as (n & Hn & _); [by left|]. rewrite (items_cons _ _ _ _ Hn) in Hc.
    injection Hc as Hx Hc. destruct (IH xs) as (B & A & -> & HB & HA); [set_solver|done|].
    exists (l :: B), A. split_and!; [done| |done]. by rewrite (items_cons _ _ _ _ Hn), Hx, HB.
Qed.

Lemma items_length sl xs : nodes_ok sl xs → length (items sl xs) = length xs.
Proof.
  intros [_ Hok]. induction xs as [|l xs IH]; [done|].
  destruct (Hok l) as (n & Hn & _); [by left|]. rewrite (items_cons _ _ _ _ Hn). cbn [length].
  rewrite IH; [done|set_solver].
Qed.

Lemma items_Forall sl xs (P : Item K V → Prop) :
  nodes_ok sl xs → Forall P (items sl xs) → Forall (λ l, ∃ n, nodes sl !! l = Some n ∧ P (node_item n)) xs.
Proof.
  intros [_ Hok]. induction xs as [|l xs IH]; [constructor|].
  destruct (Hok l) as (n & Hn & _); [by left|]. rewrite (items_cons _ _ _ _ Hn).
  intros [Hx Hxs]%Forall_cons. constructor; [by exists n|]. apply IH; [set_solver|done].
Qed.

Lemma nodes_ok_app sl B A : nodes_ok sl (B ++ A) → nodes_ok sl B ∧ nodes_ok sl A.
Proof. intros [(?&?&?)%NoDup_app Hok]. split; (split; [done|]); intros; apply Hok; set_solver. Qed.

(** Opening a writer at a key. *)
Lemma writer_opens sl c k :
  represents sl c → StronglySorted upper_le c → epoch sl < u64_max →
  ∃ it b, SkipListLayerIterMut.new sl (Included k) = Ok it ∧
    c = b ++ drop_until (at_or_above (Included k)) c ∧
    Forall (λ x, at_or_above (Included k) x = false) b ∧
    rep it b (drop_until (at_or_above (Included k)) c).
Proof.
  intros (xs & Hinv & Hc) Hs Hep. destruct (sorted_split (Included k) c Hs) as (b & Hsplit & Hb & Ha).
  pose proof (li_nodes _ _ Hinv) as Hok.
  rewrite Hsplit in Hc. destruct (items_split _ _ _ _ Hok Hc) as (B & A & -> & HB & HA).
  apply nodes_ok_app in Hok as [HokB HokA].
  destruct (new_ok sl (B ++ A) Hinv A B eq_refl k Hep) as (it & Hnew & Hii & Hsl).
  - rewrite <- HB in Hb. apply (items_Forall _ _ _ HokB) in Hb. eapply Forall_impl; [exact Hb|].
    intros l (n & Hn & Hx). exists n. split; [done|]. unfold passes, at_or_above in *.
    by destruct (cmp_upper_bound _ _).
  - rewrite <- HA in Ha. apply (items_Forall _ _ _ HokA) in Ha. eapply Forall_impl; [exact Ha|].
    intros l (n & Hn & Hx). exists n. split; [done|]. unfold passes, at_or_above in *.
    by destruct (cmp_upper_bound _ _).
  - exists it, b. split_and!; [done..|]. exists B, [], A, []. rewrite Hsl, app_nil_r. done.
Qed.

Lemma drop_iter_ok (it : SkipListLayerIterMut K V) :
  insertion_point it = None → SkipListOps.drop_iter it = Ok (im_list it).
Proof. intros Hip. unfold SkipListOps.drop_iter, SkipListLayerIterMut.commit. by rewrite Hip. Qed.

Lemma rep_commit it b a :
  rep it b a → ∃ it', SkipListLayerIterMut.commit it = Ok it' ∧ insertion_point it' = None ∧
    represents (im_list it') (b ++ a).
Proof.
  intros (B & D & A & N & Hinv & -> & ->).
  destruct (iter_commit it B D A N Hinv) as (it' & Hc & Hip & Hli & Hit).
  exists it'. split_and!; [done..|]. exists (B ++ N ++ A). split; [done|].
  by rewrite Hit, <- items_app, <- app_assoc.
Qed.

Lemma rep_drop it b a :
  rep it b a → ∃ sl', SkipListOps.drop_iter it = Ok sl' ∧ represents sl' (b ++ a).
Proof.
  intros Hr. destruct (rep_commit _ _ _ Hr) as (it' & Hc & _ & Hre).
  exists (im_list it'). unfold SkipListOps.drop_iter. by rewrite Hc.
Qed.
End contents.

Section operations.
Context {K V : Type} `{KeyEq K, OrdUpperBound K} `{!TotalCmp (cmp_upper_bound (K := K))}.
Context (gen_log2 : Z → nat).
Implicit Types (sl : SkipListLayer K V) (c : list (Item K V)).

(** [insert] refuses a key that is present and otherwise adds the item at
    its place. *)
Theorem skip_list_insert sl c item :
  represents sl c → StronglySorted upper_le c → epoch sl < u64_max →
  let a := drop_until (at_or_above (Included (key item))) c in
  ∃ b, c = b ++ a ∧
    match a with
    | x :: _ => if key_eqb (key x) (key item) then SkipListOps.insert gen_log2 sl item = Err Other
                else ∃ sl', SkipListOps.insert gen_log2 sl item = Ok sl' ∧ represents sl' (b ++ item :: a)
    | [] => ∃ sl', SkipListOps.insert gen_log2 sl item = Ok sl' ∧ represents sl' (b ++ [item])
    end.
Proof.
  intros Hr Hs Hep a. destruct (writer_opens sl c (key item) Hr Hs Hep) as (it & b & Hnew & Hc & _ & Hrep).
  exists b. split; [done|]. fold a in Hrep. unfold SkipListOps.insert. rewrite Hnew. res_simpl.
  rewrite (rep_get _ _ _ Hrep). res_simpl.
  assert (∃ sl', (it ← SkipListLayerIterMut.insert gen_log2 it item; SkipListOps.drop_iter it) = Ok sl' ∧
    represents sl' (b ++ item :: a)) as Hins.
  { destruct (rep_insert gen_log2 _ _ _ item Hrep) as (it' & -> & Hrep'). res_simpl.
    apply rep_drop in Hrep'. by rewrite <- app_assoc in Hrep'. }
  destruct a as [|x a]; cbn [head]; [done|]. by destruct (key_eqb _ _).
Qed.

(** [replace_or_insert] makes the item the one of its key. *)
Theorem skip_list_replace_or_insert sl c item :
  represents sl c → StronglySorted upper_le c → epoch sl < u64_max →
  let a := drop_until (at_or_above (Included (key item))) c in
  ∃ b sl', c = b ++ a ∧ SkipListOps.replace_or_insert gen_log2 sl item = Ok sl' ∧
    represents sl' (b ++ item ::
      match a with x :: a' => if key_eqb (key x) (key item) then a' else a | [] => [] end).
Proof.
  intros Hr Hs Hep a. destruct (writer_opens sl c (key item) Hr Hs Hep) as (it & b & Hnew & Hc & _ & Hrep).
  fold a in Hrep, Hc. exists b. unfold SkipListOps.replace_or_insert. rewrite Hnew. res_simpl.
  rewrite (rep_get _ _ _ Hrep). res_simpl.
  assert (∃ it', match head a with
      | Some i => if key_eqb (key i) (key item) then SkipListLayerIterMut.erase it else Ok it
      | None => Ok it
      end = Ok it' ∧
      rep it' b (match a with x :: a' => if key_eqb (key x) (key item) then a' else a | [] => [] end))
    as (it1 & -> & Hrep1).
  { destruct a as [|x a]; cbn [head]; [by exists it|]. destruct (key_eqb _ _); [by eapply rep_erase|by exists it]. }
  res_simpl. destruct (rep_insert gen_log2 _ _ _ item Hrep1) as (it' & -> & Hrep'). res_simpl.
  apply rep_drop in Hrep' as (sl' & Hd & Hre). exists sl'. rewrite <- app_assoc in Hre. by split_and!.
Qed.

(** [erase] removes the item of the key, if there is one. *)
Theorem skip_list_erase sl c k :
  represents sl c → StronglySorted upper_le c → epoch sl < u64_max →
  let a := drop_until (at_or_above (Included k)) c in
  ∃ b sl', c = b ++ a ∧ SkipListOps.erase sl k = Ok sl' ∧
    represents sl' (b ++ match a with x :: a' => if key_eqb (key x) k then a' else a | [] => [] end).
Proof.
  intros Hr Hs Hep a. destruct (writer_opens sl c k Hr Hs Hep) as (it & b & Hnew & Hc & _ & Hrep).
  fold a in Hrep, Hc. exists b. unfold SkipListOps.erase. rewrite Hnew. res_simpl.
  rewrite (rep_get _ _ _ Hrep). res_simpl.
  assert (∃ it', match head a with
      | Some i => if key_eqb (key i) k then SkipListLayerIterMut.erase it else Ok it
      | None => Ok it
      end = Ok it' ∧
      rep it' b (match a with x :: a' => if key_eqb (key x) k then a' else a | [] => [] end))
    as (it1 & -> & Hrep1).
  { destruct a as [|x a]; cbn [head]; [by exists it|]. destruct (key_eqb _ _); [by eapply rep_erase|by exists it]. }
  res_simpl. destruct (rep_commit _ _ _ Hrep1) as (it2 & -> & Hip & Hre). res_simpl.
  exists (im_list it2). split_and!; [done| |done]. by apply drop_iter_ok.
Qed.
End operations.

(** ** Readers *)
Section readers.
Context {K V : Type} `{OrdUpperBound K}.
Implicit Types (sl : SkipListLayer K V) (c : list (Item K V)) (xs : list Z).

(** Everything a reader yields. *)
Fixpoint reads (fuel : nat) sl (it : SkipListLayerIter) : res (list (Item K V)) :=
  match fuel with
  | O => NoFuel
  | S fuel =>
      cur ← SkipListLayerIter.get sl it;
      match cur with
      | None => Ok []
      | Some x => it ← SkipListLayerIter.advance sl it; l ← reads fuel sl it; Ok (x :: l)
      end
  end.

Lemma reads_path sl xs fuel e p :
  path (lk sl 0) p xs → (∀ l, l ∈ xs → is_Some (nodes sl !! l)) → (length xs < fuel)%nat →
  reads fuel sl (mkReader e (head xs)) = Ok (items sl xs).
Proof.
  revert fuel p. induction xs as [|x xs IH]; intros fuel p Hp Hn Hf;
    (destruct fuel as [|fuel]; [cbn in Hf; lia|]); cbn [reads SkipListLayerIter.get reader_node head]; [done|].
  destruct Hp as [_ Hp]. destruct (Hn x) as [n Hx]; [by left|].
  unfold SkipListLayer.node. rewrite Hx. res_simpl.
  unfold SkipListLayerIter.advance. cbn [reader_node reader_epoch].
  apply path_head in Hp as Hg. unfold lk in Hg. rewrite Hg. res_simpl.
  rewrite (IH fuel (PNode x)); [|done|set_solver|cbn in *; lia]. res_simpl.
  by rewrite (items_cons _ _ _ _ Hx).
Qed.

Lemma layer_inv_reader sl xs n :
  layer_inv sl xs → layer_inv (with_inner sl (epoch sl) n (erase_lists sl) (sl_item_count sl)) xs.
Proof. intros []. split; try done. by apply mem_counts. Qed.

Context `{!TotalCmp (cmp_upper_bound (K := K))}.

(** A reader opened at a bound yields exactly the items from the first one
    that is not below the bound on. *)
Theorem skip_list_seek sl c bound fuel :
  represents sl c → StronglySorted upper_le c → current_count sl < u16_max → (length c < fuel)%nat →
  ∃ it sl', SkipListLayerIter.new sl bound = Ok (it, sl') ∧ represents sl' c ∧ nodes sl' = nodes sl ∧
    reads fuel sl' it = Ok (drop_until (at_or_above bound) c).
Proof.
  intros (xs & Hinv & Hc) Hs Hcnt Hfuel. unfold SkipListLayerIter.new.
  destruct (Z.leb_spec (current_count sl + 1) u16_max); [|lia]. res_simpl.
  apply (layer_inv_reader _ _ (current_count sl + 1)) in Hinv.
  set (sl' := with_inner sl _ _ _ _) in *. change (items sl xs) with (items sl' xs) in Hc.
  destruct (sorted_split bound c Hs) as (b & Hsplit & Hb & Ha).
  pose proof (li_nodes _ _ Hinv) as Hok.
  rewrite Hsplit in Hc. destruct (items_split _ _ _ _ Hok Hc) as (B & A & -> & HB & HA).
  apply nodes_ok_app in Hok as [HokB HokA].
  assert (∀ l, l ∈ B ++ A → (0 < height sl' l)%nat) as Hh.
  { intros l Hl. by eapply nodes_ok_height; [apply (li_nodes _ _ Hinv)|]. }
  pose proof (li_path _ _ Hinv 0%nat (li_levels _ _ Hinv)) as Hp. rewrite lv_0 in Hp by done.
  assert (∀ inc k, bound = (if inc : bool then Included k else Excluded k) →
    SkipListLayerIter.seek_levels sl' inc k = Ok (endp PHead B, head A)) as Hseek.
  { intros inc k Hbk. apply (seek_levels_ok sl' (B ++ A) Hinv A B eq_refl).
    - rewrite <- HB in Hb. apply (items_Forall _ _ _ HokB) in Hb. eapply Forall_impl; [exact Hb|].
      intros l (n & Hn & Hx). exists n. split; [done|]. rewrite Hbk in Hx.
      unfold passes, at_or_above in *. by destruct inc, (cmp_upper_bound _ _).
    - rewrite <- HA in Ha. apply (items_Forall _ _ _ HokA) in Ha. eapply Forall_impl; [exact Ha|].
      intros l (n & Hn & Hx). exists n. split; [done|]. rewrite Hbk in Hx.
      unfold passes, at_or_above in *. by destruct inc, (cmp_upper_bound _ _). }
  assert (∃ it, match bound with
    | Unbounded => node ← PointerList.get sl' PHead 0; Ok (mkReader (epoch sl') node, sl')
    | Included key => '(_, node) ← SkipListLayerIter.seek_levels sl' true key; Ok (mkReader (epoch sl') node, sl')
    | Excluded key => '(_, node) ← SkipListLayerIter.seek_levels sl' false key; Ok (mkReader (epoch sl') node, sl')
    end = Ok (it, sl') ∧ it = mkReader (epoch sl') (head A)) as (it & Hnew & Hit).
  { destruct bound as [|k|k].
    - destruct b as [|x b]; [|by apply Forall_cons in Hb as [? _]].
      assert (B = []) as -> by (apply nil_length_inv; by rewrite <- (items_length _ _ HokB), HB).
      apply path_head in Hp. unfold lk in Hp. rewrite Hp. res_simpl. by eexists.
    - rewrite (Hseek true k eq_refl). res_simpl. by eexists.
    - rewrite (Hseek false k eq_refl). res_simpl. by eexists. }
  exists it, sl'. split_and!; [exact Hnew| |done|].
  - exists (B ++ A). split; [done|]. by rewrite Hsplit, Hc.
  - rewrite Hit, <- HA. rewrite path_app in Hp. destruct Hp as [_ Hp]. eapply reads_path; [done| |].
    + intros l Hl. destruct (proj2 HokA l Hl) as (n & Hn & _). by eexists.
    + rewrite Hsplit, length_app, <- HA, (items_length _ _ HokA) in Hfuel. lia.
Qed.
End readers.

(** What is to be checked of a layer without retired nodes. *)
Lemma layer_inv_check {K V} (sl : SkipListLayer K V) xs :
  erase_lists sl = ∅ → (0 < length (sl_pointers sl))%nat → NoDup xs →
  map_Forall (λ l n, l < fresh sl ∧ l ∈ xs ∧
    (1 ≤ length (node_pointers n) ≤ length (sl_pointers sl))%nat) (nodes sl) →
  Forall (λ l, is_Some (nodes sl !! l)) xs →
  (∀ i, (i < length (sl_pointers sl))%nat → path (lk sl i) PHead (lv sl i xs)) →
  allocated sl = Z.of_nat (length xs) `mod` u32_modulus → 0 ≤ epoch sl ≤ u64_max →
  sl_item_count sl = Z.of_nat (length xs) → layer_inv sl xs.
Proof.
  intros He Hlen Hnd Hmap Hxs Hpath Hal Hep Hc. rewrite Forall_forall in Hxs. split; try done.
  - split; [done|]. intros l Hl. destruct (Hxs l Hl) as [n Hn]. exists n. split; [done|]. by apply (Hmap l n).
  - intros l Hl. apply eq_None_not_Some. intros [n Hn]. apply Hmap in Hn. lia.
  - exists ∅. split; try done.
    + intros e. by rewrite He, !lookup_empty.
    + unfold retired. rewrite map_to_list_empty. cbn. by rewrite app_nil_r.
    + intros l. unfold retired. rewrite map_to_list_empty. cbn. rewrite app_nil_r. split; [|apply Hxs].
      intros [n Hn]. by apply (Hmap l n).
    + intros l [n Hn]. unfold height. rewrite Hn. cbn. apply Hmap in Hn. lia.
    + unfold retired. rewrite map_to_list_empty. cbn. by rewrite app_nil_r.
    + intros e [? Hel]. by rewrite He in Hel.
Qed.

(** A new layer is empty. *)
Lemma represents_new {K V} n : (0 < n)%nat → represents (SkipListLayer.new n : SkipListLayer K V) [].
Proof.
  intros Hn. assert (length (sl_pointers (SkipListLayer.new n : SkipListLayer K V)) = n) as Hl by apply length_replicate.
  exists []. split; [|done]. apply layer_inv_check; try done.
  - by rewrite Hl.
  - constructor.
  - intros i Hi. rewrite Hl in Hi. cbn. unfold lk, PointerList.new. cbn. by rewrite lookup_replicate_2.
Qed.
