(* ===== verification/SkipListFrame.v ===== *)
(** * What an operation of the skip list leaves of its readers

    The epoch and the number of readers after [insert] and
    [replace_or_insert]: the epoch goes up by at most one, and the count is
    that from before or starts again at zero. *)

From S2P Require Import Prelude LsmTypes SkipList.

(** Takes a run that succeeded apart. *)
Ltac run_inv H :=
  repeat match type of H with
  | (_ ≫= _) = Ok _ => let a := fresh "a" in let Ha := fresh "Ha" in apply res_bind_ok in H as (a & Ha & H)
  end.

Lemma foldm_frame {A S} (R : S → S → Prop) `{!PreOrder R} (body : S → A → res S) l :
  (∀ s x s', body s x = Ok s' → R s s') → ∀ s s', foldm body s l = Ok s' → R s s'.
Proof.
  intros Hb. induction l as [|x l IH]; intros s s'; cbn [foldm]; [by intros [= ->]|]. intros H. run_inv H. etransitivity; [by eapply Hb|by apply IH].
Qed.

Section frame.
Context {K V : Type}.
Implicit Types (sl : SkipListLayer K V) (it : SkipListLayerIterMut K V).

Definition same_readers sl sl' : Prop :=
  epoch sl' = epoch sl ∧ current_count sl' = current_count sl ∧ erase_lists sl' = erase_lists sl.

#[local] Instance same_readers_preorder : PreOrder same_readers.
Proof. split; [done|]. intros x y z (? & ? & ?) (? & ? & ?). unfold same_readers. split_and!; congruence. Qed.

Definition same_it it it' : Prop := same_readers (im_list it) (im_list it').
#[local] Instance same_it_preorder : PreOrder same_it.
Proof. split; [by intros x|]. intros x y z. unfold same_it. apply same_readers_preorder. Qed.

Lemma set_readers sl p i q sl' : PointerList.set sl p i q = Ok sl' → same_readers sl sl'.
Proof. unfold PointerList.set. intros H. run_inv H. destruct p; by injection H as <-. Qed.

Lemma free_readers fuel sl n e sl' : Inner.free_erase_list_loop fuel sl n e = Ok sl' → same_readers sl sl'.
Proof.
  revert sl n. induction fuel as [|fuel IH]; intros sl n; [done|]. cbn [Inner.free_erase_list_loop]. destruct n as [n|]; [|by intros [= ->]].
  case_decide; [|by intros [= ->]]. unfold SkipListLayer.free_node. intros H'. run_inv H'. rename Ha into Hf. run_inv Hf. injection Hf as <-. by apply IH in H'.
Qed.

Context `{OrdUpperBound K} (gen_log2 : Z → nat).

Lemma insert_level_readers n it i it' : SkipListLayerIterMut.insert_level n it i = Ok it' → same_it it it'.
Proof.
  unfold SkipListLayerIterMut.insert_level. intros Hr. run_inv Hr. destruct a3 as [sl ns]. injection Hr as <-. unfold same_it. cbn [im_list].
  apply set_readers in Ha1. etransitivity; [exact Ha1|].
  destruct a2; [run_inv Ha3; injection Ha3 as <- _; by eapply set_readers|by injection Ha3 as <- _].
Qed.

Lemma insert_readers it item it' : SkipListLayerIterMut.insert gen_log2 it item = Ok it' → same_it it it'.
Proof.
  unfold SkipListLayerIterMut.insert. cbn [SkipListLayer.alloc_node]. intros Hr. run_inv Hr. injection Hr as <-.
  apply (foldm_frame same_it) in Ha; [exact Ha|]. apply insert_level_readers.
Qed.

Lemma erase_readers it it' : SkipListLayerIterMut.erase it = Ok it' → same_it it it'.
Proof.
  unfold SkipListLayerIterMut.erase. intros Hr. run_inv Hr. injection Hr as <-. unfold same_it at 1. cbn [im_list].
  destruct a0 as [next|]; [|by injection Ha1 as <-]. run_inv Ha1. destruct a2 as [prev sl]. run_inv Ha1. injection Ha1 as <-. cbn [im_list].
  apply (foldm_frame same_readers) in Ha5; [|intros s x s' Hs; unfold SkipListLayerIterMut.unlink_level in Hs; run_inv Hs; by eapply set_readers].
  etransitivity; [|exact Ha5]. unfold SkipListLayerIterMut.erase_bottom in Ha3. destruct a0; run_inv Ha3; injection Ha3 as _ <-; [by eapply set_readers|done].
Qed.

(** What [commit] retires starts a new epoch when readers may stand on it. *)
Definition next_readers sl sl' : Prop :=
  epoch sl ≤ epoch sl' ≤ epoch sl + 1 ∧ (current_count sl' = 0 ∨ current_count sl' = current_count sl).

Lemma retire_readers sl d m e sl' : 0 ≤ epoch sl < u64_max → SkipListLayerIterMut.retire sl d m e = Ok sl' → next_readers sl sl'.
Proof.
  intros He. unfold SkipListLayerIterMut.retire. intros Hr. run_inv Hr. clear Ha. destruct m as [n|]; [|injection Hr as <-; unfold next_readers; cbn; lia].
  case_decide; [|injection Hr as <-; unfold next_readers; cbn; lia]. destruct (_ || _).
  - injection Hr as <-. unfold next_readers. cbn. rewrite Z.mod_small by lia. lia.
  - apply free_readers in Hr as (H1 & H2 & _). unfold next_readers. rewrite H1, H2. cbn. lia.
Qed.

Lemma splice_readers ip ns sl i sl' : SkipListLayerIterMut.splice_level ip ns sl i = Ok sl' → same_readers sl sl'.
Proof. unfold SkipListLayerIterMut.splice_level. intros Hr. run_inv Hr. destruct a; [run_inv Hr; by eapply set_readers|by injection Hr as <-]. Qed.

Lemma drop_readers it sl' : 0 ≤ epoch (im_list it) < u64_max → SkipListOps.drop_iter it = Ok sl' → next_readers (im_list it) sl'.
Proof.
  intros He. unfold SkipListOps.drop_iter, SkipListLayerIterMut.commit. intros Hr. run_inv Hr. injection Hr as <-.
  destruct (insertion_point it) as [ip|]; [|injection Ha as <-; unfold next_readers; lia]. run_inv Ha. injection Ha as <-. cbn [im_list].
  assert (same_readers (im_list it) a4) as (H1 & H2 & _).
  { unfold SkipListLayerIterMut.switch in Ha4. destruct a3; [|run_inv Ha4; by eapply set_readers].
    apply (foldm_frame same_readers) in Ha4; [done|]. apply splice_readers. }
  apply retire_readers in Ha6; [|lia]. unfold next_readers in *. rewrite H1, H2 in Ha6. done.
Qed.

Context `{KeyEq K}.
Lemma new_readers sl b it : SkipListLayerIterMut.new sl b = Ok it → im_list it = sl.
Proof. unfold SkipListLayerIterMut.new. intros Hr. run_inv Hr. by injection Hr as <-. Qed.

Lemma skip_insert_readers sl item sl' : 0 ≤ epoch sl < u64_max → SkipListOps.insert gen_log2 sl item = Ok sl' → next_readers sl sl'.
Proof.
  intros He. unfold SkipListOps.insert. intros Hr. run_inv Hr. apply new_readers in Ha as <-.
  assert ((it ← SkipListLayerIterMut.insert gen_log2 a item; SkipListOps.drop_iter it) = Ok sl') as Hi
    by (destruct a0; [by destruct (key_eqb _ _)|done]).
  run_inv Hi. apply insert_readers in Ha as (H1 & H2 & _). apply drop_readers in Hi; [|lia]. unfold next_readers in *. by rewrite H1, H2 in Hi.
Qed.

Lemma skip_replace_readers sl item sl' : 0 ≤ epoch sl < u64_max → SkipListOps.replace_or_insert gen_log2 sl item = Ok sl' → next_readers sl sl'.
Proof.
  intros He. unfold SkipListOps.replace_or_insert. intros Hr. run_inv Hr. apply new_readers in Ha as <-.
  assert (same_it a a1) as (H1 & H2 & _).
  { destruct a0; [|by injection Ha1 as <-]. destruct (key_eqb _ _); [by apply erase_readers|by injection Ha1 as <-]. }
  apply insert_readers in Ha2 as (H3 & H4 & _). apply drop_readers in Hr; [|rewrite H3, H1; lia]. unfold next_readers in *. by rewrite H3, H4, H1, H2 in Hr.
Qed.
End frame.
