(* ===== verification/AllocLayer.v ===== *)
(** * The allocator's mutable layer

    [SkipListLayer::merge_into] with the allocator's merge function, end to
    end: from the bound the allocator passes, through [merge_into] and the
    writer's iterator, to the heap of nodes. *)

From S2P Require Import Prelude Round LsmTypes Merge MergeProps Segments SegMerge AllocMerge AllocMergeInto.
From S2P Require Import SkipList SkipListLevels SkipListIter SkipListCommit SkipListSeek.

#[global] Instance AllocatorKey_upper_TotalCmp : TotalCmp (cmp_upper_bound (K := AllocatorKey)).
Proof.
  split; unfold cmp_upper_bound, AllocatorKey_OrdUpperBound; intros.
  - apply Z.compare_antisym.
  - rewrite Z.compare_le_iff in *. lia.
Qed.

(** Disjoint ascending extents are sorted by their ends. *)
Lemma seg_upper_sorted c : seg arng c → StronglySorted upper_le c.
Proof.
  induction c as [|x c IH]; [constructor|]. intros (_ & Hb & Hs)%seg_cons. constructor; [by apply IH|].
  apply Forall_forall. intros y Hy. unfold upper_le, cmp_upper_bound, AllocatorKey_OrdUpperBound.
  rewrite Z.compare_le_iff. specialize (Hb y Hy). pose proof (seg_ne _ _ _ Hs Hy).
  unfold arng in *. lia.
Qed.

(** C2: recording an extent in the allocator's mutable layer terminates without
    panic whatever the heights of the nodes; afterwards the skip list holds
    ascending disjoint extents that give the new value to the new extent's bytes
    and are unchanged everywhere else. *)
Theorem alloc_layer_merge_into gen_log2 (sl : SkipListLayer AllocatorKey AllocatorValue) c n fuel :
  represents sl c → seg arng c → epoch sl < u64_max →
  start (arng n) < end_ (arng n) → (seg_size arng (n :: c) < fuel)%nat →
  ∃ sl' c', SkipListOps.merge_into gen_log2 fuel sl n
      (AllocatorKey.lower_bound_for_merge_into (key n)) alloc_merge = Ok sl' ∧
    represents sl' c' ∧ seg arng c' ∧
    ∀ p v, covers arng aval c' p v ↔
      (in_range p (arng n) ∧ v = value n) ∨ (¬ in_range p (arng n) ∧ covers arng aval c p v).
Proof.
  intros Hr Hseg Hep Hn Hf. unfold SkipListOps.merge_into.
  destruct (writer_opens sl c (AllocatorKey.lower_bound_for_merge_into (key n)) Hr
    (seg_upper_sorted _ Hseg) Hep) as (it & b & -> & Hc & Hb & Hrep). res_simpl.
  set (a := drop_until _ c) in *.
  destruct (alloc_merge_into_overwrites (Laws := SkipListLayerIterMut_Laws gen_log2) it b a n fuel)
    as (it' & c' & -> & (Hip & xs & Hli & Hxs) & Hseg' & Hcov); [done|by rewrite <- Hc| |done| |].
  - intros x Hx. rewrite Forall_forall in Hb. specialize (Hb x Hx). unfold at_or_above in Hb.
    unfold cmp_upper_bound, AllocatorKey_OrdUpperBound in Hb. cbn in Hb.
    destruct (Z.compare_spec (end_ (device_range (key x))) (start (device_range (key n)))); try done.
    unfold arng. lia.
  - rewrite Hc in Hf. rewrite seg_size_cons in *. unfold seg_size in *. rewrite sum_list_with_app in Hf. lia.
  - res_simpl. exists (im_list it'), c'. rewrite <- Hc in Hcov. split_and!; [|by exists xs|done..].
    by apply drop_iter_ok.
Qed.
