(* ===== verification/SkipListInstances.v ===== *)
(** * The skip list at a concrete layer

    A layer with three extents of the allocator, built by the operations
    themselves, and the theorems on the operations at it. *)

From S2P Require Import Prelude Round LsmTypes Merge MergeProps Segments SegMerge AllocMerge SkipList.
From S2P Require Import SkipListLevels SkipListIter SkipListCommit SkipListSeek AllocLayer.

Module Demo.
Definition extent (b e owner : Z) : Item AllocatorKey AllocatorValue :=
  Item.new (mkAK (b ..< e)) (AVAbs 1 owner).
(** Heights 2, 1 and 3. *)
Definition heights (l : Z) : nat := if l =? 0 then 1 else if l =? 1 then 2 else 0.

Definition contents := [extent 0 10 1; extent 20 30 2; extent 40 50 3].

Definition layer : res (SkipListLayer AllocatorKey AllocatorValue) :=
  sl ← SkipListOps.insert heights (SkipListLayer.new 3) (extent 20 30 2);
  sl ← SkipListOps.insert heights sl (extent 40 50 3);
  SkipListOps.insert heights sl (extent 0 10 1).

Definition sl : SkipListLayer AllocatorKey AllocatorValue :=
  Eval vm_compute in match layer with Ok sl => sl | _ => SkipListLayer.new 3 end.

Lemma layer_sl : layer = Ok sl.
Proof. vm_compute. reflexivity. Qed.

Lemma sl_represents : represents sl contents.
Proof.
  exists [2; 0; 1]. split; [|vm_compute; reflexivity].
  apply layer_inv_check; try (vm_compute; (reflexivity || lia)).
  - apply (bool_decide_unpack _). vm_compute. exact I.
  - apply (bool_decide_unpack _). vm_compute. exact I.
  - apply (bool_decide_unpack _). vm_compute. exact I.
  - intros i Hi. vm_compute in Hi. do 3 (destruct i as [|i]; [vm_compute; repeat split|]). lia.
  - by vm_compute.
Qed.

Lemma contents_seg : seg arng contents.
Proof. split; repeat constructor; by vm_compute. Qed.
End Demo.
Import Demo.

Lemma contents_sorted : StronglySorted upper_le contents.
Proof. apply seg_upper_sorted, contents_seg. Qed.

Lemma skip_list_insert_witness :
  ∃ b, contents = b ++ [extent 20 30 2; extent 40 50 3] ∧
    ∃ sl', SkipListOps.insert heights sl (extent 12 15 9) = Ok sl' ∧
      represents sl' (b ++ [extent 12 15 9; extent 20 30 2; extent 40 50 3]).
Proof.
  exact (skip_list_insert heights sl contents (extent 12 15 9) sl_represents contents_sorted
    ltac:(by vm_compute)).
Defined.

Lemma skip_list_replace_or_insert_witness :
  ∃ b sl', contents = b ++ [extent 20 30 2; extent 40 50 3] ∧
    SkipListOps.replace_or_insert heights sl (extent 20 30 9) = Ok sl' ∧
    represents sl' (b ++ [extent 20 30 9; extent 40 50 3]).
Proof.
  exact (skip_list_replace_or_insert heights sl contents (extent 20 30 9) sl_represents contents_sorted
    ltac:(by vm_compute)).
Defined.

Lemma skip_list_erase_witness :
  ∃ b sl', contents = b ++ [extent 20 30 2; extent 40 50 3] ∧
    SkipListOps.erase sl (mkAK (20 ..< 30)) = Ok sl' ∧ represents sl' (b ++ [extent 40 50 3]).
Proof.
  exact (skip_list_erase sl contents (mkAK (20 ..< 30)) sl_represents contents_sorted
    ltac:(by vm_compute)).
Defined.

Lemma skip_list_seek_witness :
  ∃ it sl', SkipListLayerIter.new sl (Included (mkAK (0 ..< 15))) = Ok (it, sl') ∧
    represents sl' contents ∧ nodes sl' = nodes sl ∧ reads 4 sl' it = Ok [extent 20 30 2; extent 40 50 3].
Proof.
  exact (skip_list_seek sl contents (Included (mkAK (0 ..< 15))) 4 sl_represents contents_sorted
    ltac:(by vm_compute) ltac:(cbn; lia)).
Defined.

Lemma alloc_layer_merge_into_witness :
  ∃ sl' c', SkipListOps.merge_into heights (100 + seg_size arng (extent 5 45 9 :: contents)) sl (extent 5 45 9)
      (mkAK (0 ..< 5)) alloc_merge = Ok sl' ∧
    represents sl' c' ∧ seg arng c' ∧
    ∀ p v, covers arng aval c' p v ↔ (in_range p (5 ..< 45) ∧ v = AVAbs 1 9) ∨
      (¬ in_range p (5 ..< 45) ∧ covers arng aval contents p v).
Proof.
  apply (alloc_layer_merge_into heights sl contents (extent 5 45 9) _ sl_represents contents_seg);
    [by vm_compute..|]. lia.
Defined.

Lemma alloc_merge_newest_wins_witness :
  ∃ out, merge_layers (2 + pile_size arng (layer_entries 0 [[extent 5 45 9]; contents]))
      [layer_of_items [extent 5 45 9]; layer_of_items contents] alloc_merge = Ok out ∧ seg arng out ∧
    ∀ p v, covers arng aval out p v ↔ newest arng aval [[extent 5 45 9]; contents] p v.
Proof.
  apply (alloc_merge_newest_wins [layer_of_items [extent 5 45 9]; layer_of_items contents]
    [[extent 5 45 9]; contents]); [repeat constructor|by vm_compute| |lia].
  repeat constructor; by vm_compute.
Defined.
