(* ===== verification/LsmTree.v ===== *)
(** * The LSM tree

    [LSMTree] of [fxfs/src/lsm_tree.rs]: a mutable layer in memory over
    immutable layers, and a cache of what was found.  A mutation holds the
    lock on the layers while it changes the mutable layer, and then tells the
    cache.  The callback for tests, the counters of [record_inspect_data] and
    the locks that keep layers from being closed are left out. *)

From S2P Require Import Prelude LsmTypes Merge MergeProps SkipList SkipListLevels SkipListIter SkipListCommit SkipListSeek.

(** ** The cache: [fxfs/src/lsm_tree/cache.rs] *)

(** [ObjectCacheResult]; [T] is the placeholder. *)
Inductive ObjectCacheResult (V T : Type) : Type :=
| CacheHit (value : V)
| CachePlaceholder (token : T)
| NoCache.
Arguments CacheHit {V T} _.
Arguments CachePlaceholder {V T} _.
Arguments NoCache {V T}.

(** [ObjectCache] and [ObjectCachePlaceholder]; the state is explicit. *)
Class ObjectCache (C K V T : Type) := {
  lookup_or_reserve : C → K → ObjectCacheResult V T * C;
  invalidate : C → K → option V → C;
  complete : C → T → option V → C;
  drop_token : C → T → C;
}.

(** [NullCache]; there are no placeholders. *)
#[global] Instance NullCache (K V : Type) : ObjectCache unit K V Empty_set := {|
  lookup_or_reserve := λ c _, (NoCache, c);
  invalidate := λ c _ _, c;
  complete := λ c _ _, c;
  drop_token := λ c _, c;
|}.

(** What a tree relies on: [caches c M] says that what [c] holds is what the
    tree has, [M] being the values of the keys in the tree. *)
Class LawfulCache {C K V T : Type} `{KeyEq K, ObjectCache C K V T} (caches : C → (K → option V) → Prop) := {
  lc_lookup : ∀ c M k r c', caches c M → lookup_or_reserve c k = (r, c') →
    caches c' M ∧
    match r with
    | CacheHit v => M k = Some v
    | CachePlaceholder token => (∀ v, M k = Some v → caches (complete c' token (Some v)) M) ∧ caches (drop_token c' token) M
    | NoCache => True
    end;
  lc_invalidate : ∀ c M M' k o, caches c M → (∀ k', M' k' = if key_eqb k k' then o else M k') → caches (invalidate c k o) M';
}.

#[global] Instance NullCache_lawful {K V} `{KeyEq K} : LawfulCache (C := unit) (K := K) (V := V) (λ _ _, True).
Proof. split; [|done]. intros c M k r c' _ [= <- <-]. done. Qed.

(** [Value::DELETED_MARKER]. *)
Class Value (V : Type) := DELETED_MARKER : V.

(** ** The mutable layer as a layer

    A query reads what a reader that is opened at the bound yields until it
    ends; the reader is gone when the query is. *)
Definition skip_list_layer `{OrdUpperBound K} {V} (sl : SkipListLayer K V) : Layer K V :=
  mkLayer
    (λ bound, '(it, sl) ← SkipListLayerIter.new sl bound; l ← reads (S (size (nodes sl))) sl it; Ok (mkIter l None))
    (λ _, Ok true)
    (Precise (sl_item_count sl)).

(** ** The tree *)
Record LSMTree (C K V : Type) : Type := mkTree {
  mutable_layer : SkipListLayer K V;
  layers : list (Layer K V);
  tree_merge_fn : MergeFn K V;
  cache : C;
  tree_counters : Counters;
}.
Arguments mkTree {C K V} _ _ _ _ _.
Arguments mutable_layer {C K V} _.
Arguments layers {C K V} _.
Arguments tree_merge_fn {C K V} _.
Arguments cache {C K V} _.
Arguments tree_counters {C K V} _.

Definition SKIP_LIST_LAYER_ITEMS : nat := 512.

Module LSMTree.
Section ops.
Context {C K V T : Type} `{KeyEq K, OrdUpperBound K, OrdLowerBound K, LayerKey K, EqDecision V, Value V, ObjectCache C K V T}.
(** The random heights of the mutable layer. *)
Context (gen_log2 : Z → nat).
Implicit Types t : LSMTree C K V.

Definition new_mutable_layer : SkipListLayer K V := SkipListLayer.new (Nat.log2 SKIP_LIST_LAYER_ITEMS + 1).

Definition new (merge_fn : MergeFn K V) (c : C) : LSMTree C K V :=
  mkTree new_mutable_layer [] merge_fn c (mkCounters 0 0 0).

Definition with_mutable t sl : LSMTree C K V := mkTree sl (layers t) (tree_merge_fn t) (cache t) (tree_counters t).
Definition with_layers t ls : LSMTree C K V := mkTree (mutable_layer t) ls (tree_merge_fn t) (cache t) (tree_counters t).
Definition with_cache t c : LSMTree C K V := mkTree (mutable_layer t) (layers t) (tree_merge_fn t) c (tree_counters t).

Definition set_layers t (ls : list (Layer K V)) : LSMTree C K V := with_layers t ls.
(** [append_layers], of layers that have been opened. *)
Definition append_layers t (ls : list (Layer K V)) : LSMTree C K V := with_layers t (layers t ++ ls).
Definition reset_immutable_layers t : LSMTree C K V := with_layers t [].
Definition set_mutable_layer t (sl : SkipListLayer K V) : LSMTree C K V := with_mutable t sl.

Definition seal t : LSMTree C K V :=
  with_layers (with_mutable t new_mutable_layer) (skip_list_layer (mutable_layer t) :: layers t).

Definition reset t : LSMTree C K V := with_mutable (with_layers t []) new_mutable_layer.

(** [add_all_layers_to_layer_set] to an empty one. *)
Definition layer_set t : list (Layer K V) := skip_list_layer (mutable_layer t) :: layers t.
Definition immutable_layer_set t : list (Layer K V) := layers t.

Definition sum_len (ls : list (Layer K V)) : res Z := foldm (λ size l, u64_add size (item_count (estimated_len l))) 0 ls.

Definition cache_value (v : V) : option V := if decide (v = DELETED_MARKER) then None else Some v.

Definition insert t (item : Item K V) : res (LSMTree C K V) :=
  sl ← SkipListOps.insert gen_log2 (mutable_layer t) item;
  let t := with_mutable t sl in
  Ok (with_cache t (invalidate (cache t) (key item) (cache_value (value item)))).

Definition replace_or_insert t (item : Item K V) : res (LSMTree C K V) :=
  sl ← SkipListOps.replace_or_insert gen_log2 (mutable_layer t) item;
  let t := with_mutable t sl in
  Ok (with_cache t (invalidate (cache t) (key item) (cache_value (value item)))).

Definition merge_into (fuel : nat) t (item : Item K V) (lower_bound : K) : res (LSMTree C K V) :=
  sl ← SkipListOps.merge_into gen_log2 fuel (mutable_layer t) item lower_bound (tree_merge_fn t);
  let t := with_mutable t sl in
  Ok (with_cache t (invalidate (cache t) (key item) None)).

(** The search in the layers that [find] makes when the cache has nothing. *)
Definition search (fuel : nat) t (search_key : K) : res (option (Item K V) * Counters) :=
  '(it, c) ← Merger.query is_range_key fuel (Merger.new (layer_set t) (tree_merge_fn t) (tree_counters t)) (Point search_key);
  o ← MergerIterator.get it;
  Ok (match o with
      | Some i => if key_eqb (key i) search_key && negb (bool_decide (value i = DELETED_MARKER)) then Some i else None
      | None => None
      end, c).

Definition find (fuel : nat) t (search_key : K) : res (option (Item K V) * LSMTree C K V) :=
  let '(r, c) := lookup_or_reserve (cache t) search_key in
  let t := with_cache t c in
  match r with
  | CacheHit value => Ok (if decide (value = DELETED_MARKER) then None else Some (Item.new search_key value), t)
  | CachePlaceholder token =>
      '(o, n) ← search fuel t search_key;
      let c := match o with
               | Some i => complete (cache t) token (Some (value i))
               | None => drop_token (cache t) token
               end in
      Ok (o, mkTree (mutable_layer t) (layers t) (tree_merge_fn t) c n)
  | NoCache =>
      '(o, n) ← search fuel t search_key;
      Ok (o, mkTree (mutable_layer t) (layers t) (tree_merge_fn t) (cache t) n)
  end.
End ops.
End LSMTree.
