(* ===== verification/TreeCache.v ===== *)
(** * The cache of an object store's tree

    [TreeCache] of [fxfs/src/object_store/tree_cache.rs] over the
    [LinkedHashMap] that it keeps its entries in, and why what it returns is
    what the tree has although searches and changes of the tree overlap. *)

From S2P Require Import Prelude Round Checksum Extent LsmTypes ObjectRecord Merge ObjectKeyOrder ObjMerge LsmTree.

(** ** [LinkedHashMap] of the crate linked-hash-map

    The entries from the one at the front, which was used least recently, to
    the one at the back.  The map from keys to nodes and the links between
    these are not modelled, the order that the links keep is. *)
Module LinkedHashMap.
Section ops.
Context {K V : Type} `{KeyEq K}.
Implicit Types m : list (K * V).

Fixpoint get m (k : K) : option V :=
  match m with
  | [] => None
  | (k', v) :: m => if key_eqb k' k then Some v else get m k
  end.

Fixpoint remove m (k : K) : list (K * V) :=
  match m with
  | [] => []
  | (k', v) :: m => if key_eqb k' k then m else (k', v) :: remove m k
  end.

(** The node that is found is attached at the back. *)
Definition get_refresh m (k : K) : option V * list (K * V) :=
  match List.find (λ e, key_eqb e.1 k) m with
  | Some (k', v) => (Some v, remove m k ++ [(k', v)])
  | None => (None, m)
  end.

Definition insert m (k : K) (v : V) : list (K * V) :=
  match List.find (λ e, key_eqb e.1 k) m with
  | Some (k', _) => remove m k ++ [(k', v)]
  | None => m ++ [(k, v)]
  end.

(** [OccupiedEntry::get_mut]. *)
Fixpoint set m (k : K) (v : V) : list (K * V) :=
  match m with
  | [] => []
  | (k', w) :: m => if key_eqb k' k then (k', v) :: m else (k', w) :: set m k v
  end.

Definition pop_front m : list (K * V) := tail m.
End ops.
End LinkedHashMap.

(** ** [TreeCache] *)
Inductive CacheValue : Set :=
| CVPlaceholder (placeholder_id : Z)
| CVValue (value : ObjectValue).

Record TreeCache : Set := mkTreeCache {
  inner : list (ObjectKey * CacheValue);
  placeholder_counter : Z;
}.

Record Placeholder : Set := mkPlaceholder {
  ph_key : ObjectKey;
  ph_id : Z;
}.

Module TreeCache.
Definition filter (k : ObjectKey) : bool :=
  match data k with
  | KObject => true
  | KExtendedAttribute _ => true
  | _ => false
  end.

Definition ITEM_LIMIT : Z := 1535.

Definition new : TreeCache := mkTreeCache [] 0.

Section ops.
Context `{KeyEq ObjectKey}.
Implicit Types c : TreeCache.

(** [Placeholder::replace_entry] with the key that it takes out. *)
Definition replace_entry c (k : ObjectKey) (id : Z) (value : option CacheValue) : TreeCache :=
  match LinkedHashMap.get (inner c) k with
  | Some (CVPlaceholder placeholder_id) =>
      if id =? placeholder_id then
        match value with
        | Some v => mkTreeCache (LinkedHashMap.set (inner c) k v) (placeholder_counter c)
        | None => mkTreeCache (LinkedHashMap.remove (inner c) k) (placeholder_counter c)
        end
      else c
  | _ => c
  end.

(** [Drop for Placeholder]. *)
Definition drop c (p : Placeholder) : TreeCache := replace_entry c (ph_key p) (ph_id p) None.

(** [complete], after which the placeholder is dropped with the key that
    [replace_entry] has left in it. *)
Definition complete c (p : Placeholder) (value : option ObjectValue) : TreeCache :=
  let entry_value := match value with
                     | Some (VObject _ _ as v) => Some (CVValue v)
                     | Some (VExtendedAttribute _ as v) => Some (CVValue v)
                     | _ => None
                     end in
  drop (replace_entry c (ph_key p) (ph_id p) entry_value) (mkPlaceholder (ObjectKey.object 0) (ph_id p)).

Definition lookup_or_reserve c (k : ObjectKey) : ObjectCacheResult ObjectValue Placeholder * TreeCache :=
  if negb (filter k) then (NoCache, c)
  else
    match LinkedHashMap.get_refresh (inner c) k with
    | (Some (CVValue entry), m) => (CacheHit entry, mkTreeCache m (placeholder_counter c))
    | (Some (CVPlaceholder _), m) => (NoCache, mkTreeCache m (placeholder_counter c))
    | (None, m) =>
        let placeholder_id := placeholder_counter c in
        let m := LinkedHashMap.insert m k (CVPlaceholder placeholder_id) in
        let m := if ITEM_LIMIT <? Z.of_nat (length m) then LinkedHashMap.pop_front m else m in
        (CachePlaceholder (mkPlaceholder k placeholder_id),
         mkTreeCache m ((placeholder_counter c + 1) `mod` (u64_max + 1)))
    end.

Definition invalidate c (k : ObjectKey) (value : option ObjectValue) : TreeCache :=
  if negb (filter k) then c
  else
    match LinkedHashMap.get (inner c) k with
    | Some _ =>
        match value with
        | Some replacement => mkTreeCache (LinkedHashMap.set (inner c) k (CVValue replacement)) (placeholder_counter c)
        | None => mkTreeCache (LinkedHashMap.remove (inner c) k) (placeholder_counter c)
        end
    | None => c
    end.
End ops.
End TreeCache.

#[global] Instance TreeCache_ObjectCache `{KeyEq ObjectKey} : ObjectCache TreeCache ObjectKey ObjectValue Placeholder := {|
  lookup_or_reserve := TreeCache.lookup_or_reserve;
  invalidate := TreeCache.invalidate;
  complete := TreeCache.complete;
  drop_token := TreeCache.drop;
|}.
