(* ===== verification/TreeCacheProps.v ===== *)
(** * The cache of an object store's tree tells what the tree has

    The cache is lawful for a tree whose operations follow each other, and
    coherent when searches and changes of the tree overlap: what it returns
    for a key that no change is in flight for is what the tree has. *)

From S2P Require Import Prelude Round Checksum Extent LsmTypes ObjectRecord Merge MergeProps ObjectKeyOrder ObjMerge LsmTree TreeCache.

Section cache.
Context (normal_form : list Z → list Z).
#[local] Instance cache_key_eq : KeyEq ObjectKey := key_eq normal_form.
Implicit Types (m : list (ObjectKey * CacheValue)) (k : ObjectKey) (v : CacheValue) (c : TreeCache).
#[local] Abbreviation cached := TreeCache.filter.

(** The keys that are cached are equal only to themselves. *)
Lemma cached_eq k k' : cached k = true → key_eqb k' k = true ↔ k' = k.
Proof.
  intros Hk. unfold key_eqb, cache_key_eq, key_eq, data_eq. destruct k as [o d], k' as [o' d']. cbn [object_id data].
  destruct (Z.eqb_spec o' o) as [->|Hne]; cbn [andb]; [|split; [done|intros [= ? _]; congruence]].
  destruct d as [| |? []| | | | | | |]; try done; destruct d' as [| |? []| | | | | | |]; cbn; try done.
  pose proof (seq_cmp_Eq name0 name) as Heq. destruct (seq_cmp name0 name) eqn:Ec; [by rewrite Heq|split; [done|]..]; intros [= ->]; by rewrite seq_cmp_refl in Ec.
Qed.

(** ** The map *)
Definition wf m : Prop := NoDup m.*1 ∧ ∀ e, e ∈ m → cached e.1 = true.

Lemma wf_cons e m : wf (e :: m) ↔ cached e.1 = true ∧ (e.1 ∉ m.*1) ∧ wf m.
Proof. unfold wf. cbn [fmap list_fmap]. rewrite NoDup_cons. setoid_rewrite elem_of_cons. naive_solver. Qed.

Lemma wf_perm m m' : m ≡ₚ m' → wf m → wf m'.
Proof. intros Hp [H1 H2]. split; [by rewrite <- Hp|]. intros e He. apply H2. by rewrite Hp. Qed.

Lemma eqb_false k k' : cached k = true → k' ≠ k → key_eqb k' k = false.
Proof. intros Hk Hne. apply not_true_iff_false. by rewrite cached_eq. Qed.

Lemma eqb_true k : cached k = true → key_eqb k k = true.
Proof. intros Hk. by apply cached_eq. Qed.

Lemma elem_fst k v m : (k, v) ∈ m → k ∈ m.*1.
Proof. intros Hin. apply list_elem_of_fmap. by exists (k, v). Qed.

Lemma get_elem m k v : wf m → cached k = true → LinkedHashMap.get m k = Some v ↔ (k, v) ∈ m.
Proof.
  intros Hm Hk. induction m as [|[k' w] m IH]; cbn [LinkedHashMap.get]; [by rewrite elem_of_nil|]. apply wf_cons in Hm as (_ & Hn & Hm). cbn in Hn.
  rewrite elem_of_cons. destruct (decide (k' = k)) as [->|Hne].
  - rewrite eqb_true by done. split; [intros [= ->]; by left|]. intros [[= ->]|Hin]; [done|]. by apply elem_fst in Hin.
  - rewrite eqb_false, IH by done. split; [auto|]. intros [[= -> _]|?]; [done|done].
Qed.

Lemma get_None m k : wf m → cached k = true → LinkedHashMap.get m k = None → k ∉ m.*1.
Proof.
  intros Hm Hk Hg ([k' v] & Heq & Hin)%list_elem_of_fmap. cbn in Heq. subst k'. apply get_elem in Hin; [congruence|done..].
Qed.

Lemma remove_spec m k : wf m → cached k = true →
  wf (LinkedHashMap.remove m k) ∧ ∀ e, e ∈ LinkedHashMap.remove m k ↔ e ∈ m ∧ e.1 ≠ k.
Proof.
  intros Hm Hk. induction m as [|[k' w] m IH]; cbn [LinkedHashMap.remove]; [split; [done|set_solver]|]. apply wf_cons in Hm as (Hk' & Hn & Hm). cbn in Hk', Hn.
  destruct (IH Hm) as [Hw He]. destruct (decide (k' = k)) as [->|Hne].
  - rewrite eqb_true by done. split; [done|]. intros [k0 v0]. rewrite elem_of_cons. cbn. split; [|intros [[[= -> ->]|?] ?]; done].
    intros Hin. split; [auto|]. intros ->. by apply elem_fst in Hin.
  - rewrite eqb_false by done. split.
    + apply wf_cons. split_and!; [done| |done]. cbn. intros ([k0 v0] & -> & Hin)%list_elem_of_fmap. apply He in Hin as [Hin _]. by apply elem_fst in Hin.
    + intros e. rewrite !elem_of_cons, He. split; [intros [->|[? ?]]; auto|]. tauto.
Qed.

Lemma set_elem m k v : wf m → cached k = true →
  wf (LinkedHashMap.set m k v) ∧ ∀ e, e ∈ LinkedHashMap.set m k v ↔ (e ∈ m ∧ e.1 ≠ k) ∨ (e = (k, v) ∧ k ∈ m.*1).
Proof.
  intros Hm Hk. assert ((LinkedHashMap.set m k v).*1 = m.*1) as Hfst.
  { clear. induction m as [|[k' w] m IH]; cbn [LinkedHashMap.set]; [done|]. destruct (key_eqb k' k); [done|]. cbn. by rewrite IH. }
  assert (∀ e, e ∈ LinkedHashMap.set m k v ↔ (e ∈ m ∧ e.1 ≠ k) ∨ (e = (k, v) ∧ k ∈ m.*1)) as Hel.
  { clear Hfst. induction m as [|[k' w] m IH]; cbn [LinkedHashMap.set]; [set_solver|]. apply wf_cons in Hm as (Hk' & Hn & Hm). cbn in Hk', Hn.
    intros e. destruct (decide (k' = k)) as [->|Hne].
    - rewrite eqb_true by done. rewrite !elem_of_cons. cbn. rewrite elem_of_cons. split; [intros [->|Hin]; [auto|]|].
      + left. split; [auto|]. intros He. apply Hn. destruct e as [k0 v0]. cbn in He. subst. by apply elem_fst in Hin.
      + intros [[[->|?] He]|[-> _]]; [done|auto|auto].
    - rewrite eqb_false by done. rewrite !elem_of_cons, (IH Hm). cbn. rewrite elem_of_cons. split; [intros [->|[[? ?]|[-> ?]]]; auto|].
      intros [[[->|?] He]|[-> [?|?]]]; auto. by subst. }
  split; [|done]. destruct Hm as [H1 H2]. split; [by rewrite Hfst|]. intros e [[? _]|[-> _]]%Hel; [by apply H2|done].
Qed.

Lemma find_get m k : LinkedHashMap.get m k = snd <$> List.find (λ e, key_eqb e.1 k) m.
Proof. induction m as [|[k' w] m IH]; cbn; [done|]. by destruct (key_eqb k' k). Qed.

Lemma refresh_spec m k o m' : LinkedHashMap.get_refresh m k = (o, m') → o = LinkedHashMap.get m k ∧ m ≡ₚ m'.
Proof.
  unfold LinkedHashMap.get_refresh. rewrite find_get. destruct (List.find _ m) as [[k' v]|] eqn:Ef; intros [= <- <-]; [|done]. split; [done|].
  rewrite (Permutation_app_comm (LinkedHashMap.remove m k)). cbn [app]. revert Ef. induction m as [|[k0 w] m IH]; cbn; [done|].
  destruct (key_eqb k0 k); [by intros [= -> ->]|]. intros Hf. rewrite <- Permutation_swap. by constructor; apply IH.
Qed.

(** ** The operations *)
Lemma replace_spec c k id o : wf (inner c) → cached k = true → let c' := TreeCache.replace_entry c k id o in
  wf (inner c') ∧ placeholder_counter c' = placeholder_counter c ∧
  ∀ e, e ∈ inner c' → e ∈ inner c ∨ (k, CVPlaceholder id) ∈ inner c ∧ e.1 = k ∧ o = Some e.2.
Proof.
  intros Hm Hk c'. unfold c', TreeCache.replace_entry. destruct (LinkedHashMap.get (inner c) k) as [[id'|v]|] eqn:Eg; [|by auto..].
  destruct (Z.eqb_spec id id') as [<-|]; [|by auto]. apply get_elem in Eg; [|done..]. destruct o as [v|]; cbn [inner placeholder_counter].
  - destruct (set_elem (inner c) k v Hm Hk) as [Hw He]. split_and!; [done..|]. intros e [[? _]|[-> _]]%He; auto.
  - destruct (remove_spec (inner c) k Hm Hk) as [Hw He]. split_and!; [done..|]. intros e [? _]%He. auto.
Qed.

Lemma drop_spec c p : wf (inner c) → cached (ph_key p) = true → let c' := TreeCache.drop c p in
  wf (inner c') ∧ placeholder_counter c' = placeholder_counter c ∧ ∀ e, e ∈ inner c' → e ∈ inner c.
Proof.
  intros Hm Hk c'. destruct (replace_spec c (ph_key p) (ph_id p) None Hm Hk) as (H1 & H2 & H3). split_and!; [done..|]. intros e [?|(_ & _ & ?)]%H3; done.
Qed.

Lemma complete_spec c p o : wf (inner c) → cached (ph_key p) = true → let c' := TreeCache.complete c p o in
  wf (inner c') ∧ placeholder_counter c' = placeholder_counter c ∧
  ∀ e, e ∈ inner c' → e ∈ inner c ∨ (ph_key p, CVPlaceholder (ph_id p)) ∈ inner c ∧ ∃ x, o = Some x ∧ e = (ph_key p, CVValue x).
Proof.
  intros Hm Hk c'. unfold c', TreeCache.complete. set (w := match o with Some _ => _ | None => None end).
  destruct (replace_spec c (ph_key p) (ph_id p) w Hm Hk) as (H1 & H2 & H3).
  destruct (drop_spec _ (mkPlaceholder (ObjectKey.object 0) (ph_id p)) H1 eq_refl) as (H4 & H5 & H6). split_and!; [done|congruence|].
  intros [k v] [?|(Hp & Hk' & Hw)]%H6%H3; [auto|]. right. split; [done|]. cbn in Hk', Hw. subst k. destruct o as [x|]; [|done]. exists x. split; [done|].
  f_equal. unfold w in Hw. destruct x; try discriminate Hw; by injection Hw as <-.
Qed.

Lemma lookup_spec c k r c' : wf (inner c) → TreeCache.lookup_or_reserve c k = (r, c') →
  wf (inner c') ∧
  match r with
  | CacheHit v => (k, CVValue v) ∈ inner c ∧ inner c ≡ₚ inner c' ∧ placeholder_counter c' = placeholder_counter c
  | NoCache => inner c ≡ₚ inner c' ∧ placeholder_counter c' = placeholder_counter c
  | CachePlaceholder p =>
      p = mkPlaceholder k (placeholder_counter c) ∧ cached k = true ∧
      placeholder_counter c' = (placeholder_counter c + 1) `mod` (u64_max + 1) ∧
      ∀ e, e ∈ inner c' → e ∈ inner c ∨ e = (k, CVPlaceholder (placeholder_counter c))
  end.
Proof.
  intros Hm. unfold TreeCache.lookup_or_reserve. destruct (cached k) eqn:Hk; [|by intros [= <- <-]].
  destruct (LinkedHashMap.get_refresh (inner c) k) as [o m] eqn:Er. apply refresh_spec in Er as [-> Hp]. pose proof (wf_perm _ _ Hp Hm) as Hw. cbn [negb].
  destruct (LinkedHashMap.get (inner c) k) as [[id|v]|] eqn:Eg.
  - by intros [= <- <-].
  - apply get_elem in Eg; [|done..]. by intros [= <- <-].
  - intros [= <- <-]. cbn [inner placeholder_counter]. assert (k ∉ m.*1) as Hn by (rewrite <- Hp; by apply get_None).
    assert (LinkedHashMap.insert m k (CVPlaceholder (placeholder_counter c)) = m ++ [(k, CVPlaceholder (placeholder_counter c))]) as ->.
    { unfold LinkedHashMap.insert. destruct (List.find _ m) as [[k' v]|] eqn:Ef; [|done]. apply find_some in Ef as [Hin Hk']. cbn in Hk'.
      apply cached_eq in Hk' as ->; [|done]. apply list_elem_of_In, elem_fst in Hin. done. }
    set (m' := m ++ _). assert (wf m') as Hw'.
    { apply (wf_perm ((k, CVPlaceholder (placeholder_counter c)) :: m)); [apply Permutation_cons_append|by apply wf_cons]. }
    assert (∀ e, e ∈ m' → e ∈ inner c ∨ e = (k, CVPlaceholder (placeholder_counter c))) as He.
    { intros e [He| ->%list_elem_of_singleton]%elem_of_app; [left; by rewrite Hp|auto]. }
    destruct (_ <? _); [|done]. destruct m' as [|e0 m']; [done|]. apply wf_cons in Hw' as (_ & _ & Hw'). split_and!; [done..|]. intros e ?. apply He. by right.
Qed.

Lemma invalidate_spec c k o : wf (inner c) → let c' := TreeCache.invalidate c k o in
  wf (inner c') ∧ placeholder_counter c' = placeholder_counter c ∧
  ∀ e, e ∈ inner c' → e ∈ inner c ∧ e.1 ≠ k ∨ cached k = true ∧ ∃ x, o = Some x ∧ e = (k, CVValue x).
Proof.
  intros Hm c'. unfold c', TreeCache.invalidate. destruct (cached k) eqn:Hk; cbn [negb].
  2: { split_and!; [done..|]. intros e He. left. split; [done|]. intros <-. apply Hm in He. congruence. }
  destruct (LinkedHashMap.get (inner c) k) as [w|] eqn:Eg; [destruct o as [v|]|]; cbn [inner placeholder_counter].
  - destruct (set_elem (inner c) k (CVValue v) Hm Hk) as [Hw He]. split_and!; [done..|]. intros e [[? ?]|[-> _]]%He; eauto.
  - destruct (remove_spec (inner c) k Hm Hk) as [Hw He]. split_and!; [done..|]. intros e [? ?]%He. auto.
  - apply get_None in Eg; [|done..]. split_and!; [done..|]. intros [k' v] He. left. split; [done|]. cbn. intros ->. by apply elem_fst in He.
Qed.

(** ** One operation after the other *)
Definition caches c (M : ObjectKey → option ObjectValue) : Prop :=
  wf (inner c) ∧ ∀ k x, (k, CVValue x) ∈ inner c → M k = Some x.

Lemma caches_new M : caches TreeCache.new M.
Proof. split; [split; [constructor|]|]; cbn; intros; by apply elem_of_nil in H. Qed.

#[global] Instance tree_cache_lawful : LawfulCache caches.
Proof.
  split.
  - intros c M k r c' [Hm HM] Hl. apply lookup_spec in Hl as [Hw Hr]; [|done]. destruct r as [v|p|].
    + destruct Hr as (Hv & Hp & _). split; [|by apply HM]. split; [done|]. intros k' v'. rewrite <- Hp. apply HM.
    + destruct Hr as (-> & Hk & _ & He). assert (∀ k' x, (k', CVValue x) ∈ inner c' → M k' = Some x) as HM'.
      { intros k' x [?|?]%He; [by apply HM|done]. }
      split; [done|]. split.
      * intros v Hv. destruct (complete_spec c' (mkPlaceholder k (placeholder_counter c)) (Some v) Hw Hk) as (H1 & _ & H2). split; [done|].
        intros k' v' [?|(_ & x & [= <-] & [= -> ->])]%H2; [by apply HM'|done].
      * destruct (drop_spec c' (mkPlaceholder k (placeholder_counter c)) Hw Hk) as (H1 & _ & H2). split; [done|]. intros k' v' ?%H2. by apply HM'.
    + destruct Hr as [Hp _]. split; [|done]. split; [done|]. intros k' v'. rewrite <- Hp. apply HM.
  - intros c M M' k o [Hm HM] HM'. destruct (invalidate_spec c k o Hm) as (Hw & _ & He). split; [done|]. intros k' v [[Hin Hne]|(Hk & x & -> & [= -> ->])]%He; rewrite HM'.
    + cbn in Hne. rewrite eqb_false; [by apply HM|by apply Hm in Hin|done].
    + by rewrite eqb_true.
Qed.

(** ** The limit *)
Lemma set_length m k v : length (LinkedHashMap.set m k v) = length m.
Proof. induction m as [|[k' w] m IH]; cbn; [done|]. destruct (key_eqb k' k); cbn; [done|by rewrite IH]. Qed.
Lemma remove_length m k : (length (LinkedHashMap.remove m k) ≤ length m)%nat.
Proof. induction m as [|[k' w] m IH]; cbn; [done|]. destruct (key_eqb k' k); cbn; lia. Qed.

Definition small c : Prop := Z.of_nat (length (inner c)) ≤ TreeCache.ITEM_LIMIT.

Lemma replace_small c k id o : small c → small (TreeCache.replace_entry c k id o).
Proof.
  unfold small, TreeCache.replace_entry. intros Hs. destruct (LinkedHashMap.get (inner c) k) as [[id'|w]|]; [|done..].
  destruct (id =? id'); [|done]. pose proof (remove_length (inner c) k). destruct o; cbn; [by rewrite set_length|lia].
Qed.

Lemma lookup_small c k : small c → small (TreeCache.lookup_or_reserve c k).2.
Proof.
  unfold small, TreeCache.lookup_or_reserve. intros Hs. destruct (cached k); [|done]. cbn [negb].
  destruct (LinkedHashMap.get_refresh (inner c) k) as [o m] eqn:Er. apply refresh_spec in Er as [-> Hp]. apply Permutation_length in Hp.
  destruct (LinkedHashMap.get (inner c) k) as [[id|w]|]; cbn; [by rewrite <- Hp..|].
  set (m' := LinkedHashMap.insert m k _). assert (length m' ≤ length m + 1)%nat as Hl.
  { unfold m', LinkedHashMap.insert. pose proof (remove_length m k). destruct (List.find _ m) as [[? ?]|]; rewrite length_app; cbn; lia. }
  destruct (Z.ltb_spec TreeCache.ITEM_LIMIT (Z.of_nat (length m'))); [|done]. unfold LinkedHashMap.pop_front. destruct m'; cbn in *; lia.
Qed.

Lemma invalidate_small c k o : small c → small (TreeCache.invalidate c k o).
Proof.
  unfold small, TreeCache.invalidate. intros Hs. destruct (negb (cached k)); [done|]. destruct (LinkedHashMap.get (inner c) k); [|done].
  pose proof (remove_length (inner c) k). destruct o; cbn; [by rewrite set_length|lia].
Qed.

(** ** Searches and changes that overlap

    A search looks in the cache, searches the tree and completes its
    placeholder, or is abandoned; a change of the tree is followed by the
    invalidation of the key.  Other steps may come between these.  Changes of
    the same key exclude each other by the locks of transactions. *)
Record overlap : Set := mkOverlap {
  contents : ObjectKey → option ObjectValue;
  shared : TreeCache;
  searches : list (Placeholder * option (option ObjectValue));
  changes : list (ObjectKey * option ObjectValue);
}.

Definition write (M : ObjectKey → option ObjectValue) k (o : option ObjectValue) : ObjectKey → option ObjectValue :=
  λ k', if key_eqb k k' then o else M k'.

(** What [find] does with its placeholder once it has searched. *)
Definition finish c (p : Placeholder) (o : option ObjectValue) : TreeCache :=
  match o with Some v => complete c p (Some v) | None => drop_token c p end.

Inductive ostep : overlap → overlap → Prop :=
| os_lookup M c S C k r c' : placeholder_counter c < u64_max → lookup_or_reserve c k = (r, c') →
    ostep (mkOverlap M c S C)
      (mkOverlap M c' (match r with CachePlaceholder p => (p, None) :: S | _ => S end) C)
| os_search M c S1 p S2 C :
    ostep (mkOverlap M c (S1 ++ (p, None) :: S2) C) (mkOverlap M c (S1 ++ (p, Some (M (ph_key p))) :: S2) C)
| os_finish M c S1 p o S2 C :
    ostep (mkOverlap M c (S1 ++ (p, Some o) :: S2) C) (mkOverlap M (finish c p o) (S1 ++ S2) C)
| os_abandon M c S1 p o S2 C :
    ostep (mkOverlap M c (S1 ++ (p, o) :: S2) C) (mkOverlap M (drop_token c p) (S1 ++ S2) C)
| os_change M c S C k o : k ∉ C.*1 →
    ostep (mkOverlap M c S C) (mkOverlap (write M k o) c S ((k, o) :: C))
| os_invalidate M c S C1 k o C2 :
    ostep (mkOverlap M c S (C1 ++ (k, o) :: C2)) (mkOverlap M (invalidate c k o) S (C1 ++ C2)).

Definition start (M : ObjectKey → option ObjectValue) : overlap := mkOverlap M TreeCache.new [] [].

(** What is cached, and what a search is about to complete, is what the tree
    has unless a change is in flight. *)
Record coherent (s : overlap) : Prop := {
  co_wf : wf (inner (shared s));
  co_small : small (shared s);
  co_value : ∀ k x, (k, CVValue x) ∈ inner (shared s) → contents s k = Some x ∨ k ∈ (changes s).*1;
  co_search : ∀ p o, (p, Some o) ∈ searches s → (ph_key p, CVPlaceholder (ph_id p)) ∈ inner (shared s) →
    contents s (ph_key p) = o ∨ ph_key p ∈ (changes s).*1;
  co_keys : ∀ p o, (p, o) ∈ searches s → cached (ph_key p) = true ∧ 0 ≤ ph_id p < placeholder_counter (shared s);
  co_counter : 0 ≤ placeholder_counter (shared s);
  co_changes : NoDup (changes s).*1;
  co_written : ∀ k o, (k, o) ∈ changes s → cached k = true → contents s k = o;
}.

(** Steps that only take entries out of the cache, or add a value that is
    right. *)
Lemma coherent_shrink M c c' S S' C : coherent (mkOverlap M c S C) → wf (inner c') → small c' → placeholder_counter c' = placeholder_counter c →
  (∀ e, e ∈ S' → e ∈ S) →
  (∀ e, e ∈ inner c' → e ∈ inner c ∨ ∃ x, e.2 = CVValue x ∧ (M e.1 = Some x ∨ e.1 ∈ C.*1)) → coherent (mkOverlap M c' S' C).
Proof.
  intros [H1 H2 H3 H4 H5 H6 H7 H8] Hw Hs Hc HS He. cbn [shared contents searches changes] in *. split; cbn [shared contents searches changes]; try done.
  - intros k x Hin. destruct (He _ Hin) as [?|(y & [= ->] & Hy)]; [by apply H3|done].
  - intros p o Hin Hp. destruct (He _ Hp) as [?|(y & ? & _)]; [by apply H4; [apply HS|]|done].
  - intros p o Hin. rewrite Hc. by eapply H5, HS.
  - by rewrite Hc.
Qed.

Lemma coherent_lookup M c S C k r c' : placeholder_counter c < u64_max → TreeCache.lookup_or_reserve c k = (r, c') → coherent (mkOverlap M c S C) →
  coherent (mkOverlap M c' (match r with CachePlaceholder p => (p, None) :: S | _ => S end) C).
Proof.
  intros Hcnt Hl Hco. pose proof Hco as [H1 H2 H3 H4 H5 H6 H7 H8]. cbn [shared contents searches changes] in *.
  pose proof (lookup_small c k H2) as Hs. rewrite Hl in Hs. cbn in Hs. apply lookup_spec in Hl as [Hw Hr]; [|done]. destruct r as [x|p|].
  - destruct Hr as (_ & Hp & Hc). apply (coherent_shrink M c c' S S C); [done..|]. intros e. rewrite <- Hp. auto.
  - destruct Hr as (-> & Hk & Hc & He). rewrite Z.mod_small in Hc by lia. split; cbn [shared contents searches changes]; try done.
    + intros k' x [?|?]%He; [by apply H3|done].
    + intros p o [[=]|Hin]%elem_of_cons Hp. apply He in Hp as [Hp|[= _ Hid]]; [by apply H4|]. apply H5 in Hin. lia.
    + intros p o [[= -> _]|Hin]%elem_of_cons; [cbn; split; [done|lia]|]. apply H5 in Hin. split; [apply Hin|lia].
    + lia.
  - destruct Hr as (Hp & Hc). apply (coherent_shrink M c c' S S C); [done..|]. intros e. rewrite <- Hp. auto.
Qed.

Lemma coherent_change M c S C k o : k ∉ C.*1 → coherent (mkOverlap M c S C) → coherent (mkOverlap (write M k o) c S ((k, o) :: C)).
Proof.
  intros Hk [H1 H2 H3 H4 H5 H6 H7 H8]. cbn [shared contents searches changes] in *. split; cbn [shared contents searches changes fmap list_fmap]; try done.
  - intros k' x Hin. rewrite elem_of_cons. destruct (decide (k' = k)) as [->|Hne]; [auto|]. unfold write. rewrite eqb_false; [|by apply H1 in Hin|done].
    destruct (H3 _ _ Hin); auto.
  - intros p o' Hin Hp. rewrite elem_of_cons. destruct (decide (ph_key p = k)) as [->|Hne]; [auto|]. unfold write. rewrite eqb_false; [|by eapply H5|done].
    destruct (H4 _ _ Hin Hp); auto.
  - by apply NoDup_cons.
  - intros k' o' [[= -> ->]|Hin]%elem_of_cons Hk'; unfold write; [by rewrite eqb_true|]. rewrite eqb_false; [by apply H8|done|].
    intros ->. apply Hk, list_elem_of_fmap. by exists (k', o').
Qed.

Lemma coherent_invalidate M c S C1 k o C2 : coherent (mkOverlap M c S (C1 ++ (k, o) :: C2)) →
  coherent (mkOverlap M (TreeCache.invalidate c k o) S (C1 ++ C2)).
Proof.
  intros [H1 H2 H3 H4 H5 H6 H7 H8]. cbn [shared contents searches changes] in *. destruct (invalidate_spec c k o H1) as (Hw & Hc & He).
  assert (∀ k', k' ≠ k → k' ∈ (C1 ++ (k, o) :: C2).*1 → k' ∈ (C1 ++ C2).*1) as Hin.
  { intros k' Hne. rewrite !fmap_app, fmap_cons, !elem_of_app, elem_of_cons. cbn. tauto. }
  split; cbn [shared contents searches changes]; try done.
  - by apply invalidate_small.
  - intros k' x [[Hx Hne]|(Hk & y & -> & [= -> ->])]%He; [|left; apply H8; [set_solver|done]]. cbn in Hne. destruct (H3 _ _ Hx); auto.
  - intros p o' Hp [[Hx Hne]|(_ & y & _ & ?)]%He; [|done]. cbn in Hne. destruct (H4 _ _ Hp Hx); auto.
  - intros p o' Hp. rewrite Hc. by eapply H5.
  - by rewrite Hc.
  - rewrite fmap_app in H7 |- *. cbn [fmap list_fmap] in H7. apply NoDup_app in H7 as (N1 & N2 & [_ N3]%NoDup_cons). apply NoDup_app. split_and!; [done| |done].
    intros x Hx Hx2. apply (N2 x Hx). by right.
  - intros k' o' Hx. apply H8. apply elem_of_app. apply elem_of_app in Hx as [?|?]; [auto|]. right. by right.
Qed.

Lemma coherent_step s s' : ostep s s' → coherent s → coherent s'.
Proof.
  destruct 1 as [M c S C k r c' Hcnt Hl|M c S1 p S2 C|M c S1 p o S2 C|M c S1 p o S2 C|M c S C k o Hk|M c S C1 k o C2]; intros Hco.
  - exact (coherent_lookup M c S C k r c' Hcnt Hl Hco).
  - destruct Hco as [H1 H2 H3 H4 H5 H6 H7 H8]. cbn [shared contents searches changes] in *. split; cbn [shared contents searches changes]; try done.
    + intros q o [Hq|[[= -> ->]|Hq]%elem_of_cons]%elem_of_app Hp; [|by left|]; apply H4; [set_solver|done|set_solver|done].
    + intros q o [Hq|[[= -> ->]|Hq]%elem_of_cons]%elem_of_app; [by apply (H5 q o); set_solver|by apply (H5 p None); set_solver|by apply (H5 q o); set_solver].
  - pose proof Hco as [H1 H2 H3 H4 H5 H6 H7 H8]. cbn [shared contents searches changes] in *. destruct (H5 p (Some o) ltac:(set_solver)) as [Hk _].
    destruct o as [x|]; cbn [finish].
    + destruct (complete_spec c p (Some x) H1 Hk) as (Hw & Hc & He). apply (coherent_shrink M c _ (S1 ++ (p, Some (Some x)) :: S2)); [done|done| |done|set_solver|].
      { unfold TreeCache.complete, TreeCache.drop. by repeat apply replace_small. }
      intros e [?|(Hp & y & [= <-] & ->)]%He; [auto|]. right. exists x. split; [done|]. apply H4; [set_solver|done].
    + destruct (drop_spec c p H1 Hk) as (Hw & Hc & He). apply (coherent_shrink M c _ (S1 ++ (p, Some None) :: S2)); [done|done|by apply replace_small|done|set_solver|auto].
  - pose proof Hco as [H1 H2 _ _ H5 _ _ _]. cbn [shared contents searches changes] in *. destruct (H5 p o ltac:(set_solver)) as [Hk _].
    destruct (drop_spec c p H1 Hk) as (Hw & Hc & He). apply (coherent_shrink M c _ (S1 ++ (p, o) :: S2)); [done|done|by apply replace_small|done|set_solver|auto].
  - by apply coherent_change.
  - by apply coherent_invalidate.
Qed.

Lemma coherent_start M : coherent (start M).
Proof.
  split; cbn; [split; [constructor|by intros e ?%elem_of_nil]|unfold small, TreeCache.ITEM_LIMIT; cbn; lia|by intros k x ?%elem_of_nil|by intros p o ?%elem_of_nil..|lia|constructor|by intros k o ?%elem_of_nil].
Qed.

(** C21: However searches and changes of a tree overlap, a value that the cache
    returns for a key is the one the tree has, unless a change of that key is in
    flight; and the cache never holds more than its limit. *)
Theorem tree_cache_coherent M s : rtc ostep (start M) s →
  small (shared s) ∧
  ∀ k x c', lookup_or_reserve (shared s) k = (CacheHit x, c') → k ∉ (changes s).*1 → contents s k = Some x.
Proof.
  intros Hr. assert (coherent s) as [H1 H2 H3 _ _ _ _ _].
  { pose proof (coherent_start M) as Hco. revert Hco. induction Hr as [|x y z Hxy _ IH]; [done|]. intros Hx. apply IH. by eapply coherent_step. }
  split; [done|]. intros k x c' Hl Hk. apply lookup_spec in Hl as (_ & Hin & _); [|done]. by destruct (H3 _ _ Hin).
Qed.
End cache.
