(* ===== verification/ObjTree.v ===== *)
(** * The tree of an object store

    An LSM tree over the layers and the merge function of an object store, as
    far as records are concerned that are neither extents nor usage of
    projects: it is a map from keys to values, whatever is in which layer and
    whatever the cache has. *)

From S2P Require Import Prelude Round Checksum Extent LsmTypes ObjectRecord Merge MergeProps MergeQuery ObjectKeyOrder.
From S2P Require Import Segments SegMerge ObjMerge ObjMergeProps ObjMergeViews ObjMergeSpec ObjFind.
From S2P Require Import SkipList SkipListIter SkipListCommit SkipListSeek SkipListFrame LsmTree.

#[global] Instance ObjectValue_Value : Value ObjectValue := VNone.

Section tree.
Context (normal_form : list Z → list Z) (bs : Z) (Hbs : 0 < bs).
#[local] Abbreviation cmp_lower := (object_cmp_lower_bound normal_form).
#[local] Abbreviation layer_ok := (layer_ok normal_form bs).
#[local] Abbreviation obefore := (obefore normal_form).
#[local] Abbreviation merge := (merge normal_form).
#[local] Abbreviation is_key := (is_key normal_form).
#[local] Abbreviation record_of := (record_of normal_form).
#[local] Abbreviation layers_ok := (layers_ok normal_form bs).
#[local] Instance tree_key_eq : KeyEq ObjectKey := key_eq normal_form.
#[local] Hint Extern 0 (OrdLowerBound ObjectKey) => exact (object_lower normal_form) : typeclass_instances.
#[local] Hint Extern 0 (OrdUpperBound ObjectKey) => exact (object_upper normal_form) : typeclass_instances.
#[local] Hint Extern 0 (TotalCmp (cmp_lower_bound (K := ObjectKey))) => exact (object_lower_total normal_form) : typeclass_instances.
#[local] Hint Extern 0 (TotalCmp (cmp_upper_bound (K := ObjectKey))) => exact (object_upper_total normal_form) : typeclass_instances.
Implicit Types (k : ObjectKey) (x item : ObjectItem) (c s : list ObjectItem) (sl : SkipListLayer ObjectKey ObjectValue).

(** ** The mutable layer *)
Lemma item_key_ok x : item_ok bs x → key_ok (key x).
Proof.
  unfold key_ok. intros Hx. destruct (data (key x)) as [| |a [|e]| | | | | | |] eqn:Ed; try done.
  pose proof (ext_ne bs (object_id (key x)) a x) as Hn. unfold is_ext, orng in Hn. destruct (key x) as [o d]. cbn in *. subst d. rewrite !Z.eqb_refl in Hn. by apply Hn.
Qed.

Lemma layer_sorted c : layer_ok c → StronglySorted upper_le c.
Proof.
  intros [Hs Hi]. induction Hs as [|x c Hs IH Hb]; constructor; [by apply IH; apply Forall_cons in Hi as [_ ?]|].
  apply Forall_cons in Hi as [Hx Hi]. rewrite Forall_forall in Hb, Hi |- *. intros y Hy. destruct (Hb y Hy) as [Hlt Hov].
  destruct (bounds_agree normal_form _ _ (item_key_ok _ Hx) (item_key_ok _ (Hi _ Hy)) Hov) as [Heq _]. unfold upper_le, cmp_upper_bound, object_upper.
  by rewrite <- Heq, Hlt.
Qed.

Lemma represents_size sl c : represents sl c → (length c ≤ size (nodes sl))%nat.
Proof.
  intros (xs & Hinv & <-). pose proof (li_nodes _ _ Hinv) as Hok. rewrite items_length by done. destruct Hok as [Hnd Hok].
  rewrite <- (size_list_to_set (C := gset Z)) by done. rewrite <- size_dom. apply subseteq_size.
  intros l Hl%elem_of_list_to_set. destruct (Hok l Hl) as (n & Hn & _). by eapply elem_of_dom_2.
Qed.

Lemma skip_list_serves sl c : represents sl c → layer_ok c → current_count sl < u16_max → serves (skip_list_layer sl) c.
Proof.
  intros Hr Hc Hn. split; [|done|by eexists]. intros b. cbn [seek skip_list_layer]. pose proof (represents_size sl c Hr).
  destruct (skip_list_seek sl c b (S (size (nodes sl))) Hr (layer_sorted c Hc) Hn ltac:(lia)) as (it & sl' & -> & _ & Hns & Hrd). res_simpl.
  rewrite Hns, Hrd. done.
Qed.

(** ** Keys *)
Lemma plain_key_eq k k' : plain k → key_eqb k k' = true ↔ cmp_lower k k' = Eq.
Proof. intros [Hk _]. by apply key_eq_lower. Qed.

Lemma plain_is_key item k : plain (key item) → is_key k item = key_eqb (key item) k.
Proof.
  intros Hk. apply eq_iff_eq_true. rewrite is_key_inv, plain_key_eq by done. rewrite (cmp_opp (TotalCmp := object_lower_total normal_form)).
  by destruct (cmp_lower (key item) k).
Qed.

Lemma plain_merge_type k : plain k → merge_type k = OptimizedMerge.
Proof.
  intros [_ Hu]. cbn. unfold ObjectKey.merge_type. destruct (data k) as [| | | | |p []| | | |] eqn:Ed; try done. by destruct (Hu p).
Qed.

(** Rust's [==] on an item's key and a key that is not an extent. *)
Lemma item_key_eq x k : plain k → key_eqb (key x) k = is_key k x.
Proof.
  intros Hk. destruct (is_extent (data (key x))) eqn:Ex.
  - assert (is_key k x = false) as ->.
    { apply extent_data in Ex as (o & a & e & He). eapply plain_not_ext; [done|]. apply is_ext_inv. by exists e. }
    apply not_true_iff_false. intros Hq. destruct (key_eq_extents normal_form x (mkItem k VNone 0) Ex Hq) as (o & a & _ & (e & He)%is_ext_inv).
    cbn in He. destruct Hk as [Hk _]. by rewrite He in Hk.
  - apply eq_iff_eq_true. rewrite is_key_inv. unfold key_eqb, tree_key_eq. rewrite key_eq_lower by done.
    rewrite (cmp_opp (TotalCmp := object_lower_total normal_form)). by destruct (cmp_lower k (key x)).
Qed.

Lemma plain_item_ok x : plain (key x) → item_ok bs x.
Proof.
  intros [He Hu]. unfold ObjMergeProps.item_ok. destruct (data (key x)) as [| |a [|e]| | |p []| | | |] eqn:Ed; try done. by destruct (Hu p).
Qed.

(** ** A record is put in a layer *)
Section put.
Context (item : ObjectItem) (Hk : plain (key item)).
#[local] Abbreviation k := (key item).

(** The layer without the record that has the key. *)
Definition behind (a : list ObjectItem) : list ObjectItem :=
  match a with x :: a' => if key_eqb (key x) k then a' else a | [] => [] end.

Lemma behind_split s : layer_ok s → ∃ d, from_key k s = d ++ behind (from_key k s) ∧ sel (is_key k) s = d ∧
  Forall (λ y, obefore item y) (behind (from_key k s)) ∧ Forall (λ y, is_key k y = false) (behind (from_key k s)).
Proof.
  intros Hs. destruct (from_key_split normal_form bs k Hk s Hs) as (b & _ & _ & Hab). rewrite <- (sel_from_key normal_form bs k Hk s Hs).
  pose proof (from_key_ok normal_form bs k Hk s Hs) as Hf.
  assert (∀ y, above_key normal_form k y → is_key k y = false → obefore item y) as Hbef.
  { intros y Hy Hn. assert (cmp_lower k (key y) = Lt) as Hlt.
    { apply (holding_min normal_form k item y); [|done|done]. apply is_key_inv, cmp_lower_refl. }
    split; [done|]. apply (overlaps_Lt normal_form); [done|]. intros o a Ho. destruct Hk as [Hk' _]. apply (not_is_extent item) with (o := o) (a := a) in Hk'. congruence. }
  destruct (from_key k s) as [|x a] eqn:Ef; [exists []; split_and!; [done|done|constructor..]|]. cbn [behind]. rewrite item_key_eq by done.
  apply Forall_cons in Hab as [Hx Ha]. pose proof Hf as (_ & Hxa & _)%layer_ok_cons. destruct (is_key k x) eqn:Ex.
  - exists [x]. assert (Forall (λ y, is_key k y = false) a) as Hn.
    { apply Forall_forall. intros y Hy. apply not_true_iff_false. intros Hyk. destruct (Hxa y Hy) as [Hlt _]. by rewrite (is_key_trans normal_form k x y) in Hlt. }
    split_and!; [done| | |done].
    + rewrite sel_cons_in by done. f_equal. apply sel_nil_iff. by apply Forall_forall.
    + rewrite Forall_forall in Ha, Hn |- *. intros y Hy. apply Hbef; auto.
  - exists []. assert (Forall (λ y, is_key k y = false) (x :: a)) as Hn.
    { apply Forall_forall. intros y Hy. apply not_true_iff_false. intros Hyk. pose proof (layer_le normal_form bs x a y Hf Hy) as Hle.
      apply (is_key_cmp normal_form k) in Hyk. unfold above_key in Hx. assert (cmp_lower (key x) k = Eq) as He; [|apply (is_key_cmp normal_form k) in He; congruence].
      assert (cmp_lower (key x) k ≠ Gt); [|by destruct (cmp_lower (key x) k)]. eapply (cmp_le_trans (TotalCmp := object_lower_total normal_form)); [exact Hle|by rewrite Hyk]. }
    split_and!; [done| | |done].
    + apply sel_nil_iff. by apply Forall_forall.
    + rewrite Forall_forall in Hn |- *. intros y Hy. apply Hbef; [|by apply Hn]. apply elem_of_cons in Hy as [->|Hy]; [done|]. rewrite Forall_forall in Ha. by apply Ha.
Qed.

Context (s b : list ObjectItem) (Hs : layer_ok s) (Hb : s = b ++ from_key k s).
#[local] Abbreviation put := (b ++ item :: behind (from_key k s)).

Lemma put_before : Forall (λ y, cmp_lower (key y) k = Lt ∧ obefore y item) b.
Proof.
  destruct (from_key_split normal_form bs k Hk s Hs) as (b' & Hb' & Hlt & _). rewrite Hb in Hb' at 1. apply app_inv_tail in Hb'. subst b'.
  eapply Forall_impl; [exact Hlt|]. intros y Hy. split; [done|]. split; [done|]. apply (overlaps_Lt normal_form); [done|]. intros o a _.
  destruct Hk as [Hk' _]. by apply (not_is_extent item).
Qed.

Lemma put_ok : layer_ok put.
Proof.
  destruct (behind_split s Hs) as (d & Hd & _ & Hbh & _). pose proof put_before as Hbe. pose proof (from_key_ok normal_form bs k Hk s Hs) as Hf.
  rewrite Hd in Hf. apply layer_suffix in Hf. pose proof Hs as Hs'. rewrite Hb, Hd, (app_assoc b) in Hs'. destruct Hs' as [Hss Hsi].
  assert (∀ x y, x ∈ b → y ∈ behind (from_key k s) → obefore x y) as Hxy.
  { intros x y Hx Hy. revert Hss. generalize (behind (from_key k s)) Hy. intros a Hy' Hss. apply (StronglySorted_app_1_elem_of _ _ _ x y Hss); set_solver. }
  split.
  - apply StronglySorted_app. split_and!.
    + intros x y Hx [->|Hy]%elem_of_cons; [|by apply Hxy]. rewrite Forall_forall in Hbe. by apply Hbe.
    + rewrite <- app_assoc in Hss. by apply StronglySorted_app_1_l in Hss.
    + constructor; [apply Hf|done].
  - rewrite !Forall_app in Hsi. apply Forall_app. split; [apply Hsi|]. constructor; [by apply plain_item_ok|apply Hf].
Qed.

Lemma same_key k' y : is_key k' item = true → is_key k' y = is_key k y.
Proof.
  intros Hk'%is_key_inv. apply cmp_lower_Eq in Hk'. apply eq_iff_eq_true. rewrite !is_key_inv, !cmp_lower_code. by rewrite Hk'.
Qed.

Lemma put_sel k' : sel (is_key k') put = if is_key k' item then [item] else sel (is_key k') s.
Proof.
  destruct (behind_split s Hs) as (d & Hd & Hsel & _ & Hn). pose proof put_before as Hbe. unfold sel at 1. rewrite filter_app.
  destruct (is_key k' item) eqn:E.
  - assert (filter (λ y, is_key k' y) b = []) as ->.
    { apply (sel_nil_iff (is_key k')). intros y Hy. rewrite (same_key k' y E). apply not_true_iff_false. rewrite (is_key_cmp normal_form k).
      rewrite Forall_forall in Hbe. destruct (Hbe y Hy) as [Hlt _]. by rewrite Hlt. }
    cbn [app]. change (filter (λ y, is_key k' y) (item :: behind (from_key k s))) with (sel (is_key k') (item :: behind (from_key k s))). rewrite sel_cons_in by done.
    f_equal. apply sel_nil_iff. intros y Hy. rewrite (same_key k' y E). rewrite Forall_forall in Hn. by apply Hn.
  - change (filter (λ y, is_key k' y) (item :: behind (from_key k s))) with (sel (is_key k') (item :: behind (from_key k s))). rewrite sel_cons_out by done.
    assert (sel (is_key k') d = []) as Hd'.
    { apply sel_nil_iff. intros y Hy. rewrite <- Hsel in Hy. apply elem_of_sel in Hy as [Hy%Is_true_true _]. apply not_true_iff_false. intros Hy'.
      apply is_key_inv, cmp_lower_Eq in Hy. apply is_key_inv in Hy'. rewrite cmp_lower_code, <- Hy, <- cmp_lower_code in Hy'. apply not_true_iff_false in E. apply E. by apply is_key_inv. }
    rewrite Hb at 2. rewrite Hd at 2. unfold sel in *. by rewrite !filter_app, Hd'.
Qed.

Lemma put_sum (f : ObjectItem → Z) : (∀ x, usage x = None → f x = 0) → zsum f put = zsum f s.
Proof.
  intros Hf. destruct (behind_split s Hs) as (d & Hd & Hsel & _). rewrite Hb at 2. rewrite Hd at 2. rewrite !zsum_app, zsum_cons.
  assert (∀ x, is_key k x = true → f x = 0) as Hz.
  { intros x Hx. apply Hf. destruct (usage x) as [u|] eqn:Hu; [|done]. by rewrite (plain_not_usage normal_form k x) in Hx. }
  assert (zsum f d = 0) as ->.
  { rewrite <- Hsel. generalize s as s'. intros s'. induction s' as [|x s' IH]; [done|]. destruct (is_key k x) eqn:E; [|by rewrite sel_cons_out]. rewrite sel_cons_in, zsum_cons, IH, Hz by done. done. }
  rewrite Hz; [lia|]. apply is_key_inv, cmp_lower_refl.
Qed.
End put.

(** ** The tree and the map it stands for *)
Context {C T : Type} `{HC : ObjectCache C ObjectKey ObjectValue T} (caches : C → (ObjectKey → option ObjectValue) → Prop) `{HL : !LawfulCache caches}.
Context (gen_log2 : Z → nat).
#[local] Abbreviation tree := (LSMTree C ObjectKey ObjectValue).
Implicit Types (t : tree) (ls : list (list ObjectItem)) (M : ObjectKey → option ObjectValue).

(** The values of the keys; a record that marks the key as deleted is none. *)
Definition view ls : ObjectKey → option ObjectValue := λ k, record_of k ls ≫= LSMTree.cache_value.

Record tree_rep t ls : Prop := {
  tr_layers : ∃ c older, ls = c :: older ∧ represents (mutable_layer t) c ∧ Forall2 serves (layers t) older;
  tr_ok : layers_ok ls;
  tr_fn : tree_merge_fn t = merge;
  tr_count : 0 ≤ current_count (mutable_layer t) < u16_max;
  tr_epoch : 0 ≤ epoch (mutable_layer t);
}.

Lemma layer_set_serves t ls : tree_rep t ls → Forall2 serves (LSMTree.layer_set t) ls.
Proof.
  intros [(c & older & -> & Hr & HF) [Hok _] _ Hn _]. constructor; [|done]. apply Forall_cons in Hok as [Hc _]. apply skip_list_serves; [done..|lia].
Qed.

(** A search finds the value of a key. *)
Lemma tree_search fuel t ls k : tree_rep t ls → plain k → Z.of_nat (length (layers t)) < 65536 →
  (pile_size orng (layer_entries 0 ls) < fuel)%nat →
  ∃ o n, LSMTree.search fuel t k = Ok (o, n) ∧ value <$> o = view ls k.
Proof.
  intros Ht Hk Hlen Hfuel. unfold LSMTree.search. rewrite (tr_fn _ _ Ht). pose proof (layer_set_serves _ _ Ht) as HF.
  destruct (object_query_point normal_form bs Hbs k Hk (LSMTree.layer_set t) ls fuel (tree_counters t) (plain_merge_type k Hk) HF) as (it & c' & o & -> & Hg & Hr);
    [cbn; lia|apply Ht|done|]. res_simpl. rewrite Hg. res_simpl. eexists _, _. split; [reflexivity|]. unfold view, LSMTree.cache_value, DELETED_MARKER, ObjectValue_Value.
  destruct (record_of k ls) as [v|]; cbn [mbind option_bind].
  - destruct Hr as (x & -> & Hx & <-). rewrite item_key_eq, Hx by done. cbn [andb]. case_decide; [by rewrite bool_decide_true|by rewrite bool_decide_false].
  - destruct o as [x|]; [|done]. by rewrite item_key_eq, (Hr x eq_refl).
Qed.

Lemma view_put c older item b k : layer_ok c → plain (key item) → c = b ++ from_key (key item) c →
  view ((b ++ item :: behind item (from_key (key item) c)) :: older) k =
    if key_eqb (key item) k then LSMTree.cache_value (value item) else view (c :: older) k.
Proof.
  intros Hc Hk Hb. unfold view. cbn [ObjFind.record_of]. rewrite (put_sel item Hk c b Hc Hb). rewrite plain_is_key by done. by destruct (key_eqb (key item) k).
Qed.

Lemma abs_none x : usage x = None → abs_bytes x = 0 ∧ abs_nodes x = 0.
Proof. unfold abs_bytes, abs_nodes. by intros ->. Qed.

(** A record is put in the mutable layer. *)
Lemma tree_put t c older item b sl : tree_rep t (c :: older) → plain (key item) → c = b ++ from_key (key item) c →
  represents sl (b ++ item :: behind item (from_key (key item) c)) → next_readers (mutable_layer t) sl →
  tree_rep (LSMTree.with_mutable t sl) ((b ++ item :: behind item (from_key (key item) c)) :: older).
Proof.
  intros [(? & ? & [= <- <-] & Hr & HF) (Hok & Hby & Hno) Hfn Hn He] Hk Hb Hr' (H1 & H2). pose proof Hok as [Hc Ho]%Forall_cons. split; cbn [LSMTree.with_mutable mutable_layer layers tree_merge_fn].
  - by eexists _, _.
  - cbn [concat] in Hby, Hno. rewrite zsum_app in Hby, Hno. split_and!; [constructor; [by apply put_ok|done]|..]; cbn [concat]; rewrite zsum_app, (put_sum item Hk c b Hc Hb); try done; apply abs_none.
  - done.
  - destruct H2 as [->| ->]; [|done]. unfold u16_max. lia.
  - lia.
Qed.

(** ** Runs of the tree *)
Inductive tree_op : Type :=
| OInsert (item : ObjectItem)
| OReplaceOrInsert (item : ObjectItem)
| OSeal
| OFind (k : ObjectKey).

Definition answer (o : option ObjectItem) : option ObjectValue := value <$> o.

Definition run_op (fuel : nat) t (op : tree_op) : res (option ObjectValue * tree) :=
  match op with
  | OInsert item => t ← LSMTree.insert gen_log2 t item; Ok (None, t)
  | OReplaceOrInsert item => t ← LSMTree.replace_or_insert gen_log2 t item; Ok (None, t)
  | OSeal => Ok (None, LSMTree.seal t)
  | OFind k => '(o, t) ← LSMTree.find fuel t k; Ok (answer o, t)
  end.

Fixpoint run (fuel : nat) t (ops : list tree_op) : res (list (option ObjectValue)) :=
  match ops with
  | [] => Ok []
  | op :: ops => '(o, t) ← run_op fuel t op; l ← run fuel t ops; Ok (o :: l)
  end.

(** The map, and the keys that have been written since the last [seal]. *)
Definition spec_op (recent : list ObjectKey) M (op : tree_op) : res (option ObjectValue * (list ObjectKey * (ObjectKey → option ObjectValue))) :=
  let written item := (key item :: recent, λ k', if key_eqb (key item) k' then LSMTree.cache_value (value item) else M k') in
  match op with
  | OInsert item => if existsb (λ k, key_eqb (key item) k) recent then Err Other else Ok (None, written item)
  | OReplaceOrInsert item => Ok (None, written item)
  | OSeal => Ok (None, ([], M))
  | OFind k => Ok (M k, (recent, M))
  end.

Fixpoint spec_run (recent : list ObjectKey) M (ops : list tree_op) : res (list (option ObjectValue)) :=
  match ops with
  | [] => Ok []
  | op :: ops => '(o, (recent, M)) ← spec_op recent M op; l ← spec_run recent M ops; Ok (o :: l)
  end.

(** ** The tree is the map *)
Definition op_ok (op : tree_op) : Prop :=
  match op with
  | OInsert item | OReplaceOrInsert item => plain (key item)
  | OFind k => plain k
  | OSeal => True
  end.

Record sim t ls (recent : list ObjectKey) M : Prop := {
  sm_rep : tree_rep t ls;
  sm_view : ∀ k, plain k → M k = view ls k;
  sm_recent : ∀ k, plain k → existsb (λ k', key_eqb k k') recent = true ↔ sel (is_key k) (hd [] ls) ≠ [];
  sm_cache : caches (cache t) M;
}.

(** What the layers hold after an operation. *)
Definition put_in item s : list ObjectItem :=
  take (length s - length (from_key (key item) s)) s ++ item :: behind item (from_key (key item) s).
Definition next_layers (op : tree_op) ls : list (list ObjectItem) :=
  match op with
  | OInsert item | OReplaceOrInsert item => match ls with s :: older => put_in item s :: older | [] => [] end
  | OSeal => [] :: ls
  | OFind _ => ls
  end.

Lemma put_in_split item s b : s = b ++ from_key (key item) s → put_in item s = b ++ item :: behind item (from_key (key item) s).
Proof.
  intros Hb. unfold put_in. f_equal. set (a := from_key (key item) s) in *. rewrite Hb at 2. rewrite take_app_le; [|rewrite Hb, length_app; lia].
  apply take_ge. rewrite Hb at 1. rewrite length_app. lia.
Qed.

Lemma key_eqb_sym k k' : plain k → plain k' → key_eqb k k' = key_eqb k' k.
Proof.
  intros Hk Hk'. apply eq_iff_eq_true. rewrite !plain_key_eq by done. rewrite (cmp_opp (TotalCmp := object_lower_total normal_form)). by destruct (cmp_lower k' k).
Qed.

(** A record that was put in the mutable layer, and told to the cache. *)
Definition told t item sl : tree :=
  LSMTree.with_cache (LSMTree.with_mutable t sl) (invalidate (cache t) (key item) (LSMTree.cache_value (value item))).
Definition put_to t s item sl : Prop :=
  next_readers (mutable_layer t) sl ∧
  ∃ b, s = b ++ from_key (key item) s ∧ represents sl (b ++ item :: behind item (from_key (key item) s)).

Lemma sim_put t s older recent M item sl : sim t (s :: older) recent M → plain (key item) → put_to t s item sl →
  sim (told t item sl) (put_in item s :: older) (key item :: recent)
    (λ k', if key_eqb (key item) k' then LSMTree.cache_value (value item) else M k').
Proof.
  intros [Hrep Hv Hrec Hc] Hk (Hn & b & Hb & Hr). pose proof Hrep as [_ [Hok _] _ _ _]. apply Forall_cons in Hok as [Hs _].
  destruct (tree_put t s older item b sl Hrep Hk Hb Hr Hn) as [H1 H2 H3 H4 H5]. rewrite (put_in_split item s b Hb). split; [by split| | |].
  - intros k Hk'. rewrite view_put by done. by rewrite (Hv k Hk').
  - intros k Hk'. cbn [existsb hd]. rewrite (put_sel item Hk s b Hs Hb), orb_true_iff, (Hrec k Hk'), (key_eqb_sym k (key item)) by done. cbn [hd].
    rewrite plain_is_key by done. destruct (key_eqb (key item) k); [split; [done|auto]|split; [intros [?|?]; done|auto]].
  - cbn [cache LSMTree.with_cache]. by eapply (lc_invalidate (LawfulCache := HL)).
Qed.

Lemma sim_insert t s older recent M item : sim t (s :: older) recent M → plain (key item) → epoch (mutable_layer t) < u64_max →
  if existsb (λ k, key_eqb (key item) k) recent then LSMTree.insert gen_log2 t item = Err Other
  else ∃ sl, LSMTree.insert gen_log2 t item = Ok (told t item sl) ∧ put_to t s item sl.
Proof.
  intros [Hrep Hv Hrec Hc] Hk He. destruct Hrep as [(? & ? & [= <- <-] & Hr & HF) [Hok _] Hfn Hn He']. apply Forall_cons in Hok as [Hs _].
  destruct (skip_list_insert gen_log2 (mutable_layer t) s item Hr (layer_sorted s Hs) He) as (b & Hb & Hi). specialize (Hrec (key item) Hk). cbn [hd] in Hrec.
  destruct (behind_split item Hk s Hs) as (d & Hd & Hsel & _). fold (from_key (key item) s) in Hb, Hi. rewrite Hsel in Hrec.
  assert (∀ sl, SkipListOps.insert gen_log2 (mutable_layer t) item = Ok sl → represents sl (b ++ item :: from_key (key item) s) → d = [] →
    if existsb (λ k, key_eqb (key item) k) recent then LSMTree.insert gen_log2 t item = Err Other
    else ∃ sl, LSMTree.insert gen_log2 t item = Ok (told t item sl) ∧ put_to t s item sl) as Hdone.
  { intros sl Hsl Hrs ->. destruct (existsb _ _); [by destruct (proj1 Hrec eq_refl)|]. exists sl. unfold LSMTree.insert. rewrite Hsl. split; [done|].
    split; [by eapply skip_insert_readers; [lia|]|]. exists b. cbn [app] in Hd. by rewrite <- Hd. }
  destruct (from_key (key item) s) as [|x a] eqn:Ef; cbn [behind] in Hd.
  - destruct Hi as (sl & Hsl & Hrs). symmetry in Hd. apply app_nil in Hd as [Hd _]. by eapply Hdone.
  - destruct (key_eqb (key x) (key item)) eqn:Ek.
    + unfold LSMTree.insert. rewrite Hi. destruct (existsb _ _); [done|]. exfalso. assert (d = []) as ->; [|apply (f_equal length) in Hd; cbn in Hd; lia].
      destruct d; [done|]. discriminate (proj2 Hrec ltac:(done)).
    + destruct Hi as (sl & Hsl & Hrs). eapply Hdone; [done..|]. destruct d; [done|]. apply (f_equal length) in Hd. rewrite length_app in Hd. cbn in Hd. lia.
Qed.

Lemma sim_replace t s older recent M item : sim t (s :: older) recent M → plain (key item) → epoch (mutable_layer t) < u64_max →
  ∃ sl, LSMTree.replace_or_insert gen_log2 t item = Ok (told t item sl) ∧ put_to t s item sl.
Proof.
  intros [Hrep _ _ _] Hk He. destruct Hrep as [(? & ? & [= <- <-] & Hr & HF) [Hok _] Hfn Hn He']. apply Forall_cons in Hok as [Hs _].
  destruct (skip_list_replace_or_insert gen_log2 (mutable_layer t) s item Hr (layer_sorted s Hs) He) as (b & sl & Hb & Hsl & Hrs).
  exists sl. unfold LSMTree.replace_or_insert. rewrite Hsl. split; [done|]. split; [by eapply skip_replace_readers; [lia|]|]. by exists b.
Qed.

Lemma sim_seal t ls recent M : sim t ls recent M → sim (LSMTree.seal t) ([] :: ls) [] M.
Proof.
  intros [Hrep Hv Hrec Hc]. split; [|done|done|done]. pose proof (layer_set_serves _ _ Hrep) as HF. destruct Hrep as [_ [Hok Hsum] Hfn Hn He].
  split; cbn [LSMTree.seal LSMTree.with_layers LSMTree.with_mutable mutable_layer layers tree_merge_fn]; [|split; [constructor; [split; constructor|done]|done]|done|done|done].
  exists [], ls. split_and!; [done|apply represents_new; unfold LSMTree.new_mutable_layer; lia|done].
Qed.

Lemma sim_find fuel t ls recent M k : sim t ls recent M → plain k → Z.of_nat (length (layers t)) < 65536 →
  (pile_size orng (layer_entries 0 ls) < fuel)%nat →
  ∃ o t', LSMTree.find fuel t k = Ok (o, t') ∧ answer o = M k ∧ sim t' ls recent M ∧ mutable_layer t' = mutable_layer t ∧ layers t' = layers t.
Proof.
  intros [Hrep Hv Hrec Hc] Hk Hlen Hfuel. unfold LSMTree.find. destruct (lookup_or_reserve (cache t) k) as [r c'] eqn:El.
  destruct (lc_lookup (LawfulCache := HL) _ _ _ _ _ Hc El) as [Hc' Hr].
  assert (∀ t', mutable_layer t' = mutable_layer t → layers t' = layers t → tree_merge_fn t' = tree_merge_fn t → tree_rep t' ls) as Hsame.
  { intros t' H1 H2 H3. destruct Hrep as [R1 R2 R3 R4 R5]. split; rewrite ?H1, ?H2, ?H3; done. }
  assert (tree_rep (LSMTree.with_cache t c') ls) as Hrep' by by apply Hsame.
  destruct (tree_search fuel _ ls k Hrep' Hk Hlen Hfuel) as (o & n & Hs & Ho). destruct r as [v|token|].
  - pose proof (Hv k Hk) as Hvk. rewrite Hr in Hvk. assert (v ≠ VNone) as Hne.
    { intros ->. unfold view, LSMTree.cache_value in Hvk. destruct (record_of k ls) as [w|]; [|done]. cbn in Hvk. case_decide; [done|]. by injection Hvk. }
    rewrite decide_False by done. eexists _, _. split_and!; [reflexivity|by rewrite Hr|by split|done|done].
  - rewrite Hs. res_simpl. eexists _, _. split_and!; [reflexivity|by rewrite (Hv k Hk)| |done|done]. split; [by apply Hsame|done|done|]. cbn [cache].
    destruct Hr as [H1 H2]. destruct o as [i|]; [|done]. apply H1. by rewrite (Hv k Hk), <- Ho.
  - rewrite Hs. res_simpl. eexists _, _. split_and!; [reflexivity|by rewrite (Hv k Hk)| |done|done]. split; [by apply Hsame|done..].
Qed.

(** What is left of the epochs and the layer indices. *)
Fixpoint seals (ops : list tree_op) : Z :=
  match ops with [] => 0 | OSeal :: ops => 1 + seals ops | _ :: ops => seals ops end.
Definition room t (ops : list tree_op) : Prop :=
  epoch (mutable_layer t) + Z.of_nat (length ops) ≤ u64_max ∧ Z.of_nat (length (layers t)) + seals ops < 65536.

Lemma seals_nonneg ops : 0 ≤ seals ops.
Proof. induction ops as [|[] ops IH]; cbn [seals]; lia. Qed.

Lemma sim_step fuel t ls recent M op ops : sim t ls recent M → op_ok op → room t (op :: ops) → (pile_size orng (layer_entries 0 ls) < fuel)%nat →
  match spec_op recent M op with
  | Ok (o, (recent', M')) => ∃ t', run_op fuel t op = Ok (o, t') ∧ sim t' (next_layers op ls) recent' M' ∧ room t' ops
  | r => ∃ e, r = Err e ∧ run_op fuel t op = Err e
  end.
Proof.
  intros Hsim Hop [Hep Hly] Hfuel. pose proof (seals_nonneg ops). destruct (tr_layers _ _ (sm_rep _ _ _ _ Hsim)) as (s & older & -> & _).
  assert (epoch (mutable_layer t) < u64_max) as He by (cbn [length] in Hep; lia).
  assert (∀ item sl, put_to t s item sl → Z.of_nat (length (layers t)) + seals ops < 65536 → room (told t item sl) ops) as Hroom.
  { intros item sl [[H1 _] _] H2. split; [cbn [told LSMTree.with_cache LSMTree.with_mutable mutable_layer length] in *; lia|done]. }
  destruct op as [item|item| |k]; cbn [spec_op run_op next_layers op_ok seals] in *.
  - pose proof (sim_insert t s older recent M item Hsim Hop He) as Hi. destruct (existsb _ _); [by rewrite Hi; eexists|].
    destruct Hi as (sl & -> & Hp). res_simpl. eexists. split_and!; [done|by apply sim_put|auto].
  - destruct (sim_replace t s older recent M item Hsim Hop He) as (sl & -> & Hp). res_simpl. eexists. split_and!; [done|by apply sim_put|auto].
  - eexists. split_and!; [done|by eapply sim_seal|]. split; cbn [LSMTree.seal LSMTree.with_layers LSMTree.with_mutable mutable_layer layers length] in *; [|lia].
    pose proof (tr_epoch _ _ (sm_rep _ _ _ _ Hsim)). cbn. lia.
  - destruct (sim_find fuel t (s :: older) recent M k Hsim Hop ltac:(lia) Hfuel) as (o & t' & -> & Ha & Hsim' & H1 & H2). res_simpl.
    exists t'. split_and!; [by rewrite Ha|done|]. unfold room. rewrite H1, H2. cbn [length] in Hep. lia.
Qed.

Lemma run_spec ops : Forall op_ok ops → ∀ ls, ∃ fuel0, ∀ fuel t recent M, (fuel0 ≤ fuel)%nat → sim t ls recent M → room t ops →
  run fuel t ops = spec_run recent M ops.
Proof.
  induction 1 as [|op ops Hop _ IH]; intros ls; [by exists 0%nat|]. destruct (IH (next_layers op ls)) as [n Hn].
  exists (S (pile_size orng (layer_entries 0 ls)) `max` n)%nat. intros fuel t recent M Hf Hsim Hroom. cbn [run spec_run].
  pose proof (sim_step fuel t ls recent M op ops Hsim Hop Hroom ltac:(lia)) as Hst. destruct (spec_op recent M op) as [[o [recent' M']]|e| |].
  - destruct Hst as (t' & -> & Hsim' & Hroom'). res_simpl. by rewrite (Hn fuel t' recent' M' ltac:(lia) Hsim' Hroom').
  - destruct Hst as (? & [= <-] & ->). done.
  - by destruct Hst as (? & ? & _).
  - by destruct Hst as (? & ? & _).
Qed.

Lemma tree_rep_new lys ls (c0 : C) : Forall2 serves lys ls → layers_ok ls → tree_rep (LSMTree.set_layers (LSMTree.new merge c0) lys) ([] :: ls).
Proof.
  intros HF [Hok Hsum]. split; cbn; [|split; [constructor; [split; constructor|done]|done]|done|done|done].
  exists [], ls. split_and!; [done|apply represents_new; lia|done].
Qed.

(** C4: For keys that are neither of extents nor of a project's usage (such
    records are merged with those of other keys or layers), an object store's
    tree is a map: whatever of these keys is inserted, replaced and looked up,
    in whatever order and with any seals between, every search ends and finds
    the value that was written last, or nothing if that marks the key as
    deleted; an insertion fails, and ends the run, exactly when its key was
    written since the last [seal]. The tree starts with a cache that follows its
    law and with immutable layers that serve well-formed contents: keys ascend
    and do not overlap, extents have valid ranges and values, and the counts of
    usage add up to no more than an i64 holds. There are at most 2^64 - 1
    operations and fewer than 65536 layers, those that are sealed included. *)
Theorem object_tree_refines_map lys ls (c0 : C) ops :
  Forall2 serves lys ls → layers_ok ls → caches c0 (view ls) → Forall op_ok ops →
  Z.of_nat (length ops) ≤ u64_max → Z.of_nat (length lys) + seals ops < 65536 →
  ∃ fuel0, ∀ fuel, (fuel0 ≤ fuel)%nat →
    run fuel (LSMTree.set_layers (LSMTree.new merge c0) lys) ops = spec_run [] (view ls) ops.
Proof.
  intros HF Hok Hc Hops Hlen Hly. destruct (run_spec ops Hops ([] :: ls)) as [n Hn]. exists n. intros fuel Hf. apply Hn; [done| |by split].
  split; [by apply tree_rep_new|done|done|done].
Qed.
End tree.
