(* ===== verification/ObjTreeDemo.v ===== *)
(** * A tree of an object store: an example

    The layers of [ObjMergeSpec.v] under a new mutable layer, with the cache of
    the object store: records are found, changed, deleted and found again, in
    the tree and by searches that overlap with changes. *)

From S2P Require Import Prelude Round Checksum Extent LsmTypes ObjectRecord Merge MergeProps MergeQuery ObjectKeyOrder.
From S2P Require Import Segments SegMerge ObjMerge ObjMergeProps ObjMergeViews ObjMergeSpec ObjFind.
From S2P Require Import SkipList LsmTree TreeCache TreeCacheProps ObjTree.

#[local] Hint Extern 0 (OrdUpperBound ObjectKey) => exact (object_upper names_as_they_are) : typeclass_instances.
#[local] Hint Extern 0 (OrdLowerBound ObjectKey) => exact (object_lower names_as_they_are) : typeclass_instances.
#[local] Instance demo_key_eq : KeyEq ObjectKey := key_eq names_as_they_are.

Definition file (size : Z) : ObjectValue :=
  ObjectValue.file 1 size Timestamp.zero Timestamp.zero Timestamp.zero Timestamp.zero 0 None.

Lemma layer_of_items_serves (l : list ObjectItem) : serves (layer_of_items l) l.
Proof. split; [done..|by eexists]. Qed.

Lemma demo_serves : Forall2 serves (layer_of_items <$> demo_layers) demo_layers.
Proof. repeat (constructor; [apply layer_of_items_serves|]). constructor. Qed.

Definition demo_ops : list tree_op :=
  [ OFind (ObjectKey.object 3);
    OFind (ObjectKey.child 6 [97] false);
    OInsert (mkItem (ObjectKey.object 3) (file 7) 10);
    OFind (ObjectKey.object 3);
    OFind (ObjectKey.object 3);
    OSeal;
    OReplaceOrInsert (mkItem (ObjectKey.object 3) VNone 11);
    OFind (ObjectKey.object 3);
    OInsert (mkItem (ObjectKey.object 4) (file 8) 12);
    OFind (ObjectKey.object 4);
    OFind (ObjectKey.child 6 [97] false) ].

(** Deleted in the oldest layers, written, deleted again; the entry of the
    directory is found below. *)
Lemma object_tree_refines_map_witness :
  ∃ fuel0, ∀ fuel, (fuel0 ≤ fuel)%nat →
    run names_as_they_are (λ _, 0%nat) fuel (LSMTree.set_layers (LSMTree.new (merge names_as_they_are) TreeCache.new) (layer_of_items <$> demo_layers)) demo_ops =
      Ok [None; Some (ObjectValue.child 5 DFile); None; Some (file 7); Some (file 7); None; None; None; None; Some (file 8); Some (ObjectValue.child 5 DFile)].
Proof.
  destruct (object_tree_refines_map names_as_they_are 512 ltac:(lia) caches (HL := tree_cache_lawful names_as_they_are) (λ _, 0%nat) (layer_of_items <$> demo_layers) demo_layers
    TreeCache.new demo_ops demo_serves demo_ok (caches_new _)) as [n Hn]; [repeat constructor; done|by vm_compute..|].
  exists n. intros fuel Hf. etransitivity; [exact (Hn fuel Hf)|]. vm_compute. reflexivity.
Defined.

(** A search finds version one of a record, which is changed before the search
    completes: the cache has version two. *)
Definition demo_contents : ObjectKey → option ObjectValue := λ k, if key_eqb k (ObjectKey.object 3) then Some (file 1) else None.

#[local] Abbreviation k3 := (ObjectKey.object 3).
Definition reserved : TreeCache := (lookup_or_reserve TreeCache.new k3).2.
Definition demo_end : overlap :=
  mkOverlap (write names_as_they_are demo_contents k3 (Some (file 2)))
    (finish names_as_they_are (invalidate reserved k3 (Some (file 2))) (mkPlaceholder k3 0) (Some (file 1))) [] [].

Lemma demo_overlap : rtc (ostep names_as_they_are) (start demo_contents) demo_end.
Proof.
  eapply rtc_l; [apply (os_lookup _ _ _ _ _ k3 (CachePlaceholder (mkPlaceholder k3 0)) reserved); by vm_compute|].
  eapply rtc_l; [apply (os_search _ _ _ [])|].
  eapply rtc_l; [apply (os_change _ _ _ _ [] k3 (Some (file 2))); set_solver|].
  eapply rtc_l; [apply (os_invalidate _ _ _ _ [])|].
  eapply rtc_l; [apply (os_finish _ _ _ [])|]. apply rtc_refl.
Qed.

Lemma tree_cache_coherent_witness :
  small (shared demo_end) ∧ (lookup_or_reserve (shared demo_end) k3).1 = CacheHit (file 2) ∧ contents demo_end k3 = Some (file 2).
Proof.
  destruct (tree_cache_coherent names_as_they_are demo_contents demo_end demo_overlap) as [H1 H2].
  split; [exact H1|]. split; [vm_compute; reflexivity|]. apply (H2 k3 (file 2) (lookup_or_reserve (shared demo_end) k3).2); [vm_compute; reflexivity|apply not_elem_of_nil].
Defined.
