(* ===== verification/BloomFilter.v ===== *)
(** * The bloom filter of a layer file

    [fxfs/src/lsm_tree/bloom_filter.rs], with what it uses of the crates
    rustc-hash, rand and bit-vec.  The two estimates that are computed in
    floating point are parameters. *)

From S2P Require Import Prelude Bytes LsmTypes.

Definition u64_modulus : Z := 18446744073709551616.
Definition wrapping_add (a b : Z) : Z := (a + b) `mod` u64_modulus.
Definition wrapping_mul (a b : Z) : Z := (a * b) `mod` u64_modulus.
(** [rotate_left] and [rotate_right] at the width [w]. *)
Definition rotate_left (w x n : Z) : Z := Z.lor (Z.shiftl x n `mod` 2 ^ w) (Z.shiftr x (w - n)).
Definition rotate_right (w x n : Z) : Z := Z.lor (Z.shiftr x n) (Z.shiftl x (w - n) `mod` 2 ^ w).

(** ** [FxHasher] of rustc-hash, at 64 bits *)
Module FxHasher.
Definition K : Z := 0x517cc1b727220a95.
Definition default : Z := 0.
Definition add_to_hash (hash i : Z) : Z := wrapping_mul (Z.lxor (rotate_left 64 hash 5) i) K.
Definition write_u64 (hash i : Z) : Z := add_to_hash hash i.
Definition finish (hash : Z) : Z := hash.
End FxHasher.

(** ** [SmallRng] of rand: xoshiro256++ *)
Module SmallRng.
Record t : Set := mkRng { s0 : Z; s1 : Z; s2 : Z; s3 : Z }.

(** [read_u64_into] of the 32 bytes. *)
Definition state_of (seed : list Z) : t :=
  mkRng (le_combine (take 8 seed)) (le_combine (take 8 (drop 8 seed)))
        (le_combine (take 8 (drop 16 seed))) (le_combine (take 8 (drop 24 seed))).

(** [Xoshiro256PlusPlus::seed_from_u64], which is used for a seed of zeros. *)
Definition splitmix (state : Z) : Z * Z :=
  let state := wrapping_add state 0x9e3779b97f4a7c15 in
  let z := state in
  let z := wrapping_mul (Z.lxor z (Z.shiftr z 30)) 0xbf58476d1ce4e5b9 in
  let z := wrapping_mul (Z.lxor z (Z.shiftr z 27)) 0x94d049bb133111eb in
  let z := Z.lxor z (Z.shiftr z 31) in
  (z, state).
Definition from_zero : t :=
  let '(z0, st) := splitmix 0 in
  let '(z1, st) := splitmix st in
  let '(z2, st) := splitmix st in
  let '(z3, _) := splitmix st in
  mkRng z0 z1 z2 z3.

Definition from_seed (seed : list Z) : t :=
  if forallb (λ x, x =? 0) seed then from_zero else state_of seed.

(** [SeedableRng::seed_from_u64] of rand_core. *)
Definition pcg32 (state : Z) : list Z * Z :=
  let state := wrapping_add (wrapping_mul state 6364136223846793005) 11634580027462260723 in
  let xorshifted := Z.shiftr (Z.lxor (Z.shiftr state 18) state) 27 `mod` u32_modulus in
  let rot := Z.shiftr state 59 `mod` u32_modulus in
  (le_split 4 (rotate_right 32 xorshifted (rot `mod` 32)), state).
Fixpoint seed_bytes (n : nat) (state : Z) : list Z :=
  match n with
  | O => []
  | S n => let '(chunk, state) := pcg32 state in chunk ++ seed_bytes n state
  end.
Definition seed_from_u64 (state : Z) : t := from_seed (seed_bytes 8 state).

Definition next_u64 (r : t) : Z * t :=
  let result_plusplus := wrapping_add (rotate_left 64 (wrapping_add (s0 r) (s3 r)) 23) (s0 r) in
  let t := Z.shiftl (s1 r) 17 `mod` u64_modulus in
  let x2 := Z.lxor (s2 r) (s0 r) in
  let x3 := Z.lxor (s3 r) (s1 r) in
  let x1 := Z.lxor (s1 r) x2 in
  let x0 := Z.lxor (s0 r) x3 in
  let x2 := Z.lxor x2 t in
  (result_plusplus, mkRng x0 x1 x2 (rotate_left 64 x3 45)).
End SmallRng.

Fixpoint gen_nonces (rng : SmallRng.t) (num_nonces : nat) : list Z :=
  match num_nonces with
  | O => []
  | S n => let '(nonce, rng) := SmallRng.next_u64 rng in nonce :: gen_nonces rng n
  end.
Definition generate_hash_nonces (seed : Z) (num_nonces : nat) : list Z := gen_nonces (SmallRng.seed_from_u64 seed) num_nonces.

(** ** [BitVec] of bit-vec, as the list of its bits *)
Module BitVec.
Definition from_elem (nbits : nat) (bit : bool) : list bool := replicate nbits bit.
Definition byte_bits (b : Z) : list bool := (λ i : nat, Z.testbit b (7 - Z.of_nat i)) <$> seq 0 8.
Definition from_bytes (bytes : list Z) : list bool := concat (byte_bits <$> bytes).
Definition bit_value (bits : list bool) (bit : nat) : Z :=
  match bits !! bit with Some true => Z.shiftl 1 (7 - Z.of_nat bit) | _ => 0 end.
(** Eight bits; those that are missing are zero. *)
Definition to_byte (bits : list bool) : Z := foldr (λ i acc, Z.lor (bit_value bits i) acc) 0 (seq 0 8).
Definition to_bytes (bv : list bool) : list Z := to_byte <$> chunks 8 bv.
Definition get (bv : list bool) (i : Z) : option bool := bv !! Z.to_nat i.
Definition set (bv : list bool) (i : Z) (x : bool) : res (list bool) :=
  if i <? Z.of_nat (length bv) then Ok (<[Z.to_nat i := x]> bv) else Panic.
End BitVec.

(** ** The parameters *)

(** [u64::next_power_of_two], where it does not overflow. *)
Definition next_power_of_two (n : Z) : Z := 2 ^ Z.log2_up n.

(** [((n * TARGET_FP_RATE.ln()) / (-LN_2 * LN_2)).ceil() as u64], and the
    number of hashes that the loop over the rate of false positives ends with,
    given the number of bits and of items. *)
Class FilterEstimates := {
  raw_bits : Z → Z;
  num_hashes : Z → Z → nat;
}.

Definition estimate_params `{FilterEstimates} (num_items : Z) : Z * nat :=
  if num_items =? 0 then (0, 0%nat)
  else
    let bits := next_power_of_two (Z.max (raw_bits num_items) 8) in
    (bits, num_hashes bits num_items).

(** [hasher.finish() as usize % self.data.len()] after each nonce. *)
Definition index (hash : Z) (data : list bool) : res Z := u64_rem (FxHasher.finish hash) (Z.of_nat (length data)).

(** ** Reading *)
Record BloomFilterReader : Set := mkFilterReader {
  fr_data : list bool;
  fr_nonces : list Z;
}.

Module BloomFilterReader.
Definition read (buf : list Z) (seed : Z) (num_nonces : nat) : BloomFilterReader :=
  mkFilterReader (BitVec.from_bytes buf) (generate_hash_nonces seed num_nonces).

Fixpoint contains_loop (data : list bool) (hasher : Z) (nonces : list Z) : res bool :=
  match nonces with
  | [] => Ok true
  | nonce :: nonces =>
      let hasher := FxHasher.write_u64 hasher nonce in
      idx ← index hasher data;
      bit ← unwrap (BitVec.get data idx);
      if bit : bool then contains_loop data hasher nonces else Ok false
  end.
Definition maybe_contains_inner (f : BloomFilterReader) (initial_hash : Z) : res bool :=
  contains_loop (fr_data f) (FxHasher.write_u64 FxHasher.default initial_hash) (fr_nonces f).

Fixpoint partitions_loop (f : BloomFilterReader) (num : Z) (hashes : list Z) : res bool :=
  match hashes with
  | [] => Ok false
  | hash :: hashes =>
      b ← maybe_contains_inner f hash;
      if b : bool then Ok true
      else _ ← rassert (num + 1 <? 4); partitions_loop f (num + 1) hashes
  end.
Definition maybe_contains `{FuzzyHash V} (f : BloomFilterReader) (value : V) : res bool :=
  hashes ← fuzzy_hash value; partitions_loop f 0 hashes.

Definition compute_fill_percentage (f : BloomFilterReader) : Z :=
  if bool_decide (fr_data f = []) then 0
  else
    let set := 100 * Z.of_nat (length (filter (λ x, x = true) (fr_data f))) in
    (set + Z.of_nat (length (fr_data f)) - 1) / Z.of_nat (length (fr_data f)).
End BloomFilterReader.

(** ** Writing *)
Record BloomFilterWriter : Set := mkFilterWriter {
  fw_data : list bool;
  fw_seed : Z;
  fw_nonces : list Z;
}.

Module BloomFilterWriter.
Definition new `{FilterEstimates} (seed num_items : Z) : BloomFilterWriter :=
  let '(bits, num_nonces) := estimate_params num_items in
  mkFilterWriter (BitVec.from_elem (Z.to_nat bits) false) seed (generate_hash_nonces seed num_nonces).

Definition serialized_size (f : BloomFilterWriter) : Z := Z.of_nat (length (fw_data f)) / 8.
Definition seed (f : BloomFilterWriter) : Z := fw_seed f.
Definition num_nonces (f : BloomFilterWriter) : nat := length (fw_nonces f).
(** The bytes that [write] writes. *)
Definition write (f : BloomFilterWriter) : list Z := BitVec.to_bytes (fw_data f).

Fixpoint insert_loop (data : list bool) (hasher : Z) (nonces : list Z) : res (list bool) :=
  match nonces with
  | [] => Ok data
  | nonce :: nonces =>
      let hasher := FxHasher.write_u64 hasher nonce in
      idx ← index hasher data;
      data ← BitVec.set data idx true;
      insert_loop data hasher nonces
  end.
Definition insert_inner (f : BloomFilterWriter) (initial_hash : Z) : res BloomFilterWriter :=
  data ← insert_loop (fw_data f) (FxHasher.write_u64 FxHasher.default initial_hash) (fw_nonces f);
  Ok (mkFilterWriter data (fw_seed f) (fw_nonces f)).

Definition insert `{FuzzyHash V} (f : BloomFilterWriter) (value : V) : res BloomFilterWriter :=
  hashes ← fuzzy_hash value; foldm insert_inner f hashes.
End BloomFilterWriter.

(** The values that a test of the source expects. *)
Example hash_nonces_are_stable : generate_hash_nonces 0xfeedbad 16 =
  [15601892068231251798; 4249550343631144082; 11170505403239506035; 3141899402926357684;
   10455158105512296971; 1544954577306875038; 7546141422416683882; 10809374736430664972;
   14270886949990153586; 12890306703619732195; 10531031577317334640; 2369458071968706433;
   8554654157920588268; 4945022529079265586; 4849687277068177250; 11824207122193630909].
Proof. vm_compute. reflexivity. Qed.

(** ** Bits and bytes *)
Lemma byte_bits_to_byte bits : length bits = 8%nat → BitVec.byte_bits (BitVec.to_byte bits) = bits.
Proof.
  intros Hl. destruct bits as [|b0 [|b1 [|b2 [|b3 [|b4 [|b5 [|b6 [|b7 [|]]]]]]]]]; try done.
  destruct b0, b1, b2, b3, b4, b5, b6, b7; vm_compute; reflexivity.
Qed.

Lemma from_to_bytes n bv : length bv = (8 * n)%nat → BitVec.from_bytes (BitVec.to_bytes bv) = bv ∧ length (BitVec.to_bytes bv) = n.
Proof.
  unfold BitVec.from_bytes, BitVec.to_bytes. revert bv. induction n as [|n IH]; intros bv Hl; [destruct bv; [done|cbn in Hl; lia]|].
  rewrite <- (take_drop 8 bv), chunks_app; [|lia|rewrite length_take; lia]. cbn [fmap list_fmap concat length].
  destruct (IH (drop 8 bv)) as [-> ->]; [rewrite length_drop; lia|]. rewrite byte_bits_to_byte by (rewrite length_take; lia). done.
Qed.

(** ** Bits are only ever set *)
Definition grows (data data' : list bool) : Prop :=
  length data' = length data ∧ ∀ i : nat, data !! i = Some true → data' !! i = Some true.

#[global] Instance grows_preorder : PreOrder grows.
Proof. split; [done|]. intros x y z [H1 H2] [H3 H4]. split; [congruence|auto]. Qed.

Lemma index_ok h data : data ≠ [] → ∃ i, index h data = Ok i ∧ (Z.to_nat i < length data)%nat ∧ 0 ≤ i < Z.of_nat (length data).
Proof.
  intros Hd. unfold index, u64_rem. destruct data as [|b data]; [done|]. destruct (Z.eqb_spec (Z.of_nat (length (b :: data))) 0); [cbn in *; lia|].
  eexists. split; [done|]. pose proof (Z.mod_pos_bound (FxHasher.finish h) (Z.of_nat (length (b :: data))) ltac:(cbn; lia)). lia.
Qed.

Lemma contains_loop_grows data data' nonces h : grows data data' →
  BloomFilterReader.contains_loop data h nonces = Ok true → BloomFilterReader.contains_loop data' h nonces = Ok true.
Proof.
  intros [Hl Hg]. revert h. induction nonces as [|n nonces IH]; intros h; cbn [BloomFilterReader.contains_loop]; [done|].
  unfold index. rewrite Hl. destruct (u64_rem _ _) as [i|e| |]; res_simpl; try done. unfold BitVec.get. destruct (data !! Z.to_nat i) as [[]|] eqn:Ed; res_simpl; try done.
  rewrite (Hg _ Ed). res_simpl. apply IH.
Qed.

Lemma insert_loop_spec nonces data h : nonces = [] ∨ data ≠ [] →
  ∃ data', BloomFilterWriter.insert_loop data h nonces = Ok data' ∧ grows data data' ∧ BloomFilterReader.contains_loop data' h nonces = Ok true.
Proof.
  revert data h. induction nonces as [|n nonces IH]; intros data h Hd; [by exists data|]. destruct Hd as [Hd|Hd]; [done|].
  cbn [BloomFilterWriter.insert_loop BloomFilterReader.contains_loop]. set (h' := FxHasher.write_u64 h n).
  destruct (index_ok h' data Hd) as (i & Hi & Hlt & Hr). rewrite Hi. res_simpl. unfold BitVec.set. destruct (Z.ltb_spec i (Z.of_nat (length data))); [|lia]. res_simpl.
  destruct (IH (<[Z.to_nat i := true]> data) h') as (data' & -> & Hg & Hc). { right. intros Hn. apply (f_equal length) in Hn. rewrite length_insert in Hn. cbn in Hn. lia. }
  assert (grows data (<[Z.to_nat i := true]> data)) as Hg0.
  { split; [apply length_insert|]. intros j Hj. destruct (decide (j = Z.to_nat i)) as [->|]; [by rewrite list_lookup_insert_eq|by rewrite list_lookup_insert_ne]. }
  exists data'. split_and!; [done|by etransitivity|]. assert (index h' data' = Ok i) as ->.
  { unfold index in *. destruct Hg as [-> _], Hg0 as [-> _]. done. }
  res_simpl. unfold BitVec.get. destruct Hg as [_ Hg]. rewrite (Hg (Z.to_nat i)); [done|]. by apply list_lookup_insert_eq.
Qed.

(** ** No false negatives *)
Section no_false_negatives.
Context `{FilterEstimates} {V : Type} `{FuzzyHash V}.

(** A filter that can be inserted to. *)
Definition usable (f : BloomFilterWriter) : Prop :=
  (fw_nonces f = [] ∨ fw_data f ≠ []) ∧ ∃ n, length (fw_data f) = (8 * n)%nat.

(** It holds a hash. *)
Definition holds_hash (f : BloomFilterWriter) (h : Z) : Prop :=
  BloomFilterReader.contains_loop (fw_data f) (FxHasher.write_u64 FxHasher.default h) (fw_nonces f) = Ok true.

Definition extends (f f' : BloomFilterWriter) : Prop :=
  grows (fw_data f) (fw_data f') ∧ fw_seed f' = fw_seed f ∧ fw_nonces f' = fw_nonces f.

Lemma extends_usable f f' : extends f f' → usable f → usable f'.
Proof.
  intros ([Hl _] & _ & Hn) [Hu [n H8]]. split; [|exists n; congruence]. rewrite Hn. destruct Hu as [?|Hu]; [auto|]. right. intros He. apply Hu, length_zero_iff_nil. by rewrite <- Hl, He.
Qed.
Lemma extends_holds f f' h : extends f f' → holds_hash f h → holds_hash f' h.
Proof. intros (Hg & _ & Hn). unfold holds_hash. rewrite Hn. by apply contains_loop_grows. Qed.
#[global] Instance extends_preorder : PreOrder extends.
Proof. split; [done|]. intros x y z (H1 & H2 & H3) (H4 & H5 & H6). split_and!; [by etransitivity|congruence..]. Qed.

Lemma new_usable seed num_items : usable (BloomFilterWriter.new seed num_items).
Proof.
  unfold usable, BloomFilterWriter.new, estimate_params. destruct (num_items =? 0); cbn [fw_nonces fw_data]; [split; [by left|by exists 0%nat]|].
  unfold BitVec.from_elem, next_power_of_two. set (x := Z.max (raw_bits num_items) 8). assert (3 ≤ Z.log2_up x) as Hx by (change 3 with (Z.log2_up 8); apply Z.log2_up_le_mono; lia).
  assert (2 ^ Z.log2_up x = 8 * 2 ^ (Z.log2_up x - 3)) as Heq by (change 8 with (2 ^ 3); rewrite <- Z.pow_add_r by lia; f_equal; lia).
  pose proof (Z.pow_pos_nonneg 2 (Z.log2_up x - 3) ltac:(lia) ltac:(lia)) as Hp. split.
  - right. intros Hn. apply (f_equal length) in Hn. rewrite length_replicate in Hn. cbn [length] in Hn. lia.
  - exists (Z.to_nat (2 ^ (Z.log2_up x - 3))). rewrite length_replicate, Heq. lia.
Qed.

Lemma insert_inner_spec f h : usable f → ∃ f', BloomFilterWriter.insert_inner f h = Ok f' ∧ extends f f' ∧ holds_hash f' h.
Proof.
  intros [Hu _]. unfold BloomFilterWriter.insert_inner. destruct (insert_loop_spec (fw_nonces f) (fw_data f) (FxHasher.write_u64 FxHasher.default h) Hu) as (d & -> & Hg & Hc).
  res_simpl. eexists. split; [done|]. split; [by split_and!|exact Hc].
Qed.

Lemma insert_hashes_spec hs f : usable f → ∃ f', foldm BloomFilterWriter.insert_inner f hs = Ok f' ∧ extends f f' ∧ ∀ h, h ∈ hs → holds_hash f' h.
Proof.
  revert f. induction hs as [|h hs IH]; intros f Hu; cbn [foldm]; [exists f; split_and!; [done..|by intros h ?%elem_of_nil]|].
  destruct (insert_inner_spec f h Hu) as (f1 & -> & H1 & H2). res_simpl. destruct (IH f1 (extends_usable _ _ H1 Hu)) as (f2 & -> & H3 & H4).
  exists f2. split_and!; [done|by etransitivity|]. intros h' [->|?]%elem_of_cons; [by eapply extends_holds|by apply H4].
Qed.

Lemma insert_all_spec (vs : list V) f : usable f → (∀ v, v ∈ vs → ∃ hs, fuzzy_hash v = Ok hs) →
  ∃ f', foldm BloomFilterWriter.insert f vs = Ok f' ∧ extends f f' ∧ ∀ v hs h, v ∈ vs → fuzzy_hash v = Ok hs → h ∈ hs → holds_hash f' h.
Proof.
  revert f. induction vs as [|v vs IH]; intros f Hu Hf; cbn [foldm]; [exists f; split_and!; [done..|by intros v hs h ?%elem_of_nil]|].
  destruct (Hf v ltac:(set_solver)) as [hs' Ev].
  assert (BloomFilterWriter.insert f v = foldm BloomFilterWriter.insert_inner f hs') as -> by (unfold BloomFilterWriter.insert; by rewrite Ev).
  destruct (insert_hashes_spec hs' f Hu) as (f1 & -> & H1 & H2). res_simpl. destruct (IH f1 (extends_usable _ _ H1 Hu)) as (f2 & -> & H3 & H4); [set_solver|].
  exists f2. split_and!; [done|by etransitivity|]. intros v' hs0 h [->|?]%elem_of_cons Hv' Hh'; [|by eapply H4]. rewrite Ev in Hv'. injection Hv' as <-. eapply extends_holds; [done|by apply H2].
Qed.

(** What is read back of a filter answers for the hashes it holds. *)
Lemma read_back f h : usable f → fw_nonces f = generate_hash_nonces (fw_seed f) (BloomFilterWriter.num_nonces f) →
  BloomFilterReader.maybe_contains_inner (BloomFilterReader.read (BloomFilterWriter.write f) (fw_seed f) (BloomFilterWriter.num_nonces f)) h =
    BloomFilterReader.contains_loop (fw_data f) (FxHasher.write_u64 FxHasher.default h) (fw_nonces f).
Proof.
  intros [Hu [k H8]] Hn. pose proof (from_to_bytes k _ H8) as [Hrt _].
  unfold BloomFilterReader.maybe_contains_inner, BloomFilterReader.read, BloomFilterWriter.write. cbn [fr_data fr_nonces]. by rewrite Hrt, <- Hn.
Qed.

Lemma contains_loop_total data g ns : ns = [] ∨ data ≠ [] → ∃ b, BloomFilterReader.contains_loop data g ns = Ok b.
Proof.
  intros Hu. revert g. induction ns as [|m ms IH]; intros g; cbn [BloomFilterReader.contains_loop]; [by eexists|].
  destruct Hu as [?|Hu]; [done|]. destruct (index_ok (FxHasher.write_u64 g m) data Hu) as (i & -> & Hlt & _). res_simpl. unfold BitVec.get.
  destruct (lookup_lt_is_Some_2 _ _ Hlt) as [[] ->]; res_simpl; [apply IH; auto|by eexists].
Qed.

Lemma partitions_loop_holds f hs n h : usable f → fw_nonces f = generate_hash_nonces (fw_seed f) (BloomFilterWriter.num_nonces f) →
  holds_hash f h → h ∈ hs → 0 ≤ n → n + Z.of_nat (length hs) ≤ 4 →
  BloomFilterReader.partitions_loop (BloomFilterReader.read (BloomFilterWriter.write f) (fw_seed f) (BloomFilterWriter.num_nonces f)) n hs = Ok true.
Proof.
  intros Hf Hn Hh. pose proof (λ h', read_back f h' Hf Hn) as Hin. destruct Hf as [Hu _].
  revert n. induction hs as [|h' hs IH]; intros n Hel Hn0 Hlen; [by apply elem_of_nil in Hel|]. cbn [BloomFilterReader.partitions_loop length] in *. rewrite Hin.
  destruct (decide (h' = h)) as [->|Hne]; [by rewrite Hh|].
  destruct (contains_loop_total _ (FxHasher.write_u64 FxHasher.default h') _ Hu) as [b ->].
  res_simpl. destruct b; [done|]. apply elem_of_cons in Hel as [->|Hel]; [done|]. assert (hs ≠ []) as Hnil by (intros ->; by apply elem_of_nil in Hel).
  destruct hs as [|h2 hs]; [done|]. cbn [length] in Hlen. destruct (Z.ltb_spec (n + 1) 4); [|lia]. res_simpl. apply IH; [done|lia|cbn [length]; lia].
Qed.

Lemma gen_nonces_length n r : length (gen_nonces r n) = n.
Proof. revert r. induction n as [|n IH]; intros r; cbn [gen_nonces]; [done|]. destruct (SmallRng.next_u64 r). cbn. by rewrite IH. Qed.

(** C22: A bloom filter has no false negatives: whatever values are inserted,
    and after it has been written out and read back, a key that shares a hash
    with one of them is reported, without failing, as one that may be there. *)
Theorem bloom_no_false_negatives seed num_items (vs : list V) :
  (∀ v, v ∈ vs → ∃ hs, fuzzy_hash v = Ok hs) →
  ∃ f, foldm BloomFilterWriter.insert (BloomFilterWriter.new seed num_items) vs = Ok f ∧
    ∀ v q hs qs h, v ∈ vs → fuzzy_hash v = Ok hs → fuzzy_hash q = Ok qs → h ∈ hs → h ∈ qs → (length qs ≤ 4)%nat →
      BloomFilterReader.maybe_contains
        (BloomFilterReader.read (BloomFilterWriter.write f) (BloomFilterWriter.seed f) (BloomFilterWriter.num_nonces f)) q = Ok true.
Proof.
  intros Hf. destruct (insert_all_spec vs _ (new_usable seed num_items) Hf) as (f & Hi & He & Hh). exists f. split; [done|].
  intros v q hs qs h Hv Hhs Hqs Hin Hq Hlen. unfold BloomFilterReader.maybe_contains. rewrite Hqs. res_simpl.
  apply partitions_loop_holds with h; [by eapply extends_usable, new_usable| |by eapply Hh|done|lia|lia].
  destruct He as (_ & Hs & Hn). unfold BloomFilterWriter.num_nonces. rewrite Hs, Hn. unfold BloomFilterWriter.new. destruct (estimate_params num_items) as [bits k]. cbn [fw_nonces fw_seed].
  unfold generate_hash_nonces. by rewrite gen_nonces_length.
Qed.
End no_false_negatives.
