(* ===== verification/ChaCha.v ===== *)
(** * The stream cipher

    ChaCha20 as the vendored crates implement it: the block function of
    chacha20 (its portable backend) and the wrapper of cipher that applies the
    key stream to slices and seeks in it.  Applied from a position, it changes
    each byte by the byte of the key stream at its own position. *)

From S2P Require Import Prelude Bytes BloomFilter.

(** ** [chacha20::ChaChaCore] *)
Module ChaChaCore.
Definition CONSTANTS : list Z := [0x61707865; 0x3320646e; 0x79622d32; 0x6b206574].
Definition u32_modulus : Z := 2 ^ 32.
Definition wrapping_add32 (a b : Z) : Z := (a + b) `mod` u32_modulus.

(** [new]: constants, key, counter and nonce. *)
Definition new (key iv : list Z) : list Z := CONSTANTS ++ (le_combine <$> chunks 4 key) ++ [0] ++ (le_combine <$> chunks 4 iv).

(** One of the four lines of a quarter round: add, xor, rotate. *)
Definition mix (a b d : nat) (n : Z) (state : list Z) : list Z :=
  let state := <[a := wrapping_add32 (state !!! a) (state !!! b)]> state in
  let state := <[d := Z.lxor (state !!! d) (state !!! a)]> state in
  <[d := rotate_left 32 (state !!! d) n]> state.
Definition quarter_round (a b c d : nat) (state : list Z) : list Z :=
  let state := mix a b d 16 state in
  let state := mix c d b 12 state in
  let state := mix a b d 8 state in
  mix c d b 7 state.

Definition double_round (res : list Z) : list Z :=
  let res := quarter_round 0 4 8 12 res in
  let res := quarter_round 1 5 9 13 res in
  let res := quarter_round 2 6 10 14 res in
  let res := quarter_round 3 7 11 15 res in
  let res := quarter_round 0 5 10 15 res in
  let res := quarter_round 1 6 11 12 res in
  let res := quarter_round 2 7 8 13 res in
  quarter_round 3 4 9 14 res.
Definition run_rounds (state : list Z) : list Z :=
  let res := Nat.iter 10 double_round state in
  zip_with wrapping_add32 res state.

Definition get_block_pos (state : list Z) : Z := state !!! 12%nat.
Definition set_block_pos (state : list Z) (pos : Z) : list Z := <[12%nat := pos]> state.
Definition remaining_blocks (state : list Z) : res Z := u64_sub (u32_modulus - 1) (get_block_pos state).

(** [gen_ks_block]: a block of the key stream, and the state behind it. *)
Definition gen_ks_block (state : list Z) : list Z * list Z :=
  (concat (le_split 4 <$> run_rounds state), set_block_pos state (wrapping_add32 (get_block_pos state) 1)).
End ChaChaCore.

Fixpoint xor_in_place (a b : list Z) : list Z :=
  match a, b with
  | b1 :: a, b2 :: b => Z.lxor b1 b2 :: xor_in_place a b
  | _, _ => a
  end.

(** ** [cipher::StreamCipherCoreWrapper] *)
Record StreamCipherCoreWrapper : Set := mkWrapper { core : list Z; buffer : list Z; cpos : Z }.

Module StreamCipherCoreWrapper.
Definition BLOCK_SIZE : Z := 64.

Definition new (key iv : list Z) : StreamCipherCoreWrapper := mkWrapper (ChaChaCore.new key iv) (replicate 64 0) 0.

Definition get_pos (w : StreamCipherCoreWrapper) : res Z := _ ← rassert (cpos w <? BLOCK_SIZE); Ok (cpos w).
Definition remaining (w : StreamCipherCoreWrapper) : res Z := pos ← get_pos w; u64_sub BLOCK_SIZE pos.

(** Whether there are enough blocks left. *)
Definition check_remaining (w : StreamCipherCoreWrapper) (dlen : Z) : res bool :=
  rem_blocks ← ChaChaCore.remaining_blocks (core w);
  let enough bytes :=
    let blocks := if bytes `mod` BLOCK_SIZE =? 0 then bytes / BLOCK_SIZE else bytes / BLOCK_SIZE + 1 in
    Ok (negb (rem_blocks <? blocks)) in
  if cpos w =? 0 then enough dlen
  else
    rem ← remaining w;
    if rem <? dlen then enough (dlen - rem) else Ok true.

(** The blocks of the data, and then what is left over. *)
Fixpoint apply_blocks (fuel : nat) (core : list Z) (data : list Z) : list Z * list Z * list Z :=
  match fuel with
  | O => (core, [], data)
  | S fuel =>
      if decide (64 ≤ length data)%nat then
        let '(ks, core) := ChaChaCore.gen_ks_block core in
        let '(core, out, leftover) := apply_blocks fuel core (drop 64 data) in
        (core, xor_in_place (take 64 data) ks ++ out, leftover)
      else (core, [], data)
  end.
Definition apply_rest (w : StreamCipherCoreWrapper) (data : list Z) : StreamCipherCoreWrapper * list Z :=
  let '(core, out, leftover) := apply_blocks (length data) (core w) data in
  let n := Z.of_nat (length leftover) in
  if n =? 0 then (mkWrapper core (buffer w) 0, out)
  else
    let '(ks, core) := ChaChaCore.gen_ks_block core in
    (mkWrapper core ks n, out ++ xor_in_place leftover (take (length leftover) ks)).

(** [try_apply_keystream_inout], unwrapped by [apply_keystream]. *)
Definition apply_keystream (w : StreamCipherCoreWrapper) (data : list Z) : res (StreamCipherCoreWrapper * list Z) :=
  ok ← check_remaining w (Z.of_nat (length data));
  _ ← rassert ok;
  pos ← get_pos w;
  if pos =? 0 then Ok (apply_rest w data)
  else
    let rem := drop (Z.to_nat pos) (buffer w) in
    let n := length data in
    if decide (n < length rem)%nat then Ok (mkWrapper (core w) (buffer w) (pos + Z.of_nat n), xor_in_place data (take n rem))
    else
      let '(w, out) := apply_rest w (drop (length rem) data) in
      Ok (w, xor_in_place (take (length rem) data) rem ++ out).

(** [current_pos::<u64>]: [from_block_byte]. *)
Definition current_pos (w : StreamCipherCoreWrapper) : res Z :=
  _ ← rassert (cpos w <? BLOCK_SIZE);
  block ← (if negb (cpos w =? 0) then u64_sub (ChaChaCore.get_block_pos (core w)) 1 else Ok (ChaChaCore.get_block_pos (core w)));
  pos ← u64_mul block BLOCK_SIZE;
  u64_add pos (cpos w).

(** [seek], with [into_block_byte]. *)
Definition seek (w : StreamCipherCoreWrapper) (new_pos : Z) : res StreamCipherCoreWrapper :=
  let byte_pos := new_pos `mod` BLOCK_SIZE in
  let block_pos := new_pos / BLOCK_SIZE in
  _ ← rassert (block_pos <? ChaChaCore.u32_modulus);
  let core := ChaChaCore.set_block_pos (core w) block_pos in
  if negb (byte_pos =? 0) then
    let '(ks, core) := ChaChaCore.gen_ks_block core in Ok (mkWrapper core ks byte_pos)
  else Ok (mkWrapper core (buffer w) byte_pos).
End StreamCipherCoreWrapper.

(** The third test vector of the block function in RFC 8439. *)
Example chacha_block_vector :
  take 16 (ChaChaCore.gen_ks_block (ChaChaCore.set_block_pos (ChaChaCore.new (replicate 31 0 ++ [1]) (replicate 12 0)) 1)).1 =
  [0x3a; 0xeb; 0x52; 0x24; 0xec; 0xf8; 0x49; 0x92; 0x9b; 0x9d; 0x82; 0x8d; 0xb1; 0xce; 0xd4; 0xdd].
Proof. vm_compute. reflexivity. Qed.

(** ** The key stream *)
Fixpoint xor_at (stream : Z → Z) (p : Z) (data : list Z) : list Z :=
  match data with
  | [] => []
  | b :: data => Z.lxor b (stream p) :: xor_at stream (p + 1) data
  end.
Lemma xor_at_app stream p a b : xor_at stream p (a ++ b) = xor_at stream p a ++ xor_at stream (p + Z.of_nat (length a)) b.
Proof.
  revert p. induction a as [|x a IH]; intros p; cbn [app xor_at length]; [by rewrite Z.add_0_r|]. rewrite IH. do 3 f_equal. lia.
Qed.
Lemma xor_at_length stream p a : length (xor_at stream p a) = length a.
Proof. revert p. induction a as [|x a IH]; intros p; [done|]. cbn. by rewrite IH. Qed.
Lemma xor_at_twice stream p a : xor_at stream p (xor_at stream p a) = a.
Proof. revert p. induction a as [|x a IH]; intros p; [done|]. cbn. by rewrite IH, Z.lxor_assoc, Z.lxor_nilpotent, Z.lxor_0_r. Qed.
Lemma xor_in_place_at stream p data ks : (∀ i, (i < length data)%nat → ks !! i = Some (stream (p + Z.of_nat i))) → xor_in_place data ks = xor_at stream p data.
Proof.
  revert p ks. induction data as [|b data IH]; intros p ks Hk; [by destruct ks|]. pose proof (Hk O ltac:(cbn; lia)) as H0. destruct ks as [|k ks]; [done|]. injection H0 as ->. cbn. rewrite Z.add_0_r. f_equal.
  apply IH. intros i Hi. specialize (Hk (S i) ltac:(cbn; lia)). rewrite lookup_cons in Hk. rewrite Hk. do 2 f_equal. lia.
Qed.

Lemma chunks_length {A} n k (l : list A) : (0 < n)%nat → length l = (n * k)%nat → length (chunks n l) = k.
Proof.
  intros Hn. revert l. induction k as [|k IH]; intros l Hl; [destruct l; [done|cbn in Hl; lia]|]. rewrite <- (take_drop n l). rewrite chunks_app by (try done; rewrite length_take; lia). cbn. f_equal. apply IH. rewrite length_drop. lia.
Qed.
Lemma concat_length_const {A} n (l : list (list A)) : Forall (λ x, length x = n) l → length (concat l) = (n * length l)%nat.
Proof. induction 1 as [|x l Hx Hl IH]; [cbn; lia|]. cbn. rewrite length_app, Hx, IH. lia. Qed.

Section stream.
Context (key iv : list Z) (Hkey : length key = 32%nat) (Hiv : length iv = 12%nat).

Definition state_at (c : Z) : list Z := ChaChaCore.set_block_pos (ChaChaCore.new key iv) c.
Definition block_at (c : Z) : list Z := (ChaChaCore.gen_ks_block (state_at c)).1.
(** The byte of the key stream at a position. *)
Definition keystream (p : Z) : Z := block_at (p / 64) !!! Z.to_nat (p `mod` 64).
(** What can be encrypted with one key. *)
Definition stream_end : Z := 64 * (2 ^ 32 - 1).

Lemma new_length : length (ChaChaCore.new key iv) = 16%nat.
Proof. unfold ChaChaCore.new. rewrite !length_app, !length_fmap, (chunks_length 4 8 key), (chunks_length 4 3 iv) by lia. done. Qed.
Lemma state_at_length c : length (state_at c) = 16%nat.
Proof. unfold state_at, ChaChaCore.set_block_pos. by rewrite length_insert, new_length. Qed.
Lemma state_at_pos c : ChaChaCore.get_block_pos (state_at c) = c.
Proof. unfold ChaChaCore.get_block_pos, state_at, ChaChaCore.set_block_pos. apply list_lookup_total_insert_eq. rewrite new_length. lia. Qed.
Lemma state_at_set c c' : ChaChaCore.set_block_pos (state_at c) c' = state_at c'.
Proof. unfold state_at, ChaChaCore.set_block_pos. apply list_insert_insert_eq. Qed.

Lemma mix_length a b d n s : length (ChaChaCore.mix a b d n s) = length s.
Proof. unfold ChaChaCore.mix. by rewrite !length_insert. Qed.
Lemma quarter_round_length a b c d s : length (ChaChaCore.quarter_round a b c d s) = length s.
Proof. unfold ChaChaCore.quarter_round. by rewrite !mix_length. Qed.
Lemma double_rounds_length n s : length (Nat.iter n ChaChaCore.double_round s) = length s.
Proof. induction n as [|n IH]; [done|]. rewrite Nat.iter_succ. unfold ChaChaCore.double_round at 1. by rewrite !quarter_round_length. Qed.
Lemma block_at_length c : length (block_at c) = 64%nat.
Proof.
  unfold block_at, ChaChaCore.gen_ks_block. cbn [fst]. assert (length (ChaChaCore.run_rounds (state_at c)) = 16%nat) as Hl.
  { unfold ChaChaCore.run_rounds. rewrite length_zip_with, double_rounds_length, state_at_length. done. }
  rewrite (concat_length_const 4), length_fmap, Hl; [done|]. apply Forall_fmap, Forall_forall. intros w _. apply length_le_split.
Qed.
Lemma gen_block_at c : 0 ≤ c → c + 1 < 2 ^ 32 → ChaChaCore.gen_ks_block (state_at c) = (block_at c, state_at (c + 1)).
Proof.
  intros H0 H1. unfold block_at, ChaChaCore.gen_ks_block. cbn [fst]. f_equal. rewrite state_at_set, state_at_pos. f_equal. unfold ChaChaCore.wrapping_add32, ChaChaCore.u32_modulus. apply Z.mod_small. lia.
Qed.
Lemma block_byte c i : 0 ≤ c → (i < 64)%nat → block_at c !! i = Some (keystream (64 * c + Z.of_nat i)).
Proof.
  intros Hc Hi. rewrite list_lookup_lookup_total_lt by (rewrite block_at_length; lia). f_equal. unfold keystream. rewrite (Z.mul_comm 64), Z.div_add_l by lia.
  rewrite (Z.div_small (Z.of_nat i)), Z.add_0_r by lia. rewrite Z.add_comm, Z.mod_add, Z.mod_small by lia. by rewrite Nat2Z.id.
Qed.


Lemma xor_block c data : 0 ≤ c → (length data ≤ 64)%nat → xor_in_place data (block_at c) = xor_at keystream (64 * c) data.
Proof. intros Hc Hd. apply xor_in_place_at. intros i Hi. apply block_byte; [done|lia]. Qed.

Lemma apply_blocks_spec fuel c data : (length data ≤ fuel)%nat → 0 ≤ c → let k := (length data / 64)%nat in c + Z.of_nat k < 2 ^ 32 →
  StreamCipherCoreWrapper.apply_blocks fuel (state_at c) data = (state_at (c + Z.of_nat k), xor_at keystream (64 * c) (take (64 * k) data), drop (64 * k) data).
Proof.
  revert c data. induction fuel as [|fuel IH]; intros c data Hf Hc; cbv zeta; intros Hk; [destruct data; [|cbn in Hf; lia]; cbn; by rewrite Z.add_0_r|]. cbn [StreamCipherCoreWrapper.apply_blocks].
  destruct (decide (64 ≤ length data)%nat) as [Hl|Hl].
  - assert (length data / 64 = S (length (drop 64 data) / 64))%nat as Hd.
    { rewrite length_drop. replace (length data) with (length data - 64 + 1 * 64)%nat at 1 by lia. rewrite Nat.div_add by lia. lia. }
    rewrite Hd in Hk |- *. set (k := (length (drop 64 data) / 64)%nat) in *. rewrite gen_block_at by lia. rewrite IH; [|rewrite length_drop; lia|lia|fold k; lia]. fold k.
    replace (c + 1 + Z.of_nat k) with (c + Z.of_nat (S k)) by lia. replace (64 * S k)%nat with (64 + 64 * k)%nat by lia. rewrite drop_drop. f_equal. f_equal.
    rewrite <- (take_drop 64 (take (64 + 64 * k) data)), take_take, xor_at_app. rewrite (Nat.min_l 64) by lia. rewrite xor_block by (try done; rewrite length_take; lia). f_equal. rewrite length_take, Nat.min_l by lia.
    replace (64 * c + Z.of_nat 64) with (64 * (c + 1)) by lia. f_equal. rewrite skipn_firstn_comm. f_equal. lia.
  - assert (length data / 64 = 0)%nat as -> by (apply Nat.div_small; lia). cbn. by rewrite Z.add_0_r.
Qed.

(** A cipher that is at a position of the key stream. *)
Definition at_pos (w : StreamCipherCoreWrapper) (p : Z) : Prop :=
  0 ≤ p ≤ stream_end ∧ cpos w = p `mod` 64 ∧ core w = state_at ((p + 63) / 64) ∧ (p `mod` 64 ≠ 0 → buffer w = block_at (p / 64)).
Abbreviation zlen l := (Z.of_nat (length l)).

Lemma apply_rest_at w c data : core w = state_at c → 0 ≤ c → 64 * c + zlen data ≤ stream_end →
  ∃ w', StreamCipherCoreWrapper.apply_rest w data = (w', xor_at keystream (64 * c) data) ∧ at_pos w' (64 * c + zlen data).
Proof.
  intros Hw Hc He. unfold stream_end in He. unfold StreamCipherCoreWrapper.apply_rest. rewrite Hw. set (k := (length data / 64)%nat). pose proof (Nat.div_mod (length data) 64 ltac:(lia)) as Hdm. pose proof (Nat.mod_upper_bound (length data) 64 ltac:(lia)) as Hm. fold k in Hdm.
  rewrite apply_blocks_spec by (fold k; lia). fold k. rewrite length_drop. set (n := (length data - 64 * k)%nat). assert (length data = n + 64 * k)%nat as Hnk by (unfold n; lia). assert (Z.of_nat n < 64) by lia.
  assert ((64 * c + zlen data) `mod` 64 = Z.of_nat n) as Hmod by (replace (64 * c + zlen data) with (Z.of_nat n + (c + Z.of_nat k) * 64) by lia; rewrite Z.mod_add, Z.mod_small by lia; done).
  assert ((64 * c + zlen data) / 64 = c + Z.of_nat k) as Hdiv by (replace (64 * c + zlen data) with ((c + Z.of_nat k) * 64 + Z.of_nat n) by lia; rewrite Z.div_add_l, (Z.div_small (Z.of_nat n)) by lia; lia).
  destruct (Z.eqb_spec (Z.of_nat n) 0) as [Hn|Hn].
  - eexists. rewrite take_ge by lia. split; [done|]. split; [unfold stream_end; lia|]. cbn [cpos core buffer]. rewrite Hmod. split_and!; [lia| |lia]. f_equal.
    replace (64 * c + zlen data + 63) with ((c + Z.of_nat k) * 64 + 63) by lia. rewrite Z.div_add_l by lia. change (63 / 64) with 0. lia.
  - rewrite gen_block_at by lia. eexists. split.
    + f_equal. rewrite <- (take_drop (64 * k) data) at 3. rewrite xor_at_app, length_take, Nat.min_l by lia. f_equal. replace (64 * c + Z.of_nat (64 * k)) with (64 * (c + Z.of_nat k)) by lia.
      apply xor_in_place_at. intros i Hi. rewrite length_drop in Hi. rewrite lookup_take_lt by lia. apply block_byte; lia.
    + split; [unfold stream_end; lia|]. cbn [cpos core buffer]. rewrite Hmod, Hdiv. split_and!; [done| |done]. f_equal.
      replace (64 * c + zlen data + 63) with ((c + Z.of_nat k + 1) * 64 + (Z.of_nat n - 1)) by lia. rewrite Z.div_add_l, (Z.div_small (_ - 1)) by lia. lia.
Qed.

(** Whether there are enough blocks left is whether the stream goes that far. *)
Lemma ceil_blocks n : 0 ≤ n → (if n `mod` 64 =? 0 then n / 64 else n / 64 + 1) = (n + 63) / 64.
Proof. intros Hn. destruct (Z.eqb_spec (n `mod` 64) 0); Z.to_euclidean_division_equations; lia. Qed.
Lemma check_remaining_at w p n : at_pos w p → 0 ≤ n → StreamCipherCoreWrapper.check_remaining w n = Ok (p + n <=? stream_end).
Proof.
  intros (Hp & Hpos & Hcore & _) Hn. unfold StreamCipherCoreWrapper.check_remaining, ChaChaCore.remaining_blocks, ChaChaCore.u32_modulus. rewrite Hcore, state_at_pos. unfold stream_end in *.
  rewrite u64_sub_ok by (Z.to_euclidean_division_equations; lia). res_simpl. unfold StreamCipherCoreWrapper.BLOCK_SIZE. rewrite Hpos. destruct (Z.eqb_spec (p `mod` 64) 0) as [H0|H0].
  - rewrite ceil_blocks by done. f_equal. Z.to_euclidean_division_equations; lia.
  - unfold StreamCipherCoreWrapper.remaining, StreamCipherCoreWrapper.get_pos, StreamCipherCoreWrapper.BLOCK_SIZE. rewrite Hpos. destruct (Z.ltb_spec (p `mod` 64) 64) as [Hlt|Hge]; [|pose proof (Z.mod_pos_bound p 64); lia]. res_simpl.
    rewrite u64_sub_ok by lia. res_simpl. destruct (Z.ltb_spec (64 - p `mod` 64) n) as [Hl|Hl].
    + rewrite ceil_blocks by lia. f_equal. Z.to_euclidean_division_equations; lia.
    + f_equal. symmetry. apply Z.leb_le. Z.to_euclidean_division_equations; lia.
Qed.

Lemma apply_keystream_at w p data : at_pos w p → p + zlen data ≤ stream_end →
  ∃ w', StreamCipherCoreWrapper.apply_keystream w data = Ok (w', xor_at keystream p data) ∧ at_pos w' (p + zlen data).
Proof.
  intros Hat He. pose proof Hat as (Hp & Hpos & Hcore & Hbuf). unfold StreamCipherCoreWrapper.apply_keystream. rewrite (check_remaining_at w p (zlen data) Hat ltac:(lia)). rewrite (proj2 (Z.leb_le _ _) He). res_simpl.
  unfold StreamCipherCoreWrapper.get_pos, StreamCipherCoreWrapper.BLOCK_SIZE. rewrite Hpos. pose proof (Z.mod_pos_bound p 64 ltac:(lia)) as Hm. rewrite (proj2 (Z.ltb_lt _ _)) by lia. res_simpl. pose proof (Z.div_mod p 64 ltac:(lia)) as Hdm.
  destruct (Z.eqb_spec (p `mod` 64) 0) as [H0|H0].
  - rewrite H0, Z.add_0_r in Hdm. destruct (apply_rest_at w (p / 64) data) as (w' & Hw & Hw').
    { rewrite Hcore. f_equal. Z.to_euclidean_division_equations; lia. }
    { apply Z.div_pos; lia. }
    { lia. }
    rewrite <- Hdm in *. exists w'. rewrite Hw. exact (conj eq_refl Hw').
  - rewrite Hbuf by done. set (q := Z.to_nat (p `mod` 64)). assert (∀ i, (i < length (drop q (block_at (p / 64))))%nat → drop q (block_at (p / 64)) !! i = Some (keystream (p + Z.of_nat i))) as Hrem.
    { intros i Hi. rewrite length_drop, block_at_length in Hi. rewrite lookup_drop, block_byte by (try (apply Z.div_pos); lia). do 2 f_equal. lia. }
    rewrite length_drop, block_at_length. rewrite length_drop, block_at_length in Hrem. destruct (decide (length data < 64 - q)%nat) as [Hl|Hl].
    + eexists. split; [f_equal; f_equal; apply xor_in_place_at; intros i Hi; rewrite lookup_take_lt by done; apply Hrem; lia|].
      split; [lia|]. cbn [cpos core buffer]. assert ((p + zlen data) `mod` 64 = p `mod` 64 + zlen data) as -> by (Z.to_euclidean_division_equations; lia). assert ((p + zlen data) / 64 = p / 64) as -> by (Z.to_euclidean_division_equations; lia).
      split_and!; [done| |intros _; reflexivity]. rewrite Hcore. f_equal. Z.to_euclidean_division_equations; lia.
    + destruct (apply_rest_at w (p / 64 + 1) (drop (64 - q) data)) as (w' & Hw & Hw').
      { rewrite Hcore. f_equal. Z.to_euclidean_division_equations; lia. }
      { pose proof (Z.div_pos p 64). lia. }
      { rewrite length_drop. lia. }
      rewrite Hw. exists w'. rewrite length_drop in Hw'. replace (64 * (p / 64 + 1) + Z.of_nat (length data - (64 - q))) with (p + zlen data) in Hw' by lia. split; [|done]. f_equal. f_equal.
      rewrite <- (take_drop (64 - q) data) at 3. rewrite xor_at_app, length_take, Nat.min_l by lia. f_equal; [|f_equal; lia].
      apply xor_in_place_at. intros i Hi. rewrite length_take in Hi. apply Hrem. lia.
Qed.
Lemma apply_keystream_panics w p data : at_pos w p → stream_end < p + zlen data → StreamCipherCoreWrapper.apply_keystream w data = Panic.
Proof. intros Hat He. unfold StreamCipherCoreWrapper.apply_keystream. rewrite (check_remaining_at w p (zlen data) Hat ltac:(lia)). by rewrite (proj2 (Z.leb_gt _ _) He). Qed.

Lemma seek_at_pos p : 0 ≤ p ≤ stream_end → ∃ w, StreamCipherCoreWrapper.seek (StreamCipherCoreWrapper.new key iv) p = Ok w ∧ at_pos w p.
Proof.
  intros Hp. pose proof Hp as Hp'. unfold stream_end in Hp'. unfold StreamCipherCoreWrapper.seek, StreamCipherCoreWrapper.BLOCK_SIZE, ChaChaCore.u32_modulus. rewrite (proj2 (Z.ltb_lt _ _)) by (Z.to_euclidean_division_equations; lia). res_simpl.
  cbn [core StreamCipherCoreWrapper.new]. fold (state_at (p / 64)). destruct (Z.eqb_spec (p `mod` 64) 0) as [H0|H0]; cbn [negb].
  - eexists. split; [done|]. split; [done|]. cbn [cpos core buffer]. split_and!; [done| |lia]. f_equal. Z.to_euclidean_division_equations; lia.
  - rewrite gen_block_at by (Z.to_euclidean_division_equations; lia). eexists. split; [done|]. split; [done|]. cbn [cpos core buffer]. split_and!; [done| |done]. f_equal. Z.to_euclidean_division_equations; lia.
Qed.
Lemma current_pos_at w p : at_pos w p → StreamCipherCoreWrapper.current_pos w = Ok p.
Proof.
  intros (Hp & Hpos & Hcore & _). unfold stream_end in Hp. unfold StreamCipherCoreWrapper.current_pos, StreamCipherCoreWrapper.BLOCK_SIZE. pose proof (Z.mod_pos_bound p 64 ltac:(lia)). pose proof (Z.div_mod p 64 ltac:(lia)) as Hdm. rewrite Hpos, Hcore, state_at_pos. rewrite (proj2 (Z.ltb_lt _ _)) by lia. res_simpl.
  assert (2 ^ 38 ≤ u64_max) by done. destruct (Z.eqb_spec (p `mod` 64) 0) as [Hz|Hz]; cbn [negb].
  - res_simpl. assert ((p + 63) / 64 = p / 64) as -> by (Z.to_euclidean_division_equations; lia). rewrite u64_mul_ok by lia. res_simpl. rewrite u64_add_ok by lia. f_equal. lia.
  - assert ((p + 63) / 64 = p / 64 + 1) as -> by (Z.to_euclidean_division_equations; lia). pose proof (Z.div_pos p 64). rewrite u64_sub_ok by lia. res_simpl. rewrite Z.add_simpl_r, u64_mul_ok by lia. res_simpl. rewrite u64_add_ok by lia. f_equal. lia.
Qed.

(** The last block is followed by the first: a cipher that starts within it. *)
Lemma last_block_wraps p data : stream_end < p < stream_end + 64 → let left := Z.to_nat (stream_end + 64 - p) in (left ≤ length data)%nat → zlen data - Z.of_nat left ≤ stream_end →
  ∃ w w', StreamCipherCoreWrapper.seek (StreamCipherCoreWrapper.new key iv) p = Ok w ∧
    StreamCipherCoreWrapper.apply_keystream w data = Ok (w', xor_at keystream p (take left data) ++ xor_at keystream 0 (drop left data)).
Proof.
  intros Hp left Hl Hend. unfold stream_end in *. assert (p / 64 = 2 ^ 32 - 1 ∧ p `mod` 64 = p - 64 * (2 ^ 32 - 1)) as [Hd Hm] by (Z.to_euclidean_division_equations; lia). set (q := p `mod` 64) in *.
  set (last := 2 ^ 32 - 1) in *. assert (left = 64 - Z.to_nat q)%nat as Hleft by (unfold left; lia).
  assert (ChaChaCore.gen_ks_block (state_at last) = (block_at last, state_at 0)) as Hgen by (unfold block_at, ChaChaCore.gen_ks_block; cbn [fst]; f_equal; by rewrite state_at_set, state_at_pos).
  exists (mkWrapper (state_at 0) (block_at last) q). destruct (apply_rest_at (mkWrapper (state_at 0) (block_at last) q) 0 (drop left data)) as (w' & Hw & _); [done|done|unfold stream_end; rewrite length_drop; lia|]. exists w'. split.
  - unfold StreamCipherCoreWrapper.seek, StreamCipherCoreWrapper.BLOCK_SIZE, ChaChaCore.u32_modulus. fold q. rewrite Hd. rewrite (proj2 (Z.ltb_lt _ _)) by lia. res_simpl. cbn [core StreamCipherCoreWrapper.new]. fold (state_at last). rewrite (proj2 (Z.eqb_neq q 0)) by lia. cbn [negb]. by rewrite Hgen.
  - unfold StreamCipherCoreWrapper.apply_keystream, StreamCipherCoreWrapper.check_remaining, ChaChaCore.remaining_blocks, StreamCipherCoreWrapper.remaining, StreamCipherCoreWrapper.get_pos, StreamCipherCoreWrapper.BLOCK_SIZE, ChaChaCore.u32_modulus. cbn [core cpos buffer].
    rewrite state_at_pos, u64_sub_ok by done. res_simpl. rewrite (proj2 (Z.eqb_neq q 0)) by lia. rewrite (proj2 (Z.ltb_lt q 64)) by lia. res_simpl. rewrite u64_sub_ok by lia. res_simpl.
    assert ((if 64 - q <? zlen data then Ok (negb (2 ^ 32 - 1 - 0 <? if (zlen data - (64 - q)) `mod` 64 =? 0 then (zlen data - (64 - q)) / 64 else (zlen data - (64 - q)) / 64 + 1)) else Ok true) = Ok true) as Hc.
    { destruct (Z.ltb_spec (64 - q) (zlen data)); [|done]. rewrite ceil_blocks by lia. do 2 f_equal. apply negb_true_iff, Z.ltb_ge. Z.to_euclidean_division_equations; lia. }
    rewrite Hc. res_simpl. rewrite length_drop, block_at_length. rewrite decide_False by lia. rewrite <- Hleft, Hw.
    rewrite (proj2 (Z.eqb_neq q 0)) by lia. do 3 f_equal. apply xor_in_place_at. intros i Hi. rewrite length_take in Hi.
    rewrite lookup_drop, block_byte by lia. do 2 f_equal. lia.
Qed.
End stream.
