(* ===== verification/Crypto.v ===== *)
(** * Encryption

    [fxfs/crypto/src/lib.rs] and [ff1.rs]: the keys of a file, the encryption
    of its data (XTS) and of its name (CBC), the stream cipher for mutations
    and the format-preserving encryption of object IDs.  AES is a parameter. *)

From S2P Require Import Prelude Bytes ChaCha.

(** ** The block cipher

    [Aes256]: what it makes of a key and a block. *)
Class Aes256 : Type := {
  encrypt_block : list Z → list Z → list Z;
  decrypt_block : list Z → list Z → list Z;
}.
Definition block (b : list Z) : Prop := length b = 16%nat ∧ Forall is_u8 b.
Class Aes256Laws `{Aes256} : Prop := {
  encrypt_block_ok key b : block b → block (encrypt_block key b);
  decrypt_block_ok key b : block b → block (decrypt_block key b);
  decrypt_encrypt key b : block b → decrypt_block key (encrypt_block key b) = b;
}.

(** ** Slices *)

(** [for chunk in data.chunks_exact_mut(n)], with a variable that the loop
    changes; what is left over stays as it is.  [fuel] bounds the number of
    chunks; the length of the slice is enough. *)
Section chunks_exact_mut.
Context {St : Type} (n : nat) (body : St → list Z → res (St * list Z)).
Fixpoint chunks_exact_loop (fuel : nat) (s : St) (data : list Z) : res (list Z) :=
  match fuel with
  | O => Ok data
  | S fuel =>
      if decide (n ≤ length data)%nat then
        '(s, chunk) ← body s (take n data);
        rest ← chunks_exact_loop fuel s (drop n data);
        Ok (chunk ++ rest)
      else Ok data
  end.
Definition chunks_exact_mut (s : St) (data : list Z) : res (list Z) := chunks_exact_loop (length data) s data.
End chunks_exact_mut.

Definition FSCRYPT_PADDING : Z := 16.
Definition SECTOR_SIZE : Z := 512.

(** ** The modes

    A tweak is a [u128]; the backend encrypts or decrypts a block. *)
Module CbcEncryptProcessor.
Definition step (proc_block : list Z → list Z) (tweak : Z) (block : list Z) : Z * list Z :=
  let block := proc_block (xor_in_place block (le_split 16 tweak)) in (le_combine block, block).
Definition call (proc_block : list Z → list Z) (tweak : Z) (data : list Z) : res (list Z) :=
  chunks_exact_mut 16 (λ tweak block, Ok (step proc_block tweak block)) tweak data.
End CbcEncryptProcessor.

Module CbcDecryptProcessor.
Definition step (proc_block : list Z → list Z) (tweak : Z) (block : list Z) : Z * list Z :=
  let ciphertext := block in (le_combine ciphertext, xor_in_place (proc_block block) (le_split 16 tweak)).
Definition call (proc_block : list Z → list Z) (tweak : Z) (data : list Z) : res (list Z) :=
  chunks_exact_mut 16 (λ tweak block, Ok (step proc_block tweak block)) tweak data.
End CbcDecryptProcessor.

Module XtsProcessor.
(** [(tweak.0 << 1) ^ ((tweak.0 as i128 >> 127) as u128 & 0x87)] *)
Definition next_tweak (tweak : Z) : Z :=
  Z.lxor (Z.shiftl tweak 1 `mod` 2 ^ 128) (Z.land (if Z.testbit tweak 127 then 2 ^ 128 - 1 else 0) 0x87).
Definition step (proc_block : list Z → list Z) (tweak : Z) (chunk : list Z) : Z * list Z :=
  let chunk := le_split 16 (Z.lxor (le_combine chunk) tweak) in
  let chunk := proc_block chunk in
  let chunk := le_split 16 (Z.lxor (le_combine chunk) tweak) in
  (next_tweak tweak, chunk).
(** [new] asserts that the data, at address [addr], is aligned. *)
Definition call (proc_block : list Z → list Z) (addr tweak : Z) (data : list Z) : res (list Z) :=
  _ ← rassert (Z.land addr 15 =? 0);
  chunks_exact_mut 16 (λ tweak chunk, Ok (step proc_block tweak chunk)) tweak data.
End XtsProcessor.

(** ** Keys *)
Abbreviation UnwrappedKey := (list Z).
Record Cipher : Set := mkCipher { cipher_id : Z; cipher_key : option UnwrappedKey }.
Module Cipher.
Definition new (id : Z) (key : UnwrappedKey) : Cipher := mkCipher id (Some key).
Definition unavailable (id : Z) : Cipher := mkCipher id None.
Definition key (c : Cipher) : option UnwrappedKey := cipher_key c.
End Cipher.

Abbreviation CipherSet := (list Cipher).
Record Key : Set := mkKey { keys : CipherSet; key_index : nat }.
Inductive FindKeyResult : Set := KeyNotFound | KeyUnavailable | FoundKey (k : Key).

Module CipherSet.
Definition new (keys : list (Z * option UnwrappedKey)) : CipherSet :=
  (λ '(id, k), match k with Some k => Cipher.new id k | None => Cipher.unavailable id end) <$> keys.
Definition cipher (s : CipherSet) (id : Z) : option (nat * Cipher) := list_find (λ x, cipher_id x = id) s.
Definition contains_key_id (s : CipherSet) (id : Z) : bool := match list_find (λ x, cipher_id x = id) s with Some _ => true | None => false end.
Definition find_key (s : CipherSet) (id : Z) : FindKeyResult :=
  match list_find (λ x, cipher_id x = id) s with
  | None => KeyNotFound
  | Some (index, cipher) => match Cipher.key cipher with Some _ => FoundKey (mkKey s index) | None => KeyUnavailable end
  end.
End CipherSet.

Module Key.
Section key.
Context `{Aes256}.
Definition key (k : Key) : res UnwrappedKey := c ← unwrap (keys k !! key_index k); unwrap (cipher_key c).
Definition key_id (k : Key) : res Z := c ← unwrap (keys k !! key_index k); Ok (cipher_id c).

(** The body of the loops of [encrypt] and [decrypt] over the sectors; the
    tweak is always encrypted.  [addr] is where the sector is. *)
Definition sector (backend : list Z → list Z → list Z) (cipher : UnwrappedKey) (s : Z * Z) (data : list Z) : res ((Z * Z) * list Z) :=
  let '(addr, sector_offset) := s in
  let tweak := le_combine (encrypt_block cipher (le_split 16 sector_offset)) in
  data ← XtsProcessor.call (backend cipher) addr tweak data;
  sector_offset ← u64_add sector_offset 1;
  Ok ((addr + SECTOR_SIZE, sector_offset), data).
Definition crypt (backend : list Z → list Z → list Z) (k : Key) (addr offset : Z) (buffer : list Z) : res (list Z) :=
  _ ← rassert (offset `mod` SECTOR_SIZE =? 0);
  cipher ← key k;
  chunks_exact_mut (Z.to_nat SECTOR_SIZE) (sector backend cipher) (addr, offset / SECTOR_SIZE) buffer.
Definition encrypt : Key → Z → Z → list Z → res (list Z) := crypt encrypt_block.
Definition decrypt : Key → Z → Z → list Z → res (list Z) := crypt decrypt_block.

Definition encrypt_filename (k : Key) (object_id : Z) (buffer : list Z) : res (list Z) :=
  let len := Z.of_nat (length buffer) in
  let padded := (len + FSCRYPT_PADDING - 1) / FSCRYPT_PADDING * FSCRYPT_PADDING in
  let buffer := buffer ++ replicate (Z.to_nat (padded - len)) 0 in
  cipher ← key k;
  CbcEncryptProcessor.call (encrypt_block cipher) object_id buffer.

(** Padding is removed up to the last byte that is not 0, if there is one. *)
Fixpoint rposition_nonzero (l : list Z) : option nat :=
  match l with
  | [] => None
  | x :: l => match rposition_nonzero l with Some i => Some (S i) | None => if x =? 0 then None else Some O end
  end.
Definition decrypt_filename (k : Key) (object_id : Z) (buffer : list Z) : res (list Z) :=
  cipher ← key k;
  buffer ← CbcDecryptProcessor.call (decrypt_block cipher) object_id buffer;
  Ok match rposition_nonzero buffer with Some i => take (i + 1) buffer | None => buffer end.
End key.
End Key.

(** ** [Crypt::unwrap_keys]

    [unwrap_key] is the implementation's; its futures complete in some order,
    in which the results are collected until there is an error. *)
Definition NOT_FOUND : Z := -25.
Module Crypt.
Section crypt.
Context {W : Type} (unwrap_key : W → Z → Z + UnwrappedKey).
Definition unwrap_future (owner : Z) (k : Z * W) : Z + (Z * option UnwrappedKey) :=
  match unwrap_key k.2 owner with
  | inr unwrapped_key => inr (k.1, Some unwrapped_key)
  | inl e => if e =? NOT_FOUND then inr (k.1, None) else inl e
  end.
Fixpoint unwrap_keys (owner : Z) (completed : list (Z * W)) : Z + list (Z * option UnwrappedKey) :=
  match completed with
  | [] => inr []
  | k :: completed =>
      match unwrap_future owner k with
      | inl e => inl e
      | inr x => match unwrap_keys owner completed with inl e => inl e | inr l => inr (x :: l) end
      end
  end.
End crypt.
End Crypt.

(** ** [StreamCipher] *)
Module StreamCipher.
Definition new (key : UnwrappedKey) (offset : Z) : res StreamCipherCoreWrapper :=
  StreamCipherCoreWrapper.seek (StreamCipherCoreWrapper.new key (replicate 12 0)) offset.
Definition encrypt (c : StreamCipherCoreWrapper) (buffer : list Z) : res (StreamCipherCoreWrapper * list Z) := StreamCipherCoreWrapper.apply_keystream c buffer.
Definition decrypt (c : StreamCipherCoreWrapper) (buffer : list Z) : res (StreamCipherCoreWrapper * list Z) := StreamCipherCoreWrapper.apply_keystream c buffer.
Definition offset (c : StreamCipherCoreWrapper) : res Z := StreamCipherCoreWrapper.current_pos c.
End StreamCipher.

(** ** [ff1.rs] *)
Record Ff1 : Set := mkFf1 { initial_block : list Z; ff1_key : UnwrappedKey }.
Module Ff1.
Section ff1.
Context `{Aes256}.
Definition new (key : UnwrappedKey) : Ff1 := mkFf1 (encrypt_block key [1; 2; 1; 0; 0; 2; 10; 16; 0; 0; 0; 32; 0; 0; 0; 0]) key.

(** [block[i] ^= v] *)
Definition xor_byte (i : nat) (v : Z) (block : list Z) : res (list Z) := b ← unwrap (block !! i); Ok (<[i := Z.lxor b v]> block).
(** The 16 bits that a round adds: [R] for the half [x]. *)
Definition round (f : Ff1) (i x : Z) : res Z :=
  block ← xor_byte 13 i (initial_block f);
  block ← xor_byte 14 (Z.shiftr x 8) block;
  block ← xor_byte 15 (x `mod` 256) block;
  let block := encrypt_block (ff1_key f) block in
  hi ← unwrap (block !! 6%nat); lo ← unwrap (block !! 7%nat);
  Ok (hi * 256 + lo).

Fixpoint encrypt_loop (f : Ff1) (rounds : list Z) (a b : Z) : res (Z * Z) :=
  match rounds with
  | [] => Ok (a, b)
  | i :: rounds =>
      r ← round f i b;
      let c := (a + r) `mod` 65536 in
      encrypt_loop f rounds b c
  end.
Fixpoint decrypt_loop (f : Ff1) (rounds : list Z) (a b : Z) : res (Z * Z) :=
  match rounds with
  | [] => Ok (a, b)
  | i :: rounds =>
      r ← round f i a;
      let c := (b - r) `mod` 65536 in
      decrypt_loop f rounds c a
  end.
Definition encrypt (f : Ff1) (data : Z) : res Z :=
  '(a, b) ← encrypt_loop f (seqZ 0 10) (Z.shiftr data 16) (data `mod` 65536);
  Ok (Z.lor (Z.shiftl a 16) b).
Definition decrypt (f : Ff1) (data : Z) : res Z :=
  '(a, b) ← decrypt_loop f (reverse (seqZ 0 10)) (Z.shiftr data 16) (data `mod` 65536);
  Ok (Z.lor (Z.shiftl a 16) b).
End ff1.
End Ff1.
