(* ===== verification/CryptoProps.v ===== *)
(** * Encryption can be undone

    Data, names, mutations and object IDs that were encrypted are decrypted to
    what they were; data also from the middle of a file. *)

From S2P Require Import Prelude Bytes ChaCha Crypto.

Abbreviation zlen l := (Z.of_nat (length l)).
Abbreviation bytes := (Forall is_u8).

(** ** Loops over chunks *)
Section chunks.
Context {St : Type} (n : nat) (Hn : (0 < n)%nat).
Implicit Types (body : St → list Z → res (St * list Z)).

Lemma chunks_loop_fuel body fuel fuel' s data : (length data ≤ fuel)%nat → (length data ≤ fuel')%nat → chunks_exact_loop n body fuel s data = chunks_exact_loop n body fuel' s data.
Proof.
  revert fuel' s data. induction fuel as [|fuel IH]; intros [|fuel'] s data H1 H2; [done|..].
  - destruct data; [|cbn in H1; lia]. cbn. by destruct (decide _); [lia|].
  - destruct data; [|cbn in H2; lia]. cbn. by destruct (decide _); [lia|].
  - cbn [chunks_exact_loop]. destruct (decide (n ≤ length data)%nat); [|done]. destruct (body s (take n data)) as [[s' c]| | |]; res_simpl; try done. rewrite (IH fuel'); [done|rewrite length_drop; lia..].
Qed.
Lemma chunks_exact_cons body s c rest : length c = n → chunks_exact_mut n body s (c ++ rest) = ('(s, c) ← body s c; r ← chunks_exact_mut n body s rest; Ok (c ++ r)).
Proof.
  intros Hc. unfold chunks_exact_mut at 1. rewrite (chunks_loop_fuel _ _ (S (length (c ++ rest)))) by lia. cbn [chunks_exact_loop]. rewrite decide_True by (rewrite length_app; lia).
  rewrite <- Hc, take_app_length, drop_app_length. destruct (body s c) as [[s' c']| | |]; res_simpl; try done. unfold chunks_exact_mut. rewrite Hc. rewrite (chunks_loop_fuel _ _ (length rest)); [done|rewrite length_app; lia|lia].
Qed.
Lemma chunks_exact_short body s data : (length data < n)%nat → chunks_exact_mut n body s data = Ok data.
Proof. intros Hl. unfold chunks_exact_mut. destruct data as [|x data]; [done|]. cbn [length chunks_exact_loop]. rewrite decide_False; [done|]. cbn in *. lia. Qed.

(** Induction by chunks. *)
Lemma chunks_ind (P : list Z → Prop) : (∀ data, (length data < n)%nat → P data) → (∀ c rest, length c = n → P rest → P (c ++ rest)) → ∀ data, P data.
Proof.
  intros H0 H1 data. remember (length data) as k eqn:Hk. revert data Hk. induction (lt_wf k) as [k _ IH]. intros data ->. destruct (decide (length data < n)%nat) as [Hl|Hl]; [by apply H0|].
  rewrite <- (take_drop n data). apply H1; [rewrite length_take; lia|]. eapply IH; [|done]. rewrite length_drop. lia.
Qed.

(** If each chunk can be undone, from related states, so can all. *)
Lemma chunks_roundtrip (enc dec : St → list Z → res (St * list Z)) (R : St → St → Prop) :
  (∀ s t c s' c', R s t → length c = n → bytes c → enc s c = Ok (s', c') → length c' = n ∧ bytes c' ∧ ∃ t', R s' t' ∧ dec t c' = Ok (t', c)) →
  ∀ data s t out, R s t → bytes data → chunks_exact_mut n enc s data = Ok out → length out = length data ∧ bytes out ∧ chunks_exact_mut n dec t out = Ok data.
Proof.
  intros Hstep. apply (chunks_ind (λ data, ∀ s t out, R s t → bytes data → chunks_exact_mut n enc s data = Ok out → length out = length data ∧ bytes out ∧ chunks_exact_mut n dec t out = Ok data)).
  - intros data Hl s t out HR Hb He. rewrite chunks_exact_short in He by done. injection He as <-. split_and!; [done|done|by apply chunks_exact_short].
  - intros c rest Hc IH s t out HR [Hbc Hbr]%Forall_app He. rewrite chunks_exact_cons in He by done. destruct (enc s c) as [[s' c']| | |] eqn:Ee; res_simpl in He; try done.
    destruct (chunks_exact_mut n enc s' rest) as [r| | |] eqn:Er; res_simpl in He; try done. injection He as <-. destruct (Hstep _ _ _ _ _ HR Hc Hbc Ee) as (Hc' & Hbc' & t' & HR' & Hd). destruct (IH s' t' r HR' Hbr Er) as (Hl & Hb & Hdr).
    split_and!; [rewrite !length_app; lia|by apply Forall_app|]. rewrite chunks_exact_cons by done. rewrite Hd. res_simpl. rewrite Hdr. by res_simpl.
Qed.
Lemma chunks_pure (f : St → list Z → St * list Z) s data : ∃ out, chunks_exact_mut n (λ s c, Ok (f s c)) s data = Ok out.
Proof.
  revert s. pattern data. revert data. apply chunks_ind.
  - intros data Hl s. exists data. by apply chunks_exact_short.
  - intros c rest Hc IH s. rewrite chunks_exact_cons by done. res_simpl. destruct (f s c) as [s' c']. destruct (IH s') as [r ->]. res_simpl. by eexists.
Qed.

(** The loop over two parts, when the first ends with a chunk. *)
Lemma chunks_exact_app body (next : St → St) a b s k : (∀ s c s' c', body s c = Ok (s', c') → s' = next s) → length a = (n * k)%nat →
  chunks_exact_mut n body s (a ++ b) = (x ← chunks_exact_mut n body s a; y ← chunks_exact_mut n body (Nat.iter k next s) b; Ok (x ++ y)).
Proof.
  intros Hnext. revert a s. induction k as [|k IH]; intros a s Hk.
  - destruct a; [|cbn in Hk; lia]. cbn [app Nat.iter nat_rect]. rewrite (chunks_exact_short body s []) by (cbn; lia). res_simpl. by destruct (chunks_exact_mut n body s b).
  - rewrite <- (take_drop n a) in Hk |- *. set (c := take n a) in *. set (a' := drop n a) in *. assert (length c = n) as Hc by (unfold c; rewrite length_take; rewrite length_app in Hk; unfold c, a' in Hk; rewrite length_take, length_drop in Hk; lia).
    rewrite <- (assoc_L app), !chunks_exact_cons by done. destruct (body s c) as [[s' c']| | |] eqn:Eb; res_simpl; try done. rewrite (Hnext _ _ _ _ Eb). rewrite length_app in Hk. rewrite (IH a' (next s)) by lia.
    rewrite Nat.iter_succ_r. destruct (chunks_exact_mut n body (next s) a'); res_simpl; try done. destruct (chunks_exact_mut n body _ b); res_simpl; try done. by rewrite (assoc_L app).
Qed.
End chunks.

(** ** Bits *)
Lemma lxor_bound n a b : 0 ≤ n → 0 ≤ a < 2 ^ n → 0 ≤ b < 2 ^ n → 0 ≤ Z.lxor a b < 2 ^ n.
Proof.
  intros Hn Ha Hb. assert (0 ≤ Z.lxor a b) as H0 by (apply Z.lxor_nonneg; lia). split; [done|]. destruct (decide (Z.lxor a b = 0)) as [->|Hne]; [lia|]. apply Z.log2_lt_pow2; [lia|].
  eapply Z.le_lt_trans; [apply Z.log2_lxor; lia|]. destruct (decide (n = 0)) as [->|]; [assert (a = 0) as -> by lia; assert (b = 0) as -> by lia; done|].
  apply Z.max_lub_lt; [destruct (decide (a = 0)) as [->|]; [cbn; lia|apply Z.log2_lt_pow2; lia]|destruct (decide (b = 0)) as [->|]; [cbn; lia|apply Z.log2_lt_pow2; lia]].
Qed.
Lemma lxor_twice a b : Z.lxor (Z.lxor a b) b = a.
Proof. by rewrite Z.lxor_assoc, Z.lxor_nilpotent, Z.lxor_0_r. Qed.
Lemma xor_in_place_length a b : length (xor_in_place a b) = length a.
Proof. revert b. induction a as [|x a IH]; intros [|y b]; [done..|]. cbn. by rewrite IH. Qed.
Lemma xor_in_place_bytes a b : bytes a → bytes b → bytes (xor_in_place a b).
Proof.
  intros Ha. revert b. induction Ha as [|x a Hx Ha IH]; intros b Hb; [by destruct b|]. destruct Hb as [|y b Hy Hb]; [by constructor|]. cbn. constructor; [|by apply IH]. unfold is_u8 in *. apply (lxor_bound 8); lia.
Qed.
Lemma xor_in_place_twice a b : xor_in_place (xor_in_place a b) b = a.
Proof. revert b. induction a as [|x a IH]; intros [|y b]; [done..|]. cbn. by rewrite IH, lxor_twice. Qed.

(** ** Blocks as numbers *)
Abbreviation u128 x := (0 ≤ x < 2 ^ 128).
Lemma block_u128 b : block b → u128 (le_combine b).
Proof. intros [Hl Hb]. pose proof (le_combine_bound b Hb) as H. rewrite Hl in H. exact H. Qed.
Lemma split_block z : block (le_split 16 z).
Proof. split; [apply length_le_split|apply le_split_u8]. Qed.
Lemma split_combine b : block b → le_split 16 (le_combine b) = b.
Proof. intros [Hl Hb]. rewrite <- Hl. by apply le_split_combine. Qed.
Lemma combine_split z : u128 z → le_combine (le_split 16 z) = z.
Proof. intros Hz. apply le_combine_split_id. exact Hz. Qed.

(** ** Modes *)
Lemma ok_inj {A} (a b : A) : Ok a = Ok b → a = b.
Proof. by intros [= ->]. Qed.

Section modes.
Context `{Aes256} `{!Aes256Laws} (key : list Z).

Lemma next_tweak_u128 t : u128 t → u128 (XtsProcessor.next_tweak t).
Proof.
  intros Ht. unfold XtsProcessor.next_tweak. apply lxor_bound; [done|apply Z.mod_pos_bound; done|]. destruct (Z.testbit t 127); [|done]. split; done.
Qed.
Lemma xts_step t c : u128 t → block c → let '(t', c') := XtsProcessor.step (encrypt_block key) t c in
  u128 t' ∧ block c' ∧ XtsProcessor.step (decrypt_block key) t c' = (t', c).
Proof.
  intros Ht Hc. unfold XtsProcessor.step. split; [by apply next_tweak_u128|]. split; [apply split_block|]. f_equal. pose proof (block_u128 c Hc) as Hu. set (p := le_split 16 (Z.lxor (le_combine c) t)).
  assert (block p) as Hp by apply split_block. pose proof (encrypt_block_ok key p Hp) as He. pose proof (block_u128 _ He) as Heu.
  rewrite combine_split by (by apply lxor_bound). rewrite lxor_twice, split_combine by done. rewrite decrypt_encrypt by done. unfold p. rewrite combine_split by (by apply lxor_bound). by rewrite lxor_twice, split_combine.
Qed.
Lemma xts_roundtrip addr addr' t data out : Z.land addr' 15 = 0 → u128 t → bytes data → XtsProcessor.call (encrypt_block key) addr t data = Ok out →
  length out = length data ∧ bytes out ∧ XtsProcessor.call (decrypt_block key) addr' t out = Ok data.
Proof.
  intros Ha Ht Hb. unfold XtsProcessor.call. rewrite Ha. destruct (Z.land addr 15 =? 0); res_simpl; [|done].
  apply (chunks_roundtrip 16 ltac:(lia) _ _ (λ s t, s = t ∧ u128 s)); [|done|done]. intros s ? c s' c' [<- Hs] Hl Hbc He%ok_inj. pose proof (xts_step s c Hs (conj Hl Hbc)) as Hx. rewrite He in Hx. destruct Hx as (Hs' & [Hl' Hb'] & Hd).
  split_and!; [done|done|]. exists s'. split; [done|]. by rewrite Hd.
Qed.

Lemma cbc_step t c : u128 t → block c → let '(t', c') := CbcEncryptProcessor.step (encrypt_block key) t c in
  u128 t' ∧ block c' ∧ CbcDecryptProcessor.step (decrypt_block key) t c' = (t', c).
Proof.
  intros Ht [Hl Hb]. unfold CbcEncryptProcessor.step, CbcDecryptProcessor.step. assert (block (xor_in_place c (le_split 16 t))) as Hx by (split; [by rewrite xor_in_place_length|apply xor_in_place_bytes; [done|apply split_block]]).
  pose proof (encrypt_block_ok key _ Hx) as He. split; [by apply block_u128|]. split; [done|]. by rewrite decrypt_encrypt, xor_in_place_twice.
Qed.
Lemma cbc_roundtrip t data : u128 t → bytes data → ∃ out, CbcEncryptProcessor.call (encrypt_block key) t data = Ok out ∧
  length out = length data ∧ bytes out ∧ CbcDecryptProcessor.call (decrypt_block key) t out = Ok data.
Proof.
  intros Ht Hb. unfold CbcEncryptProcessor.call, CbcDecryptProcessor.call. destruct (chunks_pure 16 ltac:(lia) (CbcEncryptProcessor.step (encrypt_block key)) t data) as [out Ho]. exists out. split; [done|].
  eapply (chunks_roundtrip 16 ltac:(lia) _ _ (λ s t, s = t ∧ u128 s)); [|done|done|exact Ho]. intros s ? c s' c' [<- Hs] Hl Hbc He%ok_inj. pose proof (cbc_step s c Hs (conj Hl Hbc)) as Hx. rewrite He in Hx. destruct Hx as (Hs' & [Hl' Hb'] & Hd).
  split_and!; [done|done|]. exists s'. split; [done|]. by rewrite Hd.
Qed.
End modes.

(** ** Data *)
Section data.
Context `{Aes256} `{!Aes256Laws}.
Abbreviation aligned a := (Z.land a 15 = 0).
Lemma aligned_add a k : aligned a → aligned (a + 512 * k).
Proof. change 15 with (Z.ones 4). rewrite !Z.land_ones by done. change (2 ^ 4) with 16. intros Ha. rewrite (mod_cong _ a 16 (k * 32)) by lia. done. Qed.
Lemma tweak_u128 cipher o : u128 (le_combine (encrypt_block cipher (le_split 16 o))).
Proof. apply block_u128, encrypt_block_ok, split_block. Qed.

Abbreviation next_sector s := (s.1 + SECTOR_SIZE, s.2 + 1).
Lemma sector_next backend cipher s data s' data' : Key.sector backend cipher s data = Ok (s', data') → s' = next_sector s.
Proof. destruct s as [addr o]. unfold Key.sector. destruct (XtsProcessor.call _ _ _ _); res_simpl; try done. destruct (u64_add o 1) as [o'| | |] eqn:Eo; res_simpl; try done. apply u64_add_inv in Eo as [_ ->]. by intros [= <- _]. Qed.
Lemma sectors_next k addr o : Nat.iter k (λ s, next_sector s) (addr, o) = (addr + 512 * Z.of_nat k, o + Z.of_nat k).
Proof. induction k as [|k IH]; [cbn; f_equal; lia|]. rewrite Nat.iter_succ, IH. cbn [fst snd]. unfold SECTOR_SIZE. f_equal; lia. Qed.

Lemma sector_ok backend cipher addr o c : aligned addr → o + 1 ≤ u64_max → ∃ c', Key.sector backend cipher (addr, o) c = Ok ((addr + SECTOR_SIZE, o + 1), c').
Proof.
  intros Ha Ho. unfold Key.sector, XtsProcessor.call. rewrite Ha. res_simpl. destruct (chunks_pure 16 ltac:(lia) (XtsProcessor.step (backend cipher)) (le_combine (encrypt_block cipher (le_split 16 o))) c) as [c' ->]. res_simpl.
  rewrite u64_add_ok by lia. res_simpl. by eexists.
Qed.
Lemma sectors_ok backend cipher data addr o : aligned addr → 512 * o + zlen data ≤ u64_max → 0 ≤ o → ∃ out, chunks_exact_mut 512 (Key.sector backend cipher) (addr, o) data = Ok out.
Proof.
  revert addr o. pattern data. revert data. apply (chunks_ind 512 ltac:(lia)).
  - intros data Hl addr o _ _ _. exists data. apply chunks_exact_short; lia.
  - intros c rest Hc IH addr o Ha Hm Ho. rewrite length_app in Hm. rewrite chunks_exact_cons by (try done; lia). destruct (sector_ok backend cipher addr o c Ha ltac:(lia)) as [c' ->]. res_simpl.
    destruct (IH (addr + SECTOR_SIZE) (o + 1)) as [r ->]; [by apply (aligned_add addr 1)|lia|lia|]. res_simpl. by eexists.
Qed.
Lemma sectors_roundtrip cipher data addr addr' o out : aligned addr → aligned addr' → bytes data → chunks_exact_mut 512 (Key.sector encrypt_block cipher) (addr, o) data = Ok out →
  length out = length data ∧ bytes out ∧ chunks_exact_mut 512 (Key.sector decrypt_block cipher) (addr', o) out = Ok data.
Proof.
  intros Ha Ha' Hb. apply (chunks_roundtrip 512 ltac:(lia) _ _ (λ s t, s.2 = t.2 ∧ aligned s.1 ∧ aligned t.1)); [|done|done].
  intros [a1 o1] [a2 o2] c s' c' (Ho & H1 & H2) Hl Hbc He. cbn [fst snd] in *. subst o2. pose proof (sector_next _ _ _ _ _ _ He) as ->. unfold Key.sector in He.
  destruct (XtsProcessor.call (encrypt_block cipher) a1 _ c) as [x| | |] eqn:Ex; res_simpl in He; try done. destruct (u64_add o1 1) as [o'| | |] eqn:Eo; res_simpl in He; try done. injection He as _ <-.
  destruct (xts_roundtrip cipher a1 a2 _ _ _ H2 (tweak_u128 cipher o1) Hbc Ex) as (Hlx & Hbx & Hd). split_and!; [lia|done|]. eexists. split; [|unfold Key.sector; rewrite Hd; res_simpl; rewrite Eo; res_simpl; done].
  apply u64_add_inv in Eo as [_ ->]. cbn [fst snd]. split_and!; [done|by apply (aligned_add a1 1)|by apply (aligned_add a2 1)].
Qed.

(** A key that is there. *)
Definition has_key (k : Key) : Prop := ∃ cipher, Key.key k = Ok cipher.
Lemma sectors_split backend cipher a b addr o : zlen a `mod` 512 = 0 →
  chunks_exact_mut 512 (Key.sector backend cipher) (addr, o) (a ++ b) =
  (x ← chunks_exact_mut 512 (Key.sector backend cipher) (addr, o) a; y ← chunks_exact_mut 512 (Key.sector backend cipher) (addr + zlen a, o + zlen a / 512) b; Ok (x ++ y)).
Proof.
  intros Hm. assert (∃ n, length a = (512 * n)%nat) as [n Hn].
  { exists (Z.to_nat (zlen a / 512)). pose proof (Z.div_mod (zlen a) 512 ltac:(lia)). pose proof (Z.div_pos (zlen a) 512 ltac:(lia) ltac:(lia)). lia. }
  rewrite (chunks_exact_app 512 ltac:(lia) _ (λ s, next_sector s) a b (addr, o) n) by (done || apply sector_next). rewrite sectors_next.
  replace (zlen a / 512) with (Z.of_nat n); [replace (zlen a) with (512 * Z.of_nat n) by lia; done|]. replace (zlen a) with (Z.of_nat n * 512) by lia. by rewrite Z.div_mul.
Qed.

Lemma crypt_sectors backend k cipher addr offset buffer : Key.key k = Ok cipher → offset `mod` 512 = 0 →
  Key.crypt backend k addr offset buffer = chunks_exact_mut 512 (Key.sector backend cipher) (addr, offset / 512) buffer.
Proof. intros Hk Ho. unfold Key.crypt, SECTOR_SIZE. rewrite Ho. res_simpl. rewrite Hk. by res_simpl. Qed.
Lemma add_sectors offset n : offset `mod` 512 = 0 → n `mod` 512 = 0 → (offset + n) `mod` 512 = 0 ∧ (offset + n) / 512 = offset / 512 + n / 512.
Proof. intros Ho Hn. split; Z.to_euclidean_division_equations; lia. Qed.

(** C23: [Key::encrypt] of a range of a file changes no length, and
    [Key::decrypt] of any sectors of the result, wherever the buffers are, gives
    what those sectors had: what was written with one call can be read with
    others. The last sectors may end with what does not fill a sector. *)
Theorem file_data_roundtrip k addr addr' offset a b c : has_key k → aligned addr → aligned addr' → 0 ≤ offset → offset `mod` 512 = 0 →
  bytes (a ++ b ++ c) → zlen a `mod` 512 = 0 → zlen b `mod` 512 = 0 ∨ c = [] → offset + zlen (a ++ b ++ c) ≤ u64_max →
  ∃ ea eb ec, Key.encrypt k addr offset (a ++ b ++ c) = Ok (ea ++ eb ++ ec) ∧
    length ea = length a ∧ length eb = length b ∧ length ec = length c ∧
    Key.decrypt k addr' (offset + zlen a) eb = Ok b.
Proof.
  intros [cipher Hk] Ha Ha' Ho0 Hoff [Hba [Hbb Hbc]%Forall_app]%Forall_app Hma Hmb Hmax. unfold Key.encrypt, Key.decrypt. destruct (add_sectors offset (zlen a) Hoff Hma) as [Hoff' Hdiv].
  rewrite (crypt_sectors _ k cipher addr offset) by done. rewrite !length_app in Hmax. pose proof (Z.div_mod offset 512 ltac:(lia)) as Hdo. pose proof (Z.div_mod (zlen a) 512 ltac:(lia)) as Hda.
  pose proof (Z.div_pos offset 512 ltac:(lia) ltac:(lia)). pose proof (Z.div_pos (zlen a) 512 ltac:(lia) ltac:(lia)).
  assert (aligned (addr + zlen a)) as Hal by (rewrite Hda, Hma, Z.add_0_r; by apply aligned_add).
  destruct (sectors_ok encrypt_block cipher a addr (offset / 512) Ha ltac:(lia) ltac:(lia)) as [ea Hea].
  destruct (sectors_ok encrypt_block cipher b (addr + zlen a) (offset / 512 + zlen a / 512) Hal ltac:(lia) ltac:(lia)) as [eb Heb].
  destruct (sectors_roundtrip cipher a addr addr _ _ Ha Ha Hba Hea) as (Hla & _ & _). destruct (sectors_roundtrip cipher b _ addr' _ _ Hal Ha' Hbb Heb) as (Hlb & _ & Hdb).
  rewrite <- Hdiv, <- (crypt_sectors _ k) in Hdb by done. destruct Hmb as [Hmb| ->].
  - pose proof (Z.div_mod (zlen b) 512 ltac:(lia)) as Hdb'. pose proof (Z.div_pos (zlen b) 512 ltac:(lia) ltac:(lia)).
    assert (aligned (addr + zlen a + zlen b)) as Hal2 by (rewrite Hdb', Hmb, Z.add_0_r; by apply aligned_add).
    destruct (sectors_ok encrypt_block cipher c (addr + zlen a + zlen b) (offset / 512 + zlen a / 512 + zlen b / 512) Hal2 ltac:(lia) ltac:(lia)) as [ec Hec].
    destruct (sectors_roundtrip cipher c _ _ _ _ Hal2 Hal2 Hbc Hec) as (Hlc & _ & _). exists ea, eb, ec. split_and!; [|done..].
    rewrite sectors_split by done. rewrite Hea. res_simpl. rewrite sectors_split by done. rewrite Heb. res_simpl. rewrite Hec. by res_simpl.
  - exists ea, eb, []. split_and!; [|done..]. rewrite !app_nil_r. rewrite sectors_split by done. rewrite Hea. res_simpl. rewrite Heb. by res_simpl.
Qed.

(** ** Names *)
Lemma rposition_app_zeros l n : last l ≠ Some 0 → l ≠ [] → Key.rposition_nonzero (l ++ replicate n 0) = Some (length l - 1)%nat.
Proof.
  assert (∀ n, Key.rposition_nonzero (replicate n 0) = None) as Hz by (clear; induction n as [|n IH]; [done|]; cbn; by rewrite IH).
  induction l as [|x l IH]; [done|]. intros Hlast _. destruct l as [|y l].
  - cbn [app Key.rposition_nonzero]. rewrite Hz. destruct (Z.eqb_spec x 0) as [->|]; [done|]. done.
  - cbn [app Key.rposition_nonzero] in *. rewrite IH by done. f_equal. cbn. lia.
Qed.

Lemma encrypted_name k object_id name : has_key k → 0 ≤ object_id ≤ u64_max → bytes name → last name ≠ Some 0 →
  ∃ out, Key.encrypt_filename k object_id name = Ok out ∧ zlen out = (zlen name + 15) / 16 * 16 ∧ Key.decrypt_filename k object_id out = Ok name.
Proof.
  intros [cipher Hk] Hid Hb Hlast. unfold Key.encrypt_filename, Key.decrypt_filename, FSCRYPT_PADDING. rewrite Hk. res_simpl. set (n := Z.to_nat _).
  assert (u128 object_id) as Hu by (assert (u64_max < 2 ^ 128) by done; lia). assert (bytes (name ++ replicate n 0)) as Hbn by (apply Forall_app; split; [done|]; apply Forall_replicate; done).
  destruct (cbc_roundtrip cipher object_id _ Hu Hbn) as (out & He & Hl & _ & Hd). exists out. split_and!; [done| |].
  - rewrite Hl, length_app, length_replicate. unfold n. Z.to_euclidean_division_equations; lia.
  - rewrite Hd. res_simpl. destruct name as [|x name]; [done|]. rewrite rposition_app_zeros by done. f_equal. rewrite take_app_le by (cbn; lia). apply take_ge. cbn. lia.
Qed.
(** A name is encrypted to whole blocks and decrypted to itself, if it does not
    end with a zero byte, which could not be told from padding. *)
Theorem filename_roundtrip k object_id name : has_key k → 0 ≤ object_id ≤ u64_max → bytes name → last name ≠ Some 0 →
  ∃ out, Key.encrypt_filename k object_id name = Ok out ∧ zlen out = (zlen name + 15) / 16 * 16 ∧ Key.decrypt_filename k object_id out = Ok name.
Proof. apply encrypted_name. Qed.
End data.

(** ** Object IDs *)
Section ff1.
Context `{Aes256} `{!Aes256Laws} (key : list Z).
Abbreviation u16 x := (0 ≤ x < 65536).
Abbreviation f := (Ff1.new key).

Lemma xor_byte_ok i v b : (i < 16)%nat → is_u8 v → block b → ∃ b', Ff1.xor_byte i v b = Ok b' ∧ block b'.
Proof.
  intros Hi Hv [Hl Hb]. unfold Ff1.xor_byte. destruct (lookup_lt_is_Some_2 b i ltac:(lia)) as [x Hx]. rewrite Hx. res_simpl. eexists. split; [done|]. split; [by rewrite length_insert|]. apply Forall_insert; [done|].
  apply (lxor_bound 8); [done| |exact Hv]. rewrite Forall_lookup in Hb. apply (Hb i x Hx).
Qed.
Lemma round_ok i x : is_u8 i → u16 x → ∃ r, Ff1.round f i x = Ok r ∧ u16 r.
Proof.
  intros Hi Hx. unfold Ff1.round. assert (block (initial_block f)) as Hb by (apply encrypt_block_ok; split; [done|]; refine (bool_decide_unpack _ _); exact I).
  destruct (xor_byte_ok 13 i _ ltac:(lia) Hi Hb) as (b1 & -> & Hb1). res_simpl. destruct (xor_byte_ok 14 (Z.shiftr x 8) b1 ltac:(lia)) as (b2 & -> & Hb2); [rewrite Z.shiftr_div_pow2 by done; unfold is_u8; change (2 ^ 8) with 256; Z.to_euclidean_division_equations; lia|done|]. res_simpl.
  destruct (xor_byte_ok 15 (x `mod` 256) b2 ltac:(lia)) as (b3 & -> & Hb3); [apply Z.mod_pos_bound; done|done|]. res_simpl. destruct (encrypt_block_ok key b3 Hb3) as [Hl Hu]. cbn [ff1_key Ff1.new]. rewrite Forall_lookup in Hu.
  destruct (lookup_lt_is_Some_2 (encrypt_block key b3) 6 ltac:(lia)) as [hi Hhi]. destruct (lookup_lt_is_Some_2 (encrypt_block key b3) 7 ltac:(lia)) as [lo Hlo]. rewrite Hhi, Hlo. res_simpl. eexists. split; [done|].
  pose proof (Hu _ _ Hhi). pose proof (Hu _ _ Hlo). unfold is_u8 in *. lia.
Qed.

Lemma encrypt_loop_app rs rs' a b : Ff1.encrypt_loop f (rs ++ rs') a b = ('(a, b) ← Ff1.encrypt_loop f rs a b; Ff1.encrypt_loop f rs' a b).
Proof. revert a b. induction rs as [|i rs IH]; intros a b; [done|]. cbn [app Ff1.encrypt_loop]. by destruct (Ff1.round f i b); res_simpl. Qed.
Lemma decrypt_loop_app rs rs' a b : Ff1.decrypt_loop f (rs ++ rs') a b = ('(a, b) ← Ff1.decrypt_loop f rs a b; Ff1.decrypt_loop f rs' a b).
Proof. revert a b. induction rs as [|i rs IH]; intros a b; [done|]. cbn [app Ff1.decrypt_loop]. by destruct (Ff1.round f i a); res_simpl. Qed.

Lemma loop_encrypt_decrypt rs a b : Forall is_u8 rs → u16 a → u16 b → ∃ a' b', Ff1.encrypt_loop f rs a b = Ok (a', b') ∧ u16 a' ∧ u16 b' ∧ Ff1.decrypt_loop f (reverse rs) a' b' = Ok (a, b).
Proof.
  intros Hr. revert a b. induction Hr as [|i rs Hi Hr IH]; intros a b Ha Hb; [by exists a, b|]. cbn [Ff1.encrypt_loop]. destruct (round_ok i b Hi Hb) as (r & Hrd & Hru). rewrite Hrd. res_simpl.
  destruct (IH b ((a + r) `mod` 65536) Hb ltac:(apply Z.mod_pos_bound; lia)) as (a' & b' & He & Ha' & Hb' & Hd). exists a', b'. split; [done|]. split; [done|]. split; [done|]. rewrite reverse_cons, decrypt_loop_app, Hd. res_simpl. cbn [Ff1.decrypt_loop]. rewrite Hrd. res_simpl.
  do 2 f_equal. rewrite Zminus_mod_idemp_l, Z.add_simpl_r. by apply Z.mod_small.
Qed.
Lemma loop_decrypt_encrypt rs a b : Forall is_u8 rs → u16 a → u16 b → ∃ a' b', Ff1.decrypt_loop f rs a b = Ok (a', b') ∧ u16 a' ∧ u16 b' ∧ Ff1.encrypt_loop f (reverse rs) a' b' = Ok (a, b).
Proof.
  intros Hr. revert a b. induction Hr as [|i rs Hi Hr IH]; intros a b Ha Hb; [by exists a, b|]. cbn [Ff1.decrypt_loop]. destruct (round_ok i a Hi Ha) as (r & Hrd & Hru). rewrite Hrd. res_simpl.
  destruct (IH ((b - r) `mod` 65536) a ltac:(apply Z.mod_pos_bound; lia) Ha) as (a' & b' & He & Ha' & Hb' & Hd). exists a', b'. split; [done|]. split; [done|]. split; [done|]. rewrite reverse_cons, encrypt_loop_app, Hd. res_simpl. cbn [Ff1.encrypt_loop]. rewrite Hrd. res_simpl.
  do 2 f_equal. rewrite Zplus_mod_idemp_l, Z.sub_add. by apply Z.mod_small.
Qed.

Lemma halves d : 0 ≤ d < 2 ^ 32 → u16 (Z.shiftr d 16) ∧ u16 (d `mod` 65536) ∧ Z.lor (Z.shiftl (Z.shiftr d 16) 16) (d `mod` 65536) = d.
Proof.
  intros Hd. rewrite Z.shiftr_div_pow2 by done. change (2 ^ 16) with 65536. pose proof (Z.mod_pos_bound d 65536 ltac:(lia)). split; [Z.to_euclidean_division_equations; lia|]. split; [done|].
  rewrite lor_low by (change (2 ^ 16) with 65536; lia). change (2 ^ 16) with 65536. pose proof (Z.div_mod d 65536). lia.
Qed.
Lemma joined a b : u16 a → u16 b → let d := Z.lor (Z.shiftl a 16) b in 0 ≤ d < 2 ^ 32 ∧ Z.shiftr d 16 = a ∧ d `mod` 65536 = b.
Proof.
  intros Ha Hb d. unfold d. rewrite lor_low by (change (2 ^ 16) with 65536; lia). rewrite Z.shiftr_div_pow2 by done. change (2 ^ 16) with 65536. split; [lia|]. split; Z.to_euclidean_division_equations; lia.
Qed.
End ff1.

(** C25: [Ff1::encrypt] is a permutation of the 32-bit numbers with inverse
    [Ff1::decrypt]: distinct object IDs stay distinct. *)
Theorem ff1_permutation `{Aes256Laws} key d : 0 ≤ d < 2 ^ 32 →
  (∃ e, Ff1.encrypt (Ff1.new key) d = Ok e ∧ 0 ≤ e < 2 ^ 32 ∧ Ff1.decrypt (Ff1.new key) e = Ok d) ∧
  (∃ e, Ff1.decrypt (Ff1.new key) d = Ok e ∧ 0 ≤ e < 2 ^ 32 ∧ Ff1.encrypt (Ff1.new key) e = Ok d).
Proof.
  intros Hd. destruct (halves d Hd) as (Ha & Hb & Hj). assert (Forall is_u8 (seqZ 0 10)) as Hr by (apply Forall_seqZ; unfold is_u8; lia). unfold Ff1.encrypt, Ff1.decrypt. split.
  - destruct (loop_encrypt_decrypt key (seqZ 0 10) _ _ Hr Ha Hb) as (a & b & He & Ha' & Hb' & Hdec). rewrite He. res_simpl. eexists. split; [done|]. destruct (joined a b Ha' Hb') as (Hrange & -> & ->). split; [done|]. rewrite Hdec. res_simpl. by f_equal.
  - destruct (loop_decrypt_encrypt key (reverse (seqZ 0 10)) _ _ ltac:(by apply Forall_reverse) Ha Hb) as (a & b & He & Ha' & Hb' & Hdec). rewrite He. res_simpl. eexists. split; [done|]. destruct (joined a b Ha' Hb') as (Hrange & -> & ->). split; [done|]. rewrite reverse_involutive in Hdec. rewrite Hdec. res_simpl. by f_equal.
Qed.

(** ** Mutations *)

(** C24: [StreamCipher], for a cipher made at an offset and two messages that
    end within the first 2^32 - 1 blocks of 64 bytes of the key stream: the
    messages encrypted one after the other are encrypted as their concatenation
    would be, [offset] says where the next one starts, and a cipher made for the
    offset of the second one decrypts it. A further message that would end
    beyond these blocks is a panic. *)
Theorem stream_cipher_roundtrip key offset a b : length key = 32%nat → 0 ≤ offset → offset + zlen (a ++ b) ≤ stream_end →
  ∃ c c1 c2 c12 d d' ea eb,
    StreamCipher.new key offset = Ok c ∧ StreamCipher.encrypt c a = Ok (c1, ea) ∧ StreamCipher.encrypt c1 b = Ok (c2, eb) ∧
    StreamCipher.encrypt c (a ++ b) = Ok (c12, ea ++ eb) ∧
    StreamCipher.offset c1 = Ok (offset + zlen a) ∧ StreamCipher.offset c2 = Ok (offset + zlen a + zlen b) ∧
    StreamCipher.new key (offset + zlen a) = Ok d ∧ StreamCipher.decrypt d eb = Ok (d', b) ∧
    ∀ x, stream_end < offset + zlen a + zlen b + zlen x → StreamCipher.encrypt c2 x = Panic.
Proof.
  intros Hkey H0 Hend. set (iv := replicate 12 0). assert (length iv = 12%nat) as Hiv by done. pose proof Hend as Hend'. rewrite length_app in Hend. unfold StreamCipher.new, StreamCipher.encrypt, StreamCipher.decrypt, StreamCipher.offset. fold iv.
  destruct (seek_at_pos key iv Hkey Hiv offset ltac:(lia)) as (c & Hc & Hat). destruct (apply_keystream_at key iv Hkey Hiv c offset a Hat ltac:(lia)) as (c1 & Hc1 & Hat1).
  destruct (apply_keystream_at key iv Hkey Hiv c1 _ b Hat1 ltac:(lia)) as (c2 & Hc2 & Hat2). destruct (apply_keystream_at key iv Hkey Hiv c offset (a ++ b) Hat Hend') as (c12 & Hc12 & _).
  destruct (seek_at_pos key iv Hkey Hiv (offset + zlen a) ltac:(lia)) as (d & Hd & Hatd). destruct (apply_keystream_at key iv Hkey Hiv d _ (xor_at (keystream key iv) (offset + zlen a) b) Hatd ltac:(rewrite xor_at_length; lia)) as (d' & Hd' & _).
  rewrite xor_at_twice in Hd'. rewrite xor_at_app in Hc12. exists c, c1, c2, c12, d, d', (xor_at (keystream key iv) offset a), (xor_at (keystream key iv) (offset + zlen a) b).
  split_and!; [exact Hc|exact Hc1|exact Hc2|exact Hc12|exact (current_pos_at key iv Hkey Hiv c1 _ Hat1)|exact (current_pos_at key iv Hkey Hiv c2 _ Hat2)|exact Hd|exact Hd'|].
  intros x Hx. exact (apply_keystream_panics key iv Hkey Hiv c2 _ x Hat2 Hx).
Qed.

(** A [StreamCipher] made for an offset within the last of the 2^32 blocks of
    the key stream does not refuse a message that goes beyond it: what follows
    the end of that block is encrypted as a message at offset 0 is, with the
    part of the key stream that was used first. *)
Theorem stream_cipher_wraps key offset a b : length key = 32%nat → 0 < zlen a < 64 → offset + zlen a = stream_end + 64 → zlen b ≤ stream_end →
  ∃ c c' ea eb c0 c0', StreamCipher.new key offset = Ok c ∧ StreamCipher.encrypt c (a ++ b) = Ok (c', ea ++ eb) ∧ length ea = length a ∧
    StreamCipher.new key 0 = Ok c0 ∧ StreamCipher.encrypt c0 b = Ok (c0', eb).
Proof.
  intros Hkey Ha Ho Hb. set (iv := replicate 12 0). assert (length iv = 12%nat) as Hiv by done. unfold StreamCipher.new, StreamCipher.encrypt. fold iv.
  destruct (last_block_wraps key iv Hkey Hiv offset (a ++ b) ltac:(lia)) as (c & c' & Hc & Hc'); [rewrite length_app; lia|rewrite length_app; lia|].
  destruct (seek_at_pos key iv Hkey Hiv 0) as (c0 & Hc0 & Hat0); [done|]. destruct (apply_keystream_at key iv Hkey Hiv c0 0 b Hat0 Hb) as (c0' & Hc0' & _).
  replace (Z.to_nat (stream_end + 64 - offset)) with (length a) in Hc' by lia. rewrite take_app_length, drop_app_length in Hc'.
  eexists c, c', _, _, c0, c0'. split_and!; [exact Hc|exact Hc'|apply xor_at_length|exact Hc0|exact Hc0'].
Qed.

(** ** Keys *)

(** [find_key] finds the first cipher with the ID, and its key is there. *)
Lemma find_key_has s id k : CipherSet.find_key s id = FoundKey k → has_key k ∧ Key.key_id k = Ok id.
Proof.
  unfold CipherSet.find_key. destruct (list_find (λ x, cipher_id x = id) s) as [[i c]|] eqn:E; [|done]. apply list_find_Some in E as (Hl & Hid & _). unfold Cipher.key. destruct (cipher_key c) as [u|] eqn:Eu; [|done]. intros [= <-].
  unfold has_key, Key.key, Key.key_id. cbn [keys key_index]. rewrite Hl. res_simpl. rewrite Eu. split; [by exists u|]. by rewrite Hid.
Qed.

(** What [find_key] finds in the ciphers made of unwrapped keys. *)
Definition found (s : CipherSet) (id : Z) : option (option UnwrappedKey) :=
  match CipherSet.find_key s id with
  | KeyNotFound => None
  | KeyUnavailable => Some None
  | FoundKey k => match Key.key k with Ok u => Some (Some u) | _ => None end
  end.
Lemma found_new l id : found (CipherSet.new l) id = snd <$> (head (filter (λ e, e.1 = id) l)).
Proof.
  assert (∀ l : list (Z * option UnwrappedKey), match list_find (λ x, cipher_id x = id) (CipherSet.new l) with None => None | Some (_, c) => Some (cipher_key c) end = snd <$> head (filter (λ e, e.1 = id) l)) as H.
  { clear l. induction l as [|[id' k] l IH]; [done|]. cbn [CipherSet.new fmap list_fmap list_find]. fold (CipherSet.new l). rewrite filter_cons. cbn [fst].
    assert (cipher_id (match k with Some k => Cipher.new id' k | None => Cipher.unavailable id' end) = id' ∧ cipher_key (match k with Some k => Cipher.new id' k | None => Cipher.unavailable id' end) = k) as [-> Hk] by by destruct k.
    destruct (decide (id' = id)); [cbn; by rewrite Hk|]. rewrite <- IH. by destruct (list_find _ _) as [[]|]. }
  rewrite <- H. unfold found, CipherSet.find_key. destruct (list_find (λ x, cipher_id x = id) (CipherSet.new l)) as [[i c]|] eqn:E; [|done]. apply list_find_Some in E as (Hl & _). unfold Cipher.key.
  destruct (cipher_key c) as [u|] eqn:Eu; [|done]. unfold Key.key. cbn [keys key_index]. rewrite Hl. res_simpl. by rewrite Eu.
Qed.
Lemma unwrap_keys_spec {W} (unwrap_key : W → Z → Z + UnwrappedKey) owner ks l : Crypt.unwrap_keys unwrap_key owner ks = inr l → Forall2 (λ k x, Crypt.unwrap_future unwrap_key owner k = inr x) ks l.
Proof.
  revert l. induction ks as [|k ks IH]; intros l H; cbn in H; [by injection H as <-; constructor|]. destruct (Crypt.unwrap_future unwrap_key owner k) as [|x] eqn:Ex; [done|]. destruct (Crypt.unwrap_keys unwrap_key owner ks) as [|l'] eqn:El; [done|]. injection H as <-. constructor; auto.
Qed.

(** In whatever order unwrapping the keys of a file completes, [find_key] finds
    the key with an ID that was unwrapped, or that it is not available. *)
Theorem unwrapped_keys_found {W} (unwrap_key : W → Z → Z + UnwrappedKey) owner ks completed l : NoDup ks.*1 → completed ≡ₚ ks →
  Crypt.unwrap_keys unwrap_key owner completed = inr l → ∀ id,
  found (CipherSet.new l) id =
  match (list_to_map ks : gmap Z W) !! id with
  | None => None
  | Some w => Some match unwrap_key w owner with inr u => Some u | inl _ => None end
  end.
Proof.
  intros Hnd Hperm Hu id. rewrite found_new. assert (NoDup completed.*1) as Hndc by (by rewrite Hperm). rewrite <- (list_to_map_proper completed ks Hndc Hperm). clear Hnd Hperm. apply unwrap_keys_spec in Hu.
  induction Hu as [|[i w] x completed l Hx Hu IH]; [done|]. rewrite fmap_cons in Hndc. apply NoDup_cons in Hndc as [_ Hndc]. specialize (IH Hndc). cbn [list_to_map foldr]. rewrite filter_cons.
  assert (x = (i, match unwrap_key w owner with inr u => Some u | inl _ => None end)) as ->.
  { unfold Crypt.unwrap_future in Hx. cbn [fst snd] in Hx. destruct (unwrap_key w owner); [destruct (_ =? _); [|done]|]; by injection Hx as <-. }
  cbn [fst]. destruct (decide (i = id)) as [->|Hne]; [by rewrite lookup_insert_eq|]. rewrite lookup_insert_ne by done. exact IH.
Qed.
