(* ===== verification/CryptoDemo.v ===== *)
(** * Instances of the properties of encryption

    With a block cipher that reverses blocks. *)

From S2P Require Import Prelude Bytes ChaCha Crypto CryptoProps.

#[global] Instance reversal : Aes256 := {| encrypt_block _ b := reverse b; decrypt_block _ b := reverse b |}.
#[global] Instance reversal_laws : Aes256Laws.
Proof.
  assert (∀ b, block b → block (reverse b)) as Hr by (intros b [Hl Hb]; split; [by rewrite length_reverse|by apply Forall_reverse]).
  split; [by intros key b; apply Hr..|]. intros key b _. apply reverse_involutive.
Qed.

Module CryptoDemo.
Definition key : UnwrappedKey := replicate 32 7.
Definition set : CipherSet := CipherSet.new [(0, None); (1, Some key)].
Definition file_key : Key := mkKey set 1.
Lemma has_file_key : has_key file_key.
Proof. exists key. reflexivity. Qed.

Definition sectors (b : Z) : list Z := replicate 512 b.
Lemma sectors_bytes b : is_u8 b → bytes (sectors b).
Proof. apply Forall_replicate. Qed.
Lemma file_data_roundtrip_witness : ∃ ea eb ec, Key.encrypt file_key 4096 1024 (sectors 1 ++ sectors 2 ++ [3; 4]) = Ok (ea ++ eb ++ ec) ∧
  length eb = 512%nat ∧ Key.decrypt file_key 16 1536 eb = Ok (sectors 2).
Proof.
  destruct (file_data_roundtrip file_key 4096 16 1024 (sectors 1) (sectors 2) [3; 4] has_file_key eq_refl eq_refl) as (ea & eb & ec & H1 & H2 & H3 & H4 & H5).
  - lia.
  - reflexivity.
  - apply Forall_app. split; [apply sectors_bytes; unfold is_u8; lia|]. apply Forall_app. split; [apply sectors_bytes; unfold is_u8; lia|]. repeat (apply Forall_cons; split; [unfold is_u8; lia|]). apply Forall_nil. exact I.
  - reflexivity.
  - left. reflexivity.
  - discriminate.
  - exists ea, eb, ec. exact (conj H1 (conj H3 H5)).
Defined.

Lemma filename_roundtrip_witness : ∃ out, Key.encrypt_filename file_key 2 [102; 105; 108; 101] = Ok out ∧ Z.of_nat (length out) = 16 ∧ Key.decrypt_filename file_key 2 out = Ok [102; 105; 108; 101].
Proof.
  destruct (filename_roundtrip file_key 2 [102; 105; 108; 101] has_file_key) as (out & H1 & H2 & H3).
  - split; [lia|]. discriminate.
  - repeat (apply Forall_cons; split; [unfold is_u8; lia|]). apply Forall_nil. exact I.
  - discriminate.
  - exists out. exact (conj H1 (conj H2 H3)).
Defined.

Lemma ff1_permutation_witness : ∃ e, Ff1.encrypt (Ff1.new key) 999 = Ok e ∧ Ff1.decrypt (Ff1.new key) e = Ok 999.
Proof. destruct (ff1_permutation key 999) as [(e & H1 & _ & H2) _]; [lia|]. exists e. exact (conj H1 H2). Defined.

Lemma stream_cipher_roundtrip_witness : ∃ c c1 ea eb d d', StreamCipher.new key 60 = Ok c ∧ StreamCipher.encrypt c [1; 2; 3; 4; 5; 6] = Ok (c1, ea) ∧
  StreamCipher.offset c1 = Ok 66 ∧ StreamCipher.new key 66 = Ok d ∧ StreamCipher.decrypt d eb = Ok (d', [7; 8]).
Proof.
  destruct (stream_cipher_roundtrip key 60 [1; 2; 3; 4; 5; 6] [7; 8] eq_refl ltac:(lia)) as (c & c1 & c2 & c12 & d & d' & ea & eb & H1 & H2 & _ & _ & H3 & _ & H4 & H5 & _); [discriminate|].
  exists c, c1, ea, eb, d, d'. exact (conj H1 (conj H2 (conj H3 (conj H4 H5)))).
Defined.

Lemma unwrapped_keys_found_witness : found (CipherSet.new [(2, Some key); (1, None)]) 2 = Some (Some key).
Proof.
  rewrite (unwrapped_keys_found (λ (w : bool) _, if w then inr key else inl NOT_FOUND) 5 [(1, false); (2, true)] [(2, true); (1, false)] [(2, Some key); (1, None)]).
  - reflexivity.
  - refine (bool_decide_unpack _ _). exact I.
  - apply perm_swap.
  - reflexivity.
Defined.
End CryptoDemo.
