(* ===== verification/Directory.v ===== *)
(** * Directories

    [fxfs/src/object_store/directory.rs]: how names are stored and looked up in
    plain, case-insensitive and encrypted directories, iteration, and the
    functions that add, replace and remove children in a transaction, with what
    they use of [object_store.rs] and [transaction.rs].  The tree is its
    contents, the list of its records in the order of the keys; that the trees
    of the store implement this is the subject of [ObjTree].  The key manager
    and the base64 library are parameters. *)

From S2P Require Import Prelude Bytes Unicode UnicodeIter LsmTypes ObjectRecord BloomFilter ChaCha Crypto.

(** ** [FxHasher], on bytes *)
Module FxHash.
(** Eight bytes at a time, as many as there are; [fuel] bounds their number. *)
Fixpoint write_words (fuel : nat) (hash : Z) (bytes : list Z) : Z * list Z :=
  match fuel with
  | O => (hash, bytes)
  | S fuel =>
      if decide (8 ≤ length bytes)%nat then write_words fuel (FxHasher.add_to_hash hash (le_combine (take 8 bytes))) (drop 8 bytes)
      else (hash, bytes)
  end.
Definition write_part (n : nat) (hb : Z * list Z) : Z * list Z :=
  let '(hash, bytes) := hb in
  if decide (n ≤ length bytes)%nat then (FxHasher.add_to_hash hash (le_combine (take n bytes)), drop n bytes) else (hash, bytes).
Definition write (hash : Z) (bytes : list Z) : Z := (write_part 1 (write_part 2 (write_part 4 (write_words (length bytes) hash bytes)))).1.
Definition write_int (hash i : Z) : Z := FxHasher.add_to_hash hash i.

(** [str::hash] and [Vec<u8>::hash]. *)
Definition hash_str (hash : Z) (name : list Z) : Z := write_int (write hash (Utf8.as_bytes name)) 0xff.
Definition hash_bytes (hash : Z) (raw : list Z) : Z := write (write_int hash (Z.of_nat (length raw))) raw.
End FxHash.

(** [String::from_utf8]: bytes that are those of a string. *)
Definition from_utf8 (raw : list Z) : option (list Z) :=
  let s := Utf8.chars raw in
  if decide (Utf8.as_bytes s = raw) then mapM Generator.from_u32 s else None.

(** [BASE64_URL_SAFE_NO_PAD] *)
Class Base64 : Type := {
  base64_encode : list Z → list Z;
  base64_decode : list Z → option (list Z);
}.
Class Base64Laws `{Base64} : Prop := {
  base64_roundtrip data : Forall is_u8 data → base64_decode (base64_encode data) = Some data;
  base64_empty : base64_encode [] = [];
}.

(** ** Synthetic names *)
Record SyntheticFilename : Set := mkSynthetic { sf_casefold_hash : Z; raw_prefix : list Z; raw_hash : Z }.
#[global] Instance SyntheticFilename_eq_dec : EqDecision SyntheticFilename.
Proof. solve_decision. Defined.

Module SyntheticFilename.
Definition raw_filename_to_raw_hash (raw : list Z) : Z := FxHasher.finish (FxHash.hash_bytes FxHasher.default raw).
Definition decode `{Base64} (synthetic_filename : list Z) : SyntheticFilename :=
  let data := match base64_decode synthetic_filename with Some data => data | None => replicate 12 0 end in
  let data := if (length data <? 12)%nat then data ++ replicate (12 - length data) 0 else data in
  mkSynthetic (le_combine (take 4 data)) (drop 12 data) (le_combine (take 8 (drop 4 data))).
(** [copy_from_slice] of a longer prefix panics. *)
Definition encode `{Base64} (f : SyntheticFilename) : res (list Z) :=
  let len := Nat.min (length (raw_prefix f)) 48 in
  _ ← rassert (length (raw_prefix f) =? len)%nat;
  Ok (base64_encode (le_split 4 (sf_casefold_hash f) ++ le_split 8 (raw_hash f) ++ raw_prefix f)).
Definition from_object_key (casefold_hash : Z) (raw : list Z) : SyntheticFilename :=
  mkSynthetic casefold_hash (take 48 raw) (raw_filename_to_raw_hash raw).
Definition to_query_key (f : SyntheticFilename) (object_id : Z) : ObjectKey :=
  ObjectKey.encrypted_child object_id (raw_prefix f) (sf_casefold_hash f).
End SyntheticFilename.

(** ** The tree *)
Abbreviation ObjectItem := (Item ObjectKey ObjectValue).
Abbreviation contents := (list ObjectItem).
Section tree.
Context (normal_form : list Z → list Z).
Abbreviation cmp := (object_cmp_upper_bound normal_form).
Definition same_key (a b : ObjectKey) : bool := match cmp a b with Eq => true | _ => false end.
(** [LSMTree::find] of keys that are no extents *)
Definition tree_find (t : contents) (k : ObjectKey) : option ObjectItem :=
  match list_find (λ i, same_key (key i) k) t with
  | Some (_, i) => if decide (value i = VNone) then None else Some i
  | None => None
  end.
(** What [Query::FullRange] iterates over. *)
Definition tree_query (t : contents) (k : ObjectKey) : contents := filter (λ i, cmp (key i) k ≠ Lt) t.
(** [LSMTree::replace_or_insert] *)
Fixpoint tree_replace_or_insert (t : contents) (i : ObjectItem) : contents :=
  match t with
  | [] => [i]
  | j :: t' =>
      match cmp (key i) (key j) with
      | Lt => i :: t
      | Eq => i :: t'
      | Gt => j :: tree_replace_or_insert t' i
      end
  end.
End tree.

(** ** Transactions

    The mutations of one store, at most one for a key; the assertion that their
    locks are held is left out.  Merging, an operation that nothing here asks
    for, is left out too.  [tombstones] are the objects queued for the
    graveyard's task. *)
Inductive Operation : Set := OpInsert | OpReplaceOrInsert.
Record ObjectStoreMutation : Set := mkMutation { mitem : ObjectItem; op : Operation }.
Record Transaction : Set := mkTransaction { mutations : list ObjectStoreMutation; tombstones : list Z }.
Module Transaction.
Section txn.
Context (normal_form : list Z → list Z).
Definition add (m : ObjectStoreMutation) (t : Transaction) : Transaction :=
  mkTransaction (filter (λ m', negb (same_key normal_form (key (mitem m')) (key (mitem m)))) (mutations t) ++ [m]) (tombstones t).
Definition get_object_mutation (t : Transaction) (k : ObjectKey) : option ObjectStoreMutation :=
  snd <$> list_find (λ m, same_key normal_form (key (mitem m)) k) (mutations t).
(** Applying the mutations to the tree; a record that was not there is inserted
    as others are replaced, and keeps its sequence number. *)
Definition apply (t : Transaction) (tree : contents) : contents := foldl (λ tree m, tree_replace_or_insert normal_form tree (mitem m)) tree (mutations t).
End txn.
End Transaction.

Definition insert_object (k : ObjectKey) (v : ObjectValue) : ObjectStoreMutation := mkMutation (Item.new k v) OpInsert.
Definition replace_or_insert_object (k : ObjectKey) (v : ObjectValue) : ObjectStoreMutation := mkMutation (Item.new k v) OpReplaceOrInsert.

(** ** Directories *)
Record Directory : Set := mkDirectory { dir_object_id : Z; is_deleted : bool; dir_casefold : bool; dir_wrapping_key_id : option Z }.
#[global] Instance Directory_eq_dec : EqDecision Directory.
Proof. solve_decision. Defined.
Record DirectoryIterator : Set := mkDirIter { di_object_id : Z; di_iter : contents; di_key : option Key; di_filename : option (list Z) }.
Inductive ReplacedChild : Set := ReplacedNone | ReplacedObject (id : Z) | ReplacedObjectWithRemainingLinks (id : Z) | ReplacedDirectory (id : Z).

Record MutableAttributesInternal : Set := mkMutable { sub_dirs : Z; ma_change_time : option Timestamp; ma_modification_time : option Z; ma_creation_time : option Z }.

Definition INVALID_OBJECT_ID : Z := 0.
(** What [update_attributes] reads of [fio::MutableNodeAttributes], and whether
    any other attribute is given. *)
Record MutableNodeAttributes : Set := mkNodeAttributes {
  na_creation_time : option Z; na_modification_time : option Z; na_access_time : option Z;
  na_mode : option Z; na_uid : option Z; na_gid : option Z; na_rdev : option Z; na_others : bool
}.
#[global] Instance MutableNodeAttributes_eq_dec : EqDecision MutableNodeAttributes.
Proof. solve_decision. Defined.
Definition empty_attributes : MutableNodeAttributes := mkNodeAttributes None None None None None None None false.
Definition set_times (a : ObjectAttributes) (creation modification change : Timestamp) : ObjectAttributes :=
  mkAttributes creation modification (project_id a) (posix_attributes a) (allocated_size a) (access_time a) change.

Section directory.
Context `{Aes256, Base64} (T : Tables) (normal_form : list Z → list Z).
(** [get_fscrypt_key] of the directory with an ID, the address of the hash on
    the stack, the graveyard, and the fuel of the comparisons of names. *)
Context (fscrypt_key : Z → res (option Key)) (addr graveyard_id : Z) (fuel : nat).

(** *** Names *)
Definition get_casefold_hash (key : option Key) (name : list Z) (casefold : bool) : res Z :=
  match name with
  | [] => Ok 0
  | _ =>
      hasher ← (if casefold then casefold_hash T FxHash.write_int fuel name FxHasher.default else Ok (FxHash.hash_str FxHasher.default name));
      let hash := FxHasher.finish hasher `mod` 2 ^ 32 in
      match key with
      | Some key => match Key.encrypt key addr 0 (le_split 4 hash) with Ok bytes => Ok (le_combine bytes) | Err _ => Panic | Panic => Panic | NoFuel => NoFuel end
      | None => Ok hash
      end
  end.
Definition encrypt_filename (key : Key) (object_id : Z) (name : list Z) : res (list Z) := Key.encrypt_filename key object_id (Utf8.as_bytes name).
Definition decrypt_filename (key : Key) (object_id : Z) (data : list Z) : res (list Z) :=
  raw ← Key.decrypt_filename key object_id data;
  match from_utf8 raw with Some s => Ok s | None => Err Other end.

(** The key under which a child is stored in an encrypted directory. *)
Definition encrypted_key (k : Key) (d : Directory) (name : list Z) : res ObjectKey :=
  casefold_hash ← get_casefold_hash (Some k) name (dir_casefold d);
  encrypted_name ← encrypt_filename k (dir_object_id d) name;
  Ok (ObjectKey.encrypted_child (dir_object_id d) encrypted_name casefold_hash).

(** *** [lookup] *)

(** The loop over the children with one hash, until a name is equal. *)
Fixpoint lookup_casefold (k : Key) (d : Directory) (name : list Z) (hash : Z) (items : contents) : res (option ObjectItem) :=
  match items with
  | [] => Ok None
  | i :: items =>
      if decide (value i = VNone) then lookup_casefold k d name hash items
      else
        match key i with
        | mkObjectKey object_id (KEncryptedChild casefold_hash encrypted_name) =>
            if (object_id =? dir_object_id d) && (casefold_hash =? hash) then
              decrypted_name ← decrypt_filename k (dir_object_id d) encrypted_name;
              c ← casefold_cmp T fuel name decrypted_name;
              match c with Eq => Ok (Some i) | _ => lookup_casefold k d name hash items end
            else Ok None
        | _ => Ok None
        end
  end.
(** The loop that looks for a synthetic name. *)
Fixpoint lookup_synthetic (d : Directory) (target : SyntheticFilename) (items : contents) : option ObjectItem :=
  match items with
  | [] => None
  | i :: items =>
      if decide (value i = VNone) then lookup_synthetic d target items
      else
        match key i with
        | mkObjectKey object_id (KEncryptedChild casefold_hash name) =>
            if (object_id =? dir_object_id d) && (casefold_hash =? sf_casefold_hash target) then
              if decide (SyntheticFilename.from_object_key casefold_hash name = target) then Some i else lookup_synthetic d target items
            else None
        | _ => None
        end
  end.
Definition lookup_item (t : contents) (d : Directory) (name : list Z) : res (option ObjectItem) :=
  match dir_wrapping_key_id d with
  | Some _ =>
      k ← fscrypt_key (dir_object_id d);
      match k with
      | Some k =>
          if negb (dir_casefold d) then key ← encrypted_key k d name; Ok (tree_find normal_form t key)
          else
            hash ← get_casefold_hash (Some k) name (dir_casefold d);
            lookup_casefold k d name hash (tree_query normal_form t (ObjectKey.encrypted_child (dir_object_id d) [] hash))
      | None =>
          let target := SyntheticFilename.decode name in
          Ok (lookup_synthetic d target (tree_query normal_form t (SyntheticFilename.to_query_key target (dir_object_id d))))
      end
  | None => Ok (tree_find normal_form t (ObjectKey.child (dir_object_id d) name (dir_casefold d)))
  end.
Definition lookup (t : contents) (d : Directory) (name : list Z) : res (option (Z * ObjectDescriptor)) :=
  if is_deleted d then Ok None
  else
    item ← lookup_item t d name;
    match item with
    | None => Ok None
    | Some i =>
        match value i with
        | VNone => Ok None
        | VChild c => Ok (Some (child_object_id c, object_descriptor c))
        | _ => Err (Fxfs Inconsistent)
        end
    end.

(** *** Iteration *)
Definition update_encrypted_filename (it : DirectoryIterator) (object_id casefold_hash : Z) (name : list Z) : res DirectoryIterator :=
  filename ← match di_key it with
             | Some k => raw ← Key.decrypt_filename k object_id name;
                         match from_utf8 raw with Some s => Ok s | None => Err (Fxfs Internal) end
             | None => SyntheticFilename.encode (SyntheticFilename.from_object_key casefold_hash name)
             end;
  Ok (mkDirIter (di_object_id it) (di_iter it) (di_key it) (Some filename)).

Definition dir_iter_get (it : DirectoryIterator) : res (option (list Z * Z * ObjectDescriptor)) :=
  match di_iter it with
  | mkItem (mkObjectKey oid (KChild name)) (VChild c) _ :: _
  | mkItem (mkObjectKey oid (KCasefoldChild name)) (VChild c) _ :: _ =>
      Ok (if oid =? di_object_id it then Some (name, child_object_id c, object_descriptor c) else None)
  | mkItem (mkObjectKey oid (KEncryptedChild _ _)) (VChild c) _ :: _ =>
      if oid =? di_object_id it then filename ← unwrap (di_filename it); Ok (Some (filename, child_object_id c, object_descriptor c)) else Ok None
  | _ => Ok None
  end.

(** Deleted entries of the directory are skipped. *)
Fixpoint skip_deleted (object_id : Z) (items : contents) : contents :=
  match items with
  | i :: items' => if decide (value i = VNone ∧ ObjectRecord.object_id (key i) = object_id) then skip_deleted object_id items' else items
  | [] => []
  end.
Definition dir_iter_advance (it : DirectoryIterator) : res DirectoryIterator :=
  let it := mkDirIter (di_object_id it) (skip_deleted (di_object_id it) (tail (di_iter it))) (di_key it) (di_filename it) in
  match di_iter it with
  | mkItem (mkObjectKey object_id (KEncryptedChild casefold_hash name)) (VChild _) _ :: _ =>
      if object_id =? di_object_id it then update_encrypted_filename it object_id casefold_hash name else Ok it
  | _ => Ok it
  end.

(** Where the search for the requested name ends. *)
Fixpoint iter_search (object_id : Z) (requested : option SyntheticFilename) (items : contents) : contents :=
  match items with
  | [] => []
  | i :: items' =>
      if decide (value i = VNone ∧ ObjectRecord.object_id (key i) = object_id) then iter_search object_id requested items'
      else
        match key i, requested with
        | mkObjectKey oid (KEncryptedChild casefold_hash name), Some requested_filename =>
            if oid =? object_id then
              if decide (SyntheticFilename.from_object_key casefold_hash name = requested_filename) then items
              else iter_search object_id requested items'
            else items
        | _, _ => items
        end
  end.
Definition iter_from (t : contents) (d : Directory) (from : list Z) : res DirectoryIterator :=
  _ ← rensure (negb (is_deleted d)) (Fxfs Deleted);
  '(query_key, requested_filename) ←
    match dir_wrapping_key_id d with
    | Some _ =>
        k ← fscrypt_key (dir_object_id d);
        match k with
        | Some k => key ← encrypted_key k d from; Ok (key, None)
        | None =>
            let filename := SyntheticFilename.decode from in
            Ok (SyntheticFilename.to_query_key filename (dir_object_id d), match from with [] => None | _ => Some filename end)
        end
    | None => Ok (ObjectKey.child (dir_object_id d) from (dir_casefold d), None)
    end;
  let iter := iter_search (dir_object_id d) requested_filename (tree_query normal_form t query_key) in
  k ← match dir_wrapping_key_id d with Some _ => fscrypt_key (dir_object_id d) | None => Ok None end;
  let it := mkDirIter (dir_object_id d) iter k None in
  match iter with
  | mkItem (mkObjectKey object_id (KEncryptedChild casefold_hash name)) _ _ :: _ => update_encrypted_filename it object_id casefold_hash name
  | _ => Ok it
  end.
Definition has_children (t : contents) (d : Directory) : res bool :=
  if is_deleted d then Ok false
  else
    it ← iter_from t d [];
    c ← dir_iter_get it;
    Ok match c with Some _ => true | None => false end.

(** *** What is used of the store *)
Definition st_add (m : ObjectStoreMutation) : st Transaction unit := λ txn, (Ok tt, Transaction.add normal_form m txn).

Definition txn_get_object_mutation (t : contents) (object_id : Z) : st Transaction ObjectStoreMutation := λ txn,
  match Transaction.get_object_mutation normal_form txn (ObjectKey.object object_id) with
  | Some m => (Ok m, txn)
  | None =>
      match tree_find normal_form t (ObjectKey.object object_id) with
      | Some i => (Ok (mkMutation i OpReplaceOrInsert), txn)
      | None => (Err (Fxfs Inconsistent), txn)
      end
  end.
Definition with_value (m : ObjectStoreMutation) (v : ObjectValue) : ObjectStoreMutation :=
  mkMutation (mkItem (key (mitem m)) v (sequence (mitem m))) (op m).

Definition add_to_graveyard (object_id : Z) : st Transaction unit :=
  _ ← st_lift (rassert (negb (graveyard_id =? INVALID_OBJECT_ID)));
  st_add (replace_or_insert_object (ObjectKey.graveyard_entry graveyard_id object_id) VSome).

Definition adjust_refs (t : contents) (oid delta : Z) : st Transaction bool :=
  mutation ← txn_get_object_mutation t oid;
  '(refs, with_refs) ←
    match value (mitem mutation) with
    | VObject (KindFile refs) attributes => mret (refs, λ refs, VObject (KindFile refs) attributes)
    | VObject (KindSymlink refs link) attributes => mret (refs, λ refs, VObject (KindSymlink refs link) attributes)
    | _ => st_fail (Fxfs NotFile)
    end;
  _ ← st_lift (rensure ((0 <=? refs + delta) && (refs + delta <=? u64_max)) Other);
  let refs := refs + delta in
  if refs =? 0 then
    _ ← add_to_graveyard oid;
    _ ← (if negb (delta =? -1) then st_add (with_value mutation (with_refs 1)) else mret tt);
    mret true
  else
    _ ← st_add (with_value mutation (with_refs refs));
    mret false.

(** [posix_attributes] after [update_attributes]. *)
Definition update_posix (p : option PosixAttributes) (a : MutableNodeAttributes) : option PosixAttributes :=
  if bool_decide (na_mode a = None ∧ na_uid a = None ∧ na_gid a = None ∧ na_rdev a = None) then p
  else
    let p := default (mkPosix 0 0 0 0) p in
    Some (mkPosix (default (mode p) (na_mode a)) (default (uid p) (na_uid a)) (default (gid p) (na_gid a)) (default (rdev p) (na_rdev a))).
Definition update_node_attributes (at_ : ObjectAttributes) (a : MutableNodeAttributes) : ObjectAttributes :=
  let time old new := match new with Some t => Timestamp.from_nanos t | None => old end in
  mkAttributes (time (creation_time at_) (na_creation_time a)) (time (modification_time at_) (na_modification_time a)) (project_id at_)
    (update_posix (posix_attributes at_) a) (allocated_size at_) (time (access_time at_) (na_access_time a)) (change_time at_).
Definition update_attributes (t : contents) (object_id : Z) (node_attributes : option MutableNodeAttributes) (change_time : option Timestamp) : st Transaction unit :=
  if match change_time, node_attributes with None, None => true | None, Some a => bool_decide (a = empty_attributes) | Some _, _ => false end then mret tt
  else
    mutation ← txn_get_object_mutation t object_id;
    match value (mitem mutation) with
    | VObject kind attributes =>
        let attributes := match change_time with Some time => set_times attributes (creation_time attributes) (modification_time attributes) time | None => attributes end in
        let attributes := match node_attributes with Some a => update_node_attributes attributes a | None => attributes end in
        st_add (with_value mutation (VObject kind attributes))
    | _ => st_fail (Fxfs Inconsistent)
    end.

Definition update_dir_attributes_internal (t : contents) (d : Directory) (a : MutableAttributesInternal) : st Transaction unit :=
  _ ← st_lift (rensure (negb (is_deleted d)) (Fxfs Deleted));
  mutation ← txn_get_object_mutation t (dir_object_id d);
  match value (mitem mutation) with
  | VObject (KindDirectory n wrapping_key_id casefold) attributes =>
      let modification := match ma_modification_time a with Some time => Timestamp.from_nanos time | None => modification_time attributes end in
      let change := match ma_change_time a with Some time => time | None => change_time attributes end in
      let creation := match ma_creation_time a with Some time => Timestamp.from_nanos time | None => creation_time attributes end in
      let n := if negb (sub_dirs a =? 0) then Z.min u64_max (Z.max 0 (n + sub_dirs a)) else n in
      st_add (with_value mutation (VObject (KindDirectory n wrapping_key_id casefold) (set_times attributes creation modification change)))
  | _ => st_fail (Fxfs Inconsistent)
  end.

Definition open (t : contents) (object_id : Z) : res Directory :=
  match tree_find normal_form t (ObjectKey.object object_id) with
  | None => Err (Fxfs NotFound)
  | Some i =>
      match value i with
      | VObject (KindDirectory _ wrapping_key_id casefold) _ => Ok (mkDirectory object_id false casefold wrapping_key_id)
      | _ => Err (Fxfs NotDir)
      end
  end.

(** *** Adding children; [now] is the current time. *)
Definition insert_child (t : contents) (d : Directory) (name : list Z) (object_id : Z) (descriptor : ObjectDescriptor) (now : Timestamp) : st Transaction unit :=
  _ ← st_lift (rensure (negb (is_deleted d)) (Fxfs Deleted));
  let sub_dirs_delta := if decide (descriptor = DDirectory) then 1 else 0 in
  _ ← match dir_wrapping_key_id d with
      | Some _ =>
          _ ← st_lift (rensure (bool_decide (descriptor = DFile ∨ descriptor = DDirectory)) (Fxfs InvalidArgs));
          k ← st_lift (fscrypt_key (dir_object_id d));
          k ← match k with Some k => mret k | None => st_fail (Fxfs NoKey) end;
          key ← st_lift (encrypted_key k d name);
          st_add (replace_or_insert_object key (ObjectValue.child object_id descriptor))
      | None => st_add (replace_or_insert_object (ObjectKey.child (dir_object_id d) name (dir_casefold d)) (ObjectValue.child object_id descriptor))
      end;
  update_dir_attributes_internal t d (mkMutable sub_dirs_delta (Some now) (Some (Timestamp.as_nanos now)) None).

Definition add_child_file (t : contents) (d : Directory) (name : list Z) (file_object_id : Z) (now : Timestamp) : st Transaction unit :=
  _ ← st_lift (rensure (negb (is_deleted d)) (Fxfs Deleted));
  _ ← match dir_wrapping_key_id d with
      | Some _ =>
          k ← st_lift (fscrypt_key (dir_object_id d));
          k ← match k with Some k => mret k | None => st_fail (Fxfs NoKey) end;
          key ← st_expect (st_lift (encrypted_key k d name));
          st_add (replace_or_insert_object key (ObjectValue.child file_object_id DFile))
      | None => st_add (replace_or_insert_object (ObjectKey.child (dir_object_id d) name (dir_casefold d)) (ObjectValue.child file_object_id DFile))
      end;
  update_dir_attributes_internal t d (mkMutable 0 (Some now) (Some (Timestamp.as_nanos now)) None).

(** [symlink_id] is the next object ID, [t1], [t2] and [t3] are the times. *)
Definition create_symlink (t : contents) (d : Directory) (link name : list Z) (symlink_id : Z) (t1 t2 t3 : Timestamp) : st Transaction Z :=
  _ ← st_lift (rensure (negb (is_deleted d)) (Fxfs Deleted));
  _ ← st_lift (rensure (Z.of_nat (length link) <=? 256) (Fxfs BadPath));
  _ ← st_add (insert_object (ObjectKey.object symlink_id) (ObjectValue.symlink link t1 t2 0));
  _ ← st_add (replace_or_insert_object (ObjectKey.child (dir_object_id d) name (dir_casefold d)) (ObjectValue.child symlink_id DSymlink));
  _ ← update_dir_attributes_internal t d (mkMutable 0 None (Some (Timestamp.as_nanos t3)) None);
  mret symlink_id.

Definition add_child_volume (t : contents) (d : Directory) (volume_name : list Z) (store_object_id : Z) (now : Timestamp) : st Transaction unit :=
  _ ← st_lift (rensure (negb (is_deleted d)) (Fxfs Deleted));
  _ ← st_add (replace_or_insert_object (ObjectKey.child (dir_object_id d) volume_name (dir_casefold d)) (ObjectValue.child store_object_id DVolume));
  update_dir_attributes_internal t d (mkMutable 0 (Some now) (Some (Timestamp.as_nanos now)) None).

(** The directory after the transaction, which is committed here. *)
Definition set_casefold (t : contents) (d : Directory) (val : bool) : st Transaction Directory :=
  b ← st_lift (has_children t d);
  _ ← st_lift (rensure (negb b) (Fxfs InvalidArgs));
  mutation ← txn_get_object_mutation t (dir_object_id d);
  match value (mitem mutation) with
  | VObject (KindDirectory n wrapping_key_id _) attributes =>
      _ ← st_add (with_value mutation (VObject (KindDirectory n wrapping_key_id val) attributes));
      mret (mkDirectory (dir_object_id d) (is_deleted d) val (dir_wrapping_key_id d))
  | _ => st_fail (Fxfs Inconsistent)
  end.

(** *** Replacing and removing children *)

Definition queue_tombstone_object (object_id : Z) : st Transaction unit := λ txn, (Ok tt, mkTransaction (mutations txn) (tombstones txn ++ [object_id])).

(** What happens to the object that had the name. *)
Definition release_child (t : contents) (old : option (Z * ObjectDescriptor)) (has_src : bool) (timestamp : Timestamp) : st Transaction (ReplacedChild * Z) :=
  match old with
  | Some (old_id, DFile) | Some (old_id, DSymlink) =>
      was_last_ref ← adjust_refs t old_id (-1);
      _ ← update_attributes t old_id None (Some timestamp);
      mret (if was_last_ref : bool then ReplacedObject old_id else ReplacedObjectWithRemainingLinks old_id, 0)
  | Some (old_id, DDirectory) =>
      dir ← st_lift (open t old_id);
      b ← st_lift (has_children t dir);
      _ ← st_lift (rensure (negb b) (Fxfs NotEmpty));
      _ ← add_to_graveyard old_id;
      _ ← queue_tombstone_object old_id;
      mret (ReplacedDirectory old_id, -1)
  | Some (_, DVolume) => st_fail (Fxfs Inconsistent)
  | None => if has_src : bool then mret (ReplacedNone, 0) else st_fail (Fxfs NotFound)
  end.
(** The mutation of the directory's entry. *)
Definition replace_entry (t : contents) (dst : Directory) (name : list Z) (new_value : ObjectValue) : st Transaction unit :=
  match dir_wrapping_key_id dst with
  | Some _ =>
      k ← st_lift (fscrypt_key (dir_object_id dst));
      match k with
      | Some k => key ← st_lift (encrypted_key k dst name); st_add (replace_or_insert_object key new_value)
      | None =>
          _ ← st_lift (rensure (bool_decide (new_value = VNone)) (Fxfs NoKey));
          let synthetic_filename := SyntheticFilename.decode name in
          iter ← st_lift (iter_from t dst name);
          match di_iter iter with
          | i :: _ =>
              match data (key i) with
              | KEncryptedChild casefold_hash raw =>
                  if decide (SyntheticFilename.from_object_key casefold_hash raw = synthetic_filename) then st_add (replace_or_insert_object (key i) new_value)
                  else st_fail (Fxfs NotFound)
              | _ => st_fail (Fxfs NotFound)
              end
          | [] => st_fail (Fxfs NotFound)
          end
      end
  | None => st_add (replace_or_insert_object (ObjectKey.child (dir_object_id dst) name (dir_casefold dst)) new_value)
  end.
Definition replace_child_with_object (t : contents) (src : option (Z * ObjectDescriptor)) (dst : Directory) (name : list Z) (sub_dirs_delta : Z) (timestamp : Timestamp)
    : st Transaction ReplacedChild :=
  old ← st_lift (lookup t dst name);
  '(result, delta) ← release_child t old (match src with Some _ => true | None => false end) timestamp;
  let new_value := match src with Some (id, descriptor) => ObjectValue.child id descriptor | None => VNone end in
  _ ← replace_entry t dst name new_value;
  _ ← update_dir_attributes_internal t dst (mkMutable (sub_dirs_delta + delta) (Some timestamp) (Some (Timestamp.as_nanos timestamp)) None);
  mret result.

Definition replace_child (t : contents) (src : option (Directory * list Z)) (dst : Directory) (name : list Z) (now : Timestamp) : st Transaction ReplacedChild :=
  '(src, sub_dirs_delta) ←
    match src with
    | Some (src_dir, src_name) =>
        _ ← match dir_wrapping_key_id src_dir, dir_wrapping_key_id dst with
            | Some src_id, Some dst_id =>
                _ ← st_lift (rensure (src_id =? dst_id) (Fxfs NotSupported));
                k ← st_lift (fscrypt_key (dir_object_id src_dir));
                k ← match k with Some k => mret k | None => st_fail (Fxfs NoKey) end;
                key ← st_lift (encrypted_key k src_dir src_name);
                st_add (replace_or_insert_object key VNone)
            | None, None => st_add (replace_or_insert_object (ObjectKey.child (dir_object_id src_dir) src_name (dir_casefold src_dir)) VNone)
            | _, _ => st_fail (Fxfs NotSupported)
            end;
        found ← st_lift (lookup t src_dir src_name);
        '(id, descriptor) ← match found with Some x => mret x | None => st_fail (Fxfs NotFound) end;
        _ ← update_attributes t id None (Some now);
        if negb (dir_object_id src_dir =? dir_object_id dst) then
          let sub_dirs_delta := if decide (descriptor = DDirectory) then 1 else 0 in
          _ ← update_dir_attributes_internal t src_dir (mkMutable (- sub_dirs_delta) (Some now) (Some (Timestamp.as_nanos now)) None);
          mret (Some (id, descriptor), sub_dirs_delta)
        else mret (Some (id, descriptor), 0)
    | None => mret (None, 0)
    end;
  replace_child_with_object t src dst name sub_dirs_delta now.
End directory.
