(* ===== verification/DirectoryProps.v ===== *)
(** * Directories as maps of names

    What a transaction does to the records that [tree_find] finds; then adding,
    renaming and removing children as updates of a map from names to children,
    the names that directories show without their key, and names whose hash is
    stored as it is. *)

From S2P Require Import Prelude Round Bytes Unicode UnicodeIter Extent LsmTypes ObjectRecord MergeProps ObjectKeyOrder BloomFilter ChaCha Crypto CryptoProps Directory.

(** ** Records and transactions *)
Section view.
Context (normal_form : list Z → list Z).
Abbreviation cmp := (object_cmp_upper_bound normal_form).
Abbreviation same := (same_key normal_form).
Abbreviation place := (code normal_form (λ e, end_ (ek_range e))).

Lemma same_place a b : same a b = true ↔ place a = place b.
Proof.
  unfold same_key. rewrite cmp_upper_code. split; [|intros ->; by rewrite seq_cmp_refl]. intros He. apply seq_cmp_Eq. by destruct (seq_cmp _ _).
Qed.
Lemma same_cases a b : (same a b = true ∧ place a = place b) ∨ (same a b = false ∧ place a ≠ place b).
Proof. destruct (same a b) eqn:E; [left; split; [done|by apply same_place]|right; split; [done|]]. intros He. apply same_place in He. congruence. Qed.
Lemma same_Eq a b : cmp a b = Eq → same a b = true.
Proof. unfold same_key. by intros ->. Qed.

(** A record that is not deleted. *)
Definition live (i : ObjectItem) : option ObjectItem := if decide (value i = VNone) then None else Some i.

Lemma find_place t k : tree_find normal_form t k = match list_find (λ i, same (key i) k) t with Some (_, i) => live i | None => None end.
Proof. done. Qed.
Lemma find_cons i t k : tree_find normal_form (i :: t) k = if same (key i) k then live i else tree_find normal_form t k.
Proof.
  unfold tree_find, live. cbn [list_find]. destruct (same (key i) k) eqn:E; [rewrite decide_True by done; done|rewrite decide_False by (intros H; destruct H; congruence)].
  destruct (list_find _ t) as [[n j]|]; done.
Qed.
Lemma find_insert t i k : tree_find normal_form (tree_replace_or_insert normal_form t i) k = if same (key i) k then live i else tree_find normal_form t k.
Proof.
  induction t as [|j t IH]; cbn [tree_replace_or_insert]; [by rewrite find_cons|]. destruct (cmp (key i) (key j)) eqn:E.
  - rewrite !find_cons. apply same_Eq, same_place in E. destruct (same_cases (key i) k) as [[-> He]|[-> He]]; [done|]. destruct (same_cases (key j) k) as [[_ Hj]|[-> _]]; [congruence|done].
  - by rewrite !find_cons.
  - rewrite !find_cons, IH. destruct (same_cases (key i) k) as [[-> He]|[-> He]]; [|done]. destruct (same_cases (key j) k) as [[_ Hj]|[-> _]]; [|done].
    assert (same (key i) (key j) = true) as Hs by (apply same_place; congruence). unfold same_key in Hs. by rewrite E in Hs.
Qed.

(** No two mutations have one key. *)
Definition distinct (txn : Transaction) : Prop := StronglySorted (λ a b, same (key (mitem a)) (key (mitem b)) = false) (mutations txn).
(** What a transaction leaves in the tree when it is committed. *)
Definition view (t : contents) (txn : Transaction) (k : ObjectKey) : option ObjectItem := tree_find normal_form (Transaction.apply normal_form txn t) k.
Definition empty : Transaction := mkTransaction [] [].

Lemma view_mutations t txn k : view t txn k = foldl (λ found m, if same (key (mitem m)) k then live (mitem m) else found) (tree_find normal_form t k) (mutations txn).
Proof.
  unfold view, Transaction.apply. generalize (mutations txn). intros l. revert t. induction l as [|m l IH]; intros t; [done|]. cbn [foldl]. by rewrite IH, find_insert.
Qed.
Lemma view_add t m txn k : view t (Transaction.add normal_form m txn) k = if same (key (mitem m)) k then live (mitem m) else view t txn k.
Proof.
  rewrite !view_mutations. unfold Transaction.add. cbn [mutations]. rewrite foldl_app. cbn [foldl]. destruct (same_cases (key (mitem m)) k) as [[-> He]|[-> He]]; [done|].
  generalize (tree_find normal_form t k). induction (mutations txn) as [|m' l IH]; intros o; [done|]. rewrite filter_cons. cbn [foldl].
  destruct (same_cases (key (mitem m')) (key (mitem m))) as [[-> Hm]|[-> Hm]]; cbn [negb].
  - rewrite decide_False by (intros []). rewrite IH. f_equal. destruct (same_cases (key (mitem m')) k) as [[_ Hk]|[-> _]]; [congruence|done].
  - rewrite decide_True by done. cbn [foldl]. by rewrite IH.
Qed.
Lemma distinct_add m txn : distinct txn → distinct (Transaction.add normal_form m txn).
Proof.
  unfold distinct, Transaction.add. cbn [mutations]. induction 1 as [|m' l Hl IH Hm]; [repeat constructor|]. rewrite filter_cons.
  destruct (same_cases (key (mitem m')) (key (mitem m))) as [[-> _]|[He _]]; cbn [negb]; [by rewrite decide_False by (intros [])|rewrite He; cbn [negb]].
  rewrite decide_True by done. cbn [app]. constructor; [done|]. apply Forall_app. split; [|by constructor]. apply Forall_forall. intros x [_ Hx]%list_elem_of_filter. by apply (proj1 (Forall_forall _ _) Hm).
Qed.
Lemma distinct_empty : distinct empty.
Proof. constructor. Qed.
Lemma view_empty t k : view t empty k = tree_find normal_form t k.
Proof. done. Qed.

(** The mutation that the store edits is of the record in view. *)
Lemma mutations_get t txn k : distinct txn → view t txn k = match Transaction.get_object_mutation normal_form txn k with Some m => live (mitem m) | None => tree_find normal_form t k end.
Proof.
  unfold distinct. rewrite view_mutations. unfold Transaction.get_object_mutation. generalize (tree_find normal_form t k). induction (mutations txn) as [|m l IH]; intros o Hd; [done|]. apply StronglySorted_inv in Hd as [Hd Hm].
  cbn [foldl list_find]. rewrite IH by done. destruct (same_cases (key (mitem m)) k) as [[Es He]|[Es He]]; rewrite Es.
  - rewrite decide_True by done. cbn. destruct (list_find (λ m, same (key (mitem m)) k) l) as [[n m']|] eqn:El; [|done]. apply list_find_Some in El as (Hl & Hs%Is_true_true & _). cbn.
    assert (same (key (mitem m)) (key (mitem m')) = false) as Hn by (by apply list_elem_of_lookup_2, (proj1 (Forall_forall _ _) Hm) in Hl). apply same_place in Hs. destruct (same_cases (key (mitem m)) (key (mitem m'))); intuition congruence.
  - rewrite decide_False by (intros []). cbn. by destruct (list_find (λ m, same (key (mitem m)) k) l) as [[n m']|].
Qed.
Lemma live_Some i j : live i = Some j → j = i ∧ value i ≠ VNone.
Proof. unfold live. destruct (decide _); [done|]. by intros [= ->]. Qed.
Lemma find_Some t k i : tree_find normal_form t k = Some i → same (key i) k = true ∧ i ∈ t ∧ value i ≠ VNone.
Proof.
  rewrite find_place. destruct (list_find _ t) as [[n j]|] eqn:E; [|done]. apply list_find_Some in E as (Hl & Hs%Is_true_true & _). intros [-> Hv]%live_Some. split_and!; [done|by eapply list_elem_of_lookup_2|done].
Qed.
Lemma txn_get_view t txn oid i : distinct txn → view t txn (ObjectKey.object oid) = Some i →
  ∃ o, txn_get_object_mutation normal_form t oid txn = (Ok (mkMutation i o), txn) ∧ place (key i) = [oid; 0].
Proof.
  intros Hd. rewrite mutations_get by done. unfold txn_get_object_mutation. destruct (Transaction.get_object_mutation _ _ _) as [m|] eqn:Em.
  - intros [-> _]%live_Some. exists (op m). destruct m as [mi o]. split; [done|]. unfold Transaction.get_object_mutation in Em. destruct (list_find _ _) as [[n m']|] eqn:El; [|done]. injection Em as ->. by apply list_find_Some in El as (_ & Hs%Is_true_true%same_place & _).
  - intros Hf. rewrite Hf. exists OpReplaceOrInsert. split; [done|]. by apply find_Some in Hf as (Hs%same_place & _).
Qed.
End view.

(** ** The store's operations, as updates of what a transaction shows *)
Section store.
Context (normal_form : list Z → list Z) (graveyard_id : Z) (t : contents).
Abbreviation same := (same_key normal_form).
Abbreviation place := (code normal_form (λ e, end_ (ek_range e))).
Definition shows (txn : Transaction) (k : ObjectKey) : option ObjectValue := value <$> view normal_form t txn k.
Definition present (v : ObjectValue) : option ObjectValue := if decide (v = VNone) then None else Some v.
Definition sets (txn : Transaction) (k : ObjectKey) (v : ObjectValue) (txn' : Transaction) : Prop :=
  distinct normal_form txn' ∧ ∀ k', shows txn' k' = if same k k' then present v else shows txn k'.

Lemma same_congr a b k : place a = place b → same a k = same b k.
Proof. intros He. destruct (same_cases normal_form a k) as [[-> ?]|[-> ?]], (same_cases normal_form b k) as [[-> ?]|[-> ?]]; congruence. Qed.
Lemma shows_congr txn a b : place a = place b → shows txn a = shows txn b.
Proof.
  intros He. unfold shows, view. f_equal. induction (Transaction.apply normal_form txn t) as [|i l IH]; [done|]. rewrite !find_cons, IH.
  destruct (same_cases normal_form (key i) a) as [[-> ?]|[-> ?]], (same_cases normal_form (key i) b) as [[-> ?]|[-> ?]]; congruence.
Qed.
Lemma add_sets txn k k' v s o : distinct normal_form txn → place k = place k' → sets txn k' v (Transaction.add normal_form (mkMutation (mkItem k v s) o) txn).
Proof.
  intros Hd Hk. split; [by apply distinct_add|]. intros k''. unfold shows. rewrite view_add. cbn [mitem key]. rewrite (same_congr k k' k'' Hk). destruct (same k' k''); [|done]. unfold live, present. cbn [value]. by destruct (decide _).
Qed.
Lemma st_add_sets txn k v : distinct normal_form txn → ∃ txn', st_add normal_form (replace_or_insert_object k v) txn = (Ok tt, txn') ∧ sets txn k v txn'.
Proof. intros Hd. eexists. split; [done|]. by apply add_sets. Qed.
Lemma add_to_graveyard_sets txn oid : distinct normal_form txn → graveyard_id ≠ 0 →
  ∃ txn', add_to_graveyard normal_form graveyard_id oid txn = (Ok tt, txn') ∧ sets txn (ObjectKey.graveyard_entry graveyard_id oid) VSome txn'.
Proof.
  intros Hd Hg. unfold add_to_graveyard, INVALID_OBJECT_ID. st_simpl. rewrite (proj2 (Z.eqb_neq _ _) Hg). cbn [negb rassert]. by apply st_add_sets.
Qed.
(** Editing an object's record. *)
Lemma edit_sets txn oid v : distinct normal_form txn → shows txn (ObjectKey.object oid) = Some v →
  ∃ m, txn_get_object_mutation normal_form t oid txn = (Ok m, txn) ∧ value (mitem m) = v ∧
    ∀ v', sets txn (ObjectKey.object oid) v' (Transaction.add normal_form (with_value m v') txn).
Proof.
  intros Hd. unfold shows. destruct (view _ _ _ _) as [i|] eqn:Ev; [|done]. intros [= <-]. destruct (txn_get_view _ _ _ _ _ Hd Ev) as (o & -> & Hp). eexists. split_and!; [done|done|]. intros v'. by apply add_sets.
Qed.
(** Objects that are removed when their last link is. *)
Definition links (kind : ObjectKind) : option Z := match kind with KindFile refs | KindSymlink refs _ => Some refs | _ => None end.
Definition with_links (kind : ObjectKind) (refs : Z) : ObjectKind := match kind with KindFile _ => KindFile refs | KindSymlink _ link => KindSymlink refs link | _ => kind end.
Lemma with_links_links kind refs : links kind = Some refs → with_links kind refs = kind.
Proof. destruct kind; intros [= ->]; done. Qed.
Lemma adjust_refs_sets txn oid kind refs a : distinct normal_form txn → graveyard_id ≠ 0 → shows txn (ObjectKey.object oid) = Some (VObject kind a) → links kind = Some refs → 1 ≤ refs ≤ u64_max →
  ∃ txn', adjust_refs normal_form graveyard_id t oid (-1) txn = (Ok (refs =? 1), txn') ∧
    if refs =? 1 then sets txn (ObjectKey.graveyard_entry graveyard_id oid) VSome txn' else sets txn (ObjectKey.object oid) (VObject (with_links kind (refs - 1)) a) txn'.
Proof.
  intros Hd Hg Hs Hk Hr. destruct (edit_sets _ _ _ Hd Hs) as (m & Hm & Hv & Hset). unfold adjust_refs. st_simpl. rewrite Hm. st_simpl. rewrite Hv.
  assert ((0 <=? refs + -1) && (refs + -1 <=? u64_max) = true) as Hok by lia. destruct (add_to_graveyard_sets txn oid Hd Hg) as (txn' & Hadd & Hset').
  destruct kind as [refs'| | |refs' link]; try discriminate Hk; injection Hk as ->; st_simpl; rewrite Hok; cbn [rensure]; st_simpl; destruct (Z.eqb_spec refs 1) as [->|Hne].
  all: try (change (1 + -1 =? 0) with true; change (negb (-1 =? -1)) with false; cbn match; st_simpl; rewrite Hadd; st_simpl; eauto).
  all: rewrite (proj2 (Z.eqb_neq (refs + -1) 0)) by lia; st_simpl; eexists; split; [done|apply Hset].
Qed.
Lemma update_attributes_sets txn oid kind a time : distinct normal_form txn → shows txn (ObjectKey.object oid) = Some (VObject kind a) →
  ∃ txn', update_attributes normal_form t oid None (Some time) txn = (Ok tt, txn') ∧ sets txn (ObjectKey.object oid) (VObject kind (set_times a (creation_time a) (modification_time a) time)) txn'.
Proof.
  intros Hd Hs. destruct (edit_sets _ _ _ Hd Hs) as (m & Hm & Hv & Hset). unfold update_attributes. st_simpl. rewrite Hm. st_simpl. rewrite Hv. eexists. split; [done|]. apply Hset.
Qed.
(** The record of a directory, with the number of its subdirectories. *)
Definition directory_record (txn : Transaction) (oid n : Z) : Prop :=
  ∃ wrapping_key_id casefold a, shows txn (ObjectKey.object oid) = Some (VObject (KindDirectory n wrapping_key_id casefold) a).
Lemma update_dir_attributes_sets txn d n a : distinct normal_form txn → is_deleted d = false → directory_record txn (dir_object_id d) n → 0 ≤ n ≤ u64_max →
  ∃ txn' v, update_dir_attributes_internal normal_form t d a txn = (Ok tt, txn') ∧ sets txn (ObjectKey.object (dir_object_id d)) v txn' ∧
    directory_record txn' (dir_object_id d) (Z.min u64_max (Z.max 0 (n + sub_dirs a))).
Proof.
  intros Hd Hdel (w & c & at_ & Hs) Hn. destruct (edit_sets _ _ _ Hd Hs) as (m & Hm & Hv & Hset). unfold update_dir_attributes_internal. rewrite Hdel. cbn [negb rensure]. st_simpl. rewrite Hm. st_simpl. rewrite Hv.
  eexists _, _. split; [done|]. split; [apply Hset|]. destruct (Hset (VObject (KindDirectory (if negb (sub_dirs a =? 0) then Z.min u64_max (Z.max 0 (n + sub_dirs a)) else n) w c)
    (set_times at_ (match ma_creation_time a with Some time => Timestamp.from_nanos time | None => creation_time at_ end) (match ma_modification_time a with Some time => Timestamp.from_nanos time | None => modification_time at_ end) (match ma_change_time a with Some time => time | None => change_time at_ end)))) as [_ Hk].
  eexists w, c, _. rewrite Hk, (proj2 (same_place _ _ _) eq_refl). unfold present. rewrite decide_False by done. do 3 f_equal. destruct (Z.eqb_spec (sub_dirs a) 0) as [->|]; cbn [negb]; lia.
Qed.
End store.

(** Keys of children. *)
Definition child_key (k : ObjectKey) : bool := match data k with KChild _ | KCasefoldChild _ | KEncryptedChild _ _ => true | _ => false end.

(** *** Keys that differ *)
Section keys.
Context (normal_form : list Z → list Z).
Abbreviation same := (same_key normal_form).
Abbreviation place := (code normal_form (λ e, end_ (ek_range e))).
Lemma same_refl k : same k k = true.
Proof. by apply same_place. Qed.
Lemma different k k' : place k ≠ place k' → same k k' = false.
Proof. intros Hne. destruct (same_cases normal_form k k') as [[_ ?]|[-> _]]; done. Qed.
Lemma other_kind k k' : child_key k = true → child_key k' = false → same k k' = false ∧ same k' k = false.
Proof.
  intros Hk Hk'. assert (place k ≠ place k') by (destruct k as [o []], k' as [o' []]; unfold child_key, code in *; cbn in *; congruence).
  split; by apply different.
Qed.
Lemma object_grave oid g id : same (ObjectKey.object oid) (ObjectKey.graveyard_entry g id) = false ∧ same (ObjectKey.graveyard_entry g id) (ObjectKey.object oid) = false.
Proof. by split; apply different. Qed.
Lemma same_object a b : same (ObjectKey.object a) (ObjectKey.object b) = (a =? b).
Proof. destruct (Z.eqb_spec a b) as [->|Hne]; [apply same_refl|]. apply different. by intros [= ?]. Qed.
End keys.

(** ** Bytes of names *)
Lemma head_byte y n m : 0 ≤ n → Z.lor (Z.land y (Z.ones n)) (Z.shiftl m n) = m * 2 ^ n + y `mod` 2 ^ n.
Proof. intros Hn. rewrite land_low by done. rewrite Z.lor_comm. apply lor_low; [done|]. apply Z.mod_pos_bound. lia. Qed.
Lemma encode_bytes c : is_char c → Forall is_u8 (Utf8.encode c) ∧ (c ≠ 0 → last (Utf8.encode c) ≠ Some 0).
Proof.
  intros Hc. unfold is_char in Hc. pose proof (Z.mod_pos_bound (Z.shiftr c 0) 64 ltac:(lia)) as Hm. pose proof (Z.mod_pos_bound (Z.shiftr c 6) 64 ltac:(lia)). pose proof (Z.mod_pos_bound (Z.shiftr c 12) 64 ltac:(lia)).
  unfold Utf8.encode. destruct (Z.ltb_spec c 0x80); [split; [repeat constructor; lia|intros ? [= ?]; lia]|].
  change 0x1f with (Z.ones 5). change 0x0f with (Z.ones 4). change 0x07 with (Z.ones 3). change 0xc0 with (Z.shiftl 6 5). change 0xe0 with (Z.shiftl 14 4). change 0xf0 with (Z.shiftl 30 3). rewrite !head_byte, !tail_byte_eq by done.
  assert (∀ y n, 0 ≤ n → 0 ≤ y `mod` 2 ^ n < 2 ^ n) as Hb by (intros; apply Z.mod_pos_bound; lia). pose proof (Hb (Z.shiftr c 6) 5 ltac:(done)). pose proof (Hb (Z.shiftr c 12) 4 ltac:(done)). pose proof (Hb (Z.shiftr c 18) 3 ltac:(done)).
  destruct (c <? 0x800); [|destruct (c <? 0x10000)]; (split; [repeat constructor; lia|intros _ [= He]; lia]).
Qed.
Lemma as_bytes_u8 s : Forall is_char s → Forall is_u8 (Utf8.as_bytes s).
Proof. intros Hs. unfold Utf8.as_bytes. induction Hs as [|c s Hc Hs IH]; [constructor|]. cbn. apply Forall_app. split; [by apply encode_bytes|done]. Qed.
Lemma as_bytes_last s : Forall is_char s → last s ≠ Some 0 → last (Utf8.as_bytes s) ≠ Some 0.
Proof.
  intros Hs Hl. destruct s as [|c s _] using rev_ind; [done|]. rewrite last_snoc in Hl. unfold Utf8.as_bytes. rewrite fmap_app, concat_app. cbn. rewrite app_nil_r. apply Forall_app in Hs as [_ [Hc _]%Forall_cons].
  pose proof (encode_length c) as Hlen. rewrite last_app. destruct (last (Utf8.encode c)) as [x|] eqn:E; [|apply last_None in E; rewrite E in Hlen; cbn in Hlen; lia]. rewrite <- E. apply encode_bytes; [done|congruence].
Qed.

(** ** Directories that find a name by its key

    Plain ones, of either kind, and encrypted ones that are unlocked and not
    case-insensitive. *)
Section names.
Context `{Aes256, !Aes256Laws, Base64} (T : Tables) (normal_form : list Z → list Z) (fscrypt_key : Z → res (option Key)) (addr graveyard_id : Z) (fuel : nat).
Abbreviation same := (same_key normal_form).
Abbreviation place := (code normal_form (λ e, end_ (ek_range e))).
Abbreviation lookup := (Directory.lookup T normal_form fscrypt_key addr fuel).
Abbreviation encrypted_key := (Directory.encrypted_key T addr fuel).
Abbreviation get_casefold_hash := (Directory.get_casefold_hash T addr fuel).
Abbreviation committed t txn := (Transaction.apply normal_form txn t).

Definition keyed (d : Directory) : Prop :=
  is_deleted d = false ∧
  match dir_wrapping_key_id d with
  | None => True
  | Some _ => dir_casefold d = false ∧ 0 ≤ dir_object_id d ≤ u64_max ∧ ∃ k, fscrypt_key (dir_object_id d) = Ok (Some k) ∧ has_key k
  end.
(** Encryption needs names that do not end with NUL. *)
Definition name_ok (d : Directory) (name : list Z) : Prop := match dir_wrapping_key_id d with None => True | Some _ => Forall is_char name ∧ last name ≠ Some 0 end.
Definition same_name (d : Directory) (a b : list Z) : Prop := if dir_casefold d then normal_form a = normal_form b else a = b.
#[local] Instance same_name_dec d a b : Decision (same_name d a b).
Proof. unfold same_name. destruct (dir_casefold d); apply _. Defined.

(** The hash is not encrypted: four bytes are no whole sector. *)
Lemma hash_plain k name casefold : has_key k → get_casefold_hash (Some k) name casefold = get_casefold_hash None name casefold.
Proof.
  intros [cipher Hk]. unfold Directory.get_casefold_hash. destruct name as [|c name]; [done|]. destruct (if casefold then _ else _) as [hash| | |]; res_simpl; try done.
  unfold Key.encrypt, Key.crypt. change (rassert (0 `mod` SECTOR_SIZE =? 0)) with (Ok tt). res_simpl. rewrite Hk. res_simpl. rewrite chunks_exact_short by (apply Nat.ltb_lt; vm_compute; done). f_equal.
  rewrite le_combine_split_id; [done|]. apply Z.mod_pos_bound. done.
Qed.
Lemma hash_ok k name : has_key k → ∃ hash, get_casefold_hash (Some k) name false = Ok hash.
Proof. intros Hk. rewrite hash_plain by done. unfold Directory.get_casefold_hash. destruct name; [by eexists|]. res_simpl. by eexists. Qed.

(** C33: The hash of a name in an encrypted directory is stored as it is: every
    key gives what no key gives. *)
Theorem casefold_hash_not_encrypted k name casefold : has_key k → get_casefold_hash (Some k) name casefold = get_casefold_hash None name casefold.
Proof. apply hash_plain. Qed.

Lemma encrypt_name k d name : has_key k → 0 ≤ dir_object_id d ≤ u64_max → Forall is_char name → last name ≠ Some 0 →
  ∃ out, encrypt_filename k (dir_object_id d) name = Ok out ∧ Key.decrypt_filename k (dir_object_id d) out = Ok (Utf8.as_bytes name).
Proof.
  intros Hk Hid Hc Hl. destruct (encrypted_name k (dir_object_id d) (Utf8.as_bytes name) Hk Hid (as_bytes_u8 _ Hc) (as_bytes_last _ Hc Hl)) as (out & He & _ & Hd). by exists out.
Qed.

Definition entry_key (d : Directory) (name : list Z) : res ObjectKey :=
  match dir_wrapping_key_id d with
  | Some _ => k ← fscrypt_key (dir_object_id d); match k with Some k => encrypted_key k d name | None => Err (Fxfs NoKey) end
  | None => Ok (ObjectKey.child (dir_object_id d) name (dir_casefold d))
  end.
Lemma entry_key_ok d name : keyed d → name_ok d name → ∃ k, entry_key d name = Ok k ∧ child_key k = true ∧ object_id k = dir_object_id d.
Proof.
  unfold keyed, name_ok, entry_key. intros [_ Hd]. destruct (dir_wrapping_key_id d); [|intros _; unfold ObjectKey.child; destruct (dir_casefold d); by eexists].
  destruct Hd as (Hcf & Hid & k & -> & Hk). intros [Hc Hl]. destruct (hash_ok k name Hk) as [hash Hh]. destruct (encrypt_name k d name Hk Hid Hc Hl) as (out & He & _).
  res_simpl. unfold Directory.encrypted_key. rewrite Hcf, Hh. res_simpl. rewrite He. res_simpl. by eexists.
Qed.
Lemma entry_key_same d a b ka kb : keyed d → name_ok d a → name_ok d b → entry_key d a = Ok ka → entry_key d b = Ok kb → place ka = place kb ↔ same_name d a b.
Proof.
  unfold keyed, name_ok, entry_key, same_name. intros [_ Hd]. destruct (dir_wrapping_key_id d).
  - destruct Hd as (Hcf & Hid & k & -> & Hk). rewrite Hcf. res_simpl. intros [Hca Hla] [Hcb Hlb]. unfold Directory.encrypted_key. destruct (hash_ok k a Hk) as [ha Hha], (hash_ok k b Hk) as [hb Hhb].
    destruct (encrypt_name k d a Hk Hid Hca Hla) as (oa & Hea & Hda), (encrypt_name k d b Hk Hid Hcb Hlb) as (ob & Heb & Hdb). rewrite Hcf, Hha, Hhb. res_simpl. rewrite Hea, Heb. res_simpl. intros [= <-] [= <-].
    split; [|intros ->; congruence]. intros [= _ ->]. rewrite Hda in Hdb. injection Hdb as Hab. by rewrite <- (utf8_roundtrip a), <- (utf8_roundtrip b), Hab.
  - intros _ _. unfold ObjectKey.child. destruct (dir_casefold d); intros [= <-] [= <-]; unfold code; cbn; split; congruence.
Qed.

(** [lookup] reads the record at the key. *)
Definition child_of (v : option ObjectValue) : res (option (Z * ObjectDescriptor)) :=
  match v with
  | None | Some VNone => Ok None
  | Some (VChild c) => Ok (Some (child_object_id c, object_descriptor c))
  | Some _ => Err (Fxfs Inconsistent)
  end.
Lemma lookup_shows t txn d name k : keyed d → entry_key d name = Ok k → lookup (committed t txn) d name = child_of (shows normal_form t txn k).
Proof.
  unfold keyed, entry_key, shows, view, Directory.lookup, lookup_item. intros [Hdel Hd] Hk. rewrite Hdel. destruct (dir_wrapping_key_id d).
  - destruct Hd as (Hcf & _ & k' & Hfk & _). rewrite Hfk in Hk |- *. res_simpl in Hk. res_simpl. rewrite Hcf. cbn [negb]. rewrite Hk. res_simpl. destruct (tree_find _ _ _) as [i|]; [|done]. cbn. by destruct (value i).
  - injection Hk as <-. res_simpl. destruct (tree_find _ _ _) as [i|]; [|done]. cbn. by destruct (value i).
Qed.

Lemma lookup_sets t txn txn' d name v name' k : keyed d → name_ok d name → name_ok d name' → entry_key d name = Ok k → sets normal_form t txn k v txn' →
  lookup (committed t txn') d name' = if decide (same_name d name name') then child_of (present v) else lookup (committed t txn) d name'.
Proof.
  intros Hd Hn Hn' Hk [_ Hs]. destruct (entry_key_ok d name' Hd Hn') as (k' & Hk' & _). rewrite !(lookup_shows _ _ _ _ k') by done. rewrite Hs. pose proof (entry_key_same d name name' k k' Hd Hn Hn' Hk Hk') as Hsame.
  destruct (same_cases normal_form k k') as [[-> He]|[-> He]]; [rewrite decide_True by (by apply Hsame)|rewrite decide_False by (by intros ?%Hsame)]; done.
Qed.
Lemma lookup_sets_other t txn txn' d k v name : keyed d → name_ok d name → child_key k = false → sets normal_form t txn k v txn' → lookup (committed t txn') d name = lookup (committed t txn) d name.
Proof.
  intros Hd Hn Hk [_ Hs]. destruct (entry_key_ok d name Hd Hn) as (k' & Hk' & Hc & _). rewrite !(lookup_shows _ _ _ _ k') by done. rewrite Hs. by rewrite (proj2 (other_kind _ k' k Hc Hk)).
Qed.
Lemma record_sets_other t txn txn' k v oid n : child_key k = true ∨ (∃ g, data k = KGraveyardEntry g) → sets normal_form t txn k v txn' → directory_record normal_form t txn oid n → directory_record normal_form t txn' oid n.
Proof.
  intros Hk [_ Hs] (w & c & a & Hr). exists w, c, a. rewrite Hs. destruct (same_cases normal_form k (ObjectKey.object oid)) as [[_ He]|[-> _]]; [|done].
  destruct k as [o []]; unfold child_key, code in *; cbn in *; destruct Hk as [?|[g ?]]; congruence.
Qed.
Lemma sets_trans_other t txn txn1 k v k' : sets normal_form t txn k v txn1 → same k k' = false → shows normal_form t txn1 k' = shows normal_form t txn k'.
Proof. intros [_ ->] ->. done. Qed.

(** The mutation of the entry is the same for all that add or replace one. *)
Abbreviation replace_entry := (Directory.replace_entry T normal_form fscrypt_key addr fuel).
Lemma replace_entry_sets t txn d name v : keyed d → name_ok d name → distinct normal_form txn →
  ∃ k txn', entry_key d name = Ok k ∧ child_key k = true ∧ replace_entry t d name v txn = (Ok tt, txn') ∧ sets normal_form t txn k v txn'.
Proof.
  intros Hd Hn Hdis. destruct (entry_key_ok d name Hd Hn) as (k & Hk & Hc & _). destruct (st_add_sets normal_form t txn k v Hdis) as (txn' & He & Hs). exists k, txn'. split_and!; [done|done| |done].
  unfold Directory.replace_entry. unfold entry_key in Hk. destruct Hd as [_ Hd]. destruct (dir_wrapping_key_id d); [|injection Hk as ->; exact He].
  destruct Hd as (_ & _ & k' & Hfk & _). rewrite Hfk in Hk |- *. res_simpl in Hk. st_simpl. rewrite Hk. st_simpl. exact He.
Qed.

(** C9: Adding a child sets the name, leaves the others, and counts directories. *)
Theorem insert_child_map t txn d name id descriptor now n : keyed d → distinct normal_form txn → directory_record normal_form t txn (dir_object_id d) n → 0 ≤ n ≤ u64_max → name_ok d name →
  (dir_wrapping_key_id d = None ∨ descriptor = DFile ∨ descriptor = DDirectory) →
  ∃ txn', insert_child T normal_form fscrypt_key addr fuel t d name id descriptor now txn = (Ok tt, txn') ∧ distinct normal_form txn' ∧
    (∀ name', name_ok d name' → lookup (committed t txn') d name' = if decide (same_name d name name') then Ok (Some (id, descriptor)) else lookup (committed t txn) d name') ∧
    directory_record normal_form t txn' (dir_object_id d) (Z.min u64_max (n + if decide (descriptor = DDirectory) then 1 else 0)).
Proof.
  intros Hd Hdis Hrec Hn Hname Hdesc. set (delta := if decide _ then 1 else 0). assert (0 ≤ delta) by (unfold delta; case_match; lia). pose proof Hd as [Hdel Hk]. destruct (entry_key_ok d name Hd Hname) as (k & Hkey & Hc & _).
  destruct (st_add_sets normal_form t txn k (ObjectValue.child id descriptor) Hdis) as (txn1 & He & Hs).
  assert (directory_record normal_form t txn1 (dir_object_id d) n) as Hrec1 by (eapply record_sets_other; eauto).
  destruct (update_dir_attributes_sets normal_form t txn1 d n (mkMutable delta (Some now) (Some (Timestamp.as_nanos now)) None) (proj1 Hs) Hdel Hrec1 Hn) as (txn2 & v & He2 & Hs2 & Hrec2).
  exists txn2. split_and!.
  - unfold insert_child. rewrite Hdel. cbn [negb rensure]. fold delta. unfold entry_key in Hkey. destruct (dir_wrapping_key_id d).
    + destruct Hk as (_ & _ & k' & Hfk & _). rewrite Hfk in Hkey |- *. res_simpl in Hkey. rewrite bool_decide_eq_true_2 by (destruct Hdesc; naive_solver). cbn [rensure]. st_simpl. rewrite Hkey. st_simpl. rewrite He. exact He2.
    + injection Hkey as ->. st_simpl. rewrite He. exact He2.
  - apply Hs2.
  - intros name' Hname'. rewrite (lookup_sets_other _ _ _ _ (ObjectKey.object _) _ _ Hd Hname' eq_refl Hs2). rewrite (lookup_sets _ _ _ _ _ _ _ _ Hd Hname Hname' Hkey Hs). done.
  - cbn [sub_dirs] in Hrec2. replace (Z.min u64_max (n + delta)) with (Z.min u64_max (Z.max 0 (n + delta))) by lia. exact Hrec2.
Qed.

(** A symbolic link in a directory that is not encrypted. *)
Theorem create_symlink_map t txn d link name id t1 t2 t3 n : keyed d → dir_wrapping_key_id d = None → distinct normal_form txn → directory_record normal_form t txn (dir_object_id d) n → 0 ≤ n ≤ u64_max →
  Z.of_nat (length link) ≤ 256 → id ≠ dir_object_id d →
  ∃ txn', create_symlink normal_form t d link name id t1 t2 t3 txn = (Ok id, txn') ∧ distinct normal_form txn' ∧
    shows normal_form t txn' (ObjectKey.object id) = Some (ObjectValue.symlink link t1 t2 0) ∧
    ∀ name', lookup (committed t txn') d name' = if decide (same_name d name name') then Ok (Some (id, DSymlink)) else lookup (committed t txn) d name'.
Proof.
  intros Hd Hw Hdis Hrec Hn Hlink Hid. assert (∀ name, name_ok d name) as Hok by (intros x; unfold name_ok; by rewrite Hw). pose proof Hd as [Hdel _].
  pose proof (add_sets normal_form t txn (ObjectKey.object id) (ObjectKey.object id) (ObjectValue.symlink link t1 t2 0) 0 OpInsert Hdis eq_refl) as Hs1. set (txn1 := Transaction.add _ _ _) in Hs1.
  set (k := ObjectKey.child (dir_object_id d) name (dir_casefold d)). assert (entry_key d name = Ok k) as Hk by (unfold entry_key; by rewrite Hw). assert (child_key k = true) as Hc by (unfold k, ObjectKey.child; by destruct (dir_casefold d)).
  destruct (st_add_sets normal_form t txn1 k (ObjectValue.child id DSymlink) (proj1 Hs1)) as (txn2 & He2 & Hs2).
  assert (directory_record normal_form t txn2 (dir_object_id d) n) as Hrec2.
  { eapply record_sets_other; [left; exact Hc|exact Hs2|]. destruct Hrec as (w & c & b & Hrec). exists w, c, b. by rewrite (proj2 Hs1), same_object, (proj2 (Z.eqb_neq _ _) Hid). }
  destruct (update_dir_attributes_sets normal_form t txn2 d n (mkMutable 0 None (Some (Timestamp.as_nanos t3)) None) (proj1 Hs2) Hdel Hrec2 Hn) as (txn3 & v & He3 & Hs3 & _). exists txn3. split_and!.
  - unfold create_symlink. rewrite Hdel, (proj2 (Z.leb_le _ _) Hlink). cbn [negb rensure]. st_simpl. change (st_add normal_form (insert_object (ObjectKey.object id) (ObjectValue.symlink link t1 t2 0)) txn) with (Ok tt : res unit, txn1). cbn match. st_simpl. fold k. rewrite He2. st_simpl. by rewrite He3.
  - apply Hs3.
  - rewrite (proj2 Hs3), same_object, (proj2 (Z.eqb_neq _ _)) by congruence. rewrite (proj2 Hs2), (proj1 (other_kind _ k (ObjectKey.object id) Hc eq_refl)), (proj2 Hs1), same_refl. done.
  - intros name'. rewrite (lookup_sets_other _ _ _ _ (ObjectKey.object _) _ _ Hd (Hok _) eq_refl Hs3), (lookup_sets _ _ _ _ _ _ _ _ Hd (Hok _) (Hok _) Hk Hs2). destruct (decide _); [done|]. by apply (lookup_sets_other _ _ _ _ (ObjectKey.object id) _ _ Hd (Hok _) eq_refl Hs1).
Qed.

(** *** Removing *)
Abbreviation grave id := (ObjectKey.graveyard_entry graveyard_id id).
Abbreviation shows_ := (shows normal_form).

Lemma lookup_frame t txn txn' d name : keyed d → name_ok d name → (∀ k, child_key k = true → shows_ t txn' k = shows_ t txn k) → lookup (committed t txn') d name = lookup (committed t txn) d name.
Proof. intros Hd Hn Hs. destruct (entry_key_ok d name Hd Hn) as (k & Hk & Hc & _). rewrite !(lookup_shows _ _ _ _ k) by done. by rewrite Hs. Qed.
Abbreviation release_child := (Directory.release_child T normal_form fscrypt_key addr graveyard_id fuel).
Lemma release_linked t txn id descriptor kind refs a has_src time : descriptor = DFile ∨ descriptor = DSymlink → distinct normal_form txn → graveyard_id ≠ 0 →
  shows_ t txn (ObjectKey.object id) = Some (VObject kind a) → links kind = Some refs → 1 ≤ refs ≤ u64_max →
  ∃ txn' a', release_child t (Some (id, descriptor)) has_src time txn = (Ok (if refs =? 1 then ReplacedObject id else ReplacedObjectWithRemainingLinks id, 0), txn') ∧ distinct normal_form txn' ∧
    ∀ k, shows_ t txn' k = if same (ObjectKey.object id) k then Some (VObject (with_links kind (if refs =? 1 then 1 else refs - 1)) a')
                           else if (refs =? 1) && same (grave id) k then Some VSome else shows_ t txn k.
Proof.
  intros Hdesc Hd Hg Hs Hl Hr. destruct (adjust_refs_sets normal_form graveyard_id t txn id kind refs a Hd Hg Hs Hl Hr) as (txn1 & He1 & Hs1).
  set (kind' := with_links kind (if refs =? 1 then 1 else refs - 1)).
  assert (distinct normal_form txn1 ∧ ∀ k, shows_ t txn1 k = if same (ObjectKey.object id) k then Some (VObject kind' a)
    else if (refs =? 1) && same (grave id) k then Some VSome else shows_ t txn k) as [Hd1 Hk1].
  { unfold kind'. destruct (Z.eqb_spec refs 1) as [->|Hne]; destruct Hs1 as [Hd1 Hk1]; (split; [done|]); intros k; rewrite Hk1; cbn [andb]; [|done]. rewrite (with_links_links _ _ Hl).
    destruct (same_cases normal_form (ObjectKey.object id) k) as [[E He]|[E He]]; rewrite E; [|done]. destruct (same_cases normal_form (grave id) k) as [[_ Hg']|[-> _]]; [rewrite <- He in Hg'; discriminate Hg'|].
    by rewrite <- (shows_congr _ _ _ _ _ He). }
  assert (shows_ t txn1 (ObjectKey.object id) = Some (VObject kind' a)) as Ho by (by rewrite Hk1, same_refl).
  destruct (update_attributes_sets normal_form t txn1 id _ a time Hd1 Ho) as (txn2 & He2 & [Hd2 Hk2]). exists txn2. eexists. split_and!; [|done|].
  - unfold Directory.release_child. destruct Hdesc as [->| ->]; st_simpl; rewrite He1; st_simpl; rewrite He2; by destruct (refs =? 1).
  - intros k. rewrite Hk2. destruct (same (ObjectKey.object id) k) eqn:E; [done|]. by rewrite Hk1, E.
Qed.
Lemma release_file t txn id refs a has_src time : distinct normal_form txn → graveyard_id ≠ 0 → shows_ t txn (ObjectKey.object id) = Some (VObject (KindFile refs) a) → 1 ≤ refs ≤ u64_max →
  ∃ txn' a', release_child t (Some (id, DFile)) has_src time txn = (Ok (if refs =? 1 then ReplacedObject id else ReplacedObjectWithRemainingLinks id, 0), txn') ∧ distinct normal_form txn' ∧
    ∀ k, shows_ t txn' k = if same (ObjectKey.object id) k then Some (VObject (KindFile (if refs =? 1 then 1 else refs - 1)) a')
                           else if (refs =? 1) && same (grave id) k then Some VSome else shows_ t txn k.
Proof. intros Hd Hg Hs. apply (release_linked t txn id DFile (KindFile refs) refs a); auto. Qed.
(** An empty directory, and one that is not. *)
Lemma release_directory t txn id c b has_src time : distinct normal_form txn → graveyard_id ≠ 0 → Directory.open normal_form t id = Ok c → Directory.has_children T normal_form fscrypt_key addr fuel t c = Ok b →
  if b then release_child t (Some (id, DDirectory)) has_src time txn = (Err (Fxfs NotEmpty), txn)
  else ∃ txn', release_child t (Some (id, DDirectory)) has_src time txn = (Ok (ReplacedDirectory id, -1), txn') ∧ tombstones txn' = tombstones txn ++ [id] ∧ sets normal_form t txn (grave id) VSome txn'.
Proof.
  intros Hd Hg Hopen Hb. unfold Directory.release_child. st_simpl. rewrite Hopen. st_simpl. rewrite Hb. destruct b; cbn [negb rensure]; st_simpl; [done|].
  unfold add_to_graveyard, INVALID_OBJECT_ID. st_simpl. rewrite (proj2 (Z.eqb_neq _ _) Hg). cbn [negb rassert]. st_simpl. eexists. split_and!; [done|done|].
  destruct (add_sets normal_form t txn (grave id) (grave id) VSome 0 OpReplaceOrInsert Hd eq_refl) as [Hd' Hk]. split; [exact Hd'|exact Hk].
Qed.

Abbreviation record t txn d n := (directory_record normal_form t txn (dir_object_id d) n ∧ 0 ≤ n ≤ u64_max).
Lemma lookup_sets_dir t txn txn' d k v name : keyed d → name_ok d name → object_id k ≠ dir_object_id d → sets normal_form t txn k v txn' → lookup (committed t txn') d name = lookup (committed t txn) d name.
Proof.
  intros Hd Hn Hk [_ Hs]. destruct (entry_key_ok d name Hd Hn) as (k' & Hk' & _ & Ho). rewrite !(lookup_shows _ _ _ _ k') by done. rewrite Hs. destruct (same_cases normal_form k k') as [[_ [= He]]|[-> _]]; [|done]. congruence.
Qed.
Lemma replaced t txn src dst name delta time old result d0 txn1 n : keyed dst → name_ok dst name → lookup t dst name = Ok old →
  release_child t old (match src with Some _ => true | None => false end) time txn = (Ok (result, d0), txn1) → distinct normal_form txn1 → record t txn1 dst n →
  ∃ txn', replace_child_with_object T normal_form fscrypt_key addr graveyard_id fuel t src dst name delta time txn = (Ok result, txn') ∧ distinct normal_form txn' ∧
    (∀ name', name_ok dst name' → lookup (committed t txn') dst name' = if decide (same_name dst name name') then Ok src else lookup (committed t txn1) dst name') ∧
    (∀ d name', keyed d → name_ok d name' → dir_object_id d ≠ dir_object_id dst → lookup (committed t txn') d name' = lookup (committed t txn1) d name') ∧
    record t txn' dst (Z.min u64_max (Z.max 0 (n + (delta + d0)))) ∧
    ∀ k, child_key k = false → same (ObjectKey.object (dir_object_id dst)) k = false → shows_ t txn' k = shows_ t txn1 k.
Proof.
  intros Hd Hn Hl Hrel Hdis [Hrec Hn0]. set (v := match src with Some (id, descriptor) => ObjectValue.child id descriptor | None => VNone end).
  destruct (replace_entry_sets t txn1 dst name v Hd Hn Hdis) as (k & txn2 & Hk & Hc & He2 & Hs2). pose proof (entry_key_ok dst name Hd Hn) as (k0 & Hk0 & _ & Hid). rewrite Hk in Hk0. injection Hk0 as <-.
  assert (directory_record normal_form t txn2 (dir_object_id dst) n) as Hrec2 by (eapply record_sets_other; eauto).
  destruct (update_dir_attributes_sets normal_form t txn2 dst n (mkMutable (delta + d0) (Some time) (Some (Timestamp.as_nanos time)) None) (proj1 Hs2) (proj1 Hd) Hrec2 Hn0) as (txn3 & v' & He3 & Hs3 & Hrec3).
  exists txn3. split_and!; [| |intros name' Hn'|intros d name' Hd' Hn' Hne|exact Hrec3|lia|lia|intros k' Hk' Hne].
  - unfold replace_child_with_object. st_simpl. rewrite Hl. st_simpl. rewrite Hrel. st_simpl. fold v. rewrite He2. st_simpl. by rewrite He3.
  - apply Hs3.
  - rewrite (lookup_sets_other _ _ _ _ (ObjectKey.object _) _ _ Hd Hn' eq_refl Hs3), (lookup_sets _ _ _ _ _ _ _ _ Hd Hn Hn' Hk Hs2). destruct (decide _); [|done]. unfold v. by destruct src as [[id desc]|].
  - rewrite (lookup_sets_other _ _ _ _ (ObjectKey.object _) _ _ Hd' Hn' eq_refl Hs3). eapply lookup_sets_dir; [done|done| |exact Hs2]. congruence.
  - rewrite (proj2 Hs3), Hne. eapply sets_trans_other; [exact Hs2|]. by apply (other_kind _ k k').
Qed.


(** *** Renaming *)
Abbreviation replace_child := (Directory.replace_child T normal_form fscrypt_key addr graveyard_id fuel).
Abbreviation replace_child_with_object := (Directory.replace_child_with_object T normal_form fscrypt_key addr graveyard_id fuel).

Lemma record_times t txn txn' id kind a a' oid n : shows_ t txn (ObjectKey.object id) = Some (VObject kind a) → sets normal_form t txn (ObjectKey.object id) (VObject kind a') txn' →
  directory_record normal_form t txn oid n → directory_record normal_form t txn' oid n.
Proof.
  intros Hs [_ Hk] (w & c & b & Hr). unfold directory_record. setoid_rewrite Hk. rewrite same_object. destruct (Z.eqb_spec id oid) as [->|]; [|by exists w, c, b].
  rewrite Hs in Hr. injection Hr as -> _. by exists w, c, a'.
Qed.
Lemma record_other t txn txn' d v oid n : dir_object_id d ≠ oid → sets normal_form t txn (ObjectKey.object (dir_object_id d)) v txn' → directory_record normal_form t txn oid n → directory_record normal_form t txn' oid n.
Proof. intros Hne [_ Hk] (w & c & b & Hr). exists w, c, b. by rewrite Hk, same_object, (proj2 (Z.eqb_neq _ _) Hne). Qed.

(** What the source's part of a rename does. *)
Definition moved (descriptor : ObjectDescriptor) (src dst : Directory) : Z := if decide (descriptor = DDirectory ∧ dir_object_id src ≠ dir_object_id dst) then 1 else 0.
Lemma rename_source t src sname dst dname now id descriptor kind a n m : keyed src → name_ok src sname → dir_wrapping_key_id src = dir_wrapping_key_id dst →
  lookup t src sname = Ok (Some (id, descriptor)) → shows_ t empty (ObjectKey.object id) = Some (VObject kind a) → record t empty src m → record t empty dst n →
  ∃ txn, replace_child t (Some (src, sname)) dst dname now empty = replace_child_with_object t (Some (id, descriptor)) dst dname (moved descriptor src dst) now txn ∧ distinct normal_form txn ∧
    (∀ name', name_ok src name' → lookup (committed t txn) src name' = if decide (same_name src sname name') then Ok None else lookup t src name') ∧
    (∀ d name', keyed d → name_ok d name' → dir_object_id d ≠ dir_object_id src → lookup (committed t txn) d name' = lookup t d name') ∧
    record t txn dst n ∧ (dir_object_id src = dir_object_id dst → ∃ a', shows_ t txn (ObjectKey.object id) = Some (VObject kind a')).
Proof.
  intros Hd Hn Hw Hl Hs [Hsrc Hm0] [Hdst Hn0]. destruct (entry_key_ok src sname Hd Hn) as (k & Hk & Hc & Hid). destruct (st_add_sets normal_form t empty k VNone (distinct_empty _)) as (txn1 & He1 & Hs1).
  assert (shows_ t txn1 (ObjectKey.object id) = Some (VObject kind a)) as Ho1 by (rewrite (sets_trans_other _ _ _ _ _ _ Hs1), Hs; [done|]; by apply (other_kind _ k)).
  destruct (update_attributes_sets normal_form t txn1 id kind a now (proj1 Hs1) Ho1) as (txn2 & He2 & Hs2).
  assert (∀ oid n, directory_record normal_form t empty oid n → directory_record normal_form t txn2 oid n) as Hrec by (intros oid n' Hr; eapply record_times; [exact Ho1|exact Hs2|]; eapply record_sets_other; eauto).
  assert (replace_child t (Some (src, sname)) dst dname now empty = ('(s, delta) ← (if negb (dir_object_id src =? dir_object_id dst) then
      _ ← update_dir_attributes_internal normal_form t src (mkMutable (- (if decide (descriptor = DDirectory) then 1 else 0)) (Some now) (Some (Timestamp.as_nanos now)) None);
      mret (Some (id, descriptor), if decide (descriptor = DDirectory) then 1 else 0) else mret (Some (id, descriptor), 0)); replace_child_with_object t s dst dname delta now) txn2) as ->.
  { unfold Directory.replace_child. rewrite <- Hw. unfold entry_key in Hk. destruct Hd as [_ Hd]. destruct (dir_wrapping_key_id src) as [w|].
    - destruct Hd as (_ & _ & k' & Hfk & _). rewrite Hfk in Hk |- *. res_simpl in Hk. rewrite Z.eqb_refl. cbn [rensure]. st_simpl. rewrite Hk. st_simpl. rewrite He1. st_simpl. rewrite Hl. st_simpl. by rewrite He2.
    - injection Hk as ->. st_simpl. rewrite He1. st_simpl. rewrite Hl. st_simpl. by rewrite He2. }
  assert (∀ d name', keyed d → name_ok d name' → lookup (committed t txn2) d name' = lookup (committed t txn1) d name') as Hl2 by (intros d name' Hd' Hn'; by apply (lookup_sets_other _ _ _ _ (ObjectKey.object id) _ _ Hd' Hn' eq_refl Hs2)).
  assert ((∀ name', name_ok src name' → lookup (committed t txn2) src name' = if decide (same_name src sname name') then Ok None else lookup t src name') ∧
    ∀ d name', keyed d → name_ok d name' → dir_object_id d ≠ dir_object_id src → lookup (committed t txn2) d name' = lookup t d name') as [Hsrc2 Hoth2].
  { split; [intros name' Hn'; rewrite Hl2 by done; by rewrite (lookup_sets _ _ _ _ _ _ _ _ Hd Hn Hn' Hk Hs1)|]. intros d name' Hd' Hn' Hne. rewrite Hl2 by done. apply (lookup_sets_dir t empty _ _ k VNone); [done|done|congruence|done]. }
  unfold moved. destruct (Z.eqb_spec (dir_object_id src) (dir_object_id dst)) as [Heq|Hne]; cbn [negb].
  - exists txn2. rewrite decide_False by (by intros [_ ?]). split_and!; [done|apply Hs2|done|done|by apply Hrec|lia|lia|]. intros _. eexists. by rewrite (proj2 Hs2), same_refl.
  - destruct (update_dir_attributes_sets normal_form t txn2 src m (mkMutable (- (if decide (descriptor = DDirectory) then 1 else 0)) (Some now) (Some (Timestamp.as_nanos now)) None) (proj1 Hs2) (proj1 Hd) (Hrec _ _ Hsrc) Hm0) as (txn3 & v & He3 & Hs3 & _).
    exists txn3. split_and!; [|apply Hs3| | |by eapply record_other; eauto|lia|lia|done].
    + st_simpl. rewrite He3. st_simpl. destruct (decide (descriptor = DDirectory)); [rewrite decide_True by done|rewrite decide_False by tauto]; done.
    + intros name' Hn'. rewrite (lookup_sets_other _ _ _ _ (ObjectKey.object _) _ _ Hd Hn' eq_refl Hs3). by apply Hsrc2.
    + intros d name' Hd' Hn' Hne'. rewrite (lookup_sets_other _ _ _ _ (ObjectKey.object _) _ _ Hd' Hn' eq_refl Hs3). by apply Hoth2.
Qed.


End names.
