(* ===== verification/DirectoryScan.v ===== *)
(** * Directories whose children are searched for

    [lookup] in an encrypted directory goes through records when the directory
    is case-insensitive or its key is not there.  Here: that it finds what a
    search of the whole tree would, that the names shown by a locked directory
    name its children, for [lookup] and for unlinking, and that a child added
    to a case-insensitive directory is found by all names with its hash and
    normal form. *)

From S2P Require Import Prelude Round Bytes Unicode UnicodeIter Extent LsmTypes ObjectRecord MergeProps ObjectKeyOrder BloomFilter ChaCha Crypto CryptoProps Directory DirectoryProps.

(** ** Runs of records *)
Section scan.
Context (normal_form : list Z → list Z).
Abbreviation cmp := (object_cmp_upper_bound normal_form).
Definition sorted_tree (t : contents) : Prop := StronglySorted (λ a b : ObjectItem, cmp (key a) (key b) = Lt) t.

Definition hashed (oid hash : Z) (k : ObjectKey) : bool := match k with mkObjectKey o (KEncryptedChild h _) => (o =? oid) && (h =? hash) | _ => false end.
Lemma hashed_inv oid hash k : hashed oid hash k = true ↔ ∃ raw, k = ObjectKey.encrypted_child oid raw hash.
Proof.
  split; [|intros [raw ->]; cbn; by rewrite !Z.eqb_refl]. destruct k as [o []]; cbn; try done. intros [->%Z.eqb_eq ->%Z.eqb_eq]%andb_true_iff. by eexists.
Qed.
(** What comes from a query for a hash and does not have it comes after all that do. *)
Lemma hashed_before oid hash p k k' : hashed oid hash k = false → cmp k (ObjectKey.encrypted_child oid p hash) ≠ Lt → hashed oid hash k' = true → cmp k' k = Lt.
Proof.
  intros Hk Hq (raw & ->)%hashed_inv. rewrite cmp_opp. unfold object_cmp_upper_bound in *. cbn [object_id data ObjectKey.encrypted_child] in *. destruct k as [o dt]. cbn [object_id data] in *.
  destruct (Z.compare_spec o oid) as [->|?|?]; cbn [cmp_then] in *; [|done|done]. destruct dt as [| |? []| | | | | | |]; cbn in *; try done.
  rewrite Z.eqb_refl in Hk. destruct (Z.compare_spec casefold_hash hash) as [->|?|?]; [|done|done]. by rewrite Z.eqb_refl in Hk.
Qed.
Lemma sorted_hashed oid hash p i t : sorted_tree (i :: t) → hashed oid hash (key i) = false → cmp (key i) (ObjectKey.encrypted_child oid p hash) ≠ Lt → Forall (λ j, hashed oid hash (key j) = false) t.
Proof.
  intros [_ Hs]%StronglySorted_inv Hh Hq. eapply Forall_impl; [exact Hs|]. intros j Hj. cbn beta in Hj. destruct (hashed oid hash (key j)) eqn:E; [|done]. pose proof (hashed_before _ _ _ _ _ Hh Hq E) as Hlt.
  rewrite cmp_opp, Hj in Hlt. done.
Qed.

Lemma query_sorted t k : sorted_tree t → sorted_tree (tree_query normal_form t k) ∧ Forall (λ i, cmp (key i) k ≠ Lt) (tree_query normal_form t k).
Proof. intros Hs. split; [by apply sorted_filter|]. apply Forall_forall. by intros i [? _]%list_elem_of_filter. Qed.
Lemma query_filter (P : ObjectItem → bool) t k : (∀ i, P i = true → cmp (key i) k ≠ Lt) → filter (λ i, P i) (tree_query normal_form t k) = filter (λ i, P i) t.
Proof.
  intros HP. unfold tree_query. induction t as [|i t IH]; [done|]. rewrite !filter_cons. destruct (P i) eqn:E.
  - rewrite (decide_True (P := cmp (key i) k ≠ Lt)) by (by apply HP). rewrite filter_cons, E. rewrite !decide_True by done. by f_equal.
  - rewrite (decide_False (P := Is_true false)) by (intros []). destruct (decide _); [|done]. rewrite filter_cons, E. by rewrite decide_False by (intros []).
Qed.
Lemma filter_false {A} (P : A → bool) l : Forall (λ x, P x = false) l → filter (λ x, P x) l = [].
Proof. intros Hl. apply filter_nothing. eapply Forall_impl; [exact Hl|]. intros x Hx. cbn beta. rewrite Hx. by intros []. Qed.

(** *** Synthetic names *)
Definition shown_as (oid : Z) (target : SyntheticFilename) (i : ObjectItem) : bool :=
  match key i with
  | mkObjectKey o (KEncryptedChild h raw) => (o =? oid) && bool_decide (SyntheticFilename.from_object_key h raw = target) && negb (bool_decide (value i = VNone))
  | _ => false
  end.
Lemma shown_as_inv oid target i : shown_as oid target i = true ↔ ∃ raw, key i = ObjectKey.encrypted_child oid raw (sf_casefold_hash target) ∧ SyntheticFilename.from_object_key (sf_casefold_hash target) raw = target ∧ value i ≠ VNone.
Proof.
  unfold shown_as. split.
  - destruct (key i) as [o []]; try done. intros [[->%Z.eqb_eq <-%bool_decide_eq_true]%andb_true_iff Hv%negb_true_iff%bool_decide_eq_false]%andb_true_iff. cbn. eauto.
  - intros (raw & -> & Ht & Hv). cbn. rewrite Z.eqb_refl, bool_decide_eq_true_2 by done. by rewrite bool_decide_eq_false_2.
Qed.
Lemma prefix_order n raw : seq_cmp raw (take n raw) ≠ Lt.
Proof. revert n. induction raw as [|x raw IH]; intros [|n]; [done..|]. cbn. rewrite Z.compare_refl. apply IH. Qed.
Lemma shown_as_query oid target i : shown_as oid target i = true → cmp (key i) (SyntheticFilename.to_query_key target oid) ≠ Lt ∧ hashed oid (sf_casefold_hash target) (key i) = true.
Proof.
  intros (raw & -> & Ht & _)%shown_as_inv. split; [|apply hashed_inv; by eexists]. unfold object_cmp_upper_bound. cbn. rewrite !Z.compare_refl. cbn. rewrite <- Ht. apply prefix_order.
Qed.
Abbreviation after oid target items := (sorted_tree items ∧ Forall (λ i, cmp (key i) (SyntheticFilename.to_query_key target oid) ≠ Lt) items).

Lemma not_shown oid target i items : after oid target (i :: items) → hashed oid (sf_casefold_hash target) (key i) = false → filter (λ i, shown_as oid target i) (i :: items) = [].
Proof.
  intros [Hs [Hq _]%Forall_cons] Hh. apply filter_false. assert (Forall (λ j, hashed oid (sf_casefold_hash target) (key j) = false) (i :: items)) as Hall by (constructor; [done|by eapply sorted_hashed]).
  eapply Forall_impl; [exact Hall|]. intros j Hj. cbn beta in Hj. destruct (shown_as oid target j) eqn:E; [|done]. apply shown_as_query in E as [_ E]. congruence.
Qed.
Lemma after_cons oid target i items : after oid target (i :: items) → after oid target items.
Proof. by intros [[Hs _]%StronglySorted_inv [_ Hq]%Forall_cons]. Qed.

Lemma lookup_synthetic_filter d target items : after (dir_object_id d) target items → lookup_synthetic d target items = head (filter (λ i, shown_as (dir_object_id d) target i) items).
Proof.
  induction items as [|i items IH]; intros Ha; [done|]. pose proof (IH (after_cons _ _ _ _ Ha)) as IH'. cbn [lookup_synthetic]. destruct (decide (value i = VNone)) as [Hv|Hv].
  - rewrite filter_cons. destruct (decide (Is_true (shown_as _ _ _))) as [E%Is_true_true|]; [|done]. apply shown_as_inv in E as (? & _ & _ & ?). done.
  - destruct (hashed (dir_object_id d) (sf_casefold_hash target) (key i)) eqn:E.
    + apply hashed_inv in E as [raw Hk]. rewrite Hk. cbn [ObjectKey.encrypted_child]. rewrite !Z.eqb_refl. cbn [andb]. rewrite filter_cons. destruct (decide (SyntheticFilename.from_object_key _ raw = target)) as [Ht|Ht].
      * rewrite decide_True; [done|]. apply Is_true_true, shown_as_inv. eauto.
      * rewrite decide_False; [done|]. intros (raw' & Hk' & Ht' & _)%Is_true_true%shown_as_inv. rewrite Hk in Hk'. injection Hk' as ->. done.
    + rewrite (not_shown _ _ _ _ Ha E). destruct (key i) as [o []]; try done. cbn in E. by rewrite E.
Qed.
Lemma iter_search_filter oid target items : after oid target items → filter (λ i, shown_as oid target i) items ≠ [] →
  head (iter_search oid (Some target) items) = head (filter (λ i, shown_as oid target i) items).
Proof.
  induction items as [|i items IH]; intros Ha Hne; [done|]. pose proof (IH (after_cons _ _ _ _ Ha)) as IH'. destruct (hashed oid (sf_casefold_hash target) (key i)) eqn:E; [|by rewrite (not_shown _ _ _ _ Ha E) in Hne].
  apply hashed_inv in E as [raw Hk]. cbn [iter_search]. rewrite filter_cons in Hne |- *. rewrite Hk. cbn [ObjectKey.encrypted_child object_id]. destruct (decide (Is_true (shown_as oid target i))) as [Hsh|Hsh].
  - apply Is_true_true, shown_as_inv in Hsh as (raw' & Hk' & Ht & Hv). rewrite Hk in Hk'. injection Hk' as <-. rewrite decide_False by tauto. rewrite Z.eqb_refl. by rewrite decide_True.
  - destruct (decide (value i = VNone ∧ oid = oid)) as [|Hv]; [by apply IH'|]. rewrite Z.eqb_refl. rewrite decide_False; [by apply IH'|]. intros Ht. apply Hsh, Is_true_true, shown_as_inv. exists raw. split_and!; [done|done|tauto].
Qed.
End scan.

(** ** Locked directories *)
Section locked.
Context `{Aes256, !Aes256Laws, Base64, !Base64Laws} (T : Tables) (normal_form : list Z → list Z) (fscrypt_key : Z → res (option Key)) (addr graveyard_id : Z) (fuel : nat).
Abbreviation same := (same_key normal_form).
Abbreviation lookup := (Directory.lookup T normal_form fscrypt_key addr fuel).
Abbreviation shows_ := (shows normal_form).
Abbreviation grave id := (ObjectKey.graveyard_entry graveyard_id id).
Definition locked (d : Directory) : Prop := is_deleted d = false ∧ (∃ w, dir_wrapping_key_id d = Some w) ∧ fscrypt_key (dir_object_id d) = Ok None.

Lemma update_dir_tombstones t d a txn u txn' : update_dir_attributes_internal normal_form t d a txn = (Ok u, txn') → tombstones txn' = tombstones txn.
Proof.
  unfold update_dir_attributes_internal, txn_get_object_mutation. st_simpl. destruct (rensure _ _); [|done..]. destruct (Transaction.get_object_mutation _ _ _) as [m|]; [|destruct (tree_find _ _ _) as [j|]; [|done]]; st_simpl;
    (destruct (value _); try done); (match goal with kind : ObjectKind |- _ => destruct kind; try done end); by intros [= _ <-].
Qed.

Lemma add_to_hash_u64 hash i : 0 ≤ FxHasher.add_to_hash hash i < 2 ^ 64.
Proof. apply Z.mod_pos_bound. done. Qed.
Lemma raw_hash_u64 raw : 0 ≤ SyntheticFilename.raw_filename_to_raw_hash raw < 2 ^ 64.
Proof.
  unfold SyntheticFilename.raw_filename_to_raw_hash, FxHasher.finish, FxHash.hash_bytes, FxHash.write, FxHash.write_int. pose proof (add_to_hash_u64 FxHasher.default (Z.of_nat (length raw))) as Hh.
  assert (∀ n hb, 0 ≤ hb.1 < 2 ^ 64 → 0 ≤ (FxHash.write_part n hb).1 < 2 ^ 64) as Hpart by (intros n [h b] Hb; cbn; destruct (decide _); [apply add_to_hash_u64|done]).
  do 3 apply Hpart. assert (∀ n hash l, 0 ≤ hash < 2 ^ 64 → 0 ≤ (FxHash.write_words n hash l).1 < 2 ^ 64) as Hw; [|by apply Hw].
  intros n. induction n as [|n IH]; intros hash l Hl; [done|]. cbn [FxHash.write_words]. destruct (decide _); [|done]. apply IH, add_to_hash_u64.
Qed.
Lemma synthetic_roundtrip h raw : 0 ≤ h < 2 ^ 32 → Forall is_u8 raw →
  ∃ name, SyntheticFilename.encode (SyntheticFilename.from_object_key h raw) = Ok name ∧ name ≠ [] ∧ SyntheticFilename.decode name = SyntheticFilename.from_object_key h raw.
Proof.
  intros Hh Hraw. unfold SyntheticFilename.encode. cbn [SyntheticFilename.from_object_key raw_prefix sf_casefold_hash raw_hash]. rewrite (proj2 (Nat.eqb_eq _ _)) by (rewrite length_take; lia). cbn [rassert]. res_simpl. eexists. split; [done|].
  set (r := SyntheticFilename.raw_filename_to_raw_hash raw). set (body := le_split 4 h ++ le_split 8 r ++ take 48 raw).
  assert (Forall is_u8 body) as Hb by (unfold body; rewrite !Forall_app; split_and!; [apply le_split_u8|apply le_split_u8|by apply Forall_take]).
  assert (length body = 12 + length (take 48 raw))%nat as Hl by (unfold body; rewrite !length_app, !length_le_split; lia). split.
  - intros He. pose proof (base64_roundtrip body Hb) as Hr. rewrite He, <- base64_empty, base64_roundtrip in Hr by constructor. injection Hr as Hr. rewrite <- Hr in Hl. cbn in Hl. lia.
  - unfold SyntheticFilename.decode. rewrite base64_roundtrip by done. rewrite (proj2 (Nat.ltb_ge _ _)) by lia. unfold body, SyntheticFilename.from_object_key.
    rewrite take_app_length', (drop_app_length' _ _ 4), take_app_length' by (symmetry; apply length_le_split). rewrite (assoc_L app), (drop_app_length' _ _ 12) by (rewrite length_app, !length_le_split; done).
    rewrite !le_combine_split_id; [done|apply raw_hash_u64|done].
Qed.

(** A name that only one child is shown as finds it, and its record. *)
Lemma shown_filter t oid target i : i ∈ t → shown_as oid target i = true → (∀ j, j ∈ t → shown_as oid target j = true → j = i) → head (filter (λ i, shown_as oid target i) t) = Some i.
Proof.
  intros Hi Hsh Hu. destruct (filter _ t) as [|j l] eqn:E.
  - assert (i ∈ filter (λ i, shown_as oid target i) t) as Hin by (apply list_elem_of_filter; split; [by apply Is_true_true|done]). rewrite E in Hin. by apply not_elem_of_nil in Hin.
  - assert (j ∈ filter (λ i, shown_as oid target i) t) as [Hj%Is_true_true Hin]%list_elem_of_filter by (rewrite E; constructor). cbn. by rewrite (Hu j).
Qed.
Section child.
Context (t : contents) (d : Directory) (i : ObjectItem) (h : Z) (raw : list Z) (c : ChildValue).
Context (Hd : locked d) (Hs : sorted_tree normal_form t) (Hi : i ∈ t) (Hk : key i = ObjectKey.encrypted_child (dir_object_id d) raw h) (Hv : value i = VChild c).
Context (Hh : 0 ≤ h < 2 ^ 32) (Hraw : Forall is_u8 raw) (Hu : ∀ j, j ∈ t → shown_as (dir_object_id d) (SyntheticFilename.from_object_key h raw) j = true → j = i).
Context (name : list Z) (Hne : name ≠ []) (Hdec : SyntheticFilename.decode name = SyntheticFilename.from_object_key h raw) (Henc : SyntheticFilename.encode (SyntheticFilename.from_object_key h raw) = Ok name).

Lemma locked_found : head (filter (λ i, shown_as (dir_object_id d) (SyntheticFilename.from_object_key h raw) i) t) = Some i.
Proof using Hi Hk Hv Hu. apply shown_filter; [done| |done]. apply shown_as_inv. exists raw. rewrite Hv. done. Qed.
Lemma locked_query : filter (λ i, shown_as (dir_object_id d) (SyntheticFilename.from_object_key h raw) i) (tree_query normal_form t (SyntheticFilename.to_query_key (SyntheticFilename.from_object_key h raw) (dir_object_id d))) =
  filter (λ i, shown_as (dir_object_id d) (SyntheticFilename.from_object_key h raw) i) t.
Proof. apply query_filter. intros j Hj. by apply shown_as_query. Qed.
Lemma locked_lookup : lookup t d name = Ok (Some (child_object_id c, object_descriptor c)).
Proof.
  destruct Hd as (Hdel & [w Hw] & Hf). unfold Directory.lookup, lookup_item. rewrite Hdel, Hw, Hf. res_simpl. rewrite Hdec, (lookup_synthetic_filter normal_form) by (by apply query_sorted). rewrite locked_query, locked_found. by rewrite Hv.
Qed.
Lemma locked_entry txn : distinct normal_form txn → ∃ txn', replace_entry T normal_form fscrypt_key addr fuel t d name VNone txn = (Ok tt, txn') ∧ tombstones txn' = tombstones txn ∧ sets normal_form t txn (key i) VNone txn'.
Proof.
  intros Hdis. destruct (st_add_sets normal_form t txn (key i) VNone Hdis) as (txn' & He & Hset). exists txn'. split; [|split; [by injection He as <-|done]]. destruct Hd as (Hdel & [w Hw] & Hf). unfold replace_entry. rewrite Hw. st_simpl. rewrite Hf. rewrite bool_decide_eq_true_2 by done. cbn [rensure]. st_simpl.
  assert (∃ it, iter_from T normal_form fscrypt_key addr fuel t d name = Ok it ∧ head (di_iter it) = Some i) as (it & Hit & Hhead).
  { unfold iter_from. rewrite Hdel, Hw, Hf. cbn [negb rensure]. res_simpl. rewrite Hdec. destruct name as [|x name'] eqn:En; [done|]. rewrite <- En in *.
    pose proof (iter_search_filter normal_form (dir_object_id d) (SyntheticFilename.from_object_key h raw) _ (query_sorted normal_form t (SyntheticFilename.to_query_key (SyntheticFilename.from_object_key h raw) (dir_object_id d)) Hs)) as Hsearch.
    rewrite locked_query, locked_found in Hsearch. assert (filter (λ i, shown_as (dir_object_id d) (SyntheticFilename.from_object_key h raw) i) t ≠ []) as Hnil by (intros Hnil; pose proof locked_found as Hl; by rewrite Hnil in Hl).
    specialize (Hsearch Hnil). destruct (iter_search _ _ _) as [|j l]; [done|]. injection Hsearch as ->. destruct i as [ki vi si]. cbn in Hk. rewrite Hk. cbn. unfold update_encrypted_filename. cbn [di_key]. rewrite Henc. res_simpl. eexists. by split. }
  rewrite Hit. destruct (di_iter it) as [|j l]; [done|]. injection Hhead as ->. rewrite Hk in He |- *. cbn [data ObjectKey.encrypted_child]. by rewrite decide_True.
Qed.
Definition removed (txn : Transaction) : Prop := ∀ k, child_key k = true → shows_ t txn k = if same (key i) k then None else shows_ t empty k.
(** What is left to do once the child's object has been dealt with. *)
Lemma locked_unlink result delta now txn1 n :
  release_child T normal_form fscrypt_key addr graveyard_id fuel t (Some (child_object_id c, object_descriptor c)) false now empty = (Ok (result, delta), txn1) → distinct normal_form txn1 →
  (∀ k, child_key k = true → shows_ t txn1 k = shows_ t empty k) → directory_record normal_form t txn1 (dir_object_id d) n → 0 ≤ n ≤ u64_max →
  ∃ txn, replace_child T normal_form fscrypt_key addr graveyard_id fuel t None d name now empty = (Ok result, txn) ∧ tombstones txn = tombstones txn1 ∧
    removed txn ∧ (∀ id, shows_ t txn (grave id) = shows_ t txn1 (grave id)) ∧ directory_record normal_form t txn (dir_object_id d) (Z.min u64_max (Z.max 0 (n + delta))).
Proof.
  intros He1 Hd1 Hk1 Hrec1 Hn. destruct (locked_entry txn1 Hd1) as (txn2 & He2 & Ht2 & Hs2). assert (child_key (key i) = true) as Hc by (by rewrite Hk).
  destruct (update_dir_attributes_sets normal_form t txn2 d n (mkMutable (0 + delta) (Some now) (Some (Timestamp.as_nanos now)) None) (proj1 Hs2) (proj1 Hd)) as (txn3 & v & He3 & Hs3 & Hrec3); [eapply record_sets_other; eauto|done|].
  exists txn3. split_and!; [| | | |exact Hrec3].
  - unfold replace_child. st_simpl. unfold replace_child_with_object. st_simpl. rewrite locked_lookup. st_simpl. rewrite He1. st_simpl. rewrite He2. st_simpl. by rewrite He3.
  - rewrite <- Ht2. by eapply update_dir_tombstones.
  - intros k Hck. rewrite (proj2 Hs3), (proj2 (other_kind _ k (ObjectKey.object _) Hck eq_refl)), (proj2 Hs2). destruct (same (key i) k); [done|]. by apply Hk1.
  - intros id. by rewrite (proj2 Hs3), (proj1 (object_grave _ _ _ _)), (proj2 Hs2), (proj1 (other_kind _ (key i) (grave id) Hc eq_refl)).
Qed.
End child.

(** Files and symbolic links. *)
Lemma locked_release t d i h raw id descriptor name now n kind refs a : locked d → sorted_tree normal_form t → i ∈ t → key i = ObjectKey.encrypted_child (dir_object_id d) raw h → value i = ObjectValue.child id descriptor →
  (∀ j, j ∈ t → shown_as (dir_object_id d) (SyntheticFilename.from_object_key h raw) j = true → j = i) →
  name ≠ [] → SyntheticFilename.decode name = SyntheticFilename.from_object_key h raw → SyntheticFilename.encode (SyntheticFilename.from_object_key h raw) = Ok name →
  graveyard_id ≠ 0 → directory_record normal_form t empty (dir_object_id d) n → 0 ≤ n ≤ u64_max →
  descriptor = DFile ∨ descriptor = DSymlink → shows_ t empty (ObjectKey.object id) = Some (VObject kind a) → links kind = Some refs → 1 ≤ refs ≤ u64_max →
  ∃ txn, replace_child T normal_form fscrypt_key addr graveyard_id fuel t None d name now empty = (Ok (if refs =? 1 then ReplacedObject id else ReplacedObjectWithRemainingLinks id), txn) ∧ removed t i txn ∧
    shows_ t txn (grave id) = (if refs =? 1 then Some VSome else shows_ t empty (grave id)) ∧ directory_record normal_form t txn (dir_object_id d) n.
Proof.
  intros Hd Hs Hi Hk Hv Hu Hne Hdec Henc Hg Hrec Hn Hdesc Ho Hl Hr.
  destruct (release_linked T normal_form fscrypt_key addr graveyard_id fuel t empty id descriptor kind refs a false now Hdesc (distinct_empty _) Hg Ho Hl Hr) as (txn1 & a' & He1 & Hd1 & Hk1).
  destruct (locked_unlink t d i h raw (mkChild id descriptor) Hd Hs Hi Hk Hv Hu name Hne Hdec Henc _ _ _ _ n He1 Hd1) as (txn & He & _ & Hrm & Hgr & Hdr); [| |done|].
  - intros k Hck. rewrite Hk1, (proj2 (other_kind _ k (ObjectKey.object id) Hck eq_refl)), (proj2 (other_kind _ k (grave id) Hck eq_refl)). by rewrite andb_false_r.
  - destruct Hrec as (w & cf & b & Hrec). exists w, cf, b. rewrite Hk1, same_object, (proj2 (object_grave _ _ _ _)), andb_false_r. destruct (Z.eqb_spec id (dir_object_id d)) as [->|]; [|done]. rewrite Ho in Hrec. injection Hrec as ->. done.
  - exists txn. split_and!; [done|done| |]; [by rewrite Hgr, Hk1, (proj1 (object_grave _ _ _ _)), same_refl, andb_true_r|]. by replace (Z.min u64_max (Z.max 0 (n + 0))) with n in Hdr by lia.
Qed.

(** C12: Without the key, a child is found by the name it is shown as, if it is
    the only one shown so, and can be unlinked by that name. The last link of a
    file or a symbolic link puts it into the graveyard; with other links its
    graveyard entry stays as it is. A directory that [has_children] finds
    children in is refused as not empty, with nothing in the transaction; one it
    finds empty is put into the graveyard, with its tombstone queued, and one
    subdirectory less is counted. Whenever the child is unlinked its record is
    removed, and among all records of children only this one. A volume is
    refused as inconsistent. The tree is sorted, the store has a graveyard, and
    the records of the directory and of the child's object are there, with a
    link count of at least 1. *)
Theorem locked_directory t d i h raw id descriptor now n : locked d → sorted_tree normal_form t → i ∈ t → key i = ObjectKey.encrypted_child (dir_object_id d) raw h → value i = ObjectValue.child id descriptor →
  0 ≤ h < 2 ^ 32 → Forall is_u8 raw → (∀ j, j ∈ t → shown_as (dir_object_id d) (SyntheticFilename.from_object_key h raw) j = true → j = i) →
  graveyard_id ≠ 0 → directory_record normal_form t empty (dir_object_id d) n → 0 ≤ n ≤ u64_max →
  ∃ name, SyntheticFilename.encode (SyntheticFilename.from_object_key h raw) = Ok name ∧ lookup t d name = Ok (Some (id, descriptor)) ∧
    let unlink := replace_child T normal_form fscrypt_key addr graveyard_id fuel t None d name now empty in
    match descriptor with
    | DFile | DSymlink => ∀ kind refs a, shows_ t empty (ObjectKey.object id) = Some (VObject kind a) → links kind = Some refs → 1 ≤ refs ≤ u64_max →
        ∃ txn, unlink = (Ok (if refs =? 1 then ReplacedObject id else ReplacedObjectWithRemainingLinks id), txn) ∧ removed t i txn ∧
          shows_ t txn (grave id) = (if refs =? 1 then Some VSome else shows_ t empty (grave id)) ∧ directory_record normal_form t txn (dir_object_id d) n
    | DDirectory => ∀ c b, open normal_form t id = Ok c → has_children T normal_form fscrypt_key addr fuel t c = Ok b →
        if b then unlink = (Err (Fxfs NotEmpty), empty)
        else ∃ txn, unlink = (Ok (ReplacedDirectory id), txn) ∧ removed t i txn ∧ shows_ t txn (grave id) = Some VSome ∧ tombstones txn = [id] ∧
          directory_record normal_form t txn (dir_object_id d) (Z.max 0 (n - 1))
    | DVolume => unlink = (Err (Fxfs Inconsistent), empty)
    end.
Proof.
  intros Hd Hs Hi Hk Hv Hh Hraw Hu Hg Hrec Hn. destruct (synthetic_roundtrip h raw Hh Hraw) as (name & Henc & Hne & Hdec).
  pose proof (locked_lookup t d i h raw _ Hd Hs Hi Hk Hv Hu name Hdec) as Hl. pose proof (locked_unlink t d i h raw _ Hd Hs Hi Hk Hv Hu name Hne Hdec Henc) as Hun. cbn [child_object_id object_descriptor] in Hl, Hun.
  exists name. split_and!; [done|done|]. cbn zeta.
  destruct descriptor; [intros kind refs a Ho Hlinks Hr; eapply locked_release; eauto| | |intros kind refs a Ho Hlinks Hr; eapply locked_release; eauto].
  - intros c b Hopen Hb. pose proof (release_directory T normal_form fscrypt_key addr graveyard_id fuel t empty id c b false now (distinct_empty _) Hg Hopen Hb) as Hrel. destruct b; [unfold replace_child; st_simpl; unfold replace_child_with_object; st_simpl; rewrite Hl; st_simpl; by rewrite Hrel|].
    destruct Hrel as (txn1 & He1 & Ht1 & Hs1). destruct (Hun _ _ _ _ n He1 (proj1 Hs1)) as (txn & He & Ht & Hrm & Hgr & Hdr); [|eapply record_sets_other; [|exact Hs1|exact Hrec]; right; by eexists|done|].
    + intros k Hck. by rewrite (proj2 Hs1), (proj2 (other_kind _ k (grave id) Hck eq_refl)).
    + exists txn. split_and!; [done|done|by rewrite Hgr, (proj2 Hs1), same_refl|by rewrite Ht, Ht1|]. replace (Z.max 0 (n - 1)) with (Z.min u64_max (Z.max 0 (n + -1))) by lia. done.
  - unfold replace_child. st_simpl. unfold replace_child_with_object. st_simpl. by rewrite Hl.
Qed.
End locked.

(** ** Inserting into the list of records *)
Section insert.
Context (normal_form : list Z → list Z).
Abbreviation cmp := (object_cmp_upper_bound normal_form).
Abbreviation insert := (tree_replace_or_insert normal_form).

Lemma insert_elem t i j : j ∈ insert t i → j = i ∨ j ∈ t.
Proof.
  induction t as [|j' t IH]; cbn [tree_replace_or_insert]; [intros ->%list_elem_of_singleton; by left|]. destruct (cmp (key i) (key j')); rewrite !elem_of_cons; naive_solver.
Qed.
Lemma cmp_lt_lt a b c : cmp a b = Lt → cmp b c = Lt → cmp a c = Lt.
Proof.
  intros Hab Hbc. pose proof (cmp_le_trans (cmp := cmp) a b c ltac:(congruence) ltac:(congruence)) as Hle. destruct (cmp a c) eqn:E; [|done|done]. exfalso.
  pose proof (cmp_le_trans (cmp := cmp) c a b) as Hcb. rewrite (cmp_opp (cmp := cmp) c a), (cmp_opp (cmp := cmp) c b), E, Hbc in Hcb. apply Hcb; [done|congruence|done].
Qed.
Lemma insert_sorted_tree t i : sorted_tree normal_form t → sorted_tree normal_form (insert t i).
Proof.
  induction 1 as [|j t Hs IH Hj]; [repeat constructor|]. cbn [tree_replace_or_insert]. destruct (cmp (key i) (key j)) eqn:E.
  - constructor; [done|]. eapply Forall_impl; [exact Hj|]. intros x Hx. cbn beta in *. apply same_Eq, same_place in E. rewrite cmp_upper_code in *. by rewrite E.
  - repeat constructor; [done|done|done|]. eapply Forall_impl; [exact Hj|]. intros x Hx. by eapply cmp_lt_lt.
  - constructor; [done|]. apply Forall_forall. intros x [->|Hx]%insert_elem; [by rewrite cmp_opp, E|]. by apply (proj1 (Forall_forall _ _) Hj).
Qed.
Lemma filter_insert (P : ObjectItem → bool) t i : (∀ j, same_key normal_form (key i) (key j) = true → P j = true → P i = true) →
  (P i = false → filter (λ j, P j) (insert t i) = filter (λ j, P j) t) ∧ (P i = true → filter (λ j, P j) t = [] → filter (λ j, P j) (insert t i) = [i]).
Proof.
  intros HP. induction t as [|j t [IH1 IH2]]; cbn [tree_replace_or_insert].
  - split; intros Hi; rewrite filter_cons, Hi; done.
  - destruct (cmp (key i) (key j)) eqn:E; rewrite !filter_cons; (split; [intros Hi|intros Hi Hn]); rewrite ?Hi.
    + rewrite decide_False by (intros []). rewrite decide_False; [done|]. intros Hj%Is_true_true. rewrite (HP j (same_Eq _ _ _ E) Hj) in Hi. done.
    + rewrite decide_True by done. destruct (decide (Is_true (P j))); [done|]. by rewrite Hn.
    + by rewrite decide_False by (intros []).
    + rewrite decide_True by done. by rewrite Hn.
    + by rewrite IH1.
    + destruct (decide (Is_true (P j))); [done|]. by apply IH2.
Qed.

(** What a sorted tree shows is its records that are not deleted. *)
Lemma find_sorted t j : sorted_tree normal_form t → j ∈ t → value j ≠ VNone → tree_find normal_form t (key j) = Some j.
Proof.
  induction 1 as [|i t Hs IH Hi]; [by intros ?%not_elem_of_nil|]. rewrite find_cons. intros [->|Hj]%elem_of_cons Hv; [rewrite same_refl; unfold live; by rewrite decide_False|].
  rewrite Forall_forall in Hi. specialize (Hi j Hj). cbn beta in Hi. unfold same_key. rewrite Hi. auto.
Qed.
Lemma shows_sorted t j : sorted_tree normal_form t → j ∈ t → value j ≠ VNone → shows normal_form t empty (key j) = Some (value j).
Proof. intros Hs Hj Hv. unfold shows. rewrite view_empty. by rewrite find_sorted. Qed.
Lemma apply_sorted t txn : sorted_tree normal_form t → sorted_tree normal_form (Transaction.apply normal_form txn t).
Proof. unfold Transaction.apply. generalize (mutations txn). intros l. revert t. induction l as [|m l IH]; intros t Hs; [done|]. cbn [foldl]. by apply IH, insert_sorted_tree. Qed.
Lemma strict_unique {A} (R : A → A → Prop) l l' : (∀ x y, R x y → R y x → False) → StronglySorted R l → StronglySorted R l' → (∀ x, x ∈ l ↔ x ∈ l') → l = l'.
Proof.
  intros HR Hl Hl' He. assert (∀ l, StronglySorted R l → NoDup l) as Hnd.
  { induction 1 as [|x s Hs IH Hx]; constructor; [|done]. intros Hin. rewrite Forall_forall in Hx. pose proof (Hx x Hin). by eapply HR. }
  assert (AntiSymm eq R) by (intros x y Hxy Hyx; by destruct (HR x y)). apply (StronglySorted_unique R); [done|done|apply NoDup_Permutation; auto].
Qed.
End insert.

(** ** Case-insensitive encrypted directories

    [good] are names that the comparison is known for: [UnicodeNfd] shows that
    it compares normal forms, with enough fuel. *)
Section folding.
Context `{Aes256, !Aes256Laws, Base64} (T : Tables) (normal_form : list Z → list Z) (fscrypt_key : Z → res (option Key)) (addr graveyard_id : Z) (fuel : nat).
Context (d : Directory) (k : Key) (good : list Z → Prop).
Abbreviation lookup := (Directory.lookup T normal_form fscrypt_key addr fuel).
Abbreviation get_casefold_hash := (Directory.get_casefold_hash T addr fuel).
Abbreviation oid := (dir_object_id d).
Record folding : Prop := {
  folding_dir : is_deleted d = false ∧ dir_wrapping_key_id d ≠ None ∧ dir_casefold d = true ∧ 0 ≤ oid ≤ u64_max;
  folding_key : fscrypt_key oid = Ok (Some k) ∧ has_key k;
  good_text name : good name → Forall is_char name ∧ mapM Generator.from_u32 name = Some name ∧ last name ≠ Some 0;
  good_cmp a b : good a → good b → casefold_cmp T fuel a b = Ok (seq_cmp (normal_form a) (normal_form b));
  good_hash name : good name → ∃ hash, get_casefold_hash (Some k) name true = Ok hash;
}.
Context (Hf : folding).

Definition entries_ok (t : contents) : Prop := ∀ i raw h, i ∈ t → value i ≠ VNone → key i = ObjectKey.encrypted_child oid raw h → ∃ name, good name ∧ encrypt_filename k oid name = Ok raw.
Lemma decrypt_good name raw : good name → encrypt_filename k oid name = Ok raw → decrypt_filename k oid raw = Ok name.
Proof using Type*.
  intros (Hc & Hm & Hl)%(good_text Hf) He. destruct (encrypt_name k d name (proj2 (folding_key Hf)) (proj2 (proj2 (proj2 (folding_dir Hf)))) Hc Hl) as (out & He' & Hd). rewrite He in He'. injection He' as <-.
  unfold decrypt_filename, from_utf8. rewrite Hd. res_simpl. rewrite utf8_roundtrip by done. rewrite decide_True by done. by rewrite Hm.
Qed.

(** The records that a name with a hash finds. *)
Definition named (h : Z) (name : list Z) (i : ObjectItem) : bool :=
  match key i with
  | mkObjectKey _ (KEncryptedChild _ raw) =>
      hashed oid h (key i) && negb (bool_decide (value i = VNone)) && match decrypt_filename k oid raw with Ok s => bool_decide (normal_form s = normal_form name) | _ => false end
  | _ => false
  end.
Lemma named_hashed h name i : named h name i = true → hashed oid h (key i) = true ∧ value i ≠ VNone.
Proof. unfold named. destruct (key i) as [o []]; try done. intros [[Hh Hv%negb_true_iff%bool_decide_eq_false]%andb_true_iff _]%andb_true_iff. done. Qed.
Lemma named_query h name i : named h name i = true → object_cmp_upper_bound normal_form (key i) (ObjectKey.encrypted_child oid [] h) ≠ Lt.
Proof. intros [[raw ->]%hashed_inv _]%named_hashed. unfold object_cmp_upper_bound. cbn. rewrite !Z.compare_refl. by destruct raw. Qed.
Lemma named_good h name i raw s : key i = ObjectKey.encrypted_child oid raw h → value i ≠ VNone → good s → encrypt_filename k oid s = Ok raw → named h name i = bool_decide (normal_form s = normal_form name).
Proof using Type*.
  intros Hk Hv Hs He. unfold named. rewrite Hk. cbn [ObjectKey.encrypted_child hashed]. rewrite !Z.eqb_refl, (decrypt_good s raw Hs He). by rewrite bool_decide_eq_false_2.
Qed.
Lemma lookup_casefold_filter name h items : good name → entries_ok items → sorted_tree normal_form items → Forall (λ i, object_cmp_upper_bound normal_form (key i) (ObjectKey.encrypted_child oid [] h) ≠ Lt) items →
  lookup_casefold T fuel k d name h items = Ok (head (filter (λ i, named h name i) items)).
Proof using Type*.
  intros Hn. induction items as [|i items IH]; intros Hok Hs Hq; [done|]. pose proof Hs as [Hs' _]%StronglySorted_inv. pose proof Hq as [Hqi Hq']%Forall_cons. assert (entries_ok items) as Hok' by (intros j raw h' Hj; apply Hok; by constructor).
  specialize (IH Hok' Hs' Hq'). cbn [lookup_casefold]. rewrite filter_cons. destruct (decide (value i = VNone)) as [Hv|Hv]; [rewrite decide_False; [done|]; by intros [_ ?]%Is_true_true%named_hashed|].
  destruct (hashed oid h (key i)) eqn:E.
  - apply hashed_inv in E as [raw Hk]. destruct (Hok i raw h ltac:(constructor) Hv Hk) as (s & Hgs & He). rewrite (named_good h name i raw s Hk Hv Hgs He), Hk. cbn [ObjectKey.encrypted_child]. rewrite !Z.eqb_refl. cbn [andb].
    rewrite (decrypt_good s raw Hgs He). res_simpl. rewrite (good_cmp Hf name s Hn Hgs). res_simpl. destruct (seq_cmp (normal_form name) (normal_form s)) eqn:Ec.
    + rewrite bool_decide_eq_true_2; [done|]. symmetry. by apply seq_cmp_Eq.
    + rewrite bool_decide_eq_false_2; [done|]. intros He'. by rewrite He', seq_cmp_refl in Ec.
    + rewrite bool_decide_eq_false_2; [done|]. intros He'. by rewrite He', seq_cmp_refl in Ec.
  - assert (filter (λ i, named h name i) items = []) as -> by (apply filter_false; eapply Forall_impl; [by eapply sorted_hashed|]; intros j Hj; cbn beta in Hj; destruct (named h name j) eqn:En; [|done]; apply named_hashed in En as [En _]; congruence).
    rewrite decide_False by (intros [? _]%Is_true_true%named_hashed; congruence). destruct (key i) as [o []]; try done. cbn in E. by rewrite E.
Qed.
Lemma lookup_folding t name h : sorted_tree normal_form t → entries_ok t → good name → get_casefold_hash (Some k) name true = Ok h →
  lookup t d name = match head (filter (λ i, named h name i) t) with Some i => child_of (Some (value i)) | None => Ok None end.
Proof using Type*.
  intros Hs Hok Hn Hh. unfold Directory.lookup, lookup_item. destruct (folding_dir Hf) as (Hdel & Hw & Hcf & _). destruct (folding_key Hf) as [Hfk _]. rewrite Hdel. destruct (dir_wrapping_key_id d); [|done]. rewrite Hfk. res_simpl. rewrite Hcf. cbn [negb]. rewrite Hh. res_simpl.
  destruct (query_sorted normal_form t (ObjectKey.encrypted_child oid [] h) Hs) as [Hs' Hq]. rewrite lookup_casefold_filter; [|done| |done|done].
  - res_simpl. rewrite query_filter by (by apply named_query). destruct (head _) as [i|]; [|done]. cbn. by destruct (value i).
  - intros i raw h' [_ Hi]%list_elem_of_filter. by apply Hok.
Qed.

(** The transaction that adds a child to an empty one. *)
Lemma insert_child_run t name id descriptor now n h raw : good name → get_casefold_hash (Some k) name true = Ok h → encrypt_filename k oid name = Ok raw → (descriptor = DFile ∨ descriptor = DDirectory) → directory_record normal_form t empty oid n →
  ∃ i, object_id (key i) = oid ∧ data (key i) = KObject ∧
    insert_child T normal_form fscrypt_key addr fuel t d name id descriptor now empty =
      (Ok tt, mkTransaction [replace_or_insert_object (ObjectKey.encrypted_child oid raw h) (ObjectValue.child id descriptor); mkMutation i OpReplaceOrInsert] []).
Proof using Type*.
  intros Hn Hh He Hdesc (w & c & a & Hr). unfold shows in Hr. destruct (view normal_form t empty (ObjectKey.object oid)) as [i|] eqn:Ev; [|done]. injection Hr as Hr. rewrite view_empty in Ev. pose proof Ev as (Hk%same_place & _ & _)%find_Some.
  assert (object_id (key i) = oid ∧ data (key i) = KObject) as [Hoid Hdata] by (destruct (key i) as [o [| |? []| | | | | | |]]; unfold code in Hk; cbn in Hk; try discriminate Hk; injection Hk as ->; done).
  destruct (folding_dir Hf) as (Hdel & Hw & Hcf & _). destruct (folding_key Hf) as [Hfk _]. eexists (mkItem (key i) _ (sequence i)). split_and!; [exact Hoid|exact Hdata|].
  unfold insert_child. rewrite Hdel. destruct (dir_wrapping_key_id d); [|done]. rewrite Hfk. rewrite bool_decide_eq_true_2 by done. cbn [negb rensure]. st_simpl. unfold encrypted_key. rewrite Hcf, Hh. res_simpl. rewrite He. res_simpl. st_simpl.
  assert (same_key normal_form (ObjectKey.encrypted_child oid raw h) (ObjectKey.object oid) = false ∧ same_key normal_form (ObjectKey.encrypted_child oid raw h) (key i) = false) as [Hs1 Hs2] by (split; apply (other_kind normal_form (ObjectKey.encrypted_child oid raw h)); unfold child_key; rewrite ?Hdata; done).
  set (m := replace_or_insert_object _ (ObjectValue.child id descriptor)). change (st_add normal_form m empty) with (Ok tt : res unit, mkTransaction [m] []). cbn match.
  unfold update_dir_attributes_internal. rewrite Hdel. cbn [negb rensure]. st_simpl.
  assert (txn_get_object_mutation normal_form t oid (mkTransaction [m] []) = (Ok (mkMutation i OpReplaceOrInsert), mkTransaction [m] [])) as ->.
  { unfold txn_get_object_mutation, Transaction.get_object_mutation. cbn [mutations list_find mitem key m replace_or_insert_object Item.new]. rewrite Hs1. rewrite decide_False by (intros []). cbn [fmap option_fmap option_map]. by rewrite Ev. }
  st_simpl. cbn [mitem]. rewrite Hr. unfold st_add, Transaction.add. cbn [mutations tombstones]. rewrite filter_cons. cbn [with_value mitem key m replace_or_insert_object Item.new op]. rewrite Hs2. cbn [negb]. rewrite decide_True by done. reflexivity.
Qed.
(** C13: A child that is added is found by the names that have its hash and its
    normal form; other names find what they found. *)
Theorem insert_child_casefold t name id descriptor now n : sorted_tree normal_form t → entries_ok t → good name → lookup t d name = Ok None → (descriptor = DFile ∨ descriptor = DDirectory) → directory_record normal_form t empty oid n →
  ∃ txn, insert_child T normal_form fscrypt_key addr fuel t d name id descriptor now empty = (Ok tt, txn) ∧
    ∀ name', good name' →
      (get_casefold_hash None name' true = get_casefold_hash None name true → normal_form name' = normal_form name → lookup (Transaction.apply normal_form txn t) d name' = Ok (Some (id, descriptor))) ∧
      (get_casefold_hash None name' true ≠ get_casefold_hash None name true ∨ normal_form name' ≠ normal_form name → lookup (Transaction.apply normal_form txn t) d name' = lookup t d name').
Proof using Type*.
  intros Hs Hok Hn Hl Hdesc Hr. destruct (good_hash Hf name Hn) as [h Hh]. pose proof (folding_key Hf) as [_ Hkey]. destruct (good_text Hf name Hn) as (Hc & _ & Hlast).
  destruct (encrypt_name k d name Hkey (proj2 (proj2 (proj2 (folding_dir Hf)))) Hc Hlast) as (raw & He & _). destruct (insert_child_run t name id descriptor now n h raw Hn Hh He Hdesc Hr) as (di & Hdo & Hdd & Hrun). eexists. split; [exact Hrun|].
  set (i := Item.new (ObjectKey.encrypted_child oid raw h) (ObjectValue.child id descriptor)). unfold Transaction.apply. cbn [mutations foldl mitem replace_or_insert_object]. fold i. set (t1 := tree_replace_or_insert normal_form t i). set (t2 := tree_replace_or_insert normal_form t1 di).
  assert (sorted_tree normal_form t2) as Hs2 by (do 2 apply insert_sorted_tree; done).
  assert (entries_ok t2) as Hok2.
  { intros j raw' h' [->|[->|Hj]%insert_elem]%insert_elem Hv Hk; [rewrite Hk in Hdd; done|unfold i in Hk; injection Hk as _ Hraw; rewrite <- Hraw; by exists name|by eapply Hok]. }
  assert (∀ h' name', filter (λ j, named h' name' j) t2 = filter (λ j, named h' name' j) t1) as Ht2.
  { intros h' name'. assert (∀ j, named h' name' j = true → same_key normal_form (key di) (key j) = false) as Hdiff by (intros j [[r Hj]%hashed_inv _]%named_hashed; apply other_kind; [by rewrite Hj|unfold child_key; by rewrite Hdd]).
    apply filter_insert; [intros j Hsame Hj; rewrite (Hdiff j Hj) in Hsame; done|]. unfold named. destruct (key di) as [o dt]. cbn in Hdd. by rewrite Hdd. }
  intros name' Hn'. destruct (good_hash Hf name' Hn') as [h' Hh']. rewrite <- !(hash_plain T addr fuel k _ _ Hkey), Hh, Hh'. rewrite (lookup_folding t2 name' h'), Ht2 by done.
  assert (∀ h' name', (∀ j, same_key normal_form (key i) (key j) = true → named h' name' j = true → named h' name' i = true)) as Hsame.
  { intros h'' name'' j Hsame Hj. pose proof Hj as [[r Hjk]%hashed_inv Hjv]%named_hashed. apply same_place in Hsame. rewrite Hjk in Hsame. injection Hsame as Hh'' <-. unfold named in Hj |- *. rewrite Hjk in Hj. cbn in Hj |- *. by rewrite Hh'', bool_decide_eq_false_2 in * by done. }
  split.
  - intros [= ->] Hnf. assert (named h name' i = true) as Hi by (rewrite (named_good h name' i raw name) by done; by apply bool_decide_eq_true_2).
    assert (filter (λ j, named h name' j) t = []) as Hnone.
    { rewrite (list_filter_iff (λ j, Is_true (named h name' j)) (λ j, Is_true (named h name j))) by (intros j; unfold named; by rewrite Hnf).
      rewrite (lookup_folding t name h) in Hl by done. destruct (filter (λ j, named h name j) t) as [|j l] eqn:E; [done|]. assert (j ∈ filter (λ j, named h name j) t) as [[_ Hv]%Is_true_true%named_hashed _]%list_elem_of_filter by (rewrite E; constructor).
      cbn in Hl. by destruct (value j). }
    unfold t1. rewrite (proj2 (filter_insert normal_form _ t i (Hsame h name')) Hi Hnone). done.
  - intros Hne. assert (named h' name' i = false) as Hi.
    { destruct (decide (h' = h)) as [->|Hh'']; [rewrite (named_good h name' i raw name) by done; apply bool_decide_eq_false_2; destruct Hne; congruence|]. destruct (named h' name' i) eqn:E; [|done]. apply named_hashed in E as [[r E]%hashed_inv _]. injection E as ??. congruence. }
    unfold t1. rewrite (proj1 (filter_insert normal_form _ t i (Hsame h' name')) Hi). by rewrite (lookup_folding t name' h').
Qed.

(** *** Unlinking *)
Abbreviation shows_ := (shows normal_form).
Abbreviation grave id := (ObjectKey.graveyard_entry graveyard_id id).
Lemma found_shown h name t x : sorted_tree normal_form t →
  x ∈ (λ i, (key i, value i)) <$> filter (λ i, named h name i) t ↔ shows_ t empty x.1 = Some x.2 ∧ named h name (Item.new x.1 x.2) = true.
Proof using Type.
  intros Hs. rewrite list_elem_of_fmap. setoid_rewrite list_elem_of_filter. split.
  - intros (i & -> & Hn%Is_true_true & Hi). cbn [fst snd]. split; [|exact Hn]. apply shows_sorted; [done|done|]. exact (proj2 (named_hashed _ _ _ Hn)).
  - destruct x as [ke v]. cbn [fst snd]. intros [Hsh Hn]. unfold shows in Hsh. rewrite view_empty in Hsh. destruct (tree_find normal_form t ke) as [i|] eqn:E; [|done]. injection Hsh as <-. apply find_Some in E as (Hk%same_place & Hi & _).
    assert (key i = ke) as <-; [|exists i; split_and!; [done|by apply Is_true_true|done]]. apply named_hashed in Hn as [[r Hke]%hashed_inv _]. cbn in Hke. rewrite Hke in Hk |- *.
    destruct (key i) as [o [| |? []| | | | | | |]]; unfold code in Hk; cbn in Hk; try discriminate Hk. by injection Hk as -> -> ->.
Qed.
(** A transaction that leaves the records of children as they are does not
    change what a name finds. *)
Lemma lookup_unchanged t txn name : sorted_tree normal_form t → entries_ok t → good name → (∀ k, child_key k = true → shows_ t txn k = shows_ t empty k) →
  lookup (Transaction.apply normal_form txn t) d name = lookup t d name.
Proof using Type*.
  intros Hs Hok Hn Hsh. destruct (good_hash Hf name Hn) as [h Hh]. set (t' := Transaction.apply normal_form txn t). assert (sorted_tree normal_form t') as Hs' by (by apply apply_sorted).
  assert (∀ k, child_key k = true → shows_ t' empty k = shows_ t empty k) as Hsh' by exact Hsh.
  assert (entries_ok t') as Hok'.
  { intros j raw h' Hj Hv Hk. pose proof (shows_sorted normal_form t' j Hs' Hj Hv) as He. rewrite Hsh' in He by (by rewrite Hk). unfold shows in He. rewrite view_empty in He. destruct (tree_find normal_form t (key j)) as [i|] eqn:E; [|done].
    apply find_Some in E as (Hki%same_place & Hi & Hvi). rewrite Hk in Hki. apply (Hok i raw h' Hi Hvi). destruct (key i) as [o [| |? []| | | | | | |]]; unfold code in Hki; cbn in Hki; try discriminate Hki. by injection Hki as -> -> ->. }
  rewrite !(lookup_folding _ name h) by done.
  assert ((λ i, (key i, value i)) <$> filter (λ i, named h name i) t' = (λ i, (key i, value i)) <$> filter (λ i, named h name i) t) as He.
  { apply (strict_unique (λ x y, object_cmp_upper_bound normal_form x.1 y.1 = Lt)).
    - intros x y Hxy Hyx. rewrite cmp_opp, Hxy in Hyx. done.
    - eapply StronglySorted_fmap, sorted_filter, Hs'. done.
    - eapply StronglySorted_fmap, sorted_filter, Hs. done.
    - intros x. rewrite !found_shown by done. assert (named h name (Item.new x.1 x.2) = true → child_key x.1 = true) as Hc by (intros [[r Hr]%hashed_inv _]%named_hashed; cbn in Hr; by rewrite Hr).
      split; intros [Hx Hnx]; (split; [|done]); [rewrite <- Hsh' by auto|rewrite Hsh' by auto]; done. }
  destruct (filter _ t') as [|i l], (filter _ t) as [|j l']; try done. cbn [head]. injection He as _ Hv _. by rewrite Hv.
Qed.

End folding.
