(* ===== verification/DirectoryDemo.v ===== *)
(** * Directories of a small tree

    Instances of the properties of [DirectoryProps] and [DirectoryScan], with
    the names of [UnicodeDemo], the cipher of [CryptoDemo] and names shown as
    their bytes. *)

From S2P Require Import Prelude Round Bytes Unicode UnicodeLookup UnicodeIter UnicodeNfd UnicodeDemo Extent LsmTypes ObjectRecord MergeProps ObjectKeyOrder BloomFilter ChaCha Crypto CryptoProps CryptoDemo Directory DirectoryProps DirectoryScan.

#[global] Instance verbatim : Base64 := {| base64_encode l := l; base64_decode l := Some l |}.
#[global] Instance verbatim_laws : Base64Laws.
Proof. by split. Qed.

Module DirectoryDemo.
Definition T : Tables := NameDemo.tables.
Definition normal_form : list Z → list Z := normal NameDemo.ucd NameDemo.dec.
Definition fuel : nat := 30.
Definition addr : Z := 4096.
Definition graveyard : Z := 1.
Definition keys (_ : Z) : res (option Key) := Ok (Some CryptoDemo.file_key).
Definition no_keys (_ : Z) : res (option Key) := Ok None.

Definition time : Timestamp := mkTimestamp 7 0.
Definition attributes : ObjectAttributes := mkAttributes time time 0 None 0 time time.
Definition directory (oid : Z) (w : option Z) (casefold : bool) : ObjectItem := Item.new (ObjectKey.object oid) (VObject (KindDirectory 0 w casefold) attributes).
Definition file (oid refs : Z) : ObjectItem := Item.new (ObjectKey.object oid) (VObject (KindFile refs) attributes).
Definition a : list Z := [0x61].
Definition A : list Z := [0x41].
Definition s : list Z := [0x73].

Definition plain : Directory := mkDirectory 2 false false None.
Definition insensitive : Directory := mkDirectory 3 false true None.
Definition encrypted : Directory := mkDirectory 4 false false (Some 9).
Definition both : Directory := mkDirectory 5 false true (Some 9).
Definition encrypted_entry (d : Directory) (name : list Z) (id : Z) : ObjectItem :=
  Item.new (match encrypted_key T addr fuel CryptoDemo.file_key d name with Ok k => k | _ => ObjectKey.object 0 end) (ObjectValue.child id DFile).
Definition tree : contents := Eval vm_compute in
  [directory 2 None false; Item.new (ObjectKey.child 2 a false) (ObjectValue.child 10 DFile); directory 3 None true; Item.new (ObjectKey.child 3 a true) (ObjectValue.child 11 DFile);
   directory 4 (Some 9) false; encrypted_entry encrypted a 12; directory 5 (Some 9) true; encrypted_entry both a 13; file 10 2; file 11 1; file 12 1; file 13 1].

Abbreviation lookup_ := (lookup T normal_form keys addr fuel).
Abbreviation replace_child_ := (replace_child T normal_form keys addr graveyard fuel).
Abbreviation committed txn := (Transaction.apply normal_form txn tree).
Lemma keyed_encrypted : keyed keys encrypted.
Proof. split; [done|]. cbn. split; [done|]. split; [done|]. exists CryptoDemo.file_key. split; [done|apply CryptoDemo.has_file_key]. Qed.
Lemma tree_record d n w c : tree_find normal_form tree (ObjectKey.object (dir_object_id d)) = Some (directory (dir_object_id d) w c) → n = 0 → directory_record normal_form tree empty (dir_object_id d) n ∧ 0 ≤ n ≤ u64_max.
Proof. intros Hf ->. split; [|done]. exists w, c, attributes. unfold shows. rewrite view_empty, Hf. done. Qed.

Lemma character_ok d c : is_char c → c ≠ 0 → name_ok d [c].
Proof. intros Hc Hne. unfold name_ok. destruct (dir_wrapping_key_id d); [|done]. split; [by apply Forall_singleton|cbn; congruence]. Qed.

Lemma insert_child_map_witness : ∃ txn, insert_child T normal_form keys addr fuel tree encrypted s 20 DDirectory time empty = (Ok tt, txn) ∧
  lookup_ (committed txn) encrypted s = Ok (Some (20, DDirectory)) ∧ lookup_ (committed txn) encrypted a = lookup_ tree encrypted a.
Proof.
  destruct (tree_record encrypted 0 (Some 9) false) as [Hr Hn]; [vm_compute; reflexivity|reflexivity|].
  destruct (insert_child_map T normal_form keys addr fuel tree empty encrypted s 20 DDirectory time 0 keyed_encrypted (distinct_empty _) Hr Hn) as (txn & H1 & _ & H2 & _); [by apply character_ok|right; right; reflexivity|].
  exists txn. split; [exact H1|]. rewrite !H2 by (by apply character_ok). split; reflexivity.
Defined.




Lemma casefold_hash_not_encrypted_witness : get_casefold_hash T addr fuel (Some CryptoDemo.file_key) [0x62; 0x61; 0x72] true = Ok 3080479075.
Proof. rewrite (casefold_hash_not_encrypted T addr fuel CryptoDemo.file_key [0x62; 0x61; 0x72] true CryptoDemo.has_file_key). vm_compute. reflexivity. Defined.

(** A tree is sorted, and a record alone has its synthetic name: by computation. *)
Fixpoint sortedb (t : contents) : bool :=
  match t with [] => true | i :: t => forallb (λ j, match object_cmp_upper_bound normal_form (key i) (key j) with Lt => true | _ => false end) t && sortedb t end.
Lemma sorted_check t : sortedb t = true → sorted_tree normal_form t.
Proof.
  induction t as [|i t IH]; [constructor|]. cbn. intros [Hf Hs]%andb_true_iff. constructor; [by apply IH|]. apply Forall_forall. intros j Hj%list_elem_of_In. rewrite forallb_forall in Hf. specialize (Hf j Hj). by destruct (object_cmp_upper_bound _ _ _).
Qed.
Lemma shown_check t oid target i : forallb (λ j, negb (shown_as oid target j) || bool_decide (key j = key i ∧ value j = value i ∧ sequence j = sequence i)) t = true →
  ∀ j, j ∈ t → shown_as oid target j = true → j = i.
Proof.
  rewrite forallb_forall. intros Hf j Hj%list_elem_of_In Hs. specialize (Hf j Hj). cbn beta in Hf. rewrite Hs in Hf. cbn in Hf. apply bool_decide_eq_true in Hf as (? & ? & ?). destruct i, j. cbn in *. congruence.
Qed.

Definition entry : ObjectItem := Eval vm_compute in encrypted_entry encrypted a 12.
Definition entry_hash : Z := Eval vm_compute in match data (key entry) with KEncryptedChild h _ => h | _ => 0 end.
Definition entry_raw : list Z := Eval vm_compute in match data (key entry) with KEncryptedChild _ raw => raw | _ => [] end.
Lemma locked_directory_witness : ∃ name txn, SyntheticFilename.encode (SyntheticFilename.from_object_key entry_hash entry_raw) = Ok name ∧
  lookup T normal_form no_keys addr fuel tree encrypted name = Ok (Some (12, DFile)) ∧
  replace_child T normal_form no_keys addr graveyard fuel tree None encrypted name time empty = (Ok (ReplacedObject 12), txn) ∧ shows normal_form tree txn (key entry) = None.
Proof.
  destruct (tree_record encrypted 0 (Some 9) false) as [Hr Hn]; [vm_compute; reflexivity|reflexivity|].
  destruct (locked_directory T normal_form no_keys addr graveyard fuel tree encrypted entry entry_hash entry_raw 12 DFile time 0) as (name & H1 & H2 & H3).
  - exact (conj eq_refl (conj (ex_intro _ 9 eq_refl) eq_refl)).
  - apply sorted_check. vm_compute. reflexivity.
  - apply (list_elem_of_lookup_2 _ 5). reflexivity.
  - reflexivity.
  - reflexivity.
  - refine (bool_decide_unpack _ _). vm_compute. exact I.
  - unfold is_u8. refine (bool_decide_unpack _ _). vm_compute. exact I.
  - apply shown_check. vm_compute. reflexivity.
  - discriminate.
  - exact Hr.
  - exact Hn.
  - destruct (H3 (KindFile 1) 1 attributes) as (txn & H4 & H5 & _); [vm_compute; reflexivity|reflexivity|split; [lia|discriminate]|].
    exists name, txn. split; [exact H1|]. split; [exact H2|]. split; [exact H4|]. rewrite H5 by reflexivity. rewrite same_refl. reflexivity.
Defined.

(** *** The case-insensitive encrypted directory *)
Definition good (name : list Z) : Prop := name ∈ [a; A; s].
Lemma good_inv name : good name → name = a ∨ name = A ∨ name = s.
Proof. unfold good. rewrite !elem_of_cons. intros [?|[?|[?|[]%not_elem_of_nil]]]; tauto. Qed.
Lemma folding_both : folding T normal_form keys addr fuel both CryptoDemo.file_key good.
Proof.
  split.
  - split_and!; done.
  - split; [done|apply CryptoDemo.has_file_key].
  - intros name [->|[->| ->]]%good_inv; (split_and!; [by apply Forall_singleton|vm_compute; reflexivity|discriminate]).
  - intros x y [->|[->| ->]]%good_inv [->|[->| ->]]%good_inv; vm_compute; reflexivity.
  - intros name [->|[->| ->]]%good_inv; (eexists; vm_compute; reflexivity).
Qed.
Lemma entries_check t : forallb (λ i, match key i with
    | mkObjectKey o (KEncryptedChild _ raw) => negb (o =? 5) || existsb (λ name, match encrypt_filename CryptoDemo.file_key 5 name with Ok out => bool_decide (out = raw) | _ => false end) [a; A; s]
    | _ => true end) t = true → entries_ok both CryptoDemo.file_key good t.
Proof.
  rewrite forallb_forall. intros Hf i raw h Hi%list_elem_of_In _ Hk. specialize (Hf i Hi). cbn beta in Hf. rewrite Hk in Hf. cbn [ObjectKey.encrypted_child both dir_object_id] in Hf. change (negb (5 =? 5)) with false in Hf. rewrite orb_false_l in Hf.
  apply existsb_exists in Hf as (name & Hin%list_elem_of_In & Hm). exists name. split; [exact Hin|]. cbn [both dir_object_id]. destruct (encrypt_filename _ _ name) as [out| | |]; try done. by apply bool_decide_eq_true in Hm as ->.
Qed.
Lemma insert_child_casefold_witness : ∃ txn, insert_child T normal_form keys addr fuel tree both s 20 DFile time empty = (Ok tt, txn) ∧
  lookup_ (committed txn) both s = Ok (Some (20, DFile)) ∧ lookup_ (committed txn) both A = Ok (Some (13, DFile)).
Proof.
  destruct (tree_record both 0 (Some 9) true) as [Hr _]; [vm_compute; reflexivity|reflexivity|].
  destruct (insert_child_casefold T normal_form keys addr fuel both CryptoDemo.file_key good folding_both tree s 20 DFile time 0) as (txn & H1 & H2).
  - apply sorted_check. vm_compute. reflexivity.
  - apply entries_check. vm_compute. reflexivity.
  - refine (bool_decide_unpack _ _). vm_compute. exact I.
  - vm_compute. reflexivity.
  - left. reflexivity.
  - exact Hr.
  - exists txn. split; [exact H1|]. split.
    + apply (H2 s); [refine (bool_decide_unpack _ _); vm_compute; exact I|reflexivity|reflexivity].
    + rewrite (proj2 (H2 A ltac:(refine (bool_decide_unpack _ _); vm_compute; exact I))); [vm_compute; reflexivity|]. right. vm_compute. discriminate.
Defined.

(** A symbolic link in an encrypted directory is not found. *)
Lemma encrypted_symlink_lost : match create_symlink normal_form tree encrypted [0x74] s 20 time time time empty with
  | (Ok _, txn) => lookup_ (committed txn) encrypted s = Ok None
  | _ => False
  end.
Proof. vm_compute. reflexivity. Qed.

End DirectoryDemo.
