(* ===== verification/Event.v ===== *)
(** * Events

    The list of listeners of an [event_listener::Event] (the crate
    event-listener, [src/std.rs]), which tasks wait on that need another task
    to finish something.  The links of the doubly-linked list are the order of
    a list here; the pointer to the first listener that was not notified and
    the two counts are kept as the code keeps them.  Every operation holds the
    mutex of the list.  Wakers are task ids, and the operations return those
    that they wake. *)

From S2P Require Import Prelude.

Inductive State : Set :=
| Created
| Notified (additional : bool)
| Task (waker : Z)
| NotifiedTaken.

Record Inner : Set := mkInner {
  ev_links : list (Z * State);
  ev_next : option Z;
  ev_len : Z;
  ev_notified : Z;
}.

Module Event.
Implicit Types (e : Inner) (l : Z) (links : list (Z * State)).

Definition new : Inner := mkInner [] None 0 0.

Definition is_notified (s : State) : bool :=
  match s with Notified _ | NotifiedTaken => true | _ => false end.

(** The state of a link, the link behind it, and setting the state. *)
Fixpoint state_of links l : option State :=
  match links with [] => None | (x, s) :: links => if x =? l then Some s else state_of links l end.
Fixpoint link_after links l : option Z :=
  match links with [] => None | (x, _) :: links => if x =? l then fst <$> head links else link_after links l end.
Definition set_state links l (s : State) : list (Z * State) := (λ p, if p.1 =? l then (l, s) else p) <$> links.
Definition unlink links l : list (Z * State) := filter (λ p, p.1 ≠ l) links.

Definition insert e l : Inner :=
  let links := ev_links e ++ [(l, Created)] in
  mkInner links (match ev_next e with None => Some l | n => n end) (ev_len e + 1) (ev_notified e).

Fixpoint notify_loop (fuel : nat) (n : Z) (additional : bool) e (woken : list Z) : res (list Z * Inner) :=
  match fuel with
  | O => NoFuel
  | S fuel =>
      if 0 <? n then
        match ev_next e with
        | None => Ok (woken, e)
        | Some l =>
            s ← unwrap (state_of (ev_links e) l);
            let woken := match s with Task w => woken ++ [w] | _ => woken end in
            notify_loop fuel (n - 1) additional
              (mkInner (set_state (ev_links e) l (Notified additional)) (link_after (ev_links e) l) (ev_len e) (ev_notified e + 1)) woken
        end
      else Ok (woken, e)
  end.

Definition notify e (n : Z) (additional : bool) : res (list Z * Inner) :=
  if additional then notify_loop (S (length (ev_links e))) n additional e []
  else if n <? ev_notified e then Ok ([], e)
  else notify_loop (S (length (ev_links e))) (n - ev_notified e) additional e [].

(** The state of the listener that was removed, if it was there. *)
Definition remove e l (propagate : bool) : res (option State * (list Z * Inner)) :=
  match state_of (ev_links e) l with
  | None => Ok (None, ([], e))
  | Some s =>
      let next := if bool_decide (ev_next e = Some l) then link_after (ev_links e) l else ev_next e in
      let links := unlink (ev_links e) l in
      '(s, (woken, e)) ←
        (if is_notified s then
           notified ← u64_sub (ev_notified e) 1;
           let e := mkInner links next (ev_len e) notified in
           match s with
           | Notified additional =>
               if propagate then r ← notify e 1 additional; Ok (NotifiedTaken, r) else Ok (s, ([], e))
           | _ => Ok (s, ([], e))
           end
         else Ok (s, ([], mkInner links next (ev_len e) (ev_notified e))));
      len ← u64_sub (ev_len e) 1;
      Ok (Some s, (woken, mkInner (ev_links e) (ev_next e) len (ev_notified e)))
  end.

(** [poll] of a listener: whether it is ready.  A listener that is not in the
    list panics. *)
Definition register e l (task : Z) : res (bool * Inner) :=
  s ← unwrap (state_of (ev_links e) l);
  match s with
  | Notified _ =>
      '(_, (_, e)) ← remove (mkInner (set_state (ev_links e) l NotifiedTaken) (ev_next e) (ev_len e) (ev_notified e)) l false;
      Ok (true, e)
  | _ => Ok (false, mkInner (set_state (ev_links e) l (Task task)) (ev_next e) (ev_len e) (ev_notified e))
  end.
End Event.

(** ** Notified and waiting listeners

    [A] are the listeners that were notified, [B] those that were not; they
    come in this order. *)
Definition waiting (s : State) : Prop := Event.is_notified s = false.
Definition told (A : list Z) : list (Z * State) := (λ l, (l, Notified false)) <$> A.

Record listeners (e : Inner) (A : list Z) (B : list (Z * State)) : Prop := {
  ls_links : ev_links e = told A ++ B;
  ls_waiting : Forall (λ p, waiting p.2) B;
  ls_nodup : NoDup (A ++ B.*1);
  ls_next : ev_next e = head (B.*1);
  ls_notified : ev_notified e = Z.of_nat (length A);
}.
Definition counted (e : Inner) : Prop := ev_len e = Z.of_nat (length (ev_links e)).

(** The tasks that wait in [B]. *)
Definition sleepers (B : list (Z * State)) : list Z := omap (λ p, match p.2 with Task w => Some w | _ => None end) B.

Lemma fst_told A : (told A).*1 = A.
Proof. unfold told. rewrite <- list_fmap_compose. by apply list_fmap_id. Qed.

Lemma links_fst e A B : listeners e A B → (ev_links e).*1 = A ++ B.*1.
Proof. intros H. by rewrite (ls_links _ _ _ H), fmap_app, fst_told. Qed.

Lemma state_of_elem links l s : NoDup links.*1 → (l, s) ∈ links → Event.state_of links l = Some s.
Proof.
  induction links as [|[x r] links IH]; cbn; [by intros _ ?%elem_of_nil|]. intros [Hx Hn]%NoDup_cons [[= <- <-]|Hin]%elem_of_cons; [by rewrite Z.eqb_refl|].
  destruct (Z.eqb_spec x l) as [->|_]; [|by apply IH]. destruct Hx. apply list_elem_of_fmap. by exists (l, s).
Qed.
Lemma state_of_inv links l s : Event.state_of links l = Some s → (l, s) ∈ links.
Proof. induction links as [|[x r] links IH]; cbn; [done|]. destruct (Z.eqb_spec x l) as [->|]; [intros [= ->]; by left|intros H; right; by apply IH]. Qed.
Lemma state_of_none links l : l ∉ links.*1 → Event.state_of links l = None.
Proof. induction links as [|[x r] links IH]; cbn; [done|]. intros [Hx Hl]%not_elem_of_cons. destruct (Z.eqb_spec x l); [congruence|by apply IH]. Qed.

(** Two ways to split the links at one of them. *)
Lemma link_after_app L l s R : l ∉ L.*1 → Event.link_after (L ++ (l, s) :: R) l = head R.*1.
Proof.
  induction L as [|[x r] L IH]; cbn.
  - intros _. rewrite Z.eqb_refl. by destruct R.
  - intros [Hx Hl]%not_elem_of_cons. destruct (Z.eqb_spec x l); [congruence|by apply IH].
Qed.
Lemma set_state_none links l s : l ∉ links.*1 → Event.set_state links l s = links.
Proof.
  induction links as [|[x r] links IH]; [done|]. cbn [fmap list_fmap fst]. intros [Hx Hl]%not_elem_of_cons. unfold Event.set_state in *. cbn [fmap list_fmap fst].
  destruct (Z.eqb_spec x l); [congruence|]. by rewrite IH.
Qed.
Lemma set_state_app L l s r R : l ∉ L.*1 → l ∉ R.*1 → Event.set_state (L ++ (l, s) :: R) l r = L ++ (l, r) :: R.
Proof.
  intros HL HR. pose proof (set_state_none L l r HL) as H1. pose proof (set_state_none R l r HR) as H2. unfold Event.set_state in *. rewrite fmap_app. cbn [fmap list_fmap fst]. rewrite Z.eqb_refl.
  unfold fmap in H1, H2 |- *. by rewrite H1, H2.
Qed.
Lemma unlink_none links l : l ∉ links.*1 → Event.unlink links l = links.
Proof.
  induction links as [|[x r] links IH]; [done|]. cbn [fmap list_fmap fst]. intros [Hx Hl]%not_elem_of_cons. unfold Event.unlink in *.
  rewrite filter_cons_True by done. by rewrite IH.
Qed.
Lemma unlink_app L l s R : l ∉ L.*1 → l ∉ R.*1 → Event.unlink (L ++ (l, s) :: R) l = L ++ R.
Proof.
  intros HL HR. pose proof (unlink_none L l HL) as H1. pose proof (unlink_none R l HR) as H2. unfold Event.unlink in *. rewrite filter_app, H1, filter_cons_False, H2; [done|]. cbn. by intros [].
Qed.

Lemma insert_listeners e A B l : listeners e A B → counted e → l ∉ A ++ B.*1 →
  listeners (Event.insert e l) A (B ++ [(l, Created)]) ∧ counted (Event.insert e l).
Proof.
  intros [H1 H2 H3 H4 H6] Hc Hl. split; [split|]; cbn [Event.insert ev_links ev_next ev_notified].
  - by rewrite H1, (assoc_L app).
  - apply Forall_app. by repeat constructor.
  - rewrite fmap_app, (assoc_L app). apply NoDup_app. cbn. split_and!; [done| |apply NoDup_singleton]. intros x Hx ->%list_elem_of_singleton. done.
  - rewrite H4. by destruct B as [|[]].
  - done.
  - unfold counted in *. cbn [Event.insert ev_links ev_len]. rewrite length_app, Hc. cbn. lia.
Qed.

(** Setting the state of the first listener of [B] to notified. *)
Lemma tell_first e A l s B : listeners e A ((l, s) :: B) →
  Event.state_of (ev_links e) l = Some s ∧
  listeners (mkInner (Event.set_state (ev_links e) l (Notified false)) (Event.link_after (ev_links e) l) (ev_len e) (ev_notified e + 1)) (A ++ [l]) B.
Proof.
  intros [H1 H2 H3 H4 H6]. apply Forall_cons in H2 as [_ H2]. cbn [fmap list_fmap fst] in H3. pose proof H3 as (_ & Hd & [Hl Hn]%NoDup_cons)%NoDup_app.
  assert (l ∉ A) as HlA by (intros Hin; apply (Hd l Hin); by left). split.
  - apply state_of_elem; [by rewrite H1, fmap_app, fst_told|]. rewrite H1. set_solver.
  - split; cbn [ev_links ev_next ev_notified].
    + rewrite H1, set_state_app by (rewrite ?fst_told; done). unfold told. rewrite fmap_app, <- (assoc_L app). done.
    + done.
    + by rewrite <- (assoc_L app).
    + rewrite H1, link_after_app by (rewrite fst_told; done). done.
    + rewrite length_app. cbn. lia.
Qed.

Lemma notify_loop_spec B : ∀ fuel n e A woken, listeners e A B → (length B < fuel)%nat → 0 ≤ n →
  ∃ e', Event.notify_loop fuel n false e woken = Ok (woken ++ sleepers (take (Z.to_nat n) B), e') ∧
    listeners e' (A ++ (take (Z.to_nat n) B).*1) (drop (Z.to_nat n) B) ∧ ev_len e' = ev_len e ∧ length (ev_links e') = length (ev_links e).
Proof.
  induction B as [|[l s] B IH]; intros fuel n e A woken He Hf Hn; destruct fuel as [|fuel]; cbn [length] in Hf; try lia; cbn [Event.notify_loop].
  - rewrite take_nil, drop_nil. cbn [sleepers omap list_omap fmap list_fmap]. rewrite !app_nil_r. rewrite (ls_next _ _ _ He). exists e. by destruct (0 <? n).
  - destruct (Z.ltb_spec 0 n) as [Hp|Hp].
    + destruct (tell_first _ _ _ _ _ He) as [Hs He']. rewrite (ls_next _ _ _ He). cbn [fmap list_fmap head fst]. rewrite Hs. res_simpl.
      replace (Z.to_nat n) with (S (Z.to_nat (n - 1))) by lia. cbn [take drop fmap list_fmap fst].
      destruct (IH fuel (n - 1) _ _ (match s with Task w => woken ++ [w] | _ => woken end) He') as (e' & -> & H1 & H2 & H3); [lia|lia|].
      exists e'. cbn [ev_len ev_links] in *. unfold Event.set_state in H3. rewrite length_fmap in H3. rewrite <- (assoc_L app) in H1. split_and!; [|done..].
      f_equal. f_equal. unfold sleepers. cbn [omap list_omap snd]. destruct s; [done|done|by rewrite <- (assoc_L app)|done].
    + replace (Z.to_nat n) with 0%nat by lia. cbn [take drop sleepers omap list_omap fmap list_fmap]. rewrite !app_nil_r. by exists e.
Qed.

Lemma notify_spec e A B n : listeners e A B → 0 ≤ n → let k := Z.to_nat (n - Z.of_nat (length A)) in
  ∃ e', Event.notify e n false = Ok (sleepers (take k B), e') ∧ listeners e' (A ++ (take k B).*1) (drop k B) ∧
    ev_len e' = ev_len e ∧ length (ev_links e') = length (ev_links e).
Proof.
  intros He Hn k. unfold Event.notify. rewrite (ls_notified _ _ _ He). destruct (Z.ltb_spec n (Z.of_nat (length A))) as [Hlt|Hle].
  - assert (k = 0%nat) as -> by lia. exists e. cbn. by rewrite app_nil_r.
  - assert (length B < S (length (ev_links e)))%nat as Hf by (rewrite (ls_links _ _ _ He), length_app; lia).
    destruct (notify_loop_spec B _ (n - Z.of_nat (length A)) e A [] He Hf ltac:(lia)) as (e' & -> & H). by exists e'.
Qed.

(** [notify(usize::MAX)] notifies everybody. *)
Lemma notify_all e A B : listeners e A B → counted e → ev_len e ≤ u64_max →
  ∃ e', Event.notify e u64_max false = Ok (sleepers B, e') ∧ listeners e' (A ++ B.*1) [] ∧ counted e' ∧ ev_len e' = ev_len e.
Proof.
  intros He Hc Hu. assert (0 ≤ u64_max) as H0 by done. destruct (notify_spec e A B u64_max He H0) as (e' & -> & H1 & H2 & H3).
  assert (length B ≤ Z.to_nat (u64_max - Z.of_nat (length A)))%nat as Hk.
  { rewrite Hc, (ls_links _ _ _ He), length_app in Hu. unfold told in Hu. rewrite length_fmap in Hu. lia. }
  rewrite take_ge, drop_ge in * by done. exists e'. split_and!; [done|done|unfold counted in *; congruence|done].
Qed.

(** Removing a listener that was not notified. *)
Lemma remove_waiting e A B1 l s B2 p : listeners e A (B1 ++ (l, s) :: B2) → counted e →
  ∃ e', Event.remove e l p = Ok (Some s, ([], e')) ∧ listeners e' A (B1 ++ B2) ∧ counted e'.
Proof.
  intros He Hc. pose proof He as [H1 H2 H3 H4 H6]. apply Forall_app in H2 as [H2 [Hs H2']%Forall_cons].
  assert ((l ∉ (told A ++ B1).*1) ∧ (l ∉ B2.*1) ∧ NoDup (A ++ (B1 ++ B2).*1)) as (Hl1 & Hl2 & Hnd).
  { rewrite !fmap_app, fst_told in *. cbn [fmap list_fmap fst] in H3. rewrite (assoc_L app) in H3. apply NoDup_app in H3 as (Ha & Hd & [Hb Hb']%NoDup_cons).
    split_and!; [intros Hin; apply (Hd l Hin); by left|done|]. rewrite (assoc_L app). apply NoDup_app. split_and!; [done| |done]. intros x Hx Hx2. apply (Hd x Hx). by right. }
  unfold Event.remove. rewrite (state_of_elem _ l s); [|by rewrite (links_fst _ _ _ He)|rewrite H1; set_solver]. unfold waiting in Hs. cbn [snd] in Hs. rewrite Hs. res_simpl. cbn [ev_len ev_links ev_next ev_notified].
  assert (1 ≤ ev_len e) as Hlen by (rewrite Hc, H1, !length_app; cbn [length]; lia). rewrite u64_sub_ok by done. res_simpl. eexists. split; [done|]. rewrite H1, (assoc_L app) in *. split; [split|]; cbn [ev_links ev_next ev_notified].
  - rewrite unlink_app by done. by rewrite (assoc_L app).
  - by apply Forall_app.
  - done.
  - rewrite H4, link_after_app by done. destruct B1 as [|[x r] B1]; cbn [app fmap list_fmap head fst].
    + by rewrite bool_decide_true.
    + rewrite bool_decide_false; [done|]. intros [= ->]. apply Hl1. rewrite fmap_app. cbn. set_solver.
  - done.
  - unfold counted in *. cbn [ev_links ev_len]. rewrite Hc, H1, unlink_app by done. rewrite !length_app. cbn [length]. lia.
Qed.

(** Removing one that was notified. *)
Lemma remove_told e A1 l A2 B s : listeners e (A1 ++ l :: A2) B → counted e →
  let e1 := mkInner (Event.unlink (ev_links e) l) (ev_next e) (ev_len e) (ev_notified e - 1) in
  Event.state_of (ev_links e) l = Some (Notified false) ∧ (l ∉ A1 ++ A2 ++ B.*1) ∧ ev_next e ≠ Some l ∧ 1 ≤ ev_notified e ∧ 1 ≤ ev_len e ∧
  listeners e1 (A1 ++ A2) B ∧ ev_len e1 = Z.of_nat (length (ev_links e1)) + 1 ∧
  Event.unlink (Event.set_state (ev_links e) l s) l = Event.unlink (ev_links e) l.
Proof.
  intros He Hc e1. pose proof He as [H1 H2 H3 H4 H6]. rewrite <- (assoc_L app) in H3. cbn [app] in H3.
  assert ((l ∉ A1 ++ A2 ++ B.*1) ∧ NoDup ((A1 ++ A2) ++ B.*1)) as [Hl Hnd].
  { rewrite <- (assoc_L app). rewrite <- Permutation_middle in H3. by apply NoDup_cons in H3. }
  assert (told (A1 ++ l :: A2) ++ B = told A1 ++ (l, Notified false) :: told A2 ++ B) as Heq by (unfold told; rewrite fmap_app, <- (assoc_L app); done).
  assert ((l ∉ (told A1).*1) ∧ (l ∉ (told A2 ++ B).*1)) as [Hl1 Hl2] by (rewrite fmap_app, !fst_told; set_solver).
  assert (length (ev_links e) = S (length (Event.unlink (ev_links e) l))) as Hlen by (rewrite H1, Heq, unlink_app by done; rewrite !length_app; cbn [length]; rewrite length_app; lia).
  assert (ev_next e ≠ Some l) as Hnx. { rewrite H4. destruct B as [|[x r] B]; [done|]. cbn. intros [= ->]. apply Hl. cbn. set_solver. }
  split_and!; [|done|done|rewrite H6, length_app; cbn; lia|rewrite Hc, Hlen; lia| |unfold e1; cbn [ev_links ev_len]; rewrite Hc, Hlen; lia|].
  - apply state_of_elem; [by rewrite (links_fst _ _ _ He), <- (assoc_L app)|]. rewrite H1, Heq. set_solver.
  - split; unfold e1; cbn [ev_links ev_next ev_notified]; [|done|done|done|rewrite H6, !length_app; cbn [length]; lia].
    rewrite H1, Heq, unlink_app by done. unfold told. by rewrite fmap_app, <- (assoc_L app).
  - rewrite H1, Heq, set_state_app by done. by rewrite !unlink_app by done.
Qed.

(** Dropping a listener that was notified: if it was the only one, the first
    that waits is notified in its place. *)
Lemma remove_propagates e A1 l A2 B : listeners e (A1 ++ l :: A2) B → counted e → let k := (1 - length (A1 ++ A2))%nat in
  ∃ e', Event.remove e l true = Ok (Some NotifiedTaken, (sleepers (take k B), e')) ∧ listeners e' (A1 ++ A2 ++ (take k B).*1) (drop k B) ∧ counted e'.
Proof.
  intros He Hc k. destruct (remove_told e A1 l A2 B NotifiedTaken He Hc) as (Hs & Hl & Hnx & Hn & Hlen & Hr & Hcnt & _). unfold Event.remove. rewrite Hs. cbn [Event.is_notified].
  rewrite bool_decide_false by done. rewrite u64_sub_ok by done. res_simpl. cbn [ev_links ev_len] in Hcnt.
  destruct (notify_spec _ _ _ 1 Hr ltac:(lia)) as (e' & -> & H1 & H2 & H3). cbn [ev_len ev_links] in H2, H3.
  replace (Z.to_nat (1 - Z.of_nat (length (A1 ++ A2)))) with k in * by lia. res_simpl. rewrite u64_sub_ok by lia. res_simpl. eexists. split; [done|].
  rewrite <- (assoc_L app) in H1. split; [by destruct H1|]. unfold counted. cbn [ev_links ev_len]. lia.
Qed.

(** Polling a listener. *)
Lemma register_told e A1 l A2 B t : listeners e (A1 ++ l :: A2) B → counted e →
  ∃ e', Event.register e l t = Ok (true, e') ∧ listeners e' (A1 ++ A2) B ∧ counted e'.
Proof.
  intros He Hc. destruct (remove_told e A1 l A2 B NotifiedTaken He Hc) as (Hs & Hl & Hnx & Hn & Hlen & Hr & Hcnt & Hun). unfold Event.register. rewrite Hs. res_simpl.
  unfold Event.remove. cbn [ev_links ev_next ev_len ev_notified].
  assert (Event.state_of (Event.set_state (ev_links e) l NotifiedTaken) l = Some NotifiedTaken) as ->.
  { apply state_of_inv in Hs. unfold Event.set_state. clear -Hs. induction (ev_links e) as [|[x r] links IH]; [by apply elem_of_nil in Hs|]. cbn [fmap list_fmap fst Event.state_of].
    destruct (Z.eqb_spec x l) as [->|Hne]; cbn [Event.state_of]; [by rewrite Z.eqb_refl|]. destruct (Z.eqb_spec x l); [done|]. apply IH. apply elem_of_cons in Hs as [[= <- _]|Hs]; [done|exact Hs]. }
  cbn [Event.is_notified]. rewrite bool_decide_false by done. rewrite u64_sub_ok by done. res_simpl. cbn [ev_links ev_next ev_len ev_notified]. rewrite u64_sub_ok by done. res_simpl. rewrite Hun.
  eexists. split; [done|]. cbn [ev_links ev_len] in Hcnt. split; [by destruct Hr|]. unfold counted. cbn [ev_links ev_len]. lia.
Qed.

Lemma register_waiting e A B1 l s B2 t : listeners e A (B1 ++ (l, s) :: B2) → counted e →
  ∃ e', Event.register e l t = Ok (false, e') ∧ listeners e' A (B1 ++ (l, Task t) :: B2) ∧ counted e'.
Proof.
  intros He Hc. pose proof He as [H1 H2 H3 H4 H6]. apply Forall_app in H2 as [H2 [Hs H2']%Forall_cons].
  assert ((l ∉ (told A ++ B1).*1) ∧ (l ∉ B2.*1)) as [Hl1 Hl2].
  { rewrite !fmap_app, fst_told in *. cbn [fmap list_fmap fst] in H3. rewrite (assoc_L app) in H3. apply NoDup_app in H3 as (Ha & Hd & [Hb Hb']%NoDup_cons).
    split; [intros Hin; apply (Hd l Hin); by left|done]. }
  unfold Event.register. rewrite (state_of_elem _ l s); [|by rewrite (links_fst _ _ _ He)|rewrite H1; set_solver]. res_simpl. unfold waiting in Hs. cbn [snd] in Hs.
  assert (∀ R : res (bool * Inner), match s with Notified _ => R | _ => Ok (false, mkInner (Event.set_state (ev_links e) l (Task t)) (ev_next e) (ev_len e) (ev_notified e)) end =
    Ok (false, mkInner (Event.set_state (ev_links e) l (Task t)) (ev_next e) (ev_len e) (ev_notified e))) as -> by (by destruct s).
  eexists. split; [done|]. rewrite H1, (assoc_L app) in *. split; [split|]; cbn [ev_links ev_next ev_notified].
  - rewrite set_state_app by done. by rewrite <- (assoc_L app).
  - apply Forall_app. split; [done|]. by constructor.
  - rewrite fmap_app in *. done.
  - rewrite H4. by destruct B1 as [|[]].
  - done.
  - unfold counted in *. cbn [ev_links ev_len]. rewrite Hc, H1. unfold Event.set_state. by rewrite length_fmap.
Qed.
