(* ===== verification/PersistentLayer.v ===== *)
(** * Layer files

    [PersistentLayer] and [PersistentLayerWriter] of
    [fxfs/src/lsm_tree/persistent_layer.rs]: the items of a layer in blocks of
    a file, with a bloom filter and a table of the keys that blocks start with.
    How keys, values and the two structs of the format are serialized is a
    parameter.  What is read through [CachingObjectHandle] are the chunks of
    the file, whatever the cache ([Chunks.v]) has of them.  The inspect data
    and the event that delays [close] are left out. *)

From S2P Require Import Prelude Round Bytes Checksum Journal LsmTypes BloomFilter.

(** ** The format *)
Definition PERSISTENT_LAYER_MAGIC : list Z := [70; 120; 102; 115; 76; 97; 121; 114].

Record LayerHeader : Set := mkHeader {
  lh_magic : list Z;
  lh_block_size : Z;
}.

Record LayerInfo : Set := mkInfo {
  num_items : Z;
  num_data_blocks : Z;
  bloom_filter_size_bytes : Z;
  bloom_filter_seed : Z;
  bloom_filter_num_nonces : Z;
}.

Definition MIN_BLOCK_SIZE : Z := 512.
Definition MAX_BLOCK_SIZE : Z := 65536.
Definition MINIMUM_DATA_BLOCKS_FOR_BLOOM_FILTER : Z := 4.
Definition NUM_HEADER_BLOCKS : Z := 1.
Definition MINIMUM_LAYER_FILE_BLOCKS : Z := 2.
Definition MAX_BLOOM_FILTER_SIZE : Z := 64 * 1024 * 1024.
Definition MAX_SEEK_TABLE_SIZE : Z := 64 * 1024 * 1024.
Definition PER_DATA_BLOCK_HEADER_SIZE : Z := 2.
Definition PER_DATA_BLOCK_SEEK_ENTRY_SIZE : Z := 2.
Definition CHUNK_SIZE : Z := 131072.

(** [SortByU64]. *)
Class SortByU64 (K : Type) := get_leading_u64 : K → Z.

(** [serialize_into] and [deserialize_from_version]. *)
Class LayerCodec (K V : Type) := {
  key_bytes : K → list Z;
  key_decode : list Z → Version → decoded K;
  value_bytes : V → list Z;
  value_decode : list Z → Version → decoded V;
}.
Class FileCodec := {
  header_bytes : LayerHeader → list Z;
  header_decode : list Z → Version → decoded LayerHeader;
  info_bytes : LayerInfo → list Z;
  info_decode : list Z → Version → decoded LayerInfo;
}.

(** ** The file: [ReadObjectHandle] *)
Record ObjectHandle : Set := mkHandle {
  oh_bytes : list Z;
  oh_block_size : Z;
}.

Definition get_size (h : ObjectHandle) : Z := Z.of_nat (length (oh_bytes h)).
Definition read (h : ObjectHandle) (offset n : Z) : list Z := take (Z.to_nat n) (drop (Z.to_nat offset) (oh_bytes h)).
(** A buffer of [n] bytes after a read into it; a new buffer has zeros. *)
Definition read_buffer (h : ObjectHandle) (offset n : Z) : list Z := resize (read h offset n) n.

(** [CachingObjectHandle::read]: the chunk with the offset. *)
Definition read_chunk (h : ObjectHandle) (offset : Z) : res (list Z) :=
  _ ← rensure (offset <? get_size h) (Fxfs OutOfRange);
  let chunk_num := offset / CHUNK_SIZE in
  let read_start := chunk_num * CHUNK_SIZE in
  let len := Z.min (read_start + CHUNK_SIZE) (get_size h) - read_start in
  Ok (read h read_start len).

Definition decode_res {T} (d : decoded T) : res (T * Z) :=
  match d with Decoded x n => Ok (x, n) | DecodeError _ => Err Other end.

(** ** [BufferCursor] *)
Record BufferCursor : Set := mkCursor {
  bc_chunk : option (list Z);
  bc_pos : Z;
}.

Module BufferCursor.
(** What is left to read. *)
Definition rest (c : BufferCursor) : list Z :=
  match bc_chunk c with Some chunk => drop (Z.to_nat (bc_pos c)) chunk | None => [] end.
Definition seek (c : BufferCursor) (pos : Z) : BufferCursor := mkCursor (bc_chunk c) pos.

(** A little-endian integer of [n] bytes. *)
Definition read_uint (n : nat) (c : BufferCursor) : res (Z * BufferCursor) :=
  let bytes := take n (rest c) in
  if decide (length bytes = n) then Ok (le_combine bytes, seek c (bc_pos c + Z.of_nat n)) else Err Other.

Definition deserialize {T} (decode : list Z → Version → decoded T) (v : Version) (c : BufferCursor) : res (T * BufferCursor) :=
  '(x, n) ← decode_res (decode (rest c) v); Ok (x, seek c (bc_pos c + n)).
End BufferCursor.

(** ** The layer *)
Record PersistentLayer : Set := mkPersistent {
  pl_handle : ObjectHandle;
  pl_version : Version;
  pl_block_size : Z;
  pl_data_size : Z;
  pl_seek_table : list Z;
  pl_num_items : option Z;
  pl_bloom_filter : option BloomFilterReader;
}.

Definition data_offset (pl : PersistentLayer) : Z := NUM_HEADER_BLOCKS * pl_block_size pl.

(** ** [KeyOnlyIterator] *)
Record KeyOnlyIterator (K : Type) : Type := mkKeyIter {
  ki_buffer : BufferCursor;
  ki_pos : Z;
  ki_item_index : Z;
  ki_item_count : Z;
  ki_key : option K;
  ki_value_deserialized : bool;
}.
Arguments mkKeyIter {K} _ _ _ _ _ _.
Arguments ki_buffer {K} _.
Arguments ki_pos {K} _.
Arguments ki_item_index {K} _.
Arguments ki_item_count {K} _.
Arguments ki_key {K} _.
Arguments ki_value_deserialized {K} _.

Module KeyOnlyIterator.
Section ops.
Context {K V : Type} `{LayerCodec K V} (pl : PersistentLayer).
Implicit Types it : KeyOnlyIterator K.

Definition new (pos : Z) : res (KeyOnlyIterator K) :=
  m ← u64_rem pos (pl_block_size pl);
  _ ← rassert (m =? 0);
  Ok (mkKeyIter (mkCursor None (pos `mod` CHUNK_SIZE)) pos 0 0 None false).

Definition seek_to_block_item it (index : Z) : res (KeyOnlyIterator K) :=
  _ ← rensure (index <? ki_item_count it) (Fxfs OutOfRange);
  if (index =? ki_item_index it) && ki_value_deserialized it then Ok it
  else
    offset_in_block ←
      (if index =? 0 then Ok PER_DATA_BLOCK_HEADER_SIZE
       else
         up ← round_up (bc_pos (ki_buffer it)) (pl_block_size pl);
         up ← unwrap up;
         p ← u64_sub up (PER_DATA_BLOCK_SEEK_ENTRY_SIZE * (ki_item_count it - index));
         '(offset_in_block, _) ← BufferCursor.read_uint 2 (BufferCursor.seek (ki_buffer it) p);
         if (pl_block_size pl <=? offset_in_block) || (offset_in_block <=? PER_DATA_BLOCK_HEADER_SIZE) then Err (Fxfs Inconsistent)
         else Ok offset_in_block);
    down ← round_down (bc_pos (ki_buffer it)) (pl_block_size pl);
    Ok (mkKeyIter (BufferCursor.seek (ki_buffer it) (down + offset_in_block)) (ki_pos it) index (ki_item_count it) (ki_key it)
          (ki_value_deserialized it)).

(** The next block; [None] at the end of the data. *)
Definition next_block it : res (option (KeyOnlyIterator K)) :=
  e ← u64_add (data_offset pl) (pl_data_size pl);
  if e <=? ki_pos it then Ok None
  else
    chunk ← (match bc_chunk (ki_buffer it) with
             | Some chunk => if ki_pos it `mod` CHUNK_SIZE =? 0 then read_chunk (pl_handle pl) (ki_pos it) else Ok chunk
             | None => read_chunk (pl_handle pl) (ki_pos it)
             end);
    '(item_count, buffer) ← BufferCursor.read_uint 2 (mkCursor (Some chunk) (ki_pos it `mod` CHUNK_SIZE));
    if item_count =? 0 then Err Other
    else
      pos ← u64_add (ki_pos it) (pl_block_size pl);
      Ok (Some (mkKeyIter buffer pos 0 item_count (ki_key it) true)).

Definition advance it : res (KeyOnlyIterator K) :=
  o ← (if ki_item_count it <=? ki_item_index it then next_block it else Ok (Some it));
  match o with
  | None => Ok (mkKeyIter (ki_buffer it) (ki_pos it) (ki_item_index it) (ki_item_count it) None (ki_value_deserialized it))
  | Some it =>
      it ← seek_to_block_item it (ki_item_index it);
      '(k, buffer) ← BufferCursor.deserialize key_decode (pl_version pl) (ki_buffer it);
      Ok (mkKeyIter buffer (ki_pos it) (ki_item_index it + 1) (ki_item_count it) (Some k) false)
  end.

Definition get it : option K := ki_key it.
End ops.
End KeyOnlyIterator.

(** ** [Iterator] *)
Record Iterator (K V : Type) : Type := mkIterator {
  it_inner : KeyOnlyIterator K;
  it_item : option (Item K V);
}.
Arguments mkIterator {K V} _ _.
Arguments it_inner {K V} _.
Arguments it_item {K V} _.

Module Iterator.
Section ops.
Context {K V : Type} `{LayerCodec K V} (pl : PersistentLayer).

(** The value and the sequence number that follow the key. *)
Definition new (it : KeyOnlyIterator K) : res (Iterator K V) :=
  match ki_key it with
  | Some key =>
      '(value, buffer) ← BufferCursor.deserialize value_decode (pl_version pl) (ki_buffer it);
      '(sequence, buffer) ← BufferCursor.read_uint 8 buffer;
      Ok (mkIterator (mkKeyIter buffer (ki_pos it) (ki_item_index it) (ki_item_count it) None true) (Some (mkItem key value sequence)))
  | None => Ok (mkIterator it None)
  end.

Definition advance (it : Iterator K V) : res (Iterator K V) :=
  inner ← KeyOnlyIterator.advance pl (it_inner it); new inner.

Definition get (it : Iterator K V) : option (Item K V) := it_item it.
End ops.
End Iterator.

(** ** Seeking *)

(** [slice::partition_point] on a slice that the predicate partitions. *)
Fixpoint partition_point {A} (p : A → bool) (l : list A) : Z :=
  match l with
  | [] => 0
  | x :: l => if p x then 1 + partition_point p l else 0
  end.

Module PersistentLayer.
Section seek.
Context {K V : Type} `{LayerCodec K V, OrdUpperBound K, SortByU64 K} (pl : PersistentLayer).
Context (key : K) (excluded : bool).
#[local] Abbreviation block_size := (pl_block_size pl).

(** The offsets of the blocks that the table leaves. *)
Definition seek_range : res (Z * Z) :=
  first_data_block_index ← u64_div (data_offset pl) block_size;
  let target := get_leading_u64 key in
  let right_index := partition_point (λ x, x <=? target) (pl_seek_table pl) in
  let left_index := Z.max 0 (partition_point (λ x, x <? target) (take (Z.to_nat right_index) (pl_seek_table pl)) - 1) in
  left_offset ← u64_mul (left_index + first_data_block_index) block_size;
  right_offset ← u64_mul (right_index + first_data_block_index) block_size;
  Ok (left_offset, right_offset).

(** [if excluded { advance }]. *)
Definition found (it : KeyOnlyIterator K) : res (KeyOnlyIterator K) :=
  if excluded then KeyOnlyIterator.advance pl it else Ok it.

(** The search over blocks; the left result is what is returned at once. *)
Fixpoint block_search (fuel : nat) (left_offset right_offset : Z) (left : KeyOnlyIterator K) (right : option (KeyOnlyIterator K))
    : res (KeyOnlyIterator K + KeyOnlyIterator K * option (KeyOnlyIterator K)) :=
  match fuel with
  | O => NoFuel
  | S fuel =>
      d ← u64_sub right_offset left_offset;
      if block_size <? d then
        mid_offset ← round_down (left_offset + d / 2) block_size;
        it ← KeyOnlyIterator.new pl mid_offset;
        it ← KeyOnlyIterator.advance pl it;
        iter_key ← unwrap (KeyOnlyIterator.get it);
        match cmp_upper_bound iter_key key with
        | Gt => block_search fuel left_offset mid_offset left (Some it)
        | Eq => it ← found it; Ok (inl it)
        | Lt => block_search fuel mid_offset right_offset it right
        end
      else Ok (inr (left, right))
  end.

(** The search within a block. *)
Fixpoint item_search (fuel : nat) (left_index right_index : Z) (left : KeyOnlyIterator K)
    : res (KeyOnlyIterator K + Z * KeyOnlyIterator K) :=
  match fuel with
  | O => NoFuel
  | S fuel =>
      last ← u64_sub right_index 1;
      if left_index <? last then
        let mid_index := left_index + (right_index - left_index) / 2 in
        left ← KeyOnlyIterator.seek_to_block_item pl left mid_index;
        left ← KeyOnlyIterator.advance pl left;
        iter_key ← unwrap (KeyOnlyIterator.get left);
        match cmp_upper_bound iter_key key with
        | Gt => item_search fuel left_index mid_index left
        | Eq => left ← found left; Ok (inl left)
        | Lt => item_search fuel mid_index right_index left
        end
      else Ok (inr (right_index, left))
  end.

(** After the searches: the first entry after the key. *)
Definition seek_finish (right_index : Z) (left : KeyOnlyIterator K) (right : option (KeyOnlyIterator K)) : res (KeyOnlyIterator K) :=
  if right_index <? ki_item_count left then
    left ← KeyOnlyIterator.seek_to_block_item pl left right_index;
    KeyOnlyIterator.advance pl left
  else
    match right with
    | Some it => Ok it
    | None => KeyOnlyIterator.advance pl left
    end.

Definition seek_key : res (KeyOnlyIterator K) :=
  '(left_offset, right_offset) ← seek_range;
  left ← KeyOnlyIterator.new pl left_offset;
  left ← KeyOnlyIterator.advance pl left;
  match KeyOnlyIterator.get left with
  | None => Ok left
  | Some left_key =>
      match cmp_upper_bound left_key key with
      | Gt => Ok left
      | Eq => found left
      | Lt =>
          r ← block_search (S (length (pl_seek_table pl))) left_offset right_offset left None;
          match r with
          | inl it => Ok it
          | inr (l, r) =>
              i ← item_search (S (Z.to_nat (ki_item_count l))) 0 (ki_item_count l) l;
              match i with
              | inl it => Ok it
              | inr (right_index, l) => seek_finish right_index l r
              end
          end
      end
  end.
End seek.

Section layer.
Context {K V : Type} `{LayerCodec K V, OrdUpperBound K, SortByU64 K, FuzzyHash K} (pl : PersistentLayer).

Definition seek (bound : Bound K) : res (Iterator K V) :=
  match bound with
  | Unbounded =>
      it ← KeyOnlyIterator.new pl (data_offset pl);
      it ← Iterator.new pl it;
      Iterator.advance pl it
  | Included key => it ← seek_key pl key false; Iterator.new pl it
  | Excluded key => it ← seek_key pl key true; Iterator.new pl it
  end.

Definition estimated_len : ItemCount :=
  match pl_num_items pl with
  | Some num_items => Precise num_items
  | None => Estimate (get_size (pl_handle pl) / 32)
  end.

Definition maybe_contains_key (key : K) : res bool :=
  match pl_bloom_filter pl with
  | Some f => BloomFilterReader.maybe_contains f key
  | None => Ok true
  end.

(** What an iterator yields, and the error it ends with. *)
Fixpoint items (fuel : nat) (it : Iterator K V) : res (LayerIterator K V) :=
  match fuel with
  | O => NoFuel
  | S fuel =>
      match Iterator.get it with
      | None => Ok (mkIter [] None)
      | Some i =>
          match Iterator.advance pl it with
          | Ok it => l ← items fuel it; Ok (mkIter (i :: remaining l) (fails l))
          | Err e => Ok (mkIter [i] (Some e))
          | Panic => Panic
          | NoFuel => NoFuel
          end
      end
  end.

(** The layer as the tree sees it.  A file has fewer items than bytes. *)
Definition layer : Layer K V :=
  mkLayer
    (λ bound, it ← seek bound; items (S (length (oh_bytes (pl_handle pl)))) it)
    maybe_contains_key
    estimated_len.
End layer.

(** ** Opening a file *)
Section open.
Context `{FileCodec}.

Definition seek_table_size (num_data_blocks : Z) : Z := Z.max 0 (num_data_blocks - 1) * 8.

(** The entries after [prev], which must not descend. *)
Fixpoint seek_entries (prev : Z) (chunks : list (list Z)) : res (list Z) :=
  match chunks with
  | [] => Ok []
  | chunk :: chunks =>
      let next := le_combine chunk in
      if next <? prev then Err (Fxfs Inconsistent)
      else l ← seek_entries next chunks; Ok (next :: l)
  end.

Definition load_seek_table (h : ObjectHandle) (seek_table_offset num_data_blocks : Z) : res (list Z) :=
  let seek_table_size := seek_table_size num_data_blocks in
  if seek_table_size =? 0 then Ok []
  else if MAX_SEEK_TABLE_SIZE <? seek_table_size then Err (Fxfs NotSupported)
  else
    let buffer := read h seek_table_offset seek_table_size in
    _ ← rensure (Z.of_nat (length buffer) =? seek_table_size) Other;
    l ← seek_entries 0 (chunks 8 buffer);
    Ok (0 :: l).

Definition load_bloom_filter (h : ObjectHandle) (bloom_filter_offset : Z) (info : LayerInfo) : res (option BloomFilterReader) :=
  if bloom_filter_size_bytes info =? 0 then Ok None
  else if MAX_BLOOM_FILTER_SIZE <? bloom_filter_size_bytes info then Err (Fxfs NotSupported)
  else
    let buffer := read_buffer h bloom_filter_offset (bloom_filter_size_bytes info) in
    Ok (Some (BloomFilterReader.read buffer (bloom_filter_seed info) (Z.to_nat (bloom_filter_num_nonces info)))).

(** [Version] is ordered by its fields. *)
Definition version_le (a b : Version) : bool :=
  (major a <? major b) || ((major a =? major b) && (minor a <=? minor b)).
Definition is_power_of_two (n : Z) : bool := (0 <? n) && (n =? 2 ^ Z.log2 n).

(** The header in the first block. *)
Definition open_header (h : ObjectHandle) : res (LayerHeader * Version) :=
  let buffer := read_buffer h 0 (oh_block_size h) in
  '(version, n) ← decode_res (Version.deserialize_from buffer);
  _ ← rensure (version_le version LATEST_VERSION) (Fxfs InvalidVersion);
  '(header, _) ← decode_res (header_decode (drop (Z.to_nat n) buffer) version);
  if negb (bool_decide (lh_magic header = PERSISTENT_LAYER_MAGIC)) then Err (Fxfs Inconsistent)
  else if (lh_block_size header =? 0) || negb (is_power_of_two (lh_block_size header)) then Err (Fxfs Inconsistent)
  else
    _ ← rensure (0 <? lh_block_size header) (Fxfs Inconsistent);
    _ ← rensure (lh_block_size header <=? MAX_BLOCK_SIZE) (Fxfs NotSupported);
    m ← u64_rem (lh_block_size header) (oh_block_size h);
    if negb (m =? 0) then Err (Fxfs Inconsistent) else Ok (header, version).

(** The info at the end of the last block, which is read into the buffer of
    the first one. *)
Definition open_info (h : ObjectHandle) (bs : Z) (version : Version) : res LayerInfo :=
  if get_size h <? MINIMUM_LAYER_FILE_BLOCKS * bs then Err (Fxfs Inconsistent)
  else
    if get_size h <? bs then Err (Fxfs Inconsistent)
    else
      let last_block_offset := get_size h - bs in
      _ ← rassert (bs <=? oh_block_size h);
      let buffer := read_buffer h last_block_offset bs in
      p ← u64_sub bs 8;
      let layer_info_len := le_combine (take 8 (drop (Z.to_nat p) buffer)) in
      n ← u64_add 8 layer_info_len;
      if bs <? n then Err (Fxfs Inconsistent)
      else
        '(info, _) ← decode_res (info_decode (drop (Z.to_nat (bs - n)) buffer) version);
        Ok info.

Definition open (h : ObjectHandle) : res PersistentLayer :=
  '(header, version) ← open_header h;
  let bs := lh_block_size header in
  info ← open_info h bs version;
  if (num_items info =? 0) && (0 <? num_data_blocks info) then Err (Fxfs Inconsistent)
  else
    total_blocks ← u64_div (get_size h) bs;
    up ← round_up (bloom_filter_size_bytes info) bs;
    bloom_filter_blocks ← u64_div (default (bloom_filter_size_bytes info) up) bs;
    used ← u64_add (num_data_blocks info) bloom_filter_blocks;
    if total_blocks - MINIMUM_LAYER_FILE_BLOCKS <? used then Err (Fxfs Inconsistent)
    else
      bloom_filter_offset ← u64_mul bs (NUM_HEADER_BLOCKS + num_data_blocks info);
      bloom_filter ← load_bloom_filter h bloom_filter_offset info;
      seek_offset ← u64_mul bs (NUM_HEADER_BLOCKS + num_data_blocks info + bloom_filter_blocks);
      seek_table ← load_seek_table h seek_offset (num_data_blocks info);
      data_size ← u64_mul (num_data_blocks info) bs;
      Ok (mkPersistent h version bs data_size seek_table (Some (num_items info)) bloom_filter).
End open.
End PersistentLayer.

(** ** Writing *)
Record PersistentLayerWriter : Set := mkLayerWriter {
  (* What was written, and the block size of the writer below. *)
  pw_out : list Z;
  pw_writer_block_size : Z;
  pw_block_size : Z;
  pw_buf : list Z;
  pw_buf_item_count : Z;
  pw_item_count : Z;
  pw_block_offsets : list Z;
  pw_block_keys : list Z;
  pw_bloom_filter : BloomFilterWriter;
}.

Module PersistentLayerWriter.
Section ops.
Context {K V : Type} `{LayerCodec K V, FileCodec, SortByU64 K, FuzzyHash K, FilterEstimates}.
Implicit Types w : PersistentLayerWriter.

(** [nonce] is the random number. *)
Definition new (writer_block_size estimated_num_items block_size nonce : Z) : res PersistentLayerWriter :=
  _ ← rensure (block_size <=? MAX_BLOCK_SIZE) (Fxfs NotSupported);
  _ ← rensure (MIN_BLOCK_SIZE <=? block_size) (Fxfs NotSupported);
  let header := concat (Version.serialize_into LATEST_VERSION) ++ header_bytes (mkHeader PERSISTENT_LAYER_MAGIC block_size) in
  _ ← rensure (Z.of_nat (length header) <=? block_size) Other;
  Ok (mkLayerWriter (resize header block_size) writer_block_size block_size [] 0 0 [] [] (BloomFilterWriter.new nonce estimated_num_items)).

Definition data_blocks w : Z := if pw_item_count w =? 0 then 0 else Z.of_nat (length (pw_block_keys w)) + 1.

Definition write_block w (len : nat) : res PersistentLayerWriter :=
  if pw_buf_item_count w =? 0 then Ok w
  else
    let seek_table_size := Z.of_nat (length (pw_block_offsets w)) * PER_DATA_BLOCK_SEEK_ENTRY_SIZE in
    let used := PER_DATA_BLOCK_HEADER_SIZE + seek_table_size + Z.of_nat len in
    _ ← rassert (used <=? pw_block_size w);
    let block := le_split 2 (pw_buf_item_count w) ++ take len (pw_buf w) ++ replicate (Z.to_nat (pw_block_size w - used)) 0 ++
                 concat (le_split 2 <$> pw_block_offsets w) in
    Ok (mkLayerWriter (pw_out w ++ block) (pw_writer_block_size w) (pw_block_size w) (drop len (pw_buf w)) 0 (pw_item_count w) []
          (pw_block_keys w) (pw_bloom_filter w)).

Definition write w (item : Item K V) : res PersistentLayerWriter :=
  let len := length (pw_buf w) in
  let buf := pw_buf w ++ key_bytes (key item) ++ value_bytes (value item) ++ le_split 8 (sequence item) in
  let added_offset := 0 <? pw_buf_item_count w in
  _ ← rassert (negb added_offset || (Z.of_nat len + PER_DATA_BLOCK_HEADER_SIZE <=? 65535));
  let block_offsets := if added_offset then pw_block_offsets w ++ [Z.of_nat len + PER_DATA_BLOCK_HEADER_SIZE] else pw_block_offsets w in
  w ← (if pw_block_size w - 1 <?
          PER_DATA_BLOCK_HEADER_SIZE + Z.of_nat (length buf) + Z.of_nat (length block_offsets) * PER_DATA_BLOCK_SEEK_ENTRY_SIZE then
         (* The offset that was added is dropped again. *)
         w ← write_block (mkLayerWriter (pw_out w) (pw_writer_block_size w) (pw_block_size w) buf (pw_buf_item_count w) (pw_item_count w)
                            (pw_block_offsets w) (pw_block_keys w) (pw_bloom_filter w)) len;
         Ok (mkLayerWriter (pw_out w) (pw_writer_block_size w) (pw_block_size w) (pw_buf w) (pw_buf_item_count w) (pw_item_count w)
               (pw_block_offsets w) (pw_block_keys w ++ [get_leading_u64 (key item)]) (pw_bloom_filter w))
       else
         Ok (mkLayerWriter (pw_out w) (pw_writer_block_size w) (pw_block_size w) buf (pw_buf_item_count w) (pw_item_count w)
               block_offsets (pw_block_keys w) (pw_bloom_filter w)));
  f ← BloomFilterWriter.insert (pw_bloom_filter w) (key item);
  _ ← rassert (pw_buf_item_count w + 1 <=? 65535);
  Ok (mkLayerWriter (pw_out w) (pw_writer_block_size w) (pw_block_size w) (pw_buf w) (pw_buf_item_count w + 1) (pw_item_count w + 1)
        (pw_block_offsets w) (pw_block_keys w) f).

(** What the rest of [flush] appends, and the lengths that it counts. *)
Definition write_bloom_filter w : res (list Z * Z) :=
  if data_blocks w <? MINIMUM_DATA_BLOCKS_FOR_BLOOM_FILTER then Ok ([], 0)
  else
    size ← round_up (BloomFilterWriter.serialized_size (pw_bloom_filter w)) (pw_block_size w);
    size ← unwrap size;
    Ok (resize (BloomFilterWriter.write (pw_bloom_filter w)) size, BloomFilterWriter.serialized_size (pw_bloom_filter w)).

Definition write_seek_table w : list Z := concat (le_split 8 <$> pw_block_keys w).

Definition write_info w (num_data_blocks bloom_filter_size_bytes seek_table_len : Z) : res (list Z) :=
  let block_size := pw_writer_block_size w in
  let info := info_bytes (mkInfo (pw_item_count w) num_data_blocks bloom_filter_size_bytes (BloomFilterWriter.seed (pw_bloom_filter w))
                            (Z.of_nat (BloomFilterWriter.num_nonces (pw_bloom_filter w)))) in
  let buf := info ++ le_split 8 (Z.of_nat (length info)) in
  let actual_len := Z.of_nat (length buf) in
  m ← u64_rem seek_table_len block_size;
  let avail_in_block := block_size - m in
  to_skip ← (if avail_in_block <? actual_len then u64_sub (block_size + avail_in_block) actual_len
             else u64_sub avail_in_block actual_len);
  Ok (replicate (Z.to_nat to_skip) 0 ++ buf).

(** The bytes of the file. *)
Definition flush w : res (list Z) :=
  w ← write_block w (length (pw_buf w));
  let data_blocks := data_blocks w in
  '(bloom, bloom_filter_len) ← write_bloom_filter w;
  let table := write_seek_table w in
  info ← write_info w data_blocks bloom_filter_len (Z.of_nat (length table));
  Ok (pw_out w ++ bloom ++ table ++ info).

(** [LSMTree::compact_with_iterator] *)
Definition compact_with_iterator (it : LayerIterator K V) (num_items writer_block_size block_size nonce : Z) : res (list Z) :=
  w ← new writer_block_size num_items block_size nonce;
  w ← foldm write w (remaining it);
  match fails it with
  | Some e => Err e
  | None => flush w
  end.
End ops.
End PersistentLayerWriter.
