(* ===== verification/Chunks.v ===== *)
(** * The cache of a layer file's chunks

    [CachingObjectHandle] of [fxfs/src/object_store/caching_object_handle.rs]:
    readers share the chunks of a file that are in memory, wait for one another
    when a chunk is being loaded, and a purge evicts the chunks that nobody has
    used since the purge before.

    The shared [Arc]s are a heap of data with strong counts; going through an
    address that was freed is a panic.  What a reader does between two awaits,
    split where the mutex on the chunks is released, is a step; futures may be
    dropped while they wait.  The outcome of reading the file is given to the
    step that follows it. *)

From S2P Require Import Prelude Round Bytes Checksum Journal LsmTypes BloomFilter Event PersistentLayer.

Inductive Chunk : Set :=
| Missing
| Pending
| Present (a : Z)
| Expired (data : list Z).

(** A call of [read]: it waits on the event, waits for the file, is about to
    notify after it has stored the chunk or put [Missing] back (without an error
    when the future was dropped), or it has returned. *)
Inductive Reader : Set :=
| Waiting (offset : Z)
| Loading (offset : Z)
| Publishing (offset a : Z)
| Failing (e : option error)
| Holding (offset a : Z)
| Failed (e : error).

(** [co_ready] are the tasks that run or have been woken. *)
Record CachingObjectHandle : Set := mkCaching {
  co_chunks : list Chunk;
  co_event : Inner;
  co_arcs : gmap Z (list Z * Z);
  co_next_arc : Z;
  co_readers : gmap Z Reader;
  co_ready : gset Z;
}.

Module Arc.
Abbreviation t := (gmap Z (list Z * Z)).
Definition clone (m : t) (a : Z) : res t :=
  '(d, n) ← unwrap (m !! a); Ok (<[a := (d, n + 1)]> m).
Definition drop (m : t) (a : Z) : res t :=
  '(d, n) ← unwrap (m !! a); Ok (if n =? 1 then delete a m else <[a := (d, n - 1)]> m).
Definition try_unwrap (m : t) (a : Z) : res (option (list Z) * t) :=
  '(d, n) ← unwrap (m !! a); Ok (if n =? 1 then (Some d, delete a m) else (None, m)).
End Arc.

Module Chunk.
(** The chunk afterwards, and the data to deallocate. *)
Definition maybe_purge (m : Arc.t) (c : Chunk) : res (Chunk * option (list Z) * Arc.t) :=
  match c with
  | Expired data => Ok (Missing, Some data, m)
  | Present a =>
      '(r, m) ← Arc.try_unwrap m a;
      match r with
      | Some data => Ok (Expired data, None, m)
      | None => Ok (Present a, None, m)
      end
  | _ => Ok (c, None, m)
  end.
End Chunk.

Module CachingObjectHandle.
Section ops.
Context (h : ObjectHandle).
Implicit Types (s : CachingObjectHandle) (t : Z) (offset : Z).

Definition set_chunk s (i : Z) c : CachingObjectHandle :=
  mkCaching (<[Z.to_nat i := c]> (co_chunks s)) (co_event s) (co_arcs s) (co_next_arc s) (co_readers s) (co_ready s).
Definition set_event s e ready : CachingObjectHandle :=
  mkCaching (co_chunks s) e (co_arcs s) (co_next_arc s) (co_readers s) ready.
Definition set_arcs s m : CachingObjectHandle :=
  mkCaching (co_chunks s) (co_event s) m (co_next_arc s) (co_readers s) (co_ready s).
Definition set_reader s t k : CachingObjectHandle :=
  mkCaching (co_chunks s) (co_event s) (co_arcs s) (co_next_arc s) (<[t := k]> (co_readers s)) (co_ready s).
Definition remove_reader s t : CachingObjectHandle :=
  mkCaching (co_chunks s) (co_event s) (co_arcs s) (co_next_arc s) (delete t (co_readers s)) (co_ready s).
(** [Arc::new]. *)
Definition new_arc s (data : list Z) : Z * CachingObjectHandle :=
  (co_next_arc s,
   mkCaching (co_chunks s) (co_event s) (<[co_next_arc s := (data, 1)]> (co_arcs s)) (co_next_arc s + 1) (co_readers s) (co_ready s)).

Definition checked_next_multiple_of (a b : Z) : option Z :=
  if b =? 0 then None else let m := a `mod` b in if m =? 0 then Some a else checked_add a (b - m).
Definition block_aligned_size : res Z := unwrap (checked_next_multiple_of (get_size h) (oh_block_size h)).

Definition new : res CachingObjectHandle :=
  m ← u64_rem CHUNK_SIZE (oh_block_size h);
  _ ← rassert (m =? 0);
  aligned_size ← block_aligned_size;
  let chunk_count := (aligned_size + CHUNK_SIZE - 1) / CHUNK_SIZE in
  Ok (mkCaching (replicate (Z.to_nat chunk_count) Missing) Event.new ∅ 0 ∅ ∅).

(** The section of the loop of [read] that holds the mutex. *)
Definition look s t offset : res CachingObjectHandle :=
  let chunk_num := offset / CHUNK_SIZE in
  c ← unwrap (co_chunks s !! Z.to_nat chunk_num);
  match c with
  | Missing => Ok (set_reader (set_chunk s chunk_num Pending) t (Loading offset))
  | Pending => Ok (set_reader (set_event s (Event.insert (co_event s) t) ({[t]} ∪ co_ready s)) t (Waiting offset))
  | Present a => m ← Arc.clone (co_arcs s) a; Ok (set_reader (set_arcs s m) t (Holding offset a))
  | Expired data =>
      let '(a, s) := new_arc s data in
      m ← Arc.clone (co_arcs s) a;
      Ok (set_reader (set_chunk (set_arcs s m) chunk_num (Present a)) t (Holding offset a))
  end.

(** [read] up to its first await. *)
Definition read s t offset : res CachingObjectHandle :=
  if offset <? get_size h then look s t offset else Ok (set_reader s t (Failed (Fxfs OutOfRange))).

(** What the guard does to the chunks, when the load fails or is dropped. *)
Definition put_back s (chunk_num : Z) : res CachingObjectHandle :=
  c ← unwrap (co_chunks s !! Z.to_nat chunk_num);
  _ ← rassert (match c with Pending => true | _ => false end);
  Ok (set_chunk s chunk_num Missing).

(** [event.notify(usize::MAX)] *)
Definition notify s : res CachingObjectHandle :=
  '(woken, e) ← Event.notify (co_event s) u64_max false;
  Ok (set_event s e (list_to_set woken ∪ co_ready s)).

(** Where a chunk starts, how many bytes of it the file has, and the size of
    the buffer it is read into. *)
Definition extent_of (chunk_num : Z) : res (Z * Z * Z) :=
  read_start ← u64_mul chunk_num CHUNK_SIZE;
  end_ ← u64_add read_start CHUNK_SIZE;
  len ← u64_sub (Z.min end_ (get_size h)) read_start;
  aligned_size ← block_aligned_size;
  aligned_len ← u64_sub (Z.min end_ aligned_size) read_start;
  Ok (read_start, len, aligned_len).

(** After the file was read: the error, or the number of bytes and what is now
    in the buffer. *)
Definition loaded s t offset (result : error + Z * list Z) : res CachingObjectHandle :=
  let chunk_num := offset / CHUNK_SIZE in
  '(_, len, aligned_len) ← extent_of chunk_num;
  match result with
  | inl e => s ← put_back s chunk_num; Ok (set_reader s t (Failing (Some e)))
  | inr (amount_read, buf) =>
      if amount_read <? len then s ← put_back s chunk_num; Ok (set_reader s t (Failing (Some (Fxfs Internal))))
      else
        let read_buf := resize buf aligned_len in
        _ ← rassert (len <=? aligned_len);
        let '(a, s) := new_arc s (take (Z.to_nat len) read_buf) in
        c ← unwrap (co_chunks s !! Z.to_nat chunk_num);
        _ ← rassert (match c with Pending => true | _ => false end);
        m ← Arc.clone (co_arcs s) a;
        Ok (set_reader (set_chunk (set_arcs s m) chunk_num (Present a)) t (Publishing offset a))
  end.

(** The reader goes on: a listener is polled, or the event is notified. *)
Definition run s t : res CachingObjectHandle :=
  match co_readers s !! t with
  | Some (Waiting offset) =>
      '(notified, e) ← Event.register (co_event s) t t;
      if (notified : bool) then look (set_event s e (co_ready s)) t offset
      else Ok (set_event s e (co_ready s ∖ {[t]}))
  | Some (Publishing offset a) => s ← notify s; Ok (set_reader s t (Holding offset a))
  | Some (Failing (Some e)) => s ← notify s; Ok (set_reader s t (Failed e))
  | Some (Failing None) => s ← notify s; Ok (remove_reader s t)
  | _ => Ok s
  end.

(** The future is dropped while it waits. *)
Definition drop_future s t : res CachingObjectHandle :=
  match co_readers s !! t with
  | Some (Waiting offset) =>
      '(_, (woken, e)) ← Event.remove (co_event s) t true;
      Ok (remove_reader (set_event s e (list_to_set woken ∪ co_ready s)) t)
  | Some (Loading offset) => s ← put_back s (offset / CHUNK_SIZE); Ok (set_reader s t (Failing None))
  | _ => Ok s
  end.

(** The chunk that was returned is dropped, or cloned for [t']. *)
Definition release s t : res CachingObjectHandle :=
  match co_readers s !! t with
  | Some (Holding offset a) => m ← Arc.drop (co_arcs s) a; Ok (remove_reader (set_arcs s m) t)
  | Some (Failed _) => Ok (remove_reader s t)
  | _ => Ok s
  end.
Definition clone s t t' : res CachingObjectHandle :=
  match co_readers s !! t, co_readers s !! t' with
  | Some (Holding offset a), None => m ← Arc.clone (co_arcs s) a; Ok (set_reader (set_arcs s m) t' (Holding offset a))
  | _, _ => Ok s
  end.

Fixpoint purge_chunks (m : Arc.t) (chunks : list Chunk) : res (list Chunk * Arc.t) :=
  match chunks with
  | [] => Ok ([], m)
  | c :: chunks =>
      '(c, _, m) ← Chunk.maybe_purge m c;
      '(chunks, m) ← purge_chunks m chunks;
      Ok (c :: chunks, m)
  end.
Definition purge s : res CachingObjectHandle :=
  '(chunks, m) ← purge_chunks (co_arcs s) (co_chunks s);
  Ok (mkCaching chunks (co_event s) m (co_next_arc s) (co_readers s) (co_ready s)).
End ops.
End CachingObjectHandle.

(** ** Histories

    An operation of a reader that is not there, or not where it can make it,
    does nothing. *)
Inductive cache_op : Set :=
| CRead (t offset : Z)
| CRun (t : Z)
| CLoaded (t : Z) (outcome : error + Z)
| CDrop (t : Z)
| CRelease (t : Z)
| CClone (t t' : Z)
| CPurge.

(** Reading the file fails, or gives some of the bytes that were asked for. *)
Definition outcome_of (h : ObjectHandle) (offset : Z) (outcome : error + Z) : res (error + Z * list Z) :=
  '(read_start, _, aligned_len) ← CachingObjectHandle.extent_of h (offset / CHUNK_SIZE);
  Ok (match outcome with
      | inl e => inl e
      | inr n => let data := PersistentLayer.read h read_start (Z.min n aligned_len) in inr (Z.of_nat (length data), data)
      end).

Definition cache_step (h : ObjectHandle) (s : CachingObjectHandle) (o : cache_op) : res CachingObjectHandle :=
  match o with
  | CRead t offset => match co_readers s !! t with None => CachingObjectHandle.read h s t offset | Some _ => Ok s end
  | CRun t => CachingObjectHandle.run s t
  | CLoaded t outcome =>
      match co_readers s !! t with
      | Some (Loading offset) => result ← outcome_of h offset outcome; CachingObjectHandle.loaded h s t offset result
      | _ => Ok s
      end
  | CDrop t => CachingObjectHandle.drop_future s t
  | CRelease t => CachingObjectHandle.release s t
  | CClone t t' => CachingObjectHandle.clone s t t'
  | CPurge => CachingObjectHandle.purge s
  end.
