(* ===== verification/ChunksProps.v ===== *)
(** * The cache of chunks gives every reader the bytes of the file

    However reads, loads that succeed or fail, dropped futures and purges
    interleave: nothing panics, a chunk that was returned has the bytes that
    reading the file gives, for as long as it is held, a chunk is loaded by one
    reader at a time, and whoever waits for a chunk is woken. *)

From S2P Require Import Prelude Round Bytes Checksum Journal LsmTypes BloomFilter Event PersistentLayer Chunks.

Section cache.
Context (h : ObjectHandle).
Implicit Types (s : CachingObjectHandle) (chunks : list Chunk) (readers : gmap Z Reader) (t off a : Z) (k : Reader).

(** A file that can be cached. *)
Record cacheable : Prop := {
  ca_block : 0 < oh_block_size h;
  ca_divides : (oh_block_size h | CHUNK_SIZE);
  ca_size : get_size h + CHUNK_SIZE ≤ u64_max;
}.
Context (Hh : cacheable).

Definition valid off : Prop := 0 ≤ off < get_size h.
Definition number off : nat := Z.to_nat (off / CHUNK_SIZE).
(** The bytes of a chunk. *)
Definition content (i : nat) : list Z :=
  PersistentLayer.read h (Z.of_nat i * CHUNK_SIZE) (Z.min (Z.of_nat i * CHUNK_SIZE + CHUNK_SIZE) (get_size h) - Z.of_nat i * CHUNK_SIZE).

Lemma content_read off : valid off → read_chunk h off = Ok (content (number off)).
Proof.
  intros [H0 H1]. unfold read_chunk, content, number. destruct (Z.ltb_spec off (get_size h)); [|lia]. res_simpl.
  by rewrite Z2Nat.id by (apply Z.div_pos; [lia|done]).
Qed.

Lemma aligned_ok : ∃ al, CachingObjectHandle.block_aligned_size h = Ok al ∧ get_size h ≤ al.
Proof.
  destruct Hh as [Hb Hd Hs]. unfold CachingObjectHandle.block_aligned_size, CachingObjectHandle.checked_next_multiple_of.
  destruct (Z.eqb_spec (oh_block_size h) 0); [lia|]. pose proof (Z.mod_pos_bound (get_size h) _ Hb) as Hm.
  assert (oh_block_size h ≤ CHUNK_SIZE) as Hle by (apply Z.divide_pos_le; [done|exact Hd]).
  destruct (Z.eqb_spec (get_size h `mod` oh_block_size h) 0); [by eexists|]. unfold checked_add.
  destruct (Z.leb_spec (get_size h + (oh_block_size h - get_size h `mod` oh_block_size h)) u64_max); [|lia]. eexists. split; [done|lia].
Qed.

Definition chunk_count (al : Z) : nat := Z.to_nat ((al + CHUNK_SIZE - 1) / CHUNK_SIZE).

Lemma valid_number off al : valid off → get_size h ≤ al → (number off < chunk_count al)%nat.
Proof.
  intros [H0 H1] Ha. assert (0 < CHUNK_SIZE) as Hc by done. unfold number, chunk_count. apply Z2Nat.inj_lt; [apply Z.div_pos; [lia|done]|apply Z.div_pos; [lia|done]|].
  apply Z.lt_le_trans with (off / CHUNK_SIZE + 1); [lia|]. rewrite <- Z.div_add by done. apply Z.div_le_mono; [done|lia].
Qed.

Lemma extent_ok off : valid off → ∃ len alen, CachingObjectHandle.extent_of h (off / CHUNK_SIZE) = Ok (off / CHUNK_SIZE * CHUNK_SIZE, len, alen) ∧
  0 ≤ len ≤ alen ∧ alen ≤ CHUNK_SIZE ∧ len ≤ get_size h - off / CHUNK_SIZE * CHUNK_SIZE ∧ content (number off) = PersistentLayer.read h (off / CHUNK_SIZE * CHUNK_SIZE) len.
Proof.
  intros [H0 H1]. destruct aligned_ok as (al & Hal & Hle). destruct Hh as [_ _ Hs]. assert (0 < CHUNK_SIZE) as Hc by done.
  pose proof (Z.mul_div_le off CHUNK_SIZE Hc) as Hd. pose proof (Z.div_pos off CHUNK_SIZE H0 Hc) as Hp. unfold CachingObjectHandle.extent_of.
  rewrite u64_mul_ok by lia. res_simpl. rewrite u64_add_ok by lia. res_simpl. rewrite u64_sub_ok by nia. res_simpl. rewrite Hal. res_simpl. rewrite u64_sub_ok by nia. res_simpl.
  eexists _, _. split_and!; [done|nia|nia|lia|lia|]. unfold content, number. by rewrite Z2Nat.id.
Qed.

(** ** References *)
Definition held_by k : option (Z * Z) :=
  match k with Publishing off a | Holding off a => Some (off, a) | _ => None end.
Definition refers k a : bool := match held_by k with Some (_, b) => b =? a | None => false end.
Definition held readers a : Z := Z.of_nat (length (filter (λ p, refers p.2 a = true) (map_to_list readers))).
Definition is_present a (c : Chunk) : bool := match c with Present b => b =? a | _ => false end.
Definition in_chunks chunks a : Z := Z.of_nat (length (filter (λ c, is_present a c = true) chunks)).
Definition refs chunks readers a : Z := in_chunks chunks a + held readers a.

Lemma held_cons t k readers a : readers !! t = None → held (<[t := k]> readers) a = Z.b2z (refers k a) + held readers a.
Proof.
  intros Ht. unfold held. rewrite map_to_list_insert by done. rewrite filter_cons. cbn [snd]. destruct (refers k a); cbn [decide]; [|done].
  rewrite decide_True by done. cbn [length Z.b2z]. lia.
Qed.
Lemma held_lookup t k readers a : readers !! t = Some k → held readers a = Z.b2z (refers k a) + held (delete t readers) a.
Proof. intros Ht. rewrite <- (held_cons t) by apply lookup_delete_eq. by rewrite insert_delete_id. Qed.
Lemma held_insert t k readers a : held (<[t := k]> readers) a = Z.b2z (refers k a) + held (delete t readers) a.
Proof. rewrite <- insert_delete_eq. apply held_cons, lookup_delete_eq. Qed.

Lemma in_chunks_split chunks i c c' a : chunks !! i = Some c →
  in_chunks (<[i := c']> chunks) a = in_chunks chunks a - Z.b2z (is_present a c) + Z.b2z (is_present a c').
Proof.
  intros Hi. rewrite <- (take_drop_middle chunks i c Hi) at 2. pose proof (lookup_lt_Some _ _ _ Hi). rewrite insert_take_drop by done.
  unfold in_chunks. rewrite !filter_app, !filter_cons, !length_app.
  destruct (is_present a c), (is_present a c'); repeat first [rewrite decide_True by done|rewrite decide_False by done]; cbn [length Z.b2z]; lia.
Qed.
Lemma in_chunks_pos chunks i a : chunks !! i = Some (Present a) → 0 < in_chunks chunks a.
Proof.
  intros Hi. pose proof (in_chunks_split chunks i _ Missing a Hi) as H. cbn [is_present Z.b2z] in H. rewrite Z.eqb_refl in H. unfold in_chunks in *. cbn in H. lia.
Qed.
Lemma held_nonneg readers a : 0 ≤ held readers a.
Proof. unfold held. lia. Qed.
Lemma in_chunks_nonneg chunks a : 0 ≤ in_chunks chunks a.
Proof. unfold in_chunks. lia. Qed.
Lemma held_pos readers t k off a : readers !! t = Some k → held_by k = Some (off, a) → 0 < held readers a.
Proof.
  intros Ht Hk. rewrite (held_lookup _ _ _ _ Ht). unfold refers. rewrite Hk, Z.eqb_refl. cbn. pose proof (held_nonneg (delete t readers) a). lia.
Qed.

(** ** The data in memory *)
Record data_ok chunks (arcs : Arc.t) (next : Z) readers : Prop := {
  do_refs : ∀ a, match arcs !! a with Some (_, n) => n = refs chunks readers a ∧ 0 < n | None => refs chunks readers a = 0 end;
  do_fresh : ∀ a, next ≤ a → arcs !! a = None;
  do_once : ∀ a, in_chunks chunks a ≤ 1;
  do_present : ∀ i a, chunks !! i = Some (Present a) → ∃ n, arcs !! a = Some (content i, n);
  do_expired : ∀ i d, chunks !! i = Some (Expired d) → d = content i;
  do_held : ∀ t k off a, readers !! t = Some k → held_by k = Some (off, a) → ∃ n, arcs !! a = Some (content (number off), n);
}.

Definition holds_nothing readers t : Prop := ∀ k, readers !! t = Some k → held_by k = None.

Lemma held_nothing readers t a : holds_nothing readers t → held (delete t readers) a = held readers a.
Proof.
  intros Hn. destruct (readers !! t) as [k|] eqn:Ht; [|by rewrite delete_id]. rewrite (held_lookup _ _ _ _ Ht). unfold refers. by rewrite (Hn k Ht).
Qed.

(** A reader that holds nothing goes on to another state without a chunk. *)
Lemma data_reader chunks arcs next readers t k : data_ok chunks arcs next readers → holds_nothing readers t → held_by k = None →
  data_ok chunks arcs next (<[t := k]> readers).
Proof.
  intros [H1 H2 H6 H3 H4 H5] Hn Hk. split; [|done..|].
  - intros a. unfold refs. rewrite held_insert, held_nothing by done. unfold refers. rewrite Hk. apply H1.
  - intros t' k' off a [[<- <-]|[_ Ht]]%lookup_insert_Some Hk'; [congruence|by eapply H5].
Qed.
Lemma data_gone chunks arcs next readers t : data_ok chunks arcs next readers → holds_nothing readers t → data_ok chunks arcs next (delete t readers).
Proof.
  intros [H1 H2 H6 H3 H4 H5] Hn. split; [|done..|].
  - intros a. unfold refs. rewrite held_nothing by done. apply H1.
  - intros t' k' off a [_ Ht]%lookup_delete_Some Hk'. by eapply H5.
Qed.
(** Or with the chunk that it has. *)
Lemma data_same chunks arcs next readers t k k' : data_ok chunks arcs next readers → readers !! t = Some k → held_by k' = held_by k →
  data_ok chunks arcs next (<[t := k']> readers).
Proof.
  intros [H1 H2 H6 H3 H4 H5] Ht Hk. split; [|done..|].
  - intros a. specialize (H1 a). unfold refs in *. rewrite held_insert. rewrite (held_lookup _ _ _ _ Ht) in H1. unfold refers in *. by rewrite Hk.
  - intros t' k2 off a [[<- <-]|[_ Ht']]%lookup_insert_Some Hk2; [|by eapply H5]. rewrite Hk in Hk2. by eapply H5.
Qed.

Lemma data_chunk chunks arcs next readers i c c' : data_ok chunks arcs next readers → chunks !! i = Some c →
  (∀ a, c ≠ Present a) → c' = Missing ∨ c' = Pending → data_ok (<[i := c']> chunks) arcs next readers.
Proof.
  intros [H1 H2 H6 H3 H4 H5] Hi Hc Hc'.
  assert (∀ a, in_chunks (<[i := c']> chunks) a = in_chunks chunks a) as Hin.
  { intros a. rewrite (in_chunks_split _ _ _ _ _ Hi). destruct c as [| |b|]; [| |by destruct (Hc b)|]; destruct Hc' as [-> | ->]; cbn; lia. }
  split; [|done| | | |done].
  - intros a. unfold refs. rewrite Hin. apply H1.
  - intros a. rewrite Hin. apply H6.
  - intros j a [(-> & E & _)|[_ ?]]%list_lookup_insert_Some; [destruct Hc' as [-> | ->]; done|by apply H3].
  - intros j d [(-> & E & _)|[_ ?]]%list_lookup_insert_Some; [destruct Hc' as [-> | ->]; done|by apply H4].
Qed.

(** A reader gets another reference to a chunk. *)
Lemma data_clone chunks arcs next readers t k off a n : data_ok chunks arcs next readers → holds_nothing readers t →
  held_by k = Some (off, a) → arcs !! a = Some (content (number off), n) →
  Arc.clone arcs a = Ok (<[a := (content (number off), n + 1)]> arcs) ∧
  data_ok chunks (<[a := (content (number off), n + 1)]> arcs) next (<[t := k]> readers).
Proof.
  intros [H1 H2 H6 H3 H4 H5] Hn Hk Ha. split; [unfold Arc.clone; by rewrite Ha|].
  assert (∀ b d m, arcs !! b = Some (d, m) → ∃ m', <[a := (content (number off), n + 1)]> arcs !! b = Some (d, m')) as Hkeep.
  { intros b d m Hb. destruct (decide (a = b)) as [<-|Hne]; [|exists m; by rewrite lookup_insert_ne]. rewrite Ha in Hb. injection Hb as -> ->. eexists. by rewrite lookup_insert_eq. }
  split.
  - intros b. specialize (H1 b). unfold refs in *. rewrite held_insert, held_nothing by done. unfold refers. rewrite Hk. destruct (Z.eqb_spec a b) as [<-|Hne].
    + rewrite lookup_insert_eq. rewrite Ha in H1. cbn [Z.b2z]. lia.
    + rewrite lookup_insert_ne by done. exact H1.
  - intros b Hb. rewrite lookup_insert_ne; [by apply H2|]. intros <-. by rewrite (H2 a Hb) in Ha.
  - done.
  - intros i b [m Hb]%H3. by eapply Hkeep.
  - done.
  - intros t' k' off' b [[<- <-]|[_ Ht]]%lookup_insert_Some Hk'.
    + rewrite Hk in Hk'. injection Hk' as <- <-. eexists. by rewrite lookup_insert_eq.
    + destruct (H5 _ _ _ _ Ht Hk') as [m Hm]. by eapply Hkeep.
Qed.

(** A new [Arc] for the chunk [i], of which the reader has a clone. *)
Lemma data_new chunks arcs next readers t k off c : data_ok chunks arcs next readers → holds_nothing readers t →
  held_by k = Some (off, next) → chunks !! number off = Some c → (∀ a, c ≠ Present a) →
  data_ok (<[number off := Present next]> chunks) (<[next := (content (number off), 2)]> (<[next := (content (number off), 1)]> arcs)) (next + 1) (<[t := k]> readers).
Proof.
  intros [H1 H2 H6 H3 H4 H5] Hn Hk Hi Hc. rewrite insert_insert_eq. pose proof (H1 next) as Hnx. rewrite H2 in Hnx by lia.
  assert (∀ b x, arcs !! b = Some x → <[next := (content (number off), 2)]> arcs !! b = Some x) as Hkeep.
  { intros b x Hb. rewrite lookup_insert_ne; [done|]. intros <-. by rewrite H2 in Hb by lia. }
  assert (∀ b, in_chunks (<[number off := Present next]> chunks) b = in_chunks chunks b + Z.b2z (next =? b)) as Hin.
  { intros b. rewrite (in_chunks_split _ _ _ _ _ Hi). destruct c as [| |b'|]; [| |by destruct (Hc b')|]; cbn [is_present Z.b2z]; lia. }
  split.
  - intros b. specialize (H1 b). unfold refs in *. rewrite Hin, held_insert, held_nothing by done. unfold refers. rewrite Hk. destruct (Z.eqb_spec next b) as [<-|Hne].
    + rewrite lookup_insert_eq. cbn [Z.b2z]. lia.
    + rewrite lookup_insert_ne by done. cbn [Z.b2z]. rewrite Z.add_0_r. exact H1.
  - intros b Hb. rewrite lookup_insert_ne by lia. apply H2. lia.
  - intros b. rewrite Hin. destruct (Z.eqb_spec next b) as [<-|_]; cbn [Z.b2z]; [|specialize (H6 b); lia].
    unfold refs in Hnx. pose proof (in_chunks_nonneg chunks next). pose proof (held_nonneg readers next). lia.
  - intros i b [(<- & [= <-] & _)|[_ [m Hb]%H3]]%list_lookup_insert_Some; [eexists; by rewrite lookup_insert_eq|]. eexists. by apply Hkeep.
  - intros i d [(_ & [=] & _)|[_ ?]]%list_lookup_insert_Some. by apply H4.
  - intros t' k' off' b [[<- <-]|[_ Ht]]%lookup_insert_Some Hk'.
    + rewrite Hk in Hk'. injection Hk' as <- <-. eexists. by rewrite lookup_insert_eq.
    + destruct (H5 _ _ _ _ Ht Hk') as [m Hm]. eexists. by apply Hkeep.
Qed.

Lemma data_drop chunks arcs next readers t k off a : data_ok chunks arcs next readers → readers !! t = Some k → held_by k = Some (off, a) →
  ∃ arcs', Arc.drop arcs a = Ok arcs' ∧ data_ok chunks arcs' next (delete t readers).
Proof.
  intros [H1 H2 H6 H3 H4 H5] Ht Hk. destruct (H5 _ _ _ _ Ht Hk) as [n Ha]. unfold Arc.drop. rewrite Ha. res_simpl.
  assert (∀ b, held readers b = Z.b2z (a =? b) + held (delete t readers) b) as Hheld by (intros b; rewrite (held_lookup _ _ _ _ Ht); unfold refers; by rewrite Hk).
  pose proof (H1 a) as Hn. rewrite Ha in Hn. unfold refs in Hn. rewrite Hheld, Z.eqb_refl in Hn. cbn [Z.b2z] in Hn.
  pose proof (in_chunks_nonneg chunks a) as Hc0. pose proof (held_nonneg (delete t readers) a) as Hh0.
  set (arcs' := if n =? 1 then delete a arcs else <[a := (content (number off), n - 1)]> arcs). exists arcs'. split; [done|].
  assert (∀ b, a ≠ b → arcs' !! b = arcs !! b) as Hne by (intros b Hb; unfold arcs'; destruct (n =? 1); [by rewrite lookup_delete_ne|by rewrite lookup_insert_ne]).
  assert (∀ b d m, arcs !! b = Some (d, m) → 0 < refs chunks (delete t readers) b → ∃ m', arcs' !! b = Some (d, m')) as Hkeep.
  { intros b d m Hb Hr. destruct (decide (a = b)) as [<-|Hab]; [|exists m; by rewrite Hne]. unfold arcs', refs in *. rewrite Ha in Hb. injection Hb as -> ->.
    destruct (Z.eqb_spec m 1); [lia|]. eexists. by rewrite lookup_insert_eq. }
  split.
  - intros b. destruct (decide (a = b)) as [<-|Hab].
    + unfold arcs', refs. destruct (Z.eqb_spec n 1); [rewrite lookup_delete_eq; lia|rewrite lookup_insert_eq; lia].
    + rewrite Hne by done. specialize (H1 b). unfold refs in *. rewrite Hheld in H1. destruct (Z.eqb_spec a b); [done|]. exact H1.
  - intros b Hb. destruct (decide (a = b)) as [<-|Hab]; [|rewrite Hne by done; by apply H2]. by rewrite (H2 a Hb) in Ha.
  - done.
  - intros i b Hi. destruct (H3 i b Hi) as [m Hm]. eapply Hkeep; [exact Hm|]. unfold refs. pose proof (in_chunks_pos _ _ _ Hi). pose proof (held_nonneg (delete t readers) b). lia.
  - done.
  - intros t' k' off' b Ht' Hk'. pose proof Ht' as [_ Ht2]%lookup_delete_Some. destruct (H5 _ _ _ _ Ht2 Hk') as [m Hm]. eapply Hkeep; [exact Hm|].
    unfold refs. pose proof (held_pos _ _ _ _ _ Ht' Hk'). pose proof (in_chunks_nonneg chunks b). lia.
Qed.

(** An unused chunk is marked. *)
Lemma data_expire chunks arcs next readers i a d : data_ok chunks arcs next readers → chunks !! i = Some (Present a) → arcs !! a = Some (d, 1) →
  data_ok (<[i := Expired d]> chunks) (delete a arcs) next readers.
Proof.
  intros [H1 H2 H6 H3 H4 H5] Hi Ha. destruct (H3 i a Hi) as [n Hn]. rewrite Ha in Hn. injection Hn as -> <-.
  assert (∀ b, in_chunks (<[i := Expired (content i)]> chunks) b = in_chunks chunks b - Z.b2z (a =? b)) as Hin by (intros b; rewrite (in_chunks_split _ _ _ _ _ Hi); cbn [is_present Z.b2z]; lia).
  pose proof (H1 a) as Hr. rewrite Ha in Hr. unfold refs in Hr. pose proof (in_chunks_pos _ _ _ Hi) as Hp. pose proof (held_nonneg readers a) as Hh0.
  assert (∀ b, a ≠ b → delete a arcs !! b = arcs !! b) as Hne by (intros; by rewrite lookup_delete_ne). split.
  - intros b. unfold refs. rewrite Hin. destruct (Z.eqb_spec a b) as [<-|Hab]; cbn [Z.b2z]; [rewrite lookup_delete_eq; lia|]. rewrite Hne, Z.sub_0_r by done. apply H1.
  - intros b Hb. destruct (decide (a = b)) as [<-|Hab]; [by rewrite lookup_delete_eq|]. rewrite Hne by done. by apply H2.
  - intros b. rewrite Hin. specialize (H6 b). destruct (a =? b); cbn; lia.
  - intros j b Hj. assert (a ≠ b) as Hab.
    { intros <-. pose proof (in_chunks_pos _ _ _ Hj) as Hp'. rewrite Hin, Z.eqb_refl in Hp'. cbn in Hp'. specialize (H6 a). lia. }
    rewrite Hne by done. apply list_lookup_insert_Some in Hj as [(_ & [=] & _)|[_ Hj]]. by apply H3.
  - intros j d [(<- & [= <-] & _)|[_ ?]]%list_lookup_insert_Some; [done|by apply H4].
  - intros t k off b Ht Hk. assert (a ≠ b) as Hab by (intros <-; pose proof (held_pos _ _ _ _ _ Ht Hk); lia). rewrite Hne by done. by eapply H5.
Qed.

(** What a purge makes of a chunk: marked or evicted when nobody has it. *)
Definition purged readers (c c' : Chunk) : Prop :=
  match c with
  | Present a => if held readers a =? 0 then ∃ d, c' = Expired d else c' = c
  | Expired _ => c' = Missing
  | _ => c' = c
  end.

Lemma purge_one pre c rest arcs next readers : data_ok (pre ++ c :: rest) arcs next readers →
  ∃ c' d arcs', Chunk.maybe_purge arcs c = Ok (c', d, arcs') ∧ data_ok (pre ++ c' :: rest) arcs' next readers ∧ purged readers c c'.
Proof.
  intros Hd. assert ((pre ++ c :: rest) !! length pre = Some c) as Hi by by apply list_lookup_middle.
  assert (∀ c', <[length pre := c']> (pre ++ c :: rest) = pre ++ c' :: rest) as Hins by (intros c'; by rewrite insert_app_r_alt, Nat.sub_diag by done).
  destruct c as [| |a|d]; cbn [Chunk.maybe_purge purged]; [by eexists _, _, _|by eexists _, _, _| |].
  - destruct (do_present _ _ _ _ Hd _ _ Hi) as [n Ha]. unfold Arc.try_unwrap. rewrite Ha. res_simpl. pose proof (do_refs _ _ _ _ Hd a) as Hr. rewrite Ha in Hr. unfold refs in Hr.
    pose proof (do_once _ _ _ _ Hd a) as Ho. pose proof (in_chunks_pos _ _ _ Hi) as Hp. destruct (Z.eqb_spec n 1) as [->|Hn].
    + eexists _, _, _. split; [done|]. destruct (Z.eqb_spec (held readers a) 0); [|lia]. split; [|by eexists]. pose proof (data_expire _ _ _ _ _ _ _ Hd Hi Ha) as H. by rewrite Hins in H.
    + eexists _, _, _. split; [done|]. destruct (Z.eqb_spec (held readers a) 0); [lia|]. done.
  - eexists _, _, _. split; [done|]. split; [|done]. rewrite <- Hins. by eapply data_chunk; [done|done|done|left].
Qed.

Lemma purge_all rest : ∀ pre arcs next readers, data_ok (pre ++ rest) arcs next readers →
  ∃ rest' arcs', CachingObjectHandle.purge_chunks arcs rest = Ok (rest', arcs') ∧ data_ok (pre ++ rest') arcs' next readers ∧ Forall2 (purged readers) rest rest'.
Proof.
  induction rest as [|c rest IH]; intros pre arcs next readers Hd; cbn [CachingObjectHandle.purge_chunks]; [by eexists [], _|].
  destruct (purge_one pre c rest _ _ _ Hd) as (c' & d & arcs1 & -> & Hd1 & Hp). res_simpl. replace (pre ++ c' :: rest) with ((pre ++ [c']) ++ rest) in Hd1 by by rewrite <- (assoc_L app).
  destruct (IH _ _ _ _ Hd1) as (rest' & arcs' & -> & Hd2 & HF). res_simpl. exists (c' :: rest'), arcs'. split_and!; [done| |by constructor]. by rewrite <- (assoc_L app) in Hd2.
Qed.

(** ** Loads

    A chunk is pending when exactly one reader loads it. *)
Definition offset_of k : option Z :=
  match k with Waiting off | Loading off | Publishing off _ | Holding off _ => Some off | _ => None end.
Definition loading k : option Z := match k with Loading off => Some off | _ => None end.

Record load_ok chunks readers : Prop := {
  lo_range : ∀ off, valid off → (number off < length chunks)%nat;
  lo_valid : ∀ t k off, readers !! t = Some k → offset_of k = Some off → valid off;
  lo_loader : ∀ t off, readers !! t = Some (Loading off) → chunks !! number off = Some Pending;
  lo_pending : ∀ i, chunks !! i = Some Pending → ∃ t off, readers !! t = Some (Loading off) ∧ number off = i;
  lo_unique : ∀ t t' off off', readers !! t = Some (Loading off) → readers !! t' = Some (Loading off') → number off = number off' → t = t';
}.

Definition not_loading readers t : Prop := ∀ off, readers !! t ≠ Some (Loading off).

Lemma load_reader chunks chunks' readers t k : load_ok chunks readers → not_loading readers t → loading k = None → (∀ off, offset_of k = Some off → valid off) →
  length chunks' = length chunks → (∀ i, chunks' !! i = Some Pending ↔ chunks !! i = Some Pending) → load_ok chunks' (<[t := k]> readers).
Proof.
  intros [H1 H2 H3 H4 H5] Hn Hk Hv Hlen Hp. split.
  - intros off. rewrite Hlen. apply H1.
  - intros t' k' off [[<- <-]|[_ Ht]]%lookup_insert_Some Hk'; [by apply Hv|by eapply H2].
  - intros t' off [[<- ->]|[_ Ht]]%lookup_insert_Some; [done|]. by eapply Hp, H3.
  - intros i (t' & off & Ht & <-)%Hp%H4. exists t', off. split; [|done]. rewrite lookup_insert_ne; [done|]. intros <-. by destruct (Hn off).
  - intros t1 t2 off1 off2 [[<- ->]|[_ Ht1]]%lookup_insert_Some; [done|]. intros [[<- ->]|[_ Ht2]]%lookup_insert_Some; [done|]. by eapply H5.
Qed.
Lemma load_gone chunks readers t : load_ok chunks readers → not_loading readers t → load_ok chunks (delete t readers).
Proof.
  intros [H1 H2 H3 H4 H5] Hn. split; [done|..].
  - intros t' k' off [_ Ht]%lookup_delete_Some Hk'. by eapply H2.
  - intros t' off [_ Ht]%lookup_delete_Some. by eapply H3.
  - intros i (t' & off & Ht & <-)%H4. exists t', off. split; [|done]. rewrite lookup_delete_ne; [done|]. intros <-. by destruct (Hn off).
  - intros t1 t2 off1 off2 [_ Ht1]%lookup_delete_Some [_ Ht2]%lookup_delete_Some. by eapply H5.
Qed.
Lemma load_chunks chunks chunks' readers : load_ok chunks readers → length chunks' = length chunks →
  (∀ i, chunks' !! i = Some Pending ↔ chunks !! i = Some Pending) → load_ok chunks' readers.
Proof.
  intros [H1 H2 H3 H4 H5] Hlen Hp. split; [intros off; rewrite Hlen; apply H1|done| |by intros i Hi%Hp; apply H4|done]. intros t off Ht. by eapply Hp, H3.
Qed.

(** A load starts and ends. *)
Lemma load_start chunks readers t off : load_ok chunks readers → readers !! t = None → valid off → chunks !! number off = Some Missing →
  load_ok (<[number off := Pending]> chunks) (<[t := Loading off]> readers).
Proof.
  intros [H1 H2 H3 H4 H5] Ht Hv Hc. pose proof (lookup_lt_Some _ _ _ Hc) as Hlt. split.
  - intros off'. rewrite length_insert. apply H1.
  - intros t' k' off' [[<- <-]|[_ Ht']]%lookup_insert_Some Hk'; [by injection Hk' as <-|by eapply H2].
  - intros t' off' [[<- [= <-]]|[_ Ht']]%lookup_insert_Some; [by rewrite list_lookup_insert_eq|].
    destruct (decide (number off = number off')) as [<-|Hne]; [by rewrite list_lookup_insert_eq|]. rewrite list_lookup_insert_ne by done. by eapply H3.
  - intros i [(<- & _ & _)|[Hne Hi]]%list_lookup_insert_Some; [exists t, off; by rewrite lookup_insert_eq|]. destruct (H4 i Hi) as (t' & off' & Ht' & <-).
    exists t', off'. split; [|done]. rewrite lookup_insert_ne; [done|]. intros <-. congruence.
  - assert (∀ t' off', readers !! t' = Some (Loading off') → number off ≠ number off') as Hno by (intros t' off' Ht' Heq; pose proof (H3 _ _ Ht'); congruence).
    intros t1 t2 off1 off2 [[<- [= <-]]|[_ Ht1]]%lookup_insert_Some; intros [[<- [= <-]]|[_ Ht2]]%lookup_insert_Some Heq; [done|by destruct (Hno _ _ Ht2)|by destruct (Hno _ _ Ht1)|by eapply H5].
Qed.
Lemma load_end chunks readers t off c k : load_ok chunks readers → readers !! t = Some (Loading off) → c ≠ Pending →
  loading k = None → (∀ off', offset_of k = Some off' → valid off') → load_ok (<[number off := c]> chunks) (<[t := k]> readers).
Proof.
  intros [H1 H2 H3 H4 H5] Ht Hc Hk Hv. split.
  - intros off'. rewrite length_insert. apply H1.
  - intros t' k' off' [[<- <-]|[_ Ht']]%lookup_insert_Some Hk'; [by apply Hv|by eapply H2].
  - intros t' off' [[<- ->]|[Hne Ht']]%lookup_insert_Some; [done|]. rewrite list_lookup_insert_ne; [by eapply H3|]. intros Heq. by destruct Hne; eapply H5.
  - intros i [(_ & -> & _)|[Hne Hi]]%list_lookup_insert_Some; [done|]. destruct (H4 i Hi) as (t' & off' & Ht' & <-). exists t', off'. split; [|done].
    rewrite lookup_insert_ne; [done|]. intros <-. by rewrite Ht in Ht'; injection Ht' as ->.
  - intros t1 t2 off1 off2 [[<- ->]|[_ Ht1]]%lookup_insert_Some; [done|]. intros [[<- ->]|[_ Ht2]]%lookup_insert_Some; [done|]. by eapply H5.
Qed.

(** ** Waiting

    A reader that waits and was not notified has been woken already, or
    registered itself to be; and then the chunk is pending or somebody is about
    to notify. *)
Definition waits k : bool := match k with Waiting _ => true | _ => false end.
Definition notifier k : bool := match k with Publishing _ _ | Failing _ => true | _ => false end.

Record event_rep (N : Z) (A : list Z) (B : list (Z * State)) (e : Inner) chunks readers (ready : gset Z) : Prop := {
  er_listeners : listeners e A B;
  er_counted : counted e;
  er_len : ev_len e ≤ N;
  er_ids : ∀ t, t ∈ A ++ B.*1 ↔ ∃ off, readers !! t = Some (Waiting off);
  er_told : ∀ t, t ∈ A → t ∈ ready;
  er_asleep : ∀ t st, (t, st) ∈ B → st = Task t ∨ t ∈ ready;
  er_wait : ∀ t off, t ∈ B.*1 → readers !! t = Some (Waiting off) →
    chunks !! number off = Some Pending ∨ ∃ t' k, readers !! t' = Some k ∧ notifier k = true;
}.

Definition not_waiting readers t : Prop := ∀ off, readers !! t ≠ Some (Waiting off).
Definition not_notifying readers t : Prop := ∀ k, readers !! t = Some k → notifier k = false.

Lemma event_reader N A B e chunks chunks' readers ready t k : event_rep N A B e chunks readers ready → not_waiting readers t → waits k = false →
  (notifier k = true ∨ (not_notifying readers t ∧ ∀ i, chunks !! i = Some Pending → chunks' !! i = Some Pending)) →
  event_rep N A B e chunks' (<[t := k]> readers) ready.
Proof.
  intros [H1 H2 H3 H4 H5 H6 H7] Hn Hk Hor. split; [done|done|done| |done|done|].
  - intros t'. rewrite H4. split; intros [off Ht].
    + exists off. rewrite lookup_insert_ne; [done|]. intros <-. by destruct (Hn off).
    + apply lookup_insert_Some in Ht as [[_ ->]|[_ Ht]]; [done|by exists off].
  - intros t' off Ht [[_ ->]|[Hne Hw]]%lookup_insert_Some; [done|]. destruct Hor as [Hno|[Hnn Hp]]; [right; exists t, k; by rewrite lookup_insert_eq|].
    destruct (H7 t' off Ht Hw) as [Hc|(t2 & k2 & Ht2 & Hk2)]; [left; by apply Hp|]. right. exists t2, k2. split; [|done]. rewrite lookup_insert_ne; [done|]. intros <-. by rewrite (Hnn _ Ht2) in Hk2.
Qed.
Lemma event_gone N A B e chunks readers ready t : event_rep N A B e chunks readers ready → not_waiting readers t → not_notifying readers t →
  event_rep N A B e chunks (delete t readers) ready.
Proof.
  intros [H1 H2 H3 H4 H5 H6 H7] Hn Hnn. split; [done|done|done| |done|done|].
  - intros t'. rewrite H4. split; intros [off Ht].
    + exists off. rewrite lookup_delete_ne; [done|]. intros <-. by destruct (Hn off).
    + apply lookup_delete_Some in Ht as [_ Ht]. by exists off.
  - intros t' off Ht [Hne Hw]%lookup_delete_Some. destruct (H7 t' off Ht Hw) as [Hc|(t2 & k2 & Ht2 & Hk2)]; [by left|]. right. exists t2, k2. split; [|done].
    rewrite lookup_delete_ne; [done|]. intros <-. by rewrite (Hnn _ Ht2) in Hk2.
Qed.
Lemma event_chunks N A B e chunks chunks' readers ready : event_rep N A B e chunks readers ready →
  (∀ i, chunks !! i = Some Pending → chunks' !! i = Some Pending) → event_rep N A B e chunks' readers ready.
Proof. intros [H1 H2 H3 H4 H5 H6 H7] Hp. split; [done..|]. intros t off Ht Hw. destruct (H7 t off Ht Hw) as [Hc|Hc]; [left; by apply Hp|by right]. Qed.
End cache.
