(* ===== verification/ChunksSafety.v ===== *)
(** * Histories of the cache of chunks

    The invariant of [ChunksProps.v] is kept by every operation, from which
    follow what readers get, that waiting ends and what purging evicts. *)

From S2P Require Import Prelude Round Bytes Checksum Journal LsmTypes BloomFilter Event PersistentLayer Chunks ChunksProps.

Section history.
Context (h : ObjectHandle).
Implicit Types (s : CachingObjectHandle) (chunks : list Chunk) (readers : gmap Z Reader) (t off a : Z) (k : Reader).
#[local] Abbreviation valid := (valid h).
#[local] Abbreviation content := (content h).
#[local] Abbreviation data_ok := (data_ok h).
#[local] Abbreviation load_ok := (load_ok h).

(** ** The event *)
Lemma elem_split (A : list Z) t : t ∈ A → ∃ A1 A2, A = A1 ++ t :: A2.
Proof. apply list_elem_of_split. Qed.
Lemma waiting_split (B : list (Z * State)) t : t ∈ B.*1 → ∃ st B1 B2, B = B1 ++ (t, st) :: B2.
Proof. intros ([t' st] & -> & (B1 & B2 & ->)%list_elem_of_split)%list_elem_of_fmap. by exists st, B1, B2. Qed.

Lemma elem_sleepers B t : (t, Task t) ∈ B → t ∈ sleepers B.
Proof. intros Hin. apply list_elem_of_omap. by exists (t, Task t). Qed.

Lemma event_listen N A B e chunks readers ready t off : event_rep N A B e chunks readers ready → readers !! t = None →
  chunks !! number off = Some Pending →
  event_rep (N + 1) A (B ++ [(t, Created)]) (Event.insert e t) chunks (<[t := Waiting off]> readers) ({[t]} ∪ ready).
Proof.
  intros [H1 H2 H3 H4 H5 H6 H7] Ht Hc. assert (t ∉ A ++ B.*1) as Hnin by (intros [off' Hw]%H4; congruence).
  destruct (insert_listeners e A B t H1 H2 Hnin) as [H1' H2']. split; [done|done|cbn; lia|..].
  - intros t'. rewrite fmap_app, (assoc_L app), elem_of_app. cbn. rewrite list_elem_of_singleton, H4. destruct (decide (t' = t)) as [->|Hne].
    + rewrite lookup_insert_eq. split; [by eexists|auto].
    + rewrite lookup_insert_ne by done. naive_solver.
  - set_solver.
  - intros t' st [Hin|[= -> ->]%list_elem_of_singleton]%elem_of_app; [destruct (H6 _ _ Hin); [auto|set_solver]|set_solver].
  - intros t' off'. rewrite fmap_app, elem_of_app. cbn. rewrite list_elem_of_singleton. intros Hin [[<- [= <-]]|[Hne Hw]]%lookup_insert_Some; [by left|].
    destruct Hin as [Hin| ->]; [|done]. destruct (H7 t' off' Hin Hw) as [?|(t2 & k2 & Ht2 & Hk2)]; [by left|]. right. exists t2, k2. split; [|done]. rewrite lookup_insert_ne; [done|]. intros <-. congruence.
Qed.

(** A reader whose listener was notified goes on. *)
Lemma event_polled N A B e chunks readers ready t : event_rep N A B e chunks readers ready → t ∈ A →
  ∃ A' e', Event.register e t t = Ok (true, e') ∧ event_rep N A' B e' chunks (delete t readers) ready.
Proof.
  intros [H1 H2 H3 H4 H5 H6 H7] Hin. destruct (elem_split A t Hin) as (A1 & A2 & ->). destruct (register_told e A1 t A2 B t H1 H2) as (e' & He & H1' & H2').
  destruct (remove_told e A1 t A2 B NotifiedTaken H1 H2) as (_ & Hl & _). exists (A1 ++ A2), e'. split; [done|]. split; [done|done| |..].
  - unfold counted in *. rewrite H2'. rewrite H2 in H3. rewrite (ls_links _ _ _ H1'), (ls_links _ _ _ H1) in *. unfold told in *. rewrite !length_app, !length_fmap, !length_app in *. cbn [length] in *. lia.
  - intros t'. specialize (H4 t'). rewrite <- (assoc_L app) in H4 |- *. cbn [app] in H4. destruct (decide (t' = t)) as [->|Hne].
    + rewrite lookup_delete_eq. split; [done|by intros []].
    + rewrite lookup_delete_ne by done. rewrite <- H4. clear -Hne. set_solver.
  - intros t' Ht'. apply H5. clear -Ht'. set_solver.
  - done.
  - intros t' off' Ht' [Hne Hw]%lookup_delete_Some. destruct (H7 t' off' Ht' Hw) as [?|(t2 & k2 & Ht2 & Hk2)]; [by left|]. right. exists t2, k2. split; [|done].
    rewrite lookup_delete_ne; [done|]. intros <-. destruct (proj1 (H4 t) ltac:(set_solver)) as [off2 Hw2]. rewrite Hw2 in Ht2. by injection Ht2 as <-.
Qed.

(** Or it registers itself and sleeps. *)
Lemma event_sleep N A B e chunks readers ready t : event_rep N A B e chunks readers ready → t ∈ B.*1 →
  ∃ B' e', Event.register e t t = Ok (false, e') ∧ event_rep N A B' e' chunks readers (ready ∖ {[t]}).
Proof.
  intros [H1 H2 H3 H4 H5 H6 H7] Hin. destruct (waiting_split B t Hin) as (st & B1 & B2 & ->). destruct (register_waiting e A B1 t st B2 t H1 H2) as (e' & He & H1' & H2').
  assert ((B1 ++ (t, Task t) :: B2).*1 = (B1 ++ (t, st) :: B2).*1) as Hids by by rewrite !fmap_app. exists (B1 ++ (t, Task t) :: B2), e'. split; [done|]. split; [done|done| |..].
  - unfold counted in *. rewrite H2'. rewrite H2 in H3. rewrite (ls_links _ _ _ H1'), (ls_links _ _ _ H1) in *. rewrite !length_app in *. cbn [length] in *. lia.
  - intros t'. by rewrite Hids.
  - intros t' HtA. pose proof (ls_nodup _ _ _ H1) as (_ & Hd & _)%NoDup_app. assert (t' ≠ t) by (intros ->; by apply (Hd t HtA)). specialize (H5 t' HtA). set_solver.
  - intros t' st' Hin'. destruct (decide (t' = t)) as [->|Hne].
    + left. pose proof (ls_nodup _ _ _ H1') as (_ & _ & Hnd)%NoDup_app.
      pose proof (state_of_elem _ t st' Hnd Hin') as E1. pose proof (state_of_elem _ t (Task t) Hnd ltac:(set_solver)) as E2. congruence.
    + destruct (H6 t' st') as [?|?]; [|by left|right; set_solver]. apply elem_of_app in Hin' as [?|[[= -> ->]|?]%elem_of_cons]; [set_solver|done|set_solver].
  - rewrite Hids. done.
Qed.

(** Everybody is notified. *)
Lemma event_notify N A B e chunks readers ready : event_rep N A B e chunks readers ready → N ≤ u64_max →
  ∃ e', Event.notify e u64_max false = Ok (sleepers B, e') ∧ event_rep N (A ++ B.*1) [] e' chunks readers (list_to_set (sleepers B) ∪ ready).
Proof.
  intros [H1 H2 H3 H4 H5 H6 H7] HN. destruct (notify_all e A B H1 H2 ltac:(lia)) as (e' & He & H1' & H2' & Hlen). exists e'. split; [done|]. split; [done|done|lia| | | |].
  - intros t. cbn. by rewrite app_nil_r.
  - intros t [Ht|([t' st] & -> & Hin)%list_elem_of_fmap]%elem_of_app; [specialize (H5 t Ht); set_solver|]. cbn. destruct (H6 _ _ Hin) as [->|Hr]; [|set_solver].
    apply elem_of_union_l, elem_of_list_to_set. by apply elem_sleepers.
  - by intros t st ?%elem_of_nil.
  - by intros t off ?%elem_of_nil.
Qed.

(** With nobody left to notify, a notifier may go. *)
Lemma event_quiet N A e chunks chunks' readers readers' ready : event_rep N A [] e chunks readers ready →
  (∀ t off, readers' !! t = Some (Waiting off) ↔ readers !! t = Some (Waiting off)) → event_rep N A [] e chunks' readers' ready.
Proof.
  intros [H1 H2 H3 H4 H5 H6 H7] Hw. split; [done|done|done| |done|done|by intros t off ?%elem_of_nil]. intros t. rewrite H4. split; intros [off ?]; exists off; by apply Hw.
Qed.

(** A waiting future is dropped. *)
Lemma event_drop N A B e chunks readers ready t off : event_rep N A B e chunks readers ready → readers !! t = Some (Waiting off) →
  ∃ A' B' r woken e', Event.remove e t true = Ok (r, (woken, e')) ∧ event_rep N A' B' e' chunks (delete t readers) (list_to_set woken ∪ ready).
Proof.
  intros [H1 H2 H3 H4 H5 H6 H7] Ht. pose proof (proj2 (H4 t) (ex_intro _ off Ht)) as Hin.
  assert (∀ t' off', t' ∈ B.*1 → delete t readers !! t' = Some (Waiting off') → chunks !! number off' = Some Pending ∨ ∃ t2 k, delete t readers !! t2 = Some k ∧ notifier k = true) as Hw.
  { intros t' off' Ht' [Hne Hr]%lookup_delete_Some. destruct (H7 t' off' Ht' Hr) as [?|(t2 & k2 & Ht2 & Hk2)]; [by left|]. right. exists t2, k2. split; [|done].
    rewrite lookup_delete_ne; [done|]. intros <-. rewrite Ht in Ht2. by injection Ht2 as <-. }
  pose proof (ls_nodup _ _ _ H1) as Hnd.
  assert (∀ e' A' B', listeners e' A' B' → counted e' → (∀ t', t' ∈ A' ++ B'.*1 ↔ t' ∈ A ++ B.*1 ∧ t' ≠ t) → (length (A' ++ B'.*1) ≤ length (A ++ B.*1))%nat →
    ev_len e' ≤ N ∧ ∀ t', t' ∈ A' ++ B'.*1 ↔ ∃ off', delete t readers !! t' = Some (Waiting off')) as Hids.
  { intros e' A' B' HL HC HE Hle. split.
    - unfold counted in *. rewrite H2 in H3. rewrite HC. rewrite (ls_links _ _ _ HL), (ls_links _ _ _ H1) in *. unfold told in *. rewrite !length_app, !length_fmap in *. lia.
    - intros t'. rewrite HE, H4. split.
      + intros [[off' ?] ?]. exists off'. by rewrite lookup_delete_ne.
      + intros [off' [? ?]%lookup_delete_Some]. split; [by eexists|done]. }
  apply elem_of_app in Hin as [Hin|Hin].
  - destruct (elem_split A t Hin) as (A1 & A2 & ->). destruct (remove_propagates e A1 t A2 B H1 H2) as (e' & He & H1' & H2').
    set (m := (1 - length (A1 ++ A2))%nat) in *. eexists _, _, _, _, e'. split; [done|].
    assert (B.*1 = (take m B).*1 ++ (drop m B).*1) as HB by by rewrite <- fmap_app, take_drop.
    destruct (Hids e' _ _ H1' H2') as [Hn Hi].
    { intros t'. rewrite HB. rewrite HB, <- (assoc_L app) in Hnd. cbn [app] in Hnd. rewrite <- Permutation_middle in Hnd. apply NoDup_cons in Hnd as [Hnd _]. clear -Hnd. set_solver. }
    { rewrite HB, !length_app. cbn [length]. lia. }
    split; [done|done|done|done|..].
    + intros t' Ht'. rewrite (assoc_L app) in Ht'. apply elem_of_app in Ht' as [Ht'|([t2 st2] & -> & Hin2)%list_elem_of_fmap].
      * apply elem_of_union_r, H5. set_solver.
      * cbn. destruct (H6 t2 st2) as [->|?]; [rewrite <- (take_drop m B); by apply elem_of_app; left| |set_solver].
        apply elem_of_union_l, elem_of_list_to_set. by apply elem_sleepers.
    + intros t' st' Hin'. destruct (H6 t' st') as [?|?]; [|by left|set_solver]. rewrite <- (take_drop m B). set_solver.
    + intros t' off' Ht'. apply Hw. rewrite HB. set_solver.
  - destruct (waiting_split B t Hin) as (st & B1 & B2 & ->). destruct (remove_waiting e A B1 t st B2 true H1 H2) as (e' & He & H1' & H2'). eexists A, (B1 ++ B2), _, [], e'. split; [done|].
    destruct (Hids e' _ _ H1' H2') as [Hn Hi].
    { intros t'. rewrite !fmap_app in *. cbn [fmap list_fmap fst] in *. rewrite (assoc_L app) in Hnd. rewrite <- Permutation_middle in Hnd. apply NoDup_cons in Hnd as [Hnd _]. clear -Hnd. set_solver. }
    { rewrite !length_app, !length_fmap, !length_app. cbn [length]. lia. }
    split; [done|done|done|done| | |].
    + intros t' Ht'. apply elem_of_union_r. by apply H5.
    + intros t' st' Hin'. destruct (H6 t' st') as [?|?]; [set_solver|by left|set_solver].
    + intros t' off' Ht'. apply Hw. rewrite fmap_app in *. cbn. set_solver.
Qed.

(** ** The operations keep the invariant *)
Record cache_inv (N : Z) s : Prop := {
  iv_data : data_ok (co_chunks s) (co_arcs s) (co_next_arc s) (co_readers s);
  iv_load : load_ok (co_chunks s) (co_readers s);
  iv_event : ∃ A B, event_rep N A B (co_event s) (co_chunks s) (co_readers s) (co_ready s);
}.

Lemma event_more N N' A B e chunks readers ready : event_rep N A B e chunks readers ready → N ≤ N' → event_rep N' A B e chunks readers ready.
Proof. intros [H1 H2 H3 H4 H5 H6 H7] HN. split; [done|done|lia|done..]. Qed.
Lemma inv_more N N' s : cache_inv N s → N ≤ N' → cache_inv N' s.
Proof. intros [H1 H2 (A & B & H3)] HN. split; [done|done|]. exists A, B. by eapply event_more. Qed.

Lemma pending_insert chunks i c c' j : chunks !! i = Some c → c ≠ Pending → c' ≠ Pending → <[i := c']> chunks !! j = Some Pending ↔ chunks !! j = Some Pending.
Proof.
  intros Hi Hc Hc'. destruct (decide (i = j)) as [<-|Hne]; [|by rewrite list_lookup_insert_ne]. rewrite list_lookup_insert_eq by (by eapply lookup_lt_Some). split; intros Hj; congruence.
Qed.

(** Where a reader is after it looked at a chunk. *)
Definition looked (c : Chunk) s' t off : Prop :=
  match c with
  | Missing => co_readers s' !! t = Some (Loading off)
  | Pending => co_readers s' !! t = Some (Waiting off) ∧ co_chunks s' !! number off = Some Pending
  | _ => ∃ a, co_readers s' !! t = Some (Holding off a)
  end.

(** A reader that is on its own, [t] not being there, looks at the chunk. *)
Lemma look_spec N s t off : cache_inv N (CachingObjectHandle.remove_reader s t) → valid off →
  ∃ s', CachingObjectHandle.look s t off = Ok s' ∧ cache_inv (N + 1) s' ∧
    ∃ c, co_chunks s !! number off = Some c ∧ looked c s' t off.
Proof.
  intros [HD HL (A & B & HE)] Hv. cbn [CachingObjectHandle.remove_reader co_chunks co_arcs co_next_arc co_readers co_event co_ready] in *.
  assert (delete t (co_readers s) !! t = None) as Ht by apply lookup_delete_eq. unfold CachingObjectHandle.look. fold (number off).
  destruct (lookup_lt_is_Some_2 (co_chunks s) (number off)) as [c Hc]; [by apply (lo_range _ _ _ HL)|]. rewrite Hc. res_simpl.
  assert (holds_nothing (delete t (co_readers s)) t ∧ not_loading (delete t (co_readers s)) t ∧ not_waiting (delete t (co_readers s)) t ∧ not_notifying (delete t (co_readers s)) t) as (Hn1 & Hn2 & Hn3 & Hn4).
  { split_and!; intros ?; rewrite Ht; congruence. }
  destruct c as [| |a|d].
  - eexists. split; [done|]. split; [|eexists; split; [done|]; cbn; apply lookup_insert_eq]. split; cbn [CachingObjectHandle.set_reader CachingObjectHandle.set_chunk co_chunks co_arcs co_next_arc co_readers co_event co_ready]; fold (number off); rewrite <- (insert_delete_eq (co_readers s)).
    + apply data_reader; [|done|done]. eapply data_chunk; [done|done|done|by right].
    + by apply load_start.
    + exists A, B. apply (event_more N); [|lia]. eapply event_reader; [done|done|done|]. right. split; [done|]. intros i Hi.
      destruct (decide (number off = i)) as [<-|Hne]; [by rewrite list_lookup_insert_eq by (by eapply lookup_lt_Some)|by rewrite list_lookup_insert_ne].
  - eexists. split; [done|]. split; [|eexists; split; [done|]; cbn; by rewrite lookup_insert_eq]. split; cbn [CachingObjectHandle.set_reader CachingObjectHandle.set_event co_chunks co_arcs co_next_arc co_readers co_event co_ready]; rewrite <- (insert_delete_eq (co_readers s)).
    + by apply data_reader.
    + apply (load_reader h (co_chunks s)); [done|done|done| |done|done]. by intros off' [= <-].
    + eexists _, _. by apply event_listen.
  - destruct (do_present _ _ _ _ _ HD _ _ Hc) as [n Ha]. destruct (data_clone h _ _ _ _ t (Holding off a) off a n HD Hn1 eq_refl Ha) as [-> HD']. res_simpl.
    eexists. split; [done|]. split; [|eexists; split; [done|]; cbn; eexists; apply lookup_insert_eq]. split; cbn [CachingObjectHandle.set_reader CachingObjectHandle.set_arcs co_chunks co_arcs co_next_arc co_readers co_event co_ready]; rewrite <- (insert_delete_eq (co_readers s)).
    + done.
    + apply (load_reader h (co_chunks s)); [done|done|done| |done|done]. by intros off' [= <-].
    + exists A, B. apply (event_more N); [|lia]. eapply event_reader; [done|done|done|]. by right.
  - cbn [CachingObjectHandle.new_arc co_arcs]. unfold Arc.clone. rewrite lookup_insert_eq. res_simpl. rewrite (do_expired _ _ _ _ _ HD _ _ Hc).
    eexists. split; [done|]. split; [|eexists; split; [done|]; cbn; eexists; apply lookup_insert_eq].
    split; cbn [CachingObjectHandle.set_reader CachingObjectHandle.set_chunk CachingObjectHandle.set_arcs co_chunks co_arcs co_next_arc co_readers co_event co_ready]; fold (number off); rewrite <- (insert_delete_eq (co_readers s)).
    + by eapply data_new.
    + eapply (load_reader h (co_chunks s)); [done|done|done|by intros off' [= <-]|by rewrite length_insert|]. intros i. by eapply pending_insert.
    + exists A, B. apply (event_more N); [|lia]. eapply event_reader; [done|done|done|]. right. split; [done|]. intros i Hi. by eapply pending_insert.
Qed.

Lemma put_back_spec s t off k : load_ok (co_chunks s) (co_readers s) → co_readers s !! t = Some (Loading off) →
  CachingObjectHandle.put_back s (off / CHUNK_SIZE) = Ok (CachingObjectHandle.set_chunk s (off / CHUNK_SIZE) Missing) ∧
  (loading k = None → offset_of k = None → load_ok (<[number off := Missing]> (co_chunks s)) (<[t := k]> (co_readers s))).
Proof.
  intros HL Ht. pose proof (lo_loader _ _ _ HL _ _ Ht) as Hc. split; [unfold CachingObjectHandle.put_back; fold (number off); by rewrite Hc|].
  intros Hk Ho. eapply load_end; [done|done|done|done|congruence].
Qed.

(** A load that fails or is dropped. *)
Lemma fail_spec N s t off e : cache_inv N s → co_readers s !! t = Some (Loading off) →
  ∃ s', (s1 ← CachingObjectHandle.put_back s (off / CHUNK_SIZE); Ok (CachingObjectHandle.set_reader s1 t (Failing e))) = Ok s' ∧ cache_inv N s'.
Proof.
  intros [HD HL (A & B & HE)] Ht. destruct (put_back_spec s t off (Failing e) HL Ht) as [-> HL']. res_simpl. pose proof (lo_loader _ _ _ HL _ _ Ht) as Hc.
  eexists. split; [done|]. split; cbn [CachingObjectHandle.set_reader CachingObjectHandle.set_chunk co_chunks co_arcs co_next_arc co_readers co_event co_ready]; fold (number off).
  - apply data_reader; [|intros k Hk; by rewrite Ht in Hk; injection Hk as <-|done]. eapply data_chunk; [done|done|done|by left].
  - by apply HL'.
  - exists A, B. eapply event_reader; [done|intros off' E; congruence|done|by left].
Qed.

Lemma notify_inv N s : cache_inv N s → N ≤ u64_max → ∃ A e ready,
  CachingObjectHandle.notify s = Ok (CachingObjectHandle.set_event s e ready) ∧ event_rep N A [] e (co_chunks s) (co_readers s) ready.
Proof.
  intros [_ _ (A & B & HE)] HN. destruct (event_notify N A B _ _ _ _ HE HN) as (e & He & HE'). eexists _, e, _. unfold CachingObjectHandle.notify. rewrite He. res_simpl. by split.
Qed.

(** A reader that notifies and goes on with what it has. *)
Lemma publish_spec N s t k k' : cache_inv N s → N ≤ u64_max → co_readers s !! t = Some k → notifier k = true → held_by k' = held_by k →
  waits k' = false → loading k' = None → (∀ off, offset_of k' = Some off → valid off) →
  ∃ s', (s1 ← CachingObjectHandle.notify s; Ok (CachingObjectHandle.set_reader s1 t k')) = Ok s' ∧ cache_inv N s' ∧ co_chunks s' = co_chunks s ∧
    (∀ t', t' ≠ t → co_readers s' !! t' = co_readers s !! t') ∧ co_readers s' !! t = Some k' ∧ ∃ A, event_rep N A [] (co_event s') (co_chunks s') (co_readers s') (co_ready s').
Proof.
  intros Hi HN Ht Hk Hh Hw Hl Hv. destruct (notify_inv N s Hi HN) as (A & e & ready & -> & HE). res_simpl. destruct Hi as [HD HL _].
  assert (event_rep N A [] e (co_chunks s) (<[t := k']> (co_readers s)) ready) as HE'.
  { eapply event_quiet; [exact HE|]. intros t' off. destruct (decide (t' = t)) as [->|Hne]; [|by rewrite lookup_insert_ne]. rewrite lookup_insert_eq, Ht. split; intros [= ->]; done. }
  eexists. split; [done|]. cbn [CachingObjectHandle.set_reader CachingObjectHandle.set_event co_chunks co_readers co_event co_ready]. split_and!; [|done|intros t' Hne; by rewrite lookup_insert_ne|by rewrite lookup_insert_eq|by exists A].
  split; cbn [CachingObjectHandle.set_reader CachingObjectHandle.set_event co_chunks co_arcs co_next_arc co_readers co_event co_ready]; [by eapply data_same| |by eexists _, _].
  apply (load_reader h (co_chunks s)); [done|intros off E; rewrite Ht in E; injection E as ->; done|done|done|done|done].
Qed.
Lemma notify_gone_spec N s t e : cache_inv N s → N ≤ u64_max → co_readers s !! t = Some (Failing e) →
  ∃ s', (s1 ← CachingObjectHandle.notify s; Ok (CachingObjectHandle.remove_reader s1 t)) = Ok s' ∧ cache_inv N s'.
Proof.
  intros Hi HN Ht. destruct (notify_inv N s Hi HN) as (A & ev & ready & -> & HE). res_simpl. destruct Hi as [HD HL _].
  eexists. split; [done|]. split; cbn [CachingObjectHandle.remove_reader CachingObjectHandle.set_event co_chunks co_arcs co_next_arc co_readers co_event co_ready].
  - apply data_gone; [done|]. intros k Hk. rewrite Ht in Hk. by injection Hk as <-.
  - apply load_gone; [done|]. intros off E. congruence.
  - exists A, []. eapply event_quiet; [exact HE|]. intros t' off. destruct (decide (t' = t)) as [->|Hne]; [|by rewrite lookup_delete_ne]. rewrite lookup_delete_eq, Ht. done.
Qed.

(** A reader that waits is polled. *)
Lemma poll_told N s t off A B : data_ok (co_chunks s) (co_arcs s) (co_next_arc s) (co_readers s) → load_ok (co_chunks s) (co_readers s) →
  event_rep N A B (co_event s) (co_chunks s) (co_readers s) (co_ready s) → co_readers s !! t = Some (Waiting off) → t ∈ A →
  ∃ s', CachingObjectHandle.run s t = Ok s' ∧ cache_inv (N + 1) s' ∧ ∃ c, co_chunks s !! number off = Some c ∧ looked c s' t off.
Proof.
  intros HD HL HE Ht Hin. unfold CachingObjectHandle.run. rewrite Ht. assert (valid off) as Hv by by eapply (lo_valid _ _ _ HL).
  destruct (event_polled _ _ _ _ _ _ _ t HE Hin) as (A' & e' & -> & HE'). res_simpl. apply (look_spec N (CachingObjectHandle.set_event s e' (co_ready s)) t off); [|done].
  split; cbn [CachingObjectHandle.remove_reader CachingObjectHandle.set_event co_chunks co_arcs co_next_arc co_readers co_event co_ready]; [| |by exists A', B].
  - apply data_gone; [done|]. intros k Hk. rewrite Ht in Hk. by injection Hk as <-.
  - apply load_gone; [done|]. intros off' E. congruence.
Qed.

Lemma poll_spec N s t off : cache_inv N s → co_readers s !! t = Some (Waiting off) → ∃ s', CachingObjectHandle.run s t = Ok s' ∧ cache_inv (N + 1) s'.
Proof.
  intros [HD HL (A & B & HE)] Ht. pose proof (proj2 (er_ids _ _ _ _ _ _ _ HE t) (ex_intro _ off Ht)) as [Hin|Hin]%elem_of_app.
  - destruct (poll_told N s t off A B HD HL HE Ht Hin) as (s' & ? & ? & _). by exists s'.
  - unfold CachingObjectHandle.run. rewrite Ht. destruct (event_sleep _ _ _ _ _ _ _ t HE Hin) as (B' & e' & -> & HE'). res_simpl. eexists. split; [done|].
    apply (inv_more N); [|lia]. split; [done|done|by exists A, B'].
Qed.

Context (Hh : cacheable h).

Lemma take_resize (l : list Z) len n : 0 ≤ len ≤ n → len ≤ Z.of_nat (length l) → take (Z.to_nat len) (resize l n) = take (Z.to_nat len) l.
Proof. intros H1 H2. unfold resize. rewrite take_app_le by (rewrite length_take; lia). by rewrite take_take, Nat.min_l by lia. Qed.

(** The file was read; with all its bytes, the chunk is there. *)
Lemma loaded_spec N s t off outcome : cache_inv N s → co_readers s !! t = Some (Loading off) →
  ∃ s', cache_step h s (CLoaded t outcome) = Ok s' ∧ cache_inv N s' ∧
    (outcome = inr CHUNK_SIZE → ∃ a, co_readers s' = <[t := Publishing off a]> (co_readers s) ∧ co_chunks s' = <[number off := Present a]> (co_chunks s)).
Proof.
  intros Hi Ht. cbn [cache_step]. rewrite Ht. pose proof Hi as [HD HL (A & B & HE)]. assert (valid off) as Hv by by eapply (lo_valid _ _ _ HL).
  destruct (extent_ok h Hh off Hv) as (len & alen & Hext & Hlen & Hal & Hsz & Hcont). unfold outcome_of. rewrite Hext. res_simpl. unfold CachingObjectHandle.loaded. rewrite Hext. res_simpl.
  destruct outcome as [e|n]; [destruct (fail_spec N s t off (Some e) Hi Ht) as (s' & -> & Hs'); by exists s'|].
  assert (0 ≤ off / CHUNK_SIZE * CHUNK_SIZE) as Hst by (apply Z.mul_nonneg_nonneg; [apply Z.div_pos; [apply Hv|done]|done]).
  set (start := off / CHUNK_SIZE * CHUNK_SIZE) in *. set (data := PersistentLayer.read h start (Z.min n alen)).
  destruct (Z.ltb_spec (Z.of_nat (length data)) len) as [Hlt|Hge].
  - destruct (fail_spec N s t off (Some (Fxfs Internal)) Hi Ht) as (s' & -> & Hs'). exists s'. split_and!; [done..|]. intros [= ->]. exfalso.
    unfold data, PersistentLayer.read in Hlt. rewrite length_take, length_drop in Hlt. unfold get_size in Hsz. lia.
  - rewrite (proj2 (Z.leb_le len alen)) by lia. res_simpl. pose proof (lo_loader _ _ _ HL _ _ Ht) as Hc. cbn [CachingObjectHandle.new_arc co_chunks co_arcs]. fold (number off). rewrite Hc. res_simpl.
    assert (take (Z.to_nat len) (resize data alen) = content (number off)) as ->.
    { rewrite take_resize by lia. rewrite Hcont. unfold data, PersistentLayer.read in *. rewrite length_take in Hge. rewrite take_take. f_equal. lia. }
    unfold Arc.clone. rewrite lookup_insert_eq. res_simpl. eexists. split; [done|].
    split; [|intros _; by exists (co_next_arc s)].
    split; cbn [CachingObjectHandle.set_reader CachingObjectHandle.set_chunk CachingObjectHandle.set_arcs co_chunks co_arcs co_next_arc co_readers co_event co_ready]; fold (number off).
    + eapply data_new; [done| |done|done|done]. intros k Hk. rewrite Ht in Hk. by injection Hk as <-.
    + eapply load_end; [done|done|done|done|]. by intros off' [= <-].
    + exists A, B. eapply event_reader; [done|intros off' E; congruence|done|by left].
Qed.

Lemma drop_future_spec N s t : cache_inv N s → ∃ s', CachingObjectHandle.drop_future s t = Ok s' ∧ cache_inv N s'.
Proof.
  intros Hi. unfold CachingObjectHandle.drop_future. destruct (co_readers s !! t) as [[off|off| | | |]|] eqn:Ht; try (by eexists); [|by eapply fail_spec].
  destruct Hi as [HD HL (A & B & HE)]. destruct (event_drop _ _ _ _ _ _ _ t off HE Ht) as (A' & B' & r & woken & e' & -> & HE'). res_simpl. eexists. split; [done|].
  split; cbn [CachingObjectHandle.remove_reader CachingObjectHandle.set_event co_chunks co_arcs co_next_arc co_readers co_event co_ready]; [| |by exists A', B'].
  - apply data_gone; [done|]. intros k Hk. rewrite Ht in Hk. by injection Hk as <-.
  - apply load_gone; [done|]. intros off' E. congruence.
Qed.

Lemma reader_run_spec N s t : cache_inv N s → N ≤ u64_max → ∃ s', CachingObjectHandle.run s t = Ok s' ∧ cache_inv (N + 1) s'.
Proof.
  intros Hi HN. destruct (co_readers s !! t) as [k|] eqn:Ht; [|exists s; unfold CachingObjectHandle.run; rewrite Ht; split; [done|apply (inv_more N); [done|lia]]].
  destruct k as [off|off|off a|[e|]|off a|e]; [by eapply poll_spec|..]; unfold CachingObjectHandle.run; rewrite Ht; try (exists s; split; [done|apply (inv_more N); [done|lia]]).
  - destruct (publish_spec N s t _ (Holding off a) Hi HN Ht) as (s' & -> & Hs' & _); [done..| |exists s'; split; [done|apply (inv_more N); [done|lia]]].
    intros off' [= <-]. by eapply (lo_valid _ _ _ (iv_load _ _ Hi)).
  - destruct (publish_spec N s t _ (Failed e) Hi HN Ht) as (s' & -> & Hs' & _); [done..|exists s'; split; [done|apply (inv_more N); [done|lia]]].
  - destruct (notify_gone_spec N s t _ Hi HN Ht) as (s' & -> & Hs'). exists s'. split; [done|apply (inv_more N); [done|lia]].
Qed.

Lemma release_spec N s t : cache_inv N s → ∃ s', CachingObjectHandle.release s t = Ok s' ∧ cache_inv N s'.
Proof.
  intros Hi. unfold CachingObjectHandle.release. destruct (co_readers s !! t) as [[| | | |off a|e]|] eqn:Ht; try (by eexists); destruct Hi as [HD HL (A & B & HE)].
  - destruct (data_drop h _ _ _ _ t _ off a HD Ht eq_refl) as (arcs' & -> & HD'). res_simpl. eexists. split; [done|]. split; cbn [CachingObjectHandle.remove_reader CachingObjectHandle.set_arcs co_chunks co_arcs co_next_arc co_readers co_event co_ready]; [done| |].
    + apply load_gone; [done|]. intros off' E. congruence.
    + exists A, B. apply event_gone; [done|intros off' E; congruence|intros k Hk; rewrite Ht in Hk; by injection Hk as <-].
  - eexists. split; [done|]. split; cbn [CachingObjectHandle.remove_reader co_chunks co_arcs co_next_arc co_readers co_event co_ready].
    + apply data_gone; [done|]. intros k Hk. rewrite Ht in Hk. by injection Hk as <-.
    + apply load_gone; [done|]. intros off' E. congruence.
    + exists A, B. apply event_gone; [done|intros off' E; congruence|intros k Hk; rewrite Ht in Hk; by injection Hk as <-].
Qed.

Lemma clone_spec N s t t' : cache_inv N s → ∃ s', CachingObjectHandle.clone s t t' = Ok s' ∧ cache_inv N s'.
Proof.
  intros Hi. unfold CachingObjectHandle.clone. destruct (co_readers s !! t) as [[| | | |off a|e]|] eqn:Ht; try (by eexists). destruct (co_readers s !! t') eqn:Ht'; [by eexists|]. destruct Hi as [HD HL (A & B & HE)].
  destruct (do_held _ _ _ _ _ HD t _ off a Ht eq_refl) as [n Ha].
  destruct (data_clone h _ _ _ _ t' (Holding off a) off a n HD ltac:(intros k Hk; congruence) eq_refl Ha) as [-> HD']. res_simpl.
  eexists. split; [done|]. split; cbn [CachingObjectHandle.set_reader CachingObjectHandle.set_arcs co_chunks co_arcs co_next_arc co_readers co_event co_ready]; [done| |].
  - apply (load_reader h (co_chunks s)); [done|intros off' E; congruence|done| |done|done]. intros off' [= <-]. by eapply (lo_valid _ _ _ HL).
  - exists A, B. eapply event_reader; [done|intros off' E; congruence|done|]. right. split; [intros k Hk; congruence|done].
Qed.

Lemma purge_spec N s : cache_inv N s → ∃ s', CachingObjectHandle.purge s = Ok s' ∧ cache_inv N s' ∧
  Forall2 (purged (co_readers s)) (co_chunks s) (co_chunks s') ∧ co_readers s' = co_readers s.
Proof.
  intros [HD HL (A & B & HE)]. unfold CachingObjectHandle.purge. destruct (purge_all h (co_chunks s) [] _ _ _ HD) as (chunks' & arcs' & -> & HD' & HF). res_simpl.
  eexists. split; [done|]. split; [|done]. cbn [app] in HD'.
  assert (∀ i, chunks' !! i = Some Pending ↔ co_chunks s !! i = Some Pending) as Hp.
  { intros i. split; intros Hi.
    - destruct (Forall2_lookup_r _ _ _ _ _ HF Hi) as (c & Hc & Hpu). rewrite Hc. destruct c as [| |a|d]; cbn in Hpu; try done. destruct (held (co_readers s) a =? 0); [by destruct Hpu|done].
    - destruct (Forall2_lookup_l _ _ _ _ _ HF Hi) as (c & Hc & Hpu). by rewrite Hc, Hpu. }
  split; cbn [co_chunks co_arcs co_next_arc co_readers co_event co_ready]; [done| |].
  - eapply load_chunks; [done|symmetry; by eapply Forall2_length|done].
  - exists A, B. eapply event_chunks; [done|]. intros i. by apply Hp.
Qed.

(** ** Histories *)
Definition cache_op_ok (o : cache_op) : Prop := match o with CRead _ off => 0 ≤ off | _ => True end.

Lemma new_spec : ∃ s, CachingObjectHandle.new h = Ok s ∧ cache_inv 0 s.
Proof.
  destruct (aligned_ok h Hh) as (al & Hal & Hle). destruct Hh as [Hb [m Hd] _]. unfold CachingObjectHandle.new. rewrite u64_rem_ok by lia. res_simpl.
  rewrite Hd, Z.mod_mul by lia. rewrite <- Hd. res_simpl. rewrite Hal. res_simpl. fold (chunk_count al). eexists. split; [done|]. split; cbn [co_chunks co_arcs co_next_arc co_readers co_event co_ready].
  - assert (∀ a, in_chunks (replicate (chunk_count al) Missing) a = 0) as Hin by (intros a; unfold in_chunks; induction (chunk_count al) as [|n IH]; [done|]; cbn [replicate]; by rewrite filter_cons_False).
    split; [intros a; rewrite lookup_empty; unfold refs; by rewrite Hin|intros; apply lookup_empty|intros a; rewrite Hin; lia|..].
    + intros i a [[=] _]%lookup_replicate.
    + intros i d [[=] _]%lookup_replicate.
    + intros t k off a E. by rewrite lookup_empty in E.
  - split.
    + intros off Hv. rewrite length_replicate. by eapply valid_number.
    + intros t k off E. by rewrite lookup_empty in E.
    + intros t off E. by rewrite lookup_empty in E.
    + intros i [[=] _]%lookup_replicate.
    + intros t t' off off' E. by rewrite lookup_empty in E.
  - exists [], []. split; [by split; [..|apply NoDup_nil_2| |]|done|done| |set_solver..].
    intros t. split; [by intros ?%elem_of_nil|intros [off E]; by rewrite lookup_empty in E].
Qed.

Lemma step_spec N s o : cache_inv N s → N ≤ u64_max → cache_op_ok o → ∃ s', cache_step h s o = Ok s' ∧ cache_inv (N + 1) s'.
Proof.
  intros Hi HN Ho. assert (∀ r, (∃ s', r = Ok s' ∧ cache_inv N s') → ∃ s', r = Ok s' ∧ cache_inv (N + 1) s') as Hmore.
  { intros r (s' & -> & Hs'). exists s'. split; [done|]. apply (inv_more N); [done|lia]. }
  destruct o as [t off|t|t outcome|t|t|t t'|]; cbn [cache_step cache_op_ok] in *.
  - destruct (co_readers s !! t) eqn:Ht; [apply Hmore; by eexists|]. unfold CachingObjectHandle.read. destruct (Z.ltb_spec off (get_size h)) as [Hlt|_].
    + destruct (look_spec N s t off) as (s' & ? & ? & _); [|done|by exists s']. destruct Hi as [HD HL HE]. split; cbn [CachingObjectHandle.remove_reader co_chunks co_arcs co_next_arc co_readers co_event co_ready]; by rewrite delete_id.
    + apply Hmore. eexists. split; [done|]. destruct Hi as [HD HL (A & B & HE)]. split; cbn [CachingObjectHandle.set_reader co_chunks co_arcs co_next_arc co_readers co_event co_ready].
      * apply data_reader; [done|intros k Hk; congruence|done].
      * apply (load_reader h (co_chunks s)); [done|intros off' E; congruence|done|done|done|done].
      * exists A, B. eapply event_reader; [done|intros off' E; congruence|done|]. right. split; [intros k Hk; congruence|done].
  - by apply reader_run_spec.
  - apply Hmore. destruct (co_readers s !! t) as [[]|] eqn:Ht; try (by eexists).
    destruct (loaded_spec N s t _ outcome Hi Ht) as (s' & He & Hs' & _). cbn [cache_step] in He. rewrite Ht in He. by exists s'.
  - apply Hmore. by apply drop_future_spec.
  - apply Hmore. by apply release_spec.
  - apply Hmore. by apply clone_spec.
  - apply Hmore. destruct (purge_spec N s Hi) as (s' & ? & ? & _). by exists s'.
Qed.

Lemma history_inv ops : ∀ N s, cache_inv N s → N + Z.of_nat (length ops) ≤ u64_max → Forall cache_op_ok ops →
  ∃ s', foldm (cache_step h) s ops = Ok s' ∧ cache_inv (N + Z.of_nat (length ops)) s'.
Proof.
  induction ops as [|o ops IH]; intros N s Hi HN Hops; cbn [foldm length] in *; [exists s; by rewrite Z.add_0_r|]. apply Forall_cons in Hops as [Ho Hops].
  destruct (step_spec N s o Hi ltac:(lia) Ho) as (s1 & -> & Hi1). res_simpl. destruct (IH (N + 1) s1 Hi1 ltac:(lia) Hops) as (s' & -> & Hs'). exists s'. split; [done|].
  by replace (N + Z.of_nat (S (length ops))) with (N + 1 + Z.of_nat (length ops)) by lia.
Qed.

(** C19: However reads, loads that succeed or fail, dropped futures, purges and
    releases of chunks interleave, the cache does not panic; every chunk that a
    read returned has the bytes that reading the file at the offset gives, for
    as long as it is held; and a chunk is loaded by one reader at a time. *)
Theorem chunk_cache_serves ops : Forall cache_op_ok ops → Z.of_nat (length ops) ≤ u64_max →
  ∃ s0 s, CachingObjectHandle.new h = Ok s0 ∧ foldm (cache_step h) s0 ops = Ok s ∧
    (∀ t off a, co_readers s !! t = Some (Holding off a) → ∃ data n, co_arcs s !! a = Some (data, n) ∧ read_chunk h off = Ok data) ∧
    (∀ t t' off off', co_readers s !! t = Some (Loading off) → co_readers s !! t' = Some (Loading off') → off / CHUNK_SIZE = off' / CHUNK_SIZE → t = t').
Proof.
  intros Hops Hlen. destruct new_spec as (s0 & Hs0 & Hi0). destruct (history_inv ops 0 s0 Hi0 Hlen Hops) as (s & Hs & [HD HL _]). exists s0, s. split_and!; [done|done|..].
  - intros t off a Ht. destruct (do_held _ _ _ _ _ HD t _ off a Ht eq_refl) as [n Ha]. exists (content (number off)), n. split; [done|].
    apply content_read. by eapply (lo_valid _ _ _ HL).
  - intros t t' off off' Ht Ht' Heq. eapply (lo_unique _ _ _ HL); [done|done|]. unfold number. by rewrite Heq.
Qed.

(** ** Waiting ends *)
Definition continues (o : cache_op) : Prop := match o with CRun _ => True | CLoaded _ (inr _) => True | _ => False end.

(** That [t] gets its chunk by steps of the readers that are there. *)
Definition gets s t off : Prop := ∃ more s' a, Forall continues more ∧ foldm (cache_step h) s more = Ok s' ∧ co_readers s' !! t = Some (Holding off a).

Lemma gets_step s o s' t off : continues o → cache_step h s o = Ok s' → gets s' t off → gets s t off.
Proof. intros Ho He (more & s2 & a & Hm & Hf & Hh2). exists (o :: more), s2, a. split_and!; [by constructor| |done]. cbn [foldm]. by rewrite He. Qed.

Lemma gets_loading N s t off : cache_inv N s → N ≤ u64_max → co_readers s !! t = Some (Loading off) → gets s t off.
Proof.
  intros Hi HN Ht. destruct (loaded_spec N s t off (inr CHUNK_SIZE) Hi Ht) as (s1 & He & Hi1 & Hp). destruct (Hp eq_refl) as (a & Hr & _).
  eapply gets_step; [|exact He|]; [done|]. assert (co_readers s1 !! t = Some (Publishing off a)) as Ht1 by by rewrite Hr, lookup_insert_eq.
  destruct (publish_spec N s1 t _ (Holding off a) Hi1 HN Ht1) as (s2 & He2 & _ & _ & _ & Ht2 & _); [done..| |].
  { intros off' [= <-]. by eapply (lo_valid _ _ _ (iv_load _ _ Hi1)). }
  exists [CRun t], s2, a. split_and!; [by repeat constructor| |done]. cbn [foldm cache_step]. unfold CachingObjectHandle.run. by rewrite Ht1, He2.
Qed.

(** The reader that loads the chunk finishes and wakes [t]. *)
Lemma gets_pending N s t off : cache_inv N s → N ≤ u64_max → co_readers s !! t = Some (Waiting off) → co_chunks s !! number off = Some Pending → gets s t off.
Proof.
  intros Hi HN Ht Hc. destruct (lo_pending _ _ _ (iv_load _ _ Hi) _ Hc) as (l & off' & Hl & Hn). assert (l ≠ t) as Hlt by congruence.
  destruct (loaded_spec N s l off' (inr CHUNK_SIZE) Hi Hl) as (s1 & He & Hi1 & Hp). destruct (Hp eq_refl) as (a & Hr & Hch). eapply gets_step; [|exact He|]; [done|].
  assert (co_readers s1 !! l = Some (Publishing off' a)) as Hl1 by by rewrite Hr, lookup_insert_eq.
  destruct (publish_spec N s1 l _ (Holding off' a) Hi1 HN Hl1) as (s2 & He2 & Hi2 & Hc2 & Ho2 & _ & A & HE2); [done..| |].
  { intros off2 [= <-]. by eapply (lo_valid _ _ _ (iv_load _ _ Hi1)). }
  apply (gets_step s1 (CRun l) s2); [done|cbn [cache_step]; unfold CachingObjectHandle.run; by rewrite Hl1|].
  assert (co_readers s2 !! t = Some (Waiting off)) as Ht2 by (rewrite Ho2, Hr by done; by rewrite lookup_insert_ne).
  pose proof (proj2 (er_ids _ _ _ _ _ _ _ HE2 t) (ex_intro _ off Ht2)) as Hin. cbn [fmap list_fmap] in Hin. rewrite app_nil_r in Hin. destruct Hi2 as [HD2 HL2 _].
  destruct (poll_told N s2 t off A [] HD2 HL2 HE2 Ht2 Hin) as (s3 & He3 & _ & c & Hc3 & Hlook). rewrite Hc2, Hch, Hn, list_lookup_insert_eq in Hc3 by (by eapply lookup_lt_Some). injection Hc3 as <-.
  destruct Hlook as [b Hb]. exists [CRun t], s3, b. split_and!; [by repeat constructor| |done]. cbn [foldm cache_step]. by rewrite He3.
Qed.

Lemma gets_told N s t off A B : data_ok (co_chunks s) (co_arcs s) (co_next_arc s) (co_readers s) → load_ok (co_chunks s) (co_readers s) →
  event_rep N A B (co_event s) (co_chunks s) (co_readers s) (co_ready s) → N + 1 ≤ u64_max → co_readers s !! t = Some (Waiting off) → t ∈ A → gets s t off.
Proof.
  intros HD HL HE HN Ht Hin. destruct (poll_told N s t off A B HD HL HE Ht Hin) as (s1 & He & Hi1 & c & Hc & Hlook). apply (gets_step _ (CRun t) s1); [done|exact He|].
  destruct c; cbn [looked] in Hlook; [by eapply gets_loading|destruct Hlook; by eapply gets_pending|..]; destruct Hlook as [b Hb]; by exists [], s1, b.
Qed.

Lemma gets_waiting N s t off : cache_inv N s → N + 1 ≤ u64_max → co_readers s !! t = Some (Waiting off) → gets s t off.
Proof.
  intros Hi HN Ht. pose proof Hi as [HD HL (A & B & HE)]. pose proof (proj2 (er_ids _ _ _ _ _ _ _ HE t) (ex_intro _ off Ht)) as [Hin|Hin]%elem_of_app; [by eapply gets_told|].
  destruct (er_wait _ _ _ _ _ _ _ HE t off Hin Ht) as [Hc|(n & k & Hn & Hk)]; [eapply gets_pending; [exact Hi|lia|done|done]|]. assert (n ≠ t) as Hnt by (intros ->; rewrite Ht in Hn; by injection Hn as <-).
  destruct (notify_inv N s Hi ltac:(lia)) as (A' & e & ready & Hno & HE').
  assert (∃ s1, cache_step h s (CRun n) = Ok s1 ∧ co_readers s1 !! t = Some (Waiting off) ∧ cache_inv N s1 ∧ ∃ A1, event_rep N A1 [] (co_event s1) (co_chunks s1) (co_readers s1) (co_ready s1)) as (s1 & He & Ht1 & [HD1 HL1 _] & A1 & HE1).
  { cbn [cache_step]. unfold CachingObjectHandle.run. rewrite Hn. destruct k as [| |off' a|[er|]| |]; try done.
    - destruct (publish_spec N s n _ (Holding off' a) Hi ltac:(lia) Hn) as (s1 & -> & Hi1 & _ & Ho & _ & HA); [done..| |exists s1; rewrite Ho by done; done].
      intros off2 [= <-]. by eapply (lo_valid _ _ _ HL).
    - destruct (publish_spec N s n _ (Failed er) Hi ltac:(lia) Hn) as (s1 & -> & Hi1 & _ & Ho & _ & HA); [done..|exists s1; rewrite Ho by done; done].
    - destruct (notify_gone_spec N s n None Hi ltac:(lia) Hn) as (s1 & He & Hi1). rewrite Hno in He |- *. res_simpl in He. injection He as <-. eexists. split; [done|].
      cbn [CachingObjectHandle.remove_reader CachingObjectHandle.set_event co_readers co_event co_chunks co_ready]. rewrite lookup_delete_ne by done. split_and!; [done|done|].
      exists A'. eapply event_quiet; [exact HE'|]. intros t' off'. destruct (decide (t' = n)) as [->|Hne]; [rewrite lookup_delete_eq, Hn; done|by rewrite lookup_delete_ne]. }
  apply (gets_step _ (CRun n) s1); [done|done|]. eapply gets_told; [done|done|done|lia|done|].
  pose proof (proj2 (er_ids _ _ _ _ _ _ _ HE1 t) (ex_intro _ off Ht1)) as Hin1. cbn [fmap list_fmap] in Hin1. by rewrite app_nil_r in Hin1.
Qed.

(** C20: A reader that waits for a chunk runs or has been woken, or another
    reader loads the chunk or is about to notify; and the readers that are there
    can always go on until it has its chunk. *)
Theorem chunk_cache_wakes ops s0 s t off : Forall cache_op_ok ops → Z.of_nat (length ops) + 1 ≤ u64_max →
  CachingObjectHandle.new h = Ok s0 → foldm (cache_step h) s0 ops = Ok s → co_readers s !! t = Some (Waiting off) →
  (t ∈ co_ready s ∨ (∃ t' off', co_readers s !! t' = Some (Loading off') ∧ off' / CHUNK_SIZE = off / CHUNK_SIZE) ∨
    ∃ t' k, co_readers s !! t' = Some k ∧ notifier k = true) ∧
  ∃ more s' a, Forall continues more ∧ foldm (cache_step h) s more = Ok s' ∧ co_readers s' !! t = Some (Holding off a).
Proof.
  intros Hops Hlen Hnew Hs Ht. destruct new_spec as (s0' & Hs0 & Hi0). rewrite Hnew in Hs0. injection Hs0 as <-. destruct (history_inv ops 0 s0 Hi0 ltac:(lia) Hops) as (s' & Hs' & Hi). rewrite Hs in Hs'. injection Hs' as <-.
  split; [|by eapply gets_waiting]. destruct Hi as [_ HL (A & B & HE)]. assert (0 ≤ off) as H0 by (by eapply (lo_valid _ _ _ HL _ _ _ Ht)).
  pose proof (proj2 (er_ids _ _ _ _ _ _ _ HE t) (ex_intro _ off Ht)) as [Hin|Hin]%elem_of_app; [left; by eapply (er_told _ _ _ _ _ _ _ HE)|right].
  destruct (er_wait _ _ _ _ _ _ _ HE t off Hin Ht) as [Hc|?]; [|by right]. left. destruct (lo_pending _ _ _ HL _ Hc) as (t' & off' & Ht' & Hn). exists t', off'. split; [done|].
  assert (0 ≤ off') as H0' by (by eapply (lo_valid _ _ _ HL _ _ _ Ht')). unfold number in Hn. apply Z2Nat.inj in Hn; [done|by apply Z.div_pos..].
Qed.

(** Purging gives a second chance: a chunk that no reader has is marked by
    one purge and evicted by the next, unless it is read in between, which gives
    it back without a load; a chunk that a reader has stays. *)
Theorem chunk_cache_purge ops s0 s : Forall cache_op_ok ops → Z.of_nat (length ops) ≤ u64_max →
  CachingObjectHandle.new h = Ok s0 → foldm (cache_step h) s0 ops = Ok s →
  ∃ s1 s2, CachingObjectHandle.purge s = Ok s1 ∧ CachingObjectHandle.purge s1 = Ok s2 ∧ ∀ off a, valid off → co_chunks s !! number off = Some (Present a) →
    if held (co_readers s) a =? 0 then
      co_chunks s1 !! number off = Some (Expired (content (number off))) ∧ co_chunks s2 !! number off = Some Missing ∧
      ∀ t, co_readers s !! t = None → ∃ s' b, CachingObjectHandle.read h s1 t off = Ok s' ∧ co_readers s' !! t = Some (Holding off b)
    else co_chunks s1 !! number off = Some (Present a) ∧ co_chunks s2 !! number off = Some (Present a).
Proof.
  intros Hops Hlen Hnew Hs. destruct new_spec as (s0' & Hs0 & Hi0). rewrite Hnew in Hs0. injection Hs0 as <-. destruct (history_inv ops 0 s0 Hi0 ltac:(lia) Hops) as (s' & Hs' & Hi). rewrite Hs in Hs'. injection Hs' as <-.
  destruct (purge_spec _ s Hi) as (s1 & H1 & Hi1 & HF1 & Hr1). destruct (purge_spec _ s1 Hi1) as (s2 & H2 & Hi2 & HF2 & _). rewrite Hr1 in HF2. exists s1, s2. split_and!; [done|done|]. intros off a Hv Hc.
  destruct (Forall2_lookup_l _ _ _ _ _ HF1 Hc) as (c1 & Hc1 & Hp1). destruct (Forall2_lookup_l _ _ _ _ _ HF2 Hc1) as (c2 & Hc2 & Hp2). cbn [purged] in Hp1.
  destruct (Z.eqb_spec (held (co_readers s) a) 0) as [H0|H0].
  - destruct Hp1 as [d ->]. cbn [purged] in Hp2. rewrite Hc1, Hc2, Hp2. rewrite (do_expired _ _ _ _ _ (iv_data _ _ Hi1) _ _ Hc1). split_and!; [done|done|]. intros t Ht. destruct Hv as [Hv0 Hv1].
    unfold CachingObjectHandle.read. rewrite (proj2 (Z.ltb_lt off (get_size h))) by done.
    destruct (look_spec (0 + Z.of_nat (length ops)) s1 t off) as (s' & -> & _ & c & Hc' & Hlook); [|done|].
    + destruct Hi1 as [HD HL HE]. rewrite Hr1 in *. split; cbn [CachingObjectHandle.remove_reader co_chunks co_arcs co_next_arc co_readers co_event co_ready]; rewrite Hr1, delete_id by done; done.
    + rewrite Hc1 in Hc'. injection Hc' as <-. destruct Hlook as [b Hb]. by exists s', b.
  - subst c1. cbn [purged] in Hp2. destruct (Z.eqb_spec (held (co_readers s) a) 0); [done|]. by subst c2.
Qed.
End history.

(** ** A file of a thousand bytes, read twice at a time

    The first reader starts to load the chunk and is dropped; the second one,
    which waited for it, loads the chunk instead. *)

Module CacheDemo.
Definition file : ObjectHandle := mkHandle (replicate 1000 7) 512.
Lemma file_cacheable : cacheable file.
Proof. split; [done|by exists 256|by vm_compute]. Qed.

(** Reader 2 waits and sleeps; reader 1 is dropped and notifies. *)
Definition waiting_ops : list cache_op := [CRead 1 5; CRead 2 600; CRun 2].
Definition reading_ops : list cache_op := waiting_ops ++ [CDrop 1; CRun 1; CRun 2; CLoaded 2 (inr 1000); CRun 2].

Definition reader_after (ops : list cache_op) (t : Z) : res (option Reader) :=
  s0 ← CachingObjectHandle.new file; s ← foldm (cache_step file) s0 ops; Ok (co_readers s !! t).

Lemma reader_after_ok ops t k s0 s : reader_after ops t = Ok k → CachingObjectHandle.new file = Ok s0 → foldm (cache_step file) s0 ops = Ok s → co_readers s !! t = k.
Proof. unfold reader_after. intros H H0 H1. rewrite H0 in H. res_simpl in H. rewrite H1 in H. res_simpl in H. congruence. Qed.

Lemma reader_waits : reader_after waiting_ops 2 = Ok (Some (Waiting 600)).
Proof. vm_compute. reflexivity. Qed.
Lemma reader_holds : reader_after reading_ops 2 = Ok (Some (Holding 600 0)).
Proof. vm_compute. reflexivity. Qed.

Lemma reading_ok : Forall cache_op_ok reading_ops.
Proof. repeat constructor; done. Qed.
Lemma waiting_ok : Forall cache_op_ok waiting_ops.
Proof. repeat constructor; done. Qed.
Lemma releasing_ok : Forall cache_op_ok (reading_ops ++ [CRelease 2]).
Proof. repeat constructor; done. Qed.

Lemma file_chunk : read_chunk file 600 = Ok (replicate 1000 7).
Proof. vm_compute. reflexivity. Qed.

(** The second reader has the bytes. *)
Lemma chunk_cache_serves_witness : ∃ s0 s n, CachingObjectHandle.new file = Ok s0 ∧ foldm (cache_step file) s0 reading_ops = Ok s ∧
  co_arcs s !! 0 = Some (replicate 1000 7, n).
Proof.
  destruct (chunk_cache_serves file file_cacheable reading_ops reading_ok ltac:(by vm_compute)) as (s0 & s & H0 & H1 & Hh & _).
  destruct (Hh 2 600 0 (reader_after_ok _ _ _ _ _ reader_holds H0 H1)) as (data & n & Ha & Hr). exists s0, s, n. split; [exact H0|]. split; [exact H1|].
  rewrite file_chunk in Hr. injection Hr as <-. exact Ha.
Defined.

Lemma waiting_runs : ∃ s0 s, CachingObjectHandle.new file = Ok s0 ∧ foldm (cache_step file) s0 waiting_ops = Ok s.
Proof.
  destruct (new_spec file file_cacheable) as (s0 & H0 & Hi). destruct (history_inv file file_cacheable waiting_ops 0 s0 Hi ltac:(by vm_compute) waiting_ok) as (s & Hs & _). by exists s0, s.
Qed.

(** While it waits, it can still get its chunk. *)
Lemma chunk_cache_wakes_witness : ∃ s more s' a, co_readers s !! 2 = Some (Waiting 600) ∧ foldm (cache_step file) s more = Ok s' ∧ co_readers s' !! 2 = Some (Holding 600 a).
Proof.
  destruct waiting_runs as (s0 & s & H0 & H1). pose proof (reader_after_ok _ _ _ _ _ reader_waits H0 H1) as Ht.
  destruct (chunk_cache_wakes file file_cacheable waiting_ops s0 s 2 600 waiting_ok ltac:(by vm_compute) H0 H1 Ht) as (_ & more & s' & a & _ & Hm & Ha).
  exists s, more, s', a. split; [exact Ht|]. split; [exact Hm|exact Ha].
Defined.

Lemma releasing_runs : ∃ s0 s, CachingObjectHandle.new file = Ok s0 ∧ foldm (cache_step file) s0 (reading_ops ++ [CRelease 2]) = Ok s ∧
  co_chunks s !! 0%nat = Some (Present 0) ∧ held (co_readers s) 0 = 0.
Proof.
  destruct (new_spec file file_cacheable) as (s0 & H0 & Hi). destruct (history_inv file file_cacheable (reading_ops ++ [CRelease 2]) 0 s0 Hi ltac:(by vm_compute) releasing_ok) as (s & Hs & _).
  exists s0, s. split; [done|]. split; [done|].
  assert ((s0 ← CachingObjectHandle.new file; s ← foldm (cache_step file) s0 (reading_ops ++ [CRelease 2]); Ok (co_chunks s !! 0%nat, held (co_readers s) 0)) = Ok (Some (Present 0), 0)) as H by (vm_compute; reflexivity).
  rewrite H0 in H. res_simpl in H. rewrite Hs in H. res_simpl in H. by injection H as -> ->.
Qed.

(** Once it is released, two purges evict the chunk. *)
Lemma chunk_cache_purge_witness : ∃ s s1 s2, CachingObjectHandle.purge s = Ok s1 ∧ CachingObjectHandle.purge s1 = Ok s2 ∧
  co_chunks s !! 0%nat = Some (Present 0) ∧ co_chunks s2 !! 0%nat = Some Missing.
Proof.
  destruct releasing_runs as (s0 & s & H0 & H1 & Hc & Hheld).
  destruct (chunk_cache_purge file file_cacheable (reading_ops ++ [CRelease 2]) s0 s releasing_ok ltac:(by vm_compute) H0 H1) as (s1 & s2 & P1 & P2 & Hp).
  exists s, s1, s2. split; [exact P1|]. split; [exact P2|]. split; [exact Hc|]. specialize (Hp 600 0 ltac:(split; by vm_compute) Hc). rewrite Hheld in Hp. exact (proj1 (proj2 Hp)).
Defined.
End CacheDemo.
