(* ===== verification/PersistentBlocks.v ===== *)
(** * Reading the blocks of a layer file

    The bytes of a data block, and what the iterators of [PersistentLayer.v]
    read of them. *)

From S2P Require Import Prelude Round Bytes Checksum Journal LsmTypes BloomFilter PersistentLayer.

Section block.
Context {K V : Type} `{LayerCodec K V} (bs : Z).
Implicit Types (g : list (Item K V)) (i : Item K V).

(** An item, the place of the [j]th item in a block, and the block. *)
Definition ser i : list Z := key_bytes (key i) ++ value_bytes (value i) ++ le_split 8 (sequence i).
Definition body g : list Z := concat (ser <$> g).
Definition off g (j : nat) : nat := 2 + length (body (take j g)).
Definition offsets g : list Z := (λ j, Z.of_nat (off g j)) <$> seq 1 (length g - 1).
Definition used g : Z := 2 + Z.of_nat (length (body g)) + 2 * (Z.of_nat (length g) - 1).
Definition block g : list Z :=
  le_split 2 (Z.of_nat (length g)) ++ body g ++ replicate (Z.to_nat (bs - used g)) 0 ++ concat (le_split 2 <$> offsets g).

(** Deserializing gives back the item that was serialized. *)
Record decodes i : Prop := {
  dx_key : ∀ rest, key_decode (key_bytes (key i) ++ rest) LATEST_VERSION = Decoded (key i) (Z.of_nat (length (key_bytes (key i))));
  dx_value : ∀ rest, value_decode (value_bytes (value i) ++ rest) LATEST_VERSION = Decoded (value i) (Z.of_nat (length (value_bytes (value i))));
  dx_seq : is_u64 (sequence i);
}.

(** A group of items that fits in a block. *)
Record fits g : Prop := {
  fi_nonempty : g ≠ [];
  fi_used : used g ≤ bs - 1;
  fi_decodes : ∀ i, i ∈ g → decodes i;
}.

Context (Hbs : 512 ≤ bs ≤ 65536).

Lemma body_app g1 g2 : body (g1 ++ g2) = body g1 ++ body g2.
Proof. unfold body. by rewrite fmap_app, concat_app. Qed.

Lemma ser_length i : (8 ≤ length (ser i))%nat.
Proof. unfold ser. rewrite !length_app, length_le_split. lia. Qed.

Lemma body_length g : (8 * length g ≤ length (body g))%nat.
Proof. unfold body. induction g as [|i g IH]; cbn; [lia|]. rewrite length_app. pose proof (ser_length i). lia. Qed.

Lemma fits_count g : fits g → 0 < Z.of_nat (length g) < 65536.
Proof. intros [Hn Hu _]. unfold used in Hu. pose proof (body_length g). destruct g; [done|]. cbn [length] in *. lia. Qed.

Lemma concat_le_length n (l : list Z) : length (concat (le_split n <$> l)) = (n * length l)%nat.
Proof. induction l as [|x l IH]; cbn; [lia|]. rewrite length_app, length_le_split, IH. lia. Qed.

Lemma length_offsets g : length (offsets g) = (length g - 1)%nat.
Proof. unfold offsets. by rewrite length_fmap, length_seq. Qed.

Lemma block_length g : fits g → Z.of_nat (length (block g)) = bs.
Proof.
  intros Hf. pose proof (fits_count g Hf). destruct Hf as [_ Hu _]. unfold block. rewrite !length_app, length_le_split, length_replicate, concat_le_length, length_offsets. unfold used in *. lia.
Qed.

Lemma off_S g j i : g !! j = Some i → off g (S j) = (off g j + length (ser i))%nat.
Proof. intros Hj. unfold off. rewrite (take_S_r _ _ _ Hj), body_app, length_app. unfold body at 2. cbn. rewrite app_nil_r. lia. Qed.

Lemma off_le g j : (j ≤ length g)%nat → (2 ≤ off g j)%nat ∧ (off g j ≤ 2 + length (body g))%nat.
Proof.
  intros Hj. unfold off. rewrite <- (take_drop j g) at 3. rewrite body_app, length_app. lia.
Qed.

Lemma off_gt g j : (0 < j)%nat → (j ≤ length g)%nat → (2 < off g j)%nat.
Proof. intros Hj Hl. unfold off. pose proof (body_length (take j g)). rewrite length_take in *. lia. Qed.

(** The three things that are read: the number of items, an item, and the
    place of an item. *)
Lemma block_count g more : fits g → take 2 (block g ++ more) = le_split 2 (Z.of_nat (length g)) ∧
  le_combine (le_split 2 (Z.of_nat (length g))) = Z.of_nat (length g).
Proof.
  intros Hf. pose proof (fits_count g Hf). split.
  - unfold block. rewrite <- app_assoc, take_app_le by (rewrite length_le_split; lia). by rewrite take_ge by (rewrite length_le_split; lia).
  - apply le_combine_split_id. cbn. lia.
Qed.

Lemma block_item g j i more : g !! j = Some i → ∃ rest, drop (off g j) (block g ++ more) = ser i ++ rest.
Proof.
  intros Hj. assert (body g = body (take j g) ++ ser i ++ body (drop (S j) g)) as Hb.
  { rewrite <- (take_drop_middle g j i Hj) at 1. rewrite body_app. unfold body. by cbn. }
  unfold block, off. rewrite Hb.
  rewrite <- !app_assoc. rewrite drop_app_ge by (rewrite length_le_split; lia). rewrite length_le_split. replace (2 + length (body (take j g)) - 2)%nat with (length (body (take j g))) by lia.
  rewrite drop_app_length. by eexists.
Qed.

Lemma concat_le_lookup n l j x : l !! j = Some x → ∀ more, take n (drop (n * j) (concat (le_split n <$> l) ++ more)) = le_split n x.
Proof.
  revert j. induction l as [|y l IH]; intros j Hj more; [done|]. destruct j as [|j]; cbn in Hj |- *.
  - injection Hj as ->. rewrite Nat.mul_0_r, drop_0, <- app_assoc, take_app_le by (rewrite length_le_split; lia). apply take_ge. rewrite length_le_split. lia.
  - rewrite <- app_assoc, drop_app_ge by (rewrite length_le_split; lia). rewrite length_le_split. replace (n * S j - n)%nat with (n * j)%nat by lia. by apply IH.
Qed.

Lemma block_offset g j more : fits g → (0 < j)%nat → (j < length g)%nat →
  take 2 (drop (Z.to_nat (bs - 2 * (Z.of_nat (length g) - Z.of_nat j))) (block g ++ more)) = le_split 2 (Z.of_nat (off g j)) ∧
  le_combine (le_split 2 (Z.of_nat (off g j))) = Z.of_nat (off g j) ∧ Z.of_nat (off g j) < bs.
Proof.
  intros Hf Hj Hl. destruct Hf as [_ Hu _]. unfold used in Hu. pose proof (off_le g j ltac:(lia)). split; [|split; [apply le_combine_split_id; change (256 ^ Z.of_nat 2) with 65536; lia|lia]].
  unfold block. rewrite <- !app_assoc. set (front := le_split 2 (Z.of_nat (length g)) ++ body g ++ replicate (Z.to_nat (bs - used g)) 0).
  assert (Z.of_nat (length front) = bs - 2 * (Z.of_nat (length g) - 1)) as Hfl.
  { unfold front. rewrite !length_app, length_le_split, length_replicate. unfold used. lia. }
  rewrite (app_assoc (body g)), (app_assoc (le_split 2 (Z.of_nat (length g)))). fold front.
  rewrite drop_app_ge by lia.
  replace (Z.to_nat (bs - 2 * (Z.of_nat (length g) - Z.of_nat j)) - length front)%nat with (2 * (j - 1))%nat by lia.
  apply concat_le_lookup. unfold offsets. rewrite list_lookup_fmap, lookup_seq_lt by lia. cbn [fmap option_fmap option_map]. by replace (1 + (j - 1))%nat with j by lia.
Qed.
End block.

(** ** The blocks of a file *)

(** The data blocks of a layer's file hold the groups [G] of items. *)
Record laid_out {K V} `{LayerCodec K V} (pl : PersistentLayer) (G : list (list (Item K V))) : Prop := {
  lo_bs : 512 ≤ pl_block_size pl ≤ 65536;
  lo_div : (pl_block_size pl | CHUNK_SIZE);
  lo_file : ∃ pre post, oh_bytes (pl_handle pl) = pre ++ concat (block (pl_block_size pl) <$> G) ++ post ∧
    Z.of_nat (length pre) = pl_block_size pl;
  lo_fits : Forall (fits (pl_block_size pl)) G;
  lo_data : pl_data_size pl = Z.of_nat (length G) * pl_block_size pl;
  lo_bound : (Z.of_nat (length G) + 2) * pl_block_size pl ≤ u64_max;
  lo_version : pl_version pl = LATEST_VERSION;
}.

Section reader.
Context {K V : Type} `{LayerCodec K V} (pl : PersistentLayer) (G : list (list (Item K V))) (HL : laid_out pl G).
#[local] Abbreviation bs := (pl_block_size pl).
Let Hbs : 512 ≤ bs ≤ 65536 := lo_bs pl G HL.
Implicit Types (it : KeyOnlyIterator K) (g : list (Item K V)).

(** The place of a block in the file and in its chunk. *)
Definition place (i : nat) : Z := (1 + Z.of_nat i) * bs.
Definition base (i : nat) : Z := place i `mod` CHUNK_SIZE.
Definition chunk (i : nat) : list Z :=
  let read_start := place i / CHUNK_SIZE * CHUNK_SIZE in
  read (pl_handle pl) read_start (Z.min (read_start + CHUNK_SIZE) (get_size (pl_handle pl)) - read_start).

Lemma drop_blocks (bl : list (list Z)) n i : Forall (λ b, length b = n) bl → drop (i * n) (concat bl) = concat (drop i bl).
Proof.
  intros Hl. revert i. induction Hl as [|b bl Hb Hl IH]; intros i; [by cbn; rewrite !drop_nil|]. destruct i as [|i]; [by rewrite drop_0|].
  cbn [concat drop]. rewrite drop_app_ge by lia. replace (S i * n - length b)%nat with (i * n)%nat by lia. apply IH.
Qed.

Lemma length_blocks (bl : list (list Z)) n : Forall (λ b, length b = n) bl → length (concat bl) = (length bl * n)%nat.
Proof. induction 1 as [|b bl Hb _ IH]; [done|]. cbn [concat length]. rewrite length_app. lia. Qed.

Lemma blocks_length : Forall (λ b, length b = Z.to_nat bs) (block bs <$> G).
Proof.
  apply Forall_fmap. eapply Forall_impl; [exact (lo_fits pl G HL)|]. intros g' Hg'. unfold compose. pose proof (block_length bs Hbs g' Hg'). lia.
Qed.

Lemma group_fits i g : G !! i = Some g → fits bs g.
Proof. intros Hi. eapply Forall_lookup_1; [apply HL|done]. Qed.

Lemma file_block i g : G !! i = Some g → ∃ more, drop (Z.to_nat (place i)) (oh_bytes (pl_handle pl)) = block bs g ++ more.
Proof.
  intros Hi. destruct (lo_file pl G HL) as (pre & post & Hfile & Hpre). rewrite Hfile. unfold place. replace (Z.to_nat ((1 + Z.of_nat i) * bs)) with (length pre + i * Z.to_nat bs)%nat
    by (apply Nat2Z.inj; rewrite Z2Nat.id, Nat2Z.inj_add, Nat2Z.inj_mul, Z2Nat.id, Hpre by lia; lia).
  rewrite <- drop_drop, drop_app_length, drop_app_le.
  - rewrite drop_blocks by apply blocks_length. rewrite <- fmap_drop, (drop_S _ _ _ Hi). cbn. rewrite <- app_assoc. by eexists.
  - apply lookup_lt_Some in Hi. rewrite (length_blocks _ (Z.to_nat bs)) by apply blocks_length. rewrite length_fmap. nia.
Qed.

Lemma file_size i g : G !! i = Some g → place i + bs ≤ get_size (pl_handle pl).
Proof.
  intros Hi. destruct (file_block i g Hi) as [more Hm]. apply (f_equal length) in Hm. rewrite length_drop, length_app in Hm.
  pose proof (block_length bs Hbs g (group_fits i g Hi)). unfold get_size, place in *. lia.
Qed.

Lemma base_bound i : 0 ≤ base i ∧ base i + bs ≤ CHUNK_SIZE ∧ (bs | base i).
Proof.
  destruct (lo_div pl G HL) as [c Hc]. assert (0 < c) by (apply (Z.mul_pos_cancel_r c bs); [lia|rewrite <- Hc; done]).
  unfold base, place. rewrite Hc, Z.mul_mod_distr_r by lia. pose proof (Z.mod_pos_bound (1 + Z.of_nat i) c ltac:(lia)). split_and!; [nia|nia|apply Z.divide_factor_r].
Qed.

Lemma chunk_block i g : G !! i = Some g → ∃ more, drop (Z.to_nat (base i)) (chunk i) = block bs g ++ more.
Proof.
  intros Hi. destruct (file_block i g Hi) as [more Hm]. pose proof (file_size i g Hi) as Hsz. pose proof (base_bound i) as (Hb1 & Hb2 & _).
  pose proof (block_length bs Hbs g (group_fits i g Hi)) as Hbl. unfold chunk, read. set (s := place i / CHUNK_SIZE * CHUNK_SIZE).
  assert (place i = s + base i) as Hp by (unfold s, base; pose proof (Z.div_mod (place i) CHUNK_SIZE ltac:(done)); lia).
  assert (0 ≤ s) by (unfold s; apply Z.mul_nonneg_nonneg; [apply Z.div_pos; [unfold place; lia|done]|done]).
  rewrite skipn_firstn_comm, drop_drop. replace (Z.to_nat s + Z.to_nat (base i))%nat with (Z.to_nat (place i)) by lia. rewrite Hm, take_app_ge by lia. by eexists.
Qed.

Lemma chunk_read i g : G !! i = Some g → read_chunk (pl_handle pl) (place i) = Ok (chunk i).
Proof.
  intros Hi. pose proof (file_size i g Hi). unfold read_chunk. destruct (Z.ltb_spec (place i) (get_size (pl_handle pl))); [done|lia].
Qed.

Lemma chunk_same i : base (S i) ≠ 0 → chunk (S i) = chunk i.
Proof.
  intros Hn. unfold chunk. assert (place (S i) / CHUNK_SIZE = place i / CHUNK_SIZE) as ->; [|done]. pose proof (base_bound i) as (Hb1 & Hb2 & _).
  assert (place (S i) = place i / CHUNK_SIZE * CHUNK_SIZE + (base i + bs)) as Hp.
  { unfold base. pose proof (Z.div_mod (place i) CHUNK_SIZE ltac:(done)). unfold place in *. lia. }
  assert (base i + bs ≠ CHUNK_SIZE) as Hne.
  { intros He. apply Hn. unfold base at 1. rewrite Hp, He. by rewrite <- Z.mul_succ_l, Z.mod_mul. }
  rewrite Hp, Z.div_add_l, (Z.div_small (base i + bs)) by (try done; lia). lia.
Qed.
End reader.
