(* ===== verification/PersistentRead.v ===== *)
(** * Iterating over a layer file

    Where [KeyOnlyIterator] and [Iterator] stand in the blocks of a file, and
    that they yield the items from there on. *)

From S2P Require Import Prelude Round Bytes Checksum Journal LsmTypes BloomFilter PersistentLayer PersistentBlocks.

Section states.
Context {K V : Type} `{LayerCodec K V} (pl : PersistentLayer) (G : list (list (Item K V))) (HL : laid_out pl G).
#[local] Abbreviation bs := (pl_block_size pl).
Let Hbs : 512 ≤ bs ≤ 65536 := lo_bs pl G HL.
Implicit Types (it : KeyOnlyIterator K) (g : list (Item K V)).

(** The iterator has block [i] in its buffer and stands at [p] in it. *)
Record loaded it (i : nat) g (p : Z) : Prop := {
  ld_group : G !! i = Some g;
  ld_buffer : ki_buffer it = mkCursor (Some (chunk pl i)) (base pl i + p);
  ld_in : 0 < p < bs;
  ld_pos : ki_pos it = place pl (S i);
  ld_count : ki_item_count it = Z.of_nat (length g);
}.

(** [advance] reads item [j] of block [i] next. *)
Record ready it (i j : nat) g : Prop := {
  rd_loaded : ∃ p, loaded it i g p ∧ (ki_value_deserialized it = true → p = Z.of_nat (off g j));
  rd_index : ki_item_index it = Z.of_nat j;
  rd_in : (j < length g)%nat;
}.

(** [advance] starts with block [i]. *)
Record before it (i : nat) : Prop := {
  be_index : ki_item_count it ≤ ki_item_index it;
  be_pos : ki_pos it = place pl i;
  be_chunk : bc_chunk (ki_buffer it) = None ∨ ∃ i', i = S i' ∧ bc_chunk (ki_buffer it) = Some (chunk pl i');
}.

(** The key of item [j] of block [i] was read. *)
Record on_key it (i j : nat) g (x : Item K V) : Prop := {
  ok_loaded : loaded it i g (Z.of_nat (off g j + length (key_bytes (key x))));
  ok_item : g !! j = Some x;
  ok_index : ki_item_index it = Z.of_nat j + 1;
  ok_key : ki_key it = Some (key x);
  ok_value : ki_value_deserialized it = false;
}.

Lemma base_divide i : ∃ c, 0 ≤ c ∧ base pl i = bs * c.
Proof. destruct (base_bound pl G HL i) as (? & _ & c & Hc). exists c. split; [nia|lia]. Qed.

Lemma down_block i p : 0 ≤ p < bs → round_down (base pl i + p) bs = Ok (base pl i).
Proof.
  intros Hp. destruct (base_divide i) as (c & Hc & ->). rewrite round_down_eq by nia.
  rewrite (Z.mul_comm bs c), Z.div_add_l, (Z.div_small p) by lia. f_equal. lia.
Qed.

Lemma up_block i p : 0 < p < bs → round_up (base pl i + p) bs = Ok (Some (base pl i + bs)).
Proof.
  intros Hp. destruct (base_bound pl G HL i) as (Hb0 & Hb & _). unfold CHUNK_SIZE in Hb. destruct (base_divide i) as (c & Hc & Hbc).
  rewrite round_up_eq by (change u64_max with 18446744073709551615; lia). rewrite Hbc.
  replace (bs * c + p + (bs - 1)) with ((c + 1) * bs + (p - 1)) by lia. rewrite Z.div_add_l, (Z.div_small (p - 1)) by lia. do 2 f_equal. lia.
Qed.

(** What the cursor reads at a place of the block. *)
Lemma rest_at i g p : G !! i = Some g → 0 ≤ p → ∃ more,
  BufferCursor.rest (mkCursor (Some (chunk pl i)) (base pl i + p)) = drop (Z.to_nat p) (block bs g ++ more).
Proof.
  intros Hi Hp. destruct (chunk_block pl G HL i g Hi) as [more Hm]. destruct (base_bound pl G HL i) as (Hb0 & _).
  exists more. unfold BufferCursor.rest. cbn [bc_chunk bc_pos]. rewrite Z2Nat.inj_add, <- drop_drop, Hm by lia. done.
Qed.

Lemma rest_add c q n : 0 ≤ q → BufferCursor.rest (mkCursor c (q + Z.of_nat n)) = drop n (BufferCursor.rest (mkCursor c q)).
Proof.
  intros Hq. unfold BufferCursor.rest. cbn [bc_chunk bc_pos]. destruct c; [|by rewrite drop_nil].
  rewrite drop_drop. f_equal. lia.
Qed.

Lemma read_uint_at n c bytes : take n (BufferCursor.rest c) = bytes → length bytes = n →
  BufferCursor.read_uint n c = Ok (le_combine bytes, BufferCursor.seek c (bc_pos c + Z.of_nat n)).
Proof. intros He Hl. unfold BufferCursor.read_uint. rewrite He. by rewrite decide_True. Qed.

Lemma item_end g j x : fits bs g → g !! j = Some x → Z.of_nat (off g j + length (ser x)) < bs.
Proof.
  intros [_ Hu _] Hj. rewrite <- (off_S g j x Hj). pose proof (lookup_lt_Some _ _ _ Hj). pose proof (off_le g (S j) ltac:(lia)).
  unfold used in Hu. lia.
Qed.

(** The table at the end of a block has the place of an item. *)
Lemma item_offset i g idx : G !! i = Some g → (0 < idx < length g)%nat →
  (p ← u64_sub (base pl i + bs) (PER_DATA_BLOCK_SEEK_ENTRY_SIZE * (Z.of_nat (length g) - Z.of_nat idx));
   '(o, _) ← BufferCursor.read_uint 2 (mkCursor (Some (chunk pl i)) p);
   if (bs <=? o) || (o <=? PER_DATA_BLOCK_HEADER_SIZE) then Err (Fxfs Inconsistent) else Ok o) = Ok (Z.of_nat (off g idx)).
Proof.
  intros Hg Hidx. pose proof (group_fits pl G HL i g Hg) as Hf. destruct (base_bound pl G HL i) as (Hb0 & _).
  pose proof (off_gt g idx ltac:(lia) ltac:(lia)) as Hgt. pose proof (body_length g) as Hbl. pose proof (fi_used bs g Hf) as Hu. unfold used in Hu.
  change PER_DATA_BLOCK_SEEK_ENTRY_SIZE with 2. change PER_DATA_BLOCK_HEADER_SIZE with 2. rewrite u64_sub_ok by lia. res_simpl.
  destruct (rest_at i g (bs - 2 * (Z.of_nat (length g) - Z.of_nat idx)) Hg ltac:(lia)) as [more Hm]. rewrite Z.add_sub_assoc in Hm.
  destruct (block_offset bs Hbs g idx more Hf ltac:(lia) ltac:(lia)) as (Ho1 & Ho2 & Ho3).
  rewrite (read_uint_at 2 _ (le_split 2 (Z.of_nat (off g idx)))) by (rewrite ?Hm; done || apply length_le_split). res_simpl. rewrite Ho2.
  destruct (Z.leb_spec bs (Z.of_nat (off g idx))); [lia|]. destruct (Z.leb_spec (Z.of_nat (off g idx)) 2); [lia|]. done.
Qed.

(** [seek_to_block_item] makes the next [advance] read that item. *)
Lemma seek_to_item it i g p idx : loaded it i g p → (idx < length g)%nat →
  (Z.of_nat idx = ki_item_index it → ki_value_deserialized it = true → p = Z.of_nat (off g idx)) →
  ∃ it', KeyOnlyIterator.seek_to_block_item pl it (Z.of_nat idx) = Ok it' ∧ ready it' i idx g ∧
    loaded it' i g (Z.of_nat (off g idx)).
Proof.
  intros Hld Hidx Hvd. pose proof Hld as [Hg Hb Hp Hpos Hc]. pose proof (group_fits pl G HL i g Hg) as Hf.
  unfold KeyOnlyIterator.seek_to_block_item. rewrite Hc. destruct (Z.ltb_spec (Z.of_nat idx) (Z.of_nat (length g))); [|lia]. res_simpl.
  destruct ((Z.of_nat idx =? ki_item_index it) && ki_value_deserialized it) eqn:Hs.
  { apply andb_true_iff in Hs as [He%Z.eqb_eq Hv]. exists it. rewrite (Hvd He Hv) in Hld. split; [done|]. split; [|done].
    split; [by eexists|lia|done]. }
  rewrite Hb. cbn [bc_pos BufferCursor.seek bc_chunk]. rewrite (up_block i p Hp), (down_block i p) by lia. res_simpl.
  pose proof (λ Hp, item_offset i g idx Hg (conj Hp Hidx)) as Ho. assert (idx = 0%nat → off g idx = 2%nat) as Hz by by intros ->.
  destruct (lookup_lt_is_Some_2 g idx Hidx) as [x Hx]. pose proof (item_end g idx x Hf Hx). pose proof (off_le g idx ltac:(lia)).
  assert (loaded (mkKeyIter (mkCursor (Some (chunk pl i)) (base pl i + Z.of_nat (off g idx))) (ki_pos it) (Z.of_nat idx) (Z.of_nat (length g))
    (ki_key it) (ki_value_deserialized it)) i g (Z.of_nat (off g idx))) as Hl by (split; cbn [ki_buffer ki_pos ki_item_index ki_item_count ki_key ki_value_deserialized]; [done..|lia|done|done]).
  eexists. split; [|split; [|exact Hl]]; [|split; [by eexists|done|done]].
  destruct (Z.eqb_spec (Z.of_nat idx) 0); [by rewrite Hz by lia|].
  unfold BufferCursor.seek. cbn [bc_chunk]. by rewrite Ho by lia.
Qed.

(** [advance] within a block. *)
Lemma seek_and_read it i j g x : ready it i j g → g !! j = Some x → ∃ it',
  (it ← KeyOnlyIterator.seek_to_block_item pl it (ki_item_index it);
   '(k, buffer) ← BufferCursor.deserialize key_decode (pl_version pl) (ki_buffer it);
   Ok (mkKeyIter buffer (ki_pos it) (ki_item_index it + 1) (ki_item_count it) (Some k) false)) = Ok it' ∧ on_key it' i j g x.
Proof.
  intros [(p & Hld & Hvd) Hi Hj] Hx. rewrite Hi. destruct (seek_to_item it i g p j Hld Hj ltac:(auto)) as (it1 & -> & Hr & Hl1).
  pose proof Hl1 as [Hg Hb Hp Hpos Hc]. pose proof (group_fits pl G HL i g Hg) as Hf. res_simpl. rewrite Hb. destruct (rest_at i g (Z.of_nat (off g j)) Hg (Nat2Z.is_nonneg _)) as [more Hm].
  destruct (block_item bs g j x more Hx) as [rest Hrest]. rewrite Nat2Z.id, Hrest in Hm. unfold BufferCursor.deserialize. rewrite Hm, (lo_version pl G HL).
  unfold ser at 1. rewrite <- app_assoc, (dx_key x (fi_decodes bs g Hf x (list_elem_of_lookup_2 _ _ _ Hx))). cbn [decode_res]. res_simpl. cbn [BufferCursor.seek bc_chunk bc_pos]. eexists. split; [done|].
  pose proof (item_end g j x Hf Hx) as He. unfold ser in He. rewrite !length_app, length_le_split in He.
  split; cbn [ki_buffer ki_pos ki_item_index ki_item_count ki_key ki_value_deserialized]; [|done|rewrite (rd_index _ _ _ _ Hr); done|done|done]. split; cbn [ki_buffer ki_pos ki_item_index ki_item_count ki_key ki_value_deserialized]; [done| |lia|done|done]. f_equal. lia.
Qed.

Lemma advance_ready it i j g x : ready it i j g → g !! j = Some x → ∃ it', KeyOnlyIterator.advance pl it = Ok it' ∧ on_key it' i j g x.
Proof.
  intros Hr Hx. destruct (seek_and_read it i j g x Hr Hx) as (it' & He & Ho). exists it'. split; [|done].
  destruct Hr as [(p & Hld & _) Hi Hj]. unfold KeyOnlyIterator.advance. rewrite (ld_count _ _ _ _ Hld), Hi at 1.
  destruct (Z.leb_spec (Z.of_nat (length g)) (Z.of_nat j)); [lia|]. exact He.
Qed.

Lemma place_S i : place pl (S i) = place pl i + bs.
Proof. unfold place. lia. Qed.

(** The end of the data is at the place after the last block. *)
Lemma data_end : u64_add (data_offset pl) (pl_data_size pl) = Ok (place pl (length G)).
Proof.
  pose proof (lo_bound pl G HL). unfold data_offset, place, NUM_HEADER_BLOCKS. rewrite (lo_data pl G HL), u64_add_ok by lia. f_equal. lia.
Qed.

(** [advance] to the next block. *)
Lemma next_block_ready it i g : before it i → G !! i = Some g → ∃ it', KeyOnlyIterator.next_block pl it = Ok (Some it') ∧ ready it' i 0 g.
Proof.
  intros [Hi Hpos Hch] Hg. pose proof (group_fits pl G HL i g Hg) as Hf. pose proof (lookup_lt_Some _ _ _ Hg) as Hlt.
  unfold KeyOnlyIterator.next_block. rewrite data_end, Hpos. res_simpl.
  destruct (Z.leb_spec (place pl (length G)) (place pl i)); [unfold place in *; nia|]. fold (base pl i).
  assert ((match bc_chunk (ki_buffer it) with
           | Some c => if base pl i =? 0 then read_chunk (pl_handle pl) (place pl i) else Ok c
           | None => read_chunk (pl_handle pl) (place pl i)
           end) = Ok (chunk pl i)) as ->.
  { pose proof (chunk_read pl G HL i g Hg) as Hrd. destruct Hch as [->|(i' & -> & ->)]; [done|].
    destruct (Z.eqb_spec (base pl (S i')) 0); [done|]. by rewrite (chunk_same pl G HL). }
  res_simpl. destruct (rest_at i g 0 Hg ltac:(lia)) as [more Hm]. rewrite Z.add_0_r in Hm. destruct (block_count bs Hbs g more Hf) as [Hc1 Hc2].
  rewrite (read_uint_at 2 _ (le_split 2 (Z.of_nat (length g)))) by (rewrite ?Hm; done || apply length_le_split). res_simpl. rewrite Hc2.
  pose proof (fits_count bs Hbs g Hf). destruct (Z.eqb_spec (Z.of_nat (length g)) 0); [lia|].
  pose proof (lo_bound pl G HL). rewrite u64_add_ok by (unfold place; nia). res_simpl. eexists. split; [done|].
  split; cbn [ki_buffer ki_pos ki_item_index ki_item_count ki_key ki_value_deserialized]; [|done|lia]. exists 2. split; [|done]. split; cbn [ki_buffer ki_pos ki_item_index ki_item_count ki_key ki_value_deserialized]; [done|done|lia|by rewrite place_S|done].
Qed.

Lemma next_block_end it : before it (length G) → KeyOnlyIterator.next_block pl it = Ok None.
Proof.
  intros [Hi Hpos _]. unfold KeyOnlyIterator.next_block. rewrite data_end, Hpos. res_simpl. by rewrite Z.leb_refl.
Qed.

(** *** The items that are left *)

(** The items from item [j] of block [i] on. *)
Definition tail (i j : nat) : list (Item K V) := drop j (concat (drop i G)).

Lemma tail_cons i j g x : G !! i = Some g → g !! j = Some x → tail i j = x :: tail i (S j).
Proof.
  intros Hg Hx. unfold tail. apply drop_S. rewrite (drop_S _ _ _ Hg). cbn [concat]. by apply lookup_app_l_Some.
Qed.

Lemma tail_last i g : G !! i = Some g → tail i (length g) = tail (S i) 0.
Proof. intros Hg. unfold tail. rewrite (drop_S _ _ _ Hg). cbn [concat]. by rewrite drop_app_length, drop_0. Qed.

Lemma tail_end : tail (length G) 0 = [].
Proof. unfold tail. by rewrite drop_all. Qed.

(** What [advance] has yet to read, and what was left when it read a key. *)
Inductive yet it : list (Item K V) → Prop :=
| yet_ready i j g : ready it i j g → yet it (tail i j)
| yet_before i : (i ≤ length G)%nat → before it i → yet it (tail i 0).

Inductive at_key it : list (Item K V) → Prop :=
| at_on i j g x : on_key it i j g x → at_key it (tail i j)
| at_end : ki_key it = None → at_key it [].

Lemma new_before i : KeyOnlyIterator.new pl (place pl i) =
  Ok (mkKeyIter (mkCursor None (base pl i)) (place pl i) 0 0 None false : KeyOnlyIterator K).
Proof.
  assert (place pl i `mod` bs = 0) as Hm by (unfold place; by rewrite Z.mod_mul by lia).
  unfold KeyOnlyIterator.new. rewrite u64_rem_ok, Hm by lia. done.
Qed.

Lemma advance_before it i g x : before it i → G !! i = Some g → g !! 0%nat = Some x → ∃ it', KeyOnlyIterator.advance pl it = Ok it' ∧ on_key it' i 0 g x.
Proof.
  intros Hb Hg Hx. destruct (next_block_ready it i g Hb Hg) as (it1 & He & Hr). destruct (seek_and_read it1 i 0 g x Hr Hx) as (it2 & He2 & Ho).
  exists it2. split; [|done]. unfold KeyOnlyIterator.advance. rewrite (proj2 (Z.leb_le _ _) (be_index _ _ Hb)), He. exact He2.
Qed.

Lemma advance_yet it l : yet it l → ∃ it', KeyOnlyIterator.advance pl it = Ok it' ∧ at_key it' l.
Proof.
  intros [i j g Hr|i Hi Hb].
  - destruct (lookup_lt_is_Some_2 g j (rd_in _ _ _ _ Hr)) as [x Hx]. destruct (advance_ready it i j g x Hr Hx) as (it' & He & Ho).
    exists it'. split; [done|]. by eapply at_on.
  - destruct (decide (i = length G)) as [->|Hne].
    + rewrite tail_end. unfold KeyOnlyIterator.advance. rewrite (proj2 (Z.leb_le _ _) (be_index _ _ Hb)), (next_block_end it Hb). res_simpl.
      eexists. split; [done|]. by apply at_end.
    + destruct (lookup_lt_is_Some_2 G i ltac:(lia)) as [g Hg]. destruct (group_fits pl G HL i g Hg) as [Hn _ _].
      destruct (lookup_lt_is_Some_2 g 0) as [x Hx]; [destruct g; [done|cbn; lia]|].
      destruct (advance_before it i g x Hb Hg Hx) as (it' & He & Ho). exists it'. split; [done|]. by eapply at_on.
Qed.

(** The place behind an item. *)
Lemma behind it i j g p : loaded it i g p → (j < length g)%nat → ki_item_index it = Z.of_nat j + 1 →
  (ki_value_deserialized it = true → p = Z.of_nat (off g (S j))) → yet it (tail i (S j)).
Proof.
  intros Hl Hj Hi Hv. pose proof Hl as [Hg Hb Hp Hpos Hc]. destruct (decide (S j = length g)) as [He|He].
  - rewrite He, (tail_last i g Hg). apply yet_before; [by apply lookup_lt_Some in Hg|]. split; [lia|done|right]. exists i. by rewrite Hb.
  - eapply (yet_ready it i (S j) g). split; [by eexists|lia|lia].
Qed.

Lemma on_key_next it i j g x : on_key it i j g x → yet it (tail i (S j)).
Proof. intros [Hl Hx Hi Hk Hv]. eapply behind; [done|by eapply lookup_lt_Some|done|]. rewrite Hv. done. Qed.

(** [Iterator::new] reads the item of the key. *)
Lemma iterator_new it i j g x : on_key it i j g x → ∃ it', Iterator.new pl it = Ok (mkIterator it' (Some x)) ∧ yet it' (tail i (S j)).
Proof.
  intros [Hl Hx Hi Hk Hv]. pose proof Hl as [Hg Hb Hp Hpos Hc]. unfold Iterator.new. rewrite Hk, Hb. pose proof (group_fits pl G HL i g Hg) as Hf.
  pose proof (fi_decodes bs g Hf x (list_elem_of_lookup_2 _ _ _ Hx)) as Hdx.
  pose proof (item_end g j x Hf Hx) as He. unfold ser in He. rewrite !length_app, length_le_split in He.
  destruct (rest_at i g (Z.of_nat (off g j + length (key_bytes (key x)))) Hg (Nat2Z.is_nonneg _)) as [more Hm].
  destruct (block_item bs g j x more Hx) as [rest Hrest]. rewrite Nat2Z.id, <- drop_drop, Hrest in Hm. unfold ser in Hm.
  rewrite <- !app_assoc, drop_app_length in Hm. unfold BufferCursor.deserialize. rewrite Hm, (lo_version pl G HL), (dx_value x Hdx).
  cbn [decode_res]. res_simpl. unfold BufferCursor.seek. cbn [bc_chunk bc_pos]. destruct (base_bound pl G HL i) as (Hb0 & _).
  rewrite (read_uint_at 8 _ (le_split 8 (sequence x))); [| |apply length_le_split].
  2: { rewrite rest_add by lia. rewrite Hm, drop_app_length, take_app_le by (rewrite length_le_split; lia). apply take_ge. by rewrite length_le_split. }
  res_simpl. rewrite le_combine_split_id.
  2: { pose proof (dx_seq x Hdx) as [? ?]. change (256 ^ Z.of_nat 8) with (u64_max + 1). lia. }
  destruct x as [k v q]. eexists. split; [done|]. pose proof (lookup_lt_Some _ _ _ Hx). eapply (behind _ i j g (Z.of_nat (off g (S j)))); [|done|done|done].
  rewrite (off_S g j _ Hx). split; cbn [ki_buffer ki_pos ki_item_count]; [done| | |done|done]; unfold ser; rewrite !length_app, length_le_split; cbn [key value bc_pos] in *; [f_equal|]; lia.
Qed.

(** *** What an iterator yields *)
Lemma items_yet l : ∀ it x fuel, yet it l → (S (length l) < fuel)%nat →
  PersistentLayer.items pl fuel (mkIterator it (Some x)) = Ok (mkIter (x :: l) None).
Proof.
  induction l as [|y l IH]; intros it x fuel Hy Hf; destruct fuel as [|fuel]; try lia; cbn [PersistentLayer.items Iterator.get it_item].
  all: destruct (advance_yet it _ Hy) as (it' & He & Ha); unfold Iterator.advance; cbn [it_inner]; rewrite He; res_simpl.
  - remember [] as l eqn:El in Ha. destruct Ha as [i j g z Ho|Hk].
    + destruct Ho as [Hl Hz _ _ _]. by rewrite (tail_cons i j g z (ld_group _ _ _ _ Hl) Hz) in El.
    + unfold Iterator.new. rewrite Hk. destruct fuel; [lia|]. done.
  - remember (y :: l) as l' eqn:El in Ha. destruct Ha as [i j g z Ho|Hk]; [|done].
    pose proof Ho as [Hl Hz _ _ _]. rewrite (tail_cons i j g z (ld_group _ _ _ _ Hl) Hz) in El. injection El as -> Et.
    destruct (iterator_new it' i j g y Ho) as (it2 & -> & Hy2). rewrite Et in Hy2. rewrite (IH it2 y fuel Hy2 ltac:(cbn in Hf; lia)). done.
Qed.

Lemma items_at it l fuel : at_key it l → (length l < fuel)%nat →
  (it' ← Iterator.new pl it; PersistentLayer.items pl fuel it') = Ok (mkIter l None).
Proof.
  intros [i j g x Ho|Hk] Hf.
  - pose proof Ho as [Hl Hx _ _ _]. destruct (iterator_new it i j g x Ho) as (it' & -> & Hy). res_simpl.
    rewrite (tail_cons i j g x (ld_group _ _ _ _ Hl) Hx) in *. by apply items_yet.
  - unfold Iterator.new. rewrite Hk. destruct fuel; [cbn in Hf; lia|]. done.
Qed.
End states.
