(* ===== verification/PersistentSeek.v ===== *)
(** * Seeking in a layer file

    [PersistentLayer::seek] finds the first item that a bound allows: the
    table of leading integers leaves a range of blocks, and two binary
    searches look at the first keys of blocks and at the keys of one block. *)

From S2P Require Import Prelude Round Bytes Checksum Journal LsmTypes MergeProps BloomFilter PersistentLayer PersistentBlocks PersistentRead.

(** What [SortByU64] promises: the integers are ordered as the keys are. *)
Class LawfulSort (K : Type) `{OrdUpperBound K, SortByU64 K} : Prop :=
  leading_mono : ∀ a b, cmp_upper_bound a b ≠ Gt → get_leading_u64 a ≤ get_leading_u64 b.

Section order.
Context {K V : Type} `{OrdUpperBound K, !TotalCmp (cmp_upper_bound (K := K))}.
Implicit Types (x y : Item K V) (l : list (Item K V)) (k : K).

Definition upper_lt x y : Prop := cmp_upper_bound (key x) (key y) = Lt.

Lemma upper_lt_le a b c : cmp_upper_bound a b = Lt → cmp_upper_bound b c ≠ Gt → cmp_upper_bound a c = Lt.
Proof.
  intros Hab Hbc. destruct (cmp_upper_bound a c) eqn:E; [|done|].
  - exfalso. apply (cmp_le_trans b c a Hbc); [by rewrite cmp_opp, E|by rewrite cmp_opp, Hab].
  - exfalso. apply (cmp_le_trans a b c); [by rewrite Hab|done|done].
Qed.

Lemma upper_le_lt a b c : cmp_upper_bound a b ≠ Gt → cmp_upper_bound b c = Lt → cmp_upper_bound a c = Lt.
Proof.
  intros Hab Hbc. rewrite cmp_opp. destruct (cmp_upper_bound c a) eqn:E; [..|done]; exfalso.
  all: apply (cmp_le_trans c a b); [by rewrite E|done|by rewrite cmp_opp, Hbc].
Qed.

Lemma drop_until_split (p : Item K V → bool) l1 l2 : Forall (λ x, p x = false) l1 → (∀ x, head l2 = Some x → p x = true) → drop_until p (l1 ++ l2) = l2.
Proof.
  intros Hl H2. induction Hl as [|x l1 Hx _ IH]; cbn; [|by rewrite Hx]. destruct l2 as [|y l2]; [done|]. cbn. by rewrite H2.
Qed.

(** The bound that [seek_key] looks for. *)
Definition the_bound (excluded : bool) k : Bound K := if excluded then Excluded k else Included k.

Lemma below_all l1 l2 x k : StronglySorted upper_lt (l1 ++ x :: l2) → cmp_upper_bound (key x) k ≠ Gt →
  Forall (λ y, cmp_upper_bound (key y) k = Lt) l1.
Proof.
  intros (H12 & _ & _)%StronglySorted_app Hx. apply Forall_forall. intros y Hy. apply (upper_lt_le _ (key x)); [|done]. apply H12; [done|by left].
Qed.

(** The key is there. *)
Lemma seek_at l1 x l2 k e : StronglySorted upper_lt (l1 ++ x :: l2) → cmp_upper_bound (key x) k = Eq →
  drop_until (at_or_above (the_bound e k)) (l1 ++ x :: l2) = if e then l2 else x :: l2.
Proof.
  intros Hs Hx. pose proof (below_all l1 l2 x k Hs ltac:(by rewrite Hx)) as Hb. apply StronglySorted_app in Hs as (_ & _ & [H2 _]%StronglySorted_cons).
  destruct e; cbn [the_bound].
  - change (x :: l2) with ([x] ++ l2). rewrite app_assoc. apply drop_until_split.
    + apply Forall_app. split; [|repeat constructor; cbn; by rewrite Hx]. eapply Forall_impl; [exact Hb|]. cbn. by intros y ->.
    + intros y Hy. rewrite Forall_forall in H2. cbn. rewrite cmp_opp, (upper_le_lt k (key x)); [done|by rewrite cmp_opp, Hx|].
      apply H2. by apply head_Some_elem_of.
  - apply drop_until_split; [eapply Forall_impl; [exact Hb|]; cbn; by intros y ->|]. intros y [= <-]. cbn. by rewrite Hx.
Qed.

(** The key would be between two items. *)
Lemma seek_between l1 l2 k e : StronglySorted upper_lt (l1 ++ l2) → (∀ x, last l1 = Some x → cmp_upper_bound (key x) k = Lt) →
  (∀ x, head l2 = Some x → cmp_upper_bound (key x) k = Gt) → drop_until (at_or_above (the_bound e k)) (l1 ++ l2) = l2.
Proof.
  intros Hs H1 H2. apply drop_until_split.
  - destruct (last l1) as [x|] eqn:El; [|by apply last_None in El as ->]. apply last_Some in El as [l1' ->]. specialize (H1 x eq_refl).
    rewrite <- app_assoc in Hs. pose proof (below_all l1' l2 x k Hs ltac:(by rewrite H1)) as Hb. apply Forall_app. split.
    + eapply Forall_impl; [exact Hb|]. destruct e; cbn; by intros y ->.
    + repeat constructor. destruct e; cbn; by rewrite H1.
  - intros x Hx. destruct e; cbn; by rewrite H2.
Qed.
End order.

(** The first integer of each block, with zero for the first block. *)
Definition leading {K V} `{SortByU64 K} (g : list (Item K V)) : Z := from_option (λ x, get_leading_u64 (key x)) 0 (head g).
Definition table {K V} `{SortByU64 K} (G : list (list (Item K V))) : list Z :=
  match G with
  | _ :: (_ :: _) as G' => 0 :: (leading <$> G')
  | _ => []
  end.

Section seek.
Context {K V : Type} `{LayerCodec K V, OrdUpperBound K, !TotalCmp (cmp_upper_bound (K := K)), SortByU64 K, !LawfulSort K}.
Context (pl : PersistentLayer) (G : list (list (Item K V))) (HL : laid_out pl G).
Context (Hsorted : StronglySorted upper_lt (concat G)) (Htable : pl_seek_table pl = table G).
Context (Hlead : ∀ x, x ∈ concat G → 0 ≤ get_leading_u64 (key x)).
Context (k : K) (e : bool).
#[local] Abbreviation bs := (pl_block_size pl).
#[local] Abbreviation place := (place pl).
#[local] Abbreviation on_key := (on_key pl G).
#[local] Abbreviation at_key := (at_key pl G).
#[local] Abbreviation tail := (tail G).
Let Hbs : 512 ≤ bs ≤ 65536 := lo_bs pl G HL.
Implicit Types (it : KeyOnlyIterator K) (g : list (Item K V)).

(** What the search is to find. *)
Definition wanted : list (Item K V) := drop_until (at_or_above (the_bound e k)) (concat G).
Definition above (l : list (Item K V)) : Prop := ∀ y, head l = Some y → cmp_upper_bound (key y) k = Gt.

Lemma split_at i j g x : G !! i = Some g → g !! j = Some x → ∃ l1, concat G = l1 ++ x :: tail i (S j).
Proof.
  intros Hg Hx. exists (concat (take i G) ++ take j (concat (drop i G))).
  rewrite <- app_assoc, <- (tail_cons G i j g x Hg Hx). unfold PersistentRead.tail. by rewrite take_drop, <- concat_app, take_drop.
Qed.

Lemma wanted_at i j g x : G !! i = Some g → g !! j = Some x → cmp_upper_bound (key x) k = Eq →
  wanted = if e then tail i (S j) else tail i j.
Proof.
  intros Hg Hx Hk. destruct (split_at i j g x Hg Hx) as [l1 Hl]. unfold wanted. rewrite (tail_cons G i j g x Hg Hx).
  revert Hsorted. rewrite Hl. intros Hs. by apply seek_at.
Qed.

Lemma wanted_after i j g x : G !! i = Some g → g !! j = Some x → cmp_upper_bound (key x) k = Lt → above (tail i (S j)) → wanted = tail i (S j).
Proof.
  intros Hg Hx Hk Ha. destruct (split_at i j g x Hg Hx) as [l1 Hl]. unfold wanted. revert Hsorted. rewrite Hl.
  change (x :: tail i (S j)) with ([x] ++ tail i (S j)). rewrite app_assoc. intros Hs. apply seek_between; [done| |done].
  intros y. rewrite last_snoc. by intros [= <-].
Qed.

Lemma wanted_all : above (tail 0 0) → wanted = tail 0 0.
Proof. intros Ha. unfold wanted. unfold PersistentRead.tail in *. rewrite !drop_0 in *. by apply (seek_between [] (concat G) k e). Qed.

Lemma found_spec it i j g x : on_key it i j g x → cmp_upper_bound (key x) k = Eq → ∃ it', PersistentLayer.found pl e it = Ok it' ∧ at_key it' wanted.
Proof.
  intros Ho Hk. pose proof Ho as [Hl Hx _ _ _]. rewrite (wanted_at i j g x (ld_group _ _ _ _ _ _ Hl) Hx Hk). unfold PersistentLayer.found. destruct e.
  - destruct (advance_yet pl G HL it _ (on_key_next pl G it i j g x Ho)) as (it' & -> & Ha). by eexists.
  - exists it. split; [done|]. by eapply at_on.
Qed.

(** ** The table *)
Lemma partition_point_spec {A} (p : A → bool) (l : list A) : ∃ n, partition_point p l = Z.of_nat n ∧ (n ≤ length l)%nat ∧
  (∀ i x, (i < n)%nat → l !! i = Some x → p x = true) ∧ (∀ x, l !! n = Some x → p x = false).
Proof.
  induction l as [|y l (n & Hn & Hle & Ha & Hb)]; cbn; [exists 0%nat; split_and!; [done|lia|intros; lia|done]|]. destruct (p y) eqn:Ey.
  - exists (S n). split_and!; [lia|lia| |done]. intros [|i] x Hi; [by intros [= <-]|]. apply Ha. lia.
  - exists 0%nat. split_and!; [done|lia|intros; lia|]. by intros x [= <-].
Qed.

Lemma table_length : table G = [] ∧ (length G ≤ 1)%nat ∨ length (table G) = length G ∧ table G !! 0%nat = Some 0.
Proof. destruct G as [|g [|g' G']]; cbn; [left; split; [done|lia]..|right; by rewrite length_fmap]. Qed.

Lemma table_lookup i g x : (0 < i)%nat → G !! i = Some g → g !! 0%nat = Some x → table G !! i = Some (get_leading_u64 (key x)).
Proof.
  intros Hi Hg Hx. destruct i as [|i]; [lia|]. destruct G as [|g0 [|g1 G']]; [done|by destruct i|].
  change ((leading <$> g1 :: G') !! i = Some (get_leading_u64 (key x))). change ((g1 :: G') !! i = Some g) in Hg. rewrite list_lookup_fmap.
  rewrite Hg. cbn. destruct g; [done|]. by injection Hx as ->.
Qed.

Lemma leading_lt a b : get_leading_u64 a < get_leading_u64 b → cmp_upper_bound a b = Lt.
Proof.
  intros Hlt. destruct (cmp_upper_bound a b) eqn:E; [|done|]; exfalso.
  all: pose proof (leading_mono b a ltac:(by rewrite cmp_opp, E)); lia.
Qed.

Lemma group_head i g : G !! i = Some g → ∃ x, g !! 0%nat = Some x.
Proof. intros Hg. destruct (group_fits pl G HL i g Hg) as [Hn _ _]. destruct g as [|x g]; [done|]. by exists x. Qed.

Lemma above_head i g x : G !! i = Some g → g !! 0%nat = Some x → cmp_upper_bound (key x) k = Gt → above (tail i 0).
Proof. intros Hg Hx Hk y. rewrite (tail_cons G i 0 g x Hg Hx). by intros [= <-]. Qed.

Lemma above_end : above (tail (length G) 0).
Proof. rewrite tail_end. done. Qed.

Lemma place_mul i : (i ≤ length G)%nat → u64_mul (Z.of_nat i + 1) bs = Ok (place i).
Proof. intros Hi. pose proof (lo_bound pl G HL). rewrite u64_mul_ok by nia. f_equal. unfold PersistentBlocks.place. lia. Qed.

Lemma above_negative : get_leading_u64 k < 0 → above (tail 0 0).
Proof.
  intros Hk y Hy%head_Some_elem_of. unfold PersistentRead.tail in Hy. rewrite !drop_0 in Hy. rewrite cmp_opp, leading_lt; [done|]. specialize (Hlead y Hy). lia.
Qed.

(** Blocks before the range have smaller keys, blocks behind it greater ones. *)
Lemma seek_range_spec : ∃ a b, PersistentLayer.seek_range pl k = Ok (place a, place b) ∧ (b ≤ length G)%nat ∧
  ((a < b)%nat ∧ above (tail b 0) ∨ a = 0%nat ∧ b = 0%nat ∧ ((length G ≤ 1)%nat ∨ above (tail 0 0))) ∧
  (∀ g x, (0 < a)%nat → G !! a = Some g → g !! 0%nat = Some x → cmp_upper_bound (key x) k = Lt).
Proof.
  unfold PersistentLayer.seek_range, data_offset, NUM_HEADER_BLOCKS. rewrite Z.mul_1_l, u64_div_ok, Z.div_same by lia. res_simpl. rewrite Htable.
  set (T := get_leading_u64 k).
  destruct (partition_point_spec (λ x, x <=? T) (table G)) as (b & -> & Hb & Hbl & Hbr). rewrite Nat2Z.id.
  destruct (partition_point_spec (λ x, x <? T) (take b (table G))) as (n & -> & Hn & Hnl & _). rewrite length_take in Hn.
  assert (length (table G) ≤ length G)%nat by (destruct table_length as [[-> _]|[-> _]]; cbn; lia).
  replace (Z.max 0 (Z.of_nat n - 1)) with (Z.of_nat (n - 1)) by lia. rewrite !place_mul by lia. res_simpl.
  exists (n - 1)%nat, b. split; [done|]. split; [lia|]. split.
  - destruct table_length as [[Ht Hl]|[Hl H0t]]; [right; rewrite Ht in *; cbn in *; lia|].
    destruct (decide (b = 0%nat)) as [->|Hb0']; [right; split_and!; [lia|done|right]; specialize (Hbr 0 H0t); cbn in Hbr; apply above_negative; lia|left].
    assert (0 < b)%nat as Hb0 by lia. split; [lia|].
    destruct (decide (b = length G)) as [->|Hne]; [apply above_end|]. destruct (lookup_lt_is_Some_2 G b ltac:(lia)) as [g Hg].
    destruct (group_head b g Hg) as [x Hx]. apply (above_head b g x Hg Hx). rewrite cmp_opp, leading_lt; [done|]. fold T.
    specialize (Hbr _ (table_lookup b g x Hb0 Hg Hx)). cbn in Hbr. lia.
  - intros g x Ha Hg Hx. apply leading_lt. fold T. pose proof (table_lookup _ g x Ha Hg Hx) as Ht.
    assert ((get_leading_u64 (key x) <? T) = true); [|lia]. apply (Hnl (n - 1)%nat); [lia|]. by rewrite lookup_take_lt by lia.
Qed.

(** ** The search over blocks *)

(** The key is behind the first key of block [a], and not in a block after it. *)
Record bracket (a : nat) (left : KeyOnlyIterator K) (right : option (KeyOnlyIterator K)) : Prop := {
  br_left : ∃ g x, on_key left a 0 g x ∧ cmp_upper_bound (key x) k = Lt;
  br_above : above (tail (S a) 0);
  br_right : ∀ it, right = Some it → ∃ g x, on_key it (S a) 0 g x;
}.

Lemma half_block n : (n * bs) / 2 / bs = n / 2.
Proof. rewrite Z.div_div, Z.mul_comm by lia. rewrite (Z.mul_comm 2 bs). rewrite Z.div_mul_cancel_l; lia. Qed.

Lemma mid_block a b : (a ≤ b)%nat → round_down (place a + (place b - place a) / 2) bs = Ok (place (a + (b - a) / 2)).
Proof.
  intros Hab. assert (place b - place a = Z.of_nat (b - a) * bs) as Hd by (unfold PersistentBlocks.place; nia). rewrite Hd.
  rewrite round_down_eq; [|pose proof (Z.div_pos (Z.of_nat (b - a) * bs) 2); unfold PersistentBlocks.place; nia|lia].
  unfold PersistentBlocks.place at 1. rewrite Z.div_add_l, half_block by lia. f_equal. unfold PersistentBlocks.place.
  rewrite Nat2Z.inj_add, Nat2Z.inj_div. change (Z.of_nat 2) with 2. lia.
Qed.

Lemma read_first i g x : G !! i = Some g → g !! 0%nat = Some x → ∃ it,
  (it ← KeyOnlyIterator.new pl (place i); KeyOnlyIterator.advance pl it) = Ok it ∧ on_key it i 0 g x.
Proof.
  intros Hg Hx. rewrite (new_before pl G HL i). res_simpl. apply (advance_before pl G HL); [|done|done]. split; [done|done|by left].
Qed.

Lemma block_search_spec fuel : ∀ a b left right g x, (b - a ≤ fuel)%nat → (a < b ≤ length G)%nat →
  on_key left a 0 g x → cmp_upper_bound (key x) k = Lt → above (tail b 0) → (∀ it, right = Some it → ∃ g x, on_key it b 0 g x) →
  ∃ r, PersistentLayer.block_search pl k e fuel (place a) (place b) left right = Ok r ∧
    match r with inl it => at_key it wanted | inr (l', r') => ∃ a, bracket a l' r' end.
Proof.
  induction fuel as [|fuel IH]; intros a b left right g x Hf Hab Ho Hk Hb Hr; [lia|]. cbn [PersistentLayer.block_search].
  assert (place b - place a = Z.of_nat (b - a) * bs) as Hd by (unfold PersistentBlocks.place; nia).
  rewrite u64_sub_ok by nia. res_simpl. destruct (Z.ltb_spec bs (place b - place a)) as [Hlt|Hge].
  - assert (1 < b - a)%nat by nia. rewrite (mid_block a b) by lia. res_simpl.
    set (m := (a + (b - a) / 2)%nat). assert (0 < (b - a) / 2 < b - a)%nat as Hm.
    { split; [apply Nat.div_str_pos; lia|apply Nat.div_lt; lia]. }
    destruct (lookup_lt_is_Some_2 G m ltac:(lia)) as [gm Hgm]. destruct (group_head m gm Hgm) as [y Hy].
    destruct (read_first m gm y Hgm Hy) as (it & He & Hit). rewrite (new_before pl G HL m) in He |- *. cbn [mbind res_bind] in He |- *. rewrite He. res_simpl.
    unfold KeyOnlyIterator.get. rewrite (ok_key _ _ _ _ _ _ _ Hit). res_simpl. destruct (cmp_upper_bound (key y) k) eqn:Ec.
    + destruct (found_spec it m 0 gm y Hit Ec) as (it' & -> & Ha). res_simpl. by eexists.
    + apply (IH m b it right gm y); [lia|lia|done..].
    + apply (IH a m left (Some it) g x); [lia|lia|done|done|by apply (above_head m gm y)|]. intros ? [= <-]. by eexists _, _.
  - assert (b = S a) as -> by nia. eexists. split; [done|]. exists a. split; [by eexists _, _|done|done].
Qed.

(** ** The search in a block *)
Lemma item_search_spec fuel a g : G !! a = Some g → above (tail (S a) 0) → ∀ i j left c x xc, (j - i ≤ fuel)%nat → (i < j ≤ length g)%nat →
  on_key left a c g xc → (j = length g → c = i) → g !! i = Some x → cmp_upper_bound (key x) k = Lt → above (tail a j) →
  ∃ r, PersistentLayer.item_search pl k e fuel (Z.of_nat i) (Z.of_nat j) left = Ok r ∧
    match r with
    | inl it => at_key it wanted
    | inr (n, l') => ∃ j c xc, n = Z.of_nat (S j) ∧ wanted = tail a (S j) ∧ (S j ≤ length g)%nat ∧ on_key l' a c g xc ∧ (S j = length g → c = j)
    end.
Proof.
  intros Hg Hab. induction fuel as [|fuel IH]; intros i j left c x xc Hf Hij Ho Hc Hx Hk Hj; [lia|]. cbn [PersistentLayer.item_search].
  rewrite u64_sub_ok by lia. res_simpl. destruct (Z.ltb_spec (Z.of_nat i) (Z.of_nat j - 1)) as [Hlt|Hge].
  - set (m := (i + (j - i) / 2)%nat). assert (0 < (j - i) / 2 < j - i)%nat as Hm.
    { split; [apply Nat.div_str_pos; lia|apply Nat.div_lt; lia]. }
    replace (Z.of_nat i + (Z.of_nat j - Z.of_nat i) / 2) with (Z.of_nat m).
    2: { unfold m. rewrite Nat2Z.inj_add, Nat2Z.inj_div, Nat2Z.inj_sub by lia. done. }
    destruct (seek_to_item pl G HL left a g _ m (ok_loaded _ _ _ _ _ _ _ Ho) ltac:(lia)) as (it1 & -> & Hrd & _).
    { intros _. by rewrite (ok_value _ _ _ _ _ _ _ Ho). }
    res_simpl. destruct (lookup_lt_is_Some_2 g m ltac:(lia)) as [y Hy]. destruct (advance_ready pl G HL it1 a m g y Hrd Hy) as (it & -> & Hit). res_simpl.
    unfold KeyOnlyIterator.get. rewrite (ok_key _ _ _ _ _ _ _ Hit). res_simpl. destruct (cmp_upper_bound (key y) k) eqn:Ec.
    + destruct (found_spec it a m g y Hit Ec) as (it' & -> & Ha). res_simpl. by eexists.
    + apply (IH m j it m y y); [lia|lia|done..].
    + apply (IH i m it m x y); [lia|lia|done| |done|done|]; [lia|]. intros z. rewrite (tail_cons G a m g y Hg Hy). by intros [= <-].
  - assert (j = S i) as -> by lia. eexists. split; [done|]. exists i, c, xc. split_and!; [done|by apply (wanted_after a i g x)|lia|done|done].
Qed.

Lemma seek_finish_spec a g j left c xc right : G !! a = Some g → (S j ≤ length g)%nat → on_key left a c g xc → (S j = length g → c = j) →
  (∀ it, right = Some it → ∃ g x, on_key it (S a) 0 g x) →
  ∃ it, PersistentLayer.seek_finish pl (Z.of_nat (S j)) left right = Ok it ∧ at_key it (tail a (S j)).
Proof.
  intros Hg Hj Ho Hc Hr. pose proof (ok_loaded _ _ _ _ _ _ _ Ho) as Hl. unfold PersistentLayer.seek_finish. rewrite (ld_count _ _ _ _ _ _ Hl).
  destruct (Z.ltb_spec (Z.of_nat (S j)) (Z.of_nat (length g))) as [Hlt|Hge].
  - destruct (seek_to_item pl G HL left a g _ (S j) Hl ltac:(lia)) as (it1 & -> & Hrd & _).
    { intros _. by rewrite (ok_value _ _ _ _ _ _ _ Ho). }
    res_simpl. destruct (lookup_lt_is_Some_2 g (S j) ltac:(lia)) as [y Hy]. destruct (advance_ready pl G HL it1 a (S j) g y Hrd Hy) as (it & -> & Hit).
    exists it. split; [done|]. by eapply at_on.
  - assert (S j = length g) as He by lia. specialize (Hc He). subst c. destruct right as [it|].
    + destruct (Hr it eq_refl) as (g' & y & Hit). exists it. split; [done|]. rewrite He, (tail_last G a g Hg). by eapply at_on.
    + destruct (advance_yet pl G HL left _ (on_key_next pl G left a j g xc Ho)) as (it & -> & Ha). by exists it.
Qed.

Lemma bracket_spec a left right : bracket a left right → ∃ it,
  (i ← PersistentLayer.item_search pl k e (S (Z.to_nat (ki_item_count left))) 0 (ki_item_count left) left;
   match i with
   | inl it => Ok it
   | inr (right_index, l) => PersistentLayer.seek_finish pl right_index l right
   end) = Ok it ∧ at_key it wanted.
Proof.
  intros [(g & x & Ho & Hk) Ha Hr]. pose proof Ho as [Hl Hx _ _ _]. pose proof (ld_group _ _ _ _ _ _ Hl) as Hg. rewrite (ld_count _ _ _ _ _ _ Hl), Nat2Z.id.
  pose proof (lookup_lt_Some _ _ _ Hx). change 0 with (Z.of_nat 0).
  destruct (item_search_spec (S (length g)) a g Hg Ha 0 (length g) left 0 x x) as (r & -> & Hs); [lia|lia|done|done|done|done|by rewrite (tail_last G a g Hg)|].
  res_simpl. destruct r as [it|[n l']]; [by exists it|]. destruct Hs as (j & c & xc & -> & -> & Hj & Hl' & Hc).
  by apply (seek_finish_spec a g j l' c xc right).
Qed.

Lemma search_spec a b left g x : on_key left a 0 g x → cmp_upper_bound (key x) k = Lt → (b ≤ length G)%nat →
  ((a < b)%nat ∧ above (tail b 0) ∨ a = 0%nat ∧ b = 0%nat ∧ ((length G ≤ 1)%nat ∨ above (tail 0 0))) →
  ∃ r, PersistentLayer.block_search pl k e (S (length (pl_seek_table pl))) (place a) (place b) left None = Ok r ∧
    match r with inl it => at_key it wanted | inr (l', r') => ∃ a, bracket a l' r' end.
Proof.
  intros Ho Hk Hb Hab. pose proof (ok_loaded _ _ _ _ _ _ _ Ho) as Hl. pose proof (lookup_lt_Some _ _ _ (ld_group _ _ _ _ _ _ Hl)).
  destruct Hab as [[Hlt Ha]|(-> & -> & Hle)].
  - apply (block_search_spec _ a b left None g x); [|lia|done..]. rewrite Htable. destruct table_length as [[-> ?]|[-> _]]; cbn; lia.
  - destruct Hle as [Hle|Hab]. 2: { pose proof Ho as [_ Hx _ _ _]. rewrite (Hab x) in Hk; [done|]. by rewrite (tail_cons G 0 0 g x (ld_group _ _ _ _ _ _ Hl) Hx). }
    cbn [PersistentLayer.block_search]. rewrite u64_sub_ok by lia. res_simpl. rewrite Z.sub_diag. destruct (Z.ltb_spec bs 0); [lia|]. eexists. split; [done|].
    exists 0%nat. split; [by eexists _, _| |done]. replace 1%nat with (length G) by lia. apply above_end.
Qed.

(** [seek_key] finds the first item that the bound allows. *)
Lemma seek_key_spec : ∃ it, PersistentLayer.seek_key pl k e = Ok it ∧ at_key it wanted.
Proof.
  unfold PersistentLayer.seek_key. destruct seek_range_spec as (a & b & -> & Hb & Hab & Hlt). res_simpl. rewrite (new_before pl G HL a). res_simpl.
  destruct (G !! a) as [g|] eqn:Hg.
  - destruct (group_head a g Hg) as [x Hx]. destruct (read_first a g x Hg Hx) as (left & He & Ho). rewrite (new_before pl G HL a) in He. cbn [mbind res_bind] in He.
    rewrite He. res_simpl. unfold KeyOnlyIterator.get. rewrite (ok_key _ _ _ _ _ _ _ Ho). destruct (cmp_upper_bound (key x) k) eqn:Ec.
    + by apply (found_spec left a 0 g x).
    + destruct (search_spec a b left g x Ho Ec Hb Hab) as (r & -> & Hs). res_simpl. destruct r as [it|[l' r']]; [by exists it|].
      destruct Hs as [a' Hbr]. by apply (bracket_spec a').
    + exists left. split; [done|]. assert (a = 0%nat) as ->. { destruct a as [|a]; [done|]. rewrite (Hlt g x ltac:(lia) eq_refl Hx) in Ec. done. }
      rewrite (wanted_all (above_head 0 g x Hg Hx Ec)). by eapply at_on.
  - apply lookup_ge_None in Hg. assert (a = 0%nat ∧ length G = 0%nat) as [-> H0l] by lia. assert (tail 0 0 = []) as Hnil by (pose proof (tail_end G) as Ht; by rewrite H0l in Ht).
    destruct (advance_yet pl G HL (mkKeyIter (mkCursor None (base pl 0)) (place 0) 0 0 None false) (tail 0 0)) as (it & -> & Ha).
    { apply yet_before; [lia|]. split; [done|done|by left]. }
    res_simpl. rewrite wanted_all by by rewrite Hnil. exists it. split; [|done]. rewrite Hnil in Ha. unfold KeyOnlyIterator.get.
    inversion Ha as [i j g x [Hl Hx _ _ _]|Hk]; [|by rewrite Hk]. pose proof (lookup_lt_Some _ _ _ (ld_group _ _ _ _ _ _ Hl)). lia.
Qed.
End seek.

(** ** The layer *)
Section layer.
Context {K V : Type} `{LayerCodec K V, OrdUpperBound K, !TotalCmp (cmp_upper_bound (K := K)), SortByU64 K, !LawfulSort K, FuzzyHash K}.
Context (pl : PersistentLayer) (G : list (list (Item K V))) (HL : laid_out pl G).
Context (Hsorted : StronglySorted upper_lt (concat G)) (Htable : pl_seek_table pl = table G).
Context (Hlead : ∀ x, x ∈ concat G → 0 ≤ get_leading_u64 (key x)).

Lemma items_fuel : (length (concat G) ≤ length (oh_bytes (pl_handle pl)))%nat.
Proof.
  destruct (lo_file pl G HL) as (pre & post & -> & _). rewrite !length_app. assert (length (concat G) ≤ length (concat (block (pl_block_size pl) <$> G)))%nat; [|lia].
  clear. induction G as [|g G' IH]; [done|]. cbn [concat fmap list_fmap]. rewrite !length_app. unfold block at 1. rewrite !length_app.
  pose proof (body_length g). lia.
Qed.

(** The layer yields the items that a bound allows, in their order. *)
Lemma layer_seek (bound : Bound K) : seek (PersistentLayer.layer pl) bound = Ok (mkIter (drop_until (at_or_above bound) (concat G)) None).
Proof.
  cbn [seek PersistentLayer.layer]. pose proof items_fuel as Hf. unfold PersistentLayer.seek. destruct bound as [|k|k].
  - assert (data_offset pl = place pl 0) as -> by (unfold data_offset, place, NUM_HEADER_BLOCKS; lia). rewrite (new_before pl G HL 0). res_simpl.
    unfold Iterator.advance. cbn [Iterator.new ki_key mbind res_bind it_inner].
    destruct (advance_yet pl G HL (mkKeyIter (mkCursor None (base pl 0)) (place pl 0) 0 0 None false) (tail G 0 0)) as (it & -> & Ha).
    { apply yet_before; [lia|]. split; [done|done|by left]. }
    res_simpl. assert (tail G 0 0 = concat G) as Ht by (unfold tail; by rewrite !drop_0). rewrite Ht in Ha.
    rewrite (items_at pl G HL it (concat G)) by (done || lia). by destruct (concat G).
  - destruct (seek_key_spec pl G HL Hsorted Htable Hlead k false) as (it & -> & Ha). res_simpl.
    rewrite (items_at pl G HL it _ _ Ha); [done|]. pose proof (drop_until_length (at_or_above (Included k)) (concat G)). unfold wanted. cbn [the_bound]. lia.
  - destruct (seek_key_spec pl G HL Hsorted Htable Hlead k true) as (it & -> & Ha). res_simpl.
    rewrite (items_at pl G HL it _ _ Ha); [done|]. pose proof (drop_until_length (at_or_above (Excluded k)) (concat G)). unfold wanted. cbn [the_bound]. lia.
Qed.
End layer.
