(* ===== verification/PersistentWrite.v ===== *)
(** * Writing a layer file

    [PersistentLayerWriter] and [PersistentLayer::open] together: a file that
    was written opens as a layer that serves exactly the items written. *)

From S2P Require Import Prelude Round Bytes Checksum Journal LsmTypes MergeProps MergeQuery BloomFilter PersistentLayer PersistentBlocks PersistentRead PersistentSeek.

Ltac pw_simpl :=
  cbn [pw_bloom_filter pw_buf_item_count pw_out pw_writer_block_size pw_block_size pw_buf pw_item_count pw_block_offsets pw_block_keys].

Section write.
Context {K V : Type} `{LayerCodec K V, FileCodec, SortByU64 K, FuzzyHash K, FilterEstimates}.
Implicit Types (w : PersistentLayerWriter) (x : Item K V) (l g : list (Item K V)) (gs : list (list (Item K V))) (f : BloomFilterWriter).

(** ** The filter *)

(** The filter holds the keys of the items. *)
Record fed l f : Prop := {
  fe_usable : usable f;
  fe_nonces : fw_nonces f = generate_hash_nonces (fw_seed f) (BloomFilterWriter.num_nonces f);
  fe_holds : ∀ x hs h, x ∈ l → fuzzy_hash (key x) = Ok hs → h ∈ hs → holds_hash f h;
}.

Lemma fed_new seed n : fed [] (BloomFilterWriter.new seed n).
Proof.
  split; [apply new_usable| |by intros x hs h ?%elem_of_nil]. unfold BloomFilterWriter.num_nonces, BloomFilterWriter.new.
  destruct (estimate_params n) as [bits c]. cbn [fw_nonces fw_seed]. unfold generate_hash_nonces. by rewrite gen_nonces_length.
Qed.

Lemma fed_insert l f x hs : fed l f → fuzzy_hash (key x) = Ok hs → ∃ f', BloomFilterWriter.insert f (key x) = Ok f' ∧ fed (l ++ [x]) f' ∧ extends f f'.
Proof.
  intros [Hu Hn Hh] Hx. unfold BloomFilterWriter.insert. rewrite Hx. res_simpl. destruct (insert_hashes_spec hs f Hu) as (f' & -> & He & Hi).
  exists f'. split; [done|]. split; [|done]. pose proof He as (_ & Hs & Hns).
  split; [by eapply extends_usable|unfold BloomFilterWriter.num_nonces; by rewrite Hs, Hns|].
  intros y hy h [Hy| ->%list_elem_of_singleton]%elem_of_app Hf Hin; [by eapply extends_holds, Hh|]. rewrite Hx in Hf. injection Hf as <-. by apply Hi.
Qed.

(** ** Groups *)
Lemma used_snoc g x : g ≠ [] → used (g ++ [x]) = 2 + Z.of_nat (length (body g ++ ser x)) + 2 * Z.of_nat (length g).
Proof. intros Hg. unfold used. rewrite body_app. unfold body at 2. cbn. rewrite app_nil_r, !length_app. cbn [length]. lia. Qed.

Lemma offsets_snoc g x : g ≠ [] → offsets (g ++ [x]) = offsets g ++ [Z.of_nat (length (body g)) + 2].
Proof.
  intros Hg. destruct g as [|y g0]; [done|]. set (g := y :: g0) in *. assert (length (g ++ [x]) - 1 = (length g - 1) + 1)%nat as Hl by (rewrite length_app; cbn; lia).
  unfold offsets. rewrite Hl, seq_app, fmap_app. f_equal.
  - apply list_fmap_ext. intros i j [-> Hj]%lookup_seq. unfold off. rewrite take_app_le by lia. done.
  - replace (1 + (length g - 1))%nat with (length g) by (cbn; lia). cbn [seq fmap list_fmap]. unfold off. rewrite take_app_le, take_ge by lia. f_equal. lia.
Qed.

Lemma leading_snoc g x : g ≠ [] → leading (g ++ [x]) = leading g.
Proof. by destruct g. Qed.

(** ** The writer *)
Context (bs wb : Z) (hdr : list Z) (f0 : BloomFilterWriter) (Hbs : 512 ≤ bs ≤ 65536).

(** Items have been written: some are in blocks, the others in the buffer. *)
Record written w l gs g : Prop := {
  wr_items : l = concat gs ++ g;
  wr_empty : g = [] → gs = [];
  wr_full : Forall (fits bs) gs;
  wr_group : g ≠ [] → fits bs g;
  wr_out : pw_out w = hdr ++ concat (block bs <$> gs);
  wr_sizes : pw_writer_block_size w = wb ∧ pw_block_size w = bs;
  wr_buf : pw_buf w = body g;
  wr_count : pw_buf_item_count w = Z.of_nat (length g);
  wr_total : pw_item_count w = Z.of_nat (length l);
  wr_offsets : pw_block_offsets w = offsets g;
  wr_keys : pw_block_keys w = leading <$> drop 1 (gs ++ [g]);
  wr_fed : fed l (pw_bloom_filter w);
  wr_filter : extends f0 (pw_bloom_filter w);
}.

(** An item that can be written: it fits in a block of its own. *)
Record writable x : Prop := {
  wx_size : Z.of_nat (length (ser x)) ≤ bs - 3;
  wx_decodes : decodes x;
  wx_leading : is_u64 (get_leading_u64 (key x));
  wx_hash : ∃ hs, fuzzy_hash (key x) = Ok hs;
}.

Lemma writable_fits x : writable x → fits bs [x].
Proof.
  intros [Hs Hq _ _]. split; [done| |by intros i ->%list_elem_of_singleton]. unfold used, body. cbn. rewrite app_nil_r. lia.
Qed.

Lemma fits_snoc g x : fits bs g → writable x → used (g ++ [x]) ≤ bs - 1 → fits bs (g ++ [x]).
Proof.
  intros [Hn _ Hq] [_ Hx _ _] Hu. split; [by destruct g|done|]. intros i [?| ->%list_elem_of_singleton]%elem_of_app; [by apply Hq|done].
Qed.

Lemma write_block_spec w g more : fits bs g → pw_block_size w = bs → pw_buf w = body g ++ more →
  pw_buf_item_count w = Z.of_nat (length g) → pw_block_offsets w = offsets g →
  PersistentLayerWriter.write_block w (length (body g)) =
    Ok (mkLayerWriter (pw_out w ++ block bs g) (pw_writer_block_size w) bs more 0 (pw_item_count w) [] (pw_block_keys w) (pw_bloom_filter w)).
Proof.
  intros Hf Hb Hbuf Hc Ho. pose proof (fits_count bs Hbs g Hf). pose proof (fi_used bs g Hf) as Hu. unfold PersistentLayerWriter.write_block.
  rewrite Hb, Hbuf, Hc, Ho, length_offsets. destruct (Z.eqb_spec (Z.of_nat (length g)) 0); [lia|].
  assert (PER_DATA_BLOCK_HEADER_SIZE + Z.of_nat (length g - 1) * PER_DATA_BLOCK_SEEK_ENTRY_SIZE + Z.of_nat (length (body g)) = used g) as ->.
  { unfold PER_DATA_BLOCK_HEADER_SIZE, PER_DATA_BLOCK_SEEK_ENTRY_SIZE, used. lia. }
  destruct (Z.leb_spec (used g) bs); [|lia]. res_simpl. by rewrite take_app_length, drop_app_length.
Qed.

(** An item is written. *)
Lemma write_first w x : written w [] [] [] → writable x → ∃ w', PersistentLayerWriter.write w x = Ok w' ∧ written w' [x] [] [x].
Proof.
  intros [_ _ _ _ Hout [Hw1 Hw2] Hbuf Hc Ht Ho Hk Hfed Hfs] Hx. pose proof Hx as [Hs _ _ [hs Hh]]. destruct (fed_insert [] _ x hs Hfed Hh) as (f' & Hf & Hfed' & Hfs'). pose proof (transitivity Hfs Hfs') as Hfs0.
  unfold PersistentLayerWriter.write. rewrite Hbuf, Hc, Hw2, Ho. fold (ser x). change (body (@nil (Item K V))) with (@nil Z).
  change (offsets (@nil (Item K V))) with (@nil Z). cbn [length app]. change (Z.of_nat 0) with 0. change (0 <? 0) with false. cbn [negb orb]. res_simpl. unfold PER_DATA_BLOCK_HEADER_SIZE, PER_DATA_BLOCK_SEEK_ENTRY_SIZE. cbn [length]. change (Z.of_nat 0) with 0.
  destruct (Z.ltb_spec (bs - 1) (2 + Z.of_nat (length (ser x)) + 0 * 2)); [lia|]. res_simpl. cbn [pw_bloom_filter pw_buf_item_count].
  rewrite Hf. res_simpl.
  eexists. split; [done|]. split; cbn; try done; [intros _; by apply writable_fits|unfold body; cbn; by rewrite app_nil_r|by rewrite Ht].
Qed.

Lemma write_next w x l gs g : written w l gs g → g ≠ [] → writable x → ∃ w' gs' g',
  PersistentLayerWriter.write w x = Ok w' ∧ written w' (l ++ [x]) gs' g' ∧ g' ≠ [].
Proof.
  intros [Hl He Hfull Hg Hout [Hw1 Hw2] Hbuf Hc Ht Ho Hk Hfed Hfs] Hn Hx. specialize (Hg Hn). pose proof Hx as [Hs _ _ [hs Hh]].
  destruct (fed_insert l _ x hs Hfed Hh) as (f' & Hf & Hfed' & Hfs'). pose proof (transitivity Hfs Hfs') as Hfs0. pose proof (fits_count bs Hbs g Hg) as Hcnt. pose proof (fi_used bs g Hg) as Hu.
  unfold PersistentLayerWriter.write. rewrite Hbuf, Hc, Hw2, Ho. fold (ser x). destruct (Z.ltb_spec 0 (Z.of_nat (length g))); [|lia]. cbn [negb orb].
  change PER_DATA_BLOCK_HEADER_SIZE with 2. change PER_DATA_BLOCK_SEEK_ENTRY_SIZE with 2. rewrite <- (offsets_snoc g x Hn), length_offsets.
  destruct (Z.leb_spec (Z.of_nat (length (body g)) + 2) 65535); [|unfold used in Hu; lia]. res_simpl.
  replace (2 + Z.of_nat (length (body g ++ ser x)) + Z.of_nat (length (g ++ [x]) - 1) * 2) with (used (g ++ [x])) by (rewrite (used_snoc g x Hn), (length_app g); cbn [length]; lia).
  destruct (Z.ltb_spec (bs - 1) (used (g ++ [x]))) as [Hbig|Hsmall].
  - rewrite (write_block_spec _ g (ser x)); [|done..]. res_simpl. pw_simpl.
    rewrite Hf. res_simpl. eexists _, (gs ++ [g]), [x]. split; [done|]. split; [|done].
    split; pw_simpl; try done.
    + rewrite concat_app, Hl. cbn. by rewrite app_nil_r.
    + apply Forall_app. split; [done|by constructor].
    + intros _. by apply writable_fits.
    + rewrite Hout, fmap_app, concat_app, <- app_assoc. cbn. by rewrite app_nil_r.
    + unfold body. cbn. by rewrite app_nil_r.
    + rewrite Ht, length_app. cbn. lia.
    + rewrite Hk. rewrite (drop_app_le (gs ++ [g])) by (rewrite length_app; cbn; lia). by rewrite fmap_app.
  - pose proof (fits_snoc g x Hg Hx Hsmall) as Hg'. pose proof (fits_count bs Hbs _ Hg') as Hcnt'. rewrite length_app in Hcnt'. cbn [length] in Hcnt'.
    res_simpl. pw_simpl.
    rewrite Hf. res_simpl. destruct (Z.leb_spec (Z.of_nat (length g) + 1) 65535); [|lia]. res_simpl. eexists _, gs, (g ++ [x]). split; [done|]. split; [|by destruct g].
    split; pw_simpl; try done.
    + by rewrite Hl, app_assoc.
    + by destruct g.
    + rewrite body_app. unfold body at 3. cbn. by rewrite app_nil_r.
    + rewrite length_app. cbn. lia.
    + rewrite Ht, length_app. cbn. lia.
    + rewrite Hk. destruct gs as [|g0 gs]; [done|]. cbn [app drop]. rewrite !drop_0, !fmap_app. f_equal. cbn. by rewrite leading_snoc.
Qed.

Lemma write_spec w x l gs g : written w l gs g → writable x → ∃ w' gs' g', PersistentLayerWriter.write w x = Ok w' ∧ written w' (l ++ [x]) gs' g' ∧ g' ≠ [].
Proof.
  intros Hw Hx. destruct (decide (g = [])) as [->|Hn]; [|by eapply write_next]. pose proof (wr_empty _ _ _ _ Hw eq_refl) as ->.
  pose proof (wr_items _ _ _ _ Hw) as ->. destruct (write_first w x Hw Hx) as (w' & ? & ?). by exists w', [], [x].
Qed.

(** ** The rest of the file *)

(** All items are in blocks. *)
Record flushed w l (G : list (list (Item K V))) : Prop := {
  fl_items : concat G = l;
  fl_fits : Forall (fits bs) G;
  fl_out : pw_out w = hdr ++ concat (block bs <$> G);
  fl_sizes : pw_writer_block_size w = wb ∧ pw_block_size w = bs;
  fl_total : pw_item_count w = Z.of_nat (length l);
  fl_keys : pw_block_keys w = leading <$> drop 1 G;
  fl_fed : fed l (pw_bloom_filter w);
}.

Lemma flush_block w l gs g : written w l gs g → ∃ w' G, PersistentLayerWriter.write_block w (length (pw_buf w)) = Ok w' ∧ flushed w' l G ∧
  pw_bloom_filter w' = pw_bloom_filter w.
Proof.
  intros [Hl He Hfull Hg Hout Hw Hbuf Hc Ht Ho Hk Hfed _]. destruct (decide (g = [])) as [->|Hn].
  - specialize (He eq_refl) as ->. exists w, []. unfold PersistentLayerWriter.write_block. rewrite Hc. split; [done|]. split; [|done]. by split.
  - specialize (Hg Hn). rewrite Hbuf. rewrite (write_block_spec w g []); [|done|apply Hw|by rewrite app_nil_r|done|done]. eexists _, (gs ++ [g]). split; [done|]. split; [|done].
    split; pw_simpl; [| | |by destruct Hw|done|done|done].
    + rewrite concat_app, Hl. cbn. by rewrite app_nil_r.
    + apply Forall_app. split; [done|by constructor].
    + rewrite Hout, fmap_app, concat_app, <- app_assoc. cbn. by rewrite app_nil_r.
Qed.

Lemma flushed_data_blocks w l G : flushed w l G → PersistentLayerWriter.data_blocks w = Z.of_nat (length G).
Proof.
  intros [Hl Hf _ _ Ht Hk _]. unfold PersistentLayerWriter.data_blocks. rewrite Ht, Hk, length_fmap, length_drop.
  destruct G as [|g G']; [by subst l|]. apply Forall_cons in Hf as [[Hn _ _] _]. destruct (Z.eqb_spec (Z.of_nat (length l)) 0) as [He|He].
  - destruct l; [|done]. cbn in Hl. apply app_eq_nil in Hl as [Hg _]. done.
  - cbn [length]. lia.
Qed.
End write.
