(* ===== verification/PersistentOpen.v ===== *)
(** * Opening a layer file that was written

    What [PersistentLayerWriter::flush] puts after the data, and that
    [PersistentLayer::open] reads it back: the layer serves the items written. *)

From S2P Require Import Prelude Round Bytes Checksum Journal LsmTypes MergeProps MergeQuery BloomFilter PersistentLayer PersistentBlocks PersistentRead PersistentSeek PersistentWrite.

Lemma resize_ge (l : list Z) n : Z.of_nat (length l) ≤ n → resize l n = l ++ replicate (Z.to_nat n - length l) 0.
Proof. intros Hl. unfold resize. by rewrite take_ge by lia. Qed.

Lemma length_resize (l : list Z) n : length (resize l n) = Z.to_nat n.
Proof. unfold resize. rewrite length_app, length_take, length_replicate. lia. Qed.

Section flush.
Context {K V : Type} `{LayerCodec K V, FileCodec, SortByU64 K, FuzzyHash K, FilterEstimates}.
Context (bs : Z) (hdr : list Z) (Hbs : 512 ≤ bs ≤ 65536).
Implicit Types (w : PersistentLayerWriter) (l : list (Item K V)) (G : list (list (Item K V))) (f : BloomFilterWriter).

(** ** What comes after the data *)

(** The size of the filter in the file: few blocks have none. *)
Definition stored G f : Z :=
  if Z.of_nat (length G) <? MINIMUM_DATA_BLOCKS_FOR_BLOOM_FILTER then 0 else BloomFilterWriter.serialized_size f.
Definition info_of l G f : LayerInfo :=
  mkInfo (Z.of_nat (length l)) (Z.of_nat (length G)) (stored G f) (fw_seed f) (Z.of_nat (BloomFilterWriter.num_nonces f)).
Definition ending l G f : list Z := info_bytes (info_of l G f) ++ le_split 8 (Z.of_nat (length (info_bytes (info_of l G f)))).

Lemma filter_length f : usable f → Z.of_nat (length (BloomFilterWriter.write f)) = BloomFilterWriter.serialized_size f.
Proof.
  intros [_ [n Hn]]. destruct (from_to_bytes n _ Hn) as [_ Hl]. unfold BloomFilterWriter.write, BloomFilterWriter.serialized_size.
  rewrite Hl, Hn, Nat2Z.inj_mul. change (Z.of_nat 8) with 8. rewrite Z.mul_comm, Z.div_mul by lia. done.
Qed.

(** The filter takes [n] blocks. *)
Record filter_area G f (bloom : list Z) (n : nat) : Prop := {
  fa_length : Z.of_nat (length bloom) = Z.of_nat n * bs;
  fa_blocks : stored G f ≤ Z.of_nat n * bs < stored G f + bs;
  fa_bytes : stored G f ≠ 0 → ∃ rest, bloom = BloomFilterWriter.write f ++ rest ∧ Z.of_nat (length (BloomFilterWriter.write f)) = stored G f;
}.

Lemma write_bloom_spec w l G : flushed bs bs hdr w l G → stored G (pw_bloom_filter w) ≤ MAX_BLOOM_FILTER_SIZE →
  ∃ bloom n, PersistentLayerWriter.write_bloom_filter w = Ok (bloom, stored G (pw_bloom_filter w)) ∧ filter_area G (pw_bloom_filter w) bloom n.
Proof.
  intros Hw Hmax. pose proof (fe_usable _ _ (fl_fed _ _ _ _ _ _ Hw)) as Hu. pose proof (filter_length _ Hu) as Hlen. set (f := pw_bloom_filter w) in *.
  unfold PersistentLayerWriter.write_bloom_filter. rewrite (flushed_data_blocks _ _ _ _ _ _ Hw). fold f. unfold stored in *.
  destruct (Z.of_nat (length G) <? MINIMUM_DATA_BLOCKS_FOR_BLOOM_FILTER) eqn:Hmin.
  - exists [], 0%nat. split; [done|]. split; unfold stored; rewrite ?Hmin; [done|lia|done].
  - set (s := BloomFilterWriter.serialized_size f) in *. unfold MAX_BLOOM_FILTER_SIZE in Hmax. destruct (fl_sizes _ _ _ _ _ _ Hw) as [_ ->].
    pose proof (round_up_eq s bs) as Hr. rewrite Hr by (change u64_max with 18446744073709551615; lia). res_simpl. set (q := (s + (bs - 1)) / bs) in *.
    assert (s ≤ bs * q < s + bs) as Hq. { pose proof (Z.div_mod (s + (bs - 1)) bs ltac:(lia)). pose proof (Z.mod_pos_bound (s + (bs - 1)) bs ltac:(lia)). unfold q. lia. }
    assert (0 ≤ q) by nia. eexists _, (Z.to_nat q). split; [done|]. split; unfold stored; rewrite ?Hmin; fold s.
    + rewrite length_resize. nia.
    + nia.
    + intros _. rewrite resize_ge by lia. eexists. split; [done|]. done.
Qed.

Lemma write_info_spec w l G tl : flushed bs bs hdr w l G → 0 ≤ tl → Z.of_nat (length (ending l G (pw_bloom_filter w))) ≤ bs →
  ∃ pad c, PersistentLayerWriter.write_info w (Z.of_nat (length G)) (stored G (pw_bloom_filter w)) tl = Ok (pad ++ ending l G (pw_bloom_filter w)) ∧
    0 < c ∧ tl + Z.of_nat (length (pad ++ ending l G (pw_bloom_filter w))) = c * bs ∧ c * bs ≤ tl + 2 * bs.
Proof.
  intros Hw Htl Hlen. unfold PersistentLayerWriter.write_info. destruct (fl_sizes _ _ _ _ _ _ Hw) as [-> _]. rewrite (fl_total _ _ _ _ _ _ Hw).
  change (mkInfo _ _ _ _ _) with (info_of l G (pw_bloom_filter w)). fold (ending l G (pw_bloom_filter w)). set (e := ending l G (pw_bloom_filter w)) in *.
  rewrite u64_rem_ok by lia. res_simpl. pose proof (Z.mod_pos_bound tl bs ltac:(lia)) as Hm. pose proof (Z.div_mod tl bs ltac:(lia)) as Hd.
  pose proof (Z.div_pos tl bs ltac:(lia) ltac:(lia)). destruct (Z.ltb_spec (bs - tl `mod` bs) (Z.of_nat (length e))); rewrite u64_sub_ok by lia; res_simpl.
  - eexists _, (tl / bs + 2). split; [done|]. split_and!; [lia|rewrite length_app, length_replicate; lia|lia].
  - eexists _, (tl / bs + 1). split; [done|]. split_and!; [lia|rewrite length_app, length_replicate; lia|lia].
Qed.

Definition table_bytes G : list Z := concat (le_split 8 <$> (leading <$> drop 1 G)).

(** The bytes of a file, [n] of its blocks for the filter and [c] at the end. *)
Record layer_file (F : list Z) l G f (bloom : list Z) (n : nat) (pad : list Z) (c : Z) : Prop := {
  lf_bytes : F = hdr ++ concat (block bs <$> G) ++ bloom ++ table_bytes G ++ pad ++ ending l G f;
  lf_area : filter_area G f bloom n;
  lf_pad : 0 < c ∧ Z.of_nat (length (table_bytes G ++ pad ++ ending l G f)) = c * bs;
  lf_bound : c * bs ≤ Z.of_nat (length (table_bytes G)) + 2 * bs;
}.

Lemma flush_spec f0 w l gs g : written bs bs hdr f0 w l gs g →
  (∀ G, Forall (fits bs) G → concat G = l → stored G (pw_bloom_filter w) ≤ MAX_BLOOM_FILTER_SIZE ∧ Z.of_nat (length (ending l G (pw_bloom_filter w))) ≤ bs) →
  ∃ F G bloom n pad c, PersistentLayerWriter.flush w = Ok F ∧ layer_file F l G (pw_bloom_filter w) bloom n pad c ∧
    concat G = l ∧ Forall (fits bs) G ∧ fed l (pw_bloom_filter w).
Proof.
  intros Hwr Hok. unfold PersistentLayerWriter.flush. destruct (flush_block bs bs hdr f0 Hbs w l gs g Hwr) as (w' & G & -> & Hfl & Hf). res_simpl. destruct (Hok G) as [Hs He]; [apply Hfl..|].
  rewrite <- Hf in *. rewrite (flushed_data_blocks _ _ _ _ _ _ Hfl). destruct (write_bloom_spec w' l G Hfl Hs) as (bloom & n & -> & Ha). res_simpl.
  assert (PersistentLayerWriter.write_seek_table w' = table_bytes G) as -> by (unfold PersistentLayerWriter.write_seek_table, table_bytes; by rewrite (fl_keys _ _ _ _ _ _ Hfl)).
  destruct (write_info_spec w' l G (Z.of_nat (length (table_bytes G))) Hfl ltac:(lia) He) as (pad & c & -> & Hc & Hl & Hle). res_simpl.
  eexists _, G, bloom, n, pad, c. split; [done|]. split; [|split_and!; apply Hfl]. split; [by rewrite (fl_out _ _ _ _ _ _ Hfl), <- !app_assoc|done| |done].
  split; [done|]. rewrite length_app. lia.
Qed.

Lemma layer_file_length F l G f bloom n pad c : layer_file F l G f bloom n pad c → Forall (fits bs) G → Z.of_nat (length hdr) = bs →
  Z.of_nat (length F) = (1 + Z.of_nat (length G) + Z.of_nat n + c) * bs.
Proof.
  intros [-> [Ha _ _] [Hc Hp] _] Hf Hh. rewrite !length_app in *. rewrite (length_blocks _ (Z.to_nat bs)); [|].
  2: { apply Forall_fmap. eapply Forall_impl; [exact Hf|]. intros g' Hg'. unfold compose. pose proof (block_length bs Hbs g' Hg'). lia. }
  rewrite length_fmap. nia.
Qed.
End flush.

(** ** Reading it back *)
Record info_u64 (i : LayerInfo) : Prop := {
  iu_items : is_u64 (num_items i);
  iu_blocks : is_u64 (num_data_blocks i);
  iu_size : is_u64 (bloom_filter_size_bytes i);
  iu_seed : is_u64 (bloom_filter_seed i);
  iu_nonces : is_u64 (bloom_filter_num_nonces i);
}.

(** The header and the info are deserialized as they were serialized. *)
Class LawfulFile `{FileCodec} : Prop := {
  header_decodes : ∀ n rest, is_u64 n → header_decode (header_bytes (mkHeader PERSISTENT_LAYER_MAGIC n) ++ rest) LATEST_VERSION =
    Decoded (mkHeader PERSISTENT_LAYER_MAGIC n) (Z.of_nat (length (header_bytes (mkHeader PERSISTENT_LAYER_MAGIC n))));
  info_decodes : ∀ i rest, info_u64 i → info_decode (info_bytes i ++ rest) LATEST_VERSION = Decoded i (Z.of_nat (length (info_bytes i)));
}.

(** The first block. *)
Definition header_block `{FileCodec} (bs : Z) : list Z :=
  resize (concat (Version.serialize_into LATEST_VERSION) ++ header_bytes (mkHeader PERSISTENT_LAYER_MAGIC bs)) bs.

Lemma read_at h (a b c : list Z) off n : oh_bytes h = a ++ b ++ c → Z.of_nat (length a) = off → Z.of_nat (length b) = n → read h off n = b.
Proof.
  intros Hb Ha Hn. unfold read. rewrite Hb, <- Ha, <- Hn, !Nat2Z.id, drop_app_length. apply take_app_length.
Qed.

Lemma resize_same (l : list Z) n : Z.of_nat (length l) = n → resize l n = l.
Proof. intros Hl. rewrite resize_ge by lia. replace (Z.to_nat n - length l)%nat with 0%nat by lia. apply app_nil_r. Qed.

Section open.
Context `{FileCodec, !LawfulFile}.
Context (bs : Z) (Hbs : 512 ≤ bs ≤ 65536) (Hpow : PersistentLayer.is_power_of_two bs = true) (h : ObjectHandle) (Hhb : oh_block_size h = bs).

Lemma open_header_spec rest : oh_bytes h = header_block bs ++ rest →
  Z.of_nat (length (concat (Version.serialize_into LATEST_VERSION) ++ header_bytes (mkHeader PERSISTENT_LAYER_MAGIC bs))) ≤ bs →
  PersistentLayer.open_header h = Ok (mkHeader PERSISTENT_LAYER_MAGIC bs, LATEST_VERSION).
Proof.
  intros Hb Hl. unfold PersistentLayer.open_header. rewrite Hhb. assert (Z.of_nat (length (header_block bs)) = bs) as Hbl by (unfold header_block; rewrite length_resize; lia).
  assert (read_buffer h 0 bs = header_block bs) as ->.
  { unfold read_buffer. rewrite (read_at h [] (header_block bs) rest) by done. by apply resize_same. }
  unfold header_block. rewrite resize_ge by done. set (zs := replicate _ 0). rewrite <- app_assoc.
  set (r := header_bytes (mkHeader PERSISTENT_LAYER_MAGIC bs) ++ zs).
  assert (Version.deserialize_from (concat (Version.serialize_into LATEST_VERSION) ++ r) = Decoded LATEST_VERSION 4) as ->.
  { unfold Version.deserialize_from. rewrite (proj2 (Z.leb_le _ _)); [vm_compute; done|]. rewrite length_app. change (length (concat (Version.serialize_into LATEST_VERSION))) with 4%nat. lia. }
  cbn [decode_res]. res_simpl. change (PersistentLayer.version_le LATEST_VERSION LATEST_VERSION) with true. res_simpl.
  change (drop (Z.to_nat 4) (concat (Version.serialize_into LATEST_VERSION) ++ r)) with r. unfold r. rewrite header_decodes by (unfold is_u64; change u64_max with 18446744073709551615; lia). cbn [decode_res]. res_simpl. cbn [lh_magic lh_block_size].
  rewrite bool_decide_true by done. cbn [negb]. rewrite Hpow. destruct (Z.eqb_spec bs 0); [lia|]. cbn [orb negb]. destruct (Z.ltb_spec 0 bs); [|lia].
  unfold MAX_BLOCK_SIZE. destruct (Z.leb_spec bs 65536); [|lia]. res_simpl. rewrite u64_rem_ok, Z.mod_same by lia. done.
Qed.

Lemma open_info_spec a i : let e := info_bytes i ++ le_split 8 (Z.of_nat (length (info_bytes i))) in
  oh_bytes h = a ++ e → Z.of_nat (length e) ≤ bs → 2 * bs ≤ get_size h → info_u64 i → PersistentLayer.open_info h bs LATEST_VERSION = Ok i.
Proof.
  intros e Hb He Hs Hiu. unfold PersistentLayer.open_info, MINIMUM_LAYER_FILE_BLOCKS. set (n := Z.of_nat (length (info_bytes i))) in *.
  assert (Z.of_nat (length e) = n + 8) as Hel by (unfold e; rewrite length_app, length_le_split; lia).
  assert (get_size h = Z.of_nat (length a) + (n + 8)) as Hsz by (unfold get_size; rewrite Hb, length_app; lia).
  destruct (Z.ltb_spec (get_size h) (2 * bs)); [lia|]. destruct (Z.ltb_spec (get_size h) bs); [lia|]. rewrite Hhb, Z.leb_refl. res_simpl.
  assert (read_buffer h (get_size h - bs) bs = drop (Z.to_nat (get_size h - bs)) a ++ e) as ->.
  { unfold read_buffer. rewrite (read_at h (take (Z.to_nat (get_size h - bs)) a) (drop (Z.to_nat (get_size h - bs)) a ++ e) []).
    - apply resize_same. rewrite length_app, length_drop. lia.
    - by rewrite app_nil_r, app_assoc, take_drop.
    - rewrite length_take. lia.
    - rewrite length_app, length_drop. lia. }
  rewrite u64_sub_ok by lia. res_simpl. set (a' := drop _ a). assert (Z.of_nat (length a') = bs - (n + 8)) as Ha' by (unfold a'; rewrite length_drop; lia).
  assert (drop (Z.to_nat (bs - 8)) (a' ++ e) = le_split 8 n) as ->.
  { unfold e. rewrite app_assoc. replace (Z.to_nat (bs - 8)) with (length (a' ++ info_bytes i)) by (rewrite length_app; lia). apply drop_app_length. }
  rewrite take_ge by (rewrite length_le_split; lia). rewrite le_combine_split_id by (change (256 ^ Z.of_nat 8) with 18446744073709551616; lia).
  rewrite u64_add_ok by (change u64_max with 18446744073709551615; lia). res_simpl. destruct (Z.ltb_spec bs (8 + n)); [lia|].
  replace (Z.to_nat (bs - (8 + n))) with (length a') by lia. rewrite drop_app_length. unfold e. by rewrite info_decodes.
Qed.

Lemma load_bloom_spec a bloom c f i : oh_bytes h = a ++ bloom ++ c → bloom_filter_seed i = fw_seed f →
  bloom_filter_num_nonces i = Z.of_nat (BloomFilterWriter.num_nonces f) → bloom_filter_size_bytes i ≤ MAX_BLOOM_FILTER_SIZE →
  (bloom_filter_size_bytes i ≠ 0 → ∃ rest, bloom = BloomFilterWriter.write f ++ rest ∧ Z.of_nat (length (BloomFilterWriter.write f)) = bloom_filter_size_bytes i) →
  PersistentLayer.load_bloom_filter h (Z.of_nat (length a)) i =
    Ok (if bloom_filter_size_bytes i =? 0 then None
        else Some (BloomFilterReader.read (BloomFilterWriter.write f) (fw_seed f) (BloomFilterWriter.num_nonces f))).
Proof.
  intros Hb Hs Hn Hmax Hbl. unfold PersistentLayer.load_bloom_filter. destruct (Z.eqb_spec (bloom_filter_size_bytes i) 0) as [|Hne]; [done|].
  destruct (Hbl Hne) as (rest & -> & Hl). rewrite <- app_assoc in Hb. destruct (Z.ltb_spec MAX_BLOOM_FILTER_SIZE (bloom_filter_size_bytes i)); [lia|].
  unfold read_buffer. rewrite (read_at h a (BloomFilterWriter.write f) (rest ++ c)) by done. rewrite resize_same by done. by rewrite Hs, Hn, Nat2Z.id.
Qed.
End open.

Section table.
Context {K V : Type} `{LayerCodec K V, OrdUpperBound K, SortByU64 K, !LawfulSort K}.
Implicit Types (G : list (list (Item K V))).

Lemma chunks_table (ks : list Z) : chunks 8 (concat (le_split 8 <$> ks)) = le_split 8 <$> ks.
Proof.
  induction ks as [|x ks IH]; [done|]. cbn [fmap list_fmap concat]. rewrite chunks_app by (rewrite ?length_le_split; lia). f_equal. exact IH.
Qed.

(** The first integers of blocks do not descend. *)
Lemma seek_entries_spec G prev : StronglySorted upper_lt (concat G) → Forall (λ g, g ≠ []) G → (∀ x, x ∈ concat G → prev ≤ get_leading_u64 (key x) ≤ u64_max) → 0 ≤ prev →
  PersistentLayer.seek_entries prev (le_split 8 <$> (leading <$> G)) = Ok (leading <$> G).
Proof.
  revert prev. induction G as [|g G IH]; intros prev Hs Hn Hp H0p; [done|]. apply Forall_cons in Hn as [Hg Hn]. destruct g as [|x g]; [done|].
  cbn [fmap list_fmap PersistentLayer.seek_entries]. change (leading (x :: g)) with (get_leading_u64 (key x)). pose proof (Hp x ltac:(by left)) as [Hx0 Hmax].
  rewrite le_combine_split_id by (change (256 ^ Z.of_nat 8) with (u64_max + 1); lia).
  destruct (Z.ltb_spec (get_leading_u64 (key x)) prev); [lia|].
  change (concat ((x :: g) :: G)) with (x :: g ++ concat G) in Hs. apply StronglySorted_cons in Hs as [Hx Hs]. rewrite Forall_forall in Hx.
  rewrite (IH (get_leading_u64 (key x))); [done|by apply StronglySorted_app in Hs as (_ & _ & ?)|done| |lia].
  intros y Hy. split; [|apply Hp; right; apply elem_of_app; by right]. apply leading_mono. assert (upper_lt x y) as Hxy by (apply Hx; apply elem_of_app; by right). unfold upper_lt in Hxy. by rewrite Hxy.
Qed.

Lemma load_table_spec h a c G : oh_bytes h = a ++ table_bytes G ++ c → StronglySorted upper_lt (concat G) → Forall (λ g, g ≠ []) G →
  (∀ x, x ∈ concat G → is_u64 (get_leading_u64 (key x))) → Z.of_nat (length G) ≤ 8388608 → PersistentLayer.load_seek_table h (Z.of_nat (length a)) (Z.of_nat (length G)) = Ok (table G).
Proof.
  intros Hb Hs Hn Hu Hmax. unfold PersistentLayer.load_seek_table, PersistentLayer.seek_table_size. destruct G as [|g0 [|g1 G]]; [done..|].
  set (G1 := g1 :: G) in *. assert (Z.max 0 (Z.of_nat (length (g0 :: G1)) - 1) * 8 = Z.of_nat (length (table_bytes (g0 :: G1)))) as ->.
  { unfold table_bytes. rewrite concat_le_length, length_fmap, length_drop. lia. }
  assert (Z.of_nat (length (table_bytes (g0 :: G1))) = 8 * Z.of_nat (length G1)) as Hl by (unfold table_bytes; rewrite concat_le_length, length_fmap, length_drop; cbn [length]; lia).
  assert (0 < length G1)%nat by (cbn; lia). destruct (Z.eqb_spec (Z.of_nat (length (table_bytes (g0 :: G1)))) 0); [lia|].
  unfold MAX_SEEK_TABLE_SIZE. destruct (Z.ltb_spec (64 * 1024 * 1024) (Z.of_nat (length (table_bytes (g0 :: G1))))); [cbn [length] in Hmax; lia|].
  rewrite (read_at h a (table_bytes (g0 :: G1)) c) by done. rewrite Z.eqb_refl. res_simpl. unfold table_bytes. rewrite chunks_table. change (drop 1 (g0 :: G1)) with G1.
  apply Forall_cons in Hn as [_ Hn]. cbn [concat] in Hs. apply StronglySorted_app in Hs as (_ & _ & Hs). rewrite (seek_entries_spec G1 0 Hs Hn).
  - done.
  - intros x Hx. apply Hu. cbn [concat]. apply elem_of_app. by right.
  - lia.
Qed.
End table.

(** ** A file that was written opens *)

(** A key that is looked up is in one bucket. *)
Class PointHash (K : Type) `{PointKey K, FuzzyHash K} := point_hash (k : K) : point_key k → ∃ h, fuzzy_hash k = Ok [h].

Section roundtrip.
Context {K V : Type} `{LayerCodec K V, FileCodec, !LawfulFile, OrdLowerBound K, OrdUpperBound K, !TotalCmp (cmp_lower_bound (K := K)), !TotalCmp (cmp_upper_bound (K := K))}.
Context `{SortByU64 K, !LawfulSort K, PointKey K, FuzzyHash K, !PointHash K, FilterEstimates}.
Context (bs : Z) (Hbs : 512 ≤ bs ≤ 65536) (Hpow : PersistentLayer.is_power_of_two bs = true).
Context (Hheader : Z.of_nat (length (concat (Version.serialize_into LATEST_VERSION) ++ header_bytes (mkHeader PERSISTENT_LAYER_MAGIC bs))) ≤ bs).
Context (Hinfo : ∀ i, info_u64 i → Z.of_nat (length (info_bytes i)) + 8 ≤ bs).
Implicit Types (l : list (Item K V)) (G : list (list (Item K V))).

(** Keys that are equal to the key of an item have the same hashes. *)
Definition hashable (x : Item K V) : Prop := ∃ h hs,
  ∀ k, cmp_lower_bound (key x) k = Eq → cmp_upper_bound (key x) k = Eq → fuzzy_hash k = Ok (h :: hs).

Lemma pow_divides : (bs | CHUNK_SIZE).
Proof.
  unfold PersistentLayer.is_power_of_two in Hpow. apply andb_true_iff in Hpow as [_ Hb%Z.eqb_eq]. assert (Z.log2 bs ≤ 17) as Hl by (change 17 with (Z.log2 131072); apply Z.log2_le_mono; lia).
  exists (2 ^ (17 - Z.log2 bs)). rewrite Hb at 2. rewrite <- Z.pow_add_r by (pose proof (Z.log2_nonneg bs); lia). replace (17 - Z.log2 bs + Z.log2 bs) with 17 by lia. done.
Qed.

Lemma write_items l w : written bs bs (header_block bs) (pw_bloom_filter w) w [] [] [] → Forall (writable bs) l →
  ∃ w' gs g, foldm PersistentLayerWriter.write w l = Ok w' ∧ written bs bs (header_block bs) (pw_bloom_filter w) w' l gs g.
Proof.
  set (f0 := pw_bloom_filter w). intros Hw. induction l as [|x l IH] using rev_ind; intros Hl; [by exists w, [], []|].
  apply Forall_app in Hl as [Hl [Hx _]%Forall_cons]. destruct (IH Hl) as (w1 & gs & g & He & Hw1).
  destruct (write_spec bs bs (header_block bs) f0 Hbs w1 x l gs g Hw1 Hx) as (w2 & gs2 & g2 & He2 & Hw2 & _). exists w2, gs2, g2. split; [|done].
  rewrite foldm_app, He. res_simpl. cbn [foldm]. by rewrite He2.
Qed.

Lemma new_written n nonce : ∃ w, PersistentLayerWriter.new bs n bs nonce = Ok w ∧ pw_bloom_filter w = BloomFilterWriter.new nonce n ∧
  written (V := V) bs bs (header_block bs) (pw_bloom_filter w) w [] [] [].
Proof.
  unfold PersistentLayerWriter.new, MAX_BLOCK_SIZE, MIN_BLOCK_SIZE. destruct (Z.leb_spec bs 65536); [|lia]. destruct (Z.leb_spec 512 bs); [|lia]. res_simpl.
  rewrite (proj2 (Z.leb_le _ _) Hheader). res_simpl. eexists. split; [done|]. split; [done|]. split; pw_simpl; try done; [by rewrite app_nil_r|apply fed_new].
Qed.

(** A filter that the file can have. *)
Record storable f : Prop := {
  sf_size : BloomFilterWriter.serialized_size f ≤ MAX_BLOOM_FILTER_SIZE;
  sf_seed : is_u64 (fw_seed f);
  sf_nonces : Z.of_nat (BloomFilterWriter.num_nonces f) ≤ u64_max;
}.

Lemma extends_storable f f' : extends f f' → storable f → storable f'.
Proof.
  intros ([Hl _] & Hs & Hn) [H1s H2s H3s]. split; unfold BloomFilterWriter.serialized_size, BloomFilterWriter.num_nonces in *; by rewrite ?Hl, ?Hs, ?Hn.
Qed.

Lemma stored_bound G f : storable f → 0 ≤ stored G f ≤ MAX_BLOOM_FILTER_SIZE.
Proof.
  intros [Hs _ _]. unfold stored. destruct (_ <? _); [done|]. split; [|done]. unfold BloomFilterWriter.serialized_size. apply Z.div_pos; lia.
Qed.

Lemma info_of_u64 l G f : storable f → Z.of_nat (length l) ≤ 8388608 → Z.of_nat (length G) ≤ 8388608 → info_u64 (info_of l G f).
Proof.
  intros Hf Hl HG. pose proof (stored_bound G f Hf) as Hs. destruct Hf as [_ Hsd Hn]. unfold MAX_BLOOM_FILTER_SIZE in Hs.
  split; unfold is_u64; cbn [info_of num_items num_data_blocks bloom_filter_size_bytes bloom_filter_seed bloom_filter_num_nonces]; try done.
  all: assert (u64_max = 18446744073709551615) by done; lia.
Qed.

(** The layer that is opened. *)
Definition opened F l G f : PersistentLayer :=
  mkPersistent (mkHandle F bs) LATEST_VERSION bs (Z.of_nat (length G) * bs) (table G) (Some (Z.of_nat (length l)))
    (if stored G f =? 0 then None else Some (BloomFilterReader.read (BloomFilterWriter.write f) (fw_seed f) (BloomFilterWriter.num_nonces f))).

Lemma groups_nonempty G : Forall (fits bs) G → Forall (λ g, g ≠ []) G.
Proof. intros Hf. eapply Forall_impl; [exact Hf|]. by intros g []. Qed.

Lemma groups_count G : Forall (fits bs) G → (length G ≤ length (concat G))%nat.
Proof.
  induction 1 as [|g G [Hn _ _] _ IH]; [done|]. cbn [concat length]. rewrite length_app. destruct g; [done|]. cbn [length]. lia.
Qed.

Lemma file_bounded F l G f bloom n pad c : layer_file bs (header_block bs) F l G f bloom n pad c → Forall (fits bs) G → stored G f ≤ MAX_BLOOM_FILTER_SIZE →
  Z.of_nat (length G) ≤ 8388608 → Z.of_nat (length F) = (1 + Z.of_nat (length G) + Z.of_nat n + c) * bs ∧ Z.of_nat (length F) ≤ 1152921504606846976.
Proof.
  intros Hlf Hf Hs HG. assert (Z.of_nat (length (header_block bs)) = bs) as Hh by (unfold header_block; rewrite length_resize; lia).
  pose proof (layer_file_length bs (header_block bs) Hbs F l G f bloom n pad c Hlf Hf Hh) as HF. split; [done|]. rewrite HF. pose proof (lf_bound _ _ _ _ _ _ _ _ _ _ Hlf) as Hc.
  unfold table_bytes in Hc. rewrite concat_le_length, length_fmap, length_drop in Hc. pose proof (fa_blocks _ _ _ _ _ (lf_area _ _ _ _ _ _ _ _ _ _ Hlf)). unfold MAX_BLOOM_FILTER_SIZE in Hs. nia.
Qed.

Lemma filter_blocks G f n : stored G f ≤ Z.of_nat n * bs < stored G f + bs → stored G f ≤ MAX_BLOOM_FILTER_SIZE →
  round_up (stored G f) bs = Ok (Some (bs * Z.of_nat n)).
Proof.
  unfold MAX_BLOOM_FILTER_SIZE. intros Hn Hs. assert (0 ≤ stored G f) as H0s.
  { unfold stored, BloomFilterWriter.serialized_size. destruct (_ <? _); [lia|]. apply Z.div_pos; lia. }
  rewrite round_up_eq by (change u64_max with 18446744073709551615; lia). do 3 f_equal. symmetry. apply Z.div_unique_pos with (stored G f + (bs - 1) - bs * Z.of_nat n); lia.
Qed.

Lemma open_spec F l G f bloom n pad c : layer_file bs (header_block bs) F l G f bloom n pad c → concat G = l → Forall (fits bs) G →
  StronglySorted upper_lt l → (∀ x, x ∈ l → is_u64 (get_leading_u64 (key x))) → storable f →
  Z.of_nat (length l) ≤ 8388608 → PersistentLayer.open (mkHandle F bs) = Ok (opened F l G f).
Proof.
  intros Hlf Hl Hf Hsort Hul Hst Hlmax. destruct (stored_bound G f Hst) as [_ Hs].
  assert (Z.of_nat (length G) ≤ 8388608) as HG by (pose proof (groups_count G Hf); rewrite Hl in *; lia). pose proof (info_of_u64 l G f Hst Hlmax HG) as Hiu. destruct (file_bounded F l G f bloom n pad c Hlf Hf Hs HG) as [Hlen Hmax]. pose proof Hlf as [HF [Ha1 Ha2 Ha3] [Hc Hpad] _].
  assert (Z.of_nat (length (header_block bs)) = bs) as Hh by (unfold header_block; rewrite length_resize; lia).
  assert (Z.of_nat (length (concat (block bs <$> G))) = Z.of_nat (length G) * bs) as Hd.
  { rewrite !length_app in Hpad. rewrite HF, !length_app in Hlen. lia. }
  unfold PersistentLayer.open. rewrite (open_header_spec bs Hbs Hpow (mkHandle F bs) eq_refl _ HF Hheader). res_simpl. cbn [lh_block_size].
  rewrite (open_info_spec bs Hbs (mkHandle F bs) eq_refl (header_block bs ++ concat (block bs <$> G) ++ bloom ++ table_bytes G ++ pad) (info_of l G f)).
  2: { cbn [oh_bytes]. rewrite HF. unfold ending. by rewrite <- !app_assoc. }
  2: { rewrite length_app, length_le_split. specialize (Hinfo _ Hiu). lia. }
  2: { unfold get_size. cbn [oh_bytes]. rewrite Hlen. nia. }
  2: done.
  res_simpl. cbn [num_items num_data_blocks bloom_filter_size_bytes info_of].
  assert ((Z.of_nat (length l) =? 0) && (0 <? Z.of_nat (length G)) = false) as ->.
  { pose proof (groups_count G Hf) as Hgc. rewrite Hl in Hgc. destruct (Z.eqb_spec (Z.of_nat (length l)) 0); [|done]. destruct (Z.ltb_spec 0 (Z.of_nat (length G))); [lia|done]. }
  unfold get_size at 1. cbn [oh_bytes]. rewrite Hlen, u64_div_ok, Z.div_mul by lia. res_simpl.
  rewrite (filter_blocks G f n Ha2 Hs). res_simpl. cbn [default from_option id].
  rewrite u64_div_ok, (Z.mul_comm bs (Z.of_nat n)), Z.div_mul by lia. res_simpl.
  assert (u64_max = 18446744073709551615) as Hu by done.
  assert (1 + Z.of_nat (length G) + Z.of_nat n + c ≤ Z.of_nat (length F)) by nia. rewrite u64_add_ok by lia. res_simpl. unfold MINIMUM_LAYER_FILE_BLOCKS, NUM_HEADER_BLOCKS.
  destruct (Z.ltb_spec (1 + Z.of_nat (length G) + Z.of_nat n + c - 2) (Z.of_nat (length G) + Z.of_nat n)); [lia|].
  rewrite (u64_mul_ok bs (1 + Z.of_nat (length G))) by nia. res_simpl. replace (bs * (1 + Z.of_nat (length G))) with (Z.of_nat (length (header_block bs ++ concat (block bs <$> G)))) by (rewrite length_app; lia).
  rewrite (load_bloom_spec (mkHandle F bs) _ bloom (table_bytes G ++ pad ++ ending l G f) f) by (done || (cbn [oh_bytes]; by rewrite HF, <- !app_assoc)). res_simpl.
  rewrite (u64_mul_ok bs (1 + Z.of_nat (length G) + Z.of_nat n)) by nia. res_simpl.
  replace (bs * (1 + Z.of_nat (length G) + Z.of_nat n)) with (Z.of_nat (length (header_block bs ++ concat (block bs <$> G) ++ bloom))) by (rewrite !length_app; lia).
  rewrite (load_table_spec (mkHandle F bs) _ (pad ++ ending l G f) G); [|cbn [oh_bytes]; by rewrite HF, <- !app_assoc|by rewrite Hl|by apply groups_nonempty|by rewrite Hl|done].
  res_simpl. rewrite u64_mul_ok by nia. done.
Qed.

Lemma opened_laid_out F l G f bloom n pad c : layer_file bs (header_block bs) F l G f bloom n pad c → Forall (fits bs) G → stored G f ≤ MAX_BLOOM_FILTER_SIZE →
  Z.of_nat (length G) ≤ 8388608 → laid_out (opened F l G f) G.
Proof.
  intros Hlf Hf Hs HG. destruct (file_bounded F l G f bloom n pad c Hlf Hf Hs HG) as [Hlen Hmax]. pose proof Hlf as [HF _ [Hc _] _].
  split; cbn [opened pl_block_size pl_handle pl_data_size pl_version oh_bytes]; [done|apply pow_divides| |done|done| |done].
  - eexists _, _. split; [exact HF|]. unfold header_block. rewrite length_resize. lia.
  - change u64_max with 18446744073709551615. nia.
Qed.

(** The filter of the file lets every key of an item through. *)
Lemma opened_filter F l G f x k : fed l f → x ∈ l → hashable x → cmp_lower_bound (key x) k = Eq → cmp_upper_bound (key x) k = Eq →
  maybe_contains_key (PersistentLayer.layer (V := V) (opened F l G f)) k = Ok true.
Proof.
  intros [Hu Hn Hh] Hx (q & hs & Hxh) Hlo Hup. pose proof (Hxh (key x) (cmp_refl _ (key x)) (cmp_refl _ (key x))) as Hhs. cbn [maybe_contains_key PersistentLayer.layer]. unfold PersistentLayer.maybe_contains_key, opened. cbn [pl_bloom_filter].
  destruct (stored G f =? 0); [done|]. unfold BloomFilterReader.maybe_contains. rewrite (Hxh k Hlo Hup). res_simpl. cbn [BloomFilterReader.partitions_loop].
  rewrite (read_back f q Hu Hn). by rewrite (Hh x (q :: hs) q Hx Hhs ltac:(by left)).
Qed.

(** It answers for every key that is looked up. *)
Lemma opened_answers F l G f k : fed l f → point_key k → ∃ b, maybe_contains_key (PersistentLayer.layer (V := V) (opened F l G f)) k = Ok b.
Proof.
  intros [Hu Hn _] Hk. cbn [maybe_contains_key PersistentLayer.layer]. unfold PersistentLayer.maybe_contains_key, opened. cbn [pl_bloom_filter].
  destruct (stored G f =? 0); [by eexists|]. unfold BloomFilterReader.maybe_contains. destruct (point_hash k Hk) as [h ->]. res_simpl. cbn [BloomFilterReader.partitions_loop].
  rewrite (read_back f h Hu Hn). destruct Hu as [Hu _]. destruct (contains_loop_total _ (FxHasher.write_u64 FxHasher.default h) _ Hu) as [[] ->]; by eexists.
Qed.

(** Writing items gives a file that opens. *)
Lemma compact_opens l n nonce :
  StronglySorted upper_lt l → Forall (writable bs) l → Z.of_nat (length l) ≤ 8388608 → storable (BloomFilterWriter.new nonce n) →
  ∃ F G f, PersistentLayerWriter.compact_with_iterator (mkIter l None) n bs bs nonce = Ok F ∧ PersistentLayer.open (mkHandle F bs) = Ok (opened F l G f) ∧
    concat G = l ∧ laid_out (opened F l G f) G ∧ fed l f.
Proof.
  intros Hsort Hwr Hlen Hfs. unfold PersistentLayerWriter.compact_with_iterator. cbn [remaining fails]. destruct (new_written n nonce) as (w0 & -> & Hf0 & Hw0). res_simpl.
  destruct (write_items l w0 Hw0 Hwr) as (w & gs & g & -> & Hw). res_simpl. pose proof (wr_filter _ _ _ _ _ _ _ _ Hw) as Hfl. rewrite Hf0 in Hfl.
  pose proof (extends_storable _ _ Hfl Hfs) as Hst.
  destruct (flush_spec bs (header_block bs) Hbs _ w l gs g Hw) as (F & G & bloom & m & pad & c & -> & Hlf & Hl & Hf & Hfed).
  { intros G Hf Hl. split; [by apply stored_bound|]. pose proof (groups_count G Hf) as Hgc. rewrite Hl in Hgc. pose proof (Hinfo _ (info_of_u64 l G _ Hst Hlen ltac:(lia))).
    unfold ending. rewrite length_app, length_le_split. lia. }
  assert (Z.of_nat (length G) ≤ 8388608) as HG by (pose proof (groups_count G Hf); rewrite Hl in *; lia). destruct (stored_bound G _ Hst) as [_ Hsm].
  exists F, G, (pw_bloom_filter w). rewrite Forall_forall in Hwr. split_and!; [done| |done|by eapply opened_laid_out|done].
  eapply open_spec; [done..| |done|done]. intros x Hx. apply (Hwr x Hx).
Qed.

Lemma opened_serves F l G f : StronglySorted upper_lt l → Forall (writable bs) l → Forall hashable l → concat G = l →
  laid_out (opened F l G f) G → fed l f → serves (PersistentLayer.layer (opened F l G f)) l.
Proof.
  intros Hsort Hwr Hha Hl HL Hfed. rewrite Forall_forall in Hwr, Hha. split.
  - intros b. rewrite <- Hl in Hsort. rewrite (layer_seek (opened F l G f) G HL Hsort eq_refl), Hl; [done|]. intros x Hx. rewrite Hl in Hx. apply (Hwr x Hx).
  - intros x k Hx Hlo Hup. apply (opened_filter F l G _ x k Hfed Hx); [by apply Hha|done|done].
  - intros k. by apply opened_answers.
Qed.

(** C6: A file that was written from items in strictly ascending order opens,
    and the layer serves these items: a seek with any bound yields the items
    from the first that is at or above it, the filter denies none of their keys,
    and the length is that of the list. This is for blocks of a power of two
    from 512 to 65536 bytes that hold the header and the layer's information,
    and for at most 8388608 items, each of which is decoded as it was written,
    takes at most three bytes less than a block ([writable]), and has a key
    whose hashes are those of every key that compares equal to it ([hashable]);
    the filter for the expected number of items takes at most 64 MiB
    ([storable]). *)
Theorem layer_file_roundtrip l n nonce :
  StronglySorted upper_lt l → Forall (writable bs) l → Forall hashable l → Z.of_nat (length l) ≤ 8388608 →
  storable (BloomFilterWriter.new nonce n) →
  ∃ F pl, PersistentLayerWriter.compact_with_iterator (mkIter l None) n bs bs nonce = Ok F ∧ PersistentLayer.open (mkHandle F bs) = Ok pl ∧
    serves (PersistentLayer.layer pl) l ∧ estimated_len (PersistentLayer.layer (V := V) pl) = Precise (Z.of_nat (length l)).
Proof.
  intros Hsort Hwr Hha Hlen Hfs. destruct (compact_opens l n nonce Hsort Hwr Hlen Hfs) as (F & G & f & HF & Ho & Hl & HL & Hfed).
  exists F, (opened F l G f). split_and!; [done|done|by apply opened_serves|done].
Qed.
End roundtrip.

(** ** An item that fills a block *)
Section full_block.
Context {K V : Type} `{LayerCodec K V, FileCodec, !LawfulFile, SortByU64 K, FuzzyHash K, FilterEstimates}.
Context (bs : Z) (Hbs : 512 ≤ bs ≤ 65536) (Hpow : PersistentLayer.is_power_of_two bs = true).
Context (Hheader : Z.of_nat (length (concat (Version.serialize_into LATEST_VERSION) ++ header_bytes (mkHeader PERSISTENT_LAYER_MAGIC bs))) ≤ bs).
Context (x : Item K V) (Hx : Z.of_nat (length (ser x)) = bs - 2).

(** The writer after the item: it has the key of a block that was not written. *)
Lemma full_item_written w hs : pw_buf w = [] → pw_buf_item_count w = 0 → pw_item_count w = 0 → pw_block_offsets w = [] → pw_block_keys w = [] → pw_block_size w = bs → pw_writer_block_size w = bs →
  fed (V := V) [] (pw_bloom_filter w) → fuzzy_hash (key x) = Ok hs →
  ∃ f, extends (pw_bloom_filter w) f ∧ PersistentLayerWriter.write w x = Ok (mkLayerWriter (pw_out w) bs bs (ser x) 1 1 [] [get_leading_u64 (key x)] f).
Proof.
  destruct w as [out wb b buf bn n offs ks f]. pw_simpl. intros -> -> -> -> -> -> -> Hfed Hh. destruct (fed_insert [] f x hs Hfed Hh) as (f' & He & _ & Hext). exists f'. split; [done|].
  unfold PersistentLayerWriter.write. pw_simpl. cbn [length app]. fold (ser x). change (0 <? 0) with false. cbn [negb orb rassert]. res_simpl. cbn [length]. unfold PER_DATA_BLOCK_HEADER_SIZE. destruct (Z.ltb_spec (bs - 1) (2 + Z.of_nat (length (ser x)) + Z.of_nat 0 * PER_DATA_BLOCK_SEEK_ENTRY_SIZE)); [|lia].
  unfold PersistentLayerWriter.write_block. pw_simpl. change (0 =? 0) with true. cbn match. res_simpl. pw_simpl. rewrite He. res_simpl. done.
Qed.

(** The file has a header, one block of items and one for the rest. *)
Lemma full_item_flushed out f : let i := mkInfo 1 2 0 (BloomFilterWriter.seed f) (Z.of_nat (BloomFilterWriter.num_nonces f)) in
  Z.of_nat (length (info_bytes i)) + 16 ≤ bs →
  ∃ rest, PersistentLayerWriter.flush (mkLayerWriter out bs bs (ser x) 1 1 [] [get_leading_u64 (key x)] f) = Ok (out ++ rest ++ info_bytes i ++ le_split 8 (Z.of_nat (length (info_bytes i)))) ∧
    Z.of_nat (length (rest ++ info_bytes i ++ le_split 8 (Z.of_nat (length (info_bytes i))))) = 2 * bs.
Proof.
  intros i Hi. unfold PersistentLayerWriter.flush, PersistentLayerWriter.write_block. pw_simpl. change (1 =? 0) with false. cbn match. cbn [length fmap list_fmap concat]. unfold PER_DATA_BLOCK_HEADER_SIZE. change (Z.of_nat 0 * PER_DATA_BLOCK_SEEK_ENTRY_SIZE) with 0.
  rewrite Hx, (proj2 (Z.leb_le _ _)) by lia. cbn [rassert]. res_simpl. unfold PersistentLayerWriter.data_blocks, PersistentLayerWriter.write_bloom_filter, PersistentLayerWriter.data_blocks, PersistentLayerWriter.write_seek_table, PersistentLayerWriter.write_info. pw_simpl.
  change (1 =? 0) with false. cbn match. cbn [length]. change (Z.of_nat 1 + 1) with 2. change (2 <? MINIMUM_DATA_BLOCKS_FOR_BLOOM_FILTER) with true. cbn match. res_simpl. cbn [fmap list_fmap concat]. 
  rewrite !app_nil_r, length_le_split, u64_rem_ok by lia. res_simpl.
  change (Z.of_nat 8) with 8. rewrite (Z.mod_small 8) by lia. fold i. rewrite length_app, length_le_split. destruct (Z.ltb_spec (bs - 8) (Z.of_nat (length (info_bytes i) + 8))); [lia|]. rewrite u64_sub_ok by lia. res_simpl.
  match goal with |- context [(out ++ ?b) ++ [] ++ ?t ++ ?z ++ info_bytes i ++ _] => exists (b ++ t ++ z) end. split; [by rewrite <- !app_assoc|].
  rewrite !length_app, !length_replicate, !length_le_split, firstn_all. lia.
Qed.

(** C34: A layer of one item that leaves exactly the two bytes of a block's
    header free is written without an error, but the file counts a block that it
    does not have: it cannot be opened. The block size is a power of two from
    512 to 65536 and leaves room for the header, and for the layer's information
    with a seek table of one entry; the key has hashes and the filter takes at
    most 64 MiB. *)
Theorem first_item_fills_block n nonce hs : fuzzy_hash (key x) = Ok hs → storable (BloomFilterWriter.new nonce n) → (∀ i, info_u64 i → Z.of_nat (length (info_bytes i)) + 16 ≤ bs) →
  ∃ F, PersistentLayerWriter.compact_with_iterator (mkIter [x] None) n bs bs nonce = Ok F ∧ PersistentLayer.open (mkHandle F bs) = Err (Fxfs Inconsistent).
Proof.
  intros Hh Hst Hinfo. unfold PersistentLayerWriter.compact_with_iterator. cbn [remaining fails foldm]. destruct (new_written (V := V) bs Hbs Hheader n nonce) as (w & -> & Hf0 & Hw). res_simpl.
  destruct Hw as [_ _ _ _ Hout [Hwb Hb] Hbuf Hcnt Htot Hoff Hkeys Hfed _]. cbn in Hout, Hbuf, Hcnt, Htot, Hoff, Hkeys. rewrite app_nil_r in Hout.
  destruct (full_item_written w hs Hbuf Hcnt Htot Hoff) as (f & Hext & ->); [done..|]. res_simpl. rewrite Hf0 in Hext. pose proof (extends_storable _ _ Hext Hst) as [Hs1 Hs2 Hs3].
  set (i := mkInfo 1 2 0 (BloomFilterWriter.seed f) (Z.of_nat (BloomFilterWriter.num_nonces f))). assert (info_u64 i) as Hiu by (split; unfold is_u64; cbn [i num_items num_data_blocks bloom_filter_size_bytes bloom_filter_seed bloom_filter_num_nonces]; try done; lia).
  destruct (full_item_flushed (pw_out w) f (Hinfo i Hiu)) as (rest & -> & Hl). fold i in Hl |- *. specialize (Hinfo i Hiu). set (tail := info_bytes i ++ _) in *. eexists. split; [done|]. rewrite Hout.
  assert (Z.of_nat (length (header_block bs)) = bs) as Hhl by (unfold header_block; rewrite length_resize; lia). assert (get_size (mkHandle (header_block bs ++ rest ++ tail) bs) = 3 * bs) as Hsz by (unfold get_size; cbn [oh_bytes]; rewrite length_app; lia).
  unfold PersistentLayer.open. rewrite (open_header_spec bs Hbs Hpow (mkHandle _ bs) eq_refl (rest ++ tail) eq_refl Hheader). res_simpl. cbn [lh_block_size].
  rewrite (open_info_spec bs Hbs (mkHandle _ bs) eq_refl (header_block bs ++ rest) i); [|cbn [oh_bytes]; by rewrite <- app_assoc|rewrite length_app, length_le_split; lia|lia|done].
  res_simpl. cbn [num_items num_data_blocks bloom_filter_size_bytes i]. change ((1 =? 0) && (0 <? 2)) with false. cbn match. rewrite Hsz, u64_div_ok, Z.div_mul by lia. res_simpl. rewrite round_up_eq by (change u64_max with 18446744073709551615; lia). res_simpl.
  cbn [default from_option id]. rewrite Z.add_0_l, (Z.div_small (bs - 1)), Z.mul_0_r by lia. rewrite u64_div_ok, Z.div_0_l by lia. res_simpl. rewrite u64_add_ok by done. res_simpl. done.
Qed.
End full_block.
