(* ===== verification/TreeFlush.v ===== *)
(** * Flushing a tree

    [flush] of [fxfs/src/object_store/tree.rs]: which of the immutable layers
    are compacted, and the file that their merge is written to; with
    [layers_from_handles] of [lsm_tree.rs] and the major compaction of an
    object store. *)

From S2P Require Import Prelude Round Bytes Checksum Extent Journal LsmTypes ObjectRecord Merge BloomFilter PersistentLayer SkipList LsmTree.

(** A layer, the size of its file if it has one, and its version. *)
Record StoredLayer (K V : Type) : Type := mkStored {
  st_layer : Layer K V;
  st_size : option Z;
  st_version : Version;
}.
Arguments mkStored {K V} _ _ _.
Arguments st_layer {K V} _.
Arguments st_size {K V} _.
Arguments st_version {K V} _.

(** [journal::DEFAULT_RECLAIM_SIZE]. *)
Definition DEFAULT_RECLAIM_SIZE : Z := 262144.

(** [MajorCompactable::major_iter], on what the iterator yields. *)
Class MajorCompactable (K V : Type) := major_iter : list (Item K V) → res (list (Item K V)).

(** An object store leaves out tombstones and deleted extents. *)
Definition major_keeps (item : ObjectItem) : bool :=
  match value item with
  | VNone => false
  | VExtent ENone => false
  | _ => true
  end.
#[global] Instance object_major : MajorCompactable ObjectKey ObjectValue := λ l,
  it ← FilterLayerIterator.new major_keeps (mkIter l None);
  FilterLayerIterator.collect major_keeps (S (length l)) it.

Module Tree.
Section flush.
Context {K V : Type} `{OrdLowerBound K, OrdUpperBound K, LayerKey K, LayerCodec K V, FileCodec, SortByU64 K, FuzzyHash K, FilterEstimates, MajorCompactable K V}.
Implicit Types layers : list (StoredLayer K V).

(** The layers of files, [layers_from_handles]. *)
Definition from_file (pl : PersistentLayer) : StoredLayer K V :=
  mkStored (PersistentLayer.layer pl) (Some (get_size (pl_handle pl))) (pl_version pl).
Fixpoint layers_from_handles (handles : list ObjectHandle) : res (list (StoredLayer K V)) :=
  match handles with
  | [] => Ok []
  | h :: handles => pl ← PersistentLayer.open h; l ← layers_from_handles handles; Ok (from_file pl :: l)
  end.

(** [a < b] of versions. *)
Definition version_lt (a b : Version) : bool := negb (PersistentLayer.version_le b a).
(** [get_earliest_version]; the mutable layer has the latest. *)
Definition get_earliest_version layers : Version :=
  foldl (λ earliest l, if version_lt (st_version l) earliest then st_version l else earliest) LATEST_VERSION layers.

(** [position] with the closure that adds up sizes. *)
Fixpoint position (index total_size layer_count : Z) layers : res (option Z * (Z * Z)) :=
  match layers with
  | [] => Ok (None, (total_size, layer_count))
  | l :: layers =>
      match st_size l with
      | None => position (index + 1) total_size layer_count layers
      | Some size =>
          stop ← (if 0 <? total_size then a ← u64_mul total_size 4; b ← u64_mul size 3; Ok (a <? b) else Ok false);
          if (stop : bool) then Ok (Some index, (total_size, layer_count))
          else total_size ← u64_add total_size size; position (index + 1) total_size (layer_count + 1) layers
      end
  end.

(** The layers before the index are compacted. *)
Definition choose layers : res Z :=
  let len := Z.of_nat (length layers) in
  '(split_index, (total_size, layer_count)) ←
    (if bool_decide (get_earliest_version layers = LATEST_VERSION)
     then '(o, s) ← position 0 0 0 layers; Ok (default len o, s)
     else Ok (len, (0, 0)));
  if (layer_count =? 1) && (DEFAULT_RECLAIM_SIZE <? total_size) then
    i ← u64_sub split_index 1;
    l ← unwrap (layers !! Z.to_nat i);
    Ok (match st_size l with Some _ => i | None => split_index end)
  else Ok split_index.

(** The bytes of the new layer, the layers to keep and the old layers.
    [nonce] is the random number of the writer. *)
Definition flush (fuel : nat) (merge_fn : MergeFn K V) layers (block_size nonce : Z) : res (list Z * (list (StoredLayer K V) * list (StoredLayer K V))) :=
  split_index ← choose layers;
  let compacted := take (Z.to_nat split_index) layers in
  let layers_to_keep := drop (Z.to_nat split_index) layers in
  total_len ← LSMTree.sum_len (st_layer <$> compacted);
  items ← merge_layers fuel (st_layer <$> compacted) merge_fn;
  items ← (match layers_to_keep with [] => major_iter items | _ => Ok items end);
  bytes ← PersistentLayerWriter.compact_with_iterator (mkIter items None) total_len block_size block_size nonce;
  Ok (bytes, (layers_to_keep, compacted)).

Definition reservation_amount_from_layer_size (layer_size : Z) : res Z :=
  x ← u64_mul layer_size 3; u64_div x 2.
End flush.
End Tree.

Lemma flush_split {K V} `{OrdLowerBound K, OrdUpperBound K, LayerKey K, LayerCodec K V, FileCodec, SortByU64 K, FuzzyHash K, FilterEstimates, MajorCompactable K V}
    fuel mf (layers : list (StoredLayer K V)) bs nonce i bytes keep old :
  Tree.choose layers = Ok i → Tree.flush fuel mf layers bs nonce = Ok (bytes, (keep, old)) → old = take (Z.to_nat i) layers ∧ keep = drop (Z.to_nat i) layers.
Proof.
  intros Hc Hf. unfold Tree.flush in Hf. rewrite Hc in Hf. cbn [mbind res_bind] in Hf. destruct (LSMTree.sum_len _); try discriminate Hf. cbn [mbind res_bind] in Hf.
  destruct (merge_layers _ _ _) as [items| | |]; try discriminate Hf. cbn [mbind res_bind] in Hf. set (major := match drop _ _ with [] => _ | _ => _ end) in Hf.
  destruct major; try discriminate Hf. cbn [mbind res_bind] in Hf. destruct (PersistentLayerWriter.compact_with_iterator _ _ _ _ _); try discriminate Hf. by injection Hf as _ <- <-.
Qed.

(** ** Which layers are compacted *)
Section choose.
Context {K V : Type}.
Implicit Types layers : list (StoredLayer K V).

Definition sizes layers : Z := foldr (λ l n, default 0 (st_size l) + n) 0 layers.
(** Sizes that can be added up. *)
Definition sized layers : Prop := Forall (λ l, ∀ n, st_size l = Some n → 0 ≤ n) layers ∧ 4 * sizes layers ≤ u64_max.

Lemma sizes_nonneg layers : Forall (λ l : StoredLayer K V, ∀ n, st_size l = Some n → 0 ≤ n) layers → 0 ≤ sizes layers.
Proof.
  induction 1 as [|l ls Hl _ IH]; [done|]. change (sizes (l :: ls)) with (default 0 (st_size l) + sizes ls).
  destruct (st_size l) as [n|]; cbn [default from_option id]; [|lia]. specialize (Hl n eq_refl). lia.
Qed.

(** The search stops at a layer with a file, and has counted at most the
    layers before it. *)
Lemma position_spec layers i t c : Forall (λ l, ∀ n, st_size l = Some n → 0 ≤ n) layers → 0 ≤ t → 4 * (t + sizes layers) ≤ u64_max →
  ∃ o t' c', Tree.position i t c layers = Ok (o, (t', c')) ∧
    let j := default (i + Z.of_nat (length layers)) o in
    i ≤ j ≤ i + Z.of_nat (length layers) ∧ c' ≤ c + (j - i) ∧ ∀ l, layers !! Z.to_nat (j - i) = Some l → is_Some (st_size l).
Proof.
  intros Hn. revert i t c. induction Hn as [|l layers Hl Hn IH]; intros i t c Ht Hs; cbn [Tree.position].
  - eexists None, t, c. split; [done|]. cbn. split_and!; [lia|lia|lia|]. intros ? Hx. by rewrite lookup_nil in Hx.
  - pose proof (sizes_nonneg layers Hn) as Hp. assert (sizes (l :: layers) = default 0 (st_size l) + sizes layers) as Hsz by done. rewrite Hsz in Hs.
    assert (∀ t' c', 0 ≤ t' → 4 * (t' + sizes layers) ≤ u64_max → c' ≤ c + 1 → ∃ o t2 c2, Tree.position (i + 1) t' c' layers = Ok (o, (t2, c2)) ∧
      let j := default (i + Z.of_nat (length (l :: layers))) o in
      i ≤ j ≤ i + Z.of_nat (length (l :: layers)) ∧ c2 ≤ c + (j - i) ∧ ∀ l', (l :: layers) !! Z.to_nat (j - i) = Some l' → is_Some (st_size l')) as Hrec.
    { intros t' c' Ht' Hs' Hc'. destruct (IH (i + 1) t' c' Ht' Hs') as (o & t2 & c2 & He & Hj). exists o, t2, c2. split; [done|]. cbn [length] in *.
      replace (i + Z.of_nat (S (length layers))) with (i + 1 + Z.of_nat (length layers)) by lia. destruct Hj as (Hj1 & Hj2 & Hj3).
      set (j := default _ o) in *. split_and!; [lia|lia|lia|]. intros l'. replace (Z.to_nat (j - i)) with (S (Z.to_nat (j - (i + 1)))) by lia. apply Hj3. }
    destruct (st_size l) as [n|] eqn:E; [|apply Hrec; cbn in Hs; lia]. specialize (Hl n eq_refl). cbn [default from_option id] in Hs.
    assert (∃ b, (if 0 <? t then a ← u64_mul t 4; b ← u64_mul n 3; Ok (a <? b) else Ok false) = Ok b) as [b ->].
    { destruct (0 <? t); [|by eexists]. rewrite !u64_mul_ok by lia. res_simpl. by eexists. }
    res_simpl. destruct b.
    + eexists (Some i), t, c. split; [done|]. cbn [default from_option id length]. split_and!; [lia|lia|lia|]. rewrite Z.sub_diag. intros ? [= <-]. by rewrite E.
    + rewrite u64_add_ok by lia. res_simpl. apply Hrec; lia.
Qed.

(** the choice of what is compacted never fails, and a layer that is only
    in memory is never the first one that is kept. *)
Lemma choose_spec layers : sized layers → ∃ i : nat, Tree.choose layers = Ok (Z.of_nat i) ∧ (i ≤ length layers)%nat ∧
  ∀ l, layers !! i = Some l → is_Some (st_size l).
Proof.
  intros [Hn Hs]. unfold Tree.choose. case_bool_decide as Hv.
  - destruct (position_spec layers 0 0 0 Hn ltac:(lia) Hs) as (o & t & c & -> & Hj). cbn [mbind res_bind]. set (len := Z.of_nat (length layers)) in *. rewrite Z.add_0_l in Hj.
    set (j := default len o) in *. destruct Hj as (Hj1 & Hj2 & Hj3). rewrite Z.sub_0_r in Hj3. destruct ((c =? 1) && (DEFAULT_RECLAIM_SIZE <? t)) eqn:Hc.
    + apply andb_true_iff in Hc as [->%Z.eqb_eq _]. rewrite u64_sub_ok by lia. res_simpl. destruct (lookup_lt_is_Some_2 layers (Z.to_nat (j - 1)) ltac:(lia)) as [l Hl].
      rewrite Hl. res_simpl. destruct (st_size l) as [n|] eqn:El.
      * exists (Z.to_nat (j - 1)). split_and!; [f_equal; lia|lia|]. intros l' Hl'. rewrite Hl in Hl'. injection Hl' as <-. by rewrite El.
      * exists (Z.to_nat j). split_and!; [f_equal; lia|lia|done].
    + exists (Z.to_nat j). split_and!; [f_equal; lia|lia|done].
  - cbn. exists (length layers). split_and!; [done|lia|]. intros l Hl%lookup_lt_Some. lia.
Qed.
End choose.
