(* ===== verification/ObjFlush.v ===== *)
(** * Flushing the tree of an object store

    A flush merges the newest immutable layers into a file that takes their
    place: the tree is well-formed with the new layer, and the records of
    objects that have no tombstone there are what they were. *)

From S2P Require Import Prelude Round Bytes Checksum Extent Journal LsmTypes ObjectRecord Merge MergeProps MergeQuery ObjectKeyOrder.
From S2P Require Import Segments SegMerge ObjMerge ObjMergeProps ObjMergeViews ObjMergeSpec ObjFind.
From S2P Require Import SkipList SkipListIter SkipListCommit SkipListSeek LsmTree ObjTree BloomFilter PersistentLayer PersistentSeek PersistentWrite PersistentOpen TreeFlush.

(** [SortByU64] of an object key. *)
#[global] Instance object_sort : SortByU64 ObjectKey := object_id.

Lemma forall_filter {A} (Q P : A → Prop) `{∀ x, Decision (P x)} l : Forall Q l → Forall Q (filter P l).
Proof. rewrite !Forall_forall. intros HQ y [_ Hy]%list_elem_of_filter. by apply HQ. Qed.

Section flush.
Context (normal_form : list Z → list Z) (bs : Z) (Hbs : 0 < bs).
(** [hash] is what [FxHasher] makes of a key. *)
Context (hash : ObjectKey → Z) (hash_fuel : nat).
#[local] Abbreviation cmp_lower := (object_cmp_lower_bound normal_form).
#[local] Abbreviation cmp_upper := (object_cmp_upper_bound normal_form).
#[local] Abbreviation layer_ok := (layer_ok normal_form bs).
#[local] Abbreviation layers_ok := (layers_ok normal_form bs).
#[local] Abbreviation merge := (merge normal_form).
#[local] Abbreviation is_key := (is_key normal_form).
#[local] Abbreviation record_of := (record_of normal_form).
#[local] Abbreviation newest_record := (newest_record normal_form).
#[local] Abbreviation finds := (finds normal_form).
#[local] Abbreviation view := (view normal_form).
#[local] Abbreviation bytes_of := (bytes_of normal_form).
#[local] Abbreviation nodes_of := (nodes_of normal_form).
#[local] Hint Extern 0 (OrdLowerBound ObjectKey) => exact (object_lower normal_form) : typeclass_instances.
#[local] Hint Extern 0 (OrdUpperBound ObjectKey) => exact (object_upper normal_form) : typeclass_instances.
#[local] Hint Extern 0 (TotalCmp (cmp_lower_bound (K := ObjectKey))) => exact (object_lower_total normal_form) : typeclass_instances.
#[local] Hint Extern 0 (TotalCmp (cmp_upper_bound (K := ObjectKey))) => exact (object_upper_total normal_form) : typeclass_instances.
#[local] Instance flush_key_eq : KeyEq ObjectKey := key_eq normal_form.
#[local] Instance flush_hash : FuzzyHash ObjectKey := object_fuzzy_hash hash hash_fuel.
Implicit Types (k : ObjectKey) (x : ObjectItem) (s out : list ObjectItem) (ls : list (list ObjectItem)).

(** ** What a file needs of the keys *)
#[local] Instance object_sorts : LawfulSort ObjectKey.
Proof.
  intros a b. unfold cmp_upper_bound, object_upper, object_cmp_upper_bound, get_leading_u64, object_sort. destruct (Z.compare_spec (object_id a) (object_id b)); cbn [cmp_then]; try lia. done.
Qed.

#[local] Instance object_points : PointHash ObjectKey.
Proof. intros k [Hk _]. unfold fuzzy_hash, flush_hash, object_fuzzy_hash. destruct (data k) as [| |i [|e]| | | | | | |]; try done; eexists; reflexivity. Qed.

Lemma layer_strict s : layer_ok s → StronglySorted upper_lt s.
Proof.
  intros [Hs Hi]. induction Hs as [|x s Hs IH Hb]; constructor; [by apply IH; apply Forall_cons in Hi as [_ ?]|].
  apply Forall_cons in Hi as [Hx Hi]. rewrite Forall_forall in Hb, Hi |- *. intros y Hy. destruct (Hb y Hy) as [Hlt Hov].
  destruct (bounds_agree normal_form _ _ (item_key_ok bs _ Hx) (item_key_ok bs _ (Hi _ Hy)) Hov) as [Heq _]. unfold upper_lt, cmp_upper_bound, object_upper. by rewrite <- Heq.
Qed.

(** Names that are compared without regard to case are hashed differently
    from how they are compared; other keys that are equal are the same. *)
Definition exact_key k : Prop := match data k with KCasefoldChild _ => False | _ => True end.

Lemma exact_key_eq a b : exact_key a → cmp_lower a b = Eq → cmp_upper a b = Eq → a = b.
Proof.
  rewrite cmp_lower_code, cmp_upper_code. intros Ha Hl%seq_cmp_Eq Hu%seq_cmp_Eq. destruct a as [o d], b as [o' d']. unfold exact_key, code in *. cbn [object_id data] in *.
  destruct d as [| |i [|[[s e]]]| | |i p| | | |], d' as [| |i' [|[[s' e']]]| | |i' p'| | | |]; cbn in *; simplify_eq; try done.
  by destruct p, p'.
Qed.

(** A key whose hashes are computed. *)
Definition hashes k : Prop := ∃ hs, object_fuzzy_hash hash hash_fuel k = Ok hs ∧ hs ≠ [].

Lemma exact_hashable x : exact_key (key x) → hashes (key x) → hashable x.
Proof.
  intros Hx (hs & Hh & Hne). destruct hs as [|h hs]; [done|]. exists h, hs. intros k Hl Hu. by rewrite <- (exact_key_eq _ _ Hx Hl Hu).
Qed.

(** ** The records of a merge *)
Lemma holding_unique s k x y : layer_ok s → x ∈ s → y ∈ s → is_key k x = true → is_key k y = true → x = y.
Proof.
  intros [Hs _] Hx Hy Hkx Hky. induction Hs as [|z s Hs IH Hb]; [by apply elem_of_nil in Hx|]. rewrite Forall_forall in Hb.
  pose proof (is_key_trans normal_form k x y Hkx Hky) as Hxy. pose proof (is_key_trans normal_form k y x Hky Hkx) as Hyx.
  apply elem_of_cons in Hx as [->|Hx], Hy as [->|Hy]; [done| | |by apply IH].
  - destruct (Hb y Hy) as [Hlt _]. congruence.
  - destruct (Hb x Hx) as [Hlt _]. congruence.
Qed.

Lemma finds_sel s k v : layer_ok s → finds s k v ↔ (∃ r x, sel (is_key k) s = x :: r ∧ value x = v).
Proof.
  intros Hs. unfold ObjMergeSpec.finds. split.
  - intros (x & Hx & Hk%is_key_inv & Hv). destruct (sel (is_key k) s) as [|y r] eqn:E.
    + assert (x ∈ sel (is_key k) s) as Hin by (apply elem_of_sel; split; [by rewrite Hk|done]). rewrite E in Hin. by apply elem_of_nil in Hin.
    + exists r, y. split; [done|]. assert (y ∈ sel (is_key k) s) as [Hy%Is_true_true Hin]%elem_of_sel by (rewrite E; by left). by rewrite (holding_unique s k y x).
  - intros (r & x & E & Hv). assert (x ∈ sel (is_key k) s) as [Hy%Is_true_true Hin]%elem_of_sel by (rewrite E; by left). exists x. by rewrite <- is_key_inv.
Qed.

Lemma record_newest ls k v : Forall layer_ok ls → record_of k ls = Some v ↔ newest_record ls k v.
Proof.
  induction 1 as [|s ls Hs _ IH]; cbn [ObjFind.record_of ObjMergeSpec.newest_record]; [done|]. setoid_rewrite finds_sel; [|done..].
  destruct (sel (is_key k) s) as [|x r].
  - rewrite IH. split; [intros ?; right; split; [by intros w (? & ? & ? & _)|done]|]. by intros [(? & ? & ? & _)|[_ ?]].
  - split; [intros [= <-]; left; by eexists _, _|]. intros [(? & ? & [= <- <-] & ->)|[Hn _]]; [done|]. destruct (Hn (value x)). by eexists _, _.
Qed.

Lemma record_app k l1 l2 : record_of k (l1 ++ l2) = match record_of k l1 with Some v => Some v | None => record_of k l2 end.
Proof. induction l1 as [|s l1 IH]; cbn [app ObjFind.record_of]; [done|]. by destruct (sel (is_key k) s). Qed.

(** A major compaction leaves out what a lookup does not find either. *)
Lemma major_view out k : layer_ok out → (∀ v, finds out k v → v ≠ VExtent ENone) →
  view [filter (λ x, major_keeps x = true) out] k = view [out] k.
Proof.
  intros Hout Hv. unfold ObjTree.view. cbn [ObjFind.record_of]. assert (sel (is_key k) (filter (λ x, major_keeps x = true) out) = filter (λ x, major_keeps x = true) (sel (is_key k) out)) as ->.
  { unfold sel. rewrite !list_filter_filter. apply list_filter_iff. intros x. tauto. }
  destruct (sel (is_key k) out) as [|x r] eqn:E; [done|]. specialize (Hv (value x) (proj2 (finds_sel out k (value x) Hout) (ex_intro _ r (ex_intro _ x (conj E eq_refl))))).
  assert (∀ y, y ∈ x :: r → y ∈ out ∧ is_key k y = true) as Hin.
  { intros y Hy. rewrite <- E in Hy. apply elem_of_sel in Hy as [?%Is_true_true ?]. done. }
  assert (r = []) as ->.
  { destruct r as [|y r]; [done|]. destruct (Hin x ltac:(by left)) as [Hx Hkx], (Hin y ltac:(right; by left)) as [Hy Hky]. pose proof (holding_unique out k x y Hout Hx Hy Hkx Hky) as <-.
    assert (StronglySorted (obefore normal_form) (sel (is_key k) out)) as Hso by (apply sorted_filter, Hout). rewrite E in Hso.
    apply StronglySorted_cons in Hso as [[[Hlt _] _]%Forall_cons _]. by rewrite (cmp_lower_refl normal_form) in Hlt. }
  rewrite filter_cons, filter_nil. case_decide as Hk; [done|]. unfold major_keeps in Hk. unfold LSMTree.cache_value, DELETED_MARKER, ObjectValue_Value. cbn [mbind option_bind].
  by destruct (value x) as [| | | | |[|]| | | | |].
Qed.

Lemma major_spec l : major_iter l = Ok (filter (λ x : ObjectItem, major_keeps x = true) l).
Proof. unfold major_iter, object_major, FilterLayerIterator.new. rewrite skip_filtered_spec. res_simpl. apply filter_collect_spec. lia. Qed.

Lemma zsum_filter (f : ObjectItem → Z) (P : ObjectItem → Prop) `{∀ x, Decision (P x)} l : (∀ x, 0 ≤ f x) → zsum f (filter P l) ≤ zsum f l.
Proof.
  intros Hf. induction l as [|x l IH]; [done|]. rewrite filter_cons, zsum_cons. specialize (Hf x). case_decide; rewrite ?zsum_cons; lia.
Qed.

(** ** Prefixes of the layers *)
Lemma layers_ok_split n ls : layers_ok ls → layers_ok (take n ls) ∧ Forall layer_ok (drop n ls) ∧
  (∀ f : ObjectItem → Z, (∀ x, 0 ≤ f x) → zsum f (concat ls) = zsum f (concat (take n ls)) + zsum f (concat (drop n ls)) ∧ 0 ≤ zsum f (concat (drop n ls))).
Proof.
  intros (Hl & Hb & Hn). assert (∀ f : ObjectItem → Z, (∀ x, 0 ≤ f x) → zsum f (concat ls) = zsum f (concat (take n ls)) + zsum f (concat (drop n ls)) ∧ 0 ≤ zsum f (concat (drop n ls))) as Hs.
  { intros f Hf. rewrite <- zsum_app, <- concat_app, take_drop. split; [done|]. by apply zsum_nonneg. }
  split_and!; [split_and!; [by apply Forall_take|..]|by apply Forall_drop|done].
  - destruct (Hs abs_bytes (λ x, proj1 (abs_nonneg x))). lia.
  - destruct (Hs abs_nodes (λ x, proj2 (abs_nonneg x))). lia.
Qed.

Lemma pile_size_take n ls i : (pile_size orng (layer_entries i (take n ls)) ≤ pile_size orng (layer_entries i ls))%nat.
Proof.
  revert n i. induction ls as [|s ls IH]; intros [|n] i; cbn [take layer_entries]; [done..|cbn; lia|]. rewrite !pile_size_push. specialize (IH n (i + 1)). lia.
Qed.

Definition counts (layers : list (StoredLayer ObjectKey ObjectValue)) : Z := foldr (λ l n, item_count (estimated_len (st_layer l)) + n) 0 layers.

Lemma counts_nonneg layers : Forall (λ l, 0 ≤ item_count (estimated_len (st_layer l))) layers → 0 ≤ counts layers.
Proof. induction 1 as [|l layers Hl _ IH]; [done|]. change (counts (l :: layers)) with (item_count (estimated_len (st_layer l)) + counts layers). lia. Qed.

Lemma sum_len_take layers n : Forall (λ l, 0 ≤ item_count (estimated_len (st_layer l))) layers → counts layers ≤ u64_max →
  ∃ m, LSMTree.sum_len (st_layer <$> take n layers) = Ok m ∧ 0 ≤ m ≤ counts layers.
Proof.
  intros Hc Hmax. unfold LSMTree.sum_len. assert (∀ a, 0 ≤ a → a + counts layers ≤ u64_max →
    ∃ m, foldm (λ size (l : Layer ObjectKey ObjectValue), u64_add size (item_count (estimated_len l))) a (st_layer <$> take n layers) = Ok m ∧ 0 ≤ m ≤ a + counts layers) as Hg.
  { clear Hmax. revert n. induction Hc as [|l layers Hl Hc IH]; intros n a Ha Hm; [rewrite take_nil; exists a; split; [done|change (counts []) with 0; lia]|]. change (counts (l :: layers)) with (item_count (estimated_len (st_layer l)) + counts layers) in *.
    pose proof (counts_nonneg layers Hc). destruct n as [|n]; [exists a; split; [done|lia]|].
    cbn [take fmap list_fmap foldm]. rewrite u64_add_ok by lia. res_simpl. destruct (IH n (a + item_count (estimated_len (st_layer l))) ltac:(lia) ltac:(lia)) as (m & -> & Hm'). exists m. split; [done|lia]. }
  destruct (Hg 0 ltac:(lia) ltac:(lia)) as (m & ? & ?). by exists m.
Qed.

(** ** What layers say of an object *)

(** Each byte of an attribute is stored in the same place, or in none. *)
Definition same_extents (o : Z) ls ls' : Prop :=
  ∀ a p w, newest orng oval (sel (is_ext o a) <$> ls) p (Some w) ↔ newest orng oval (sel (is_ext o a) <$> ls') p (Some w).
(** The records of usage add up to the same. *)
Definition same_usage (o : Z) ls ls' : Prop :=
  ∀ k, object_id k = o → zsum (bytes_of k) (concat ls) = zsum (bytes_of k) (concat ls') ∧ zsum (nodes_of k) (concat ls) = zsum (nodes_of k) (concat ls').
(** Other records are the same, up to those that are deleted. *)
Definition same_records (o : Z) ls ls' : Prop := ∀ k, plain k → object_id k = o → view ls k = view ls' k.

(** Where layers have the same extents, deleted ones included. *)
Definition covered_alike (o : Z) ls ls' : Prop :=
  ∀ a p v, newest orng oval (sel (is_ext o a) <$> ls) p v ↔ newest orng oval (sel (is_ext o a) <$> ls') p v.
Lemma newest_app {rng : ObjectItem → range} {V} (val : ObjectItem → Z → V) (l1 l2 : list (list ObjectItem)) p v :
  newest rng val (l1 ++ l2) p v ↔ newest rng val l1 p v ∨ (∀ w, ¬ newest rng val l1 p w) ∧ newest rng val l2 p v.
Proof.
  induction l1 as [|s l1 IH]; cbn [app newest]; [split; [intros ?; right; tauto|tauto]|]. rewrite IH. destruct (covers_dec rng val s p) as [[v' Hc]|Hn]; [|naive_solver].
  split; [intros [?|[Hn _]]; [by left; left|by destruct (Hn v')]|]. intros [[?|[Hn _]]|[Hn _]]; [by left|by destruct (Hn v')|]. destruct (Hn v'). by left.
Qed.

(** ** The merge that is written *)

(** Usage of projects that still fits. *)
Definition no_more ls out : Prop := zsum abs_bytes out ≤ zsum abs_bytes (concat ls) ∧ zsum abs_nodes out ≤ zsum abs_nodes (concat ls).

Lemma scan_prefix n (layers : list (Layer ObjectKey ObjectValue)) ls fuel : Forall2 serves layers ls → layers_ok ls →
  Z.of_nat (length layers) ≤ 65536 → (pile_size orng (layer_entries 0 ls) + 1 < fuel)%nat →
  ∃ out, merge_layers fuel (take n layers) merge = Ok out ∧ layer_ok out ∧ no_more (take n ls) out ∧
    (∀ k, plain k → no_tombstone (object_id k) ls → record_of k [out] = record_of k (take n ls) ∧ ∀ v, finds out k v → newest_record (take n ls) k v) ∧
    ∀ o, no_tombstone o ls → covered_alike o [out] (take n ls) ∧ same_usage o [out] (take n ls).
Proof.
  intros HF Hok Hlen Hfuel. destruct (layers_ok_split n ls Hok) as (Hok' & _ & _). pose proof (pile_size_take n ls 0) as Hps.
  assert (Forall2 holds (take n layers) (take n ls)) as HF'.
  { apply Forall2_take. eapply Forall2_impl; [exact HF|]. apply serves_holds. }
  destruct (object_scan normal_form bs Hbs (take n layers) (take n ls) fuel HF') as (out & Hout & Hsc); [rewrite length_take; lia|done|lia|].
  assert (∀ o, no_tombstone o ls → no_tombstone o (take n ls)) as Htake by (intros o Hnt s x (i & Hi & _)%elem_of_take; by apply Hnt, (list_elem_of_lookup_2 _ i)).
  exists out. split; [done|]. pose proof (opile_layers normal_form bs _ Hok') as Hp. pose proof (scans_ordered normal_form bs Hbs _ _ Hsc Hp) as Hlo. split; [done|]. split_and!.
  - destruct (scans_abs normal_form bs Hbs _ _ Hsc Hp) as [Hb Hn]. rewrite !pile_sum_layers in Hb, Hn. done.
  - intros k Hk Hnt. pose proof (scan_records normal_form bs Hbs (take n layers) (take n ls) fuel Hok' ltac:(lia) out k Hsc Hk) as Hr.
    specialize (Hr (Htake _ Hnt)). split; [|intros v; apply Hr].
    apply option_eq. intros v. rewrite (record_newest (take n ls)), <- Hr, (record_newest [out]) by (apply Hok' || by constructor). cbn [ObjMergeSpec.newest_record]. tauto.
  - intros o Hnt. apply Htake in Hnt. split.
    + intros a p v. destruct (scan_extents normal_form bs Hbs (take n ls) Hok' out o a Hsc Hnt) as [_ Hv]. rewrite <- Hv. cbn. tauto.
    + intros k <-. cbn [concat]. rewrite app_nil_r. by apply (scan_usage normal_form bs Hbs (take n ls) Hok' out k Hsc).
Qed.

(** A major compaction drops deleted extents, and no counts. *)
Lemma major_extents o out older : older = [] → same_extents o (filter (λ x, major_keeps x = true) out :: older) (out :: older).
Proof.
  intros -> a p w. cbn. assert (∀ x, x ∈ sel (is_ext o a) out → oval x p = Some w → major_keeps x = true) as Hkeep.
  { intros x [(e & Hk)%Is_true_true%is_ext_inv _]%elem_of_sel Hx. unfold oval in Hx. unfold major_keeps. rewrite Hk in Hx. cbn in Hx. destruct (value x) as [| | | | |[|]| | | | |]; try done. }
  unfold covers. setoid_rewrite elem_of_sel. setoid_rewrite list_elem_of_filter. setoid_rewrite elem_of_sel in Hkeep. naive_solver.
Qed.
Lemma major_usage o out older : same_usage o (filter (λ x, major_keeps x = true) out :: older) (out :: older).
Proof.
  assert (∀ f : ObjectItem → Z, (∀ x, major_keeps x = false → f x = 0) → zsum f (filter (λ x, major_keeps x = true) out) = zsum f out) as Hf.
  { intros f Hz. induction out as [|x out IH]; [done|]. rewrite filter_cons, zsum_cons. case_decide as E; rewrite ?zsum_cons, IH; [done|]. rewrite (Hz x); [done|]. by apply not_true_is_false. }
  intros k _. cbn [concat]. rewrite !zsum_app, !Hf; [done|..]; intros x Hx; unfold ObjMergeSpec.nodes_of, ObjMergeSpec.bytes_of, usage; destruct (is_key k x); try done;
    unfold major_keeps in Hx; destruct (value x) as [| | | | |[|]| | | | |]; try done; by destruct (data (key x)) as [| |? [|]| | |? []| | | |].
Qed.
Lemma extents_trans o l1 l2 l3 : same_extents o l1 l2 → same_extents o l2 l3 → same_extents o l1 l3.
Proof. intros H1 H2 a p w. etransitivity; [apply H1|apply H2]. Qed.
(** Layers that say the same may stand for each other, on top of older ones and
    under a newer one. *)
Lemma covered_app o l1 l1' l2 : covered_alike o l1 l1' → covered_alike o (l1 ++ l2) (l1' ++ l2).
Proof. intros Hc a p v. specialize (Hc a p). rewrite !fmap_app, !newest_app, Hc. setoid_rewrite Hc. done. Qed.
Lemma extents_cons o c l l' : same_extents o l l' → same_extents o (c :: l) (c :: l').
Proof. intros Hc a p w. cbn [fmap list_fmap newest]. by rewrite (Hc a p w). Qed.
Lemma usage_app o l1 l1' l2 : same_usage o l1 l1' → same_usage o (l1 ++ l2) (l1' ++ l2).
Proof. intros Hc k Hk. destruct (Hc k Hk). rewrite !concat_app, !zsum_app. lia. Qed.
Lemma usage_cons o c l l' : same_usage o l l' → same_usage o (c :: l) (c :: l').
Proof. intros Hc k Hk. destruct (Hc k Hk). cbn [concat]. rewrite !zsum_app. lia. Qed.

(** ** A flush *)
Context {C : Type} `{LayerCodec ObjectKey ObjectValue, FileCodec, !LawfulFile, FilterEstimates}.
Context (fbs : Z) (Hfbs : 512 ≤ fbs ≤ 65536) (Hpow : PersistentLayer.is_power_of_two fbs = true).
Context (Hheader : Z.of_nat (length (concat (Version.serialize_into LATEST_VERSION) ++ header_bytes (mkHeader PERSISTENT_LAYER_MAGIC fbs))) ≤ fbs).
Context (Hinfo : ∀ i, info_u64 i → Z.of_nat (length (info_bytes i)) + 8 ≤ fbs).
Implicit Types (t : LSMTree C ObjectKey ObjectValue) (layers : list (StoredLayer ObjectKey ObjectValue)).

#[local] Abbreviation from_file := (Tree.from_file (K := ObjectKey) (V := ObjectValue)).

(** A record that can be written to the file and found again. *)
Definition file_item x : Prop := writable fbs x ∧ exact_key (key x) ∧ hashes (key x).

(** What is merged can be written. *)
Record flushable fuel layers ls nonce : Prop := {
  fs_sized : sized layers;
  fs_length : Z.of_nat (length layers) ≤ 65536;
  fs_lengths : Forall (λ l, 0 ≤ item_count (estimated_len (st_layer l))) layers;
  fs_counts : counts layers ≤ u64_max;
  fs_fuel : (pile_size orng (layer_entries 0 ls) + 1 < fuel)%nat;
  fs_values : ∀ s x, s ∈ ls → x ∈ s → is_extent (data (key x)) = false → value x ≠ VExtent ENone;
  fs_items : ∀ n out, merge_layers fuel (take n (st_layer <$> layers)) merge = Ok out → Forall file_item out ∧ Z.of_nat (length out) ≤ 8388608;
  fs_filter : ∀ n, 0 ≤ n ≤ counts layers → storable (BloomFilterWriter.new nonce n);
}.

Lemma newest_elem ls k v : newest_record ls k v → ∃ s x, s ∈ ls ∧ x ∈ s ∧ cmp_lower k (key x) = Eq ∧ value x = v.
Proof.
  induction ls as [|s ls IH]; cbn [ObjMergeSpec.newest_record]; [done|]. intros [(x & Hx & Hk & Hv)|[_ Hn]]; [exists s, x; split_and!; [by left|done..]|].
  destruct (IH Hn) as (s' & x & ? & ?). exists s', x. split; [by right|done].
Qed.

(** The items that are written, and that they are as the layers were. *)
Lemma flush_items fuel layers ls nonce n (keep : list (StoredLayer ObjectKey ObjectValue)) : Forall2 serves (st_layer <$> layers) ls → layers_ok ls →
  flushable fuel layers ls nonce → keep = drop n layers →
  ∃ items out, merge_layers fuel (st_layer <$> take n layers) merge = Ok items ∧
    (match keep with [] => major_iter items | _ => Ok items end) = Ok out ∧
    layer_ok out ∧ no_more (take n ls) out ∧ Forall file_item out ∧ Z.of_nat (length out) ≤ 8388608 ∧
    (∀ k, plain k → no_tombstone (object_id k) ls → view (out :: drop n ls) k = view ls k) ∧
    ∀ o, no_tombstone o ls → same_extents o (out :: drop n ls) ls ∧ same_usage o (out :: drop n ls) ls.
Proof.
  intros HF Hok [_ Hlen _ _ Hfuel Hval Hit _] Hkeep. assert (length ls = length layers) as Hll by (apply Forall2_length in HF; by rewrite length_fmap in HF).
  destruct (scan_prefix n (st_layer <$> layers) ls fuel HF Hok ltac:(by rewrite length_fmap) Hfuel) as (items & Hm & Hlo & Hno & Hrec & Hsay).
  destruct (Hit n items Hm) as [Hfi Hcount]. rewrite <- fmap_take in Hm. exists items. rewrite Hm.
  assert (∀ k, plain k → no_tombstone (object_id k) ls → view (items :: drop n ls) k = view ls k) as Hview.
  { intros k Hk Hnt. destruct (Hrec k Hk Hnt) as [Hr _]. unfold ObjTree.view. rewrite <- (take_drop n ls) at 2. change (items :: drop n ls) with ([items] ++ drop n ls). by rewrite !record_app, Hr. }
  assert (∀ o, no_tombstone o ls → same_extents o (items :: drop n ls) ls ∧ same_usage o (items :: drop n ls) ls) as Hrest.
  { intros o Hnt. destruct (Hsay o Hnt) as [He Hu]. rewrite <- (take_drop n ls) at 2 4. split; [intros a p w; by apply (covered_app o [items] (take n ls) (drop n ls))|by apply (usage_app o [items] (take n ls))]. }
  destruct keep as [|l0 keep]; [|exists items; split_and!; (done || apply Hno)].
  assert (drop n ls = []) as Hnil.
  { apply nil_length_inv. symmetry in Hkeep. apply (f_equal length) in Hkeep. rewrite (length_drop layers) in Hkeep. rewrite length_drop. cbn [length] in Hkeep. lia. }
  exists (filter (λ x, major_keeps x = true) items). split; [done|]. split; [apply major_spec|]. destruct Hno as [Hnb Hnn].
  split_and!; [split; [by apply sorted_filter, Hlo|apply forall_filter, Hlo]|split|by apply forall_filter| | |].
  - etransitivity; [|exact Hnb]. apply zsum_filter. intros x. apply abs_nonneg.
  - etransitivity; [|exact Hnn]. apply zsum_filter. intros x. apply abs_nonneg.
  - pose proof (length_filter (λ x, major_keeps x = true) items). lia.
  - intros k Hk Hnt. rewrite <- (Hview k Hk Hnt), Hnil. apply major_view; [done|]. intros v Hv. destruct (Hrec k Hk Hnt) as [_ Hfinds]. destruct (newest_elem _ _ _ (Hfinds v Hv)) as (s & x & (i & Hs & _)%elem_of_take & Hx & Hkx & <-).
    apply (Hval s x); [by eapply list_elem_of_lookup_2|done|]. destruct Hk as [Hk _]. apply cmp_lower_Eq in Hkx. unfold code in Hkx.
    destruct (data (key x)) as [| |? [|]| | |? [|]| | | |], (data k) as [| |? [|]| | |? [|]| | | |]; cbn in *; try done; by simplify_eq.
  - intros o Hnt. destruct (Hrest o Hnt) as [He Hu]. split; [eapply extents_trans; [by apply major_extents|done]|]. intros k Hk. destruct (Hu k Hk), (major_usage o items (drop n ls) k Hk). split; congruence.
Qed.

(** C5: A flush of the immutable layers of an object store's tree, where what it
    merges can be written, makes a file that opens, and with the new layer in
    the place of those it was made of the tree is well-formed again. For each
    object of which the immutable layers have no tombstone: a byte of an extent
    is stored where it was, or nowhere if it was nowhere; the records of a
    project's usage add up to what they did; and a key of any other kind has the
    value it had, or none if that was deleted. That it can be written
    ([flushable]) is: there are at most 65536 layers, whose counts of items, and
    four times the sizes of whose files, add up to no more than 64 bits hold;
    only an extent's key has the value of a deleted extent; what the merge
    yields is at most 8388608 records, each decoded as it was written and at
    least three bytes smaller than a block, with a key that is not of a
    case-insensitive directory and that has a hash; and the filter for them
    takes at most 64 MiB. Blocks are a power of two from 512 to 65536 bytes and
    hold the header and the layer's information. *)
Theorem tree_flush_keeps_records fuel t c older layers nonce :
  tree_rep normal_form bs t (c :: older) → LsmTree.layers t = st_layer <$> layers → flushable fuel layers older nonce →
  ∃ bytes keep old pl out, Tree.flush fuel merge layers fbs nonce = Ok (bytes, (keep, old)) ∧ layers = old ++ keep ∧
    Tree.layers_from_handles [mkHandle bytes fbs] = Ok [from_file pl] ∧
    let t' := LSMTree.set_layers t (st_layer <$> (from_file pl :: keep)) in
    let ls' := c :: out :: drop (length old) older in
    tree_rep normal_form bs t' ls' ∧
    ∀ o, no_tombstone o older → same_records o ls' (c :: older) ∧ same_extents o ls' (c :: older) ∧ same_usage o ls' (c :: older).
Proof.
  intros [(c' & older' & [= <- <-] & Hr & HF) Hok Hfn Hn He] Hlayers Hfl. rewrite Hlayers in HF. pose proof Hfl as [Hsz Hlen Hls Hcnt _ _ _ Hfilter].
  assert (layers_ok older) as Hok'. { destruct Hok as (H1o & H2o & H3o). apply Forall_cons in H1o as [_ H1o]. cbn [concat] in H2o, H3o. rewrite zsum_app in H2o, H3o.
    pose proof (zsum_nonneg abs_bytes c (λ x, proj1 (abs_nonneg x))). pose proof (zsum_nonneg abs_nodes c (λ x, proj2 (abs_nonneg x))). split_and!; [done|lia|lia]. }
  destruct (choose_spec layers Hsz) as (n & Hchoose & Hnle & _). destruct (flush_items fuel layers older nonce n (drop n layers) HF Hok' Hfl eq_refl) as (items & out & Hm & Hmaj & Hlo & Hno & Hfi & Hcount & Hview & Hrest).
  destruct (sum_len_take layers n Hls Hcnt) as (m & Hsum & Hm0).
  assert (Forall (writable fbs) out) as Hwr by (eapply Forall_impl; [exact Hfi|]; by intros x (? & _)).
  assert (Forall hashable out) as Hha by (eapply Forall_impl; [exact Hfi|]; intros x (_ & ? & ?); by apply exact_hashable).
  destruct (compact_opens fbs Hfbs Hpow Hheader Hinfo out m nonce (layer_strict out Hlo) Hwr Hcount (Hfilter m Hm0)) as (F & G & f & HFl & Hopen & Hcat & HL & Hfed).
  exists F, (drop n layers), (take n layers), (opened fbs F out G f), out. split_and!.
  - unfold Tree.flush. rewrite Hchoose. res_simpl. rewrite !Nat2Z.id, Hsum. res_simpl. rewrite Hm. res_simpl. rewrite Hmaj. res_simpl. rewrite HFl. done.
  - by rewrite take_drop.
  - cbn [Tree.layers_from_handles]. rewrite Hopen. done.
  - cbn zeta. rewrite length_take, Nat.min_l by done. split; [split; cbn [LSMTree.set_layers LSMTree.with_layers mutable_layer LsmTree.layers tree_merge_fn]; try done|].
    + eexists _, _. split_and!; [done|done|]. cbn [fmap list_fmap]. constructor; [apply opened_serves; [by apply layer_strict|done..]|]. rewrite fmap_drop. by apply Forall2_drop.
    + destruct (layers_ok_split n older Hok') as (_ & Hdrop & Hsplit). destruct Hok as (H1o & H2o & H3o). apply Forall_cons in H1o as [Hc _]. destruct Hno as [Hnb Hnn].
      destruct (Hsplit abs_bytes (λ x, proj1 (abs_nonneg x))) as [Hsb _]. destruct (Hsplit abs_nodes (λ x, proj2 (abs_nonneg x))) as [Hsn _].
      cbn [concat] in H2o, H3o. rewrite zsum_app in H2o, H3o. split; [by apply Forall_cons; split; [|apply Forall_cons]|]. cbn [concat]. rewrite !zsum_app. lia.
    + intros o Hnt. destruct (Hrest o Hnt) as [Hext Hus]. split_and!; [|by apply extents_cons|by apply usage_cons].
      intros k Hk <-. unfold ObjTree.view. cbn [ObjFind.record_of]. destruct (sel (is_key k) c); [|done]. by apply Hview.
Qed.
End flush.
