(* ===== verification/ObjFlushDemo.v ===== *)
(** * Layer files: examples

    A file with numbers as keys, and a flush of the layers of
    [ObjMergeSpec.v]. *)

From S2P Require Import Prelude Round Bytes Checksum Extent Journal LsmTypes ObjectRecord Merge MergeProps MergeQuery ObjectKeyOrder.
From S2P Require Import Segments SegMerge ObjMerge ObjMergeProps ObjMergeViews ObjMergeSpec ObjFind.
From S2P Require Import SkipList LsmTree ObjTree ObjTreeDemo BloomFilter PersistentLayer PersistentBlocks PersistentSeek PersistentWrite PersistentOpen TreeFlush ObjFlush.

(** ** The format: every number takes eight bytes *)
Definition take_u64 (b : list Z) (n : nat) : Z := le_combine (take 8 (drop (8 * n) b)).
#[local] Instance demo_file : FileCodec := {|
  header_bytes h := lh_magic h ++ le_split 8 (lh_block_size h);
  header_decode b _ := Decoded (mkHeader (take 8 b) (take_u64 b 1)) 16;
  info_bytes i := concat (le_split 8 <$> [num_items i; num_data_blocks i; bloom_filter_size_bytes i; bloom_filter_seed i; bloom_filter_num_nonces i]);
  info_decode b _ := Decoded (mkInfo (take_u64 b 0) (take_u64 b 1) (take_u64 b 2) (take_u64 b 3) (take_u64 b 4)) 40;
|}.

Lemma take_u64_at n (l : list Z) x rest : l !! n = Some x → is_u64 x → take_u64 (concat (le_split 8 <$> l) ++ rest) n = x.
Proof.
  intros Hl [? Hx]. unfold take_u64. rewrite (concat_le_lookup 8 l n x Hl). apply le_combine_split_id. change (256 ^ Z.of_nat 8) with (u64_max + 1). lia.
Qed.

#[local] Instance demo_file_lawful : LawfulFile.
Proof.
  split.
  - intros n rest Hn. cbn [header_decode demo_file header_bytes lh_magic lh_block_size].
    assert (take_u64 ((PERSISTENT_LAYER_MAGIC ++ le_split 8 n) ++ rest) 1 = n) as ->; [|done].
    unfold take_u64. change (drop (8 * 1) ((PERSISTENT_LAYER_MAGIC ++ le_split 8 n) ++ rest)) with (le_split 8 n ++ rest).
    rewrite take_app_le, take_ge by (rewrite length_le_split; lia). apply le_combine_split_id. destruct Hn as [? Hn]. change (256 ^ Z.of_nat 8) with (u64_max + 1). lia.
  - intros [a b c d e] rest [Ha Hb Hc Hd He]. cbn [info_decode demo_file info_bytes num_items num_data_blocks bloom_filter_size_bytes bloom_filter_seed bloom_filter_num_nonces] in *.
    rewrite (take_u64_at 0 _ a), (take_u64_at 1 _ b), (take_u64_at 2 _ c), (take_u64_at 3 _ d), (take_u64_at 4 _ e) by done. done.
Qed.

#[local] Instance demo_estimates : FilterEstimates := {| raw_bits := λ _, 64; num_hashes := λ _ _, 3%nat |}.

Lemma demo_info : ∀ i, info_u64 i → Z.of_nat (length (info_bytes i)) + 8 ≤ 512.
Proof. intros i _. cbn [info_bytes demo_file]. rewrite concat_le_length. cbn. lia. Qed.

Lemma demo_header : Z.of_nat (length (concat (Version.serialize_into LATEST_VERSION) ++ header_bytes (mkHeader PERSISTENT_LAYER_MAGIC 512))) ≤ 512.
Proof. by vm_compute. Qed.

(** ** Numbers *)
Module Numbers.
#[local] Instance number_upper : OrdUpperBound Z := Z.compare.
#[local] Instance number_lower : OrdLowerBound Z := Z.compare.
#[local] Instance number_total : TotalCmp (cmp_upper_bound (K := Z)).
Proof. split; intros *; unfold cmp_upper_bound, number_upper; [apply Z.compare_antisym|]. rewrite !Z.compare_le_iff. lia. Qed.
#[local] Instance number_total_lower : TotalCmp (cmp_lower_bound (K := Z)).
Proof. split; intros *; unfold cmp_lower_bound, number_lower; [apply Z.compare_antisym|]. rewrite !Z.compare_le_iff. lia. Qed.
#[local] Instance number_point : PointKey Z := λ _, True.
#[local] Instance number_sort : SortByU64 Z := λ k, k.
#[local] Instance number_sorts : LawfulSort Z.
Proof. intros a b. by rewrite <- Z.compare_le_iff. Qed.
#[local] Instance number_hash : FuzzyHash Z := λ k, Ok [k].
#[local] Instance number_points : PointHash Z.
Proof. by eexists. Qed.
#[local] Instance number_codec : LayerCodec Z Z := {|
  key_bytes := le_split 8;
  key_decode b _ := Decoded (take_u64 b 0) 8;
  value_bytes := le_split 8;
  value_decode b _ := Decoded (take_u64 b 0) 8;
|}.

Fixpoint numbers (a : Z) (n : nat) : list (Item Z Z) :=
  match n with O => [] | S n => mkItem a (a * a) a :: numbers (a + 1) n end.

Lemma elem_of_numbers a n x : x ∈ numbers a n → ∃ i, a ≤ i < a + Z.of_nat n ∧ x = mkItem i (i * i) i.
Proof.
  revert a. induction n as [|n IH]; intros a; cbn [numbers]; [by intros ?%elem_of_nil|]. intros [->|Hx]%elem_of_cons; [exists a; split; [lia|done]|].
  destruct (IH _ Hx) as (i & ? & ->). exists i. split; [lia|done].
Qed.

Lemma numbers_sorted a n : StronglySorted upper_lt (numbers a n).
Proof.
  revert a. induction n as [|n IH]; intros a; cbn [numbers]; constructor; [done|]. apply Forall_forall. intros x (i & ? & ->)%elem_of_numbers.
  unfold upper_lt, cmp_upper_bound, number_upper. cbn [key]. rewrite Z.compare_lt_iff. lia.
Qed.

Lemma number_decodes k rest : is_u64 k → take_u64 (le_split 8 k ++ rest) 0 = k.
Proof. intros Hk. pose proof (take_u64_at 0 [k] k rest eq_refl Hk) as H. cbn [fmap list_fmap concat] in H. by rewrite app_nil_r in H. Qed.

Lemma numbers_writable a n : 0 ≤ a → a + Z.of_nat n ≤ 4294967296 → Forall (writable 512) (numbers a n).
Proof.
  intros Ha Hn. apply Forall_forall. intros x (i & Hi & ->)%elem_of_numbers. assert (u64_max = 18446744073709551615) as Hu by done.
  assert (is_u64 i ∧ is_u64 (i * i)) as [Hk Hv] by (unfold is_u64; nia). split; [|split|done|by eexists].
  - unfold ser. cbn [key_bytes value_bytes number_codec key value sequence]. rewrite !length_app, !length_le_split. lia.
  - intros rest. cbn [key_decode key_bytes number_codec key]. by rewrite number_decodes, length_le_split.
  - intros rest. cbn [value_decode value_bytes number_codec value]. by rewrite number_decodes, length_le_split.
  - done.
Qed.

Lemma numbers_hashable a n : Forall hashable (numbers a n).
Proof.
  apply Forall_forall. intros x (i & Hi & ->)%elem_of_numbers. eexists _, []. intros k Hl _. apply Z.compare_eq_iff in Hl. cbn in Hl. by subst.
Qed.

(** A file with a hundred numbers; the numbers from 95 on are found in it. *)
Lemma layer_file_roundtrip_witness : ∃ F pl,
  PersistentLayerWriter.compact_with_iterator (mkIter (numbers 0 100) None) 100 512 512 7 = Ok F ∧ PersistentLayer.open (mkHandle F 512) = Ok pl ∧
  seek (PersistentLayer.layer pl) (Excluded 94) = Ok (mkIter (numbers 95 5) None).
Proof.
  destruct (layer_file_roundtrip 512 ltac:(lia) eq_refl demo_header demo_info (numbers 0 100) 100 7) as (F & pl & HF & Ho & [Hs _ _] & _);
    [apply numbers_sorted|apply numbers_writable; lia|apply numbers_hashable|vm_compute; discriminate| |].
  - split; [vm_compute; discriminate|split; vm_compute; discriminate|vm_compute; discriminate].
  - exists F, pl. split; [exact HF|]. split; [exact Ho|]. rewrite Hs. vm_compute. reflexivity.
Defined.

(** Of the numbers inserted, 7 is found. *)
Lemma bloom_no_false_negatives_witness : ∃ f,
  foldm BloomFilterWriter.insert (BloomFilterWriter.new 7 3) [3; 5; 7] = Ok f ∧
  BloomFilterReader.maybe_contains
    (BloomFilterReader.read (BloomFilterWriter.write f) (BloomFilterWriter.seed f) (BloomFilterWriter.num_nonces f)) 7 = Ok true.
Proof.
  destruct (bloom_no_false_negatives 7 3 [3; 5; 7]) as (f & Hf & Hq); [intros v _; by eexists|].
  assert (7 ∈ [3; 5; 7]) as Hin by (do 2 right; left). assert (7 ∈ [7]) as Hh by left.
  exists f. split; [exact Hf|]. exact (Hq 7 7 [7] [7] 7 Hin eq_refl eq_refl Hh Hh ltac:(repeat constructor)).
Defined.
End Numbers.

(** ** Items that fill a block, and blocks that fill a buffer *)
Module Sizes.
#[local] Instance size_sort : SortByU64 Z := λ k, k.
#[local] Instance size_hash : FuzzyHash Z := λ k, Ok [k].
#[local] Instance size_codec : LayerCodec Z (list Z) := {|
  key_bytes := le_split 8;
  key_decode b _ := Decoded (take_u64 b 0) 8;
  value_bytes v := v;
  value_decode b _ := DecodeError false;
|}.

Definition sized_item (n : nat) : Item Z (list Z) := mkItem 5 (replicate n 0) 1.
Definition file_of (block_size : Z) (l : list (Item Z (list Z))) : res (list Z) :=
  PersistentLayerWriter.compact_with_iterator (mkIter l None) (Z.of_nat (length l)) block_size block_size 7.

Lemma first_item_fills_block_witness : ∃ F, file_of 512 [sized_item 494] = Ok F ∧ PersistentLayer.open (mkHandle F 512) = Err (Fxfs Inconsistent).
Proof.
  assert (Z.of_nat (length (ser (sized_item 494))) = 512 - 2) as Hx by (vm_compute; reflexivity). apply (first_item_fills_block 512 ltac:(lia) eq_refl demo_header (sized_item 494) Hx 1 7 [5] eq_refl).
  - split; [by vm_compute|split; by vm_compute|by vm_compute].
  - intros i _. cbn [info_bytes demo_file]. rewrite concat_le_length. cbn. lia.
Defined.

(** With one byte less the file opens. *)
Example smaller_item_opens : ∃ F, file_of 512 [sized_item 493] = Ok F ∧ ∃ pl, PersistentLayer.open (mkHandle F 512) = Ok pl.
Proof. eexists. split; [vm_compute; reflexivity|]. eexists. vm_compute. reflexivity. Qed.

(** A file whose blocks are twice those of the device passes the check of
    its block size, and [open] then panics: its buffer has the device's block
    size. *)
Theorem open_larger_blocks :
  ∃ F, file_of 1024 [sized_item 8] = Ok F ∧ (∃ pl, PersistentLayer.open (mkHandle F 1024) = Ok pl) ∧
    (∃ header, PersistentLayer.open_header (mkHandle F 512) = Ok (header, LATEST_VERSION) ∧ lh_block_size header = 1024) ∧
    PersistentLayer.open (mkHandle F 512) = Panic.
Proof.
  eexists. split; [vm_compute; reflexivity|]. split; [eexists; vm_compute; reflexivity|]. split; [eexists; split; vm_compute; reflexivity|]. vm_compute. reflexivity.
Qed.
End Sizes.

(** ** A flush of an object store *)
Module Flush.
#[local] Hint Extern 0 (OrdUpperBound ObjectKey) => exact (object_upper names_as_they_are) : typeclass_instances.
#[local] Hint Extern 0 (OrdLowerBound ObjectKey) => exact (object_lower names_as_they_are) : typeclass_instances.
#[local] Instance flush_demo_hash : FuzzyHash ObjectKey := object_fuzzy_hash object_id 5.

(** A sealed layer, a small file and a larger one: the first two are merged. *)
Definition stored_layers : list (StoredLayer ObjectKey ObjectValue) :=
  (λ '(l, s), mkStored (layer_of_items l) s LATEST_VERSION) <$> zip demo_layers [None; Some 2048; Some 65536].
#[local] Abbreviation fuel := (2 + pile_size orng (layer_entries 0 demo_layers))%nat.
Definition merged (n : nat) : list ObjectItem :=
  match merge_layers fuel (take n (st_layer <$> stored_layers)) (merge names_as_they_are) with Ok l => l | _ => [] end.

(** Records are numbered as they are in what is merged. *)
Definition records : list ObjectItem := Eval vm_compute in merged 1 ++ merged 2 ++ merged 3.
Fixpoint number {A} `{EqDecision A} (x : A) (l : list A) (n : Z) : Z :=
  match l with [] => n | y :: l => if decide (x = y) then n else number x l (n + 1) end.
Definition denumber {A B} (f : A → B) (l : list A) (b : list Z) : decoded B :=
  match b with n :: _ => match l !! Z.to_nat n with Some y => Decoded (f y) 1 | None => DecodeError false end | [] => DecodeError true end.
#[local] Instance flush_codec : LayerCodec ObjectKey ObjectValue := {|
  key_bytes k := [number k (key <$> records) 0];
  key_decode b _ := denumber key records b;
  value_bytes v := [number v (value <$> records) 0];
  value_decode b _ := denumber value records b;
|}.

Definition demo_tree : LSMTree unit ObjectKey ObjectValue :=
  LSMTree.set_layers (LSMTree.new (merge names_as_they_are) tt) (st_layer <$> stored_layers).

Lemma flush_rep : tree_rep names_as_they_are 512 demo_tree ([] :: demo_layers).
Proof. apply tree_rep_new; [exact demo_serves|exact demo_ok]. Qed.

(** Decides whether a record can be written. *)
Ltac decide_file_item :=
  split; [split; [by vm_compute|split; [intros rest; vm_compute; reflexivity..|split; by vm_compute]|split; by vm_compute|eexists; vm_compute; reflexivity]|];
  split; [exact I|eexists; split; [vm_compute; reflexivity|discriminate]].

Lemma merged_items : Forall (file_item object_id 5 512) records.
Proof. unfold records. repeat (apply Forall_cons; split; [decide_file_item|]). apply Forall_nil. exact I. Qed.

Lemma merged_written n out : merge_layers fuel (take n (st_layer <$> stored_layers)) (merge names_as_they_are) = Ok out →
  Forall (file_item object_id 5 512) out ∧ Z.of_nat (length out) ≤ 8388608.
Proof.
  intros Ho. assert (out = merged n) as -> by (unfold merged; by rewrite Ho). clear Ho. assert (n = 0 ∨ n = 1 ∨ n = 2 ∨ 3 ≤ n)%nat as Hn by lia.
  assert (merged n = [] ∨ ∃ a b, records = a ++ merged n ++ b ∧ Z.of_nat (length (merged n)) ≤ 100) as [->|(a & b & Hr & Hl)]; [|done|].
  - destruct Hn as [->|[->|[->|Hn]]]; [left; vm_compute; reflexivity|right..].
    + exists [], (merged 2 ++ merged 3). split; [vm_compute; reflexivity|by vm_compute].
    + exists (merged 1), (merged 3). split; [vm_compute; reflexivity|by vm_compute].
    + assert (merged n = merged 3) as -> by (unfold merged; do 2 f_equal; rewrite take_ge by (cbn; lia); reflexivity).
      exists (merged 1 ++ merged 2), []. split; [vm_compute; reflexivity|by vm_compute].
  - pose proof merged_items as HF. rewrite Hr, !Forall_app in HF. split; [apply HF|lia].
Qed.

Lemma demo_flushable : flushable names_as_they_are object_id 5 512 fuel stored_layers demo_layers 7.
Proof.
  split.
  - split; [|by vm_compute]. repeat (apply Forall_cons; split; [intros m Hm; vm_compute in Hm; simplify_eq; lia|]). apply Forall_nil. exact I.
  - by vm_compute.
  - repeat (apply Forall_cons; split; [by vm_compute|]). apply Forall_nil. exact I.
  - by vm_compute.
  - lia.
  - assert (Forall (Forall (λ x, is_extent (data (key x)) = false → value x ≠ VExtent ENone)) demo_layers) as HF by (repeat (apply Forall_cons; split); [..|apply Forall_nil; exact I]; repeat (apply Forall_cons; split); done).
    intros s x Hs Hx. rewrite Forall_forall in HF. specialize (HF s Hs). rewrite Forall_forall in HF. by apply HF.
  - intros n out. apply merged_written.
  - intros n Hn. unfold BloomFilterWriter.new, estimate_params. destruct (n =? 0); cbn [raw_bits num_hashes demo_estimates]; (split; [by vm_compute|split; by vm_compute|by vm_compute]).
Qed.

(** The entry of the directory is in the file. *)
Lemma tree_flush_keeps_records_witness : ∃ bytes keep old pl out,
  Tree.flush fuel (merge names_as_they_are) stored_layers 512 7 = Ok (bytes, (keep, old)) ∧ length keep = 1%nat ∧
  Tree.layers_from_handles [mkHandle bytes 512] = Ok [Tree.from_file (K := ObjectKey) (V := ObjectValue) pl] ∧ serves (PersistentLayer.layer pl) out ∧
  view names_as_they_are ([] :: out :: drop 2 demo_layers) (ObjectKey.child 6 [97] false) = Some (ObjectValue.child 5 DFile).
Proof.
  destruct (tree_flush_keeps_records names_as_they_are 512 ltac:(lia) object_id 5 512 ltac:(lia) eq_refl demo_header demo_info fuel demo_tree [] demo_layers stored_layers 7
    flush_rep eq_refl demo_flushable) as (bytes & keep & old & pl & out & Hf & Hl & Hopen & Ht & Hv).
  assert (Tree.choose stored_layers = Ok 2) as Hc by (vm_compute; reflexivity).
  destruct (flush_split _ _ _ _ _ _ _ _ _ Hc Hf) as [-> ->]. change (Z.to_nat 2) with 2%nat in *.
  exists bytes, (drop 2 stored_layers), (take 2 stored_layers), pl, out. split; [exact Hf|]. split; [reflexivity|]. split; [exact Hopen|]. split.
  - destruct (tr_layers _ _ _ _ Ht) as (c & older & [= <- <-] & _ & HF). by apply Forall2_cons_1 in HF as [? _].
  - destruct (Hv 6 (demo_no_tombstone 6 ltac:(discriminate))) as [Hrec _].
    specialize (Hrec (ObjectKey.child 6 [97] false) ltac:(split; [reflexivity|discriminate]) eq_refl).
    change (length (take 2 stored_layers)) with 2%nat in Hrec. rewrite Hrec. vm_compute. reflexivity.
Defined.
End Flush.
