(* ===== verification/Strategy.v ===== *)
(** * The allocation strategy

    [fxfs/src/object_store/allocator/strategy.rs]: [BestFit] keeps the free
    ranges of the device, by length and by end, and hands out the smallest one
    that is large enough.  It tracks a bounded number of ranges per length; a
    bucket that had to drop some carries an overflow marker. *)

From S2P Require Import Prelude BTree Round.

Record SizeBucket : Set := mkBucket {
  overflow : bool;
  offsets : gset Z;
}.

Record BestFit : Set := mkBestFit {
  ranges : gmap Z SizeBucket;
  by_end : gmap Z Z;
}.

Definition DEFAULT_MAX_EXTENT_SIZE : Z := 2 * 2 ^ 20.
Definition NUM_MAX_SIZED_EXTENTS_TO_KEEP : Z := 512.

Definition max_entries (len : Z) : res Z :=
  if len <? DEFAULT_MAX_EXTENT_SIZE then u64_div (4 * 2 ^ 20) len
  else Ok NUM_MAX_SIZED_EXTENTS_TO_KEEP.

Module BestFit.
Definition set_ranges (r : gmap Z SizeBucket) : st BestFit unit :=
  λ s, (Ok tt, mkBestFit r (by_end s)).
Definition set_by_end (b : gmap Z Z) : st BestFit unit :=
  λ s, (Ok tt, mkBestFit (ranges s) b).

(** Assumes that the range exists. *)
Definition remove_range (r : range) : st BestFit unit :=
  len ← st_lift (u64_sub (end_ r) (start r));
  s ← st_get;
  match ranges s !! len with
  | None => st_lift Panic
  | Some b =>
      let b := mkBucket (overflow b) (offsets b ∖ {[start r]}) in
      _ ← set_ranges (if bool_decide (offsets b = ∅) && negb (overflow b)
                      then delete len (ranges s) else <[len := b]> (ranges s));
      _ ← set_by_end (delete (end_ r) (by_end s));
      st_lift (rassert (bool_decide (by_end s !! end_ r = Some (start r))))
  end.

(** Inserts the range if there is room, sets the overflow marker otherwise. *)
Definition insert_range (r : range) : st BestFit unit :=
  len ← st_lift (u64_sub (end_ r) (start r));
  s ← st_get;
  let entry := default (mkBucket false ∅) (ranges s !! len) in
  let entry' := mkBucket (overflow entry) (offsets entry ∪ {[start r]}) in
  _ ← set_ranges (<[len := entry']> (ranges s));
  if bool_decide (start r ∈ offsets entry) then st_fail (Fxfs Inconsistent)
  else
    _ ← set_by_end (<[end_ r := start r]> (by_end s));
    match by_end s !! end_ r with
    | Some _ => st_fail (Fxfs Inconsistent)
    | None =>
        max ← st_lift (max_entries len);
        if max <? Z.of_nat (size (offsets entry')) then
          last ← st_lift (unwrap (bs_last (offsets entry')));
          s ← st_get;
          let entry' := mkBucket (overflow entry') (offsets entry' ∖ {[last]}) in
          _ ← set_ranges (<[len := entry']> (ranges s));
          last_end ← st_lift (u64_add last len);
          _ ← set_by_end (delete last_end (by_end s));
          if bool_decide (by_end s !! last_end ≠ Some last) then st_fail (Fxfs Inconsistent)
          else set_ranges (<[len := mkBucket true (offsets entry')]> (ranges s))
        else mret tt
    end.

(** The loop of [free] that breaks up a range longer than the maximum. *)
Fixpoint free_fragments (fuel : nat) (r : range) : st BestFit range :=
  match fuel with
  | O => st_lift NoFuel
  | S fuel =>
      len ← st_lift (u64_sub (end_ r) (start r));
      if DEFAULT_MAX_EXTENT_SIZE <=? len then
        e ← st_lift (u64_sub (end_ r) DEFAULT_MAX_EXTENT_SIZE);
        _ ← insert_range (e ..< end_ r);
        free_fragments fuel (start r ..< e)
      else mret r
  end.

(** Merges with the free range that ends where this one starts; also returns
    the free range that comes next. *)
Definition merge_before (r : range) : st BestFit (range * option (Z * Z)) :=
  s ← st_get;
  match bt_first_ge (by_end s) (start r) with
  | Some (end_', start') =>
      if end_' =? start r then
        _ ← remove_range (start' ..< end_');
        let r := start' ..< end_ r in
        next ← st_lift (u64_add (start r) 1);
        s ← st_get;
        mret (r, bt_first_ge (by_end s) next)
      else if start' <? end_ r then st_fail (Fxfs Inconsistent)
      else mret (r, Some (end_', start'))
  | None => mret (r, None)
  end.

(** Merges with the free range that starts where this one ends. *)
Definition merge_after (r : range) (next_item : option (Z * Z)) : st BestFit range :=
  match next_item with
  | Some (end_', start') =>
      if start' =? end_ r then
        _ ← remove_range (start' ..< end_'); mret (start r ..< end_')
      else mret r
  | None => mret r
  end.

Definition free (r : range) : st BestFit unit :=
  '(r, next_item) ← merge_before r;
  r ← merge_after r next_item;
  r ← free_fragments (Z.to_nat ((end_ r - start r) `div` DEFAULT_MAX_EXTENT_SIZE + 1)) r;
  if start r <? end_ r then insert_range r else mret tt.

Definition allocate (bytes : Z) : st BestFit range :=
  s ← st_get;
  let result := match bt_first_ge (ranges s) bytes with
                | None => bt_last (ranges s)
                | r => r
                end in
  match result with
  | None => st_fail (Fxfs NoSpace)
  | Some (size, size_bucket) =>
      if bool_decide (offsets size_bucket = ∅) && overflow size_bucket then st_fail (Fxfs NotFound)
      else
        _ ← st_lift (rassert (negb (bool_decide (offsets size_bucket = ∅))));
        offset ← st_lift (unwrap (bs_first (offsets size_bucket)));
        let b := mkBucket (overflow size_bucket) (offsets size_bucket ∖ {[offset]}) in
        _ ← set_ranges (if bool_decide (offsets b = ∅) && negb (overflow b)
                        then delete size (ranges s) else <[size := b]> (ranges s));
        e ← st_lift (u64_add offset size);
        s ← st_get;
        _ ← set_by_end (delete e (by_end s));
        if bytes <? size then
          b ← st_lift (u64_add offset bytes);
          _ ← st_expect (free (b ..< e));
          mret (offset ..< b)
        else mret (offset ..< e)
  end.

(** The gaps that [force_free] fills: the [for] over the free ranges that end
    after the start of the range. *)
Fixpoint gaps (r : range) (l : list (Z * Z)) (last : Z) (to_add : list range) : res (Z * list range) :=
  match l with
  | [] => Ok (last, to_add)
  | (e, offset) :: l =>
      if end_ r <=? offset then Ok (last, to_add)
      else
        let to_add := if last <? offset then to_add ++ [last ..< offset] else to_add in
        _ ← rassert (start r <? e);
        gaps r l e to_add
  end.

Definition force_free (r : range) : st BestFit bool :=
  s ← st_get;
  from ← st_lift (u64_add (start r) 1);
  '(last, to_add) ← st_lift (gaps r (bt_range_from (by_end s) from) (start r) []);
  let to_add := if last <? end_ r then to_add ++ [last ..< end_ r] else to_add in
  match to_add with
  | [] => mret false
  | _ => _ ← st_for to_add free; mret true
  end.

(** What [remove] takes out and what it puts back. *)
Fixpoint cuts (r : range) (l : list (Z * Z)) (to_add to_remove : list range)
    : res (list range * list range) :=
  match l with
  | [] => Ok (to_add, to_remove)
  | (e, offset) :: l =>
      if end_ r <=? offset then Ok (to_add, to_remove)
      else
        _ ← rassert (start r <? e);
        let to_remove := to_remove ++ [offset ..< e] in
        let to_add := if offset <? start r then to_add ++ [offset ..< start r] else to_add in
        let to_add := if end_ r <? e then to_add ++ [end_ r ..< e] else to_add in
        cuts r l to_add to_remove
  end.

Definition remove (r : range) : st BestFit unit :=
  s ← st_get;
  from ← st_lift (u64_add (start r) 1);
  '(to_add, to_remove) ← st_lift (cuts r (bt_range_from (by_end s) from) [] []);
  _ ← st_for to_remove remove_range;
  st_for to_add (λ r, st_expect (free r)).

Definition overflow_markers (s : BestFit) : list Z :=
  omap (λ kv, if overflow kv.2 then Some kv.1 else None) (bt_entries (ranges s)).

Definition reset_overflow_markers : st BestFit unit :=
  s ← st_get;
  set_ranges (omap (λ b, if bool_decide (offsets b = ∅) then None
                         else Some (mkBucket false (offsets b))) (ranges s)).
End BestFit.

(** ** What the strategy tracks *)

(** Byte [p] of the device is in a free range. *)
Definition free_at (s : BestFit) (p : Z) : Prop := ∃ e b, by_end s !! e = Some b ∧ b ≤ p < e.

(** Some bucket has had to drop a range. *)
Definition lossy (s : BestFit) : Prop := ∃ len k, ranges s !! len = Some k ∧ overflow k = true.

(** The two indices agree, and the free ranges are disjoint. *)
Record indexed (s : BestFit) : Prop := {
  ix_range : ∀ e b, by_end s !! e = Some b → 0 ≤ b < e ∧ e ≤ u64_max ∧ e - b ≤ DEFAULT_MAX_EXTENT_SIZE;
  ix_disjoint : ∀ e1 b1 e2 b2, by_end s !! e1 = Some b1 → by_end s !! e2 = Some b2 → e1 < e2 → e1 ≤ b2;
  ix_index : ∀ e b, by_end s !! e = Some b ↔ ∃ k, ranges s !! (e - b) = Some k ∧ b ∈ offsets k;
  ix_empty : ∀ len k, ranges s !! len = Some k → offsets k = ∅ → overflow k = true;
  ix_len : ∀ len k, ranges s !! len = Some k → 0 < len ≤ DEFAULT_MAX_EXTENT_SIZE;
}.

(** No bucket exceeds its allowance. *)
Definition bounded (s : BestFit) : Prop :=
  ∀ len k m, ranges s !! len = Some k → max_entries len = Ok m → Z.of_nat (size (offsets k)) ≤ m.

Definition wf (s : BestFit) : Prop := indexed s ∧ bounded s.

(** The state with a range added, and with one taken out of its bucket. *)
Definition added (s : BestFit) (b e : Z) : BestFit :=
  let k := default (mkBucket false ∅) (ranges s !! (e - b)) in
  mkBestFit (<[e - b := mkBucket (overflow k) (offsets k ∪ {[b]})]> (ranges s)) (<[e := b]> (by_end s)).

Definition removed (s : BestFit) (b e : Z) (ov : bool) : BestFit :=
  let k := default (mkBucket false ∅) (ranges s !! (e - b)) in
  let k' := mkBucket ov (offsets k ∖ {[b]}) in
  mkBestFit (if bool_decide (offsets k' = ∅) && negb (overflow k') then delete (e - b) (ranges s)
             else <[e - b := k']> (ranges s)) (delete e (by_end s)).

Section invariant.
Implicit Types (s : BestFit) (b e p : Z).

Lemma max_extent_pos : 0 < DEFAULT_MAX_EXTENT_SIZE.
Proof. reflexivity. Qed.

Lemma max_entries_ok len : 0 < len → ∃ m, max_entries len = Ok m ∧ 1 ≤ m.
Proof.
  intros Hl. unfold max_entries. bsplit; [|by eexists].
  rewrite u64_div_ok by lia. eexists. split; [done|].
  apply Z.div_le_lower_bound; [done|]. unfold DEFAULT_MAX_EXTENT_SIZE in *. lia.
Qed.

Lemma ix_bucket s b e : indexed s → by_end s !! e = Some b → ∃ k, ranges s !! (e - b) = Some k ∧ b ∈ offsets k.
Proof. intros Hs. by rewrite (ix_index _ Hs). Qed.

(** Two free ranges that share a byte are the same. *)
Lemma ix_same s e1 b1 e2 b2 p :
  indexed s → by_end s !! e1 = Some b1 → by_end s !! e2 = Some b2 → b1 ≤ p < e1 → b2 ≤ p < e2 → e1 = e2.
Proof.
  intros Hs H1 H2 Hp1 Hp2. destruct (Z.lt_trichotomy e1 e2) as [Hlt|[->|Hlt]]; [|done|].
  - pose proof (ix_disjoint _ Hs _ _ _ _ H1 H2 Hlt). lia.
  - pose proof (ix_disjoint _ Hs _ _ _ _ H2 H1 Hlt). lia.
Qed.

Lemma indexed_added s b e :
  indexed s → 0 ≤ b < e → e ≤ u64_max → e - b ≤ DEFAULT_MAX_EXTENT_SIZE →
  (∀ p, b ≤ p < e → ¬ free_at s p) → indexed (added s b e).
Proof.
  intros Hs Hbe He Hlen Hfree. set (k := default (mkBucket false ∅) (ranges s !! (e - b))).
  assert (∀ b', b' ∈ offsets k ↔ by_end s !! (b' + (e - b)) = Some b') as Hk.
  { intros b'. rewrite (ix_index _ Hs). replace (b' + (e - b) - b') with (e - b) by lia.
    unfold k. destruct (ranges s !! (e - b)) as [k'|]; cbn; [naive_solver|]. split; [set_solver|].
    by intros (? & ? & _). }
  assert (by_end s !! e = None) as Hnone.
  { apply eq_None_not_Some. intros [b' Hb']. pose proof (ix_range _ Hs _ _ Hb').
    apply (Hfree (e - 1)); [lia|]. exists e, b'. split; [done|lia]. }
  split; cbn [added ranges by_end].
  - intros e' b'. rewrite lookup_insert_Some. intros [[<- <-]|[_ ?]]; [done|]. by apply (ix_range _ Hs).
  - intros e1 b1 e2 b2. rewrite !lookup_insert_Some.
    intros [[<- <-]|[_ H1]] [[<- <-]|[_ H2]] Hlt; [lia|..].
    + pose proof (ix_range _ Hs _ _ H2). apply Z.le_ngt. intros Hlt'. apply (Hfree (Z.max b b2)); [lia|].
      exists e2, b2. split; [done|lia].
    + pose proof (ix_range _ Hs _ _ H1). apply Z.le_ngt. intros Hlt'. apply (Hfree (e1 - 1)); [lia|].
      exists e1, b1. split; [done|lia].
    + by eapply (ix_disjoint _ Hs).
  - intros e' b'. rewrite lookup_insert_Some. setoid_rewrite lookup_insert_Some. split.
    + intros [[<- <-]|[Hne H']]; [eexists; split; [by left|set_solver]|].
      destruct (ix_bucket _ _ _ Hs H') as (k' & Hk' & Hin).
      destruct (decide (e - b = e' - b')) as [Heq|]; [|exists k'; split; [by right|done]].
      eexists. split; [by left|]. cbn [offsets]. apply elem_of_union_l, Hk.
      by replace (b' + (e - b)) with e' by lia.
    + intros (k' & [[Heq <-]|[Hne Hk']] & Hin).
      * cbn [offsets] in Hin. apply elem_of_union in Hin as [Hin| ->%elem_of_singleton]; [|left; split; lia].
        apply Hk in Hin. replace (b' + (e - b)) with e' in Hin by lia. right. split; [|done]. congruence.
      * right. split; [|apply (ix_index _ Hs); by exists k']. intros <-.
        assert (by_end s !! e = Some b') as H' by (apply (ix_index _ Hs); by exists k'). congruence.
  - intros len k'. rewrite lookup_insert_Some. intros [[<- <-]|[_ Hk']]; [set_solver|by eapply (ix_empty _ Hs)].
  - intros len k'. rewrite lookup_insert_Some. intros [[<- _]|[_ Hk']]; [lia|by eapply (ix_len _ Hs)].
Qed.

Lemma indexed_removed s b e ov :
  indexed s → by_end s !! e = Some b → indexed (removed s b e ov).
Proof.
  intros Hs Hb. destruct (ix_bucket _ _ _ Hs Hb) as (k & Hk & Hin).
  pose proof (ix_range _ Hs _ _ Hb) as Hr.
  set (k' := mkBucket ov (offsets k ∖ {[b]})).
  assert (∀ len q, ranges (removed s b e ov) !! len = Some q ↔
    len = e - b ∧ q = k' ∧ (offsets k' = ∅ → ov = true) ∨ len ≠ e - b ∧ ranges s !! len = Some q) as Hrg.
  { intros len q. unfold removed. rewrite Hk. cbn [default ranges]. fold k'. unfold id. fold k'.
    destruct (decide (offsets k' = ∅)) as [He|He], ov; cbn;
      rewrite ?bool_decide_eq_true_2, ?bool_decide_eq_false_2 by done; cbn;
      rewrite ?lookup_delete_Some, ?lookup_insert_Some; naive_solver. }
  split; unfold removed; cbn [by_end].
  - intros e' b' [_ H']%lookup_delete_Some. by apply (ix_range _ Hs).
  - intros e1 b1 e2 b2 [_ H1]%lookup_delete_Some [_ H2]%lookup_delete_Some. by eapply (ix_disjoint _ Hs).
  - intros e' b'. fold (removed s b e ov). setoid_rewrite Hrg. rewrite lookup_delete_Some. split.
    + intros [Hne H']. destruct (ix_bucket _ _ _ Hs H') as (q & Hq & Hin').
      destruct (decide (e' - b' = e - b)) as [Heq|]; [|exists q; split; [by right|done]].
      rewrite Heq in Hq. assert (q = k) as -> by congruence.
      assert (b' ∈ offsets k') as Hk' by (cbn; apply elem_of_difference; split; [done|]; rewrite elem_of_singleton; intros ->; lia).
      exists k'. split; [left; split_and!; [done..|set_solver]|done].
    + intros (q & [(Heq & -> & _)|[Hne Hq]] & Hin').
      * cbn in Hin'. apply elem_of_difference in Hin' as [Hin' Hb']. rewrite elem_of_singleton in Hb'.
        split; [intros ->; apply Hb'; lia|]. apply (ix_index _ Hs). exists k. by rewrite Heq.
      * assert (by_end s !! e' = Some b') as H' by (apply (ix_index _ Hs); by exists q).
        split; [|done]. intros <-. congruence.
  - intros len q. fold (removed s b e ov). rewrite Hrg. intros [(_ & -> & Hov)|[_ Hq]]; [by apply Hov|].
    by eapply (ix_empty _ Hs).
  - intros len q. fold (removed s b e ov). rewrite Hrg. intros [(-> & _)|[_ Hq]]; [lia|].
    by eapply (ix_len _ Hs).
Qed.

Lemma free_at_added s b e p : by_end s !! e = None → free_at (added s b e) p ↔ free_at s p ∨ b ≤ p < e.
Proof.
  intros Hn. unfold free_at, added. cbn [by_end]. setoid_rewrite lookup_insert_Some. split.
  - intros (e' & b' & [[<- <-]|[_ ?]] & ?); [by right|left; by exists e', b'].
  - intros [(e' & b' & H' & ?)|?]; [|exists e, b; naive_solver].
    exists e', b'. split; [right|done]. split; [congruence|done].
Qed.

Lemma free_at_removed s b e ov p :
  indexed s → by_end s !! e = Some b → free_at (removed s b e ov) p ↔ free_at s p ∧ ¬ (b ≤ p < e).
Proof.
  intros Hs Hb. unfold free_at, removed. cbn [by_end]. setoid_rewrite lookup_delete_Some. split.
  - intros (e' & b' & [Hne H'] & Hp). split; [by exists e', b'|]. intros Hp'.
    apply Hne. by eapply ix_same.
  - intros [(e' & b' & H' & Hp) Hn]. exists e', b'. split; [|done]. split; [|done]. intros <-.
    assert (b' = b) as -> by congruence. done.
Qed.
End invariant.

(** [s] tracks the free space [F], except for what overflowing buckets dropped. *)
Record tracks (s : BestFit) (F : Z → Prop) : Prop := {
  tr_wf : wf s;
  tr_sound : ∀ p, free_at s p → F p;
  tr_complete : ∀ p, F p → free_at s p ∨ lossy s;
}.

Section operations.
Implicit Types (s : BestFit) (b e p : Z) (F : Z → Prop).

Lemma tracks_ext s F G : (∀ p, F p ↔ G p) → tracks s F → tracks s G.
Proof. intros Heq [Hw Hs Hc]. split; [done|..]; intros p; rewrite <- Heq; auto. Qed.

Lemma lossy_removed s b e k :
  ranges s !! (e - b) = Some k → lossy s → lossy (removed s b e (overflow k)).
Proof.
  intros Hk (len & q & Hq & Hov). unfold removed. rewrite Hk. cbn [default ranges]. unfold id.
  destruct (decide (len = e - b)) as [->|Hne].
  - assert (q = k) as -> by congruence. exists (e - b), (mkBucket (overflow k) (offsets k ∖ {[b]})).
    cbn [overflow]. rewrite Hov, andb_false_r. cbn [ranges]. by rewrite lookup_insert_eq.
  - exists len, q. split; [|done]. cbn [ranges].
    case_match; [by rewrite lookup_delete_ne|by rewrite lookup_insert_ne].
Qed.

Lemma bounded_removed s b e ov k :
  ranges s !! (e - b) = Some k → bounded s → bounded (removed s b e ov).
Proof.
  intros Hk Hb len q m. unfold removed. rewrite Hk. cbn [default ranges]. unfold id.
  assert (∀ m, max_entries (e - b) = Ok m → Z.of_nat (size (offsets k ∖ {[b]})) ≤ m) as Hsz.
  { intros m' Hm'. specialize (Hb _ _ _ Hk Hm').
    pose proof (subseteq_size (offsets k ∖ {[b]}) (offsets k) ltac:(set_solver)). lia. }
  case_match; [rewrite lookup_delete_Some|rewrite lookup_insert_Some]; [naive_solver|].
  intros [[<- <-]|[_ ?]]; [apply Hsz|by apply (Hb len q)].
Qed.

(** Taking out a tracked range. *)
Lemma tracks_removed s F b e k :
  tracks s F → by_end s !! e = Some b → ranges s !! (e - b) = Some k →
  tracks (removed s b e (overflow k)) (λ p, F p ∧ ¬ (b ≤ p < e)).
Proof.
  intros [[Hix Hbd] Hs Hc] Hb Hk. split.
  - split; [by apply indexed_removed|by eapply bounded_removed].
  - intros p. rewrite free_at_removed by done. intros [? ?]. auto.
  - intros p [HF Hn]. destruct (Hc p HF) as [Hf|Hl]; [left|right; by apply lossy_removed].
    by rewrite free_at_removed.
Qed.

Lemma remove_range_run s b e :
  wf s → by_end s !! e = Some b →
  ∃ k, ranges s !! (e - b) = Some k ∧
    BestFit.remove_range (b ..< e) s = (Ok tt, removed s b e (overflow k)).
Proof.
  intros [Hix _] Hb. destruct (ix_bucket _ _ _ Hix Hb) as (k & Hk & _). exists k. split; [done|].
  pose proof (ix_range _ Hix _ _ Hb).
  unfold BestFit.remove_range, BestFit.set_ranges, BestFit.set_by_end. cbn [start end_].
  rewrite u64_sub_ok by lia. st_simpl. rewrite Hk. st_simpl. cbn [ranges by_end].
  rewrite bool_decide_eq_true_2 by done. unfold removed. by rewrite Hk.
Qed.

Lemma bounded_drop s len k (x last : Z) m :
  bounded s → max_entries len = Ok m → k = default (mkBucket false ∅) (ranges s !! len) →
  x ∉ offsets k → last ∈ offsets k ∪ {[x]} → 0 ≤ m →
  Z.of_nat (size ((offsets k ∪ {[x]}) ∖ {[last]})) ≤ m.
Proof.
  intros Hb Hm Hk Hx Hl Hm0. rewrite size_difference by set_solver. rewrite size_union by set_solver.
  rewrite !size_singleton. subst k. destruct (ranges s !! len) as [k|] eqn:E; cbn [default] in *; unfold id in *.
  - specialize (Hb _ _ _ E Hm). lia.
  - cbn [offsets] in *. rewrite size_empty. lia.
Qed.

(** Adding a range none of which is free. *)
Section add.
Context s F b e (Htr : tracks s F) (Hbe : 0 ≤ b < e) (He : e ≤ u64_max)
  (Hlen : e - b ≤ DEFAULT_MAX_EXTENT_SIZE) (Hfree : ∀ p, b ≤ p < e → ¬ free_at s p).
Let k := default (mkBucket false ∅) (ranges s !! (e - b)).

Lemma add_fresh : by_end s !! e = None ∧ b ∉ offsets k.
Proof.
  destruct Htr as [[Hix _] _ _].
  assert (by_end s !! e = None) as Hnone.
  { apply eq_None_not_Some. intros [b' Hb']. pose proof (ix_range _ Hix _ _ Hb').
    apply (Hfree (e - 1)); [lia|]. exists e, b'. split; [done|lia]. }
  split; [done|]. intros Hin.
  assert (by_end s !! e = Some b) as Hsome; [|congruence]. apply (ix_index _ Hix).
  unfold k in Hin. destruct (ranges s !! (e - b)) as [k'|] eqn:E; [by exists k'|set_solver].
Qed.

Lemma add_free p : free_at (added s b e) p ↔ free_at s p ∨ b ≤ p < e.
Proof. apply free_at_added, add_fresh. Qed.

Lemma add_bucket :
  ranges (added s b e) !! (e - b) = Some (mkBucket (overflow k) (offsets k ∪ {[b]})).
Proof. unfold added. cbn [ranges]. by rewrite lookup_insert_eq. Qed.

Lemma add_lossy : lossy s → lossy (added s b e).
Proof.
  intros (len & q & Hq & Hov). unfold lossy, added. cbn [ranges]. fold k.
  destruct (decide (len = e - b)) as [->|].
  - eexists _, _. rewrite lookup_insert_eq. split; [done|]. cbn. unfold k. by rewrite Hq.
  - exists len, q. by rewrite lookup_insert_ne.
Qed.

Lemma tracks_added m :
  max_entries (e - b) = Ok m → Z.of_nat (size (offsets k ∪ {[b]})) ≤ m →
  tracks (added s b e) (λ p, F p ∨ b ≤ p < e).
Proof.
  intros Hm Hsz. destruct Htr as [[Hix Hbd] Hs Hc]. split.
  - split; [by apply indexed_added|]. intros len q m'. unfold added. cbn [ranges]. rewrite lookup_insert_Some.
    intros [[<- <-]|[_ Hq]] Hm'; [cbn [offsets]; fold k; assert (m' = m) by congruence; lia|by eapply Hbd].
  - intros p. rewrite add_free. intros [?|?]; [left; auto|by right].
  - intros p [HF|Hp]; [|left; rewrite add_free; by right]. destruct (Hc p HF) as [?|?].
    + left. rewrite add_free. by left.
    + right. by apply add_lossy.
Qed.

(** The bucket overflows and its last range is dropped. *)
Context (last m : Z) (Hlast : last ∈ offsets k ∪ {[b]}) (Hm : max_entries (e - b) = Ok m) (Hm0 : 0 ≤ m).

Lemma drop_indexed : by_end (added s b e) !! (last + (e - b)) = Some last.
Proof.
  destruct Htr as [[Hix _] _ _]. apply (ix_index _ (indexed_added s b e Hix Hbe He Hlen Hfree)).
  replace (last + (e - b) - last) with (e - b) by lia. eexists. by rewrite add_bucket.
Qed.

Lemma drop_state :
  removed (added s b e) last (last + (e - b)) true =
    mkBestFit (<[e - b := mkBucket true ((offsets k ∪ {[b]}) ∖ {[last]})]> (ranges (added s b e)))
      (delete (last + (e - b)) (by_end (added s b e))).
Proof.
  unfold removed. replace (last + (e - b) - last) with (e - b) by lia. rewrite add_bucket.
  cbn [default overflow offsets]. by rewrite andb_false_r.
Qed.

Lemma drop_free p :
  free_at (removed (added s b e) last (last + (e - b)) true) p → free_at s p ∨ b ≤ p < e.
Proof.
  rewrite free_at_removed; [intros [Hp _]; by apply add_free| |apply drop_indexed].
  destruct Htr as [[Hix _] _ _]. by apply indexed_added.
Qed.

Lemma tracks_dropped :
  tracks (removed (added s b e) last (last + (e - b)) true) (λ p, F p ∨ b ≤ p < e).
Proof.
  destruct Htr as [[Hix Hbd] Hs Hc]. split.
  - split; [apply indexed_removed; [by apply indexed_added|apply drop_indexed]|].
    rewrite drop_state. intros len q m'. cbn [ranges]. rewrite lookup_insert_Some.
    intros [[<- <-]|[Hne Hq]] Hm'.
    + cbn [offsets]. eapply bounded_drop; [exact Hbd|done|done|apply add_fresh|done|].
      assert (m' = m) by congruence. lia.
    + unfold added in Hq. cbn [ranges] in Hq. rewrite lookup_insert_ne in Hq by done. by eapply Hbd.
  - intros p Hp. destruct (drop_free p Hp); [left; auto|by right].
  - intros p _. right. rewrite drop_state. exists (e - b). eexists. cbn [ranges]. by rewrite lookup_insert_eq.
Qed.
End add.

(** [insert_range] on a range none of which is free. *)
Lemma insert_range_ok s F b e :
  tracks s F → 0 ≤ b < e → e ≤ u64_max → e - b ≤ DEFAULT_MAX_EXTENT_SIZE →
  (∀ p, b ≤ p < e → ¬ free_at s p) →
  ∃ s', BestFit.insert_range (b ..< e) s = (Ok tt, s') ∧ tracks s' (λ p, F p ∨ b ≤ p < e) ∧
    (∀ p, free_at s' p → free_at s p ∨ b ≤ p < e).
Proof.
  intros Htr Hbe He Hlen Hfree. assert (by_end s !! e = None ∧ b ∉ offsets (default (mkBucket false ∅) (ranges s !! (e - b))))
    as [Hnone Hbk] by by eapply add_fresh.
  destruct (max_entries_ok (e - b)) as (m & Hm & Hm1); [lia|].
  unfold BestFit.insert_range, BestFit.set_ranges, BestFit.set_by_end. cbn [start end_].
  rewrite u64_sub_ok by lia. st_simpl.
  set (k := default (mkBucket false ∅) (ranges s !! (e - b))) in *.
  rewrite bool_decide_eq_false_2 by done. st_simpl. cbn [ranges by_end]. rewrite Hnone, Hm. st_simpl.
  cbn [overflow offsets].
  change (mkBestFit (<[e - b:=mkBucket (overflow k) (offsets k ∪ {[b]})]> (ranges s)) (<[e:=b]> (by_end s)))
    with (added s b e).
  destruct (Z.ltb_spec m (Z.of_nat (size (offsets k ∪ {[b]})))) as [Hbig|Hsmall].
  - destruct (bs_last (offsets k ∪ {[b]})) as [last|] eqn:Elast.
    2:{ apply bs_last_None in Elast. set_solver. }
    apply bs_last_Some in Elast as [Hlast _].
    assert (by_end (added s b e) !! (last + (e - b)) = Some last) as Hl by by eapply drop_indexed.
    pose proof (ix_range _ (indexed_added s b e (proj1 (tr_wf _ _ Htr)) Hbe He Hlen Hfree) _ _ Hl).
    st_simpl. rewrite u64_add_ok by lia. st_simpl. rewrite bool_decide_eq_false_2 by (intros Hn; by apply Hn).
    cbn [ranges by_end offsets]. eexists. split; [done|]. unfold k. rewrite <- drop_state. split.
    + eapply tracks_dropped; try done. lia.
    + intros p. by eapply drop_free.
  - eexists. split; [done|]. split; [by eapply tracks_added|].
    intros p Hp. by eapply add_free.
Qed.

(** ** [free] *)
Lemma free_fragments_ok fuel s F b e :
  tracks s F → 0 ≤ b < e → e ≤ u64_max → (∀ p, b ≤ p < e → ¬ free_at s p) →
  (e - b) `div` DEFAULT_MAX_EXTENT_SIZE < Z.of_nat fuel →
  ∃ s' e', BestFit.free_fragments fuel (b ..< e) s = (Ok (b ..< e'), s') ∧
    b ≤ e' ≤ e ∧ e' - b < DEFAULT_MAX_EXTENT_SIZE ∧ tracks s' (λ p, F p ∨ e' ≤ p < e) ∧
    (∀ p, free_at s' p → free_at s p ∨ e' ≤ p < e).
Proof.
  pose proof max_extent_pos as HM.
  revert s F e. induction fuel as [|fuel IH]; intros s F e Htr Hbe He Hfree Hfuel.
  { pose proof (Z.div_pos (e - b) DEFAULT_MAX_EXTENT_SIZE ltac:(lia) HM). lia. }
  cbn [BestFit.free_fragments start end_]. rewrite (u64_sub_ok e b) by lia. st_simpl.
  destruct (Z.leb_spec DEFAULT_MAX_EXTENT_SIZE (e - b)) as [Hbig|Hsmall].
  2:{ exists s, e. split_and!; [done|lia..| |by left]. eapply tracks_ext; [|done]. intros p. split; [by left|].
      intros [?|?]; [done|lia]. }
  rewrite u64_sub_ok by lia. st_simpl. set (m := e - DEFAULT_MAX_EXTENT_SIZE).
  destruct (insert_range_ok s F m e) as (s1 & -> & Htr1 & Hf1); [done|lia..| |].
  { intros p Hp. apply Hfree. lia. }
  st_simpl. destruct (decide (b < m)) as [Hbm|Hbm].
  - destruct (IH s1 _ m Htr1) as (s' & e' & -> & He' & Hlt & Htr' & Hf'); [lia..| | |].
    + intros p Hp Hf. apply Hf1 in Hf as [Hf|?]; [|lia]. apply (Hfree p); [lia|done].
    + unfold m. replace (e - DEFAULT_MAX_EXTENT_SIZE - b) with (e - b + (-1) * DEFAULT_MAX_EXTENT_SIZE) by lia.
      rewrite Z.div_add by lia. lia.
    + exists s', e'. split_and!; [done|lia..| |].
      * eapply tracks_ext; [|exact Htr']. intros p. cbn. split.
        -- intros [[?|?]|?]; [by left|right; lia..].
        -- intros [?|?]; [by left; left|]. destruct (decide (p < m)); [right; lia|left; right; lia].
      * intros p Hp. apply Hf' in Hp as [Hp|?]; [apply Hf1 in Hp as [?|?]; [by left|right; lia]|right; lia].
  - assert (m = b) as -> by lia. exists s1, b.
    destruct fuel as [|fuel].
    { assert (1 ≤ (e - b) `div` DEFAULT_MAX_EXTENT_SIZE); [|lia]. apply Z.div_le_lower_bound; lia. }
    cbn [BestFit.free_fragments start end_]. rewrite (u64_sub_ok b b) by lia. st_simpl.
    destruct (Z.leb_spec DEFAULT_MAX_EXTENT_SIZE (b - b)); [lia|]. split_and!; [done|lia..|done|done].
Qed.

(** The end of [free]: the coalesced range is added, in fragments. *)
Lemma free_insert_ok s F b e :
  tracks s F → 0 ≤ b < e → e ≤ u64_max → (∀ p, b ≤ p < e → ¬ free_at s p) →
  ∃ s', (r ← BestFit.free_fragments (Z.to_nat ((e - b) `div` DEFAULT_MAX_EXTENT_SIZE + 1)) (b ..< e);
         if start r <? end_ r then BestFit.insert_range r else mret tt) s = (Ok tt, s') ∧
    tracks s' (λ p, F p ∨ b ≤ p < e) ∧ (∀ p, free_at s' p → free_at s p ∨ b ≤ p < e).
Proof.
  intros Htr Hbe He Hfree. pose proof max_extent_pos as HM.
  pose proof (Z.div_pos (e - b) DEFAULT_MAX_EXTENT_SIZE ltac:(lia) HM).
  destruct (free_fragments_ok (Z.to_nat ((e - b) `div` DEFAULT_MAX_EXTENT_SIZE + 1)) s F b e)
    as (s1 & e' & Hrun & He' & Hlt & Htr1 & Hf1); [done|lia|lia|done|lia|].
  rewrite st_bind_run, Hrun. cbn [start end_]. destruct (Z.ltb_spec b e').
  - destruct (insert_range_ok s1 _ b e' Htr1) as (s2 & -> & Htr2 & Hf2); [lia..| |].
    + intros p Hp Hf. apply Hf1 in Hf as [Hf|?]; [apply (Hfree p); [lia|done]|lia].
    + exists s2. split_and!; [done| |].
      * eapply tracks_ext; [|exact Htr2]. intros p. cbn. split.
        -- intros [[?|?]|?]; [by left|right; lia..].
        -- intros [?|?]; [by left; left|]. destruct (decide (p < e')); [right; lia|left; right; lia].
      * intros p Hp. apply Hf2 in Hp as [Hp|?]; [apply Hf1 in Hp as [?|?]; [by left|right; lia]|right; lia].
  - assert (e' = b) as -> by lia. exists s1. done.
Qed.

(** A free range that overlaps a range none of which is free would share a
    byte with it. *)
Lemma apart s b e b' e' :
  indexed s → by_end s !! e' = Some b' → b < e → (∀ p, b ≤ p < e → ¬ free_at s p) → b < e' → e ≤ b'.
Proof.
  intros Hix Hb' Hbe Hfree Hlt. pose proof (ix_range _ Hix _ _ Hb'). apply Z.le_ngt. intros Hov.
  apply (Hfree (Z.max b b')); [lia|]. exists e', b'. split; [done|lia].
Qed.

Lemma merge_before_ok s F b e :
  tracks s F → 0 ≤ b < e → e ≤ u64_max → (∀ p, b ≤ p < e → ¬ free_at s p) →
  ∃ s' F' b' next, BestFit.merge_before (b ..< e) s = (Ok (b' ..< e, next), s') ∧
    0 ≤ b' ≤ b ∧ tracks s' F' ∧ (∀ p, b' ≤ p < e → ¬ free_at s' p) ∧
    (∀ p, F' p ∨ b' ≤ p < e ↔ F p ∨ b ≤ p < e) ∧
    (∀ p, free_at s' p ∨ b' ≤ p < e ↔ free_at s p ∨ b ≤ p < e) ∧
    match next with Some (e', b') => by_end s' !! e' = Some b' ∧ e ≤ b' | None => True end.
Proof.
  intros Htr Hbe He Hfree. pose proof (tr_wf _ _ Htr) as [Hix Hbd].
  unfold BestFit.merge_before. st_simpl. cbn [start].
  destruct (bt_first_ge (by_end s) b) as [[e0 b0]|] eqn:E.
  2:{ exists s, F, b, None. by split_and!; [|lia|lia|..]. }
  apply bt_first_ge_Some in E as (Hb0 & He0 & _).
  destruct (Z.eqb_spec e0 b) as [->|Hne].
  - destruct (remove_range_run s b0 b) as (k & Hk & Hrun); [done..|]. pose proof (ix_range _ Hix _ _ Hb0).
    rewrite st_bind_run, Hrun. cbn [end_]. rewrite u64_add_ok by lia. st_simpl.
    pose proof (tracks_removed s F b0 b k Htr Hb0 Hk) as Htr'.
    set (s' := removed s b0 b (overflow k)) in *.
    assert (∀ p, free_at s' p ↔ free_at s p ∧ ¬ (b0 ≤ p < b)) as Hf' by (intros; by apply free_at_removed).
    assert (∀ p, b0 ≤ p < b → free_at s p) as Hin by (intros p Hp; by exists b, b0).
    assert (∀ p, b0 ≤ p < e → ¬ free_at s' p) as Hfree'.
    { intros p Hp. rewrite Hf'. intros [Hp1 Hp2]. apply (Hfree p); [lia|done]. }
    eexists s', _, b0, _. split; [done|]. split_and!; [lia|lia|exact Htr'|done|..].
    + intros p. cbn. split.
      * intros [[? _]|?]; [by left|]. destruct (decide (p < b)); [left; apply (tr_sound _ _ Htr), Hin; lia|right; lia].
      * intros [?|?]; [|right; lia]. destruct (decide (b0 ≤ p < b)); [right; lia|by left].
    + intros p. rewrite Hf'. split.
      * intros [[? _]|?]; [by left|]. destruct (decide (p < b)); [left; apply Hin; lia|right; lia].
      * intros [?|?]; [|right; lia]. destruct (decide (b0 ≤ p < b)); [right; lia|by left].
    + destruct (bt_first_ge (by_end s') (b0 + 1)) as [[e1 b1]|] eqn:E1; [|done].
      apply bt_first_ge_Some in E1 as (Hb1 & He1 & _). split; [done|].
      eapply (apart s' b0); [apply (tr_wf _ _ Htr')|done|lia|done|lia].
  - assert (e ≤ b0) by (eapply (apart s b); [done..|lia|done|lia]). cbn [end_].
    destruct (Z.ltb_spec b0 e); [lia|]. exists s, F, b, (Some (e0, b0)). by split_and!; [|lia|lia|..].
Qed.

Lemma merge_after_ok s F b e next :
  tracks s F → 0 ≤ b < e → e ≤ u64_max → (∀ p, b ≤ p < e → ¬ free_at s p) →
  match next with Some (e', b') => by_end s !! e' = Some b' ∧ e ≤ b' | None => True end →
  ∃ s' F' e', BestFit.merge_after (b ..< e) next s = (Ok (b ..< e'), s') ∧
    e ≤ e' ≤ u64_max ∧ tracks s' F' ∧ (∀ p, b ≤ p < e' → ¬ free_at s' p) ∧
    (∀ p, F' p ∨ b ≤ p < e' ↔ F p ∨ b ≤ p < e) ∧
    (∀ p, free_at s' p ∨ b ≤ p < e' ↔ free_at s p ∨ b ≤ p < e).
Proof.
  intros Htr Hbe He Hfree Hnext. pose proof (tr_wf _ _ Htr) as [Hix Hbd].
  unfold BestFit.merge_after. cbn [start end_].
  destruct next as [[e0 b0]|]; [|by exists s, F, e; split_and!; [|lia|lia|..]].
  destruct Hnext as [Hb0 Hle]. destruct (Z.eqb_spec b0 e) as [->|Hne]; [|by exists s, F, e; split_and!; [|lia|lia|..]].
  destruct (remove_range_run s e e0) as (k & Hk & Hrun); [done..|]. pose proof (ix_range _ Hix _ _ Hb0).
  rewrite st_bind_run, Hrun. pose proof (tracks_removed s F e e0 k Htr Hb0 Hk) as Htr'.
  set (s' := removed s e e0 (overflow k)) in *.
  assert (∀ p, free_at s' p ↔ free_at s p ∧ ¬ (e ≤ p < e0)) as Hf' by (intros; by apply free_at_removed).
  assert (∀ p, e ≤ p < e0 → free_at s p) as Hin by (intros p Hp; by exists e0, e).
  eexists s', _, e0. split; [done|]. split_and!; [lia|lia|exact Htr'|..].
  - intros p Hp. rewrite Hf'. intros [Hp1 Hp2]. apply (Hfree p); [lia|done].
  - intros p. cbn. split.
    + intros [[? _]|?]; [by left|]. destruct (decide (p < e)); [right; lia|left; apply (tr_sound _ _ Htr), Hin; lia].
    + intros [?|?]; [|right; lia]. destruct (decide (e ≤ p < e0)); [right; lia|by left].
  - intros p. rewrite Hf'. split.
    + intros [[? _]|?]; [by left|]. destruct (decide (p < e)); [right; lia|left; apply Hin; lia].
    + intros [?|?]; [|right; lia]. destruct (decide (e ≤ p < e0)); [right; lia|by left].
Qed.

Lemma free_ok s F b e :
  tracks s F → 0 ≤ b < e → e ≤ u64_max → (∀ p, b ≤ p < e → ¬ free_at s p) →
  ∃ s', BestFit.free (b ..< e) s = (Ok tt, s') ∧ tracks s' (λ p, F p ∨ b ≤ p < e) ∧
    (∀ p, free_at s' p → free_at s p ∨ b ≤ p < e).
Proof.
  intros Htr Hbe He Hfree. unfold BestFit.free.
  destruct (merge_before_ok s F b e) as (s1 & F1 & b1 & next & Hr1 & Hb1 & Htr1 & Hd1 & HF1 & Hf1 & Hnext);
    [done..|]. rewrite st_bind_run, Hr1.
  destruct (merge_after_ok s1 F1 b1 e next) as (s2 & F2 & e2 & Hr2 & He2 & Htr2 & Hd2 & HF2 & Hf2);
    [done|lia|lia|done|done|]. rewrite st_bind_run, Hr2. cbn [start end_].
  destruct (free_insert_ok s2 F2 b1 e2) as (s3 & Hr3 & Htr3 & Hf3); [done|lia|lia|done|].
  exists s3. split; [exact Hr3|]. split.
  - eapply tracks_ext; [|exact Htr3]. intros p. cbn. by rewrite HF2, HF1.
  - intros p Hp. apply Hf3 in Hp. by apply Hf2, Hf1 in Hp.
Qed.
End operations.
