(* ===== verification/StrategyOps.v ===== *)
(** * The operations of the allocation strategy

    [allocate], [free], [force_free], [remove] and [reset_overflow_markers] of
    [BestFit] against the free space they are to track. *)

From S2P Require Import Prelude BTree Round Strategy.

Section theorems.
Implicit Types (s : BestFit) (b e p : Z) (F : Z → Prop) (r : range).

Lemma tracks_self s : wf s → tracks s (free_at s).
Proof. intros Hw. split; [done..|by left]. Qed.

Lemma wf_empty : wf (mkBestFit ∅ ∅).
Proof.
  split; [|by intros ???]. split; cbn; try (intros *; by rewrite ?lookup_empty).
  intros e b. rewrite !lookup_empty. split; [done|]. by intros (? & ? & _).
Qed.

#[local] Instance free_at_dec s p : Decision (free_at s p).
Proof.
  refine (cast_if (decide (Exists (λ eb, eb.2 ≤ p < eb.1) (map_to_list (by_end s)))));
    rewrite Exists_exists in *.
  - destruct e as ([e b] & Hin & Hp). exists e, b. by rewrite <- elem_of_map_to_list.
  - intros (e & b & Hb & Hp). apply n. exists (e, b). by rewrite elem_of_map_to_list.
Defined.

(** C37: Freeing a range of allocated bytes succeeds and adds exactly its bytes
    to the free space; bytes go untracked only if a bucket has overflowed. *)
Theorem best_fit_free s F r :
  tracks s F → 0 ≤ start r < end_ r → end_ r ≤ u64_max →
  (∀ p, in_range p r → ¬ free_at s p) →
  ∃ s', BestFit.free r s = (Ok tt, s') ∧ tracks s' (λ p, F p ∨ in_range p r).
Proof.
  intros Htr Hr He Hf. destruct r as [b e]. destruct (free_ok s F b e) as (s' & Hrun & Htr' & _); [done..|].
  by exists s'.
Qed.

(** ** [allocate] *)

(** The bucket [allocate] picks: the smallest length that is large enough,
    or else the largest there is. *)
Definition picks s (bytes size : Z) : Prop :=
  ∀ len k, ranges s !! len = Some k →
    if bytes <=? size then bytes ≤ len → size ≤ len else len ≤ size.

Lemma allocate_pick s bytes :
  (match bt_first_ge (ranges s) bytes with None => bt_last (ranges s) | r => r end) = None ∧ ranges s = ∅ ∨
  ∃ size k, (match bt_first_ge (ranges s) bytes with None => bt_last (ranges s) | r => r end) = Some (size, k) ∧
    ranges s !! size = Some k ∧ picks s bytes size.
Proof.
  unfold picks. destruct (bt_first_ge (ranges s) bytes) as [[size k]|] eqn:E.
  - apply bt_first_ge_Some in E as (Hk & Hle & Hmin). right. exists size, k. split_and!; [done..|].
    intros len k' Hk'. destruct (Z.leb_spec bytes size); [|lia]. by apply (Hmin len k').
  - rewrite bt_first_ge_None in E. destruct (bt_last (ranges s)) as [[size k]|] eqn:E2.
    + apply bt_last_Some in E2 as [Hk Hmax]. right. exists size, k. split_and!; [done..|].
      intros len k' Hk'. specialize (E size k Hk). destruct (Z.leb_spec bytes size); [lia|]. by eapply Hmax.
    + left. split; [done|]. by apply bt_last_None.
Qed.

(** C36: [allocate] never panics. It hands out bytes that were free and takes
    exactly those out of the free space, from the start of the smallest range
    that is large enough, or the whole of the largest one if none is; it fails
    without change if nothing is tracked or if the bucket it picks has
    overflowed and is empty. *)
Theorem best_fit_allocate s F bytes :
  tracks s F → 0 < bytes →
  match BestFit.allocate bytes s with
  | (Ok r, s') =>
      ∃ size, by_end s !! (start r + size) = Some (start r) ∧ picks s bytes size ∧
        end_ r = start r + Z.min size bytes ∧ tracks s' (λ p, F p ∧ ¬ in_range p r)
  | (Err er, s') =>
      s' = s ∧ (er = Fxfs NoSpace ∧ ranges s = ∅ ∨
                er = Fxfs NotFound ∧ ∃ size k, ranges s !! size = Some k ∧ picks s bytes size ∧
                  offsets k = ∅ ∧ overflow k = true)
  | _ => False
  end.
Proof.
  intros Htr Hb. pose proof (tr_wf _ _ Htr) as [Hix Hbd].
  unfold BestFit.allocate, BestFit.set_ranges, BestFit.set_by_end. st_simpl.
  destruct (allocate_pick s bytes) as [[-> Hemp]|(size & k & -> & Hk & Hpick)].
  { st_simpl. split; [done|]. by left. }
  destruct (decide (offsets k = ∅)) as [Hko|Hko].
  { pose proof (ix_empty _ Hix _ _ Hk Hko) as Hov. rewrite bool_decide_eq_true_2, Hov by done. cbn [andb].
    st_simpl. split; [done|]. right. split; [done|]. by exists size, k. }
  rewrite bool_decide_eq_false_2 by done. cbn [andb]. st_simpl. cbn [negb rassert].
  destruct (bs_first (offsets k)) as [offset|] eqn:Eoff; [|by apply bs_first_None in Eoff].
  apply bs_first_Some in Eoff as [Hoff _].
  assert (by_end s !! (offset + size) = Some offset) as Hoe.
  { apply (ix_index _ Hix). replace (offset + size - offset) with size by lia. by exists k. }
  pose proof (ix_range _ Hix _ _ Hoe) as Hr. st_simpl. rewrite (u64_add_ok offset size) by lia. st_simpl.
  cbn [ranges by_end].
  assert (ranges s !! (offset + size - offset) = Some k) as Hk' by (by replace (offset + size - offset) with size by lia).
  pose proof (tracks_removed s F offset (offset + size) k Htr Hoe Hk') as Htr'.
  unfold removed in Htr'. rewrite Hk' in Htr'. replace (offset + size - offset) with size in Htr' by lia.
  cbn [default] in Htr'. unfold id in Htr'. set (s1 := mkBestFit _ _) in *.
  assert (∀ p, free_at s1 p → free_at s p ∧ ¬ (offset ≤ p < offset + size)) as Hf1.
  { intros p. pose proof (free_at_removed s offset (offset + size) (overflow k) p Hix Hoe) as Hfr.
    unfold removed in Hfr. rewrite Hk' in Hfr. replace (offset + size - offset) with size in Hfr by lia.
    apply Hfr. }
  destruct (Z.ltb_spec bytes size).
  - rewrite (u64_add_ok offset bytes) by lia. st_simpl. unfold st_expect.
    destruct (free_ok s1 _ (offset + bytes) (offset + size) Htr') as (s2 & -> & Htr2 & _); [lia..| |].
    { intros p Hp Hf. apply Hf1 in Hf as [_ Hf]. lia. }
    st_simpl. exists size. cbn [start end_]. split_and!; [done..|f_equal; lia|].
    eapply tracks_ext; [|exact Htr2]. intros p. cbn. unfold in_range. cbn [start end_].
    pose proof (tr_sound _ _ Htr p) as Hs. split.
    + intros [[? ?]|?]; [split; [done|lia]|]. split; [|lia]. apply Hs. exists (offset + size), offset. split; [done|lia].
    + intros [? ?]. destruct (decide (offset ≤ p < offset + size)); [right; lia|left; done].
  - exists size. cbn [start end_]. split_and!; [done..|f_equal; lia|].
    eapply tracks_ext; [|exact Htr']. intros p. done.
Qed.

(** ** Overlapping frees *)

(** A range that overlaps the next free range, and does not touch the one
    before, is refused and nothing changes. *)
Theorem best_fit_free_overlap s b e e' b' :
  b < e → bt_first_ge (by_end s) b = Some (e', b') → b < e' → b' < e →
  BestFit.free (b ..< e) s = (Err (Fxfs Inconsistent), s).
Proof.
  intros Hbe Hfirst Hlt Hov. unfold BestFit.free, BestFit.merge_before. st_simpl. cbn [start end_].
  rewrite Hfirst. destruct (Z.eqb_spec e' b); [lia|]. destruct (Z.ltb_spec b' e); [|lia]. done.
Qed.

(** A range that touches the free range before it is not checked against
    the one after it: the free of 10..30 below is accepted although 15..25 is
    free already, and the strategy then has the same bytes twice. *)
Theorem best_fit_free_misses_overlap :
  ∃ s s', wf s ∧ free_at s 15 ∧ BestFit.free (10 ..< 30) s = (Ok tt, s') ∧
    by_end s' !! 30 = Some 0 ∧ by_end s' !! 25 = Some 15.
Proof.
  pose proof (tracks_self _ wf_empty) as Ht0.
  destruct (free_ok (mkBestFit ∅ ∅) _ 0 10 Ht0) as (s1 & Hr1 & Ht1 & Hf1);
    [lia|by vm_compute|by intros p _ (? & ? & ? & _)|].
  destruct (free_ok s1 _ 15 25 Ht1) as (s2 & Hr2 & Ht2 & Hf2); [lia|by vm_compute| |].
  { intros p Hp Hf. apply Hf1 in Hf as [(? & ? & ? & _)|?]; [done|lia]. }
  assert (s2 = (BestFit.free (15 ..< 25) (BestFit.free (0 ..< 10) (mkBestFit ∅ ∅)).2).2) as ->
    by (by rewrite Hr1; cbn [snd]; rewrite Hr2).
  eexists _, _. split; [apply (tr_wf _ _ Ht2)|]. split; [exists 25, 15; split; [by vm_compute|lia]|].
  split_and!; by vm_compute.
Qed.

(** ** Freeing and removing several ranges *)
Definition apart_from r (q : range) : Prop := ∀ p, in_range p r → ¬ in_range p q.

Lemma free_all l s F :
  tracks s F → Forall (λ r, 0 ≤ start r < end_ r ∧ end_ r ≤ u64_max) l →
  StronglySorted apart_from l → (∀ p, within l p → ¬ free_at s p) →
  ∃ s', st_for l BestFit.free s = (Ok tt, s') ∧ st_for l (λ r, st_expect (BestFit.free r)) s = (Ok tt, s') ∧
    tracks s' (λ p, F p ∨ within l p) ∧ (∀ p, free_at s' p → free_at s p ∨ within l p).
Proof.
  revert s F. induction l as [|r l IH]; intros s F Htr Hv Hs Hf.
  { exists s. split_and!; [done..| |by left]. eapply tracks_ext; [|done]. intros p. rewrite within_nil. tauto. }
  apply Forall_cons in Hv as [[Hr He] Hv]. apply StronglySorted_cons in Hs as [Hr' Hs].
  rewrite Forall_forall in Hr'. destruct r as [b e].
  destruct (free_ok s F b e) as (s1 & Hrun & Htr1 & Hf1); [done..| |].
  { intros p Hp. apply Hf. exists (b ..< e). split; [by left|done]. }
  destruct (IH s1 _ Htr1 Hv Hs) as (s' & H1 & H2 & Htr' & Hf').
  { intros p (q & Hq & Hp) Hfr. apply Hf1 in Hfr as [Hfr|Hin].
    - apply (Hf p); [|done]. exists q. split; [by right|done].
    - by apply (Hr' q Hq p). }
  exists s'. cbn [st_for]. rewrite !st_bind_run. unfold st_expect at 1. rewrite Hrun. split_and!; [done..| |].
  - eapply tracks_ext; [|exact Htr']. intros p. cbn. rewrite within_cons. unfold in_range. cbn [start end_]. tauto.
  - intros p Hp. rewrite within_cons. unfold in_range. cbn [start end_].
    apply Hf' in Hp as [[?|?]%Hf1|?]; tauto.
Qed.

Lemma remove_all (l : list (Z * Z)) s F :
  tracks s F → NoDup l.*1 → (∀ e b, (e, b) ∈ l → by_end s !! e = Some b) →
  ∃ s', st_for ((λ eb, eb.2 ..< eb.1) <$> l) BestFit.remove_range s = (Ok tt, s') ∧
    tracks s' (λ p, F p ∧ ¬ within ((λ eb, eb.2 ..< eb.1) <$> l) p) ∧
    (∀ p, free_at s' p → free_at s p ∧ ¬ within ((λ eb, eb.2 ..< eb.1) <$> l) p).
Proof.
  revert s F. induction l as [|[e b] l IH]; intros s F Htr Hnd Hl.
  { exists s. split_and!; [done|eapply tracks_ext; [|done]|]; intros p; cbn [fmap list_fmap];
      rewrite within_nil; tauto. }
  rewrite fmap_cons in Hnd. apply NoDup_cons in Hnd as [Hn Hnd]. rewrite fmap_cons. cbn [st_for fst snd].
  assert (by_end s !! e = Some b) as Hb by (apply Hl; by left).
  pose proof (tr_wf _ _ Htr) as Hw. destruct (remove_range_run s b e Hw Hb) as (k & Hk & Hrun).
  rewrite st_bind_run, Hrun. pose proof (tracks_removed s F b e k Htr Hb Hk) as Htr1.
  assert (∀ p, free_at (removed s b e (overflow k)) p ↔ free_at s p ∧ ¬ (b ≤ p < e)) as Hf1
    by (intros; apply free_at_removed; [apply Hw|done]).
  destruct (IH _ _ Htr1 Hnd) as (s' & -> & Htr' & Hf').
  { intros e' b' Hin. unfold removed. cbn [by_end]. rewrite lookup_delete_ne; [apply Hl; by right|].
    intros ->. apply Hn, list_elem_of_fmap. by exists (e', b'). }
  exists s'. split_and!; [done|eapply tracks_ext; [|done]|]; intros p.
  - rewrite within_cons. unfold in_range. cbn. tauto.
  - intros [[Hp Hn'']%Hf1 Hn']%Hf'. rewrite within_cons. unfold in_range. cbn. tauto.
Qed.

(** The free ranges that end after a position, in order. *)
Definition ladder (l : list (Z * Z)) : Prop :=
  StronglySorted (λ x y, x.1 ≤ y.2) l ∧ Forall (λ x, x.2 < x.1 ∧ 0 ≤ x.2 ∧ x.1 ≤ u64_max) l.

Lemma ladder_cons e b l :
  ladder ((e, b) :: l) ↔ (0 ≤ b < e ∧ e ≤ u64_max) ∧ Forall (λ x, e ≤ x.2) l ∧ ladder l.
Proof. unfold ladder. rewrite StronglySorted_cons, Forall_cons. cbn. intuition lia. Qed.

Lemma range_from_ladder s k : indexed s → ladder (bt_range_from (by_end s) k).
Proof.
  intros Hix. pose proof (bt_range_from_sorted (by_end s) k) as Hs.
  pose proof (bt_range_from_NoDup_fst (by_end s) k) as Hnd.
  assert (∀ x, x ∈ bt_range_from (by_end s) k → by_end s !! x.1 = Some x.2) as Hin.
  { intros [e b] Hx. by apply elem_of_bt_range_from in Hx as [? _]. }
  revert Hs Hnd Hin. induction (bt_range_from (by_end s) k) as [|[e b] l IH]; intros Hs Hnd Hin.
  { split; constructor. }
  rewrite fmap_cons in Hnd. apply NoDup_cons in Hnd as [Hn Hnd]. apply StronglySorted_cons in Hs as [Hx Hs].
  pose proof (ix_range _ Hix _ _ (Hin (e, b) ltac:(by left))) as Hr. cbn in Hr.
  rewrite ladder_cons. split_and!; [lia..| |apply IH; [done..|set_solver]].
  rewrite Forall_forall in *. intros [e' b'] Hy. specialize (Hx _ Hy). unfold key_le in Hx. cbn in *.
  eapply (ix_disjoint _ Hix e b e' b'); [apply (Hin (e, b)); by left|apply (Hin (e', b')); by right|].
  assert (e ≠ e'); [|lia]. intros ->. apply Hn, list_elem_of_fmap. by exists (e', b').
Qed.

(** The bytes of the ranges of a list. *)
Definition on (l : list (Z * Z)) p : Prop := ∃ e b, (e, b) ∈ l ∧ b ≤ p < e.

Lemma on_range_from s k p : indexed s → k ≤ p → free_at s p ↔ on (bt_range_from (by_end s) (k + 1)) p.
Proof.
  intros Hix Hp. unfold free_at, on. setoid_rewrite elem_of_bt_range_from. split.
  - intros (e & b & Hb & Hin). exists e, b. split_and!; [done|lia..].
  - intros (e & b & [Hb _] & Hin). by exists e, b.
Qed.

Lemma on_nil p : on [] p ↔ False.
Proof. split; [|done]. by intros (e & b & ?%elem_of_nil & _). Qed.

Lemma on_cons e b l p : on ((e, b) :: l) p ↔ b ≤ p < e ∨ on l p.
Proof.
  unfold on. setoid_rewrite elem_of_cons. split.
  - intros (e' & b' & [[= -> ->]|Hin] & Hp); [by left|right; by exists e', b'].
  - intros [Hp|(e' & b' & Hin & Hp)]; [exists e, b|exists e', b']; by auto.
Qed.

Lemma on_ge e l p : Forall (λ x, e ≤ x.2) l → on l p → e ≤ p.
Proof. rewrite Forall_forall. intros Hl (e' & b' & Hin & Hp). specialize (Hl _ Hin). cbn in Hl. lia. Qed.

(** ** [force_free] *)

(** The gaps are the bytes of the range that are not free. *)
Lemma gaps_ok r l last ta :
  ladder l → Forall (λ x, last < x.1) l → start r ≤ last → 0 ≤ last →
  ∃ last' adds, BestFit.gaps r l last ta = Ok (last', ta ++ adds) ∧ last ≤ last' ∧
    Forall (λ q, last ≤ start q < end_ q ∧ end_ q ≤ last' ∧ end_ q ≤ end_ r) adds ∧
    StronglySorted apart_from adds ∧
    ∀ p, last ≤ p < end_ r → within adds p ∨ last' ≤ p ↔ ¬ on l p.
Proof.
  revert last ta. induction l as [|[e b] l IH]; intros last ta Hl Hlast Hst H0; cbn [BestFit.gaps].
  { exists last, []. rewrite app_nil_r. split_and!; [done|lia|constructor|constructor|].
    intros p Hp. rewrite within_nil, on_nil. intuition lia. }
  apply ladder_cons in Hl as ([Hb He] & Hle & Hl). apply Forall_cons in Hlast as [Hlt Hlast]. cbn in Hlt.
  destruct (Z.leb_spec (end_ r) b) as [Hbr|Hbr].
  { exists last, []. rewrite app_nil_r. split_and!; [done|lia|constructor|constructor|].
    intros p Hp. rewrite within_nil, on_cons. split; [|intuition lia]. intros _ [?|Ho%(on_ge e _ _ Hle)]; lia. }
  unfold rassert. destruct (Z.ltb_spec (start r) e); [|lia]. res_simpl.
  destruct (IH e (if last <? b then ta ++ [last ..< b] else ta)) as (last' & adds & -> & Hge & Ha & Hs & Hp); [done| |lia..|].
  { rewrite Forall_forall in *. intros x Hx. specialize (Hle x Hx).
    destruct Hl as [_ Hl]. rewrite Forall_forall in Hl. specialize (Hl x Hx). lia. }
  exists last', ((if last <? b then [last ..< b] else []) ++ adds). split_and!.
  - bsplit; by rewrite <- ?app_assoc.
  - lia.
  - apply Forall_app. split; [bsplit; repeat constructor; cbn; lia|].
    eapply Forall_impl; [exact Ha|]. intros q. cbn. lia.
  - destruct (Z.ltb_spec last b); [|done]. cbn [app]. constructor; [done|].
    rewrite Forall_forall in *. intros q Hq p Hp1 Hp2. specialize (Ha q Hq). unfold in_range in *. cbn in *. lia.
  - intros p Hpr. rewrite within_app, on_cons.
    assert (within (if last <? b then [last ..< b] else []) p ↔ last ≤ p < b) as ->.
    { destruct (Z.ltb_spec last b); [rewrite within_cons|]; rewrite within_nil; unfold in_range; cbn; intuition lia. }
    destruct (decide (e ≤ p)); [specialize (Hp p ltac:(lia)); intuition lia|].
    assert (¬ on l p) by (intros Ho%(on_ge e _ _ Hle); lia).
    assert (¬ within adds p).
    { intros (q & Hq & Hin). rewrite Forall_forall in Ha. specialize (Ha q Hq). unfold in_range in Hin. lia. }
    intuition lia.
Qed.

(** [force_free] makes every byte of the range free and reports whether any
    of them was not. *)
Theorem best_fit_force_free s F r :
  tracks s F → 0 ≤ start r < end_ r → end_ r ≤ u64_max →
  ∃ s' changed, BestFit.force_free r s = (Ok changed, s') ∧
    tracks s' (λ p, F p ∨ in_range p r) ∧
    (changed = true ↔ ∃ p, in_range p r ∧ ¬ free_at s p).
Proof.
  intros Htr Hr He. pose proof (tr_wf _ _ Htr) as [Hix _]. unfold BestFit.force_free. st_simpl.
  rewrite u64_add_ok by lia. st_simpl.
  assert (Forall (λ x, start r < x.1) (bt_range_from (by_end s) (start r + 1))) as Hgt.
  { apply Forall_forall. intros [e b] Hx. apply elem_of_bt_range_from in Hx as [_ Hx]. cbn. lia. }
  destruct (gaps_ok r _ (start r) [] (range_from_ladder s _ Hix) Hgt) as (last & adds & -> & Hge & Ha & Hs & Hp);
    [lia..|]. rewrite app_nil_l. st_simpl.
  set (all := if last <? end_ r then adds ++ [last ..< end_ r] else adds).
  assert (∀ p, within all p ↔ in_range p r ∧ ¬ free_at s p) as Hall.
  { intros p. assert (within all p ↔ within adds p ∨ last ≤ p < end_ r) as ->.
    { unfold all. destruct (Z.ltb_spec last (end_ r)); [rewrite within_app, within_cons, within_nil|];
        unfold in_range; cbn; intuition lia. }
    assert (within adds p → in_range p r).
    { intros (q & Hq & Hin). rewrite Forall_forall in Ha. specialize (Ha q Hq). unfold in_range in *. lia. }
    unfold in_range in *. destruct (decide (start r ≤ p < end_ r)) as [Hin|]; [|intuition lia].
    rewrite (on_range_from s (start r)) by (done || lia). specialize (Hp p Hin). intuition lia. }
  assert (Forall (λ q, 0 ≤ start q < end_ q ∧ end_ q ≤ u64_max) all) as Hv.
  { assert (Forall (λ q, 0 ≤ start q < end_ q ∧ end_ q ≤ u64_max) adds).
    { eapply Forall_impl; [exact Ha|]. intros q. cbn. lia. }
    unfold all. destruct (Z.ltb_spec last (end_ r)); [|done].
    apply Forall_app. split; [done|]. repeat constructor; cbn; lia. }
  destruct (free_all all s F Htr Hv) as (s' & Hrun & _ & Htr' & _).
  - unfold all. destruct (Z.ltb_spec last (end_ r)); [|done]. apply StronglySorted_app. split_and!; [|done|repeat constructor].
    intros q q' Hq ->%list_elem_of_singleton p Hp1 Hp2. rewrite Forall_forall in Ha. specialize (Ha q Hq).
    unfold in_range in *. cbn in *. lia.
  - intros p [_ ?]%Hall. done.
  - assert (tracks s' (λ p, F p ∨ in_range p r)) as Ht.
    { eapply tracks_ext; [|exact Htr']. intros p. cbn. rewrite Hall. pose proof (tr_sound _ _ Htr p).
      destruct (decide (free_at s p)); tauto. }
    destruct all as [|q l].
    + exists s', false. injection Hrun as <-. split_and!; [done..|]. split; [done|].
      intros (p & Hin & Hf). exfalso. by apply (within_nil p), Hall.
    + rewrite st_bind_run, Hrun. exists s', true. split_and!; [done..|]. split; [intros _|done].
      exists (start q). apply Hall, within_cons. left. apply Forall_cons in Hv as [Hv _]. unfold in_range. lia.
Qed.

(** ** [remove] *)
Lemma cuts_ok r l ta tr :
  start r < end_ r → ladder l → Forall (λ x, start r < x.1) l →
  ∃ sel rest adds, BestFit.cuts r l ta tr = Ok (ta ++ adds, tr ++ ((λ eb, eb.2 ..< eb.1) <$> sel)) ∧
    l = sel ++ rest ∧ Forall (λ x, end_ r ≤ x.2) rest ∧
    Forall (λ q, 0 ≤ start q < end_ q ∧ end_ q ≤ u64_max) adds ∧ StronglySorted apart_from adds ∧
    ∀ p, within adds p ↔ on sel p ∧ ¬ in_range p r.
Proof.
  intros Hr. revert ta tr. induction l as [|[e b] l IH]; intros ta tr Hl Hlast; cbn [BestFit.cuts].
  { exists [], [], []. rewrite !app_nil_r. split_and!; [done..|constructor|constructor|constructor|].
    intros p. rewrite within_nil, on_nil. tauto. }
  apply ladder_cons in Hl as ([Hb He] & Hle & Hl). apply Forall_cons in Hlast as [Hlt Hlast]. cbn in Hlt.
  destruct (Z.leb_spec (end_ r) b) as [Hbr|Hbr].
  { exists [], ((e, b) :: l), []. rewrite !app_nil_r. split_and!; [done..| |constructor|constructor|].
    - constructor; [done|]. eapply Forall_impl; [exact Hle|]. cbn. lia.
    - intros p. rewrite within_nil, on_nil. tauto. }
  unfold rassert. destruct (Z.ltb_spec (start r) e); [|lia]. res_simpl.
  set (here := (if b <? start r then [b ..< start r] else []) ++ (if end_ r <? e then [end_ r ..< e] else [])).
  assert ((if end_ r <? e then (if b <? start r then ta ++ [b ..< start r] else ta) ++ [end_ r ..< e]
           else if b <? start r then ta ++ [b ..< start r] else ta) = ta ++ here) as ->.
  { unfold here. bsplit; cbn [app]; by rewrite <- ?app_assoc, ?app_nil_r. }
  destruct (IH (ta ++ here) (tr ++ [b ..< e])) as (sel & rest & adds & -> & -> & Hrest & Hv & Hs & Hp); [done..|].
  exists ((e, b) :: sel), rest, (here ++ adds).
  assert (∀ p, within here p ↔ b ≤ p < e ∧ ¬ in_range p r) as Hhere.
  { intros p. unfold here. rewrite within_app. unfold in_range. bsplit; rewrite ?within_cons, ?within_nil;
      unfold in_range; cbn; lia. }
  assert (∀ p, within adds p → e ≤ p) as Hge.
  { intros p [Ho _]%Hp. apply (on_ge e sel); [|done]. by apply Forall_app in Hle as [? _]. }
  rewrite <- !app_assoc. split_and!; [done..| | |].
  - apply Forall_app. split; [|done]. unfold here. bsplit; repeat constructor; cbn; lia.
  - apply StronglySorted_app. split_and!; [|unfold here; bsplit; repeat constructor; intros p; unfold in_range; cbn; lia|done].
    intros q q' Hq Hq' p Hp1 Hp2. assert (within here p) as [? _]%Hhere by by exists q.
    assert (e ≤ p); [|lia]. apply Hge. by exists q'.
  - intros p. rewrite within_app, on_cons, Hhere, Hp. tauto.
Qed.

(** [remove] takes exactly the bytes of the range out of the free space. *)
Theorem best_fit_remove s F r :
  tracks s F → 0 ≤ start r < end_ r → end_ r ≤ u64_max →
  ∃ s', BestFit.remove r s = (Ok tt, s') ∧ tracks s' (λ p, F p ∧ ¬ in_range p r).
Proof.
  intros Htr Hr He. pose proof (tr_wf _ _ Htr) as [Hix _]. unfold BestFit.remove. st_simpl.
  rewrite u64_add_ok by lia. st_simpl. pose proof (range_from_ladder s (start r + 1) Hix) as Hl.
  set (l := bt_range_from (by_end s) (start r + 1)) in *.
  assert (∀ e b, (e, b) ∈ l → by_end s !! e = Some b ∧ start r + 1 ≤ e) as Hin
    by (intros e b; unfold l; by rewrite elem_of_bt_range_from).
  assert (Forall (λ x, start r < x.1) l) as Hgt.
  { apply Forall_forall. intros [e b] [_ ?]%Hin. cbn. lia. }
  destruct (cuts_ok r l [] [] ltac:(lia) Hl Hgt) as (sel & rest & adds & Hcuts & Hsplit & Hrest & Hv & Hs & Hp).
  rewrite Hcuts. rewrite !app_nil_l. st_simpl.
  destruct (remove_all sel s F Htr) as (s1 & -> & Htr1 & Hf1).
  { pose proof (bt_range_from_NoDup_fst (by_end s) (start r + 1)) as Hnd. fold l in Hnd.
    rewrite Hsplit, fmap_app in Hnd. by apply NoDup_app in Hnd as (? & _ & _). }
  { intros e b Hx. apply (Hin e b). rewrite Hsplit. set_solver. }
  assert (∀ p, within ((λ eb : Z * Z, eb.2 ..< eb.1) <$> sel) p ↔ on sel p) as Hsel.
  { intros p. clear. induction sel as [|[e b] sel IH]; [by rewrite on_nil, within_nil|].
    rewrite fmap_cons, within_cons, on_cons, IH. done. }
  st_simpl. destruct (free_all adds s1 _ Htr1 Hv Hs) as (s2 & _ & Hrun & Htr2 & Hf2).
  { intros p Hw Hf. apply Hf1 in Hf as [_ Hn]. apply Hn, Hsel. by apply Hp. }
  exists s2. split; [done|]. split; [apply (tr_wf _ _ Htr2)|..].
  - (* A free byte of the range was on a range that has been taken out. *)
    intros p Hf. apply Hf2 in Hf as [[Hf Hn]%Hf1|[Ho Hn]%Hp].
    + split; [by apply (tr_sound _ _ Htr)|]. intros Hpr. apply Hn, Hsel.
      apply (on_range_from s (start r)) in Hf as (e & b & Hx & Hpe); [|done|unfold in_range in Hpr; lia].
      fold l in Hx. rewrite Hsplit in Hx. apply elem_of_app in Hx as [Hx|Hx]; [by exists e, b|].
      rewrite Forall_forall in Hrest. specialize (Hrest _ Hx). unfold in_range in Hpr. cbn in Hrest. lia.
    + split; [|done]. apply (tr_sound _ _ Htr). destruct Ho as (e & b & Hx & Hpe). exists e, b.
      split; [|done]. apply (Hin e b). rewrite Hsplit. set_solver.
  - intros p [HF Hn]. apply (tr_complete _ _ Htr2). rewrite Hp, Hsel.
    destruct (decide (Exists (λ eb, eb.2 ≤ p < eb.1) sel)) as [Hd|Hd]; rewrite Exists_exists in Hd.
    + right. split; [|done]. destruct Hd as ([e b] & ? & ?). by exists e, b.
    + left. split; [done|]. intros (e & b & ? & ?). apply Hd. by exists (e, b).
Qed.

(** ** Overflow markers *)

(** [reset_overflow_markers] leaves the free ranges alone and no marker. *)
Theorem best_fit_reset s :
  wf s → ∃ s', BestFit.reset_overflow_markers s = (Ok tt, s') ∧ wf s' ∧ by_end s' = by_end s ∧
    BestFit.overflow_markers s' = [].
Proof.
  intros [Hix Hbd]. unfold BestFit.reset_overflow_markers, BestFit.set_ranges. st_simpl.
  eexists. split; [done|]. set (rs := omap _ (ranges s)).
  assert (∀ len k, rs !! len = Some k ↔
    ∃ k0, ranges s !! len = Some k0 ∧ offsets k0 ≠ ∅ ∧ k = mkBucket false (offsets k0)) as Hrs.
  { intros len k. unfold rs. rewrite lookup_omap. destruct (ranges s !! len) as [k0|]; cbn; [|naive_solver].
    case_bool_decide; naive_solver. }
  split_and!; [split| |].
  - split; cbn [ranges by_end]; [apply (ix_range _ Hix)|apply (ix_disjoint _ Hix)|..].
    + intros e b. rewrite (ix_index _ Hix). setoid_rewrite Hrs. split.
      * intros (k & Hk & Hb). eexists. split; [exists k; split_and!; [done|set_solver|done]|done].
      * intros (? & (k & Hk & _ & ->) & Hb). by exists k.
    + intros len k (k0 & _ & Hne & ->)%Hrs. done.
    + intros len k (k0 & Hk & _)%Hrs. by eapply (ix_len _ Hix).
  - intros len k m (k0 & Hk & _ & ->)%Hrs. cbn [offsets]. by apply Hbd.
  - done.
  - unfold BestFit.overflow_markers. cbn [ranges].
    assert (∀ x, x ∈ bt_entries rs → overflow x.2 = false) as Hov.
    { intros [len k] (k0 & _ & _ & ->)%elem_of_bt_entries%Hrs. done. }
    induction (bt_entries rs) as [|x l IH]; [done|]. cbn. rewrite (Hov x) by (by left). apply IH. set_solver.
Qed.
End theorems.

(** ** Instances *)

(** The strategy with 0..10 and 100..200 free. *)
Definition demo : BestFit :=
  (BestFit.free (100 ..< 200) (BestFit.free (0 ..< 10) (mkBestFit ∅ ∅)).2).2.

Lemma demo_tracks : tracks demo (λ p, 0 ≤ p < 10 ∨ 100 ≤ p < 200).
Proof.
  destruct (free_ok (mkBestFit ∅ ∅) _ 0 10 (tracks_self _ wf_empty)) as (s1 & Hr1 & Ht1 & Hf1);
    [lia|by vm_compute|by intros p _ (? & ? & ? & _)|].
  destruct (free_ok s1 _ 100 200 Ht1) as (s2 & Hr2 & Ht2 & _); [lia|by vm_compute| |].
  { intros p Hp Hf. apply Hf1 in Hf as [(? & ? & ? & _)|?]; [done|lia]. }
  unfold demo. rewrite Hr1. cbn [snd]. rewrite Hr2. cbn [snd]. eapply tracks_ext; [|exact Ht2].
  intros p. assert (¬ free_at (mkBestFit ∅ ∅) p) by (by intros (? & ? & ? & _)). tauto.
Qed.

Lemma demo_free_at p : free_at demo p → 0 ≤ p < 10 ∨ 100 ≤ p < 200.
Proof. apply (tr_sound _ _ demo_tracks). Qed.

Lemma best_fit_free_witness :
  ∃ s', BestFit.free (10 ..< 100) demo = (Ok tt, s') ∧
    tracks s' (λ p, (0 ≤ p < 10 ∨ 100 ≤ p < 200) ∨ in_range p (10 ..< 100)).
Proof.
  apply (best_fit_free demo _ (10 ..< 100) demo_tracks); [by vm_compute..|].
  intros p Hp Hf. apply demo_free_at in Hf. unfold in_range in Hp. cbn in Hp. lia.
Defined.

Lemma best_fit_allocate_witness :
  ∃ s', BestFit.allocate 20 demo = (Ok (100 ..< 120), s') ∧
    tracks s' (λ p, (0 ≤ p < 10 ∨ 100 ≤ p < 200) ∧ ¬ in_range p (100 ..< 120)).
Proof.
  pose proof (best_fit_allocate demo _ 20 demo_tracks ltac:(lia)) as H.
  destruct (BestFit.allocate 20 demo) as [r s'] eqn:E.
  assert (r = Ok (100 ..< 120)) as -> by (transitivity (fst (BestFit.allocate 20 demo)); [by rewrite E|vm_compute; reflexivity]).
  destruct H as (_ & _ & _ & _ & Ht). exists s'. split; [reflexivity|exact Ht].
Defined.

Lemma best_fit_free_overlap_witness :
  BestFit.free (50 ..< 150) demo = (Err (Fxfs Inconsistent), demo).
Proof. apply (best_fit_free_overlap demo 50 150 200 100); vm_compute; reflexivity. Defined.

Lemma best_fit_force_free_witness :
  ∃ s' changed, BestFit.force_free (5 ..< 150) demo = (Ok changed, s') ∧
    tracks s' (λ p, (0 ≤ p < 10 ∨ 100 ≤ p < 200) ∨ in_range p (5 ..< 150)) ∧
    (changed = true ↔ ∃ p, in_range p (5 ..< 150) ∧ ¬ free_at demo p).
Proof. apply (best_fit_force_free demo _ (5 ..< 150) demo_tracks); by vm_compute. Defined.

Lemma best_fit_remove_witness :
  ∃ s', BestFit.remove (5 ..< 150) demo = (Ok tt, s') ∧
    tracks s' (λ p, (0 ≤ p < 10 ∨ 100 ≤ p < 200) ∧ ¬ in_range p (5 ..< 150)).
Proof. apply (best_fit_remove demo _ (5 ..< 150) demo_tracks); by vm_compute. Defined.

Lemma best_fit_reset_witness :
  ∃ s', BestFit.reset_overflow_markers demo = (Ok tt, s') ∧ wf s' ∧ by_end s' = by_end demo ∧
    BestFit.overflow_markers s' = [].
Proof. apply (best_fit_reset demo), (tr_wf _ _ demo_tracks). Defined.
