(* ===== verification/BufferAllocator.v ===== *)
(** * The transfer-buffer allocator

    [storage/lib/storage_device/src/buffer_allocator.rs]: a buddy allocator
    over a buffer source of a fixed size.  The futures that wait for space and
    the event that wakes them are left out; an allocation that cannot be
    satisfied now returns [None] where the code returns a listener. *)

From S2P Require Import Prelude BTree Round.

(** ** [usize] arithmetic *)
Definition is_power_of_two (n : Z) : bool := (0 <? n) && (Z.land n (n - 1) =? 0).
(** The number of zero bits below the lowest set bit. *)
Definition trailing_zeros (n : Z) : Z := Z.log2 (Z.land n (- n)).
Definition next_power_of_two (n : Z) : res Z :=
  if 2 ^ Z.log2_up n <=? u64_max then Ok (2 ^ Z.log2_up n) else Panic.

(** [round_down] and [round_up] of [buffer.rs]. *)
Definition buf_round_down (value granularity : Z) : res Z :=
  r ← u64_rem value granularity; u64_sub value r.
Definition buf_round_up (value granularity : Z) : res Z :=
  s ← u64_add value granularity; s ← u64_sub s 1; buf_round_down s granularity.

(** ** Orders *)

(** The smallest order that is at least [size] bytes. *)
Definition order (size block_size : Z) : res nat :=
  if size <=? block_size then Ok 0%nat
  else
    r ← buf_round_up size block_size;
    nblocks ← u64_div r block_size;
    p ← next_power_of_two nblocks;
    Ok (Z.to_nat (trailing_zeros p)).

(** The largest order that is no more than [size] bytes. *)
Definition order_fit (size block_size : Z) : res nat :=
  _ ← rassert (block_size <=? size);
  r ← buf_round_up size block_size;
  nblocks ← u64_div r block_size;
  if is_power_of_two nblocks then Ok (Z.to_nat (trailing_zeros nblocks))
  else
    p ← next_power_of_two nblocks;
    o ← u64_sub (trailing_zeros p) 1;
    Ok (Z.to_nat o).

(** [1 << order] panics when the shift exceeds the width. *)
Definition size_for_order (order : nat) (block_size : Z) : res Z :=
  if Z.of_nat order <? 64 then u64_mul block_size (2 ^ Z.of_nat order) else Panic.

(** ** The state *)
Record Inner : Set := mkInner {
  free_lists : list (list Z);
  allocation_map : gmap Z Z;
}.

(** [Vec::push] onto the list of an order. *)
Definition push_free (lists : list (list Z)) (o : nat) (offset : Z) : res (list (list Z)) :=
  l ← unwrap (lists !! o); Ok (<[o := l ++ [offset]]> lists).

Fixpoint initial_loop (fuel : nat) (size block_size offset : Z) (lists : list (list Z))
    : res (list (list Z)) :=
  match fuel with
  | O => NoFuel
  | S fuel =>
      if offset <? size then
        rest ← u64_sub size offset;
        o ← order_fit rest block_size;
        sz ← size_for_order o block_size;
        lists ← push_free lists o offset;
        offset ← u64_add offset sz;
        initial_loop fuel size block_size offset lists
      else Ok lists
  end.

Definition initial_free_lists (size block_size : Z) : res (list (list Z)) :=
  size ← buf_round_down size block_size;
  _ ← rassert (block_size <=? size);
  _ ← rassert (is_power_of_two block_size);
  max_order ← order_fit size block_size;
  initial_loop (S (max_order + 1)) size block_size 0 (replicate (max_order + 1) []).

Module BufferAllocator.
Section allocator.
(** [block_size] and the size of the source. *)
Context (block_size source_size : Z).

Definition new : res Inner :=
  lists ← initial_free_lists source_size block_size; Ok (mkInner lists ∅).

Definition find_buddy (offset : Z) (o : nat) : res Z :=
  sz ← size_for_order o block_size; Ok (Z.lxor offset sz).

(** The smallest order from [idx] on with a free entry. *)
Fixpoint pick_order (lists : list (list Z)) (idx : nat) : option nat :=
  match lists with
  | [] => None
  | l :: lists => match l with [] => pick_order lists (S idx) | _ => Some idx end
  end.

(** Splits the free region until it is the right size. *)
Fixpoint split (offset : Z) (o requested : nat) (lists : list (list Z)) : res (list (list Z)) :=
  if (requested <? o)%nat then
    match o with
    | O => Ok lists
    | S o =>
        l ← unwrap (lists !! o);
        _ ← rassert (bool_decide (l = []));
        sz ← size_for_order o block_size;
        at_ ← u64_add offset sz;
        lists ← push_free lists o at_;
        split offset o requested lists
    end
  else Ok lists.

Definition try_allocate_buffer (size : Z) : st Inner (option range) :=
  if source_size <? size then st_lift Panic
  else
    inner ← st_get;
    requested ← st_lift (order size block_size);
    _ ← st_lift (rassert (requested <? length (free_lists inner))%nat);
    match pick_order (drop requested (free_lists inner)) requested with
    | None => mret None
    | Some o =>
        l ← st_lift (unwrap (free_lists inner !! o));
        offset ← st_lift (unwrap (last l));
        let lists := <[o := take (length l - 1) l]> (free_lists inner) in
        lists ← st_lift (split offset o requested lists);
        sz ← st_lift (size_for_order requested block_size);
        _ ← st_put (mkInner lists (<[offset := sz]> (allocation_map inner)));
        e ← st_lift (u64_add offset size);
        _ ← st_lift (rassert ((offset <? source_size) && (e <=? source_size)));
        mret (Some (offset ..< e))
    end.

(** Merges as many free slots as it can. *)
Fixpoint merge_slots (fuel : nat) (offset : Z) (o : nat) (lists : list (list Z))
    : res (Z * nat * list (list Z)) :=
  match fuel with
  | O => NoFuel
  | S fuel =>
      if (o <? length lists - 1)%nat then
        buddy ← find_buddy offset o;
        l ← unwrap (lists !! o);
        match binary_search l buddy with
        | inl idx => merge_slots fuel (Z.min offset buddy) (S o) (<[o := delete idx l]> lists)
        | inr _ => Ok (offset, o, lists)
        end
      else Ok (offset, o, lists)
  end.

Definition free_buffer (r : range) : st Inner unit :=
  inner ← st_get;
  size ← st_lift (unwrap (allocation_map inner !! start r));
  len ← st_lift (u64_sub (end_ r) (start r));
  _ ← st_lift (rassert (len <=? size));
  o ← st_lift (order size block_size);
  '(offset, o, lists) ←
    st_lift (merge_slots (S (length (free_lists inner))) (start r) o (free_lists inner));
  l ← st_lift (unwrap (lists !! o));
  match binary_search l offset with
  | inl _ => st_lift Panic
  | inr idx =>
      st_put (mkInner (<[o := take idx l ++ offset :: drop idx l]> lists)
                (delete (start r) (allocation_map inner)))
  end.
End allocator.
End BufferAllocator.
