(* ===== verification/BufferTiling.v ===== *)
(** * Buddies

    The arithmetic of the buddy allocator, and tilings: families of aligned
    power-of-two blocks that cover a region without overlapping, and how
    splitting a block and joining two buddies change them. *)

From S2P Require Import Prelude Round BufferAllocator BTree.

(** ** Powers of two *)
Lemma land_pow2_opp n : 0 ≤ n → Z.land (2 ^ n) (- 2 ^ n) = 2 ^ n.
Proof.
  intros Hn. replace (- 2 ^ n) with (Z.lnot (Z.ones n)).
  - rewrite <- Z.ldiff_land, Z.ldiff_ones_r, Z.shiftr_div_pow2, Z.shiftl_mul_pow2, Z.div_same; lia.
  - rewrite Z.ones_equiv. unfold Z.lnot. lia.
Qed.

Lemma trailing_zeros_pow2 n : 0 ≤ n → trailing_zeros (2 ^ n) = n.
Proof. intros. unfold trailing_zeros. by rewrite land_pow2_opp, Z.log2_pow2. Qed.

Lemma is_power_of_two_spec m : 0 < m → is_power_of_two m = true ↔ m = 2 ^ Z.log2 m.
Proof.
  intros Hm. unfold is_power_of_two. rewrite (proj2 (Z.ltb_lt 0 m)) by done. cbn [andb]. rewrite Z.eqb_eq.
  pose proof (Z.log2_spec m Hm) as Hl. pose proof (Z.log2_nonneg m) as H0. split; intros Hland.
  - destruct (decide (m = 2 ^ Z.log2 m)) as [|Hne]; [done|]. exfalso.
    assert (Z.log2 (m - 1) = Z.log2 m) as Hl1 by (apply Z.log2_unique; lia).
    assert (Z.testbit (Z.land m (m - 1)) (Z.log2 m) = true) as Hb.
    { rewrite Z.land_spec, Z.bit_log2 by done. rewrite <- Hl1, Z.bit_log2; [done|].
      pose proof (Z.pow_pos_nonneg 2 (Z.log2 m)). lia. }
    by rewrite Hland, Z.bits_0 in Hb.
  - rewrite Hland at 1 2. replace (2 ^ Z.log2 m - 1) with (Z.ones (Z.log2 m)) by (rewrite Z.ones_equiv; lia).
    rewrite Z.land_ones by done. apply Z.mod_same. lia.
Qed.

Lemma log2_up_not_pow2 m : 0 < m → m ≠ 2 ^ Z.log2 m → Z.log2_up m = Z.log2 m + 1.
Proof.
  intros Hm Hne. pose proof (Z.log2_spec m Hm). pose proof (Z.log2_nonneg m).
  apply Z.log2_up_unique; [lia|]. replace (Z.pred (Z.log2 m + 1)) with (Z.log2 m) by lia.
  rewrite <- Z.add_1_r in *. lia.
Qed.

Lemma lxor_double_1 m : Z.lxor m 1 = if Z.even m then m + 1 else m - 1.
Proof.
  destruct (Z.even m) eqn:E.
  - rewrite <- Z.add_nocarry_lxor; [done|]. change 1 with (Z.ones 1) at 1. rewrite Z.land_ones by lia.
    change (2 ^ 1) with 2. rewrite Zmod_even, E. done.
  - assert (m = 2 * (m / 2) + 1) as Hm.
    { pose proof (Z.div_mod m 2). rewrite Zmod_even, E in H. lia. }
    rewrite Hm at 1. rewrite (Z.add_nocarry_lxor (2 * (m / 2)) 1).
    + rewrite Z.lxor_assoc, Z.lxor_nilpotent, Z.lxor_0_r. lia.
    + change 1 with (Z.ones 1). rewrite Z.land_ones by lia. change (2 ^ 1) with 2.
      rewrite Z.mul_comm, Z.mod_mul; lia.
Qed.

(** Flipping the bit of a block's size. *)
Lemma lxor_pow2 m j : 0 ≤ j → Z.lxor (m * 2 ^ j) (2 ^ j) = (if Z.even m then m + 1 else m - 1) * 2 ^ j.
Proof.
  intros Hj. rewrite <- lxor_double_1, <- !Z.shiftl_mul_pow2 by done.
  replace (2 ^ j) with (Z.shiftl 1 j) by (rewrite Z.shiftl_mul_pow2 by done; lia).
  by rewrite Z.shiftl_lxor.
Qed.

(** ** Tilings *)
Inductive kind : Set := KFree | KAlloc | KHeld.
#[global] Instance kind_eq_dec : EqDecision kind.
Proof. solve_decision. Defined.

(** A family of blocks: a kind, an order and an offset. *)
Definition family : Type := kind → nat → Z → Prop.

Section tiling.
(** The block size is [2 ^ k]. *)
Context (k : Z) (Hk : 0 ≤ k) (n : nat).

Definition bsize (o : nat) : Z := 2 ^ (k + Z.of_nat o).

Lemma bsize_pos o : 0 < bsize o.
Proof. apply Z.pow_pos_nonneg; lia. Qed.

Lemma bsize_S o : bsize (S o) = 2 * bsize o.
Proof. unfold bsize. rewrite <- Z.pow_succ_r by lia. f_equal. lia. Qed.

Lemma bsize_0 : bsize 0 = 2 ^ k.
Proof. unfold bsize. f_equal. lia. Qed.

Lemma bsize_mono o o' : (o ≤ o')%nat → bsize o ≤ bsize o'.
Proof. intros. apply Z.pow_le_mono_r; lia. Qed.

Lemma bsize_lt o o' : bsize o < bsize o' → (o < o')%nat.
Proof. intros Hlt. destruct (decide (o' ≤ o)%nat) as [Hle|]; [|lia]. apply bsize_mono in Hle. lia. Qed.

Lemma bsize_divide o o' : (o ≤ o')%nat → (bsize o | bsize o').
Proof.
  intros. exists (2 ^ Z.of_nat (o' - o)). unfold bsize. rewrite <- Z.pow_add_r by lia. f_equal. lia.
Qed.

(** The buddy of a block, and the block they make. *)
Lemma buddy_cases o off :
  (bsize o | off) →
  (bsize (S o) | off) ∧ Z.lxor off (bsize o) = off + bsize o ∨
  (bsize (S o) | off - bsize o) ∧ Z.lxor off (bsize o) = off - bsize o.
Proof.
  intros [m ->].
  assert (Z.lxor (m * bsize o) (bsize o) = (if Z.even m then m + 1 else m - 1) * bsize o) as ->
    by (apply lxor_pow2; lia).
  destruct (Z.even m) eqn:E.
  - left. apply Z.even_spec in E as [h ->]. split; [exists h; rewrite bsize_S; lia|lia].
  - right. assert (Z.odd m = true) as Ho by (by rewrite <- Z.negb_even, E). apply Z.odd_spec in Ho as [h ->].
    split; [exists h; rewrite bsize_S; lia|lia].
Qed.

(** The blocks cover [0..T] and none overlaps another. *)
Record tiling (T : Z) (P : family) : Prop := {
  ti_valid : ∀ q o off, P q o off → (o < n)%nat ∧ 0 ≤ off ∧ (bsize o | off) ∧ off + bsize o ≤ T;
  ti_disjoint : ∀ q1 o1 off1 q2 o2 off2 p, P q1 o1 off1 → P q2 o2 off2 →
    off1 ≤ p < off1 + bsize o1 → off2 ≤ p < off2 + bsize o2 → q1 = q2 ∧ o1 = o2 ∧ off1 = off2;
  ti_cover : ∀ p, 0 ≤ p < T → ∃ q o off, P q o off ∧ off ≤ p < off + bsize o;
}.

Lemma tiling_ext T (P Q : family) : (∀ q o off, P q o off ↔ Q q o off) → tiling T P → tiling T Q.
Proof.
  intros Heq [Hv Hd Hc]. split.
  - intros q o off. rewrite <- Heq. apply Hv.
  - intros q1 o1 off1 q2 o2 off2 p. rewrite <- !Heq. apply Hd.
  - intros p Hp. destruct (Hc p Hp) as (q & o & off & ? & ?). exists q, o, off. by rewrite <- Heq.
Qed.

(** Two blocks of the same place are the same block. *)
Lemma tiling_inj T P q1 o1 q2 o2 off : tiling T P → P q1 o1 off → P q2 o2 off → q1 = q2 ∧ o1 = o2.
Proof.
  intros Ht H1 H2. pose proof (bsize_pos o1). pose proof (bsize_pos o2).
  destruct (ti_disjoint _ _ Ht _ _ _ _ _ _ off H1 H2) as (? & ? & _); [lia..|done].
Qed.

(** A block changes its kind. *)
Lemma tiling_retag T P q q' o off :
  tiling T P → P q o off →
  tiling T (λ q1 o1 off1, (P q1 o1 off1 ∧ off1 ≠ off) ∨ (q1 = q' ∧ o1 = o ∧ off1 = off)).
Proof.
  intros Ht HP. destruct (Ht) as [Hv Hd Hc]. split.
  - intros q1 o1 off1 [[H1 _]|(-> & -> & ->)]; [by eapply Hv|by eapply Hv].
  - intros q1 o1 off1 q2 o2 off2 p [[H1 N1]|(-> & -> & ->)] [[H2 N2]|(-> & -> & ->)] Hp1 Hp2.
    + by eapply Hd.
    + destruct (Hd _ _ _ _ _ _ p H1 HP) as (_ & _ & ?); done.
    + destruct (Hd _ _ _ _ _ _ p HP H2) as (_ & _ & ?); [done..|]. congruence.
    + done.
  - intros p Hp. destruct (Hc p Hp) as (q1 & o1 & off1 & H1 & Hin).
    destruct (decide (off1 = off)) as [->|]; [|exists q1, o1, off1; by auto].
    destruct (tiling_inj _ _ _ _ _ _ _ Ht H1 HP) as [-> ->]. exists q', o, off. by auto.
Qed.

(** The held block is split in two; the upper half becomes free. *)
Lemma tiling_split T P o off :
  tiling T P → P KHeld (S o) off → 
  tiling T (λ q1 o1 off1, (P q1 o1 off1 ∧ off1 ≠ off) ∨ (q1 = KHeld ∧ o1 = o ∧ off1 = off)
                          ∨ (q1 = KFree ∧ o1 = o ∧ off1 = off + bsize o)).
Proof.
  intros Ht HP. destruct (Ht) as [Hv Hd Hc]. pose proof (bsize_pos o). pose proof (bsize_S o) as HS.
  destruct (Hv _ _ _ HP) as (Ho & H0 & Hdiv & HT). rewrite HS in HT.
  assert (bsize o | off) as Hdiv'.
  { etransitivity; [|exact Hdiv]. apply bsize_divide. lia. }
  assert (∀ q1 o1 off1 p, P q1 o1 off1 → off1 ≠ off → off1 ≤ p < off1 + bsize o1 →
    ¬ (off ≤ p < off + 2 * bsize o)) as Hout.
  { intros q1 o1 off1 p H1 Hne Hin Hin'. destruct (Hd _ _ _ _ _ _ p H1 HP) as (_ & _ & ?); [done|lia|done]. }
  split.
  - intros q1 o1 off1 [[H1 _]|[(-> & -> & ->)|(-> & -> & ->)]]; [by eapply Hv|split_and!; [lia|lia|done|lia]|].
    split_and!; [lia|lia| |lia]. apply Z.divide_add_r; [done|by exists 1; lia].
  - intros q1 o1 off1 q2 o2 off2 p
      [[H1 N1]|[(-> & -> & ->)|(-> & -> & ->)]] [[H2 N2]|[(-> & -> & ->)|(-> & -> & ->)]] Hp1 Hp2;
      try (split_and!; lia || done); [by eapply Hd|..]; exfalso;
      [eapply (Hout q1 o1 off1 p)|eapply (Hout q1 o1 off1 p)|eapply (Hout q2 o2 off2 p)|eapply (Hout q2 o2 off2 p)];
      (done || lia).
  - intros p Hp. destruct (Hc p Hp) as (q1 & o1 & off1 & H1 & Hin).
    destruct (decide (off1 = off)) as [->|]; [|exists q1, o1, off1; by auto].
    destruct (tiling_inj _ _ _ _ _ _ _ Ht H1 HP) as [-> ->]. rewrite HS in Hin.
    destruct (decide (p < off + bsize o)); [exists KHeld, o, off|exists KFree, o, (off + bsize o)]; (split; [by auto 6|lia]).
Qed.

(** The held block and its free buddy become one held block. *)
Lemma tiling_join T P o off :
  let buddy := Z.lxor off (bsize o) in
  tiling T P → P KHeld o off → P KFree o buddy → (S o < n)%nat →
  tiling T (λ q1 o1 off1, (P q1 o1 off1 ∧ off1 ≠ off ∧ off1 ≠ buddy)
                          ∨ (q1 = KHeld ∧ o1 = S o ∧ off1 = Z.min off buddy)).
Proof.
  intros buddy Ht HP HB Hn. destruct (Ht) as [Hv Hd Hc]. pose proof (bsize_pos o). pose proof (bsize_S o) as HS.
  destruct (Hv _ _ _ HP) as (Ho & H0 & Hdiv & HT). destruct (Hv _ _ _ HB) as (_ & H0' & _ & HT').
  set (m := Z.min off buddy).
  assert ((bsize (S o) | m) ∧ (∀ p, m ≤ p < m + bsize (S o) ↔
    off ≤ p < off + bsize o ∨ buddy ≤ p < buddy + bsize o)) as [Hm Hin].
  { unfold m. destruct (buddy_cases o off Hdiv) as [[Hd' Hb]|[Hd' Hb]]; fold buddy in Hb; rewrite Hb.
    - rewrite Z.min_l by lia. split; [done|]. lia.
    - rewrite Z.min_r by lia. split; [done|]. lia. }
  assert (∀ q1 o1 off1 p, P q1 o1 off1 → off1 ≠ off → off1 ≠ buddy → off1 ≤ p < off1 + bsize o1 →
    ¬ (m ≤ p < m + bsize (S o))) as Hout.
  { intros q1 o1 off1 p H1 N1 N2 Hp [Hp'|Hp']%Hin.
    - destruct (Hd _ _ _ _ _ _ p H1 HP) as (_ & _ & ?); done.
    - destruct (Hd _ _ _ _ _ _ p H1 HB) as (_ & _ & ?); done. }
  split.
  - intros q1 o1 off1 [[H1 _]|(-> & -> & ->)]; [by eapply Hv|]. split_and!; [done|lia|done|].
    destruct (proj1 (Hin (m + bsize (S o) - 1))); lia.
  - intros q1 o1 off1 q2 o2 off2 p [(H1 & N1 & N1')|(-> & -> & ->)] [(H2 & N2 & N2')|(-> & -> & ->)] Hp1 Hp2.
    + by eapply Hd.
    + by destruct (Hout q1 o1 off1 p H1).
    + by destruct (Hout q2 o2 off2 p H2).
    + done.
  - intros p Hp. destruct (Hc p Hp) as (q1 & o1 & off1 & H1 & Hp1).
    destruct (decide (m ≤ p < m + bsize (S o))); [exists KHeld, (S o), m; by auto|].
    exists q1, o1, off1. split; [left|done]. split_and!; [done|..]; intros ->.
    + destruct (tiling_inj _ _ _ _ _ _ _ Ht H1 HP) as [-> ->]. apply n0, Hin. by left.
    + destruct (tiling_inj _ _ _ _ _ _ _ Ht H1 HB) as [-> ->]. apply n0, Hin. by right.
Qed.

(** A free block is added at the end of the region. *)
Lemma tiling_extend T P o :
  tiling T P → (o < n)%nat → 0 ≤ T → (bsize o | T) →
  tiling (T + bsize o) (λ q1 o1 off1, P q1 o1 off1 ∨ (q1 = KFree ∧ o1 = o ∧ off1 = T)).
Proof.
  intros Ht Ho HT Hdiv. destruct (Ht) as [Hv Hd Hc]. pose proof (bsize_pos o). split.
  - intros q1 o1 off1 [H1|(-> & -> & ->)]; [|split_and!; [done..|lia]].
    destruct (Hv _ _ _ H1) as (? & ? & ? & ?). split_and!; [done..|lia].
  - intros q1 o1 off1 q2 o2 off2 p [H1|(-> & -> & ->)] [H2|(-> & -> & ->)] Hp1 Hp2;
      [by eapply Hd|destruct (Hv _ _ _ H1); lia|destruct (Hv _ _ _ H2); lia|done].
  - intros p Hp. destruct (decide (p < T)); [|exists KFree, o, T; split; [by auto|lia]].
    destruct (Hc p) as (q1 & o1 & off1 & ? & ?); [lia|]. exists q1, o1, off1. by auto.
Qed.

(** No two buddies below the largest order are both free. *)
Definition coalesced (P : family) : Prop :=
  ∀ o off, P KFree o off → (S o < n)%nat → ¬ P KFree o (Z.lxor off (bsize o)).
End tiling.

(** ** The orders of blocks

    What [order] and [order_fit] of the buddy allocator compute. *)

(** *** Orders *)
Section orders.
(** Rust's slices have at most [isize::MAX] bytes. *)
Context (k : Z) (Hk : 0 ≤ k) (limit : Z) (Hlim : 2 * limit ≤ u64_max) (HBl : 2 ^ k ≤ limit).
Implicit Types (size : Z) (o : nat).
Abbreviation B := (2 ^ k).
Abbreviation bsize := (bsize k).

Lemma B_pos : 0 < B.
Proof. apply Z.pow_pos_nonneg; lia. Qed.

Lemma round_down_val v : 0 ≤ v → buf_round_down v B = Ok (v / B * B).
Proof.
  intros Hv. pose proof B_pos as HB. unfold buf_round_down. rewrite u64_rem_ok by lia. res_simpl.
  pose proof (Z.mod_le v B Hv HB). rewrite u64_sub_ok by lia. f_equal. rewrite Z.mod_eq by lia. lia.
Qed.

Lemma round_up_val v : 0 ≤ v ≤ limit → buf_round_up v B = Ok ((v + B - 1) / B * B).
Proof.
  intros Hv. pose proof B_pos. unfold buf_round_up. rewrite u64_add_ok by lia. res_simpl.
  rewrite u64_sub_ok by lia. res_simpl. apply round_down_val. lia.
Qed.

(** The number of blocks, rounded up. *)
Lemma blocks_val v :
  0 ≤ v ≤ limit →
  ∃ m, (r ← buf_round_up v B; u64_div r B) = Ok m ∧ (m - 1) * B < v ≤ m * B.
Proof.
  intros Hv. pose proof B_pos as HB. rewrite round_up_val by done. res_simpl.
  exists ((v + B - 1) / B). rewrite u64_div_ok by lia. rewrite Z.div_mul by lia. split; [done|].
  pose proof (Z.mul_div_le (v + B - 1) B HB). pose proof (Z.mul_succ_div_gt (v + B - 1) B HB). lia.
Qed.

Lemma bsize_val o : bsize o = 2 ^ Z.of_nat o * B.
Proof. unfold BufferTiling.bsize. rewrite Z.pow_add_r by lia. lia. Qed.

Lemma bsize_log2 j m : 0 ≤ j → 2 ^ j ≤ m → bsize (Z.to_nat j) ≤ m * B.
Proof. intros Hj Hm. rewrite bsize_val, Z2Nat.id by done. apply Z.mul_le_mono_nonneg_r; [pose proof B_pos; lia|done]. Qed.

(** [order] is the smallest order of at least the size. *)
Lemma order_spec size :
  0 ≤ size ≤ limit →
  ∃ o, order size B = Ok o ∧ size ≤ bsize o ∧ ∀ o', size ≤ bsize o' → (o ≤ o')%nat.
Proof.
  intros Hs. pose proof B_pos as HB. unfold order. destruct (Z.leb_spec size B) as [Hle|Hgt].
  { exists 0%nat. rewrite (bsize_0 k). split_and!; [done..|]. intros. lia. }
  destruct (blocks_val size Hs) as (m & Hm & Hlo & Hhi).
  destruct (buf_round_up size B) as [r| | |] eqn:E; res_simpl in Hm; try done. res_simpl. rewrite Hm. res_simpl.
  assert (1 < m) as H1 by nia. pose proof (Z.log2_up_spec m H1) as [Hp1 Hp2].
  pose proof (Z.log2_up_nonneg m) as H0. pose proof (Z.log2_up_pos m H1).
  assert (2 ^ Z.log2_up m = 2 * 2 ^ Z.pred (Z.log2_up m)) as H2
    by (rewrite <- Z.pow_succ_r by lia; f_equal; lia).
  unfold next_power_of_two. destruct (Z.leb_spec (2 ^ Z.log2_up m) u64_max) as [_|Hov].
  2: { assert (m - 1 < limit) by nia. lia. }
  res_simpl. rewrite trailing_zeros_pow2 by done. exists (Z.to_nat (Z.log2_up m)). split; [done|]. split.
  - rewrite bsize_val, Z2Nat.id by done. nia.
  - intros o' Ho'. rewrite bsize_val in Ho'. apply Nat2Z.inj_le. rewrite Z2Nat.id by done.
    apply Z.log2_up_le_pow2; [lia|nia].
Qed.

Lemma order_unique o o' : (∀ j, bsize o ≤ bsize j → (o' ≤ j)%nat) → bsize o ≤ bsize o' → o' = o.
Proof.
  intros Hmin Hle. specialize (Hmin o ltac:(lia)). destruct (decide (o' = o)) as [|Hne]; [done|].
  assert (S o' ≤ o)%nat as Hlt by lia. apply (bsize_mono k) in Hlt. rewrite (bsize_S k) in Hlt by done.
  pose proof (bsize_pos k Hk o'). lia.
Qed.

(** The order of a block's own size. *)
Lemma order_bsize o : bsize o ≤ limit → order (bsize o) B = Ok o.
Proof.
  intros Ho. pose proof (bsize_pos k Hk o). destruct (order_spec (bsize o)) as (o' & -> & Hle & Hmin); [lia|].
  f_equal. by apply order_unique.
Qed.

(** [order_fit] is the largest order of at most the size. *)
Lemma order_fit_spec size :
  B ≤ size ≤ limit → (B | size) →
  ∃ o, order_fit size B = Ok o ∧ bsize o ≤ size < bsize (S o).
Proof.
  intros Hs [q ->]. pose proof B_pos as HB. unfold order_fit.
  unfold rassert at 1. rewrite (proj2 (Z.leb_le _ _)) by lia. res_simpl.
  destruct (blocks_val (q * B)) as (m & Hm & Hlo & Hhi); [lia|].
  destruct (buf_round_up (q * B) B) as [r| | |] eqn:E; res_simpl in Hm; try done. res_simpl. rewrite Hm. res_simpl.
  assert (m = q) as -> by nia. assert (0 < q) as Hq by nia.
  pose proof (Z.log2_spec q Hq) as [Hl1 Hl2]. pose proof (Z.log2_nonneg q) as H0.
  assert (∀ j, j = Z.log2 q → bsize (Z.to_nat j) ≤ q * B < bsize (S (Z.to_nat j))) as Hj.
  { intros j ->. rewrite (bsize_S k), bsize_val, Z2Nat.id by done.
    rewrite Z.pow_succ_r in Hl2 by done. nia. }
  destruct (is_power_of_two q) eqn:Ep.
  - apply is_power_of_two_spec in Ep; [|done]. eexists. split; [done|]. apply Hj.
    rewrite Ep at 1. by apply trailing_zeros_pow2.
  - assert (q ≠ 2 ^ Z.log2 q) as Hne by (intros He; apply is_power_of_two_spec in He; [congruence|done]).
    pose proof (log2_up_not_pow2 q Hq Hne) as Hup. unfold next_power_of_two. rewrite Hup.
    rewrite Z.pow_add_r by lia. change (2 ^ 1) with 2.
    destruct (Z.leb_spec (2 ^ Z.log2 q * 2) u64_max) as [_|Hov]; [|nia]. res_simpl.
    change (2 ^ Z.log2 q * 2) with (2 ^ Z.log2 q * 2 ^ 1). rewrite <- Z.pow_add_r by lia.
    rewrite trailing_zeros_pow2 by lia. rewrite u64_sub_ok by lia. res_simpl. eexists. split; [done|].
    apply Hj. lia.
Qed.

Lemma size_for_order_ok o : bsize o ≤ u64_max → size_for_order o B = Ok (bsize o).
Proof.
  intros Ho. pose proof B_pos. unfold size_for_order. rewrite bsize_val in *.
  destruct (Z.ltb_spec (Z.of_nat o) 64) as [Hlt|Hge].
  - rewrite u64_mul_ok by lia. f_equal. lia.
  - assert (2 ^ 64 ≤ 2 ^ Z.of_nat o) as Hp by (apply Z.pow_le_mono_r; lia).
    assert (u64_max < 2 ^ 64) by done. nia.
Qed.
End orders.
