(* ===== verification/BufferPool.v ===== *)
(** * The buddy allocator is correct

    The free lists and the allocation map always tile the buffer source, free
    buddies are always joined, an allocation never overlaps another, and a
    pool with no buffer outstanding can serve any request that fits its
    largest block. *)

From S2P Require Import Prelude BTree Round BufferAllocator BufferTiling.

Section pool.
(** Blocks of [2 ^ k] bytes, a source of [source] bytes of which the whole
    blocks are the first [T], and orders below [n]. *)
Context (k : Z) (Hk : 0 ≤ k) (source T : Z) (n : nat).
Context (Hlim : 2 * source ≤ u64_max) (HTs : T ≤ source) (HnT : bsize k n ≤ 2 * T).
Implicit Types (lists : list (list Z)) (alloc : gmap Z Z) (held : option (nat * Z)) (o : nat) (off : Z).
Abbreviation B := (2 ^ k).
Abbreviation bsize := (bsize k).

(** The blocks of a state; [held] is the one an operation is working on. *)
Definition blk lists alloc held : family := λ q o off,
  match q with
  | KFree => ∃ l, lists !! o = Some l ∧ off ∈ l
  | KAlloc => (o < n)%nat ∧ alloc !! off = Some (bsize o)
  | KHeld => held = Some (o, off)
  end.

Record pool lists alloc held : Prop := {
  po_len : length lists = n;
  po_sorted : ∀ o l, lists !! o = Some l → StronglySorted Z.lt l;
  po_alloc : ∀ off sz, alloc !! off = Some sz → ∃ o, (o < n)%nat ∧ sz = bsize o;
  po_tiling : tiling k n T (blk lists alloc held);
  po_coalesced : coalesced k n (blk lists alloc held);
}.

Lemma bsize_le_T o : (o < n)%nat → bsize o ≤ T.
Proof. intros Ho. apply (bsize_mono k) in Ho. rewrite (bsize_S k) in Ho by done. lia. Qed.

(** One list changes. *)
Lemma free_update lists o l l' o1 x :
  lists !! o = Some l →
  (∃ l1, <[o := l']> lists !! o1 = Some l1 ∧ x ∈ l1) ↔
  (o1 = o ∧ x ∈ l') ∨ (o1 ≠ o ∧ ∃ l1, lists !! o1 = Some l1 ∧ x ∈ l1).
Proof.
  intros Hl. apply lookup_lt_Some in Hl as Hlt. destruct (decide (o1 = o)) as [->|Hne].
  - rewrite list_lookup_insert_eq by done. naive_solver.
  - rewrite list_lookup_insert_ne by done. naive_solver.
Qed.

Lemma sorted_update lists o l' :
  (∀ o l, lists !! o = Some l → StronglySorted Z.lt l) → StronglySorted Z.lt l' →
  ∀ o1 l1, <[o := l']> lists !! o1 = Some l1 → StronglySorted Z.lt l1.
Proof.
  intros Hs Hl' o1 l1 H1. apply list_lookup_insert_Some in H1 as [(-> & -> & _)|(_ & H1)]; [done|by eapply Hs].
Qed.

(** A free block is taken off its list. *)
Lemma pool_take lists alloc o l l' off :
  pool lists alloc None → lists !! o = Some l → off ∈ l → StronglySorted Z.lt l' →
  (∀ x, x ∈ l' ↔ x ∈ l ∧ x ≠ off) →
  pool (<[o := l']> lists) alloc (Some (o, off)).
Proof.
  intros [Hlen Hs Ha Ht Hc] Hl Hin Hs' Hl'.
  assert (blk lists alloc None KFree o off) as HP by by exists l.
  assert (∀ q1 o1 off1, (blk lists alloc None q1 o1 off1 ∧ off1 ≠ off) ∨ (q1 = KHeld ∧ o1 = o ∧ off1 = off)
    ↔ blk (<[o := l']> lists) alloc (Some (o, off)) q1 o1 off1) as Heq.
  { intros q1 o1 off1. pose proof (λ q1 o1 H1, tiling_inj k Hk n _ _ q1 o1 _ _ off Ht H1 HP) as Hinj.
    destruct q1; cbn [blk].
    - rewrite (free_update _ _ _ _ _ _ Hl), Hl'. split.
      + intros [[(l1 & Hl1 & Hx) Hne]|(? & _)]; [|done].
        destruct (decide (o1 = o)) as [->|]; [left; naive_solver|right; by eauto].
      + intros [(-> & ? & ?)|(Hne & l1 & Hl1 & Hx)]; left; [by eauto|]. split; [by eauto|].
        intros ->. destruct (Hinj KFree o1) as [_ ?]; [by exists l1|done].
    - split; [by intros [[? ?]|(? & _)]|]. intros H1. left. split; [done|]. intros ->.
      by destruct (Hinj KAlloc o1 H1).
    - split; [intros [[? ?]|(_ & -> & ->)]; done|]. intros [= <- <-]. by right. }
  split; [by rewrite length_insert|by apply sorted_update|done| |].
  - eapply tiling_ext; [exact Heq|]. eapply (tiling_retag k Hk n T _ KFree KHeld); done.
  - intros o1 off1 H1 Hn1 H2. apply Heq in H1 as [[H1 _]|(? & _)]; [|done].
    apply Heq in H2 as [[H2 _]|(? & _)]; [|done]. by apply (Hc o1 off1).
Qed.

(** Two blocks at the same place. *)
Lemma blk_inj lists alloc held q1 o1 q2 o2 off :
  tiling k n T (blk lists alloc held) → blk lists alloc held q1 o1 off → blk lists alloc held q2 o2 off →
  q1 = q2 ∧ o1 = o2.
Proof. intros Ht. by apply (tiling_inj k Hk n _ _ _ _ _ _ _ Ht). Qed.

(** The held block is put on its list. *)
Lemma pool_put lists alloc o l l' off :
  pool lists alloc (Some (o, off)) → lists !! o = Some l → StronglySorted Z.lt l' →
  (∀ x, x ∈ l' ↔ x ∈ l ∨ x = off) → ((S o < n)%nat → Z.lxor off (bsize o) ∉ l) →
  pool (<[o := l']> lists) alloc None.
Proof.
  intros [Hlen Hs Ha Ht Hc] Hl Hs' Hl' Hbud.
  assert (blk lists alloc (Some (o, off)) KHeld o off) as HP by done.
  assert (∀ q1 o1 off1, (blk lists alloc (Some (o, off)) q1 o1 off1 ∧ off1 ≠ off) ∨
    (q1 = KFree ∧ o1 = o ∧ off1 = off) ↔ blk (<[o := l']> lists) alloc None q1 o1 off1) as Heq.
  { intros q1 o1 off1. pose proof (λ q1 o1 H1, blk_inj _ _ _ q1 o1 _ _ off Ht H1 HP) as Hinj.
    destruct q1; cbn [blk].
    - rewrite (free_update _ _ _ _ _ _ Hl), Hl'. split.
      + intros [[(l1 & Hl1 & Hx) Hne]|(_ & -> & ->)]; [|by auto].
        destruct (decide (o1 = o)) as [->|]; [left; naive_solver|right; by eauto].
      + intros [(-> & [Hx| ->])|(Hne & l1 & Hl1 & Hx)]; [|by auto|].
        * left. split; [by eauto|]. intros ->. destruct (Hinj KFree o) as [? _]; [by exists l|done].
        * left. split; [by eauto|]. intros ->. destruct (Hinj KFree o1) as [? _]; [by exists l1|done].
    - split; [by intros [[? ?]|(? & _)]|]. intros H1. left. split; [done|]. intros ->.
      by destruct (Hinj KAlloc o1 H1).
    - split; [intros [[[= <- <-] ?]|(? & _)]; done|done]. }
  split; [by rewrite length_insert|by apply sorted_update|done| |].
  - eapply tiling_ext; [exact Heq|]. eapply (tiling_retag k Hk n T _ KHeld KFree); done.
  - intros o1 off1 H1 Hn1 H2. apply Heq in H1, H2.
    destruct H1 as [[H1 _]|(_ & Ho1 & Hoff1)], H2 as [[H2 _]|(_ & Ho2 & Hx)];
      [by apply (Hc o1 off1)|..]; subst o1; try subst off1.
    + apply (Hbud Hn1). destruct H1 as (l1 & Hl1 & H1). replace l with l1 by congruence.
      by replace (Z.lxor off (bsize o)) with off1
        by (by rewrite <- Hx, Z.lxor_assoc, Z.lxor_nilpotent, Z.lxor_0_r).
    + apply (Hbud Hn1). destruct H2 as (l1 & Hl1 & H2). by replace l with l1 by congruence.
    + assert (bsize o = 0) as H0; [|pose proof (bsize_pos k Hk o); lia].
      transitivity (Z.lxor off (Z.lxor off (bsize o))); [|by rewrite Hx, Z.lxor_nilpotent].
      by rewrite <- Z.lxor_assoc, Z.lxor_nilpotent, Z.lxor_0_l.
Qed.

(** The held block is recorded as allocated, and an allocated block is taken
    out of the record. *)
Lemma pool_record lists alloc o off :
  pool lists alloc (Some (o, off)) → pool lists (<[off := bsize o]> alloc) None ∧ alloc !! off = None.
Proof.
  intros [Hlen Hs Ha Ht Hc].
  assert (blk lists alloc (Some (o, off)) KHeld o off) as HP by done.
  assert ((o < n)%nat) as Ho by (destruct (ti_valid _ _ _ _ Ht _ _ _ HP); done).
  assert (∀ q1 o1, blk lists alloc (Some (o, off)) q1 o1 off → q1 = KHeld ∧ o1 = o) as Hinj.
  { intros q1 o1 H1. by apply (blk_inj _ _ _ q1 o1 _ _ off Ht H1 HP). }
  assert (alloc !! off = None) as Hnone.
  { apply eq_None_not_Some. intros [sz Hsz]. destruct (Ha _ _ Hsz) as (o1 & Ho1 & ->).
    by destruct (Hinj KAlloc o1 (conj Ho1 Hsz)). }
  split; [|done]. split; [done|done| | |].
  - intros off1 sz1 [[<- <-]|[_ H1]]%lookup_insert_Some; [by exists o|by eapply Ha].
  - eapply tiling_ext; [|by eapply (tiling_retag k Hk n T _ KHeld KAlloc)].
    intros q1 o1 off1. destruct q1; cbn [blk].
    + split; [intros [[? ?]|(? & _)]; done|]. intros H1. left. split; [done|]. intros ->.
      by destruct (Hinj KFree o1 H1).
    + rewrite lookup_insert_Some. split.
      * intros [[[H1 H2] ?]|(_ & -> & ->)]; [split; [done|by right]|split; [done|by left]].
      * intros [H1 [[<- Hb]|[? ?]]]; [|by left]. right. split_and!; [done| |done].
        apply (Z.pow_inj_r 2) in Hb; lia.
    + split; [intros [[[= <- <-] ?]|(? & _)]; done|done].
  - intros o1 off1 H1 Hn1 H2. by apply (Hc o1 off1).
Qed.

Lemma pool_unrecord lists alloc o off :
  pool lists alloc None → (o < n)%nat → alloc !! off = Some (bsize o) →
  pool lists (delete off alloc) (Some (o, off)).
Proof.
  intros [Hlen Hs Ha Ht Hc] Ho Hoff.
  assert (blk lists alloc None KAlloc o off) as HP by done.
  assert (∀ q1 o1, blk lists alloc None q1 o1 off → q1 = KAlloc ∧ o1 = o) as Hinj.
  { intros q1 o1 H1. by apply (blk_inj _ _ _ q1 o1 _ _ off Ht H1 HP). }
  split; [done|done| | |].
  - intros off1 sz1 [_ H1]%lookup_delete_Some. by eapply Ha.
  - eapply tiling_ext; [|by eapply (tiling_retag k Hk n T _ KAlloc KHeld)].
    intros q1 o1 off1. destruct q1; cbn [blk].
    + split; [intros [[? ?]|(? & _)]; done|]. intros H1. left. split; [done|]. intros ->.
      by destruct (Hinj KFree o1 H1).
    + rewrite lookup_delete_Some. split; [intros [[[? ?] ?]|(? & _)]; naive_solver|naive_solver].
    + split; [intros [[? ?]|(_ & -> & ->)]; done|]. intros [= <- <-]. by right.
  - intros o1 off1 H1 Hn1 H2. by apply (Hc o1 off1).
Qed.

(** The held block is halved. *)
Lemma pool_split lists alloc o off :
  pool lists alloc (Some (S o, off)) → lists !! o = Some [] →
  pool (<[o := [off + bsize o]]> lists) alloc (Some (o, off)).
Proof.
  intros [Hlen Hs Ha Ht Hc] Hl.
  assert (blk lists alloc (Some (S o, off)) KHeld (S o) off) as HP by done.
  assert (∀ q1 o1 off1, (blk lists alloc (Some (S o, off)) q1 o1 off1 ∧ off1 ≠ off) ∨
      (q1 = KHeld ∧ o1 = o ∧ off1 = off) ∨ (q1 = KFree ∧ o1 = o ∧ off1 = off + bsize o)
    ↔ blk (<[o := [off + bsize o]]> lists) alloc (Some (o, off)) q1 o1 off1) as Heq.
  { intros q1 o1 off1. pose proof (λ q1 o1 H1, blk_inj _ _ _ q1 o1 _ _ off Ht H1 HP) as Hinj.
    destruct q1; cbn [blk].
    - rewrite (free_update _ _ _ _ _ _ Hl), list_elem_of_singleton. split.
      + intros [[(l1 & Hl1 & Hx) Hne]|[(? & _)|(_ & -> & ->)]]; [|done|by left].
        right. split; [|by eauto]. intros ->. rewrite Hl in Hl1. injection Hl1 as <-. by apply elem_of_nil in Hx.
      + intros [(-> & ->)|(Hne & l1 & Hl1 & Hx)]; [by auto|]. left. split; [by eauto|]. intros ->.
        by destruct (Hinj KFree o1) as [? _]; [exists l1|].
    - split; [by intros [[? ?]|[(? & _)|(? & _)]]|]. intros H1. left. split; [done|]. intros ->.
      by destruct (Hinj KAlloc o1 H1).
    - split; [intros [[[= <- <-] ?]|[(_ & -> & ->)|(? & _)]]; done|]. intros [= <- <-]. by auto. }
  split; [by rewrite length_insert|apply sorted_update; [done|repeat constructor]|done| |].
  - eapply tiling_ext; [exact Heq|]. by apply (tiling_split k Hk n T).
  - intros o1 off1 H1 Hn1 H2. cbn [blk] in H1, H2.
    rewrite (free_update _ _ _ _ _ _ Hl), list_elem_of_singleton in H1.
    rewrite (free_update _ _ _ _ _ _ Hl), list_elem_of_singleton in H2.
    destruct H1 as [(-> & ->)|(Hne & H1)], H2 as [(? & Hx)|(Hne' & H2)]; try done; [|by apply (Hc o1 off1)].
    assert (Z.lxor (off + bsize o) (Z.lxor (off + bsize o) (bsize o)) = 0) as H0 by (by rewrite Hx, Z.lxor_nilpotent).
    rewrite <- Z.lxor_assoc, Z.lxor_nilpotent, Z.lxor_0_l in H0. pose proof (bsize_pos k Hk o). lia.
Qed.

(** The held block is joined with its free buddy. *)
Lemma pool_join lists alloc o l l' off :
  let buddy := Z.lxor off (bsize o) in
  pool lists alloc (Some (o, off)) → lists !! o = Some l → (S o < n)%nat → buddy ∈ l →
  StronglySorted Z.lt l' → (∀ x, x ∈ l' ↔ x ∈ l ∧ x ≠ buddy) →
  pool (<[o := l']> lists) alloc (Some (S o, Z.min off buddy)).
Proof.
  intros buddy [Hlen Hs Ha Ht Hc] Hl Hn1 Hin Hs' Hl'.
  assert (blk lists alloc (Some (o, off)) KHeld o off) as HP by done.
  assert (blk lists alloc (Some (o, off)) KFree o buddy) as HB by by exists l.
  assert (∀ q1 o1 off1, (blk lists alloc (Some (o, off)) q1 o1 off1 ∧ off1 ≠ off ∧ off1 ≠ buddy) ∨
      (q1 = KHeld ∧ o1 = S o ∧ off1 = Z.min off buddy)
    ↔ blk (<[o := l']> lists) alloc (Some (S o, Z.min off buddy)) q1 o1 off1) as Heq.
  { intros q1 o1 off1. pose proof (λ q1 o1 H1, blk_inj _ _ _ q1 o1 _ _ off Ht H1 HP) as Hinj.
    pose proof (λ q1 o1 H1, blk_inj _ _ _ q1 o1 _ _ buddy Ht H1 HB) as Hinj'.
    destruct q1; cbn [blk].
    - rewrite (free_update _ _ _ _ _ _ Hl), Hl'. split.
      + intros [[(l1 & Hl1 & Hx) [Hne Hne']]|(? & _)]; [|done].
        destruct (decide (o1 = o)) as [->|]; [left; naive_solver|right; by eauto].
      + intros H1. left. assert (∃ l1, lists !! o1 = Some l1 ∧ off1 ∈ l1) as H1'
          by (destruct H1 as [(-> & ? & _)|(_ & ?)]; [by exists l|done]).
        split; [done|]. split; intros ->; [by destruct (Hinj KFree o1 H1')|].
        destruct (Hinj' KFree o1 H1') as [_ ->]. destruct H1 as [(_ & _ & ?)|(? & _)]; done.
    - split; [by intros [[? ?]|(? & _)]|]. intros H1. left. split; [done|].
      split; intros ->; [by destruct (Hinj KAlloc o1 H1)|by destruct (Hinj' KAlloc o1 H1)].
    - split; [intros [[[= <- <-] [? _]]|(_ & -> & ->)]; done|]. intros [= <- <-]. by auto. }
  split; [by rewrite length_insert|by apply sorted_update|done| |].
  - eapply tiling_ext; [exact Heq|]. by apply (tiling_join k Hk n T).
  - intros o1 off1 H1 Hn1' H2. apply Heq in H1 as [[H1 _]|(? & _)]; [|done].
    apply Heq in H2 as [[H2 _]|(? & _)]; [|done]. by apply (Hc o1 off1).
Qed.

(** ** Allocation *)
Lemma sized o : (o < n)%nat → size_for_order o B = Ok (bsize o).
Proof. intros Ho. apply size_for_order_ok; [done|]. pose proof (bsize_le_T o Ho). pose proof (bsize_pos k Hk o). lia. Qed.

(** The loop that splits: every list it pushes to is empty. *)
Lemma split_ok o requested lists alloc off :
  pool lists alloc (Some (o, off)) → (requested ≤ o)%nat →
  (∀ j l, (requested ≤ j < o)%nat → lists !! j = Some l → l = []) →
  ∃ lists', BufferAllocator.split B off o requested lists = Ok lists' ∧
    pool lists' alloc (Some (requested, off)).
Proof.
  revert lists. induction o as [|o IH]; intros lists Hp Hle Hemp; cbn [BufferAllocator.split].
  { replace requested with 0%nat by lia. by exists lists. }
  destruct (Nat.ltb_spec requested (S o)) as [Hlt|Hge]; [|replace requested with (S o) by lia; by exists lists].
  assert ((S o < n)%nat ∧ off + bsize (S o) ≤ T) as [Hn1 HT].
  { destruct (ti_valid _ _ _ _ (po_tiling _ _ _ Hp) KHeld (S o) off) as (? & _ & _ & ?); done. }
  destruct (lookup_lt_is_Some_2 lists o) as [l Hl]; [rewrite (po_len _ _ _ Hp); lia|].
  rewrite Hl. res_simpl. rewrite (Hemp o l) in * by (done || lia). rewrite bool_decide_eq_true_2 by done. res_simpl.
  rewrite sized by lia. res_simpl.
  assert (0 ≤ off) by (destruct (ti_valid _ _ _ _ (po_tiling _ _ _ Hp) KHeld (S o) off) as (_ & ? & _); done).
  rewrite (bsize_S k) in HT by done. pose proof (bsize_pos k Hk o).
  rewrite u64_add_ok by lia. res_simpl. unfold push_free. rewrite Hl. res_simpl. cbn [app].
  apply IH; [by apply pool_split|lia|]. intros j l1 Hj. rewrite list_lookup_insert_ne by lia. apply Hemp. lia.
Qed.

Lemma pick_order_spec lists i :
  match BufferAllocator.pick_order lists i with
  | Some o => ∃ j l, o = (i + j)%nat ∧ lists !! j = Some l ∧ l ≠ [] ∧
      ∀ j' l', (j' < j)%nat → lists !! j' = Some l' → l' = []
  | None => ∀ j l, lists !! j = Some l → l = []
  end.
Proof.
  revert i. induction lists as [|l lists IH]; intros i; cbn [BufferAllocator.pick_order]; [done|].
  destruct l as [|x l].
  - specialize (IH (S i)). destruct (BufferAllocator.pick_order lists (S i)) as [o|].
    + destruct IH as (j & l & -> & Hj & Hne & Hb). exists (S j), l. split_and!; [lia|done|done|].
      intros [|j'] l' Hlt Hl'; cbn in Hl'; [congruence|]. apply (Hb j'); [lia|done].
    + intros [|j] l Hl; cbn in Hl; [congruence|by eapply IH].
  - exists 0%nat, (x :: l). split_and!; [lia|done|done|]. intros j' l' Hlt. lia.
Qed.

Lemma sorted_pop l off :
  StronglySorted Z.lt l → last l = Some off →
  StronglySorted Z.lt (take (length l - 1) l) ∧ off ∈ l ∧
  ∀ x, x ∈ take (length l - 1) l ↔ x ∈ l ∧ x ≠ off.
Proof.
  intros Hs Hlast. apply last_Some in Hlast as [l' ->].
  rewrite length_app. cbn [length]. replace (length l' + 1 - 1)%nat with (length l') by lia.
  rewrite take_app_length. apply StronglySorted_app in Hs as (Hlt & Hs & _).
  split_and!; [done|set_solver|]. intros x. rewrite elem_of_app, list_elem_of_singleton.
  split; [|tauto]. intros Hx. split; [by left|]. specialize (Hlt x off Hx ltac:(set_solver)). lia.
Qed.

(** The blocks of the pool that are at least as large as a request. *)
Definition serves lists (size : Z) : Prop := ∃ o l, lists !! o = Some l ∧ l ≠ [] ∧ size ≤ bsize o.

Lemma try_allocate_ok s size o :
  pool (free_lists s) (allocation_map s) None → 0 ≤ size ≤ source →
  order size B = Ok o → size ≤ bsize o → (∀ o', size ≤ bsize o' → (o ≤ o')%nat) → (o < n)%nat →
  match BufferAllocator.try_allocate_buffer B source size s with
  | (Ok (Some r), s') =>
      end_ r = start r + size ∧ allocation_map s !! start r = None ∧
      allocation_map s' = <[start r := bsize o]> (allocation_map s) ∧
      pool (free_lists s') (allocation_map s') None
  | (Ok None, s') => s' = s ∧ ¬ serves (free_lists s) size
  | _ => False
  end.
Proof.
  intros Hp Hsize Hord Ho Hmin Hn. unfold BufferAllocator.try_allocate_buffer.
  destruct (Z.ltb_spec source size); [lia|]. st_simpl. rewrite Hord. st_simpl.
  rewrite (po_len _ _ _ Hp), (proj2 (Nat.ltb_lt _ _) Hn). cbn [rassert].
  pose proof (pick_order_spec (drop o (free_lists s)) o) as Hpick.
  destruct (BufferAllocator.pick_order _ _) as [oo|].
  2: { cbn. split; [done|]. intros (o' & l & Hl & Hne & Hle). apply Hne, (Hpick (o' - o)%nat).
    specialize (Hmin o' Hle). rewrite lookup_drop. by replace (o + (o' - o))%nat with o' by lia. }
  destruct Hpick as (j & l & -> & Hl & Hne & Hemp). rewrite lookup_drop in Hl. st_simpl. rewrite Hl. st_simpl.
  destruct (last l) as [off|] eqn:Elast; [|by apply last_None in Elast]. cbn [unwrap]. st_simpl.
  destruct (sorted_pop l off) as (Hs' & Hin & Hl'); [by eapply (po_sorted _ _ _ Hp)|done|].
  pose proof (pool_take _ _ _ _ _ _ Hp Hl Hin Hs' Hl') as Hp1.
  destruct (split_ok (o + j) o _ _ _ Hp1) as (lists' & -> & Hp2); [lia| |].
  { intros j' l1 Hj'. rewrite list_lookup_insert_ne by lia. intros Hl1.
    apply (Hemp (j' - o)%nat); [lia|]. rewrite lookup_drop. by replace (o + (j' - o))%nat with j' by lia. }
  st_simpl. rewrite sized by done. st_simpl.
  destruct (ti_valid _ _ _ _ (po_tiling _ _ _ Hp2) KHeld o off) as (_ & H0 & _ & HT); [done|].
  pose proof (bsize_pos k Hk o). rewrite u64_add_ok by lia. st_simpl.
  rewrite (proj2 (Z.ltb_lt off source)), (proj2 (Z.leb_le (off + size) source)) by lia. cbn.
  apply pool_record in Hp2 as [Hp2 Hnone]. by split_and!.
Qed.

(** ** Freeing *)
Lemma merge_slots_ok fuel lists alloc o off :
  pool lists alloc (Some (o, off)) → (n < o + fuel)%nat →
  ∃ off' o' lists' l, BufferAllocator.merge_slots B fuel off o lists = Ok (off', o', lists') ∧
    pool lists' alloc (Some (o', off')) ∧ (o ≤ o')%nat ∧ lists' !! o' = Some l ∧
    ((S o' < n)%nat → Z.lxor off' (bsize o') ∉ l).
Proof.
  revert lists o off. induction fuel as [|fuel IH]; intros lists o off Hp Hf; cbn [BufferAllocator.merge_slots].
  { destruct (ti_valid _ _ _ _ (po_tiling _ _ _ Hp) KHeld o off); [done|lia]. }
  assert ((o < n)%nat) as Hon by (by destruct (ti_valid _ _ _ _ (po_tiling _ _ _ Hp) KHeld o off)).
  rewrite (po_len _ _ _ Hp). destruct (lookup_lt_is_Some_2 lists o) as [l Hl]; [rewrite (po_len _ _ _ Hp); lia|].
  destruct (Nat.ltb_spec o (n - 1)) as [Hlt|Hge].
  2: { exists off, o, lists, l. split_and!; [done..|]. intros. lia. }
  unfold BufferAllocator.find_buddy. rewrite sized by done. res_simpl. rewrite Hl. res_simpl.
  pose proof (po_sorted _ _ _ Hp _ _ Hl) as Hs. destruct (binary_search l (Z.lxor off (bsize o))) as [i|i] eqn:E.
  - apply binary_search_found in E as (Hin & Hs' & Hl'); [|done].
    destruct (IH (<[o := delete i l]> lists) (S o) (Z.min off (Z.lxor off (bsize o))))
      as (off' & o' & lists' & l1 & Hm & Hp' & Ho' & Hl1 & Hb); [eapply pool_join; try done; lia|lia|].
    exists off', o', lists', l1. split_and!; [done..|lia|done|done].
  - apply binary_search_missing in E as (Hnin & _); [|done]. exists off, o, lists, l. by split_and!.
Qed.

Lemma free_buffer_ok s r o :
  pool (free_lists s) (allocation_map s) None → (o < n)%nat →
  allocation_map s !! start r = Some (bsize o) → start r ≤ end_ r ≤ start r + bsize o →
  ∃ s', BufferAllocator.free_buffer B r s = (Ok tt, s') ∧
    allocation_map s' = delete (start r) (allocation_map s) ∧
    pool (free_lists s') (allocation_map s') None ∧ serves (free_lists s') (bsize o).
Proof.
  intros Hp Ho Hal Hr. unfold BufferAllocator.free_buffer. st_simpl. rewrite Hal. st_simpl.
  pose proof (ti_valid _ _ _ _ (po_tiling _ _ _ Hp) KAlloc o (start r) (conj Ho Hal)) as (_ & H0 & _ & HT).
  pose proof (bsize_le_T o Ho). pose proof (bsize_pos k Hk o).
  assert (B ≤ source) by (pose proof (bsize_mono k 0 o ltac:(lia)) as Hm; rewrite (bsize_0 k) in Hm; lia).
  rewrite u64_sub_ok by lia. st_simpl. rewrite (proj2 (Z.leb_le _ _)) by lia. cbn [rassert]. st_simpl.
  rewrite (order_bsize k Hk source) by (done || lia). st_simpl.
  pose proof (pool_unrecord _ _ _ _ Hp Ho Hal) as Hp1.
  destruct (merge_slots_ok (S (length (free_lists s))) _ _ _ _ Hp1) as (off & o' & lists & l & -> & Hp2 & Hoo & Hl & Hbud).
  { rewrite (po_len _ _ _ Hp). lia. }
  st_simpl. rewrite Hl. st_simpl. pose proof (po_sorted _ _ _ Hp2 _ _ Hl) as Hs.
  destruct (binary_search l off) as [i|i] eqn:E.
  - apply binary_search_found in E as (Hin & _); [|done]. exfalso.
    destruct (blk_inj _ _ _ KFree o' KHeld o' off (po_tiling _ _ _ Hp2)); [by exists l|done|done].
  - apply binary_search_missing in E as (_ & Hs' & Hl'); [|done].
    eexists. split; [done|]. split; [done|]. split; [by eapply pool_put|]. cbn [free_lists].
    exists o', (take i l ++ off :: drop i l). split_and!; [|by destruct (take i l)|by apply bsize_mono].
    apply list_lookup_insert_eq. by eapply lookup_lt_Some.
Qed.

(** ** An idle pool *)

(** Without outstanding buffers, an aligned stretch of a block's size lies in
    one free block: were it in pieces, two of them would be free buddies. *)
Lemma idle_block lists o a :
  pool lists ∅ None → (o < n)%nat → 0 ≤ a → (bsize o | a) → a + bsize o ≤ T →
  ∃ o' off l, (o ≤ o')%nat ∧ lists !! o' = Some l ∧ off ∈ l ∧ off ≤ a < off + bsize o'.
Proof.
  intros Hp. pose proof (po_tiling _ _ _ Hp) as Ht. revert a.
  assert (∀ a, 0 ≤ a < T → ∃ o' off, blk lists ∅ None KFree o' off ∧ off ≤ a < off + bsize o') as Hcov.
  { intros a Ha. destruct (ti_cover _ _ _ _ Ht a Ha) as (q & o' & off & Hq & Hin).
    destruct q; [by exists o', off|by destruct Hq|done]. }
  induction o as [|o IH]; intros a Ho H0 Hdiv HT.
  { pose proof (bsize_pos k Hk 0). destruct (Hcov a) as (o' & off & (l & Hl & Hin) & Ha); [lia|].
    exists o', off, l. split_and!; [lia|done|done|lia|lia]. }
  pose proof (bsize_S k Hk o) as HS. pose proof (bsize_pos k Hk o) as Hpos.
  assert (bsize o | a) as Hda by (etransitivity; [apply bsize_divide|exact Hdiv]; lia).
  destruct (IH a) as (o1 & off1 & l1 & Ho1 & Hl1 & Hin1 & Ha1); [lia|lia|done|lia|].
  destruct (decide (S o ≤ o1)%nat) as [|Hno1]; [by exists o1, off1, l1|]. assert (o1 = o) as -> by lia.
  destruct (IH (a + bsize o)) as (o2 & off2 & l2 & Ho2 & Hl2 & Hin2 & Ha2);
    [lia|lia|by apply Z.divide_add_r|lia|].
  assert (∀ j off, (j < n)%nat → (bsize j | off) → (bsize j | a) → off ≤ a < off + bsize j → off = a) as Hal.
  { intros j off Hj [x ->] [y ->] Hx. pose proof (bsize_pos k Hk j). assert (x = y) by nia. lia. }
  assert (off1 = a) as ->.
  { apply (Hal o); [lia| |done|done]. by destruct (ti_valid _ _ _ _ Ht KFree o off1) as (_ & _ & ? & _); [exists l1|]. }
  exfalso. destruct (ti_valid _ _ _ _ Ht KFree o2 off2) as (Hn2 & _ & Hd2 & _); [by exists l2|].
  destruct (decide (o2 = o)) as [->|Hne].
  - assert (off2 = a + bsize o) as ->.
    { destruct Hd2 as [x ->], Hda as [y ->]. assert (x = y + 1) by nia. lia. }
    destruct (buddy_cases k Hk o a Hda) as [[_ Hb]|[Hd' _]].
    + apply (po_coalesced _ _ _ Hp o a); [by exists l1|done|]. rewrite Hb. by exists l2.
    + assert (bsize (S o) | bsize o) as Hbad.
      { replace (bsize o) with (a - (a - bsize o)) by lia. by apply Z.divide_sub_r. }
      apply Z.divide_pos_le in Hbad; lia.
  - (* The second half lies in a larger block, which then holds the first half too. *)
    assert (bsize (S o) | off2) as Hd2' by (etransitivity; [apply bsize_divide|exact Hd2]; lia).
    assert (off2 ≤ a) as Hle.
    { destruct Hd2' as [x ->], Hdiv as [y ->]. assert (x ≤ y); [|nia]. nia. }
    destruct (ti_disjoint _ _ _ _ Ht KFree o a KFree o2 off2 a) as (_ & ? & _);
      [by exists l1|by exists l2|lia|lia|lia].
Qed.

(** ** The initial pool *)
Lemma initial_loop_ok fuel m off lists :
  length lists = n → (m < fuel)%nat → (m ≤ n)%nat → 0 ≤ off ≤ T → T - off < bsize m → (bsize m | off) → (B | T) →
  tiling k n off (blk lists ∅ None) →
  (∀ o l, lists !! o = Some l → (o < m)%nat ∧ l = [] ∨ (m ≤ o)%nat ∧ (length l ≤ 1)%nat) →
  ∃ lists', initial_loop fuel T B off lists = Ok lists' ∧ length lists' = n ∧
    tiling k n T (blk lists' ∅ None) ∧ ∀ o l, lists' !! o = Some l → (length l ≤ 1)%nat.
Proof.
  intros Hlen. revert m off lists Hlen. induction fuel as [|fuel IH]; [lia|].
  intros m off lists Hlen Hf Hmn Hoff Hrest Hdiv HBT Ht Hl. cbn [initial_loop].
  destruct (Z.ltb_spec off T) as [Hlt|Hge].
  2: { assert (off = T) as -> by lia. exists lists. split_and!; [done..|].
    intros o l Ho. destruct (Hl o l Ho) as [[_ ->]|[_ ?]]; [cbn; lia|done]. }
  pose proof (B_pos k Hk) as HB. assert (B | off) as HBoff.
  { etransitivity; [|exact Hdiv]. rewrite <- (bsize_0 k). apply bsize_divide; lia. }
  assert (B | T - off) as HBr by by apply Z.divide_sub_r. pose proof (Z.divide_pos_le B (T - off) ltac:(lia) HBr).
  rewrite u64_sub_ok by lia. res_simpl.
  destruct (order_fit_spec k Hk source Hlim) with (size := T - off) as (o & -> & Ho1 & Ho2); [lia|lia|done|].
  res_simpl. assert (o < m)%nat as Hom by (apply (bsize_lt k); lia).
  rewrite sized by lia. res_simpl. unfold push_free.
  destruct (lookup_lt_is_Some_2 lists o) as [l Hlo]; [lia|]. rewrite Hlo. res_simpl.
  destruct (Hl o l Hlo) as [[_ ->]|[? _]]; [|lia]. cbn [app]. pose proof (bsize_pos k Hk o).
  rewrite u64_add_ok by lia. res_simpl. assert (bsize o | off) as Hdo.
  { etransitivity; [|exact Hdiv]. apply bsize_divide; lia. }
  apply (IH o); [by rewrite length_insert|lia|lia|lia|rewrite (bsize_S k) in Ho2 by done; lia|
    by apply Z.divide_add_r|done| |].
  - eapply tiling_ext; [|apply (tiling_extend k Hk n off _ o Ht); [lia|lia|done]].
    intros q1 o1 off1. destruct q1; cbn [blk].
    + rewrite (free_update _ _ _ _ _ _ Hlo), list_elem_of_singleton. split.
      * intros [(l1 & Hl1 & Hx)|(_ & -> & ->)]; [|by left]. right. split; [|by eauto].
        intros ->. rewrite Hlo in Hl1. injection Hl1 as <-. by apply elem_of_nil in Hx.
      * intros [(-> & ->)|(_ & ?)]; by auto.
    + split; [intros [?|(? & _)]; done|by left].
    + split; [intros [?|(? & _)]; done|by left].
  - intros o1 l1 H1. apply list_lookup_insert_Some in H1 as [(<- & <- & _)|(Hne & H1)]; [right; split; cbn; lia|].
    destruct (Hl o1 l1 H1) as [[? ->]|[? ?]]; [|right; split; [lia|done]].
    destruct (decide (o1 < o)%nat); [by left|right; split; [lia|cbn; lia]].
Qed.
End pool.

(** ** The allocator *)

(** The state of an allocator of [2 ^ k]-byte blocks over a source. *)
Definition pool_wf (k source : Z) (s : Inner) : Prop :=
  let n := length (free_lists s) in
  let T := source / 2 ^ k * 2 ^ k in
  0 ≤ k ∧ 2 * source ≤ u64_max ∧ bsize k n ≤ 2 * T ∧ T < bsize k n ∧ (0 < n)%nat ∧
  pool k T n (free_lists s) (allocation_map s) None.

(** The size of its largest block. *)
Definition largest (k : Z) (s : Inner) : Z := bsize k (length (free_lists s) - 1).

Section theorems.
Implicit Types (k source size : Z) (s : Inner) (r : range).

Lemma whole_blocks k source : 0 ≤ k → source / 2 ^ k * 2 ^ k ≤ source < source / 2 ^ k * 2 ^ k + 2 ^ k.
Proof.
  intros Hk. pose proof (B_pos k Hk). pose proof (Z.mul_div_le source (2 ^ k)).
  pose proof (Z.mul_succ_div_gt source (2 ^ k)). lia.
Qed.

Lemma pool_wf_outstanding k source s off sz :
  pool_wf k source s → allocation_map s !! off = Some sz →
  0 ≤ off ∧ (2 ^ k | off) ∧ off + sz ≤ source ∧ 0 < sz ∧
  ∀ off' sz', allocation_map s !! off' = Some sz' → off' ≠ off → off' + sz' ≤ off ∨ off + sz ≤ off'.
Proof.
  intros (Hk & _ & _ & _ & _ & Hp) Hoff. pose proof (whole_blocks k source Hk).
  destruct (po_alloc _ _ _ _ _ _ Hp _ _ Hoff) as (o & Ho & ->). pose proof (bsize_pos k Hk o).
  pose proof (po_tiling _ _ _ _ _ _ Hp) as Ht.
  destruct (ti_valid _ _ _ _ Ht KAlloc o off (conj Ho Hoff)) as (_ & ? & Hd & ?).
  split_and!; [done| |lia|done|].
  - etransitivity; [|exact Hd]. rewrite <- (bsize_0 k). apply bsize_divide; lia.
  - intros off' sz' Hoff' Hne. destruct (po_alloc _ _ _ _ _ _ Hp _ _ Hoff') as (o' & Ho' & ->).
    pose proof (bsize_pos k Hk o'). destruct (decide (off' + bsize k o' ≤ off)) as [|Hn1]; [by left|].
    destruct (decide (off + bsize k o ≤ off')) as [|Hn2]; [by right|]. exfalso. apply Hne.
    destruct (ti_disjoint _ _ _ _ Ht KAlloc o' off' KAlloc o off (Z.max off off') (conj Ho' Hoff') (conj Ho Hoff))
      as (_ & _ & ?); [lia|lia|done].
Qed.

Lemma pool_wf_order k source s size :
  pool_wf k source s → 0 ≤ size ≤ largest k s →
  ∃ o, order size (2 ^ k) = Ok o ∧ size ≤ bsize k o ∧ (∀ o', size ≤ bsize k o' → (o ≤ o')%nat) ∧
    (o < length (free_lists s))%nat ∧ size ≤ source ∧ 2 ^ k ≤ source.
Proof.
  intros (Hk & Hlim & Hn & HT & H0 & Hp) Hsize. pose proof (whole_blocks k source Hk).
  unfold largest in Hsize.
  pose proof (bsize_le_T k Hk _ _ Hn (length (free_lists s) - 1) ltac:(lia)) as HleT.
  assert (2 ^ k ≤ source).
  { pose proof (bsize_mono k 0 (length (free_lists s) - 1) ltac:(lia)) as Hm. rewrite (bsize_0 k) in Hm. lia. }
  destruct (order_spec k Hk source Hlim) with (size := size) as (o & Ho & Hle & Hmin); [lia|lia|].
  exists o. specialize (Hmin _ (proj2 Hsize)) as Hlt. split_and!; [done|done|done|lia|lia|done].
Qed.

(** A new allocator tiles the whole blocks of its source with free blocks;
    its largest block is more than half of them. *)
Lemma pool_new_ok k source :
  0 ≤ k → 2 * source ≤ u64_max → 2 ^ k ≤ source →
  ∃ s, BufferAllocator.new (2 ^ k) source = Ok s ∧ pool_wf k source s ∧ allocation_map s = ∅ ∧
    largest k s ≤ source < 2 * largest k s + 2 ^ k.
Proof.
  intros Hk Hlim Hb. pose proof (B_pos k Hk) as HB. pose proof (whole_blocks k source Hk) as HT.
  set (T := source / 2 ^ k * 2 ^ k) in *. assert (2 ^ k ≤ T) as HBT.
  { unfold T. pose proof (Z.div_le_lower_bound source (2 ^ k) 1 ltac:(lia) ltac:(lia)). nia. }
  unfold BufferAllocator.new, initial_free_lists. rewrite round_down_val by (done || lia). res_simpl. fold T.
  rewrite (proj2 (Z.leb_le _ _)) by done. res_simpl.
  rewrite (proj2 (is_power_of_two_spec (2 ^ k) HB)) by (by rewrite Z.log2_pow2). res_simpl.
  destruct (order_fit_spec k Hk source Hlim) with (size := T) as (o & -> & Ho1 & Ho2);
    [lia|lia|by exists (source / 2 ^ k)|]. res_simpl. replace (o + 1)%nat with (S o) by lia.
  destruct (initial_loop_ok k Hk source T (S o) Hlim ltac:(lia)) with
    (fuel := S (S o)) (m := S o) (off := 0) (lists := replicate (S o) ([] : list Z))
    as (lists & -> & Hlen & Ht & Hshort); rewrite ?length_replicate; try lia; try done.
  { rewrite (bsize_S k) by done. lia. }
  { apply Z.divide_0_r. }
  { by exists (source / 2 ^ k). }
  { split; [intros q o' off Hq|intros q1 o1 off1 q2 o2 off2 p Hq|lia]; exfalso.
    - destruct q; [|by destruct Hq|done]. destruct Hq as (l & [-> _]%lookup_replicate & Hl). by apply elem_of_nil in Hl.
    - destruct q1; [|by destruct Hq|done]. destruct Hq as (l & [-> _]%lookup_replicate & Hl). by apply elem_of_nil in Hl. }
  { intros o' l [-> ?]%lookup_replicate. by left. }
  res_simpl. exists (mkInner lists ∅). unfold pool_wf, largest. cbn [free_lists allocation_map]. rewrite Hlen. fold T.
  replace (S o - 1)%nat with o by lia. rewrite !(bsize_S k) by done. rewrite (bsize_S k) in Ho2 by done.
  split_and!; [done|done|done|lia|lia|lia| |done|lia|lia]. split; [done| |done|done|].
  - intros o' l Hl. specialize (Hshort o' l Hl). destruct l as [|x [|y l]]; [repeat constructor..|cbn in Hshort; lia].
  - intros o' off (l & Hl & Hin) _ (l' & Hl' & Hin'). assert (l' = l) as -> by congruence.
    specialize (Hshort o' l Hl). destruct l as [|x [|y l]]; [by apply elem_of_nil in Hin| |cbn in Hshort; lia].
    apply list_elem_of_singleton in Hin as ->. apply list_elem_of_singleton in Hin'.
    assert (Z.lxor x (Z.lxor x (bsize k o')) = 0) as H0 by (by rewrite Hin', Z.lxor_nilpotent).
    rewrite <- Z.lxor_assoc, Z.lxor_nilpotent, Z.lxor_0_l in H0. pose proof (bsize_pos k Hk o'). lia.
Qed.

Lemma pool_wf_allocate k source s size :
  pool_wf k source s → 0 ≤ size ≤ largest k s →
  match BufferAllocator.try_allocate_buffer (2 ^ k) source size s with
  | (Ok (Some r), s') =>
      ∃ sz, allocation_map s' = <[start r := sz]> (allocation_map s) ∧ pool_wf k source s' ∧
        end_ r = start r + size ∧ size ≤ sz ∧ allocation_map s !! start r = None
  | (Ok None, s') => s' = s ∧ ¬ serves k (free_lists s) size
  | _ => False
  end.
Proof.
  intros Hwf Hsize. destruct (pool_wf_order _ _ _ _ Hwf Hsize) as (o & Ho & Hle & Hmin & Hlt & Hsrc & HB).
  pose proof Hwf as (Hk & Hlim & Hn & HT & H0 & Hp). pose proof (whole_blocks k source Hk) as [HTs _].
  pose proof (try_allocate_ok k Hk source _ _ Hlim HTs Hn s size o Hp ltac:(lia) Ho Hle Hmin Hlt) as Ht.
  destruct (BufferAllocator.try_allocate_buffer _ _ _ _) as [[[r|]| | |] s']; try done.
  destruct Ht as (He & Hnone & Hal & Hp'). exists (bsize k o). split_and!; try done.
  unfold pool_wf. by rewrite (po_len _ _ _ _ _ _ Hp').
Qed.

Lemma pool_wf_free k source s r sz :
  pool_wf k source s → allocation_map s !! start r = Some sz → start r ≤ end_ r ≤ start r + sz →
  ∃ s', BufferAllocator.free_buffer (2 ^ k) r s = (Ok tt, s') ∧ pool_wf k source s' ∧
    allocation_map s' = delete (start r) (allocation_map s) ∧ serves k (free_lists s') sz ∧ sz ≤ largest k s'.
Proof.
  intros (Hk & Hlim & Hn & HT & H0 & Hp) Hal Hr. pose proof (whole_blocks k source Hk) as [HTs _].
  destruct (po_alloc _ _ _ _ _ _ Hp _ _ Hal) as (o & Ho & ->).
  destruct (free_buffer_ok k Hk source _ _ Hlim HTs Hn s r o Hp Ho Hal Hr) as (s' & Hf & Ha & Hp' & Hs).
  exists s'. pose proof (po_len _ _ _ _ _ _ Hp') as Hlen. split_and!; [done| |done|done|].
  - unfold pool_wf. by rewrite Hlen.
  - unfold largest. rewrite Hlen. apply bsize_mono. lia.
Qed.

(** C39: What an allocation of at most the largest block gets: it never panics;
    a buffer it returns is block-aligned, within the source, large enough and
    apart from every outstanding buffer; and the caller is asked to wait only if
    no free block is large enough. *)
Theorem buffer_allocate k source s size :
  pool_wf k source s → 0 ≤ size ≤ largest k s →
  match BufferAllocator.try_allocate_buffer (2 ^ k) source size s with
  | (Ok (Some r), s') =>
      ∃ sz, allocation_map s' = <[start r := sz]> (allocation_map s) ∧ pool_wf k source s' ∧
        0 ≤ start r ∧ (2 ^ k | start r) ∧ end_ r = start r + size ∧ size ≤ sz ∧ start r + sz ≤ source ∧
        ∀ off' sz', allocation_map s !! off' = Some sz' → off' + sz' ≤ start r ∨ start r + sz ≤ off'
  | (Ok None, s') => s' = s ∧ ¬ serves k (free_lists s) size
  | _ => False
  end.
Proof.
  intros Hwf Hsize. pose proof (pool_wf_allocate _ _ _ _ Hwf Hsize) as Ht.
  destruct (BufferAllocator.try_allocate_buffer _ _ _ _) as [[[r|]| | |] s']; try done.
  destruct Ht as (sz & Hal & Hwf' & He & Hle & Hnone).
  destruct (pool_wf_outstanding _ _ _ (start r) sz Hwf') as (? & ? & ? & ? & Hd);
    [rewrite Hal; apply lookup_insert_eq|].
  exists sz. split_and!; try done. intros off' sz' Hoff'. assert (off' ≠ start r) by (intros ->; congruence).
  apply Hd; [|done]. by rewrite Hal, lookup_insert_ne.
Qed.

(** Freeing an outstanding buffer never panics and takes exactly that
    buffer off the record; its space is available at once, joined with what is
    free around it: a request of up to the buffer's block succeeds next. *)
Theorem buffer_free k source s r sz size :
  pool_wf k source s → allocation_map s !! start r = Some sz → start r ≤ end_ r ≤ start r + sz →
  0 ≤ size ≤ sz →
  ∃ s', BufferAllocator.free_buffer (2 ^ k) r s = (Ok tt, s') ∧ pool_wf k source s' ∧
    allocation_map s' = delete (start r) (allocation_map s) ∧
    ∃ r' s'', BufferAllocator.try_allocate_buffer (2 ^ k) source size s' = (Ok (Some r'), s'').
Proof.
  intros Hwf Hal Hr Hsize. destruct (pool_wf_free _ _ _ _ _ Hwf Hal Hr) as (s' & Hf & Hwf' & Ha & Hs & Hl).
  exists s'. split_and!; [done..|]. pose proof (pool_wf_allocate k source s' size Hwf' ltac:(lia)) as Ht.
  destruct (BufferAllocator.try_allocate_buffer _ _ _ _) as [[[r'|]| | |] s'']; try done; [by exists r', s''|].
  destruct Ht as [_ Hno]. destruct Hs as (o & l & Hlo & Hne & Hle). exfalso. apply Hno.
  exists o, l. split_and!; [done..|lia].
Qed.

(** When every buffer has been freed the pool has coalesced: any request of
    at most the largest block succeeds at once. *)
Theorem buffer_idle_serves k source s size :
  pool_wf k source s → allocation_map s = ∅ → 0 ≤ size ≤ largest k s →
  ∃ r s', BufferAllocator.try_allocate_buffer (2 ^ k) source size s = (Ok (Some r), s').
Proof.
  intros Hwf Hidle Hsize. pose proof (pool_wf_allocate _ _ _ _ Hwf Hsize) as Ht.
  destruct (BufferAllocator.try_allocate_buffer _ _ _ _) as [[[r|]| | |] s']; try done; [by exists r, s'|].
  destruct Ht as [_ Hno]. exfalso. apply Hno. destruct Hwf as (Hk & Hlim & Hn & HT & H0 & Hp). rewrite Hidle in Hp.
  destruct (idle_block k Hk _ _ (free_lists s) (length (free_lists s) - 1) 0 Hp)
    as (o' & off & l & Ho' & Hl & Hin & _); [lia|done|apply Z.divide_0_r| |].
  { pose proof (bsize_le_T k Hk _ _ Hn (length (free_lists s) - 1)). lia. }
  exists o', l. split_and!; [done|by intros ->; apply elem_of_nil in Hin|].
  unfold largest in Hsize. pose proof (bsize_mono k _ _ Ho'). lia.
Qed.

(** ** Histories *)
Inductive buffer_step (k source : Z) : Inner → Inner → Prop :=
| step_allocate size s x s' :
    0 ≤ size ≤ largest k s →
    BufferAllocator.try_allocate_buffer (2 ^ k) source size s = (x, s') → buffer_step k source s s'
| step_free r sz s x s' :
    allocation_map s !! start r = Some sz → start r ≤ end_ r ≤ start r + sz →
    BufferAllocator.free_buffer (2 ^ k) r s = (x, s') → buffer_step k source s s'.

Lemma buffer_step_wf k source s s' : pool_wf k source s → buffer_step k source s s' → pool_wf k source s'.
Proof.
  intros Hwf Hst. destruct Hst as [size s x s' Hsize Hrun|r sz s x s' Hal Hr Hrun].
  - pose proof (pool_wf_allocate _ _ _ _ Hwf Hsize) as Ht. rewrite Hrun in Ht.
    destruct x as [[r|]| | |]; try done; [by destruct Ht as (? & _ & ? & _)|by destruct Ht as [-> _]].
  - destruct (pool_wf_free _ _ _ _ _ Hwf Hal Hr) as (s1 & Hf & ? & _). rewrite Hf in Hrun. by injection Hrun as _ <-.
Qed.

(** C38: An allocator over any source of at least one block can be created, with
    a largest block of more than half of its blocks; and whatever the history of
    allocations and frees from then on, the outstanding buffers are
    block-aligned, within the source, and never overlap. *)
Theorem buffers_never_overlap k source :
  0 ≤ k → 2 * source ≤ u64_max → 2 ^ k ≤ source →
  ∃ s0, BufferAllocator.new (2 ^ k) source = Ok s0 ∧ allocation_map s0 = ∅ ∧
    largest k s0 ≤ source < 2 * largest k s0 + 2 ^ k ∧
    ∀ s, rtc (buffer_step k source) s0 s → ∀ off sz, allocation_map s !! off = Some sz →
      0 ≤ off ∧ (2 ^ k | off) ∧ off + sz ≤ source ∧
      ∀ off' sz', allocation_map s !! off' = Some sz' → off' ≠ off → off' + sz' ≤ off ∨ off + sz ≤ off'.
Proof.
  intros Hk Hlim Hb. destruct (pool_new_ok k source Hk Hlim Hb) as (s0 & Hnew & Hwf & Hem & Hla).
  exists s0. split; [done|]. split; [done|]. split; [done|]. intros s Hst off sz Hoff. assert (pool_wf k source s) as Hwf'.
  { clear Hnew Hem Hla. induction Hst as [|s1 s2 s3 H12 _ IH]; [done|]. apply IH; [|done]. by eapply buffer_step_wf. }
  destruct (pool_wf_outstanding _ _ _ _ _ Hwf' Hoff) as (? & ? & ? & _ & ?). by split_and!.
Qed.

(** A request within the source but above the largest block panics: a
    source of twelve blocks has a largest block of eight. *)
Theorem buffer_allocate_panics :
  ∃ s, BufferAllocator.new 512 6144 = Ok s ∧ largest 9 s = 4096 ∧
    (BufferAllocator.try_allocate_buffer 512 6144 4097 s).1 = Panic ∧
    (BufferAllocator.try_allocate_buffer 512 6144 6144 s).1 = Panic.
Proof. eexists. split; [vm_compute; reflexivity|]. by vm_compute. Qed.
End theorems.

(** ** Instances: twelve blocks of 512 bytes *)
Definition twelve : Inner :=
  Eval vm_compute in match BufferAllocator.new 512 6144 with Ok s => s | _ => mkInner [] ∅ end.
(** The same with a buffer of 600 bytes outstanding. *)
Definition one_out : Inner :=
  Eval vm_compute in (BufferAllocator.try_allocate_buffer 512 6144 600 twelve).2.

Lemma twelve_wf : pool_wf 9 6144 twelve.
Proof.
  destruct (pool_new_ok 9 6144) as (s & Hs & Hwf & _); [lia|by vm_compute|by vm_compute|].
  assert (Ok s = Ok twelve) as [= ->]; [|done]. rewrite <- Hs. by vm_compute.
Qed.

Lemma one_out_wf : pool_wf 9 6144 one_out.
Proof.
  pose proof (pool_wf_allocate 9 6144 twelve 600 twelve_wf ltac:(by vm_compute)) as H.
  change (2 ^ 9) with 512 in H.
  destruct (BufferAllocator.try_allocate_buffer 512 6144 600 twelve) as [x s] eqn:E.
  assert (x = (BufferAllocator.try_allocate_buffer 512 6144 600 twelve).1) as Hx by (by rewrite E).
  vm_compute in Hx. subst x. destruct H as (_ & _ & H & _).
  assert (s = one_out) as <-; [|done].
  transitivity (BufferAllocator.try_allocate_buffer 512 6144 600 twelve).2; [by rewrite E|by vm_compute].
Qed.

Lemma buffer_allocate_witness :
  ∃ s' sz, BufferAllocator.try_allocate_buffer 512 6144 1000 one_out = (Ok (Some (5120 ..< 6120)), s') ∧
    pool_wf 9 6144 s' ∧ 1000 ≤ sz ∧
    ∀ off' sz', allocation_map one_out !! off' = Some sz' → off' + sz' ≤ 5120 ∨ 5120 + sz ≤ off'.
Proof.
  pose proof (buffer_allocate 9 6144 one_out 1000 one_out_wf ltac:(by vm_compute)) as H.
  change (2 ^ 9) with 512 in H.
  destruct (BufferAllocator.try_allocate_buffer 512 6144 1000 one_out) as [x s'] eqn:E.
  assert (x = (BufferAllocator.try_allocate_buffer 512 6144 1000 one_out).1) as Hx by (by rewrite E).
  vm_compute in Hx. subst x. destruct H as (sz & _ & Hwf & _ & _ & _ & Hle & _ & Hd).
  exists s', sz. split_and!; [reflexivity|exact Hwf|exact Hle|exact Hd].
Defined.

Lemma buffer_free_witness :
  ∃ s', BufferAllocator.free_buffer 512 (4096 ..< 4696) one_out = (Ok tt, s') ∧ pool_wf 9 6144 s' ∧
    allocation_map s' = delete 4096 (allocation_map one_out) ∧
    ∃ r' s'', BufferAllocator.try_allocate_buffer 512 6144 1024 s' = (Ok (Some r'), s'').
Proof.
  apply (buffer_free 9 6144 one_out (4096 ..< 4696) 1024 1024 one_out_wf); by vm_compute.
Defined.

Lemma buffer_idle_serves_witness :
  ∃ r s', BufferAllocator.try_allocate_buffer 512 6144 4096 twelve = (Ok (Some r), s').
Proof. apply (buffer_idle_serves 9 6144 twelve 4096 twelve_wf); by vm_compute. Defined.

Lemma buffers_never_overlap_witness :
  ∃ s0, BufferAllocator.new 512 6144 = Ok s0 ∧ allocation_map s0 = ∅ ∧
    ∀ s, rtc (buffer_step 9 6144) s0 s → ∀ off sz, allocation_map s !! off = Some sz →
      off + sz ≤ 6144.
Proof.
  destruct (buffers_never_overlap 9 6144) as (s0 & Hnew & Hem & _ & H); [by vm_compute..|].
  exists s0. split; [exact Hnew|]. split; [exact Hem|].
  intros s Hst off sz Hoff. exact (proj1 (proj2 (proj2 (H s Hst off sz Hoff)))).
Defined.
