(* ===== verification/BufferRef.v ===== *)
(** * Views of a transfer buffer

    [storage/lib/storage_device/src/buffer.rs]: [BufferRef] and
    [MutableBufferRef] carry a slice of the buffer source together with the
    range of the source it is; every way to cut a reference keeps the two in
    step, which is what lets a device address the bytes by their range. *)

From S2P Require Import Prelude Round.

(** A range argument: its two bounds. *)
Record bounds : Set := mkBounds { start_bound : Bound Z; end_bound : Bound Z }.

(** [&slice[range]]. *)
Definition slice_index (l : list Z) (b : bounds) : res (list Z) :=
  lo ← match start_bound b with
       | Included s => Ok s | Excluded s => u64_add s 1 | Unbounded => Ok 0
       end;
  hi ← match end_bound b with
       | Included e => u64_add e 1 | Excluded e => Ok e | Unbounded => Ok (Z.of_nat (length l))
       end;
  _ ← rassert ((lo <=? hi) && (hi <=? Z.of_nat (length l)));
  Ok (take (Z.to_nat (hi - lo)) (drop (Z.to_nat lo) l)).

(** [slice::split_at]. *)
Definition slice_split_at (l : list Z) (mid : Z) : res (list Z * list Z) :=
  _ ← rassert (mid <=? Z.of_nat (length l));
  Ok (take (Z.to_nat mid) l, drop (Z.to_nat mid) l).

Definition subrange (source : range) (b : bounds) : res range :=
  lo ← match start_bound b with
       | Included s => u64_add (start source) s
       | Excluded s => x ← u64_add (start source) s; u64_add x 1
       | Unbounded => Ok (start source)
       end;
  hi ← match end_bound b with
       | Included e => x ← u64_add (start source) e; u64_add x 1
       | Excluded e => u64_add (start source) e
       | Unbounded => Ok (end_ source)
       end;
  _ ← rassert (hi <=? end_ source);
  Ok (lo ..< hi).

Definition split_range (r : range) (mid : Z) : res (range * range) :=
  l ← u64_sub (end_ r) (start r);
  let base := start r in
  m ← u64_add base mid;
  e ← u64_add base l;
  Ok (base ..< m, m ..< e).

Record BufferRef : Set := mkRef {
  slice : list Z;
  ref_start : Z;
  ref_end : Z;
}.

Module BufferRef.
Definition len (r : BufferRef) : res Z := u64_sub (ref_end r) (ref_start r).
Definition is_empty (r : BufferRef) : bool := ref_end r =? ref_start r.
Definition as_slice (r : BufferRef) : list Z := slice r.
Definition range (r : BufferRef) : Round.range := ref_start r ..< ref_end r.

Definition subslice (r : BufferRef) (b : bounds) : res BufferRef :=
  s ← slice_index (slice r) b;
  q ← subrange (range r) b;
  Ok (mkRef s (start q) (end_ q)).

Definition split_at (r : BufferRef) (mid : Z) : res (BufferRef * BufferRef) :=
  s ← slice_split_at (slice r) mid;
  q ← split_range (range r) mid;
  Ok (mkRef s.1 (start q.1) (end_ q.1), mkRef s.2 (start q.2) (end_ q.2)).
End BufferRef.

Record MutableBufferRef : Set := mkMutRef {
  mut_slice : list Z;
  mut_range : range;
}.

Module MutableBufferRef.
Definition len (r : MutableBufferRef) : res Z := u64_sub (end_ (mut_range r)) (start (mut_range r)).
Definition is_empty (r : MutableBufferRef) : bool := end_ (mut_range r) =? start (mut_range r).

Definition into_ref (r : MutableBufferRef) : BufferRef :=
  mkRef (mut_slice r) (start (mut_range r)) (end_ (mut_range r)).

Definition subslice (r : MutableBufferRef) (b : bounds) : res BufferRef :=
  s ← slice_index (mut_slice r) b;
  q ← subrange (mut_range r) b;
  Ok (mkRef s (start q) (end_ q)).

Definition as_ref (r : MutableBufferRef) : res BufferRef := subslice r (mkBounds Unbounded Unbounded).

Definition reborrow (r : MutableBufferRef) : MutableBufferRef := mkMutRef (mut_slice r) (mut_range r).

Definition subslice_mut (r : MutableBufferRef) (b : bounds) : res MutableBufferRef :=
  s ← slice_index (mut_slice r) b;
  q ← subrange (mut_range r) b;
  Ok (mkMutRef s q).

Definition split_at (r : MutableBufferRef) (mid : Z) : res (BufferRef * BufferRef) :=
  s ← slice_split_at (mut_slice r) mid;
  q ← split_range (mut_range r) mid;
  Ok (mkRef s.1 (start q.1) (end_ q.1), mkRef s.2 (start q.2) (end_ q.2)).

Definition split_at_mut (r : MutableBufferRef) (mid : Z) : res (MutableBufferRef * MutableBufferRef) :=
  s ← slice_split_at (mut_slice r) mid;
  q ← split_range (mut_range r) mid;
  Ok (mkMutRef s.1 q.1, mkMutRef s.2 q.2).
End MutableBufferRef.

(** ** What a reference refers to *)

(** The bytes [a..b] of the source. *)
Definition bytes (mem : list Z) (a b : Z) : list Z := take (Z.to_nat (b - a)) (drop (Z.to_nat a) mem).

Definition views (mem : list Z) (s : list Z) (r : range) : Prop :=
  0 ≤ start r ≤ end_ r ∧ end_ r ≤ Z.of_nat (length mem) ∧ Z.of_nat (length mem) < u64_max ∧
  s = bytes mem (start r) (end_ r).

(** The offsets a range argument stands for in a slice of [n] bytes. *)
Definition from (b : bounds) : Z :=
  match start_bound b with Included s => s | Excluded s => s + 1 | Unbounded => 0 end.
Definition upto (b : bounds) (n : Z) : Z :=
  match end_bound b with Included e => e + 1 | Excluded e => e | Unbounded => n end.
Definition bounds_u64 (b : bounds) : Prop :=
  (∀ s, start_bound b = Included s ∨ start_bound b = Excluded s → is_u64 s) ∧
  (∀ e, end_bound b = Included e ∨ end_bound b = Excluded e → is_u64 e).

Section views.
Implicit Types (mem s : list Z) (r : range) (b : bounds).

Lemma length_bytes mem x y :
  0 ≤ x ≤ y → y ≤ Z.of_nat (length mem) → Z.of_nat (length (bytes mem x y)) = y - x.
Proof. intros. unfold bytes. rewrite length_take, length_drop. lia. Qed.

Lemma bytes_bytes mem x y lo hi :
  0 ≤ x → 0 ≤ lo ≤ hi → hi ≤ y - x →
  take (Z.to_nat (hi - lo)) (drop (Z.to_nat lo) (bytes mem x y)) = bytes mem (x + lo) (x + hi).
Proof.
  intros. unfold bytes. rewrite take_drop_commute, take_take, Nat.min_l by lia.
  rewrite <- take_drop_commute, drop_drop. f_equal; [lia|]. f_equal. lia.
Qed.

(** Cutting a view: the slice and the range stay in step. *)
Lemma cut_ok mem s r b :
  views mem s r → bounds_u64 b →
  (s ← slice_index s b; q ← subrange r b; Ok (s, q)) =
  if (from b <=? upto b (end_ r - start r)) && (upto b (end_ r - start r) <=? end_ r - start r)
  then Ok (bytes mem (start r + from b) (start r + upto b (end_ r - start r)),
           (start r + from b) ..< (start r + upto b (end_ r - start r)))
  else Panic.
Proof.
  intros (Hr & Hm & Hlim & ->) [Hs He]. unfold slice_index, subrange, from, upto.
  rewrite length_bytes by lia.
  destruct (start_bound b) as [|lo|lo], (end_bound b) as [|hi|hi]; cbn [andb];
    try (destruct (Hs lo) as [? ?]; [by auto|]); try (destruct (He hi) as [? ?]; [by auto|]).
  all: unfold u64_add; bsplit; res_simpl; cbn [andb]; res_simpl; bsplit; try lia; res_simpl; try done.
  all: bsplit; try lia; res_simpl; try done.
  all: cbn [andb rassert]; res_simpl; rewrite bytes_bytes by lia; apply f_equal, f_equal2; f_equal; lia.
Qed.

Lemma views_bytes mem r lo hi :
  0 ≤ start r → 0 ≤ lo ≤ hi → hi ≤ end_ r - start r → end_ r ≤ Z.of_nat (length mem) →
  Z.of_nat (length mem) < u64_max →
  views mem (bytes mem (start r + lo) (start r + hi)) ((start r + lo) ..< (start r + hi)).
Proof. intros. split_and!; cbn [start end_]; [lia..|done]. Qed.

(** Slicing a reference, mutable or not, gives a reference to the bytes
    asked for, relative to where the reference starts, and panics exactly if
    they are not all within it. *)
Theorem buffer_subslice mem (r : MutableBufferRef) b :
  views mem (mut_slice r) (mut_range r) → bounds_u64 b →
  let n := end_ (mut_range r) - start (mut_range r) in
  let q := (start (mut_range r) + from b) ..< (start (mut_range r) + upto b n) in
  if (from b <=? upto b n) && (upto b n <=? n) then
    ∃ s, MutableBufferRef.subslice_mut r b = Ok (mkMutRef s q) ∧
      BufferRef.subslice (MutableBufferRef.into_ref r) b = Ok (MutableBufferRef.into_ref (mkMutRef s q)) ∧
      MutableBufferRef.subslice r b = Ok (MutableBufferRef.into_ref (mkMutRef s q)) ∧ views mem s q
  else MutableBufferRef.subslice_mut r b = Panic ∧
       BufferRef.subslice (MutableBufferRef.into_ref r) b = Panic ∧ MutableBufferRef.subslice r b = Panic.
Proof.
  intros Hv Hb n q. pose proof (cut_ok mem _ _ b Hv Hb) as Hc. fold n in Hc. fold q in Hc.
  destruct r as [s r]. unfold MutableBufferRef.subslice_mut, MutableBufferRef.subslice, BufferRef.subslice,
    BufferRef.range, MutableBufferRef.into_ref. cbn [mut_slice mut_range slice ref_start ref_end] in *.
  replace (start r ..< end_ r) with r by (by destruct r).
  assert (0 ≤ from b) as Hf.
  { unfold from. destruct (start_bound b) eqn:E; [lia|..]; destruct Hb as [Hb _]; destruct (Hb k); rewrite ?E; auto; lia. }
  destruct ((from b <=? upto b n) && (upto b n <=? n)) eqn:Hle.
  - apply andb_true_iff in Hle as [H1%Z.leb_le H2%Z.leb_le].
    destruct (slice_index s b) as [s'| | |]; res_simpl in Hc; try done.
    destruct (subrange r b) as [q'| | |]; res_simpl in Hc; try done. injection Hc as -> ->. res_simpl.
    exists (bytes mem (start r + from b) (start r + upto b n)). split_and!; [done..|].
    destruct Hv as (? & ? & ? & _). apply views_bytes; lia.
  - destruct (slice_index s b) as [s'| | |]; res_simpl in Hc; try done; res_simpl; try done.
    destruct (subrange r b) as [q'| | |]; res_simpl in Hc; try done; res_simpl; done.
Qed.

(** Splitting a reference gives adjacent references to its two parts, and
    panics exactly if the point is past its end. *)
Theorem buffer_split mem (r : MutableBufferRef) mid :
  views mem (mut_slice r) (mut_range r) → 0 ≤ mid →
  let q := mut_range r in
  if mid <=? end_ q - start q then
    ∃ s1 s2, MutableBufferRef.split_at_mut r mid =
        Ok (mkMutRef s1 (start q ..< (start q + mid)), mkMutRef s2 ((start q + mid) ..< end_ q)) ∧
      views mem s1 (start q ..< (start q + mid)) ∧ views mem s2 ((start q + mid) ..< end_ q) ∧
      s1 ++ s2 = mut_slice r
  else MutableBufferRef.split_at_mut r mid = Panic.
Proof.
  intros (Hr & Hm & Hlim & Hs) Hmid q. unfold MutableBufferRef.split_at_mut, slice_split_at, split_range. fold q. fold q in Hr, Hm, Hs.
  rewrite Hs, length_bytes by lia. destruct (Z.leb_spec mid (end_ q - start q)); [|done]. res_simpl.
  rewrite u64_sub_ok by lia. res_simpl. rewrite u64_add_ok by lia. res_simpl. rewrite u64_add_ok by lia. res_simpl.
  eexists _, _. cbn [fst snd]. replace (start q + (end_ q - start q)) with (end_ q) by lia.
  split; [done|]. split_and!; [split_and!; cbn; try lia..|apply take_drop]; unfold bytes.
  - rewrite take_take. f_equal. lia.
  - rewrite skipn_firstn_comm, drop_drop. f_equal; [lia|]. f_equal. lia.
Qed.
End views.

(** ** Instances *)
Definition ten : list Z := [10; 11; 12; 13; 14; 15; 16; 17; 18; 19].
Definition ten_ref : MutableBufferRef := mkMutRef [12; 13; 14; 15; 16] (2 ..< 7).

Lemma buffer_subslice_witness :
  ∃ s, MutableBufferRef.subslice_mut ten_ref (mkBounds (Included 1) (Excluded 3)) = Ok (mkMutRef s (3 ..< 5)) ∧
    views ten s (3 ..< 5).
Proof.
  pose proof (buffer_subslice ten ten_ref (mkBounds (Included 1) (Excluded 3)) ltac:(by vm_compute)
    ltac:(split; intros ? [[= <-]|[= <-]]; by vm_compute)) as H.
  destruct H as (s & H1 & _ & _ & H2). exists s. split; [exact H1|exact H2].
Defined.

Lemma buffer_split_witness :
  ∃ s1 s2, MutableBufferRef.split_at_mut ten_ref 2 = Ok (mkMutRef s1 (2 ..< 4), mkMutRef s2 (4 ..< 7)) ∧
    views ten s1 (2 ..< 4) ∧ views ten s2 (4 ..< 7) ∧ s1 ++ s2 = [12; 13; 14; 15; 16].
Proof. apply (buffer_split ten ten_ref 2); by vm_compute. Defined.
